(* ===== verification/_CoqProject ===== *)
-Q . S2P
Prelude.v
StateMonad.v
Containers.v
Serialise.v
Hash.v
Archive.v
Paths.v
StorePaths.v
References.v
Derivations.v
Closure.v
LocalDB.v
Roots.v
GC.v
GCSafety.v
GCComplete.v
Locks.v
TempRoots.v
TempRootsSafety.v
StoreFiles.v
StoreOps.v
StoreIntegrity.v
ImportExport.v
Verify.v
VerifyTheorems.v
PermRoots.v
Inodes.v
Metadata.v
Optimise.v
GoalState.v
Goals.v
BuildGoals.v
BuildWorker.v
GoalInvariants.v
GoalLinks.v
GoalRules.v
BuildSafety.v
SubstitutionSafety.v
WorkerSafety.v
BuildExamples.v
BuildTheorems.v
Settings.v
Substituters.v
DaemonState.v
Daemon.v
DaemonSpec.v
DaemonSync.v
DaemonRequests.v
DaemonExamples.v
DaemonTheorems.v
DaemonPrivileges.v
DaemonReplies.v
