(* ===== verification/Prelude.v ===== *)
(** * Verification of the build daemon of GNU Guix (src/nix)

    The daemon keeps a store: a directory of immutable items named by hashes, and a
    database of the valid ones with their references. Clients ask it over a socket
    to add items, to build derivations, to fetch substitutes and to collect garbage.
    The C++ code has three layers, and the library follows them from the bottom up.

    ** libutil: bytes, hashes, archives, paths

    - Prelude, StateMonad, Containers: what the code uses of C++. Strings are lists
      of bytes; a computation returns or throws ([outcome]), with [Undefined] for
      undefined behaviour and [OutOfFuel] for a loop cut short; stateful code keeps its
      state when it throws; [std::set] and [std::map] are sorted lists.
    - Serialise (serialise.cc): buffered sinks and sources, the wire format.
      Buffering is invisible; readString accepts what writeString writes only.
    - Hash (hash.cc): hash values and their spellings, [HashSink]; libgcrypt is a
      parameter with the laws of its manual.
    - Archive (archive.cc): dumping, parsing and restoring trees. Restoring a dump
      gives the tree back; a hostile archive cannot leave its destination.
    - Paths (util.cc): canonPath and the other path functions.
    - StoreFiles (util.cc, hash.cc): reading, deleting, copying and hashing whole
      trees of the file system of Archive.

    ** libstore: the store

    - StorePaths (store-api.cc), References (references.cc), Derivations
      (derivations.cc), Closure (misc.cc): how store paths are computed, the exact
      search for references in a stream, the text and the hash of derivations,
      closures and topological sorting over any store ([StoreQueries]).
    - LocalDB (local-store.cc, sqlite.cc, schema.sql): the tables with their
      constraints, queries, registration and invalidation. Registration refines the
      specification of a set of facts, and keeps references valid and acyclic.
    - Roots, GC, GCSafety, GCComplete (gc.cc): roots and the collector. It deletes no
      live path whatever fails, deletes all garbage when nothing fails, and ends.
    - TempRoots, TempRootsSafety (gc.cc, pathlocks.cc, local-store.cc): temporary roots,
      the global lock and the locks of the files as steps of processes that may die at
      any point. A registered path is seen by every collection that starts later, and
      the processes never wait for each other in a circle; a process that collects
      while it has roots itself, and a collector killed between the unlink and the
      write of the token, are excluded, since they lose roots.
    - Locks (pathlocks.cc): lock files as a step relation over the system calls of
      several processes; locks exclude each other.
    - StoreOps, StoreIntegrity, ImportExport (local-store.cc): adding, exporting and
      importing items. The hash that the database records is the hash of the files;
      an import that demands a signature has checked it; exports are imported back.
    - Verify, VerifyTheorems (local-store.cc): the comparison of the database with the
      files. Without repairs it forgets only paths that are gone, reports every other
      difference, and reports nothing about an intact store.
    - PermRoots (gc.cc, util.cc): adding direct and indirect roots, on files. Every
      later search for roots finds them.
    - Inodes, Metadata, Optimise (local-store.cc, optimise-store.cc): files with
      inodes, owners, permissions and times; canonical metadata and deduplication by
      hard links.

    ** libstore/build.cc: goals and the worker

    - GoalState: goals are shared objects in a heap, kept alive by strong pointers;
      [Worker] has the queues and the children. What goals ask of the store, the
      system and the helper processes is a [call], answered by a [Handler]; the
      class [HandlerLaws] says what is assumed of the answers (process numbers are
      fresh, the substituter and the hook are processes, a message is not a failed
      assertion).
    - Goals: addWaitee, waiteeDone, amDone, the queues, destructors ([reclaim]).
      BuildGoals: one definition for each state function of [DerivationGoal] and
      [SubstitutionGoal]. BuildWorker: waitForInput, run, buildPaths, ensurePath,
      repairPath.
    - GoalInvariants, GoalLinks, GoalRules, BuildSafety, SubstitutionSafety,
      WorkerSafety: the invariant [Inv] of the worker and, by a weakest-precondition
      rule for each call and each state function, that every step keeps it, also one
      that throws.
    - BuildExamples: runs in small worlds, that work and that show where the code goes
      wrong. BuildTheorems: no assertion of the scheduler fails and no pointer
      dangles; no wake-up is lost; no process is left behind; slots are bounded.

    ** libstore/globals.cc and nix-daemon: settings and the daemon

    - Settings: the settings, by member and by name, and [update].
    - Substituters (local-store.cc): the queries that "guix substitute" answers, over
      pipes on which its answers and its messages arrive in any order. Answers in the
      form of the protocol are understood, and nothing of them is left behind.
    - DaemonState, Daemon (nix-daemon.cc): the connection to a client with its two
      streams, SIGPOLL and interrupts; [performOp], a definition for each request;
      [processConnection]. What the store does for a request is a [session]: the messages
      it prints, the data it exchanges, the signals that arrive, its end.
    - DaemonSpec: requests as values, their encoding, what is done for each of them.
      DaemonSync has rules for code that reads an encoding; DaemonRequests applies them
      to every request, and DaemonTheorems to the loop: the daemon does what the
      specification says and stays in step with the client.
    - DaemonReplies: what the client receives for a request, framed as the protocol
      has it. DaemonPrivileges: what a client cannot do, and which settings it cannot
      change, whatever bytes it sends. DaemonExamples: connections to a small store.

    The theorems of the scheduler are about a worker without time limits and without
    a limit of the log size: with them two assertions can fail, as
    [timeout_and_end_abort] and [timed_out_goal_keeps_locks] show on concrete runs.

    ** Recursion

    Loops that are not structural take fuel, and a theorem says how much is enough:
    the length of the input for the parsers (Archive, Derivations), the number of
    paths for closures, the collector and verifyStore, the nesting of directories for
    deletion and findRoots, the rank of an acyclic set of derivations for
    hashDerivationModulo. The state functions of goals call each other directly at
    few levels deep, and a turn that does not end within its fuel is one of the states the
    theorems cover; the loop of the worker takes any fuel, and its theorems are about every
    state on the way. A connection needs one turn for each request and one more.

    ** Not modelled

    - What a build does to files: [startBuilder] up to the fork, [runChild] (namespaces,
      mounts, the environment of the builder), [registerOutputs] with the rewriting of
      hashes, build users and log files. Goals ask for it by calls that may do anything
      [HandlerLaws] allows.
    - Opening and upgrading the store and its database.
    - Processes, pipes and pseudo-terminals of util.cc; the built-in builders, which start
      a Guile script; CPU affinity; the command line of guix-daemon.cc and the loop that
      accepts connections: system calls whose effect is outside of these sources.
    - boost/format, which is a copy of a library: messages are their fixed parts.
*)

From stdpp Require Export base tactics list strings gmap sorting.
From Stdlib Require Export ZArith Lia.
From Stdlib.Strings Require Import Byte.
Export (notations) Byte.

#[global] Set Default Goal Selector "!".

(** * Bytes and [std::string] *)

Abbreviation byte := Byte.byte.

(** A [std::string] (and a buffer [unsigned char *, size_t]) is a list of
    bytes; it may contain NUL. *)
Abbreviation bytes := (list byte).

(** A C++ string literal. *)
Definition str (s : String.string) : bytes := String.list_byte_of_string s.

#[global] Instance byte_eq_dec : EqDecision byte := Byte.byte_eq_dec.

#[global] Program Instance byte_countable : Countable byte := {|
  encode b := N.succ_pos (Byte.to_N b);
  decode p := Byte.of_N (N.pred (Npos p))
|}.
Next Obligation.
  intros b. cbv beta. by destruct b.
Qed.

(** The value of an [unsigned char] and the truncating conversion to it. *)
Definition uchar (b : byte) : Z := Z.of_N (Byte.to_N b).
Definition to_uchar (z : Z) : byte :=
  default Byte.x00 (Byte.of_N (Z.to_N (z mod 256))).

Lemma uchar_range b : (0 <= uchar b < 256)%Z.
Proof. unfold uchar. pose proof (Byte.to_N_bounded b). lia. Qed.

Lemma uchar_to_uchar z : uchar (to_uchar z) = (z mod 256)%Z.
Proof.
  unfold uchar, to_uchar. pose proof (Z.mod_pos_bound z 256 ltac:(lia)) as Hz.
  destruct (Byte.of_N (Z.to_N (z mod 256))) as [b|] eqn:E; simpl.
  - apply Byte.to_of_N in E. rewrite E. lia.
  - apply Byte.of_N_None_iff in E. lia.
Qed.

Lemma uchar_inj b c : uchar b = uchar c → b = c.
Proof.
  unfold uchar. intros H%N2Z.inj. pose proof (Byte.of_to_N b) as Hb.
  rewrite H, Byte.of_to_N in Hb. congruence.
Qed.

Lemma to_uchar_uchar b : to_uchar (uchar b) = b.
Proof.
  apply uchar_inj. rewrite uchar_to_uchar.
  pose proof (uchar_range b). apply Z.mod_small. lia.
Qed.

(** * Outcomes of C++ calls *)

(** What a call may throw; the argument is the message (its fixed part). The
    constructors up to [Interrupted] are the exception classes of the sources,
    the next three are [std::bad_alloc], [std::out_of_range] and
    [std::invalid_argument]; [AssertionFailed] is a failed [assert] or a call of
    [abort], and [Undefined] a step on which the C++ standard puts no
    requirement. *)
Inductive exn :=
  | Error (msg : string)
  | SysError (errno : Z) (msg : string)
  | EndOfFile (msg : string)
  | SerialisationError (msg : string)
  | FormatError (msg : string)
  | BuildError (msg : string)
  | PathInUse (msg : string)
  | SQLiteError (msg : string)
  | GCLimitReached
  | Interrupted
  | BadAlloc
  | OutOfRange (what : string)
  | InvalidArgument (what : string)
  | AssertionFailed (what : string)
  | Undefined (what : string).

(** The subclasses of [Error]. *)
Definition is_Error (e : exn) : bool :=
  match e with
  | Error _ | SysError _ _ | EndOfFile _ | SerialisationError _ | FormatError _ | BuildError _
  | PathInUse _ | SQLiteError _ => true
  | _ => false
  end.

(** An exception, as opposed to a failed assertion, which ends the process. *)
Definition is_exception (e : exn) : bool :=
  match e with AssertionFailed _ | Undefined _ => false | _ => true end.

(** A call returns, throws, or (in a definition with fuel) is still running
    when the fuel is used up. *)
Inductive outcome (A : Type) :=
  | Ret (a : A)
  | Throw (e : exn)
  | OutOfFuel.
Arguments Ret {A} _.
Arguments Throw {A} _.
Arguments OutOfFuel {A}.

#[global] Instance exn_eq_dec : EqDecision exn.
Proof. solve_decision. Defined.

#[global] Instance Ret_inj A : Inj (=) (=) (@Ret A).
Proof. by intros x y [= ->]. Qed.

#[global] Instance outcome_ret : MRet outcome := @Ret.
#[global] Instance outcome_bind : MBind outcome := λ A B f m,
  match m with
  | Ret a => f a
  | Throw e => Throw e
  | OutOfFuel => OutOfFuel
  end.
#[global] Instance outcome_fmap : FMap outcome := λ A B f m,
  match m with
  | Ret a => Ret (f a)
  | Throw e => Throw e
  | OutOfFuel => OutOfFuel
  end.

(** [assert(c)] and [if (!c) throw e]. *)
Definition check (c : bool) (e : exn) : outcome () :=
  if c then Ret () else Throw e.

Lemma bind_Ret_inv {A B} (m : outcome A) (f : A → outcome B) b :
  m ≫= f = Ret b ↔ ∃ a, m = Ret a ∧ f a = Ret b.
Proof. destruct m; simpl; naive_solver. Qed.

Lemma bind_assoc {A B C} (m : outcome A) (f : A → outcome B) (g : B → outcome C) :
  (m ≫= f) ≫= g = m ≫= (λ a, f a ≫= g).
Proof. by destruct m. Qed.

Lemma check_Ret_inv c e u : check c e = Ret u ↔ c = true.
Proof. destruct c, u; naive_solver. Qed.

(** A call that does not run out of fuel. *)
Definition terminates {A} (m : outcome A) : Prop := m ≠ OutOfFuel.

Lemma bind_terminates {A B} (m : outcome A) (f : A → outcome B) :
  terminates m → (∀ a, m = Ret a → terminates (f a)) → terminates (m ≫= f).
Proof. unfold terminates. destruct m; simpl; naive_solver. Qed.

Lemma check_terminates c e : terminates (check c e).
Proof. by destruct c. Qed.

(** Left fold of a throwing body: [for (auto & x : l) s = body(s, x);] *)
Fixpoint foldM {S A} (body : S → A → outcome S) (l : list A) (s : S) : outcome S :=
  match l with
  | [] => Ret s
  | x :: l => s ← body s x; foldM body l s
  end.

Lemma foldM_app {S A} (body : S → A → outcome S) l k s :
  foldM body (l ++ k) s = foldM body l s ≫= foldM body k.
Proof.
  revert s. induction l as [|x l IH]; intros s; simpl; [done|].
  destruct (body s x); simpl; eauto.
Qed.

(** An invariant of the loop body is an invariant of the loop. *)
Lemma foldM_inv {S A} (P : S → Prop) (body : S → A → outcome S) l s s' :
  (∀ s x s', x ∈ l → P s → body s x = Ret s' → P s') →
  P s → foldM body l s = Ret s' → P s'.
Proof.
  revert s. induction l as [|x l IH]; intros s Hb Hs; simpl; [naive_solver|].
  rewrite bind_Ret_inv. intros (s1 & H1 & H2).
  eapply IH; [|eapply Hb|]; eauto; set_solver.
Qed.

Lemma foldM_terminates {S A} (P : S → Prop) (body : S → A → outcome S) l s :
  (∀ s x s', x ∈ l → P s → body s x = Ret s' → P s') →
  (∀ s x, x ∈ l → P s → terminates (body s x)) →
  P s → terminates (foldM body l s).
Proof.
  revert s. induction l as [|x l IH]; intros s Hb Ht Hs; simpl; [done|].
  apply bind_terminates; [apply Ht; set_solver|].
  intros s1 H1. apply IH; [| |eapply Hb; eauto; set_solver].
  - intros ??? ?; apply Hb; set_solver.
  - intros ???; apply Ht; set_solver.
Qed.

(** * Automation *)

Create HintDb cxx discriminated.
#[export] Hint Resolve bind_terminates check_terminates : cxx.

(** Invert a chain of binds that returned a value. *)
Ltac outcome_inv :=
  repeat match goal with
  | H : _ ≫= _ = Ret _ |- _ =>
      apply bind_Ret_inv in H; destruct H as (? & ? & H)
  | H : check _ _ = Ret _ |- _ => apply check_Ret_inv in H
  | H : Ret _ = Ret _ |- _ => injection H as H; try subst
  | H : Throw _ = Ret _ |- _ => discriminate H
  | H : OutOfFuel = Ret _ |- _ => discriminate H
  | H : mret _ = Ret _ |- _ => unfold mret, outcome_ret in H
  end; cbn beta iota in *.

(** Turn boolean tests of the code into propositions. *)
Ltac bool_to_prop :=
  repeat match goal with
  | H : _ && _ = true |- _ => apply andb_true_iff in H as [? ?]
  | H : _ || _ = false |- _ => apply orb_false_iff in H as [? ?]
  | H : negb _ = true |- _ => apply negb_true_iff in H
  | H : negb _ = false |- _ => apply negb_false_iff in H
  | H : bool_decide _ = true |- _ => apply bool_decide_eq_true in H
  | H : bool_decide _ = false |- _ => apply bool_decide_eq_false in H
  | H : (_ =? _)%nat = true |- _ => apply Nat.eqb_eq in H
  | H : (_ =? _)%nat = false |- _ => apply Nat.eqb_neq in H
  | H : (_ <=? _)%nat = true |- _ => apply Nat.leb_le in H
  | H : (_ <=? _)%nat = false |- _ => apply Nat.leb_gt in H
  | H : (_ <? _)%nat = true |- _ => apply Nat.ltb_lt in H
  | H : (_ <? _)%nat = false |- _ => apply Nat.ltb_ge in H
  end.

(** A decidable fact about closed terms, by evaluation. *)
Ltac concrete := apply (bool_decide_unpack _); vm_compute; exact I.

(** * Lists *)

Lemma StronglySorted_app_inv {A} (R : A → A → Prop) l k :
  StronglySorted R (l ++ k) →
  StronglySorted R l ∧ StronglySorted R k ∧ ∀ x y, x ∈ l → y ∈ k → R x y.
Proof.
  induction l as [|a l IH]; simpl; [intros; split_and!; [constructor|done|set_solver]|].
  intros (Hs & Hf)%StronglySorted_inv. destruct (IH Hs) as (?&?&?).
  rewrite Forall_forall in Hf. split_and!; [|done|set_solver].
  constructor; [done|]. apply Forall_forall. set_solver.
Qed.

Lemma join_join_fmap {A B} (f : A → list (list B)) (l : list A) :
  mjoin (mjoin (f <$> l)) = mjoin ((λ x, mjoin (f x)) <$> l).
Proof. induction l as [|x l IH]; csimpl; [done|]. by rewrite join_app, IH. Qed.

Lemma mjoin_cons {A} (x : list A) (l : list (list A)) : mjoin (x :: l) = x ++ mjoin l.
Proof. done. Qed.

Lemma mjoin_snoc {A} (l : list (list A)) x : mjoin (l ++ [x]) = mjoin l ++ x.
Proof. rewrite join_app, mjoin_cons. simpl. by rewrite app_nil_r. Qed.

Lemma filter_ext_in {A} (P Q : A → Prop) `{∀ x, Decision (P x)} `{∀ x, Decision (Q x)} (l : list A) :
  (∀ x, x ∈ l → P x ↔ Q x) → filter P l = filter Q l.
Proof.
  induction l as [|x l IH]; intros Hl; [done|]. rewrite !filter_cons, IH by (intros; apply Hl; by right).
  pose proof (Hl x (list_elem_of_here _ _)). repeat case_decide; tauto.
Qed.

Lemma filter_all {A} (P : A → Prop) `{∀ x, Decision (P x)} (l : list A) : (∀ x, x ∈ l → P x) → filter P l = l.
Proof.
  induction l as [|x l IH]; intros Hl; [done|]. rewrite filter_cons_True by (apply Hl; by left).
  rewrite IH; [done|]. intros y Hy. apply Hl. by right.
Qed.

(** [l.push_back(x)] in a loop. *)
Lemma foldl_snoc {A} (l acc : list A) : foldl (λ acc x, acc ++ [x]) acc l = acc ++ l.
Proof.
  revert acc. induction l as [|x l IH]; intros acc; simpl; [by rewrite app_nil_r|].
  by rewrite IH, <-(assoc (++)).
Qed.

(** * Cycles *)

(** A graph [R'] that extends [R] by edges from fresh nodes [P] only: a cycle of
    [R'] is a cycle of [R] or lies inside [P]. *)
Lemma tc_fresh_part {A} (R R' S : relation A) (P : A → Prop) `{∀ x, Decision (P x)} p :
  (∀ a b, R' a b → ¬ P a → ¬ P b ∧ R a b) → (∀ a b, R' a b → P a → P b → S a b) →
  tc R' p p → tc R p p ∨ P p ∧ tc S p p.
Proof.
  intros Hold Hnew.
  assert (∀ a b, tc R' a b → ¬ P a → ¬ P b ∧ tc R a b) as Hold'.
  { intros a b Hab. induction Hab as [a b Hab|a b c Hab _ IH]; intros Ha;
      destruct (Hold _ _ Hab Ha) as [Hb He]; [split; [done|by constructor]|].
    destruct (IH Hb). split; [done|]. by eapply tc_l. }
  assert (∀ a b, tc R' a b → P a → P b → tc S a b) as Hnew'.
  { intros a b Hab. induction Hab as [a b Hab|a b c Hab Hbc IH]; intros Ha Hc; [constructor; auto|].
    destruct (decide (P b)) as [Hb|Hb]; [|by destruct (Hold' b c Hbc Hb)]. eapply tc_l; eauto. }
  intros Hpp. destruct (decide (P p)) as [Hp|Hp]; [right; eauto|left]. by destruct (Hold' p p Hpp Hp).
Qed.
