(* ===== verification/StateMonad.v ===== *)
(** Stateful C++ code: a computation passes a state on whether it returns or
    throws, and a logic of pre- and postconditions for it. *)

From S2P Require Import Prelude.

(** * Computations *)

Definition SM (St A : Type) : Type := St → outcome A * St.

#[global] Instance SM_ret {St} : MRet (SM St) := λ A a st, (Ret a, st).
#[global] Instance SM_bind {St} : MBind (SM St) := λ A B f m st,
  match m st with
  | (Ret a, st) => f a st
  | (Throw e, st) => (Throw e, st)
  | (OutOfFuel, st) => (OutOfFuel, st)
  end.

Section computations.
Context {St : Type}.

Definition lift {A} (r : outcome A) : SM St A := λ st, (r, st).
Definition gets {A} (f : St → outcome A) : SM St A := λ st, (f st, st).
Definition modify (f : St → St) : SM St () := λ st, (Ret (), f st).

(** The destructor of an object in scope of [m]. *)
Definition finally {A} (m : SM St A) (destructor : St → St) : SM St A := λ st,
  let '(r, st) := m st in (r, destructor st).

(** [try { m } catch (C & e) { handler }], for the exceptions that [C] covers. *)
Definition catch {A} (C : exn → bool) (m : SM St A) (handler : exn → SM St A) : SM St A := λ st,
  match m st with
  | (Throw e, st) => if C e then handler e st else (Throw e, st)
  | r => r
  end.

Definition when (c : bool) (m : SM St ()) : SM St () := if c then m else mret ().

(** [for (auto & x : l) body(x);] *)
Fixpoint iter {A} (body : A → SM St ()) (l : list A) : SM St () :=
  match l with
  | [] => mret ()
  | x :: l => body x;; iter body l
  end.

(** The same with variables that the body assigns. *)
Fixpoint iterM {A S} (body : S → A → SM St S) (l : list A) (s : S) : SM St S :=
  match l with
  | [] => mret s
  | x :: l => s ← body s x; iterM body l s
  end.
End computations.

Lemma iter_app {St A} (body : A → SM St ()) l l' st : iter body (l ++ l') st = (iter body l;; iter body l') st.
Proof.
  revert st. induction l as [|a l IH]; intros st; [done|]. cbn [app iter]. unfold mbind, SM_bind in *.
  destruct (body a st) as [[[]| |] st']; [apply IH|done..].
Qed.

(** * Pre- and postconditions *)

(** From [P], a computation that returns ends in [Q] and one that does not ends
    in [E]. *)
Definition hoare {St A} (P : St → Prop) (m : SM St A) (Q : A → St → Prop) (E : St → Prop) : Prop :=
  ∀ st, P st → match m st with (Ret a, st') => Q a st' | (_, st') => E st' end.

(** From [P] a computation ends, by returning or throwing. *)
Definition finishes {St A} (P : St → Prop) (m : SM St A) : Prop := ∀ st, P st → terminates (m st).1.

Section hoare_rules.
Context {St A B : Type}.
Implicit Types (P E : St → Prop) (Q : A → St → Prop).

Lemma hoare_conseq P P' (m : SM St A) Q Q' E E' :
  hoare P' m Q' E' → (∀ st, P st → P' st) → (∀ a st, Q' a st → Q a st) → (∀ st, E' st → E st) → hoare P m Q E.
Proof. intros Hm HP HQ HE st Hst. specialize (Hm st (HP st Hst)). destruct (m st) as [[]]; auto. Qed.

Lemma hoare_ret P a Q E : (∀ st, P st → Q a st) → hoare P (mret a) Q E.
Proof. intros HP st Hst. by apply HP. Qed.

Lemma hoare_bind P (m : SM St B) R (f : B → SM St A) Q E :
  hoare P m R E → (∀ b, hoare (R b) (f b) Q E) → hoare P (m ≫= f) Q E.
Proof.
  intros Hm Hf st Hst. specialize (Hm st Hst). unfold mbind, SM_bind.
  destruct (m st) as [[b|e|] st']; [|done|done]. by apply Hf.
Qed.

Lemma hoare_lift P (r : outcome A) Q E :
  (∀ st, P st → E st) → (∀ a st, r = Ret a → P st → Q a st) → hoare P (lift r) Q E.
Proof. intros HE HQ st Hst. unfold lift. destruct r; auto. Qed.

Lemma hoare_gets P (f : St → outcome A) Q E :
  (∀ st, P st → E st) → (∀ a st, P st → f st = Ret a → Q a st) → hoare P (gets f) Q E.
Proof. intros HE HQ st Hst. unfold gets. destruct (f st) eqn:Ef; auto. Qed.

Lemma hoare_asks P (f : St → A) E : hoare P (gets (λ st, Ret (f st))) (λ a st, a = f st ∧ P st) E.
Proof. by intros st Hst. Qed.

Lemma hoare_finally P (m : SM St A) k Q E :
  hoare P m (λ a st, Q a (k st)) (λ st, E (k st)) → hoare P (finally m k) Q E.
Proof. intros Hm st Hst. specialize (Hm st Hst). unfold finally. by destruct (m st) as [[]]. Qed.

Lemma hoare_catch P (m : SM St A) C h Q E E' :
  hoare P m Q E' → (∀ e, hoare E' (h e) Q E) → (∀ st, E' st → E st) → hoare P (catch C m h) Q E.
Proof.
  intros Hm Hh HE st Hst. specialize (Hm st Hst). unfold catch. destruct (m st) as [[a|e|] st']; [done| |auto].
  destruct (C e); [by apply Hh|auto].
Qed.

Lemma hoare_pre (φ : Prop) P (m : SM St A) Q E : (φ → hoare P m Q E) → hoare (λ st, φ ∧ P st) m Q E.
Proof. intros Hm st [Hφ Hst]. by apply Hm. Qed.

Lemma hoare_pure (φ : Prop) P (m : SM St A) Q E : (∀ st, P st → φ) → (φ → hoare P m Q E) → hoare P m Q E.
Proof. intros Hφ Hm st Hst. apply (Hm (Hφ st Hst) st Hst). Qed.

Lemma hoare_exists {X} (P : X → St → Prop) (m : SM St A) Q E :
  (∀ x, hoare (P x) m Q E) → hoare (λ st, ∃ x, P x st) m Q E.
Proof. intros Hm st [x Hst]. by apply (Hm x). Qed.

Lemma hoare_true P (m : SM St A) : hoare P m (λ _ _, True) (λ _, True).
Proof. intros st _. by destruct (m st) as [[]]. Qed.

(** Every way of ending ends in [E]. *)
Lemma hoare_run P (m : SM St A) E st : hoare P m (λ _, E) E → P st → E (m st).2.
Proof. intros Hm Hst. specialize (Hm st Hst). by destruct (m st) as [[] ?]. Qed.

(** ** Ending *)

Lemma finishes_ret P (a : A) : finishes P (mret a).
Proof. done. Qed.

Lemma finishes_bind P (m : SM St B) R (f : B → SM St A) :
  finishes P m → hoare P m R (λ _, True) → (∀ b, finishes (R b) (f b)) → finishes P (m ≫= f).
Proof.
  intros Hm Hr Hf st Hst. specialize (Hm st Hst). specialize (Hr st Hst). unfold mbind, SM_bind.
  destruct (m st) as [[b|e|] st']; [by apply Hf|done|done].
Qed.

Lemma finishes_lift P (r : outcome A) : terminates r → finishes P (lift r).
Proof. by intros Hr st _. Qed.

Lemma finishes_gets P (f : St → outcome A) : (∀ st, P st → terminates (f st)) → finishes P (gets f).
Proof. intros Hf st Hst. by apply Hf. Qed.

Lemma finishes_finally P (m : SM St A) k : finishes P m → finishes P (finally m k).
Proof. intros Hm st Hst. specialize (Hm st Hst). unfold finally. by destruct (m st). Qed.

Lemma finishes_weaken P P' (m : SM St A) : finishes P' m → (∀ st, P st → P' st) → finishes P m.
Proof. intros Hm HP st Hst. by apply Hm, HP. Qed.
End hoare_rules.

Section loops.
Context {St : Type}.
Implicit Types (P E : St → Prop).

Lemma hoare_modify P f (Q : () → St → Prop) E : (∀ st, P st → Q () (f st)) → hoare P (modify f) Q E.
Proof. intros HQ st Hst. by apply HQ. Qed.

Lemma hoare_check P (c : bool) e E :
  (c = false → ∀ st, P st → E st) → hoare P (lift (check c e)) (λ _ st, c = true ∧ P st) E.
Proof. intros HE st Hst. destruct c; [done|by apply HE]. Qed.

Lemma finishes_modify P (f : St → St) : finishes P (modify f).
Proof. done. Qed.

Lemma hoare_when P (c : bool) (m : SM St ()) Q E :
  (c = true → hoare P m Q E) → (c = false → ∀ st, P st → Q () st) → hoare P (when c m) Q E.
Proof. intros Ht Hf. unfold when. destruct c; [by apply Ht|]. apply hoare_ret. by apply Hf. Qed.

Lemma finishes_when P (c : bool) (m : SM St ()) : (c = true → finishes P m) → finishes P (when c m).
Proof. intros Hm. unfold when. destruct c; [by apply Hm|]. apply finishes_ret. Qed.

(** A loop over [l], with an invariant that says which elements are done. *)
Lemma hoare_iter_prefix {A} (I : list A → St → Prop) (body : A → SM St ()) l E :
  (∀ k x k', l = k ++ x :: k' → hoare (I k) (body x) (λ _, I (k ++ [x])) E) →
  hoare (I []) (iter body l) (λ _, I l) E.
Proof.
  assert (∀ r k, l = k ++ r →
    (∀ k x k', l = k ++ x :: k' → hoare (I k) (body x) (λ _, I (k ++ [x])) E) →
    hoare (I k) (iter body r) (λ _, I l) E) as Hgen; [|by apply (Hgen l [])].
  induction r as [|x r IH]; intros k El Hb; cbn [iter].
  { apply hoare_ret. rewrite app_nil_r in El. by subst. }
  eapply hoare_bind; [by eapply Hb|]. intros []. apply IH; [|done]. by rewrite <-(assoc (++)).
Qed.

Lemma hoare_iter {A} P (body : A → SM St ()) l E :
  (∀ x, x ∈ l → hoare P (body x) (λ _, P) E) → hoare P (iter body l) (λ _, P) E.
Proof.
  intros Hb. apply (hoare_iter_prefix (λ _, P)). intros k x k' ->. apply Hb. set_solver.
Qed.

Lemma finishes_iter {A} P (body : A → SM St ()) l :
  (∀ x, x ∈ l → finishes P (body x)) → (∀ x, x ∈ l → hoare P (body x) (λ _, P) (λ _, True)) →
  finishes P (iter body l).
Proof.
  induction l as [|x l IH]; intros Hf Hb; cbn [iter]; [done|].
  eapply finishes_bind; [apply Hf; by left|apply Hb; by left|].
  intros []. apply IH; intros y Hy; [apply Hf|apply Hb]; by right.
Qed.

Lemma hoare_iterM_prefix {A S} (I : list A → S → St → Prop) (body : S → A → SM St S) l s E :
  (∀ k x k' s, l = k ++ x :: k' → hoare (I k s) (body s x) (I (k ++ [x])) E) →
  hoare (I [] s) (iterM body l s) (I l) E.
Proof.
  assert (∀ r k s, l = k ++ r →
    (∀ k x k' s, l = k ++ x :: k' → hoare (I k s) (body s x) (I (k ++ [x])) E) →
    hoare (I k s) (iterM body r s) (I l) E) as Hgen; [|by apply (Hgen l [])].
  clear s. induction r as [|x r IH]; intros k s El Hb; cbn [iterM].
  { apply hoare_ret. rewrite app_nil_r in El. by subst. }
  eapply hoare_bind; [by eapply Hb|]. intros s'. apply IH; [|done]. by rewrite <-(assoc (++)).
Qed.

Lemma hoare_iterM {A S} (I : S → St → Prop) (body : S → A → SM St S) l s E :
  (∀ x s, x ∈ l → hoare (I s) (body s x) I E) → hoare (I s) (iterM body l s) I E.
Proof.
  intros Hb. apply (hoare_iterM_prefix (λ _, I)). intros k x k' s' ->. apply Hb. set_solver.
Qed.

Lemma finishes_iterM {A S} (I : S → St → Prop) (body : S → A → SM St S) l s :
  (∀ x s, x ∈ l → finishes (I s) (body s x)) → (∀ x s, x ∈ l → hoare (I s) (body s x) I (λ _, True)) →
  finishes (I s) (iterM body l s).
Proof.
  revert s. induction l as [|x l IH]; intros s Hf Hb; cbn [iterM]; [done|].
  eapply finishes_bind; [apply Hf; by left|apply Hb; by left|].
  intros s'. apply IH; intros y s'' Hy; [apply Hf|apply Hb]; by right.
Qed.
End loops.

(** * Runs that return *)

Section runs.
Context {St A B : Type}.

Lemma SM_bind_Ret (m : SM St A) (f : A → SM St B) st b st' :
  (m ≫= f) st = (Ret b, st') → ∃ a st1, m st = (Ret a, st1) ∧ f a st1 = (Ret b, st').
Proof. unfold mbind, SM_bind. destruct (m st) as [[a|e|] st1]; [eauto|done|done]. Qed.

Lemma SM_bind_eq (m : SM St A) (f : A → SM St B) st a st1 : m st = (Ret a, st1) → (m ≫= f) st = f a st1.
Proof. unfold mbind, SM_bind. by intros ->. Qed.

Lemma lift_Ret (r : outcome A) (st : St) a st' : lift r st = (Ret a, st') → r = Ret a ∧ st' = st.
Proof. by intros [= -> ->]. Qed.

Lemma finally_Ret (m : SM St A) k st a st' : finally m k st = (Ret a, st') → ∃ st1, m st = (Ret a, st1) ∧ st' = k st1.
Proof. unfold finally. destruct (m st) as [r st1]. intros [= -> <-]. eauto. Qed.
End runs.

(** * Weakest preconditions *)

(** From the state [st], [m] ends in [Q] when it returns and in [E] when it
    throws. *)
Definition wp {St A} (m : SM St A) (Q : A → St → Prop) (E : exn → St → Prop) (st : St) : Prop :=
  match m st with
  | (Ret a, st) => Q a st
  | (Throw e, st) => E e st
  | (OutOfFuel, _) => True
  end.

Section wp_rules.
Context {St : Type}.
Implicit Types E : exn → St → Prop.

Lemma wp_ret {A} (a : A) (Q : A → St → Prop) E st : Q a st → wp (mret a) Q E st.
Proof. done. Qed.

Lemma wp_bind {A B} (m : SM St A) (f : A → SM St B) Q E st :
  wp m (λ a, wp (f a) Q E) E st → wp (m ≫= f) Q E st.
Proof. unfold wp, mbind, SM_bind. by destruct (m st) as [[]]. Qed.

Lemma wp_bind2 {A B C} (m : SM St A) (f : A → SM St B) (g : B → SM St C) Q E st :
  wp (m ≫= f) (λ b, wp (g b) Q E) E st → wp (m ≫= λ a, f a ≫= g) Q E st.
Proof. unfold wp, mbind, SM_bind. destruct (m st) as [[a|e|] st']; [|done..]. by destruct (f a st') as [[]]. Qed.

Lemma wp_mono {A} (m : SM St A) (Q Q' : A → St → Prop) E E' st :
  wp m Q E st → (∀ a st, Q a st → Q' a st) → (∀ e st, E e st → E' e st) → wp m Q' E' st.
Proof. unfold wp. destruct (m st) as [[]]; auto. Qed.

Lemma wp_modify f (Q : () → St → Prop) E st : Q () (f st) → wp (modify f) Q E st.
Proof. done. Qed.

Lemma wp_gets {A} (f : St → outcome A) (Q : A → St → Prop) E st :
  (∀ a, f st = Ret a → Q a st) → (∀ e, f st = Throw e → E e st) → wp (gets f) Q E st.
Proof. unfold wp, gets. destruct (f st); auto. Qed.

Lemma wp_lift {A} (r : outcome A) (Q : A → St → Prop) E st :
  (∀ a, r = Ret a → Q a st) → (∀ e, r = Throw e → E e st) → wp (lift r) Q E st.
Proof. unfold wp, lift. destruct r; auto. Qed.

Lemma wp_throw {A} e (Q : A → St → Prop) (E : exn → St → Prop) st : E e st → wp (lift (Throw e)) Q E st.
Proof. done. Qed.

Lemma wp_check c e (Q : () → St → Prop) E st :
  (c = true → Q () st) → (c = false → E e st) → wp (lift (check c e)) Q E st.
Proof. unfold wp, lift. destruct c; simpl; auto. Qed.

Lemma wp_when (c : bool) m (Q : () → St → Prop) E st :
  (c = true → wp m Q E st) → (c = false → Q () st) → wp (when c m) Q E st.
Proof. destruct c; intros Ht Hf; [exact (Ht eq_refl)|exact (Hf eq_refl)]. Qed.

Lemma wp_catch {A} (C : exn → bool) (m : SM St A) h (Q : A → St → Prop) E st :
  wp m Q (λ e st, if C e then wp (h e) Q E st else E e st) st → wp (catch C m h) Q E st.
Proof. unfold wp, catch. destruct (m st) as [[a|e|] st']; [done| |done]. by destruct (C e). Qed.

Lemma wp_iter {A} (I : list A → St → Prop) (body : A → SM St ()) l (Q : () → St → Prop) E st :
  I l st → (∀ x l st, I (x :: l) st → wp (body x) (λ _, I l) E st) → (∀ st, I [] st → Q () st) →
  wp (iter body l) Q E st.
Proof.
  intros Hl Hb HQ. revert st Hl. induction l as [|x l IH]; intros st Hl; cbn [iter]; [by apply HQ|].
  apply wp_bind. eapply wp_mono; [by apply Hb| |done]. intros [] st' Hst'. by apply IH.
Qed.

Lemma wp_iterM {A S} (I : list A → S → St → Prop) (body : S → A → SM St S) l s (Q : S → St → Prop) E st :
  I l s st → (∀ x l s st, I (x :: l) s st → wp (body s x) (I l) E st) → (∀ s st, I [] s st → Q s st) →
  wp (iterM body l s) Q E st.
Proof.
  intros Hl Hb HQ. revert s st Hl. induction l as [|x l IH]; intros s st Hl; cbn [iterM]; [by apply HQ|].
  apply wp_bind. eapply wp_mono; [by apply Hb| |done]. intros s' st' Hst'. by apply IH.
Qed.
End wp_rules.
