(* ===== verification/Containers.v ===== *)
(** The parts of the C++ standard library the sources rely on: searching and
    slicing of [std::string], and the ordered containers [std::set<string>] and
    [std::map<string, V>], as sorted lists, so that iteration order is the
    order in which the C++ code visits the elements. *)

From S2P Require Import Prelude.

(** * Searching and slicing strings ([npos] is [None]) *)

(** [s.find(c, pos)] *)
Fixpoint find_char (c : byte) (s : bytes) : option nat :=
  match s with
  | [] => None
  | x :: s => if decide (x = c) then Some 0 else S <$> find_char c s
  end.

Definition find_char_from (c : byte) (s : bytes) (pos : nat) : option nat :=
  (λ n, pos + n) <$> find_char c (drop pos s).

(** [s.rfind(c)] *)
Definition rfind_char (c : byte) (s : bytes) : option nat :=
  (λ n, length s - 1 - n) <$> find_char c (reverse s).

(** [string(s, pos, n)]: throws when [pos] is past the end. *)
Definition substr (s : bytes) (pos n : nat) : outcome bytes :=
  if decide (pos <= length s) then Ret (take n (drop pos s))
  else Throw (OutOfRange "basic_string::substr").

(** [hasSuffix] needs no bound check of its own: the slice is in range. *)
Definition starts_with (p s : bytes) : bool := bool_decide (take (length p) s = p).

(** [s.c_str()] as a C string: up to the first NUL. *)
Fixpoint c_str (s : bytes) : bytes :=
  match s with
  | [] => []
  | c :: s => if decide (c = Byte.x00) then [] else c :: c_str s
  end.

Definition nul_free (s : bytes) : Prop := Byte.x00 ∉ s.
#[global] Instance nul_free_dec s : Decision (nul_free s) := decide (Byte.x00 ∉ s).

Lemma c_str_id s : nul_free s → c_str s = s.
Proof.
  unfold nul_free. induction s as [|c s IH]; simpl; [done|]. intros [Hc Hs]%not_elem_of_cons.
  rewrite decide_False by done. by rewrite IH.
Qed.

Lemma find_char_Some c s n :
  find_char c s = Some n ↔ s !! n = Some c ∧ c ∉ take n s.
Proof.
  revert n. induction s as [|x s IH]; intros n; simpl; [naive_solver|].
  case_decide as Hx; destruct n as [|n]; simpl; simplify_eq.
  - split; [intros _; split; [done|]; apply not_elem_of_nil | done].
  - split; [done|]. intros [_ H]. set_solver.
  - rewrite fmap_Some. naive_solver.
  - rewrite fmap_Some. split.
    + intros (k & [Hk Ht]%IH & [= ->]). set_solver.
    + intros [Hk Ht]. exists n. rewrite IH. set_solver.
Qed.

Lemma find_char_None c s : find_char c s = None ↔ c ∉ s.
Proof.
  induction s as [|x s IH]; simpl; [set_solver|].
  case_decide; [set_solver|]. rewrite fmap_None, IH. set_solver.
Qed.

Lemma find_char_app_l c s t : c ∉ s → find_char c (s ++ c :: t) = Some (length s).
Proof.
  intros H. apply find_char_Some. split.
  - by rewrite lookup_app_r, Nat.sub_diag by lia.
  - by rewrite take_app_length.
Qed.

Lemma rfind_char_app c s t : c ∉ t → rfind_char c (s ++ c :: t) = Some (length s).
Proof.
  intros H. unfold rfind_char.
  rewrite reverse_app, reverse_cons, <-(assoc (++)); simpl.
  rewrite find_char_app_l by (by rewrite elem_of_reverse).
  simpl. rewrite length_app, length_reverse. simpl. f_equal. lia.
Qed.

Lemma rfind_char_None c s : rfind_char c s = None ↔ c ∉ s.
Proof.
  unfold rfind_char. by rewrite fmap_None, find_char_None, elem_of_reverse.
Qed.

(** A string is cut at the last occurrence of a character in one way only. *)
Lemma last_sep_inj c (a b a' b' : bytes) :
  c ∉ b → c ∉ b' → a ++ c :: b = a' ++ c :: b' → a = a' ∧ b = b'.
Proof.
  intros Hb Hb' E. pose proof (rfind_char_app c a b Hb) as E1.
  rewrite E, rfind_char_app in E1 by done. apply app_inj_1 in E; [|by simplify_eq].
  destruct E as [-> E]. by simplify_eq.
Qed.

(** * Lexicographic order by [unsigned char] *)

Fixpoint str_compare (a b : bytes) : comparison :=
  match a, b with
  | [], [] => Eq
  | [], _ :: _ => Lt
  | _ :: _, [] => Gt
  | x :: a, y :: b =>
      match (Byte.to_N x ?= Byte.to_N y)%N with
      | Eq => str_compare a b
      | c => c
      end
  end.

Definition str_lt (a b : bytes) : Prop := str_compare a b = Lt.

Lemma byte_to_N_inj x y : Byte.to_N x = Byte.to_N y → x = y.
Proof. intros H. apply uchar_inj. unfold uchar. by rewrite H. Qed.

Lemma str_compare_eq a b : str_compare a b = Eq ↔ a = b.
Proof.
  revert b. induction a as [|x a IH]; intros [|y b]; simpl; try naive_solver.
  destruct (N.compare_spec (Byte.to_N x) (Byte.to_N y)) as [E|E|E].
  - apply byte_to_N_inj in E as ->. rewrite IH. naive_solver.
  - split; [done|]. intros [= -> ->]. lia.
  - split; [done|]. intros [= -> ->]. lia.
Qed.

Lemma str_compare_refl a : str_compare a a = Eq.
Proof. by apply str_compare_eq. Qed.

Lemma str_compare_antisym a b : str_compare b a = CompOpp (str_compare a b).
Proof.
  revert b. induction a as [|x a IH]; intros [|y b]; simpl; try done.
  rewrite (N.compare_antisym (Byte.to_N x)).
  destruct (Byte.to_N x ?= Byte.to_N y)%N; simpl; auto.
Qed.

Lemma str_compare_gt a b : str_compare a b = Gt ↔ str_lt b a.
Proof.
  unfold str_lt. rewrite (str_compare_antisym a b). destruct (str_compare a b); naive_solver.
Qed.

Lemma str_compare_spec a b : CompareSpec (a = b) (str_lt a b) (str_lt b a) (str_compare a b).
Proof.
  destruct (str_compare a b) eqn:E; constructor; [by apply str_compare_eq|done|].
  by apply str_compare_gt.
Qed.

#[global] Instance str_lt_trans : Transitive str_lt.
Proof.
  unfold str_lt. intros a. induction a as [|x a IH]; intros [|y b] [|z c]; simpl; try done.
  destruct (N.compare_spec (Byte.to_N x) (Byte.to_N y)) as [E1|E1|E1]; [|intros _|done].
  - apply byte_to_N_inj in E1 as ->.
    destruct (Byte.to_N y ?= Byte.to_N z)%N; eauto; done.
  - destruct (N.compare_spec (Byte.to_N y) (Byte.to_N z)) as [E2|E2|E2]; [intros _|intros _|done].
    + apply byte_to_N_inj in E2 as ->. destruct (N.compare_spec (Byte.to_N x) (Byte.to_N z)); done || lia.
    + destruct (N.compare_spec (Byte.to_N x) (Byte.to_N z)); done || lia.
Qed.

#[global] Instance str_lt_irrefl : Irreflexive str_lt.
Proof. intros a. unfold complement, str_lt. by rewrite str_compare_refl. Qed.

#[global] Instance str_lt_dec a b : Decision (str_lt a b).
Proof. unfold str_lt. apply _. Defined.

Lemma str_lt_ne a b : str_lt a b → a ≠ b.
Proof. intros H ->. by apply (irreflexivity str_lt b). Qed.

(** * [std::set<string>] *)

(** A set is the list of its elements in increasing order. *)
Abbreviation strset := (list bytes).
Abbreviation set_wf := (StronglySorted str_lt).

Fixpoint set_insert (x : bytes) (l : strset) : strset :=
  match l with
  | [] => [x]
  | y :: k =>
      match str_compare x y with
      | Lt => x :: y :: k
      | Eq => y :: k
      | Gt => y :: set_insert x k
      end
  end.

Definition set_mem (x : bytes) (l : strset) : bool := bool_decide (x ∈ l).
Definition set_erase (x : bytes) (l : strset) : strset := filter (.≠ x) l.

(** [s.insert(first, last)] *)
Definition set_insert_all (xs : list bytes) (l : strset) : strset :=
  foldl (λ s x, set_insert x s) l xs.

Definition set_of_list (xs : list bytes) : strset := set_insert_all xs [].

Lemma elem_of_set_insert x y l : y ∈ set_insert x l ↔ y = x ∨ y ∈ l.
Proof.
  induction l as [|z l IH]; simpl; [set_solver|].
  destruct (str_compare_spec x z); set_solver.
Qed.

Lemma elem_of_set_insert_all y xs l : y ∈ set_insert_all xs l ↔ y ∈ xs ∨ y ∈ l.
Proof.
  unfold set_insert_all. revert l. induction xs as [|x xs IH]; intros l; simpl; [set_solver|].
  rewrite IH, elem_of_set_insert. set_solver.
Qed.

Lemma elem_of_set_of_list y xs : y ∈ set_of_list xs ↔ y ∈ xs.
Proof. unfold set_of_list. rewrite elem_of_set_insert_all. set_solver. Qed.

Lemma elem_of_set_erase x y l : y ∈ set_erase x l ↔ y ≠ x ∧ y ∈ l.
Proof. unfold set_erase. by rewrite list_elem_of_filter. Qed.

Lemma set_mem_spec x l : set_mem x l = true ↔ x ∈ l.
Proof. apply bool_decide_eq_true. Qed.

Lemma set_mem_false x l : set_mem x l = false ↔ x ∉ l.
Proof. apply bool_decide_eq_false. Qed.

Lemma set_insert_wf x l : set_wf l → set_wf (set_insert x l).
Proof.
  induction 1 as [|y l Hs IH Hf]; simpl; [repeat constructor|].
  rewrite Forall_forall in Hf.
  destruct (str_compare_spec x y) as [->|Hlt|Hlt].
  - constructor; [done|by apply Forall_forall].
  - constructor; [constructor; [done|by apply Forall_forall]|].
    constructor; [done|]. apply Forall_forall. intros z Hz. etrans; eauto.
  - constructor; [done|]. apply Forall_forall. intros z [->|Hz]%elem_of_set_insert; eauto.
Qed.

Lemma set_insert_all_wf xs l : set_wf l → set_wf (set_insert_all xs l).
Proof.
  unfold set_insert_all. revert l. induction xs; intros l H; simpl; eauto using set_insert_wf.
Qed.

Lemma set_of_list_wf xs : set_wf (set_of_list xs).
Proof. apply set_insert_all_wf. constructor. Qed.

Lemma StronglySorted_filter {A} (R : A → A → Prop) (P : A → Prop) `{∀ x, Decision (P x)} l :
  StronglySorted R l → StronglySorted R (filter P l).
Proof.
  induction 1 as [|x l Hs IH Hf]; [constructor|]. rewrite filter_cons.
  case_decide; [|done]. constructor; [done|].
  rewrite Forall_forall in *. intros y [_ Hy]%list_elem_of_filter. auto.
Qed.

Lemma set_erase_wf x l : set_wf l → set_wf (set_erase x l).
Proof. apply StronglySorted_filter. Qed.

Lemma set_insert_mem x l : set_wf l → x ∈ l → set_insert x l = l.
Proof.
  induction 1 as [|y l Hs IH Hf]; simpl; [set_solver|].
  rewrite Forall_forall in Hf. intros [->|Hx]%elem_of_cons.
  - by rewrite str_compare_refl.
  - specialize (Hf x Hx). apply str_compare_gt in Hf as ->. by rewrite IH.
Qed.

(** Insertion past the maximum appends: what a loop that reads a printed set
    back does. *)
Lemma set_insert_last x l : (∀ y, y ∈ l → str_lt y x) → set_insert x l = l ++ [x].
Proof.
  induction l as [|y l IH]; intros H; simpl; [done|].
  assert (str_lt y x) as Hy by set_solver. apply str_compare_gt in Hy as ->.
  by rewrite IH by set_solver.
Qed.

Lemma set_insert_all_sorted xs l :
  set_wf (l ++ xs) → set_insert_all xs l = l ++ xs.
Proof.
  unfold set_insert_all. revert l.
  induction xs as [|x xs IH]; intros l H; simpl; [by rewrite app_nil_r|].
  rewrite set_insert_last.
  - rewrite IH; rewrite <-(assoc (++)); done.
  - apply StronglySorted_app_inv in H as (_&_&H). set_solver.
Qed.

Lemma set_of_list_sorted xs : set_wf xs → set_of_list xs = xs.
Proof. intros. by apply (set_insert_all_sorted xs []). Qed.

Lemma set_wf_nodup l : set_wf l → NoDup l.
Proof.
  induction 1 as [|x l Hs IH Hf]; constructor; [|done].
  rewrite Forall_forall in Hf. intros Hx. by apply (irreflexivity str_lt x), Hf.
Qed.

(** Two sets with the same elements are the same list. *)
Lemma set_ext l k : set_wf l → set_wf k → (∀ x, x ∈ l ↔ x ∈ k) → l = k.
Proof.
  intros Hl. revert k. induction Hl as [|x l Hs IH Hf]; intros k Hk Heq.
  - destruct k as [|y k]; [done|]. exfalso. specialize (Heq y). set_solver.
  - destruct Hk as [|y k Hk Hg]; [exfalso; specialize (Heq x); set_solver|].
    rewrite Forall_forall in Hf, Hg.
    assert (x = y) as ->.
    { assert (x ∈ y :: k) as [->|Hx]%elem_of_cons by (apply Heq; set_solver); [done|].
      assert (y ∈ x :: l) as [->|Hy]%elem_of_cons by (apply Heq; set_solver); [done|].
      exfalso. apply (irreflexivity str_lt x). etrans; eauto. }
    f_equal. apply IH; [done|]. intros z. split; intros Hz.
    + assert (z ∈ y :: k) as [->|]%elem_of_cons by (apply Heq; set_solver); [|done].
      exfalso. by apply (irreflexivity str_lt y), Hf.
    + assert (z ∈ y :: l) as [->|]%elem_of_cons by (apply Heq; set_solver); [|done].
      exfalso. by apply (irreflexivity str_lt y), Hg.
Qed.

#[export] Hint Resolve set_insert_wf set_insert_all_wf set_of_list_wf set_erase_wf : cxx.

(** * [std::map<string, V>] *)

Section map.
Context {V : Type}.
Implicit Types (m : list (bytes * V)).

Definition map_wf m : Prop := set_wf m.*1.

(** [m[k] = v] *)
Fixpoint map_insert (k : bytes) (v : V) (m : list (bytes * V)) : list (bytes * V) :=
  match m with
  | [] => [(k, v)]
  | (k', v') :: m' =>
      match str_compare k k' with
      | Lt => (k, v) :: (k', v') :: m'
      | Eq => (k, v) :: m'
      | Gt => (k', v') :: map_insert k v m'
      end
  end.

Fixpoint map_find (k : bytes) (m : list (bytes * V)) : option V :=
  match m with
  | [] => None
  | (k', v') :: m' => if decide (k' = k) then Some v' else map_find k m'
  end.

Definition map_erase (k : bytes) (m : list (bytes * V)) : list (bytes * V) :=
  filter (λ p, p.1 ≠ k) m.

Lemma map_find_insert k k' v m :
  map_find k' (map_insert k v m) = if decide (k = k') then Some v else map_find k' m.
Proof.
  induction m as [|[a w] m IH]; simpl; [by repeat case_decide|].
  destruct (str_compare_spec k a) as [->|Hlt|Hlt]; simpl; repeat case_decide; simplify_eq;
    try done; try (by apply str_lt_ne in Hlt).
Qed.

Lemma map_find_erase k k' m :
  map_find k' (map_erase k m) = if decide (k = k') then None else map_find k' m.
Proof.
  unfold map_erase. induction m as [|[a w] m IH]; simpl; [by case_decide|].
  rewrite filter_cons. simpl. repeat case_decide; simplify_eq; simpl;
    repeat case_decide; simplify_eq; done.
Qed.

Lemma map_insert_dom k v m x : x ∈ (map_insert k v m).*1 ↔ x = k ∨ x ∈ m.*1.
Proof.
  induction m as [|[a w] m IH]; simpl; [set_solver|].
  destruct (str_compare_spec k a); set_solver.
Qed.

Lemma map_insert_wf k v m : map_wf m → map_wf (map_insert k v m).
Proof.
  unfold map_wf. intros H. replace ((map_insert k v m).*1) with (set_insert k m.*1);
    [by apply set_insert_wf|].
  clear H. induction m as [|[a w] m IH]; simpl; [done|].
  destruct (str_compare_spec k a) as [E|E|E]; csimpl; [by rewrite E|done|by f_equal].
Qed.

Lemma map_insert_last k v m :
  (∀ y, y ∈ m.*1 → str_lt y k) → map_insert k v m = m ++ [(k, v)].
Proof.
  induction m as [|[a w] m IH]; intros H; simpl; [done|].
  assert (str_lt a k) as Hy by set_solver. apply str_compare_gt in Hy as ->.
  by rewrite IH by set_solver.
Qed.

(** Reading a printed map back: inserting in order appends. *)
Lemma map_insert_all_sorted m l :
  map_wf (m ++ l) → foldl (λ m e, map_insert e.1 e.2 m) m l = m ++ l.
Proof.
  revert m. induction l as [|[k v] l IH]; intros m; simpl; [by rewrite app_nil_r|].
  unfold map_wf. rewrite fmap_app, fmap_cons. simpl. intros Hs. rewrite map_insert_last.
  - rewrite IH; rewrite <-(assoc (++)); [done|]. unfold map_wf. by rewrite fmap_app.
  - apply StronglySorted_app_inv in Hs as (_ & _ & Hs). set_solver.
Qed.

Lemma map_find_elem k v m : map_wf m → map_find k m = Some v ↔ (k, v) ∈ m.
Proof.
  unfold map_wf. induction m as [|[a w] m IH]; simpl; [set_solver|].
  intros [Hs Hf]%StronglySorted_inv. rewrite Forall_forall in Hf.
  case_decide; subst; [|rewrite IH by done; set_solver].
  split; [intros [= ->]; set_solver|].
  intros [[= ->]|Hk]%elem_of_cons; [done|].
  exfalso. apply (irreflexivity str_lt k), Hf. apply list_elem_of_fmap. by exists (k, v).
Qed.
End map.

#[export] Hint Resolve map_insert_wf : cxx.
