(* ===== verification/Serialise.v ===== *)
(** libutil/serialise.{hh,cc}: sinks, sources and the little-endian wire
    format shared by the daemon protocol and the archive format.

    A writer's only effect is the sequence of [sink(data, len)] calls it makes,
    so a writer is a list of chunks. [BufferedSink] consumes such a list; the
    readers are generic in a [Source], whose law ([SourceLaws]) is what
    serialise.hh says of [Source::read]. *)

From S2P Require Import Prelude Containers.

(** * BufferedSink *)

Record BufferedSink := mkBufferedSink {
  bufSize : nat;
  buffer : bytes;          (* buffer[0 .. bufPos) *)
  writes : list bytes      (* the arguments of the virtual write(), in order *)
}.

Definition bufPos (s : BufferedSink) : nat := length (buffer s).

Definition sink_new (size : nat) : BufferedSink := mkBufferedSink size [] [].

(** The default argument [bufSize = 32 * 1024] of the constructor. *)
Definition defaultBufSize : nat := Z.to_nat (32 * 1024).
#[global] Arguments defaultBufSize : simpl never.

Definition sink_write (s : BufferedSink) (data : bytes) : BufferedSink :=
  mkBufferedSink (bufSize s) (buffer s) (writes s ++ [data]).

Definition sink_flush (s : BufferedSink) : BufferedSink :=
  if decide (bufPos s = 0) then s
  else sink_write (mkBufferedSink (bufSize s) [] (writes s)) (buffer s).

(** The loop of [BufferedSink::operator ()]; every turn that does not leave the
    loop consumes at least one byte, so [length data] turns are enough. *)
Fixpoint sink_call_loop (fuel : nat) (s : BufferedSink) (data : bytes)
    : outcome BufferedSink :=
  match data with
  | [] => Ret s
  | _ :: _ =>
      match fuel with
      | 0 => OutOfFuel
      | S fuel =>
          let len := length data in
          if decide (bufSize s <= bufPos s + len) then
            Ret (sink_write (sink_flush s) data)
          else
            let n := if decide (bufSize s < bufPos s + len)
                     then bufSize s - bufPos s else len in
            let s1 := mkBufferedSink (bufSize s) (buffer s ++ take n data) (writes s) in
            let s2 := if decide (bufPos s1 = bufSize s1) then sink_flush s1 else s1 in
            sink_call_loop fuel s2 (drop n data)
      end
  end.

Definition sink_call (s : BufferedSink) (data : bytes) : outcome BufferedSink :=
  sink_call_loop (length data) s data.

(** The destructor's [assert(!bufPos)]. *)
Definition sink_destroy (s : BufferedSink) : outcome () :=
  check (bool_decide (bufPos s = 0)) (AssertionFailed "!bufPos").

(** * FdSink *)

Definition threshold : Z := 256 * 1024 * 1024.

(** The fields of [FdSink], the function-static [warned], the number of
    [warnLargeDump()] calls and the bytes given to [writeFull]. *)
Record FdSink := mkFdSink {
  fds_warn : bool;
  fds_written : Z;         (* size_t *)
  fds_warned : bool;
  fds_warnings : nat;
  fds_fd : list bytes
}.

Definition fdsink_write (s : FdSink) (data : bytes) : FdSink :=
  let s1 :=
    if fds_warn s && negb (fds_warned s) then
      let w := ((fds_written s + Z.of_nat (length data)) mod 2 ^ 64)%Z in
      if decide (threshold < w)%Z
      then mkFdSink (fds_warn s) w true (S (fds_warnings s)) (fds_fd s)
      else mkFdSink (fds_warn s) w (fds_warned s) (fds_warnings s) (fds_fd s)
    else s in
  mkFdSink (fds_warn s1) (fds_written s1) (fds_warned s1) (fds_warnings s1)
    (fds_fd s1 ++ [data]).

(** * StringSink: [s.append(data, len)] for every chunk *)

Definition stringsink_run (chunks : list bytes) : bytes :=
  foldl (λ s data, s ++ data) [] chunks.

(** * Writers *)

Definition writePadding (len : nat) : list bytes :=
  if decide (len `mod` 8 = 0) then [] else [replicate (8 - len `mod` 8) Byte.x00].

Definition byte_at (n sh : Z) : byte := to_uchar (Z.land (Z.shiftr n sh) 255).

(** The parameter is an [unsigned int]: the argument is converted mod 2^32. *)
Definition writeInt (n : Z) : list bytes :=
  let n := (n mod 2 ^ 32)%Z in
  [[byte_at n 0; byte_at n 8; byte_at n 16; byte_at n 24;
    Byte.x00; Byte.x00; Byte.x00; Byte.x00]].

Definition writeLongLong (n : Z) : list bytes :=
  let n := (n mod 2 ^ 64)%Z in
  [[byte_at n 0; byte_at n 8; byte_at n 16; byte_at n 24;
    byte_at n 32; byte_at n 40; byte_at n 48; byte_at n 56]].

Definition writeString (s : bytes) : list bytes :=
  writeInt (Z.of_nat (length s)) ++ [s] ++ writePadding (length s).

Definition writeStrings (ss : list bytes) : list bytes :=
  writeInt (Z.of_nat (length ss)) ++ mjoin (writeString <$> ss).

#[global] Arguments writePadding : simpl never.
#[global] Arguments writeInt : simpl never.
#[global] Arguments writeLongLong : simpl never.
#[global] Arguments writeString : simpl never.
#[global] Arguments writeStrings : simpl never.

(** The bytes a writer puts on the wire. *)
Abbreviation wire := (@mjoin list _ byte).

(** * Sources *)

(** [size_t read(unsigned char * data, size_t len)] *)
Class Source (S : Type) := source_read : nat → S → outcome (bytes * S).

(** What serialise.hh promises of [read]: it stores between one and [len]
    bytes, the next ones of the stream, or throws at the end of it. *)
Class SourceLaws (S : Type) `{Source S} := {
  remaining : S → bytes;
  source_wf : S → Prop;
  source_read_Ret s n d s' :
    source_wf s → 0 < n → source_read n s = Ret (d, s') →
    d ≠ [] ∧ length d <= n ∧ remaining s = d ++ remaining s' ∧ source_wf s';
  source_read_Throw s n e :
    source_wf s → 0 < n → source_read n s = Throw e →
    remaining s = [] ∧ ∃ m, e = EndOfFile m;
  source_read_total s n : source_wf s → 0 < n → source_read n s ≠ OutOfFuel
}.

(** [Source::operator ()]: loop until [len] bytes are there. *)
Fixpoint source_loop {S} `{Source S} (fuel len : nat) (s : S) : outcome (bytes * S) :=
  match len with
  | 0 => Ret ([], s)
  | _ =>
      match fuel with
      | 0 => OutOfFuel
      | Datatypes.S fuel =>
          '(d, s) ← source_read len s;
          '(r, s) ← source_loop fuel (len - length d) s;
          Ret (d ++ r, s)
      end
  end.

Definition source_call {S} `{Source S} (len : nat) (s : S) : outcome (bytes * S) :=
  source_loop len len s.

(** ** StringSource *)

Record StringSource := mkStringSource { ss_s : bytes; ss_pos : nat }.

#[global] Instance StringSource_read : Source StringSource := λ len src,
  if decide (ss_pos src = length (ss_s src)) then Throw (EndOfFile "end of string reached")
  else
    let d := take len (drop (ss_pos src) (ss_s src)) in
    Ret (d, mkStringSource (ss_s src) (ss_pos src + length d)).

(** ** BufferedSource over FdSource

    The descriptor is the list of the blocks that successive [read(2)] calls
    find available (a call returns at most what is asked for and leaves the
    rest); no block left is end of file. Retries on [EINTR] are invisible. *)

Record FdSource := mkFdSource {
  src_bufSize : nat;
  bufPosIn : nat;
  bufPosOut : nat;
  src_buffer : bytes;
  src_fd : list bytes
}.

Definition fd_read (len : nat) (fd : list bytes) : bytes * list bytes :=
  match fd with
  | [] => ([], [])
  | b :: fd => if decide (length b <= len) then (b, fd) else (take len b, drop len b :: fd)
  end.

Definition readUnbuffered (s : FdSource) : outcome (bytes * list bytes) :=
  let '(d, fd) := fd_read (src_bufSize s) (src_fd s) in
  if decide (length d = 0) then Throw (EndOfFile "unexpected end-of-file")
  else Ret (d, fd).

#[global] Instance FdSource_read : Source FdSource := λ len s,
  s1 ← (if decide (bufPosIn s = 0) then
          '(d, fd) ← readUnbuffered s;
          Ret (mkFdSource (src_bufSize s) (length d) (bufPosOut s) d fd)
        else Ret s);
  let avail := bufPosIn s1 - bufPosOut s1 in
  let n := if decide (avail < len) then avail else len in
  let data := take n (drop (bufPosOut s1) (src_buffer s1)) in
  let out := bufPosOut s1 + n in
  let s2 := if decide (bufPosIn s1 = out)
            then mkFdSource (src_bufSize s1) 0 0 (src_buffer s1) (src_fd s1)
            else mkFdSource (src_bufSize s1) (bufPosIn s1) out (src_buffer s1) (src_fd s1) in
  Ret (data, s2).

Definition hasData (s : FdSource) : bool := bool_decide (bufPosOut s < bufPosIn s).

Definition fdsource_new (size : nat) (fd : list bytes) : FdSource := mkFdSource size 0 0 [] fd.

(** * Readers *)

Section readers.
Context {S : Type} `{Source S}.

Definition readPadding (len : nat) (s : S) : outcome (() * S) :=
  if decide (len `mod` 8 = 0) then Ret ((), s)
  else
    '(zero, s) ← source_call (8 - len `mod` 8) s;
    check (forallb (λ b, bool_decide (b = Byte.x00)) zero)
      (SerialisationError "non-zero padding");;
    Ret ((), s).

(** [buf[0] | buf[1] << 8 | ...] *)
Fixpoint le_value (sh : Z) (buf : bytes) : Z :=
  match buf with
  | [] => 0
  | b :: buf => Z.lor (Z.shiftl (uchar b) sh) (le_value (sh + 8) buf)
  end.

Definition readInt (s : S) : outcome (Z * S) :=
  '(buf, s) ← source_call 8 s;
  check (forallb (λ b, bool_decide (b = Byte.x00)) (drop 4 buf))
    (SerialisationError "implementation cannot deal with > 32-bit integers");;
  Ret (le_value 0 (take 4 buf), s).

Definition readLongLong (s : S) : outcome (Z * S) :=
  '(buf, s) ← source_call 8 s;
  Ret (le_value 0 buf, s).

Definition readString (s : S) : outcome (bytes * S) :=
  '(len, s) ← readInt s;
  '(buf, s) ← source_call (Z.to_nat len) s;
  '(_, s) ← readPadding (Z.to_nat len) s;
  Ret (buf, s).

(** [size_t readString(unsigned char * buf, size_t max, Source & source)] *)
Definition readString_max (max : nat) (s : S) : outcome (bytes * S) :=
  '(len, s) ← readInt s;
  check (bool_decide (Z.to_nat len <= max)) (Error "string is too long");;
  '(buf, s) ← source_call (Z.to_nat len) s;
  '(_, s) ← readPadding (Z.to_nat len) s;
  Ret (buf, s).

Fixpoint readStrings_loop (ins : bytes → strset → strset) (count : nat) (ss : strset) (s : S)
    : outcome (strset * S) :=
  match count with
  | 0 => Ret (ss, s)
  | Datatypes.S count => '(x, s) ← readString s; readStrings_loop ins count (ins x ss) s
  end.

(** [readStrings<Paths>] and [readStrings<PathSet>]: [ss.insert(ss.end(), x)]
    appends to a list and inserts into a set. *)
Definition readStrings_list (s : S) : outcome (list bytes * S) :=
  '(count, s) ← readInt s; readStrings_loop (λ x ss, ss ++ [x]) (Z.to_nat count) [] s.

Definition readStrings_set (s : S) : outcome (strset * S) :=
  '(count, s) ← readInt s; readStrings_loop set_insert (Z.to_nat count) [] s.
End readers.

(** * Sinks: correctness *)

(** What has been given to a sink so far: written out or still buffered. *)
Definition sink_stream (s : BufferedSink) : bytes := wire (writes s) ++ buffer s.

Definition sink_inv (s : BufferedSink) : Prop := bufPos s = 0 ∨ bufPos s < bufSize s.

Lemma sink_flush_stream s : sink_stream (sink_flush s) = sink_stream s.
Proof.
  unfold sink_flush, sink_stream. case_decide; simpl; [done|].
  by rewrite mjoin_snoc, app_nil_r.
Qed.

Lemma sink_flush_empty s : bufPos (sink_flush s) = 0.
Proof. unfold sink_flush. by case_decide. Qed.

Lemma sink_flush_bufSize s : bufSize (sink_flush s) = bufSize s.
Proof. unfold sink_flush. by case_decide. Qed.

Lemma sink_flush_wire s : wire (writes (sink_flush s)) = sink_stream s.
Proof.
  rewrite <-(sink_flush_stream s). unfold sink_stream.
  pose proof (sink_flush_empty s) as H. unfold bufPos in H.
  apply nil_length_inv in H. by rewrite H, app_nil_r.
Qed.

(** One call of the sink appends its data to the stream, keeps the buffer below
    its size and terminates. *)
Lemma sink_call_spec s data :
  sink_inv s →
  ∃ s', sink_call s data = Ret s' ∧ sink_stream s' = sink_stream s ++ data ∧
        bufSize s' = bufSize s ∧ sink_inv s'.
Proof.
  unfold sink_call. destruct data as [|b data]; intros Hinv.
  { exists s. by rewrite app_nil_r. }
  cbn [length sink_call_loop].
  assert (∃ d, d = b :: data ∧ length d = S (length data)) as (d & <- & Hd) by eauto.
  case_decide as H1.
  - exists (sink_write (sink_flush s) d). split_and!; [done| |apply sink_flush_bufSize|left; apply sink_flush_empty].
    pose proof (sink_flush_empty s) as H. apply nil_length_inv in H.
    unfold sink_stream, sink_write; simpl. rewrite mjoin_snoc, sink_flush_wire, H.
    by rewrite app_nil_r.
  - destruct (decide (bufSize s < bufPos s + S (length data))) as [?|_]; [lia|].
    rewrite <-Hd in *. rewrite drop_all, firstn_all.
    unfold bufPos in *. cbn [buffer bufSize] in *. rewrite length_app.
    rewrite decide_False by lia.
    exists (mkBufferedSink (bufSize s) (buffer s ++ d) (writes s)).
    split_and!; [by destruct data | | done | ].
    + unfold sink_stream; simpl. by rewrite (assoc (++)).
    + right. unfold bufPos; simpl. rewrite length_app. lia.
Qed.

Lemma sink_calls_spec s chunks :
  sink_inv s →
  ∃ s', foldM sink_call chunks s = Ret s' ∧ sink_stream s' = sink_stream s ++ wire chunks ∧
        bufSize s' = bufSize s ∧ sink_inv s'.
Proof.
  revert s. induction chunks as [|c chunks IH]; intros s Hs; simpl.
  { exists s. by rewrite app_nil_r. }
  destruct (sink_call_spec s c Hs) as (s1 & -> & E1 & E2 & Hs1). simpl.
  destruct (IH s1 Hs1) as (s2 & -> & E3 & E4 & Hs2).
  exists s2. rewrite E3, E1, <-(assoc (++)). split_and!; congruence || done.
Qed.

Lemma sink_new_inv n : sink_inv (sink_new n).
Proof. by left. Qed.

Lemma stringsink_wire chunks : stringsink_run chunks = wire chunks.
Proof.
  unfold stringsink_run. change (wire chunks) with ([] ++ wire chunks).
  generalize (@nil byte) as acc. induction chunks as [|c chunks IH]; intros acc; simpl.
  - by rewrite app_nil_r.
  - by rewrite IH, <-(assoc (++)).
Qed.

(** * Sources: [operator ()] reads exactly *)

Section source_call.
Context {S : Type} `{SourceLaws S}.

Lemma source_loop_spec fuel n s :
  source_wf s → n <= fuel →
  if decide (n <= length (remaining s))
  then ∃ s', source_loop fuel n s = Ret (take n (remaining s), s') ∧
             remaining s' = drop n (remaining s) ∧ source_wf s'
  else ∃ m, source_loop fuel n s = Throw (EndOfFile m).
Proof.
  revert n s. induction fuel as [|fuel IH]; intros [|n] s Hwf Hn; simpl; try lia;
    try (exists s; by rewrite drop_0).
  assert (0 < Datatypes.S n) as Hpos by lia.
  destruct (source_read (Datatypes.S n) s) as [[d s1]|e|] eqn:E.
  3: { by apply source_read_total in E. }
  2: { destruct (source_read_Throw _ _ _ Hwf Hpos E) as (-> & m & ->). simpl. eauto. }
  destruct (source_read_Ret _ _ _ _ Hwf Hpos E) as (Hd & Hlen & -> & Hwf1). simpl.
  assert (0 < length d) as Hd0 by (destruct d; simpl; [done|lia]).
  specialize (IH (Datatypes.S n - length d) s1 Hwf1 ltac:(lia)).
  rewrite length_app. case_decide as Hc; case_decide as Hc'; try lia.
  - destruct IH as (s2 & -> & Hr & Hwf2). exists s2. cbn [mbind outcome_bind].
    rewrite take_app_ge, drop_app_ge by lia. done.
  - destruct IH as (m & ->). simpl. eauto.
Qed.

Lemma source_call_ok n s :
  source_wf s → n <= length (remaining s) →
  ∃ s', source_call n s = Ret (take n (remaining s), s') ∧
        remaining s' = drop n (remaining s) ∧ source_wf s'.
Proof.
  intros Hs Hn. pose proof (source_loop_spec n n s Hs (le_n n)) as Hl.
  by rewrite decide_True in Hl.
Qed.

Lemma source_call_eof n s :
  source_wf s → length (remaining s) < n → ∃ m, source_call n s = Throw (EndOfFile m).
Proof.
  intros Hs Hn. pose proof (source_loop_spec n n s Hs (le_n n)) as Hl.
  rewrite decide_False in Hl by lia. done.
Qed.

Lemma source_call_inv n s d s' :
  source_wf s → source_call n s = Ret (d, s') →
  length d = n ∧ remaining s = d ++ remaining s' ∧ source_wf s'.
Proof.
  intros Hs Hc. destruct (decide (n <= length (remaining s))) as [Hn|Hn].
  - destruct (source_call_ok n s Hs Hn) as (s2 & E & Hr & Hw).
    rewrite E in Hc. simplify_eq. rewrite length_take, Hr, take_drop. split_and!; done || lia.
  - destruct (source_call_eof n s Hs ltac:(lia)) as (m & E). congruence.
Qed.

Lemma source_call_terminates n s : source_wf s → terminates (source_call n s).
Proof.
  intros Hs. destruct (decide (n <= length (remaining s))) as [Hn|Hn].
  - by destruct (source_call_ok n s Hs Hn) as (? & -> & _).
  - by destruct (source_call_eof n s Hs ltac:(lia)) as (? & ->).
Qed.
End source_call.

(** ** The two sources meet the law *)

#[global, refine] Instance StringSource_laws : SourceLaws StringSource := {
  remaining src := drop (ss_pos src) (ss_s src);
  source_wf src := ss_pos src <= length (ss_s src)
}.
Proof.
  all: intros [s pos] n *; unfold source_read, StringSource_read; simpl; intros Hwf Hn;
    case_decide; try done.
  - intros [= <- <-]; simpl.
    assert (length (take n (drop pos s)) = n `min` (length s - pos)) as El
      by (rewrite length_take, length_drop; lia).
    split_and!; [|lia| |lia].
    + intros Hnil. rewrite Hnil in El; simpl in El. lia.
    + rewrite El, <-(take_drop n (drop pos s)) at 1. f_equal.
      rewrite drop_drop. destruct (decide (n <= length s - pos)).
      * f_equal. lia.
      * rewrite !drop_ge by lia. done.
  - intros [= <-]. simpl. rewrite drop_ge by lia. eauto.
Defined.

Definition fdsource_inv (s : FdSource) : Prop :=
  0 < src_bufSize s ∧ Forall (λ b, b ≠ []) (src_fd s) ∧
  ((bufPosIn s = 0 ∧ bufPosOut s = 0) ∨
   (bufPosOut s < bufPosIn s ∧ bufPosIn s = length (src_buffer s))).

Definition fdsource_remaining (s : FdSource) : bytes :=
  (if decide (bufPosIn s = 0) then [] else drop (bufPosOut s) (src_buffer s)) ++ wire (src_fd s).

Lemma fd_read_spec n fd :
  0 < n → Forall (λ b, b ≠ []) fd →
  let '(d, fd') := fd_read n fd in
  wire fd = d ++ wire fd' ∧ Forall (λ b, b ≠ []) fd' ∧ (d = [] → fd = []).
Proof.
  intros Hn Hf. destruct fd as [|b fd]; simpl; [done|].
  apply Forall_cons in Hf as [Hb Hf]. case_decide; simpl; split_and!; try done.
  - by rewrite (assoc (++)), take_drop.
  - constructor; [|done]. intros E. apply (f_equal length) in E. rewrite length_drop in E. simpl in E. lia.
  - intros E. apply (f_equal length) in E. rewrite length_take in E. simpl in E. lia.
Qed.

(** The part of [BufferedSource::read] that follows the refill. *)
Lemma fdsource_copy_out (s : FdSource) n d s' :
  fdsource_inv s → bufPosIn s ≠ 0 → 0 < n →
  source_read n s = Ret (d, s') →
  d ≠ [] ∧ length d <= n ∧ fdsource_remaining s = d ++ fdsource_remaining s' ∧ fdsource_inv s'.
Proof.
  intros (Hb & Hf & [[? _]|[Ho Hi]]) Hne Hn; [done|].
  unfold source_read, FdSource_read. rewrite decide_False by done. simpl.
  remember (if decide (bufPosIn s - bufPosOut s < n) then bufPosIn s - bufPosOut s else n)
    as k eqn:Ek.
  assert (0 < k <= n ∧ k <= bufPosIn s - bufPosOut s) as Hk by (subst k; case_decide; lia).
  clear Ek.
  assert (length (take k (drop (bufPosOut s) (src_buffer s))) = k) as El
    by (rewrite length_take, length_drop; lia).
  assert (drop (bufPosOut s) (src_buffer s) =
    take k (drop (bufPosOut s) (src_buffer s)) ++ drop (bufPosOut s + k) (src_buffer s)) as Es
    by (by rewrite <-drop_drop, take_drop).
  intros E. unfold fdsource_remaining at 1. rewrite decide_False by done. rewrite Es.
  case_decide as Hd; simplify_eq/=; unfold fdsource_remaining, fdsource_inv; simpl;
    (split_and!; [intros Hnil; rewrite Hnil in El; simpl in El; lia | lia | | done | done | ]).
  - rewrite (drop_ge (src_buffer s) (bufPosOut s + k)) by lia.
    by rewrite app_nil_r.
  - auto.
  - rewrite decide_False by done. by rewrite <-(assoc (++)).
  - right. lia.
Qed.

#[global, refine] Instance FdSource_laws : SourceLaws FdSource := {
  remaining := fdsource_remaining;
  source_wf := fdsource_inv
}.
Proof.
  all: intros s n *; intros Hwf Hn.
  all: destruct (decide (bufPosIn s = 0)) as [H0|H0].
  all: try (pose proof Hwf as (Hb & Hf & [[_ Ho]|[Ho Hi]]); [|lia]).
  all: try (pose proof (fd_read_spec (src_bufSize s) (src_fd s) Hb Hf) as Hr).
  all: try (destruct (fd_read (src_bufSize s) (src_fd s)) as [b fd] eqn:Efd; destruct Hr as (Hw & Hf' & Hnil)).
  - set (s1 := mkFdSource (src_bufSize s) (length b) (bufPosOut s) b fd).
    unfold source_read at 1, FdSource_read. rewrite decide_True by done.
    unfold readUnbuffered. rewrite Efd. case_decide as Hlen; [done|]. simpl.
    intros E. replace (fdsource_remaining s) with (fdsource_remaining s1).
    + apply (fdsource_copy_out s1 n); [|done|done|].
      * unfold fdsource_inv; simpl. split_and!; [done|done|right; lia].
      * unfold source_read, FdSource_read. rewrite decide_False by done. simpl. exact E.
    + unfold fdsource_remaining; simpl. rewrite decide_False, decide_True by done.
      by rewrite Ho, drop_0, Hw.
  - by apply fdsource_copy_out.
  - unfold source_read, FdSource_read. rewrite decide_True by done.
    unfold readUnbuffered. rewrite Efd. case_decide as Hlen; simpl; [|done].
    intros [= <-]. split; [|eauto].
    unfold fdsource_remaining. rewrite decide_True by done.
    apply nil_length_inv in Hlen. by rewrite (Hnil Hlen).
  - unfold source_read, FdSource_read. by rewrite decide_False by done.
  - unfold source_read, FdSource_read. rewrite decide_True by done.
    unfold readUnbuffered. rewrite Efd. by case_decide.
  - unfold source_read, FdSource_read. by rewrite decide_False by done.
Defined.

(** * Little-endian numerals *)

Section le_numerals.
Local Open Scope Z_scope.

Fixpoint le_num (l : bytes) : Z :=
  match l with [] => 0 | b :: l => uchar b + 256 * le_num l end.

Fixpoint le_bytes (k : nat) (n : Z) : bytes :=
  match k with O => [] | S k => to_uchar n :: le_bytes k (n / 256) end.

Lemma le_num_bound l : 0 <= le_num l < 256 ^ Z.of_nat (length l).
Proof.
  induction l as [|b l IH]; [simpl; lia|]. cbn [le_num length].
  pose proof (uchar_range b). rewrite Nat2Z.inj_succ, Z.pow_succ_r by lia. lia.
Qed.

Lemma le_num_le_bytes k n : le_num (le_bytes k n) = n mod 256 ^ Z.of_nat k.
Proof.
  revert n. induction k as [|k IH]; intros n; cbn [le_num le_bytes].
  - change (256 ^ Z.of_nat 0) with 1. by rewrite Z.mod_1_r.
  - rewrite IH, uchar_to_uchar, Nat2Z.inj_succ, Z.pow_succ_r by lia.
    rewrite Z.rem_mul_r by lia. lia.
Qed.

Lemma le_bytes_le_num l : le_bytes (length l) (le_num l) = l.
Proof.
  induction l as [|b l IH]; cbn [le_num le_bytes length]; [done|].
  pose proof (uchar_range b). pose proof (le_num_bound l). f_equal.
  - apply uchar_inj. rewrite uchar_to_uchar. rewrite (Z.mul_comm 256), Z_mod_plus_full.
    apply Z.mod_small. lia.
  - rewrite (Z.mul_comm 256), Z.div_add by lia. rewrite Z.div_small by lia.
    by rewrite Z.add_0_l.
Qed.

Lemma length_le_bytes k n : length (le_bytes k n) = k.
Proof. revert n. induction k; intros; simpl; auto. Qed.

Lemma byte_at_spec n (sh : Z) : 0 <= sh → byte_at n sh = to_uchar (n / 2 ^ sh).
Proof.
  intros Hs. apply uchar_inj. unfold byte_at. rewrite !uchar_to_uchar.
  change 255 with (Z.ones 8). rewrite Z.land_ones, Z.shiftr_div_pow2 by lia.
  change (2 ^ 8) with 256. apply Z.mod_mod. lia.
Qed.

(** Disjoint bits: or is addition. *)
Lemma lor_shiftl m x y :
  0 <= m → 0 <= x < 2 ^ m → Z.lor x (Z.shiftl y m) = x + 2 ^ m * y.
Proof.
  intros Hm Hx. pose proof (Z.add_lor_land x (Z.shiftl y m)) as E.
  cut (Z.land x (Z.shiftl y m) = 0).
  { intros H0. rewrite H0, Z.shiftl_mul_pow2 in E by lia.
    rewrite Z.shiftl_mul_pow2 by lia. lia. }
  clear E. apply Z.bits_inj'. intros i Hi. rewrite Z.land_spec, Z.bits_0.
  destruct (Z.ltb_spec i m).
  - by rewrite Z.shiftl_spec_low, andb_false_r.
  - rewrite <-(Z.mod_small x (2 ^ m)) by lia.
    by rewrite Z.mod_pow2_bits_high by lia.
Qed.

Lemma lor_shiftl_8 x y : 0 <= x < 256 → Z.lor x (Z.shiftl y 8) = x + 256 * y.
Proof. intros Hx. by apply (lor_shiftl 8). Qed.

Lemma le_value_num sh l : 0 <= sh → le_value sh l = Z.shiftl (le_num l) sh.
Proof.
  revert sh. induction l as [|b l IH]; intros sh Hs; cbn [le_value le_num].
  { by rewrite Z.shiftl_0_l. }
  rewrite IH by lia. rewrite (Z.add_comm sh 8), <-Z.shiftl_shiftl, <-Z.shiftl_lor by lia.
  f_equal. apply lor_shiftl_8, uchar_range.
Qed.

Lemma writeInt_wire n :
  wire (writeInt n) = le_bytes 4 (n mod 2 ^ 32) ++ replicate 4 Byte.x00.
Proof.
  unfold writeInt. cbn -[Z.pow Z.modulo Z.div]. rewrite !byte_at_spec by lia.
  rewrite !Z.div_div by lia. rewrite Z.div_1_r. done.
Qed.

Lemma writeLongLong_wire n : wire (writeLongLong n) = le_bytes 8 (n mod 2 ^ 64).
Proof.
  unfold writeLongLong. cbn -[Z.pow Z.modulo Z.div]. rewrite !byte_at_spec by lia.
  rewrite !Z.div_div by lia. rewrite Z.div_1_r. done.
Qed.
End le_numerals.

Lemma length_writeInt n : length (wire (writeInt n)) = 8.
Proof. by rewrite writeInt_wire. Qed.

Lemma writePadding_wire len :
  wire (writePadding len) =
    if decide (len `mod` 8 = 0) then [] else replicate (8 - len `mod` 8) Byte.x00.
Proof. unfold writePadding. case_decide; simpl; by rewrite ?app_nil_r. Qed.

Lemma writeString_wire s :
  wire (writeString s) =
    wire (writeInt (Z.of_nat (length s))) ++ s ++ wire (writePadding (length s)).
Proof. unfold writeString. by rewrite join_app. Qed.

Lemma writeStrings_wire ss :
  wire (writeStrings ss) =
    wire (writeInt (Z.of_nat (length ss))) ++ mjoin ((λ s, wire (writeString s)) <$> ss).
Proof.
  unfold writeStrings. by rewrite join_app, join_join_fmap.
Qed.

(** Every encoded string is a whole number of 64-bit words. *)
Lemma writeString_aligned s : length (wire (writeString s)) `mod` 8 = 0.
Proof.
  rewrite writeString_wire, writePadding_wire, !length_app, length_writeInt.
  case_decide as H; rewrite ?length_replicate; cbn [length];
    pose proof (Nat.div_mod_eq (length s) 8).
  - replace (8 + (length s + 0)) with ((1 + length s `div` 8) * 8) by lia.
    by apply Nat.Div0.mod_mul.
  - pose proof (Nat.mod_upper_bound (length s) 8 ltac:(lia)).
    replace (8 + (length s + (8 - length s `mod` 8)))
      with ((2 + length s `div` 8) * 8) by lia.
    by apply Nat.Div0.mod_mul.
Qed.

(** * Reading back what was written *)

Section wire_format.
Context {S : Type} `{SourceLaws S}.

(** [m] reads the encoding [bs] of [v], whatever follows it. *)
Definition reads_as {A} (m : S → outcome (A * S)) (v : A) (bs : bytes) : Prop :=
  ∀ s rest, source_wf s → remaining s = bs ++ rest →
  ∃ s', m s = Ret (v, s') ∧ source_wf s' ∧ remaining s' = rest.

(** [m] only ever accepts the encoding [enc v] of the value it returns. *)
Definition reads_only {A} (m : S → outcome (A * S)) (enc : A → bytes) : Prop :=
  ∀ s v s', source_wf s → m s = Ret (v, s') →
  remaining s = enc v ++ remaining s' ∧ source_wf s'.

Lemma reads_as_ret {A} (v : A) : reads_as (λ s, Ret (v, s)) v [].
Proof. intros s rest Hs Hr. eauto. Qed.

Lemma reads_as_call d : reads_as (source_call (length d)) d d.
Proof.
  intros s rest Hs Hr. destruct (source_call_ok (length d) s) as (s' & E & Hr' & Hs').
  - done.
  - rewrite Hr, length_app. lia.
  - exists s'. rewrite E, Hr', Hr, take_app_length, drop_app_length. done.
Qed.

Lemma reads_as_bind {A B} (m : S → outcome (A * S)) (f : A → S → outcome (B * S)) v w b1 b2 :
  reads_as m v b1 → reads_as (f v) w b2 →
  reads_as (λ s, '(x, s) ← m s; f x s) w (b1 ++ b2).
Proof.
  intros Hm Hf s rest Hs Hr. rewrite <-(assoc (++)) in Hr.
  destruct (Hm s _ Hs Hr) as (s1 & -> & Hs1 & Hr1). simpl. eauto.
Qed.

Lemma forallb_zero_iff l :
  forallb (λ b, bool_decide (b = Byte.x00)) l = true ↔ l = replicate (length l) Byte.x00.
Proof.
  induction l as [|b l IH]; simpl; [done|]. rewrite andb_true_iff, bool_decide_eq_true, IH.
  split; [intros [-> E]; congruence|intros [= -> E]; done].
Qed.

Lemma reads_as_padding len : reads_as (readPadding len) () (wire (writePadding len)).
Proof.
  rewrite writePadding_wire. unfold readPadding. case_decide; [apply reads_as_ret|].
  intros s rest Hs Hr. set (z := replicate (8 - len `mod` 8) Byte.x00) in *.
  destruct (reads_as_call z s rest Hs Hr) as (s' & E & Hs' & Hr').
  unfold z in E. rewrite length_replicate in E. rewrite E. cbn [mbind outcome_bind].
  assert (forallb (λ b, bool_decide (b = Byte.x00)) (replicate (8 - len `mod` 8) Byte.x00) = true)
    as -> by (apply forallb_zero_iff; by rewrite length_replicate).
  simpl. eauto.
Qed.

Lemma reads_as_int n :
  (0 <= n < 2 ^ 32)%Z → reads_as readInt n (wire (writeInt n)).
Proof.
  intros Hn s rest Hs Hr. unfold readInt.
  pose proof (length_writeInt n) as Hl.
  destruct (reads_as_call _ s rest Hs Hr) as (s' & E & Hs' & Hr').
  rewrite Hl in E. rewrite E. cbn [mbind outcome_bind]. rewrite writeInt_wire.
  rewrite take_app_length', drop_app_length' by (by rewrite length_le_bytes).
  simpl forallb. cbn [check mbind outcome_bind andb].
  exists s'. split_and!; [|done|done]. f_equal. f_equal.
  rewrite le_value_num, Z.shiftl_0_r, le_num_le_bytes by lia.
  rewrite (Z.mod_small n) by lia. apply Z.mod_small. lia.
Qed.

Lemma reads_as_longlong n :
  (0 <= n < 2 ^ 64)%Z → reads_as readLongLong n (wire (writeLongLong n)).
Proof.
  intros Hn s rest Hs Hr. unfold readLongLong.
  destruct (reads_as_call _ s rest Hs Hr) as (s' & E & Hs' & Hr').
  rewrite writeLongLong_wire, length_le_bytes in E. rewrite E. cbn [mbind outcome_bind].
  exists s'. split_and!; [|done|done]. f_equal. f_equal.
  rewrite le_value_num, Z.shiftl_0_r, le_num_le_bytes by lia.
  rewrite (Z.mod_small n) by lia. apply Z.mod_small. lia.
Qed.

Lemma reads_as_string v :
  (Z.of_nat (length v) < 2 ^ 32)%Z → reads_as readString v (wire (writeString v)).
Proof.
  intros Hv. rewrite writeString_wire. unfold readString.
  eapply reads_as_bind; [apply reads_as_int; lia|]. rewrite Nat2Z.id.
  eapply reads_as_bind; [apply reads_as_call|].
  rewrite <-(app_nil_r (wire (writePadding _))).
  apply (reads_as_bind _ (λ _ s, Ret (v, s)) ()); [apply reads_as_padding|apply reads_as_ret].
Qed.

(** The strings of a collection are read back one by one. *)
Lemma reads_as_strings_loop ins ss acc :
  Forall (λ s, Z.of_nat (length s) < 2 ^ 32)%Z ss →
  reads_as (readStrings_loop ins (length ss) acc) (foldl (λ a x, ins x a) acc ss)
    (mjoin ((λ s, wire (writeString s)) <$> ss)).
Proof.
  intros Hss. revert acc. induction Hss as [|s ss Hs Hss IH]; intros acc.
  - apply reads_as_ret.
  - rewrite fmap_cons, mjoin_cons. cbn [foldl length readStrings_loop].
    apply (reads_as_bind readString (λ x, readStrings_loop ins (length ss) (ins x acc)) s);
      [by apply reads_as_string|apply IH].
Qed.

(** ** The encodings accepted are exactly those produced *)

Lemma reads_only_padding len : reads_only (readPadding len) (λ _, wire (writePadding len)).
Proof.
  intros s [] s' Hs. unfold readPadding. rewrite writePadding_wire.
  case_decide; [intros [= <-]; done|]. intros E. outcome_inv.
  destruct x as [z s1]. outcome_inv. simplify_eq.
  destruct (source_call_inv _ _ _ _ Hs H2) as (Hl & -> & Hs1).
  apply forallb_zero_iff in H3. rewrite Hl in H3. by rewrite H3.
Qed.

Lemma readInt_inv s n s' :
  source_wf s → readInt s = Ret (n, s') →
  (0 <= n < 2 ^ 32)%Z ∧ remaining s = wire (writeInt n) ++ remaining s' ∧ source_wf s'.
Proof.
  intros Hs E. unfold readInt in E. outcome_inv. destruct x as [buf s1]. outcome_inv.
  simplify_eq. destruct (source_call_inv _ _ _ _ Hs H1) as (Hl & -> & Hs1).
  apply forallb_zero_iff in H2. rewrite length_drop, Hl in H2.
  assert (length (take 4 buf) = 4) as Ht by (rewrite length_take; lia).
  rewrite le_value_num, Z.shiftl_0_r by lia. pose proof (le_num_bound (take 4 buf)) as Hb.
  rewrite Ht in Hb. change (256 ^ Z.of_nat 4)%Z with (2 ^ 32)%Z in Hb.
  split_and!; [lia|lia| |done]. rewrite writeInt_wire, Z.mod_small by lia.
  rewrite <-Ht at 1. rewrite le_bytes_le_num. change 4 with (8 - 4) at 2. rewrite <-H2.
  by rewrite take_drop.
Qed.

Lemma readString_inv s v s' :
  source_wf s → readString s = Ret (v, s') →
  (Z.of_nat (length v) < 2 ^ 32)%Z ∧
  remaining s = wire (writeString v) ++ remaining s' ∧ source_wf s'.
Proof.
  intros Hs E. unfold readString in E. outcome_inv.
  destruct x as [n s1]. outcome_inv. destruct x as [buf s2]. outcome_inv.
  destruct x as [[] s3]. outcome_inv. simplify_eq.
  destruct (readInt_inv _ _ _ Hs H1) as (Hn & -> & Hs1).
  destruct (source_call_inv _ _ _ _ Hs1 H2) as (Hl & -> & Hs2).
  destruct (reads_only_padding _ _ _ _ Hs2 H3) as (-> & Hs3).
  split_and!; [lia| |done]. rewrite writeString_wire, Hl, Z2Nat.id by lia.
  by rewrite <-!(assoc (++)).
Qed.

(** A successful read consumed at least one 64-bit word. *)
Lemma readString_consumes s v s' :
  source_wf s → readString s = Ret (v, s') →
  length (remaining s') + 8 <= length (remaining s).
Proof.
  intros Hs E. destruct (readString_inv _ _ _ Hs E) as (_ & -> & _).
  rewrite length_app, writeString_wire, length_app, length_writeInt. lia.
Qed.

Lemma readPadding_terminates n s : source_wf s → terminates (readPadding n s).
Proof.
  intros Hs. unfold readPadding. case_decide; [done|].
  apply bind_terminates; [by apply source_call_terminates|]. intros [z s1] _.
  apply bind_terminates; [apply check_terminates|done].
Qed.

Lemma readInt_terminates s : source_wf s → terminates (readInt s).
Proof.
  intros Hs. apply bind_terminates; [by apply source_call_terminates|]. intros [z s1] _.
  apply bind_terminates; [apply check_terminates|done].
Qed.

Lemma readLongLong_inv s n s' :
  source_wf s → readLongLong s = Ret (n, s') →
  (0 <= n < 2 ^ 64)%Z ∧ remaining s = wire (writeLongLong n) ++ remaining s' ∧ source_wf s'.
Proof.
  intros Hs E. unfold readLongLong in E. outcome_inv. destruct x as [buf s1]. outcome_inv.
  simplify_eq. destruct (source_call_inv _ _ _ _ Hs H1) as (Hl & -> & Hs1).
  rewrite le_value_num, Z.shiftl_0_r by lia. pose proof (le_num_bound buf) as Hb.
  rewrite Hl in Hb. change (256 ^ Z.of_nat 8)%Z with (2 ^ 64)%Z in Hb.
  split_and!; [lia|lia| |done]. rewrite writeLongLong_wire, Z.mod_small by lia.
  rewrite <-Hl. by rewrite le_bytes_le_num.
Qed.

Lemma readString_terminates s : source_wf s → terminates (readString s).
Proof.
  intros Hs. apply bind_terminates; [by apply readInt_terminates|]. intros [n s1] E1.
  apply readInt_inv in E1 as (_ & _ & Hs1); [|done].
  apply bind_terminates; [by apply source_call_terminates|]. intros [d s2] E2.
  apply source_call_inv in E2 as (_ & _ & Hs2); [|done].
  apply bind_terminates; [by apply readPadding_terminates|]. by intros [[] s3].
Qed.
End wire_format.

(** * Properties *)

(** Buffering is invisible: whatever the buffer size and however the data is
    cut into chunks, the calls return, after a [flush] the bytes handed to
    [write()] are the bytes given to the sink, in order, and the destructor's
    assertion holds. *)
Theorem buffered_sink_transparent (size : nat) (chunks : list bytes) :
  ∃ s, foldM sink_call chunks (sink_new size) = Ret s ∧
       wire (writes (sink_flush s)) = wire chunks ∧
       sink_destroy (sink_flush s) = Ret ().
Proof.
  destruct (sink_calls_spec _ chunks (sink_new_inv size)) as (s & E & Hst & _ & _).
  exists s. split_and!; [done|by rewrite sink_flush_wire, Hst|].
  unfold sink_destroy. by rewrite sink_flush_empty.
Qed.

(** [Source::operator ()] on a buffered descriptor returns exactly the next
    [n] bytes of the stream and leaves the rest, whatever the buffer size and
    the sizes of the blocks [read(2)] returns; when fewer are left it throws
    [EndOfFile], and it never loops. *)
Theorem fd_source_exact (size n : nat) (fd : list bytes) :
  0 < size → Forall (λ b, b ≠ []) fd →
  (n <= length (wire fd) → ∃ s', source_call n (fdsource_new size fd) = Ret (take n (wire fd), s') ∧
     remaining s' = drop n (wire fd) ∧ source_wf s') ∧
  (length (wire fd) < n → ∃ m, source_call n (fdsource_new size fd) = Throw (EndOfFile m)).
Proof.
  intros Hsize Hfd.
  assert (source_wf (fdsource_new size fd)) as Hwf by (split_and!; auto).
  change (wire fd) with (remaining (fdsource_new size fd)).
  split; intros Hn; [by apply source_call_ok|by apply source_call_eof].
Qed.

(** Seven bytes in three blocks, read through a four-byte buffer. *)
Lemma fd_source_exact_witness :
  let fd := [str "ab"; str "cde"; str "fg"] in
  (∃ s', source_call 6 (fdsource_new 4 fd) = Ret (str "abcdef", s') ∧
         remaining s' = str "g" ∧ source_wf s') ∧
  ∃ m, source_call 8 (fdsource_new 4 fd) = Throw (EndOfFile m).
Proof.
  intros fd. assert (Forall (λ b, b ≠ []) fd) as Hfd by (by repeat constructor).
  split.
  - exact (proj1 (fd_source_exact 4 6 fd ltac:(lia) Hfd) ltac:(vm_compute; lia)).
  - exact (proj2 (fd_source_exact 4 8 fd ltac:(lia) Hfd) ltac:(vm_compute; lia)).
Defined.

(** A set of strings (each, and their number, below 2^32) written with
    [writeStrings] is read back by [readStrings<PathSet>] from any source, and
    what follows it in the stream is left unread. *)
Theorem readStrings_writeStrings {S} `{SourceLaws S} (ss : strset) (s : S) (rest : bytes) :
  set_wf ss → (Z.of_nat (length ss) < 2 ^ 32)%Z →
  Forall (λ x, Z.of_nat (length x) < 2 ^ 32)%Z ss →
  source_wf s → remaining s = wire (writeStrings ss) ++ rest →
  ∃ s', readStrings_set s = Ret (ss, s') ∧ source_wf s' ∧ remaining s' = rest.
Proof.
  intros Hss Hn Hlen Hs Hr. rewrite writeStrings_wire in Hr.
  refine (reads_as_bind readInt _ (Z.of_nat (length ss)) _ _ _ _ _ s rest Hs Hr);
    [apply reads_as_int; lia|].
  rewrite Nat2Z.id. pose proof (reads_as_strings_loop set_insert ss [] Hlen) as Hl.
  change (foldl _ [] ss) with (set_of_list ss) in Hl. by rewrite set_of_list_sorted in Hl.
Qed.

Lemma readStrings_writeStrings_witness :
  let ss := [str "/gnu/store/a"; str "/gnu/store/bb"] in
  let bs := wire (writeStrings ss) ++ str "tail" in
  ∃ s', readStrings_set (mkStringSource bs 0) = Ret (ss, s') ∧ source_wf s' ∧
        remaining s' = str "tail".
Proof.
  intros ss bs. apply (readStrings_writeStrings (S := StringSource) ss (mkStringSource bs 0) (str "tail")).
  - repeat constructor.
  - vm_compute. done.
  - by repeat constructor.
  - simpl. lia.
  - done.
Defined.

(** [readString] accepts nothing but the encodings [writeString] produces:
    when it returns [v], the bytes consumed are exactly those of [v]. *)
Theorem readString_canonical {S} `{SourceLaws S} (s s' : S) (v : bytes) :
  source_wf s → readString s = Ret (v, s') →
  remaining s = wire (writeString v) ++ remaining s' ∧ (Z.of_nat (length v) < 2 ^ 32)%Z.
Proof. intros Hs E. destruct (readString_inv s v s' Hs E) as (? & ? & _). done. Qed.

Lemma readString_canonical_witness :
  let bs := wire (writeString (str "hello")) ++ str "x" in
  remaining (mkStringSource bs 0) =
    wire (writeString (str "hello")) ++ remaining (mkStringSource bs 16) ∧
  (Z.of_nat (length (str "hello")) < 2 ^ 32)%Z.
Proof.
  intros bs. apply (readString_canonical (mkStringSource bs 0) (mkStringSource bs 16)).
  - simpl. lia.
  - vm_compute. done.
Defined.
