(* ===== verification/Hash.v ===== *)
(** libutil/hash.{hh,cc}: hash values, their base-16 and base-32 spellings,
    digests and [HashSink].

    libgcrypt is a parameter ([Gcrypt]); [GcryptLaws] states what its manual
    documents: digest sizes, and that a digest depends only on the
    concatenation of the data written. *)

From S2P Require Import Prelude Containers Serialise.

Inductive HashType :=
  | htUnknown | htMD5 | htSHA1 | htSHA256 | htSHA512 | htSHA3_256 | htSHA3_512
  | htBLAKE2s_256.

#[global] Instance HashType_eq_dec : EqDecision HashType.
Proof. solve_decision. Defined.

Class Gcrypt := {
  gcry_md_hd_t : Type;
  gcry_md_get_algo_dlen : HashType → nat;
  gcry_md_open : HashType → gcry_md_hd_t;
  gcry_md_write : gcry_md_hd_t → bytes → gcry_md_hd_t;
  gcry_md_read : gcry_md_hd_t → bytes
}.

Class GcryptLaws `{Gcrypt} := {
  dlen_unknown : gcry_md_get_algo_dlen htUnknown = 0;
  dlen_known ht : ht ≠ htUnknown → 16 <= gcry_md_get_algo_dlen ht <= 64;
  dlen_sha256 : gcry_md_get_algo_dlen htSHA256 = 32;
  md_write_nil h : gcry_md_write h [] = h;
  md_write_app h a b : gcry_md_write (gcry_md_write h a) b = gcry_md_write h (a ++ b);
  md_read_length ht s :
    length (gcry_md_read (gcry_md_write (gcry_md_open ht) s)) = gcry_md_get_algo_dlen ht
}.

Definition maxHashSize : nat := 64.

Record Hash := mkHash {
  hashSize : nat;
  hash : bytes;            (* the array of maxHashSize bytes *)
  hash_type : HashType
}.

(** Array accesses; an index past the array is undefined behaviour. *)
Definition hash_get (l : bytes) (i : nat) : outcome byte :=
  match l !! i with
  | Some b => Ret b
  | None => Throw (Undefined "hash[i]: index out of bounds")
  end.

Definition hash_set (l : bytes) (i : nat) (b : byte) : outcome bytes :=
  if decide (i < length l) then Ret (<[i := b]> l)
  else Throw (Undefined "hash[i]: index out of bounds").

(** [memset(hash, 0, maxHashSize)] *)
Definition zero_array : bytes := replicate maxHashSize Byte.x00.
#[global] Arguments zero_array : simpl never.

(** [Hash::Hash()] *)
Definition Hash_default : Hash := mkHash 0 zero_array htUnknown.

(** [operator ==]; the loop stops at the first difference. *)
Definition Hash_eqb (h1 h2 : Hash) : bool :=
  bool_decide (hashSize h1 = hashSize h2) &&
  bool_decide (take (hashSize h1) (hash h1) = take (hashSize h1) (hash h2)).

(** [operator <]: the loop compares up to this hash's size. *)
Fixpoint bytes_ltb (a b : bytes) : bool :=
  match a, b with
  | x :: a, y :: b =>
      if decide (uchar x < uchar y)%Z then true
      else if decide (uchar y < uchar x)%Z then false
      else bytes_ltb a b
  | _, _ => false
  end.

Definition Hash_ltb (h1 h2 : Hash) : bool :=
  bytes_ltb (take (hashSize h1) (hash h1)) (take (hashSize h1) (hash h2)).

(** * Base 16 *)

Definition base16Chars : bytes := str "0123456789abcdef".

Definition char_at (chars : bytes) (i : Z) : outcome byte :=
  match chars !! Z.to_nat i with
  | Some c => Ret c
  | None => Throw (Undefined "string index out of bounds")
  end.

Fixpoint printHash_loop (n : nat) (l : bytes) (i : nat) : outcome bytes :=
  match n with
  | 0 => Ret []
  | S n =>
      b ← hash_get l i;
      c0 ← char_at base16Chars (Z.shiftr (uchar b) 4);
      c1 ← char_at base16Chars (Z.land (uchar b) 15);
      rest ← printHash_loop n l (S i);
      Ret (c0 :: c1 :: rest)
  end.

Definition printHash (h : Hash) : outcome bytes := printHash_loop (hashSize h) (hash h) 0.

(** [isxdigit] and the value [std::hex] reads. *)
Definition xdigit_value (c : byte) : option Z :=
  let v := uchar c in
  if decide (48 <= v <= 57)%Z then Some (v - 48)%Z
  else if decide (97 <= v <= 102)%Z then Some (v - 87)%Z
  else if decide (65 <= v <= 70)%Z then Some (v - 55)%Z
  else None.

Definition isxdigit (c : byte) : bool := bool_decide (is_Some (xdigit_value c)).

Fixpoint parseHash_loop (n : nat) (s : bytes) (i : nat) (l : bytes) : outcome bytes :=
  match n with
  | 0 => Ret l
  | S n =>
      match s !! (i * 2), s !! (i * 2 + 1) with
      | Some c0, Some c1 =>
          match xdigit_value c0, xdigit_value c1 with
          | Some v0, Some v1 =>
              l ← hash_set l i (to_uchar (16 * v0 + v1));
              parseHash_loop n s (S i) l
          | _, _ => Throw (Error "invalid hash")
          end
      | _, _ => Throw (Error "invalid hash")
      end
  end.

(** * Base 32 *)

(** [(hash.hashSize * 8 - 1) / 5 + 1] in [unsigned int] arithmetic. *)
Definition hashLength32 (size : nat) : nat :=
  Z.to_nat (((Z.of_nat size * 8 - 1) mod 2 ^ 32) / 5 + 1)%Z.

Definition base32Chars : bytes := str "0123456789abcdfghijklmnpqrsvwxyz".

(** One turn of the loop of [printHash32], for digit [n]. *)
Definition printHash32_digit (size : nat) (l : bytes) (n : nat) : outcome byte :=
  let b := n * 5 in
  let i := b `div` 8 in
  let j := b `mod` 8 in
  lo ← hash_get l i;
  hi ← (if decide (size <= i + 1) then Ret 0%Z
        else b ← hash_get l (i + 1); Ret (Z.shiftl (uchar b) (8 - Z.of_nat j)));
  let c := to_uchar (Z.lor (Z.shiftr (uchar lo) (Z.of_nat j)) hi) in
  char_at base32Chars (Z.land (uchar c) 31).

(** [for (int n = len - 1; n >= 0; n--)] *)
Fixpoint printHash32_loop (n : nat) (size : nat) (l : bytes) : outcome bytes :=
  match n with
  | 0 => Ret []
  | S n => c ← printHash32_digit size l n; rest ← printHash32_loop n size l; Ret (c :: rest)
  end.

Definition printHash32 (h : Hash) : outcome bytes :=
  printHash32_loop (hashLength32 (hashSize h)) (hashSize h) (hash h).

Definition printHash16or32 (h : Hash) : outcome bytes :=
  if decide (hash_type h = htMD5) then printHash h else printHash32 h.

(** The linear search in [base32Chars]; 32 when the character is absent. *)
Definition base32_digit (c : byte) : Z :=
  match find_char c base32Chars with Some d => Z.of_nat d | None => 32 end.

(** [for (unsigned int n = 0; n < len; ++n)], [todo] turns from [n]. *)
Fixpoint parseHash32_loop (todo n size : nat) (s : bytes) (l : bytes) : outcome bytes :=
  match todo with
  | 0 => Ret l
  | S todo =>
      match s !! (length s - n - 1) with
      | None => Throw (Undefined "s[len - n - 1]: index out of bounds")
      | Some c =>
          let digit := base32_digit c in
          if decide (32 <= digit)%Z then Throw (Error "invalid base-32 hash")
          else
            let b := n * 5 in
            let i := b `div` 8 in
            let j := Z.of_nat (b `mod` 8) in
            x ← hash_get l i;
            l ← hash_set l i (to_uchar (Z.lor (uchar x) (Z.shiftl digit j)));
            l ← (if decide (i + 1 < size) then
                   y ← hash_get l (i + 1);
                   hash_set l (i + 1) (to_uchar (Z.lor (uchar y) (Z.shiftr digit (8 - j))))
                 else Ret l);
            parseHash32_loop todo (S n) size s l
      end
  end.

Definition isHash (s : bytes) : bool :=
  bool_decide (length s = 32) &&
  forallb (λ c, bool_decide (48 <= uchar c <= 57)%Z || bool_decide (97 <= uchar c <= 102)%Z) s.

(** * compressHash *)

Fixpoint compressHash_loop (n : nat) (src : bytes) (i newSize : nat) (l : bytes) : outcome bytes :=
  match n with
  | 0 => Ret l
  | S n =>
      b ← hash_get src i;
      x ← hash_get l (i `mod` newSize);
      l ← hash_set l (i `mod` newSize) (to_uchar (Z.lxor (uchar x) (uchar b)));
      compressHash_loop n src (S i) newSize l
  end.

Definition compressHash (h : Hash) (newSize : nat) : outcome Hash :=
  if decide (newSize = 0 ∧ hashSize h ≠ 0) then Throw (Undefined "division by zero")
  else
    l ← compressHash_loop (hashSize h) (hash h) 0 newSize (hash Hash_default);
    Ret (mkHash newSize l htUnknown).

(** * Names of hash types *)

Definition parseHashType (s : bytes) : HashType :=
  if decide (s = str "md5") then htMD5
  else if decide (s = str "sha1") then htSHA1
  else if decide (s = str "sha256") then htSHA256
  else if decide (s = str "sha512") then htSHA512
  else if decide (s = str "sha3-256") then htSHA3_256
  else if decide (s = str "sha3-512") then htSHA3_512
  else if decide (s = str "blake2s-256") then htBLAKE2s_256
  else htUnknown.

Definition printHashType (ht : HashType) : outcome bytes :=
  match ht with
  | htMD5 => Ret (str "md5")
  | htSHA1 => Ret (str "sha1")
  | htSHA256 => Ret (str "sha256")
  | htSHA512 => Ret (str "sha512")
  | htSHA3_256 => Ret (str "sha3-256")
  | htSHA3_512 => Ret (str "sha3-512")
  | htBLAKE2s_256 => Ret (str "blake2s-256")
  | htUnknown => Throw (Error "cannot print unknown hash type")
  end.

(** * Operations that need libgcrypt *)

Section gcrypt.
Context `{Gcrypt}.

(** [Hash::Hash(HashType)] *)
Definition Hash_new (ht : HashType) : outcome Hash :=
  let size := gcry_md_get_algo_dlen ht in
  if decide (size = 0) then Throw (Error "unknown hash type")
  else
    check (bool_decide (size <= maxHashSize)) (AssertionFailed "hashSize <= maxHashSize");;
    Ret (mkHash size zero_array ht).

Definition parseHash (ht : HashType) (s : bytes) : outcome Hash :=
  h ← Hash_new ht;
  check (bool_decide (length s = hashSize h * 2)) (Error "invalid hash (length)");;
  l ← parseHash_loop (hashSize h) s 0 (hash h);
  Ret (mkHash (hashSize h) l ht).

Definition parseHash32 (ht : HashType) (s : bytes) : outcome Hash :=
  h ← Hash_new ht;
  let len := hashLength32 (hashSize h) in
  check (bool_decide (length s = len)) (AssertionFailed "s.size() == len");;
  l ← parseHash32_loop len 0 (hashSize h) s (hash h);
  Ret (mkHash (hashSize h) l ht).

Definition parseHash16or32 (ht : HashType) (s : bytes) : outcome Hash :=
  h ← Hash_new ht;
  if decide (length s = hashSize h * 2) then parseHash ht s
  else if decide (length s = hashLength32 (hashSize h)) then parseHash32 ht s
  else Throw (Error "hash has wrong length for hash type").

(** [update(ht, ctx, bytes, unsigned int len)]: the length is converted. *)
Definition md_update (ctx : gcry_md_hd_t) (data : bytes) : gcry_md_hd_t :=
  gcry_md_write ctx (take (Z.to_nat (Z.of_nat (length data) mod 2 ^ 32)) data).

(** [memcpy(hash, gcry_md_read(...), dlen)] into the zeroed array. *)
Definition md_finish (h : Hash) (ctx : gcry_md_hd_t) : Hash :=
  let d := take (gcry_md_get_algo_dlen (hash_type h)) (gcry_md_read ctx) in
  mkHash (hashSize h) (d ++ drop (length d) (hash h)) (hash_type h).

Definition hashString (ht : HashType) (s : bytes) : outcome Hash :=
  h ← Hash_new ht;
  Ret (md_finish h (md_update (gcry_md_open ht) s)).

(** [HashSink]: a [BufferedSink] whose [write] counts and hashes. The context
    is a function of the [write] calls made so far. *)
Definition hashsink_ctx (ht : HashType) (ws : list bytes) : gcry_md_hd_t :=
  foldl md_update (gcry_md_open ht) ws.

Definition hashsink_bytes (ws : list bytes) : Z :=
  foldl (λ n w, (n + Z.of_nat (length w)) mod 2 ^ 64)%Z 0%Z ws.

(** [HashSink::finish] and [HashSink::currentHash] return the same value; the
    second leaves the context open. *)
Definition hashsink_finish (ht : HashType) (s : BufferedSink) : outcome (Hash * Z) :=
  let s := sink_flush s in
  h ← Hash_new ht;
  Ret (md_finish h (hashsink_ctx ht (writes s)), hashsink_bytes (writes s)).

(** Hashing a stream chunk by chunk: construct, call for each chunk, finish. *)
Definition hashsink_run (ht : HashType) (chunks : list bytes) : outcome (Hash * Z) :=
  s ← foldM sink_call chunks (sink_new defaultBufSize);
  hashsink_finish ht s.
End gcrypt.

(** * Well-formed hashes *)

(** The array has its full size and is zero past the digest. Every constructor
    and parser of the file returns such a hash. *)
Definition hash_wf (h : Hash) : Prop :=
  length (hash h) = maxHashSize ∧ 0 < hashSize h <= maxHashSize ∧
  drop (hashSize h) (hash h) = replicate (maxHashSize - hashSize h) Byte.x00.

(** The digest proper. *)
Definition digest (h : Hash) : bytes := take (hashSize h) (hash h).

Lemma length_digest h : hash_wf h → length (digest h) = hashSize h.
Proof. intros (Hl & Hs & _). unfold digest. rewrite length_take. unfold maxHashSize in *. lia. Qed.

Lemma hash_get_lookup l i b : l !! i = Some b → hash_get l i = Ret b.
Proof. unfold hash_get. by intros ->. Qed.

Lemma hash_ext h1 h2 :
  hash_wf h1 → hash_wf h2 → hashSize h1 = hashSize h2 → hash_type h1 = hash_type h2 →
  digest h1 = digest h2 → h1 = h2.
Proof.
  destruct h1 as [n1 l1 t1], h2 as [n2 l2 t2]; unfold hash_wf, digest; simpl.
  intros (_ & _ & E1) (_ & _ & E2) -> -> E. f_equal.
  by rewrite <-(take_drop n2 l1), <-(take_drop n2 l2), E, E1, E2.
Qed.

Lemma Hash_eqb_spec h1 h2 :
  Hash_eqb h1 h2 = true ↔
  hashSize h1 = hashSize h2 ∧ take (hashSize h1) (hash h1) = take (hashSize h2) (hash h2).
Proof.
  unfold Hash_eqb. rewrite andb_true_iff, !bool_decide_eq_true.
  split; intros [-> ?]; done.
Qed.

(** * Base 16: correctness *)

Definition hex_pair (b : byte) : bytes :=
  match char_at base16Chars (Z.shiftr (uchar b) 4), char_at base16Chars (Z.land (uchar b) 15) with
  | Ret c0, Ret c1 => [c0; c1]
  | _, _ => []
  end.

Definition hex_pair_ok (b : byte) : bool :=
  match char_at base16Chars (Z.shiftr (uchar b) 4), char_at base16Chars (Z.land (uchar b) 15) with
  | Ret c0, Ret c1 =>
      match xdigit_value c0, xdigit_value c1 with
      | Some v0, Some v1 => bool_decide (to_uchar (16 * v0 + v1) = b)
      | _, _ => false
      end
  | _, _ => false
  end.

(** Checked for the 256 bytes. *)
Lemma hex_pair_ok_all b : hex_pair_ok b = true.
Proof. by destruct b. Qed.

Lemma hex_pair_spec b :
  ∃ c0 c1 v0 v1,
    char_at base16Chars (Z.shiftr (uchar b) 4) = Ret c0 ∧
    char_at base16Chars (Z.land (uchar b) 15) = Ret c1 ∧
    hex_pair b = [c0; c1] ∧
    xdigit_value c0 = Some v0 ∧ xdigit_value c1 = Some v1 ∧ to_uchar (16 * v0 + v1) = b.
Proof.
  pose proof (hex_pair_ok_all b) as Hb. unfold hex_pair_ok, hex_pair in *.
  destruct (char_at _ _) as [c0| |]; [|done..]. destruct (char_at _ _) as [c1| |]; [|done..].
  destruct (xdigit_value c0) as [v0|] eqn:E0; [|done].
  destruct (xdigit_value c1) as [v1|] eqn:E1; [|done].
  apply bool_decide_eq_true in Hb. eauto 10.
Qed.

Lemma printHash_loop_spec n l i :
  i + n <= length l → printHash_loop n l i = Ret (mjoin (hex_pair <$> take n (drop i l))).
Proof.
  revert i. induction n as [|n IH]; intros i Hi; [done|]. cbn [printHash_loop].
  destruct (lookup_lt_is_Some_2 l i ltac:(lia)) as [b Hb].
  rewrite (hash_get_lookup _ _ _ Hb). cbn [mbind outcome_bind].
  destruct (hex_pair_spec b) as (c0 & c1 & v0 & v1 & -> & -> & E & _). cbn [mbind outcome_bind].
  rewrite IH by lia. rewrite (drop_S _ _ _ Hb). cbn [take mbind outcome_bind].
  rewrite fmap_cons, mjoin_cons, E. done.
Qed.

Lemma printHash_spec h : hash_wf h → printHash h = Ret (mjoin (hex_pair <$> digest h)).
Proof.
  intros (Hl & Hs & _). unfold printHash. rewrite printHash_loop_spec by lia. done.
Qed.

Lemma length_hex l : length (mjoin (hex_pair <$> l)) = length l * 2.
Proof.
  induction l as [|b l IH]; [done|]. rewrite fmap_cons, mjoin_cons.
  destruct (hex_pair_spec b) as (c0 & c1 & v0 & v1 & _ & _ & E & _).
  rewrite length_app, E, IH. simpl. lia.
Qed.

Lemma hex_inj l k : mjoin (hex_pair <$> l) = mjoin (hex_pair <$> k) → l = k.
Proof.
  revert k. induction l as [|b l IH]; intros [|c k]; rewrite ?fmap_cons, ?mjoin_cons; try done.
  - destruct (hex_pair_spec c) as (? & ? & ? & ? & _ & _ & -> & _). done.
  - destruct (hex_pair_spec b) as (? & ? & ? & ? & _ & _ & -> & _). done.
  - destruct (hex_pair_spec b) as (c0 & c1 & v0 & v1 & _ & _ & -> & E0 & E1 & <-).
    destruct (hex_pair_spec c) as (d0 & d1 & w0 & w1 & _ & _ & -> & F0 & F1 & <-).
    intros [= -> -> E]. f_equal; [congruence|by apply IH].
Qed.

Lemma lookup_hex l i b :
  l !! i = Some b →
  ∃ c0 c1, mjoin (hex_pair <$> l) !! (i * 2) = Some c0 ∧
           mjoin (hex_pair <$> l) !! (i * 2 + 1) = Some c1 ∧ hex_pair b = [c0; c1].
Proof.
  revert i. induction l as [|a l IH]; intros [|i] Hi; simplify_eq/=; try done.
  - destruct (hex_pair_spec b) as (c0 & c1 & v0 & v1 & _ & _ & E & _).
    rewrite E. simpl. eauto.
  - destruct (hex_pair_spec a) as (c0 & c1 & v0 & v1 & _ & _ & E & _).
    rewrite E. apply IH in Hi. done.
Qed.

Lemma hash_set_ok l i b : i < length l → hash_set l i b = Ret (<[i := b]> l).
Proof. intros Hi. unfold hash_set. by rewrite decide_True. Qed.

Lemma parseHash_loop_spec n d i l :
  i + n <= length d → i + n <= length l →
  parseHash_loop n (mjoin (hex_pair <$> d)) i l =
    Ret (take i l ++ take n (drop i d) ++ drop (i + n) l).
Proof.
  revert i l. induction n as [|n IH]; intros i l Hd Hl; cbn [parseHash_loop].
  { rewrite Nat.add_0_r. simpl. by rewrite take_drop. }
  destruct (lookup_lt_is_Some_2 d i ltac:(lia)) as [b Hb].
  destruct (lookup_hex _ _ _ Hb) as (c0 & c1 & -> & -> & E).
  destruct (hex_pair_spec b) as (c0' & c1' & v0 & v1 & _ & _ & E' & V0 & V1 & Hv).
  rewrite E in E'. injection E' as <- <-. rewrite V0, V1, hash_set_ok, Hv by lia.
  cbn [mbind outcome_bind]. rewrite IH by (rewrite ?length_insert; lia). f_equal.
  rewrite (drop_S _ _ _ Hb). cbn [take].
  rewrite (take_S_r _ i b) by (rewrite list_lookup_insert_eq; [done|lia]).
  rewrite take_insert_ge, drop_insert_lt by lia.
  rewrite <-(assoc (++)). by replace (S i + n) with (i + S n) by lia.
Qed.

(** * Base 32: the digits are those of the little-endian number *)

Section base32.
Local Open Scope Z_scope.

Lemma le_num_testbit l (i : nat) r :
  0 <= r < 8 →
  Z.testbit (le_num l) (8 * Z.of_nat i + r) = Z.testbit (uchar (nth i l Byte.x00)) r.
Proof.
  intros Hr. revert i. induction l as [|b l IH]; intros i; cbn [le_num nth].
  { rewrite Z.bits_0. destruct i; change (uchar Byte.x00) with 0; by rewrite Z.bits_0. }
  pose proof (uchar_range b). pose proof (le_num_bound l).
  rewrite <-lor_shiftl_8, Z.lor_spec by lia. destruct i as [|i].
  - rewrite Z.shiftl_spec_low by lia. rewrite orb_false_r. f_equal; lia.
  - rewrite Z.shiftl_spec_high by lia. rewrite <-IH.
    rewrite <-(Z.mod_small (uchar b) (2 ^ 8)) by (change (2 ^ 8) with 256; lia).
    rewrite Z.mod_pow2_bits_high by lia. cbn [orb]. f_equal. lia.
Qed.

Lemma uchar_high_bits b r : 8 <= r → Z.testbit (uchar b) r = false.
Proof.
  intros Hr. pose proof (uchar_range b).
  rewrite <-(Z.mod_small (uchar b) (2 ^ 8)) by (change (2 ^ 8) with 256; lia).
  by rewrite Z.mod_pow2_bits_high by lia.
Qed.

Lemma to_uchar_testbit z r :
  0 <= r < 8 → Z.testbit (uchar (to_uchar z)) r = Z.testbit z r.
Proof.
  intros Hr. rewrite uchar_to_uchar. change 256 with (2 ^ 8).
  by rewrite Z.mod_pow2_bits_low by lia.
Qed.

(** Numbers below a power of two agree when their low bits do. *)
Lemma bits_ext_below n x y :
  0 <= n → 0 <= x < 2 ^ n → 0 <= y < 2 ^ n →
  (∀ k, 0 <= k < n → Z.testbit x k = Z.testbit y k) → x = y.
Proof.
  intros Hn Hx Hy H. apply Z.bits_inj'. intros k Hk.
  destruct (Z.ltb_spec k n); [by apply H|].
  rewrite <-(Z.mod_small x (2 ^ n)), <-(Z.mod_small y (2 ^ n)) by lia.
  by rewrite !Z.mod_pow2_bits_high by lia.
Qed.

Definition hash_num (size : nat) (l : bytes) : Z := le_num (take size l).

Lemma le_num_zero size n : le_num (take size (replicate n Byte.x00)) = 0.
Proof.
  revert size. induction n as [|n IH]; intros [|size]; simpl; try done. by rewrite IH.
Qed.

Lemma hash_num_bound size l :
  (size <= length l)%nat → 0 <= hash_num size l < 2 ^ (8 * Z.of_nat size).
Proof.
  intros Hl. unfold hash_num. pose proof (le_num_bound (take size l)) as Hb.
  rewrite length_take, Nat.min_l in Hb by lia. change 256 with (2 ^ 8) in Hb.
  by rewrite <-Z.pow_mul_r in Hb by lia.
Qed.

Lemma nth_take_lt {A} (d : A) size l i :
  (i < size)%nat → nth i (take size l) d = nth i l d.
Proof.
  revert i size. induction l as [|a l IH]; intros i [|size] Hi; try lia; simpl.
  - by destruct i.
  - destruct i; [done|]. apply IH. lia.
Qed.

Lemma nth_take_ge {A} (d : A) size l i :
  (size <= i)%nat → nth i (take size l) d = d.
Proof. intros Hi. apply nth_overflow. rewrite length_take. lia. Qed.

Lemma hash_num_testbit size l (i : nat) r :
  0 <= r < 8 →
  Z.testbit (hash_num size l) (8 * Z.of_nat i + r) =
    if decide (i < size)%nat then Z.testbit (uchar (nth i l Byte.x00)) r else false.
Proof.
  intros Hr. unfold hash_num. rewrite le_num_testbit by done. case_decide.
  - by rewrite nth_take_lt by lia.
  - rewrite nth_take_ge by lia. apply Z.bits_0.
Qed.

Lemma hashLength32_spec (size : nat) :
  (0 < size <= 64)%nat →
  Z.of_nat (hashLength32 size) = (8 * Z.of_nat size - 1) / 5 + 1.
Proof.
  intros Hs. unfold hashLength32. rewrite Z.mod_small by lia.
  rewrite (Z.mul_comm _ 8). rewrite Z2Nat.id; [done|].
  pose proof (Z.div_pos (8 * Z.of_nat size - 1) 5). lia.
Qed.

(** Digit [n] starts inside the digest, and the digits cover it. *)
Lemma hashLength32_bounds (size n : nat) :
  (0 < size <= 64)%nat → (n < hashLength32 size)%nat → (n * 5 / 8 < size)%nat.
Proof.
  intros Hs Hn. apply Nat.Div0.div_lt_upper_bound. pose proof (hashLength32_spec size Hs) as E.
  pose proof (Z.div_mod (8 * Z.of_nat size - 1) 5). pose proof (Z.mod_pos_bound (8 * Z.of_nat size - 1) 5).
  lia.
Qed.

Lemma hashLength32_cover (size : nat) :
  (0 < size <= 64)%nat → (8 * size <= 5 * hashLength32 size)%nat.
Proof.
  intros Hs. pose proof (hashLength32_spec size Hs) as E.
  pose proof (Z.div_mod (8 * Z.of_nat size - 1) 5). pose proof (Z.mod_pos_bound (8 * Z.of_nat size - 1) 5).
  lia.
Qed.

Definition base32_char_check (k : nat) : bool :=
  match char_at base32Chars (Z.of_nat k) with
  | Ret c => bool_decide (base32_digit c = Z.of_nat k)
  | _ => false
  end.

(** Checked for the 32 digits. *)
Lemma base32_char (d : Z) :
  0 <= d < 32 → ∃ c, char_at base32Chars d = Ret c ∧ base32_digit c = d.
Proof.
  intros Hd. assert (forallb base32_char_check (seq 0 32) = true) as Hall by (by vm_compute).
  rewrite forallb_forall in Hall. specialize (Hall (Z.to_nat d)).
  rewrite in_seq in Hall. specialize (Hall ltac:(lia)). unfold base32_char_check in Hall.
  rewrite Z2Nat.id in Hall by lia. destruct (char_at _ _) as [c| |]; [|done..].
  apply bool_decide_eq_true in Hall. eauto.
Qed.

(** The value a base-32 numeral denotes, most significant digit first. *)
Fixpoint value32 (s : bytes) : Z :=
  match s with
  | [] => 0
  | c :: s => base32_digit c * 2 ^ (5 * Z.of_nat (length s)) + value32 s
  end.

Definition base32_char_ok (c : byte) : Prop := base32_digit c < 32.

Lemma base32_digit_nonneg c : 0 <= base32_digit c.
Proof. unfold base32_digit. destruct (find_char _ _); lia. Qed.

Lemma value32_bound s :
  Forall base32_char_ok s → 0 <= value32 s < 2 ^ (5 * Z.of_nat (length s)).
Proof.
  induction 1 as [|c s Hc Hs IH]; cbn [value32 length]; [done|].
  pose proof (base32_digit_nonneg c). unfold base32_char_ok in Hc.
  replace (5 * Z.of_nat (S (length s))) with (5 + 5 * Z.of_nat (length s)) by lia.
  rewrite Z.pow_add_r by lia. change (2 ^ 5) with 32. nia.
Qed.

(** The character printed for digit [n] is that of the n-th base-32 digit of
    the number; no access is out of bounds. *)
Lemma printHash32_digit_spec (size : nat) l (n : nat) :
  (0 < size <= 64)%nat → (size <= length l)%nat → (n < hashLength32 size)%nat →
  ∃ c, printHash32_digit size l n = Ret c ∧
       base32_digit c = (hash_num size l / 2 ^ (5 * Z.of_nat n)) mod 32.
Proof.
  intros Hsz Hl Hn. unfold printHash32_digit. cbn zeta.
  pose proof (hashLength32_bounds size n Hsz Hn) as Hi.
  pose proof (Nat.div_mod_eq (n * 5) 8) as Hdm.
  pose proof (Nat.mod_upper_bound (n * 5) 8 ltac:(lia)) as Hj.
  set (i := (n * 5 / 8)%nat) in *. set (j := (n * 5 mod 8)%nat) in *.
  destruct (lookup_lt_is_Some_2 l i ltac:(lia)) as [lo Hlo].
  rewrite (hash_get_lookup _ _ _ Hlo). cbn [mbind outcome_bind].
  pose proof (nth_lookup_Some l i Byte.x00 lo Hlo) as Nlo.
  set (hiM := if decide (size <= i + 1)%nat then Ret 0 else _).
  assert (∃ hi, hiM = Ret hi ∧ ∀ m, 0 <= m < 5 →
    Z.testbit hi m = if decide (m + Z.of_nat j < 8) then false
                     else Z.testbit (hash_num size l) (m + 5 * Z.of_nat n)) as (hi & -> & Hhi).
  { unfold hiM. case_decide as Hc.
    - exists 0. split; [done|]. intros m Hm. rewrite Z.bits_0. case_decide; [done|].
      replace (m + 5 * Z.of_nat n) with (8 * Z.of_nat (i + 1) + (m + Z.of_nat j - 8)) by lia.
      rewrite hash_num_testbit by lia. by rewrite decide_False by lia.
    - destruct (lookup_lt_is_Some_2 l (i + 1)%nat ltac:(lia)) as [y Hy].
      rewrite (hash_get_lookup _ _ _ Hy). cbn [mbind outcome_bind].
      eexists; split; [done|]. intros m Hm. case_decide as Hmj.
      + rewrite Z.shiftl_spec by lia. apply Z.testbit_neg_r. lia.
      + replace (m + 5 * Z.of_nat n) with (8 * Z.of_nat (i + 1) + (m + Z.of_nat j - 8)) by lia.
        rewrite hash_num_testbit by lia. rewrite decide_True by lia.
        rewrite (nth_lookup_Some _ _ _ _ Hy). rewrite Z.shiftl_spec by lia. f_equal. lia. }
  cbn [mbind outcome_bind].
  set (x := Z.lor _ hi).
  assert (Z.land (uchar (to_uchar x)) 31 = (hash_num size l / 2 ^ (5 * Z.of_nat n)) mod 32) as ->.
  { change 31 with (Z.ones 5). change 32 with (2 ^ 5).
    rewrite <-Z.land_ones, <-Z.shiftr_div_pow2 by lia.
    apply Z.bits_inj'. intros m Hm. rewrite !Z.land_spec.
    destruct (Z.ltb_spec m 5) as [Hm5|Hm5].
    2: { rewrite Z.ones_spec_high by lia. by rewrite !andb_false_r. }
    f_equal. rewrite to_uchar_testbit, Z.shiftr_spec by lia. unfold x.
    rewrite Z.lor_spec, Z.shiftr_spec, Hhi by lia. case_decide as Hmj.
    - rewrite orb_false_r.
      replace (m + 5 * Z.of_nat n) with (8 * Z.of_nat i + (m + Z.of_nat j)) by lia.
      rewrite hash_num_testbit by lia. rewrite decide_True by lia. by rewrite Nlo.
    - by rewrite uchar_high_bits by lia. }
  apply base32_char. apply Z.mod_pos_bound. lia.
Qed.

(** [printHash32] prints the base-32 numeral of the little-endian number. *)
Lemma printHash32_loop_spec (n size : nat) l :
  (0 < size <= 64)%nat → (size <= length l)%nat → (n <= hashLength32 size)%nat →
  ∃ s, printHash32_loop n size l = Ret s ∧ length s = n ∧ Forall base32_char_ok s ∧
       value32 s = hash_num size l mod 2 ^ (5 * Z.of_nat n).
Proof.
  intros Hsz Hl. induction n as [|n IH]; intros Hn; cbn [printHash32_loop].
  { exists []. split_and!; [done|done|constructor|]. cbn [value32]. by rewrite Z.mod_1_r. }
  destruct (printHash32_digit_spec size l n Hsz Hl ltac:(lia)) as (c & -> & Hc).
  destruct (IH ltac:(lia)) as (s & -> & Hlen & Hok & Hv). cbn [mbind outcome_bind].
  exists (c :: s). split_and!; [done|by simpl; lia| |].
  - constructor; [|done]. unfold base32_char_ok. rewrite Hc. apply Z.mod_pos_bound. lia.
  - cbn [value32]. rewrite Hc, Hv, Hlen.
    replace (5 * Z.of_nat (S n)) with (5 * Z.of_nat n + 5) by lia.
    rewrite Z.pow_add_r, Z.rem_mul_r by lia. change (2 ^ 5) with 32. lia.
Qed.
End base32.

(** ** Parsing base 32 *)

Section parse32.
Local Open Scope Z_scope.

Lemma nth_insert {A} (d : A) l i j x :
  (i < length l)%nat → nth j (<[i := x]> l) d = if decide (i = j) then x else nth j l d.
Proof.
  intros Hi. rewrite !nth_lookup. case_decide; subst.
  - by rewrite list_lookup_insert_eq.
  - by rewrite list_lookup_insert_ne.
Qed.

(** The two updates of one turn of the loop or the digit into the number. *)
Definition parse32_step (size : nat) (n : nat) (digit : Z) (l : bytes) : bytes :=
  let i := ((n * 5) `div` 8)%nat in
  let j := Z.of_nat ((n * 5) `mod` 8)%nat in
  let l1 := <[i := to_uchar (Z.lor (uchar (nth i l Byte.x00)) (Z.shiftl digit j))]> l in
  if decide (i + 1 < size)%nat
  then <[(i + 1)%nat := to_uchar (Z.lor (uchar (nth (i + 1) l Byte.x00)) (Z.shiftr digit (8 - j)))]> l1
  else l1.

Lemma parse32_step_testbit (size n : nat) digit l k :
  (size <= length l)%nat → ((n * 5) `div` 8 < size)%nat → 0 <= digit < 32 →
  0 <= k < 8 * Z.of_nat size →
  Z.testbit (hash_num size (parse32_step size n digit l)) k =
    Z.testbit (hash_num size l) k || Z.testbit (Z.shiftl digit (5 * Z.of_nat n)) k.
Proof.
  intros Hl Hi Hd Hk. unfold parse32_step.
  pose proof (Nat.div_mod_eq (n * 5) 8) as Hdm.
  pose proof (Nat.mod_upper_bound (n * 5) 8 ltac:(lia)) as Hj.
  set (i := ((n * 5) `div` 8)%nat) in *. set (j := ((n * 5) `mod` 8)%nat) in *.
  assert (∃ (a : nat) r, k = 8 * Z.of_nat a + r ∧ 0 <= r < 8 ∧ (a < size)%nat)
    as (a & r & -> & Hr & Ha).
  { exists (Z.to_nat (k / 8)), (k mod 8). pose proof (Z.div_mod k 8).
    pose proof (Z.mod_pos_bound k 8). pose proof (Z.div_pos k 8). lia. }
  rewrite !hash_num_testbit by lia. destruct (decide (a < size)%nat) as [_|?]; [|done].
  rewrite Z.shiftl_spec by lia.
  assert (∀ m, 5 <= m → Z.testbit digit m = false) as Hhigh.
  { intros m Hm. rewrite <-(Z.mod_small digit (2 ^ 5)) by (change (2 ^ 5) with 32; lia).
    by rewrite Z.mod_pow2_bits_high by lia. }
  case_decide as Hi1.
  - rewrite nth_insert by (rewrite length_insert; lia). case_decide as Ha1.
    + subst a. rewrite to_uchar_testbit, Z.lor_spec, Z.shiftr_spec by lia.
      f_equal. f_equal. lia.
    + rewrite nth_insert by lia. case_decide as Ha2.
      * subst a. rewrite to_uchar_testbit, Z.lor_spec, Z.shiftl_spec by lia. f_equal. f_equal. lia.
      * destruct (decide (a < i)%nat); [rewrite (Z.testbit_neg_r digit) by lia|rewrite Hhigh by lia];
          by rewrite orb_false_r.
  - rewrite nth_insert by lia. case_decide as Ha2.
    + subst a. rewrite to_uchar_testbit, Z.lor_spec, Z.shiftl_spec by lia. f_equal. f_equal. lia.
    + rewrite (Z.testbit_neg_r digit) by lia. by rewrite orb_false_r.
Qed.

Lemma length_parse32_step size n digit l : length (parse32_step size n digit l) = length l.
Proof. unfold parse32_step. case_decide; by rewrite !length_insert. Qed.

Lemma drop_parse32_step size n digit l :
  ((n * 5) `div` 8 < size)%nat → drop size (parse32_step size n digit l) = drop size l.
Proof.
  intros. unfold parse32_step. case_decide; by rewrite !drop_insert_lt by lia.
Qed.

Lemma parse32_turn todo (n size : nat) s l c :
  s !! (length s - n - 1)%nat = Some c → base32_char_ok c →
  ((n * 5) `div` 8 < size)%nat → (size <= length l)%nat →
  parseHash32_loop (S todo) n size s l =
    parseHash32_loop todo (S n) size s (parse32_step size n (base32_digit c) l).
Proof.
  intros Hc Hok Hi Hl. unfold base32_char_ok in Hok. cbn [parseHash32_loop]. rewrite Hc. cbn zeta.
  rewrite decide_False by lia. unfold parse32_step. set (i := ((n * 5) `div` 8)%nat) in *.
  destruct (lookup_lt_is_Some_2 l i ltac:(lia)) as [x Hx].
  rewrite (hash_get_lookup _ _ _ Hx). cbn [mbind outcome_bind].
  rewrite hash_set_ok by lia. cbn [mbind outcome_bind].
  rewrite (nth_lookup_Some _ _ _ _ Hx).
  destruct (decide (i + 1 < size)%nat) as [H1|H1]; cbn [mbind outcome_bind]; [|done].
  destruct (lookup_lt_is_Some_2 l (i + 1)%nat ltac:(lia)) as [y Hy].
  rewrite (hash_get_lookup _ _ y) by (rewrite list_lookup_insert_ne by lia; done).
  cbn [mbind outcome_bind]. rewrite hash_set_ok by (rewrite length_insert; lia).
  cbn [mbind outcome_bind]. by rewrite (nth_lookup_Some _ _ _ _ Hy).
Qed.

Lemma parseHash32_loop_spec todo (n size : nat) s l :
  (0 < size <= 64)%nat → (size <= length l)%nat → length s = hashLength32 size →
  (n + todo)%nat = length s → Forall base32_char_ok s →
  hash_num size l = value32 (drop (length s - n) s) mod 2 ^ (8 * Z.of_nat size) →
  ∃ l', parseHash32_loop todo n size s l = Ret l' ∧ length l' = length l ∧
        drop size l' = drop size l ∧
        hash_num size l' = value32 s mod 2 ^ (8 * Z.of_nat size).
Proof.
  intros Hsz. revert n l. induction todo as [|todo IH]; intros n l Hl Hs Hn Hok Hv.
  { exists l. split_and!; [done..|]. rewrite Hv. by replace (length s - n)%nat with 0%nat by lia. }
  destruct (lookup_lt_is_Some_2 s (length s - n - 1)%nat ltac:(lia)) as [c Hc].
  assert (base32_char_ok c) as Hcok by (eapply Forall_lookup_1; eauto).
  assert ((n * 5) `div` 8 < size)%nat as Hi by (apply hashLength32_bounds; lia).
  rewrite (parse32_turn _ _ _ _ _ c) by done.
  destruct (IH (S n) (parse32_step size n (base32_digit c) l)) as (l' & E & El & Ed & Ev);
    try done; [by rewrite length_parse32_step|lia| |].
  2: { exists l'. rewrite E, El, Ed, length_parse32_step, drop_parse32_step by done. done. }
  pose proof (base32_digit_nonneg c) as Hd0. unfold base32_char_ok in Hcok.
  replace (length s - S n)%nat with (length s - n - 1)%nat by lia.
  rewrite (drop_S _ _ _ Hc). cbn [value32].
  replace (S (length s - n - 1)) with (length s - n)%nat by lia.
  set (t := drop (length s - n) s) in *.
  assert (length t = n) as Ht by (unfold t; rewrite length_drop; lia).
  assert (Forall base32_char_ok t) as Htok by (by apply Forall_drop).
  pose proof (value32_bound t Htok) as Hb. rewrite Ht in *.
  rewrite Z.mul_comm, Z.add_comm, <-lor_shiftl by lia.
  apply (bits_ext_below (8 * Z.of_nat size)); [lia| | |].
  - apply hash_num_bound. by rewrite length_parse32_step.
  - apply Z.mod_pos_bound. lia.
  - intros k Hk. rewrite parse32_step_testbit, Hv by lia.
    by rewrite !Z.mod_pow2_bits_low, Z.lor_spec by lia.
Qed.

(** A character outside the alphabet is rejected. *)
Lemma parseHash32_loop_bad todo (n size : nat) s l :
  (0 < size <= 64)%nat → (size <= length l)%nat → length s = hashLength32 size →
  (n + todo)%nat = length s → Forall base32_char_ok (drop (length s - n) s) →
  ¬ Forall base32_char_ok s →
  parseHash32_loop todo n size s l = Throw (Error "invalid base-32 hash").
Proof.
  intros Hsz. revert n l. induction todo as [|todo IH]; intros n l Hl Hs Hn Hok Hbad.
  { exfalso. apply Hbad. by replace (length s - n)%nat with 0%nat in Hok by lia. }
  destruct (lookup_lt_is_Some_2 s (length s - n - 1)%nat ltac:(lia)) as [c Hc].
  destruct (decide (base32_digit c < 32)) as [Hcok|Hcbad].
  - rewrite (parse32_turn _ _ _ _ _ c); [|done..|apply hashLength32_bounds; lia|done].
    apply IH; [by rewrite length_parse32_step|done|lia| |done].
    replace (length s - S n)%nat with (length s - n - 1)%nat by lia.
    rewrite (drop_S _ _ _ Hc). constructor; [done|].
    by replace (S (length s - n - 1)) with (length s - n)%nat by lia.
  - cbn [parseHash32_loop]. rewrite Hc. cbn zeta. by rewrite decide_True by lia.
Qed.
End parse32.


(** * compressHash: correctness *)

Section compress.
Local Open Scope Z_scope.

(** Exclusive or of the first [n] bytes whose index is congruent to [a]. *)
Fixpoint xor_class (newSize : nat) (src : bytes) (n a : nat) : Z :=
  match n with
  | O => 0
  | S n =>
      if decide (n `mod` newSize = a)%nat
      then Z.lxor (xor_class newSize src n a) (uchar (nth n src Byte.x00))
      else xor_class newSize src n a
  end.

Lemma uchar_lxor x y : uchar (to_uchar (Z.lxor (uchar x) (uchar y))) = Z.lxor (uchar x) (uchar y).
Proof.
  rewrite uchar_to_uchar. change 256 with (2 ^ 8). rewrite <-Z.land_ones by lia.
  apply Z.bits_inj'. intros k Hk. rewrite Z.land_spec, Z.lxor_spec.
  destruct (Z.ltb_spec k 8).
  - by rewrite Z.ones_spec_low, andb_true_r by lia.
  - by rewrite !uchar_high_bits.
Qed.

Lemma compressHash_loop_spec n src (i newSize : nat) l :
  (0 < newSize)%nat → (newSize <= length l)%nat → (i + n <= length src)%nat →
  (∀ a, (a < newSize)%nat → uchar (nth a l Byte.x00) = xor_class newSize src i a) →
  ∃ l', compressHash_loop n src i newSize l = Ret l' ∧ length l' = length l ∧
        drop newSize l' = drop newSize l ∧
        ∀ a, (a < newSize)%nat → uchar (nth a l' Byte.x00) = xor_class newSize src (i + n) a.
Proof.
  intros Hn0. revert i l. induction n as [|n IH]; intros i l Hl Hi Hinv; cbn [compressHash_loop].
  { exists l. rewrite Nat.add_0_r. done. }
  assert (i `mod` newSize < newSize)%nat as Hm by (apply Nat.mod_upper_bound; lia).
  destruct (lookup_lt_is_Some_2 src i ltac:(lia)) as [b Hb].
  destruct (lookup_lt_is_Some_2 l (i `mod` newSize)%nat ltac:(lia)) as [x Hx].
  rewrite (hash_get_lookup _ _ _ Hb), (hash_get_lookup _ _ _ Hx). cbn [mbind outcome_bind].
  rewrite hash_set_ok by lia. cbn [mbind outcome_bind].
  destruct (IH (S i) (<[(i `mod` newSize)%nat := to_uchar (Z.lxor (uchar x) (uchar b))]> l))
    as (l' & E & El & Ed & Ev).
  - rewrite length_insert. lia.
  - lia.
  - intros a Ha. rewrite nth_insert by lia. cbn [xor_class]. case_decide as Ec.
    + rewrite uchar_lxor. rewrite (nth_lookup_Some _ _ _ _ Hb), <-Hinv by done.
      by rewrite <-Ec, (nth_lookup_Some _ _ _ _ Hx).
    + by apply Hinv.
  - exists l'. rewrite E, El, Ed, length_insert, drop_insert_lt by lia.
    split_and!; [done..|]. intros a Ha. rewrite Ev by done. f_equal. lia.
Qed.
End compress.

(** * Digests *)

Section digests.
Context `{GcryptLaws}.

Lemma Hash_new_ok ht :
  ht ≠ htUnknown →
  Hash_new ht = Ret (mkHash (gcry_md_get_algo_dlen ht) zero_array ht).
Proof.
  intros Hht. unfold Hash_new. destruct (dlen_known ht Hht) as [Hpos Hmax].
  rewrite decide_False by lia. rewrite bool_decide_eq_true_2 by done. done.
Qed.

Lemma Hash_new_wf ht h : ht ≠ htUnknown → Hash_new ht = Ret h → hash_wf h ∧ hash_type h = ht ∧
  hashSize h = gcry_md_get_algo_dlen ht.
Proof.
  intros Hht. rewrite Hash_new_ok by done. intros [= <-]. split; [|done].
  unfold hash_wf, zero_array; cbn [hash hashSize]. rewrite length_replicate, drop_replicate.
  pose proof (dlen_known ht Hht). split_and!; unfold maxHashSize; done || lia.
Qed.

(** The digest libgcrypt computes for the whole of [s]. *)
Definition gcry_digest (ht : HashType) (s : bytes) : bytes :=
  gcry_md_read (gcry_md_write (gcry_md_open ht) s).

Lemma md_finish_spec ht h s :
  ht ≠ htUnknown → Hash_new ht = Ret h →
  let h' := md_finish h (gcry_md_write (gcry_md_open ht) s) in
  hash_wf h' ∧ hash_type h' = ht ∧ hashSize h' = gcry_md_get_algo_dlen ht ∧
  digest h' = gcry_digest ht s.
Proof.
  intros Hht. rewrite Hash_new_ok by done. intros [= <-]. unfold md_finish; cbn [hash hashSize hash_type].
  pose proof (dlen_known ht Hht) as Hd. pose proof (md_read_length ht s) as Hl.
  rewrite take_ge by lia. unfold gcry_digest.
  set (d := gcry_md_read _) in *. unfold hash_wf, digest; cbn [hash hashSize].
  rewrite Hl. unfold zero_array. rewrite drop_replicate. unfold maxHashSize in *. split_and!; [|lia|lia| |done|done|].
  - rewrite length_app, length_replicate. lia.
  - by rewrite <-Hl, drop_app_length.
  - by rewrite <-Hl, take_app_length.
Qed.

Lemma md_update_small ctx data :
  (Z.of_nat (length data) < 2 ^ 32)%Z → md_update ctx data = gcry_md_write ctx data.
Proof.
  intros Hd. unfold md_update. rewrite Z.mod_small, Nat2Z.id by lia. by rewrite firstn_all.
Qed.

Lemma hashsink_ctx_spec ht ws :
  Forall (λ w, Z.of_nat (length w) < 2 ^ 32)%Z ws →
  hashsink_ctx ht ws = gcry_md_write (gcry_md_open ht) (wire ws).
Proof.
  unfold hashsink_ctx. intros Hws. rewrite <-(md_write_nil (gcry_md_open ht)).
  generalize (@nil byte) as acc. induction Hws as [|w ws Hw Hws IH]; intros acc.
  - by rewrite md_write_app, app_nil_r.
  - simpl foldl. rewrite md_update_small, md_write_app, IH by done.
    rewrite !md_write_app, mjoin_cons. by rewrite (assoc (++)).
Qed.

Lemma hashsink_bytes_spec ws : hashsink_bytes ws = (Z.of_nat (length (wire ws)) mod 2 ^ 64)%Z.
Proof.
  unfold hashsink_bytes. change 0%Z with (0 mod 2 ^ 64)%Z at 1.
  rewrite <-(Z.add_0_l (Z.of_nat (length (wire ws)))). generalize 0%Z as acc.
  induction ws as [|w ws IH]; intros acc; [simpl; by rewrite Z.add_0_r|].
  simpl foldl. rewrite Z.add_mod_idemp_l by lia. rewrite IH. rewrite mjoin_cons, length_app.
  f_equal. lia.
Qed.

(** Each [write] of a buffered sink gets a caller's chunk or a full buffer. *)
Definition sink_small (B : Z) (s : BufferedSink) : Prop :=
  Forall (λ w, Z.of_nat (length w) < B)%Z (writes s) ∧ (Z.of_nat (bufPos s) < B)%Z.

Lemma sink_flush_small B s : sink_small B s → sink_small B (sink_flush s).
Proof.
  intros [Hw Hb]. unfold sink_flush. case_decide; [done|]. split; simpl.
  - apply Forall_app. split; [done|]. by constructor.
  - unfold bufPos; simpl. lia.
Qed.

Lemma sink_call_loop_small B fuel s data s' :
  (Z.of_nat (length data) < B)%Z → (Z.of_nat (bufSize s) < B)%Z → sink_small B s →
  sink_call_loop fuel s data = Ret s' → sink_small B s'.
Proof.
  revert s data. induction fuel as [|fuel IH]; intros s [|b d] Hd HB Hs; simpl;
    try (intros [= <-]; done); try done.
  set (data := b :: d) in *. change (S (length d)) with (length data).
  case_decide as Hc; [intros [= <-]|].
  - apply sink_flush_small in Hs as [Hw Hp]. split; simpl; [|done].
    apply Forall_app. split; [done|]. by constructor.
  - set (n := if decide (bufSize s < bufPos s + length data) then _ else _).
    assert (n = length data) as -> by (unfold n; rewrite decide_False by lia; done).
    rewrite firstn_all, drop_all. set (s1 := mkBufferedSink _ _ _).
    assert (sink_small B s1) as Hs1.
    { destruct Hs as [Hw Hp]. split; [done|]. unfold bufPos, s1 in *; simpl.
      rewrite length_app. lia. }
    intros E. case_decide.
    + eapply IH, E; [simpl; lia| |by apply sink_flush_small]. by rewrite sink_flush_bufSize.
    + eapply IH, E; [simpl; lia|done|done].
Qed.

Lemma hashsink_run_ok ht chunks :
  ht ≠ htUnknown → Forall (λ w, Z.of_nat (length w) < 2 ^ 32)%Z chunks →
  ∃ h, hashsink_run ht chunks = Ret (h, Z.of_nat (length (wire chunks)) mod 2 ^ 64)%Z ∧
       hash_wf h ∧ hash_type h = ht ∧ hashSize h = gcry_md_get_algo_dlen ht ∧
       digest h = gcry_digest ht (wire chunks).
Proof.
  intros Hht Hch. unfold hashsink_run, hashsink_finish.
  destruct (sink_calls_spec _ chunks (sink_new_inv defaultBufSize)) as (s & E & Hst & Hbs & Hinv).
  rewrite E. cbn [mbind outcome_bind]. rewrite Hash_new_ok by done. cbn [mbind outcome_bind].
  set (P s := sink_inv s ∧ sink_small (2 ^ 32) s ∧ bufSize s = defaultBufSize).
  assert (P s) as (_ & Hsm & _).
  { revert E. apply (foldM_inv P).
    - intros s1 x s2 Hx (Hi1 & Hs1 & Hb1) E1. rewrite Forall_forall in Hch.
      destruct (sink_call_spec s1 x Hi1) as (s3 & E3 & _ & Hb3 & Hi3).
      assert (s3 = s2) as -> by congruence. split_and!; [done| |congruence].
      eapply sink_call_loop_small, E1; [by apply Hch| |done].
      rewrite Hb1. unfold defaultBufSize. rewrite Z2Nat.id; lia.
    - split_and!; [apply sink_new_inv| |done]. by split. }
  apply sink_flush_small in Hsm as [Hsm _].
  rewrite hashsink_ctx_spec, hashsink_bytes_spec, sink_flush_wire, Hst by done.
  change (sink_stream (sink_new defaultBufSize) ++ wire chunks) with (wire chunks).
  eexists; split; [done|]. apply (md_finish_spec ht _ (wire chunks) Hht), Hash_new_ok, Hht.
Qed.
End digests.

(** * Round trips *)

Section spellings.
Context `{GcryptLaws}.

(** A hash of a known type, as the constructors of the file build it. *)
Definition hash_of_type (ht : HashType) (h : Hash) : Prop :=
  hash_wf h ∧ hash_type h = ht ∧ ht ≠ htUnknown ∧ hashSize h = gcry_md_get_algo_dlen ht.

Lemma parseHash_printed ht h :
  hash_of_type ht h → parseHash ht (mjoin (hex_pair <$> digest h)) = Ret h.
Proof.
  intros (Hwf & Hty & Hht & Hsz). unfold parseHash. rewrite Hash_new_ok by done.
  cbn [mbind outcome_bind hashSize hash]. pose proof (length_digest h Hwf) as Hd.
  rewrite length_hex, bool_decide_eq_true_2 by lia. cbn [check mbind outcome_bind].
  pose proof (dlen_known ht Hht). pose proof Hwf as (Hl & _ & Hz).
  rewrite parseHash_loop_spec by (unfold zero_array; rewrite ?length_replicate; unfold maxHashSize; lia).
  cbn [mbind outcome_bind]. rewrite take_0, drop_0. cbn [app]. f_equal. destruct h as [n l t].
  unfold digest in *; cbn [hash hashSize hash_type] in *. subst. f_equal. rewrite Nat.add_0_l.
  rewrite take_ge by lia. unfold zero_array. rewrite drop_replicate, <-Hz. apply take_drop.
Qed.

Lemma hash_num_inj size (l k : bytes) :
  size <= length l → size <= length k → hash_num size l = hash_num size k → take size l = take size k.
Proof.
  unfold hash_num. intros Hl Hk E.
  rewrite <-(le_bytes_le_num (take size l)), <-(le_bytes_le_num (take size k)), E.
  f_equal. rewrite !length_take. lia.
Qed.

(** What [parseHash32] does on any input of the right length. *)
Lemma parseHash32_spec ht s :
  ht ≠ htUnknown → length s = hashLength32 (gcry_md_get_algo_dlen ht) →
  (Forall base32_char_ok s →
     ∃ h, parseHash32 ht s = Ret h ∧ hash_of_type ht h ∧
          hash_num (hashSize h) (hash h) = (value32 s mod 2 ^ (8 * Z.of_nat (hashSize h)))%Z) ∧
  (¬ Forall base32_char_ok s → parseHash32 ht s = Throw (Error "invalid base-32 hash")).
Proof.
  intros Hht Hs. pose proof (dlen_known ht Hht) as Hd. unfold parseHash32.
  rewrite Hash_new_ok by done. cbn [mbind outcome_bind hashSize hash].
  rewrite bool_decide_eq_true_2 by done. cbn [check mbind outcome_bind].
  assert (length zero_array = maxHashSize) as Hz by apply length_replicate.
  unfold maxHashSize in Hz. split; intros Hok.
  - destruct (parseHash32_loop_spec (hashLength32 (gcry_md_get_algo_dlen ht)) 0
      (gcry_md_get_algo_dlen ht) s zero_array) as (l' & -> & Hl' & Hdr & Hv); try done; try lia.
    { rewrite Nat.sub_0_r, drop_all. cbn [value32]. rewrite Z.mod_0_l by lia.
      unfold hash_num. apply (le_num_zero). }
    cbn [mbind outcome_bind]. eexists; split; [done|]. cbn [hashSize hash].
    split; [|done]. split; [|done]. unfold hash_wf, maxHashSize; cbn [hashSize hash].
    rewrite Hdr. unfold zero_array. rewrite drop_replicate. split_and!; done || lia.
  - rewrite (parseHash32_loop_bad (hashLength32 (gcry_md_get_algo_dlen ht)) 0); try done; try lia.
    by rewrite Nat.sub_0_r, drop_all.
Qed.

Lemma printHash32_spec h :
  hash_wf h →
  ∃ s, printHash32 h = Ret s ∧ length s = hashLength32 (hashSize h) ∧
       Forall base32_char_ok s ∧ value32 s = hash_num (hashSize h) (hash h).
Proof.
  intros (Hl & Hs & _). unfold maxHashSize in *.
  destruct (printHash32_loop_spec (hashLength32 (hashSize h)) (hashSize h) (hash h))
    as (s & E & Hlen & Hok & Hv); try lia.
  exists s. split_and!; try done. rewrite Hv. apply Z.mod_small.
  pose proof (hash_num_bound (hashSize h) (hash h) ltac:(lia)) as Hb.
  pose proof (hashLength32_cover (hashSize h) Hs) as Hc. split; [lia|].
  eapply Z.lt_le_trans; [apply Hb|]. apply Z.pow_le_mono_r; lia.
Qed.

Lemma parseHash32_printed ht h s :
  hash_of_type ht h → printHash32 h = Ret s → parseHash32 ht s = Ret h.
Proof.
  intros (Hwf & Hty & Hht & Hsz) Hs.
  destruct (printHash32_spec h Hwf) as (s' & E & Hlen & Hok & Hv).
  assert (s' = s) as -> by congruence. rewrite Hsz in Hlen.
  destruct (proj1 (parseHash32_spec ht s Hht Hlen) Hok) as (h' & -> & (Hwf' & Hty' & _ & Hsz') & Hv').
  f_equal. apply hash_ext; [done..|congruence|congruence|].
  unfold digest. assert (hashSize h' = hashSize h) as Es by congruence. rewrite Es in *.
  destruct Hwf as (Hl & Hb & _), Hwf' as (Hl' & _). unfold maxHashSize in *.
  apply hash_num_inj; [lia|lia|]. rewrite Hv', Hv. apply Z.mod_small.
  apply hash_num_bound. lia.
Qed.
End spellings.

Lemma compressHash_spec (h : Hash) (newSize : nat) :
  hash_wf h → 0 < newSize <= maxHashSize →
  ∃ h', compressHash h newSize = Ret h' ∧ hash_wf h' ∧ hashSize h' = newSize ∧
        ∀ a, a < newSize →
          uchar (nth a (hash h') Byte.x00) = xor_class newSize (hash h) (hashSize h) a.
Proof.
  intros (Hl & Hs & _) Hn. unfold compressHash. rewrite decide_False by lia.
  destruct (compressHash_loop_spec (hashSize h) (hash h) 0 newSize (hash Hash_default))
    as (l' & -> & Hl' & Hd & Hx).
  - lia.
  - cbn [hash Hash_default]. unfold zero_array. rewrite length_replicate. lia.
  - lia.
  - intros a Ha. cbn [hash Hash_default xor_class]. unfold zero_array.
    rewrite nth_lookup, lookup_replicate_2 by lia. done.
  - cbn [mbind outcome_bind]. eexists; split; [done|]. split_and!; [|done|done].
    unfold hash_wf; cbn [hash hashSize].
    rewrite Hl', Hd. cbn [hash Hash_default]. unfold zero_array.
    rewrite length_replicate, drop_replicate. done.
Qed.

Lemma hashString_ok `{GcryptLaws} ht s :
  ht ≠ htUnknown → ∃ h, hashString ht s = Ret h ∧ hash_of_type ht h.
Proof.
  intros Hht. unfold hashString. rewrite Hash_new_ok by done. cbn [mbind outcome_bind]. eexists.
  split; [done|]. unfold md_update.
  by destruct (md_finish_spec ht _ (take (Z.to_nat (Z.of_nat (length s) mod 2 ^ 32)) s) Hht
    (Hash_new_ok ht Hht)) as (? & ? & ? & _).
Qed.

(** * An instance of [Gcrypt], for the witnesses

    The documented digest sizes, and a "digest" that pads or cuts its input. *)

Definition toy_dlen (ht : HashType) : nat :=
  match ht with
  | htUnknown => 0
  | htMD5 => 16
  | htSHA1 => 20
  | htSHA256 | htSHA3_256 | htBLAKE2s_256 => 32
  | htSHA512 | htSHA3_512 => 64
  end.

Definition toy_gcrypt : Gcrypt := {|
  gcry_md_hd_t := (HashType * bytes);
  gcry_md_get_algo_dlen := toy_dlen;
  gcry_md_open ht := (ht, []);
  gcry_md_write h a := (h.1, h.2 ++ a);
  gcry_md_read h := take (toy_dlen h.1) (h.2 ++ zero_array)
|}.

Lemma toy_gcrypt_laws : @GcryptLaws toy_gcrypt.
Proof.
  split; simpl; try done.
  - intros []; simpl; try done; lia.
  - intros [ht s]; simpl. by rewrite app_nil_r.
  - intros [ht s] a b; simpl. by rewrite (assoc (++)).
  - intros ht s. rewrite length_take, length_app. change (length zero_array) with 64.
    assert (toy_dlen ht <= 64) by (destruct ht; simpl; lia). lia.
Defined.

(** * Properties *)

(** C40: The base-16 and the base-32 spelling of a hash are both read back by
    [parseHash16or32] as the same hash, for every hash type; they have the
    documented lengths, and printing makes no access outside the array. *)
Theorem hash_spellings_roundtrip `{GcryptLaws} (ht : HashType) (h : Hash) :
  hash_of_type ht h →
  ∃ s16 s32,
    printHash h = Ret s16 ∧ length s16 = hashSize h * 2 ∧
    printHash32 h = Ret s32 ∧ length s32 = hashLength32 (hashSize h) ∧
    parseHash16or32 ht s16 = Ret h ∧ parseHash16or32 ht s32 = Ret h.
Proof.
  intros Hh. pose proof Hh as (Hwf & Hty & Hht & Hsz).
  destruct (printHash32_spec h Hwf) as (s32 & E32 & L32 & _).
  exists (mjoin (hex_pair <$> digest h)), s32.
  assert (length (mjoin (hex_pair <$> digest h)) = hashSize h * 2) as L16
    by (rewrite length_hex, length_digest; done).
  split_and!; [by apply printHash_spec|done|done|done| |];
    unfold parseHash16or32; rewrite Hash_new_ok by done; cbn [mbind outcome_bind hashSize].
  - rewrite decide_True by congruence. by apply parseHash_printed.
  - pose proof (dlen_known ht Hht) as Hd. pose proof (hashLength32_spec (hashSize h) ltac:(lia)) as Hls.
    pose proof (Z.div_mod (8 * Z.of_nat (hashSize h) - 1) 5).
    pose proof (Z.mod_pos_bound (8 * Z.of_nat (hashSize h) - 1) 5).
    rewrite decide_False by lia. rewrite decide_True by congruence.
    by apply (parseHash32_printed ht h).
Qed.

Lemma hash_spellings_roundtrip_witness :
  let h := mkHash 20 (str "twenty bytes of hash" ++ replicate 44 Byte.x00) htSHA1 in
  ∃ s16 s32,
    printHash h = Ret s16 ∧ length s16 = 40 ∧ printHash32 h = Ret s32 ∧ length s32 = 32 ∧
    @parseHash16or32 toy_gcrypt htSHA1 s16 = Ret h ∧ @parseHash16or32 toy_gcrypt htSHA1 s32 = Ret h.
Proof.
  intros h. apply (@hash_spellings_roundtrip toy_gcrypt toy_gcrypt_laws htSHA1 h).
  split_and!; [split_and!; vm_compute; done || lia|done|done|done].
Defined.

(** On a string of the right length [parseHash32] either rejects a character
    outside the alphabet, or returns the hash whose little-endian number is the
    value of the numeral modulo 2^(8 * hashSize); it makes no access outside the
    array. *)
Theorem parseHash32_denotes `{GcryptLaws} (ht : HashType) (s : bytes) :
  ht ≠ htUnknown → length s = hashLength32 (gcry_md_get_algo_dlen ht) →
  (Forall base32_char_ok s →
     ∃ h, parseHash32 ht s = Ret h ∧ hash_of_type ht h ∧
          hash_num (hashSize h) (hash h) = (value32 s mod 2 ^ (8 * Z.of_nat (hashSize h)))%Z) ∧
  (¬ Forall base32_char_ok s → parseHash32 ht s = Throw (Error "invalid base-32 hash")).
Proof. apply parseHash32_spec. Qed.

Lemma parseHash32_denotes_witness :
  @parseHash32 toy_gcrypt htSHA1 (str "0123456789abcdfghijklmnpqrsvwxye") =
    Throw (Error "invalid base-32 hash").
Proof.
  apply (@parseHash32_denotes toy_gcrypt toy_gcrypt_laws htSHA1
           (str "0123456789abcdfghijklmnpqrsvwxye")); [done|by vm_compute|].
  intros Hf. rewrite Forall_forall in Hf. specialize (Hf "e"%byte).
  assert (base32_char_ok "e"%byte) as Hc; [|by vm_compute in Hc].
  apply Hf. apply list_elem_of_lookup. exists 31. by vm_compute.
Defined.

(** Two different spellings of one SHA-256 hash: the four bits of the leading
    character that exceed the hash are dropped instead of being rejected. *)
Theorem parseHash32_accepts_overflow :
  let s0 := "0"%byte :: replicate 51 "1"%byte in
  let s1 := "f"%byte :: replicate 51 "1"%byte in
  s0 ≠ s1 ∧ @parseHash32 toy_gcrypt htSHA256 s0 = @parseHash32 toy_gcrypt htSHA256 s1 ∧
  is_Some (match @parseHash32 toy_gcrypt htSHA256 s0 with Ret h => Some h | _ => None end).
Proof. split_and!; [done|by vm_compute|vm_compute; eauto]. Qed.

(** [compressHash] folds a hash to [newSize] bytes: byte [a] of the result is
    the exclusive or of the bytes of the digest whose index is congruent to [a],
    and the rest of the array is zero. *)
Theorem compressHash_folds (h : Hash) (newSize : nat) :
  hash_wf h → 0 < newSize <= maxHashSize →
  ∃ h', compressHash h newSize = Ret h' ∧ hash_wf h' ∧ hashSize h' = newSize ∧
        ∀ a, a < newSize →
          uchar (nth a (hash h') Byte.x00) = xor_class newSize (hash h) (hashSize h) a.
Proof. apply compressHash_spec. Qed.

Lemma compressHash_folds_witness :
  let h := mkHash 32 (str "0123456789abcdefghijklmnopqrstuv" ++ replicate 32 Byte.x00) htSHA256 in
  ∃ h', compressHash h 20 = Ret h' ∧ hash_wf h' ∧ hashSize h' = 20 ∧
        ∀ a, a < 20 → uchar (nth a (hash h') Byte.x00) = xor_class 20 (hash h) 32 a.
Proof.
  intros h. apply (compressHash_folds h 20).
  - split_and!; vm_compute; done || lia.
  - unfold maxHashSize. lia.
Defined.

(** Hashing a stream through a [HashSink], in whatever chunks it arrives, gives
    the digest of the whole stream and its length modulo 2^64, and agrees with
    [hashString] on the concatenation when that is shorter than 2^32 bytes. *)
Theorem hashsink_is_hashString `{GcryptLaws} (ht : HashType) (chunks : list bytes) :
  ht ≠ htUnknown → Forall (λ w, Z.of_nat (length w) < 2 ^ 32)%Z chunks →
  ∃ h, hashsink_run ht chunks = Ret (h, Z.of_nat (length (wire chunks)) mod 2 ^ 64)%Z ∧
       hash_of_type ht h ∧ digest h = gcry_digest ht (wire chunks) ∧
       ((Z.of_nat (length (wire chunks)) < 2 ^ 32)%Z → hashString ht (wire chunks) = Ret h).
Proof.
  intros Hht Hch. destruct (hashsink_run_ok ht chunks Hht Hch) as (h & E & Hwf & Hty & Hsz & Hd).
  exists h. split_and!; [done|by split_and!|done|]. intros Hlen.
  unfold hashString. rewrite Hash_new_ok by done. cbn [mbind outcome_bind]. f_equal.
  rewrite md_update_small by done.
  destruct (md_finish_spec ht _ (wire chunks) Hht (Hash_new_ok ht Hht)) as (Hwf' & Hty' & Hsz' & Hd').
  apply hash_ext; congruence || done.
Qed.

Lemma hashsink_is_hashString_witness :
  let chunks := [str "guix"; []; str "-daemon"] in
  ∃ h, @hashsink_run toy_gcrypt htSHA256 chunks = Ret (h, 11%Z) ∧
       @hash_of_type toy_gcrypt htSHA256 h ∧
       digest h = @gcry_digest toy_gcrypt htSHA256 (str "guix-daemon") ∧
       ((Z.of_nat (length (wire chunks)) < 2 ^ 32)%Z →
        @hashString toy_gcrypt htSHA256 (wire chunks) = Ret h).
Proof.
  intros chunks.
  apply (@hashsink_is_hashString toy_gcrypt toy_gcrypt_laws htSHA256 chunks); [done|].
  by repeat constructor.
Defined.

(** [update] takes its length as an [unsigned int]: of a string of 2^32 bytes or
    more, [hashString] only hashes the first [length mod 2^32]. *)
Theorem hashString_mod_2_32 `{Gcrypt} (ht : HashType) (s : bytes) :
  hashString ht s = hashString ht (take (Z.to_nat (Z.of_nat (length s) mod 2 ^ 32)) s).
Proof.
  unfold hashString. destruct (Hash_new ht) as [h| |]; cbn [mbind outcome_bind]; [|done..].
  f_equal. f_equal. unfold md_update. f_equal.
  pose proof (Z.mod_pos_bound (Z.of_nat (length s)) (2 ^ 32) ltac:(lia)) as Hb.
  pose proof (Z.mod_le (Z.of_nat (length s)) (2 ^ 32) ltac:(lia) ltac:(lia)).
  set (k := Z.to_nat (Z.of_nat (length s) mod 2 ^ 32)).
  assert (length (take k s) = k) as Hk by (rewrite length_take; unfold k; lia).
  rewrite Hk. replace (Z.to_nat (Z.of_nat k mod 2 ^ 32)) with k.
  - by rewrite take_take, Nat.min_id.
  - unfold k. rewrite Z2Nat.id by lia. rewrite Z.mod_mod by lia. done.
Qed.
