(* ===== verification/Archive.v ===== *)
(** libutil/archive.{hh,cc}: the normalised archive ("NAR") format.

    [dump] turns a file-system object into the chunks it writes to its sink;
    [parse] reads an archive from any [Source] and drives a [ParseSink], here
    the trace of the calls made on it, which survives an exception;
    [RestoreSink] interprets the calls on a file system. *)

From S2P Require Import Prelude Containers Serialise.

Create HintDb archive discriminated.

(** * File-system objects, as [lstat]/[readdir]/[readlink] show them *)

(** A directory lists its entries in [readdir] order, without "." and "..";
    [Special] is a device, socket or pipe. *)
Inductive fso :=
  | Regular (executable : bool) (contents : bytes)
  | Directory (entries : list (bytes * fso))
  | Symlink (target : bytes)
  | Special.

Section fso_induction.
Variable P : fso → Prop.
Hypothesis HR : ∀ x c, P (Regular x c).
Hypothesis HD : ∀ es, Forall (λ e, P e.2) es → P (Directory es).
Hypothesis HL : ∀ t, P (Symlink t).
Hypothesis HS : P Special.

Fixpoint fso_ind' (t : fso) : P t :=
  match t with
  | Regular x c => HR x c
  | Directory es =>
      HD es ((fix go es : Forall (λ e, P e.2) es :=
                match es with
                | [] => Forall_nil_2 _
                | e :: es => Forall_cons_2 _ _ _ (fso_ind' e.2) (go es)
                end) es)
  | Symlink t => HL t
  | Special => HS
  end.
End fso_induction.

Definition slash : bytes := str "/".

(** * Writing *)

Definition archiveVersion1 : bytes := str "nix-archive-1".

(** [unsigned char buf[65536]] *)
Definition archiveBufSize : nat := Z.to_nat 65536.
#[global] Arguments archiveBufSize : simpl never.

(** The read loop of [dumpContents]; the file holds exactly [size] bytes. *)
Fixpoint dumpContents_loop (fuel : nat) (left : bytes) : list bytes :=
  match fuel, left with
  | S fuel, _ :: _ =>
      let n := if decide (archiveBufSize < length left) then archiveBufSize else length left in
      take n left :: dumpContents_loop fuel (drop n left)
  | _, _ => []
  end.

Definition dumpContents (contents : bytes) : list bytes :=
  writeString (str "contents") ++ writeLongLong (Z.of_nat (length contents)) ++
  dumpContents_loop (length contents) contents ++ writePadding (length contents).

Section dump.
Variable filter : bytes → bool.

(** The loop over the sorted map [unhacked]; the value of an entry is the call
    [dump(path + "/" + name, sink, filter)], run when the loop reaches it. *)
Fixpoint dump_entries (path : bytes) (unhacked : list (bytes * outcome (list bytes)))
    : outcome (list bytes) :=
  match unhacked with
  | [] => Ret []
  | (name, node) :: unhacked =>
      if filter (path ++ slash ++ name) then
        node ← node;
        rest ← dump_entries path unhacked;
        Ret (writeString (str "entry") ++ writeString (str "(") ++
             writeString (str "name") ++ writeString name ++
             writeString (str "node") ++ node ++ writeString (str ")") ++ rest)
      else dump_entries path unhacked
  end.

Fixpoint dump (path : bytes) (t : fso) : outcome (list bytes) :=
  match t with
  | Regular x contents =>
      Ret (writeString (str "(") ++ writeString (str "type") ++ writeString (str "regular") ++
           (if x then writeString (str "executable") ++ writeString [] else []) ++
           dumpContents contents ++ writeString (str ")"))
  | Directory es =>
      let unhacked :=
        foldl (λ m e, map_insert e.1 e.2 m) []
          ((fix go es := match es with
                         | [] => []
                         | e :: es => (e.1, dump (path ++ slash ++ e.1) e.2) :: go es
                         end) es) in
      body ← dump_entries path unhacked;
      Ret (writeString (str "(") ++ writeString (str "type") ++ writeString (str "directory") ++
           body ++ writeString (str ")"))
  | Symlink target =>
      Ret (writeString (str "(") ++ writeString (str "type") ++ writeString (str "symlink") ++
           writeString (str "target") ++ writeString target ++ writeString (str ")"))
  | Special => Throw (Error "file has an unsupported type")
  end.

Definition dumpPath (path : bytes) (t : fso) : outcome (list bytes) :=
  body ← dump path t; Ret (writeString archiveVersion1 ++ body).
End dump.

(** * Reading *)

(** The virtual methods of [ParseSink]. *)
Inductive event :=
  | createDirectory (path : bytes)
  | createRegularFile (path : bytes)
  | isExecutable
  | preallocateContents (size : Z)
  | receiveContents (data : bytes)
  | createSymlink (path target : bytes).

Inductive node_type := tpUnknown | tpRegular | tpDirectory | tpSymlink.

#[global] Instance node_type_eq_dec : EqDecision node_type.
Proof. solve_decision. Defined.

Definition badArchive (s : string) : exn := SerialisationError s.

(** The check on entry names. *)
Definition name_ok (name : bytes) : bool :=
  negb (bool_decide (name = []) || bool_decide (name = str ".") ||
        bool_decide (name = str "..") || bool_decide ("/"%byte ∈ name) ||
        bool_decide (Byte.x00 ∈ name)).

(** [name <= prevName] *)
Definition str_leb (a b : bytes) : bool :=
  match str_compare a b with Gt => false | _ => true end.

Section parse.
Context {S : Type} `{Source S}.

(** A parser step: the calls made on the sink, and how it ended. *)
Definition parser (A : Type) : Type := S → list event * outcome (A * S).

Definition p_ret {A} (a : A) : parser A := λ s, ([], Ret (a, s)).
Definition p_throw {A} (e : exn) : parser A := λ s, ([], Throw e).
Definition p_fuel {A} : parser A := λ s, ([], OutOfFuel).
Definition p_read {A} (m : S → outcome (A * S)) : parser A := λ s, ([], m s).
Definition p_emit (e : event) : parser () := λ s, ([e], Ret ((), s)).
Definition p_bind {A B} (m : parser A) (f : A → parser B) : parser B := λ s,
  match m s with
  | (tr, Ret (a, s)) => let '(tr', r) := f a s in (tr ++ tr', r)
  | (tr, Throw e) => (tr, Throw e)
  | (tr, OutOfFuel) => (tr, OutOfFuel)
  end.
End parse.

Declare Scope archive_scope.
Notation "'let!' x := m 'in' k" := (p_bind m (λ x, k))
  (at level 10, x name, m at level 98, k at level 200) : archive_scope.
Notation "m ';;!' k" := (p_bind m (λ _, k)) (at level 99, right associativity) : archive_scope.
Delimit Scope archive_scope with archive.
Local Open Scope archive_scope.

Section parse.
Context {S : Type} `{Source S}.
Local Abbreviation parser := (@parser S).

(** [while (left) { ... source(buf, n); sink.receiveContents(buf, n); left -= n; }] *)
Fixpoint parseContents_loop (fuel : nat) (left : Z) : parser () :=
  if decide (left = 0)%Z then p_ret ()
  else
    match fuel with
    | 0 => p_fuel
    | Datatypes.S fuel =>
        let n := Z.min (Z.of_nat archiveBufSize) left in
        let! buf := p_read (source_call (Z.to_nat n)) in
        p_emit (receiveContents buf) ;;!
        parseContents_loop fuel (left - n)
    end.

Definition parseContents (fuel : nat) : parser () :=
  let! size := p_read readLongLong in
  p_emit (preallocateContents size) ;;!
  parseContents_loop fuel size ;;!
  p_read (readPadding (Z.to_nat size)).

(** [parse], its loop over the fields of a node, and the loop over the fields of
    an entry, whose [name] and [prevName] are local to the entry. *)
Fixpoint parse (fuel : nat) (path : bytes) : parser () :=
  match fuel with
  | 0 => p_fuel
  | Datatypes.S fuel =>
      let! s := p_read readString in
      if decide (s = str "(") then parse_fields fuel tpUnknown path
      else p_throw (badArchive "expected open tag")
  end
with parse_fields (fuel : nat) (type : node_type) (path : bytes) : parser () :=
  match fuel with
  | 0 => p_fuel
  | Datatypes.S fuel =>
      let! s := p_read readString in
      if decide (s = str ")") then p_ret ()
      else if decide (s = str "type") then
        if decide (type = tpUnknown) then
          let! t := p_read readString in
          if decide (t = str "regular") then
            p_emit (createRegularFile path) ;;! parse_fields fuel tpRegular path
          else if decide (t = str "directory") then
            p_emit (createDirectory path) ;;! parse_fields fuel tpDirectory path
          else if decide (t = str "symlink") then parse_fields fuel tpSymlink path
          else p_throw (badArchive "unknown file type")
        else p_throw (badArchive "multiple type fields")
      else if decide (s = str "contents" ∧ type = tpRegular) then
        parseContents fuel ;;! parse_fields fuel type path
      else if decide (s = str "executable" ∧ type = tpRegular) then
        p_read readString ;;! p_emit isExecutable ;;! parse_fields fuel type path
      else if decide (s = str "entry" ∧ type = tpDirectory) then
        let! s := p_read readString in
        if decide (s = str "(") then
          parse_entry fuel [] [] path ;;! parse_fields fuel type path
        else p_throw (badArchive "expected open tag")
      else if decide (s = str "target" ∧ type = tpSymlink) then
        let! target := p_read readString in
        p_emit (createSymlink path target) ;;! parse_fields fuel type path
      else p_throw (badArchive "unknown field")
  end
with parse_entry (fuel : nat) (name prevName path : bytes) : parser () :=
  match fuel with
  | 0 => p_fuel
  | Datatypes.S fuel =>
      let! s := p_read readString in
      if decide (s = str ")") then p_ret ()
      else if decide (s = str "name") then
        let! name := p_read readString in
        if name_ok name then
          if str_leb name prevName then p_throw (Error "NAR directory is not sorted")
          else parse_entry fuel name name path
        else p_throw (Error "NAR contains invalid file name")
      else if decide (s = str "node") then
        if decide (s = []) then p_throw (badArchive "entry name missing")
        else parse fuel (path ++ slash ++ name) ;;! parse_entry fuel name prevName path
      else p_throw (badArchive "unknown field")
  end.

(** [parseDump]: a [SerialisationError] while reading the version is caught, the
    version is then the empty string. *)
Definition parseDump (fuel : nat) : parser () := λ s,
  match readString s with
  | Ret (version, s') =>
      if decide (version = archiveVersion1) then parse fuel [] s'
      else ([], Throw (badArchive "input doesn't look like a normalized archive"))
  | Throw (SerialisationError _) =>
      ([], Throw (badArchive "input doesn't look like a normalized archive"))
  | Throw e => ([], Throw e)
  | OutOfFuel => ([], OutOfFuel)
  end.
End parse.

(** * RestoreSink *)

(** What a path names; paths are plain strings. *)
Inductive inode :=
  | IFile (executable : bool) (data : bytes)
  | IDir
  | ILink (target : bytes).

#[global] Instance inode_eq_dec : EqDecision inode.
Proof. solve_decision. Defined.

Abbreviation filesystem := (gmap bytes inode).

Definition EEXIST : Z := 17.
Definition ENOENT : Z := 2.
Definition EBADF : Z := 9.

(** The directory part of a path, as the kernel resolves it. *)
Definition parent_of (p : bytes) : option bytes :=
  match rfind_char "/"%byte p with
  | None => None
  | Some 0 => Some slash
  | Some n => Some (take n p)
  end.

(** [mkdir], [open(O_CREAT | O_EXCL)] and [symlink]: the parent must be a
    directory and the name must be new; a path with a trailing slash names the
    directory before it. *)
Definition fs_create (p : bytes) (i : inode) (fs : filesystem) : outcome filesystem :=
  if decide (last p = Some "/"%byte) then Throw (SysError EEXIST "File exists")
  else
    match parent_of p with
    | None => Throw (SysError ENOENT "No such file or directory")
    | Some d =>
        if decide (fs !! d = Some IDir) then
          if decide (is_Some (fs !! p)) then Throw (SysError EEXIST "File exists")
          else Ret (<[p := i]> fs)
        else Throw (SysError ENOENT "No such file or directory")
    end.

(** [fd]: the file being written and the offset reached, none when closed. *)
Record RestoreSink := mkRestoreSink {
  rs_fd : option (bytes * nat);
  rs_fs : filesystem
}.

(** [write] at an offset. *)
Definition splice (off : nat) (data file : bytes) : bytes :=
  take off file ++ replicate (off - length file) Byte.x00 ++ data ++ drop (off + length data) file.

Section restore.
Variable have_posix_fallocate : bool.
Variable dstPath : bytes.

Definition with_file {A} (k : RestoreSink) (f : bytes → nat → bool → bytes → outcome A) : outcome A :=
  match rs_fd k with
  | None => Throw (SysError EBADF "Bad file descriptor")
  | Some (p, off) =>
      match rs_fs k !! p with
      | Some (IFile x data) => f p off x data
      | _ => Throw (SysError EBADF "Bad file descriptor")
      end
  end.

Definition restore_event (k : RestoreSink) (e : event) : outcome RestoreSink :=
  match e with
  | createDirectory path =>
      fs ← fs_create (dstPath ++ path) IDir (rs_fs k); Ret (mkRestoreSink (rs_fd k) fs)
  | createRegularFile path =>
      fs ← fs_create (dstPath ++ path) (IFile false []) (rs_fs k);
      Ret (mkRestoreSink (Some (dstPath ++ path, 0)) fs)
  | isExecutable =>
      with_file k (λ p off x data,
        Ret (mkRestoreSink (rs_fd k) (<[p := IFile true data]> (rs_fs k))))
  | preallocateContents len =>
      if have_posix_fallocate && negb (bool_decide (len = 0%Z)) then
        with_file k (λ p off x data,
          if decide (len < 2 ^ 63)%Z then
            Ret (mkRestoreSink (rs_fd k)
              (<[p := IFile x (data ++ replicate (Z.to_nat len - length data) Byte.x00)]> (rs_fs k)))
          else Ret k (* a negative off_t: EINVAL is ignored *))
      else Ret k
  | receiveContents data =>
      with_file k (λ p off x file,
        Ret (mkRestoreSink (Some (p, off + length data))
          (<[p := IFile x (splice off data file)]> (rs_fs k))))
  | createSymlink path target =>
      fs ← fs_create (dstPath ++ path) (ILink (c_str target)) (rs_fs k); Ret (mkRestoreSink (rs_fd k) fs)
  end.

(** [restorePath]: the sink's calls take effect as they are made; the first one
    that throws ends the parse. *)
Definition restorePath {S} `{Source S} (fuel : nat) (fs : filesystem) (s : S)
    : outcome (filesystem * S) :=
  let '(tr, r) := parseDump fuel s in
  k ← foldM restore_event tr (mkRestoreSink None fs);
  '(_, s) ← r;
  Ret (rs_fs k, s).
End restore.

(** * The format

    [canon] is the object an archive represents: entries the filter rejects
    are dropped and the others sorted by name. [nar] is the encoding of an
    object whose directories are sorted. *)

Definition sort_entries {V} (es : list (bytes * V)) : list (bytes * V) :=
  foldl (λ m e, map_insert e.1 e.2 m) [] es.

Fixpoint canon (filter : bytes → bool) (path : bytes) (t : fso) : fso :=
  match t with
  | Directory es =>
      Directory (List.filter (λ e, filter (path ++ slash ++ e.1))
        (sort_entries
           ((fix go es := match es with
                          | [] => []
                          | e :: es => (e.1, canon filter (path ++ slash ++ e.1) e.2) :: go es
                          end) es)))
  | t => t
  end.

Definition nar_entry (nar : fso → list bytes) (e : bytes * fso) : list bytes :=
  writeString (str "entry") ++ writeString (str "(") ++
  writeString (str "name") ++ writeString e.1 ++
  writeString (str "node") ++ nar e.2 ++ writeString (str ")").

Fixpoint nar (t : fso) : list bytes :=
  match t with
  | Regular x contents =>
      writeString (str "(") ++ writeString (str "type") ++ writeString (str "regular") ++
      (if x then writeString (str "executable") ++ writeString [] else []) ++
      dumpContents contents ++ writeString (str ")")
  | Directory es =>
      writeString (str "(") ++ writeString (str "type") ++ writeString (str "directory") ++
      mjoin ((fix go es := match es with [] => [] | e :: es => nar_entry nar e :: go es end) es) ++
      writeString (str ")")
  | Symlink target =>
      writeString (str "(") ++ writeString (str "type") ++ writeString (str "symlink") ++
      writeString (str "target") ++ writeString target ++ writeString (str ")")
  | Special => []
  end.

Lemma nar_Directory es :
  nar (Directory es) =
    writeString (str "(") ++ writeString (str "type") ++ writeString (str "directory") ++
    mjoin (nar_entry nar <$> es) ++ writeString (str ")").
Proof.
  assert ((fix go es := match es with [] => [] | e :: es => nar_entry nar e :: go es end) es
    = nar_entry nar <$> es) as <- by (by induction es; f_equal/=).
  done.
Qed.

Lemma canon_Directory filter path es :
  canon filter path (Directory es) =
    Directory (List.filter (λ e, filter (path ++ slash ++ e.1))
      (sort_entries ((λ e, (e.1, canon filter (path ++ slash ++ e.1) e.2)) <$> es))).
Proof.
  assert ((fix go es := match es with
           | [] => []
           | e :: es => (e.1, canon filter (path ++ slash ++ e.1) e.2) :: go es
           end) es = (λ e, (e.1, canon filter (path ++ slash ++ e.1) e.2)) <$> es)
    as <- by (by induction es; f_equal/=).
  done.
Qed.

Lemma dump_Directory filter path es :
  dump filter path (Directory es) =
    (body ← dump_entries filter path
       (sort_entries ((λ e, (e.1, dump filter (path ++ slash ++ e.1) e.2)) <$> es));
     Ret (writeString (str "(") ++ writeString (str "type") ++ writeString (str "directory") ++
          body ++ writeString (str ")"))).
Proof.
  assert ((fix go es := match es with
           | [] => []
           | e :: es => (e.1, dump filter (path ++ slash ++ e.1) e.2) :: go es
           end) es = (λ e, (e.1, dump filter (path ++ slash ++ e.1) e.2)) <$> es)
    as <- by (by induction es; f_equal/=).
  done.
Qed.

(** ** Sorting *)

Lemma map_insert_fmap {V W} (f : bytes * V → W) k v (m : list (bytes * V)) :
  map_insert k (f (k, v)) ((λ e, (e.1, f e)) <$> m) = (λ e, (e.1, f e)) <$> map_insert k v m.
Proof.
  induction m as [|[a w] m IH]; [done|]. rewrite fmap_cons. simpl.
  destruct (str_compare k a); rewrite ?fmap_cons; simpl; congruence.
Qed.

Lemma sort_entries_fmap {V W} (f : bytes * V → W) (es : list (bytes * V)) :
  sort_entries ((λ e, (e.1, f e)) <$> es) = (λ e, (e.1, f e)) <$> sort_entries es.
Proof.
  unfold sort_entries.
  change (@nil (bytes * W)) with ((λ e, (e.1, f e)) <$> @nil (bytes * V)).
  generalize (@nil (bytes * V)) as acc.
  induction es as [|[k v] es IH]; intros acc; [done|]. rewrite fmap_cons. simpl foldl.
  rewrite map_insert_fmap. apply IH.
Qed.

Lemma elem_of_map_insert {V} k v (m : list (bytes * V)) e :
  e ∈ map_insert k v m → e = (k, v) ∨ e ∈ m.
Proof.
  induction m as [|[a w] m IH]; simpl; [set_solver|].
  destruct (str_compare k a); set_solver.
Qed.

Lemma elem_of_sort_entries {V} (es : list (bytes * V)) e : e ∈ sort_entries es → e ∈ es.
Proof.
  unfold sort_entries. enough (∀ acc, e ∈ foldl (λ m e, map_insert e.1 e.2 m) acc es → e ∈ es ∨ e ∈ acc) as H.
  { intros [?|?]%H; [done|set_solver]. }
  induction es as [|[k v] es IH]; intros acc; simpl; [auto|].
  intros [?|[->|?]%elem_of_map_insert]%IH; set_solver.
Qed.

Lemma sort_entries_wf {V} (es : list (bytes * V)) : map_wf (sort_entries es).
Proof.
  unfold sort_entries. enough (∀ acc : list (bytes * V), map_wf acc → map_wf (foldl (λ m e, map_insert e.1 e.2 m) acc es)) as H.
  { apply H. constructor. }
  induction es as [|[k v] es IH]; intros acc Hacc; simpl; [done|]. by apply IH, map_insert_wf.
Qed.

(** Sorting sorted entries changes nothing. *)
Lemma sort_entries_sorted {V} (es : list (bytes * V)) : map_wf es → sort_entries es = es.
Proof. apply (map_insert_all_sorted []). Qed.

(** ** Objects that have an archive *)

Inductive nar_ok : fso → Prop :=
  | nar_ok_regular x c : (Z.of_nat (length c) < 2 ^ 64)%Z → nar_ok (Regular x c)
  | nar_ok_directory es :
      set_wf es.*1 →
      Forall (λ e, name_ok e.1 = true ∧ (Z.of_nat (length e.1) < 2 ^ 32)%Z ∧ nar_ok e.2) es →
      nar_ok (Directory es)
  | nar_ok_symlink t : (Z.of_nat (length t) < 2 ^ 32)%Z → nul_free t → nar_ok (Symlink t).

Lemma nar_ok_directory_inv es :
  nar_ok (Directory es) →
  set_wf es.*1 ∧ ∀ e, e ∈ es → name_ok e.1 = true ∧ (Z.of_nat (length e.1) < 2 ^ 32)%Z ∧ nar_ok e.2.
Proof. inversion 1 as [|? Hs Hf|]; subst. by rewrite Forall_forall in Hf. Qed.

(** [dump] writes the encoding of the canonical object. *)
Lemma dump_nar filter t path :
  nar_ok (canon filter path t) → dump filter path t = Ret (nar (canon filter path t)).
Proof.
  revert path. induction t as [x c|es IH|tgt|] using fso_ind'; intros path Hok; try done.
  2: { inversion Hok. }
  rewrite Forall_forall in IH.
  rewrite canon_Directory in *. rewrite dump_Directory, nar_Directory.
  rewrite (sort_entries_fmap (λ e, canon filter (path ++ slash ++ e.1) e.2)) in *.
  rewrite (sort_entries_fmap (λ e, dump filter (path ++ slash ++ e.1) e.2)).
  apply nar_ok_directory_inv in Hok as [_ Hok].
  assert (∀ e, e ∈ sort_entries es → e ∈ es) as Hsub by apply elem_of_sort_entries.
  set (l := sort_entries es) in *. clearbody l.
  enough (dump_entries filter path ((λ e, (e.1, dump filter (path ++ slash ++ e.1) e.2)) <$> l) =
    Ret (mjoin (nar_entry nar <$> List.filter (λ e, filter (path ++ slash ++ e.1))
      ((λ e, (e.1, canon filter (path ++ slash ++ e.1) e.2)) <$> l)))) as -> by done.
  induction l as [|[n t] l IHl]; [done|].
  assert (∀ e, e ∈ l → e ∈ es) as Hsub' by (intros; apply Hsub; by right).
  rewrite fmap_cons in Hok. rewrite !fmap_cons. cbn [List.filter dump_entries fst snd] in *.
  destruct (filter (path ++ slash ++ n)); [|by apply IHl].
  assert (nar_ok (canon filter (path ++ slash ++ n) t)) as Hn by (apply (Hok (n, _)); left).
  pose proof (IH (n, t) (Hsub _ (list_elem_of_here _ _)) _ Hn) as E. cbn [snd] in E. rewrite E.
  cbn [mbind outcome_bind]. rewrite IHl by (done || (intros; apply Hok; by right)).
  cbn [mbind outcome_bind]. rewrite fmap_cons, mjoin_cons. unfold nar_entry at 2. cbn [fst snd].
  by rewrite <-!(assoc (++)).
Qed.

(** * Reading an archive back *)

(** The calls [parse] makes for an object. *)
Definition contents_events (c : bytes) : list event :=
  preallocateContents (Z.of_nat (length c)) :: (receiveContents <$> dumpContents_loop (length c) c).

Fixpoint events (path : bytes) (t : fso) : list event :=
  match t with
  | Regular x c =>
      createRegularFile path :: (if x then [isExecutable] else []) ++ contents_events c
  | Directory es =>
      createDirectory path ::
      mjoin ((fix go es := match es with
                           | [] => []
                           | e :: es => events (path ++ slash ++ e.1) e.2 :: go es
                           end) es)
  | Symlink t => [createSymlink path t]
  | Special => []
  end.

Lemma events_Directory path es :
  events path (Directory es) =
    createDirectory path :: mjoin ((λ e, events (path ++ slash ++ e.1) e.2) <$> es).
Proof.
  assert ((fix go es := match es with
           | [] => []
           | e :: es => events (path ++ slash ++ e.1) e.2 :: go es
           end) es = (λ e, events (path ++ slash ++ e.1) e.2) <$> es) as <-
    by (by induction es; f_equal/=).
  done.
Qed.

Section reading.
Context {S : Type} `{SourceLaws S}.
Local Abbreviation parser := (@parser S).

(** [p] reads [bs], makes the calls [tr] and returns [v]. *)
Definition parses {A} (p : parser A) (tr : list event) (v : A) (bs : bytes) : Prop :=
  ∀ s rest, source_wf s → remaining s = bs ++ rest →
  ∃ s', p s = (tr, Ret (v, s')) ∧ source_wf s' ∧ remaining s' = rest.

Lemma parses_ret {A} (v : A) : parses (p_ret v) [] v [].
Proof. intros s rest Hs Hr. exists s. done. Qed.

Lemma parses_bind {A B} (m : parser A) (f : A → parser B) tr1 tr2 v w b1 b2 :
  parses m tr1 v b1 → parses (f v) tr2 w b2 → parses (p_bind m f) (tr1 ++ tr2) w (b1 ++ b2).
Proof.
  intros Hm Hf s rest Hs Hr. rewrite <-(assoc (++)) in Hr.
  destruct (Hm s _ Hs Hr) as (s1 & E1 & Hs1 & Hr1).
  destruct (Hf s1 _ Hs1 Hr1) as (s2 & E2 & Hs2 & Hr2).
  exists s2. unfold p_bind. by rewrite E1, E2.
Qed.

Lemma parses_read {A} (m : S → outcome (A * S)) v bs :
  reads_as m v bs → parses (p_read m) [] v bs.
Proof.
  intros Hm s rest Hs Hr. destruct (Hm s rest Hs Hr) as (s' & E & Hs' & Hr').
  exists s'. unfold p_read. by rewrite E.
Qed.

Lemma parses_string {A} (x : bytes) (k : bytes → parser A) tr v bs :
  (Z.of_nat (length x) < 2 ^ 32)%Z → parses (k x) tr v bs →
  parses (p_bind (p_read readString) k) tr v (wire (writeString x) ++ bs).
Proof.
  intros Hx Hk. apply (parses_bind _ _ [] tr x); [|done]. by apply parses_read, reads_as_string.
Qed.

Lemma parses_emit {A} (e : event) (k : () → parser A) tr v bs :
  parses (k ()) tr v bs → parses (p_bind (p_emit e) k) (e :: tr) v bs.
Proof.
  intros Hk. apply (parses_bind (p_emit e) k [e] tr () v [] bs); [|done].
  intros s rest Hs Hr. exists s. done.
Qed.

(** ** Contents *)

Lemma dumpContents_loop_wire fuel c : length c <= fuel → wire (dumpContents_loop fuel c) = c.
Proof.
  assert (0 < archiveBufSize) as H0' by (unfold archiveBufSize; lia).
  revert c. induction fuel as [|fuel IH]; intros [|b c] Hc; simpl in Hc; try done; [lia|].
  cbn [dumpContents_loop]. set (d := b :: c) in *.
  assert (length d = Datatypes.S (length c)) as Hd by done.
  set (n := if decide _ then _ else _).
  assert (0 < n) by (unfold n; case_decide; lia).
  rewrite mjoin_cons, IH by (rewrite length_drop; lia). apply take_drop.
Qed.

Lemma parses_contents_loop fuel k c :
  length c <= fuel → length c <= k →
  parses (parseContents_loop fuel (Z.of_nat (length c)))
    (receiveContents <$> dumpContents_loop k c) () c.
Proof.
  assert (0 < archiveBufSize) as H0' by (unfold archiveBufSize; lia).
  revert k c. induction fuel as [|fuel IH]; intros [|k] [|b c] Hf Hk; simpl in Hf, Hk; try lia;
    try apply parses_ret.
  cbn [parseContents_loop dumpContents_loop]. set (d := b :: c) in *.
  assert (length d = Datatypes.S (length c)) as Hd by done.
  rewrite decide_False by lia. set (n := if decide _ then _ else _).
  assert (Z.to_nat (Z.min (Z.of_nat archiveBufSize) (Z.of_nat (length d))) = n ∧
          0 < n <= length d) as [En Hn] by (unfold n; case_decide; lia).
  rewrite En. rewrite fmap_cons. rewrite <-(take_drop n d) at 3.
  assert (length (take n d) = n) as Ht by (rewrite length_take; lia).
  apply (parses_bind _ _ [] _ (take n d)).
  { apply parses_read. pose proof (reads_as_call (take n d)) as Hr. by rewrite Ht in Hr. }
  apply parses_emit.
  replace (Z.of_nat (length d) - Z.min (Z.of_nat archiveBufSize) (Z.of_nat (length d)))%Z
    with (Z.of_nat (length (drop n d))) by (rewrite length_drop; lia).
  apply IH; rewrite length_drop; lia.
Qed.

Lemma parses_contents fuel c :
  (Z.of_nat (length c) < 2 ^ 64)%Z → length c <= fuel →
  parses (parseContents fuel) (contents_events c) ()
    (wire (writeLongLong (Z.of_nat (length c))) ++ c ++ wire (writePadding (length c))).
Proof.
  intros Hc Hf. unfold parseContents.
  apply (parses_bind _ _ [] _ (Z.of_nat (length c))); [apply parses_read, reads_as_longlong; lia|].
  apply parses_emit. rewrite <-(app_nil_r (receiveContents <$> _)).
  apply (parses_bind _ _ _ _ ()); [by apply parses_contents_loop|].
  rewrite Nat2Z.id. apply parses_read, reads_as_padding.
Qed.

Lemma dumpContents_wire c :
  wire (dumpContents c) =
    wire (writeString (str "contents")) ++ wire (writeLongLong (Z.of_nat (length c))) ++
    c ++ wire (writePadding (length c)).
Proof.
  unfold dumpContents. rewrite !join_app. by rewrite dumpContents_loop_wire.
Qed.

Lemma parses_contents_then {A} fuel c (k : () → parser A) tr v bs :
  (Z.of_nat (length c) < 2 ^ 64)%Z → length c <= fuel → parses (k ()) tr v bs →
  parses (p_bind (parseContents fuel) k) (contents_events c ++ tr) v
    (wire (writeLongLong (Z.of_nat (length c))) ++ c ++ wire (writePadding (length c)) ++ bs).
Proof.
  intros Hc Hf Hk.
  pose proof (parses_bind _ k _ tr () v _ bs (parses_contents fuel c Hc Hf) Hk) as Hp.
  by rewrite <-!(assoc (++)) in Hp.
Qed.

(** ** Fields *)

Abbreviation W x := (wire (writeString x)).

Lemma length_W x : 8 + length x <= length (W x).
Proof. rewrite writeString_wire, !length_app, length_writeInt. lia. Qed.

(** Read a literal, then decide the test it is for. *)
Local Ltac field :=
  apply parses_string; [done|]; cbn beta;
  repeat match goal with
  | |- parses (if decide ?P then _ else _) _ _ _ =>
      let r := eval vm_compute in (bool_decide P) in
      match r with
      | true =>
          destruct (decide P) as [_|Hn];
          [|exfalso; apply Hn; vm_compute; repeat split; reflexivity]
      | false =>
          destruct (decide P) as [Hp|_];
          [exfalso; vm_compute in Hp; destruct_and?; congruence|]
      end
  end.

Lemma parses_open fuel path tr bs :
  parses (parse_fields fuel tpUnknown path) tr () bs →
  parses (parse (Datatypes.S fuel) path) tr () (W (str "(") ++ bs).
Proof. intros Hk. cbn [parse]. field. done. Qed.

Lemma parses_close fuel type path :
  0 < fuel → parses (parse_fields fuel type path) [] () (W (str ")")).
Proof.
  intros Hf. destruct fuel as [|fuel]; [lia|]. cbn [parse_fields].
  rewrite <-(app_nil_r (W _)). field. apply parses_ret.
Qed.

Lemma parses_type_regular fuel path tr bs :
  parses (parse_fields fuel tpRegular path) tr () bs →
  parses (parse_fields (Datatypes.S fuel) tpUnknown path) (createRegularFile path :: tr) ()
    (W (str "type") ++ W (str "regular") ++ bs).
Proof. intros Hk. cbn [parse_fields]. field. field. by apply parses_emit. Qed.

Lemma parses_type_directory fuel path tr bs :
  parses (parse_fields fuel tpDirectory path) tr () bs →
  parses (parse_fields (Datatypes.S fuel) tpUnknown path) (createDirectory path :: tr) ()
    (W (str "type") ++ W (str "directory") ++ bs).
Proof. intros Hk. cbn [parse_fields]. field. field. by apply parses_emit. Qed.

Lemma parses_type_symlink fuel path tr bs :
  parses (parse_fields fuel tpSymlink path) tr () bs →
  parses (parse_fields (Datatypes.S fuel) tpUnknown path) tr ()
    (W (str "type") ++ W (str "symlink") ++ bs).
Proof. intros Hk. cbn [parse_fields]. field. field. done. Qed.

Lemma parses_executable fuel path tr bs :
  parses (parse_fields fuel tpRegular path) tr () bs →
  parses (parse_fields (Datatypes.S fuel) tpRegular path) (isExecutable :: tr) ()
    (W (str "executable") ++ W [] ++ bs).
Proof.
  intros Hk. cbn [parse_fields]. field. apply parses_string; [done|]. by apply parses_emit.
Qed.

Lemma parses_contents_field fuel path c tr bs :
  (Z.of_nat (length c) < 2 ^ 64)%Z → length c <= fuel →
  parses (parse_fields fuel tpRegular path) tr () bs →
  parses (parse_fields (Datatypes.S fuel) tpRegular path) (contents_events c ++ tr) ()
    (wire (dumpContents c) ++ bs).
Proof.
  intros Hc Hf Hk. rewrite dumpContents_wire, <-!(assoc (++)). cbn [parse_fields]. field.
  by apply parses_contents_then.
Qed.

Lemma parses_target fuel path t tr bs :
  (Z.of_nat (length t) < 2 ^ 32)%Z →
  parses (parse_fields fuel tpSymlink path) tr () bs →
  parses (parse_fields (Datatypes.S fuel) tpSymlink path) (createSymlink path t :: tr) ()
    (W (str "target") ++ W t ++ bs).
Proof.
  intros Ht Hk. cbn [parse_fields]. field. apply parses_string; [done|]. by apply parses_emit.
Qed.

Lemma name_ok_nonempty n : name_ok n = true → str_leb n [] = false.
Proof. by destruct n. Qed.

(** An entry: its name, its node, and the fields that follow it. *)
Lemma parses_entry fuel path n trn bn tr bs :
  name_ok n = true → (Z.of_nat (length n) < 2 ^ 32)%Z →
  parses (parse fuel (path ++ slash ++ n)) trn () bn →
  parses (parse_fields (Datatypes.S (Datatypes.S fuel)) tpDirectory path) tr () bs →
  0 < fuel →
  parses (parse_fields (Datatypes.S (Datatypes.S (Datatypes.S fuel))) tpDirectory path) (trn ++ tr) ()
    (W (str "entry") ++ W (str "(") ++ W (str "name") ++ W n ++ W (str "node") ++ bn ++
     W (str ")") ++ bs).
Proof.
  intros Hn Hl Hnode Hk Hf. remember (Datatypes.S (Datatypes.S fuel)) as f2 eqn:Ef2.
  cbn [parse_fields]. field. field.
  replace (W (str "name") ++ W n ++ W (str "node") ++ bn ++ W (str ")") ++ bs) with
    ((W (str "name") ++ W n ++ W (str "node") ++ bn ++ W (str ")")) ++ bs)
    by (by rewrite <-!(assoc (++))).
  refine (parses_bind _ _ trn tr () () _ bs _ Hk). subst f2.
  remember (Datatypes.S fuel) as f1 eqn:Ef1.
  cbn [parse_entry]. field. apply parses_string; [done|]. rewrite Hn, name_ok_nonempty by done.
  subst f1. cbn [parse_entry]. field.
  rewrite <-(app_nil_r trn). refine (parses_bind _ _ trn [] () () _ _ Hnode _).
  destruct fuel as [|fuel]; [lia|]. cbn [parse_entry].
  rewrite <-(app_nil_r (W _)). field. apply parses_ret.
Qed.

Lemma parses_entries es fuel path :
  (∀ e, e ∈ es → name_ok e.1 = true ∧ (Z.of_nat (length e.1) < 2 ^ 32)%Z ∧
     ∀ fuel path, length (wire (nar e.2)) <= fuel →
       parses (parse fuel path) (events path e.2) () (wire (nar e.2))) →
  length (wire (mjoin (nar_entry nar <$> es)) ++ W (str ")")) <= fuel →
  parses (parse_fields fuel tpDirectory path)
    (mjoin ((λ e, events (path ++ slash ++ e.1) e.2) <$> es)) ()
    (wire (mjoin (nar_entry nar <$> es)) ++ W (str ")")).
Proof.
  revert fuel. induction es as [|[n t] es IH]; intros fuel Hes Hf.
  { apply parses_close. pose proof (length_W (str ")")). simpl in Hf. lia. }
  destruct (Hes (n, t) (list_elem_of_here _ _)) as (Hn & Hl & Hnode). cbn [fst snd] in *.
  rewrite !fmap_cons, !mjoin_cons, join_app in *. unfold nar_entry at 1 in Hf.
  unfold nar_entry at 1. cbn [fst snd] in *. rewrite !join_app, <-!(assoc (++)) in *.
  rewrite !length_app in Hf. pose proof (length_W (str "entry")). pose proof (length_W (str ")")).
  destruct fuel as [|[|[|fuel]]]; try lia.
  apply parses_entry; [done|done|apply Hnode; lia| |lia].
  apply IH; [intros; apply Hes; by right|]. rewrite length_app. lia.
Qed.

(** [parse] reads the encoding of an object and makes the calls for it. *)
Lemma parses_nar t fuel path :
  nar_ok t → length (wire (nar t)) <= fuel →
  parses (parse fuel path) (events path t) () (wire (nar t)).
Proof.
  revert fuel path. induction t as [x c|es IH|tgt|] using fso_ind'; intros fuel path Hok.
  4: inversion Hok.
  - inversion Hok as [? ? Hc| |]; subst. cbn [nar events]. rewrite !join_app, !length_app.
    pose proof (length_W (str "(")). pose proof (length_W (str "type")).
    intros Hf. rewrite dumpContents_wire in Hf at 1. rewrite !length_app in Hf.
    destruct fuel as [|[|[|[|fuel]]]]; try lia. apply parses_open, parses_type_regular.
    rewrite <-(app_nil_r (contents_events c)). destruct x.
    + rewrite join_app, <-(assoc (++)). cbn [app].
      apply parses_executable, parses_contents_field; [done|lia|]. apply parses_close. lia.
    + apply parses_contents_field; [done|lia|]. apply parses_close. lia.
  - apply nar_ok_directory_inv in Hok as [_ Hok]. rewrite Forall_forall in IH.
    rewrite nar_Directory, events_Directory, !join_app, !length_app.
    pose proof (length_W (str "(")). pose proof (length_W (str "type")). intros Hf.
    destruct fuel as [|[|fuel]]; try lia. apply parses_open, parses_type_directory, parses_entries.
    + intros e He. destruct (Hok e He) as (Hn & Hl & Hne). split_and!; auto.
    + rewrite length_app. lia.
  - inversion Hok as [| |? Ht]; subst. cbn [nar events]. rewrite !join_app, !length_app.
    pose proof (length_W (str "(")). pose proof (length_W (str "type")).
    pose proof (length_W (str "target")). intros Hf.
    destruct fuel as [|[|[|fuel]]]; try lia.
    apply parses_open, parses_type_symlink, parses_target; [done|]. apply parses_close. lia.
Qed.
End reading.

(** * Restoring *)

(** The file system with the object [t] at [p]. *)
Fixpoint fs_add (p : bytes) (t : fso) (fs : filesystem) : filesystem :=
  match t with
  | Regular x c => <[p := IFile x c]> fs
  | Directory es =>
      (fix go es fs := match es with
                       | [] => fs
                       | e :: es => go es (fs_add (p ++ slash ++ e.1) e.2 fs)
                       end) es (<[p := IDir]> fs)
  | Symlink t => <[p := ILink t]> fs
  | Special => fs
  end.

Definition fs_add_entries (p : bytes) (es : list (bytes * fso)) (fs : filesystem) : filesystem :=
  foldl (λ fs e, fs_add (p ++ slash ++ e.1) e.2 fs) fs es.

Lemma fs_add_Directory p es fs :
  fs_add p (Directory es) fs = fs_add_entries p es (<[p := IDir]> fs).
Proof.
  unfold fs_add_entries. simpl. generalize (<[p := IDir]> fs).
  induction es as [|e es IH]; intros m; simpl; [done|]. apply IH.
Qed.

(** [q] is [p] or lies below it. *)
Abbreviation at_or_below p q := (q = p ∨ (p ++ slash) `prefix_of` q).

Definition fresh_at (p : bytes) (fs : filesystem) : Prop :=
  ∀ q, is_Some (fs !! q) → ¬ at_or_below p q.

Lemma at_or_below_child p n q : at_or_below (p ++ slash ++ n) q → at_or_below p q.
Proof.
  intros [->|[k ->]]; right; eexists; rewrite <-!(assoc (++)); done.
Qed.

Lemma fs_add_outside t p q fs : ¬ at_or_below p q → fs_add p t fs !! q = fs !! q.
Proof.
  revert p fs. induction t as [x c|es IH|tgt|] using fso_ind'; intros p fs Hq;
    try (simpl; rewrite lookup_insert_ne; [done|]; intros ->; apply Hq; by left); [|done].
  rewrite fs_add_Directory. unfold fs_add_entries. rewrite Forall_forall in IH.
  transitivity ((<[p := IDir]> fs : filesystem) !! q).
  2: { rewrite lookup_insert_ne; [done|]. intros ->. apply Hq. by left. }
  generalize (<[p := IDir]> fs) as m. induction es as [|e es IHes]; intros m; [done|]. cbn [foldl].
  rewrite IHes by (intros x Hx; apply IH; by right). apply IH; [by left|].
  intros Hb. by apply Hq, (at_or_below_child p e.1).
Qed.

Lemma fs_add_dom t p q fs : is_Some (fs_add p t fs !! q) → at_or_below p q ∨ is_Some (fs !! q).
Proof.
  intros Hs. destruct (decide (q = p)) as [->|Hne]; [by left; left|].
  destruct (decide ((p ++ slash) `prefix_of` q)); [by left; right|].
  right. rewrite fs_add_outside in Hs; [done|]. by intros [?|?].
Qed.

(** ** Names without slashes *)

Lemma slash_free_app_inj (n n' a b : bytes) :
  "/"%byte ∉ n → "/"%byte ∉ n' → n ++ slash ++ a = n' ++ slash ++ b → n = n'.
Proof.
  revert n'. induction n as [|x n IH]; intros [|y n'] Hn Hn' E; simpl in E; try done.
  - injection E as <- _. set_solver.
  - injection E as -> _. set_solver.
  - injection E as -> E. f_equal. apply IH; set_solver.
Qed.

Lemma name_ok_inv n : name_ok n = true → n ≠ [] ∧ ("/"%byte ∉ n) ∧ n ≠ str ".." ∧ n ≠ str ".".
Proof. unfold name_ok. intros H. bool_to_prop. done. Qed.

Lemma at_or_below_siblings p n n' q :
  "/"%byte ∉ n → "/"%byte ∉ n' →
  at_or_below (p ++ slash ++ n) q → at_or_below (p ++ slash ++ n') q → n = n'.
Proof.
  unfold prefix. intros Hn Hn' [->|[a ->]] [E|[b E]].
  - by simplify_list_eq.
  - rewrite <-!(assoc (++)) in E. simplify_list_eq. exfalso. apply Hn. set_solver.
  - rewrite <-!(assoc (++)) in E. simplify_list_eq. exfalso. apply Hn'. set_solver.
  - rewrite <-!(assoc (++)) in E. simplify_list_eq.
    exact (slash_free_app_inj n n' a b Hn Hn' E).
Qed.

Lemma parent_of_child p n : p ≠ [] → "/"%byte ∉ n → parent_of (p ++ slash ++ n) = Some p.
Proof.
  intros Hp Hn. unfold parent_of. change (slash ++ n) with ("/"%byte :: n).
  rewrite rfind_char_app by done. destruct p as [|b p]; [done|]. simpl length.
  f_equal. change (S (length p)) with (length (b :: p)). by rewrite take_app_length.
Qed.

Lemma last_child p n : n ≠ [] → "/"%byte ∉ n → last (p ++ slash ++ n) ≠ Some "/"%byte.
Proof.
  intros Hn Hs E. rewrite (assoc (++)), last_app in E. destruct (last n) as [b|] eqn:El.
  - injection E as ->. apply Hs. rewrite last_Some in El. destruct El as [l ->]. set_solver.
  - apply last_None in El. done.
Qed.

(** ** Contents of a file *)

Section restoring.
Variable have_posix_fallocate : bool.
Variable dst : bytes.
Local Abbreviation restore := (foldM (restore_event have_posix_fallocate dst)).

Lemma splice_append w z d : splice (length w) d (w ++ z) = (w ++ d) ++ drop (length d) z.
Proof.
  unfold splice. rewrite take_app_length, length_app.
  replace (length w - (length w + length z)) with 0 by lia.
  rewrite drop_app_add. simpl. by rewrite (assoc (++)).
Qed.

Lemma restore_receive p x chunks w z fs :
  fs !! p = Some (IFile x (w ++ z)) →
  restore (receiveContents <$> chunks) (mkRestoreSink (Some (p, length w)) fs) =
    Ret (mkRestoreSink (Some (p, length (w ++ wire chunks)))
          (<[p := IFile x (w ++ wire chunks ++ drop (length (wire chunks)) z)]> fs)).
Proof.
  revert w z fs. induction chunks as [|c chunks IH]; intros w z fs Hp.
  { simpl. rewrite app_nil_r, drop_0. by rewrite insert_id. }
  rewrite fmap_cons. cbn [foldM restore_event]. unfold with_file. cbn [rs_fd rs_fs].
  rewrite Hp, splice_append. cbn [mbind outcome_bind].
  rewrite <-length_app. rewrite (IH (w ++ c) (drop (length c) z)) by (by rewrite lookup_insert_eq).
  rewrite insert_insert_eq, mjoin_cons, drop_drop, <-!(assoc (++)).
  by rewrite (length_app c).
Qed.

Lemma restore_contents p x c fs :
  (Z.of_nat (length c) < 2 ^ 64)%Z → fs !! p = Some (IFile x []) →
  restore (contents_events c) (mkRestoreSink (Some (p, 0)) fs) =
    Ret (mkRestoreSink (Some (p, length c)) (<[p := IFile x c]> fs)).
Proof.
  intros Hc Hp. unfold contents_events. cbn [foldM].
  assert (∃ z, length z <= length c ∧
    restore_event have_posix_fallocate dst (mkRestoreSink (Some (p, 0)) fs)
      (preallocateContents (Z.of_nat (length c))) =
    Ret (mkRestoreSink (Some (p, 0)) (<[p := IFile x z]> fs))) as (z & Hz & ->).
  { cbn [restore_event]. destruct (have_posix_fallocate && _).
    - unfold with_file. cbn [rs_fd rs_fs]. rewrite Hp. case_decide.
      + eexists; split; [|done]. simpl. rewrite Nat2Z.id, length_replicate. lia.
      + exists []. split; [simpl; lia|]. by rewrite insert_id.
    - exists []. split; [simpl; lia|]. by rewrite insert_id. }
  cbn [mbind outcome_bind].
  rewrite (restore_receive p x _ [] z) by (by rewrite lookup_insert_eq).
  cbn [app]. rewrite dumpContents_loop_wire, insert_insert_eq, drop_ge, app_nil_r by lia. done.
Qed.

Lemma fs_create_ok p d i fs :
  last p ≠ Some "/"%byte → parent_of p = Some d → fs !! d = Some IDir → fs !! p = None →
  fs_create p i fs = Ret (<[p := i]> fs).
Proof.
  intros Hl Hp Hd Hn. unfold fs_create. rewrite decide_False by done. rewrite Hp.
  rewrite decide_True by done. rewrite decide_False; [done|]. rewrite Hn. by intros [].
Qed.

Lemma fresh_at_None p fs : fresh_at p fs → fs !! p = None.
Proof.
  intros Hf. destruct (fs !! p) as [i|] eqn:E; [|done]. exfalso. apply (Hf p); [by rewrite E|by left].
Qed.

(** What [restore_object] says of one object. *)
Definition restores_at (t : fso) (path : bytes) : Prop := ∀ d fd fs,
  last (dst ++ path) ≠ Some "/"%byte → parent_of (dst ++ path) = Some d →
  fs !! d = Some IDir → fresh_at (dst ++ path) fs →
  ∃ fd', restore (events path t) (mkRestoreSink fd fs) =
           Ret (mkRestoreSink fd' (fs_add (dst ++ path) t fs)).

Lemma restore_regular x c path : nar_ok (Regular x c) → restores_at (Regular x c) path.
Proof.
  intros Hok d fd fs Hlast Hpar Hd Hfresh%fresh_at_None. inversion Hok as [? ? Hc| |]; subst.
  cbn [events foldM restore_event rs_fs]. rewrite (fs_create_ok _ d) by done.
  cbn [mbind outcome_bind]. exists (Some (dst ++ path, length c)).
  destruct x; cbn [app foldM restore_event fs_add].
  - unfold with_file. cbn [rs_fd rs_fs]. rewrite lookup_insert_eq. cbn [mbind outcome_bind].
    rewrite insert_insert_eq, (restore_contents _ true) by (done || by rewrite lookup_insert_eq).
    by rewrite insert_insert_eq.
  - rewrite (restore_contents _ false) by (done || by rewrite lookup_insert_eq).
    by rewrite insert_insert_eq.
Qed.

Lemma fresh_at_child p n fs : fresh_at p fs → fresh_at (p ++ slash ++ n) (<[p := IDir]> fs).
Proof.
  intros Hfresh q [->|[Hq1 Hq2]]%lookup_insert_is_Some Hb.
  - destruct Hb as [E|[k E]];
      apply (f_equal length) in E; rewrite !length_app in E; simpl in E; lia.
  - by apply (Hfresh q Hq2), (at_or_below_child _ n).
Qed.

Lemma fresh_at_sibling p n n' t fs :
  n ≠ n' → "/"%byte ∉ n → "/"%byte ∉ n' →
  fresh_at (p ++ slash ++ n') fs → fresh_at (p ++ slash ++ n') (fs_add (p ++ slash ++ n) t fs).
Proof.
  intros Hne Hn Hn' Hf q [Hq|Hq]%fs_add_dom Hb.
  - apply Hne. by eapply at_or_below_siblings.
  - by apply (Hf q Hq).
Qed.

(** The entries of a directory that exists. *)
Lemma restore_entries path es : dst ++ path ≠ [] →
  (∀ e, e ∈ es → restores_at e.2 (path ++ slash ++ e.1)) →
  NoDup es.*1 → (∀ e, e ∈ es → e.1 ≠ [] ∧ "/"%byte ∉ e.1) →
  ∀ fd fs, fs !! (dst ++ path) = Some IDir →
    (∀ e, e ∈ es → fresh_at ((dst ++ path) ++ slash ++ e.1) fs) →
    ∃ fd', restore (mjoin ((λ e, events (path ++ slash ++ e.1) e.2) <$> es)) (mkRestoreSink fd fs) =
             Ret (mkRestoreSink fd' (fs_add_entries (dst ++ path) es fs)).
Proof.
  intros Hne. induction es as [|[n t] es IHes]; intros IH Hnd Hok fd fs Hdir Hfr; [by eexists|].
  rewrite fmap_cons, mjoin_cons, foldM_app. unfold fs_add_entries. cbn [foldl fst snd].
  rewrite fmap_cons in Hnd. apply NoDup_cons in Hnd as [Hn1 Hnd].
  destruct (Hok (n, t) (list_elem_of_here _ _)) as [Hn0 Hns]. cbn [fst snd] in *.
  destruct (IH (n, t) (list_elem_of_here _ _) (dst ++ path) fd fs) as [fd1 E1];
    cbn [fst snd]; rewrite ?(assoc (++) dst); [by apply last_child|by apply parent_of_child|done| |].
  { by apply (Hfr (n, t)), list_elem_of_here. }
  cbn [fst snd] in E1. rewrite (assoc (++) dst) in E1. rewrite E1. cbn [mbind outcome_bind].
  apply IHes; [intros ? ?; apply IH; by right|done|intros ? ?; apply Hok; by right| |].
  - rewrite fs_add_outside; [done|]. intros [E|[k E]];
      apply (f_equal length) in E; rewrite !length_app in E; simpl in E; lia.
  - intros e He. destruct (Hok e (list_elem_of_further _ _ _ He)) as [_ Hes].
    apply fresh_at_sibling; [|done|done|by apply Hfr; right].
    intros ->. apply Hn1. exact (list_elem_of_fmap_2 fst es e He).
Qed.

(** The calls for an object create it at [dst ++ path]. *)
Lemma restore_object t path : nar_ok t → dst ++ path ≠ [] → restores_at t path.
Proof.
  revert path. induction t as [x c|es IH|tgt|] using fso_ind'; intros path Hok Hne.
  4: inversion Hok.
  - by apply restore_regular.
  - apply nar_ok_directory_inv in Hok as [Hsorted Hok]. rewrite Forall_forall in IH.
    intros d fd fs Hlast Hpar Hd Hfresh.
    rewrite events_Directory, fs_add_Directory. cbn [foldM restore_event rs_fs rs_fd].
    rewrite (fs_create_ok _ d) by (done || by apply fresh_at_None). cbn [mbind outcome_bind].
    apply restore_entries; [done| |by apply set_wf_nodup| | |].
    + intros e He. apply IH; [done|by apply Hok|by destruct dst, path].
    + intros e He. destruct (Hok e He) as (Hn & _). by apply name_ok_inv in Hn as (? & ? & _).
    + by rewrite lookup_insert_eq.
    + intros e He. by apply fresh_at_child.
  - inversion Hok as [| |? Ht Hnul]; subst. intros d fd fs Hlast Hpar Hd Hfresh%fresh_at_None.
    cbn [events foldM restore_event rs_fs]. rewrite c_str_id by done.
    rewrite (fs_create_ok _ d) by done. by eexists.
Qed.
End restoring.

(** * Archives from an untrusted source

    Whatever the bytes are, [parse] ends, and the paths it hands to its sink
    stay inside the directory being restored. *)

(** The paths [parse] builds: names that passed the check, or the empty name of
    an entry without one. *)
Inductive confined (p : bytes) : bytes → Prop :=
  | confined_here : confined p p
  | confined_child q n : confined p q → n = [] ∨ name_ok n = true → confined p (q ++ slash ++ n).

Definition event_confined (p : bytes) (e : event) : Prop :=
  match e with
  | createDirectory q | createRegularFile q | createSymlink q _ => confined p q
  | _ => True
  end.

Lemma confined_trans p q r : confined p q → confined q r → confined p r.
Proof. induction 2; eauto using confined. Qed.

Lemma event_confined_trans p q e : confined p q → event_confined q e → event_confined p e.
Proof. destruct e; simpl; eauto using confined_trans. Qed.

Section hostile.
Context {S : Type} `{SourceLaws S}.
Local Abbreviation parser := (@parser S).

(** On fewer than [n] bytes, [p] ends, makes calls in [P] only, and consumes at
    least [c] bytes when it returns. *)
Definition behaves {A} (P : event → Prop) (n c : nat) (p : parser A) : Prop :=
  ∀ s, source_wf s → length (remaining s) < n →
  Forall P (p s).1 ∧ terminates (p s).2 ∧
  ∀ v s', (p s).2 = Ret (v, s') → source_wf s' ∧ length (remaining s') + c <= length (remaining s).

Lemma behaves_weaken {A} (P Q : event → Prop) n c c' (p : parser A) :
  (∀ e, P e → Q e) → c' <= c → behaves P n c p → behaves Q n c' p.
Proof.
  intros HPQ Hc Hp s Hs Hn. destruct (Hp s Hs Hn) as (Htr & Ht & Hr).
  split_and!; [by eapply Forall_impl|done|]. intros v s' E. destruct (Hr v s' E). split; [done|lia].
Qed.

Lemma behaves_ret {A} P n (v : A) : behaves P n 0 (p_ret v).
Proof. intros s Hs Hn. split_and!; [constructor|done|]. intros ? ? [= <- <-]. split; [done|lia]. Qed.

Lemma behaves_throw {A} P n c e : behaves P n c (p_throw (A := A) e).
Proof. intros s Hs Hn. split_and!; [constructor|done|done]. Qed.

Lemma behaves_emit (P : event → Prop) n e : P e → behaves P n 0 (p_emit e).
Proof.
  intros He s Hs Hn. split_and!; [by constructor|done|]. intros ? ? [= <- <-]. split; [done|lia].
Qed.

Lemma behaves_bind {A B} P n c1 c2 (m : parser A) (f : A → parser B) :
  behaves P n c1 m → (∀ a, behaves P (n - c1) c2 (f a)) → behaves P n (c1 + c2) (p_bind m f).
Proof.
  intros Hm Hf s Hs Hn. destruct (Hm s Hs Hn) as (Htr & Ht & Hr). unfold p_bind.
  destruct (m s) as [tr [[a s1]|e|]]; cbn [fst snd] in *; [|done|done].
  destruct (Hr a s1 eq_refl) as [Hs1 Hl]. destruct (Hf a s1 Hs1 ltac:(lia)) as (Htr' & Ht' & Hr').
  destruct (f a s1) as [tr' r]; cbn [fst snd] in *.
  split_and!; [by apply Forall_app|done|]. intros v s' E. destruct (Hr' v s' E). split; [done|lia].
Qed.

Lemma behaves_read {A B} P n c1 c2 (Q : A → Prop) (m : S → outcome (A * S)) (f : A → parser B) :
  (∀ s, source_wf s → terminates (m s)) →
  (∀ s v s', source_wf s → m s = Ret (v, s') →
     Q v ∧ source_wf s' ∧ length (remaining s') + c1 <= length (remaining s)) →
  (∀ a, Q a → behaves P (n - c1) c2 (f a)) → behaves P n (c1 + c2) (p_bind (p_read m) f).
Proof.
  intros Ht Hr Hf s Hs Hn. unfold p_bind, p_read. specialize (Ht s Hs).
  destruct (m s) as [[a s1]|e|] eqn:E; cbn [fst snd app]; [|by split_and!|done].
  destruct (Hr s a s1 Hs E) as (HQ & Hs1 & Hl).
  destruct (Hf a HQ s1 Hs1 ltac:(lia)) as (Htr' & Ht' & Hr').
  destruct (f a s1) as [tr' r]; cbn [fst snd] in *.
  split_and!; [done|done|]. intros v s' E'. destruct (Hr' v s' E'). split; [done|lia].
Qed.

Lemma behaves_string {B} P n (f : bytes → parser B) :
  (∀ a, behaves P n 0 (f a)) → behaves P (Datatypes.S n) 0 (p_bind (p_read readString) f).
Proof.
  intros Hf. apply (behaves_weaken P _ _ 1); [done|lia|].
  apply (behaves_read _ _ 1 0 (λ _, True)); [apply readString_terminates| |].
  - intros s v s' Hs E. destruct (readString_inv _ _ _ Hs E) as (_ & _ & Hs').
    apply readString_consumes in E; [|done]. split_and!; [done|done|lia].
  - intros a _. simpl. by rewrite Nat.sub_0_r.
Qed.

Lemma behaves_then {B} P n (m : parser ()) (f : () → parser B) :
  behaves P n 0 m → (∀ a, behaves P n 0 (f a)) → behaves P n 0 (p_bind m f).
Proof. intros Hm Hf. apply (behaves_bind _ _ 0 0); [done|]. by rewrite Nat.sub_0_r. Qed.

Lemma behaves_mono {A} P n n' c (p : parser A) : n' <= n → behaves P n c p → behaves P n' c p.
Proof. intros Hn Hp s Hs Hl. apply Hp; [done|lia]. Qed.

Lemma behaves_contents_loop (P : event → Prop) fuel left :
  (∀ d, P (receiveContents d)) → (0 <= left)%Z → behaves P fuel 0 (parseContents_loop fuel left).
Proof.
  intros HP. revert left. induction fuel as [|fuel IH]; intros left Hl; [intros ? ? ?; lia|].
  cbn [parseContents_loop]. case_decide as Hz; [apply behaves_ret|].
  assert (0 < archiveBufSize) as Hb by (unfold archiveBufSize; lia).
  apply (behaves_weaken P _ _ 1); [done|lia|].
  apply (behaves_read _ _ 1 0 (λ _, True)); [by intros; apply source_call_terminates| |].
  - intros s v s' Hs E. destruct (source_call_inv _ _ _ _ Hs E) as (Hv & -> & Hs').
    rewrite length_app. split_and!; [done|done|lia].
  - intros d _. simpl. rewrite Nat.sub_0_r. apply behaves_then; [by apply behaves_emit|].
    intros _. apply IH. lia.
Qed.

Lemma behaves_contents (P : event → Prop) fuel :
  (∀ n, P (preallocateContents n)) → (∀ d, P (receiveContents d)) →
  behaves P fuel 0 (parseContents fuel).
Proof.
  intros Hp Hr. unfold parseContents.
  apply (behaves_read _ _ 0 0 (λ n, 0 <= n)%Z).
  - intros s Hs. apply bind_terminates; [by apply source_call_terminates|]. by intros [].
  - intros s v s' Hs E. apply readLongLong_inv in E as (Hv & -> & Hs'); [|done].
    rewrite length_app. split_and!; [lia|done|lia].
  - intros n Hn. rewrite Nat.sub_0_r. apply behaves_then; [by apply behaves_emit|]. intros _.
    apply behaves_then; [by apply behaves_contents_loop|]. intros _ s Hs Hl.
    split_and!; [constructor|by apply readPadding_terminates|]. intros [] s' E.
    apply reads_only_padding in E as (-> & Hs'); [|done]. rewrite length_app. split; [done|lia].
Qed.

Lemma behaves_string' {B} P n (f : bytes → parser B) :
  (∀ a, behaves P n 0 (f a)) → behaves P n 0 (p_bind (p_read readString) f).
Proof. intros Hf. apply (behaves_mono _ (Datatypes.S n)); [lia|by apply behaves_string]. Qed.

Lemma behaves_call {B} (P : event → Prop) n e (f : () → parser B) :
  P e → behaves P n 0 (f ()) → behaves P n 0 (p_bind (p_emit e) f).
Proof. intros He Hf. apply behaves_then; [by apply behaves_emit|]. by intros []. Qed.

#[local] Hint Resolve behaves_ret behaves_throw behaves_contents confined_here : archive.
#[local] Hint Extern 1 (event_confined _ _) => exact (confined_here _) || exact I : archive.
#[local] Hint Extern 2 (behaves _ _ _ (p_bind (p_emit _) _)) => apply behaves_call : archive.
#[local] Hint Extern 2 (behaves _ _ _ (p_bind (p_read readString) _)) =>
  apply behaves_string'; intros ? : archive.

(** The three mutually recursive loops, on any input shorter than the fuel. *)
Lemma behaves_parse fuel :
  (∀ path, behaves (event_confined path) fuel 0 (parse fuel path)) ∧
  (∀ type path, behaves (event_confined path) fuel 0 (parse_fields fuel type path)) ∧
  (∀ name prevName path, name = [] ∨ name_ok name = true →
     behaves (event_confined path) fuel 0 (parse_entry fuel name prevName path)).
Proof.
  induction fuel as [|fuel (IHp & IHf & IHe)]; [split_and!; intros; intros ? ? ?; lia|].
  split_and!.
  - intros path. cbn [parse]. apply behaves_string. intros s.
    case_decide; [apply IHf|apply behaves_throw].
  - intros type path. cbn [parse_fields]. apply behaves_string. intros s.
    repeat case_decide; auto with archive.
    + apply behaves_string'. intros t. repeat case_decide; auto with archive.
    + apply behaves_then; [|auto]. by apply behaves_contents.
    + apply behaves_string'. intros t. case_decide; auto with archive.
      apply behaves_then; auto.
  - intros name prevName path Hname. cbn [parse_entry]. apply behaves_string. intros s.
    repeat case_decide; auto with archive.
    + apply behaves_string'. intros n. destruct (name_ok n) eqn:?; auto with archive.
      destruct (str_leb n prevName); auto with archive.
    + apply behaves_then; [|auto].
      eapply behaves_weaken; [|done|apply IHp].
      intros e. apply event_confined_trans. by constructor; [constructor|].
Qed.

(** [parseDump] too. *)
Lemma parseDump_confined fuel s :
  source_wf s → length (remaining s) < fuel →
  terminates (parseDump fuel s).2 ∧ Forall (event_confined []) (parseDump fuel s).1.
Proof.
  intros Hs Hn. unfold parseDump. pose proof (readString_terminates s Hs).
  destruct (readString s) as [[v s1]|[]|] eqn:E; try done; try (by split; [|constructor]).
  case_decide; [|by split; [|constructor]].
  destruct (readString_inv _ _ _ Hs E) as (_ & _ & Hs1). apply readString_consumes in E; [|done].
  destruct (behaves_parse fuel) as [Hp _]. destruct (Hp [] s1 Hs1 ltac:(lia)) as (? & ? & _). done.
Qed.
End hostile.

(** ** What the paths look like *)

(** [c] is a component of [q]. *)
Definition has_component (c q : bytes) : Prop :=
  ∃ a b, q = a ++ slash ++ c ++ b ∧ (b = [] ∨ slash `prefix_of` b).

Lemma app_slash_inj (a b a' b' : bytes) :
  "/"%byte ∉ b → a ++ slash ++ b = a' ++ slash ++ b' → a' ++ slash `prefix_of` a ∨ a = a' ∧ b = b'.
Proof.
  intros Hb. revert a'. induction a as [|x a IH]; intros [|y a'] E; simpl in *.
  - right. by simplify_eq.
  - injection E as <- E. subst b. set_solver.
  - injection E as -> E. left. by exists a.
  - injection E as -> E. apply IH in E as [[k ->]|[-> ->]]; [left; by exists k|by right].
Qed.

Lemma confined_no_component c q :
  c ≠ [] → name_ok c = false → "/"%byte ∉ c → confined [] q → ¬ has_component c q.
Proof.
  intros Hc0 Hc Hs Hq. induction Hq as [|q n Hq IH Hn]; intros (a & b & E & Hb).
  { by destruct a. }
  assert ("/"%byte ∉ n) as Hns by (destruct Hn as [->|Hn]; [set_solver|by apply name_ok_inv in Hn as (_ & ? & _)]).
  destruct (app_slash_inj _ _ _ _ Hns E) as [[k ->]|[-> ->]].
  2: { destruct Hb as [->|[k ->]]; [|exfalso; apply Hns; rewrite !elem_of_app; right; left; by left].
    rewrite app_nil_r in Hn. destruct Hn; congruence. }
  rewrite <-!(assoc (++)) in E. simplify_list_eq. destruct Hb as [->|[b' ->]].
  { rewrite app_nil_r in E. subst c. exfalso. apply Hs, elem_of_app. right. by left. }
  apply IH. destruct (app_slash_inj k n c b' Hns) as [[k' ->]|[-> ->]]; [exact E| |].
  - exists a, (slash ++ k'). unfold slash. simplify_list_eq. split; [done|]. right. by exists k'.
  - exists a, []. rewrite app_nil_r. by split; [|left].
Qed.

Lemma confined_no_nul q : confined [] q → Byte.x00 ∉ q.
Proof.
  induction 1 as [|q n Hq IH Hn]; [set_solver|]. rewrite !elem_of_app.
  intros [?|[E|Hx]]; [done|by apply list_elem_of_singleton in E|]. destruct Hn as [->|Hn]; [set_solver|].
  unfold name_ok in Hn. bool_to_prop. done.
Qed.

Lemma confined_below dst q : confined [] q → at_or_below dst (dst ++ q).
Proof.
  induction 1 as [|q n Hq IH Hn]; [left; apply app_nil_r|]. right.
  destruct IH as [E|[k E]]; rewrite (assoc (++)), E.
  - exists n. by rewrite <-(assoc (++)).
  - exists (k ++ slash ++ n). by rewrite <-!(assoc (++)).
Qed.

(** ** What the calls do to the file system *)

Section containment.
Variable have_posix_fallocate : bool.
Variable dst : bytes.

(** The open file lies inside [dst], and [fs] is unchanged outside of it. *)
Definition contained (fs : filesystem) (k : RestoreSink) : Prop :=
  (∀ p off, rs_fd k = Some (p, off) → at_or_below dst p) ∧
  (∀ q, ¬ at_or_below dst q → rs_fs k !! q = fs !! q).

Lemma fs_create_Ret p i fs fs' : fs_create p i fs = Ret fs' → fs' = <[p := i]> fs.
Proof. unfold fs_create. intros E. repeat case_match; by simplify_eq. Qed.

Lemma contained_insert fs fd m p i :
  at_or_below dst p → (∀ q off, fd = Some (q, off) → at_or_below dst q) →
  (∀ q, ¬ at_or_below dst q → m !! q = fs !! q) →
  contained fs (mkRestoreSink fd (<[p := i]> m)).
Proof.
  intros Hp Hfd Hm. split; [exact Hfd|]. intros q Hq. cbn [rs_fs].
  rewrite lookup_insert_ne; [by apply Hm|]. by intros ->.
Qed.

Lemma restore_event_contained fs k e k' :
  event_confined [] e → contained fs k →
  restore_event have_posix_fallocate dst k e = Ret k' → contained fs k'.
Proof.
  destruct k as [fd m]. intros He [Hfd Hm] E.
  destruct e; cbn [restore_event event_confined rs_fd rs_fs] in *; try case_match;
    unfold with_file in E; cbn [rs_fd rs_fs] in E; repeat case_match; simplify_eq; outcome_inv;
    try match goal with H : fs_create _ _ _ = Ret _ |- _ => apply fs_create_Ret in H end;
    simplify_eq; try (by split); apply contained_insert; eauto using confined_below; naive_solver eauto using confined_below.
Qed.
End containment.

(** * Different objects have different archives *)

Lemma reads_as_inj {A} (m : StringSource → outcome (A * StringSource)) v1 v2 b1 b2 r1 r2 :
  reads_as m v1 b1 → reads_as m v2 b2 → b1 ++ r1 = b2 ++ r2 → v1 = v2 ∧ r1 = r2.
Proof.
  intros H1 H2 E. set (s := mkStringSource (b1 ++ r1) 0).
  assert (source_wf s) as Hs by (simpl; lia).
  destruct (H1 s r1) as (s1 & E1 & _ & Hr1); [done|done|].
  destruct (H2 s r2) as (s2 & E2 & _ & Hr2); [done|done|]. split; congruence.
Qed.

Local Abbreviation W x := (wire (writeString x)).

Lemma W_inj x y r r' :
  (Z.of_nat (length x) < 2 ^ 32)%Z → (Z.of_nat (length y) < 2 ^ 32)%Z →
  W x ++ r = W y ++ r' → x = y ∧ r = r'.
Proof. intros Hx Hy. apply (reads_as_inj readString); by apply reads_as_string. Qed.

(** Take the same literal off both sides, or find two that differ. *)
Local Ltac peel E :=
  rewrite <-?(assoc (++)) in E; apply W_inj in E as [? E]; [|done|done].

Lemma contents_inj c c' r r' :
  (Z.of_nat (length c) < 2 ^ 64)%Z → (Z.of_nat (length c') < 2 ^ 64)%Z →
  wire (dumpContents c) ++ r = wire (dumpContents c') ++ r' → c = c' ∧ r = r'.
Proof.
  intros Hc Hc' E. rewrite !dumpContents_wire in E. peel E. rewrite <-?(assoc (++)) in E.
  apply (reads_as_inj readLongLong (Z.of_nat (length c)) (Z.of_nat (length c'))) in E as [El E];
    [|by apply reads_as_longlong; lia|by apply reads_as_longlong; lia].
  apply Nat2Z.inj in El. apply app_inj_1 in E as [-> E]; [|done]. by simplify_list_eq.
Qed.

Definition nar_determines (t : fso) : Prop := ∀ t' r r',
  nar_ok t → nar_ok t' → wire (nar t) ++ r = wire (nar t') ++ r' → t = t' ∧ r = r'.

Lemma entries_inj es es' r r' :
  Forall (λ e, nar_determines e.2) es → nar_ok (Directory es) → nar_ok (Directory es') →
  wire (mjoin (nar_entry nar <$> es)) ++ W (str ")") ++ r =
    wire (mjoin (nar_entry nar <$> es')) ++ W (str ")") ++ r' → es = es' ∧ r = r'.
Proof.
  intros IH [_ Hok]%nar_ok_directory_inv [_ Hok']%nar_ok_directory_inv.
  revert es' Hok Hok'. induction IH as [|[n t] es Ht IH IHes]; intros [|[n' t'] es'] Hok Hok' E;
    rewrite ?fmap_cons, ?mjoin_cons, ?join_app in E; cbn [fmap list_fmap mjoin list_join app] in E;
    unfold nar_entry in E; cbn [fst snd] in *; rewrite ?join_app in E; peel E; try done.
  do 2 peel E. destruct (Hok (n, t)) as (_ & Hn & Hot); [by left|].
  destruct (Hok' (n', t')) as (_ & Hn' & Hot'); [by left|]. cbn [fst snd] in *.
  rewrite <-?(assoc (++)) in E. apply W_inj in E as [-> E]; [|done|done]. peel E.
  rewrite <-?(assoc (++)) in E. apply Ht in E as [-> E]; [|done|done]. peel E.
  apply IHes in E as [-> ->]; [done|intros; apply Hok; by right|intros; apply Hok'; by right].
Qed.

Lemma regular_inj x x' c c' r r' :
  nar_ok (Regular x c) → nar_ok (Regular x' c') →
  wire (nar (Regular x c)) ++ r = wire (nar (Regular x' c')) ++ r' →
  Regular x c = Regular x' c' ∧ r = r'.
Proof.
  intros Hok Hok' E. inversion Hok; inversion Hok'; subst. cbn [nar] in E. rewrite !join_app in E.
  do 3 peel E. rewrite <-?(assoc (++)) in E. destruct x, x'; rewrite ?join_app in E.
  2, 3: rewrite (dumpContents_wire c), (dumpContents_wire c') in E; cbn [mjoin list_join app] in E; peel E; done.
  1: do 2 peel E. all: rewrite <-?(assoc (++)) in E; cbn [mjoin list_join app] in E.
  all: apply contents_inj in E as [-> E]; [|done|done]; by peel E.
Qed.

Lemma nar_inj t : nar_determines t.
Proof.
  induction t as [x c|es IH|tgt|] using fso_ind'; intros t' r r' Hok Hok' E;
    [| | |by inversion Hok]; destruct t' as [x' c'|es'|tgt'|]; try (by inversion Hok');
    try (by apply regular_inj);
    rewrite ?nar_Directory in E; cbn [nar] in E; rewrite ?join_app in E; do 3 peel E; try done.
  - rewrite <-?(assoc (++)) in E. by apply entries_inj in E as [-> ->].
  - inversion Hok; inversion Hok'; subst. peel E. rewrite <-?(assoc (++)) in E.
    apply W_inj in E as [-> E]; [|done|done]. by peel E.
Qed.

(** The path a call names. *)
Definition event_path (e : event) : option bytes :=
  match e with
  | createDirectory q | createRegularFile q | createSymlink q _ => Some q
  | _ => None
  end.

Lemma event_confined_path p e q : event_confined p e → event_path e = Some q → confined p q.
Proof. by destruct e; simpl; intros; simplify_eq. Qed.

Lemma restorePath_nar {S} `{SourceLaws S} hp dst d t fs fuel (s : S) rest :
  nar_ok t → dst ≠ [] → last dst ≠ Some "/"%byte → parent_of dst = Some d →
  fs !! d = Some IDir → fresh_at dst fs → source_wf s →
  remaining s = wire (writeString archiveVersion1 ++ nar t) ++ rest →
  length (remaining s) <= fuel →
  ∃ s', restorePath hp dst fuel fs s = Ret (fs_add dst t fs, s') ∧ source_wf s' ∧ remaining s' = rest.
Proof.
  intros Hok Hne Hlast Hpar Hd Hfresh Hs Hr Hf. rewrite Hr in Hf.
  rewrite join_app, <-(assoc (++)) in Hr. rewrite join_app, !length_app in Hf.
  unfold restorePath, parseDump.
  destruct (reads_as_string archiveVersion1 ltac:(done) s _ Hs Hr) as (s1 & -> & Hs1 & Hr1).
  rewrite decide_True by done.
  destruct (parses_nar t fuel [] Hok ltac:(lia) s1 _ Hs1 Hr1) as (s2 & -> & Hs2 & Hr2).
  pose proof (restore_object hp dst t [] Hok) as Hobj. unfold restores_at in Hobj.
  rewrite app_nil_r in Hobj. destruct (Hobj Hne d None fs) as [fd' ->]; try done.
  by exists s2.
Qed.

(** * Properties *)

(** C9: Archives round trip. [dumpPath] succeeds on every tree whose canonical
    form (rejected entries dropped, directories sorted) can be encoded, and
    [restorePath] on what it wrote, read through any [Source], rebuilds exactly
    that canonical tree at the destination, leaves the rest of the file system
    as it was and the rest of the stream unread. *)
Theorem restore_dump {S} `{SourceLaws S} filter path t hp dst d fs :
  nar_ok (canon filter path t) → dst ≠ [] → last dst ≠ Some "/"%byte →
  parent_of dst = Some d → fs !! d = Some IDir → fresh_at dst fs →
  ∃ chunks, dumpPath filter path t = Ret chunks ∧
    ∀ (s : S) rest fuel, source_wf s → remaining s = wire chunks ++ rest →
      length (remaining s) <= fuel →
      ∃ s' fs', restorePath hp dst fuel fs s = Ret (fs', s') ∧
        fs' = fs_add dst (canon filter path t) fs ∧
        (∀ q, ¬ at_or_below dst q → fs' !! q = fs !! q) ∧ remaining s' = rest.
Proof.
  intros Hok Hne Hlast Hpar Hd Hfresh. unfold dumpPath. rewrite dump_nar by done.
  eexists; split; [done|]. intros s rest fuel Hs Hr Hf.
  destruct (restorePath_nar hp dst d _ fs fuel s rest Hok) as (s' & E & _ & Hr'); try done.
  exists s', (fs_add dst (canon filter path t) fs). split_and!; [exact E|done| |done]. intros q Hq. by apply fs_add_outside.
Qed.

(** An archive determines the tree it was made from: when the dumps of two
    trees agree byte for byte (or one is a prefix of the other), their canonical
    forms are equal, so equal archive hashes mean equal trees as far as the hash
    is collision-free. *)
Theorem dump_injective f1 f2 p1 p2 t1 t2 c1 c2 r1 r2 :
  nar_ok (canon f1 p1 t1) → nar_ok (canon f2 p2 t2) →
  dumpPath f1 p1 t1 = Ret c1 → dumpPath f2 p2 t2 = Ret c2 →
  wire c1 ++ r1 = wire c2 ++ r2 → canon f1 p1 t1 = canon f2 p2 t2 ∧ r1 = r2.
Proof.
  intros H1 H2. unfold dumpPath. rewrite !dump_nar by done. cbn [mbind outcome_bind].
  intros <-%(inj Ret) <-%(inj Ret) E.
  rewrite !join_app, <-!(assoc (++)) in E. apply W_inj in E as [_ E]; [|done|done].
  by apply nar_inj in E.
Qed.


(** ** Witnesses and examples *)

Definition sample_tree : fso :=
  Directory [(str "b", Symlink (str "a")); (str "a", Regular true (str "hello"));
             (str "c", Directory [])].

Definition sample_filter (p : bytes) : bool := negb (bool_decide (p = str "/src/c")).

Definition sample_fs : filesystem := {[ slash := IDir; str "/etc" := ILink (str "x") ]}.

Lemma sample_ok : nar_ok (canon sample_filter (str "/src") sample_tree).
Proof.
  change (canon sample_filter (str "/src") sample_tree) with
    (Directory [(str "a", Regular true (str "hello")); (str "b", Symlink (str "a"))]).
  constructor.
  - repeat constructor.
  - repeat constructor; try done; concrete.
Qed.

Lemma restore_dump_witness :
  ∃ chunks, dumpPath sample_filter (str "/src") sample_tree = Ret chunks ∧
    ∀ (s : StringSource) rest fuel, source_wf s → remaining s = wire chunks ++ rest →
      length (remaining s) <= fuel →
      ∃ s' fs', restorePath true (str "/out") fuel sample_fs s = Ret (fs', s') ∧
        fs' = fs_add (str "/out") (canon sample_filter (str "/src") sample_tree) sample_fs ∧
        (∀ q, ¬ at_or_below (str "/out") q → fs' !! q = sample_fs !! q) ∧ remaining s' = rest.
Proof.
  apply (restore_dump sample_filter (str "/src") sample_tree true (str "/out") slash sample_fs);
    [apply sample_ok|done|done|done|done|].
  intros q Hq. unfold sample_fs in Hq.
  rewrite lookup_insert_is_Some, lookup_singleton_is_Some in Hq.
  destruct Hq as [<-|[_ <-]]; intros [E|[k E]]; done.
Defined.

(** The round trip evaluated. *)
Example restore_dump_runs :
  (chunks ← dumpPath sample_filter (str "/src") sample_tree;
   '(fs, _) ← restorePath true (str "/out") 400 sample_fs (mkStringSource (wire chunks) 0);
   Ret (map_to_list fs)) =
  Ret (map_to_list (<[str "/out" := IDir]> (<[str "/out/a" := IFile true (str "hello")]>
    (<[str "/out/b" := ILink (str "a")]> sample_fs)))).
Proof. vm_compute. reflexivity. Qed.

Lemma dump_injective_witness :
  canon sample_filter (str "/src") sample_tree =
    canon (λ _, true) (str "/copy")
      (Directory [(str "a", Regular true (str "hello")); (str "b", Symlink (str "a"))]) ∧
  str "x" = str "x".
Proof.
  eapply (dump_injective sample_filter (λ _, true) (str "/src") (str "/copy"));
    [apply sample_ok|apply sample_ok|vm_compute; reflexivity|vm_compute; reflexivity|reflexivity].
Defined.

(** An archive with entry names "..", cut off in the middle. *)
Definition hostile_archive : bytes :=
  wire (writeString archiveVersion1 ++ writeString (str "(") ++ writeString (str "type") ++
        writeString (str "directory") ++ writeString (str "entry") ++ writeString (str "(") ++
        writeString (str "name") ++ writeString (str "..") ++ writeString (str "node")).


(** ** What the checks of the parser let through *)

Definition entry_of (name : bytes) (node : list bytes) : list bytes :=
  writeString (str "entry") ++ writeString (str "(") ++ writeString (str "name") ++
  writeString name ++ writeString (str "node") ++ node ++ writeString (str ")").

Definition directory_of (entries : list bytes) : bytes :=
  wire (writeString archiveVersion1 ++ writeString (str "(") ++ writeString (str "type") ++
        writeString (str "directory") ++ entries ++ writeString (str ")")).

(** [prevName] is declared inside the branch for one entry, so the check that a
    directory is sorted compares each name with the empty string: a directory
    whose entries are out of order is restored without an error. *)
Theorem unsorted_archive_accepted :
  ∃ tr s, parseDump 400 (mkStringSource (directory_of
      (entry_of (str "b") (nar (Symlink (str "x"))) ++ entry_of (str "a") (nar (Symlink (str "y"))))) 0) =
    (tr, Ret ((), s)) ∧
  tr = [createDirectory []; createSymlink (str "/b") (str "x"); createSymlink (str "/a") (str "y")].
Proof. eexists _, _. split; [vm_compute; reflexivity|reflexivity]. Qed.

(** The check for a missing name tests [s], which holds "node" at that point: an
    entry without a name is parsed, at the directory's own path plus a slash. *)
Theorem nameless_entry_accepted :
  ∃ tr s, parseDump 400 (mkStringSource (directory_of
      (writeString (str "entry") ++ writeString (str "(") ++ writeString (str "node") ++
       nar (Symlink (str "x")) ++ writeString (str ")"))) 0) = (tr, Ret ((), s)) ∧
  tr = [createDirectory []; createSymlink slash (str "x")].
Proof. eexists _, _. split; [vm_compute; reflexivity|reflexivity]. Qed.
