(* ===== verification/Paths.v ===== *)
(** libutil/util.cc: path and string functions.

    The file system and the current directory are what the operating system
    shows: [lstat_link] is the target of a symbolic link, none for any other
    file, or the error of [lstat]; [getcwd] is the current directory. *)

From S2P Require Import Prelude Containers.

(** * Strings *)

(** [s.find_first_of(separators, pos)] and [s.find_first_not_of] *)
Fixpoint find_first (f : byte → bool) (s : bytes) : option nat :=
  match s with
  | [] => None
  | x :: s => if f x then Some 0 else S <$> find_first f s
  end.

Definition find_first_of (separators s : bytes) (pos : nat) : option nat :=
  (λ n, pos + n) <$> find_first (λ c, bool_decide (c ∈ separators)) (drop pos s).

Definition find_first_not_of (separators s : bytes) (pos : nat) : option nat :=
  (λ n, pos + n) <$> find_first (λ c, negb (bool_decide (c ∈ separators))) (drop pos s).

(** [tokenizeString<Strings>] *)
Fixpoint tokenize_loop (fuel : nat) (s separators : bytes) (pos : option nat)
    : outcome (list bytes) :=
  match pos with
  | None => Ret []
  | Some pos =>
      match fuel with
      | 0 => OutOfFuel
      | S fuel =>
          let end_ := default (length s) (find_first_of separators s (pos + 1)) in
          token ← substr s pos (end_ - pos);
          rest ← tokenize_loop fuel s separators (find_first_not_of separators s end_);
          Ret (token :: rest)
      end
  end.

Definition tokenizeString (s separators : bytes) : outcome (list bytes) :=
  tokenize_loop (length s) s separators (find_first_not_of separators s 0).

Definition concatStringsSep (sep : bytes) (ss : list bytes) : bytes :=
  foldl (λ s i, (if bool_decide (length s = 0) then s else s ++ sep) ++ i) [] ss.

(** [s.find_last_not_of(chars)] *)
Definition chomp (s : bytes) : bytes :=
  match find_first (λ c, negb (bool_decide (c ∈ [" "%byte; Byte.x0a; Byte.x0d; Byte.x09]))) (reverse s) with
  | None => []
  | Some n => take (length s - 1 - n + 1) s
  end.

Definition hasSuffix (s suffix : bytes) : bool :=
  bool_decide (length suffix <= length s) &&
  bool_decide (drop (length s - length suffix) s = suffix).

(** * Paths *)

Definition dirOf (path : bytes) : outcome bytes :=
  match rfind_char "/"%byte path with
  | None => Throw (Error "invalid file name")
  | Some pos => Ret (if decide (pos = 0) then str "/" else take pos path)
  end.

Definition baseNameOf (path : bytes) : outcome bytes :=
  match rfind_char "/"%byte path with
  | None => Throw (Error "invalid file name")
  | Some pos => substr path (pos + 1) (length path)
  end.

Definition isInDir (path dir : bytes) : bool :=
  bool_decide (path !! 0 = Some "/"%byte) &&
  bool_decide (take (length dir) path = dir) &&
  bool_decide (length dir + 2 <= length path) &&
  bool_decide (path !! length dir = Some "/"%byte).

(** [s.erase(s.rfind('/'))] *)
Definition erase_last (s : bytes) : outcome bytes :=
  match rfind_char "/"%byte s with
  | Some pos => Ret (take pos s)
  | None => Throw (OutOfRange "basic_string::erase")
  end.

(** The rest of a component, and what follows it. *)
Fixpoint copy_component (i : bytes) : bytes * bytes :=
  match i with
  | c :: i' =>
      if decide (c = "/"%byte) then ([], i)
      else let '(w, r) := copy_component i' in (c :: w, r)
  | [] => ([], [])
  end.

(** How one run over the string ends: at its end, or at a component that is a
    link, with its target and what follows. *)
Inductive canon_result :=
  | CanonDone (s : bytes)
  | CanonLink (s target rest : bytes).

Section canonPath.
Variable lstat_link : bytes → outcome (option bytes).

(** The loop of [canonPath] up to its end or a restart; [i] is what is left. *)
Fixpoint canonPath_loop (fuel : nat) (resolveSymlinks : bool) (s i : bytes)
    : outcome canon_result :=
  match fuel with
  | 0 => OutOfFuel
  | S fuel =>
      match i with
      | [] => Ret (CanonDone s)
      | c :: i' =>
          if decide (c = "/"%byte) then canonPath_loop fuel resolveSymlinks s i'
          else if decide (c = "."%byte ∧ (i' = [] ∨ i' !! 0 = Some "/"%byte)) then
            canonPath_loop fuel resolveSymlinks s i'
          else if decide (c = "."%byte ∧ i' !! 0 = Some "."%byte ∧
                          (drop 1 i' = [] ∨ i' !! 1 = Some "/"%byte)) then
            s ← (if decide (s = []) then Ret s else erase_last s);
            canonPath_loop fuel resolveSymlinks s (drop 1 i')
          else
            let '(w, i) := copy_component i in
            let s := s ++ str "/" ++ w in
            if resolveSymlinks then
              link ← lstat_link s;
              match link with
              | Some target => Ret (CanonLink s target i)
              | None => canonPath_loop fuel resolveSymlinks s i
              end
            else canonPath_loop fuel resolveSymlinks s i
      end
  end.

Definition canonPath_run (resolveSymlinks : bool) (path : bytes) : outcome canon_result :=
  canonPath_loop (S (length path)) resolveSymlinks [] path.
End canonPath.

Definition canon_value (s : bytes) : bytes := if decide (s = []) then str "/" else s.

(** [canonPath(path)], with [resolveSymlinks] false. *)
Definition canonPath (path : bytes) : outcome bytes :=
  if decide (path !! 0 = Some "/"%byte) then
    r ← canonPath_run (λ _, Ret None) false path;
    match r with
    | CanonDone s => Ret (canon_value s)
    | CanonLink _ _ _ => Throw (AssertionFailed "unreachable")
    end
  else Throw (Error "not an absolute path").

Section absPath.
Variable getcwd : outcome bytes.

Definition absPath (path dir : bytes) : outcome bytes :=
  if decide (path !! 0 = Some "/"%byte) then canonPath path
  else
    dir ← (if decide (dir = []) then getcwd else Ret dir);
    canonPath (dir ++ str "/" ++ path).

Variable lstat_link : bytes → outcome (option bytes).

(** [canonPath(path, true)]; [todo] is [maxFollow - followCount]. *)
Fixpoint canonPath_follow (todo : nat) (temp : bytes) : outcome bytes :=
  match todo with
  | 0 => Throw (Error "infinite symlink recursion in path")
  | S todo =>
      r ← canonPath_run lstat_link true temp;
      match r with
      | CanonDone s => Ret (canon_value s)
      | CanonLink s target rest =>
          if decide (todo = 0) then Throw (Error "infinite symlink recursion in path")
          else
            d ← dirOf s;
            target ← absPath target d;
            canonPath_follow todo (target ++ rest)
      end
  end.

Definition maxFollow : nat := 1024.

Definition canonPath_resolve (path : bytes) : outcome bytes :=
  if decide (path !! 0 = Some "/"%byte) then canonPath_follow maxFollow path
  else Throw (Error "not an absolute path").
End absPath.

(** * What the functions compute

    The components of a path, cut at the slashes. *)

Fixpoint split_on (f : byte → bool) (s : bytes) : list bytes :=
  match s with
  | [] => [[]]
  | c :: s =>
      if f c then [] :: split_on f s
      else match split_on f s with
           | w :: ws => (c :: w) :: ws
           | [] => [[c]]
           end
  end.

(** The non-empty pieces. *)
Definition tokens (f : byte → bool) (s : bytes) : list bytes := filter (.≠ []) (split_on f s).

Definition components : bytes → list bytes := tokens (λ c, bool_decide (c = "/"%byte)).

(** One component on top of the ones before it. *)
Definition canon_step (stack : list bytes) (w : bytes) : list bytes :=
  if decide (w = str ".") then stack
  else if decide (w = str "..") then take (length stack - 1) stack
  else stack ++ [w].

Definition render (ws : list bytes) : bytes := mjoin ((λ w, str "/" ++ w) <$> ws).

Example canon1 :
  (λ r, canon_value (render (foldl canon_step [] (components r)))) (str "/a//b/./../c/") = str "/a/c" ∧
  canonPath (str "/a//b/./../c/") = Ret (str "/a/c") ∧
  tokenizeString (str " a b  c ") (str " ") = Ret [str "a"; str "b"; str "c"].
Proof. vm_compute. done. Qed.

(** ** Tokens *)

Lemma find_first_Some f s n :
  find_first f s = Some n →
  ∃ w c r, s = w ++ c :: r ∧ length w = n ∧ f c = true ∧ Forall (λ c, f c = false) w.
Proof.
  revert n. induction s as [|x s IH]; intros n; simpl; [done|]. destruct (f x) eqn:Hx.
  - intros [= <-]. exists [], x, s. by split_and!.
  - intros (m & E & ->)%fmap_Some. destruct (IH m E) as (w & c & r & -> & <- & Hc & Hw).
    exists (x :: w), c, r. split_and!; try done. by constructor.
Qed.

Lemma find_first_None f s : find_first f s = None → Forall (λ c, f c = false) s.
Proof.
  induction s as [|x s IH]; simpl; [constructor|]. destruct (f x) eqn:Hx; [done|].
  intros ?%fmap_None. constructor; auto.
Qed.

Lemma split_on_cons f s : ∃ w ws, split_on f s = w :: ws.
Proof.
  destruct s as [|c s]; simpl; [by eexists _, _|]. destruct (f c); [by eexists _, _|].
  destruct (split_on f s); by eexists _, _.
Qed.

(** [r] is empty or starts with a separator. *)
Definition at_boundary (f : byte → bool) (r : bytes) : Prop :=
  match r with [] => True | c :: _ => f c = true end.

Lemma split_on_word f w r :
  Forall (λ c, f c = false) w → at_boundary f r → split_on f (w ++ r) = w :: drop 1 (split_on f r).
Proof.
  intros Hw Hr. induction Hw as [|c w Hc Hw IH]; simpl.
  - destruct r as [|c r]; simpl in *; [done|]. by rewrite Hr.
  - by rewrite Hc, IH.
Qed.

Lemma tokens_sep f c s : f c = true → tokens f (c :: s) = tokens f s.
Proof. intros Hc. unfold tokens. simpl. by rewrite Hc. Qed.

Lemma tokens_boundary f r : at_boundary f r → tokens f r = filter (.≠ []) (drop 1 (split_on f r)).
Proof. destruct r as [|c r]; simpl; [done|]. intros Hc. unfold tokens. simpl. by rewrite Hc. Qed.

Lemma tokens_word f w r :
  w ≠ [] → Forall (λ c, f c = false) w → at_boundary f r → tokens f (w ++ r) = w :: tokens f r.
Proof.
  intros Hne Hw Hr. rewrite (tokens_boundary f r) by done. unfold tokens. rewrite split_on_word by done.
  by rewrite filter_cons, decide_True.
Qed.

Lemma tokens_seps f w r : Forall (λ c, f c = true) w → tokens f (w ++ r) = tokens f r.
Proof. induction 1 as [|c w Hc _ IH]; [done|]. simpl app. by rewrite tokens_sep. Qed.

(** Pieces are not empty and hold no separator. *)
Lemma tokens_spec f s w : w ∈ tokens f s → w ≠ [] ∧ Forall (λ c, f c = false) w.
Proof.
  unfold tokens. intros [Hne Hw]%list_elem_of_filter. split; [done|]. clear Hne. revert w Hw.
  induction s as [|c s IH]; intros w; simpl; [set_solver|]. destruct (f c) eqn:Hc; [set_solver|].
  destruct (split_on_cons f s) as (w' & ws & E). rewrite E in IH |- *.
  intros [->|Hw]%elem_of_cons; [constructor; [done|]; apply IH; by left|apply IH; by right].
Qed.

Abbreviation is_sep separators := (λ c : byte, bool_decide (c ∈ separators)).

Lemma find_first_not_of_spec separators s pos :
  pos <= length s →
  match find_first_not_of separators s pos with
  | None => tokens (is_sep separators) (drop pos s) = []
  | Some p => pos <= p < length s ∧
      tokens (is_sep separators) (drop pos s) = tokens (is_sep separators) (drop p s) ∧
      ∃ c, s !! p = Some c ∧ is_sep separators c = false
  end.
Proof.
  intros Hpos. unfold find_first_not_of. destruct (find_first _ (drop pos s)) as [n|] eqn:E; simpl.
  - apply find_first_Some in E as (w & c & r & E & <- & Hc & Hw).
    assert (length s - pos = length w + S (length r)) as Hl.
    { apply (f_equal length) in E. rewrite length_drop, length_app in E. simpl in E. lia. }
    rewrite <-drop_drop, E, drop_app_length. split_and!; [lia|lia| |].
    + apply tokens_seps. eapply Forall_impl; [done|]. intros x Hx. by apply negb_false_iff.
    + exists c. apply negb_true_iff in Hc. split; [|done].
      rewrite <-lookup_drop, E, lookup_app_r, Nat.sub_diag by lia. done.
  - apply find_first_None in E. rewrite <-(app_nil_r (drop pos s)), tokens_seps; [done|].
    eapply Forall_impl; [done|]. intros x Hx. by apply negb_false_iff.
Qed.

Lemma tokenize_loop_spec fuel s separators p c :
  s !! p = Some c → is_sep separators c = false → length s <= fuel + p →
  tokenize_loop fuel s separators (Some p) = Ret (tokens (is_sep separators) (drop p s)).
Proof.
  revert p c. induction fuel as [|fuel IH]; intros p c Hp Hc Hf;
    pose proof (lookup_lt_Some _ _ _ Hp); [simpl in *; lia|].
  cbn [tokenize_loop]. rewrite (drop_S _ _ _ Hp). unfold find_first_of.
  rewrite Nat.add_1_r. set (t := drop (S p) s).
  assert (∃ w r, t = w ++ r ∧ Forall (λ c, is_sep separators c = false) w ∧
    at_boundary (is_sep separators) r ∧
    default (length s) ((λ n, S p + n) <$> find_first (is_sep separators) t) = S p + length w)
    as (w & r & Ht & Hw & Hr & ->).
  { destruct (find_first _ t) as [n|] eqn:E; simpl.
    - apply find_first_Some in E as (w & d & r & E & <- & Hd & Hw). by exists w, (d :: r).
    - apply find_first_None in E. exists t, []. rewrite app_nil_r. split_and!; try done.
      unfold t. rewrite length_drop. lia. }
  assert (length t = length s - S p) as Hlt by apply length_drop.
  assert (drop (S p + length w) s = r) as Hdr.
  { rewrite <-drop_drop. fold t. by rewrite Ht, drop_app_length. }
  rewrite Ht, length_app in Hlt. unfold substr. rewrite decide_True by lia. cbn [mbind outcome_bind].
  replace (S p + length w - p) with (length (c :: w)) by (simpl; lia).
  rewrite (drop_S _ _ _ Hp). fold t. rewrite Ht.
  change (c :: w ++ r) with ((c :: w) ++ r). rewrite take_app_length.
  rewrite (tokens_word _ (c :: w)) by (done || by constructor).
  pose proof (find_first_not_of_spec separators s (S p + length w) ltac:(lia)) as Hn.
  rewrite Hdr in Hn. destruct (find_first_not_of _ _ _) as [q|].
  - destruct Hn as (Hq & -> & d & Hd & Hd'). by rewrite (IH q d) by (done || lia).
  - rewrite Hn. by destruct fuel.
Qed.

Lemma tokenizeString_spec s separators :
  tokenizeString s separators = Ret (tokens (is_sep separators) s).
Proof.
  unfold tokenizeString. pose proof (find_first_not_of_spec separators s 0 ltac:(lia)) as Hn.
  rewrite drop_0 in Hn. destruct (find_first_not_of _ _ _) as [p|].
  - destruct Hn as (Hp & -> & c & Hc & Hc'). by apply (tokenize_loop_spec _ _ _ p c); [..|lia].
  - rewrite Hn. by destruct s.
Qed.

(** ** Canonical paths *)

Local Abbreviation is_slash := (λ c : byte, bool_decide (c = "/"%byte)).

(** A stack of components: none is empty or holds a slash. *)
Definition stack_ok (ws : list bytes) : Prop := Forall (λ w, w ≠ [] ∧ "/"%byte ∉ w) ws.

Lemma slash_free_Forall w : Forall (λ c, is_slash c = false) w ↔ "/"%byte ∉ w.
Proof.
  rewrite Forall_forall. split.
  - intros Hw Hs. by specialize (Hw _ Hs).
  - intros Hs c Hc. apply bool_decide_eq_false. by intros ->.
Qed.

Lemma render_snoc ws w : render (ws ++ [w]) = render ws ++ str "/" ++ w.
Proof. unfold render. rewrite fmap_app, join_app. simpl. by rewrite app_nil_r. Qed.

Lemma render_nil_inv ws : render ws = [] → ws = [].
Proof. by destruct ws. Qed.

Lemma erase_last_render ws w :
  "/"%byte ∉ w → erase_last (render (ws ++ [w])) = Ret (render ws).
Proof.
  intros Hw. rewrite render_snoc. unfold erase_last. change (str "/" ++ w) with ("/"%byte :: w).
  rewrite rfind_char_app by done.
  by rewrite take_app_length.
Qed.

Lemma copy_component_spec i w r :
  copy_component i = (w, r) → i = w ++ r ∧ "/"%byte ∉ w ∧ at_boundary is_slash r.
Proof.
  revert w r. induction i as [|c i IH]; intros w r; simpl.
  - intros [= <- <-]. split_and!; [done|apply not_elem_of_nil|done].
  - case_decide as Hc.
    + intros [= <- <-]. split_and!; [done|apply not_elem_of_nil|]. by apply bool_decide_eq_true.
    + destruct (copy_component i) as [w' r']. intros [= <- <-].
      destruct (IH w' r' eq_refl) as (-> & Hw & Hr). split_and!; [done|set_solver|done].
Qed.

Lemma components_word w r :
  w ≠ [] → "/"%byte ∉ w → at_boundary is_slash r → components (w ++ r) = w :: components r.
Proof. intros. apply tokens_word; [done|by apply slash_free_Forall|done]. Qed.

Lemma at_boundary_slash r : r = [] ∨ r !! 0 = Some "/"%byte → at_boundary is_slash r.
Proof. intros [->|E]; [done|]. destruct r as [|c r]; [done|]. simplify_eq/=. done. Qed.

Lemma canon_step_ok ws w : stack_ok ws → w ≠ [] → "/"%byte ∉ w → stack_ok (canon_step ws w).
Proof.
  intros Hws Hne Hw. unfold canon_step. repeat case_decide; [done| |].
  - by apply Forall_take.
  - apply Forall_app. split; [done|]. by constructor.
Qed.

(** What a component must not be: the tests of the loop. *)
Definition plain (w : bytes) : Prop := w ≠ [] ∧ "/"%byte ∉ w ∧ w ≠ str "." ∧ w ≠ str "..".

Lemma at_boundary_inv r : at_boundary is_slash r → r = [] ∨ r !! 0 = Some "/"%byte.
Proof. destruct r as [|c r]; [by left|]. intros Hc%bool_decide_eq_true. right. by subst. Qed.

(** A component that the tests for "." and ".." let through. *)
Lemma copy_component_plain c i w r :
  c ≠ "/"%byte → ¬ (c = "."%byte ∧ (i = [] ∨ i !! 0 = Some "/"%byte)) →
  ¬ (c = "."%byte ∧ i !! 0 = Some "."%byte ∧ (drop 1 i = [] ∨ i !! 1 = Some "/"%byte)) →
  copy_component (c :: i) = (w, r) → plain w ∧ c :: i = w ++ r ∧ at_boundary is_slash r.
Proof.
  intros Hc Hd Hdd E. assert (w ≠ []) as Hne.
  { simpl in E. rewrite decide_False in E by done. by destruct (copy_component i); simplify_eq. }
  apply copy_component_spec in E as (E & Hw & Hr). pose proof (at_boundary_inv r Hr) as Hr'.
  split_and!; [|done|done]. split_and!; [done|done| |]; intros ->; simplify_eq/=; naive_solver.
Qed.

(** The cases of the loop body are the cases of [canon_step]. *)
Lemma canonPath_loop_spec ls fuel ws i :
  stack_ok ws → length i < fuel →
  canonPath_loop ls fuel false (render ws) i =
    Ret (CanonDone (render (foldl canon_step ws (components i)))).
Proof.
  revert ws i. induction fuel as [|fuel IH]; intros ws i Hws Hf; [lia|].
  cbn [canonPath_loop]. destruct i as [|c i]; [done|]. simpl in Hf.
  case_decide as Hc.
  { subst. unfold components. rewrite tokens_sep by done. apply IH; [done|lia]. }
  case_decide as Hd.
  { destruct Hd as [-> Hi]. change ("."%byte :: i) with (str "." ++ i).
    rewrite components_word by (done || concrete || by apply at_boundary_slash).
    cbn [foldl]. apply IH; [done|lia]. }
  case_decide as Hdd.
  { destruct Hdd as (-> & Hi0 & Hi). destruct i as [|d i]; [done|]. simpl in Hi0. simplify_eq.
    cbn [drop] in *. change ("."%byte :: "."%byte :: i) with (str ".." ++ i).
    rewrite components_word by (done || concrete || by apply at_boundary_slash).
    cbn [foldl]. change (canon_step ws (str "..")) with (take (length ws - 1) ws).
    assert ((if decide (render ws = []) then Ret (render ws) else erase_last (render ws)) =
      Ret (render (take (length ws - 1) ws))) as ->.
    { destruct ws as [|w ws _] using rev_ind; [done|]. rewrite decide_False.
      - apply Forall_app in Hws as [_ Hw]. apply Forall_singleton in Hw as [_ Hw].
        rewrite erase_last_render by done. rewrite length_app. simpl.
        by rewrite Nat.add_sub, take_app_length.
      - intros E%render_nil_inv. by destruct ws. }
    cbn [mbind outcome_bind]. simpl in Hf. rewrite drop_0.
    apply IH; [by apply Forall_take|lia]. }
  destruct (copy_component (c :: i)) as [w r] eqn:E.
  apply copy_component_plain in E as ((Hne & Hw & Hn1 & Hn2) & E & Hr); [|done..].
  rewrite E, components_word by done. cbn [foldl].
  assert (canon_step ws w = ws ++ [w]) as -> by (unfold canon_step; by rewrite !decide_False).
  rewrite <-render_snoc. apply IH.
  - apply Forall_app. split; [done|]. by constructor.
  - apply (f_equal length) in E. rewrite length_app in E. destruct w; [done|]. simpl in *. lia.
Qed.

(** The root, or plain components, each after a slash. *)
Definition path_canonical (p : bytes) : Prop := ∃ ws, Forall plain ws ∧ p = canon_value (render ws).

Lemma plain_stack ws : Forall plain ws → stack_ok ws.
Proof. intros H. eapply Forall_impl; [exact H|]. by intros w (? & ? & _). Qed.

Lemma components_spec s w : w ∈ components s → w ≠ [] ∧ "/"%byte ∉ w.
Proof. intros [? ?]%tokens_spec. split; [done|]. by apply slash_free_Forall. Qed.

Lemma canon_fold_plain ws ss :
  Forall plain ws → Forall (λ w, w ≠ [] ∧ "/"%byte ∉ w) ss → Forall plain (foldl canon_step ws ss).
Proof.
  intros Hws Hss. revert ws Hws. induction Hss as [|w ss [Hne Hw] Hss IH]; intros ws Hws; simpl; [done|].
  apply IH. unfold canon_step. repeat case_decide; [done|by apply Forall_take|].
  apply Forall_app. split; [done|]. by repeat constructor.
Qed.

Lemma components_plain s : Forall (λ w, w ≠ [] ∧ "/"%byte ∉ w) (components s).
Proof. apply Forall_forall. intros w. apply components_spec. Qed.

Lemma canonPath_spec path :
  path !! 0 = Some "/"%byte →
  canonPath path = Ret (canon_value (render (foldl canon_step [] (components path)))).
Proof.
  intros Hp. unfold canonPath, canonPath_run. rewrite decide_True by done.
  change (@nil byte) with (render []) at 1.
  rewrite canonPath_loop_spec by (constructor || lia). done.
Qed.

Lemma components_render ws : stack_ok ws → components (render ws) = ws.
Proof.
  induction 1 as [|w ws [Hne Hw] Hws IH]; [done|].
  change (render (w :: ws)) with (str "/" ++ w ++ render ws). unfold components.
  rewrite tokens_seps by (repeat constructor; by apply bool_decide_eq_true).
  fold components. rewrite components_word; [by rewrite IH|done|done|]. by destruct ws.
Qed.

Lemma canon_fold_id ws ss : Forall plain ss → foldl canon_step ws ss = ws ++ ss.
Proof.
  intros Hss. revert ws. induction Hss as [|w ss (_ & _ & ? & ?) Hss IH]; intros ws; simpl.
  - by rewrite app_nil_r.
  - unfold canon_step at 2. rewrite !decide_False by done. rewrite IH. by rewrite <-(assoc (++)).
Qed.

Lemma components_canonical ws : Forall plain ws → components (canon_value (render ws)) = ws.
Proof.
  intros Hws. unfold canon_value. case_decide as E; [|by apply components_render, plain_stack].
  apply render_nil_inv in E. by subst.
Qed.

Lemma canonical_absolute p : path_canonical p → p !! 0 = Some "/"%byte.
Proof. intros ([|w ws] & Hws & ->); done. Qed.

Lemma canonPath_canonical p : path_canonical p → canonPath p = Ret p.
Proof.
  intros Hp. rewrite canonPath_spec by (by apply canonical_absolute).
  destruct Hp as (ws & Hws & ->). by rewrite components_canonical, canon_fold_id.
Qed.

(** ** Resolving symbolic links *)

Section resolve.
Variable lstat_link : bytes → outcome (option bytes).

(** No prefix of the path is a symbolic link. *)
Definition resolved (ws : list bytes) : Prop :=
  ∀ k, 0 < k <= length ws → lstat_link (render (take k ws)) = Ret None.

Lemma resolved_take n ws : resolved ws → resolved (take n ws).
Proof.
  intros Hr k Hk. rewrite length_take in Hk. rewrite take_take. rewrite Nat.min_l by lia. apply Hr. lia.
Qed.

Lemma resolved_snoc ws w :
  resolved ws → lstat_link (render (ws ++ [w])) = Ret None → resolved (ws ++ [w]).
Proof.
  intros Hr Hw k Hk. rewrite length_app in Hk. simpl in Hk.
  destruct (decide (k <= length ws)).
  - rewrite take_app_le by lia. apply Hr. lia.
  - by rewrite take_ge by (rewrite length_app; simpl; lia).
Qed.

Lemma canonPath_loop_resolves fuel ws i r :
  Forall plain ws → resolved ws → canonPath_loop lstat_link fuel true (render ws) i = Ret r →
  match r with
  | CanonDone s => ∃ ws', s = render ws' ∧ Forall plain ws' ∧ resolved ws'
  | CanonLink s target rest => "/"%byte ∈ s ∧ lstat_link s = Ret (Some target) ∧ at_boundary is_slash rest
  end.
Proof.
  revert ws i. induction fuel as [|fuel IH]; intros ws i Hws Hres; cbn [canonPath_loop]; [done|].
  destruct i as [|c i]; [intros [= <-]; by exists ws|].
  case_decide as Hc; [by apply IH|]. case_decide as Hd; [by apply IH|]. case_decide as Hdd.
  { intros (s & Es & E)%bind_Ret_inv.
    assert (s = render (take (length ws - 1) ws)) as ->.
    { destruct ws as [|w ws _] using rev_ind; [by simplify_eq/=|].
      rewrite decide_False in Es by (intros ?%render_nil_inv; by destruct ws).
      apply Forall_app in Hws as [_ (_ & Hw & _)%Forall_singleton].
      rewrite erase_last_render in Es by done. simplify_eq. rewrite length_app. simpl.
      by rewrite Nat.add_sub, take_app_length. }
    by eapply IH; [apply Forall_take|apply resolved_take|]. }
  destruct (copy_component (c :: i)) as [w r'] eqn:E.
  apply copy_component_plain in E as (Hw & E & Hr'); [|done..]. rewrite <-render_snoc.
  intros ([target|] & El & Er)%bind_Ret_inv.
  - simplify_eq. split_and!; [|done|done]. rewrite render_snoc. apply elem_of_app. right. by left.
  - eapply IH; [|by apply resolved_snoc|done]. apply Forall_app. split; [done|].
    by apply Forall_singleton.
Qed.

Lemma canonPath_loop_terminates fuel b s i :
  (∀ p, terminates (lstat_link p)) → length i < fuel →
  terminates (canonPath_loop lstat_link fuel b s i).
Proof.
  intros Hls. revert s i. induction fuel as [|fuel IH]; intros s i Hf; [lia|]. cbn [canonPath_loop].
  destruct i as [|c i]; [done|]. simpl in Hf.
  case_decide as Hc; [apply IH; lia|]. case_decide as Hd; [apply IH; lia|]. case_decide as Hdd.
  { apply bind_terminates; [|intros; apply IH; rewrite length_drop; lia].
    case_decide; [done|]. unfold erase_last. by destruct (rfind_char _ _). }
  destruct (copy_component (c :: i)) as [w r] eqn:E.
  apply copy_component_plain in E as ((Hw & _) & E & _); [|done..].
  apply (f_equal length) in E. rewrite length_app in E. destruct w; [done|]. simpl in E.
  destruct b; [|apply IH; lia].
  apply bind_terminates; [apply Hls|]. intros [target|] _; [done|]. apply IH. lia.
Qed.

Lemma canonPath_terminates p : terminates (canonPath p).
Proof.
  destruct (decide (p !! 0 = Some "/"%byte)); [by rewrite canonPath_spec|].
  unfold canonPath. by rewrite decide_False.
Qed.

Lemma absPath_terminates cwd p d : terminates cwd → terminates (absPath cwd p d).
Proof.
  intros Hcwd. unfold absPath. case_decide; [apply canonPath_terminates|].
  apply bind_terminates; [by case_decide|]. intros. apply canonPath_terminates.
Qed.

Lemma canonPath_follow_spec cwd todo temp p :
  canonPath_follow cwd lstat_link todo temp = Ret p →
  ∃ ws, Forall plain ws ∧ p = canon_value (render ws) ∧ resolved ws.
Proof.
  revert temp. induction todo as [|todo IH]; intros temp; cbn [canonPath_follow]; [done|].
  intros (r & Er & E)%bind_Ret_inv. unfold canonPath_run in Er. change (@nil byte) with (render []) in Er.
  apply canonPath_loop_resolves in Er; [|constructor|intros k Hk; simpl in Hk; lia].
  destruct r as [s|s target rest].
  - destruct Er as (ws & -> & Hws & Hres). simplify_eq. by exists ws.
  - case_decide; [done|]. outcome_inv. by eapply IH.
Qed.

Lemma canonPath_follow_terminates cwd todo temp :
  terminates cwd → (∀ p, terminates (lstat_link p)) →
  terminates (canonPath_follow cwd lstat_link todo temp).
Proof.
  intros Hcwd Hls. revert temp. induction todo as [|todo IH]; intros temp; cbn [canonPath_follow]; [done|].
  apply bind_terminates; [by apply canonPath_loop_terminates; [|lia]|]. intros [s|s target rest] _; [done|].
  case_decide; [done|]. apply bind_terminates; [unfold dirOf; by destruct (rfind_char _ _)|].
  intros d _. apply bind_terminates; [by apply absPath_terminates|]. intros t _. apply IH.
Qed.
End resolve.

(** * Properties *)

(** [tokenizeString] returns exactly the maximal non-empty runs of
    non-separators, in order: its position arithmetic agrees with the
    recursive definition of splitting, on every string and set of separators,
    without an exception and with fuel for one round per byte. *)
Theorem tokenizeString_tokens s separators :
  tokenizeString s separators = Ret (tokens (is_sep separators) s).
Proof. apply tokenizeString_spec. Qed.

(** Lexical path canonicalisation. On an absolute path [canonPath] returns
    the path of the components folded left to right, "." dropped and ".."
    removing the component before it (at the root, nothing); the result is
    canonical, a canonical path is returned unchanged (so [canonPath] is
    idempotent), and any other path is refused. *)
Theorem canonPath_correct path :
  (path !! 0 = Some "/"%byte →
   ∃ p, canonPath path = Ret p ∧
     p = canon_value (render (foldl canon_step [] (components path))) ∧
     path_canonical p ∧ canonPath p = Ret p ∧
     (path_canonical path ↔ p = path)) ∧
  (path !! 0 ≠ Some "/"%byte → canonPath path = Throw (Error "not an absolute path")).
Proof.
  split; [|intros; unfold canonPath; by rewrite decide_False].
  intros Hp. rewrite canonPath_spec by done. eexists. split; [done|]. split; [done|].
  assert (path_canonical (canon_value (render (foldl canon_step [] (components path))))) as Hc.
  { eexists. split; [|done]. apply canon_fold_plain; [constructor|apply components_plain]. }
  split_and!; [done|by apply canonPath_canonical|]. split; [|by intros <-].
  intros Hpath%canonPath_canonical. rewrite canonPath_spec in Hpath by done. by simplify_eq.
Qed.

(** Canonicalisation with symbolic links resolved. Whatever links the file
    system holds, cycles included, [canonPath(path, true)] ends; and when it
    returns a path, that path is canonical and no prefix of it is a link. *)
Theorem canonPath_resolve_correct cwd lstat_link path :
  terminates cwd → (∀ p, terminates (lstat_link p)) →
  terminates (canonPath_resolve cwd lstat_link path) ∧
  ∀ p, canonPath_resolve cwd lstat_link path = Ret p →
    ∃ ws, Forall plain ws ∧ p = canon_value (render ws) ∧
      ∀ k, 0 < k <= length ws → lstat_link (render (take k ws)) = Ret None.
Proof.
  intros Hcwd Hls. unfold canonPath_resolve. case_decide; [|done].
  split; [by apply canonPath_follow_terminates|]. intros p E.
  apply canonPath_follow_spec in E as (ws & ? & ? & ?). by exists ws.
Qed.

(** /a is a link to "b/..", /loop a link to itself. *)
Definition sample_links (p : bytes) : outcome (option bytes) :=
  if decide (p = str "/a") then Ret (Some (str "b/.."))
  else if decide (p = str "/loop") then Ret (Some (str "loop"))
  else Ret None.

Lemma canonPath_correct_witness :
  ∃ p, canonPath (str "/a//b/../c/.") = Ret p ∧
     p = canon_value (render (foldl canon_step [] (components (str "/a//b/../c/.")))) ∧
     path_canonical p ∧ canonPath p = Ret p ∧
     (path_canonical (str "/a//b/../c/.") ↔ p = str "/a//b/../c/.").
Proof. apply (canonPath_correct (str "/a//b/../c/.")). reflexivity. Defined.

Lemma canonPath_resolve_correct_witness :
  terminates (canonPath_resolve (Ret (str "/")) sample_links (str "/a/c")) ∧
  ∀ p, canonPath_resolve (Ret (str "/")) sample_links (str "/a/c") = Ret p →
    ∃ ws, Forall plain ws ∧ p = canon_value (render ws) ∧
      ∀ k, 0 < k <= length ws → sample_links (render (take k ws)) = Ret None.
Proof.
  apply (canonPath_resolve_correct (Ret (str "/")) sample_links (str "/a/c")); [done|].
  intros p. unfold sample_links. by repeat case_decide.
Defined.

Example resolve_runs :
  canonPath_resolve (Ret (str "/")) sample_links (str "/a/c") = Ret (str "/c") ∧
  canonPath_resolve (Ret (str "/")) sample_links (str "/loop/x") =
    Throw (Error "infinite symlink recursion in path").
Proof. vm_compute. done. Qed.
