(* ===== verification/StorePaths.v ===== *)
(** libstore/store-api.cc: the shape of store paths and how they are computed.

    [nixStore] is [settings.nixStore], the store directory. *)

From S2P Require Import Prelude Containers Serialise Hash Paths.

(** * Operations *)

Section store_paths.
Variable nixStore : bytes.

Definition isInStore (path : bytes) : bool := isInDir path nixStore.

Definition isStorePath (path : bytes) : bool :=
  isInStore path && bool_decide (find_char_from "/"%byte path (length nixStore + 1) = None).

Definition assertStorePath (path : bytes) : outcome () :=
  check (isStorePath path) (Error "path is not in the store").

Definition toStorePath (path : bytes) : outcome bytes :=
  if isInStore path then
    match find_char_from "/"%byte path (length nixStore + 1) with
    | None => Ret path
    | Some slash => Ret (take slash path)
    end
  else Throw (Error "path is not in the store").

Definition storePathToName (path : bytes) : outcome bytes :=
  assertStorePath path;;
  substr path (length nixStore + 34) (length path).

Definition validChars : bytes := str "+-._?=".

Definition char_between (lo hi c : byte) : bool :=
  bool_decide (uchar lo <= uchar c)%Z && bool_decide (uchar c <= uchar hi)%Z.

Definition valid_name_char (c : byte) : bool :=
  char_between "A" "Z" c || char_between "a" "z" c || char_between "0" "9" c ||
  bool_decide (is_Some (find_char c validChars)).

Definition checkStoreName (name : bytes) : outcome () :=
  check (negb (bool_decide (take 1 name = str "."))) (Error "invalid name (can't begin with dot)");;
  check (forallb valid_name_char name) (Error "invalid character in name").

Section gcrypt.
Context `{Gcrypt}.

(** The string whose hash is the hash part, "<type>:sha256:<h2>:<store>:<name>". *)
Definition fingerprint (type hex name : bytes) : bytes :=
  type ++ str ":sha256:" ++ hex ++ str ":" ++ nixStore ++ str ":" ++ name.

Definition makeStorePath (type : bytes) (hash : Hash) (name : bytes) : outcome bytes :=
  hex ← printHash hash;
  let s := fingerprint type hex name in
  checkStoreName name;;
  h ← hashString htSHA256 s;
  h ← compressHash h 20;
  h ← printHash32 h;
  Ret (nixStore ++ str "/" ++ h ++ str "-" ++ name).

Definition makeOutputPath (id : bytes) (hash : Hash) (name : bytes) : outcome bytes :=
  makeStorePath (str "output:" ++ id) hash
    (name ++ if decide (id = str "out") then [] else str "-" ++ id).

Definition makeFixedOutputPath (recursive : bool) (hashAlgo : HashType) (hash : Hash) (name : bytes)
    : outcome bytes :=
  if bool_decide (hashAlgo = htSHA256) && recursive then makeStorePath (str "source") hash name
  else
    algo ← printHashType hashAlgo;
    hex ← printHash hash;
    h ← hashString htSHA256
      (str "fixed:out:" ++ (if recursive then str "r:" else []) ++ algo ++ str ":" ++ hex ++ str ":");
    makeStorePath (str "output:out") h name.

Definition text_type (references : strset) : bytes :=
  foldl (λ type i, (type ++ str ":") ++ i) (str "text") references.

Definition computeStorePathForText (name s : bytes) (references : strset) : outcome bytes :=
  hash ← hashString htSHA256 s;
  makeStorePath (text_type references) hash name.
End gcrypt.

(** [showPaths] *)
Definition showPaths (paths : strset) : bytes :=
  foldl (λ s i, (if bool_decide (length s = 0) then s else s ++ str ", ") ++
                str "`" ++ i ++ str "'") [] paths.

Section source.
Context {S : Type} `{Source S}.

Definition readStorePath (from : S) : outcome (bytes * S) :=
  '(path, from) ← readString from;
  assertStorePath path;;
  Ret (path, from).

(** [readStorePaths<PathSet>] *)
Definition readStorePaths (from : S) : outcome (strset * S) :=
  '(paths, from) ← readStrings_set from;
  foldM (λ _ path, assertStorePath path) paths ();;
  Ret (paths, from).
End source.
End store_paths.

(** * The shape of store paths *)

(** The store directory: absolute, without a trailing slash. *)
Definition store_dir_ok (nixStore : bytes) : Prop :=
  nixStore !! 0 = Some "/"%byte ∧ last nixStore ≠ Some "/"%byte.

Section shape.
Variable nixStore : bytes.
Hypothesis Hstore : nixStore !! 0 = Some "/"%byte.

Lemma isInStore_iff path :
  isInStore nixStore path = true ↔ ∃ c rest, path = nixStore ++ str "/" ++ c :: rest.
Proof.
  unfold isInStore, isInDir. rewrite !andb_true_iff, !bool_decide_eq_true. split.
  - intros [[[H0 Ht] Hl] Hs]. pose proof (take_drop (length nixStore) path) as E. rewrite Ht in E.
    generalize dependent (drop (length nixStore) path). intros d <-.
    rewrite lookup_app_r, Nat.sub_diag in Hs by lia. rewrite length_app in Hl.
    destruct d as [|x [|c rest]]; simpl in *; [lia|lia|]. simplify_eq. by exists c, rest.
  - intros (c & rest & ->). rewrite length_app, take_app_length, (lookup_app_r _ _ (length nixStore)), Nat.sub_diag by lia.
    split_and!; [|done|simpl; lia|done]. destruct nixStore; [done|]. by simplify_eq/=.
Qed.

(** A store path is the store directory, a slash and a non-empty base name. *)
Lemma isStorePath_iff path :
  isStorePath nixStore path = true ↔
    ∃ base, base ≠ [] ∧ "/"%byte ∉ base ∧ path = nixStore ++ str "/" ++ base.
Proof.
  unfold isStorePath. rewrite andb_true_iff, isInStore_iff, bool_decide_eq_true.
  unfold find_char_from. rewrite fmap_None, find_char_None.
  assert (∀ b, drop (length nixStore + 1) (nixStore ++ str "/" ++ b) = b) as Hdrop
    by (intros b; by rewrite drop_app_add).
  split.
  - intros [(c & rest & ->) Hs]. rewrite Hdrop in Hs. by exists (c :: rest).
  - intros (base & Hne & Hs & ->). rewrite Hdrop. split; [|done]. destruct base as [|c rest]; [done|].
    by exists c, rest.
Qed.
End shape.

(** * Computed paths *)

Lemma checkStoreName_iff name :
  checkStoreName name = Ret () ↔
    take 1 name ≠ str "." ∧ Forall (λ c, valid_name_char c = true) name.
Proof.
  unfold checkStoreName. rewrite Forall_forall. setoid_rewrite list_elem_of_In.
  rewrite <-forallb_forall. split.
  - intros E. outcome_inv. by bool_to_prop.
  - intros [Hd Hf]. rewrite bool_decide_eq_false_2 by done. simpl. by rewrite Hf.
Qed.

Lemma valid_name_char_not_special c : valid_name_char c = true → c ≠ "/"%byte ∧ c ≠ ":"%byte.
Proof. destruct c; vm_compute; intros H; split; congruence. Qed.

Lemma name_free name :
  Forall (λ c, valid_name_char c = true) name → "/"%byte ∉ name ∧ ":"%byte ∉ name.
Proof.
  rewrite Forall_forall. intros Hn.
  split; intros Hc; by apply Hn, valid_name_char_not_special in Hc as [? ?].
Qed.

Lemma base32_no_slash s : Forall base32_char_ok s → "/"%byte ∉ s.
Proof. rewrite Forall_forall. intros Hs Hc. by specialize (Hs _ Hc). Qed.

Section computed.
Context `{GcryptLaws}.
Variable nixStore : bytes.

(** The hash part for a fingerprint. *)
Definition hash_part (s : bytes) : outcome bytes :=
  h ← hashString htSHA256 s; h ← compressHash h 20; printHash32 h.

Lemma hash_part_ok s : ∃ h, hash_part s = Ret h ∧ length h = 32 ∧ Forall base32_char_ok h.
Proof.
  unfold hash_part. destruct (hashString_ok htSHA256 s) as (h & -> & Hwf & _ & _); [done|].
  cbn [mbind outcome_bind].
  destruct (compressHash_spec h 20 Hwf) as (h' & -> & Hwf' & Hsz & _); [unfold maxHashSize; lia|].
  cbn [mbind outcome_bind]. destruct (printHash32_spec h' Hwf') as (t & -> & Hl & Hok & _).
  exists t. rewrite Hsz in Hl. done.
Qed.

Lemma makeStorePath_spec type hash name :
  hash_wf hash → checkStoreName name = Ret () →
  ∃ hex h, printHash hash = Ret hex ∧ length hex = hashSize hash * 2 ∧
    hash_part (fingerprint nixStore type hex name) = Ret h ∧ length h = 32 ∧ Forall base32_char_ok h ∧
    makeStorePath nixStore type hash name = Ret (nixStore ++ str "/" ++ h ++ str "-" ++ name).
Proof.
  intros Hwf Hn. unfold makeStorePath. rewrite printHash_spec, Hn by done. cbn [mbind outcome_bind].
  set (hex := mjoin (hex_pair <$> digest hash)).
  destruct (hash_part_ok (fingerprint nixStore type hex name)) as (h & E & Hl & Hok).
  exists hex, h. split_and!; try done.
  - unfold hex. by rewrite length_hex, length_digest.
  - unfold hash_part in E. outcome_inv. cbn [mbind outcome_bind].
    repeat match goal with H : _ = Ret _ |- _ => rewrite H; cbn [mbind outcome_bind] end. done.
Qed.

Lemma makeStorePath_name type hash name p :
  makeStorePath nixStore type hash name = Ret p → checkStoreName name = Ret ().
Proof. unfold makeStorePath. intros E. outcome_inv. by destruct x0. Qed.

(** A fingerprint determines what it was made of. *)
Lemma fingerprint_inj type1 type2 hex1 hex2 name1 name2 :
  length hex1 = length hex2 → ":"%byte ∉ name1 → ":"%byte ∉ name2 →
  fingerprint nixStore type1 hex1 name1 = fingerprint nixStore type2 hex2 name2 →
  type1 = type2 ∧ hex1 = hex2 ∧ name1 = name2.
Proof.
  unfold fingerprint. intros Hl H1 H2 E. rewrite !(assoc (++)) in E.
  rewrite <-!(assoc (++) _ (str ":")) in E.
  change (str ":" ++ name1) with (":"%byte :: name1) in E.
  change (str ":" ++ name2) with (":"%byte :: name2) in E.
  apply last_sep_inj in E as [E ->]; [|done|done].
  apply app_inv_tail in E. apply app_inj_2 in E as [E ->]; [|done]. by apply app_inv_tail in E.
Qed.

Lemma toStorePath_below base rest :
  nixStore !! 0 = Some "/"%byte → base ≠ [] → "/"%byte ∉ base →
  toStorePath nixStore ((nixStore ++ str "/" ++ base) ++ str "/" ++ rest) =
    Ret (nixStore ++ str "/" ++ base).
Proof.
  intros Hst Hne Hs. unfold toStorePath. destruct base as [|c base]; [done|].
  replace (isInStore _ _) with true.
  2: { symmetry. apply isInStore_iff; [done|]. exists c, (base ++ str "/" ++ rest). by simplify_list_eq. }
  unfold find_char_from. rewrite <-!(assoc (++)), drop_app_add.
  change (drop 1 (str "/" ++ (c :: base) ++ str "/" ++ rest)) with ((c :: base) ++ "/"%byte :: rest).
  rewrite find_char_app_l by done. cbn [fmap option_fmap option_map]. f_equal.
  rewrite take_app_length'; [done|]. rewrite !length_app. simpl. lia.
Qed.

Lemma storePathToName_spec base :
  nixStore !! 0 = Some "/"%byte → base ≠ [] → "/"%byte ∉ base →
  storePathToName nixStore (nixStore ++ str "/" ++ base) =
    if decide (33 <= length base) then Ret (drop 33 base)
    else Throw (OutOfRange "basic_string::substr").
Proof.
  intros Hst Hne Hs. unfold storePathToName, assertStorePath.
  replace (isStorePath _ _) with true by (symmetry; apply isStorePath_iff; eauto).
  cbn [check mbind outcome_bind]. unfold substr. rewrite !length_app. change (length (str "/")) with 1.
  destruct (decide (33 <= length base)).
  - rewrite decide_True by lia. f_equal.
    replace (length nixStore + 34) with (length nixStore + (1 + 33)) by lia.
    rewrite drop_app_add, <-drop_drop. cbn [drop app str]. apply take_ge. rewrite length_drop. lia.
  - by rewrite decide_False by lia.
Qed.
End computed.

(** * Properties *)

(** C39: What [makeStorePath] promises. For a well-formed hash and an acceptable
    name it returns a path directly inside the store, whose name
    [storePathToName] gives back, and [toStorePath] maps the path and every path
    below it to it; for any other name it throws what [checkStoreName] threw. *)
Theorem makeStorePath_wellformed `{GcryptLaws} nixStore type hash name :
  nixStore !! 0 = Some "/"%byte → hash_wf hash →
  match checkStoreName name with
  | Ret _ => ∃ p, makeStorePath nixStore type hash name = Ret p ∧
      isStorePath nixStore p = true ∧ storePathToName nixStore p = Ret name ∧
      toStorePath nixStore p = Ret p ∧
      ∀ rest, toStorePath nixStore (p ++ str "/" ++ rest) = Ret p
  | Throw e => makeStorePath nixStore type hash name = Throw e
  | OutOfFuel => False
  end.
Proof.
  intros Hst Hwf. destruct (checkStoreName name) as [[]|e|] eqn:Hn.
  - destruct (makeStorePath_spec nixStore type hash name Hwf Hn) as (hex & h & _ & _ & _ & Hl & Hok & E).
    apply checkStoreName_iff in Hn as [_ [Hns _]%name_free].
    assert ("/"%byte ∉ h ++ str "-" ++ name) as Hs.
    { rewrite !elem_of_app. intros [Hh|[Hh|Hh]]; [by apply base32_no_slash in Hh| |done].
      revert Hh. concrete. }
    assert (h ++ str "-" ++ name ≠ []) as Hne by (by destruct h).
    exists (nixStore ++ str "/" ++ h ++ str "-" ++ name). split_and!; [done| | | |].
    + apply isStorePath_iff; eauto.
    + rewrite storePathToName_spec by done. rewrite decide_True by (rewrite length_app; simpl; lia).
      f_equal. change 33 with (32 + 1). by rewrite <-Hl, drop_app_add.
    + unfold toStorePath.
      assert (isStorePath nixStore (nixStore ++ str "/" ++ h ++ str "-" ++ name) = true) as Hp
        by (apply isStorePath_iff; eauto).
      unfold isStorePath in Hp. apply andb_true_iff in Hp as [-> ->%bool_decide_eq_true]. done.
    + intros rest. by apply toStorePath_below.
  - unfold makeStorePath. rewrite printHash_spec, Hn by done. done.
  - by apply (bind_terminates _ _ (check_terminates _ _) (λ _ _, check_terminates _ _)) in Hn.
Qed.

(** C38: Store paths are content-addressed without ambiguity: when two calls of
    [makeStorePath] with hashes of one size return the same path, the names are
    equal, and either types and hashes are equal too or the two fingerprints
    are different strings with the same 160-bit hash part, a collision of the
    hash function. *)
Theorem makeStorePath_collision `{GcryptLaws} nixStore type1 hash1 name1 type2 hash2 name2 p :
  hash_wf hash1 → hash_wf hash2 → hashSize hash1 = hashSize hash2 →
  makeStorePath nixStore type1 hash1 name1 = Ret p →
  makeStorePath nixStore type2 hash2 name2 = Ret p →
  name1 = name2 ∧
  (type1 = type2 ∧ digest hash1 = digest hash2 ∨
   ∃ hex1 hex2 h, printHash hash1 = Ret hex1 ∧ printHash hash2 = Ret hex2 ∧
     fingerprint nixStore type1 hex1 name1 ≠ fingerprint nixStore type2 hex2 name2 ∧
     hash_part (fingerprint nixStore type1 hex1 name1) = Ret h ∧
     hash_part (fingerprint nixStore type2 hex2 name2) = Ret h).
Proof.
  intros Hw1 Hw2 Hsz E1 E2.
  pose proof (makeStorePath_name _ _ _ _ _ E1) as Hn1.
  pose proof (makeStorePath_name _ _ _ _ _ E2) as Hn2.
  destruct (makeStorePath_spec nixStore type1 hash1 name1 Hw1 Hn1) as (x1 & h1 & X1 & L1 & P1 & K1 & _ & E1').
  destruct (makeStorePath_spec nixStore type2 hash2 name2 Hw2 Hn2) as (x2 & h2 & X2 & L2 & P2 & K2 & _ & E2').
  assert (h1 = h2 ∧ name1 = name2) as [-> ->].
  { rewrite E1 in E1'. rewrite E2 in E2'. apply (inj Ret) in E1', E2'. rewrite E1' in E2'.
    apply app_inv_head, app_inv_head in E2'. apply app_inj_1 in E2' as [-> E]; [|lia].
    by apply app_inv_head in E. }
  split; [done|].
  destruct (decide (fingerprint nixStore type1 x1 name2 = fingerprint nixStore type2 x2 name2)) as [E|E].
  - left. apply checkStoreName_iff in Hn2 as [_ [_ Hc]%name_free].
    apply fingerprint_inj in E as (-> & -> & _); [|lia|done|done]. split; [done|].
    rewrite printHash_spec in X1, X2 by done. simplify_eq. by apply hex_inj.
  - right. exists x1, x2, h2. split_and!; congruence || done.
Qed.

(** A base name shorter than a hash part and a dash is a store path for
    [isStorePath], but [storePathToName] leaves by [std::out_of_range], which is
    not an [Error] of the daemon. *)
Theorem storePathToName_short `{GcryptLaws} nixStore base :
  nixStore !! 0 = Some "/"%byte → base ≠ [] → "/"%byte ∉ base → length base < 33 →
  isStorePath nixStore (nixStore ++ str "/" ++ base) = true ∧
  storePathToName nixStore (nixStore ++ str "/" ++ base) = Throw (OutOfRange "basic_string::substr").
Proof.
  intros Hst Hne Hs Hl. split; [apply isStorePath_iff; eauto|].
  rewrite storePathToName_spec by done. by rewrite decide_False by lia.
Qed.

(** ** Witnesses *)

Definition gnu_store : bytes := str "/gnu/store".
Definition toy_hash : Hash := mkHash 32 zero_array htSHA256.

Lemma toy_hash_wf : hash_wf toy_hash.
Proof. unfold hash_wf, maxHashSize. split_and!; vm_compute; done || lia. Qed.

Lemma makeStorePath_wellformed_witness :
  ∃ p, @makeStorePath gnu_store toy_gcrypt (str "source") toy_hash (str "hello-2.12") = Ret p ∧
      isStorePath gnu_store p = true ∧ storePathToName gnu_store p = Ret (str "hello-2.12") ∧
      toStorePath gnu_store p = Ret p ∧
      ∀ rest, toStorePath gnu_store (p ++ str "/" ++ rest) = Ret p.
Proof.
  exact (@makeStorePath_wellformed toy_gcrypt toy_gcrypt_laws gnu_store (str "source") toy_hash
    (str "hello-2.12") eq_refl toy_hash_wf).
Defined.

Lemma makeStorePath_collision_witness :
  str "hello" = str "hello" ∧
  (str "source" = str "source" ∧ digest toy_hash = digest toy_hash ∨
   ∃ hex1 hex2 h, printHash toy_hash = Ret hex1 ∧ printHash toy_hash = Ret hex2 ∧
     fingerprint gnu_store (str "source") hex1 (str "hello") ≠
       fingerprint gnu_store (str "source") hex2 (str "hello") ∧
     @hash_part toy_gcrypt (fingerprint gnu_store (str "source") hex1 (str "hello")) = Ret h ∧
     @hash_part toy_gcrypt (fingerprint gnu_store (str "source") hex2 (str "hello")) = Ret h).
Proof.
  eapply (@makeStorePath_collision toy_gcrypt toy_gcrypt_laws gnu_store);
    [apply toy_hash_wf|apply toy_hash_wf|reflexivity|vm_compute; reflexivity|vm_compute; reflexivity].
Defined.
