(* ===== verification/References.v ===== *)
(** libstore/references.cc: scanning a dump for store path hashes.

    [search] looks for the hash parts in one buffer, skipping ahead on bytes
    that are no base-32 digits; [RefScanSink] feeds it the stream chunk by
    chunk, keeping the last 32 bytes for references that span two chunks. *)

From S2P Require Import Prelude Containers Serialise Hash Archive Paths.

Definition refLength : nat := 32.

Definition isBase32 (c : byte) : bool := bool_decide (c ∈ base32Chars).

(** * [search] *)

(** The inner loop: the largest [j < n] whose byte is no base-32 digit. A read
    past the buffer is undefined. *)
Fixpoint scan_back (n : nat) (s : bytes) (i : nat) : outcome (option nat) :=
  match n with
  | 0 => Ret None
  | S j =>
      match s !! (i + j) with
      | None => Throw (Undefined "search: read past the buffer")
      | Some c => if isBase32 c then scan_back j s i else Ret (Some j)
      end
  end.

(** [i + refLength <= len], computed in [unsigned int]. *)
Definition window_fits (i len : nat) : bool :=
  bool_decide (Z.of_nat (i + refLength) mod 2 ^ 32 <= Z.of_nat len)%Z.

Fixpoint search_loop (fuel i len : nat) (s : bytes) (hs : strset * strset)
    : outcome (strset * strset) :=
  if window_fits i len then
    match fuel with
    | 0 => OutOfFuel
    | S fuel =>
        skip ← scan_back refLength s i;
        match skip with
        | Some j => search_loop fuel (i + j + 1) len s hs
        | None =>
            let ref := take refLength (drop i s) in
            let '(hashes, seen) := hs in
            search_loop fuel (i + 1) len s
              (if set_mem ref hashes then (set_erase ref hashes, set_insert ref seen) else hs)
        end
    end
  else Ret hs.

(** [len] is converted to [unsigned int]. *)
Definition search (s : bytes) (hs : strset * strset) : outcome (strset * strset) :=
  let len := Z.to_nat (Z.of_nat (length s) mod 2 ^ 32) in
  search_loop len 0 len s hs.

(** * [RefScanSink] *)

Record RefScanSink := mkRefScanSink {
  rss_hashSink : BufferedSink;
  rss_hashes : strset;
  rss_seen : strset;
  rss_tail : bytes
}.

(** [string(tail, tail.size() < refLength - tailLen ? 0 : ...) +
     string(data + len - tailLen, tailLen)] *)
Definition next_tail (tail data : bytes) : bytes :=
  let len := length data in
  let tailLen := if decide (len <= refLength) then len else refLength in
  drop (if decide (length tail < refLength - tailLen) then 0
        else length tail - (refLength - tailLen)) tail ++
  drop (len - tailLen) data.

Definition RefScanSink_call (k : RefScanSink) (data : bytes) : outcome RefScanSink :=
  hashSink ← sink_call (rss_hashSink k) data;
  let s := rss_tail k ++ take (if decide (refLength < length data) then refLength else length data) data in
  hs ← search s (rss_hashes k, rss_seen k);
  '(hashes, seen) ← search data hs;
  Ret (mkRefScanSink hashSink hashes seen (next_tail (rss_tail k) data)).

(** * [scanForReferences] *)

(** The loop that fills [sink.hashes] and [backMap]. *)
Definition add_ref (st : strset * list (bytes * bytes)) (ref : bytes)
    : outcome (strset * list (bytes * bytes)) :=
  let '(hashes, backMap) := st in
  baseName ← baseNameOf ref;
  match find_char "-"%byte baseName with
  | None => Throw (Error "bad reference")
  | Some pos =>
      let s := take pos baseName in
      check (bool_decide (length s = refLength)) (AssertionFailed "s.size() == refLength");;
      check (bool_decide (map_find s backMap = None)) (AssertionFailed "backMap.find(s) == backMap.end()");;
      Ret (set_insert s hashes, map_insert s ref backMap)
  end.

Definition find_back (backMap : list (bytes * bytes)) (found : strset) (s : bytes) : outcome strset :=
  match map_find s backMap with
  | None => Throw (AssertionFailed "abort")
  | Some path => Ret (set_insert path found)
  end.

Section scan.
Context `{Gcrypt}.

(** The file at [path] is [t]; [refs] is a set. *)
Definition scanForReferences (path : bytes) (t : fso) (refs : strset)
    : outcome (strset * (Hash * Z)) :=
  '(hashes, backMap) ← foldM add_ref refs ([], []);
  chunks ← dumpPath (λ _, true) path t;
  sink ← foldM RefScanSink_call chunks (mkRefScanSink (sink_new defaultBufSize) hashes [] []);
  found ← foldM (find_back backMap) (rss_seen sink) [];
  hash ← hashsink_finish htSHA256 (rss_hashSink sink);
  Ret (found, hash).
End scan.

(** * What [search] finds *)

(** [h] is a string of 32 base-32 digits that occurs in [s]. *)
Definition found (h s : bytes) : Prop :=
  length h = refLength ∧ Forall (λ c, isBase32 c = true) h ∧ ∃ i, take refLength (drop i s) = h.

#[global] Instance found_dec h s : Decision (found h s).
Proof.
  unfold found. refine (cast_if (decide (length h = refLength ∧ Forall (λ c, isBase32 c = true) h ∧
    Exists (λ i, take refLength (drop i s) = h) (seq 0 (S (length s)))))).
  - abstract (destruct_and!; split_and!; [done..|];
      match goal with H : Exists _ _ |- _ => apply Exists_exists in H as (i & _ & Hi) end; eauto).
  - abstract (intros (Hl & Hb & i & Hi); match goal with H : ¬ _ |- _ => apply H end;
      split_and!; [done..|]; apply Exists_exists; destruct (decide (i <= length s));
      [exists i; split; [apply elem_of_seq; lia|done]|];
      rewrite drop_ge in Hi by lia; subst h; done).
Defined.

Lemma scan_back_spec n s i :
  i + n <= length s →
  match scan_back n s i with
  | Ret None => ∀ j, j < n → ∃ c, s !! (i + j) = Some c ∧ isBase32 c = true
  | Ret (Some j) => j < n ∧ ∃ c, s !! (i + j) = Some c ∧ isBase32 c = false
  | _ => False
  end.
Proof.
  induction n as [|n IH]; intros Hn; cbn [scan_back]; [intros; lia|].
  destruct (lookup_lt_is_Some_2 s (i + n) ltac:(lia)) as [c Hc]. rewrite Hc.
  destruct (isBase32 c) eqn:Ec; [|by eauto].
  specialize (IH ltac:(lia)). destruct (scan_back n s i) as [[j|]| |]; [|..|done|done].
  - destruct IH as [? ?]. split; [lia|done].
  - intros j Hj. destruct (decide (j = n)) as [->|]; [eauto|]. apply IH. lia.
Qed.

(** What [search] does to the two sets when it finds the hashes in [F]. *)
Definition moves (F : bytes → Prop) (hs hs' : strset * strset) : Prop :=
  (∀ h, h ∈ hs'.1 ↔ h ∈ hs.1 ∧ ¬ F h) ∧ (∀ h, h ∈ hs'.2 ↔ h ∈ hs.2 ∨ h ∈ hs.1 ∧ F h).

Lemma moves_refl hs : moves (λ _, False) hs hs.
Proof. split; naive_solver. Qed.

Lemma moves_ext (F G : bytes → Prop) hs hs' : (∀ h, F h ↔ G h) → moves F hs hs' → moves G hs hs'.
Proof. intros HFG [H1 H2]. split; intros h; rewrite ?H1, ?H2, HFG; done. Qed.

Lemma moves_trans (F G : bytes → Prop) `{∀ h, Decision (F h)} hs hs1 hs2 :
  moves F hs hs1 → moves G hs1 hs2 → moves (λ h, F h ∨ G h) hs hs2.
Proof.
  intros [H1 H2] [H3 H4]. split; intros h; rewrite ?H3, ?H4, ?H1, ?H2; [naive_solver|].
  destruct (decide (F h)); naive_solver.
Qed.

Lemma moves_one ref (hashes seen : strset) :
  moves (.= ref) (hashes, seen)
    (if set_mem ref hashes then (set_erase ref hashes, set_insert ref seen) else (hashes, seen)).
Proof.
  destruct (set_mem ref hashes) eqn:E; split; intros h; simpl.
  - rewrite elem_of_set_erase. naive_solver.
  - apply set_mem_spec in E. rewrite elem_of_set_insert. naive_solver.
  - apply set_mem_false in E. split; [|naive_solver]. intros Hh. split; [done|]. by intros ->.
  - apply set_mem_false in E. naive_solver.
Qed.

(** [found] at an offset of at least [i]. *)
Definition found_from (i : nat) (h s : bytes) : Prop :=
  length h = refLength ∧ Forall (λ c, isBase32 c = true) h ∧
  ∃ k, i <= k ∧ take refLength (drop k s) = h.

Lemma found_from_zero h s : found_from 0 h s ↔ found h s.
Proof. unfold found_from, found. split; intros (?&?&k&?); naive_solver (eauto with lia). Qed.

(** An occurrence lies inside the buffer, and all its bytes are digits. *)
Lemma found_lookup h s k :
  length h = refLength → Forall (λ c, isBase32 c = true) h → take refLength (drop k s) = h →
  k + refLength <= length s ∧
  ∀ j, j < refLength → ∃ c, s !! (k + j) = Some c ∧ isBase32 c = true.
Proof.
  intros Hl Hb E. pose proof (f_equal length E) as Hk. rewrite length_take, length_drop, Hl in Hk.
  assert (0 < refLength) by (unfold refLength; lia). split; [lia|]. intros j Hj.
  destruct (lookup_lt_is_Some_2 h j ltac:(lia)) as [c Hc]. exists c. split.
  - rewrite <-E, lookup_take_lt, lookup_drop in Hc by done. done.
  - rewrite Forall_lookup in Hb. eauto.
Qed.

Lemma found_from_skip i j c s h :
  s !! (i + j) = Some c → isBase32 c = false → j < refLength →
  found_from (i + j + 1) h s ↔ found_from i h s.
Proof.
  intros Hc Hb Hj. split; intros (Hl & Hh & k & Hk & E); split_and!; try done.
  - exists k. split; [lia|done].
  - exists k. split; [|done]. destruct (decide (i + j + 1 <= k)); [done|]. exfalso.
    destruct (found_lookup h s k Hl Hh E) as [_ Hall].
    destruct (Hall (i + j - k) ltac:(lia)) as (d & Hd & Hd').
    replace (k + (i + j - k)) with (i + j) in Hd by lia. congruence.
Qed.

Lemma found_from_next i s h :
  (∀ j, j < refLength → ∃ c, s !! (i + j) = Some c ∧ isBase32 c = true) →
  h = take refLength (drop i s) ∨ found_from (i + 1) h s ↔ found_from i h s.
Proof.
  intros Hall. split.
  - intros [->|(Hl & Hh & k & Hk & E)]; [|split_and!; try done; exists k; split; [lia|done]].
    assert (refLength <= length (drop i s)) as Hlen.
    { destruct (Hall (refLength - 1)) as (c & Hc & _); [unfold refLength; lia|].
      apply lookup_lt_Some in Hc. rewrite length_drop. unfold refLength in *. lia. }
    split_and!; [rewrite length_take; lia| |by exists i].
    apply Forall_lookup. intros j c Hc. pose proof (lookup_lt_Some _ _ _ Hc) as Hj.
    rewrite length_take in Hj. rewrite lookup_take_lt, lookup_drop in Hc by lia.
    destruct (Hall j ltac:(lia)) as (d & Hd & Hd'). congruence.
  - intros (Hl & Hh & k & Hk & E). destruct (decide (k = i)) as [->|]; [by left|right].
    split_and!; try done. exists k. split; [lia|done].
Qed.

Lemma window_fits_spec i len :
  (Z.of_nat len < 2 ^ 32 - 64)%Z → i <= len + 32 →
  window_fits i len = true ↔ i + refLength <= len.
Proof.
  intros Hl Hi. unfold window_fits, refLength. rewrite bool_decide_eq_true.
  rewrite Z.mod_small by lia. lia.
Qed.

Lemma search_loop_spec fuel i s hs :
  (Z.of_nat (length s) < 2 ^ 32 - 64)%Z → i <= length s + 32 → length s <= fuel + i →
  ∃ hs', search_loop fuel i (length s) s hs = Ret hs' ∧ moves (λ h, found_from i h s) hs hs'.
Proof.
  intros Hl. revert i hs. induction fuel as [|fuel IH]; intros i hs Hi Hf; cbn [search_loop];
    destruct (window_fits i (length s)) eqn:Hw;
    [apply window_fits_spec in Hw; [unfold refLength in Hw; lia|done|done]| | |].
  1, 3: exists hs; split; [done|]; eapply moves_ext; [|apply moves_refl];
      intros h; split; [done|]; intros (Hh & Hb & k & Hk & E);
      destruct (found_lookup h s k Hh Hb E) as [Hkl _];
      assert (window_fits i (length s) = true) by (apply window_fits_spec; [done|done|lia]); congruence.
  apply window_fits_spec in Hw; [|done|done].
  pose proof (scan_back_spec refLength s i Hw) as Hsb.
  destruct (scan_back refLength s i) as [[j|]| |]; [|..|done|done]; cbn [mbind outcome_bind].
  - destruct Hsb as (Hj & c & Hc & Hb).
    assert (j < 32) by (unfold refLength in Hj; lia).
    destruct (IH (i + j + 1) hs) as (hs' & E & Hm); [lia|lia|].
    exists hs'. split; [done|]. eapply moves_ext; [|exact Hm]. intros h.
    by apply (found_from_skip i j c).
  - destruct hs as [hashes seen]. unfold refLength in Hw.
    pose proof (moves_one (take refLength (drop i s)) hashes seen) as Hone.
    set (hs1 := if set_mem _ hashes then _ else _) in *.
    destruct (IH (i + 1) hs1) as (hs' & E & Hm); [lia|lia|]. exists hs'. split; [exact E|].
    eapply moves_ext; [|exact (moves_trans _ _ _ _ _ Hone Hm)].
    intros h. by apply found_from_next.
Qed.

Lemma search_spec s hs :
  (Z.of_nat (length s) < 2 ^ 32 - 64)%Z →
  ∃ hs', search s hs = Ret hs' ∧ moves (λ h, found h s) hs hs'.
Proof.
  intros Hl. unfold search. rewrite Z.mod_small, Nat2Z.id by lia.
  destruct (search_loop_spec (length s) 0 s hs) as (hs' & E & Hm); [done|lia|lia|].
  exists hs'. split; [done|]. eapply moves_ext; [|done]. intros h. apply found_from_zero.
Qed.

(** * Streaming *)

Lemma next_tail_spec D data :
  next_tail (drop (length D - refLength) D) data =
    drop (length (D ++ data) - refLength) (D ++ data).
Proof.
  unfold next_tail. rewrite length_drop, length_app.
  destruct (decide (length data <= refLength)) as [Hd|Hd].
  - rewrite Nat.sub_diag, drop_0, drop_app_le by lia. f_equal.
    case_decide; rewrite ?drop_0, ?drop_drop; f_equal; lia.
  - rewrite Nat.sub_diag. rewrite decide_False by lia. rewrite Nat.sub_0_r, drop_ge; [|rewrite length_drop; lia].
    rewrite drop_app_ge by lia. simpl app. f_equal. lia.
Qed.

(** A window of the stream so far and the next chunk lies in one of the three
    buffers that are searched. *)
Lemma found_app h D data :
  found h (D ++ data) ↔
    found h D ∨ found h (drop (length D - refLength) D ++ take refLength data) ∨ found h data.
Proof.
  assert (∀ a b c : bytes, found h b → found h (a ++ b ++ c)) as Hext.
  { intros a b c (Hl & Hb & k & E). split_and!; try done. exists (length a + k).
    destruct (found_lookup h b k Hl Hb E) as [Hk _].
    rewrite drop_app_add, drop_app_le, take_app_le; [done|rewrite length_drop; lia|lia]. }
  split.
  - intros (Hl & Hb & k & E). destruct (found_lookup h _ k Hl Hb E) as [Hk _].
    rewrite length_app in Hk. destruct (decide (k + refLength <= length D)) as [H1|H1].
    { left. split_and!; try done. exists k.
      rewrite drop_app_le, take_app_le in E; [done|rewrite length_drop; lia|lia]. }
    right. destruct (decide (length D <= k)) as [H2|H2].
    { right. split_and!; try done. exists (k - length D). by rewrite drop_app_ge in E by lia. }
    left. split_and!; try done. exists (k - (length D - refLength)).
    rewrite drop_app_le in E by lia. rewrite drop_app_le by (rewrite length_drop; lia).
    rewrite drop_drop. replace (length D - refLength + (k - (length D - refLength))) with k by lia.
    rewrite take_app in E |- *. rewrite take_take, Nat.min_l; [done|rewrite length_drop; lia].
  - intros [Hf|[Hf|Hf]].
    + rewrite <-(app_nil_l (D ++ data)). by apply Hext.
    + rewrite <-(take_drop (length D - refLength) D), <-(take_drop refLength data), <-!(assoc (++)).
      rewrite (assoc (++) (drop _ D)). by apply Hext.
    + rewrite <-(app_nil_r data). by apply Hext.
Qed.

(** The state after the stream [D]. *)
Definition scan_inv (refs : strset) (D : bytes) (k : RefScanSink) : Prop :=
  rss_tail k = drop (length D - refLength) D ∧
  moves (λ h, found h D) (refs, []) (rss_hashes k, rss_seen k).

Lemma RefScanSink_call_spec refs D k data :
  (Z.of_nat (length data) < 2 ^ 32 - 64)%Z → scan_inv refs D k → sink_inv (rss_hashSink k) →
  ∃ k', RefScanSink_call k data = Ret k' ∧ scan_inv refs (D ++ data) k' ∧
        sink_call (rss_hashSink k) data = Ret (rss_hashSink k') ∧ sink_inv (rss_hashSink k').
Proof.
  intros Hd [Ht Hm] Hs. unfold RefScanSink_call.
  destruct (sink_call_spec (rss_hashSink k) data Hs) as (hs & -> & _ & _ & Hs'). cbn [mbind outcome_bind].
  assert (take (if decide (refLength < length data) then refLength else length data) data =
    take refLength data) as -> by (case_decide; [done|]; rewrite !take_ge by lia; done).
  rewrite Ht. set (s := drop _ D ++ take refLength data).
  assert (length s <= 64) as Hls.
  { unfold s. rewrite length_app, length_drop, length_take. unfold refLength. lia. }
  destruct (search_spec s (rss_hashes k, rss_seen k)) as (hs1 & -> & Hm1); [lia|]. cbn [mbind outcome_bind].
  destruct (search_spec data hs1) as ([hashes seen] & -> & Hm2); [done|]. cbn [mbind outcome_bind].
  eexists. split_and!; [done| |done|done]. split; cbn [rss_tail rss_hashes rss_seen].
  - apply next_tail_spec.
  - pose proof (moves_trans _ _ _ _ _ Hm1 Hm2) as Hm12.
    pose proof (moves_trans _ _ _ _ _ Hm Hm12) as Hall. eapply moves_ext; [|exact Hall].
    intros h. rewrite found_app. done.
Qed.

Lemma RefScanSink_run refs chunks D k :
  Forall (λ c, Z.of_nat (length c) < 2 ^ 32 - 64)%Z chunks →
  scan_inv refs D k → sink_inv (rss_hashSink k) →
  ∃ k', foldM RefScanSink_call chunks k = Ret k' ∧ scan_inv refs (D ++ wire chunks) k' ∧
        foldM sink_call chunks (rss_hashSink k) = Ret (rss_hashSink k').
Proof.
  intros Hc. revert D k. induction Hc as [|c chunks Hc _ IH]; intros D k Hk Hs; cbn [foldM].
  - exists k. by rewrite app_nil_r.
  - destruct (RefScanSink_call_spec refs D k c Hc Hk Hs) as (k1 & -> & Hk1 & -> & Hs1).
    cbn [mbind outcome_bind]. rewrite mjoin_cons, app_assoc. by apply IH.
Qed.

(** * The hash parts of the candidate references *)

Definition ref_hash (ref : bytes) : option bytes :=
  match baseNameOf ref with
  | Ret baseName => (λ pos, take pos baseName) <$> find_char "-"%byte baseName
  | _ => None
  end.

(** Candidates with 32-character hash parts, all different. *)
Definition refs_ok (refs : strset) : Prop :=
  (∀ r, r ∈ refs → ∃ h, ref_hash r = Some h ∧ length h = refLength) ∧
  (∀ r r', r ∈ refs → r' ∈ refs → ref_hash r = ref_hash r' → r = r') ∧ NoDup refs.

Definition refs_inv (done : strset) (st : strset * list (bytes * bytes)) : Prop :=
  (∀ h, h ∈ st.1 ↔ ∃ r, r ∈ done ∧ ref_hash r = Some h) ∧
  (∀ h r, map_find h st.2 = Some r ↔ r ∈ done ∧ ref_hash r = Some h).

Lemma add_ref_spec done r st h :
  refs_inv done st → ref_hash r = Some h → length h = refLength →
  (∀ r', r' ∈ done → ref_hash r' ≠ Some h) →
  ∃ st', add_ref st r = Ret st' ∧ refs_inv (done ++ [r]) st'.
Proof.
  destruct st as [hashes backMap]. intros [Hh Hm] Hr Hl Hnew. cbn [fst snd] in *.
  unfold add_ref. pose proof Hr as Hr'. unfold ref_hash in Hr'.
  destruct (baseNameOf r) as [b| |] eqn:Eb; [|done..].
  cbn [mbind outcome_bind]. apply fmap_Some in Hr' as (pos & -> & E). cbv zeta. rewrite <-E.
  rewrite (bool_decide_eq_true_2 (length h = refLength)) by done. cbn [check mbind outcome_bind].
  assert (map_find h backMap = None) as Hnone.
  { destruct (map_find h backMap) as [r'|] eqn:F; [|done]. apply Hm in F as [Hr' F]. by apply Hnew in Hr'. }
  rewrite bool_decide_eq_true_2 by done. cbn [check mbind outcome_bind].
  eexists. split; [done|]. split; cbn [fst snd].
  - intros h'. rewrite elem_of_set_insert, Hh. set_unfold. naive_solver.
  - intros h' r'. rewrite map_find_insert. case_decide; subst; rewrite ?Hm; set_unfold; naive_solver.
Qed.

Lemma add_refs_spec refs done st :
  refs_inv done st → refs_ok (done ++ refs) →
  ∃ st', foldM add_ref refs st = Ret st' ∧ refs_inv (done ++ refs) st'.
Proof.
  revert done st. induction refs as [|r refs IH]; intros done st Hst (Hh & Hinj & Hnd); cbn [foldM].
  { exists st. by rewrite app_nil_r. }
  destruct (Hh r) as (h & Hr & Hl); [set_solver|].
  destruct (add_ref_spec done r st h Hst Hr Hl) as (st1 & -> & Hst1).
  - intros r' Hr' E. assert (r' = r) as -> by (apply Hinj; [set_solver|set_solver|congruence]).
    apply NoDup_app in Hnd as (_ & Hnd & _). by apply (Hnd r Hr'), list_elem_of_here.
  - cbn [mbind outcome_bind]. replace (done ++ r :: refs) with ((done ++ [r]) ++ refs) in *
      by (by rewrite <-app_assoc). by apply IH.
Qed.

Lemma find_back_spec backMap ss fnd :
  (∀ h, h ∈ ss → is_Some (map_find h backMap)) → set_wf fnd →
  ∃ fnd', foldM (find_back backMap) ss fnd = Ret fnd' ∧ set_wf fnd' ∧
    ∀ r, r ∈ fnd' ↔ r ∈ fnd ∨ ∃ h, h ∈ ss ∧ map_find h backMap = Some r.
Proof.
  revert fnd. induction ss as [|h ss IH]; intros fnd Hss Hwf; cbn [foldM].
  { exists fnd. split_and!; [done|done|]. set_solver. }
  destruct (Hss h (list_elem_of_here _ _)) as [r Hr]. 
  assert (find_back backMap fnd h = Ret (set_insert r fnd)) as -> by (unfold find_back; by rewrite Hr).
  cbn [mbind outcome_bind]. destruct (IH (set_insert r fnd)) as (fnd' & E & Hwf' & Hf');
    [by intros; apply Hss; right|by apply set_insert_wf|].
  exists fnd'. split_and!; [done|done|]. intros r'. rewrite Hf', elem_of_set_insert. set_unfold.
  naive_solver.
Qed.

Lemma scan_init hashes :
  scan_inv hashes [] (mkRefScanSink (sink_new defaultBufSize) hashes [] []).
Proof.
  split; [done|]. cbn [rss_hashes rss_seen]. eapply moves_ext; [|apply moves_refl].
  intros h. split; [done|]. intros (Hl & _ & i & <-). rewrite drop_nil, take_nil in Hl. done.
Qed.

(** * Properties *)

(** C14: The reference scan is exact. Whatever the chunks a stream arrives in (each
    shorter than 2^32 - 64 bytes), after the last one [RefScanSink] has seen
    exactly those of the wanted hash parts that occur somewhere in the
    stream, also across chunk boundaries, as runs of 32 base-32 digits, and the
    skipping search never reads outside a buffer. *)
Theorem scan_is_substring_search hashes chunks :
  Forall (λ c, Z.of_nat (length c) < 2 ^ 32 - 64)%Z chunks →
  ∃ k, foldM RefScanSink_call chunks (mkRefScanSink (sink_new defaultBufSize) hashes [] []) = Ret k ∧
    (∀ h, h ∈ rss_seen k ↔ h ∈ hashes ∧ found h (wire chunks)) ∧
    (∀ h, h ∈ rss_hashes k ↔ h ∈ hashes ∧ ¬ found h (wire chunks)).
Proof.
  intros Hc. destruct (RefScanSink_run hashes chunks [] _ Hc (scan_init hashes) (sink_new_inv _))
    as (k & E & (_ & Hm1 & Hm2) & _).
  exists k. split_and!; [done| |]; intros h; cbn [fst snd app] in *; [rewrite Hm2|rewrite Hm1];
    set_solver.
Qed.

(** C33: [scanForReferences] returns exactly the candidate references whose hash
    part occurs in the archive of the path, with the SHA-256 digest and the
    size of that archive; it throws nothing when the candidates have distinct
    32-character hash parts. *)
Theorem scanForReferences_exact `{GcryptLaws} path t refs chunks :
  refs_ok refs → dumpPath (λ _, true) path t = Ret chunks →
  Forall (λ c, Z.of_nat (length c) < 2 ^ 32 - 64)%Z chunks →
  ∃ fnd hash, scanForReferences path t refs =
      Ret (fnd, (hash, Z.of_nat (length (wire chunks)) mod 2 ^ 64)%Z) ∧
    set_wf fnd ∧
    (∀ r, r ∈ fnd ↔ r ∈ refs ∧ ∃ h, ref_hash r = Some h ∧ found h (wire chunks)) ∧
    digest hash = gcry_digest htSHA256 (wire chunks).
Proof.
  intros Hrefs Hdump Hc. unfold scanForReferences.
  destruct (add_refs_spec refs [] ([], [])) as ([hashes backMap] & -> & Hh & Hm); [|done|].
  { split; set_solver. }
  cbn [mbind outcome_bind fst snd app] in *. rewrite Hdump. cbn [mbind outcome_bind].
  destruct (RefScanSink_run hashes chunks [] _ Hc (scan_init hashes) (sink_new_inv _))
    as (k & -> & (_ & _ & Hseen) & Hsink). cbn [mbind outcome_bind fst snd app rss_hashSink] in *.
  destruct (find_back_spec backMap (rss_seen k) []) as (fnd & -> & Hwf & Hfnd); [|constructor|].
  { intros h [?|[(r & Hr & E)%Hh _]]%Hseen; [set_solver|]. exists r. by apply Hm. }
  cbn [mbind outcome_bind].
  destruct (hashsink_run_ok htSHA256 chunks) as (hash & E & _ & _ & _ & Hd); [done| |].
  { eapply Forall_impl; [exact Hc|]. intros c ?. cbv beta in *. lia. }
  unfold hashsink_run in E. rewrite Hsink in E. cbn [mbind outcome_bind] in E. rewrite E.
  cbn [mbind outcome_bind]. exists fnd, hash. split_and!; [done|done| |done].
  intros r. rewrite Hfnd. setoid_rewrite Hseen. setoid_rewrite Hm. setoid_rewrite Hh. set_solver.
Qed.

(** ** Witnesses *)

Definition ref_a : bytes := str "0123456789abcdfghijklmnpqrsvwxyz".
Definition ref_b : bytes := str "zyxwvsrqpnmlkjihgfdcba9876543210".

Lemma scan_is_substring_search_witness :
  let chunks := [str "see /gnu/store/0123456789abcdfgh"; str "ijklmnpqrsvwxyz-hello"] in
  ∃ k, foldM RefScanSink_call chunks (mkRefScanSink (sink_new defaultBufSize) [ref_a; ref_b] [] []) = Ret k ∧
    (∀ h, h ∈ rss_seen k ↔ h ∈ [ref_a; ref_b] ∧ found h (wire chunks)) ∧
    (∀ h, h ∈ rss_hashes k ↔ h ∈ [ref_a; ref_b] ∧ ¬ found h (wire chunks)).
Proof.
  intros chunks. apply (scan_is_substring_search [ref_a; ref_b] chunks).
  by repeat constructor.
Defined.

(** A reference that spans two chunks is seen. *)
Example scan_runs :
  rss_seen <$> foldM RefScanSink_call
    [str "see /gnu/store/0123456789abcdfgh"; str "ijklmnpqrsvwxyz-hello"]
    (mkRefScanSink (sink_new 10) [ref_a; ref_b] [] []) = Ret [ref_a].
Proof. vm_compute. reflexivity. Qed.

Definition sample_refs : strset :=
  [str "/gnu/store/" ++ ref_a ++ str "-a"; str "/gnu/store/" ++ ref_b ++ str "-b"].

Lemma sample_refs_ok : refs_ok sample_refs.
Proof.
  unfold refs_ok, sample_refs. split_and!.
  - intros r Hr. rewrite !elem_of_cons in Hr. destruct Hr as [->|[->|Hr]]; [| |set_solver];
      eexists; split; vm_compute; reflexivity.
  - intros r r' Hr Hr'. rewrite !elem_of_cons in Hr, Hr'.
    destruct Hr as [->|[->|Hr]], Hr' as [->|[->|Hr']]; try set_solver;
      intros E; vm_compute in E; done.
  - concrete.
Qed.

Lemma scanForReferences_exact_witness :
  ∃ fnd hash,
    @scanForReferences toy_gcrypt (str "/t") (Symlink (str "/gnu/store/" ++ ref_b)) sample_refs =
      Ret (fnd, (hash, 160 mod 2 ^ 64)%Z) ∧
    set_wf fnd ∧
    (∀ r, r ∈ fnd ↔ r ∈ sample_refs ∧ ∃ h, ref_hash r = Some h ∧
       found h (wire (writeString archiveVersion1 ++ nar (Symlink (str "/gnu/store/" ++ ref_b))))) ∧
    digest hash = @gcry_digest toy_gcrypt htSHA256
      (wire (writeString archiveVersion1 ++ nar (Symlink (str "/gnu/store/" ++ ref_b)))).
Proof.
  apply (@scanForReferences_exact toy_gcrypt toy_gcrypt_laws (str "/t")
    (Symlink (str "/gnu/store/" ++ ref_b)) sample_refs
    (writeString archiveVersion1 ++ nar (Symlink (str "/gnu/store/" ++ ref_b)))).
  - exact sample_refs_ok.
  - reflexivity.
  - by repeat constructor.
Defined.
