(* ===== verification/Derivations.v ===== *)
(** libstore/derivations.{hh,cc}: derivations, their ATerm text, and the hash
    modulo fixed-output derivations.

    Also the input functions of libutil/util.cc the ATerm parser uses. An
    [std::istream] on a string is the bytes left to read; at the end [get] and
    [peek] return EOF. *)

From S2P Require Import Prelude Containers Serialise Hash Paths StorePaths.

(** * Abstract syntax *)

Record DerivationOutput := mkDerivationOutput {
  do_path : bytes;
  do_hashAlgo : bytes;
  do_hash : bytes
}.

#[global] Instance DerivationOutput_eq_dec : EqDecision DerivationOutput.
Proof. solve_decision. Defined.

Abbreviation DerivationOutputs := (list (bytes * DerivationOutput)).
Abbreviation DerivationInputs := (list (bytes * strset)).
Abbreviation StringPairs := (list (bytes * bytes)).

Record Derivation := mkDerivation {
  outputs : DerivationOutputs;
  inputDrvs : DerivationInputs;
  inputSrcs : strset;
  platform : bytes;
  builder : bytes;
  args : list bytes;
  env : StringPairs
}.

#[global] Instance Derivation_eq_dec : EqDecision Derivation.
Proof. solve_decision. Defined.

Definition drvExtension : bytes := str ".drv".

(** * Reading *)

Abbreviation istream := bytes.

(** [expect]: the buffer is compared whole, so after a short read bytes that
    were never written are looked at. *)
Definition expect (lit : bytes) (s : istream) : outcome istream :=
  if decide (length s < length lit) then Throw (Undefined "expect: uninitialised buffer")
  else if decide (take (length lit) s = lit) then Ret (drop (length lit) s)
  else Throw (FormatError "expected string").

(** [str.get()]; EOF is none. *)
Definition get (s : istream) : option byte * istream :=
  match s with
  | [] => (None, [])
  | c :: s => (Some c, s)
  end.

(** [res += c] with [c] an [int]: EOF (-1) appends the byte 0xff. *)
Definition push (res : bytes) (c : option byte) : bytes := res ++ [default Byte.xff c].

Definition dquote : byte := Byte.x22.
Definition backslash : byte := Byte.x5c.

Fixpoint parseString_loop (fuel : nat) (res : bytes) (s : istream) : outcome (bytes * istream) :=
  match fuel with
  | 0 => OutOfFuel
  | S fuel =>
      let '(c, s) := get s in
      if decide (c = Some dquote) then Ret (res, s)
      else if decide (c = Some backslash) then
        let '(c, s) := get s in
        if decide (c = Some "n"%byte) then parseString_loop fuel (res ++ [Byte.x0a]) s
        else if decide (c = Some "r"%byte) then parseString_loop fuel (res ++ [Byte.x0d]) s
        else if decide (c = Some "t"%byte) then parseString_loop fuel (res ++ [Byte.x09]) s
        else parseString_loop fuel (push res c) s
      else parseString_loop fuel (push res c) s
  end.

Definition parseString (fuel : nat) (s : istream) : outcome (bytes * istream) :=
  s ← expect [dquote] s;
  parseString_loop fuel [] s.

Definition endOfList (s : istream) : bool * istream :=
  match s with
  | c :: s' =>
      if decide (c = ","%byte) then (false, s')
      else if decide (c = "]"%byte) then (true, s')
      else (false, s)
  | [] => (false, [])
  end.

Definition parsePath (fuel : nat) (s : istream) : outcome (bytes * istream) :=
  '(p, s) ← parseString fuel s;
  if decide (length p = 0 ∨ p !! 0 ≠ Some "/"%byte) then Throw (FormatError "bad path in derivation")
  else Ret (p, s).

(** [while (!endOfList(str)) body]: one round per unit of fuel. *)
Fixpoint list_loop {A} (fuel : nat) (body : A → istream → outcome (A * istream)) (acc : A)
    (s : istream) : outcome (A * istream) :=
  match fuel with
  | 0 => OutOfFuel
  | S fuel =>
      let '(e, s) := endOfList s in
      if e then Ret (acc, s)
      else
        '(acc, s) ← body acc s;
        list_loop fuel body acc s
  end.

Definition parseStrings (fuel : nat) (arePaths : bool) (s : istream) : outcome (strset * istream) :=
  list_loop fuel (λ res s,
    '(x, s) ← (if arePaths then parsePath fuel s else parseString fuel s);
    Ret (set_insert x res, s)) [] s.

(** The bodies of the loops of [parseDerivation]. *)
Definition parse_output (fuel : nat) (outs : DerivationOutputs) (s : istream)
    : outcome (DerivationOutputs * istream) :=
  s ← expect (str "(") s; '(id, s) ← parseString fuel s;
  s ← expect (str ",") s; '(path, s) ← parsePath fuel s;
  s ← expect (str ",") s; '(hashAlgo, s) ← parseString fuel s;
  s ← expect (str ",") s; '(hash, s) ← parseString fuel s;
  s ← expect (str ")") s;
  Ret (map_insert id (mkDerivationOutput path hashAlgo hash) outs, s).

Definition parse_inputDrv (fuel : nat) (inputs : DerivationInputs) (s : istream)
    : outcome (DerivationInputs * istream) :=
  s ← expect (str "(") s;
  '(drvPath, s) ← parsePath fuel s;
  s ← expect (str ",[") s;
  '(ids, s) ← parseStrings fuel false s;
  s ← expect (str ")") s;
  Ret (map_insert drvPath ids inputs, s).

Definition parse_arg (fuel : nat) (args : list bytes) (s : istream) : outcome (list bytes * istream) :=
  '(x, s) ← parseString fuel s; Ret (args ++ [x], s).

Definition parse_env (fuel : nat) (env : StringPairs) (s : istream) : outcome (StringPairs * istream) :=
  s ← expect (str "(") s; '(name, s) ← parseString fuel s;
  s ← expect (str ",") s; '(value, s) ← parseString fuel s;
  s ← expect (str ")") s;
  Ret (map_insert name value env, s).

Definition parseDerivation_fuel (fuel : nat) (s : istream) : outcome Derivation :=
  s ← expect (str "Derive([") s;
  '(outputs, s) ← list_loop fuel (parse_output fuel) [] s;
  s ← expect (str ",[") s;
  '(inputDrvs, s) ← list_loop fuel (parse_inputDrv fuel) [] s;
  s ← expect (str ",[") s; '(inputSrcs, s) ← parseStrings fuel true s;
  s ← expect (str ",") s; '(platform, s) ← parseString fuel s;
  s ← expect (str ",") s; '(builder, s) ← parseString fuel s;
  s ← expect (str ",[") s;
  '(args, s) ← list_loop fuel (parse_arg fuel) [] s;
  s ← expect (str ",[") s;
  '(env, s) ← list_loop fuel (parse_env fuel) [] s;
  s ← expect (str ")") s;
  Ret (mkDerivation outputs inputDrvs inputSrcs platform builder args env).

(** One unit of fuel per byte is enough for every loop that ends. *)
Definition parseDerivation (s : bytes) : outcome Derivation :=
  parseDerivation_fuel (S (length s)) s.

(** * Writing *)

(** [for (i = s.c_str(); *i; i++)] stops at the first NUL. *)
Fixpoint printString_loop (s : bytes) : bytes :=
  match s with
  | [] => []
  | c :: s =>
      if decide (c = Byte.x00) then []
      else if decide (c = dquote ∨ c = backslash) then backslash :: c :: printString_loop s
      else if decide (c = Byte.x0a) then backslash :: "n"%byte :: printString_loop s
      else if decide (c = Byte.x0d) then backslash :: "r"%byte :: printString_loop s
      else if decide (c = Byte.x09) then backslash :: "t"%byte :: printString_loop s
      else c :: printString_loop s
  end.

Definition printString (s : bytes) : bytes := [dquote] ++ printString_loop s ++ [dquote].

(** A loop with a [first] flag that writes a comma between the items. *)
Fixpoint print_items {A} (item : A → bytes) (first : bool) (l : list A) : bytes :=
  match l with
  | [] => []
  | x :: l => (if first then [] else str ",") ++ item x ++ print_items item false l
  end.

Definition printStrings (l : list bytes) : bytes :=
  str "[" ++ print_items printString true l ++ str "]".

Definition print_output (i : bytes * DerivationOutput) : bytes :=
  str "(" ++ printString i.1 ++ str "," ++ printString (do_path i.2) ++
  str "," ++ printString (do_hashAlgo i.2) ++ str "," ++ printString (do_hash i.2) ++ str ")".

Definition print_inputDrv (i : bytes * strset) : bytes :=
  str "(" ++ printString i.1 ++ str "," ++ printStrings i.2 ++ str ")".

Definition print_env (i : bytes * bytes) : bytes :=
  str "(" ++ printString i.1 ++ str "," ++ printString i.2 ++ str ")".

Definition unparseDerivation (drv : Derivation) : bytes :=
  str "Derive([" ++ print_items print_output true (outputs drv) ++
  str "],[" ++ print_items print_inputDrv true (inputDrvs drv) ++
  str "]," ++ printStrings (inputSrcs drv) ++
  str "," ++ printString (platform drv) ++
  str "," ++ printString (builder drv) ++
  str "," ++ printStrings (args drv) ++
  str ",[" ++ print_items print_env true (env drv) ++ str "])".

(** * Small functions *)

Definition isDerivation (fileName : bytes) : bool := hasSuffix fileName drvExtension.

Definition isFixedOutputDrv (drv : Derivation) : bool :=
  match outputs drv with
  | [(id, out)] => bool_decide (id = str "out") && negb (bool_decide (do_hash out = []))
  | _ => false
  end.

Definition parseDrvPathWithOutputs (s : bytes) : outcome (bytes * strset) :=
  match find_char "!"%byte s with
  | None => Ret (s, [])
  | Some n =>
      toks ← tokenizeString (drop (n + 1) s) (str ",");
      Ret (take n s, set_of_list toks)
  end.

Definition makeDrvPathWithOutputs (drvPath : bytes) (outputs : strset) : bytes :=
  if bool_decide (outputs = []) then drvPath
  else drvPath ++ str "!" ++ concatStringsSep (str ",") outputs.

Definition wantOutput (output : bytes) (wanted : strset) : bool :=
  bool_decide (wanted = []) || set_mem output wanted.

Definition outputPaths (drv : Derivation) : strset :=
  foldl (λ paths i, set_insert (do_path i.2) paths) [] (outputs drv).

Section gcrypt.
Context `{Gcrypt}.

(** [DerivationOutput::parseHashInfo] *)
Definition parseHashInfo (out : DerivationOutput) : outcome (bool * HashType * Hash) :=
  let algo := do_hashAlgo out in
  let recursive := bool_decide (take 2 algo = str "r:") in
  let algo := if recursive then drop 2 algo else algo in
  let hashType := parseHashType algo in
  check (negb (bool_decide (hashType = htUnknown))) (Error "unknown hash algorithm");;
  h ← parseHash hashType (do_hash out);
  Ret (recursive, hashType, h).

(** [writeDerivation]: the references are the input sources and derivations;
    [addTextToStore] is the store's. *)
Definition drv_references (drv : Derivation) : strset :=
  set_insert_all (inputDrvs drv).*1 (set_insert_all (inputSrcs drv) []).

Definition writeDerivation (nixStore : bytes) (readOnlyMode : bool)
    (addTextToStore : bytes → bytes → strset → outcome bytes)
    (drv : Derivation) (name : bytes) : outcome bytes :=
  let references := drv_references drv in
  let suffix := name ++ drvExtension in
  let contents := unparseDerivation drv in
  if readOnlyMode then computeStorePathForText nixStore suffix contents references
  else addTextToStore suffix contents references.

(** ** The hash modulo fixed-output derivations

    [drvHashes] is the memo table; an entry made by [operator []] has type
    [htUnknown]. *)
Variable isValidPath : bytes → bool.
Variable readFile : bytes → outcome bytes.

Definition readDerivation (drvPath : bytes) : outcome Derivation :=
  s ← readFile drvPath;
  match parseDerivation s with
  | Throw (FormatError _) => Throw (Error "error parsing derivation")
  | r => r
  end.

Abbreviation DrvHashes := (list (bytes * Hash)).

Definition fixed_fingerprint (out : DerivationOutput) : bytes :=
  str "fixed:out:" ++ do_hashAlgo out ++ str ":" ++ do_hash out ++ str ":" ++ do_path out.

(** The body of the loop over the inputs; [rec] is the recursive call. *)
Definition hash_input (rec : DrvHashes → Derivation → outcome (Hash * DrvHashes))
    (st : DerivationInputs * DrvHashes) (i : bytes * strset)
    : outcome (DerivationInputs * DrvHashes) :=
  let '(inputs2, drvHashes) := st in
  let h := default Hash_default (map_find i.1 drvHashes) in
  let drvHashes := map_insert i.1 h drvHashes in
  '(h, drvHashes) ←
    (if decide (hash_type h = htUnknown) then
       check (isValidPath i.1) (AssertionFailed "store.isValidPath(i->first)");;
       drv2 ← readDerivation i.1;
       '(h, drvHashes) ← rec drvHashes drv2;
       Ret (h, map_insert i.1 h drvHashes)
     else Ret (h, drvHashes));
  hex ← printHash h;
  Ret (map_insert hex i.2 inputs2, drvHashes).

(** [drv.inputDrvs = inputs2] *)
Definition with_inputDrvs (drv : Derivation) (inputs2 : DerivationInputs) : Derivation :=
  mkDerivation (outputs drv) inputs2 (inputSrcs drv) (platform drv) (builder drv)
    (args drv) (env drv).

Fixpoint hashDerivationModulo (fuel : nat) (drvHashes : DrvHashes) (drv : Derivation)
    : outcome (Hash * DrvHashes) :=
  match fuel with
  | 0 => OutOfFuel
  | S fuel =>
      match isFixedOutputDrv drv, outputs drv with
      | true, (_, out) :: _ =>
          h ← hashString htSHA256 (fixed_fingerprint out); Ret (h, drvHashes)
      | _, _ =>
          '(inputs2, drvHashes) ←
            foldM (hash_input (hashDerivationModulo fuel)) (inputDrvs drv) ([], drvHashes);
          h ← hashString htSHA256 (unparseDerivation (with_inputDrvs drv inputs2));
          Ret (h, drvHashes)
      end
  end.
End gcrypt.

(** * Printed derivations are read back *)

Definition path_ok (s : bytes) : Prop := nul_free s ∧ s !! 0 = Some "/"%byte.

(** What the text format can represent: sorted containers, no NUL, absolute
    paths where paths are expected. *)
Record drv_ok (drv : Derivation) : Prop := {
  ok_outputs : map_wf (outputs drv);
  ok_output i : i ∈ outputs drv →
    nul_free i.1 ∧ path_ok (do_path i.2) ∧ nul_free (do_hashAlgo i.2) ∧ nul_free (do_hash i.2);
  ok_inputDrvs : map_wf (inputDrvs drv);
  ok_inputDrv i : i ∈ inputDrvs drv → path_ok i.1 ∧ set_wf i.2 ∧ Forall nul_free i.2;
  ok_inputSrcs : set_wf (inputSrcs drv);
  ok_inputSrc p : p ∈ inputSrcs drv → path_ok p;
  ok_platform : nul_free (platform drv);
  ok_builder : nul_free (builder drv);
  ok_args : Forall nul_free (args drv);
  ok_env : map_wf (env drv);
  ok_env_pair i : i ∈ env drv → nul_free i.1 ∧ nul_free i.2
}.

Lemma expect_app lit rest : expect lit (lit ++ rest) = Ret rest.
Proof.
  unfold expect. rewrite decide_False by (rewrite length_app; lia).
  by rewrite take_app_length, decide_True, drop_app_length.
Qed.

Lemma parseString_loop_printed s fuel res rest :
  nul_free s → length (printString_loop s) < fuel →
  parseString_loop fuel res (printString_loop s ++ [dquote] ++ rest) = Ret (res ++ s, rest).
Proof.
  revert fuel res. induction s as [|c s IH]; intros fuel res Hs Hf.
  { destruct fuel as [|fuel]; [simpl in Hf; lia|]. simpl. by rewrite app_nil_r. }
  cbn [printString_loop] in *. apply not_elem_of_cons in Hs as [Hc Hs].
  rewrite decide_False in Hf |- * by done.
  replace (res ++ c :: s) with ((res ++ [c]) ++ s) by (by rewrite <-(assoc (++))).
  destruct fuel as [|fuel]; [lia|].
  destruct (decide (c = dquote ∨ c = backslash)) as [Hq|Hq].
  { cbn [app length parseString_loop get] in *. rewrite (decide_False (P := _ = Some dquote)) by done.
    rewrite (decide_True (P := Some backslash = Some backslash)) by done.
    destruct Hq as [->| ->]; apply (IH fuel (res ++ _) Hs); lia. }
  destruct (decide (c = Byte.x0a)) as [->|Hn];
    [cbn [app length parseString_loop get] in *; apply (IH fuel _ Hs); lia|].
  destruct (decide (c = Byte.x0d)) as [->|Hr];
    [cbn [app length parseString_loop get] in *; apply (IH fuel _ Hs); lia|].
  destruct (decide (c = Byte.x09)) as [->|Ht];
    [cbn [app length parseString_loop get] in *; apply (IH fuel _ Hs); lia|].
  cbn [app length parseString_loop get] in *.
  rewrite decide_False by (intros [= ->]; apply Hq; by left).
  rewrite decide_False by (intros [= ->]; apply Hq; by right). apply (IH fuel _ Hs). lia.
Qed.

Lemma length_printString s : length (printString s) = S (S (length (printString_loop s))).
Proof. unfold printString. rewrite !length_app. simpl. lia. Qed.

Lemma parseString_printed s fuel rest :
  nul_free s → length (printString s) <= fuel → parseString fuel (printString s ++ rest) = Ret (s, rest).
Proof.
  intros Hs Hf. rewrite length_printString in Hf. unfold parseString, printString.
  rewrite <-!(assoc (++)), expect_app. cbn [mbind outcome_bind].
  by rewrite parseString_loop_printed by (done || lia).
Qed.

Lemma parsePath_printed p fuel rest :
  path_ok p → length (printString p) <= fuel → parsePath fuel (printString p ++ rest) = Ret (p, rest).
Proof.
  intros [Hn Hp] Hf. unfold parsePath. rewrite parseString_printed by done. cbn [mbind outcome_bind].
  rewrite decide_False; [done|]. destruct p; naive_solver.
Qed.

(** An item does not look like the end of a list. *)
Definition starts_item (x : bytes) : Prop := ∃ c r, x = c :: r ∧ c ≠ ","%byte ∧ c ≠ "]"%byte.

Lemma endOfList_item x rest : starts_item x → endOfList (x ++ rest) = (false, x ++ rest).
Proof. intros (c & r & -> & Hc & Hb). simpl. by rewrite !decide_False. Qed.

Lemma list_loop_printed {A B} (item : A → bytes) (ins : A → B → B)
    (body : B → istream → outcome (B * istream)) (F : nat) first l fuel acc rest :
  (∀ x, x ∈ l → starts_item (item x)) →
  (∀ x acc rest, x ∈ l → length (item x) <= F → body acc (item x ++ rest) = Ret (ins x acc, rest)) →
  length l < fuel → length (print_items item first l) <= F →
  list_loop fuel body acc (print_items item first l ++ str "]" ++ rest) =
    Ret (foldl (λ acc x, ins x acc) acc l, rest).
Proof.
  intros Hst Hbody. revert first fuel acc. induction l as [|x l IH]; intros first fuel acc Hf HF;
    (destruct fuel as [|fuel]; [simpl in Hf; lia|]).
  { done. }
  cbn [print_items list_loop foldl length] in *. rewrite !length_app in HF.
  assert (endOfList (((if first then [] else str ",") ++ item x ++ print_items item false l) ++
    str "]" ++ rest) = (false, item x ++ print_items item false l ++ str "]" ++ rest)) as ->.
  { rewrite <-!(assoc (++)). destruct first; [|done].
    cbn [app]. apply endOfList_item, Hst. by left. }
  rewrite Hbody by (by left || lia). cbn [mbind outcome_bind].
  apply IH; [intros; apply Hst; by right|intros; apply Hbody; [by right|done]|lia|lia].
Qed.

Lemma starts_item_cons c r : c ≠ ","%byte → c ≠ "]"%byte → starts_item (c :: r).
Proof. intros. by exists c, r. Qed.

Lemma length_print_items {A} (item : A → bytes) first l :
  (∀ x, x ∈ l → starts_item (item x)) → length l <= length (print_items item first l).
Proof.
  revert first. induction l as [|x l IH]; intros first Hst; simpl; [lia|].
  rewrite !length_app. destruct (Hst x) as (c & r & -> & _); [by left|].
  specialize (IH false). assert (length l <= length (print_items item false l)) by
    (apply IH; intros; apply Hst; by right). simpl. lia.
Qed.

Lemma parseStrings_printed arePaths l fuel rest :
  set_wf l → (∀ x, x ∈ l → if arePaths : bool then path_ok x else nul_free x) →
  length (printStrings l) <= fuel →
  parseStrings fuel arePaths (print_items printString true l ++ str "]" ++ rest) = Ret (l, rest).
Proof.
  intros Hwf Hok Hf. unfold parseStrings, printStrings in *. rewrite !length_app in Hf.
  assert (∀ x, x ∈ l → starts_item (printString x)) as Hst by (intros; by apply starts_item_cons).
  pose proof (length_print_items printString true l Hst).
  rewrite (list_loop_printed printString set_insert _ fuel).
  - f_equal. f_equal. exact (set_of_list_sorted l Hwf).
  - done.
  - intros x acc r Hx Hl. specialize (Hok x Hx). destruct arePaths.
    + by rewrite parsePath_printed.
    + by rewrite parseString_printed.
  - simpl in *. lia.
  - lia.
Qed.

(** ** The items of the lists *)

(** Read the next literal or printed string of a goal about a parser. *)
Local Ltac read_next :=
  repeat first
    [ rewrite <-(assoc (++))
    | rewrite expect_app; cbn [mbind outcome_bind]
    | rewrite parseString_printed by (done || lia); cbn [mbind outcome_bind]
    | rewrite parsePath_printed by (done || lia); cbn [mbind outcome_bind] ].

Lemma parse_output_printed fuel acc i rest :
  nul_free i.1 → path_ok (do_path i.2) → nul_free (do_hashAlgo i.2) → nul_free (do_hash i.2) →
  length (print_output i) <= fuel →
  parse_output fuel acc (print_output i ++ rest) = Ret (map_insert i.1 i.2 acc, rest).
Proof.
  destruct i as [id [path algo hash]]. cbn [fst snd do_path do_hashAlgo do_hash].
  unfold print_output, parse_output. cbn [fst snd do_path do_hashAlgo do_hash].
  intros H1 H2 H3 H4 Hf. rewrite !length_app in Hf. by read_next.
Qed.

Lemma parse_env_printed fuel acc i rest :
  nul_free i.1 → nul_free i.2 → length (print_env i) <= fuel →
  parse_env fuel acc (print_env i ++ rest) = Ret (map_insert i.1 i.2 acc, rest).
Proof.
  destruct i as [name value]. unfold print_env, parse_env. cbn [fst snd].
  intros H1 H2 Hf. rewrite !length_app in Hf. by read_next.
Qed.

Lemma parse_inputDrv_printed fuel acc i rest :
  path_ok i.1 → set_wf i.2 → Forall nul_free i.2 → length (print_inputDrv i) <= fuel →
  parse_inputDrv fuel acc (print_inputDrv i ++ rest) = Ret (map_insert i.1 i.2 acc, rest).
Proof.
  destruct i as [p ids]. unfold print_inputDrv, parse_inputDrv. cbn [fst snd].
  intros H1 H2 H3 Hf. rewrite !length_app in Hf. rewrite Forall_forall in H3.
  unfold printStrings at 1. read_next.
  rewrite (assoc (++) (str ",") (str "[")). change (str "," ++ str "[") with (str ",["). read_next.
  rewrite parseStrings_printed by (done || lia). cbn [mbind outcome_bind]. by read_next.
Qed.

(** A printed list, for each of the item kinds. *)
Lemma outputs_printed fuel l rest :
  map_wf l →
  (∀ i, i ∈ l → nul_free i.1 ∧ path_ok (do_path i.2) ∧ nul_free (do_hashAlgo i.2) ∧ nul_free (do_hash i.2)) →
  length (print_items print_output true l) < fuel →
  list_loop fuel (parse_output fuel) [] (print_items print_output true l ++ str "]" ++ rest) = Ret (l, rest).
Proof.
  intros Hwf Hok Hf.
  assert (∀ x, x ∈ l → starts_item (print_output x)) as Hst by (intros; by apply starts_item_cons).
  pose proof (length_print_items print_output true l Hst).
  rewrite (list_loop_printed print_output (λ i, map_insert i.1 i.2) _ fuel); [|done| |lia|lia].
  - f_equal. f_equal. exact (map_insert_all_sorted [] l Hwf).
  - intros i acc r Hi Hl. destruct (Hok i Hi) as (?&?&?&?). by apply parse_output_printed.
Qed.

Lemma inputDrvs_printed fuel l rest :
  map_wf l → (∀ i, i ∈ l → path_ok i.1 ∧ set_wf i.2 ∧ Forall nul_free i.2) →
  length (print_items print_inputDrv true l) < fuel →
  list_loop fuel (parse_inputDrv fuel) [] (print_items print_inputDrv true l ++ str "]" ++ rest) = Ret (l, rest).
Proof.
  intros Hwf Hok Hf.
  assert (∀ x, x ∈ l → starts_item (print_inputDrv x)) as Hst by (intros; by apply starts_item_cons).
  pose proof (length_print_items print_inputDrv true l Hst).
  rewrite (list_loop_printed print_inputDrv (λ i, map_insert i.1 i.2) _ fuel); [|done| |lia|lia].
  - f_equal. f_equal. exact (map_insert_all_sorted [] l Hwf).
  - intros i acc r Hi Hl. destruct (Hok i Hi) as (?&?&?). by apply parse_inputDrv_printed.
Qed.

Lemma env_printed fuel l rest :
  map_wf l → (∀ i, i ∈ l → nul_free i.1 ∧ nul_free i.2) →
  length (print_items print_env true l) < fuel →
  list_loop fuel (parse_env fuel) [] (print_items print_env true l ++ str "]" ++ rest) = Ret (l, rest).
Proof.
  intros Hwf Hok Hf.
  assert (∀ x, x ∈ l → starts_item (print_env x)) as Hst by (intros; by apply starts_item_cons).
  pose proof (length_print_items print_env true l Hst).
  rewrite (list_loop_printed print_env (λ i, map_insert i.1 i.2) _ fuel); [|done| |lia|lia].
  - f_equal. f_equal. exact (map_insert_all_sorted [] l Hwf).
  - intros i acc r Hi Hl. destruct (Hok i Hi) as (?&?). by apply parse_env_printed.
Qed.

Lemma args_printed fuel l rest :
  Forall nul_free l → length (print_items printString true l) < fuel →
  list_loop fuel (parse_arg fuel) [] (print_items printString true l ++ str "]" ++ rest) = Ret (l, rest).
Proof.
  intros Hok Hf. rewrite Forall_forall in Hok.
  assert (∀ x, x ∈ l → starts_item (printString x)) as Hst by (intros; by apply starts_item_cons).
  pose proof (length_print_items printString true l Hst).
  rewrite (list_loop_printed printString (λ x acc, acc ++ [x]) _ fuel); [|done| |lia|lia].
  - f_equal. f_equal. exact (foldl_snoc l []).
  - intros x acc r Hx Hl. unfold parse_arg. rewrite parseString_printed by auto. done.
Qed.

Lemma parse_unparse drv fuel :
  drv_ok drv → length (unparseDerivation drv) < fuel →
  parseDerivation_fuel fuel (unparseDerivation drv) = Ret drv.
Proof.
  intros [] Hf. unfold parseDerivation_fuel. unfold unparseDerivation in *.
  destruct drv as [outs ins srcs plat bld ars en];
    cbn [outputs inputDrvs inputSrcs platform builder args env] in *.
  rewrite !length_app in Hf. read_next.
  change (str "],[") with (str "]" ++ str ",["). read_next.
  rewrite outputs_printed by (done || lia). cbn [mbind outcome_bind]. read_next.
  change (str "],") with (str "]" ++ str ","). read_next.
  rewrite inputDrvs_printed by (done || lia). cbn [mbind outcome_bind].
  unfold printStrings at 1. read_next.
  rewrite (assoc (++) (str ",") (str "[")). change (str "," ++ str "[") with (str ",["). read_next.
  rewrite parseStrings_printed by (done || lia). cbn [mbind outcome_bind]. read_next.
  unfold printStrings in *. rewrite !length_app in Hf. read_next.
  rewrite (assoc (++) (str ",") (str "[")). change (str "," ++ str "[") with (str ",["). read_next.
  rewrite args_printed by (done || lia). cbn [mbind outcome_bind]. read_next.
  change (str "])") with (str "]" ++ str ")").
  rewrite env_printed by (done || lia). cbn [mbind outcome_bind].
  rewrite <-(app_nil_r (str ")")), expect_app. done.
Qed.

(** * The hash modulo, without the memo table *)

Section modulo.
Context `{GcryptLaws}.
Variable isValidPath : bytes → bool.
Variable readFile : bytes → outcome bytes.
Local Abbreviation read_drv := (readDerivation readFile).
Local Abbreviation modulo := (hashDerivationModulo isValidPath readFile).
Local Abbreviation input_hash := (hash_input isValidPath readFile).

(** The defining equations of the comment above the function. *)
Definition hash_input_spec (rec : Derivation → outcome Hash) (inputs2 : DerivationInputs)
    (i : bytes * strset) : outcome DerivationInputs :=
  check (isValidPath i.1) (AssertionFailed "store.isValidPath(i->first)");;
  drv2 ← read_drv i.1;
  h ← rec drv2;
  hex ← printHash h;
  Ret (map_insert hex i.2 inputs2).

Fixpoint hash_modulo (fuel : nat) (drv : Derivation) : outcome Hash :=
  match fuel with
  | 0 => OutOfFuel
  | S fuel =>
      match isFixedOutputDrv drv, outputs drv with
      | true, (_, out) :: _ => hashString htSHA256 (fixed_fingerprint out)
      | _, _ =>
          inputs2 ← foldM (hash_input_spec (hash_modulo fuel)) (inputDrvs drv) [];
          hashString htSHA256 (unparseDerivation (with_inputDrvs drv inputs2))
      end
  end.

(** The hash of [drv] is [h]. *)
Definition modulo_hash (drv : Derivation) (h : Hash) : Prop := ∃ n, hash_modulo n drv = Ret h.

Lemma hash_input_spec_mono (r1 r2 : Derivation → outcome Hash) inputs2 i res :
  (∀ drv h, r1 drv = Ret h → r2 drv = Ret h) →
  hash_input_spec r1 inputs2 i = Ret res → hash_input_spec r2 inputs2 i = Ret res.
Proof.
  intros Hr E. unfold hash_input_spec in *. outcome_inv. rewrite H1. cbn [check mbind outcome_bind].
  rewrite H2. cbn [mbind outcome_bind]. rewrite (Hr _ _ H3). cbn [mbind outcome_bind]. by rewrite H4.
Qed.

Lemma hash_inputs_mono (r1 r2 : Derivation → outcome Hash) l inputs2 res :
  (∀ drv h, r1 drv = Ret h → r2 drv = Ret h) →
  foldM (hash_input_spec r1) l inputs2 = Ret res → foldM (hash_input_spec r2) l inputs2 = Ret res.
Proof.
  intros Hr. revert inputs2. induction l as [|i l IH]; intros inputs2; cbn [foldM]; [done|].
  intros (st & E & E2)%bind_Ret_inv. rewrite (hash_input_spec_mono r1 r2 _ _ _ Hr E). by apply IH.
Qed.

(** More fuel does not change a result. *)
Lemma hash_modulo_mono n m drv h : n <= m → hash_modulo n drv = Ret h → hash_modulo m drv = Ret h.
Proof.
  revert m drv h. induction n as [|n IH]; intros [|m] drv h Hnm; cbn [hash_modulo]; [done|done|lia|].
  assert (∀ inputs2, foldM (hash_input_spec (hash_modulo n)) (inputDrvs drv) [] = Ret inputs2 →
    foldM (hash_input_spec (hash_modulo m)) (inputDrvs drv) [] = Ret inputs2) as Hf.
  { intros inputs2. apply hash_inputs_mono. intros drv' h'. apply IH. lia. }
  destruct (isFixedOutputDrv drv), (outputs drv) as [|[? out] ?]; try done;
    intros (inputs2 & E & Eh)%bind_Ret_inv; rewrite (Hf _ E); exact Eh.
Qed.

Lemma modulo_hash_det drv h1 h2 : modulo_hash drv h1 → modulo_hash drv h2 → h1 = h2.
Proof.
  intros [n En] [m Em]. apply (hash_modulo_mono n (n + m)) in En; [|lia].
  apply (hash_modulo_mono m (n + m)) in Em; [|lia]. congruence.
Qed.

Lemma modulo_hash_type drv h : modulo_hash drv h → hash_type h = htSHA256.
Proof.
  assert (∀ s h, hashString htSHA256 s = Ret h → hash_type h = htSHA256) as Hs.
  { intros s h' E. destruct (hashString_ok htSHA256 s) as (h2 & E2 & _ & Ht & _); [done|]. congruence. }
  intros [[|n] E]; cbn [hash_modulo] in E; [done|].
  destruct (isFixedOutputDrv drv), (outputs drv) as [|[? out] ?]; outcome_inv; eauto.
Qed.

(** Every entry of the table with a known type is the hash of the derivation at
    that path, which is valid. *)
Definition memo_ok (memo : list (bytes * Hash)) : Prop :=
  ∀ p h, map_find p memo = Some h → hash_type h ≠ htUnknown →
    isValidPath p = true ∧ ∃ drv, read_drv p = Ret drv ∧ modulo_hash drv h.

Lemma memo_ok_nil : memo_ok [].
Proof. done. Qed.

Lemma memo_ok_insert memo p h :
  memo_ok memo →
  (hash_type h ≠ htUnknown → isValidPath p = true ∧ ∃ drv, read_drv p = Ret drv ∧ modulo_hash drv h) →
  memo_ok (map_insert p h memo).
Proof. intros Hm Hp q h'. rewrite map_find_insert. case_decide; [naive_solver|apply Hm]. Qed.

Lemma memo_ok_touch memo p :
  memo_ok memo → memo_ok (map_insert p (default Hash_default (map_find p memo)) memo).
Proof.
  intros Hm. apply memo_ok_insert; [done|]. destruct (map_find p memo) as [h|] eqn:E; simpl; [|done].
  intros Hh. by apply Hm.
Qed.

(** What [input_hash] does, given what the recursive call does. *)
Lemma hash_input_complete n rec inputs2 memo i inputs2' :
  (∀ memo drv h, memo_ok memo → hash_modulo n drv = Ret h →
     ∃ memo', rec memo drv = Ret (h, memo') ∧ memo_ok memo') →
  memo_ok memo → hash_input_spec (hash_modulo n) inputs2 i = Ret inputs2' →
  ∃ memo', input_hash rec (inputs2, memo) i = Ret (inputs2', memo') ∧ memo_ok memo'.
Proof.
  intros Hrec Hm E. unfold hash_input_spec in E. outcome_inv. rename x into u, x0 into drv2, x1 into h.
  unfold hash_input. set (h0 := default Hash_default (map_find i.1 memo)).
  pose proof (memo_ok_touch memo i.1 Hm) as Hm1. fold h0 in Hm1.
  destruct (decide (hash_type h0 = htUnknown)) as [Hu|Hk].
  - rewrite H1. cbn [check mbind outcome_bind]. rewrite H2. cbn [mbind outcome_bind].
    destruct (Hrec _ drv2 h Hm1 H3) as (memo' & -> & Hm'). cbn [mbind outcome_bind].
    rewrite H4. cbn [mbind outcome_bind]. eexists. split; [done|].
    apply memo_ok_insert; [done|]. intros _. split; [done|]. exists drv2. split; [done|]. by exists n.
  - cbn [mbind outcome_bind]. assert (h0 = h) as ->.
    { destruct (Hm1 i.1 h0) as (_ & drv & Ed & Hh); [by rewrite map_find_insert, decide_True|done|].
      assert (drv = drv2) as -> by congruence. eapply modulo_hash_det; [done|]. by exists n. }
    rewrite H4. cbn [mbind outcome_bind]. by eexists.
Qed.

Lemma hash_input_sound rec inputs2 memo i inputs2' memo' :
  (∀ memo drv h memo', memo_ok memo → rec memo drv = Ret (h, memo') → modulo_hash drv h ∧ memo_ok memo') →
  memo_ok memo → input_hash rec (inputs2, memo) i = Ret (inputs2', memo') →
  (∃ m, hash_input_spec (hash_modulo m) inputs2 i = Ret inputs2') ∧ memo_ok memo'.
Proof.
  intros Hrec Hm E. unfold hash_input in E. set (h0 := default Hash_default (map_find i.1 memo)) in *.
  pose proof (memo_ok_touch memo i.1 Hm) as Hm1. fold h0 in Hm1.
  apply bind_Ret_inv in E as ([h memo1] & E & E2).
  assert (isValidPath i.1 = true ∧ memo_ok memo1 ∧ ∃ drv, read_drv i.1 = Ret drv ∧ modulo_hash drv h)
    as (Hv & Hm2 & drv & Ed & n & Hn).
  { destruct (decide (hash_type h0 = htUnknown)) as [Hu|Hk].
    - apply bind_Ret_inv in E as ([] & Hv%check_Ret_inv & E).
      apply bind_Ret_inv in E as (drv & Ed & E). apply bind_Ret_inv in E as ([h1 memo2] & Er & E).
      simplify_eq. destruct (Hrec _ _ _ _ Hm1 Er) as [Hh Hm2].
      split_and!; [done| |by eexists]. apply memo_ok_insert; [done|]. intros _. split; [done|]. by eexists.
    - injection E as Eh <-. rewrite <-Eh in *. destruct (Hm1 i.1 h0) as (Hv & drv & Ed & Hh);
        [by rewrite map_find_insert, decide_True|done|]. split_and!; [done|done|by exists drv]. }
  apply bind_Ret_inv in E2 as (hex & Ehex & ?). simplify_eq. split; [|done]. exists n.
  unfold hash_input_spec. rewrite Hv, Ed. cbn [check mbind outcome_bind]. rewrite Hn.
  cbn [mbind outcome_bind]. by rewrite Ehex.
Qed.

Lemma hash_inputs_complete n rec l inputs2 memo inputs2' :
  (∀ memo drv h, memo_ok memo → hash_modulo n drv = Ret h →
     ∃ memo', rec memo drv = Ret (h, memo') ∧ memo_ok memo') →
  memo_ok memo → foldM (hash_input_spec (hash_modulo n)) l inputs2 = Ret inputs2' →
  ∃ memo', foldM (input_hash rec) l (inputs2, memo) = Ret (inputs2', memo') ∧ memo_ok memo'.
Proof.
  intros Hrec. revert inputs2 memo. induction l as [|i l IH]; intros inputs2 memo Hm; cbn [foldM].
  { intros [= ->]. by eexists. }
  intros (st & E & E2)%bind_Ret_inv.
  destruct (hash_input_complete n rec inputs2 memo i st Hrec Hm E) as (memo1 & -> & Hm1). by apply IH.
Qed.

Lemma hash_inputs_sound rec l inputs2 memo inputs2' memo' :
  (∀ memo drv h memo', memo_ok memo → rec memo drv = Ret (h, memo') → modulo_hash drv h ∧ memo_ok memo') →
  memo_ok memo → foldM (input_hash rec) l (inputs2, memo) = Ret (inputs2', memo') →
  (∃ m, foldM (hash_input_spec (hash_modulo m)) l inputs2 = Ret inputs2') ∧ memo_ok memo'.
Proof.
  intros Hrec. revert inputs2 memo. induction l as [|i l IH]; intros inputs2 memo Hm; cbn [foldM].
  { intros [= -> ->]. split; [by exists 0|done]. }
  intros ([st memo1] & E & E2)%bind_Ret_inv.
  destruct (hash_input_sound rec inputs2 memo i st memo1 Hrec Hm E) as ([m1 Em1] & Hm1).
  destruct (IH st memo1 Hm1 E2) as ([m2 Em2] & Hm2). split; [|done]. exists (m1 + m2).
  assert (hash_input_spec (hash_modulo (m1 + m2)) inputs2 i = Ret st) as ->.
  { eapply hash_input_spec_mono; [|exact Em1]. intros ? ?. apply hash_modulo_mono. lia. }
  cbn [mbind outcome_bind]. eapply hash_inputs_mono; [|exact Em2].
  intros ? ?. apply hash_modulo_mono. lia.
Qed.

Lemma hashDerivationModulo_complete n memo drv h :
  memo_ok memo → hash_modulo n drv = Ret h →
  ∃ memo', modulo n memo drv = Ret (h, memo') ∧ memo_ok memo'.
Proof.
  revert memo drv h. induction n as [|n IH]; intros memo drv h Hm; [done|].
  cbn [hash_modulo hashDerivationModulo].
  destruct (isFixedOutputDrv drv), (outputs drv) as [|[? out] ?];
    try (intros (inputs2 & E & Eh)%bind_Ret_inv;
      destruct (hash_inputs_complete n _ _ _ memo _ IH Hm E) as (memo' & -> & Hm');
      cbn [mbind outcome_bind]; rewrite Eh; by eexists).
  intros ->. by eexists.
Qed.

Lemma hashDerivationModulo_sound n memo drv h memo' :
  memo_ok memo → modulo n memo drv = Ret (h, memo') →
  modulo_hash drv h ∧ memo_ok memo'.
Proof.
  revert memo drv h memo'. induction n as [|n IH]; intros memo drv h memo' Hm; [done|].
  cbn [hashDerivationModulo]. intros E.
  assert ((∃ m, match isFixedOutputDrv drv, outputs drv with
      | true, (_, out) :: _ => hashString htSHA256 (fixed_fingerprint out)
      | _, _ =>
          inputs2 ← foldM (hash_input_spec (hash_modulo m)) (inputDrvs drv) [];
          hashString htSHA256 (unparseDerivation (with_inputDrvs drv inputs2))
      end = Ret h) ∧ memo_ok memo') as [[m Em] Hm'].
  { destruct (isFixedOutputDrv drv), (outputs drv) as [|[? out] ?];
      apply bind_Ret_inv in E as (x & E & Eh);
      try (destruct x as [inputs2 memo1]; apply bind_Ret_inv in Eh as (h' & Eh & ?); simplify_eq;
        destruct (hash_inputs_sound _ _ _ _ _ _ IH Hm E) as [[m Em] Hm1];
        split; [exists m; by rewrite Em|done]).
    simplify_eq. split; [by exists 0|done]. }
  split; [|done]. exists (S m). done.
Qed.

(** ** Termination *)

Lemma printHash_terminates h : terminates (printHash h).
Proof.
  unfold printHash. generalize (hashSize h), 0. intros n. induction n as [|n IH]; intros k; [done|].
  cbn [printHash_loop]. apply bind_terminates; [unfold hash_get; by case_match|]. intros b _.
  apply bind_terminates; [unfold char_at; by case_match|]. intros c0 _.
  apply bind_terminates; [unfold char_at; by case_match|]. intros c1 _.
  apply bind_terminates; [apply IH|done].
Qed.

Lemma hashString_terminates ht s : terminates (hashString ht s).
Proof.
  unfold hashString, Hash_new. apply bind_terminates; [|done]. case_decide; [done|].
  apply bind_terminates; [apply check_terminates|done].
Qed.

(** [rank] decreases from a derivation to its inputs, as in every store: the
    path of a derivation contains the hash of its text, which names its inputs. *)
Lemma hashDerivationModulo_terminates_rank (rank : bytes → nat) fuel k memo drv :
  (∀ p, terminates (read_drv p)) →
  (∀ p drv i, read_drv p = Ret drv → i ∈ inputDrvs drv → rank i.1 < rank p) →
  (∀ i, i ∈ inputDrvs drv → rank i.1 < k) → k < fuel →
  terminates (modulo fuel memo drv).
Proof.
  intros Hread Hrank. revert k memo drv. induction fuel as [|fuel IH]; intros k memo drv Hk Hf; [lia|].
  cbn [hashDerivationModulo].
  assert (∀ st, terminates (foldM (input_hash (modulo fuel)) (inputDrvs drv) st)) as Hl.
  { intros st. apply (foldM_terminates (λ _, True)); [done| |done]. intros [inputs2 memo1] i Hi _.
    unfold hash_input. apply bind_terminates.
    - case_decide; [|done]. apply bind_terminates; [apply check_terminates|]. intros _ _.
      apply bind_terminates; [apply Hread|]. intros drv2 Ed.
      apply bind_terminates; [|by intros []]. apply (IH (rank i.1)).
      + intros j Hj. by apply (Hrank i.1 drv2).
      + specialize (Hk i Hi). lia.
    - intros [h memo2] _. apply bind_terminates; [apply printHash_terminates|done]. }
  destruct (isFixedOutputDrv drv), (outputs drv) as [|[? out] ?];
    (apply bind_terminates; [first [apply Hl|apply hashString_terminates]|]);
    try done; intros [inputs2 memo1] _;
    (apply bind_terminates; [apply hashString_terminates|done]).
Qed.

(** ** Inputs that are interchangeable *)

(** The same outputs of the same derivation, or of two fixed-output derivations
    with the same output. *)
Definition interchangeable (i j : bytes * strset) : Prop :=
  i.2 = j.2 ∧
  (i.1 = j.1 ∨
   ∃ d1 d2, isValidPath i.1 = true ∧ isValidPath j.1 = true ∧
     read_drv i.1 = Ret d1 ∧ read_drv j.1 = Ret d2 ∧
     isFixedOutputDrv d1 = true ∧ isFixedOutputDrv d2 = true ∧ outputs d1 = outputs d2).

Lemma hash_modulo_fixed n d1 d2 :
  isFixedOutputDrv d1 = true → isFixedOutputDrv d2 = true → outputs d1 = outputs d2 →
  hash_modulo n d1 = hash_modulo n d2.
Proof.
  intros H1 H2 E. destruct n as [|n]; [done|]. cbn [hash_modulo]. rewrite H1, H2, E.
  destruct (outputs d2) as [|[id out] l] eqn:E2; [|done].
  unfold isFixedOutputDrv in H2. by rewrite E2 in H2.
Qed.

Lemma hash_inputs_interchangeable n l l' inputs2 :
  Forall2 interchangeable l l' →
  foldM (hash_input_spec (hash_modulo n)) l inputs2 = foldM (hash_input_spec (hash_modulo n)) l' inputs2.
Proof.
  intros Hl. revert inputs2. induction Hl as [|i j l l' Hij Hl IH]; intros inputs2; cbn [foldM]; [done|].
  assert (hash_input_spec (hash_modulo n) inputs2 i = hash_input_spec (hash_modulo n) inputs2 j) as ->.
  { destruct i as [p1 o1], j as [p2 o2]. destruct Hij as [Ho Hp]. cbn [fst snd] in *. subst o2.
    destruct Hp as [->|(d1 & d2 & V1 & V2 & R1 & R2 & F1 & F2 & E)]; [done|].
    unfold hash_input_spec. cbn [fst snd]. rewrite V1, V2, R1, R2. cbn [check mbind outcome_bind].
    by rewrite (hash_modulo_fixed n d1 d2). }
  destruct (hash_input_spec (hash_modulo n) inputs2 j); cbn [mbind outcome_bind]; [apply IH|done|done].
Qed.

Lemma hash_modulo_interchangeable n drv l' :
  Forall2 interchangeable (inputDrvs drv) l' →
  hash_modulo n drv = hash_modulo n (with_inputDrvs drv l').
Proof.
  intros Hl. destruct n as [|n]; [done|]. cbn [hash_modulo].
  change (isFixedOutputDrv (with_inputDrvs drv l')) with (isFixedOutputDrv drv).
  change (outputs (with_inputDrvs drv l')) with (outputs drv).
  change (inputDrvs (with_inputDrvs drv l')) with l'.
  by rewrite (hash_inputs_interchangeable n _ _ [] Hl).
Qed.
End modulo.

(** * Properties *)

(** C31: The ATerm text of a derivation determines it: [parseDerivation] reads
    back exactly what [unparseDerivation] wrote, for every derivation without
    NUL bytes whose paths are absolute. *)
Theorem parseDerivation_unparse drv :
  drv_ok drv → parseDerivation (unparseDerivation drv) = Ret drv.
Proof. intros Hok. unfold parseDerivation. apply parse_unparse; [done|lia]. Qed.

(** C32: The memo table of [hashDerivationModulo] is transparent. Starting from any
    table whose entries are right, the function returns the hash the defining
    equations give (and returns it whenever they give one within the same
    recursion depth), and leaves a table whose entries are right. *)
Theorem hashDerivationModulo_memo `{GcryptLaws} isValidPath readFile fuel memo drv :
  memo_ok isValidPath readFile memo →
  (∀ h memo', hashDerivationModulo isValidPath readFile fuel memo drv = Ret (h, memo') →
     modulo_hash isValidPath readFile drv h ∧ memo_ok isValidPath readFile memo') ∧
  (∀ h, hash_modulo isValidPath readFile fuel drv = Ret h →
     ∃ memo', hashDerivationModulo isValidPath readFile fuel memo drv = Ret (h, memo')).
Proof.
  intros Hm. split.
  - intros h memo'. by apply hashDerivationModulo_sound.
  - intros h E. destruct (hashDerivationModulo_complete isValidPath readFile fuel memo drv h Hm E)
      as (memo' & ? & _). by exists memo'.
Qed.

(** Changes to fixed-output derivations do not propagate. Replacing inputs of
    a derivation by fixed-output derivations with the same output leaves its
    hash unchanged, whatever the depth bounds and the (right) memo tables of
    the two computations. *)
Theorem hashDerivationModulo_fixed `{GcryptLaws} isValidPath readFile
    fuel1 fuel2 memo1 memo2 drv inputs h1 h2 memo1' memo2' :
  memo_ok isValidPath readFile memo1 → memo_ok isValidPath readFile memo2 →
  Forall2 (interchangeable isValidPath readFile) (inputDrvs drv) inputs →
  hashDerivationModulo isValidPath readFile fuel1 memo1 drv = Ret (h1, memo1') →
  hashDerivationModulo isValidPath readFile fuel2 memo2 (with_inputDrvs drv inputs) = Ret (h2, memo2') →
  h1 = h2.
Proof.
  intros Hm1 Hm2 Hl E1 E2.
  apply hashDerivationModulo_sound in E1 as [[n1 H1] _]; [|done].
  apply hashDerivationModulo_sound in E2 as [Hh2 _]; [|done].
  eapply modulo_hash_det; [|exact Hh2]. exists n1. by rewrite <-hash_modulo_interchangeable.
Qed.

(** The recursion of [hashDerivationModulo] ends on every acyclic set of
    derivations, with a recursion depth above the rank of the inputs. *)
Theorem hashDerivationModulo_terminates `{GcryptLaws} isValidPath readFile (rank : bytes → nat)
    fuel memo drv :
  (∀ p, terminates (readDerivation readFile p)) →
  (∀ p drv i, readDerivation readFile p = Ret drv → i ∈ inputDrvs drv → rank i.1 < rank p) →
  (∀ i, i ∈ inputDrvs drv → rank i.1 + 1 < fuel) → 0 < fuel →
  terminates (hashDerivationModulo isValidPath readFile fuel memo drv).
Proof.
  intros Hread Hrank Hk Hf.
  apply (hashDerivationModulo_terminates_rank _ _ rank fuel (fuel - 1)); [done|done| |lia].
  intros i Hi. specialize (Hk i Hi). lia.
Qed.

(** ** Witnesses and examples *)

(** Two recipes for one download, and a derivation that uses it. *)
Definition sample_fetch (url : bytes) : Derivation :=
  mkDerivation [(str "out", mkDerivationOutput (str "/gnu/store/src") (str "sha256") (str "00"))]
    [] [] (str "x86_64-linux") (str "builtin:download") [] [(str "url", url)].

Definition sample_drv (input : bytes) : Derivation :=
  mkDerivation [(str "out", mkDerivationOutput (str "/gnu/store/hello") [] [])]
    [(input, [str "out"])] [str "/gnu/store/builder.scm"] (str "x86_64-linux") (str "/bin/guile")
    [str "--no-auto-compile"; str "say \hi\"] [(str "name", str "hello"); (str "out", str "/gnu/store/hello")].

Definition sample_readFile (p : bytes) : outcome bytes :=
  if decide (p = str "/1.drv") then Ret (unparseDerivation (sample_fetch (str "https://a")))
  else if decide (p = str "/2.drv") then Ret (unparseDerivation (sample_fetch (str "https://b")))
  else Throw (SysError 2 "opening file").

Definition all_valid (p : bytes) : bool := true.

Lemma sample_drv_ok : drv_ok (sample_drv (str "/1.drv")).
Proof.
  split; cbn [sample_drv outputs inputDrvs inputSrcs platform builder args env];
    try (by repeat constructor); try concrete.
  - intros i Hi. apply list_elem_of_singleton in Hi as ->. unfold path_ok, nul_free.
    split_and!; concrete.
  - intros i Hi. apply list_elem_of_singleton in Hi as ->. unfold path_ok, nul_free.
    split_and!; [concrete|concrete|by repeat constructor|]. apply Forall_singleton. concrete.
  - intros p Hp. apply list_elem_of_singleton in Hp as ->. unfold path_ok, nul_free. split; concrete.
  - intros i Hi. unfold nul_free. rewrite elem_of_cons, list_elem_of_singleton in Hi.
    destruct Hi as [->| ->]; split; concrete.
Qed.

Lemma parseDerivation_unparse_witness :
  parseDerivation (unparseDerivation (sample_drv (str "/1.drv"))) = Ret (sample_drv (str "/1.drv")).
Proof. exact (parseDerivation_unparse (sample_drv (str "/1.drv")) sample_drv_ok). Defined.

Local Abbreviation toy_modulo := (@hashDerivationModulo toy_gcrypt all_valid sample_readFile).

Lemma hashDerivationModulo_memo_witness :
  (∀ h memo', toy_modulo 3 [] (sample_drv (str "/1.drv")) = Ret (h, memo') →
     @modulo_hash toy_gcrypt all_valid sample_readFile (sample_drv (str "/1.drv")) h ∧
     @memo_ok toy_gcrypt all_valid sample_readFile memo') ∧
  (∀ h, @hash_modulo toy_gcrypt all_valid sample_readFile 3 (sample_drv (str "/1.drv")) = Ret h →
     ∃ memo', toy_modulo 3 [] (sample_drv (str "/1.drv")) = Ret (h, memo')).
Proof.
  apply (@hashDerivationModulo_memo toy_gcrypt toy_gcrypt_laws all_valid sample_readFile 3 []).
  apply memo_ok_nil.
Defined.

Definition toy_result (input : bytes) : Hash * list (bytes * Hash) :=
  match toy_modulo 3 [] (sample_drv input) with
  | Ret r => r
  | _ => (Hash_default, [])
  end.

Lemma toy_result_spec input :
  bool_decide (input = str "/1.drv" ∨ input = str "/2.drv") = true →
  toy_modulo 3 [] (sample_drv input) = Ret (toy_result input).
Proof. intros [->| ->]%bool_decide_eq_true; vm_compute; reflexivity. Qed.

Lemma sample_interchangeable :
  Forall2 (@interchangeable all_valid sample_readFile)
    (inputDrvs (sample_drv (str "/1.drv"))) (inputDrvs (sample_drv (str "/2.drv"))).
Proof.
  constructor; [|constructor]. split; [done|]. right.
  exists (sample_fetch (str "https://a")), (sample_fetch (str "https://b")).
  split_and!; vm_compute; reflexivity.
Qed.

Lemma hashDerivationModulo_fixed_witness :
  (toy_result (str "/1.drv")).1 = (toy_result (str "/2.drv")).1.
Proof.
  apply (@hashDerivationModulo_fixed toy_gcrypt toy_gcrypt_laws all_valid sample_readFile 3 3 [] []
    (sample_drv (str "/1.drv")) (inputDrvs (sample_drv (str "/2.drv")))
    _ _ (toy_result (str "/1.drv")).2 (toy_result (str "/2.drv")).2).
  - apply memo_ok_nil.
  - apply memo_ok_nil.
  - apply sample_interchangeable.
  - rewrite <-surjective_pairing. by apply toy_result_spec.
  - rewrite <-surjective_pairing. by apply (toy_result_spec (str "/2.drv")).
Defined.

Lemma sample_read p :
  match readDerivation sample_readFile p with
  | Ret drv => inputDrvs drv = []
  | Throw _ => True
  | OutOfFuel => False
  end.
Proof.
  unfold readDerivation, sample_readFile. repeat case_decide; vm_compute; done.
Qed.

Lemma hashDerivationModulo_terminates_witness :
  terminates (toy_modulo 2 [] (sample_drv (str "/1.drv"))).
Proof.
  apply (@hashDerivationModulo_terminates toy_gcrypt toy_gcrypt_laws all_valid sample_readFile (λ _, 0) 2 []).
  - intros p. pose proof (sample_read p). unfold terminates. by destruct (readDerivation _ p).
  - intros p drv i E Hi. pose proof (sample_read p) as Hp. rewrite E in Hp. rewrite Hp in Hi.
    by apply not_elem_of_nil in Hi.
  - intros i Hi. lia.
  - lia.
Defined.

(** ** Inputs the parser does not reject *)

(** The loop of [parseString] ends only at a double quote: on a string that is
    not terminated it never ends, whatever the bound. *)
Theorem parseString_unterminated fuel s :
  dquote ∉ s → parseString fuel ([dquote] ++ s) = OutOfFuel.
Proof.
  intros Hs. unfold parseString. rewrite expect_app. cbn [mbind outcome_bind].
  generalize (@nil byte) as res. revert s Hs. induction fuel as [|fuel IH]; intros s Hs res; [done|].
  cbn [parseString_loop].
  assert (∃ c t, get s = (c, t) ∧ c ≠ Some dquote ∧ dquote ∉ t) as (c & t & -> & Hc & Ht).
  { destruct s as [|x s]; simpl; [by eexists _, _|]. eexists _, _. split; [done|]. set_solver. }
  rewrite decide_False by done. case_decide; [|by apply IH].
  assert (∃ c' t', get t = (c', t') ∧ dquote ∉ t') as (c' & t' & -> & Ht').
  { destruct t as [|x t]; simpl; [by eexists _, _|]. eexists _, _. split; [done|]. set_solver. }
  repeat case_decide; by apply IH.
Qed.

(** [printString] stops at a NUL: derivations that differ after one have the
    same text, and so the same hash and store path. *)
Theorem unparse_stops_at_nul :
  ∃ d1 d2, d1 ≠ d2 ∧ unparseDerivation d1 = unparseDerivation d2 ∧
    ∃ t, parseDerivation t = Ret d1.
Proof.
  exists (mkDerivation [] [] [] (str "p") (str "/b") [str "a" ++ [Byte.x00] ++ str "b"] []),
    (mkDerivation [] [] [] (str "p") (str "/b") [str "a" ++ [Byte.x00] ++ str "c"] []).
  split_and!; [done|vm_compute; reflexivity|].
  exists (str "Derive([],[],[]," ++ printString (str "p") ++ str "," ++ printString (str "/b") ++
    str ",[" ++ [dquote] ++ str "a" ++ [Byte.x00] ++ str "b" ++ [dquote] ++ str "],[])").
  vm_compute. reflexivity.
Qed.
