(* ===== verification/Closure.v ===== *)
(** libstore/misc.cc: closures and topological order of the reference graph.

    The functions are written against [StoreAPI]; the class below has the
    queries they make of it. LocalDB.v gives the instance of the local store. *)

From S2P Require Import Prelude Containers Serialise Hash Paths StorePaths Derivations.

(** The queries of store-api.hh used here. *)
Class StoreQueries := {
  isValidPath : bytes → outcome bool;
  queryReferences : bytes → outcome strset;
  queryReferrers : bytes → outcome strset;
  queryValidDerivers : bytes → outcome strset;
  queryDerivationOutputs : bytes → outcome strset;
  queryDeriver : bytes → outcome bytes
}.

Section misc.
Context `{StoreQueries}.

(** [derivationFromPath]; [ensurePath] is the store's. *)
Definition derivationFromPath (nixStore : bytes) (ensurePath : bytes → outcome ())
    (readFile : bytes → outcome bytes) (drvPath : bytes) : outcome Derivation :=
  assertStorePath nixStore drvPath;;
  ensurePath drvPath;;
  readDerivation readFile drvPath.

(** * [computeFSClosure] *)

Section closure.
Variables flipDirection includeOutputs includeDerivers : bool.

(** [if (c(i)) edges.insert(i)] *)
Definition insert_if (c : outcome bool) (i : bytes) (edges : strset) : outcome strset :=
  b ← c; Ret (if (b : bool) then set_insert i edges else edges).

(** The edges followed from [path]. *)
Definition closure_edges (path : bytes) : outcome strset :=
  if flipDirection then
    edges ← queryReferrers path;
    edges ← (if includeOutputs then
               derivers ← queryValidDerivers path; Ret (set_insert_all derivers edges)
             else Ret edges);
    if includeDerivers && isDerivation path then
      outputs ← queryDerivationOutputs path;
      foldM (λ edges i,
        insert_if (valid ← isValidPath i;
                   if (valid : bool) then d ← queryDeriver i; Ret (bool_decide (d = path))
                   else Ret false) i edges) outputs edges
    else Ret edges
  else
    edges ← queryReferences path;
    edges ← (if includeOutputs && isDerivation path then
               outputs ← queryDerivationOutputs path;
               foldM (λ edges i, insert_if (isValidPath i) i edges) outputs edges
             else Ret edges);
    if includeDerivers then
      deriver ← queryDeriver path;
      insert_if (isValidPath deriver) deriver edges
    else Ret edges.

Fixpoint computeFSClosure (fuel : nat) (path : bytes) (paths : strset) : outcome strset :=
  match fuel with
  | 0 => OutOfFuel
  | S fuel =>
      if set_mem path paths then Ret paths
      else
        edges ← closure_edges path;
        foldM (λ paths i, computeFSClosure fuel i paths) edges (set_insert path paths)
  end.
End closure.

(** * [topoSortPaths] *)

Record DfsState := mkDfsState {
  dfs_visited : strset;
  dfs_sorted : list bytes;
  dfs_parents : strset
}.

Definition dfs_references (path : bytes) : outcome strset :=
  valid ← isValidPath path;
  if (valid : bool) then queryReferences path else Ret [].

Fixpoint dfsVisit (fuel : nat) (paths : strset) (st : DfsState) (path : bytes) : outcome DfsState :=
  match fuel with
  | 0 => OutOfFuel
  | S fuel =>
      if set_mem path (dfs_parents st) then Throw (BuildError "cycle detected in the references")
      else if set_mem path (dfs_visited st) then Ret st
      else
        let st := mkDfsState (set_insert path (dfs_visited st)) (dfs_sorted st)
                    (set_insert path (dfs_parents st)) in
        references ← dfs_references path;
        st ← foldM (λ st i,
               if negb (bool_decide (i = path)) && set_mem i paths then dfsVisit fuel paths st i
               else Ret st) references st;
        Ret (mkDfsState (dfs_visited st) (path :: dfs_sorted st) (set_erase path (dfs_parents st)))
  end.

(** A visit nests at most once per path. *)
Definition topoSortPaths (paths : strset) : outcome (list bytes) :=
  st ← foldM (dfsVisit (S (S (length paths))) paths) paths (mkDfsState [] [] []);
  Ret (dfs_sorted st).
End misc.

(** * Closures *)

Section closure_proofs.
Context `{StoreQueries}.
Variables flip outs ders : bool.
Local Abbreviation edges := (closure_edges flip outs ders).
Local Abbreviation closure := (computeFSClosure flip outs ders).

Definition closure_edge (p q : bytes) : Prop := ∃ es, edges p = Ret es ∧ q ∈ es.

(** What a call did to the set: it grew, by paths reachable from [roots] only,
    whose edges all lead into it, and all of [roots] is in it. *)
Definition grown (roots : bytes → Prop) (paths paths' : strset) : Prop :=
  (∀ q, q ∈ paths → q ∈ paths') ∧
  (∀ q, roots q → q ∈ paths') ∧
  (∀ q, q ∈ paths' → q ∈ paths ∨ ∃ r, roots r ∧ rtc closure_edge r q) ∧
  (∀ q r, q ∈ paths' → q ∉ paths → closure_edge q r → r ∈ paths').

Lemma grown_foldM fuel es paths paths' :
  (∀ path paths paths', closure fuel path paths = Ret paths' → grown (.= path) paths paths') →
  foldM (λ paths i, closure fuel i paths) es paths = Ret paths' → grown (.∈ es) paths paths'.
Proof.
  intros IH. revert paths. induction es as [|e es IHes]; intros paths; cbn [foldM].
  { intros [= ->]. split_and!; set_solver. }
  intros (paths1 & E1 & E2)%bind_Ret_inv.
  destruct (IH _ _ _ E1) as (A1 & A2 & A3 & A4). destruct (IHes _ E2) as (B1 & B2 & B3 & B4).
  split_and!.
  - auto.
  - intros q [->|Hq]%elem_of_cons; auto.
  - intros q [Hq|(r & Hr & Hrq)]%B3; [|right; exists r; set_solver].
    apply A3 in Hq as [?|(r & -> & Hrq)]; [by left|right]. exists e. set_solver.
  - intros q r Hq Hn Hqr. destruct (decide (q ∈ paths1)) as [Hq1|Hq1]; [|by eapply B4].
    apply B1. by eapply A4.
Qed.

Lemma closure_grown fuel path paths paths' :
  closure fuel path paths = Ret paths' → grown (.= path) paths paths'.
Proof.
  revert path paths paths'. induction fuel as [|fuel IH]; intros path paths paths'; [done|].
  cbn [computeFSClosure]. destruct (set_mem path paths) eqn:Hm.
  { intros [= ->]. apply set_mem_spec in Hm. split_and!; naive_solver. }
  apply set_mem_false in Hm. intros (es & Ees & E)%bind_Ret_inv.
  apply (grown_foldM _ _ _ _ IH) in E as (B1 & B2 & B3 & B4).
  assert (path ∈ paths') as Hpath by (apply B1, elem_of_set_insert; by left).
  split_and!.
  - intros q Hq. apply B1, elem_of_set_insert. by right.
  - by intros q ->.
  - intros q [[->|Hq]%elem_of_set_insert|(r & Hr & Hrq)]%B3; [| |].
    + right. by exists path.
    + by left.
    + right. exists path. split; [done|]. eapply rtc_l; [by exists es|done].
  - intros q r Hq Hn Hqr. destruct (decide (q = path)) as [->|Hne].
    + destruct Hqr as (es' & Ees' & Hr). apply B2. congruence.
    + eapply B4; [done| |done]. rewrite elem_of_set_insert. naive_solver.
Qed.

(** A finite universe in which every query succeeds. *)
Definition universe (U : list bytes) : Prop :=
  ∀ p, p ∈ U → ∃ es, edges p = Ret es ∧ ∀ q, q ∈ es → q ∈ U.

Definition missing (U : list bytes) (paths : strset) : nat := length (filter (.∉ paths) U).

Lemma missing_le U paths paths' : (∀ q, q ∈ paths → q ∈ paths') → missing U paths' <= missing U paths.
Proof.
  intros Hsub. unfold missing. induction U as [|u U IH]; [done|]. rewrite !filter_cons.
  repeat case_decide; simpl; try lia. exfalso. naive_solver.
Qed.

Lemma missing_insert U path paths :
  path ∈ U → path ∉ paths → missing U (set_insert path paths) < missing U paths.
Proof.
  intros HU Hp. unfold missing. induction U as [|u U IH]; [set_solver|]. rewrite !filter_cons.
  assert (missing U (set_insert path paths) <= missing U paths) as Hle.
  { apply missing_le. intros q Hq. apply elem_of_set_insert. by right. }
  unfold missing in Hle. apply elem_of_cons in HU as [->|HU].
  - rewrite decide_False by (rewrite elem_of_set_insert; naive_solver).
    rewrite decide_True by done. simpl. lia.
  - specialize (IH HU). destruct (decide (u ∉ paths)) as [Hn|Hn];
      destruct (decide (u ∉ set_insert path paths)) as [Hn'|Hn']; simpl; try lia.
    exfalso. rewrite elem_of_set_insert in Hn'. naive_solver.
Qed.

Lemma closure_returns U fuel path paths :
  universe U → path ∈ U → missing U paths < fuel → ∃ paths', closure fuel path paths = Ret paths'.
Proof.
  intros HU. revert path paths. induction fuel as [|fuel IH]; intros path paths Hp Hf; [lia|].
  cbn [computeFSClosure]. destruct (set_mem path paths) eqn:Hm; [by eexists|].
  apply set_mem_false in Hm. destruct (HU path Hp) as (es & -> & Hes). cbn [mbind outcome_bind].
  pose proof (missing_insert U path paths Hp Hm) as Hlt.
  assert (missing U (set_insert path paths) < fuel) as Hf' by lia. clear Hlt.
  revert Hf'. generalize (set_insert path paths) as ps. clear Hf Hm.
  induction es as [|e es IHes]; intros ps Hf'; cbn [foldM]; [by eexists|].
  destruct (IH e ps) as (ps1 & E); [apply Hes; by left|done|]. rewrite E. cbn [mbind outcome_bind].
  apply closure_grown in E as (Hsub & _). pose proof (missing_le U ps ps1 Hsub).
  apply IHes; [intros q ?; apply Hes; by right|lia].
Qed.

(** A set closed under the edges. *)
Definition closed (paths : strset) : Prop := ∀ q r, q ∈ paths → closure_edge q r → r ∈ paths.

Lemma grown_closed (roots : bytes → Prop) paths paths' :
  closed paths → grown roots paths paths' →
  closed paths' ∧ ∀ q, q ∈ paths' ↔ q ∈ paths ∨ ∃ r, roots r ∧ rtc closure_edge r q.
Proof.
  intros Hc (G1 & G2 & G3 & G4).
  assert (closed paths') as Hc'.
  { intros q r Hq Hqr. destruct (decide (q ∈ paths)) as [Hq'|Hq']; [|by eapply G4].
    by eapply G1, Hc. }
  split; [done|]. intros q. split; [apply G3|]. intros [Hq|(r & Hr & Hrq)]; [by apply G1|].
  apply G2 in Hr. clear -Hc' Hr Hrq. induction Hrq; [done|]. naive_solver.
Qed.
End closure_proofs.

(** * Topological order *)

Section topo_proofs.
Context `{StoreQueries}.
Variable paths : strset.

(** A reference to another path of the set. *)
Definition topo_edge (p q : bytes) : Prop :=
  q ≠ p ∧ q ∈ paths ∧ ∃ es, dfs_references p = Ret es ∧ q ∈ es.

(** Every path comes before the paths it refers to. *)
Fixpoint topo_sorted (l : list bytes) : Prop :=
  match l with
  | [] => True
  | p :: l => (∀ q, topo_edge p q → q ∈ l) ∧ topo_sorted l
  end.

(** Between two visits: what is visited is finished or being visited, and the
    finished paths are in order. *)
Record dfs_inv (st : DfsState) : Prop := {
  inv_visited x : x ∈ dfs_visited st ↔ x ∈ dfs_sorted st ∨ x ∈ dfs_parents st;
  inv_disjoint x : x ∈ dfs_sorted st → x ∉ dfs_parents st;
  inv_nodup : NoDup (dfs_sorted st);
  inv_topo : topo_sorted (dfs_sorted st);
  inv_paths x : x ∈ dfs_sorted st → x ∈ paths;
  inv_queried x : x ∈ dfs_sorted st → ∃ es, dfs_references x = Ret es
}.

(** A step from [st] to [st'] that finished [done]. *)
Definition dfs_step (done : bytes → Prop) (st st' : DfsState) : Prop :=
  dfs_inv st' ∧ (∀ x, x ∈ dfs_parents st' ↔ x ∈ dfs_parents st) ∧
  (∀ x, x ∈ dfs_sorted st → x ∈ dfs_sorted st') ∧ (∀ x, done x → x ∈ dfs_sorted st').

(** [tc topo_edge p p] *)
Definition cyclic : Prop := ∃ p, p ∈ paths ∧ tc topo_edge p p.

Definition not_visited (st : DfsState) : nat := length (filter (.∉ dfs_visited st) paths).

Lemma not_visited_le st st' :
  (∀ x, x ∈ dfs_visited st → x ∈ dfs_visited st') → not_visited st' <= not_visited st.
Proof. apply missing_le. Qed.

Lemma dfs_step_visited done st st' :
  dfs_inv st → dfs_step done st st' → ∀ x, x ∈ dfs_visited st → x ∈ dfs_visited st'.
Proof.
  intros Hi (Hi' & Hp & Hs & _) x. rewrite (inv_visited _ Hi), (inv_visited _ Hi'), Hp. naive_solver.
Qed.

(** An exception: a cycle that exists was found, or a query threw. *)
Definition topo_failed {A} (r : outcome A) : Prop :=
  (∃ m, r = Throw (BuildError m) ∧ cyclic) ∨
  (∃ e p, r = Throw e ∧ p ∈ paths ∧ dfs_references p = Throw e).

Lemma topo_failed_bind {A B} (m : outcome A) (f : A → outcome B) :
  topo_failed m → topo_failed (m ≫= f).
Proof. intros [(x & -> & Hc)|(e & p & -> & Hp & E)]; [left; by exists x|right; by exists e, p]. Qed.

(** What one visit does: it finishes [path], or throws. *)
Definition visit_spec (fuel : nat) : Prop := ∀ st path,
  dfs_inv st → path ∈ paths → not_visited st + 1 < fuel →
  (∀ p, p ∈ dfs_parents st → p ∈ paths ∧ tc topo_edge p path) →
  (∃ st', dfsVisit fuel paths st path = Ret st' ∧ dfs_step (.= path) st st') ∨
  topo_failed (dfsVisit fuel paths st path).

Lemma dfs_step_trans (P Q : bytes → Prop) st st1 st2 :
  dfs_step P st st1 → dfs_step Q st1 st2 → dfs_step (λ x, P x ∨ Q x) st st2.
Proof.
  intros (_ & A2 & A3 & A4) (B1 & B2 & B3 & B4). split_and!; [done| |naive_solver|naive_solver].
  intros x. by rewrite B2, A2.
Qed.

Lemma dfs_step_weaken (P Q : bytes → Prop) st st' :
  (∀ x, Q x → P x) → dfs_step P st st' → dfs_step Q st st'.
Proof. intros HPQ (? & ? & ? & ?). split_and!; auto. Qed.

(** The loop over the references of [path]. *)
Local Abbreviation dfs_body fuel path := (λ st i,
  if negb (bool_decide (i = path)) && set_mem i paths then dfsVisit fuel paths st i else Ret st).

Lemma dfs_loop fuel path es st :
  visit_spec fuel → dfs_inv st → path ∈ paths →
  (∀ i, i ∈ es → i ≠ path → i ∈ paths → topo_edge path i) →
  (∀ p, p ∈ dfs_parents st → p ∈ paths ∧ rtc topo_edge p path) → not_visited st + 1 < fuel →
  (∃ st', foldM (dfs_body fuel path) es st = Ret st' ∧
     dfs_step (λ x, x ∈ es ∧ x ≠ path ∧ x ∈ paths) st st') ∨
  topo_failed (foldM (dfs_body fuel path) es st).
Proof.
  intros Hvisit. revert st. induction es as [|e es IH]; intros st Hi Hpath He Hpar Hf; cbn [foldM].
  { left. exists st. split; [done|]. split_and!; [done|done|done|set_solver]. }
  destruct (negb (bool_decide (e = path)) && set_mem e paths) eqn:Hc.
  - apply andb_true_iff in Hc as [Hne%negb_true_iff%bool_decide_eq_false Hp%set_mem_spec].
    assert (topo_edge path e) as Hedge by (apply He; [by left|done|done]).
    destruct (Hvisit st e Hi Hp Hf) as [(st1 & -> & Hst1)|Hfail].
    + intros p Hpp. destruct (Hpar p Hpp) as [Hpp' Hr]. split; [done|]. by eapply tc_rtc_l, tc_once.
    + cbn [mbind outcome_bind].
      pose proof (not_visited_le _ _ (dfs_step_visited _ _ _ Hi Hst1)).
      pose proof Hst1 as (Hi1 & Hp1 & Hs1 & Hd1).
      destruct (IH st1 Hi1 Hpath) as [(st2 & -> & Hst2)|Hfail]; [|..|by right].
      * intros i Hie. apply He. by right.
      * intros p. rewrite Hp1. apply Hpar.
      * lia.
      * left. exists st2. split; [done|].
        eapply dfs_step_weaken; [|exact (dfs_step_trans _ _ _ _ _ Hst1 Hst2)].
        intros x (Hx & Hx1 & Hx2). cbv beta. apply elem_of_cons in Hx as [->|Hx]; [by left|by right].
    + right. by apply topo_failed_bind.
  - cbn [mbind outcome_bind]. destruct (IH st Hi Hpath) as [(st2 & -> & Hst2)|Hfail]; [|done|done| |by right].
    + intros i Hie. apply He. by right.
    + left. exists st2. split; [done|]. eapply dfs_step_weaken; [|exact Hst2].
      intros x (Hx & Hx1 & Hx2). apply elem_of_cons in Hx as [->|Hx]; [|done].
      apply andb_false_iff in Hc as [Hc%negb_false_iff%bool_decide_eq_true|Hc%set_mem_false]; done.
Qed.

Lemma dfs_enter st path :
  dfs_inv st → path ∉ dfs_visited st →
  dfs_inv (mkDfsState (set_insert path (dfs_visited st)) (dfs_sorted st) (set_insert path (dfs_parents st))).
Proof.
  intros Hi Hv. split; cbn [dfs_visited dfs_sorted dfs_parents].
  - intros x. rewrite !elem_of_set_insert, (inv_visited _ Hi). naive_solver.
  - intros x Hx. rewrite elem_of_set_insert. intros [->|Hp]; [|by eapply inv_disjoint].
    apply Hv, (inv_visited _ Hi). by left.
  - by apply inv_nodup.
  - by apply inv_topo.
  - intros x. by apply inv_paths.
  - intros x. by apply inv_queried.
Qed.

Lemma dfs_leave st path es :
  dfs_inv st → path ∈ paths → path ∈ dfs_parents st → dfs_references path = Ret es →
  (∀ x, x ∈ es → x ≠ path → x ∈ paths → x ∈ dfs_sorted st) →
  dfs_inv (mkDfsState (dfs_visited st) (path :: dfs_sorted st) (set_erase path (dfs_parents st))).
Proof.
  intros Hi Hpath Hpar Hes Hall.
  assert (path ∉ dfs_sorted st) as Hns by (intros Hs; by apply (inv_disjoint _ Hi) in Hs).
  split; cbn [dfs_visited dfs_sorted dfs_parents].
  - intros x. rewrite elem_of_cons, elem_of_set_erase, (inv_visited _ Hi).
    destruct (decide (x = path)); naive_solver.
  - intros x. rewrite elem_of_cons, elem_of_set_erase. intros [->|Hx] [Hx1 Hx2]; [done|].
    by apply (inv_disjoint _ Hi) in Hx.
  - constructor; [done|by apply inv_nodup].
  - split; [|by apply inv_topo]. intros q (Hq1 & Hq2 & es' & Ees' & Hq3). apply Hall; congruence.
  - intros x [->|Hx]%elem_of_cons; [done|]. by apply (inv_paths _ Hi).
  - intros x [->|Hx]%elem_of_cons; [by exists es|]. by apply (inv_queried _ Hi).
Qed.

Lemma dfsVisit_spec fuel :
  (∀ p, p ∈ paths → terminates (dfs_references p)) → visit_spec fuel.
Proof.
  intros Hq. induction fuel as [|fuel IH]; intros st path Hi Hpath Hf Hpar; [lia|].
  cbn [dfsVisit]. destruct (set_mem path (dfs_parents st)) eqn:Hmp.
  { apply set_mem_spec in Hmp. right. left. eexists. split; [done|]. exists path. by apply Hpar in Hmp. }
  apply set_mem_false in Hmp. destruct (set_mem path (dfs_visited st)) eqn:Hmv.
  { apply set_mem_spec in Hmv. left. exists st. split; [done|]. split_and!; [done|done|done|].
    intros x ->. apply (inv_visited _ Hi) in Hmv as [?|?]; done. }
  apply set_mem_false in Hmv. specialize (Hq path Hpath).
  destruct (dfs_references path) as [es|e|] eqn:Ees; [|right; right; by exists e, path|done].
  cbn [mbind outcome_bind]. set (st1 := mkDfsState _ _ _).
  assert (dfs_inv st1) as Hi1 by (by apply dfs_enter).
  assert (not_visited st1 < not_visited st) as Hlt by (by apply missing_insert).
  destruct (dfs_loop fuel path es st1 IH Hi1 Hpath) as [(st2 & -> & Hi2 & Hp2 & Hs2 & Hd2)|Hfail].
  - intros i Hie Hne Hip. split_and!; [done|done|by exists es].
  - intros p [->|Hp]%elem_of_set_insert; [done|]. destruct (Hpar p Hp). split; [done|by apply tc_rtc].
  - lia.
  - left. cbn [mbind outcome_bind]. eexists. split; [done|].
    assert (path ∈ dfs_parents st2) as Hpp by (apply Hp2, elem_of_set_insert; by left).
    split_and!; cbn [dfs_visited dfs_sorted dfs_parents].
    + apply (dfs_leave st2 path es); auto.
    + intros x. rewrite elem_of_set_erase, Hp2. unfold st1. cbn [dfs_parents].
      rewrite elem_of_set_insert. naive_solver.
    + intros x Hx. right. by apply Hs2.
    + intros x ->. by left.
  - right. by apply topo_failed_bind.
Qed.

(** The loop of [topoSortPaths]. *)
Lemma dfs_roots fuel l st :
  visit_spec fuel → length paths + 1 < fuel → (∀ x, x ∈ l → x ∈ paths) →
  dfs_inv st → dfs_parents st = [] →
  (∃ st', foldM (dfsVisit fuel paths) l st = Ret st' ∧ dfs_step (.∈ l) st st') ∨
  topo_failed (foldM (dfsVisit fuel paths) l st).
Proof.
  intros Hvisit Hf. revert st. induction l as [|p l IH]; intros st Hl Hi Hpar; cbn [foldM].
  { left. exists st. split; [done|]. split_and!; [done|done|done|set_solver]. }
  destruct (Hvisit st p Hi) as [(st1 & -> & Hst1)|Hfail]; [by apply Hl; left| | | |].
  - pose proof (length_filter (.∉ dfs_visited st) paths). unfold not_visited. lia.
  - rewrite Hpar. set_solver.
  - cbn [mbind outcome_bind]. pose proof Hst1 as (Hi1 & Hp1 & _).
    destruct (IH st1) as [(st2 & -> & Hst2)|Hfail]; [|done| | |by right].
    + intros x Hx. apply Hl. by right.
    + destruct (dfs_parents st1) as [|x ?]; [done|]. exfalso. rewrite Hpar in Hp1.
      by apply (not_elem_of_nil x), Hp1, list_elem_of_here.
    + left. exists st2. split; [done|].
      eapply dfs_step_weaken; [|exact (dfs_step_trans _ _ _ _ _ Hst1 Hst2)].
      intros x. cbv beta. by rewrite elem_of_cons.
  - right. by apply topo_failed_bind.
Qed.

Lemma topo_sorted_acyclic l : topo_sorted l → NoDup l → (∀ x, x ∈ paths → x ∈ l) → ¬ cyclic.
Proof.
  intros Ht Hnd Hall [p [Hp Hc]].
  assert (∀ l1 l2 x y, l = l1 ++ x :: l2 → tc topo_edge x y → y ∈ l2) as Hlater.
  { intros l1 l2 x y E Hxy. revert l1 l2 E. induction Hxy as [x y Hxy|x y z Hxy _ IH]; intros l1 l2 E.
    - clear -E Hxy Ht. revert l E Ht. induction l1 as [|a l1 IH]; intros l -> [Ha Ht]; [by apply Ha|].
      by eapply IH.
    - assert (y ∈ l2) as Hy.
      { clear -E Hxy Ht. revert l E Ht. induction l1 as [|a l1 IH]; intros l -> [Ha Ht]; [by apply Ha|].
        by eapply IH. }
      apply list_elem_of_split in Hy as (k1 & k2 & ->). apply elem_of_app. right. right.
      apply (IH (l1 ++ x :: k1)). by rewrite E, <-app_assoc. }
  apply Hall, list_elem_of_split in Hp as (l1 & l2 & E). pose proof (Hlater _ _ _ _ E Hc) as Hin.
  rewrite E in Hnd. apply NoDup_app in Hnd as (_ & _ & Hnd). by apply NoDup_cons in Hnd as [? _].
Qed.

Lemma topoSortPaths_spec :
  set_wf paths → (∀ p, p ∈ paths → terminates (dfs_references p)) →
  (∃ sorted, topoSortPaths paths = Ret sorted ∧ sorted ≡ₚ paths ∧ topo_sorted sorted ∧ ¬ cyclic ∧
     ∀ p, p ∈ paths → ∃ es, dfs_references p = Ret es) ∨
  topo_failed (topoSortPaths paths).
Proof.
  intros Hwf Hq. unfold topoSortPaths.
  destruct (dfs_roots (S (S (length paths))) paths (mkDfsState [] [] []))
    as [(st & -> & Hi & _ & _ & Hd)|Hfail].
  - by apply dfsVisit_spec.
  - lia.
  - done.
  - split; cbn [dfs_visited dfs_sorted dfs_parents]; [set_solver|set_solver|constructor|done|set_solver|set_solver].
  - done.
  - left. exists (dfs_sorted st). split; [done|].
    assert (dfs_sorted st ≡ₚ paths) as Hperm.
    { apply NoDup_Permutation; [by eapply inv_nodup|by apply set_wf_nodup|].
      intros x. split; [by eapply inv_paths|by apply Hd]. }
    split_and!; [done|by eapply inv_topo| |].
    + apply (topo_sorted_acyclic (dfs_sorted st)); [by eapply inv_topo|by eapply inv_nodup|].
      intros x Hx. by rewrite Hperm.
    + intros p Hp. rewrite <-Hperm in Hp. by eapply inv_queried.
  - right. by apply topo_failed_bind.
Qed.
End topo_proofs.

(** * Properties *)

(** C34: [computeFSClosure] computes the closure. In every direction and with
    every choice of derivers and outputs, on a finite part [U] of the store in
    which the queries succeed, it returns, and adds to a closed set exactly the
    paths reachable from [path]; the result is closed again, so calls can be
    chained. The recursion depth needed is the number of paths not yet in the
    set. *)
Theorem computeFSClosure_correct `{StoreQueries} flip outs ders U fuel path paths :
  universe flip outs ders U → path ∈ U → closed flip outs ders paths →
  length U < fuel →
  ∃ paths', computeFSClosure flip outs ders fuel path paths = Ret paths' ∧
    (∀ q, q ∈ paths' ↔ q ∈ paths ∨ rtc (closure_edge flip outs ders) path q) ∧
    closed flip outs ders paths'.
Proof.
  intros HU Hp Hc Hf.
  destruct (closure_returns flip outs ders U fuel path paths HU Hp) as (paths' & E).
  { unfold missing. eapply Nat.le_lt_trans; [apply length_filter|done]. }
  exists paths'. split; [done|].
  destruct (grown_closed _ _ _ _ _ _ Hc (closure_grown _ _ _ _ _ _ _ E)) as [Hc' Hq].
  split; [|done]. intros q. rewrite Hq. naive_solver.
Qed.

(** C35: [topoSortPaths] sorts or finds a cycle. It ends, and either returns a
    permutation of the set in which every path comes before the other paths of
    the set it refers to, and then the references inside the set are acyclic;
    or it throws a [BuildError] and they have a cycle; or a query of the store
    threw, and it throws the same. *)
Theorem topoSortPaths_correct `{StoreQueries} paths :
  set_wf paths → (∀ p, p ∈ paths → terminates (dfs_references p)) →
  (∃ sorted, topoSortPaths paths = Ret sorted ∧ sorted ≡ₚ paths ∧ topo_sorted paths sorted ∧
     ¬ cyclic paths ∧ ∀ p, p ∈ paths → ∃ es, dfs_references p = Ret es) ∨
  (∃ m, topoSortPaths paths = Throw (BuildError m) ∧ cyclic paths) ∨
  (∃ e p, topoSortPaths paths = Throw e ∧ p ∈ paths ∧ dfs_references p = Throw e).
Proof. apply topoSortPaths_spec. Qed.

(** ** Witnesses *)

(** b refers to a and to itself; c and d refer to each other. *)
Definition sample_references (p : bytes) : strset :=
  if decide (p = str "b") then [str "a"; str "b"]
  else if decide (p = str "c") then [str "d"]
  else if decide (p = str "d") then [str "c"]
  else [].

Definition sample_store : StoreQueries := {|
  isValidPath p := Ret true;
  queryReferences p := Ret (sample_references p);
  queryReferrers p := Ret [];
  queryValidDerivers p := Ret [];
  queryDerivationOutputs p := Ret [];
  queryDeriver p := Ret []
|}.

Lemma computeFSClosure_correct_witness :
  ∃ paths', @computeFSClosure sample_store false false false 5 (str "b") [] = Ret paths' ∧
    (∀ q, q ∈ paths' ↔ q ∈ ([] : strset) ∨ rtc (@closure_edge sample_store false false false) (str "b") q) ∧
    @closed sample_store false false false paths'.
Proof.
  apply (@computeFSClosure_correct sample_store false false false
    [str "a"; str "b"; str "c"; str "d"] 5 (str "b") []).
  - intros p Hp. eexists. split; [reflexivity|]. intros q. unfold sample_references.
    repeat case_decide; set_solver.
  - set_solver.
  - intros q r Hq. by apply not_elem_of_nil in Hq.
  - simpl. lia.
Defined.

Lemma topoSortPaths_correct_witness :
  (∃ sorted, @topoSortPaths sample_store [str "a"; str "b"] = Ret sorted ∧
     sorted ≡ₚ [str "a"; str "b"] ∧ @topo_sorted sample_store [str "a"; str "b"] sorted ∧
     ¬ @cyclic sample_store [str "a"; str "b"] ∧
     ∀ p, p ∈ [str "a"; str "b"] → ∃ es, @dfs_references sample_store p = Ret es) ∨
  (∃ m, @topoSortPaths sample_store [str "a"; str "b"] = Throw (BuildError m) ∧
     @cyclic sample_store [str "a"; str "b"]) ∨
  (∃ e p, @topoSortPaths sample_store [str "a"; str "b"] = Throw e ∧ p ∈ [str "a"; str "b"] ∧
     @dfs_references sample_store p = Throw e).
Proof.
  apply (@topoSortPaths_correct sample_store).
  - repeat constructor.
  - intros p _. discriminate.
Defined.

Example topo_runs :
  @topoSortPaths sample_store [str "a"; str "b"] = Ret [str "b"; str "a"] ∧
  @topoSortPaths sample_store [str "b"; str "c"; str "d"] =
    Throw (BuildError "cycle detected in the references").
Proof. vm_compute. done. Qed.
