(* ===== verification/LocalDB.v ===== *)
(** libstore/local-store.cc and libstore/sqlite.cc: the database of valid paths.

    The tables are those of schema.sql with their constraints: unique paths,
    foreign keys (references restrict, referrers and derivation outputs
    cascade) and the trigger that drops self-references. A statement that
    violates a constraint throws [SQLiteError]; an operation that throws leaves
    the database as it was, since every transaction is rolled back. Files of
    the store are read through [readFile]; [now] is [time(0)]. *)

From S2P Require Import Prelude Containers Serialise Hash Paths StorePaths Derivations Closure.

(** * Tables *)

Record PathRow := mkPathRow {
  row_path : bytes;
  row_hash : bytes;
  row_registrationTime : Z;
  row_deriver : option bytes;
  row_narSize : option Z
}.

Record Database := mkDatabase {
  db_lastId : Z;                            (* the autoincrement counter *)
  db_ValidPaths : gmap Z PathRow;
  db_Refs : gset (Z * Z);                   (* referrer, reference *)
  db_DerivationOutputs : gmap (Z * bytes) bytes;
  db_FailedPaths : gmap bytes Z
}.

(** Strings are bound with [sqlite3_bind_text(stmt, n, value.c_str(), -1, ...)]. *)

(** * Statements *)

(** [where path = ?]: the row, if any, with this path. *)
Definition find_row (db : Database) (path : bytes) : option (Z * PathRow) :=
  snd <$> list_find (λ r, row_path r.2 = path) (map_to_list (db_ValidPaths db)).

Definition stmtRegisterValidPath (path hash : bytes) (time : Z) (deriver : option bytes)
    (narSize : option Z) (db : Database) : outcome Database :=
  match find_row db path with
  | Some _ => Throw (SQLiteError "UNIQUE constraint failed: ValidPaths.path")
  | None =>
      let id := (db_lastId db + 1)%Z in
      Ret (mkDatabase id (<[id := mkPathRow path hash time deriver narSize]> (db_ValidPaths db))
             (db_Refs db) (db_DerivationOutputs db) (db_FailedPaths db))
  end.

Definition stmtUpdatePathInfo (narSize : option Z) (hash path : bytes) (db : Database) : Database :=
  match find_row db path with
  | None => db
  | Some (id, r) =>
      mkDatabase (db_lastId db)
        (<[id := mkPathRow (row_path r) hash (row_registrationTime r) (row_deriver r) narSize]>
           (db_ValidPaths db))
        (db_Refs db) (db_DerivationOutputs db) (db_FailedPaths db)
  end.

Definition stmtAddReference (referrer reference : Z) (db : Database) : outcome Database :=
  if decide (is_Some (db_ValidPaths db !! referrer) ∧ is_Some (db_ValidPaths db !! reference)) then
    Ret (mkDatabase (db_lastId db) (db_ValidPaths db) ({[ (referrer, reference) ]} ∪ db_Refs db)
           (db_DerivationOutputs db) (db_FailedPaths db))
  else Throw (SQLiteError "FOREIGN KEY constraint failed").

Definition stmtAddDerivationOutput (drv : Z) (id path : bytes) (db : Database) : outcome Database :=
  if decide (is_Some (db_ValidPaths db !! drv)) then
    Ret (mkDatabase (db_lastId db) (db_ValidPaths db) (db_Refs db)
           (<[(drv, id) := path]> (db_DerivationOutputs db)) (db_FailedPaths db))
  else Throw (SQLiteError "FOREIGN KEY constraint failed").

(** [delete from ValidPaths where path = ?]: the trigger removes the
    self-reference, [on delete restrict] refuses when another path refers to
    this one, [on delete cascade] removes its own references and outputs. *)
Definition stmtInvalidatePath (path : bytes) (db : Database) : outcome Database :=
  match find_row db path with
  | None => Ret db
  | Some (id, _) =>
      let refs := filter (λ r, r ≠ (id, id)) (db_Refs db) in
      if decide (set_Exists (λ r, r.2 = id) refs) then
        Throw (SQLiteError "FOREIGN KEY constraint failed")
      else
        Ret (mkDatabase (db_lastId db) (delete id (db_ValidPaths db))
               (filter (λ r, r.1 ≠ id) refs)
               (filter (λ o, o.1.1 ≠ id) (db_DerivationOutputs db)) (db_FailedPaths db))
  end.

(** [select path from Refs join ValidPaths on reference = id where referrer = ?] *)
Definition stmtQueryReferences (referrer : Z) (db : Database) : list bytes :=
  omap (λ r, if decide (r.1 = referrer) then row_path <$> db_ValidPaths db !! r.2 else None)
    (elements (db_Refs db)).

Definition stmtQueryReferrers (path : bytes) (db : Database) : list bytes :=
  match find_row db path with
  | None => []
  | Some (id, _) =>
      omap (λ r, if decide (r.2 = id) then row_path <$> db_ValidPaths db !! r.1 else None)
        (elements (db_Refs db))
  end.

Definition stmtQueryValidDerivers (path : bytes) (db : Database) : list bytes :=
  omap (λ o, if decide (o.2 = path) then row_path <$> db_ValidPaths db !! o.1.1 else None)
    (map_to_list (db_DerivationOutputs db)).

(** The pairs (id, path). *)
Definition stmtQueryDerivationOutputs (drv : Z) (db : Database) : list (bytes * bytes) :=
  omap (λ o, if decide (o.1.1 = drv) then Some (o.1.2, o.2) else None)
    (map_to_list (db_DerivationOutputs db)).

Definition stmtQueryValidPaths (db : Database) : list bytes :=
  (λ r, row_path r.2) <$> map_to_list (db_ValidPaths db).

(** * Operations of [LocalStore] *)

Record ValidPathInfo := mkValidPathInfo {
  vp_path : bytes;
  vp_deriver : bytes;
  vp_hash : Hash;
  vp_references : strset;
  vp_registrationTime : Z;
  vp_narSize : Z;                           (* 0 = unknown *)
  vp_id : Z
}.

(** The member [drvHashes] is a global of derivations.cc. *)
Record LocalStore := mkLocalStore {
  ls_db : Database;
  ls_drvHashes : list (bytes * Hash)
}.

Section local_store.
Context `{Gcrypt}.
Variable nixStore : bytes.
Variable readFile : bytes → outcome bytes.
Variable now : Z.

Definition parseHashField (s : bytes) : outcome Hash :=
  match find_char ":"%byte s with
  | None => Throw (Error "corrupt hash in valid-path entry")
  | Some colon =>
      let ht := parseHashType (take colon s) in
      if decide (ht = htUnknown) then Throw (Error "unknown hash type in valid-path entry")
      else parseHash ht (drop (colon + 1) s)
  end.

(** [(value, notNull)]: a null when the flag is false. *)
Definition bind_opt {A} (value : A) (notNull : bool) : option A :=
  if notNull then Some value else None.

Definition isValidPath_ (path : bytes) (db : Database) : bool :=
  bool_decide (is_Some (find_row db (c_str path))).

Definition queryValidPathId (path : bytes) (db : Database) : outcome Z :=
  match find_row db (c_str path) with
  | None => Throw (Error "path is not valid")
  | Some (id, _) => Ret id
  end.

Definition queryPathInfo (path : bytes) (db : Database) : outcome ValidPathInfo :=
  assertStorePath nixStore path;;
  match find_row db (c_str path) with
  | None => Throw (Error "path is not valid")
  | Some (id, r) =>
      h ← parseHashField (row_hash r);
      Ret (mkValidPathInfo path (default [] (row_deriver r)) h
             (set_of_list (stmtQueryReferences id db)) (row_registrationTime r)
             (default 0%Z (row_narSize r)) id)
  end.

Definition db_queryReferences (path : bytes) (db : Database) : outcome strset :=
  info ← queryPathInfo path db; Ret (vp_references info).

Definition queryReferrers_ (path : bytes) (db : Database) : strset :=
  set_of_list (stmtQueryReferrers (c_str path) db).

Definition db_queryReferrers (path : bytes) (db : Database) : outcome strset :=
  assertStorePath nixStore path;; Ret (queryReferrers_ path db).

Definition db_queryDeriver (path : bytes) (db : Database) : outcome bytes :=
  info ← queryPathInfo path db; Ret (vp_deriver info).

Definition queryPathHash (path : bytes) (db : Database) : outcome Hash :=
  info ← queryPathInfo path db; Ret (vp_hash info).

Definition db_queryValidDerivers (path : bytes) (db : Database) : outcome strset :=
  assertStorePath nixStore path;; Ret (set_of_list (stmtQueryValidDerivers (c_str path) db)).

Definition db_queryDerivationOutputs (path : bytes) (db : Database) : outcome strset :=
  id ← queryValidPathId path db; Ret (set_of_list (stmtQueryDerivationOutputs id db).*2).

Definition queryDerivationOutputNames (path : bytes) (db : Database) : outcome strset :=
  id ← queryValidPathId path db; Ret (set_of_list (stmtQueryDerivationOutputs id db).*1).

Definition queryValidPaths (paths : strset) (db : Database) : strset :=
  foldl (λ res i, if isValidPath_ i db then set_insert i res else res) [] paths.

Definition queryAllValidPaths (db : Database) : strset := set_of_list (stmtQueryValidPaths db).

(** [path >= ? limit 1], answered from the index on [path]: the least such
    path; then the check that it starts with the prefix. *)
Definition queryPathFromHashPart (hashPart : bytes) (db : Database) : outcome bytes :=
  if decide (length hashPart = 32) then
    let prefix := nixStore ++ str "/" ++ hashPart in
    match filter (λ p, ¬ str_lt p (c_str prefix)) (queryAllValidPaths db) with
    | [] => Ret []
    | s :: _ => Ret (if starts_with prefix s then s else [])
    end
  else Throw (Error "invalid hash part").

(** The interface misc.cc uses, on a given database. *)
Definition local_queries (db : Database) : StoreQueries := {|
  isValidPath p := Ret (isValidPath_ p db);
  queryReferences p := db_queryReferences p db;
  queryReferrers p := db_queryReferrers p db;
  queryValidDerivers p := db_queryValidDerivers p db;
  queryDerivationOutputs p := db_queryDerivationOutputs p db;
  queryDeriver p := db_queryDeriver p db
|}.

(** ** Failed paths *)

(** [insert or ignore] *)
Definition registerFailedPath (path : bytes) (db : Database) : Database :=
  mkDatabase (db_lastId db) (db_ValidPaths db) (db_Refs db) (db_DerivationOutputs db)
    (match db_FailedPaths db !! c_str path with
     | Some _ => db_FailedPaths db
     | None => <[c_str path := now]> (db_FailedPaths db)
     end).

Definition hasPathFailed (path : bytes) (db : Database) : bool :=
  bool_decide (is_Some (db_FailedPaths db !! c_str path)).

Definition queryFailedPaths (db : Database) : strset :=
  set_of_list (map_to_list (db_FailedPaths db)).*1.

(** [delete from FailedPaths where ?1 = '*' or path = ?1 or path in (the
    outputs of the derivation ?1)] *)
Definition stmtClearFailedPath (path : bytes) (db : Database) : Database :=
  let outs := match find_row db path with
              | None => []
              | Some (id, _) => (stmtQueryDerivationOutputs id db).*2
              end in
  mkDatabase (db_lastId db) (db_ValidPaths db) (db_Refs db) (db_DerivationOutputs db)
    (filter (λ f, ¬ (path = str "*" ∨ f.1 = path ∨ f.1 ∈ outs)) (db_FailedPaths db)).

Definition clearFailedPaths (paths : strset) (db : Database) : Database :=
  foldl (λ db path, stmtClearFailedPath (c_str path) db) db paths.

(** ** Registration *)

(** The depth of the recursion of [hashDerivationModulo]: the inputs it follows
    are valid paths. *)
Definition drv_depth (db : Database) : nat := S (S (size (db_ValidPaths db))).

(** The copy in which the output paths and their variables are empty. *)
Definition mask_outputs (drv : Derivation) : Derivation :=
  let names := (outputs drv).*1 in
  mkDerivation
    ((λ i, (i.1, mkDerivationOutput [] (do_hashAlgo i.2) (do_hash i.2))) <$> outputs drv)
    (inputDrvs drv) (inputSrcs drv) (platform drv) (builder drv) (args drv)
    (foldl (λ env name, map_insert name [] env) (env drv) names).

(** The output [out] and the variable [id] are both [outPath]. *)
Definition output_correct (drv : Derivation) (id : bytes) (out : DerivationOutput) (outPath : bytes) : bool :=
  bool_decide (do_path out = outPath) && bool_decide (map_find id (env drv) = Some outPath).

Definition checkDerivationOutputs (drvPath : bytes) (drv : Derivation) (st : LocalStore)
    : outcome LocalStore :=
  drvName ← storePathToName nixStore drvPath;
  check (isDerivation drvName) (AssertionFailed "isDerivation(drvName)");;
  let drvName := take (length drvName - length drvExtension) drvName in
  if isFixedOutputDrv drv then
    match map_find (str "out") (outputs drv) with
    | None => Throw (Error "derivation does not have an output named `out'")
    | Some out =>
        '(recursive, ht, h) ← parseHashInfo out;
        outPath ← makeFixedOutputPath nixStore recursive ht h drvName;
        check (output_correct drv (str "out") out outPath) (Error "derivation has incorrect output");;
        Ret st
    end
  else
    '(h, drvHashes) ← hashDerivationModulo (λ p, isValidPath_ p (ls_db st)) readFile
      (drv_depth (ls_db st)) (ls_drvHashes st) (mask_outputs drv);
    foldM (λ _ i,
      outPath ← makeOutputPath nixStore i.1 h drvName;
      check (output_correct drv i.1 i.2 outPath) (Error "derivation has incorrect output"))
      (outputs drv) ();;
    Ret (mkLocalStore (ls_db st) drvHashes).

Definition hash_field (h : Hash) : outcome bytes :=
  hex ← printHash h; Ret (str "sha256:" ++ hex).

Definition addValidPath (info : ValidPathInfo) (checkOutputs : bool) (st : LocalStore)
    : outcome (Z * LocalStore) :=
  field ← hash_field (vp_hash info);
  db ← stmtRegisterValidPath (c_str (vp_path info)) (c_str field)
    (if decide (vp_registrationTime info = 0)%Z then now else vp_registrationTime info)
    (bind_opt (c_str (vp_deriver info)) (negb (bool_decide (vp_deriver info = []))))
    (bind_opt (vp_narSize info) (negb (bool_decide (vp_narSize info = 0%Z)))) (ls_db st);
  let id := db_lastId db in
  let st := mkLocalStore db (ls_drvHashes st) in
  if isDerivation (vp_path info) then
    drv ← readDerivation readFile (vp_path info);
    st ← (if checkOutputs then checkDerivationOutputs (vp_path info) drv st else Ret st);
    db ← foldM (λ db i, stmtAddDerivationOutput id (c_str i.1) (c_str (do_path i.2)) db)
      (outputs drv) (ls_db st);
    Ret (id, mkLocalStore db (ls_drvHashes st))
  else Ret (id, st).

Definition updatePathInfo (info : ValidPathInfo) (db : Database) : outcome Database :=
  field ← hash_field (vp_hash info);
  Ret (stmtUpdatePathInfo (bind_opt (vp_narSize info) (negb (bool_decide (vp_narSize info = 0%Z))))
         (c_str field) (c_str (vp_path info)) db).

(** The first loop of [registerValidPaths]. *)
Definition register_path (st : LocalStore) (i : ValidPathInfo) : outcome LocalStore :=
  check (bool_decide (hash_type (vp_hash i) = htSHA256)) (AssertionFailed "i->hash.type == htSHA256");;
  if isValidPath_ (vp_path i) (ls_db st) then
    db ← updatePathInfo i (ls_db st); Ret (mkLocalStore db (ls_drvHashes st))
  else '(_, st) ← addValidPath i false st; Ret st.

(** The second one. *)
Definition register_references (db : Database) (i : ValidPathInfo) : outcome Database :=
  referrer ← queryValidPathId (vp_path i) db;
  foldM (λ db j, reference ← queryValidPathId j db; stmtAddReference referrer reference db)
    (vp_references i) db.

Definition check_registered (st : LocalStore) (i : ValidPathInfo) : outcome LocalStore :=
  if isDerivation (vp_path i) then
    drv ← readDerivation readFile (vp_path i);
    checkDerivationOutputs (vp_path i) drv st
  else Ret st.

Definition registerValidPaths (infos : list ValidPathInfo) (st : LocalStore) : outcome LocalStore :=
  st ← foldM register_path infos st;
  let paths := set_of_list (vp_path <$> infos) in
  db ← foldM register_references infos (ls_db st);
  let st := mkLocalStore db (ls_drvHashes st) in
  st ← foldM check_registered infos st;
  @topoSortPaths (local_queries (ls_db st)) paths;;
  Ret st.

Definition registerValidPath (info : ValidPathInfo) (st : LocalStore) : outcome LocalStore :=
  registerValidPaths [info] st.

(** ** Invalidation *)

Definition invalidatePath (path : bytes) (st : LocalStore) : outcome LocalStore :=
  let drvHashes := map_erase path (ls_drvHashes st) in
  db ← stmtInvalidatePath (c_str path) (ls_db st);
  Ret (mkLocalStore db drvHashes).

Definition invalidatePathChecked (path : bytes) (st : LocalStore) : outcome LocalStore :=
  assertStorePath nixStore path;;
  if isValidPath_ path (ls_db st) then
    let referrers := set_erase path (queryReferrers_ path (ls_db st)) in
    if decide (referrers = []) then invalidatePath path st
    else Throw (PathInUse "cannot delete path because it is in use")
  else Ret st.
End local_store.

(** * The tables as a graph of paths *)

(** What the constraints of the schema maintain. *)
Record db_ok (db : Database) : Prop := {
  ok_ids id r : db_ValidPaths db !! id = Some r → (0 < id <= db_lastId db)%Z;
  ok_counter : (0 <= db_lastId db)%Z;
  ok_unique id id' r r' :
    db_ValidPaths db !! id = Some r → db_ValidPaths db !! id' = Some r' →
    row_path r = row_path r' → id = id';
  ok_refs r : r ∈ db_Refs db →
    is_Some (db_ValidPaths db !! r.1) ∧ is_Some (db_ValidPaths db !! r.2);
  ok_drv_outputs d p : db_DerivationOutputs db !! d = Some p → is_Some (db_ValidPaths db !! d.1)
}.

Definition empty_database : Database := mkDatabase 0 ∅ ∅ ∅ ∅.

Lemma empty_ok : db_ok empty_database.
Proof. split; set_solver. Qed.

(** [path] is valid; [p] has a reference to [q]. *)
Definition has_path (db : Database) (id : Z) (path : bytes) : Prop :=
  ∃ r, db_ValidPaths db !! id = Some r ∧ row_path r = path.
Definition valid (db : Database) (path : bytes) : Prop := ∃ id, has_path db id path.
Definition refers (db : Database) (p q : bytes) : Prop :=
  ∃ i j, has_path db i p ∧ has_path db j q ∧ (i, j) ∈ db_Refs db.

Lemma find_row_Some db path id r :
  find_row db path = Some (id, r) → db_ValidPaths db !! id = Some r ∧ row_path r = path.
Proof.
  unfold find_row. intros ((n & [id' r']) & E & [= -> ->])%fmap_Some.
  apply list_find_Some in E as (Hl & Hp & _). split; [|done].
  apply elem_of_map_to_list. by eapply list_elem_of_lookup_2.
Qed.

Lemma find_row_None db path : find_row db path = None ↔ ¬ valid db path.
Proof.
  unfold find_row, valid, has_path. rewrite fmap_None, list_find_None, Forall_forall. split.
  - intros Hn (id & r & Hr & Hp). apply (Hn (id, r)); [by apply elem_of_map_to_list|done].
  - intros Hn [id r] Hr%elem_of_map_to_list Hp. simpl in Hp. naive_solver.
Qed.

Lemma has_path_unique db id id' path : db_ok db → has_path db id path → has_path db id' path → id = id'.
Proof. intros Hok (r & Hr & Hp) (r' & Hr' & Hp'). eapply ok_unique; eauto. congruence. Qed.

Lemma has_path_fun db id p q : has_path db id p → has_path db id q → p = q.
Proof. intros (r & Hr & <-) (r' & Hr' & <-). congruence. Qed.

Lemma find_row_has db path : (∃ id, has_path db id path) → ∃ id r, find_row db path = Some (id, r) ∧ has_path db id path.
Proof.
  intros Hv. destruct (find_row db path) as [[id r]|] eqn:E.
  - exists id, r. split; [done|]. apply find_row_Some in E as [? ?]. by exists r.
  - by apply find_row_None in E.
Qed.

Lemma isValidPath_spec db path : isValidPath_ path db = true ↔ valid db (c_str path).
Proof.
  unfold isValidPath_. rewrite bool_decide_eq_true. split.
  - intros [[id r] E]. apply find_row_Some in E as [? ?]. by exists id, r.
  - intros Hv. destruct (find_row_has db (c_str path) Hv) as (id & r & -> & _). done.
Qed.

(** ** Effect of the statements on the graph *)

(** The rows changed, but not which id has which path, nor the references. *)
Definition same_graph (db db' : Database) : Prop :=
  (∀ id p, has_path db' id p ↔ has_path db id p) ∧ db_Refs db' = db_Refs db.

Lemma same_graph_valid db db' p : same_graph db db' → valid db' p ↔ valid db p.
Proof. intros [Hp _]. unfold valid. by setoid_rewrite Hp. Qed.

Lemma same_graph_refers db db' p q : same_graph db db' → refers db' p q ↔ refers db p q.
Proof. intros [Hp Hr]. unfold refers. rewrite Hr. by setoid_rewrite Hp. Qed.

#[global] Instance same_graph_refl : Reflexive same_graph.
Proof. intros db. done. Qed.

#[global] Instance same_graph_trans : Transitive same_graph.
Proof. intros a b c [H1 H2] [H3 H4]. split; [|congruence]. intros. by rewrite H3, H1. Qed.

Lemma has_path_is_Some db id : (∃ p, has_path db id p) ↔ is_Some (db_ValidPaths db !! id).
Proof. unfold has_path, is_Some. naive_solver. Qed.

Lemma stmtRegisterValidPath_spec p h t d n db db' :
  db_ok db → stmtRegisterValidPath p h t d n db = Ret db' →
  db_ok db' ∧ ¬ valid db p ∧ db_ValidPaths db !! db_lastId db' = None ∧ db_Refs db' = db_Refs db ∧
  ∀ id q, has_path db' id q ↔ has_path db id q ∨ id = db_lastId db' ∧ q = p.
Proof.
  intros Hok. unfold stmtRegisterValidPath.
  destruct (find_row db p) as [[id r]|] eqn:E; [done|]. apply find_row_None in E.
  intros [= <-]. set (new := (db_lastId db + 1)%Z).
  assert (db_ValidPaths db !! new = None) as Hnew.
  { destruct (db_ValidPaths db !! new) as [r|] eqn:Er; [|done]. apply (ok_ids _ Hok) in Er. lia. }
  assert (∀ id, is_Some (db_ValidPaths db !! id) →
    is_Some ((<[new := mkPathRow p h t d n]> (db_ValidPaths db)) !! id)) as Hmono.
  { intros id ?. apply lookup_insert_is_Some'. by right. }
  assert (∀ id q, has_path (mkDatabase new (<[new := mkPathRow p h t d n]> (db_ValidPaths db)) (db_Refs db)
    (db_DerivationOutputs db) (db_FailedPaths db)) id q ↔ has_path db id q ∨ id = new ∧ q = p) as Hhas.
  { intros id q. unfold has_path. simpl. split.
    - intros (r & Hr & <-). apply lookup_insert_Some in Hr as [[<- <-]|[Hne Hr]]; [by right|left; eauto].
    - intros [(r & Hr & <-)|[-> ->]]; [|eexists; by rewrite lookup_insert_eq].
      exists r. rewrite lookup_insert_ne; [done|]. congruence. }
  split_and!; [|done|done|done|done].
  pose proof (ok_counter _ Hok). split; cbn [db_lastId db_ValidPaths db_Refs db_DerivationOutputs].
  - intros id r [[<- <-]|[_ Hr]]%lookup_insert_Some; [lia|]. apply (ok_ids _ Hok) in Hr. lia.
  - lia.
  - intros id id' r r' [[<- <-]|[Hne Hr]]%lookup_insert_Some [[<- <-]|[Hne' Hr']]%lookup_insert_Some Hp;
      simpl in Hp; [done| | |by eapply ok_unique]; exfalso; apply E; [exists id', r'|exists id, r]; done.
  - intros r Hr. destruct (ok_refs _ Hok r Hr). eauto.
  - intros dd pp Hd. apply (ok_drv_outputs _ Hok) in Hd. eauto.
Qed.

Lemma stmtUpdatePathInfo_spec n h p db :
  db_ok db → db_ok (stmtUpdatePathInfo n h p db) ∧ same_graph db (stmtUpdatePathInfo n h p db).
Proof.
  intros Hok. unfold stmtUpdatePathInfo. destruct (find_row db p) as [[id0 r0]|] eqn:E; [|by split].
  apply find_row_Some in E as [E _].
  set (row := mkPathRow _ _ _ _ _).
  assert (∀ id r, (<[id0 := row]> (db_ValidPaths db)) !! id = Some r →
    ∃ r', db_ValidPaths db !! id = Some r' ∧ row_path r' = row_path r) as Hback.
  { intros id r [[<- <-]|[_ Hr]]%lookup_insert_Some; [by exists r0|by exists r]. }
  split.
  - split; cbn [db_lastId db_ValidPaths db_Refs db_DerivationOutputs].
    + intros id r (r' & Hr' & _)%Hback. by apply (ok_ids _ Hok) in Hr'.
    + apply (ok_counter _ Hok).
    + intros id id' r r' (s & Hs & Es)%Hback (s' & Hs' & Es')%Hback Hp. eapply ok_unique; eauto. congruence.
    + intros r Hr. rewrite !lookup_insert_is_Some'. destruct (ok_refs _ Hok r Hr). auto.
    + intros d q Hd. rewrite lookup_insert_is_Some'. right. by eapply ok_drv_outputs.
  - split; [|done]. intros id q. unfold has_path. cbn [db_ValidPaths]. split.
    + intros (r & (r' & Hr' & E')%Hback & <-). eauto.
    + intros (r & Hr & <-). destruct (decide (id = id0)) as [->|Hne].
      * exists row. rewrite lookup_insert_eq. by simplify_eq.
      * exists r. by rewrite lookup_insert_ne.
Qed.

Lemma stmtAddReference_spec i j p q db :
  db_ok db → has_path db i p → has_path db j q →
  ∃ db', stmtAddReference i j db = Ret db' ∧ db_ok db' ∧
    (∀ id x, has_path db' id x ↔ has_path db id x) ∧
    (∀ a b, refers db' a b ↔ refers db a b ∨ a = p ∧ b = q).
Proof.
  intros Hok Hi Hj. unfold stmtAddReference.
  assert (is_Some (db_ValidPaths db !! i) ∧ is_Some (db_ValidPaths db !! j)) as Hij.
  { split; apply has_path_is_Some; eauto. }
  rewrite decide_True by done. eexists. split; [done|]. split_and!.
  - destruct Hok. split; cbn [db_lastId db_ValidPaths db_Refs db_DerivationOutputs]; try done.
    intros r [->%elem_of_singleton|Hr]%elem_of_union; [done|]. by auto.
  - done.
  - intros a b. unfold refers. cbn [db_Refs]. split.
    + intros (x & y & Hx & Hy & [[= -> ->]%elem_of_singleton|Hr]%elem_of_union); [|left; by exists x, y].
      right. split; by eapply has_path_fun.
    + intros [(x & y & Hx & Hy & Hr)|[-> ->]]; [exists x, y|exists i, j]; split_and!; set_solver.
Qed.

Lemma stmtAddDerivationOutput_spec d id p db db' :
  db_ok db → stmtAddDerivationOutput d id p db = Ret db' → db_ok db' ∧ same_graph db db'.
Proof.
  intros Hok. unfold stmtAddDerivationOutput. case_decide as Hd; [|done]. intros [= <-]. split; [|done].
  destruct Hok. split; cbn [db_lastId db_ValidPaths db_Refs db_DerivationOutputs]; try done.
  intros dd q [[<- <-]|[_ Hq]]%lookup_insert_Some; [done|]. eauto.
Qed.

Lemma stmtInvalidatePath_spec path db :
  db_ok db → (∀ q, refers db q path → q = path) →
  ∃ db', stmtInvalidatePath path db = Ret db' ∧ db_ok db' ∧
    (∀ id q, has_path db' id q ↔ has_path db id q ∧ q ≠ path) ∧
    (∀ a b, refers db' a b ↔ refers db a b ∧ a ≠ path ∧ b ≠ path).
Proof.
  intros Hok Hin. unfold stmtInvalidatePath. destruct (find_row db path) as [[id r]|] eqn:E.
  2: { apply find_row_None in E. exists db. split_and!; [done|done| |].
    - intros id q. split; [|naive_solver]. intros Hq. split; [done|]. intros ->. apply E. by exists id.
    - intros a b. split; [|naive_solver]. intros Hab. split_and!; [done| |]; intros ->;
        apply E; destruct Hab as (i & j & ? & ? & _); [by exists i|by exists j]. }
  apply find_row_Some in E as [Er Ep]. assert (has_path db id path) as Hid by (by exists r).
  assert (∀ i, (i, id) ∈ db_Refs db → i = id) as Honly.
  { intros i Hi. destruct (ok_refs _ Hok _ Hi) as [Hs _]. simpl in Hs.
    apply has_path_is_Some in Hs as [p Hp]. assert (p = path) as -> by (apply Hin; by exists i, id).
    by eapply has_path_unique. }
  rewrite decide_False.
  2: { intros ([i j] & [Hne Hr]%elem_of_filter & Hj). simpl in Hj. subst j. apply Hne.
    by rewrite (Honly i Hr). }
  eexists. split; [done|].
  set (db' := mkDatabase _ _ _ _ _).
  assert (∀ i q, has_path db' i q ↔ has_path db i q ∧ q ≠ path) as Hhas.
  { intros i q. unfold has_path at 1. unfold db'. cbn [db_ValidPaths]. setoid_rewrite lookup_delete_Some.
    split.
    - intros (x & [Hne Hx] & <-). split; [by exists x|]. intros Hp. apply Hne.
      eapply (ok_unique _ Hok); eauto. congruence.
    - intros [(x & Hx & <-) Hq]. exists x. split; [|done]. split; [|done]. intros <-. congruence. }
  assert (∀ i j, (i, j) ∈ db_Refs db' ↔ (i, j) ∈ db_Refs db ∧ i ≠ id ∧ j ≠ id) as Hrefs.
  { intros i j. unfold db'. cbn [db_Refs]. rewrite !elem_of_filter. simpl. split.
    - intros (Hi & Hne & Hr). split_and!; [done|done|]. intros ->. apply Hi. by apply Honly.
    - intros (Hr & Hi & Hj). split_and!; [done|congruence|done]. }
  split_and!; [|done|].
  - split; [| | |intros [i j] (Hr & Hi & Hj)%Hrefs; simpl|intros [d x] p]; unfold db';
      cbn [db_lastId db_ValidPaths db_Refs db_DerivationOutputs].
    + intros i x [_ Hx]%lookup_delete_Some. by apply (ok_ids _ Hok) in Hx.
    + apply (ok_counter _ Hok).
    + intros i i' x x' [_ Hx]%lookup_delete_Some [_ Hx']%lookup_delete_Some. by eapply ok_unique.
    + rewrite !lookup_delete_is_Some. destruct (ok_refs _ Hok _ Hr). naive_solver.
    + intros [Hp Hd]%map_lookup_filter_Some. simpl in *. rewrite lookup_delete_is_Some.
      apply (ok_drv_outputs _ Hok) in Hp. naive_solver.
  - intros a b. unfold refers. setoid_rewrite Hhas. setoid_rewrite Hrefs. split.
    + intros (i & j & [Hi Ha] & [Hj Hb] & Hr & _). split_and!; [|done|done]. by exists i, j.
    + intros ((i & j & Hi & Hj & Hr) & Ha & Hb). exists i, j. split_and!; try done.
      * intros ->. by apply Ha, (has_path_fun db id).
      * intros ->. by apply Hb, (has_path_fun db id).
Qed.

Lemma queryReferrers_spec path db q :
  db_ok db → q ∈ queryReferrers_ path db ↔ refers db q (c_str path).
Proof.
  intros Hok. unfold queryReferrers_, stmtQueryReferrers. rewrite elem_of_set_of_list.
  destruct (find_row db (c_str path)) as [[id r]|] eqn:E.
  - apply find_row_Some in E as [Er Ep]. rewrite list_elem_of_omap. split.
    + intros ([i j] & Hr%elem_of_elements & Hq). simpl in Hq. case_decide as Hj; [|done]. subst j.
      apply fmap_Some in Hq as (x & Hx & ->). exists i, id. split_and!; [by exists x|by exists r|done].
    + intros (i & j & (x & Hx & <-) & Hj & Hr). assert (j = id) as ->.
      { eapply has_path_unique; [done..|]. by exists r. }
      exists (i, id). split; [by apply elem_of_elements|]. simpl. rewrite decide_True by done. by rewrite Hx.
  - apply find_row_None in E. split; [set_solver|]. intros (i & j & _ & Hj & _). exfalso. apply E. by exists j.
Qed.

Lemma stmtQueryReferences_spec id p db q :
  db_ok db → has_path db id p → q ∈ stmtQueryReferences id db ↔ refers db p q.
Proof.
  intros Hok Hid. unfold stmtQueryReferences. rewrite list_elem_of_omap. split.
  - intros ([i j] & Hr%elem_of_elements & Hq). simpl in Hq. case_decide as Hi; [|done]. subst i.
    apply fmap_Some in Hq as (x & Hx & ->). exists id, j. split_and!; [done|by exists x|done].
  - intros (i & j & Hi & (x & Hx & <-) & Hr). assert (i = id) as -> by (by eapply has_path_unique).
    exists (id, j). split; [by apply elem_of_elements|]. simpl. rewrite decide_True by done. by rewrite Hx.
Qed.

(** * Registration *)

Section registration.
Context `{Gcrypt}.
Variable nixStore : bytes.
Variable readFile : bytes → outcome bytes.
Variable now : Z.

(** A step that keeps the schema's constraints, makes [ps] valid and adds the
    references [es]. *)
Definition adds (ps : bytes → Prop) (es : bytes → bytes → Prop) (db db' : Database) : Prop :=
  db_ok db' ∧ (∀ q, valid db' q ↔ valid db q ∨ ps q) ∧
  (∀ a b, refers db' a b ↔ refers db a b ∨ es a b).

Lemma adds_trans ps es ps' es' db db1 db2 :
  adds ps es db db1 → adds ps' es' db1 db2 →
  adds (λ q, ps q ∨ ps' q) (λ a b, es a b ∨ es' a b) db db2.
Proof.
  intros (_ & A2 & A3) (B1 & B2 & B3). split_and!; [done| |].
  - intros q. rewrite B2, A2. tauto.
  - intros a b. rewrite B3, A3. tauto.
Qed.

Lemma adds_ext (ps ps' : bytes → Prop) (es es' : bytes → bytes → Prop) db db' :
  (∀ q, ps q ↔ ps' q) → (∀ a b, es a b ↔ es' a b) → adds ps es db db' → adds ps' es' db db'.
Proof.
  intros Hp He (A1 & A2 & A3). split_and!; [done| |].
  - intros q. by rewrite A2, Hp.
  - intros a b. by rewrite A3, He.
Qed.

Lemma adds_same db db' :
  db_ok db' → same_graph db db' → adds (λ _, False) (λ _ _, False) db db'.
Proof.
  intros Hok Hs. split_and!; [done| |].
  - intros q. rewrite (same_graph_valid _ _ _ Hs). tauto.
  - intros a b. rewrite (same_graph_refers _ _ _ _ Hs). tauto.
Qed.

Lemma adds_foldM {A} (body : Database → A → outcome Database) (ps : A → bytes → Prop)
    (es : A → bytes → bytes → Prop) l db db' :
  (∀ db x db', x ∈ l → db_ok db → body db x = Ret db' → adds (ps x) (es x) db db') →
  db_ok db → foldM body l db = Ret db' →
  adds (λ q, ∃ x, x ∈ l ∧ ps x q) (λ a b, ∃ x, x ∈ l ∧ es x a b) db db'.
Proof.
  intros Hb. revert db. induction l as [|x l IH]; intros db Hok; cbn [foldM].
  { intros [= <-]. eapply adds_ext; [| |by apply adds_same]; set_solver. }
  intros (db1 & E1 & E2)%bind_Ret_inv. apply Hb in E1 as Ha1; [|by left|done].
  pose proof Ha1 as (Hok1 & _).
  apply IH in E2 as Ha2; [|intros; eapply Hb; [by right|done|done]|done].
  eapply adds_ext; [| |exact (adds_trans _ _ _ _ _ _ _ Ha1 Ha2)].
  - intros q. cbv beta. setoid_rewrite elem_of_cons. naive_solver.
  - intros a b. cbv beta. setoid_rewrite elem_of_cons. naive_solver.
Qed.

Lemma register_adds p h t d n db db' :
  db_ok db → stmtRegisterValidPath p h t d n db = Ret db' → adds (.= p) (λ _ _, False) db db'.
Proof.
  intros Hok E. destruct (stmtRegisterValidPath_spec _ _ _ _ _ _ _ Hok E) as (Hok' & Hnv & Hnew & Hr & Hp).
  split_and!; [done| |].
  - intros q. unfold valid. setoid_rewrite Hp. split; [naive_solver|]. intros [[id ?]| ->]; eauto.
  - intros a b. unfold refers. rewrite Hr. setoid_rewrite Hp. split; [|naive_solver].
    intros (i & j & Hi & Hj & Hij). destruct (ok_refs _ Hok _ Hij) as [Hs1 Hs2]. cbn [fst snd] in *.
    assert (∀ k x, is_Some (db_ValidPaths db !! k) → has_path db k x ∨ k = db_lastId db' ∧ x = p →
      has_path db k x) as Hold.
    { intros k x [r Hk] [?|[-> ->]]; [done|]. congruence. }
    left. exists i, j. eauto.
Qed.

Lemma checkDerivationOutputs_db drvPath drv st st' :
  checkDerivationOutputs nixStore readFile drvPath drv st = Ret st' → ls_db st' = ls_db st.
Proof.
  unfold checkDerivationOutputs. intros (n & _ & E)%bind_Ret_inv.
  apply bind_Ret_inv in E as ([] & _ & E). case_match.
  - case_match; [|done]. apply bind_Ret_inv in E as ([[r ht] h] & _ & E).
    apply bind_Ret_inv in E as (o & _ & E). apply bind_Ret_inv in E as ([] & _ & E). by simplify_eq.
  - apply bind_Ret_inv in E as ([h m] & _ & E). apply bind_Ret_inv in E as ([] & _ & E). by simplify_eq.
Qed.

Lemma add_outputs_same id l db db' :
  db_ok db → foldM (λ db i, stmtAddDerivationOutput id (c_str i.1) (c_str (do_path i.2)) db) l db = Ret db' →
  db_ok db' ∧ same_graph db db'.
Proof.
  intros Hok. apply (foldM_inv (λ db', db_ok db' ∧ same_graph db db')); [|done].
  intros db1 x db2 _ [Hok1 Hs1] E. apply stmtAddDerivationOutput_spec in E as [Hok2 Hs2]; [|done].
  split; [done|by etrans].
Qed.

Lemma addValidPath_adds info co st id st' :
  db_ok (ls_db st) → addValidPath nixStore readFile now info co st = Ret (id, st') →
  adds (.= c_str (vp_path info)) (λ _ _, False) (ls_db st) (ls_db st').
Proof.
  intros Hok. unfold addValidPath. intros (field & _ & E)%bind_Ret_inv.
  apply bind_Ret_inv in E as (db & E1 & E). apply register_adds in E1 as Ha; [|done].
  destruct (isDerivation (vp_path info)); [|by simplify_eq].
  apply bind_Ret_inv in E as (drv & _ & E). apply bind_Ret_inv in E as (st1 & Ec & E).
  assert (ls_db st1 = db) as Hdb.
  { destruct co; [by apply checkDerivationOutputs_db in Ec|by simplify_eq]. }
  apply bind_Ret_inv in E as (db2 & E2 & E). simplify_eq. cbn [ls_db].
  destruct Ha as (Hok1 & Hv & Hr). apply add_outputs_same in E2 as [Hok2 Hs]; [|done].
  split_and!; [done| |].
  - intros q. by rewrite (same_graph_valid _ _ _ Hs), Hv.
  - intros a b. by rewrite (same_graph_refers _ _ _ _ Hs), Hr.
Qed.

Lemma register_path_adds st i st' :
  db_ok (ls_db st) → register_path nixStore readFile now st i = Ret st' →
  adds (.= c_str (vp_path i)) (λ _ _, False) (ls_db st) (ls_db st').
Proof.
  intros Hok. unfold register_path. intros ([] & _ & E)%bind_Ret_inv.
  destruct (isValidPath_ (vp_path i) (ls_db st)) eqn:Hv.
  - apply isValidPath_spec in Hv. apply bind_Ret_inv in E as (db & E & ?). simplify_eq. cbn [ls_db].
    unfold updatePathInfo in E. apply bind_Ret_inv in E as (field & _ & E). simplify_eq.
    match goal with |- adds _ _ _ (stmtUpdatePathInfo ?n ?h ?p ?db) =>
      destruct (stmtUpdatePathInfo_spec n h p db Hok) as [Hok' Hs] end.
    split_and!; [done| |].
    + intros q. rewrite (same_graph_valid _ _ _ Hs). naive_solver.
    + intros a b. rewrite (same_graph_refers _ _ _ _ Hs). naive_solver.
  - apply bind_Ret_inv in E as ([id st1] & E & ?). simplify_eq. by eapply addValidPath_adds.
Qed.

Lemma queryValidPathId_spec path db id :
  queryValidPathId path db = Ret id → has_path db id (c_str path).
Proof.
  unfold queryValidPathId. destruct (find_row db (c_str path)) as [[i r]|] eqn:E; [|done].
  intros [= ->]. apply find_row_Some in E as [? ?]. by exists r.
Qed.

(** The references of one path, all of which are valid. *)
Lemma register_references_adds db i db' :
  db_ok db → register_references db i = Ret db' →
  adds (λ _, False) (λ a b, a = c_str (vp_path i) ∧ ∃ j, j ∈ vp_references i ∧ b = c_str j) db db' ∧
  (∀ j, j ∈ vp_references i → valid db (c_str j)).
Proof.
  intros Hok. unfold register_references. intros (id & Hid%queryValidPathId_spec & E)%bind_Ret_inv.
  generalize dependent db. induction (vp_references i) as [|j l IH]; intros db Hok Hid; cbn [foldM].
  { intros [= <-]. split; [|set_solver]. eapply adds_ext; [| |by apply adds_same]; set_solver. }
  intros (db1 & E1 & E2)%bind_Ret_inv. apply bind_Ret_inv in E1 as (jd & Hj%queryValidPathId_spec & E1).
  destruct (stmtAddReference_spec id jd _ _ db Hok Hid Hj) as (db1' & E1' & Hok1 & Hp1 & Hr1).
  assert (db1' = db1) as -> by congruence.
  apply IH in E2 as [(Hok2 & Hv2 & Hr2) Hall]; [|done|by apply Hp1].
  assert (∀ q, valid db1 q ↔ valid db q) as Hv1 by (intros q; unfold valid; by setoid_rewrite Hp1).
  split; [split_and!; [done| |]|].
  - intros q. by rewrite Hv2, Hv1.
  - intros a b. rewrite Hr2, Hr1. setoid_rewrite elem_of_cons. naive_solver.
  - intros k [->|Hk]%elem_of_cons; [by exists jd|]. by apply Hv1, Hall.
Qed.

Lemma foldM_register_path infos st st' :
  db_ok (ls_db st) → foldM (register_path nixStore readFile now) infos st = Ret st' →
  adds (λ q, ∃ i, i ∈ infos ∧ q = c_str (vp_path i)) (λ _ _, False) (ls_db st) (ls_db st').
Proof.
  revert st. induction infos as [|i infos IH]; intros st Hok; cbn [foldM].
  { intros [= <-]. eapply adds_ext; [| |by apply adds_same]; set_solver. }
  intros (st1 & E1 & E2)%bind_Ret_inv. apply register_path_adds in E1 as Ha1; [|done].
  apply IH in E2 as Ha2; [|by destruct Ha1].
  eapply adds_ext; [| |exact (adds_trans _ _ _ _ _ _ _ Ha1 Ha2)].
  - intros q. cbv beta. setoid_rewrite elem_of_cons. naive_solver.
  - naive_solver.
Qed.

Lemma foldM_check_registered infos st st' :
  foldM (check_registered nixStore readFile) infos st = Ret st' → ls_db st' = ls_db st.
Proof.
  apply (foldM_inv (λ st', ls_db st' = ls_db st)); [|done].
  intros st1 i st2 _ <-. unfold check_registered. case_match; [|by intros [= <-]].
  intros (drv & _ & E)%bind_Ret_inv. by apply checkDerivationOutputs_db in E.
Qed.

(** What [registerValidPaths] does to the graph. *)
Lemma registerValidPaths_adds infos st st' :
  db_ok (ls_db st) → registerValidPaths nixStore readFile now infos st = Ret st' →
  adds (λ q, ∃ i, i ∈ infos ∧ q = c_str (vp_path i))
    (λ a b, ∃ i j, i ∈ infos ∧ j ∈ vp_references i ∧ a = c_str (vp_path i) ∧ b = c_str j)
    (ls_db st) (ls_db st') ∧
  ∃ sorted, @topoSortPaths (local_queries nixStore (ls_db st')) (set_of_list (vp_path <$> infos)) = Ret sorted.
Proof.
  intros Hok. unfold registerValidPaths. intros (st1 & E1 & E)%bind_Ret_inv.
  apply bind_Ret_inv in E as (db2 & E2 & E). apply bind_Ret_inv in E as (st3 & E3 & E).
  apply bind_Ret_inv in E as (sorted & E4 & ?). simplify_eq.
  apply foldM_check_registered in E3. cbn [ls_db] in E3.
  apply foldM_register_path in E1 as Ha1; [|done].
  apply (adds_foldM _ (λ _ _, False) (λ i a b, a = c_str (vp_path i) ∧ ∃ j, j ∈ vp_references i ∧ b = c_str j))
    in E2 as Ha2; [|by intros ? ? ? _ ? [? _]%register_references_adds|by destruct Ha1].
  split; [|by eexists]. rewrite E3.
  eapply adds_ext; [| |exact (adds_trans _ _ _ _ _ _ _ Ha1 Ha2)]; naive_solver.
Qed.

(** ** Acyclicity *)

(** A reference to another path. *)
Definition ref_edge (db : Database) (p q : bytes) : Prop := refers db p q ∧ q ≠ p.
Definition acyclic (db : Database) : Prop := ∀ p, ¬ tc (ref_edge db) p p.

Lemma parseHash_terminates ht s : terminates (parseHash ht s).
Proof.
  unfold parseHash. apply bind_terminates.
  { unfold Hash_new. case_decide; [done|]. apply bind_terminates; [apply check_terminates|done]. }
  intros h _. apply bind_terminates; [apply check_terminates|]. intros _ _.
  apply bind_terminates; [|done]. generalize (hashSize h), (hash h), 0. intros n. 
  induction n as [|n IH]; intros l k; [done|]. cbn [parseHash_loop].
  repeat case_match; try done. apply bind_terminates; [unfold hash_set; by case_decide|]. intros; apply IH.
Qed.

Lemma queryPathInfo_terminates path db : terminates (queryPathInfo nixStore path db).
Proof.
  unfold queryPathInfo. apply bind_terminates; [apply check_terminates|]. intros _ _.
  destruct (find_row db (c_str path)) as [[id r]|]; [|done]. apply bind_terminates; [|done].
  unfold parseHashField. repeat case_match; try done. apply parseHash_terminates.
Qed.

Lemma local_dfs_references_terminates db p :
  terminates (@dfs_references (local_queries nixStore db) p).
Proof.
  unfold dfs_references. simpl. case_match; [|done]. apply bind_terminates; [apply queryPathInfo_terminates|done].
Qed.

(** What the queries of the sort return. *)
Lemma local_dfs_references_spec db p es :
  db_ok db → nul_free p → @dfs_references (local_queries nixStore db) p = Ret es →
  ∀ q, q ∈ es ↔ refers db p q.
Proof.
  intros Hok Hp. unfold dfs_references. simpl. destruct (isValidPath_ p db) eqn:Hv.
  - unfold db_queryReferences, queryPathInfo. intros (info & E & ?)%bind_Ret_inv. simplify_eq.
    apply bind_Ret_inv in E as ([] & _ & E). rewrite c_str_id in E by done.
    destruct (find_row db p) as [[id r]|] eqn:Er; [|done]. apply find_row_Some in Er as [? ?].
    apply bind_Ret_inv in E as (h & _ & E). simplify_eq. cbn [vp_references]. intros q.
    rewrite elem_of_set_of_list. apply stmtQueryReferences_spec; [done|]. by exists r.
  - intros [= <-] q. split; [set_solver|]. intros (i & j & Hi & _ & _).
    assert (isValidPath_ p db = true) by (apply isValidPath_spec; rewrite c_str_id by done; by exists i).
    congruence.
Qed.

Lemma registerValidPaths_acyclic infos st st' :
  db_ok (ls_db st) → acyclic (ls_db st) →
  (∀ i, i ∈ infos → nul_free (vp_path i) ∧ ¬ valid (ls_db st) (vp_path i)) →
  registerValidPaths nixStore readFile now infos st = Ret st' → acyclic (ls_db st').
Proof.
  intros Hok Hacyc Hfresh E. apply registerValidPaths_adds in E as [(Hok' & Hv & Hr) [sorted Es]]; [|done].
  set (paths := set_of_list (vp_path <$> infos)) in *.
  destruct (@topoSortPaths_spec (local_queries nixStore (ls_db st')) paths)
    as [(sorted' & _ & _ & _ & Hnc & Hq)|[(m & Ef & _)|(e & p & Ef & _)]];
    [apply set_of_list_wf|intros; apply local_dfs_references_terminates| |congruence|congruence].
  assert (∀ q, q ∈ paths ↔ ∃ i, i ∈ infos ∧ q = vp_path i) as Hpaths.
  { intros q. unfold paths. rewrite elem_of_set_of_list, list_elem_of_fmap. naive_solver. }
  intros p Hpp.
  apply (tc_fresh_part (ref_edge (ls_db st)) _
    (@topo_edge (local_queries nixStore (ls_db st')) paths) (.∈ paths)) in Hpp as [Hpp|[Hp Hpp]].
  - by apply (Hacyc p).
  - apply Hnc. by exists p.
  - intros a b [Hab Hne] Ha. apply Hr in Hab as [Hab|(i & j & Hi & _ & -> & _)].
    + split; [|done]. intros (i & Hi & ->)%Hpaths. destruct Hab as (x & y & _ & Hy & _).
      apply (Hfresh i Hi). by exists y.
    + exfalso. apply Ha, Hpaths. exists i. split; [done|]. apply c_str_id. by apply Hfresh.
  - intros a b [Hab Hne] Ha Hb. split_and!; [done|done|].
    destruct (Hq a Ha) as [es Ees]. exists es. split; [done|].
    apply (local_dfs_references_spec (ls_db st') a); [done| |done|done].
    apply Hpaths in Ha as (i & Hi & ->). by apply Hfresh.
Qed.

End registration.

(** * Invalidation *)

Lemma invalidatePathChecked_spec nixStore path st :
  db_ok (ls_db st) → nul_free path → isStorePath nixStore path = true →
  (∃ q, refers (ls_db st) q path ∧ q ≠ path) ∧
    (∃ m, invalidatePathChecked nixStore path st = Throw (PathInUse m)) ∨
  (∀ q, refers (ls_db st) q path → q = path) ∧
    ∃ st', invalidatePathChecked nixStore path st = Ret st' ∧ db_ok (ls_db st') ∧
      (∀ q, valid (ls_db st') q ↔ valid (ls_db st) q ∧ q ≠ path) ∧
      (∀ a b, refers (ls_db st') a b ↔ refers (ls_db st) a b ∧ a ≠ path ∧ b ≠ path).
Proof.
  intros Hok Hnul Hstore. unfold invalidatePathChecked, assertStorePath. rewrite Hstore.
  cbn [check mbind outcome_bind]. destruct (isValidPath_ path (ls_db st)) eqn:Hv.
  - assert (∀ q, q ∈ set_erase path (queryReferrers_ path (ls_db st)) ↔ refers (ls_db st) q path ∧ q ≠ path) as Href.
    { intros q. rewrite elem_of_set_erase, queryReferrers_spec, c_str_id by done. tauto. }
    case_decide as He.
    + right. assert (∀ q, refers (ls_db st) q path → q = path) as Hself.
      { intros q Hq. destruct (decide (q = path)); [done|]. exfalso.
        apply (not_elem_of_nil q). rewrite <-He. by apply Href. }
      split; [done|]. unfold invalidatePath. rewrite c_str_id by done.
      destruct (stmtInvalidatePath_spec path (ls_db st) Hok Hself) as (db' & -> & Hok' & Hp & Hr).
      eexists. split; [done|]. cbn [ls_db]. split_and!; [done| |done].
      intros q. unfold valid. setoid_rewrite Hp. naive_solver.
    + left. split; [|by eexists]. destruct (set_erase path _) as [|q l]; [done|].
      exists q. apply Href. by left.
  - right. assert (¬ valid (ls_db st) path) as Hnv.
    { intros Hx. assert (isValidPath_ path (ls_db st) = true); [|congruence].
      apply isValidPath_spec. by rewrite c_str_id. }
    split.
    + intros q (i & j & _ & Hj & _). exfalso. apply Hnv. by exists j.
    + exists st. split_and!; [done|done| |].
      * intros q. split; [|naive_solver]. intros Hq. split; [done|]. by intros ->.
      * intros a b. split; [|naive_solver]. intros Hab. split_and!; [done| |]; intros ->;
          apply Hnv; destruct Hab as (i & j & Hi & Hj & _); [by exists i|by exists j].
Qed.

(** * Properties *)

(** C8: Registration refines the graph of valid paths. When [registerValidPaths]
    returns, the constraints of the schema hold again, exactly the given paths
    have become valid, exactly the given references were added (a path that was
    valid keeps its old ones), and every path that a registered path refers to
    is valid. *)
Theorem registerValidPaths_refines `{Gcrypt} nixStore readFile now infos st st' :
  db_ok (ls_db st) → registerValidPaths nixStore readFile now infos st = Ret st' →
  db_ok (ls_db st') ∧
  (∀ q, valid (ls_db st') q ↔ valid (ls_db st) q ∨ ∃ i, i ∈ infos ∧ q = c_str (vp_path i)) ∧
  (∀ a b, refers (ls_db st') a b ↔ refers (ls_db st) a b ∨
     ∃ i j, i ∈ infos ∧ j ∈ vp_references i ∧ a = c_str (vp_path i) ∧ b = c_str j) ∧
  (∀ i j, i ∈ infos → j ∈ vp_references i → valid (ls_db st') (c_str j)).
Proof.
  intros Hok E. apply registerValidPaths_adds in E as [(Hok' & Hv & Hr) _]; [|done].
  split_and!; [done|done|done|]. intros i j Hi Hj.
  assert (refers (ls_db st') (c_str (vp_path i)) (c_str j)) as (x & y & _ & Hy & _)
    by (apply Hr; right; by exists i, j).
  by exists y.
Qed.

(** C29: Registering new paths keeps the references acyclic (self-references
    apart), thanks to the topological sort at the end of the transaction. *)
Theorem registerValidPaths_keeps_acyclic `{Gcrypt} nixStore readFile now infos st st' :
  db_ok (ls_db st) → acyclic (ls_db st) →
  (∀ i, i ∈ infos → nul_free (vp_path i) ∧ ¬ valid (ls_db st) (vp_path i)) →
  registerValidPaths nixStore readFile now infos st = Ret st' → acyclic (ls_db st').
Proof. apply registerValidPaths_acyclic. Qed.

(** [invalidatePathChecked] never breaks the closure of a valid path: it
    refuses with [PathInUse] exactly when another path refers to [path]; and
    otherwise it removes [path] and its references and nothing else, no foreign
    key being violated on the way. *)
Theorem invalidatePathChecked_correct nixStore path st :
  db_ok (ls_db st) → nul_free path → isStorePath nixStore path = true →
  (∃ q, refers (ls_db st) q path ∧ q ≠ path) ∧
    (∃ m, invalidatePathChecked nixStore path st = Throw (PathInUse m)) ∨
  (∀ q, refers (ls_db st) q path → q = path) ∧
    ∃ st', invalidatePathChecked nixStore path st = Ret st' ∧ db_ok (ls_db st') ∧
      (∀ q, valid (ls_db st') q ↔ valid (ls_db st) q ∧ q ≠ path) ∧
      (∀ a b, refers (ls_db st') a b ↔ refers (ls_db st) a b ∧ a ≠ path ∧ b ≠ path).
Proof. apply invalidatePathChecked_spec. Qed.

(** ** Witnesses and examples *)

Definition no_file (p : bytes) : outcome bytes := Throw (SysError 2 "opening file").

Definition sample_info (name : string) (refs : list string) : ValidPathInfo :=
  mkValidPathInfo (str "/gnu/store/" ++ str name) [] toy_hash
    ((λ r, str "/gnu/store/" ++ str r) <$> refs) 0 42 0.

Definition empty_store : LocalStore := mkLocalStore empty_database [].

Local Abbreviation toy_register := (@registerValidPaths toy_gcrypt (str "/gnu/store") no_file 1000).

Definition the_store (r : outcome LocalStore) : LocalStore :=
  match r with Ret st => st | _ => empty_store end.

(** b and c, which refer to each other's store item a, and b to itself. *)
Definition sample_infos : list ValidPathInfo :=
  [sample_info "b" ["a"; "b"]; sample_info "a" []; sample_info "c" ["a"]].

Definition sample_db : LocalStore := the_store (toy_register sample_infos empty_store).

Lemma sample_registers : toy_register sample_infos empty_store = Ret sample_db.
Proof. vm_compute. reflexivity. Qed.

Lemma registerValidPaths_refines_witness :
  db_ok (ls_db sample_db) ∧
  (∀ q, valid (ls_db sample_db) q ↔
     valid empty_database q ∨ ∃ i, i ∈ sample_infos ∧ q = c_str (vp_path i)) ∧
  (∀ a b, refers (ls_db sample_db) a b ↔ refers empty_database a b ∨
     ∃ i j, i ∈ sample_infos ∧ j ∈ vp_references i ∧ a = c_str (vp_path i) ∧ b = c_str j) ∧
  (∀ i j, i ∈ sample_infos → j ∈ vp_references i → valid (ls_db sample_db) (c_str j)).
Proof.
  exact (@registerValidPaths_refines toy_gcrypt (str "/gnu/store") no_file 1000 sample_infos empty_store
    sample_db empty_ok sample_registers).
Defined.

Lemma empty_acyclic : acyclic empty_database.
Proof.
  assert (∀ a b, ¬ ref_edge empty_database a b) as Hno.
  { intros a b [(i & j & (r & Hr & _) & _) _]. simpl in Hr. by rewrite lookup_empty in Hr. }
  intros p Hp. by destruct Hp as [a b Hab|a b c Hab _]; apply Hno in Hab.
Qed.

Lemma registerValidPaths_keeps_acyclic_witness : acyclic (ls_db sample_db).
Proof.
  apply (@registerValidPaths_keeps_acyclic toy_gcrypt (str "/gnu/store") no_file 1000 sample_infos
    empty_store sample_db empty_ok).
  - exact empty_acyclic.
  - intros i Hi. split.
    + unfold sample_infos in Hi. rewrite !elem_of_cons in Hi.
      destruct Hi as [->|[->|[->|Hi]]]; [concrete..|]. by apply not_elem_of_nil in Hi.
    + intros (id & r & Hr & _). simpl in Hr. by rewrite lookup_empty in Hr.
  - exact sample_registers.
Defined.

Lemma sample_db_ok : db_ok (ls_db sample_db).
Proof.
  pose proof sample_registers as E.
  apply (registerValidPaths_adds _ _ _ _ empty_store) in E as [[Hok _] _]; [done|exact empty_ok].
Qed.

Lemma invalidatePathChecked_correct_witness :
  (∃ q, refers (ls_db sample_db) q (str "/gnu/store/b") ∧ q ≠ str "/gnu/store/b") ∧
    (∃ m, invalidatePathChecked (str "/gnu/store") (str "/gnu/store/b") sample_db = Throw (PathInUse m)) ∨
  (∀ q, refers (ls_db sample_db) q (str "/gnu/store/b") → q = str "/gnu/store/b") ∧
    ∃ st', invalidatePathChecked (str "/gnu/store") (str "/gnu/store/b") sample_db = Ret st' ∧
      db_ok (ls_db st') ∧
      (∀ q, valid (ls_db st') q ↔ valid (ls_db sample_db) q ∧ q ≠ str "/gnu/store/b") ∧
      (∀ a b, refers (ls_db st') a b ↔
         refers (ls_db sample_db) a b ∧ a ≠ str "/gnu/store/b" ∧ b ≠ str "/gnu/store/b").
Proof.
  apply (invalidatePathChecked_correct (str "/gnu/store") (str "/gnu/store/b") sample_db).
  - exact sample_db_ok.
  - concrete.
  - reflexivity.
Defined.

(** b can go, a cannot. *)
Example invalidate_runs :
  invalidatePathChecked (str "/gnu/store") (str "/gnu/store/a") sample_db =
    Throw (PathInUse "cannot delete path because it is in use") ∧
  (st ← invalidatePathChecked (str "/gnu/store") (str "/gnu/store/b") sample_db;
   Ret (queryAllValidPaths (ls_db st))) = Ret [str "/gnu/store/a"; str "/gnu/store/c"].
Proof. vm_compute. done. Qed.

(** ** A cycle that registration does not see

    The sort only looks at the paths being registered. Registering a valid path
    again with one more reference can close a cycle through a valid path that is
    not registered again: p is valid, r refers to p; registering p with a
    reference to q, and q with a reference to r, succeeds. *)
Definition cycle_store : LocalStore := the_store
  (st ← toy_register [sample_info "p" []] empty_store;
   st ← toy_register [sample_info "r" ["p"]] st;
   toy_register [sample_info "p" ["q"]; sample_info "q" ["r"]] st).

Lemma ref_edge_intro db i j p q :
  bool_decide ((row_path <$> db_ValidPaths db !! i) = Some p ∧
    (row_path <$> db_ValidPaths db !! j) = Some q ∧ (i, j) ∈ db_Refs db ∧ q ≠ p) = true →
  ref_edge db p q.
Proof.
  intros ((ri & Hi & ->)%fmap_Some & (rj & Hj & ->)%fmap_Some & Hij & Hne)%bool_decide_eq_true.
  split; [|done]. exists i, j. split_and!; [by exists ri|by exists rj|done].
Qed.

Theorem registerValidPaths_misses_cycle :
  (st ← toy_register [sample_info "p" []] empty_store;
   st ← toy_register [sample_info "r" ["p"]] st;
   toy_register [sample_info "p" ["q"]; sample_info "q" ["r"]] st) = Ret cycle_store ∧
  ¬ acyclic (ls_db cycle_store).
Proof.
  split; [vm_compute; reflexivity|].
  intros Ha. apply (Ha (str "/gnu/store/p")).
  apply (tc_l _ _ (str "/gnu/store/q")); [apply (ref_edge_intro _ 1%Z 3%Z); vm_compute; reflexivity|].
  apply (tc_l _ _ (str "/gnu/store/r")); [apply (ref_edge_intro _ 3%Z 2%Z); vm_compute; reflexivity|].
  apply tc_once. apply (ref_edge_intro _ 2%Z 1%Z). vm_compute. reflexivity.
Qed.
