(* ===== verification/Roots.v ===== *)
(** libstore/gc.cc, first half: garbage collector roots.

    Permanent roots are links below the state directory ([findRoots]), temporary
    ones are read from per-process files ([readTempRoots], written by
    [addTempRoot]), further ones come from "guix gc --list-busy"
    ([addAdditionalRoots]). The file system is seen through [RootsOS]. *)

From S2P Require Import Prelude Containers Serialise Hash Paths StorePaths Derivations Closure.

(** The [d_type] of a directory entry. *)
Inductive DirentType := DT_UNKNOWN | DT_DIR | DT_LNK | DT_REG | DT_OTHER.

#[global] Instance DirentType_eq_dec : EqDecision DirentType.
Proof. solve_decision. Defined.

(** The calls of util.cc on the file system. *)
Class RootsOS := {
  getFileType : bytes → outcome DirentType;
  readDirectory : bytes → outcome (list (bytes * DirentType));
  readLink : bytes → outcome bytes;
  pathExists : bytes → outcome bool;
  lstat_is_link : bytes → outcome bool
}.

Definition EACCES : Z := 13.
Definition ENOENT : Z := 2.
Definition ENOTDIR : Z := 20.

(** The path of each root, and the store path it points to. *)
Abbreviation Roots := (list (bytes * bytes)).

Definition gcRootsDir : bytes := str "gcroots".

Section roots.
Context `{RootsOS}.
Variable isValidPath : bytes → outcome bool.
Variables nixStore nixStateDir : bytes.

Definition foundRoot (path target : bytes) (roots : Roots) : outcome Roots :=
  storePath ← toStorePath nixStore target;
  valid ← isValidPath storePath;
  Ret (if (valid : bool) then map_insert path storePath roots else roots).

(** The roots found and the stale links removed so far. *)
Abbreviation RootState := (Roots * list bytes)%type.

(** What is done for a symbolic link. *)
Definition findRoots_link (path : bytes) (st : RootState) : outcome RootState :=
  let '(roots, unlinked) := st in
  target ← readLink path;
  if isInStore nixStore target then
    roots ← foundRoot path target roots; Ret (roots, unlinked)
  else
    d ← dirOf path;
    target ← absPath (Ret []) target d;
    exists_ ← pathExists target;
    if (exists_ : bool) then
      link ← lstat_is_link target;
      if (link : bool) then
        target2 ← readLink target;
        if isInStore nixStore target2 then
          roots ← foundRoot target target2 roots; Ret (roots, unlinked)
        else Ret st
      else Ret st
    else if isInDir path (nixStateDir ++ str "/" ++ gcRootsDir ++ str "/auto") then
      Ret (roots, unlinked ++ [path])
    else Ret st.

Definition findRoots_regular (path : bytes) (st : RootState) : outcome RootState :=
  let '(roots, unlinked) := st in
  b ← baseNameOf path;
  let storePath := nixStore ++ str "/" ++ b in
  valid ← isValidPath storePath;
  Ret (if (valid : bool) then (map_insert path storePath roots, unlinked) else st).

(** [catch (SysError & e)]: permanent failures are ignored; nothing was added
    by the call that failed. *)
Definition ignore_permanent (st : RootState) (r : outcome RootState) : outcome RootState :=
  match r with
  | Throw (SysError e m) =>
      if decide (e = EACCES ∨ e = ENOENT ∨ e = ENOTDIR) then Ret st else Throw (SysError e m)
  | r => r
  end.

(** [nix::findRoots]; the depth of the recursion is that of the directory. *)
Fixpoint findRoots_rec (fuel : nat) (path : bytes) (type : DirentType) (st : RootState)
    : outcome RootState :=
  match fuel with
  | 0 => OutOfFuel
  | S fuel =>
      ignore_permanent st
        (type ← (if decide (type = DT_UNKNOWN) then getFileType path else Ret type);
         if decide (type = DT_DIR) then
           entries ← readDirectory path;
           foldM (λ st i, findRoots_rec fuel (path ++ str "/" ++ i.1) i.2 st) entries st
         else if decide (type = DT_LNK) then findRoots_link path st
         else if decide (type = DT_REG) then findRoots_regular path st
         else Ret st)
  end.

(** [LocalStore::findRoots] *)
Definition findRoots (fuel : nat) : outcome RootState :=
  st ← findRoots_rec fuel (nixStateDir ++ str "/" ++ gcRootsDir) DT_UNKNOWN ([], []);
  manifests ← pathExists (nixStateDir ++ str "/manifests");
  st ← (if (manifests : bool) then
          findRoots_rec fuel (nixStateDir ++ str "/manifests") DT_UNKNOWN st
        else Ret st);
  findRoots_rec fuel (nixStateDir ++ str "/profiles") DT_UNKNOWN st.

(** [addAdditionalRoots]; [result] is what the program printed. *)
Definition addAdditionalRoots (result : bytes) (roots : strset) : outcome strset :=
  toks ← tokenizeString result [Byte.x0a];
  foldM (λ roots i,
    if isInStore nixStore i then
      path ← toStorePath nixStore i;
      if set_mem path roots then Ret roots
      else
        valid ← isValidPath path;
        Ret (if (valid : bool) then set_insert path roots else roots)
    else Ret roots) (set_of_list toks) roots.
End roots.

(** * Temporary roots *)

(** [addTempRoot]: the bytes appended to the file of the process. *)
Definition temp_root_record (path : bytes) : bytes := path ++ [Byte.x00].

(** The loop of [readTempRoots] over the contents of one file: each NUL ends a
    root; bytes after the last one are ignored. *)
Fixpoint readTempRoots_loop (fuel : nat) (nixStore contents : bytes) (pos : nat) (tempRoots : strset)
    : outcome strset :=
  match find_char_from Byte.x00 contents pos with
  | None => Ret tempRoots
  | Some end_ =>
      match fuel with
      | 0 => OutOfFuel
      | S fuel =>
          root ← substr contents pos (end_ - pos);
          assertStorePath nixStore root;;
          readTempRoots_loop fuel nixStore contents (end_ + 1) (set_insert root tempRoots)
      end
  end.

(** What opening a temporary roots file finds: gone, locked by its process, or
    stale (the write lock was free). *)
Inductive TempRootsFile :=
  | TempGone
  | TempStale
  | TempLive (contents : bytes)
  | TempError (errno : Z).

(** The body of the loop of [readTempRoots] over the files of the directory; a
    stale file is removed. *)
Definition readTempRoots_file (nixStore : bytes) (st : strset * list bytes) (f : bytes * TempRootsFile)
    : outcome (strset * list bytes) :=
  let '(tempRoots, removed) := st in
  match f.2 with
  | TempGone => Ret st
  | TempError e => Throw (SysError e "opening temporary roots file")
  | TempStale => Ret (tempRoots, removed ++ [f.1])
  | TempLive contents =>
      tempRoots ← readTempRoots_loop (length contents) nixStore contents 0 tempRoots;
      Ret (tempRoots, removed)
  end.

Definition readTempRoots (nixStore : bytes) (files : list (bytes * TempRootsFile))
    (tempRoots : strset) : outcome (strset * list bytes) :=
  foldM (readTempRoots_file nixStore) files (tempRoots, []).

(** ** The loop reads back what [addTempRoot] wrote *)

Lemma readTempRoots_loop_records fuel nixStore done paths tail tempRoots :
  (∀ p, p ∈ paths → nul_free p ∧ isStorePath nixStore p = true) → nul_free tail →
  length paths <= fuel →
  readTempRoots_loop fuel nixStore (done ++ mjoin (temp_root_record <$> paths) ++ tail) (length done) tempRoots
    = Ret (set_insert_all paths tempRoots).
Proof.
  intros Hp Htail. revert fuel done tempRoots.
  induction paths as [|p paths IH]; intros fuel done tempRoots Hf.
  - assert (find_char_from Byte.x00 (done ++ tail) (length done) = None) as E.
    { unfold find_char_from. rewrite drop_app_length, fmap_None. by apply find_char_None. }
    destruct fuel; simpl; rewrite E; done.
  - destruct fuel as [|fuel]; [simpl in Hf; lia|].
    destruct (Hp p (list_elem_of_here _ _)) as [Hn Hs].
    set (rest := mjoin (temp_root_record <$> paths) ++ tail) in *.
    replace (done ++ mjoin (temp_root_record <$> p :: paths) ++ tail) with (done ++ p ++ Byte.x00 :: rest)
      by (unfold rest; rewrite fmap_cons, mjoin_cons; unfold temp_root_record at 2; by simplify_list_eq).
    cbn [readTempRoots_loop]. unfold find_char_from. rewrite drop_app_length, find_char_app_l by done.
    cbn [fmap option_fmap option_map]. unfold substr. rewrite decide_True by (rewrite length_app; lia).
    cbn [mbind outcome_bind]. rewrite drop_app_length, Nat.add_sub_swap, Nat.sub_diag, Nat.add_0_l, take_app_length by lia.
    unfold assertStorePath. rewrite Hs. cbn [check mbind outcome_bind].
    replace (done ++ p ++ Byte.x00 :: rest) with ((done ++ p ++ [Byte.x00]) ++ rest) by (by simplify_list_eq).
    replace (length done + length p + 1) with (length (done ++ p ++ [Byte.x00]))
      by (rewrite !length_app; simpl; lia).
    unfold rest. rewrite IH; [done|intros; apply Hp; by right|simpl in Hf; lia].
Qed.

(** * What [findRoots] finds *)

(** Documented behaviour of the calls: they return or fail, and readlink(2)
    fails on what is reported to be a regular file. *)
Class RootsOSLaws `{RootsOS} : Prop := {
  os_terminates p : terminates (getFileType p) ∧ terminates (readDirectory p) ∧ terminates (readLink p) ∧
    terminates (pathExists p) ∧ terminates (lstat_is_link p);
  os_type_regular p target : getFileType p = Ret DT_REG → readLink p ≠ Ret target;
  os_dirent_regular d es name target :
    readDirectory d = Ret es → (name, DT_REG) ∈ es → readLink (d ++ str "/" ++ name) ≠ Ret target
}.

Section roots_spec.
Context `{RootsOS}.
Variable isValidPath : bytes → outcome bool.
Variables nixStore nixStateDir : bytes.
Local Abbreviation find_roots := (findRoots_rec isValidPath nixStore nixStateDir).

Definition kind (path : bytes) (type : DirentType) : outcome DirentType :=
  if decide (type = DT_UNKNOWN) then getFileType path else Ret type.

(** The entry [q] of type [tq] is [n] directories below [p]. *)
Inductive descends : nat → bytes → DirentType → bytes → DirentType → Prop :=
  | descends_here p t : descends 0 p t p t
  | descends_dir n p t es name tn q tq :
      kind p t = Ret DT_DIR → readDirectory p = Ret es → (name, tn) ∈ es →
      descends n (p ++ str "/" ++ name) tn q tq → descends (S n) p t q tq.

(** The link [path] leaves the store; [target] is where it leads. *)
Definition leads_outside (path target : bytes) : Prop :=
  ∃ t d, readLink path = Ret t ∧ isInStore nixStore t = false ∧ dirOf path = Ret d ∧
    absPath (Ret []) t d = Ret target.

Definition points_to (path sp : bytes) : Prop :=
  ∃ t, readLink path = Ret t ∧ isInStore nixStore t = true ∧ toStorePath nixStore t = Ret sp ∧
    isValidPath sp = Ret true.

(** The entry [path] makes [sp] a root, under the name [key]. *)
Inductive yields (path : bytes) : DirentType → bytes → bytes → Prop :=
  | yields_direct sp : points_to path sp → yields path DT_LNK path sp
  | yields_indirect target sp :
      leads_outside path target → pathExists target = Ret true → lstat_is_link target = Ret true →
      points_to target sp → yields path DT_LNK target sp
  | yields_regular b :
      baseNameOf path = Ret b → isValidPath (nixStore ++ str "/" ++ b) = Ret true →
      yields path DT_REG path (nixStore ++ str "/" ++ b).

Definition root_below (p : bytes) (t : DirentType) (key sp : bytes) : Prop :=
  ∃ n q tq ty, descends n p t q tq ∧ kind q tq = Ret ty ∧ yields q ty key sp.

(** A link to a file that is gone, in the directory of automatic roots. *)
Definition stale (path : bytes) : Prop :=
  isInDir path (nixStateDir ++ str "/" ++ gcRootsDir ++ str "/auto") = true ∧
  ∃ target, leads_outside path target ∧ pathExists target = Ret false.

(** A call that found the roots [found] in addition. *)
Definition finds (found : bytes → bytes → Prop) (st st' : Roots * list bytes) : Prop :=
  (map_wf st.1 → map_wf st'.1) ∧
  (∀ k, k ∈ st.1.*1 → k ∈ st'.1.*1) ∧
  (∀ k sp, found k sp → k ∈ st'.1.*1) ∧
  (map_wf st.1 → ∀ k sp, (k, sp) ∈ st'.1 → (k, sp) ∈ st.1 ∨ found k sp) ∧
  (∀ p, p ∈ st'.2 → p ∈ st.2 ∨ stale p).

Lemma finds_nothing st (found : bytes → bytes → Prop) : (∀ k sp, ¬ found k sp) → finds found st st.
Proof. intros Hn. split_and!; naive_solver. Qed.

Lemma finds_ext (f g : bytes → bytes → Prop) st st' :
  (∀ k sp, f k sp ↔ g k sp) → finds f st st' → finds g st st'.
Proof. intros Hfg (A1 & A2 & A3 & A4 & A5). split_and!; naive_solver. Qed.

Lemma finds_trans f g st1 st2 st3 :
  finds f st1 st2 → finds g st2 st3 → finds (λ k sp, f k sp ∨ g k sp) st1 st3.
Proof.
  intros (A1 & A2 & A3 & A4 & A5) (B1 & B2 & B3 & B4 & B5). split_and!; [auto|auto| | |].
  - intros k sp [Hf|Hg]; eauto.
  - intros Hw k sp Hk. apply (B4 (A1 Hw)) in Hk as [Hk|?]; [|auto]. apply (A4 Hw) in Hk. tauto.
  - intros p [Hp|?]%B5; auto.
Qed.

Lemma finds_insert k sp roots unl : finds (λ k' sp', k' = k ∧ sp' = sp) (roots, unl) (map_insert k sp roots, unl).
Proof.
  split_and!; cbn [fst snd].
  - apply map_insert_wf.
  - intros k' Hk. apply map_insert_dom. by right.
  - intros k' sp' [-> ->]. apply map_insert_dom. by left.
  - intros Hw k' sp' Hin. apply map_find_elem in Hin; [|by apply map_insert_wf].
    rewrite map_find_insert in Hin. case_decide; [right; naive_solver|left]. by apply map_find_elem.
  - auto.
Qed.

Lemma foundRoot_finds path target roots roots' unl :
  readLink path = Ret target → isInStore nixStore target = true →
  foundRoot isValidPath nixStore path target roots = Ret roots' →
  finds (λ k sp, k = path ∧ points_to path sp) (roots, unl) (roots', unl).
Proof.
  intros Ht Hin. unfold foundRoot. intros (sp & Esp & (v & Ev & E)%bind_Ret_inv)%bind_Ret_inv. simplify_eq.
  assert (∀ sp', points_to path sp' ↔ sp' = sp ∧ v = true) as Hiff.
  { intros sp'. split; [|intros [-> ->]; by exists target].
    intros (t' & ? & ? & ? & ?). assert (t' = target) by congruence. subst. split; congruence. }
  destruct v.
  - eapply finds_ext; [|apply finds_insert]. intros k sp'. cbv beta. rewrite Hiff. naive_solver.
  - apply finds_nothing. intros k sp'. rewrite Hiff. naive_solver.
Qed.

Lemma findRoots_link_finds path st st' :
  findRoots_link isValidPath nixStore nixStateDir path st = Ret st' → finds (yields path DT_LNK) st st'.
Proof.
  destruct st as [roots unl]. unfold findRoots_link. intros (t & Et & E)%bind_Ret_inv.
  destruct (isInStore nixStore t) eqn:Hin.
  { apply bind_Ret_inv in E as (roots' & E & E'). simplify_eq.
    eapply finds_ext; [|by eapply foundRoot_finds]. intros k sp. cbv beta. split.
    - intros [-> Hp]. by constructor.
    - intros Hy. inversion Hy as [sp' Hp| tgt sp' (t' & d & Et' & Hin' & _)|]; subst; [done|congruence]. }
  apply bind_Ret_inv in E as (d & Ed & E). apply bind_Ret_inv in E as (tgt & Etgt & E).
  assert (∀ x, leads_outside path x ↔ x = tgt) as Hlead.
  { intros x. split; [|intros ->; by exists t, d]. intros (t' & d' & ? & ? & ? & ?). congruence. }
  assert (∀ k sp, yields path DT_LNK k sp ↔ k = tgt ∧ pathExists tgt = Ret true ∧
    lstat_is_link tgt = Ret true ∧ points_to tgt sp) as Hy.
  { intros k sp. split.
    - intros Hy. inversion Hy as [sp' (t' & Et' & Hin' & _)|x sp' Hl%Hlead|]; subst; [congruence|done].
    - intros (-> & ? & ? & ?). constructor; [by apply Hlead|done..]. }
  apply bind_Ret_inv in E as (ex & Eex & E). destruct ex; [|].
  - apply bind_Ret_inv in E as (l & El & E). destruct l.
    + apply bind_Ret_inv in E as (t2 & Et2 & E). destruct (isInStore nixStore t2) eqn:Hin2.
      * apply bind_Ret_inv in E as (roots' & E & E'). simplify_eq.
        eapply finds_ext; [|by eapply foundRoot_finds]. intros k sp. rewrite Hy. tauto.
      * simplify_eq. apply finds_nothing. intros k sp. rewrite Hy. intros (_ & _ & _ & t3 & ? & ? & _). congruence.
    + simplify_eq. apply finds_nothing. intros k sp. rewrite Hy. intros (_ & _ & ? & _). congruence.
  - assert (∀ k sp, ¬ yields path DT_LNK k sp) as Hno by (intros k sp; rewrite Hy; intros (_ & ? & _); congruence).
    destruct (isInDir path _) eqn:Hauto; simplify_eq; [|by apply finds_nothing].
    split_and!; cbn [fst snd]; [done|done|intros k sp []%Hno|by left|]. intros p [Hp|Hp%list_elem_of_singleton]%elem_of_app; [by left|].
    right. subst. split; [done|]. exists tgt. by rewrite Hlead.
Qed.

Lemma findRoots_regular_finds path st st' :
  findRoots_regular isValidPath nixStore path st = Ret st' → finds (yields path DT_REG) st st'.
Proof.
  destruct st as [roots unl]. unfold findRoots_regular.
  intros (b & Eb & (v & Ev & E)%bind_Ret_inv)%bind_Ret_inv. simplify_eq.
  assert (∀ k sp, yields path DT_REG k sp ↔ k = path ∧ sp = nixStore ++ str "/" ++ b ∧ v = true) as Hy.
  { intros k sp. split.
    - intros Hy. inversion Hy as [| |b' Eb' Ev']; subst. assert (b' = b) by congruence. subst.
      split_and!; congruence.
    - intros (-> & -> & ->). by constructor. }
  destruct v.
  - eapply finds_ext; [|apply finds_insert]. intros k sp. cbv beta. rewrite Hy. naive_solver.
  - apply finds_nothing. intros k sp. rewrite Hy. naive_solver.
Qed.

Lemma root_below_leaf p t ty k sp :
  kind p t = Ret ty → ty ≠ DT_DIR → root_below p t k sp ↔ yields p ty k sp.
Proof.
  intros Ek Hty. split.
  - intros (n & q & tq & ty' & Hd & Ek' & Hy). destruct Hd; [congruence|]. congruence.
  - intros Hy. exists 0, p, t, ty. split_and!; [constructor|done|done].
Qed.

Lemma root_below_dir p t es k sp :
  kind p t = Ret DT_DIR → readDirectory p = Ret es →
  root_below p t k sp ↔ ∃ e, e ∈ es ∧ root_below (p ++ str "/" ++ e.1) e.2 k sp.
Proof.
  intros Ek Ees. split.
  - intros (n & q & tq & ty & Hd & Ek' & Hy). destruct Hd as [|n p t es' name tn q tq].
    + rewrite Ek in Ek'. simplify_eq. inversion Hy.
    + assert (es' = es) as -> by congruence. exists (name, tn). split; [done|]. by exists n, q, tq, ty.
  - intros ([name tn] & He & n & q & tq & ty & Hd & Ek' & Hy).
    exists (S n), q, tq, ty. split_and!; [by eapply descends_dir|done|done].
Qed.

(** A permanent failure does not reach the caller. *)
Definition permanent {A} (r : outcome A) : Prop :=
  ∃ e m, r = Throw (SysError e m) ∧ (e = EACCES ∨ e = ENOENT ∨ e = ENOTDIR).

Lemma ignore_permanent_Ret st r st' :
  ignore_permanent st r = Ret st' → r = Ret st' ∨ permanent r ∧ st' = st.
Proof.
  destruct r as [a|[] |]; simpl; try done; [by left|]. case_decide; [|done].
  intros [= <-]. right. split; [|done]. by do 2 eexists.
Qed.

Lemma ignore_permanent_not st r : ¬ permanent (ignore_permanent st r).
Proof. intros (e & m & E & He). destruct r as [a|[] |]; simpl in E; try done. by case_decide; simplify_eq. Qed.

Lemma findRoots_rec_not_permanent fuel p t st : ¬ permanent (find_roots fuel p t st).
Proof. destruct fuel; [intros (?&?&?&?); done|]. apply ignore_permanent_not. Qed.

Lemma permanent_bind {A B} (m : outcome A) (f : A → outcome B) :
  permanent (m ≫= f) → permanent m ∨ ∃ a, m = Ret a ∧ permanent (f a).
Proof.
  intros (e & msg & E & He). destruct m; simpl in E; [right|left|done].
  - eexists. split; [done|]. by exists e, msg.
  - simplify_eq. by exists e, msg.
Qed.

Lemma permanent_foldM {A B} (f : A → B → outcome A) l s :
  permanent (foldM f l s) → ∃ s x, permanent (f s x).
Proof.
  revert s. induction l as [|x l IH]; intros s; cbn [foldM]; [intros (?&?&?&?); done|].
  intros [Hp|(s' & _ & Hp)]%permanent_bind; [eauto|]. by apply IH in Hp.
Qed.

(** Where there is a root the code does not fail. *)
Lemma points_to_foundRoot path sp roots :
  points_to path sp → ∃ t, readLink path = Ret t ∧ isInStore nixStore t = true ∧
    foundRoot isValidPath nixStore path t roots = Ret (map_insert path sp roots).
Proof.
  intros (t & Et & Hin & Esp & Ev). exists t. split_and!; [done|done|].
  unfold foundRoot. rewrite Esp. cbn [mbind outcome_bind]. by rewrite Ev.
Qed.

Lemma yields_link path k sp st :
  yields path DT_LNK k sp → ∃ st', findRoots_link isValidPath nixStore nixStateDir path st = Ret st'.
Proof.
  destruct st as [roots unl]. unfold findRoots_link. inversion 1 as [sp' Hp|tgt sp' Hl Hex Hlink Hp|]; subst.
  - destruct (points_to_foundRoot _ _ roots Hp) as (t & -> & Hin & Ef). cbn [mbind outcome_bind].
    rewrite Hin, Ef. by eexists.
  - destruct Hl as (t & d & -> & Hin & Hd & Ha). cbn [mbind outcome_bind]. rewrite Hin, Hd.
    cbn [mbind outcome_bind]. rewrite Ha. cbn [mbind outcome_bind]. rewrite Hex. cbn [mbind outcome_bind].
    rewrite Hlink. cbn [mbind outcome_bind].
    destruct (points_to_foundRoot _ _ roots Hp) as (t2 & -> & Hin2 & Ef). cbn [mbind outcome_bind].
    rewrite Hin2, Ef. by eexists.
Qed.

Lemma yields_regular_Ret path k sp st :
  yields path DT_REG k sp → ∃ st', findRoots_regular isValidPath nixStore path st = Ret st'.
Proof.
  destruct st as [roots unl]. unfold findRoots_regular. inversion 1 as [| |b Hb Hv]; subst.
  rewrite Hb. cbn [mbind outcome_bind]. rewrite Hv. by eexists.
Qed.

Lemma not_permanent_Ret {A} (a : A) : ¬ permanent (Ret a).
Proof. intros (? & ? & ? & _). done. Qed.

(** The body of [findRoots] for an entry of known type that is not a
    directory. *)
Lemma leaf_finds path ty st st' r :
  ty ≠ DT_DIR →
  r = (if decide (ty = DT_LNK) then findRoots_link isValidPath nixStore nixStateDir path st
       else if decide (ty = DT_REG) then findRoots_regular isValidPath nixStore path st else Ret st) →
  r = Ret st' ∨ permanent r ∧ st' = st → finds (yields path ty) st st'.
Proof.
  intros Hty ->. case_decide; [subst|case_decide; [subst|]].
  - intros [E|[Hp ->]]; [by apply findRoots_link_finds|]. apply finds_nothing. intros k sp Hy.
    apply (yields_link _ _ _ st) in Hy as [st' E]. rewrite E in Hp. by apply not_permanent_Ret in Hp.
  - intros [E|[Hp ->]]; [by apply findRoots_regular_finds|]. apply finds_nothing. intros k sp Hy.
    apply (yields_regular_Ret _ _ _ st) in Hy as [st' E]. rewrite E in Hp. by apply not_permanent_Ret in Hp.
  - intros [[= <-]|[[]%not_permanent_Ret _]]. apply finds_nothing. intros k sp Hy. by inversion Hy; subst.
Qed.

Lemma entries_find fuel path es st st' :
  (∀ p t st st', find_roots fuel p t st = Ret st' → finds (root_below p t) st st') →
  foldM (λ st i, find_roots fuel (path ++ str "/" ++ i.1) i.2 st) es st = Ret st' →
  finds (λ k sp, ∃ e, e ∈ es ∧ root_below (path ++ str "/" ++ e.1) e.2 k sp) st st'.
Proof.
  intros IH. revert st. induction es as [|e es IHes]; intros st; cbn [foldM].
  { intros [= <-]. apply finds_nothing. intros k sp (e & He & _). by apply not_elem_of_nil in He. }
  intros (st1 & E1 & E2)%bind_Ret_inv. eapply finds_ext; [|eapply finds_trans; [by apply IH|by apply IHes]].
  intros k sp. cbv beta. setoid_rewrite elem_of_cons. split.
  - intros [Hb|(x & Hx & Hb)]; [exists e; auto|exists x; auto].
  - intros (x & [->|Hx] & Hb); [by left|right; eauto].
Qed.

Lemma findRoots_rec_finds fuel path type st st' :
  find_roots fuel path type st = Ret st' → finds (root_below path type) st st'.
Proof.
  revert path type st st'. induction fuel as [|fuel IH]; intros path type st st'; [done|].
  cbn [findRoots_rec]. fold (kind path type). intros E%ignore_permanent_Ret.
  destruct (kind path type) as [ty|e|] eqn:Ek; cbn [mbind outcome_bind] in E.
  2,3: destruct E as [E|[Hp ->]]; [done|]; apply finds_nothing; intros k sp (n & q & tq & ty & Hd & Ek' & _);
    destruct Hd; congruence.
  destruct (decide (ty = DT_DIR)) as [->|Hty].
  2: { eapply finds_ext; [|by eapply leaf_finds]. intros k sp. by rewrite root_below_leaf. }
  destruct (readDirectory path) as [es|e|] eqn:Ees; cbn [mbind outcome_bind] in E.
  2,3: destruct E as [E|[Hp ->]]; [done|]; apply finds_nothing; intros k sp (n & q & tq & ty & Hd & Ek' & Hy);
    destruct Hd; [|congruence]; rewrite Ek in Ek'; simplify_eq; inversion Hy.
  destruct E as [E|[(s & x & []%findRoots_rec_not_permanent)%permanent_foldM _]].
  apply entries_find in E; [|done]. eapply finds_ext; [|exact E]. intros k sp. by rewrite root_below_dir.
Qed.

(** ** Each key has one store path *)

Lemma points_to_fun path sp sp' : points_to path sp → points_to path sp' → sp = sp'.
Proof. intros (t & E & _ & Es & _) (t' & E' & _ & Es' & _). assert (t' = t) by congruence. subst. congruence. Qed.

Lemma yields_cases q ty k sp : yields q ty k sp →
  points_to k sp ∨ k = q ∧ ty = DT_REG ∧ ∃ b, baseNameOf k = Ret b ∧ sp = nixStore ++ str "/" ++ b.
Proof. inversion 1; subst; [by left|by left|right; eauto]. Qed.

Context `{!RootsOSLaws}.

Lemma descends_regular n p t q tq ty :
  descends n p t q tq → t = DT_UNKNOWN → kind q tq = Ret ty → ty = DT_REG → ∀ target, readLink q ≠ Ret target.
Proof.
  intros Hd. assert ((t ≠ DT_REG ∨ ∃ d es name, readDirectory d = Ret es ∧ (name, t) ∈ es ∧ p = d ++ str "/" ++ name) →
    kind q tq = Ret ty → ty = DT_REG → ∀ target, readLink q ≠ Ret target) as Hgen.
  2: { intros -> Ek Hty. apply Hgen; [by left|done|done]. }
  induction Hd as [p t|n p t es name tn q tq Ek Ees Hin _ IH]; intros Hor Ekq -> target.
  - unfold kind in Ekq. case_decide as Ht; [by apply os_type_regular|]. simplify_eq.
    destruct Hor as [|(d & es & name & Ed & Hin & ->)]; [done|]. by eapply os_dirent_regular.
  - apply IH; [right; by exists p, es, name|done|done].
Qed.

Lemma root_below_fun p p' k sp sp' :
  root_below p DT_UNKNOWN k sp → root_below p' DT_UNKNOWN k sp' → sp = sp'.
Proof.
  intros (n & q & tq & ty & Hd & Ek & Hy) (n' & q' & tq' & ty' & Hd' & Ek' & Hy').
  pose proof (descends_regular _ _ _ _ _ _ Hd eq_refl Ek) as Hr.
  pose proof (descends_regular _ _ _ _ _ _ Hd' eq_refl Ek') as Hr'.
  destruct (yields_cases _ _ _ _ Hy) as [Hp|(-> & -> & b & Eb & ->)];
    destruct (yields_cases _ _ _ _ Hy') as [Hp'|(Hk & -> & b' & Eb' & ->)].
  - by eapply points_to_fun.
  - subst. destruct Hp as (t & Et & _). by destruct (Hr' eq_refl t).
  - destruct Hp' as (t & Et & _). by destruct (Hr eq_refl t).
  - congruence.
Qed.

(** ** Termination *)

Hypothesis isValidPath_terminates : ∀ p, terminates (isValidPath p).

Lemma foundRoot_terminates path t roots : terminates (foundRoot isValidPath nixStore path t roots).
Proof.
  unfold foundRoot. apply bind_terminates.
  - unfold toStorePath. repeat case_match; try done.
  - intros sp _. by apply bind_terminates.
Qed.

Lemma findRoots_link_terminates path st :
  terminates (findRoots_link isValidPath nixStore nixStateDir path st).
Proof.
  destruct st as [roots unl]. unfold findRoots_link. apply bind_terminates; [apply os_terminates|]. intros t _.
  case_match.
  { apply bind_terminates; [apply foundRoot_terminates|done]. }
  apply bind_terminates; [unfold dirOf; repeat case_match; done|]. intros d _.
  apply bind_terminates; [by apply absPath_terminates|]. intros tgt _.
  apply bind_terminates; [apply os_terminates|]. intros [] _; [|by case_match].
  apply bind_terminates; [apply os_terminates|]. intros [] _; [|done].
  apply bind_terminates; [apply os_terminates|]. intros t2 _. case_match; [|done].
  apply bind_terminates; [apply foundRoot_terminates|done].
Qed.

Lemma ignore_permanent_terminates st r : terminates r → terminates (ignore_permanent st r).
Proof. destruct r as [a|[] |]; simpl; try done. by case_decide. Qed.

(** The fuel is used up only by a chain of as many directories. *)
Lemma findRoots_rec_terminates fuel path type st :
  (∀ q tq, ¬ descends fuel path type q tq) → terminates (find_roots fuel path type st).
Proof.
  revert path type st. induction fuel as [|fuel IH]; intros path type st Hno.
  { destruct (Hno path type). constructor. }
  cbn [findRoots_rec]. fold (kind path type). apply ignore_permanent_terminates, bind_terminates.
  { unfold kind. case_decide; [apply os_terminates|done]. }
  intros ty Ek. case_decide as Hd; [subst|].
  { apply bind_terminates; [apply os_terminates|]. intros es Ees.
    apply (foldM_terminates (λ _, True)); [done| |done]. intros st' [name tn] Hin _.
    apply IH. intros q tq Hq. eapply (Hno q tq), descends_dir; eauto. }
  case_decide; [apply findRoots_link_terminates|]. case_decide; [|done].
  destruct st as [roots unl]. unfold findRoots_regular. apply bind_terminates.
  - unfold baseNameOf, substr. by repeat case_match.
  - intros b _. by apply bind_terminates.
Qed.

(** ** The three directories *)

Definition root_dir (top : bytes) : Prop :=
  top = nixStateDir ++ str "/" ++ gcRootsDir ∨
  top = nixStateDir ++ str "/manifests" ∧ pathExists top = Ret true ∨
  top = nixStateDir ++ str "/profiles".

Lemma findRoots_finds fuel st :
  findRoots isValidPath nixStore nixStateDir fuel = Ret st →
  finds (λ k sp, ∃ top, root_dir top ∧ root_below top DT_UNKNOWN k sp) ([], []) st.
Proof.
  unfold findRoots. intros (st1 & E1 & (b & Eb & (st2 & E2 & E3)%bind_Ret_inv)%bind_Ret_inv)%bind_Ret_inv.
  assert (finds (λ k sp, b = true ∧ root_below (nixStateDir ++ str "/manifests") DT_UNKNOWN k sp) st1 st2) as H2.
  { destruct b.
    - apply findRoots_rec_finds in E2. eapply finds_ext; [|exact E2]. intros k sp. cbv beta. tauto.
    - simplify_eq. apply finds_nothing. intros k sp [? _]. done. }
  apply findRoots_rec_finds in E1, E3.
  eapply finds_ext; [|exact (finds_trans _ _ _ _ _ E1 (finds_trans _ _ _ _ _ H2 E3))].
  intros k sp. cbv beta. unfold root_dir. split.
  - intros [Hb|[[-> Hb]|Hb]]; eexists; (split; [|exact Hb]); auto.
  - intros (top & [->|[[-> Ht]| ->]] & Hb); [by left|right; left|by right; right].
    split; [|done]. congruence.
Qed.

Lemma findRoots_roots fuel roots unlinked :
  findRoots isValidPath nixStore nixStateDir fuel = Ret (roots, unlinked) →
  (∀ k sp, (k, sp) ∈ roots ↔ ∃ top, root_dir top ∧ root_below top DT_UNKNOWN k sp) ∧
  (∀ p, p ∈ unlinked → stale p).
Proof.
  intros E. apply findRoots_finds in E as (F1 & F2 & F3 & F4 & F5). cbn [fst snd] in *.
  assert (map_wf (@nil (bytes * bytes))) as Hw by constructor. split.
  - intros k sp. split; [intros [Hn|?]%(F4 Hw); [by apply not_elem_of_nil in Hn|done]|].
    intros Hb. pose proof (F3 _ _ Hb) as ([k' sp'] & -> & Hin)%list_elem_of_fmap. cbn [fst] in *.
    destruct (F4 Hw _ _ Hin) as [Hn|(top' & _ & Hb')]; [by apply not_elem_of_nil in Hn|].
    destruct Hb as (top & _ & Hb). by rewrite (root_below_fun _ _ _ _ _ Hb Hb').
  - intros p [Hn|?]%F5; [by apply not_elem_of_nil in Hn|done].
Qed.

Lemma findRoots_terminates fuel :
  (∀ top q tq, root_dir top → ¬ descends fuel top DT_UNKNOWN q tq) →
  terminates (findRoots isValidPath nixStore nixStateDir fuel).
Proof.
  intros Hno. unfold findRoots. apply bind_terminates.
  { apply findRoots_rec_terminates. intros q tq. apply Hno. by left. }
  intros st1 _. apply bind_terminates; [apply os_terminates|]. intros b Eb. apply bind_terminates.
  { destruct b; [|done]. apply findRoots_rec_terminates. intros q tq. apply Hno. right. by left. }
  intros st2 _. apply findRoots_rec_terminates. intros q tq. apply Hno. by right; right.
Qed.
End roots_spec.

(** * Properties *)

(** The file of a process that registered [paths]; [tail] is a record being
    written. *)
Definition temp_roots_file (owner : option (list bytes * bytes)) : TempRootsFile :=
  match owner with
  | None => TempStale
  | Some (paths, tail) => TempLive (mjoin (temp_root_record <$> paths) ++ tail)
  end.

Lemma record_count paths tail :
  length paths <= length (mjoin (temp_root_record <$> paths) ++ tail).
Proof.
  induction paths as [|p paths IH]; [simpl; lia|]. rewrite fmap_cons, mjoin_cons. unfold temp_root_record at 1.
  rewrite !length_app in *. simpl. lia.
Qed.

Lemma readTempRoots_live nixStore f paths tail tempRoots removed :
  (∀ p, p ∈ paths → nul_free p ∧ isStorePath nixStore p = true) → nul_free tail →
  readTempRoots_file nixStore (tempRoots, removed) (f, temp_roots_file (Some (paths, tail))) =
    Ret (set_insert_all paths tempRoots, removed).
Proof.
  intros Hp Ht. unfold readTempRoots_file, temp_roots_file. cbn [snd].
  pose proof (record_count paths tail) as Hn.
  pose proof (readTempRoots_loop_records _ nixStore [] paths tail tempRoots Hp Ht Hn) as E.
  change ([] ++ ?c) with c in E. change (length []) with 0 in E. by rewrite E.
Qed.

Lemma readTempRoots_files nixStore (owners : list (bytes * option (list bytes * bytes))) tempRoots removed :
  (∀ f paths tail, (f, Some (paths, tail)) ∈ owners →
     nul_free tail ∧ ∀ p, p ∈ paths → nul_free p ∧ isStorePath nixStore p = true) →
  ∃ roots, foldM (readTempRoots_file nixStore) (prod_map id temp_roots_file <$> owners) (tempRoots, removed) =
      Ret (roots, removed ++ (filter (λ o, o.2 = None) owners).*1) ∧
    ∀ q, q ∈ roots ↔ q ∈ tempRoots ∨ ∃ f paths tail, (f, Some (paths, tail)) ∈ owners ∧ q ∈ paths.
Proof.
  revert tempRoots removed.
  induction owners as [|[f [[paths tail]|]] owners IH]; intros tempRoots removed Hok.
  - exists tempRoots. rewrite app_nil_r. split; [done|]. set_solver.
  - destruct (Hok f paths tail) as [Ht Hp]; [by left|].
    rewrite fmap_cons. cbn [foldM]. change (prod_map id temp_roots_file (f, ?o)) with (f, temp_roots_file o).
    rewrite readTempRoots_live by done. cbn [mbind outcome_bind].
    rewrite filter_cons_False by done.
    destruct (IH (set_insert_all paths tempRoots) removed) as (roots & Er & Hr);
      [intros; eapply Hok; by right|].
    exists roots. split; [exact Er|]. intros q. rewrite Hr, elem_of_set_insert_all.
    setoid_rewrite elem_of_cons. split; [naive_solver|].
    intros [?|(f' & ps & tl & [[= -> -> ->]|?] & ?)]; eauto 10.
  - rewrite fmap_cons. cbn [foldM]. unfold readTempRoots_file at 1.
    cbn [prod_map fst snd temp_roots_file mbind outcome_bind id].
    destruct (IH tempRoots (removed ++ [f])) as (roots & Er & Hr); [intros; eapply Hok; by right|].
    exists roots. rewrite filter_cons_True by done. rewrite fmap_cons, <-(assoc (++)) in *.
    split; [exact Er|]. intros q. rewrite Hr. setoid_rewrite elem_of_cons. naive_solver.
Qed.

(** The collector reads back every temporary root that the running processes
    registered, and nothing else: for files in the state [addTempRoot] leaves
    them in (a root per record, possibly an unfinished record at the end),
    [readTempRoots] returns exactly the union of the registered paths, and
    removes exactly the files whose process is gone. *)
Theorem readTempRoots_exact nixStore (owners : list (bytes * option (list bytes * bytes))) tempRoots :
  (∀ f paths tail, (f, Some (paths, tail)) ∈ owners →
     nul_free tail ∧ ∀ p, p ∈ paths → nul_free p ∧ isStorePath nixStore p = true) →
  ∃ roots, readTempRoots nixStore (prod_map id temp_roots_file <$> owners) tempRoots =
      Ret (roots, (filter (λ o, o.2 = None) owners).*1) ∧
    ∀ q, q ∈ roots ↔ q ∈ tempRoots ∨ ∃ f paths tail, (f, Some (paths, tail)) ∈ owners ∧ q ∈ paths.
Proof. apply (readTempRoots_files nixStore owners tempRoots []). Qed.

(** C36: [findRoots] finds every permanent root and only those. It terminates
    when the fuel exceeds the nesting of the directories; and when it returns,
    the map has exactly the pairs of a link (or file) below gcroots, manifests
    or profiles and the valid store path it points to, directly, through one
    link outside the store, or by its name; only links of gcroots/auto whose
    target is gone are removed. *)
Theorem findRoots_exact `{RootsOSLaws} (isValidPath : bytes → outcome bool) nixStore nixStateDir fuel :
  (∀ p, terminates (isValidPath p)) →
  (∀ top q tq, root_dir nixStateDir top → ¬ descends fuel top DT_UNKNOWN q tq) →
  terminates (findRoots isValidPath nixStore nixStateDir fuel) ∧
  ∀ roots unlinked, findRoots isValidPath nixStore nixStateDir fuel = Ret (roots, unlinked) →
    (∀ k sp, (k, sp) ∈ roots ↔
       ∃ top, root_dir nixStateDir top ∧ root_below isValidPath nixStore top DT_UNKNOWN k sp) ∧
    (∀ p, p ∈ unlinked → stale nixStore nixStateDir p).
Proof.
  intros Hv Hdepth. split; [by apply findRoots_terminates|]. intros roots unl. by apply findRoots_roots.
Qed.

(** ** Witnesses *)

Lemma readTempRoots_exact_witness :
  ∃ roots, readTempRoots (str "/s") (prod_map id temp_roots_file <$>
      [(str "17", Some ([str "/s/a"; str "/s/b"], str "/s/unfin")); (str "3", None)]) [str "/s/c"] =
      Ret (roots, [str "3"]) ∧
    ∀ q, q ∈ roots ↔ q ∈ [str "/s/c"] ∨ ∃ f paths tail,
      (f, Some (paths, tail)) ∈
        [(str "17", Some ([str "/s/a"; str "/s/b"], str "/s/unfin")); (str "3", None)] ∧ q ∈ paths.
Proof.
  apply (readTempRoots_exact (str "/s")
    [(str "17", Some ([str "/s/a"; str "/s/b"], str "/s/unfin")); (str "3", None)] [str "/s/c"]).
  intros f paths tail Hin. apply elem_of_cons in Hin as [[= -> -> ->]|Hin].
  - split; [concrete|]. intros p Hp. rewrite !elem_of_cons in Hp.
    destruct Hp as [->|[->|Hp]]; [split; [concrete|reflexivity]..|]. by apply not_elem_of_nil in Hp.
  - apply elem_of_cons in Hin as [[=]|Hin]. by apply not_elem_of_nil in Hin.
Defined.

(** gcroots has a link a to the store, and auto with an indirect root l and a
    stale link m; there are no manifests and no profiles. *)
Definition sample_os : RootsOS := {|
  getFileType p :=
    if decide (p = str "/v/gcroots") then Ret DT_DIR else Throw (SysError ENOENT "getting status");
  readDirectory p :=
    if decide (p = str "/v/gcroots") then Ret [(str "a", DT_LNK); (str "auto", DT_DIR)]
    else if decide (p = str "/v/gcroots/auto") then Ret [(str "l", DT_LNK); (str "m", DT_LNK)]
    else Throw (SysError ENOTDIR "opening directory");
  readLink p :=
    if decide (p = str "/v/gcroots/a") then Ret (str "/s/a/bin")
    else if decide (p = str "/v/gcroots/auto/l") then Ret (str "/home/l")
    else if decide (p = str "/v/gcroots/auto/m") then Ret (str "/home/m")
    else if decide (p = str "/home/l") then Ret (str "/s/b")
    else Throw (SysError ENOENT "reading symbolic link");
  pathExists p := Ret (bool_decide (p = str "/home/l"));
  lstat_is_link p := Ret (bool_decide (p = str "/home/l"))
|}.

Lemma sample_os_laws : @RootsOSLaws sample_os.
Proof.
  split.
  - intros p. cbn. split_and!; repeat case_decide; done.
  - intros p target. cbn. repeat case_decide; done.
  - intros d es name target. cbn.
    repeat case_decide; intros E Hin; simplify_eq; rewrite !elem_of_cons in Hin; exfalso;
      destruct Hin as [[=]|[[=]|Hin]]; by apply not_elem_of_nil in Hin.
Qed.

Example findRoots_runs :
  @findRoots sample_os (λ p, Ret true) (str "/s") (str "/v") 3 =
    Ret ([(str "/home/l", str "/s/b"); (str "/v/gcroots/a", str "/s/a")], [str "/v/gcroots/auto/m"]).
Proof. vm_compute. reflexivity. Qed.

Lemma sample_depth top q tq :
  @root_dir sample_os (str "/v") top → ¬ @descends sample_os 3 top DT_UNKNOWN q tq.
Proof.
  intros _ Hd. inversion Hd as [|n p t es name tn q' tq' _ Ees Hin Hd2]; subst. clear Hd.
  inversion Hd2 as [|n p t es2 name2 tn2 q' tq' _ Ees2 Hin2 Hd3]; subst. clear Hd2.
  inversion Hd3 as [|n p t es3 name3 tn3 q' tq' _ Ees3 Hin3 Hd4]; subst. clear Hd3 Hd4.
  cbn in Ees, Ees2, Ees3. repeat case_decide; simplify_eq; rewrite !elem_of_cons in *;
    repeat match goal with
    | H : _ ∨ _ |- _ => destruct H
    | H : _ ∈ [] |- _ => by apply not_elem_of_nil in H
    end; simplify_eq.
Qed.

Lemma findRoots_exact_witness :
  terminates (@findRoots sample_os (λ p, Ret true) (str "/s") (str "/v") 3) ∧
  ∀ roots unlinked, @findRoots sample_os (λ p, Ret true) (str "/s") (str "/v") 3 = Ret (roots, unlinked) →
    (∀ k sp, (k, sp) ∈ roots ↔ ∃ top, @root_dir sample_os (str "/v") top ∧
       @root_below sample_os (λ p, Ret true) (str "/s") top DT_UNKNOWN k sp) ∧
    (∀ p, p ∈ unlinked → @stale sample_os (str "/s") (str "/v") p).
Proof.
  apply (@findRoots_exact sample_os sample_os_laws (λ p, Ret true) (str "/s") (str "/v") 3).
  - intros p. discriminate.
  - exact sample_depth.
Defined.
