(* ===== verification/GC.v ===== *)
(** libstore/gc.cc, second half: the garbage collector, with deletePath of
    libutil/util.cc.

    [World] is what the collector changes: the database, the files of the store
    (a tree per path), the links it removes below the state directory, and the
    members of [GCState]. A collection that throws keeps what it did so far, so
    a computation returns the world together with its outcome. Failures of
    system calls and the orders that the system chooses (readdir, shuffle) come
    from [GCOS]. *)

From S2P Require Import Prelude Containers Serialise Hash Paths StorePaths Derivations Closure LocalDB Roots.

Definition u64 (z : Z) : Z := (z mod 2 ^ 64)%Z.
Definition ULLONG_MAX : Z := (2 ^ 64 - 1)%Z.
Definition ENOSPC : Z := 28.
Definition EXDEV : Z := 18.
Definition EISDIR : Z := 21.

(** * Files *)

(** A file or symbolic link with its size and number of links, or a directory. *)
Inductive Node :=
  | NFile (size nlink : Z)
  | NDir (entries : list (bytes * Node)).

Abbreviation Files := (gmap bytes Node).

Definition is_dir (n : Node) : bool := match n with NDir _ => true | NFile _ _ => false end.

(** Failures of system calls, by the path they are given: none, or an errno. *)
Class GCOS := {
  lstat_error : bytes → option Z;
  chmod_error : bytes → option Z;
  rename_error : bytes → bytes → option Z;
  unlink_error : bytes → option Z;
  createDirs_error : bytes → option Z;
  opendir_error : bytes → option Z;
  readdir : Files → bytes → list bytes;
  random_shuffle : list bytes → list bytes
}.

(** A call that fails as the oracle says. *)
Definition syscall (e : option Z) (msg : string) : outcome () :=
  match e with None => Ret () | Some e => Throw (SysError e msg) end.

(** [_deletePath]: the bytes freed are those of the files with at most
    [linkThreshold] links. *)
Fixpoint deletePath_node `{GCOS} (linkThreshold : Z) (path : bytes) (n : Node) (bytesFreed : Z) : outcome Z :=
  syscall (lstat_error path) "getting status";;
  match n with
  | NFile size nlink =>
      let bytesFreed := if decide (nlink <= linkThreshold)%Z then u64 (bytesFreed + size) else bytesFreed in
      syscall (unlink_error path) "cannot unlink";;
      Ret bytesFreed
  | NDir entries =>
      syscall (chmod_error path) "making writable";;
      bytesFreed ← (fix go entries bytesFreed :=
        match entries with
        | [] => Ret bytesFreed
        | (name, c) :: entries =>
            bytesFreed ← deletePath_node linkThreshold (path ++ str "/" ++ name) c bytesFreed;
            go entries bytesFreed
        end) entries bytesFreed;
      syscall (unlink_error path) "cannot unlink";;
      Ret bytesFreed
  end.

(** * State of a collection *)

Inductive GCAction := gcReturnLive | gcReturnDead | gcDeleteDead | gcDeleteSpecific.

#[global] Instance GCAction_eq_dec : EqDecision GCAction.
Proof. solve_decision. Defined.

Record GCOptions := mkGCOptions {
  action : GCAction;
  ignoreLiveness : bool;
  pathsToDelete : strset;
  maxFreed : Z
}.

Record GCResults := mkGCResults {
  res_paths : strset;
  bytesFreed : Z
}.

Record GCState := mkGCState {
  options : GCOptions;
  results : GCResults;
  roots : strset;
  tempRoots : strset;
  dead : strset;
  alive : strset;
  gcKeepOutputs : bool;
  gcKeepDerivations : bool;
  bytesInvalidated : Z;
  moveToTrash : bool;
  trashDir : bytes;
  shouldDelete : bool
}.

Definition set_results (r : GCResults) (s : GCState) : GCState :=
  mkGCState (options s) r (roots s) (tempRoots s) (dead s) (alive s) (gcKeepOutputs s)
    (gcKeepDerivations s) (bytesInvalidated s) (moveToTrash s) (trashDir s) (shouldDelete s).
Definition set_dead (d : strset) (s : GCState) : GCState :=
  mkGCState (options s) (results s) (roots s) (tempRoots s) d (alive s) (gcKeepOutputs s)
    (gcKeepDerivations s) (bytesInvalidated s) (moveToTrash s) (trashDir s) (shouldDelete s).
Definition set_alive (a : strset) (s : GCState) : GCState :=
  mkGCState (options s) (results s) (roots s) (tempRoots s) (dead s) a (gcKeepOutputs s)
    (gcKeepDerivations s) (bytesInvalidated s) (moveToTrash s) (trashDir s) (shouldDelete s).
Definition set_bytesInvalidated (n : Z) (s : GCState) : GCState :=
  mkGCState (options s) (results s) (roots s) (tempRoots s) (dead s) (alive s) (gcKeepOutputs s)
    (gcKeepDerivations s) n (moveToTrash s) (trashDir s) (shouldDelete s).
Definition set_moveToTrash (b : bool) (s : GCState) : GCState :=
  mkGCState (options s) (results s) (roots s) (tempRoots s) (dead s) (alive s) (gcKeepOutputs s)
    (gcKeepDerivations s) (bytesInvalidated s) b (trashDir s) (shouldDelete s).

Record World := mkWorld {
  w_store : LocalStore;
  w_files : Files;
  w_unlinked : list bytes;                 (* removed below the state directory *)
  w_state : GCState
}.

(** * Computations *)

Definition G (A : Type) : Type := World → outcome A * World.

#[global] Instance G_ret : MRet G := λ A a w, (Ret a, w).
#[global] Instance G_bind : MBind G := λ A B f m w,
  match m w with
  | (Ret a, w) => f a w
  | (Throw e, w) => (Throw e, w)
  | (OutOfFuel, w) => (OutOfFuel, w)
  end.

Definition glift {A} (m : outcome A) : G A := λ w, (m, w).
Definition gget {A} (f : World → A) : G A := λ w, (Ret (f w), w).
Definition gmodify (f : GCState → GCState) : G () :=
  λ w, (Ret (), mkWorld (w_store w) (w_files w) (w_unlinked w) (f (w_state w))).
Definition gfiles (f : Files → Files) : G () :=
  λ w, (Ret (), mkWorld (w_store w) (f (w_files w)) (w_unlinked w) (w_state w)).

Definition gunlinked (l : list bytes) : G () :=
  λ w, (Ret (), mkWorld (w_store w) (w_files w) (w_unlinked w ++ l) (w_state w)).

(** A transaction on the database: no effect when it throws. *)
Definition gstore (f : LocalStore → outcome LocalStore) : G () :=
  λ w, match f (w_store w) with
       | Ret st => (Ret (), mkWorld st (w_files w) (w_unlinked w) (w_state w))
       | Throw e => (Throw e, w)
       | OutOfFuel => (OutOfFuel, w)
       end.

(** [try { m } catch ...] *)
Definition gcatch {A} (m : G A) (handler : exn → G A) : G A :=
  λ w, match m w with
       | (Throw e, w) => handler e w
       | r => r
       end.

Definition giter {A} (f : A → G ()) : list A → G () :=
  fix go l := match l with [] => mret () | x :: l => f x;; go l end.

(** * The collector *)

(** The settings it reads. *)
Record GCSettings := mkGCSettings {
  nixStore : bytes;
  nixStateDir : bytes;
  set_gcKeepOutputs : bool;
  set_gcKeepDerivations : bool;
  autoOptimiseStore : bool
}.

Definition deduplicationMinSize : Z := 8192.

Section collector.
Context `{Gcrypt} `{GCOS} `{RootsOS}.
Variable settings : GCSettings.
Local Abbreviation store := (nixStore settings).

Definition linksDir : bytes := store ++ str "/.links".

Definition isActiveTempFile (state : GCState) (path suffix : bytes) : bool :=
  hasSuffix path suffix && set_mem (take (length path - length suffix) path) (tempRoots state).

Definition gdb : G Database := gget (λ w, ls_db (w_store w)).

Definition add_freed (n : Z) (s : GCState) : GCState :=
  set_results (mkGCResults (res_paths (results s)) (u64 (bytesFreed (results s) + n))) s.

Definition deleteGarbage (path : bytes) : G () :=
  let linkThreshold := if autoOptimiseStore settings && isStorePath store path then 2%Z else 1%Z in
  node ← gget (λ w, w_files w !! c_str path);
  freed ← glift (match node with
                 | None => Throw (SysError ENOENT "getting status")
                 | Some n => deletePath_node linkThreshold (c_str path) n 0
                 end);
  gfiles (delete (c_str path));;
  gmodify (add_freed freed).

(** [lstat]: nothing when the path does not exist. *)
Definition glstat (path : bytes) : G (option Node) :=
  glift (match lstat_error (c_str path) with
         | Some e => if decide (e = ENOENT) then Ret () else Throw (SysError e "getting status")
         | None => Ret ()
         end);;
  gget (λ w, if decide (lstat_error (c_str path) = None) then w_files w !! c_str path else None).

Definition gpathExists (path : bytes) : G bool :=
  glift (match lstat_error (c_str path) with
         | Some e => if decide (e = ENOENT ∨ e = ENOTDIR) then Ret () else Throw (SysError e "getting status")
         | None => Ret ()
         end);;
  gget (λ w, bool_decide (lstat_error (c_str path) = None ∧ is_Some (w_files w !! c_str path))).

(** [rename(path, trashDir + "/" + base)] *)
Definition move_to_trash (trashDir base : bytes) (path : bytes) (files : Files) : outcome Files :=
  match files !! path, files !! trashDir with
  | Some n, Some (NDir entries) =>
      Ret (<[trashDir := NDir (filter (λ e, e.1 ≠ base) entries ++ [(base, n)])]> (delete path files))
  | _, _ => Throw (SysError ENOENT "unable to rename")
  end.

(** The body of the [try] of [deletePathRecursive]. *)
Definition trash_path (path : bytes) (size : Z) : G () :=
  glift (syscall (chmod_error (c_str path)) "making writable");;
  trash ← gget (λ w, trashDir (w_state w));
  base ← glift (baseNameOf path);
  glift (syscall (rename_error (c_str path) (c_str (trash ++ str "/" ++ base))) "unable to rename");;
  files ← gget (λ w, move_to_trash trash (c_str base) (c_str path) (w_files w));
  files ← glift files;
  gfiles (λ _, files);;
  gmodify (λ s, set_bytesInvalidated (u64 (bytesInvalidated s + size)) s).

(** What is done with an entry that exists. *)
Definition remove_path (path : bytes) (size : Z) (node : Node) : G () :=
  gmodify (λ s, set_results (mkGCResults (set_insert path (res_paths (results s))) (bytesFreed (results s))) s);;
  move ← gget (λ w, moveToTrash (w_state w));
  (if move && is_dir node then
     gcatch (trash_path path size) (λ e,
       match e with
       | SysError errNo _ =>
           if decide (errNo = ENOSPC ∨ errNo = EXDEV) then deleteGarbage path else mret ()
       | e => glift (Throw e)
       end)
   else deleteGarbage path);;
  s ← gget w_state;
  if decide (maxFreed (options s) < u64 (bytesFreed (results s) + bytesInvalidated s))%Z then
    glift (Throw GCLimitReached)
  else mret ().

Fixpoint deletePathRecursive (fuel : nat) (path : bytes) : G () :=
  match fuel with
  | 0 => glift OutOfFuel
  | S fuel =>
      db ← gdb;
      size ← (if isValidPath_ path db then
                referrers ← glift (db_queryReferrers store path db);
                giter (λ i, if decide (i = path) then mret () else deletePathRecursive fuel i) referrers;;
                db ← gdb;
                info ← glift (queryPathInfo store path db);
                gstore (invalidatePathChecked store path);;
                mret (vp_narSize info)
              else mret 0%Z);
      node ← glstat path;
      match node with
      | None => mret ()
      | Some node => remove_path path size node
      end
  end.

(** ** Liveness *)

Definition gc_incoming (db : Database) (state : GCState) (path : bytes) : outcome strset :=
  incoming ← db_queryReferrers store path db;
  incoming ← (if gcKeepDerivations state && isDerivation path then
                outputs ← db_queryDerivationOutputs path db;
                foldM (λ incoming i,
                  insert_if (if isValidPath_ i db then
                               d ← db_queryDeriver store i db; Ret (bool_decide (d = path))
                             else Ret false) i incoming) outputs incoming
              else Ret incoming);
  if gcKeepOutputs state then
    derivers ← db_queryValidDerivers store path db; Ret (set_insert_all derivers incoming)
  else Ret incoming.

(** The last loop of [canReachRoot]: [reach] is the recursive call. *)
Definition any_reaches (reach : GCState → strset → bytes → outcome (bool * GCState * strset)) (path : bytes)
    : list bytes → GCState → strset → outcome (bool * GCState * strset) :=
  fix go incoming state visited :=
    match incoming with
    | [] => Ret (false, state, visited)
    | i :: incoming =>
        if decide (i = path) then go incoming state visited
        else
          '(b, state, visited) ← reach state visited i;
          if (b : bool) then Ret (true, set_alive (set_insert path (alive state)) state, visited)
          else go incoming state visited
    end.

Fixpoint canReachRoot (fuel : nat) (db : Database) (state : GCState) (visited : strset) (path : bytes)
    : outcome (bool * GCState * strset) :=
  match fuel with
  | 0 => OutOfFuel
  | S fuel =>
      if set_mem path visited then Ret (false, state, visited)
      else if set_mem path (alive state) then Ret (true, state, visited)
      else if set_mem path (dead state) then Ret (false, state, visited)
      else if set_mem path (roots state) then
        Ret (true, set_alive (set_insert path (alive state)) state, visited)
      else
        let visited := set_insert path visited in
        if isValidPath_ path db then
          incoming ← gc_incoming db state path;
          any_reaches (canReachRoot fuel db) path incoming state visited
        else Ret (false, state, visited)
  end.

(** Both recursions nest at most once per valid path. *)
Definition gc_depth (db : Database) : nat := S (S (size (db_ValidPaths db))).

(** [depth] bounds them; the database only shrinks. *)
Definition tryToDelete (depth : nat) (path : bytes) : G () :=
  s ← gget w_state;
  if decide (path = linksDir ∨ path = trashDir s) then mret ()
  else
    db ← gdb;
    if negb (isValidPath_ path db) &&
       (isActiveTempFile s path (str ".lock") || isActiveTempFile s path (str ".chroot")) then mret ()
    else
      '(b, s, visited) ← glift (canReachRoot depth db s [] path);
      gmodify (λ _, s);;
      if (b : bool) then mret ()
      else
        gmodify (λ s, set_dead (set_insert_all visited (dead s)) s);;
        if shouldDelete s then deletePathRecursive depth path else mret ().

(** [removeUnusedLinks]; the sizes that are only printed are left out. *)
Definition unused_link (size nlink : Z) : bool :=
  bool_decide (nlink = 1)%Z || bool_decide (size < deduplicationMinSize)%Z.

Definition remove_entry (dir name : bytes) (files : Files) : Files :=
  match files !! dir with
  | Some (NDir entries) => <[dir := NDir (filter (λ e, e.1 ≠ name) entries)]> files
  | _ => files
  end.

Definition dir_entry (dir name : bytes) (files : Files) : option Node :=
  match files !! dir with
  | Some (NDir entries) => list_find (λ e, e.1 = name) entries ≫= λ e, Some e.2.2
  | _ => None
  end.

Definition removeUnusedLinks_entry (name : bytes) : G () :=
  if decide (name = str "." ∨ name = str "..") then mret ()
  else
    let path := linksDir ++ str "/" ++ name in
    glift (syscall (lstat_error path) "statting");;
    node ← gget (λ w, dir_entry linksDir name (w_files w));
    match node with
    | Some (NFile size nlink) =>
        if unused_link size nlink then
          glift (syscall (unlink_error path) "deleting");;
          gfiles (remove_entry linksDir name);;
          gmodify (add_freed size)
        else mret ()
    | Some (NDir _) => glift (Throw (SysError EISDIR "deleting"))
    | None => glift (Throw (SysError ENOENT "statting"))
    end.

Definition removeUnusedLinks : G () :=
  glift (syscall (opendir_error linksDir) "opening directory");;
  names ← gget (λ w, readdir (w_files w) linksDir);
  giter removeUnusedLinks_entry names;;
  glift (syscall (lstat_error linksDir) "statting").

(** ** [collectGarbage] *)

(** What the search for roots reads: the files of temporary roots and the
    output of "guix gc --list-busy". *)
Variable tempFiles : list (bytes * TempRootsFile).
Variable listBusy : outcome bytes.
Variable rootsDepth : nat.

(** The roots of a collection, the temporary ones, and what was removed below
    the state directory. *)
Definition gc_roots (options : GCOptions) (db : Database) : outcome (strset * strset * list bytes) :=
  let valid p := Ret (isValidPath_ p db) in
  '(rootMap, unlinked) ← (if ignoreLiveness options then Ret ([], [])
                          else findRoots valid store (nixStateDir settings) rootsDepth);
  let roots := set_of_list (snd <$> rootMap) in
  roots ← (if ignoreLiveness options then Ret roots
           else out ← listBusy; addAdditionalRoots valid store out roots);
  '(tempRoots, removed) ← readTempRoots store tempFiles [];
  Ret (set_insert_all tempRoots roots, tempRoots, unlinked ++ removed).

Definition init_state (options : GCOptions) (results : GCResults) (roots tempRoots : strset) : GCState :=
  let specific := bool_decide (action options = gcDeleteSpecific) in
  let ignore := specific && ignoreLiveness options in
  mkGCState options results roots tempRoots [] []
    (negb ignore && set_gcKeepOutputs settings) (negb ignore && set_gcKeepDerivations settings)
    0 true (store ++ str "/trash")
    (bool_decide (action options = gcDeleteDead) || specific).

(** Emptying and creating the trash directory. *)
Definition prepare_trash : G () :=
  trash ← gget (λ w, trashDir (w_state w));
  exists_ ← gpathExists trash;
  (if (exists_ : bool) then deleteGarbage trash else mret ());;
  match createDirs_error trash with
  | None => gfiles (<[trash := NDir []]>)
  | Some e => if decide (e = ENOSPC) then gmodify (set_moveToTrash false) else mret ()
  end.

Definition delete_specific (depth : nat) (i : bytes) : G () :=
  glift (assertStorePath store i);;
  tryToDelete depth i;;
  d ← gget (λ w, dead (w_state w));
  glift (check (set_mem i d) (Error "cannot delete path since it is still alive")).

(** The loop over the store directory: the entries that are valid are kept for
    later, the others are considered at once. *)
Fixpoint scan_store (depth : nat) (names : list bytes) (entries : list bytes) : G (list bytes) :=
  match names with
  | [] => mret entries
  | name :: names =>
      if decide (name = str "." ∨ name = str "..") then scan_store depth names entries
      else
        let path := store ++ str "/" ++ name in
        db ← gdb;
        if isValidPath_ path db then scan_store depth names (entries ++ [path])
        else tryToDelete depth path;; scan_store depth names entries
  end.

Definition delete_all (depth : nat) : G () :=
  glift (syscall (opendir_error store) "opening directory");;
  names ← gget (λ w, readdir (w_files w) store);
  entries ← scan_store depth names [];
  giter (tryToDelete depth) (random_shuffle entries).

Definition set_res_paths (l : strset) (s : GCState) : GCState :=
  set_results (mkGCResults l (bytesFreed (results s))) s.

(** From the point where the roots are known. *)
Definition collect (depth : nat) (options : GCOptions) : G () :=
  delete_ ← gget (λ w, shouldDelete (w_state w));
  (if (delete_ : bool) then prepare_trash else mret ());;
  (if decide (action options = gcDeleteSpecific) then giter (delete_specific depth) (pathsToDelete options)
   else if decide (0 < maxFreed options)%Z then
     gcatch (delete_all depth) (λ e, match e with GCLimitReached => mret () | e => glift (Throw e) end)
   else mret ());;
  if decide (action options = gcReturnLive) then gmodify (λ s, set_res_paths (alive s) s)
  else if decide (action options = gcReturnDead) then gmodify (λ s, set_res_paths (dead s) s)
  else
    trash ← gget (λ w, trashDir (w_state w));
    deleteGarbage trash;;
    removeUnusedLinks.

Definition collectGarbage (options : GCOptions) (results : GCResults) : G () :=
  db ← gdb;
  '(roots, tempRoots, unlinked) ← glift (gc_roots options db);
  gunlinked unlinked;;
  gmodify (λ _, init_state options results roots tempRoots);;
  collect (gc_depth db) options.
End collector.

(** * Which paths a live path keeps alive *)

Definition row_of (db : Database) (p : bytes) (r : PathRow) : Prop :=
  ∃ id, db_ValidPaths db !! id = Some r ∧ row_path r = p.
(** [o] is registered as an output of the valid derivation [d]. *)
Definition drv_output (db : Database) (d o : bytes) : Prop :=
  ∃ id name, has_path db id d ∧ db_DerivationOutputs db !! (id, name) = Some o.
Definition deriver_of (db : Database) (p d : bytes) : Prop :=
  ∃ r, row_of db p r ∧ default [] (row_deriver r) = d.

(** [x] must not be deleted while [y] is there: [y] refers to [x]; or [x] is
    the derivation of the valid output [y], with gc-keep-derivations; or [x] is
    an output of the derivation [y], with gc-keep-outputs. *)
Definition needed_by (keepDerivations keepOutputs : bool) (db : Database) (x y : bytes) : Prop :=
  valid db x ∧ y ≠ x ∧
  (refers db y x ∨
   keepDerivations = true ∧ isDerivation x = true ∧ drv_output db x y ∧ deriver_of db y x ∨
   keepOutputs = true ∧ drv_output db y x).

Definition live (keepDerivations keepOutputs : bool) (rootSet : strset) (db : Database) (x : bytes) : Prop :=
  ∃ r, r ∈ rootSet ∧ rtc (needed_by keepDerivations keepOutputs db) x r.

(** Texts come back from SQLite as C strings. *)
Record texts (db : Database) : Prop := {
  text_paths id r : db_ValidPaths db !! id = Some r → nul_free (row_path r);
  text_outputs k o : db_DerivationOutputs db !! k = Some o → nul_free o
}.

(** Rows that [queryPathInfo] can read. *)
Definition readable `{Gcrypt} (store : bytes) (db : Database) : Prop :=
  ∀ id r, db_ValidPaths db !! id = Some r →
    isStorePath store (row_path r) = true ∧ ∃ h, parseHashField (row_hash r) = Ret h.

Lemma valid_row db p : valid db p ↔ ∃ r, row_of db p r.
Proof. unfold valid, has_path, row_of. naive_solver. Qed.

Lemma row_of_fun db p r r' : db_ok db → row_of db p r → row_of db p r' → r = r'.
Proof.
  intros Hok (id & Hr & Hp) (id' & Hr' & Hp'). assert (id = id') as -> by (eapply ok_unique; eauto; congruence).
  congruence.
Qed.

Lemma find_row_of db p id r : find_row db p = Some (id, r) → row_of db p r ∧ has_path db id p.
Proof. intros [Hr Hp]%find_row_Some. split; [by exists id|by exists r]. Qed.

Lemma texts_valid db p : texts db → valid db p → nul_free p.
Proof. intros Ht (id & r & Hr & <-). by eapply text_paths. Qed.

Lemma readable_valid `{Gcrypt} store db p : readable store db → valid db p → isStorePath store p = true.
Proof. intros Hr (id & r & Hx & <-). by eapply Hr. Qed.

Lemma isValidPath_nul_free db p : nul_free p → isValidPath_ p db = true ↔ valid db p.
Proof. intros Hp. rewrite isValidPath_spec. by rewrite c_str_id. Qed.

Lemma isValidPath_false db p : nul_free p → isValidPath_ p db = false ↔ ¬ valid db p.
Proof. intros Hp. rewrite <-isValidPath_nul_free by done. by rewrite not_true_iff_false. Qed.

(** ** The queries *)

Lemma queryDerivationOutputs_spec path db outs y :
  db_ok db → nul_free path → db_queryDerivationOutputs path db = Ret outs → y ∈ outs ↔ drv_output db path y.
Proof.
  intros Hok Hp. unfold db_queryDerivationOutputs, queryValidPathId. rewrite c_str_id by done.
  destruct (find_row db path) as [[id r]|] eqn:E; [|done]. apply find_row_of in E as [_ Hid].
  intros [= <-]. rewrite elem_of_set_of_list, list_elem_of_fmap. unfold stmtQueryDerivationOutputs, drv_output. split.
  - intros ([name o] & -> & ([[i n] o'] & Hin%elem_of_map_to_list & E)%list_elem_of_omap). simpl in E.
    case_decide; simplify_eq. eauto.
  - intros (i & name & Hi & Hin). assert (i = id) as -> by (by eapply has_path_unique).
    exists (name, y). split; [done|]. apply list_elem_of_omap. exists ((id, name), y).
    split; [by apply elem_of_map_to_list|]. simpl. by rewrite decide_True.
Qed.

Lemma queryValidDerivers_spec store path db ds y :
  db_ok db → nul_free path → db_queryValidDerivers store path db = Ret ds → y ∈ ds ↔ drv_output db y path.
Proof.
  intros Hok Hp. unfold db_queryValidDerivers. intros ([] & _ & E)%bind_Ret_inv. simplify_eq.
  rewrite c_str_id, elem_of_set_of_list by done. unfold stmtQueryValidDerivers, drv_output.
  rewrite list_elem_of_omap. split.
  - intros ([[i n] o] & Hin%elem_of_map_to_list & E). simpl in E. case_decide; [|done]. subst.
    apply fmap_Some in E as (r & Hr & ->). exists i, n. split; [by exists r|done].
  - intros (i & n & (r & Hr & <-) & Hin). exists ((i, n), path).
    split; [by apply elem_of_map_to_list|]. simpl. rewrite decide_True by done. by rewrite Hr.
Qed.

Lemma queryPathInfo_spec `{Gcrypt} store path db info :
  nul_free path → queryPathInfo store path db = Ret info →
  ∃ r, row_of db path r ∧ vp_deriver info = default [] (row_deriver r).
Proof.
  intros Hp. unfold queryPathInfo. intros ([] & _ & E)%bind_Ret_inv. rewrite c_str_id in E by done.
  destruct (find_row db path) as [[id r]|] eqn:Er; [|done]. apply find_row_of in Er as [Hr _].
  apply bind_Ret_inv in E as (h & _ & E). simplify_eq. by exists r.
Qed.

Lemma queryPathInfo_returns `{Gcrypt} store path db :
  texts db → readable store db → valid db path → ∃ info, queryPathInfo store path db = Ret info.
Proof.
  intros Ht Hr Hv. unfold queryPathInfo, assertStorePath. rewrite (readable_valid store db path) by done.
  cbn [check mbind outcome_bind]. rewrite c_str_id by (by eapply texts_valid).
  destruct (find_row_has db path Hv) as (id & r & E & _). rewrite E.
  apply find_row_Some in E as [E _]. destruct (Hr id r E) as [_ [h ->]]. by eexists.
Qed.

Lemma foldM_insert_if (c : bytes → outcome bool) l acc acc' :
  foldM (λ acc i, insert_if (c i) i acc) l acc = Ret acc' →
  ∀ y, y ∈ acc' ↔ y ∈ acc ∨ y ∈ l ∧ c y = Ret true.
Proof.
  revert acc. induction l as [|i l IH]; intros acc; cbn [foldM].
  { intros [= ->] y. set_solver. }
  intros (acc1 & E1 & E2)%bind_Ret_inv y. rewrite (IH _ E2), elem_of_cons.
  apply bind_Ret_inv in E1 as (b & Eb & E1). destruct b; simplify_eq; [rewrite elem_of_set_insert|].
  - split; [intros [[->|?]|[? ?]]|intros [?|[[->|?] ?]]]; auto.
  - split; [intros [?|[? ?]]; auto|intros [?|[[->|?] ?]]; auto]. congruence.
Qed.

Lemma foldM_insert_if_returns (c : bytes → outcome bool) l acc :
  (∀ y, y ∈ l → ∃ b, c y = Ret b) → ∃ acc', foldM (λ acc i, insert_if (c i) i acc) l acc = Ret acc'.
Proof.
  revert acc. induction l as [|i l IH]; intros acc Hc; cbn [foldM]; [by eexists|].
  destruct (Hc i (list_elem_of_here _ _)) as [b Eb]. unfold insert_if at 1. rewrite Eb. cbn [mbind outcome_bind].
  apply IH. intros y Hy. apply Hc. by right.
Qed.

Lemma foldM_insert_if_Ret (c : bytes → outcome bool) l acc acc' :
  foldM (λ acc i, insert_if (c i) i acc) l acc = Ret acc' → ∀ y, y ∈ l → ∃ b, c y = Ret b.
Proof.
  revert acc. induction l as [|i l IH]; intros acc; cbn [foldM]; [set_solver|].
  intros (acc1 & E1 & E2)%bind_Ret_inv y [->|Hy]%elem_of_cons; [|by eapply IH].
  apply bind_Ret_inv in E1 as (b & Eb & _). by exists b.
Qed.

Section liveness.
Context `{Gcrypt} `{GCOS}.
Variable settings : GCSettings.
Local Abbreviation store := (nixStore settings).
Variable db : Database.
Hypothesis Hok : db_ok db.
Hypothesis Htext : texts db.

Lemma queryDeriver_true i path :
  nul_free i →
  (if isValidPath_ i db then d ← db_queryDeriver store i db; Ret (bool_decide (d = path)) else Ret false)
    = Ret true → deriver_of db i path.
Proof.
  intros Hi. destruct (isValidPath_ i db); [|done]. intros (d & Ed & E)%bind_Ret_inv.
  assert (d = path) as -> by (apply (bool_decide_eq_true (d = path)); by simplify_eq).
  unfold db_queryDeriver in Ed. apply bind_Ret_inv in Ed as (info & Ei & Ed). simplify_eq.
  apply queryPathInfo_spec in Ei as (r & Hr & ->); [|done]. by exists r.
Qed.

Lemma deriver_of_query i path info :
  nul_free i → queryPathInfo store i db = Ret info → deriver_of db i path → vp_deriver info = path.
Proof.
  intros Hi E (r & Hr & <-). apply queryPathInfo_spec in E as (r' & Hr' & ->); [|done].
  by rewrite (row_of_fun db i r r').
Qed.

Lemma gc_incoming_spec state path inc y :
  nul_free path → valid db path → y ≠ path → gc_incoming settings db state path = Ret inc →
  y ∈ inc ↔ needed_by (gcKeepDerivations state) (gcKeepOutputs state) db path y.
Proof.
  intros Hp Hv Hne. unfold gc_incoming.
  intros (inc0 & E0 & (inc1 & E1 & E2)%bind_Ret_inv)%bind_Ret_inv.
  assert (y ∈ inc0 ↔ refers db y path) as Hr0.
  { unfold db_queryReferrers in E0. apply bind_Ret_inv in E0 as ([] & _ & E0). simplify_eq.
    rewrite queryReferrers_spec, c_str_id; done. }
  assert (y ∈ inc1 ↔ refers db y path ∨ gcKeepDerivations state = true ∧ isDerivation path = true ∧
    drv_output db path y ∧ deriver_of db y path) as Hr1.
  { destruct (gcKeepDerivations state && isDerivation path) eqn:Hk.
    - apply andb_true_iff in Hk as [-> ->]. apply bind_Ret_inv in E1 as (outs & Eo & E1).
      rewrite (foldM_insert_if _ _ _ _ E1), Hr0. rewrite (queryDerivationOutputs_spec path db outs y) by done.
      split; [intros [?|[Ho Hd]]; [by left|right]|intros [?|(_ & _ & Ho & Hd)]; [by left|right]].
      + split_and!; try done. apply (queryDeriver_true y path); [|done]. destruct Ho as (? & ? & _ & ?). by eapply text_outputs.
      + split; [done|]. assert (nul_free y) as Hy by (destruct Ho as (? & ? & _ & ?); by eapply text_outputs).
        destruct (foldM_insert_if_Ret _ _ _ _ E1 y) as [b Eb]; [by rewrite (queryDerivationOutputs_spec path db outs y)|].
        rewrite Eb. f_equal. assert (isValidPath_ y db = true) as Hvy.
        { apply isValidPath_nul_free; [done|]. destruct Hd as (r & Hr & _). apply valid_row. eauto. }
        rewrite Hvy in Eb. apply bind_Ret_inv in Eb as (d & Ed & Eb). simplify_eq.
        apply bool_decide_eq_true. apply bind_Ret_inv in Ed as (info & Ei & Ed). simplify_eq.
        by eapply deriver_of_query.
    - simplify_eq. rewrite Hr0. split; [by left|]. intros [?|(Hd & Hi & _)]; [done|]. by rewrite Hd, Hi in Hk. }
  unfold needed_by. destruct (gcKeepOutputs state).
  - apply bind_Ret_inv in E2 as (ds & Ed & E2). simplify_eq. rewrite elem_of_set_insert_all, Hr1.
    rewrite (queryValidDerivers_spec store path db ds y) by done. tauto.
  - simplify_eq. rewrite Hr1. split; [tauto|]. intros (_ & _ & [?|[?|[? _]]]); [tauto|tauto|done].
Qed.

Lemma needed_by_nul_free kd ko x y : needed_by kd ko db x y → nul_free y.
Proof.
  intros (_ & _ & [Hr|[(_ & _ & Ho & _)|[_ Ho]]]).
  - destruct Hr as (i & j & Hi & _). apply (texts_valid db); [done|]. by exists i.
  - destruct Ho as (id & name & _ & Ho). by eapply text_outputs.
  - destruct Ho as (id & name & Hi & _). apply (texts_valid db); [done|]. by exists id.
Qed.

Lemma needed_by_valid kd ko x y : needed_by kd ko db x y → valid db y.
Proof.
  intros (_ & _ & [Hr|[(_ & _ & _ & Hd)|[_ Ho]]]).
  - destruct Hr as (i & j & Hi & _). by exists i.
  - destruct Hd as (r & Hr & _). apply valid_row. eauto.
  - destruct Ho as (id & name & Hi & _). by exists id.
Qed.

Lemma gc_incoming_returns state path :
  readable store db → valid db path → ∃ inc, gc_incoming settings db state path = Ret inc.
Proof.
  intros Hr Hv. pose proof (texts_valid db path Htext Hv) as Hp.
  pose proof (readable_valid store db path Hr Hv) as Hs.
  assert (∀ p, valid db p → ∃ d, db_queryDeriver store p db = Ret d) as Hder.
  { intros p Hvp. unfold db_queryDeriver. destruct (queryPathInfo_returns store p db) as [info ->]; [done..|]. by eexists. }
  unfold gc_incoming, db_queryReferrers, assertStorePath. rewrite Hs. cbn [check mbind outcome_bind].
  assert (∃ inc, (if gcKeepDerivations state && isDerivation path then
      outputs ← db_queryDerivationOutputs path db;
      foldM (λ incoming i,
        insert_if (if isValidPath_ i db then d ← db_queryDeriver store i db; Ret (bool_decide (d = path))
                   else Ret false) i incoming) outputs (queryReferrers_ path db)
      else Ret (queryReferrers_ path db)) = Ret inc) as [inc ->].
  { destruct (gcKeepDerivations state && isDerivation path); [|by eexists].
    unfold db_queryDerivationOutputs, queryValidPathId. rewrite c_str_id by done.
    destruct (find_row_has db path Hv) as (id & r & -> & Hid). cbn [mbind outcome_bind].
    apply foldM_insert_if_returns. intros y Hy. destruct (isValidPath_ y db) eqn:Ey; [|by eexists].
    assert (nul_free y) as Hny.
    { apply elem_of_set_of_list, list_elem_of_fmap in Hy as ([n o] & -> & Hy). unfold stmtQueryDerivationOutputs in Hy.
      apply list_elem_of_omap in Hy as ([k o'] & Hk%elem_of_map_to_list & E). simpl in E.
      case_decide; simplify_eq. by eapply text_outputs. }
    destruct (Hder y) as [d ->]; [by apply isValidPath_nul_free|]. by eexists. }
  cbn [mbind outcome_bind]. destruct (gcKeepOutputs state); [|by eexists].
  unfold db_queryValidDerivers, assertStorePath. rewrite Hs. by eexists.
Qed.

(** ** [canReachRoot] *)

Section reach.
Variables (kd ko : bool) (rootSet deadSet : strset).

Definition reach_state (s : GCState) : Prop :=
  gcKeepDerivations s = kd ∧ gcKeepOutputs s = ko ∧ roots s = rootSet ∧ dead s = deadSet ∧
  ∀ x, x ∈ alive s → live kd ko rootSet db x.

Local Abbreviation live := (live kd ko rootSet db).
Local Abbreviation needed := (needed_by kd ko db).

(** The paths that a search that found nothing went through. *)
Definition explored (visited visited' : strset) : Prop :=
  (∀ x, x ∈ visited → x ∈ visited') ∧
  (∀ x, x ∈ visited' → x ∈ visited ∨
     x ∉ rootSet ∧ (∀ y, needed x y → y ∈ visited' ∨ y ∈ deadSet)).

(** What a search for a root from [path] returns. *)
Definition reach_post (s : GCState) (visited : strset) (path : bytes) (res : bool * GCState * strset) : Prop :=
  let '(b, s', visited') := res in
  reach_state s' ∧ (∃ a, s' = set_alive a s) ∧
  if b then live path ∧ path ∈ alive s'
  else s' = s ∧ explored visited visited' ∧ (path ∈ visited' ∨ path ∈ deadSet).

Lemma live_here x : x ∈ rootSet → live x.
Proof. intros Hx. by exists x. Qed.

Lemma live_step x y : needed x y → live y → live x.
Proof. intros Hxy (r & Hr & Hyr). exists r. split; [done|]. by eapply rtc_l. Qed.

Lemma set_alive_eta s : set_alive (alive s) s = s.
Proof. by destruct s. Qed.

Lemma reach_state_insert s path :
  reach_state s → live path → reach_state (set_alive (set_insert path (alive s)) s).
Proof.
  intros (? & ? & ? & ? & Ha) Hp. split_and!; try done. cbn [alive set_alive].
  intros x [->|Hx]%elem_of_set_insert; auto.
Qed.

Lemma explored_trans v1 v2 v3 : explored v1 v2 → explored v2 v3 → explored v1 v3.
Proof.
  intros [A1 A2] [B1 B2]. split; [auto|]. intros x [Hx|Hx]%B2; [|by right].
  apply A2 in Hx as [?|[Hr Hn]]; [by left|right]. split; [done|].
  intros y [?|?]%Hn; [left; auto|by right].
Qed.

Lemma explored_refl v : explored v v.
Proof. split; auto. Qed.

Lemma any_reaches_post reach path inc s visited res :
  (∀ s visited i res, i ∈ inc → reach_state s → reach s visited i = Ret res → reach_post s visited i res) →
  (∀ i, i ∈ inc → i ≠ path → needed path i) →
  reach_state s → any_reaches reach path inc s visited = Ret res →
  let '(b, s', visited') := res in
  reach_state s' ∧ (∃ a, s' = set_alive a s) ∧
  if b then live path ∧ path ∈ alive s'
  else s' = s ∧ explored visited visited' ∧ ∀ i, i ∈ inc → i ≠ path → i ∈ visited' ∨ i ∈ deadSet.
Proof.
  intros Hreach Hneed. revert s visited. induction inc as [|i inc IH]; intros s visited Hs; cbn [any_reaches].
  { intros [= <-]. split_and!; [done|exists (alive s); by rewrite set_alive_eta|done|apply explored_refl|set_solver]. }
  assert (∀ s visited j res, j ∈ inc → reach_state s → reach s visited j = Ret res → reach_post s visited j res)
    as Hreach' by (intros; eapply Hreach; [by right|done|done]).
  assert (∀ j, j ∈ inc → j ≠ path → needed path j) as Hneed' by (intros; apply Hneed; [by right|done]).
  specialize (IH Hreach' Hneed'). fold (any_reaches reach path). case_decide as Hi.
  { intros E. specialize (IH s visited Hs E). destruct res as [[b s'] visited'], b; [done|].
    destruct IH as (P1 & P2 & P3 & P4 & P5). split_and!; try done.
    intros j [->|Hj]%elem_of_cons Hne; [done|auto]. }
  intros ([[b s1] v1] & E1 & E)%bind_Ret_inv. apply Hreach in E1 as (P1 & P2 & P3); [|by left|done].
  destruct b.
  - simplify_eq. destruct P2 as [a ->]. destruct P3 as [Hl Ha].
    assert (live path) as Hp by (eapply live_step; [apply Hneed; [by left|done]|done]).
    split_and!; [by apply reach_state_insert|by eexists|done|]. cbn [alive set_alive].
    apply elem_of_set_insert. by left.
  - destruct P3 as (-> & Hex & Hi'). specialize (IH s v1 Hs E). destruct res as [[b s'] v2], b; [done|].
    destruct IH as (Q1 & Q2 & Q3 & Q4 & Q5). split_and!; try done; [by eapply explored_trans|].
    intros j [->|Hj]%elem_of_cons Hne; [|auto]. destruct Hi' as [?|?]; [left|by right]. by apply Q4.
Qed.

Lemma canReachRoot_post fuel s visited path res :
  nul_free path → reach_state s →
  canReachRoot settings fuel db s visited path = Ret res → reach_post s visited path res.
Proof.
  revert s visited path res. induction fuel as [|fuel IH]; intros s visited path res Hp Hs; [done|].
  cbn [canReachRoot]. pose proof Hs as (Hkd & Hko & Hroots & Hdead & Halive).
  assert (∃ a, s = set_alive a s) as Heta by (exists (alive s); by rewrite set_alive_eta).
  destruct (set_mem path visited) eqn:Hv; [apply set_mem_spec in Hv|apply set_mem_false in Hv].
  { intros [= <-]. split_and!; try done; [apply explored_refl|by left]. }
  destruct (set_mem path (alive s)) eqn:Ha; [apply set_mem_spec in Ha|apply set_mem_false in Ha].
  { intros [= <-]. split_and!; try done. auto. }
  destruct (set_mem path (dead s)) eqn:Hd; [apply set_mem_spec in Hd|apply set_mem_false in Hd].
  { intros [= <-]. split_and!; try done; [apply explored_refl|right; congruence]. }
  destruct (set_mem path (roots s)) eqn:Hr; [apply set_mem_spec in Hr|apply set_mem_false in Hr].
  { intros [= <-]. assert (live path) as Hl by (apply live_here; congruence).
    split_and!; [by apply reach_state_insert|by eexists|done|]. cbn [alive set_alive].
    apply elem_of_set_insert. by left. }
  rewrite Hroots in Hr.
  destruct (isValidPath_ path db) eqn:Hval.
  - apply isValidPath_nul_free in Hval; [|done]. intros (inc & Ei & E)%bind_Ret_inv.
    assert (∀ i, i ≠ path → i ∈ inc ↔ needed path i) as Hinc.
    { intros i Hi. rewrite <-Hkd, <-Hko. by apply gc_incoming_spec. }
    apply any_reaches_post in E; [|intros s1 v1 i res1 Hi Hs1 E1|by intros i Hi Hne; apply Hinc|done].
    + destruct res as [[b s'] visited'], b; [done|]. destruct E as (P1 & P2 & P3 & P4 & P5).
      split_and!; try done; [|left; apply P4; apply elem_of_set_insert; by left].
      destruct P4 as [Q1 Q2]. split.
      * intros x Hx. apply Q1, elem_of_set_insert. by right.
      * intros x [[->|Hx]%elem_of_set_insert|?]%Q2; [right|by left|by right].
        split; [done|]. intros y Hy. apply P5; [apply Hinc|]; [by destruct Hy as (_ & ? & _)|done|by destruct Hy as (_ & ? & _)].
    + destruct (decide (i = path)) as [->|Hne]; [by eapply IH|]. eapply IH; [|done|done].
      by eapply needed_by_nul_free, Hinc.
  - apply isValidPath_false in Hval; [|done]. intros [= <-]. split_and!; try done.
    + split; [intros x Hx; apply elem_of_set_insert; by right|].
      intros x [->|Hx]%elem_of_set_insert; [right|by left]. split; [done|]. by intros y [? _].
    + left. apply elem_of_set_insert. by left.
Qed.

(** A search that starts from nothing and fails leaves only garbage behind. *)
Lemma explored_dead visited x :
  explored [] visited → (∀ y, y ∈ deadSet → ¬ live y) → x ∈ visited → ¬ live x.
Proof.
  intros [_ Hex] Hdead Hx (r & Hr & Hxr). revert Hx. induction Hxr as [x|x y z Hxy Hyz IH]; intros Hx.
  - apply Hex in Hx as [Hn|[Hn _]]; [by apply not_elem_of_nil in Hn|done].
  - apply Hex in Hx as [Hn|[_ Hn]]; [by apply not_elem_of_nil in Hn|].
    destruct (Hn y Hxy) as [Hy|Hy]; [by apply IH|]. apply (Hdead y Hy). by exists z.
Qed.

Lemma any_reaches_returns reach path inc s visited (P : strset → Prop) :
  (∀ s visited i res, i ∈ inc → reach_state s → reach s visited i = Ret res → reach_post s visited i res) →
  (∀ s visited i, i ∈ inc → i ≠ path → reach_state s → P visited → ∃ res, reach s visited i = Ret res) →
  (∀ v v', (∀ x, x ∈ v → x ∈ v') → P v → P v') →
  reach_state s → P visited → ∃ res, any_reaches reach path inc s visited = Ret res.
Proof.
  intros Hpost Hret HP. revert s visited. induction inc as [|i inc IH]; intros s visited Hs Hv;
    cbn [any_reaches]; [by eexists|]. fold (any_reaches reach path).
  assert (∀ s visited, reach_state s → P visited → ∃ res, any_reaches reach path inc s visited = Ret res) as IH'.
  { apply IH; intros; [eapply Hpost|eapply Hret]; try done; by right. }
  case_decide; [by apply IH'|].
  destruct (Hret s visited i) as [[[b s1] v1] E]; [by left|done..|]. rewrite E. cbn [mbind outcome_bind].
  apply Hpost in E as (P1 & _ & P3); [|by left|done]. destruct b; [by eexists|].
  destruct P3 as (-> & [Hsub _] & _). apply IH'; [done|]. by eapply HP.
Qed.

Lemma canReachRoot_returns U fuel s visited path :
  readable store db → (∀ p, valid db p → p ∈ U) → nul_free path → reach_state s → missing U visited < fuel →
  ∃ res, canReachRoot settings fuel db s visited path = Ret res.
Proof.
  intros Hread HU. revert s visited path. induction fuel as [|fuel IH]; intros s visited path Hp Hs Hf; [lia|].
  cbn [canReachRoot]. destruct (set_mem path visited) eqn:Hv; [by eexists|]. apply set_mem_false in Hv.
  do 3 (case_match; [by eexists|]).
  destruct (isValidPath_ path db) eqn:Hval; [|by eexists]. apply isValidPath_nul_free in Hval; [|done].
  destruct (gc_incoming_returns s path Hread Hval) as [inc Ei]. rewrite Ei. cbn [mbind outcome_bind].
  pose proof Hs as (Hkd & Hko & _).
  assert (∀ i, i ∈ inc → i ≠ path → needed path i) as Hinc.
  { intros i Hi Hne. rewrite <-Hkd, <-Hko. by eapply gc_incoming_spec. }
  assert (∀ i, i ∈ inc → nul_free i) as Hnul.
  { intros i Hi. destruct (decide (i = path)) as [->|Hne]; [done|]. by eapply needed_by_nul_free, Hinc. }
  apply (any_reaches_returns _ _ _ _ _ (λ v, missing U v < fuel)); [| | |done|].
  - intros s1 v1 i res Hi Hs1 E1. eapply canReachRoot_post; [|done|done]. by apply Hnul.
  - intros s1 v1 i Hi Hne Hs1 Hv1. apply IH; [by apply Hnul|done|done].
  - intros v v' Hsub Hm. pose proof (missing_le U v v' Hsub). lia.
  - pose proof (missing_insert _ _ _ (HU path Hval) Hv). lia.
Qed.

End reach.
End liveness.

Lemma elem_of_validPaths db p : p ∈ stmtQueryValidPaths db ↔ valid db p.
Proof.
  unfold stmtQueryValidPaths. rewrite list_elem_of_fmap. split.
  - intros ([id r] & -> & Hr%elem_of_map_to_list). by exists id, r.
  - intros (id & r & Hr & <-). exists (id, r). split; [done|]. by apply elem_of_map_to_list.
Qed.

Lemma length_validPaths db : length (stmtQueryValidPaths db) = size (db_ValidPaths db).
Proof. unfold stmtQueryValidPaths. by rewrite length_fmap, length_map_to_list. Qed.

Lemma gc_depth_enough db visited : missing (stmtQueryValidPaths db) visited < gc_depth db.
Proof.
  unfold missing, gc_depth. rewrite <-length_validPaths.
  pose proof (length_filter (.∉ visited) (stmtQueryValidPaths db)). lia.
Qed.

(** * Properties *)

(** [canReachRoot] decides liveness. Started with an empty [visited] and
    sets of paths known to be alive or dead that are right, it terminates and
    returns whether [path] is needed, directly or indirectly, by a root; the
    new members of [alive] are live, and when the answer is no, everything that
    was visited is garbage. *)
Theorem canReachRoot_correct `{Gcrypt} settings db s path :
  db_ok db → texts db → readable (nixStore settings) db → nul_free path →
  (∀ x, x ∈ alive s → live (gcKeepDerivations s) (gcKeepOutputs s) (roots s) db x) →
  (∀ x, x ∈ dead s → ¬ live (gcKeepDerivations s) (gcKeepOutputs s) (roots s) db x) →
  ∃ b s' visited, canReachRoot settings (gc_depth db) db s [] path = Ret (b, s', visited) ∧
    (b = true ↔ live (gcKeepDerivations s) (gcKeepOutputs s) (roots s) db path) ∧
    (∀ x, x ∈ alive s' → live (gcKeepDerivations s) (gcKeepOutputs s) (roots s) db x) ∧
    (b = false → s' = s ∧ (path ∈ visited ∨ path ∈ dead s) ∧
       ∀ x, x ∈ visited → ¬ live (gcKeepDerivations s) (gcKeepOutputs s) (roots s) db x).
Proof.
  intros Hok Ht Hr Hp Ha Hd.
  assert (reach_state db (gcKeepDerivations s) (gcKeepOutputs s) (roots s) (dead s) s) as Hs by (by split_and!).
  destruct (canReachRoot_returns settings db Hok Ht (gcKeepDerivations s) (gcKeepOutputs s) (roots s)
      (dead s) (stmtQueryValidPaths db) (gc_depth db) s [] path Hr)
    as [[[b s'] visited] E]; [by intros p ?%elem_of_validPaths|done|done|apply gc_depth_enough|].
  exists b, s', visited. split; [done|].
  apply (canReachRoot_post settings db Hok Ht (gcKeepDerivations s) (gcKeepOutputs s) (roots s) (dead s) _ _ _ _ _ Hp Hs) in E as ((_ & _ & _ & _ & Ha') & _ & E).
  destruct b.
  - destruct E as [Hl _]. split_and!; done.
  - destruct E as (-> & Hex & Hin).
    assert (∀ x, x ∈ visited → ¬ live (gcKeepDerivations s) (gcKeepOutputs s) (roots s) db x) as Hv
      by (intros x; by eapply explored_dead).
    split_and!; [|done|intros _; by split_and!]. split; [done|]. intros Hl. destruct Hin as [Hin|Hin]; [by apply Hv in Hin|].
    by apply Hd in Hin.
Qed.

(** ** Witnesses *)

(** [texts] and [readable], by evaluation. *)
Definition readable_row `{Gcrypt} (store : bytes) (r : PathRow) : bool :=
  isStorePath store (row_path r) && bool_decide (nul_free (row_path r)) &&
  match parseHashField (row_hash r) with Ret _ => true | _ => false end.

Definition readable_db `{Gcrypt} (store : bytes) (db : Database) : bool :=
  forallb (λ r, readable_row store r.2) (map_to_list (db_ValidPaths db)) &&
  forallb (λ o, bool_decide (nul_free o.2)) (map_to_list (db_DerivationOutputs db)).

Lemma readable_db_spec `{Gcrypt} store db : readable_db store db = true → texts db ∧ readable store db.
Proof.
  unfold readable_db. rewrite andb_true_iff, !forallb_forall. intros [Hr Ho].
  assert (∀ id r, db_ValidPaths db !! id = Some r → readable_row store r = true) as Hrow.
  { intros id r Hx%elem_of_map_to_list%list_elem_of_In. by apply Hr in Hx. }
  split; [split|].
  - intros id r Hx%Hrow. unfold readable_row in Hx. by bool_to_prop.
  - intros k o Hx%elem_of_map_to_list%list_elem_of_In. apply Ho in Hx. by bool_to_prop.
  - intros id r Hx%Hrow. unfold readable_row in Hx. bool_to_prop. split; [done|]. case_match; [by eexists|done..].
Qed.

Definition sample_settings : GCSettings := mkGCSettings (str "/gnu/store") (str "/v") false true false.

(** b is a root: a, which it refers to, is live, and c is not. *)
Definition sample_state : GCState :=
  init_state sample_settings (mkGCOptions gcDeleteDead false [] ULLONG_MAX) (mkGCResults [] 0) [str "/gnu/store/b"] [].

Lemma sample_db_readable : texts (ls_db sample_db) ∧ @readable toy_gcrypt (str "/gnu/store") (ls_db sample_db).
Proof. apply readable_db_spec. vm_compute. reflexivity. Qed.

Lemma canReachRoot_correct_witness :
  ∃ b s' visited,
    @canReachRoot toy_gcrypt sample_settings (gc_depth (ls_db sample_db)) (ls_db sample_db) sample_state []
      (str "/gnu/store/a") = Ret (b, s', visited) ∧
    (b = true ↔ live true false [str "/gnu/store/b"] (ls_db sample_db) (str "/gnu/store/a")) ∧
    (∀ x, x ∈ alive s' → live true false [str "/gnu/store/b"] (ls_db sample_db) x) ∧
    (b = false → s' = sample_state ∧ (str "/gnu/store/a" ∈ visited ∨ str "/gnu/store/a" ∈ []) ∧
       ∀ x, x ∈ visited → ¬ live true false [str "/gnu/store/b"] (ls_db sample_db) x).
Proof.
  apply (@canReachRoot_correct toy_gcrypt sample_settings (ls_db sample_db) sample_state (str "/gnu/store/a")).
  - exact sample_db_ok.
  - apply sample_db_readable.
  - apply sample_db_readable.
  - concrete.
  - intros x Hx. by apply not_elem_of_nil in Hx.
  - intros x Hx. by apply not_elem_of_nil in Hx.
Defined.

Definition reach_answer (r : outcome (bool * GCState * strset)) : option bool :=
  match r with Ret (b, _, _) => Some b | _ => None end.

Example canReachRoot_runs :
  reach_answer (@canReachRoot toy_gcrypt sample_settings 5 (ls_db sample_db) sample_state [] (str "/gnu/store/a"))
    = Some true ∧
  reach_answer (@canReachRoot toy_gcrypt sample_settings 5 (ls_db sample_db) sample_state [] (str "/gnu/store/c"))
    = Some false.
Proof. vm_compute. done. Qed.
