(* ===== verification/GCSafety.v ===== *)
(** The garbage collector of gc.cc does not delete what is in use, and deletes
    all that is not.

    [gc_inv] relates the world during a collection to the one in which it
    started; every step keeps it, also a step that throws. *)

From S2P Require Import Prelude Containers Serialise Hash Paths StorePaths Derivations Closure LocalDB Roots GC.

(** * The database during a collection *)

(** [db] has lost some rows of [db0], with what belongs to them. *)
Record sub_db (db0 db : Database) : Prop := {
  sub_rows p r : row_of db p r → row_of db0 p r;
  sub_refers a b : refers db a b ↔ refers db0 a b ∧ valid db a ∧ valid db b;
  sub_outputs d o : drv_output db d o ↔ drv_output db0 d o ∧ valid db d
}.

Lemma refers_valid db a b : refers db a b → valid db a ∧ valid db b.
Proof. intros (i & j & Hi & Hj & _). split; [by exists i|by exists j]. Qed.

Lemma drv_output_valid db d o : drv_output db d o → valid db d.
Proof. intros (id & name & Hid & _). by exists id. Qed.

Lemma sub_db_refl db : sub_db db db.
Proof.
  split; [done|intros a b|intros d o].
  - split; [|naive_solver]. intros Hr. split; [done|]. by apply refers_valid.
  - split; [|naive_solver]. intros Ho. split; [done|]. by eapply drv_output_valid.
Qed.

Lemma sub_valid db0 db p : sub_db db0 db → valid db p → valid db0 p.
Proof. intros Hs (r & Hr)%valid_row. apply valid_row. exists r. by eapply sub_rows. Qed.

Lemma sub_row_back db0 db p r : db_ok db0 → sub_db db0 db → row_of db0 p r → valid db p → row_of db p r.
Proof.
  intros Hok Hs Hr (r' & Hr')%valid_row. by rewrite (row_of_fun db0 p r r' Hok Hr (sub_rows _ _ Hs _ _ Hr')).
Qed.

Lemma sub_texts db0 db : db_ok db → sub_db db0 db → texts db0 → texts db.
Proof.
  intros Hok Hs Ht. split.
  - intros id r Hr. apply (texts_valid db0); [done|]. apply (sub_valid db0 db); [done|]. by exists id, r.
  - intros [id name] o Ho. destruct (ok_drv_outputs _ Hok _ _ Ho) as [r Hr]. simpl in Hr.
    assert (drv_output db (row_path r) o) as ((id' & name' & _ & Ho') & _)%(sub_outputs _ _ Hs)
      by (exists id, name; split; [by exists r|done]).
    by eapply text_outputs.
Qed.

Lemma sub_readable `{Gcrypt} store db0 db : sub_db db0 db → readable store db0 → readable store db.
Proof.
  intros Hs Hr id r Hx. destruct (sub_rows _ _ Hs (row_path r) r) as (id' & Hx' & _); [by exists id|]. by eapply Hr.
Qed.

(** ** Invalidation *)

Lemma stmtInvalidatePath_tables path db db' :
  db_ok db → stmtInvalidatePath path db = Ret db' →
  (∀ p r, row_of db' p r ↔ row_of db p r ∧ p ≠ path) ∧
  (∀ d o, drv_output db' d o ↔ drv_output db d o ∧ d ≠ path).
Proof.
  intros Hok. unfold stmtInvalidatePath. destruct (find_row db path) as [[id r0]|] eqn:E.
  2: { intros [= <-]. apply find_row_None in E. split.
    - intros p r. split; [|naive_solver]. intros Hr. split; [done|]. intros ->. apply E, valid_row. eauto.
    - intros d o. split; [|naive_solver]. intros Ho. split; [done|]. intros ->. by eapply E, drv_output_valid. }
  apply find_row_of in E as [Hrow Hid]. case_decide; [done|]. intros [= <-].
  assert (∀ i p, has_path db i p → i ≠ id ↔ p ≠ path) as Hne.
  { intros i p Hi. split.
    - intros Hn ->. by eapply Hn, has_path_unique.
    - intros Hn ->. by eapply Hn, has_path_fun. }
  split.
  - intros p r. unfold row_of. cbn [db_ValidPaths]. setoid_rewrite lookup_delete_Some. split.
    + intros (i & [Hi Hr] & <-). split; [by exists i|]. apply (Hne i); [by exists r|]. done.
    + intros [(i & Hr & <-) Hp]. exists i. split; [|done]. split; [|done]. apply not_eq_sym, (Hne i (row_path r)); [by exists r|done].
  - intros d o. unfold drv_output, has_path. cbn [db_ValidPaths db_DerivationOutputs].
    setoid_rewrite lookup_delete_Some. setoid_rewrite map_lookup_filter_Some. cbn [fst snd]. split.
    + intros (i & n & (r & [Hi Hr] & <-) & Ho & _). split; [exists i, n; split; [by exists r|done]|].
      apply (Hne i); [by exists r|done].
    + intros [(i & n & (r & Hr & <-) & Ho) Hp]. assert (i ≠ id) by (apply (Hne i (row_path r)); [by exists r|done]).
      exists i, n. split; [exists r; split; [split; done|done]|done].
Qed.

Lemma invalidatePathChecked_sub store path db0 st st' :
  db_ok (ls_db st) → sub_db db0 (ls_db st) → nul_free path → invalidatePathChecked store path st = Ret st' →
  db_ok (ls_db st') ∧ sub_db db0 (ls_db st') ∧ ∀ p, valid (ls_db st') p ↔ valid (ls_db st) p ∧ p ≠ path.
Proof.
  intros Hok Hs Hn E. assert (isStorePath store path = true) as Hsp.
  { apply bind_Ret_inv in E as ([] & E & _). by apply check_Ret_inv in E. }
  destruct (invalidatePathChecked_spec store path st Hok Hn Hsp)
    as [[_ [m E']]|[_ (st1 & E' & Hok' & Hv & Hr)]]; [congruence|].
  assert (st1 = st') as -> by congruence. clear E'. split_and!; [done| |done].
  assert ((∀ p r, row_of (ls_db st') p r ↔ row_of (ls_db st) p r ∧ p ≠ path) ∧
    (∀ d o, drv_output (ls_db st') d o ↔ drv_output (ls_db st) d o ∧ d ≠ path)) as [Hrow Hout].
  { unfold invalidatePathChecked in E. apply bind_Ret_inv in E as ([] & _ & E).
    destruct (isValidPath_ path (ls_db st)) eqn:Hval.
    - case_decide; [|done]. unfold invalidatePath in E. apply bind_Ret_inv in E as (db & Ed & E).
      simplify_eq. rewrite c_str_id in Ed by done. by apply stmtInvalidatePath_tables.
    - simplify_eq. apply isValidPath_false in Hval; [|done]. split.
      + intros p r. split; [|naive_solver]. intros Hx. split; [done|]. intros ->. apply Hval, valid_row. eauto.
      + intros d o. split; [|naive_solver]. intros Hx. split; [done|]. intros ->. by eapply Hval, drv_output_valid. }
  split.
  - intros p r [Hx _]%Hrow. by eapply sub_rows.
  - intros a b. rewrite Hr, (sub_refers _ _ Hs), !Hv. tauto.
  - intros d o. rewrite Hout, (sub_outputs _ _ Hs), !Hv. tauto.
Qed.

(** ** Liveness does not change while only garbage is removed *)

Lemma needed_sub kd ko db0 db x y : sub_db db0 db → needed_by kd ko db x y → needed_by kd ko db0 x y.
Proof.
  intros Hs (Hv & Hne & Hn). split_and!; [by eapply sub_valid|done|].
  destruct Hn as [Hr|[(? & ? & Ho & r & Hr & Hd)|[? Ho]]].
  - left. by apply (sub_refers _ _ Hs).
  - right; left. split_and!; [done|done|by apply (sub_outputs _ _ Hs)|]. exists r. split; [by eapply sub_rows|done].
  - right; right. split; [done|]. by apply (sub_outputs _ _ Hs).
Qed.

Lemma needed_sub_back kd ko db0 db x y :
  db_ok db0 → sub_db db0 db → valid db x → valid db y → needed_by kd ko db0 x y → needed_by kd ko db x y.
Proof.
  intros Hok Hs Hx Hy (_ & Hne & Hn). split_and!; [done|done|].
  destruct Hn as [Hr|[(? & ? & Ho & r & Hr & Hd)|[? Ho]]].
  - left. by apply (sub_refers _ _ Hs).
  - right; left. split_and!; [done|done|by apply (sub_outputs _ _ Hs)|]. exists r. split; [by eapply sub_row_back|done].
  - right; right. split; [done|]. by apply (sub_outputs _ _ Hs).
Qed.

Lemma live_sub kd ko rootSet db0 db x :
  db_ok db0 → sub_db db0 db → (∀ p, live kd ko rootSet db0 p → valid db0 p → valid db p) →
  live kd ko rootSet db x ↔ live kd ko rootSet db0 x.
Proof.
  intros Hok Hs Hkeep. split; intros (r & Hr & Hxr); exists r; (split; [done|]).
  - clear -Hs Hxr. induction Hxr as [|x y z Hxy _ IH]; [done|]. eapply rtc_l; [by eapply needed_sub|done].
  - induction Hxr as [|x y z Hxy Hyz IH]; [done|]. eapply rtc_l; [|by apply IH].
    apply (needed_sub_back _ _ db0); [done|done| | |done].
    + apply Hkeep; [exists z; split; [done|by eapply rtc_l]|by destruct Hxy].
    + apply Hkeep; [by exists z|by eapply needed_by_valid].
Qed.

(** * Computations that keep an invariant *)

(** From a world with [I] and [P], [m] ends in a world with [I], whatever its
    outcome, with [Q] if it returns; and under [T] the fuel is enough. *)
Definition triple {A} (I : World → Prop) (T : Prop) (P : World → Prop) (m : G A) (Q : A → World → Prop) : Prop :=
  ∀ w r w', I w → P w → m w = (r, w') → I w' ∧ (∀ a, r = Ret a → Q a w') ∧ (T → terminates r).

Section triples.
Variables (I : World → Prop) (T : Prop).

Lemma triple_ret {A} (a : A) (P : World → Prop) Q : (∀ w, P w → Q a w) → triple I T P (mret a) Q.
Proof. intros HQ w r w' Hw HP [= <- <-]. split_and!; [done|by intros ? [= <-]; auto|done]. Qed.

Lemma triple_bind {A B} (m : G A) (f : A → G B) P Q R :
  triple I T P m Q → (∀ a, triple I T (Q a) (f a) R) → triple I T P (m ≫= f) R.
Proof.
  intros Hm Hf w r w' Hw HP. unfold mbind, G_bind. destruct (m w) as [[a|e|] w1] eqn:E;
    apply Hm in E as (H1 & H2 & H3); try done.
  - by apply Hf; [|apply H2].
  - intros [= <- <-]. done.
  - intros [= <- <-]. split_and!; [done|done|]. intros HT. by apply H3 in HT.
Qed.

Lemma triple_conseq {A} (m : G A) (P P' : World → Prop) (Q Q' : A → World → Prop) :
  triple I T P' m Q' → (∀ w, I w → P w → P' w) → (∀ a w, I w → Q' a w → Q a w) → triple I T P m Q.
Proof.
  intros Hm HP HQ w r w' Hw Hp E. apply Hm in E as (H1 & H2 & H3); [|done|auto].
  split_and!; [done|auto|done].
Qed.

Lemma triple_lift {A} (m : outcome A) (P : World → Prop) (Q : A → World → Prop) :
  (∀ w a, I w → P w → m = Ret a → Q a w) → (∀ w, I w → P w → terminates m) → triple I T P (glift m) Q.
Proof. intros HQ HT w r w' Hw HP [= <- <-]. split_and!; [done|eauto|intros _; by eapply HT]. Qed.

Lemma triple_pure {A} (m : G A) (φ : Prop) (P : World → Prop) Q :
  (φ → triple I T P m Q) → triple I T (λ w, φ ∧ P w) m Q.
Proof. intros Hm w r w' Hw [Hφ HP]. by apply Hm. Qed.

(** A call without effect, of which nothing is known. *)
Lemma triple_call {A} (m : outcome A) (P : World → Prop) :
  terminates m → triple I T P (glift m) (λ _, P).
Proof. intros Hm. by apply triple_lift. Qed.

Lemma triple_get {A} (f : World → A) (P : World → Prop) (Q : A → World → Prop) :
  (∀ w, I w → P w → Q (f w) w) → triple I T P (gget f) Q.
Proof. intros HQ w r w' Hw HP [= <- <-]. split_and!; [done|by intros ? [= <-]; auto|done]. Qed.

Lemma triple_iter {A} (f : A → G ()) (l : list A) (P : World → Prop) :
  (∀ x, x ∈ l → triple I T P (f x) (λ _, P)) → triple I T P (giter f l) (λ _, P).
Proof.
  induction l as [|x l IH]; intros Hf; cbn [giter]; [by apply triple_ret|].
  eapply triple_bind; [apply Hf; by left|]. intros []. apply IH. intros y Hy. apply Hf. by right.
Qed.

Lemma triple_catch {A} (m : G A) h (P : World → Prop) (Q : A → World → Prop) :
  triple I T P m Q → (∀ e, triple I T (λ _, True) (h e) Q) → triple I T P (gcatch m h) Q.
Proof.
  intros Hm Hh w r w' Hw HP. unfold gcatch. destruct (m w) as [[a|e|] w1] eqn:E;
    apply Hm in E as (H1 & H2 & H3); try done.
  - by intros [= <- <-].
  - intros Eh. by apply Hh in Eh.
  - by intros [= <- <-].
Qed.

(** A change of the state that keeps [I]. *)
Lemma triple_modify f (P : World → Prop) Q :
  (∀ w, I w → P w → let w' := mkWorld (w_store w) (w_files w) (w_unlinked w) (f (w_state w)) in I w' ∧ Q () w') →
  triple I T P (gmodify f) Q.
Proof. intros HQ w r w' Hw HP [= <- <-]. destruct (HQ w Hw HP). split_and!; [done|by intros [] [= ]|done]. Qed.

Lemma triple_files f (P : World → Prop) Q :
  (∀ w, I w → P w → let w' := mkWorld (w_store w) (f (w_files w)) (w_unlinked w) (w_state w) in I w' ∧ Q () w') →
  triple I T P (gfiles f) Q.
Proof. intros HQ w r w' Hw HP [= <- <-]. destruct (HQ w Hw HP). split_and!; [done|by intros [] [= ]|done]. Qed.

Lemma triple_store f (P : World → Prop) Q :
  (∀ w st, I w → P w → f (w_store w) = Ret st →
     let w' := mkWorld st (w_files w) (w_unlinked w) (w_state w) in I w' ∧ Q () w') →
  (∀ st, terminates (f st)) → triple I T P (gstore f) Q.
Proof.
  intros HQ HT w r w' Hw HP. unfold gstore. destruct (f (w_store w)) as [st|e|] eqn:E.
  - intros [= <- <-]. destruct (HQ w st Hw HP E). split_and!; [done|by intros [] [= ]|done].
  - by intros [= <- <-].
  - by apply HT in E.
Qed.
End triples.

(** * The invariant of a collection *)

(** Documented behaviour of readdir(3) and [std::random_shuffle]: names have no
    slash and no NUL, and shuffling permutes. *)
Class GCOSLaws `{GCOS} : Prop := {
  readdir_name files dir name : name ∈ readdir files dir → name ≠ [] ∧ "/"%byte ∉ name ∧ nul_free name;
  shuffle_permutes l : random_shuffle l ≡ₚ l
}.

Section safety.
Context `{Gcrypt} `{GCOSLaws}.
Variable settings : GCSettings.
Local Abbreviation store := (nixStore settings).
Local Abbreviation trash := (store ++ str "/trash").
Variables (db0 : Database) (files0 : Files) (kd ko : bool) (rootSet : strset).
Hypothesis Hok0 : db_ok db0.
Hypothesis Htext0 : texts db0.
Hypothesis Hread0 : readable store db0.
Hypothesis Hstore : store_dir_ok store.
Hypothesis Hnul : nul_free store.

Local Abbreviation live0 := (live kd ko rootSet db0).

(** A live item of the store; the trash and the links are the collector's. *)
Definition protected (p : bytes) : Prop :=
  live0 p ∧ isStorePath store p = true ∧ p ≠ trash ∧ p ≠ linksDir settings.

Record gc_inv (w : World) : Prop := {
  inv_ok : db_ok (ls_db (w_store w));
  inv_sub : sub_db db0 (ls_db (w_store w));
  inv_valid p : live0 p → valid db0 p → valid (ls_db (w_store w)) p;
  inv_files p : protected p → w_files w !! p = files0 !! p;
  inv_alive x : x ∈ alive (w_state w) → live0 x;
  inv_dead x : x ∈ dead (w_state w) → ¬ live0 x;
  inv_roots : roots (w_state w) = rootSet;
  inv_kd : gcKeepDerivations (w_state w) = kd;
  inv_ko : gcKeepOutputs (w_state w) = ko;
  inv_trash : trashDir (w_state w) = trash
}.

(** Fuel is enough when the references are acyclic. *)
Local Abbreviation safe := (triple gc_inv (acyclic db0)).

(** The members that the invariant speaks of. *)
Definition same_core (s s' : GCState) : Prop :=
  alive s' = alive s ∧ dead s' = dead s ∧ roots s' = roots s ∧
  gcKeepDerivations s' = gcKeepDerivations s ∧ gcKeepOutputs s' = gcKeepOutputs s ∧ trashDir s' = trashDir s.

Lemma inv_same_core w s' :
  gc_inv w → same_core (w_state w) s' → gc_inv (mkWorld (w_store w) (w_files w) (w_unlinked w) s').
Proof.
  intros Hw (E1 & E2 & E3 & E4 & E5 & E6). destruct Hw. split; cbn [w_store w_files w_state]; try done;
    rewrite ?E1, ?E2, ?E3, ?E4, ?E5, ?E6; done.
Qed.

Lemma inv_set_files w files' :
  gc_inv w → (∀ p, protected p → files' !! p = w_files w !! p) →
  gc_inv (mkWorld (w_store w) files' (w_unlinked w) (w_state w)).
Proof.
  intros Hw Hf. destruct Hw as [? ? ? Hfiles]. split; cbn [w_store w_files w_state]; try done.
  intros p Hp. rewrite Hf by done. by apply Hfiles.
Qed.

Lemma safe_modify f (P : World → Prop) :
  (∀ s, same_core s (f s)) → (∀ w s, P w → P (mkWorld (w_store w) (w_files w) (w_unlinked w) s)) →
  safe P (gmodify f) (λ _, P).
Proof. intros Hf HP. apply triple_modify. intros w Hw Hp. split; [|by apply HP]. by apply inv_same_core. Qed.

Lemma syscall_terminates e msg : terminates (syscall e msg).
Proof. by destruct e. Qed.

Lemma bind_syscall_terminates {A} e msg (f : () → outcome A) :
  (∀ u, terminates (f u)) → terminates (syscall e msg ≫= f).
Proof. intros. apply bind_terminates; [apply syscall_terminates|auto]. Qed.

Lemma deletePath_node_terminates thr path n freed : terminates (deletePath_node thr path n freed).
Proof.
  revert path n freed. fix IH 2. intros path [size nlink|entries] freed; cbn [deletePath_node].
  - by do 2 (apply bind_syscall_terminates; intros _).
  - do 2 (apply bind_syscall_terminates; intros _). apply bind_terminates;
      [|intros; by apply bind_syscall_terminates].
    revert freed. induction entries as [|[name c] entries IHe]; intros freed; [done|].
    apply bind_terminates; [apply IH|]. intros f _. apply IHe.
Qed.

Lemma safe_deleteGarbage path :
  (∀ p, protected p → p ≠ c_str path) →
  safe (λ _, True) (deleteGarbage settings path) (λ _ _, True).
Proof.
  intros Hp. unfold deleteGarbage. eapply triple_bind; [by apply (triple_get _ _ _ _ (λ _ _, True))|]. intros node.
  eapply triple_bind; [apply triple_call|].
  { destruct node; [apply deletePath_node_terminates|done]. }
  intros freed. eapply triple_bind; [apply (triple_files _ _ _ _ (λ _ _, True))|].
  { intros w Hw _. split; [|done]. apply inv_set_files; [done|]. intros p Hpp.
    rewrite lookup_delete_ne; [done|]. by apply not_eq_sym, Hp. }
  intros []. apply (safe_modify _ (λ _, True)); [|done]. by intros s.
Qed.

(** A path that may be deleted. *)
Definition doomed (path : bytes) : Prop := nul_free path ∧ isStorePath store path = true ∧ ¬ live0 path.

Lemma doomed_unprotected path p : doomed path → protected p → p ≠ c_str path.
Proof. intros (Hn & _ & Hl) (Hp & _) ->. rewrite c_str_id in Hp by done. done. Qed.

Lemma safe_glstat path : safe (λ _, True) (glstat path) (λ _ _, True).
Proof.
  unfold glstat. eapply triple_bind; [apply triple_call; by repeat case_match|].
  intros []. by apply triple_get.
Qed.

Lemma move_to_trash_lookup trashd base path files files' p :
  move_to_trash trashd base path files = Ret files' → p ≠ trashd → p ≠ path → files' !! p = files !! p.
Proof.
  unfold move_to_trash. intros E Hp Hq. repeat case_match; simplify_eq. by rewrite lookup_insert_ne, lookup_delete_ne.
Qed.

Lemma safe_trash_path path size : doomed path → safe (λ _, True) (trash_path path size) (λ _ _, True).
Proof.
  intros Hd. unfold trash_path.
  eapply triple_bind; [apply triple_call, syscall_terminates|]. intros [].
  eapply triple_bind; [apply (triple_get _ _ _ _ (λ t _, t = trash)); intros w Hw _; apply (inv_trash _ Hw)|]. intros t.
  eapply triple_bind; [apply triple_call; unfold baseNameOf, substr; by repeat case_match|]. intros base.
  eapply triple_bind; [apply triple_call, syscall_terminates|]. intros [].
  eapply triple_bind; [apply (triple_get _ _ _ _
    (λ f w, t = trash ∧ f = move_to_trash t (c_str base) (c_str path) (w_files w))); done|]. intros f.
  eapply triple_bind; [apply (triple_lift _ _ _ _
    (λ files w, t = trash ∧ move_to_trash t (c_str base) (c_str path) (w_files w) = Ret files))|].
  { by intros w files Hw [-> <-]. }
  { intros w _ [_ ->]. unfold move_to_trash. by repeat case_match. }
  intros files. eapply triple_bind; [apply (triple_files _ _ _ _ (λ _ _, True))|].
  { intros w Hw [-> E]. split; [|done]. apply inv_set_files; [done|]. intros p Hp.
    apply (move_to_trash_lookup _ _ _ _ _ _ E); [apply Hp|by apply doomed_unprotected]. }
  intros []. by apply (safe_modify _ (λ _, True)).
Qed.

Lemma safe_remove_path path size node : doomed path → safe (λ _, True) (remove_path settings path size node) (λ _ _, True).
Proof.
  intros Hd. unfold remove_path. eapply triple_bind; [by apply (safe_modify _ (λ _, True))|]. intros [].
  eapply triple_bind; [by apply (triple_get _ _ _ _ (λ _ _, True))|]. intros move.
  assert (safe (λ _, True) (deleteGarbage settings path) (λ _ _, True)) as Hdel.
  { apply safe_deleteGarbage. intros p. by apply doomed_unprotected. }
  eapply triple_bind with (Q := λ _ _, True).
  - destruct (move && is_dir node); [|done]. apply triple_catch; [by apply safe_trash_path|].
    intros []; try (by apply triple_call). case_decide; [done|by apply triple_ret].
  - intros []. eapply triple_bind; [by apply (triple_get _ _ _ _ (λ _ _, True))|]. intros s.
    case_decide; [by apply triple_call|by apply triple_ret].
Qed.

(** The paths being deleted when [path] is reached, each referring to the next. *)
Definition delete_stack (path : bytes) (stack : list bytes) : Prop :=
  NoDup stack ∧ ∀ s, s ∈ stack → valid db0 s ∧ tc (ref_edge db0) path s.

Lemma delete_stack_length path stack : delete_stack path stack → length stack <= size (db_ValidPaths db0).
Proof.
  intros [Hn Hs]. rewrite <-length_validPaths. apply submseteq_length, NoDup_submseteq; [done|].
  intros s Hin. apply elem_of_validPaths. by apply Hs.
Qed.

Lemma delete_stack_push path stack i :
  acyclic db0 → delete_stack path stack → valid db0 path → refers db0 i path → i ≠ path →
  delete_stack i (path :: stack).
Proof.
  intros Hac [Hn Hs] Hv Hr Hne. assert (ref_edge db0 i path) as He by (split; [done|by apply not_eq_sym]).
  split.
  - constructor; [|done]. intros Hin. apply Hs in Hin as [_ Hin]. by apply (Hac path).
  - intros s [->|Hin]%elem_of_cons; [split; [done|by constructor]|].
    destruct (Hs s Hin) as [? ?]. split; [done|]. by eapply tc_l.
Qed.

Lemma invalidatePathChecked_terminates path st : terminates (invalidatePathChecked store path st).
Proof.
  unfold invalidatePathChecked. apply bind_terminates; [apply check_terminates|]. intros _ _.
  repeat case_match; try done. unfold invalidatePath. apply bind_terminates; [|done].
  unfold stmtInvalidatePath. by repeat case_match.
Qed.

Lemma refers_doomed i path : doomed path → valid db0 path → refers db0 i path → i ≠ path → doomed i.
Proof.
  intros (_ & _ & Hl) Hv Hr Hne. pose proof (refers_valid _ _ _ Hr) as [Hvi _].
  split_and!; [by eapply texts_valid|by eapply readable_valid|]. intros (r & Hrr & Hir). apply Hl. exists r.
  split; [done|]. eapply rtc_l; [|done]. split_and!; [done|done|by left].
Qed.

Lemma safe_invalidate path : doomed path → safe (λ _, True) (gstore (invalidatePathChecked store path)) (λ _ _, True).
Proof.
  intros (Hn & Hs & Hl). apply triple_store; [|apply invalidatePathChecked_terminates].
  intros w st Hw _ E. split; [|done]. apply (invalidatePathChecked_sub _ _ db0) in E as (Hok & Hsub & Hv);
    [|by apply (inv_ok w)|by apply (inv_sub w)|done].
  destruct Hw. split; cbn [w_store w_files w_state]; try done. intros p Hp Hvp. apply Hv. split; [auto|]. by intros ->.
Qed.

(** The fuel left when [path] is reached. *)
Definition enough_fuel (fuel : nat) (path : bytes) : Prop :=
  acyclic db0 → ∃ stack, delete_stack path stack ∧ size (db_ValidPaths db0) < length stack + fuel.

Lemma enough_fuel_push fuel path i :
  enough_fuel (S fuel) path → valid db0 path → refers db0 i path → i ≠ path → enough_fuel fuel i.
Proof.
  intros Hf Hv Hr Hne Hac. destruct (Hf Hac) as (stack & Hst & Hlt). exists (path :: stack).
  split; [by apply delete_stack_push|]. simpl. lia.
Qed.

Lemma safe_deletePathRecursive fuel path :
  doomed path → enough_fuel fuel path →
  safe (λ _, True) (deletePathRecursive settings fuel path) (λ _ _, True).
Proof.
  revert path. induction fuel as [|fuel IH]; intros path Hd Hf.
  { intros w r w' Hw _ [= <- <-]. split_and!; [done|done|]. intros Hac.
    destruct (Hf Hac) as (stack & Hst & Hlt). pose proof (delete_stack_length _ _ Hst). lia. }
  cbn [deletePathRecursive]. pose proof Hd as (Hn & Hsp & Hl).
  eapply triple_bind; [apply (triple_get _ _ _ _ (λ db w, (db_ok db ∧ sub_db db0 db) ∧ True))|].
  { intros w Hw _. split_and!; [apply (inv_ok w Hw)|apply (inv_sub w Hw)|done]. }
  intros db. apply triple_pure. intros [Hok Hsub]. eapply triple_bind with (Q := λ _ _, True).
  2: { intros sz. eapply triple_bind; [apply safe_glstat|]. intros [node|]; [by apply safe_remove_path|by apply triple_ret]. }
  destruct (isValidPath_ path db) eqn:Hv; [|by apply triple_ret]. apply isValidPath_nul_free in Hv; [|done].
  eapply triple_bind; [apply (triple_lift _ _ _ _ (λ refs _, (∀ i, i ∈ refs → refers db0 i path) ∧ True))|].
  { intros w refs Hw _ E. split; [|done]. intros i Hi. unfold db_queryReferrers in E.
    apply bind_Ret_inv in E as ([] & _ & E). simplify_eq. apply queryReferrers_spec in Hi; [|done].
    rewrite c_str_id in Hi by done. by apply (sub_refers _ _ Hsub). }
  { intros w _ _. unfold db_queryReferrers. apply bind_terminates; [apply check_terminates|done]. }
  intros refs. apply triple_pure. intros Hrefs. pose proof (sub_valid _ _ _ Hsub Hv) as Hv0.
  eapply triple_bind with (Q := λ _ _, True).
  { apply triple_iter. intros i Hi. case_decide as Hne; [by apply triple_ret|].
    apply IH; [by eapply refers_doomed; [| |apply Hrefs|]|]. by eapply enough_fuel_push; [| |apply Hrefs|]. }
  intros []. eapply triple_bind; [by apply (triple_get _ _ _ _ (λ _ _, True))|]. intros db'.
  eapply triple_bind; [apply triple_call, queryPathInfo_terminates|]. intros info.
  eapply triple_bind; [by apply safe_invalidate|]. intros []. by apply triple_ret.
Qed.

(** ** [tryToDelete] *)

Lemma inv_live w x : gc_inv w → live kd ko rootSet (ls_db (w_store w)) x ↔ live0 x.
Proof. intros Hw. apply live_sub; [done|apply (inv_sub w Hw)|apply (inv_valid w Hw)]. Qed.

Lemma inv_reach_state w : gc_inv w → reach_state (ls_db (w_store w)) kd ko rootSet (dead (w_state w)) (w_state w).
Proof.
  intros Hw. split_and!; [apply (inv_kd w Hw)|apply (inv_ko w Hw)|apply (inv_roots w Hw)|done|].
  intros x Hx. apply inv_live; [done|]. by apply (inv_alive w Hw).
Qed.

(** What the search finds out in the middle of a collection. *)
Lemma canReachRoot_inv w depth path b s' visited :
  gc_inv w → nul_free path →
  canReachRoot settings depth (ls_db (w_store w)) (w_state w) [] path = Ret (b, s', visited) →
  (∃ a, s' = set_alive a (w_state w) ∧ ∀ x, x ∈ a → live0 x) ∧
  if b then live0 path
  else (∀ x, x ∈ visited → ¬ live0 x) ∧ (path ∈ visited ∨ path ∈ dead (w_state w)).
Proof.
  intros Hw Hn E. pose proof (inv_ok w Hw) as Hok. pose proof (sub_texts _ _ Hok (inv_sub w Hw) Htext0) as Ht.
  apply (canReachRoot_post settings _ Hok Ht kd ko rootSet (dead (w_state w))) in E as (Hr1 & [a ->] & Hr3);
    [|done|by apply inv_reach_state].
  split.
  - exists a. split; [done|]. intros x Hx. apply (inv_live w); [done|]. by apply Hr1.
  - destruct b; [apply (inv_live w path Hw), Hr3|]. destruct Hr3 as (_ & Hex & Hin). split; [|done].
    intros x Hx. rewrite <-(inv_live w x Hw). eapply explored_dead; [done| |done].
    intros y Hy. rewrite (inv_live w y Hw). by apply (inv_dead w Hw).
Qed.

Lemma canReachRoot_inv_returns w depth path :
  gc_inv w → nul_free path → gc_depth db0 <= depth →
  ∃ res, canReachRoot settings depth (ls_db (w_store w)) (w_state w) [] path = Ret res.
Proof.
  intros Hw Hn Hdepth. pose proof (inv_ok w Hw) as Hok. pose proof (inv_sub w Hw) as Hsub.
  apply (canReachRoot_returns settings _ Hok (sub_texts _ _ Hok Hsub Htext0) kd ko rootSet
    (dead (w_state w)) (stmtQueryValidPaths db0)); [by eapply sub_readable| |done|by apply inv_reach_state|].
  - intros p Hp. apply elem_of_validPaths. by eapply sub_valid.
  - pose proof (gc_depth_enough db0 []). lia.
Qed.

Lemma inv_set_alive w a : gc_inv w → (∀ x, x ∈ a → live0 x) →
  gc_inv (mkWorld (w_store w) (w_files w) (w_unlinked w) (set_alive a (w_state w))).
Proof. intros Hw Ha. destruct Hw. split; done. Qed.

Lemma inv_set_dead w d : gc_inv w → (∀ x, x ∈ d → ¬ live0 x) →
  gc_inv (mkWorld (w_store w) (w_files w) (w_unlinked w) (set_dead d (w_state w))).
Proof. intros Hw Ha. destruct Hw. split; done. Qed.

Lemma safe_tryToDelete depth path :
  gc_depth db0 <= depth → nul_free path → isStorePath store path = true →
  safe (λ _, True) (tryToDelete settings depth path) (λ _ _, True).
Proof.
  intros Hdepth Hn Hsp. unfold tryToDelete.
  eapply triple_bind; [by apply (triple_get _ _ _ _ (λ s w, s = w_state w))|]. intros s.
  case_decide; [by apply triple_ret|].
  eapply triple_bind; [by apply (triple_get _ _ _ _ (λ db w, s = w_state w ∧ db = ls_db (w_store w)))|]. intros db.
  case_match; [by apply triple_ret|].
  eapply triple_bind; [apply (triple_lift _ _ _ _ (λ r w, s = w_state w ∧
    canReachRoot settings depth (ls_db (w_store w)) (w_state w) [] path = Ret r))|].
  { by intros w r Hw [-> ->]. }
  { intros w Hw [-> ->]. destruct (canReachRoot_inv_returns w depth path) as [res E]; [done..|]. by rewrite E. }
  intros [[b s'] visited]. eapply triple_bind; [apply (triple_modify _ _ _ _ (λ _ w, w_state w = s' ∧
    if b then live0 path else (∀ x, x ∈ visited → ¬ live0 x) ∧ ¬ live0 path))|].
  { intros w Hw [-> E]. apply canReachRoot_inv in E as [(a & -> & Ha) E]; [|done|done].
    cbv zeta. split; [by apply inv_set_alive|]. split; [done|]. destruct b; [done|]. destruct E as [E1 E2].
    split; [done|]. destruct E2 as [?|E2]; [by apply E1|by apply (inv_dead w Hw)]. }
  intros []. destruct b; [by apply triple_ret|].
  eapply triple_bind; [apply (triple_modify _ _ _ _ (λ _ w, ¬ live0 path ∧ True))|].
  { intros w Hw [E [Hvis Hp]]. cbv zeta. split; [|done]. apply inv_set_dead; [done|].
    intros x [Hx|Hx]%elem_of_set_insert_all; [by apply Hvis|by apply (inv_dead w Hw)]. }
  intros []. apply triple_pure. intros Hp. case_match; [|by apply triple_ret].
  apply safe_deletePathRecursive; [done|]. intros Hac. exists []. split.
  - split; [constructor|]. intros x Hx. by apply not_elem_of_nil in Hx.
  - unfold gc_depth in Hdepth. simpl. lia.
Qed.

(** ** The whole collection *)

Lemma trash_nul_free : nul_free trash.
Proof. unfold nul_free. rewrite elem_of_app. intros [?|Hn]; [done|]. revert Hn. concrete. Qed.

Lemma safe_delete_trash : safe (λ _, True) (deleteGarbage settings trash) (λ _ _, True).
Proof. apply safe_deleteGarbage. intros p Hp. rewrite c_str_id by apply trash_nul_free. apply Hp. Qed.

Lemma safe_prepare_trash : safe (λ _, True) (prepare_trash settings) (λ _ _, True).
Proof.
  unfold prepare_trash.
  eapply triple_bind; [apply (triple_get _ _ _ _ (λ t _, t = trash ∧ True))|].
  { intros w Hw _. split; [apply (inv_trash w Hw)|done]. }
  intros t. apply triple_pure. intros ->. eapply triple_bind with (Q := λ _ _, True).
  { unfold gpathExists. eapply triple_bind; [apply triple_call; by repeat case_match|]. intros []. by apply triple_get. }
  intros b. eapply triple_bind with (Q := λ _ _, True).
  { destruct b; [apply safe_delete_trash|by apply triple_ret]. }
  intros []. destruct (createDirs_error trash) as [e|].
  - case_decide; [|by apply triple_ret]. by apply (safe_modify _ (λ _, True)).
  - apply triple_files. intros w Hw _. split; [|done]. apply inv_set_files; [done|].
    intros p (_ & _ & Hp & _). by rewrite lookup_insert_ne.
Qed.

Lemma safe_delete_specific depth i :
  gc_depth db0 <= depth → nul_free i → safe (λ _, True) (delete_specific settings depth i) (λ _ _, True).
Proof.
  intros Hdepth Hi. unfold delete_specific.
  eapply triple_bind; [apply (triple_lift _ _ _ _ (λ _ _, isStorePath store i = true ∧ True))|].
  { intros w [] _ _ E%check_Ret_inv. done. }
  { intros w _ _. apply check_terminates. }
  intros []. apply triple_pure. intros Hs. eapply triple_bind; [by apply safe_tryToDelete|]. intros [].
  eapply triple_bind; [by apply (triple_get _ _ _ _ (λ _ _, True))|]. intros d. apply triple_call, check_terminates.
Qed.

Definition entry_name (name : bytes) : Prop := name ≠ [] ∧ "/"%byte ∉ name ∧ nul_free name.

Lemma name_store_path name : entry_name name →
  nul_free (store ++ str "/" ++ name) ∧ isStorePath store (store ++ str "/" ++ name) = true.
Proof.
  intros (Hne & Hs & Hn). split.
  - unfold nul_free. rewrite !elem_of_app. intros [?|[Hx|?]]; [done| |done]. revert Hx. concrete.
  - apply isStorePath_iff; [apply Hstore|]. by exists name.
Qed.

Lemma safe_scan_store depth names entries :
  gc_depth db0 <= depth → (∀ n, n ∈ names → entry_name n) →
  (∀ p, p ∈ entries → nul_free p ∧ isStorePath store p = true) →
  safe (λ _, True) (scan_store settings depth names entries)
    (λ es _, (∀ p, p ∈ es → nul_free p ∧ isStorePath store p = true) ∧ True).
Proof.
  intros Hdepth. revert entries. induction names as [|n names IH]; intros entries Hn Hes; cbn [scan_store].
  { by apply triple_ret. }
  assert (∀ m, m ∈ names → entry_name m) as Hn' by (intros m Hm; apply Hn; by right).
  destruct (name_store_path n (Hn n (list_elem_of_here _ _))) as [Hp1 Hp2].
  case_decide; [by apply IH|].
  eapply triple_bind; [by apply (triple_get _ _ _ _ (λ _ _, True))|]. intros db.
  destruct (isValidPath_ _ db).
  - apply IH; [done|]. intros p [?| ->%list_elem_of_singleton]%elem_of_app; [by apply Hes|done].
  - eapply triple_bind; [by apply safe_tryToDelete|]. intros []. by apply IH.
Qed.

Lemma safe_delete_all depth :
  gc_depth db0 <= depth → safe (λ _, True) (delete_all settings depth) (λ _ _, True).
Proof.
  intros Hdepth. unfold delete_all. eapply triple_bind; [apply triple_call, syscall_terminates|]. intros [].
  eapply triple_bind; [apply (triple_get _ _ _ _ (λ names _, (∀ n, n ∈ names → entry_name n) ∧ True))|].
  { intros w _ _. split; [|done]. intros n. apply readdir_name. }
  intros names. apply triple_pure. intros Hn.
  eapply triple_bind; [apply safe_scan_store; [done|done|]|].
  { intros p Hp. by apply not_elem_of_nil in Hp. }
  intros es. apply triple_pure. intros Hes. apply triple_iter. intros p Hp. rewrite shuffle_permutes in Hp.
  destruct (Hes p Hp). by apply safe_tryToDelete.
Qed.

Lemma safe_removeUnusedLinks : safe (λ _, True) (removeUnusedLinks settings) (λ _ _, True).
Proof.
  unfold removeUnusedLinks. eapply triple_bind; [apply triple_call, syscall_terminates|]. intros [].
  eapply triple_bind; [by apply (triple_get _ _ _ _ (λ _ _, True))|]. intros names.
  eapply triple_bind; [apply triple_iter|intros []; apply triple_call, syscall_terminates].
  intros name _. unfold removeUnusedLinks_entry. case_decide; [by apply triple_ret|].
  eapply triple_bind; [apply triple_call, syscall_terminates|]. intros [].
  eapply triple_bind; [by apply (triple_get _ _ _ _ (λ _ _, True))|].
  intros [[size nlink|es]|]; [|by apply triple_call..]. case_match; [|by apply triple_ret].
  eapply triple_bind; [apply triple_call, syscall_terminates|]. intros [].
  eapply triple_bind; [apply (triple_files _ _ _ _ (λ _ _, True))|].
  { intros w Hw _. split; [|done]. apply inv_set_files; [done|]. intros p (_ & _ & _ & Hp).
    unfold remove_entry. repeat case_match; try done. by rewrite lookup_insert_ne. }
  intros []. by apply (safe_modify _ (λ _, True)).
Qed.

Lemma safe_collect depth options :
  gc_depth db0 <= depth → (∀ p, p ∈ pathsToDelete options → nul_free p) →
  safe (λ _, True) (collect settings depth options) (λ _ _, True).
Proof.
  intros Hdepth Hp. unfold collect. eapply triple_bind; [by apply (triple_get _ _ _ _ (λ _ _, True))|].
  intros d. eapply triple_bind with (Q := λ _ _, True).
  { destruct d; [apply safe_prepare_trash|by apply triple_ret]. }
  intros []. eapply triple_bind with (Q := λ _ _, True).
  { case_decide; [apply triple_iter; intros i Hi; apply safe_delete_specific; auto|].
    case_decide; [|by apply triple_ret]. apply triple_catch; [by apply safe_delete_all|].
    intros []; by apply triple_call || by apply triple_ret. }
  intros []. do 2 (case_decide; [by apply (safe_modify _ (λ _, True))|]).
  eapply triple_bind; [apply (triple_get _ _ _ _ (λ t _, t = trash ∧ True))|].
  { intros w Hw _. split; [apply (inv_trash w Hw)|done]. }
  intros t. apply triple_pure. intros ->.
  eapply triple_bind; [apply safe_delete_trash|]. intros []. apply safe_removeUnusedLinks.
Qed.
End safety.

(** ** From the start *)

Section collection.
Context `{Gcrypt} `{GCOSLaws} `{RootsOS}.
Variable settings : GCSettings.
Variable tempFiles : list (bytes * TempRootsFile).
Variable listBusy : outcome bytes.
Variable rootsDepth : nat.
Local Abbreviation store := (nixStore settings).
Local Abbreviation collection := (collectGarbage settings tempFiles listBusy rootsDepth).
Local Abbreviation found_roots := (gc_roots settings tempFiles listBusy rootsDepth).

(** A store that the collector can work on. *)
Record gc_ready (db : Database) : Prop := {
  ready_ok : db_ok db;
  ready_texts : texts db;
  ready_rows : readable store db;
  ready_dir : store_dir_ok store;
  ready_nul : nul_free store
}.

(** The paths that are live at the start of a collection with these roots. *)
Definition gc_live (options : GCOptions) (rootSet : strset) (db : Database) (p : bytes) : Prop :=
  let s := init_state settings options (mkGCResults [] 0) rootSet [] in
  live (gcKeepDerivations s) (gcKeepOutputs s) rootSet db p.

Local Abbreviation inv_of options rootSet w := (gc_inv settings (ls_db (w_store w)) (w_files w)
  (gcKeepDerivations (init_state settings options (mkGCResults [] 0) rootSet []))
  (gcKeepOutputs (init_state settings options (mkGCResults [] 0) rootSet [])) rootSet).

Lemma init_inv options results rootSet tempSet unlinked w :
  db_ok (ls_db (w_store w)) →
  inv_of options rootSet w
    (mkWorld (w_store w) (w_files w) unlinked (init_state settings options results rootSet tempSet)).
Proof.
  intros Hok. split; try done; [apply sub_db_refl| |]; intros x Hx; by apply not_elem_of_nil in Hx.
Qed.

(** A collection either stops while it looks for roots, or does the rest from a
    state that satisfies the invariant. *)
Lemma collectGarbage_cases options results w r w' :
  collection options results w = (r, w') →
  (∃ rootSet tempSet unl,
     found_roots options (ls_db (w_store w)) = Ret (rootSet, tempSet, unl) ∧
     collect settings (gc_depth (ls_db (w_store w))) options
       (mkWorld (w_store w) (w_files w) (w_unlinked w ++ unl) (init_state settings options results rootSet tempSet))
       = (r, w')) ∨
  (∀ x, found_roots options (ls_db (w_store w)) ≠ Ret x) ∧ w' = w ∧
    (terminates (found_roots options (ls_db (w_store w))) → terminates r).
Proof.
  unfold collectGarbage. unfold mbind at 1, G_bind at 1. cbn [gdb gget].
  unfold mbind at 1, G_bind at 1. cbn [glift].
  destruct (found_roots options (ls_db (w_store w))) as [[[rootSet tempSet] unl]|e|] eqn:E.
  - intros Ec. left. by exists rootSet, tempSet, unl.
  - intros [= <- <-]. by right.
  - intros [= <- <-]. by right.
Qed.

Lemma collectGarbage_inv options results w r w' :
  gc_ready (ls_db (w_store w)) → (∀ p, p ∈ pathsToDelete options → nul_free p) →
  collection options results w = (r, w') →
  (∀ rootSet tempSet unl, found_roots options (ls_db (w_store w)) = Ret (rootSet, tempSet, unl) →
     inv_of options rootSet w w') ∧
  ((∀ x, found_roots options (ls_db (w_store w)) ≠ Ret x) → w' = w) ∧
  (acyclic (ls_db (w_store w)) → terminates (found_roots options (ls_db (w_store w))) → terminates r).
Proof.
  intros [Hok Ht Hr Hd Hn] Hp [(rootSet & tempSet & unl & E & Ec)|(Hno & -> & Hterm)]%collectGarbage_cases.
  2: { split_and!; [|done|auto]. intros rootSet tempSet unl E. by apply Hno in E. }
  assert (inv_of options rootSet w w' ∧ (∀ a, r = Ret a → True) ∧ (acyclic (ls_db (w_store w)) → terminates r))
    as (Hinv & _ & HT).
  { eapply safe_collect; [done..|exact Hp|by apply init_inv|done|exact Ec]. }
  rewrite E. split_and!; [|intros Hno; by destruct (Hno _ eq_refl)|auto]. by intros ? ? ? [= <- <- <-].
Qed.

(** ** The roots *)

Local Abbreviation valid_in db := (λ p, Ret (isValidPath_ p db)).

Lemma addAdditionalRoots_mono (isValid : bytes → outcome bool) out rs rs' x :
  addAdditionalRoots isValid store out rs = Ret rs' → x ∈ rs → x ∈ rs'.
Proof.
  unfold addAdditionalRoots. intros (toks & _ & E)%bind_Ret_inv Hx.
  revert E. apply (foldM_inv (λ rs, x ∈ rs)); [|done]. intros s i s' _ Hs. destruct (isInStore store i); [|by intros [= <-]].
  intros (p & _ & E)%bind_Ret_inv. destruct (set_mem p s); [by simplify_eq|].
  apply bind_Ret_inv in E as (v & _ & E). destruct v; simplify_eq; [|done]. apply elem_of_set_insert. by right.
Qed.

Lemma gc_roots_inv options db rootSet tempSet unl :
  found_roots options db = Ret (rootSet, tempSet, unl) →
  (∃ removed, readTempRoots store tempFiles [] = Ret (tempSet, removed)) ∧
  (∀ x, x ∈ tempSet → x ∈ rootSet) ∧
  (ignoreLiveness options = false →
     ∃ rootMap stale_, findRoots (valid_in db) store (nixStateDir settings) rootsDepth = Ret (rootMap, stale_) ∧
       ∀ k sp, (k, sp) ∈ rootMap → sp ∈ rootSet).
Proof.
  unfold gc_roots. intros ([rootMap stale_] & Ef & E)%bind_Ret_inv.
  apply bind_Ret_inv in E as (rs & Er & E). apply bind_Ret_inv in E as ([ts removed] & Et & E). simplify_eq.
  split_and!; [by eexists|intros x Hx; apply elem_of_set_insert_all; by left|].
  intros Hi. rewrite Hi in Ef, Er. exists rootMap, stale_. split; [done|]. intros k sp Hin.
  apply elem_of_set_insert_all. right. apply bind_Ret_inv in Er as (out & _ & Er).
  eapply addAdditionalRoots_mono; [done|]. apply elem_of_set_of_list, list_elem_of_fmap. by exists (k, sp).
Qed.

(** The closure of a root is live. *)
Lemma live_closure kd ko rootSet db r p :
  r ∈ rootSet → rtc (refers db) r p → live kd ko rootSet db p.
Proof.
  intros Hr Hp. apply rtc_nsteps in Hp as [n Hp]. revert p Hp.
  induction n as [|n IH]; intros p Hp; [inversion Hp; subst; by exists p|].
  apply nsteps_inv_r in Hp as (q & Hq & Hqp). apply IH in Hq as Hl.
  destruct (decide (q = p)) as [->|Hne]; [done|]. destruct Hl as (x & Hx & Hqx).
  exists x. split; [done|]. eapply rtc_l; [|exact Hqx]. split_and!; [by eapply refers_valid|done|by left].
Qed.
End collection.

(** * Properties *)



(** C37: On a store whose references are acyclic, the collector terminates once
    its roots are found: neither the search for a root nor the recursive
    deletion of referrers nests deeper than the number of valid paths. *)
Theorem collectGarbage_terminates `{Gcrypt} `{GCOSLaws} `{RootsOS} settings tempFiles listBusy rootsDepth
    options results w :
  gc_ready settings (ls_db (w_store w)) → (∀ p, p ∈ pathsToDelete options → nul_free p) →
  acyclic (ls_db (w_store w)) →
  terminates (gc_roots settings tempFiles listBusy rootsDepth options (ls_db (w_store w))) →
  terminates (collectGarbage settings tempFiles listBusy rootsDepth options results w).1.
Proof.
  intros Hready Hp Hac Hroots.
  destruct (collectGarbage settings tempFiles listBusy rootsDepth options results w) as [r w'] eqn:E.
  apply collectGarbage_inv in E as (_ & _ & HT); [by apply HT|done|done].
Qed.

(** ** Witnesses *)

Definition names_in (files : Files) (dir : bytes) : list bytes :=
  omap (λ f, if decide (take (length dir + 1) f.1 = dir ++ str "/") then Some (drop (length dir + 1) f.1) else None)
    (map_to_list files).

#[global] Instance entry_name_dec n : Decision (entry_name n).
Proof. unfold entry_name. apply _. Defined.

(** A system where nothing fails, and one without space for a new directory. *)
Definition sample_gcos (mkdir : option Z) : GCOS := {|
  lstat_error _ := None;
  chmod_error _ := None;
  rename_error _ _ := None;
  unlink_error _ := None;
  createDirs_error _ := mkdir;
  opendir_error _ := None;
  readdir files dir :=
    filter entry_name
      (if decide (dir = str "/gnu/store") then names_in files dir
       else match files !! dir with Some (NDir es) => es.*1 | _ => [] end);
  random_shuffle l := l
|}.

Lemma sample_gcos_laws mkdir : @GCOSLaws (sample_gcos mkdir).
Proof.
  split; [|done]. intros files dir name Hin. cbn [readdir sample_gcos] in Hin. by apply list_elem_of_filter in Hin as [? _].
Qed.

(** A link to c below gcroots. *)
Definition sample_roots : RootsOS := {|
  getFileType p :=
    if decide (p = str "/v/gcroots") then Ret DT_DIR else Throw (SysError ENOENT "getting status");
  readDirectory p :=
    if decide (p = str "/v/gcroots") then Ret [(str "r", DT_LNK)] else Throw (SysError ENOTDIR "opening directory");
  readLink p :=
    if decide (p = str "/v/gcroots/r") then Ret (str "/gnu/store/c") else Throw (SysError ENOENT "reading link");
  pathExists p := Ret false;
  lstat_is_link p := Ret false
|}.

Lemma sample_roots_laws : @RootsOSLaws sample_roots.
Proof.
  split.
  - intros p. cbn. split_and!; repeat case_decide; done.
  - intros p target. cbn. repeat case_decide; done.
  - intros d es name target. cbn. case_decide; intros E Hin; simplify_eq.
    apply elem_of_cons in Hin as [[=]|Hin]. by apply not_elem_of_nil in Hin.
Qed.

(** a, b and c as in the database, something that is not valid, the lock of a
    path being built, and two links. *)
Definition sample_links_dir : list (bytes * Node) :=
  [(str "used", NFile 9000 2); (str "unused", NFile 9000 1)].

Definition sample_files : Files := list_to_map
  [(str "/gnu/store/a", NDir [(str "bin", NFile 10 1)]);
   (str "/gnu/store/b", NFile 20 1);
   (str "/gnu/store/c", NDir [(str "lib", NFile 30 1)]);
   (str "/gnu/store/junk", NFile 40 1);
   (str "/gnu/store/x.lock", NFile 0 1);
   (str "/gnu/store/.links", NDir sample_links_dir)].

Definition sample_owners : list (bytes * option (list bytes * bytes)) :=
  [(str "17", Some ([str "/gnu/store/x"], []))].

Definition sample_options (action : GCAction) (paths : strset) : GCOptions := mkGCOptions action false paths ULLONG_MAX.

Definition sample_world : World := mkWorld sample_db sample_files [] sample_state.

Definition sample_collect (mkdir : option Z) (opts : GCOptions) : outcome () * World :=
  @collectGarbage toy_gcrypt (sample_gcos mkdir) sample_roots sample_settings
    (prod_map id temp_roots_file <$> sample_owners) (Ret []) 3 opts (mkGCResults [] 0) sample_world.

Lemma sample_ready : @gc_ready toy_gcrypt sample_settings (ls_db sample_db).
Proof.
  split; [exact sample_db_ok|apply sample_db_readable|apply sample_db_readable|split; concrete|concrete].
Qed.

Lemma sample_acyclic : acyclic (ls_db sample_db).
Proof.
  apply (@registerValidPaths_acyclic toy_gcrypt (str "/gnu/store") no_file 1000 sample_infos empty_store sample_db empty_ok
    empty_acyclic); [|exact sample_registers].
  intros i Hi. split.
  - unfold sample_infos in Hi. rewrite !elem_of_cons in Hi.
    destruct Hi as [->|[->|[->|Hi]]]; [concrete..|]. by apply not_elem_of_nil in Hi.
  - intros (id & r & Hr & _). simpl in Hr. by rewrite lookup_empty in Hr.
Qed.

Lemma no_paths p : p ∈ @nil bytes → nul_free p.
Proof. intros Hp. by apply not_elem_of_nil in Hp. Qed.

Definition sample_roots_found : strset * strset * list bytes :=
  ([str "/gnu/store/c"; str "/gnu/store/x"], [str "/gnu/store/x"], []).

Lemma sample_finds_roots :
  @gc_roots sample_roots sample_settings (prod_map id temp_roots_file <$> sample_owners) (Ret []) 3
    (sample_options gcDeleteDead []) (ls_db sample_db) = Ret sample_roots_found.
Proof. vm_compute. reflexivity. Qed.

Lemma sample_refers_c_a : refers (ls_db sample_db) (str "/gnu/store/c") (str "/gnu/store/a").
Proof. apply (ref_edge_intro _ 3%Z 2%Z). vm_compute. reflexivity. Qed.



Lemma collectGarbage_terminates_witness :
  terminates (sample_collect None (sample_options gcDeleteDead [])).1.
Proof.
  apply (@collectGarbage_terminates toy_gcrypt (sample_gcos None) (sample_gcos_laws None) sample_roots sample_settings
    (prod_map id temp_roots_file <$> sample_owners) (Ret []) 3 (sample_options gcDeleteDead []) (mkGCResults [] 0)
    sample_world).
  - exact sample_ready.
  - exact no_paths.
  - exact sample_acyclic.
  - discriminate.
Defined.
