(* ===== verification/GCComplete.v ===== *)
(** The garbage collector of gc.cc deletes all the garbage: when no system call
    fails and there is no limit, [gcDeleteDead] returns, and what is left of
    the store is live (or belongs to a running build). *)

From S2P Require Import Prelude Containers Serialise Hash Paths StorePaths Derivations Closure LocalDB Roots GC GCSafety.

(** * Computations that return *)

Definition total {A} (P : World → Prop) (m : G A) (Q : A → World → Prop) : Prop :=
  ∀ w, P w → ∃ a w', m w = (Ret a, w') ∧ Q a w'.

Lemma total_ret {A} (a : A) (P : World → Prop) Q : (∀ w, P w → Q a w) → total P (mret a) Q.
Proof. intros HQ w HP. exists a, w. auto. Qed.

Lemma total_bind {A B} (m : G A) (f : A → G B) P Q R :
  total P m Q → (∀ a, total (Q a) (f a) R) → total P (m ≫= f) R.
Proof.
  intros Hm Hf w HP. destruct (Hm w HP) as (a & w1 & E & HQ). destruct (Hf a w1 HQ) as (b & w2 & E2 & HR).
  exists b, w2. split; [|done]. unfold mbind, G_bind. by rewrite E.
Qed.

Lemma total_conseq {A} (m : G A) (P P' : World → Prop) (Q Q' : A → World → Prop) :
  total P' m Q' → (∀ w, P w → P' w) → (∀ a w, Q' a w → Q a w) → total P m Q.
Proof. intros Hm HP HQ w Hw. destruct (Hm w (HP w Hw)) as (a & w' & E & Hq). eauto. Qed.

Lemma total_pure {A} (m : G A) (φ : Prop) (P : World → Prop) Q :
  (φ → total P m Q) → total (λ w, φ ∧ P w) m Q.
Proof. intros Hm w [Hφ HP]. by apply Hm. Qed.

Lemma total_exists {A B} (m : G A) (P : B → World → Prop) Q :
  (∀ x, total (P x) m Q) → total (λ w, ∃ x, P x w) m Q.
Proof. intros Hm w [x HP]. by eapply Hm. Qed.

Lemma total_lift {A} (m : outcome A) (P : World → Prop) (Q : A → World → Prop) :
  (∀ w, P w → ∃ a, m = Ret a ∧ Q a w) → total P (glift m) Q.
Proof. intros Hm w HP. destruct (Hm w HP) as (a & -> & HQ). by exists a, w. Qed.

Lemma total_get {A} (f : World → A) (P : World → Prop) (Q : A → World → Prop) :
  (∀ w, P w → Q (f w) w) → total P (gget f) Q.
Proof. intros HQ w HP. exists (f w), w. auto. Qed.

Lemma total_modify f (P : World → Prop) Q :
  (∀ w, P w → Q () (mkWorld (w_store w) (w_files w) (w_unlinked w) (f (w_state w)))) → total P (gmodify f) Q.
Proof. intros HQ w HP. eexists _, _. split; [done|auto]. Qed.

Lemma total_files f (P : World → Prop) Q :
  (∀ w, P w → Q () (mkWorld (w_store w) (f (w_files w)) (w_unlinked w) (w_state w))) → total P (gfiles f) Q.
Proof. intros HQ w HP. eexists _, _. split; [done|auto]. Qed.

Lemma total_store f (P : World → Prop) Q :
  (∀ w, P w → ∃ st, f (w_store w) = Ret st ∧ Q () (mkWorld st (w_files w) (w_unlinked w) (w_state w))) →
  total P (gstore f) Q.
Proof. intros HQ w HP. destruct (HQ w HP) as (st & E & Hq). unfold gstore. rewrite E. by eexists _, _. Qed.

Lemma total_catch {A} (m : G A) h (P : World → Prop) Q : total P m Q → total P (gcatch m h) Q.
Proof. intros Hm w HP. destruct (Hm w HP) as (a & w' & E & HQ). exists a, w'. unfold gcatch. by rewrite E. Qed.

(** A loop: [Q done] holds when the elements of [done] have been dealt with. *)
Lemma total_iter {A} (f : A → G ()) (l : list A) (Q : list A → World → Prop) done :
  (∀ x done, x ∈ l → total (Q done) (f x) (λ _, Q (done ++ [x]))) →
  total (Q done) (giter f l) (λ _, Q (done ++ l)).
Proof.
  revert done. induction l as [|x l IH]; intros done Hf; cbn [giter]; [apply total_ret; by rewrite app_nil_r|].
  eapply total_bind; [apply Hf; by left|]. intros []. replace (done ++ x :: l) with ((done ++ [x]) ++ l).
  - apply IH. intros y d Hy. apply Hf. by right.
  - by rewrite <-(assoc (++)).
Qed.

(** The same with the part of the list that was seen. *)
Lemma total_iter_prefix {A} (f : A → G ()) (l : list A) (Q : list A → World → Prop) :
  (∀ pre x post, l = pre ++ x :: post → total (Q pre) (f x) (λ _, Q (pre ++ [x]))) →
  total (Q []) (giter f l) (λ _, Q l).
Proof.
  intros Hf. assert (∀ pre post, l = pre ++ post → total (Q pre) (giter f post) (λ _, Q l)) as Hgen; [|by apply Hgen].
  intros pre post. revert pre. induction post as [|x post IH]; intros pre E; cbn [giter].
  { apply total_ret. intros w. by rewrite E, app_nil_r. }
  eapply total_bind; [by eapply Hf|]. intros []. apply IH. by rewrite <-(assoc (++)).
Qed.

(** A computation that keeps an invariant and returns. *)
Lemma total_inv {A} (I : World → Prop) T (P P' : World → Prop) (m : G A) Q Q' :
  triple I T P' m Q' → (∀ w, P w → P' w) → total (λ w, I w ∧ P w) m Q → total (λ w, I w ∧ P w) m (λ a w, I w ∧ Q a w).
Proof.
  intros Hm HP Ht w [HI Hw]. destruct (Ht w (conj HI Hw)) as (a & w' & E & HQ). exists a, w'.
  split; [done|]. split; [|done]. by apply (Hm _ _ _ HI (HP w Hw)) in E as [? _].
Qed.

(** * Without failures *)

(** No system call fails, the links directory has files only, and readdir
    lists every entry once. *)
Record os_works `{GCOS} (settings : GCSettings) (files0 : Files) : Prop := {
  works_lstat p : lstat_error p = None;
  works_chmod p : chmod_error p = None;
  works_rename p q : rename_error p q = None;
  works_unlink p : unlink_error p = None;
  works_createDirs p : createDirs_error p = None;
  works_opendir p : opendir_error p = None;
  works_readdir files name :
    is_Some (files !! (nixStore settings ++ str "/" ++ name)) → entry_name name →
    name ∈ readdir files (nixStore settings);
  works_links : ∃ links, files0 !! linksDir settings = Some (NDir links) ∧
    (∀ e, e ∈ links → is_dir e.2 = false ∧ e.1 ≠ str "." ∧ e.1 ≠ str "..") ∧ NoDup links.*1 ∧
    ∀ files, files !! linksDir settings = Some (NDir links) →
      NoDup (readdir files (linksDir settings)) ∧
      (∀ name, name ∈ readdir files (linksDir settings) → name = str "." ∨ name = str ".." ∨ name ∈ links.*1) ∧
      (∀ name, name ∈ links.*1 → name ∈ readdir files (linksDir settings))
}.

(** The links that stay. *)
Definition used_link (e : bytes * Node) : Prop :=
  match e.2 with NFile size nlink => unused_link size nlink = false | NDir _ => True end.

#[global] Instance used_link_dec e : Decision (used_link e).
Proof. unfold used_link. destruct e.2; apply _. Defined.

Section complete.
Context `{Gcrypt} `{GCOSLaws}.
Variable settings : GCSettings.
Local Abbreviation store := (nixStore settings).
Local Abbreviation trash := (store ++ str "/trash").
Variables (db0 : Database) (files0 : Files) (kd ko : bool) (rootSet tempSet : strset).
Hypothesis Hready : gc_ready settings db0.
Hypothesis Hacyc : acyclic db0.
Hypothesis Hworks : os_works settings files0.
Hypothesis Htrash : ¬ valid db0 trash.
Hypothesis Hlinks : ¬ valid db0 (linksDir settings).

Local Abbreviation live0 := (live kd ko rootSet db0).
Local Abbreviation inv := (gc_inv settings db0 files0 kd ko rootSet).
Local Abbreviation doomed := (doomed settings db0 kd ko rootSet).

(** The members of the state that deletion leaves alone. *)
Definition same_rest (s s' : GCState) : Prop :=
  same_core s s' ∧ tempRoots s' = tempRoots s ∧ shouldDelete s' = shouldDelete s ∧ options s' = options s.

Lemma same_rest_trans s1 s2 s3 : same_rest s1 s2 → same_rest s2 s3 → same_rest s1 s3.
Proof.
  intros ((A1 & A2 & A3 & A4 & A5 & A6) & A7 & A8 & A9) ((B1 & B2 & B3 & B4 & B5 & B6) & B7 & B8 & B9).
  repeat split; congruence.
Qed.

Lemma deletePath_node_returns thr path n freed : ∃ f, deletePath_node thr path n freed = Ret f.
Proof.
  revert path n freed. fix IH 2. intros path [size nlink|entries] freed; cbn [deletePath_node];
    rewrite (works_lstat _ _ Hworks); cbn [syscall mbind outcome_bind].
  - rewrite (works_unlink _ _ Hworks). by eexists.
  - rewrite (works_chmod _ _ Hworks), (works_unlink _ _ Hworks). cbn [syscall mbind outcome_bind].
    lazymatch goal with |- context [mbind _ (?go entries freed)] =>
      assert (∃ f, go entries freed = Ret f) as [f ->] end; [|by eexists].
    revert freed. induction entries as [|[name c] entries IHe]; intros freed; [by eexists|].
    destruct (IH (path ++ str "/" ++ name) c freed) as [f Ef]. rewrite Ef. apply IHe.
Qed.

Lemma deleteGarbage_runs path n w :
  nul_free path → w_files w !! path = Some n →
  ∃ f, deleteGarbage settings path w =
    (Ret (), mkWorld (w_store w) (delete path (w_files w)) (w_unlinked w) (add_freed f (w_state w))).
Proof.
  intros Hn Hf. unfold deleteGarbage. rewrite c_str_id by done.
  set (thr := if autoOptimiseStore settings && isStorePath store path then 2%Z else 1%Z). destruct (deletePath_node_returns thr path n 0) as [f Ef].
  exists f. unfold mbind, G_bind. cbn [gget]. rewrite Hf. unfold glift. rewrite Ef. done.
Qed.

Lemma add_freed_rest f s : same_rest s (add_freed f s).
Proof. by repeat split. Qed.

(** What happened to the files when [path] was removed. *)
Definition files_without (path : bytes) (files files' : Files) : Prop :=
  files' !! path = None ∧ (∀ p, p ≠ trash → p ≠ path → files' !! p = files !! p) ∧
  ∃ es, files' !! trash = Some (NDir es).

Lemma trash_path_runs path size n w es :
  nul_free path → isStorePath store path = true → path ≠ trash → trashDir (w_state w) = trash →
  w_files w !! path = Some n → w_files w !! trash = Some (NDir es) →
  ∃ files' s', trash_path path size w = (Ret (), mkWorld (w_store w) files' (w_unlinked w) s') ∧
    files_without path (w_files w) files' ∧ same_rest (w_state w) s'.
Proof.
  intros Hn Hs Hne Ht Hf Hes. apply isStorePath_iff in Hs as (base & Hb & Hslash & ->); [|apply Hready].
  set (path := store ++ str "/" ++ base) in *.
  assert (baseNameOf path = Ret base) as Eb.
  { unfold baseNameOf, path. change (str "/" ++ base) with ("/"%byte :: base). rewrite rfind_char_app by done.
    assert (length (store ++ "/"%byte :: base) = length store + S (length base)) as El by (by rewrite length_app).
    unfold substr. rewrite decide_True by lia. f_equal. rewrite drop_app_add. cbn [drop]. apply take_ge. lia. }
  unfold trash_path. rewrite c_str_id by done. unfold mbind, G_bind. unfold glift at 1.
  rewrite (works_chmod _ _ Hworks). cbn [syscall gget]. unfold glift at 1. rewrite Eb, Ht.
  unfold glift at 1. rewrite (works_rename _ _ Hworks). cbn [syscall]. unfold glift, move_to_trash.
  rewrite Hf, Hes. eexists _, _. split; [reflexivity|]. split; [|by repeat split]. cbn [w_files].
  split_and!.
  - rewrite lookup_insert_ne by done. apply lookup_delete_eq.
  - intros p Hp Hq. by rewrite lookup_insert_ne, lookup_delete_ne by done.
  - eexists. apply lookup_insert_eq.
Qed.

Lemma remove_path_runs path size n w es :
  nul_free path → isStorePath store path = true → path ≠ trash → trashDir (w_state w) = trash →
  maxFreed (options (w_state w)) = ULLONG_MAX →
  w_files w !! path = Some n → w_files w !! trash = Some (NDir es) →
  ∃ files' s', remove_path settings path size n w = (Ret (), mkWorld (w_store w) files' (w_unlinked w) s') ∧
    files_without path (w_files w) files' ∧ same_rest (w_state w) s'.
Proof.
  intros Hn Hs Hne Ht Hmax Hf Hes. unfold remove_path. unfold mbind at 1, G_bind at 1. cbn [gmodify].
  set (s1 := set_results _ (w_state w)). set (w1 := mkWorld _ _ _ s1).
  assert (same_rest (w_state w) s1) as Hs1 by (by repeat split).
  unfold mbind at 1, G_bind at 1. cbn [gget].
  assert (∃ files' s', (if moveToTrash (w_state w1) && is_dir n then
      gcatch (trash_path path size) (λ e, match e with
        | SysError errNo _ => if decide (errNo = ENOSPC ∨ errNo = EXDEV) then deleteGarbage settings path else mret ()
        | e => glift (Throw e) end) else deleteGarbage settings path) w1 =
      (Ret (), mkWorld (w_store w) files' (w_unlinked w) s') ∧
      files_without path (w_files w) files' ∧ same_rest s1 s') as (files' & s' & E & Hfw & Hrest).
  { destruct (moveToTrash (w_state w1) && is_dir n).
    - destruct (trash_path_runs path size n w1 es) as (files' & s' & E & ? & ?); [done..|].
      exists files', s'. unfold gcatch. by rewrite E.
    - destruct (deleteGarbage_runs path n w1 Hn Hf) as [f E]. rewrite E. eexists _, _. split; [reflexivity|].
      split; [|apply add_freed_rest]. split_and!; [apply lookup_delete_eq| |].
      + intros p _ Hp. by rewrite lookup_delete_ne.
      + exists es. by rewrite lookup_delete_ne. }
  unfold mbind at 1, G_bind at 1. rewrite E. cbn [gget].
  unfold mbind at 1, G_bind at 1. cbn [w_state].
  exists files', s'. split_and!; [|done|by eapply same_rest_trans].
  cbn [gget w_state]. destruct Hrest as (_ & _ & _ & Ho). rewrite Ho. change (options s1) with (options (w_state w)). rewrite Hmax.
  rewrite decide_False; [done|]. unfold ULLONG_MAX, u64.
  pose proof (Z.mod_pos_bound (bytesFreed (results s') + bytesInvalidated s') (2 ^ 64)%Z ltac:(lia)). lia.
Qed.

Lemma links_not_trash : linksDir settings ≠ trash.
Proof. unfold linksDir. intros E%app_inv_head. revert E. concrete. Qed.

(** ** Recursive deletion *)

Definition gone (w : World) (p : bytes) : Prop :=
  p ≠ trash ∧ ¬ valid (ls_db (w_store w)) p ∧ w_files w !! p = None.

(** Between two deletions: [stack] is being deleted, [done] was, and all that
    is valid is in [U]. *)
Record working (U : bytes → Prop) (stack done : list bytes) (w : World) : Prop := {
  work_inv : inv w;
  work_trash : ∃ es, w_files w !! trash = Some (NDir es);
  work_links : w_files w !! linksDir settings = files0 !! linksDir settings;
  work_files p : p ≠ trash → is_Some (w_files w !! p) → is_Some (files0 !! p);
  work_temp : tempRoots (w_state w) = tempSet;
  work_delete : shouldDelete (w_state w) = true;
  work_max : maxFreed (options (w_state w)) = ULLONG_MAX;
  work_below p : valid (ls_db (w_store w)) p → U p;
  work_stack s : s ∈ stack → valid (ls_db (w_store w)) s;
  work_done d : d ∈ done → gone w d
}.

Lemma working_weaken (U U' : bytes → Prop) stack done stack' done' w :
  working U stack done w → (∀ p, U p → U' p) → (∀ s, s ∈ stack' → s ∈ stack) → (∀ d, d ∈ done' → d ∈ done) →
  working U' stack' done' w.
Proof. intros [] HU Hs Hd. split; auto. Qed.

Lemma working_snoc U stack done w d : working U stack done w → gone w d → working U stack (done ++ [d]) w.
Proof.
  intros [] Hd. split; auto. intros x [Hx|Hx%list_elem_of_singleton]%elem_of_app; [auto|]. by subst.
Qed.

(** The end of [deletePathRecursive]: the path was not valid, or its row has
    been removed. *)
Lemma finish_path U stack done path size :
  doomed path → path ≠ trash → path ≠ linksDir settings →
  total (λ w, working U stack done w ∧ ¬ valid (ls_db (w_store w)) path)
    (node ← glstat path; match node with None => mret () | Some node => remove_path settings path size node end)
    (λ _ w, inv w ∧ working U stack (done ++ [path]) w).
Proof.
  intros Hd Ht Hl w [Hw Hv]. pose proof Hd as (Hn & Hs & _).
  pose proof Hw as [Hinv [es Hes] Hlk Hold Htmp Hdel Hmax Hbelow Hstack Hdone].
  unfold glstat. rewrite c_str_id, (works_lstat _ _ Hworks) by done.
  unfold mbind, G_bind. unfold glift at 1. cbn [gget]. rewrite decide_True by done.
  destruct (w_files w !! path) as [n|] eqn:Hf.
  - destruct (remove_path_runs path size n w es) as (files' & s' & E & (F1 & F2 & F3) & (Hcore & R1 & R2 & R3));
      [done|done|done|apply (inv_trash _ _ _ _ _ _ _ Hinv)|done..|].
    assert (inv (mkWorld (w_store w) files' (w_unlinked w) s')) as Hinv'.
    { eapply (safe_remove_path settings db0 files0 kd ko rootSet path size n) in E as [? _]; done. }
    eexists _, _. split; [exact E|]. split; [done|]. apply working_snoc.
    + split; cbn [w_store w_files w_state]; try congruence; try done.
      * rewrite F2; [done|by apply links_not_trash|by apply not_eq_sym].
      * intros p Hp. destruct (decide (p = path)) as [->|Hne]; [by rewrite F1; intros [? ?]|]. rewrite F2 by done. auto.
      * intros d Hdd. destruct (Hdone d Hdd) as (G1 & G2 & G3). split_and!; [done|done|]. cbn [w_files].
        destruct (decide (d = path)) as [->|Hne]; [done|]. by rewrite F2.
    + by split_and!.
  - eexists _, _. split; [reflexivity|]. split; [done|]. by apply working_snoc.
Qed.

Lemma stack_not_self path stack s : delete_stack db0 path stack → s ∈ stack → s ≠ path.
Proof. intros [_ Hs] Hin ->. apply Hs in Hin as [_ Hin]. by apply (Hacyc path). Qed.

(** The row of [path] is removed once no other path refers to it. *)
Lemma total_invalidate U db stack done path :
  doomed path → delete_stack db0 path stack → (∀ p, valid db p → U p) →
  total (λ w, working (valid db) (path :: stack) done w ∧
      ∀ q, refers (ls_db (w_store w)) q path → q = path)
    (gstore (invalidatePathChecked store path))
    (λ _ w, working U stack done w ∧ ¬ valid (ls_db (w_store w)) path).
Proof.
  intros Hd Hst HU. pose proof Hd as (Hn & Hs & _). intros w [Hw Hself].
  assert (∃ w', gstore (invalidatePathChecked store path) w = (Ret (), w') ∧
    w_files w' = w_files w ∧ w_state w' = w_state w ∧
    ∀ q, valid (ls_db (w_store w')) q ↔ valid (ls_db (w_store w)) q ∧ q ≠ path) as (w' & E & Ef & Es & Hv).
  { destruct (invalidatePathChecked_spec store path (w_store w) (inv_ok _ _ _ _ _ _ _ (work_inv _ _ _ _ Hw)) Hn Hs)
      as [[(q & Hq & Hne) _]|[_ (st' & E & _ & Hv & _)]]; [by apply Hself in Hq|].
    unfold gstore. rewrite E. eexists. split; [reflexivity|]. done. }
  exists (), w'. split; [done|]. split; [|rewrite Hv; naive_solver].
  assert (inv w') as Hinv'.
  { eapply (safe_invalidate settings db0 files0 kd ko rootSet path) in E as [? _]; [done|done|apply Hw|done]. }
  destruct Hw as [Hinv Htr Hlk Hold Htmp Hdel Hmax Hbelow Hstack Hdone].
  split; rewrite ?Ef, ?Es; try done.
  - intros p [Hp _]%Hv. auto.
  - intros x Hx. apply Hv. split; [apply Hstack; by right|]. by eapply stack_not_self.
  - intros d Hdd. destruct (Hdone d Hdd) as (G1 & G2 & G3). split_and!; [done| |by rewrite Ef].
    rewrite Hv. naive_solver.
Qed.

Lemma referrer_not_special i path : refers db0 i path → i ≠ trash ∧ i ≠ linksDir settings.
Proof. intros [Hv _]%refers_valid. split; intros ->; [by apply Htrash|by apply Hlinks]. Qed.

Lemma total_deletePathRecursive fuel U path stack done :
  doomed path → path ≠ trash → path ≠ linksDir settings →
  delete_stack db0 path stack → size (db_ValidPaths db0) < length stack + fuel →
  total (working U stack done) (deletePathRecursive settings fuel path)
    (λ _ w, inv w ∧ working U stack (done ++ [path]) w).
Proof.
  revert U path stack done. induction fuel as [|fuel IH]; intros U path stack done Hd Ht Hl Hst Hf.
  { pose proof (delete_stack_length _ _ _ Hst). lia. }
  pose proof Hd as (Hn & Hs & _). cbn [deletePathRecursive]. destruct Hready as [Hok0 Htext0 Hread0 Hdir Hnul].
  eapply total_bind; [apply (total_get _ _ (λ db w, (∀ p, valid db p → U p) ∧ (db_ok db ∧ sub_db db0 db) ∧
    working (valid db) stack done w ∧ db = ls_db (w_store w)))|].
  { intros w Hw. split_and!; [apply (work_below _ _ _ _ Hw)|apply (inv_ok _ _ _ _ _ _ _ (work_inv _ _ _ _ Hw))|
      apply (inv_sub _ _ _ _ _ _ _ (work_inv _ _ _ _ Hw))| |done].
    destruct Hw. by split. }
  intros db. apply total_pure. intros HU. apply total_pure. intros [Hok Hsub].
  eapply total_bind with (Q := λ _ w, working U stack done w ∧ ¬ valid (ls_db (w_store w)) path);
    [|intros size; by apply finish_path].
  destruct (isValidPath_ path db) eqn:Hv; [apply isValidPath_nul_free in Hv|apply isValidPath_false in Hv]; try done.
  2: { apply total_ret. intros w [Hw ->]. split; [|done]. by eapply working_weaken. }
  pose proof (sub_valid _ _ _ Hsub Hv) as Hv0.
  eapply total_bind; [apply (total_lift _ _ (λ refs w, (refs = queryReferrers_ path db) ∧
    working (valid db) (path :: stack) done w))|].
  { intros w [Hw ->]. unfold db_queryReferrers, assertStorePath. rewrite Hs. eexists. split; [done|]. split; [done|].
    destruct Hw. split; auto. intros x [->|Hx]%elem_of_cons; auto. }
  intros refs. apply total_pure. intros ->.
  assert (∀ i, i ∈ queryReferrers_ path db ↔ refers db i path) as Hrefs.
  { intros i. by rewrite queryReferrers_spec, c_str_id. }
  eapply total_bind with (Q := λ _ w, working (valid db) (path :: stack)
    (done ++ filter (.≠ path) (queryReferrers_ path db)) w).
  { eapply total_conseq; [apply (total_iter _ _
      (λ ds w, working (valid db) (path :: stack) (done ++ filter (.≠ path) ds) w) [])| |done].
    2: { intros w Hw. by rewrite app_nil_r. }
    intros i ds Hi. case_decide as Hne.
    - apply total_ret. intros w Hw. rewrite filter_app, filter_cons_False by auto. by rewrite app_nil_r.
    - apply Hrefs, (sub_refers _ _ Hsub) in Hi as [Hi _]. destruct (referrer_not_special _ _ Hi) as [? ?].
      eapply total_conseq; [apply (IH (valid db) i (path :: stack))|done|]; [|done|done| | |].
      + by eapply (refers_doomed settings db0 kd ko rootSet).
      + by apply delete_stack_push.
      + simpl. lia.
      + intros ? w [_ Hw]. by rewrite filter_app, filter_cons_True, filter_nil, (assoc (++)). }
  intros []. eapply total_bind; [apply (total_get _ _ (λ db' w, (valid db' path ∧ texts db' ∧ readable store db') ∧
    working (valid db) (path :: stack) done w ∧ ∀ q, refers (ls_db (w_store w)) q path → q = path))|].
  { intros w Hw. pose proof (inv_sub _ _ _ _ _ _ _ (work_inv _ _ _ _ Hw)) as Hsub'.
    pose proof (inv_ok _ _ _ _ _ _ _ (work_inv _ _ _ _ Hw)) as Hok'.
    split_and!; [apply (work_stack _ _ _ _ Hw); by left|by eapply sub_texts|by eapply sub_readable| |].
    - eapply working_weaken; [done|done|done|]. intros d ?. apply elem_of_app. by left.
    - intros q Hq. destruct (decide (q = path)) as [|Hne]; [done|exfalso].
      apply (sub_refers _ _ Hsub') in Hq as (Hq & Hvq & _).
      apply (work_done _ _ _ _ Hw q) in Hvq; [done|]. apply elem_of_app. right. apply list_elem_of_filter.
      split; [done|]. apply Hrefs, (sub_refers _ _ Hsub). split_and!; [done|by apply (work_below _ _ _ _ Hw)|done]. }
  intros db'. apply total_pure. intros (Hv' & Htext' & Hread').
  destruct (queryPathInfo_returns store path db') as [info Ei]; [done..|].
  eapply total_bind; [apply (total_lift _ _ (λ _ w, working (valid db) (path :: stack) done w ∧
    ∀ q, refers (ls_db (w_store w)) q path → q = path)); intros w Hw; by eexists|].
  intros info'. eapply total_bind; [by apply (total_invalidate U db)|]. intros []. by apply total_ret.
Qed.

(** ** The sweep *)

(** The lock file or chroot directory of a path being built. *)
Definition active (p : bytes) : Prop :=
  ∃ q, q ∈ tempSet ∧ (p = q ++ str ".lock" ∨ p = q ++ str ".chroot").

Definition settled (done : list bytes) (p : bytes) : Prop :=
  live0 p ∨ active p ∨ p = trash ∨ p = linksDir settings ∨ p ∈ done.

(** The paths [ds] have been considered. *)
Definition swept (ds : list bytes) (w : World) : Prop :=
  ∃ done, working (valid db0) [] done w ∧ ∀ p, p ∈ ds → settled done p.

Lemma swept_snoc done ds p w :
  working (valid db0) [] done w → (∀ p, p ∈ ds → settled done p) → settled done p → swept (ds ++ [p]) w.
Proof.
  intros Hw Hds Hp. exists done. split; [done|]. intros q [?|Hq%list_elem_of_singleton]%elem_of_app; [auto|]. by subst.
Qed.

Lemma isActiveTempFile_active s path suffix :
  tempRoots s = tempSet → suffix = str ".lock" ∨ suffix = str ".chroot" →
  isActiveTempFile s path suffix = true → active path.
Proof.
  intros Ht Hs. unfold isActiveTempFile, hasSuffix. rewrite !andb_true_iff, !bool_decide_eq_true, set_mem_spec, Ht.
  intros [[Hl Hd] Hin]. eexists. split; [exact Hin|].
  assert (path = take (length path - length suffix) path ++ suffix) as E by (by rewrite <-Hd at 2; rewrite take_drop).
  destruct Hs as [->| ->]; auto.
Qed.

Lemma working_state U stack done w s' :
  working U stack done w → inv (mkWorld (w_store w) (w_files w) (w_unlinked w) s') →
  tempRoots s' = tempRoots (w_state w) → shouldDelete s' = shouldDelete (w_state w) → options s' = options (w_state w) →
  working U stack done (mkWorld (w_store w) (w_files w) (w_unlinked w) s').
Proof. intros [] Hinv' E1 E2 E3. split; cbn [w_store w_files w_state]; try done; by rewrite ?E1, ?E2, ?E3. Qed.

Lemma total_tryToDelete depth path ds :
  gc_depth db0 <= depth → nul_free path → isStorePath store path = true →
  total (swept ds) (tryToDelete settings depth path) (λ _, swept (ds ++ [path])).
Proof.
  intros Hdepth Hn Hs. apply total_exists. intros done.
  apply (total_conseq _ _ (λ w, (∀ p, p ∈ ds → settled done p) ∧ working (valid db0) [] done w)
    _ (λ _, swept (ds ++ [path]))); [|by intros w [? ?]|done].
  apply total_pure. intros Hds. unfold tryToDelete.
  eapply total_bind; [by apply (total_get _ _ (λ s w, working (valid db0) [] done w ∧ s = w_state w))|]. intros s.
  case_decide as Hspec.
  { apply total_ret. intros w [Hw ->]. apply (swept_snoc done); [done|done|].
    rewrite (inv_trash _ _ _ _ _ _ _ (work_inv _ _ _ _ Hw)) in Hspec. unfold settled. tauto. }
  eapply total_bind; [by apply (total_get _ _ (λ db w, (working (valid db0) [] done w ∧ s = w_state w) ∧ db = ls_db (w_store w)))|].
  intros db. destruct (_ && _) eqn:Hact.
  { apply total_ret. intros w [[Hw ->] ->]. apply (swept_snoc done); [done|done|]. right; left.
    apply andb_true_iff in Hact as [_ [Ha|Ha]%orb_true_iff];
      (eapply isActiveTempFile_active; [apply (work_temp _ _ _ _ Hw)| |exact Ha]; auto). }
  eapply total_bind; [apply (total_lift _ _ (λ r w, (working (valid db0) [] done w ∧ s = w_state w) ∧
    canReachRoot settings depth (ls_db (w_store w)) (w_state w) [] path = Ret r))|].
  { intros w [[Hw ->] ->]. destruct Hready.
    destruct (canReachRoot_inv_returns settings db0 files0 kd ko rootSet) with (w := w) (depth := depth) (path := path)
      as [res E]; [done..|apply Hw|done|done|]. by exists res. }
  intros [[b s'] visited].
  eapply total_bind; [apply (total_modify _ _ (λ _ w, (path ≠ linksDir settings ∧ path ≠ trash ∧ shouldDelete s' = true) ∧
    working (valid db0) [] done w ∧
    if b then live0 path else (∀ x, x ∈ visited → ¬ live0 x) ∧ ¬ live0 path))|].
  { intros w [[Hw ->] E]. pose proof (work_inv _ _ _ _ Hw) as Hinv. destruct Hready.
    apply (canReachRoot_inv settings db0 files0 kd ko rootSet) in E as [(a & -> & Ha) E]; [|done..].
    split_and!.
    - intros ->. by apply Hspec; left.
    - intros ->. apply Hspec. right. symmetry. apply (inv_trash _ _ _ _ _ _ _ Hinv).
    - apply (work_delete _ _ _ _ Hw).
    - apply working_state; [done| |done..]. by apply inv_set_alive.
    - destruct b; [done|]. destruct E as [E1 E2]. split; [done|].
      destruct E2 as [?|E2]; [by apply E1|by apply (inv_dead _ _ _ _ _ _ _ Hinv)]. }
  intros []. apply total_pure. intros (Hl & Ht & Hdel). destruct b.
  { apply total_ret. intros w [Hw Hlive]. apply (swept_snoc done); [done|done|by left]. }
  eapply total_bind; [apply (total_modify _ _ (λ _ w, ¬ live0 path ∧ working (valid db0) [] done w))|].
  { intros w [Hw [Hvis Hp]]. split; [done|]. apply working_state; [done| |done..]. apply inv_set_dead; [apply Hw|].
    intros x [Hx|Hx]%elem_of_set_insert_all; [by apply Hvis|]. by apply (inv_dead _ _ _ _ _ _ _ (work_inv _ _ _ _ Hw)). }
  intros []. apply total_pure. intros Hp. rewrite Hdel.
  eapply total_conseq; [apply (total_deletePathRecursive depth (valid db0) path [] done)|done|]; [done|done|done| | |].
  - split; [constructor|]. intros x Hx. by apply not_elem_of_nil in Hx.
  - unfold gc_depth in Hdepth. simpl. lia.
  - intros ? w [_ Hw]. apply (swept_snoc (done ++ [path])); [done| |].
    + intros q Hq. destruct (Hds q Hq) as [?|[?|[?|[?|?]]]]; unfold settled; rewrite elem_of_app; tauto.
    + unfold settled. rewrite elem_of_app, list_elem_of_singleton. tauto.
Qed.

Definition entry_path (name : bytes) : bytes := store ++ str "/" ++ name.

(** The entries that the scan leaves for later. *)
Lemma total_scan_store depth names entries ds :
  gc_depth db0 <= depth → (∀ n, n ∈ names → entry_name n) →
  total (swept ds) (scan_store settings depth names entries)
    (λ es w, (∃ es', es = entries ++ es' ∧ ∀ p, p ∈ es' → ∃ n, n ∈ names ∧ p = entry_path n) ∧
       ∃ ds', swept ds' w ∧ (∀ p, p ∈ ds → p ∈ ds') ∧
       ∀ n, n ∈ names → n ≠ str "." → n ≠ str ".." → entry_path n ∈ es ∨ entry_path n ∈ ds').
Proof.
  intros Hdepth. revert entries ds. induction names as [|n names IH]; intros entries ds Hok; cbn [scan_store].
  { apply total_ret. intros w Hw. split; [exists []; rewrite app_nil_r; split; [done|set_solver]|].
    exists ds. split_and!; [done|done|set_solver]. }
  assert (∀ m, m ∈ names → entry_name m) as Hok' by (intros m Hm; apply Hok; by right).
  destruct Hready as [_ _ _ Hdir Hnul].
  destruct (name_store_path settings Hdir Hnul n (Hok n (list_elem_of_here _ _))) as [Hp1 Hp2].
  case_decide as Hdot.
  { eapply total_conseq; [by apply IH|done|]. intros es w [(es' & -> & Hes) (ds' & Hw & Hds & Hn)].
    split; [exists es'; split; [done|]; intros p [m [? ?]]%Hes; exists m; split; [by right|done]|].
    exists ds'. split_and!; [done|done|]. intros m [->|Hm]%elem_of_cons; [tauto|auto]. }
  eapply total_bind; [by apply (total_get _ _ (λ _, swept ds))|]. intros db. destruct (isValidPath_ _ db).
  - eapply total_conseq; [by apply (IH (entries ++ [entry_path n]))|done|].
    intros es w [(es' & -> & Hes) (ds' & Hw & Hds & Hn)].
    split.
    + exists (entry_path n :: es'). split; [by rewrite <-(assoc (++))|].
      intros p [->|Hp]%elem_of_cons; [exists n; split; [by left|done]|].
      apply Hes in Hp as [m [? ?]]. exists m. split; [by right|done].
    + exists ds'. split_and!; [done|done|]. intros m [->|Hm]%elem_of_cons; [|auto]. left. set_solver.
  - eapply total_bind; [by apply total_tryToDelete|]. intros [].
    eapply total_conseq; [by apply (IH entries (ds ++ [entry_path n]))|done|].
    intros es w [(es' & -> & Hes) (ds' & Hw & Hds & Hn)].
    split; [exists es'; split; [done|]; intros p [m [? ?]]%Hes; exists m; split; [by right|done]|].
    exists ds'. split_and!; [done|intros p Hp; apply Hds; set_solver|].
    intros m [->|Hm]%elem_of_cons; [|auto]. right. apply Hds. set_solver.
Qed.

(** Every entry that was in the store directory has been considered. *)
Definition all_settled (files : Files) (w : World) : Prop :=
  ∃ done, working (valid db0) [] done w ∧
    ∀ n, entry_name n → n ≠ str "." → n ≠ str ".." → is_Some (files !! entry_path n) → settled done (entry_path n).

Lemma total_delete_all depth files :
  gc_depth db0 <= depth →
  total (λ w, w_files w = files ∧ working (valid db0) [] [] w) (delete_all settings depth) (λ _, all_settled files).
Proof.
  intros Hdepth. unfold delete_all.
  eapply total_bind; [apply (total_lift _ _ (λ _ w, w_files w = files ∧ working (valid db0) [] [] w))|].
  { intros w Hw. rewrite (works_opendir _ _ Hworks). by exists (). }
  intros []. eapply total_bind; [apply (total_get _ _ (λ names w, (names = readdir files store) ∧ swept [] w))|].
  { intros w [-> Hw]. split; [done|]. exists []. split; [done|set_solver]. }
  intros names. apply total_pure. intros ->.
  assert (∀ n, n ∈ readdir files store → entry_name n) as Hok by (intros n; apply readdir_name).
  destruct Hready as [_ _ _ Hdir Hnul].
  eapply total_bind; [by apply total_scan_store|]. intros es. apply total_pure. intros (es' & -> & Hes). cbn [app].
  apply total_exists. intros ds. apply (total_conseq _ _ (λ w,
    (∀ n, n ∈ readdir files store → n ≠ str "." → n ≠ str ".." → entry_path n ∈ es' ∨ entry_path n ∈ ds) ∧ swept ds w)
    _ (λ _, all_settled files)); [|intros w (? & _ & ?); done|done].
  apply total_pure. intros Hn.
  eapply total_conseq; [apply (total_iter _ _ swept ds)|done|].
  - intros p ds' Hp. rewrite shuffle_permutes in Hp. apply Hes in Hp as (n & Hin & ->).
    destruct (name_store_path settings Hdir Hnul n (Hok n Hin)). by apply total_tryToDelete.
  - intros [] w (done & Hw & Hd). exists done. split; [done|]. intros n Hno Hd1 Hd2 Hf. apply Hd, elem_of_app.
    rewrite shuffle_permutes. destruct (Hn n); [by apply (works_readdir _ _ Hworks)|done|done|by right|by left].
Qed.

(** ** Before and after the sweep *)

Lemma total_prepare_trash :
  total (λ w, inv w ∧ ls_db (w_store w) = db0 ∧ w_files w = files0 ∧
      tempRoots (w_state w) = tempSet ∧ shouldDelete (w_state w) = true ∧
      maxFreed (options (w_state w)) = ULLONG_MAX)
    (prepare_trash settings)
    (λ _ w, working (valid db0) [] [] w ∧ ∀ p, p ≠ trash → w_files w !! p = files0 !! p).
Proof.
  intros w (Hinv & Edb & Ef & Htmp & Hdel & Hmax).
  assert (∃ w', prepare_trash settings w = (Ret (), w') ∧ w_store w' = w_store w ∧
    (∀ p, p ≠ trash → w_files w' !! p = w_files w !! p) ∧ w_files w' !! trash = Some (NDir []) ∧
    same_rest (w_state w) (w_state w')) as (w' & E & Es & Hf & Ht & Hrest).
  { unfold prepare_trash. unfold mbind at 1, G_bind at 1. cbn [gget].
    rewrite (inv_trash _ _ _ _ _ _ _ Hinv). unfold gpathExists.
    rewrite c_str_id by (apply trash_nul_free, Hready). rewrite (works_lstat _ _ Hworks), (works_createDirs _ _ Hworks).
    unfold mbind at 1, G_bind at 1. unfold mbind at 1, G_bind at 1. unfold glift at 1. cbn [gget].
    destruct (w_files w !! trash) as [n|] eqn:En.
    - rewrite bool_decide_eq_true_2 by done. destruct (deleteGarbage_runs trash n w) as [f E];
        [apply trash_nul_free, Hready|done|]. unfold mbind, G_bind. rewrite E. eexists. split; [reflexivity|].
      cbn [w_store w_files w_state]. split_and!; [done| |apply lookup_insert_eq|apply add_freed_rest].
      intros p Hp. by rewrite lookup_insert_ne, lookup_delete_ne by done.
    - rewrite bool_decide_eq_false_2 by (by intros [_ [? ?]]). unfold mbind, G_bind, mret, G_ret.
      eexists. split; [reflexivity|]. cbn [w_store w_files w_state].
      split_and!; [done| |apply lookup_insert_eq|by repeat split]. intros p Hp. by rewrite lookup_insert_ne. }
  assert (inv w') as Hinv'.
  { destruct Hready. eapply (safe_prepare_trash settings db0 files0 kd ko rootSet) in E as [? _]; done. }
  exists (), w'. split; [done|]. destruct Hrest as (_ & R1 & R2 & R3). split.
  - split; [done|by exists []| | |congruence|congruence|congruence|congruence|set_solver|set_solver].
    + rewrite Hf by apply links_not_trash. by rewrite Ef.
    + intros p Hp. rewrite Hf by done. by rewrite Ef.
  - intros p Hp. rewrite Hf by done. by rewrite Ef.
Qed.

Lemma entry_unique (l : list (bytes * Node)) x n m :
  NoDup l.*1 → (x, n) ∈ l → (x, m) ∈ l → n = m.
Proof.
  intros Hnd [i Hi]%list_elem_of_lookup_1 [j Hj]%list_elem_of_lookup_1.
  assert (i = j) as ->; [|congruence].
  eapply (NoDup_lookup l.*1); [done|by rewrite list_lookup_fmap, Hi|by rewrite list_lookup_fmap, Hj].
Qed.

Lemma list_find_unique (l : list (bytes * Node)) x n :
  NoDup l.*1 → (x, n) ∈ l → ∃ k, list_find (λ e, e.1 = x) l = Some (k, (x, n)).
Proof.
  intros Hnd Hin. destruct (list_find_elem_of (λ e, e.1 = x) l (x, n) Hin eq_refl) as [[k e] E].
  exists k. rewrite E. apply list_find_Some in E as (Hk & Hx & _). destruct e as [x' n']. simpl in Hx. subst x'.
  do 2 f_equal. apply list_elem_of_lookup_2 in Hk. f_equal. by eapply entry_unique.
Qed.

Section links.
Variables (st : LocalStore) (files : Files) (links : list (bytes * Node)).
Hypothesis Hfiles : ∀ e, e ∈ links → is_dir e.2 = false ∧ e.1 ≠ str "." ∧ e.1 ≠ str "..".
Hypothesis Hunique : NoDup links.*1.

(** The links left when the names [ds] have been looked at. *)
Definition links_left (ds : list bytes) : list (bytes * Node) := filter (λ e, e.1 ∈ ds → used_link e) links.

Definition links_state (ds : list bytes) (w : World) : Prop :=
  w_store w = st ∧ (∀ p, p ≠ linksDir settings → w_files w !! p = files !! p) ∧
  w_files w !! linksDir settings = Some (NDir (links_left ds)).

Lemma links_left_same ds x :
  (∀ e, e ∈ links → e.1 = x → used_link e) → links_left (ds ++ [x]) = links_left ds.
Proof.
  intros Hx. apply filter_ext_in. intros e He. rewrite elem_of_app, list_elem_of_singleton. split; [tauto|].
  intros Hd [?|?]; auto.
Qed.

Lemma links_left_drop ds x n :
  (x, n) ∈ links → ¬ used_link (x, n) → filter (λ e, e.1 ≠ x) (links_left ds) = links_left (ds ++ [x]).
Proof.
  intros Hin Hun. unfold links_left. rewrite list_filter_filter. apply filter_ext_in. intros [y m] He.
  rewrite elem_of_app, list_elem_of_singleton. cbn [fst]. split; [tauto|]. intros Hd. split; [|tauto].
  intros ->. assert (m = n) as -> by (by eapply entry_unique). by auto.
Qed.

Lemma links_left_lookup ds x n : (x, n) ∈ links → x ∉ ds →
  ∃ k, list_find (λ e, e.1 = x) (links_left ds) = Some (k, (x, n)).
Proof.
  intros Hin Hx. apply list_find_unique.
  - eapply sublist_NoDup; [exact Hunique|]. apply fmap_sublist, sublist_filter.
  - apply list_elem_of_filter. split; [|done]. cbn [fst]. done.
Qed.

Lemma total_removeUnusedLinks_entry ds x :
  x ∉ ds → x = str "." ∨ x = str ".." ∨ x ∈ links.*1 →
  total (links_state ds) (removeUnusedLinks_entry settings x) (λ _, links_state (ds ++ [x])).
Proof.
  intros Hx Hname. unfold removeUnusedLinks_entry. case_decide as Hdot.
  { apply total_ret. intros w (E1 & E2 & E3). split_and!; [done|done|]. rewrite links_left_same; [done|].
    intros e He <-. destruct (Hfiles e He) as (_ & ? & ?). tauto. }
  assert (∃ n, (x, n) ∈ links) as [n Hn].
  { destruct Hname as [?|[?|([y n] & -> & Hn)%list_elem_of_fmap]]; [tauto|tauto|by exists n]. }
  destruct (links_left_lookup ds x n Hn Hx) as [k Ek]. rewrite (works_lstat _ _ Hworks).
  eapply total_bind; [apply (total_lift _ _ (λ _, links_state ds)); by exists ()|]. intros [].
  eapply total_bind; [apply (total_get _ _ (λ node w, node = Some n ∧ links_state ds w))|].
  { intros w (E1 & E2 & E3). split; [|by split_and!]. unfold dir_entry. rewrite E3, Ek. done. }
  intros node. apply total_pure. intros ->.
  destruct n as [size nlink|es]; [|by destruct (Hfiles _ Hn) as [? _]].
  destruct (unused_link size nlink) eqn:Eu.
  - rewrite (works_unlink _ _ Hworks). eapply total_bind; [apply (total_lift _ _ (λ _, links_state ds)); by exists ()|].
    intros []. eapply total_bind; [apply (total_files _ _ (λ _, links_state (ds ++ [x])))|].
    { intros w (E1 & E2 & E3). unfold remove_entry. rewrite E3. split_and!; [done| |].
      - intros p Hp. cbn [w_files]. rewrite lookup_insert_ne by done. by apply E2.
      - cbn [w_files]. rewrite lookup_insert_eq. do 2 f_equal. eapply links_left_drop; [done|].
        unfold used_link. cbn [snd]. by rewrite Eu. }
    intros []. by apply total_modify.
  - apply total_ret. intros w (E1 & E2 & E3). split_and!; [done|done|]. rewrite links_left_same; [done|].
    intros [y m] He Hy. simpl in Hy. subst y. destruct (decide (used_link (x, m))) as [|Hun]; [done|].
    exfalso. apply Hun. rewrite (entry_unique links x m (NFile size nlink)) by done.
    unfold used_link. by cbn [snd].
Qed.

Lemma links_left_all names : (∀ x, x ∈ links.*1 → x ∈ names) → links_left names = filter used_link links.
Proof.
  intros Hall. apply filter_ext_in. intros e He. split; [|done]. intros Hu. apply Hu, Hall, list_elem_of_fmap. by exists e.
Qed.

(** What readdir says about the links. *)
Definition links_listed (names : list bytes) : Prop :=
  NoDup names ∧ (∀ x, x ∈ names → x = str "." ∨ x = str ".." ∨ x ∈ links.*1) ∧ (∀ x, x ∈ links.*1 → x ∈ names).

Lemma total_removeUnusedLinks :
  total (λ w, links_state [] w ∧ links_listed (readdir (w_files w) (linksDir settings)))
    (removeUnusedLinks settings)
    (λ _ w, w_store w = st ∧ (∀ p, p ≠ linksDir settings → w_files w !! p = files !! p) ∧
       w_files w !! linksDir settings = Some (NDir (filter used_link links))).
Proof.
  unfold removeUnusedLinks. eapply total_bind; [apply (total_lift _ _ (λ _ w, links_state [] w ∧
    links_listed (readdir (w_files w) (linksDir settings))))|].
  { intros w Hw. rewrite (works_opendir _ _ Hworks). by exists (). }
  intros []. eapply total_bind; [apply (total_get _ _ (λ names w, links_listed names ∧ links_state [] w))|].
  { by intros w [? ?]. }
  intros names. apply total_pure. intros (Hnd & Hnames & Hall).
  eapply total_bind; [apply (total_iter_prefix _ _ links_state)|].
  { intros pre x post ->. apply NoDup_app in Hnd as (_ & Hdis & _). apply total_removeUnusedLinks_entry.
    - intros Hx. apply (Hdis x Hx). by left.
    - apply Hnames, elem_of_app. right. by left. }
  intros []. apply total_lift. intros w (E1 & E2 & E3). rewrite (works_lstat _ _ Hworks). exists (). split; [done|].
  by rewrite E3, links_left_all.
Qed.
End links.

(** ** The whole collection *)

(** What a collection leaves behind. *)
Record collected (links : list (bytes * Node)) (w : World) : Prop := {
  coll_swept n : entry_name n → n ≠ str "." → n ≠ str ".." → is_Some (files0 !! entry_path n) →
    live0 (entry_path n) ∨ active (entry_path n) ∨ entry_path n = trash ∨ entry_path n = linksDir settings ∨
    ¬ valid (ls_db (w_store w)) (entry_path n) ∧ w_files w !! entry_path n = None;
  coll_files p : is_Some (w_files w !! p) → is_Some (files0 !! p);
  coll_trash : w_files w !! trash = None;
  coll_links : w_files w !! linksDir settings = Some (NDir (filter used_link links))
}.

Definition started (w : World) : Prop :=
  inv w ∧ ls_db (w_store w) = db0 ∧ w_files w = files0 ∧ tempRoots (w_state w) = tempSet ∧
  shouldDelete (w_state w) = true ∧ maxFreed (options (w_state w)) = ULLONG_MAX.

(** Emptying the trash and the links at the end. *)
Lemma total_finish links :
  files0 !! linksDir settings = Some (NDir links) →
  total (λ w, ∃ files1, (∀ p, p ≠ trash → files1 !! p = files0 !! p) ∧ all_settled files1 w)
    (t ← gget (λ w, trashDir (w_state w)); deleteGarbage settings t;; removeUnusedLinks settings)
    (λ _, collected links).
Proof.
  intros Hlk w (files1 & Hf1 & done & Hw & Hset).
  pose proof (work_inv _ _ _ _ Hw) as Hinv. destruct (work_trash _ _ _ _ Hw) as [es Hes].
  unfold mbind at 1, G_bind at 1. cbn [gget]. rewrite (inv_trash _ _ _ _ _ _ _ Hinv).
  destruct (deleteGarbage_runs trash (NDir es) w) as [f E]; [apply trash_nul_free, Hready|done|].
  unfold mbind, G_bind. rewrite E. set (w1 := mkWorld _ _ _ _).
  destruct (works_links _ _ Hworks) as (links' & Hlk' & Hfl & Hnd & Hrd).
  assert (links' = links) as -> by congruence. clear Hlk'.
  assert (w_files w1 !! linksDir settings = Some (NDir links)) as Hlk1.
  { cbn [w_files w1]. rewrite lookup_delete_ne by (apply not_eq_sym, links_not_trash). by rewrite (work_links _ _ _ _ Hw). }
  destruct (total_removeUnusedLinks (w_store w) (delete trash (w_files w)) links Hfl Hnd w1)
    as ([] & w2 & E2 & Est & Hfiles & Hleft).
  { split; [|by apply Hrd]. split_and!; [done|done|]. rewrite Hlk1. do 2 f_equal. unfold links_left.
    symmetry. apply filter_all. intros e _ Hin. by apply not_elem_of_nil in Hin. }
  exists (), w2. split; [exact E2|]. split.
  - intros n Hn Hd1 Hd2 Hin. destruct (decide (entry_path n = trash)) as [|Ht]; [tauto|].
    destruct (decide (entry_path n = linksDir settings)) as [|Hl]; [tauto|].
    destruct (Hset n Hn Hd1 Hd2) as [?|[?|[?|[?|Hd]]]]; [by rewrite Hf1|tauto..|].
    do 4 right. destruct (work_done _ _ _ _ Hw _ Hd) as (_ & G2 & G3). rewrite Est. split; [done|].
    rewrite Hfiles by done. by rewrite lookup_delete_ne.
  - intros p Hp. destruct (decide (p = linksDir settings)) as [->|Hne]; [by rewrite Hlk|].
    rewrite Hfiles in Hp by done. apply lookup_delete_is_Some in Hp as [Hpt Hp].
    apply (work_files _ _ _ _ Hw); [by apply not_eq_sym|done].
  - rewrite Hfiles by (apply not_eq_sym, links_not_trash). apply lookup_delete_eq.
  - done.
Qed.

Lemma total_collect depth opts links :
  gc_depth db0 <= depth → action opts = gcDeleteDead → maxFreed opts = ULLONG_MAX →
  files0 !! linksDir settings = Some (NDir links) →
  total started (collect settings depth opts) (λ _, collected links).
Proof.
  intros Hdepth Hact Hmax Hlk. unfold collect. rewrite Hact.
  eapply total_bind; [apply (total_get _ _ (λ d w, d = true ∧ started w))|].
  { intros w Hw. split; [apply Hw|done]. }
  intros d. apply total_pure. intros ->. eapply total_bind; [apply total_prepare_trash|]. intros [].
  rewrite !decide_False by done. rewrite Hmax. rewrite decide_True by done.
  eapply total_bind with (Q := λ _ w, ∃ files1, (∀ p, p ≠ trash → files1 !! p = files0 !! p) ∧ all_settled files1 w);
    [|intros []; by apply total_finish].
  intros w [Hw Hf]. destruct (total_delete_all depth (w_files w) Hdepth w (conj eq_refl Hw)) as ([] & w' & E & Hs).
  exists (), w'. unfold gcatch. rewrite E. split; [done|]. by exists (w_files w).
Qed.
End complete.

(** * Properties *)


(** ** Witnesses and examples *)

(** Everything but b, junk and the unused link stays. *)
Example collectGarbage_runs :
  let '(r, w) := sample_collect None (sample_options gcDeleteDead []) in
  r = Ret () ∧ queryAllValidPaths (ls_db (w_store w)) = [str "/gnu/store/a"; str "/gnu/store/c"] ∧
  set_of_list (map_to_list (w_files w)).*1 =
    [str "/gnu/store/.links"; str "/gnu/store/a"; str "/gnu/store/c"; str "/gnu/store/x.lock"] ∧
  w_files w !! str "/gnu/store/.links" = Some (NDir [(str "used", NFile 9000 2)]) ∧
  res_paths (results (w_state w)) = [str "/gnu/store/b"; str "/gnu/store/junk"].
Proof. vm_compute. done. Qed.

(** When the disk is too full to create the trash directory the paths are
    deleted directly, but then the removal of the trash at the end throws, and
    the unused links are never cleaned up. *)
Theorem full_disk_collection_throws :
  let '(r, w) := sample_collect (Some ENOSPC) (sample_options gcDeleteDead []) in
  r = Throw (SysError ENOENT "getting status") ∧
  queryAllValidPaths (ls_db (w_store w)) = [str "/gnu/store/a"; str "/gnu/store/c"] ∧
  w_files w !! str "/gnu/store/.links" = Some (NDir sample_links_dir).
Proof. vm_compute. done. Qed.

(** A path with a NUL passes [assertStorePath] and is not among the roots, but
    SQLite and the system see only what precedes the NUL: gcDeleteSpecific
    deletes the root c. *)
Theorem nul_path_deletes_root :
  let '(r, w) := sample_collect None
    (sample_options gcDeleteSpecific [str "/gnu/store/c" ++ [Byte.x00] ++ str "x"]) in
  r = Ret () ∧
  queryAllValidPaths (ls_db (w_store w)) = [str "/gnu/store/a"; str "/gnu/store/b"] ∧
  w_files w !! str "/gnu/store/c" = None.
Proof. vm_compute. done. Qed.

Lemma elem_of_names_in files dir name : is_Some (files !! (dir ++ str "/" ++ name)) → name ∈ names_in files dir.
Proof.
  intros [n Hn]. unfold names_in. apply list_elem_of_omap. exists (dir ++ str "/" ++ name, n).
  split; [by apply elem_of_map_to_list|]. cbn [fst].
  assert (length (dir ++ str "/") = length dir + 1) as El by (by rewrite length_app).
  assert (dir ++ str "/" ++ name = (dir ++ str "/") ++ name) as -> by (by rewrite (assoc_L (++))).
  rewrite <-El, take_app_length, drop_app_length. by rewrite decide_True.
Qed.

Lemma sample_works : @os_works (sample_gcos None) sample_settings sample_files.
Proof.
  split; try done.
  - intros files name Hf Hn. cbn [readdir sample_gcos]. apply list_elem_of_filter. split; [done|].
    rewrite decide_True by done. by apply elem_of_names_in.
  - exists sample_links_dir. split; [vm_compute; reflexivity|].
    split; [|split; [apply (bool_decide_unpack _); vm_compute; exact I|]].
    + intros e He. unfold sample_links_dir in He. rewrite !elem_of_cons in He.
      destruct He as [->|[->|He]]; [split_and!; [done|concrete..]..|]. by apply not_elem_of_nil in He.
    + intros files Hf. cbn [readdir sample_gcos]. rewrite decide_False by concrete. rewrite Hf. split_and!.
      * apply NoDup_filter. apply (bool_decide_unpack _). vm_compute. exact I.
      * intros name [_ ?]%list_elem_of_filter. by right; right.
      * intros name Hin. apply list_elem_of_filter. split; [|done]. revert name Hin. apply Forall_forall.
        apply (bool_decide_unpack _). vm_compute. exact I.
Qed.

Lemma sample_not_valid p : bool_decide (is_Some (find_row (ls_db sample_db) p)) = false → ¬ valid (ls_db sample_db) p.
Proof. intros E%bool_decide_eq_false. apply find_row_None, eq_None_not_Some. done. Qed.

