(* ===== verification/Locks.v ===== *)
(** libstore/pathlocks.cc: locks on store paths, shared by processes.

    A lock file is an inode with a write lock (fcntl) and a length; names are
    linked to inodes. Processes run the system calls of [PathLocks::lockPaths]
    and [PathLocks::unlock] one at a time, in any interleaving. Reading the
    code, a process may have several [PathLocks] objects; the descriptors they
    hold are kept in one list, tagged with their object. *)

From stdpp Require Import functions.
From S2P Require Import Prelude Containers Serialise.

(** * The system *)

Abbreviation pid := nat.

Record Inode := mkInode {
  ino_path : bytes;                        (* the name it was created with *)
  ino_lock : option pid;                   (* who has the write lock *)
  ino_stale : bool                         (* its length is not zero *)
}.

(** [FDPair] of the object [fd_owner]; the lock file is [fd_path]. *)
Record HeldLock := mkHeldLock { fd_owner : nat; fd_inode : nat; fd_path : bytes }.

#[global] Instance HeldLock_eq_dec : EqDecision HeldLock.
Proof. solve_decision. Defined.

(** Where [unlock] is with the first of the remaining locks: before
    [deleteLockFile], between its [unlink] and its [writeFull], or before
    [close]. *)
Inductive UnlockStage := UBegin | UWrite | UClose.

(** What a process does next. *)
Inductive Pc :=
  | PIdle
  | PNext (obj : nat) (todo : list bytes) (wait : bool)
  | POpen (obj : nat) (lockPath : bytes) (todo : list bytes) (wait : bool)
  | PLock (obj : nat) (fd : nat) (lockPath : bytes) (todo : list bytes) (wait : bool)
  | PWait (obj : nat) (fd : nat) (lockPath : bytes) (todo : list bytes)
  | PCheck (obj : nat) (fd : nat) (lockPath : bytes) (todo : list bytes) (wait : bool)
  | PUnlock (obj : nat) (rest : list HeldLock) (stage : UnlockStage).

Record Proc := mkProc {
  p_pc : Pc;
  p_fds : list HeldLock;
  p_deletePaths : nat → bool;              (* by object *)
  p_lockedPaths : list bytes               (* the static set of the process *)
}.

Record Sys := mkSys {
  names : gmap bytes nat;
  inodes : gmap nat Inode;
  procs : pid → Proc
}.

(** ** System calls on lock files *)

Definition upd_inode (i : nat) (f : Inode → Inode) (s : Sys) : Sys :=
  mkSys (names s) (alter f i (inodes s)) (procs s).
Definition upd_proc (k : pid) (p : Proc) (s : Sys) : Sys :=
  mkSys (names s) (inodes s) (<[k := p]> (procs s)).

(** [openLockFile(path, true)], when the file does not exist. *)
Definition create_lock_file (path : bytes) (i : nat) (s : Sys) : Sys :=
  mkSys (<[path := i]> (names s)) (<[i := mkInode path None false]> (inodes s)) (procs s).
(** [lockFile(fd, ltWrite, ...)], when it succeeds; and closing a descriptor. *)
Definition acquire (k : pid) (i : nat) : Sys → Sys :=
  upd_inode i (λ n, mkInode (ino_path n) (Some k) (ino_stale n)).
Definition release (i : nat) : Sys → Sys :=
  upd_inode i (λ n, mkInode (ino_path n) None (ino_stale n)).
(** The two halves of [deleteLockFile]. *)
Definition unlink_name (path : bytes) (s : Sys) : Sys := mkSys (delete path (names s)) (inodes s) (procs s).
Definition write_token (i : nat) : Sys → Sys :=
  upd_inode i (λ n, mkInode (ino_path n) (ino_lock n) true).

(** The kernel closes the descriptors of a process that ends. *)
Definition release_all (k : pid) (s : Sys) : Sys :=
  mkSys (names s)
    ((λ n, if decide (ino_lock n = Some k) then mkInode (ino_path n) None (ino_stale n) else n) <$> inodes s)
    (procs s).

Definition set_pc (pc : Pc) (p : Proc) : Proc := mkProc pc (p_fds p) (p_deletePaths p) (p_lockedPaths p).
Definition proc0 : Proc := mkProc PIdle [] (λ _, false) [].

Definition locked_by (s : Sys) (i : nat) : option pid := inodes s !! i ≫= ino_lock.
Definition stale_inode (s : Sys) (i : nat) : bool := default false (ino_stale <$> inodes s !! i).

(** [pathIsLockedByMe] *)
Definition pathIsLockedByMe (p : Proc) (path : bytes) : bool :=
  set_mem (path ++ str ".lock") (p_lockedPaths p).

(** [fds.push_back(...)] and [lockedPaths.insert(lockPath)] *)
Definition hold (h : HeldLock) (pc : Pc) (p : Proc) : Proc :=
  mkProc pc (p_fds p ++ [h]) (p_deletePaths p) (set_insert (fd_path h) (p_lockedPaths p)).
(** [lockedPaths.erase(i->second)]; the descriptor is closed. *)
Definition drop_lock (h : HeldLock) (pc : Pc) (p : Proc) : Proc :=
  mkProc pc (filter (.≠ h) (p_fds p)) (p_deletePaths p) (set_erase (fd_path h) (p_lockedPaths p)).

(** The locks of one object, in the order in which they were acquired. *)
Definition locks_of (o : nat) (p : Proc) : list HeldLock := filter (λ h, fd_owner h = o) (p_fds p).

(** * Steps *)

(** One step of process [k]. The paths given to [lockPaths] are those of the
    lock files, [path + ".lock"], in the order of the sorted paths. *)
Inductive lock_step (k : pid) (s : Sys) : Sys → Prop :=
  (* lockPaths *)
  | step_lockPaths o paths wait :
      p_pc (procs s k) = PIdle → locks_of o (procs s k) = [] →
      lock_step k s (upd_proc k (set_pc (PNext o ((λ p, p ++ str ".lock") <$> paths) wait) (procs s k)) s)
  | step_return_true o wait :
      p_pc (procs s k) = PNext o [] wait →
      lock_step k s (upd_proc k (set_pc PIdle (procs s k)) s)
  | step_self_held o x todo wait :
      p_pc (procs s k) = PNext o (x :: todo) wait → x ∈ p_lockedPaths (procs s k) →
      lock_step k s (upd_proc k (set_pc (PUnlock o (locks_of o (procs s k)) UBegin) (procs s k)) s)
  | step_next o x todo wait :
      p_pc (procs s k) = PNext o (x :: todo) wait → x ∉ p_lockedPaths (procs s k) →
      lock_step k s (upd_proc k (set_pc (POpen o x todo wait) (procs s k)) s)
  | step_open o x todo wait i :
      p_pc (procs s k) = POpen o x todo wait → names s !! x = Some i →
      lock_step k s (upd_proc k (set_pc (PLock o i x todo wait) (procs s k)) s)
  | step_create o x todo wait i :
      p_pc (procs s k) = POpen o x todo wait → names s !! x = None → inodes s !! i = None →
      lock_step k s (upd_proc k (set_pc (PLock o i x todo wait) (procs s k)) (create_lock_file x i s))
  | step_lock o i x todo wait :
      p_pc (procs s k) = PLock o i x todo wait → locked_by s i = None →
      lock_step k s (upd_proc k (set_pc (PCheck o i x todo wait) (procs s k)) (acquire k i s))
  | step_must_wait o i x todo q :
      p_pc (procs s k) = PLock o i x todo true → locked_by s i = Some q → q ≠ k →
      lock_step k s (upd_proc k (set_pc (PWait o i x todo) (procs s k)) s)
  | step_return_false o i x todo q :
      p_pc (procs s k) = PLock o i x todo false → locked_by s i = Some q → q ≠ k →
      lock_step k s (upd_proc k (set_pc (PUnlock o (locks_of o (procs s k)) UBegin) (procs s k)) s)
  | step_wait_over o i x todo :
      p_pc (procs s k) = PWait o i x todo → locked_by s i = None →
      lock_step k s (upd_proc k (set_pc (PCheck o i x todo true) (procs s k)) (acquire k i s))
  | step_stale o i x todo wait :
      p_pc (procs s k) = PCheck o i x todo wait → stale_inode s i = true →
      lock_step k s (upd_proc k (set_pc (POpen o x todo wait) (procs s k)) (release i s))
  | step_hold o i x todo wait :
      p_pc (procs s k) = PCheck o i x todo wait → stale_inode s i = false →
      lock_step k s (upd_proc k (hold (mkHeldLock o i x) (PNext o todo wait) (procs s k)) s)
  (* setDeletion and unlock *)
  | step_setDeletion o b :
      p_pc (procs s k) = PIdle →
      lock_step k s (upd_proc k (mkProc PIdle (p_fds (procs s k)) (<[o := b]> (p_deletePaths (procs s k)))
        (p_lockedPaths (procs s k))) s)
  | step_unlock o :
      p_pc (procs s k) = PIdle →
      lock_step k s (upd_proc k (set_pc (PUnlock o (locks_of o (procs s k)) UBegin) (procs s k)) s)
  | step_unlink o h rest :
      p_pc (procs s k) = PUnlock o (h :: rest) UBegin → p_deletePaths (procs s k) o = true →
      lock_step k s (upd_proc k (set_pc (PUnlock o (h :: rest) UWrite) (procs s k)) (unlink_name (fd_path h) s))
  | step_unlink_fails o h rest :
      p_pc (procs s k) = PUnlock o (h :: rest) UBegin → p_deletePaths (procs s k) o = true →
      lock_step k s (upd_proc k (set_pc (PUnlock o (h :: rest) UWrite) (procs s k)) s)
  | step_token o h rest :
      p_pc (procs s k) = PUnlock o (h :: rest) UWrite →
      lock_step k s (upd_proc k (set_pc (PUnlock o (h :: rest) UClose) (procs s k)) (write_token (fd_inode h) s))
  | step_keep_file o h rest :
      p_pc (procs s k) = PUnlock o (h :: rest) UBegin → p_deletePaths (procs s k) o = false →
      lock_step k s (upd_proc k (set_pc (PUnlock o (h :: rest) UClose) (procs s k)) s)
  | step_close o h rest :
      p_pc (procs s k) = PUnlock o (h :: rest) UClose →
      lock_step k s (upd_proc k (drop_lock h (PUnlock o rest UBegin) (procs s k)) (release (fd_inode h) s))
  | step_unlocked o :
      p_pc (procs s k) = PUnlock o [] UBegin →
      lock_step k s (upd_proc k (set_pc PIdle (procs s k)) s).

(** The end of a process, by exit or a signal. *)
Definition exit_step (k : pid) (s : Sys) : Sys := upd_proc k proc0 (release_all k s).

(** A process is between the two halves of [deleteLockFile]. *)
Definition deleting (p : Proc) : Prop := ∃ o h rest, p_pc p = PUnlock o (h :: rest) UWrite.

(** Runs in which no process is killed between these two halves. *)
Inductive sys_step (s : Sys) : Sys → Prop :=
  | sys_lock k s' : lock_step k s s' → sys_step s s'
  | sys_exit k : ¬ deleting (procs s k) → sys_step s (exit_step k s).

Definition initial : Sys := mkSys ∅ ∅ (λ _, proc0).

(** [k] has the lock on [x]: [lockPaths] acquired it and [unlock] has not begun
    to give it up. *)
Definition giving_up (pc : Pc) (h : HeldLock) : Prop :=
  ∃ o rest st, pc = PUnlock o (h :: rest) st ∧ st ≠ UBegin.
Definition holds (s : Sys) (k : pid) (x : bytes) : Prop :=
  ∃ h, h ∈ p_fds (procs s k) ∧ fd_path h = x ∧ ¬ giving_up (p_pc (procs s k)) h.

(** * The invariant *)

Definition inode_at (s : Sys) (i : nat) (x : bytes) (owner : option pid) : Prop :=
  ∃ n, inodes s !! i = Some n ∧ ino_path n = x ∧ (owner ≠ None → ino_lock n = owner).

Definition held_ok (s : Sys) (k : pid) (p : Proc) (h : HeldLock) : Prop :=
  inode_at s (fd_inode h) (fd_path h) (Some k) ∧
  (¬ giving_up (p_pc p) h →
     names s !! fd_path h = Some (fd_inode h) ∧ stale_inode s (fd_inode h) = false).

Definition pc_ok (s : Sys) (k : pid) (p : Proc) : Prop :=
  match p_pc p with
  | PIdle | PNext _ _ _ => True
  | POpen _ x _ _ => x ∉ p_lockedPaths p
  | PLock _ i x _ _ | PWait _ i x _ => x ∉ p_lockedPaths p ∧ inode_at s i x None
  | PCheck _ i x _ _ => x ∉ p_lockedPaths p ∧ inode_at s i x (Some k)
  | PUnlock _ rest _ => NoDup rest ∧ ∀ h, h ∈ rest → h ∈ p_fds p
  end.

Record proc_ok (s : Sys) (k : pid) (p : Proc) : Prop := {
  ok_held h : h ∈ p_fds p → held_ok s k p h;
  ok_paths : NoDup (fd_path <$> p_fds p);
  ok_locked x : x ∈ p_lockedPaths p ↔ x ∈ fd_path <$> p_fds p;
  ok_pc : pc_ok s k p
}.

(** An inode in use is linked to its name, unless its owner is deleting it. *)
Definition linked (s : Sys) (i : nat) (x : bytes) : Prop :=
  names s !! x = Some i ∨
  ∃ k o h rest, p_pc (procs s k) = PUnlock o (h :: rest) UWrite ∧ fd_inode h = i.

Record lock_inv (s : Sys) : Prop := {
  inv_names x i : names s !! x = Some i → inode_at s i x None;
  inv_linked i n : inodes s !! i = Some n → ino_stale n = false → linked s i (ino_path n);
  inv_procs k : proc_ok s k (procs s k)
}.

Lemma initial_inv : lock_inv initial.
Proof.
  split; [done|done|]. intros k. split; cbn; [set_solver|constructor|set_solver|done].
Qed.

(** ** What other processes see of a step *)

(** A step of [k] that leaves alone what is locked by others. *)
Record frame (k : pid) (s s' : Sys) : Prop := {
  frame_procs k' : k' ≠ k → procs s' k' = procs s k';
  frame_inode i x : inode_at s i x None → inode_at s' i x None;
  frame_locked i n k' : k' ≠ k → inodes s !! i = Some n → ino_lock n = Some k' → inodes s' !! i = Some n;
  frame_names x i k' : k' ≠ k → names s !! x = Some i → locked_by s i = Some k' → names s' !! x = Some i
}.

Lemma inode_at_locked s i x k : inode_at s i x (Some k) → locked_by s i = Some k.
Proof. intros (n & Hn & _ & Hk). unfold locked_by. rewrite Hn. by apply Hk. Qed.

Lemma inode_at_weaken s i x o : inode_at s i x o → inode_at s i x None.
Proof. intros (n & Hn & Hp & _). by exists n. Qed.

Lemma frame_inode_at k s s' k' i x :
  frame k s s' → k' ≠ k → inode_at s i x (Some k') →
  inode_at s' i x (Some k') ∧ stale_inode s' i = stale_inode s i.
Proof.
  intros Hf Hne (n & Hn & Hp & Hk). assert (inodes s' !! i = Some n) as Hn'.
  { apply (frame_locked _ _ _ Hf i n k' Hne Hn). by apply Hk. }
  split; [by exists n|]. unfold stale_inode. by rewrite Hn, Hn'.
Qed.

Lemma frame_proc_ok k s s' k' : frame k s s' → k' ≠ k → proc_ok s k' (procs s k') → proc_ok s' k' (procs s' k').
Proof.
  intros Hf Hne [Hh Hp Hl Hpc]. rewrite (frame_procs _ _ _ Hf) by done. split; [|done|done|].
  - intros h Hin. destruct (Hh h Hin) as [Hi Hg]. destruct (frame_inode_at _ _ _ _ _ _ Hf Hne Hi) as [Hi' Hs].
    split; [done|]. intros Hng. destruct (Hg Hng) as [Hn Hst]. split; [|by rewrite Hs].
    eapply (frame_names _ _ _ Hf); [done|done|]. by eapply inode_at_locked.
  - unfold pc_ok in *. destruct (p_pc (procs s k')); try done.
    + destruct Hpc. split; [done|]. by apply (frame_inode _ _ _ Hf).
    + destruct Hpc. split; [done|]. by apply (frame_inode _ _ _ Hf).
    + destruct Hpc as [? Hi]. split; [done|]. by destruct (frame_inode_at _ _ _ _ _ _ Hf Hne Hi).
Qed.

Lemma upd_proc_same k p s : procs (upd_proc k p s) k = p.
Proof. apply fn_lookup_insert. Qed.

Lemma upd_proc_other k k' p s : k' ≠ k → procs (upd_proc k p s) k' = procs s k'.
Proof. intros. by apply fn_lookup_insert_ne. Qed.

(** A step keeps the invariant when it is framed and its own part is right. *)
Lemma step_inv k s s' :
  lock_inv s → frame k s s' → proc_ok s' k (procs s' k) →
  (∀ x i, names s' !! x = Some i → names s !! x = Some i ∨ inode_at s' i x None) →
  (∀ i n, inodes s' !! i = Some n → ino_stale n = false → linked s' i (ino_path n)) →
  lock_inv s'.
Proof.
  intros Hinv Hf Hk Hn Hl. split.
  - intros x i [Hx|?]%Hn; [|done]. apply (frame_inode _ _ _ Hf). by apply (inv_names _ Hinv).
  - done.
  - intros k'. destruct (decide (k' = k)) as [->|Hne]; [done|]. apply (frame_proc_ok k s); [done|done|].
    by apply (inv_procs _ Hinv).
Qed.

(** Only the program counter and the descriptors of [k] change. *)
Lemma frame_upd k p s : frame k s (upd_proc k p s).
Proof. split; try done. intros k' Hne. by apply upd_proc_other. Qed.

Lemma local_inv k p s :
  lock_inv s → ¬ deleting (procs s k) → proc_ok s k p → lock_inv (upd_proc k p s).
Proof.
  intros Hinv Hd Hp. eapply step_inv; [done|apply frame_upd| |by left|].
  - rewrite upd_proc_same. destruct Hp. by split.
  - intros i n Hi Hst. destruct (inv_linked _ Hinv i n Hi Hst) as [?|(k' & o & h & rest & Hpc & Hih)]; [by left|].
    right. exists k', o, h, rest. split; [|done]. rewrite upd_proc_other; [done|]. intros ->. apply Hd. by exists o, h, rest.
Qed.

(** ** Frames of the system calls *)

Lemma frame_create k p x i s :
  names s !! x = None → inodes s !! i = None → frame k s (upd_proc k p (create_lock_file x i s)).
Proof.
  intros Hx Hi. split; cbn [inodes names create_lock_file upd_proc].
  - intros k' Hne. by rewrite upd_proc_other.
  - intros j y (n & Hn & ? & _). exists n. cbn. rewrite lookup_insert_ne by congruence. done.
  - intros j n k' _ Hn _. rewrite lookup_insert_ne by congruence. done.
  - intros y j k' _ Hy _. rewrite lookup_insert_ne by congruence. done.
Qed.

Lemma frame_upd_inode k p i f s :
  (∀ n, ino_path (f n) = ino_path n) → (∀ q, locked_by s i = Some q → q = k) →
  frame k s (upd_proc k p (upd_inode i f s)).
Proof.
  intros Hf Hl. split; cbn [inodes names upd_inode upd_proc].
  - intros k' Hne. by rewrite upd_proc_other.
  - intros j y (n & Hn & Hp & _). unfold inode_at. cbn. destruct (decide (i = j)) as [->|Hne].
    + exists (f n). rewrite lookup_alter_eq, Hn. split; [done|]. by rewrite Hf.
    + exists n. by rewrite lookup_alter_ne.
  - intros j n k' Hne Hn Hk. rewrite lookup_alter_ne; [done|]. intros ->. apply Hne, Hl. unfold locked_by. by rewrite Hn.
  - done.
Qed.

Lemma frame_unlink k p x i s :
  names s !! x = Some i → locked_by s i = Some k → frame k s (upd_proc k p (unlink_name x s)).
Proof.
  intros Hx Hi. split; cbn [inodes names unlink_name upd_proc]; [intros k' Hne; by rewrite upd_proc_other|done|done|].
  intros y j k' Hne Hy Hj. rewrite lookup_delete_ne; [done|]. intros ->. congruence.
Qed.

(** ** The own part *)

Lemma set_pc_ok s k p pc' :
  proc_ok s k p → (∀ h, giving_up (p_pc p) h → giving_up pc' h) → pc_ok s k (set_pc pc' p) →
  proc_ok s k (set_pc pc' p).
Proof.
  intros [Hh Hp Hl _] Hg Hpc. split; [|done|done|done].
  intros h Hin. destruct (Hh h Hin) as [Hi Hn]. split; [done|]. intros Hng. apply Hn. eauto.
Qed.

Lemma not_giving_up pc h : (∀ o rest st, pc = PUnlock o rest st → st = UBegin) → ¬ giving_up pc h.
Proof. intros Hpc (o & rest & st & E & Hst). by apply Hst, (Hpc o (h :: rest)). Qed.

(** Paths and inodes of held locks correspond. *)
Lemma held_inj s k p h h' :
  proc_ok s k p → h ∈ p_fds p → h' ∈ p_fds p → fd_inode h = fd_inode h' ∨ fd_path h = fd_path h' → h = h'.
Proof.
  intros Hp Hh Hh' E. assert (fd_path h = fd_path h') as Ep.
  { destruct E as [E|E]; [|done]. destruct (ok_held _ _ _ Hp h Hh) as [(n & Hn & <- & _) _].
    destruct (ok_held _ _ _ Hp h' Hh') as [(n' & Hn' & <- & _) _]. congruence. }
  apply list_elem_of_lookup_1 in Hh as [a Ha]. apply list_elem_of_lookup_1 in Hh' as [b Hb].
  assert (a = b) as ->; [|congruence].
  eapply (NoDup_lookup (fd_path <$> p_fds p)); [apply Hp| |]; rewrite list_lookup_fmap; [by rewrite Ha|by rewrite Hb, Ep].
Qed.

(** A change of an inode that [k] does not hold. *)
Lemma inode_at_upd s i f j y o :
  j ≠ i → inode_at s j y o → inode_at (upd_inode i f s) j y o.
Proof. intros Hne (n & Hn & ?). exists n. cbn. by rewrite lookup_alter_ne. Qed.

Lemma held_ok_upd s k p i f h :
  held_ok s k p h → fd_inode h ≠ i → held_ok (upd_inode i f s) k p h.
Proof.
  intros [Hi Hn] Hne. split; [by apply inode_at_upd|]. intros Hg. destruct (Hn Hg) as [? Hs]. split; [done|].
  unfold stale_inode in *. cbn. by rewrite lookup_alter_ne.
Qed.

(** [linked] after a change of names, of an inode, or of the counter of [k]. *)
Lemma linked_weaken s s' i x k :
  (names s !! x = Some i → names s' !! x = Some i) → (∀ k', k' ≠ k → procs s' k' = procs s k') →
  ¬ deleting (procs s k) → linked s i x → linked s' i x.
Proof.
  intros Hn Hp Hd [?|(k' & o & h & rest & Hpc & Hi)]; [left; auto|right].
  exists k', o, h, rest. split; [|done]. rewrite Hp; [done|]. intros ->. apply Hd. by exists o, h, rest.
Qed.

Lemma inodes_upd s i f j n :
  inodes (upd_inode i f s) !! j = Some n →
  j = i ∧ (∃ n0, inodes s !! i = Some n0 ∧ n = f n0) ∨ j ≠ i ∧ inodes s !! j = Some n.
Proof.
  cbn. destruct (decide (j = i)) as [->|Hne].
  - rewrite lookup_alter_eq, fmap_Some. intros (n0 & ? & ->). left. eauto.
  - rewrite lookup_alter_ne by done. by right.
Qed.

(** ** The steps that change files *)

Section steps.
Variables (k : pid) (s : Sys).
Hypothesis Hinv : lock_inv s.
Local Abbreviation p := (procs s k).

Lemma pc_not_deleting : (∀ o rest, p_pc p ≠ PUnlock o rest UWrite) → ¬ deleting p.
Proof. intros Hpc (o & h & rest & E). by eapply Hpc. Qed.

Lemma create_inv o x todo wait i :
  p_pc p = POpen o x todo wait → names s !! x = None → inodes s !! i = None →
  lock_inv (upd_proc k (set_pc (PLock o i x todo wait) p) (create_lock_file x i s)).
Proof.
  intros Hpc Hx Hi. pose proof (inv_procs _ Hinv k) as [Hh Hp Hl Hok]. unfold pc_ok in Hok. rewrite Hpc in Hok.
  assert (¬ deleting p) as Hd by (apply pc_not_deleting; intros; by rewrite Hpc).
  apply (step_inv k s); [done|by apply frame_create| | |].
  - rewrite upd_proc_same. split; [|done|done|].
    + intros h Hin. destruct (Hh h Hin) as [(n & Hn & Hnp & Hnl) Hg]. split.
      * exists n. cbn. rewrite lookup_insert_ne by congruence. done.
      * intros _. destruct Hg as [Hname Hst]; [apply not_giving_up; intros; congruence|].
        unfold stale_inode in *. cbn. rewrite !lookup_insert_ne by congruence. done.
    + split; [done|]. exists (mkInode x None false). cbn. by rewrite lookup_insert_eq.
  - intros y j. cbn. intros [[<- <-]|[_ ?]]%lookup_insert_Some; [right|by left].
    exists (mkInode x None false). cbn. by rewrite lookup_insert_eq.
  - intros j n. cbn. intros [[<- <-]|[Hne Hn]]%lookup_insert_Some Hst.
    + left. cbn. by rewrite lookup_insert_eq.
    + eapply linked_weaken; [| |exact Hd|by eapply inv_linked].
      * cbn. intros Hj. rewrite lookup_insert_ne by congruence. done.
      * intros k' Hk'. by rewrite upd_proc_other.
Qed.

(** An inode that [k] does not hold and nobody else has locked gets a new lock
    word; its name and length stay. *)
Lemma relock_inv pc' i lock' x :
  ¬ deleting p → (∀ h, ¬ giving_up (p_pc p) h) → x ∉ p_lockedPaths p →
  inode_at s i x None → (∀ q, locked_by s i = Some q → q = k) →
  pc_ok (upd_inode i (λ n, mkInode (ino_path n) lock' (ino_stale n)) s) k (set_pc pc' p) →
  lock_inv (upd_proc k (set_pc pc' p) (upd_inode i (λ n, mkInode (ino_path n) lock' (ino_stale n)) s)).
Proof.
  intros Hd Hg Hx Hi Hlock Hpc. pose proof (inv_procs _ Hinv k) as [Hh Hp Hl _].
  apply (step_inv k s); [done|by apply frame_upd_inode| |by left|].
  - rewrite upd_proc_same. split; [|done|done|done].
    intros h Hin. apply (held_ok_upd s); [|].
    + destruct (Hh h Hin) as [? Hn]. split; [done|]. intros _. by apply Hn.
    + intros E. apply Hx, Hl, list_elem_of_fmap. exists h. split; [|done].
      destruct (Hh h Hin) as [(n & Hn & <- & _) _]. destruct Hi as (n' & Hn' & <- & _). congruence.
  - intros j n [(-> & n0 & Hn0 & ->)|[_ Hn]]%inodes_upd Hst; cbn [ino_path];
      (eapply linked_weaken; [| |exact Hd|by eapply inv_linked]); try done; intros; by rewrite upd_proc_other.
Qed.

Lemma acquire_inv pc o i x todo wait :
  p_pc p = pc → pc = PLock o i x todo wait ∨ pc = PWait o i x todo ∧ wait = true → locked_by s i = None →
  lock_inv (upd_proc k (set_pc (PCheck o i x todo wait) p) (acquire k i s)).
Proof.
  intros Hpc Hcases Hlock. pose proof (ok_pc _ _ _ (inv_procs _ Hinv k)) as Hok. unfold pc_ok in Hok.
  assert (x ∉ p_lockedPaths p ∧ inode_at s i x None) as [Hx Hi].
  { rewrite Hpc in Hok. by destruct Hcases as [->|[-> _]]. }
  assert (∀ o' rest st, p_pc p ≠ PUnlock o' rest st) as Hno.
  { intros o' rest st. rewrite Hpc. by destruct Hcases as [->|[-> _]]. }
  apply (relock_inv _ _ _ x); [by apply pc_not_deleting| |done|done|intros q Hq; congruence|].
  - intros h. apply not_giving_up. intros o' rest st E. by apply Hno in E.
  - split; [done|]. destruct Hi as (n & Hn & <- & _). eexists. cbn. rewrite lookup_alter_eq, Hn. done.
Qed.

Lemma stale_inv o i x todo wait :
  p_pc p = PCheck o i x todo wait →
  lock_inv (upd_proc k (set_pc (POpen o x todo wait) p) (release i s)).
Proof.
  intros Hpc. pose proof (ok_pc _ _ _ (inv_procs _ Hinv k)) as Hok. unfold pc_ok in Hok. rewrite Hpc in Hok.
  destruct Hok as [Hx Hi]. apply (relock_inv _ _ _ x).
  - apply pc_not_deleting. intros. by rewrite Hpc.
  - intros h. apply not_giving_up. intros. congruence.
  - done.
  - by eapply inode_at_weaken.
  - intros q Hq. apply inode_at_locked in Hi. congruence.
  - done.
Qed.

(** An inode that [k] locked and that is not stale still has its name. *)
Lemma checked_linked o i x todo wait :
  p_pc p = PCheck o i x todo wait → stale_inode s i = false → names s !! x = Some i.
Proof.
  intros Hpc Hst. pose proof (ok_pc _ _ _ (inv_procs _ Hinv k)) as Hok. unfold pc_ok in Hok. rewrite Hpc in Hok.
  destruct Hok as [_ Hi]. pose proof Hi as (n & Hn & Hnp & Hnl). unfold stale_inode in Hst. rewrite Hn in Hst.
  destruct (inv_linked _ Hinv i n Hn Hst) as [Hname|(k' & o' & h & rest & Hpc' & Hih)]; [by rewrite <-Hnp|exfalso].
  pose proof (inv_procs _ Hinv k') as [Hh' _ _ Hok']. unfold pc_ok in Hok'. rewrite Hpc' in Hok'.
  destruct (Hh' h) as [Hh _]; [apply Hok'; by left|]. rewrite Hih in Hh.
  apply inode_at_locked in Hh. apply inode_at_locked in Hi. assert (k' = k) by congruence. congruence.
Qed.

Lemma hold_inv o i x todo wait :
  p_pc p = PCheck o i x todo wait → stale_inode s i = false →
  lock_inv (upd_proc k (hold (mkHeldLock o i x) (PNext o todo wait) p) s).
Proof.
  intros Hpc Hst. pose proof (checked_linked _ _ _ _ _ Hpc Hst) as Hname.
  pose proof (inv_procs _ Hinv k) as [Hh Hp Hl Hok]. unfold pc_ok in Hok. rewrite Hpc in Hok. destruct Hok as [Hx Hi].
  apply local_inv; [done|apply pc_not_deleting; intros; by rewrite Hpc|]. split; cbn [p_fds p_lockedPaths hold].
  - intros h [Hin|Hin%list_elem_of_singleton]%elem_of_app.
    + destruct (Hh h Hin) as [? Hn]. split; [done|]. intros _. apply Hn, not_giving_up. intros. congruence.
    + subst. by split.
  - rewrite fmap_app. apply NoDup_app. split_and!; [done| |apply NoDup_singleton].
    intros y Hy Hy'%list_elem_of_singleton. cbn in Hy'. subst y. by apply Hx, Hl.
  - intros y. rewrite elem_of_set_insert, Hl, fmap_app, elem_of_app. cbn [fmap list_fmap fd_path].
    rewrite list_elem_of_singleton. tauto.
  - done.
Qed.

(** The first lock of [unlock]. *)
Lemma unlocking o h rest st :
  p_pc p = PUnlock o (h :: rest) st →
  h ∈ p_fds p ∧ h ∉ rest ∧ NoDup rest ∧ (∀ h', h' ∈ rest → h' ∈ p_fds p).
Proof.
  intros Hpc. pose proof (ok_pc _ _ _ (inv_procs _ Hinv k)) as Hok. unfold pc_ok in Hok. rewrite Hpc in Hok.
  destruct Hok as [[Hn Hnd]%NoDup_cons Hin]. split_and!; [apply Hin; by left|done|done|].
  intros h' ?. apply Hin. by right.
Qed.

Lemma unlink_inv o h rest :
  p_pc p = PUnlock o (h :: rest) UBegin →
  lock_inv (upd_proc k (set_pc (PUnlock o (h :: rest) UWrite) p) (unlink_name (fd_path h) s)).
Proof.
  intros Hpc. destruct (unlocking _ _ _ _ Hpc) as (Hin & Hnr & Hnd & Hsub).
  pose proof (inv_procs _ Hinv k) as Hp. destruct (ok_held _ _ _ Hp h Hin) as [Hi Hname].
  destruct Hname as [Hname Hst]; [apply not_giving_up; intros; congruence|].
  apply (step_inv k s); [done|eapply frame_unlink; [done|by eapply inode_at_locked]| | |].
  - rewrite upd_proc_same. split; [|apply Hp|apply Hp|].
    + intros h' Hh'. destruct (ok_held _ _ _ Hp h' Hh') as [Hi' Hn']. split; [done|]. intros Hg.
      destruct Hn' as [Hn' Hs']; [apply not_giving_up; intros; congruence|]. split; [|done].
      cbn. rewrite lookup_delete_ne; [done|]. intros E. apply Hg.
      assert (h = h') as <- by (eapply held_inj; eauto). by exists o, rest, UWrite.
    + split; [by apply NoDup_cons|]. intros h' [->|?]%elem_of_cons; auto.
  - cbn. intros x i [_ ?]%lookup_delete_Some. by left.
  - cbn. intros i n Hn Hns. destruct (decide (i = fd_inode h)) as [->|Hne].
    { right. exists k, o, h, rest. by rewrite upd_proc_same. }
    destruct (inv_linked _ Hinv i n Hn Hns) as [Hl|(k' & o' & h' & rest' & Hpc' & Hih)].
    + left. cbn. rewrite lookup_delete_ne; [done|]. intros E. rewrite <-E, Hname in Hl. congruence.
    + right. exists k', o', h', rest'. split; [|done]. rewrite upd_proc_other; [done|]. intros ->. congruence.
Qed.

Lemma token_inv o h rest :
  p_pc p = PUnlock o (h :: rest) UWrite →
  lock_inv (upd_proc k (set_pc (PUnlock o (h :: rest) UClose) p) (write_token (fd_inode h) s)).
Proof.
  intros Hpc. destruct (unlocking _ _ _ _ Hpc) as (Hin & Hnr & Hnd & Hsub).
  pose proof (inv_procs _ Hinv k) as Hp. destruct (ok_held _ _ _ Hp h Hin) as [Hi _].
  apply (step_inv k s); [done| | |by left|].
  - apply frame_upd_inode; [done|]. intros q Hq. apply inode_at_locked in Hi. congruence.
  - rewrite upd_proc_same. split; [|apply Hp|apply Hp|].
    + intros h' Hh'. destruct (decide (h' = h)) as [->|Hne].
      * split.
        -- destruct Hi as (n & Hn & Hnp & Hnl). eexists. cbn. rewrite lookup_alter_eq, Hn. by split_and!.
        -- intros Hg. exfalso. apply Hg. by exists o, rest, UClose.
      * apply (held_ok_upd s); [|intros E; apply Hne; eapply held_inj; eauto].
        destruct (ok_held _ _ _ Hp h' Hh') as [? Hn']. split; [done|]. intros Hg. apply Hn'.
        intros (o' & rest' & st & E & _). congruence.
    + split; [by apply NoDup_cons|]. intros h' [->|?]%elem_of_cons; auto.
  - intros i n [(-> & n0 & Hn0 & ->)|[Hne Hn]]%inodes_upd Hns; [done|].
    destruct (inv_linked _ Hinv i n Hn Hns) as [Hl|(k' & o' & h' & rest' & Hpc' & Hih)]; [by left|].
    right. exists k', o', h', rest'. split; [|done]. rewrite upd_proc_other; [done|]. intros ->. congruence.
Qed.

Lemma close_inv o h rest :
  p_pc p = PUnlock o (h :: rest) UClose →
  lock_inv (upd_proc k (drop_lock h (PUnlock o rest UBegin) p) (release (fd_inode h) s)).
Proof.
  intros Hpc. destruct (unlocking _ _ _ _ Hpc) as (Hin & Hnr & Hnd & Hsub).
  pose proof (inv_procs _ Hinv k) as Hp. destruct (ok_held _ _ _ Hp h Hin) as [Hi _].
  assert (¬ deleting p) as Hd by (apply pc_not_deleting; intros; by rewrite Hpc).
  assert (∀ h', h' ∈ p_fds p → h' ≠ h → fd_inode h' ≠ fd_inode h ∧ fd_path h' ≠ fd_path h) as Hdiff.
  { intros h' Hh' Hne. split; intros E; apply Hne; eapply held_inj; eauto. }
  apply (step_inv k s); [done| | |by left|].
  - apply frame_upd_inode; [done|]. intros q Hq. apply inode_at_locked in Hi. congruence.
  - rewrite upd_proc_same. split; cbn [p_fds p_lockedPaths drop_lock].
    + intros h' [Hne Hh']%list_elem_of_filter. apply (held_ok_upd s); [|by apply Hdiff].
      destruct (ok_held _ _ _ Hp h' Hh') as [? Hn']. split; [done|]. intros _. apply Hn'.
      intros (o' & rest' & st & E & _). congruence.
    + eapply sublist_NoDup; [apply Hp|]. apply fmap_sublist, sublist_filter.
    + intros x. rewrite elem_of_set_erase, (ok_locked _ _ _ Hp), !list_elem_of_fmap.
      setoid_rewrite list_elem_of_filter. split.
      * intros [Hx (h' & -> & Hh')]. exists h'. split_and!; [done| |done]. by intros ->.
      * intros (h' & -> & Hne & Hh'). split; [by apply Hdiff|by exists h'].
    + split; [done|]. intros h' Hh'. apply list_elem_of_filter. split; [by intros ->|auto].
  - intros i n [(-> & n0 & Hn0 & ->)|[_ Hn]]%inodes_upd Hns; cbn [ino_path];
      (eapply linked_weaken; [| |exact Hd|by eapply inv_linked]); try done; intros; by rewrite upd_proc_other.
Qed.
End steps.

(** ** All steps *)

Lemma begin_unlock_inv k s o :
  lock_inv s → (∀ o' rest st, p_pc (procs s k) ≠ PUnlock o' rest st) →
  lock_inv (upd_proc k (set_pc (PUnlock o (locks_of o (procs s k)) UBegin) (procs s k)) s).
Proof.
  intros Hinv Hpc. pose proof (inv_procs _ Hinv k) as Hp.
  apply local_inv; [done|apply pc_not_deleting; auto|]. apply set_pc_ok; [done| |].
  - intros h (o' & rest & st & E & _). by apply Hpc in E.
  - split; [|intros h Hh; by apply list_elem_of_filter in Hh as [_ ?]].
    apply NoDup_filter. eapply NoDup_fmap_1. apply Hp.
Qed.

Ltac local_step Hinv Hpc :=
  apply local_inv; [done|apply pc_not_deleting; intros; by rewrite Hpc|];
  apply set_pc_ok; [by apply inv_procs|intros ? (? & ? & ? & E & ?); congruence|].

Lemma lock_step_inv k s s' : lock_inv s → lock_step k s s' → lock_inv s'.
Proof.
  intros Hinv Hstep. pose proof (ok_pc _ _ _ (inv_procs _ Hinv k)) as Hok. unfold pc_ok in Hok.
  destruct Hstep as [? ? ? Hpc _|? ? Hpc|? ? ? ? Hpc _|? ? ? ? Hpc Hx|o x todo wait i Hpc Hn|? ? ? ? ? Hpc Hn Hi
    |? ? ? ? ? Hpc Hl|? ? ? ? ? Hpc Hl Hq|? ? ? ? ? Hpc Hl Hq|? ? ? ? Hpc Hl|? ? ? ? ? Hpc Hs|? ? ? ? ? Hpc Hs
    |o b Hpc|? Hpc|? ? ? Hpc Hd|? ? ? Hpc Hd|? ? ? Hpc|o h rest Hpc Hd|? ? ? Hpc|? Hpc]; rewrite Hpc in Hok.
  - local_step Hinv Hpc. done.
  - local_step Hinv Hpc. done.
  - apply begin_unlock_inv; [done|]. intros. by rewrite Hpc.
  - local_step Hinv Hpc. done.
  - local_step Hinv Hpc. split; [done|]. by apply (inv_names _ Hinv).
  - by apply create_inv.
  - eapply acquire_inv; [done|done| |done]. by left.
  - local_step Hinv Hpc. done.
  - apply begin_unlock_inv; [done|]. intros. by rewrite Hpc.
  - eapply acquire_inv; [done|done| |done]. by right.
  - by eapply stale_inv.
  - by eapply hold_inv.
  - apply local_inv; [done|apply pc_not_deleting; intros; by rewrite Hpc|].
    destruct (inv_procs _ Hinv k) as [Hh Hp Hl _]. split; [|done|done|done].
    intros h Hin. destruct (Hh h Hin) as [? Hn]. split; [done|]. intros _. apply Hn, not_giving_up. intros. congruence.
  - apply begin_unlock_inv; [done|]. intros. by rewrite Hpc.
  - by eapply unlink_inv.
  - apply local_inv; [done|apply pc_not_deleting; intros; by rewrite Hpc|].
    apply set_pc_ok; [by apply inv_procs| |done]. intros h' (? & ? & ? & E & Hst). congruence.
  - by eapply token_inv.
  - apply local_inv; [done|apply pc_not_deleting; intros; by rewrite Hpc|].
    apply set_pc_ok; [by apply inv_procs| |done]. intros h' (? & ? & ? & E & Hst). congruence.
  - by eapply close_inv.
  - local_step Hinv Hpc. done.
Qed.

Lemma inodes_release_all k s i n :
  inodes (release_all k s) !! i = Some n →
  ∃ n0, inodes s !! i = Some n0 ∧ ino_path n = ino_path n0 ∧ ino_stale n = ino_stale n0.
Proof. cbn. rewrite lookup_fmap, fmap_Some. intros (n0 & Hn & ->). exists n0. by case_decide. Qed.

Lemma exit_inv k s : lock_inv s → ¬ deleting (procs s k) → lock_inv (exit_step k s).
Proof.
  intros Hinv Hd. apply (step_inv k s); [done| | |by left|].
  - split; [intros k' Hne; unfold exit_step; by rewrite upd_proc_other| | |done];
      cbn [inodes names exit_step upd_proc release_all].
    + intros i x (n & Hn & Hp & _). unfold inode_at. cbn. rewrite lookup_fmap, Hn. cbn. case_decide; by eexists.
    + intros i n k' Hne Hn Hl. rewrite lookup_fmap, Hn. cbn. rewrite decide_False by congruence. done.
  - unfold exit_step. rewrite upd_proc_same. split; cbn; [set_solver|constructor|set_solver|done].
  - intros i n (n0 & Hn & -> & Hs)%inodes_release_all Hst. rewrite Hs in Hst.
    eapply (linked_weaken s _ _ _ k); [done| |done|by eapply inv_linked]. intros. unfold exit_step. by rewrite upd_proc_other.
Qed.

Lemma reachable_inv s : rtc sys_step initial s → lock_inv s.
Proof.
  assert (∀ s1 s2, rtc sys_step s1 s2 → lock_inv s1 → lock_inv s2) as Hgen; [|intros ?; eapply Hgen; [done|apply initial_inv]].
  intros s1 s2 Hr. induction Hr as [|s1 s2 s3 Hstep _ IH]; [done|]. intros Hinv. apply IH.
  destruct Hstep as [k s2 Hk|k Hd]; [by eapply lock_step_inv|by apply exit_inv].
Qed.

(** * Properties *)


(** ** Runs *)

(** The same steps as a function: calls of the methods by an idle process, and
    the next step of a call that is under way. *)
Inductive LockAction := ALockPaths (o : nat) (paths : list bytes) (wait : bool) | ASetDeletion (o : nat) (b : bool)
  | AUnlock (o : nat) | ARun.

Definition exec_run (k : pid) (s : Sys) : option Sys :=
  let p := procs s k in
  match p_pc p with
  | PIdle => None
  | PNext o [] wait => Some (upd_proc k (set_pc PIdle p) s)
  | PNext o (x :: todo) wait =>
      if decide (x ∈ p_lockedPaths p) then Some (upd_proc k (set_pc (PUnlock o (locks_of o p) UBegin) p) s)
      else Some (upd_proc k (set_pc (POpen o x todo wait) p) s)
  | POpen o x todo wait =>
      match names s !! x with
      | Some i => Some (upd_proc k (set_pc (PLock o i x todo wait) p) s)
      | None =>
          let i := size (inodes s) in
          if decide (inodes s !! i = None)
          then Some (upd_proc k (set_pc (PLock o i x todo wait) p) (create_lock_file x i s)) else None
      end
  | PLock o i x todo wait =>
      match locked_by s i with
      | None => Some (upd_proc k (set_pc (PCheck o i x todo wait) p) (acquire k i s))
      | Some q =>
          if decide (q = k) then None
          else if wait then Some (upd_proc k (set_pc (PWait o i x todo) p) s)
          else Some (upd_proc k (set_pc (PUnlock o (locks_of o p) UBegin) p) s)
      end
  | PWait o i x todo =>
      match locked_by s i with
      | None => Some (upd_proc k (set_pc (PCheck o i x todo true) p) (acquire k i s))
      | Some _ => None
      end
  | PCheck o i x todo wait =>
      if stale_inode s i then Some (upd_proc k (set_pc (POpen o x todo wait) p) (release i s))
      else Some (upd_proc k (hold (mkHeldLock o i x) (PNext o todo wait) p) s)
  | PUnlock o (h :: rest) UBegin =>
      if p_deletePaths p o
      then Some (upd_proc k (set_pc (PUnlock o (h :: rest) UWrite) p) (unlink_name (fd_path h) s))
      else Some (upd_proc k (set_pc (PUnlock o (h :: rest) UClose) p) s)
  | PUnlock o (h :: rest) UWrite =>
      Some (upd_proc k (set_pc (PUnlock o (h :: rest) UClose) p) (write_token (fd_inode h) s))
  | PUnlock o (h :: rest) UClose =>
      Some (upd_proc k (drop_lock h (PUnlock o rest UBegin) p) (release (fd_inode h) s))
  | PUnlock o [] UBegin => Some (upd_proc k (set_pc PIdle p) s)
  | PUnlock o [] _ => None
  end.

Definition exec (k : pid) (a : LockAction) (s : Sys) : option Sys :=
  let p := procs s k in
  match a, p_pc p with
  | ALockPaths o paths wait, PIdle =>
      if decide (locks_of o p = []) then
        Some (upd_proc k (set_pc (PNext o ((λ p, p ++ str ".lock") <$> paths) wait) p) s) else None
  | ASetDeletion o b, PIdle =>
      Some (upd_proc k (mkProc PIdle (p_fds p) (<[o := b]> (p_deletePaths p)) (p_lockedPaths p)) s)
  | AUnlock o, PIdle => Some (upd_proc k (set_pc (PUnlock o (locks_of o p) UBegin) p) s)
  | ARun, _ => exec_run k s
  | _, _ => None
  end.

Lemma exec_sound k a s s' : exec k a s = Some s' → lock_step k s s'.
Proof.
  unfold exec. destruct a as [o paths wait|o b|o|].
  - destruct (p_pc (procs s k)) eqn:Hpc; try done. case_decide; [|done]. intros [= <-]. by apply step_lockPaths.
  - destruct (p_pc (procs s k)) eqn:Hpc; try done. intros [= <-]. by apply step_setDeletion.
  - destruct (p_pc (procs s k)) eqn:Hpc; try done. intros [= <-]. by apply step_unlock.
  - unfold exec_run. intros E. repeat case_match; simplify_eq; by econstructor.
Qed.

(** Processes take turns; [None] is the end of a process. *)
Fixpoint run (trace : list (pid * option LockAction)) (s : Sys) : option Sys :=
  match trace with
  | [] => Some s
  | (k, Some a) :: trace => exec k a s ≫= run trace
  | (k, None) :: trace => run trace (exit_step k s)
  end.

(** Steps in which a process may also be killed at any time. *)
Inductive any_step (s : Sys) : Sys → Prop :=
  | any_lock k s' : lock_step k s s' → any_step s s'
  | any_killed k : any_step s (exit_step k s).

Lemma run_any trace s s' : run trace s = Some s' → rtc any_step s s'.
Proof.
  revert s. induction trace as [|[k [a|]] trace IH]; intros s; cbn [run].
  - by intros [= <-].
  - intros (s1 & E%exec_sound & Hr)%bind_Some. eapply rtc_l; [by eapply any_lock|by apply IH].
  - intros Hr. eapply rtc_l; [apply (any_killed _ k)|by apply IH].
Qed.

Lemma run_sys trace s s' : (∀ k, (k, None) ∉ trace) → run trace s = Some s' → rtc sys_step s s'.
Proof.
  revert s. induction trace as [|[k [a|]] trace IH]; intros s Hn; cbn [run].
  - by intros [= <-].
  - intros (s1 & E%exec_sound & Hr)%bind_Some. eapply rtc_l; [by eapply sys_lock|]. apply IH; [|done]. set_solver.
  - destruct (Hn k). by left.
Qed.

(** [k] locks x, in six steps. *)
Definition locking (k : pid) : list (pid * option LockAction) :=
  (k, Some (ALockPaths 0 [str "x"] true)) :: replicate 5 (k, Some ARun).

Definition after (trace : list (pid * option LockAction)) : Sys := default initial (run trace initial).


(** ** A process killed while it deletes a lock file

    Between its [unlink] and its [writeFull], [deleteLockFile] has removed the
    name but not marked the file: a process that waits on the file then gets
    its lock, while another one creates the file anew. *)
Definition killed_trace : list (pid * option LockAction) :=
  locking 0 ++ [(0, Some (ASetDeletion 0 true))] ++
  [(1, Some (ALockPaths 0 [str "x"] true)); (1, Some ARun); (1, Some ARun); (1, Some ARun)] ++
  [(0, Some (AUnlock 0)); (0, Some ARun); (0, None)] ++
  [(1, Some ARun); (1, Some ARun)] ++ locking 2.

Theorem killed_deletion_breaks_exclusion :
  ∃ s, rtc any_step initial s ∧ holds s 1 (str "x.lock") ∧ holds s 2 (str "x.lock").
Proof.
  exists (after killed_trace). split_and!.
  - apply (run_any killed_trace). vm_compute. reflexivity.
  - exists (mkHeldLock 0 0 (str "x.lock")). split_and!; [vm_compute; by left|done|].
    intros (? & ? & ? & E & _). vm_compute in E. discriminate E.
  - exists (mkHeldLock 0 1 (str "x.lock")). split_and!; [vm_compute; by left|done|].
    intros (? & ? & ? & E & _). vm_compute in E. discriminate E.
Qed.

(** ** A lock file that could not be deleted

    [deleteLockFile] ignores a failure of its [unlink] and still writes the
    token. Then the file keeps its name and stays stale: every later attempt to
    lock the path comes back to where it started, after three steps. *)
Theorem undeleted_lock_file_livelock k s o x todo wait i n :
  p_pc (procs s k) = POpen o x todo wait → names s !! x = Some i →
  inodes s !! i = Some n → ino_stale n = true → ino_lock n = None →
  ∃ s', run (replicate 3 (k, Some ARun)) s = Some s' ∧
    p_pc (procs s' k) = POpen o x todo wait ∧ names s' = names s ∧ inodes s' = inodes s.
Proof.
  intros Hpc Hx Hn Hst Hl.
  assert (exec k ARun s = Some (upd_proc k (set_pc (PLock o i x todo wait) (procs s k)) s)) as E1.
  { unfold exec, exec_run. by rewrite Hpc, Hx. }
  set (s1 := upd_proc k _ s) in E1.
  assert (exec k ARun s1 = Some (upd_proc k (set_pc (PCheck o i x todo wait) (procs s1 k)) (acquire k i s1))) as E2.
  { unfold exec, exec_run, s1. rewrite upd_proc_same. cbn [p_pc set_pc]. unfold locked_by. cbn [inodes upd_proc].
    rewrite Hn. cbn [mbind option_bind]. by rewrite Hl. }
  set (s2 := upd_proc k _ (acquire k i s1)) in E2.
  assert (exec k ARun s2 = Some (upd_proc k (set_pc (POpen o x todo wait) (procs s2 k)) (release i s2))) as E3.
  { unfold exec, exec_run, s2. rewrite upd_proc_same. cbn [p_pc set_pc]. unfold stale_inode.
    cbn [inodes upd_proc acquire upd_inode s1]. rewrite lookup_alter_eq, Hn. cbn. by rewrite Hst. }
  exists (upd_proc k (set_pc (POpen o x todo wait) (procs s2 k)) (release i s2)). split_and!.
  - cbn [replicate run]. rewrite E1. cbn [mbind option_bind]. rewrite E2. cbn [mbind option_bind]. by rewrite E3.
  - by rewrite upd_proc_same.
  - done.
  - cbn [inodes upd_proc release upd_inode acquire s1 s2]. apply map_eq. intros j.
    destruct (decide (j = i)) as [->|Hne]; [|by rewrite !lookup_alter_ne].
    rewrite !lookup_alter_eq, Hn. destruct n. cbn in *. by subst.
Qed.
