(* ===== verification/TempRoots.v ===== *)
(** libstore/gc.cc: temporary roots, shared by processes.

    A process that works with a path registers it first ([addTempRoot]): it appends
    the path to a file of its own below "temproots", named by its process number. The
    collector takes the global lock, and then reads the files of the others
    ([readTempRoots]). Both use locks of files (fcntl), which belong to a process and
    are lost when the process closes the file. Processes run the system calls of
    [addTempRoot], [syncWithGC], [collectGarbage] and the destructor of [LocalStore]
    one at a time, in any interleaving; TempRootsSafety shows that no root is lost. *)

From stdpp Require Import functions.
From S2P Require Import Prelude Containers Serialise Paths StorePaths Roots.

Abbreviation pid := nat.

(** * The system *)

Inductive LockType := ltRead | ltWrite.

#[global] Instance LockType_eq_dec : EqDecision LockType.
Proof. solve_decision. Defined.

(** A file that was created below "temproots", also when it has no name any more. *)
Record RootsFile := mkRootsFile {
  rf_pid : pid;                            (* the name it was created with *)
  rf_contents : bytes;
  rf_locks : gmap pid LockType
}.

(** Where [readTempRoots] is with a file that it has opened: before the attempt to
    get the write lock; with it, before the [unlink], the [writeFull] and the
    [close]; without it, before the wait for the read lock and before [readFile]. *)
Inductive FileStage := FTry | FUnlink | FToken | FClose | FWait | FRead.

#[global] Instance FileStage_eq_dec : EqDecision FileStage.
Proof. solve_decision. Defined.

(** What a process does next. *)
Inductive Pc :=
  | Idle
  (* addTempRoot *)
  | TLockGC (path : bytes)                 (* the head of the loop, [openGCLock(ltRead)] *)
  | TUnlink (path : bytes)
  | TOpen (path : bytes)
  | TCloseGC (path : bytes)
  | TLock (path : bytes)                   (* [lockFile(fdTempRoots, ltRead, true)] *)
  | TCheck (path : bytes)                  (* [st.st_size == 0] *)
  | TUpgrade (path : bytes)
  | TWrite (path rest : bytes)
  | TDowngrade (path : bytes)
  (* syncWithGC *)
  | SLock
  | SClose
  (* collectGarbage *)
  | GLock                                  (* [openGCLock(ltWrite)] *)
  | GList                                  (* the permanent roots, and [readDirectory] *)
  | GNext (todo : list pid) (tempRoots : strset) (fds : list nat)
  | GFile (stage : FileStage) (i : nat) (n : pid) (todo : list pid) (tempRoots : strset) (fds : list nat)
  | GDelete (tempRoots : strset) (fds : list nat)
  | GClose (fds : list nat)
  (* ~LocalStore *)
  | DUnlink.

Record Proc := mkProc {
  p_pc : Pc;
  p_fd : option nat;                       (* [fdTempRoots] *)
  p_roots : list bytes                     (* what it has registered *)
}.

Record Sys := mkSys {
  s_names : gmap pid nat;                  (* the directory "temproots" *)
  s_files : gmap nat RootsFile;            (* inodes *)
  s_gc : gmap pid LockType;                (* the locks on "gc.lock" *)
  s_procs : pid → Proc
}.

Definition proc0 : Proc := mkProc Idle None [].
Definition initial : Sys := mkSys ∅ ∅ ∅ (λ _, proc0).

Definition set_pc (pc : Pc) (p : Proc) : Proc := mkProc pc (p_fd p) (p_roots p).

(** ** System calls *)

Definition upd_proc (k : pid) (p : Proc) (s : Sys) : Sys :=
  mkSys (s_names s) (s_files s) (s_gc s) (<[k := p]> (s_procs s)).
Definition upd_file (i : nat) (f : RootsFile → RootsFile) (s : Sys) : Sys :=
  mkSys (s_names s) (alter f i (s_files s)) (s_gc s) (s_procs s).
Definition upd_gc (f : gmap pid LockType → gmap pid LockType) (s : Sys) : Sys :=
  mkSys (s_names s) (s_files s) (f (s_gc s)) (s_procs s).

(** Whether process [k] can get a lock: its own locks do not count. *)
Definition grants (locks : gmap pid LockType) (k : pid) (t : LockType) : bool :=
  bool_decide (map_Forall (λ q l, q = k ∨ (t = ltRead ∧ l = ltRead)) locks).

Definition locks_of (s : Sys) (i : nat) : gmap pid LockType := default ∅ (rf_locks <$> s_files s !! i).
Definition contents_of (s : Sys) (i : nat) : bytes := default [] (rf_contents <$> s_files s !! i).

Definition set_lock (k : pid) (t : LockType) (f : RootsFile) : RootsFile :=
  mkRootsFile (rf_pid f) (rf_contents f) (<[k := t]> (rf_locks f)).
Definition drop_lock (k : pid) (f : RootsFile) : RootsFile :=
  mkRootsFile (rf_pid f) (rf_contents f) (delete k (rf_locks f)).
Definition set_contents (g : bytes → bytes) (f : RootsFile) : RootsFile :=
  mkRootsFile (rf_pid f) (g (rf_contents f)) (rf_locks f).

Definition unlink (n : pid) (s : Sys) : Sys := mkSys (delete n (s_names s)) (s_files s) (s_gc s) (s_procs s).
Definition create (n : pid) (i : nat) (s : Sys) : Sys :=
  mkSys (<[n := i]> (s_names s)) (<[i := mkRootsFile n [] ∅]> (s_files s)) (s_gc s) (s_procs s).

(** [openGCLock] and [lockFile], when the lock is to be had. *)
Definition openGCLock (k : pid) (t : LockType) (s : Sys) : option Sys :=
  if grants (s_gc s) k t then Some (upd_gc <[k := t]> s) else None.
Definition lockFile (k : pid) (i : nat) (t : LockType) (s : Sys) : option Sys :=
  if grants (locks_of s i) k t then Some (upd_file i (set_lock k t) s) else None.

(** Closing a descriptor gives up the locks on its file. *)
Definition close (k : pid) (fd : option nat) (s : Sys) : Sys :=
  match fd with Some i => upd_file i (drop_lock k) s | None => s end.

(** The end of a process, by exit or a signal. *)
Definition exit_step (k : pid) (s : Sys) : Sys :=
  upd_proc k proc0 (mkSys (s_names s) (drop_lock k <$> s_files s) (delete k (s_gc s)) (s_procs s)).

(** * Steps *)

Inductive Call := CAddTempRoot (path : bytes) | CSyncWithGC | CCollectGarbage | CDestroy.

(** What an idle process calls; and, for a call that is under way, what the code
    does not decide: whether an [unlink] fails, the inode of a new file, how much a
    [write] writes, the order of the entries of a directory. *)
Inductive Action :=
  | Begin (c : Call)
  | Run
  | RunFail
  | RunInode (i : nat)
  | RunBytes (n : nat)
  | RunEntries (l : list pid).

Section steps.
Context (nixStore : bytes) (k : pid).

Definition begin (c : Call) (s : Sys) : Sys :=
  let p := s_procs s k in
  match c with
  | CAddTempRoot path => upd_proc k (set_pc (match p_fd p with None => TLockGC path | Some _ => TUpgrade path end) p) s
  | CSyncWithGC => upd_proc k (set_pc SLock p) s
  | CCollectGarbage => upd_proc k (set_pc GLock p) s
  | CDestroy =>
      match p_fd p with
      | None => s
      | Some i => upd_proc k (mkProc DUnlink None []) (close k (Some i) s)
      end
  end.

(** [addTempRoot] *)
Definition addTempRoot_step (a : Action) (s : Sys) : option Sys :=
  let p := s_procs s k in
  let goto pc s := Some (upd_proc k (set_pc pc p) s) in
  match p_pc p, a with
  | TLockGC path, Run =>
      match openGCLock k ltRead s with Some s => goto (TUnlink path) s | None => None end
  | TUnlink path, Run => goto (TOpen path) (unlink k s)
  | TUnlink path, RunFail => goto (TOpen path) s
  | TOpen path, RunInode i =>
      match s_names s !! k with
      | Some j => Some (upd_proc k (mkProc (TCloseGC path) (Some j) (p_roots p)) (close k (p_fd p) s))
      | None =>
          if decide (s_files s !! i = None)
          then Some (upd_proc k (mkProc (TCloseGC path) (Some i) (p_roots p)) (close k (p_fd p) (create k i s)))
          else None
      end
  | TCloseGC path, Run => goto (TLock path) (upd_gc (delete k) s)
  | TLock path, Run =>
      i ← p_fd p;
      match lockFile k i ltRead s with Some s => goto (TCheck path) s | None => None end
  | TCheck path, Run =>
      i ← p_fd p;
      goto (if decide (contents_of s i = []) then TUpgrade path else TLockGC path) s
  | TUpgrade path, Run =>
      i ← p_fd p;
      match lockFile k i ltWrite s with
      | Some s => goto (TWrite path (temp_root_record path)) s
      | None => None
      end
  | TWrite path rest, RunBytes n =>
      i ← p_fd p;
      if decide (n = 0 ∨ length rest < n) then None
      else
        let s := upd_file i (set_contents (λ c, c ++ take n rest)) s in
        if decide (n = length rest)
        then Some (upd_proc k (mkProc (TDowngrade path) (Some i) (p_roots p ++ [path])) s)
        else goto (TWrite path (drop n rest)) s
  | TDowngrade path, Run =>
      i ← p_fd p;
      match lockFile k i ltRead s with Some s => goto Idle s | None => None end
  | _, _ => None
  end.

(** [syncWithGC], and the rest of the destructor *)
Definition other_step (a : Action) (s : Sys) : option Sys :=
  let p := s_procs s k in
  let goto pc s := Some (upd_proc k (set_pc pc p) s) in
  match p_pc p, a with
  | SLock, Run => match openGCLock k ltRead s with Some s => goto SClose s | None => None end
  | SClose, Run => goto Idle (upd_gc (delete k) s)
  | DUnlink, Run => goto Idle (unlink k s)
  | DUnlink, RunFail => goto Idle s
  | _, _ => None
  end.

(** The body of the loop of [readTempRoots]. *)
Definition file_step (stage : FileStage) (i : nat) (n : pid) (todo : list pid) (tempRoots : strset)
    (fds : list nat) (a : Action) (s : Sys) : option Sys :=
  let p := s_procs s k in
  let goto pc s := Some (upd_proc k (set_pc pc p) s) in
  match stage, a with
  | FTry, Run =>
      match lockFile k i ltWrite s with
      | Some s => goto (GFile FUnlink i n todo tempRoots fds) s
      | None => goto (GFile FWait i n todo tempRoots fds) s
      end
  | FUnlink, Run => goto (GFile FToken i n todo tempRoots fds) (unlink n s)
  | FUnlink, RunFail => goto (GFile FToken i n todo tempRoots fds) s
  | FToken, Run =>
      goto (GFile FClose i n todo tempRoots fds) (upd_file i (set_contents (λ c, str "d" ++ drop 1 c)) s)
  | FClose, Run => goto (GNext todo tempRoots fds) (close k (Some i) s)
  | FWait, Run =>
      match lockFile k i ltRead s with
      | Some s => goto (GFile FRead i n todo tempRoots fds) s
      | None => None
      end
  | FRead, Run =>
      let contents := contents_of s i in
      match readTempRoots_loop (length contents) nixStore contents 0 tempRoots with
      | Ret tempRoots => goto (GNext todo tempRoots (fds ++ [i])) s
      | _ => goto (GClose (i :: fds)) s
      end
  | _, _ => None
  end.

(** [collectGarbage]; an exception closes the descriptors too. *)
Definition collect_step (a : Action) (s : Sys) : option Sys :=
  let p := s_procs s k in
  let goto pc s := Some (upd_proc k (set_pc pc p) s) in
  match p_pc p, a with
  | GLock, Run => match openGCLock k ltWrite s with Some s => goto GList s | None => None end
  | GList, RunEntries l =>
      if decide (list_to_set l = dom (s_names s)) then goto (GNext l [] []) s else None
  | GNext [] tempRoots fds, Run => goto (GDelete tempRoots fds) s
  | GNext (n :: todo) tempRoots fds, Run =>
      match s_names s !! n with
      | None => goto (GNext todo tempRoots fds) s
      | Some i => goto (GFile FTry i n todo tempRoots fds) s
      end
  | GFile stage i n todo tempRoots fds, a => file_step stage i n todo tempRoots fds a s
  | GDelete _ fds, Run => goto (GClose fds) s
  | GClose (i :: fds), Run => goto (GClose fds) (close k (Some i) s)
  | GClose [], Run => goto Idle (upd_gc (delete k) s)
  | _, _ => None
  end.

Definition step (a : Action) (s : Sys) : option Sys :=
  match p_pc (s_procs s k) with
  | Idle => match a with Begin c => Some (begin c s) | _ => None end
  | SLock | SClose | DUnlink => other_step a s
  | GLock | GList | GNext _ _ _ | GFile _ _ _ _ _ _ | GDelete _ _ | GClose _ => collect_step a s
  | _ => addTempRoot_step a s
  end.
End steps.

(** ** Runs *)

Section runs.
Context (nixStore : bytes).

(** A process has unlinked a roots file and has not marked it yet. *)
Definition tokening (p : Proc) (i : nat) : Prop :=
  ∃ n todo tempRoots fds, p_pc p = GFile FToken i n todo tempRoots fds.

(** What is asked of the callers: temporary roots are store paths without NUL bytes,
    and a process that collects garbage has registered none. *)
Definition allowed (p : Proc) (a : Action) : Prop :=
  match a with
  | Begin (CAddTempRoot path) => nul_free path ∧ isStorePath nixStore path = true
  | Begin CCollectGarbage => p_fd p = None
  | _ => True
  end.

Inductive sys_step (s : Sys) : Sys → Prop :=
  | sys_run k a s' : allowed (s_procs s k) a → step nixStore k a s = Some s' → sys_step s s'
  | sys_exit k : (∀ i, ¬ tokening (s_procs s k) i) → sys_step s (exit_step k s).

(** Processes do what they like, and are killed at any time. *)
Inductive any_step (s : Sys) : Sys → Prop :=
  | any_run k a s' : step nixStore k a s = Some s' → any_step s s'
  | any_killed k : any_step s (exit_step k s).
End runs.
