(* ===== verification/TempRootsSafety.v ===== *)
(** Temporary roots are safe: an invariant of the processes that register them and
    of the collector, and what follows from it. *)

From stdpp Require Import functions.
From S2P Require Import Prelude Containers Serialise Paths StorePaths Roots TempRoots.

Section runs.
Context (nixStore : bytes).

(** * The invariant *)

Definition gc_lock_of (pc : Pc) : option LockType :=
  match pc with
  | TUnlink _ | TOpen _ | TCloseGC _ | SClose => Some ltRead
  | GList | GNext _ _ _ | GFile _ _ _ _ _ _ | GDelete _ _ | GClose _ => Some ltWrite
  | _ => None
  end.

(** [addTempRoot] is in its loop, and the file is not known to be good. *)
Definition creating (pc : Pc) : bool :=
  match pc with TLockGC _ | TUnlink _ | TOpen _ | TCloseGC _ | TLock _ | TCheck _ => true | _ => false end.
(** It has opened a file ... *)
Definition unchecked (pc : Pc) : bool := match pc with TCloseGC _ | TLock _ | TCheck _ => true | _ => false end.
(** ... and does not hold the global lock any more. *)
Definition waits_for_file (pc : Pc) : bool := match pc with TLock _ | TCheck _ => true | _ => false end.
Definition writing (pc : Pc) : bool := match pc with TWrite _ _ | TDowngrade _ => true | _ => false end.
Definition needs_fd (pc : Pc) : bool :=
  match pc with TCloseGC _ | TLock _ | TCheck _ | TUpgrade _ | TWrite _ _ | TDowngrade _ => true | _ => false end.

(** The files that a collector has locked, and the one it removes. *)
Definition held (pc : Pc) : list nat :=
  match pc with
  | GNext _ _ fds | GDelete _ fds | GClose fds | GFile (FTry | FWait) _ _ _ _ fds => fds
  | GFile _ i _ _ _ fds => i :: fds
  | _ => []
  end.
Definition erasing (pc : Pc) : option nat :=
  match pc with GFile (FUnlink | FToken | FClose) i _ _ _ _ => Some i | _ => None end.

Definition owner_lock (pc : Pc) : LockType := if writing pc then ltWrite else ltRead.

(** What [addTempRoot] has written of the record it is at. *)
Definition partial (pc : Pc) (d : bytes) : Prop :=
  match pc with TWrite path rest => temp_root_record path = d ++ rest ∧ rest ≠ [] | _ => d = [] end.

Definition root_ok (path : bytes) : Prop := nul_free path ∧ isStorePath nixStore path = true.

Definition pending (pc : Pc) : option bytes :=
  match pc with
  | TLockGC path | TUnlink path | TOpen path | TCloseGC path | TLock path | TCheck path
  | TUpgrade path | TWrite path _ | TDowngrade path => Some path
  | _ => None
  end.

(** The file of process [k], in use. *)
Definition file_ok (s : Sys) (k : pid) (p : Proc) (i : nat) : Prop :=
  s_names s !! k = Some i ∧ locks_of s i !! k = Some (owner_lock (p_pc p)) ∧
  ∃ d, partial (p_pc p) d ∧ contents_of s i = mjoin (temp_root_record <$> p_roots p) ++ d.

(** The file of process [k], opened and not in use yet. *)
Definition new_file_ok (s : Sys) (k : pid) (p : Proc) (i : nat) : Prop :=
  (contents_of s i = [] → s_names s !! k = Some i ∨ ∃ c, tokening (s_procs s c) i) ∧
  (∀ path, p_pc p = TCheck path → locks_of s i !! k = Some ltRead).

(** The files that matter for a collection. *)
Definition coming_as (s : Sys) (p : Proc) (i : nat) : Prop :=
  p_fd p = Some i ∧ (creating (p_pc p) = false ∨ (waits_for_file (p_pc p) = true ∧ contents_of s i = [])).
Definition coming (s : Sys) (k : pid) : nat → Prop := coming_as s (s_procs s k).

(** A collector [c] has yet to look at the files of [todo]; it has read the others,
    and keeps them locked. *)
Definition covers (s : Sys) (c : pid) (todo : list pid) (tempRoots : strset) : Prop :=
  ∀ k i, k ≠ c → coming s k i →
    k ∈ todo ∨ (locks_of s i !! c = Some ltRead ∧ p_roots (s_procs s k) ⊆ tempRoots).

Definition opened (s : Sys) (i : nat) (n : pid) : Prop :=
  (rf_pid <$> s_files s !! i) = Some n ∧ (s_names s !! n = Some i ∨ s_names s !! n = None).

Definition stage_ok (s : Sys) (c : pid) (st : FileStage) (i : nat) : Prop :=
  match st with
  | FTry | FWait => True
  | FUnlink | FToken => locks_of s i !! c = Some ltWrite
  | FClose => locks_of s i !! c = Some ltWrite ∧ contents_of s i ≠ []
  | FRead => locks_of s i !! c = Some ltRead
  end.

Definition collector_ok (s : Sys) (c : pid) (pc : Pc) : Prop :=
  match pc with
  | GNext todo r _ => covers s c todo r
  | GFile st i n todo r _ => covers s c (n :: todo) r ∧ opened s i n ∧ stage_ok s c st i
  | GDelete r _ => covers s c [] r
  | _ => True
  end.

Definition collects (pc : Pc) : bool :=
  match pc with GLock | GList | GNext _ _ _ | GFile _ _ _ _ _ _ | GDelete _ _ | GClose _ => true | _ => false end.

Record proc_ok (s : Sys) (k : pid) (p : Proc) : Prop := {
  ok_gc : s_gc s !! k = gc_lock_of (p_pc p);
  ok_fd i : p_fd p = Some i → (rf_pid <$> s_files s !! i) = Some k;
  ok_file i : p_fd p = Some i → creating (p_pc p) = false → file_ok s k p i;
  ok_new i : p_fd p = Some i → unchecked (p_pc p) = true → new_file_ok s k p i;
  ok_has_fd : needs_fd (p_pc p) = true → p_fd p ≠ None;
  ok_no_roots : p_fd p = None ∨ creating (p_pc p) = true → p_roots p = [];
  ok_roots : Forall root_ok (p_roots p);
  ok_pending path : pending (p_pc p) = Some path → root_ok path;
  ok_collects : collects (p_pc p) = true ∨ p_pc p = DUnlink → p_fd p = None;
  ok_collector : collector_ok s k (p_pc p)
}.

(** A lock is held by the process that the file is named after, or by the
    collector. *)
Definition holder_as (s : Sys) (a : pid) (p : Proc) (i : nat) (t : LockType) : Prop :=
  ((rf_pid <$> s_files s !! i) = Some a ∧ p_fd p = Some i ∧ (t = ltWrite → writing (p_pc p) = true)) ∨
  (i ∈ held (p_pc p) ∧ (t = ltWrite → erasing (p_pc p) = Some i)).
Definition holder_ok (s : Sys) (i : nat) (a : pid) : LockType → Prop := holder_as s a (s_procs s a) i.

Record Inv (s : Sys) : Prop := {
  inv_gc k k' t : s_gc s !! k = Some ltWrite → s_gc s !! k' = Some t → k = k';
  inv_names n i : s_names s !! n = Some i → (rf_pid <$> s_files s !! i) = Some n;
  inv_locks i a b t : locks_of s i !! a = Some ltWrite → locks_of s i !! b = Some t → a = b;
  inv_holder i a t : locks_of s i !! a = Some t → holder_ok s i a t;
  inv_procs k : proc_ok s k (s_procs s k)
}.

Lemma roots_initial : Inv initial.
Proof. split; done. Qed.

(** * What a step leaves alone *)

Record frame (k : pid) (s s' : Sys) : Prop := {
  fr_procs k' : k' ≠ k → s_procs s' k' = s_procs s k';
  fr_gc k' : k' ≠ k → s_gc s' !! k' = s_gc s !! k';
  fr_pid i n : (rf_pid <$> s_files s !! i) = Some n → (rf_pid <$> s_files s' !! i) = Some n;
  fr_locks i k' : k' ≠ k → locks_of s' i !! k' = locks_of s i !! k';
  fr_contents i k' t : k' ≠ k → locks_of s i !! k' = Some t → contents_of s' i = contents_of s i;
  fr_nonempty i n : (rf_pid <$> s_files s !! i) = Some n → contents_of s' i = [] → contents_of s i = [];
  fr_names k' i : k' ≠ k → s_names s !! k' = Some i →
    s_names s' !! k' = Some i ∨
    (s_names s' !! k' = None ∧ tokening (s_procs s' k) i ∧ locks_of s i !! k = Some ltWrite);
  fr_no_names k' : k' ≠ k → s_names s !! k' = None → s_names s' !! k' = None;
  fr_own c : c ≠ k → s_gc s !! c = Some ltWrite → s_names s' !! k = s_names s !! k ∨ s_names s' !! k = None;
  fr_token i : tokening (s_procs s k) i → tokening (s_procs s' k) i ∨ contents_of s' i ≠ [];
  fr_coming c i : c ≠ k → s_gc s !! c = Some ltWrite → coming s' k i →
    coming s k i ∧ (p_roots (s_procs s' k) ⊆ p_roots (s_procs s k) ∨ locks_of s i !! c = None)
}.

Section frame.
Context (k : pid) (s s' : Sys) (Hinv : Inv s) (Hf : frame k s s').

Lemma frame_file_ok k' i : k' ≠ k → file_ok s k' (s_procs s k') i → file_ok s' k' (s_procs s k') i.
Proof.
  intros Hne (Hn & Hl & d & Hd & Hc). split_and!.
  - destruct (fr_names _ _ _ Hf k' i Hne Hn) as [?|(_ & _ & Hw)]; [done|].
    by destruct Hne, (inv_locks _ Hinv i k k' _ Hw Hl).
  - by rewrite (fr_locks _ _ _ Hf).
  - exists d. split; [done|]. by rewrite (fr_contents _ _ _ Hf i k' _ Hne Hl).
Qed.

Lemma frame_new_file_ok k' i : k' ≠ k → (rf_pid <$> s_files s !! i) = Some k' →
  new_file_ok s k' (s_procs s k') i → new_file_ok s' k' (s_procs s k') i.
Proof.
  intros Hne Hi [Hn Hl]. split.
  - intros Hc. destruct (Hn (fr_nonempty _ _ _ Hf i k' Hi Hc)) as [Hk|[c Ht]].
    + destruct (fr_names _ _ _ Hf k' i Hne Hk) as [?|(_ & ? & _)]; [by left|right; by exists k].
    + right. destruct (decide (c = k)) as [->|Hck].
      * destruct (fr_token _ _ _ Hf i Ht); [by exists k|done].
      * exists c. by rewrite (fr_procs _ _ _ Hf).
  - intros path Hp. rewrite (fr_locks _ _ _ Hf) by done. by eapply Hl.
Qed.

Lemma frame_coming k' i : k' ≠ k → coming s' k' i → coming s k' i.
Proof.
  intros Hne [Hi Hc]. rewrite (fr_procs _ _ _ Hf) in Hi, Hc by done. split; [done|].
  destruct Hc as [?|[? Hc]]; [by left|right; split; [done|]].
  eapply (fr_nonempty _ _ _ Hf); [|done]. by apply (ok_fd _ _ _ (inv_procs _ Hinv k')).
Qed.

Lemma frame_covers c todo r : c ≠ k → s_gc s !! c = Some ltWrite → covers s c todo r → covers s' c todo r.
Proof.
  intros Hne Hg Hcov m i Hm Hc. rewrite (fr_locks _ _ _ Hf) by done. destruct (decide (m = k)) as [->|Hmk].
  - destruct (fr_coming _ _ _ Hf c i Hne Hg Hc) as [Hc' Hr]. destruct (Hcov k i Hm Hc') as [?|[Hl Hs]]; [by left|].
    right. split; [done|]. destruct Hr as [Hr|Hr]; [by etrans|congruence].
  - rewrite (fr_procs _ _ _ Hf) by done. apply Hcov; [done|]. by apply frame_coming.
Qed.

Lemma frame_opened c i n : c ≠ k → s_gc s !! c = Some ltWrite → opened s i n → opened s' i n.
Proof.
  intros Hne Hg [Hi Hn]. split; [by apply (fr_pid _ _ _ Hf)|]. destruct (decide (n = k)) as [->|Hnk].
  - destruct (fr_own _ _ _ Hf c Hne Hg) as [->|?]; [done|by right].
  - destruct Hn as [Hn|Hn]; [|right; by apply (fr_no_names _ _ _ Hf)].
    destruct (fr_names _ _ _ Hf n i Hnk Hn) as [?|(? & _)]; auto.
Qed.

Lemma frame_stage_ok c st i : c ≠ k → (rf_pid <$> s_files s !! i) ≠ None → stage_ok s c st i → stage_ok s' c st i.
Proof.
  intros Hne Hi. destruct (rf_pid <$> s_files s !! i) as [n|] eqn:E; [|done].
  destruct st; cbn [stage_ok]; rewrite ?(fr_locks _ _ _ Hf) by done; try done.
  intros [? Hc]. split; [done|]. intros E'. by apply Hc, (fr_nonempty _ _ _ Hf i n).
Qed.

Lemma frame_others_ok k' : k' ≠ k → proc_ok s' k' (s_procs s k').
Proof.
  intros Hne. destruct (inv_procs _ Hinv k') as [H1 H2 H3 H4 H5 H6 H7 H8 H9 H10]. split; try done.
  - by rewrite (fr_gc _ _ _ Hf).
  - intros i Hi. by apply (fr_pid _ _ _ Hf), H2.
  - intros i Hi Hc. by apply frame_file_ok, H3.
  - intros i Hi Hc. by apply frame_new_file_ok; [|apply H2|apply H4].
  - destruct (p_pc (s_procs s k')); cbn [collector_ok gc_lock_of] in *; try done.
    + by apply frame_covers.
    + destruct H10 as (Hc & Ho & Hs). split_and!; [by apply frame_covers|by eapply frame_opened|].
      apply frame_stage_ok; [done| |done]. by rewrite (proj1 Ho).
    + by apply frame_covers.
Qed.
End frame.

(** ** A step keeps the invariant *)

Record own_part (k : pid) (s s' : Sys) : Prop := {
  own_gc t : s_gc s' !! k = Some t → s_gc s !! k = Some t ∨ grants (s_gc s) k t = true;
  own_names n i : s_names s' !! n = Some i → s_names s !! n = Some i ∨ (rf_pid <$> s_files s' !! i) = Some n;
  own_locks i t : locks_of s' i !! k = Some t → locks_of s i !! k = Some t ∨ grants (locks_of s i) k t = true;
  own_holder i t : locks_of s' i !! k = Some t → holder_ok s' i k t;
  own_proc : proc_ok s' k (s_procs s' k)
}.

Lemma grants_spec locks k t q l : grants locks k t = true → locks !! q = Some l → q = k ∨ (t = ltRead ∧ l = ltRead).
Proof. unfold grants. rewrite bool_decide_eq_true. intros H Hq. by apply (H q l). Qed.

Lemma exclusive_step (locks locks' : gmap pid LockType) k :
  (∀ a b t, locks !! a = Some ltWrite → locks !! b = Some t → a = b) →
  (∀ k', k' ≠ k → locks' !! k' = locks !! k') →
  (∀ t, locks' !! k = Some t → locks !! k = Some t ∨ grants locks k t = true) →
  ∀ a b t, locks' !! a = Some ltWrite → locks' !! b = Some t → a = b.
Proof.
  intros Hx Ho Hk a b t Ha Hb. destruct (decide (a = k)) as [->|Hak], (decide (b = k)) as [->|Hbk]; [done|..].
  - rewrite Ho in Hb by done. destruct (Hk _ Ha) as [?|Hg]; [by eapply Hx|].
    destruct (grants_spec _ _ _ _ _ Hg Hb) as [?|[? _]]; done.
  - rewrite Ho in Ha by done. destruct (Hk _ Hb) as [?|Hg]; [by eapply Hx|].
    destruct (grants_spec _ _ _ _ _ Hg Ha) as [?|[_ ?]]; done.
  - rewrite Ho in Ha, Hb by done. by eapply Hx.
Qed.

Lemma framed_inv k s s' : Inv s → frame k s s' → own_part k s s' → Inv s'.
Proof.
  intros Hinv Hf [Hg Hn Hl Hh Hp]. split.
  - intros a b t. eapply exclusive_step; [intros ? ? ?; apply (inv_gc _ Hinv)|apply (fr_gc _ _ _ Hf)|done].
  - intros n i [Hi|?]%Hn; [|done]. by apply (fr_pid _ _ _ Hf), (inv_names _ Hinv).
  - intros i a b t. eapply exclusive_step; [intros ? ? ?; apply (inv_locks _ Hinv)|intros; by apply (fr_locks _ _ _ Hf)|apply Hl].
  - intros i a t Ha. destruct (decide (a = k)) as [->|Hne]; [by apply Hh|].
    rewrite (fr_locks _ _ _ Hf) in Ha by done. unfold holder_ok, holder_as. rewrite (fr_procs _ _ _ Hf) by done.
    destruct (inv_holder _ Hinv i a t Ha) as [(Hi & ? & ?)|?]; [left|by right].
    split_and!; [by apply (fr_pid _ _ _ Hf)|done|done].
  - intros k'. destruct (decide (k' = k)) as [->|Hne]; [done|]. rewrite (fr_procs _ _ _ Hf) by done.
    by apply (frame_others_ok k s).
Qed.

(** ** System calls *)

Lemma procs_same k p s : s_procs (upd_proc k p s) k = p.
Proof. apply fn_lookup_insert. Qed.
Lemma procs_other k k' p s : k' ≠ k → s_procs (upd_proc k p s) k' = s_procs s k'.
Proof. intros. by apply fn_lookup_insert_ne. Qed.

Lemma pid_upd i f s j : (∀ x, rf_pid (f x) = rf_pid x) →
  (rf_pid <$> s_files (upd_file i f s) !! j) = (rf_pid <$> s_files s !! j).
Proof.
  intros Hf. cbn. destruct (decide (i = j)) as [->|Hne]; [|by rewrite lookup_alter_ne].
  rewrite lookup_alter_eq. destruct (s_files s !! j); [|done]. simpl. by rewrite Hf.
Qed.

Lemma locks_set_lock i k t s j a : is_Some (rf_pid <$> s_files s !! i) →
  locks_of (upd_file i (set_lock k t) s) j !! a = if decide (j = i ∧ a = k) then Some t else locks_of s j !! a.
Proof.
  intros [n Hn]. unfold locks_of. cbn. destruct (decide (i = j)) as [->|Hne].
  - rewrite lookup_alter_eq. destruct (s_files s !! j) as [f|]; [|done]. simpl.
    destruct (decide (a = k)) as [->|Hak]; [by rewrite lookup_insert_eq, decide_True|].
    rewrite lookup_insert_ne, decide_False by naive_solver. done.
  - rewrite lookup_alter_ne, decide_False by naive_solver. done.
Qed.

Lemma locks_drop i k s j a :
  locks_of (upd_file i (drop_lock k) s) j !! a = if decide (j = i ∧ a = k) then None else locks_of s j !! a.
Proof.
  unfold locks_of. cbn. destruct (decide (i = j)) as [->|Hne].
  - rewrite lookup_alter_eq. destruct (s_files s !! j) as [f|]; simpl.
    + destruct (decide (a = k)) as [->|Hak]; [by rewrite lookup_delete_eq, decide_True|].
      rewrite lookup_delete_ne, decide_False by naive_solver. done.
    + rewrite lookup_empty. by destruct (decide _).
  - rewrite lookup_alter_ne, decide_False by naive_solver. done.
Qed.

Lemma locks_set_contents i g s j : locks_of (upd_file i (set_contents g) s) j = locks_of s j.
Proof.
  unfold locks_of. cbn. destruct (decide (i = j)) as [->|Hne]; [|by rewrite lookup_alter_ne].
  rewrite lookup_alter_eq. by destruct (s_files s !! j).
Qed.

Lemma contents_upd i f s j : (∀ x, rf_contents (f x) = rf_contents x) →
  contents_of (upd_file i f s) j = contents_of s j.
Proof.
  intros Hf. unfold contents_of. cbn. destruct (decide (i = j)) as [->|Hne]; [|by rewrite lookup_alter_ne].
  rewrite lookup_alter_eq. destruct (s_files s !! j); [|done]. simpl. by rewrite Hf.
Qed.

Lemma contents_set_contents i g s j : is_Some (rf_pid <$> s_files s !! i) →
  contents_of (upd_file i (set_contents g) s) j = if decide (j = i) then g (contents_of s i) else contents_of s j.
Proof.
  intros [n Hn]. unfold contents_of. cbn. destruct (decide (i = j)) as [->|Hne].
  - rewrite lookup_alter_eq, decide_True by done. by destruct (s_files s !! j).
  - rewrite lookup_alter_ne, decide_False by congruence. done.
Qed.

(** ** Steps that change neither the contents of files nor the names of others *)

Record quiet (k : pid) (s s1 : Sys) : Prop := {
  q_procs : s_procs s1 = s_procs s;
  q_names a : a ≠ k → s_names s1 !! a = s_names s !! a;
  q_pid j n : (rf_pid <$> s_files s !! j) = Some n → (rf_pid <$> s_files s1 !! j) = Some n;
  q_contents j : contents_of s1 j = contents_of s j;
  q_locks j a : a ≠ k → locks_of s1 j !! a = locks_of s j !! a;
  q_gc a : a ≠ k → s_gc s1 !! a = s_gc s !! a
}.

Lemma quiet_refl k s : quiet k s s.
Proof. by split. Qed.
Lemma quiet_gc_lock k t s : quiet k s (upd_gc <[k := t]> s).
Proof. split; try done. intros a Ha. cbn. by rewrite lookup_insert_ne. Qed.
Lemma quiet_gc_unlock k s : quiet k s (upd_gc (delete k) s).
Proof. split; try done. intros a Ha. cbn. by rewrite lookup_delete_ne. Qed.
Lemma quiet_lock k i t s : is_Some (rf_pid <$> s_files s !! i) → quiet k s (upd_file i (set_lock k t) s).
Proof.
  intros Hi. split; try done; [intros j n; by rewrite pid_upd|intros j; by apply contents_upd|].
  intros j a Ha. rewrite locks_set_lock, decide_False by naive_solver. done.
Qed.
Lemma quiet_close k i s : quiet k s (upd_file i (drop_lock k) s).
Proof.
  split; try done; [intros j n; by rewrite pid_upd|intros j; by apply contents_upd|].
  intros j a Ha. rewrite locks_drop, decide_False by naive_solver. done.
Qed.
Lemma quiet_unlink k s : quiet k s (unlink k s).
Proof. split; try done. intros a Ha. cbn. by rewrite lookup_delete_ne. Qed.
Lemma quiet_create k i s : s_files s !! i = None → quiet k s (create k i s).
Proof.
  intros Hi. split; try done.
  - intros a Ha. cbn. by rewrite lookup_insert_ne.
  - intros j n. cbn. destruct (decide (i = j)) as [->|Hne]; [by rewrite Hi|by rewrite lookup_insert_ne].
  - intros j. unfold contents_of. cbn. destruct (decide (i = j)) as [->|Hne]; [by rewrite lookup_insert_eq, Hi|by rewrite lookup_insert_ne].
  - intros j a _. unfold locks_of. cbn. destruct (decide (i = j)) as [->|Hne]; [by rewrite lookup_insert_eq, Hi|by rewrite lookup_insert_ne].
Qed.
Lemma quiet_trans k s1 s2 s3 : quiet k s1 s2 → quiet k s2 s3 → quiet k s1 s3.
Proof.
  intros [P1 N1 I1 C1 L1 G1] [P2 N2 I2 C2 L2 G2]. split; [congruence|..].
  - intros a Ha. by rewrite N2, N1.
  - intros j n Hj. by apply I2, I1.
  - intros j. by rewrite C2, C1.
  - intros j a Ha. by rewrite L2, L1.
  - intros a Ha. by rewrite G2, G1.
Qed.
Lemma quiet_close_opt k fd s : quiet k s (close k fd s).
Proof. destruct fd; [apply quiet_close|apply quiet_refl]. Qed.

Lemma frame_quiet k s s1 p' :
  quiet k s s1 →
  (∀ c, c ≠ k → s_gc s !! c = Some ltWrite → s_names s1 !! k = s_names s !! k ∨ s_names s1 !! k = None) →
  (∀ i, tokening (s_procs s k) i → tokening p' i) →
  (∀ c i, c ≠ k → s_gc s !! c = Some ltWrite → coming_as s p' i →
     coming s k i ∧ (p_roots p' ⊆ p_roots (s_procs s k) ∨ locks_of s i !! c = None)) →
  frame k s (upd_proc k p' s1).
Proof.
  intros [Hp Hn Hpid Hc Hl Hg] Hown Ht Hcom. split.
  - intros k' Hne. rewrite procs_other by done. by rewrite Hp.
  - intros k' Hne. by apply Hg.
  - intros i n. apply Hpid.
  - intros i k' Hne. by apply Hl.
  - intros i k' t Hne _. apply Hc.
  - intros i n _. change (contents_of s1 i = [] → contents_of s i = []). by rewrite Hc.
  - intros k' i Hne Hi. left. cbn. by rewrite Hn.
  - intros k' Hne Hi. cbn. by rewrite Hn.
  - done.
  - intros i Hi. left. rewrite procs_same. by apply Ht.
  - intros c i Hne Hgc. unfold coming at 1, coming_as. rewrite procs_same.
    change (contents_of (upd_proc k p' s1) i) with (contents_of s1 i). rewrite Hc. by apply Hcom.
Qed.

(** The coverage of a collector that moves on. *)
Lemma covers_own k s s1 p' todo todo' r r' :
  quiet k s s1 → covers s k todo r → r ⊆ r' →
  (∀ m i, m ≠ k → coming s m i → m ∈ todo → m ∉ todo' → locks_of s1 i !! k = Some ltRead ∧ p_roots (s_procs s m) ⊆ r') →
  (∀ m i, m ≠ k → coming s m i → locks_of s i !! k = Some ltRead → m ∉ todo' → locks_of s1 i !! k = Some ltRead) →
  covers (upd_proc k p' s1) k todo' r'.
Proof.
  intros Hq Hcov Hr Hnew Hold m i Hne. unfold coming, coming_as. rewrite procs_other by done.
  change (contents_of (upd_proc k p' s1) i) with (contents_of s1 i).
  change (locks_of (upd_proc k p' s1) i) with (locks_of s1 i).
  rewrite (q_procs _ _ _ Hq), (q_contents _ _ _ Hq). intros Hc. destruct (decide (m ∈ todo')) as [|Hni]; [by left|right].
  destruct (Hcov m i Hne Hc) as [Hm|[Hl Hs]]; [by apply Hnew|]. split; [by eapply Hold|by etrans].
Qed.

Lemma quiet_names_inv k s s1 p' :
  Inv s → quiet k s s1 →
  (∀ c, c ≠ k → s_gc s !! c = Some ltWrite → s_names s1 !! k = s_names s !! k ∨ s_names s1 !! k = None) →
  (∀ i, s_names s1 !! k = Some i → s_names s !! k = Some i ∨ (rf_pid <$> s_files s1 !! i) = Some k) →
  (∀ i, tokening (s_procs s k) i → tokening p' i) →
  (∀ c i, c ≠ k → s_gc s !! c = Some ltWrite → coming_as s p' i →
     coming s k i ∧ (p_roots p' ⊆ p_roots (s_procs s k) ∨ locks_of s i !! c = None)) →
  (∀ t, s_gc s1 !! k = Some t → s_gc s !! k = Some t ∨ grants (s_gc s) k t = true) →
  (∀ i t, locks_of s1 i !! k = Some t →
     (locks_of s i !! k = Some t ∨ grants (locks_of s i) k t = true) ∧ holder_as s1 k p' i t) →
  proc_ok (upd_proc k p' s1) k p' →
  Inv (upd_proc k p' s1).
Proof.
  intros Hinv Hq Hn1 Hn2 Ht Hc Hg Hl Hp. eapply framed_inv; [done|by apply frame_quiet|]. split.
  - done.
  - intros n i Hi. destruct (decide (n = k)) as [->|Hne]; [by apply Hn2|]. left. by rewrite <-(q_names _ _ _ Hq).
  - intros i t Hi. by apply Hl.
  - intros i t Hi. unfold holder_ok. rewrite procs_same. by apply Hl.
  - by rewrite procs_same.
Qed.

Lemma quiet_inv k s s1 p' :
  Inv s → quiet k s s1 → s_names s1 = s_names s →
  (∀ i, tokening (s_procs s k) i → tokening p' i) →
  (∀ c i, c ≠ k → s_gc s !! c = Some ltWrite → coming_as s p' i →
     coming s k i ∧ (p_roots p' ⊆ p_roots (s_procs s k) ∨ locks_of s i !! c = None)) →
  (∀ t, s_gc s1 !! k = Some t → s_gc s !! k = Some t ∨ grants (s_gc s) k t = true) →
  (∀ i t, locks_of s1 i !! k = Some t →
     (locks_of s i !! k = Some t ∨ grants (locks_of s i) k t = true) ∧ holder_as s k p' i t) →
  proc_ok (upd_proc k p' s1) k p' →
  Inv (upd_proc k p' s1).
Proof.
  intros Hinv Hq Hn Ht Hc Hg Hl Hp. eapply quiet_names_inv; try done.
  - left. by rewrite Hn.
  - left. by rewrite <-Hn.
  - intros i t Hi. destruct (Hl i t Hi) as [? [(? & ? & ?)|?]]; (split; [done|]); [left|by right].
    split_and!; [by apply (q_pid _ _ _ Hq)|done|done].
Qed.

(** *** The process that the step is of *)

Section own.
Context (k : pid) (s : Sys) (Hinv : Inv s).
Let p := s_procs s k.
Let Hp : proc_ok s k p := inv_procs _ Hinv k.

(** A process that does not collect has locks on its own file only. *)
Lemma owner_locks i t : held (p_pc p) = [] → locks_of s i !! k = Some t →
  (rf_pid <$> s_files s !! i) = Some k ∧ p_fd p = Some i ∧ (t = ltWrite → writing (p_pc p) = true).
Proof. intros Hh [?|[Hi _]]%(inv_holder _ Hinv); [done|]. fold p in Hi. rewrite Hh in Hi. by apply not_elem_of_nil in Hi. Qed.

(** A collector has locks on the files it read. *)
Lemma collector_locks i t : p_fd p = None → locks_of s i !! k = Some t →
  i ∈ held (p_pc p) ∧ (t = ltWrite → erasing (p_pc p) = Some i).
Proof. intros Hn [(_ & Hi & _)|?]%(inv_holder _ Hinv); [|done]. fold p in Hi. congruence. Qed.

(** What process [k] relies on for its file does not depend on its own state. *)
Lemma own_file_ok p' s1 p1 i : quiet k s s1 → s_names s1 = s_names s →
  locks_of s1 i !! k = Some (owner_lock (p_pc p')) →
  s_names s !! k = Some i →
  (∃ d, partial (p_pc p') d ∧ contents_of s i = mjoin (temp_root_record <$> p_roots p') ++ d) →
  file_ok (upd_proc k p1 s1) k p' i.
Proof.
  intros Hq Hns Hl Hn Hd. split_and!; [cbn; by rewrite Hns|done|].
  change (contents_of (upd_proc k p1 s1) i) with (contents_of s1 i). by rewrite (q_contents _ _ _ Hq).
Qed.

Lemma own_new_file_ok p' s1 i : quiet k s s1 → s_names s1 = s_names s →
  (∀ j, ¬ tokening p j) →
  new_file_ok s k p i →
  (∀ path, p_pc p' = TCheck path → locks_of s1 i !! k = Some ltRead) →
  new_file_ok (upd_proc k p' s1) k p' i.
Proof.
  intros Hq Hns Ht [Hn _] Hl. split; [|done].
  change (contents_of (upd_proc k p' s1) i) with (contents_of s1 i). rewrite (q_contents _ _ _ Hq).
  intros [?|[c Hc]]%Hn; [left; cbn; by rewrite Hns|]. right. exists c.
  rewrite procs_other by (intros ->; by eapply Ht). by rewrite (q_procs _ _ _ Hq).
Qed.
End own.

(** ** Calls *)

Lemma begin_inv k c s : Inv s → p_pc (s_procs s k) = Idle → allowed nixStore (s_procs s k) (Begin c) → Inv (begin k c s).
Proof.
  intros Hinv Hpc Ha. pose proof (inv_procs _ Hinv k) as Hp.
  assert (∀ i t, locks_of s i !! k = Some t →
    (rf_pid <$> s_files s !! i) = Some k ∧ p_fd (s_procs s k) = Some i ∧ t = ltRead) as Hl.
  { intros i t Hi. destruct (owner_locks k s Hinv i t) as (? & ? & Ht); [by rewrite Hpc|done|].
    split_and!; [done|done|]. destruct t; [done|]. rewrite Hpc in Ht. by specialize (Ht eq_refl). }
  assert (∀ pc, writing pc = false → creating pc = false ∨ (p_fd (s_procs s k) = None ∧ waits_for_file pc = false) →
      gc_lock_of pc = None → unchecked pc = false → (needs_fd pc = true → p_fd (s_procs s k) ≠ None) → 
      (∀ path, pending pc = Some path → root_ok path) → (collects pc = true ∨ pc = DUnlink → p_fd (s_procs s k) = None) →
      (∀ s, collector_ok s k pc) → (∀ d, partial pc d ↔ d = []) →
      Inv (upd_proc k (set_pc pc (s_procs s k)) s)) as Hmove.
  { intros pc Hw Hcr Hg Hfr Hfd Hpe Hco Hcl Hpa. eapply quiet_inv; [done|apply quiet_refl|done|..].
    - intros i (? & ? & ? & ? & E). congruence.
    - intros c' i _ _ [Hi Hc]. cbn in *. split; [|by left]. split; [done|]. rewrite Hpc. by left.
    - by left.
    - intros i t Hi. split; [by left|]. destruct (Hl i t Hi) as (? & ? & ->). by left.
    - destruct Hp as [H1 H2 H3 H4 H5 H6 H7 H8 H9 H10]. rewrite Hpc in *. split; cbn; try done.
      + by rewrite H1, Hg.
      + intros i Hi Hc. destruct (H3 i Hi eq_refl) as (Hn & Hl' & d & Hd & Hc'). eapply own_file_ok; [apply quiet_refl|done| |done|].
        * unfold owner_lock in *. cbn. by rewrite Hw, Hl', Hpc.
        * exists []. split; [by apply Hpa|]. rewrite Hpc in Hd. cbn in Hd. by rewrite Hd in Hc'.
      + intros i Hi Hf. congruence.
      + intros [?|Hc]; [apply H6; by left|]. destruct Hcr as [?|[? _]]; [congruence|]. apply H6. by left. }
  unfold begin. destruct c as [path| | |]; cbn in Ha.
  - destruct (p_fd (s_procs s k)) eqn:Hfd;
      (apply Hmove; [done|by auto|done|done|done|by intros ? [= <-]|by intros [|]|done|done]).
  - apply Hmove; [done|by left|done|done|done|done|by intros [|]|done|done].
  - apply Hmove; [done|by left|done|done|done|done|done|done|done].
  - destruct (p_fd (s_procs s k)) as [i|] eqn:Hfd; [|done]. cbn [close]. eapply quiet_inv; [done|apply quiet_close|done|..].
    + intros j (? & ? & ? & ? & E). congruence.
    + by intros c j _ _ [].
    + by left.
    + intros j t. rewrite locks_drop. destruct (decide _) as [|Hne]; [done|]. intros (? & ? & _)%Hl. naive_solver.
    + destruct Hp as [H1 H2 H3 H4 H5 H6 H7 H8 H9 H10]. split; cbn; try done. by rewrite H1, Hpc.
Qed.

(** ** The loop of [addTempRoot] *)

Lemma grants_none locks k t : (∀ q l, locks !! q = Some l → q = k ∨ (t = ltRead ∧ l = ltRead)) → grants locks k t = true.
Proof. intros H. apply bool_decide_eq_true. intros q l. apply H. Qed.

(** No process opens or creates its file while a collector is at work. *)
Lemma no_collector k s c : Inv s → gc_lock_of (p_pc (s_procs s k)) = Some ltRead → c ≠ k → s_gc s !! c ≠ Some ltWrite.
Proof.
  intros Hinv Hk Hne Hc. rewrite <-(ok_gc _ _ _ (inv_procs _ Hinv k)) in Hk. by destruct Hne, (inv_gc _ Hinv c k _ Hc Hk).
Qed.

Lemma creating_inv k s s1 pc' :
  Inv s → quiet k s s1 → s_names s1 = s_names s → creating (p_pc (s_procs s k)) = true → creating pc' = true →
  pending pc' = pending (p_pc (s_procs s k)) → needs_fd pc' = needs_fd (p_pc (s_procs s k)) ∨ needs_fd pc' = false →
  unchecked pc' = false ∨ unchecked (p_pc (s_procs s k)) = true →
  waits_for_file pc' = false ∨ waits_for_file (p_pc (s_procs s k)) = true ∨ gc_lock_of (p_pc (s_procs s k)) = Some ltRead →
  s_gc s1 !! k = gc_lock_of pc' →
  (gc_lock_of pc' = None ∨ gc_lock_of pc' = gc_lock_of (p_pc (s_procs s k)) ∨ (gc_lock_of pc' = Some ltRead ∧ grants (s_gc s) k ltRead = true)) →
  (∀ i t, locks_of s1 i !! k = Some t → locks_of s i !! k = Some t ∨
     (t = ltRead ∧ p_fd (s_procs s k) = Some i ∧ grants (locks_of s i) k t = true)) →
  (∀ path i, pc' = TCheck path → p_fd (s_procs s k) = Some i → locks_of s1 i !! k = Some ltRead) →
  Inv (upd_proc k (set_pc pc' (s_procs s k)) s1).
Proof.
  intros Hinv Hq Hns Hc Hc' Hpe Hfd Hfr Hwa Hg1 Hg2 Hl Hck. pose proof (inv_procs _ Hinv k) as Hp.
  assert (∀ i, ¬ tokening (s_procs s k) i) as Hnt by (intros i (? & ? & ? & ? & E); rewrite E in Hc; done).
  assert (held (p_pc (s_procs s k)) = []) as Hh by (by destruct (p_pc (s_procs s k))).
  eapply quiet_inv; [done|done|done|..].
  - intros i Hi. by destruct (Hnt i).
  - intros c i Hne Hgc [Hi Hcom]. cbn in *. split; [|by left]. split; [done|].
    destruct Hcom as [?|[Hw ?]]; [congruence|]. destruct Hwa as [?|[?|Hr]]; [congruence|by right|].
    by destruct (no_collector k s c Hinv Hr Hne).
  - intros t. rewrite Hg1. rewrite (ok_gc _ _ _ Hp). destruct Hg2 as [->|[->|[-> ?]]]; [done|by left|intros [= <-]; by right].
  - intros i t Hi. destruct (Hl i t Hi) as [Ho|(-> & Hi' & Hgr)].
    + split; [by left|]. destruct (owner_locks k s Hinv i t Hh Ho) as (? & ? & Hw). left. split_and!; [done|done|].
      intros ->. specialize (Hw eq_refl). by destruct (p_pc (s_procs s k)).
    + split; [by right|]. left. split_and!; [by apply (ok_fd _ _ _ Hp)|done|done].
  - destruct Hp as [H1 H2 H3 H4 H5 H6 H7 H8 H9 H10]. split; cbn; try done.
    + intros i Hi. by apply (q_pid _ _ _ Hq), H2.
    + congruence.
    + intros i Hi Hf. apply (own_new_file_ok k s); [done|done|done| |].
      * apply H4; [done|]. destruct Hfr; congruence.
      * intros path Hpath. by eapply Hck.
    + destruct Hfd as [->| ->]; [done|done].
    + intros _. apply H6. by right.
    + rewrite Hpe. apply H8.
    + destruct pc'; try done; by intros [|].
    + by destruct pc'.
Qed.

Lemma not_tokening k s : erasing (p_pc (s_procs s k)) = None → ∀ i, ¬ tokening (s_procs s k) i.
Proof. intros H i (? & ? & ? & ? & E). by rewrite E in H. Qed.

Lemma TUnlink_inv k s path : Inv s → p_pc (s_procs s k) = TUnlink path →
  Inv (upd_proc k (set_pc (TOpen path) (s_procs s k)) (unlink k s)).
Proof.
  intros Hinv Hpc. pose proof (inv_procs _ Hinv k) as Hp. eapply quiet_names_inv; [done|apply quiet_unlink|..].
  - right. cbn. by rewrite lookup_delete_eq.
  - intros i. cbn. by rewrite lookup_delete_eq.
  - intros i Hi. destruct (not_tokening k s) with i; [by rewrite Hpc|done].
  - intros c i _ _ [_ [?|[? _]]]; done.
  - by left.
  - intros i t Hi. split; [by left|]. destruct (owner_locks k s Hinv i t) as (? & ? & Hw); [by rewrite Hpc|done|].
    left. split_and!; [done|done|]. by rewrite Hpc in Hw.
  - destruct Hp as [H1 H2 H3 H4 H5 H6 H7 H8 H9 H10]. rewrite Hpc in *. split; try done; by intros [|].
Qed.

Lemma DUnlink_inv k s s1 : Inv s → p_pc (s_procs s k) = DUnlink → s1 = s ∨ s1 = unlink k s →
  Inv (upd_proc k (set_pc Idle (s_procs s k)) s1).
Proof.
  intros Hinv Hpc Hs1. pose proof (inv_procs _ Hinv k) as Hp.
  assert (p_fd (s_procs s k) = None) as Hfd by (apply (ok_collects _ _ _ Hp); by right).
  assert (quiet k s s1 ∧ s_gc s1 = s_gc s ∧ (∀ i, locks_of s1 i = locks_of s i) ∧
    (s_names s1 !! k = s_names s !! k ∨ s_names s1 !! k = None)) as (Hq & Hg & Hl & Hn).
  { destruct Hs1 as [->| ->]; (split_and!; [|done|done|]); [apply quiet_refl|by left|apply quiet_unlink|].
    right. cbn. by rewrite lookup_delete_eq. }
  eapply quiet_names_inv; [done|done|done|..].
  - intros i Hi. left. destruct Hn; congruence.
  - intros i Hi. destruct (not_tokening k s) with i; [by rewrite Hpc|done].
  - intros c i _ _ [Hi _]. cbn in Hi. congruence.
  - left. by rewrite <-Hg.
  - intros i t. rewrite Hl. intros Hi. destruct (owner_locks k s Hinv i t) as (_ & ? & _); [by rewrite Hpc|done|]. congruence.
  - destruct Hp as [H1 H2 H3 H4 H5 H6 H7 H8 H9 H10]. rewrite Hpc in *. split; cbn; try done; rewrite ?Hfd; try done.
    by rewrite Hg.
Qed.

Lemma TOpen_inv k s path s1 i : Inv s → p_pc (s_procs s k) = TOpen path →
  quiet k s s1 → s_gc s1 = s_gc s → s_names s1 !! k = Some i → (rf_pid <$> s_files s1 !! i) = Some k →
  (∀ j, locks_of s1 j = locks_of s j) →
  Inv (upd_proc k (mkProc (TCloseGC path) (Some i) (p_roots (s_procs s k))) (close k (p_fd (s_procs s k)) s1)).
Proof.
  intros Hinv Hpc Hq Hg Hi Hpid Hl. pose proof (inv_procs _ Hinv k) as Hp.
  assert (∀ j, locks_of (close k (p_fd (s_procs s k)) s1) j !! k = None) as Hnone.
  { intros j. destruct (locks_of s j !! k) as [t|] eqn:Hj.
    - destruct (owner_locks k s Hinv j t) as (_ & -> & _); [by rewrite Hpc|done|]. cbn [close].
      by rewrite locks_drop, decide_True.
    - destruct (p_fd (s_procs s k)) as [o|]; cbn [close]; [|by rewrite Hl].
      rewrite locks_drop. destruct (decide _); [done|]. by rewrite Hl. }
  set (s2 := close k (p_fd (s_procs s k)) s1) in *.
  assert (s_names s2 = s_names s1 ∧ s_gc s2 = s_gc s1) as [Hn2 Hg2] by (unfold s2; by destruct (p_fd _)).
  assert (quiet k s1 s2) as Hq2 by apply quiet_close_opt.
  assert ((rf_pid <$> s_files s2 !! i) = Some k) as Hpid2 by (by apply (q_pid _ _ _ Hq2)).
  eapply quiet_names_inv; [done|by eapply quiet_trans|..].
  - intros c Hne Hgc. destruct (no_collector k s c Hinv); [by rewrite Hpc|done|done].
  - intros j. rewrite Hn2, Hi. intros [= <-]. by right.
  - intros j Hj. destruct (not_tokening k s) with j; [by rewrite Hpc|done].
  - by intros c j _ _ [_ [?|[? _]]].
  - left. by rewrite <-Hg, <-Hg2.
  - intros j t. by rewrite Hnone.
  - destruct Hp as [H1 H2 H3 H4 H5 H6 H7 H8 H9 H10]. rewrite Hpc in *. split; cbn; try done.
    + by rewrite Hg2, Hg.
    + by intros j [= <-].
    + intros j [= <-] _. split; [|done]. intros _. left. cbn. by rewrite Hn2.
    + intros _. apply H6. by right.
    + by intros [|].
Qed.

(** ** The file of a process *)

Lemma sole_holder k s i : Inv s → locks_of s i !! k = Some ltWrite → ∀ c, c ≠ k → locks_of s i !! c = None.
Proof.
  intros Hinv Hk c Hne. destruct (locks_of s i !! c) as [t|] eqn:Hc; [|done].
  by destruct Hne, (inv_locks _ Hinv i k c t Hk Hc).
Qed.

Lemma TCheck_inv k s path i : Inv s → p_pc (s_procs s k) = TCheck path → p_fd (s_procs s k) = Some i →
  contents_of s i = [] → Inv (upd_proc k (set_pc (TUpgrade path) (s_procs s k)) s).
Proof.
  intros Hinv Hpc Hfd Hc. pose proof (inv_procs _ Hinv k) as Hp.
  destruct (ok_new _ _ _ Hp i Hfd) as [Hn Hl]; [by rewrite Hpc|]. specialize (Hl path Hpc).
  assert (s_names s !! k = Some i) as Hk.
  { destruct (Hn Hc) as [?|[c (n & todo & r & fds & Hc')]]; [done|].
    pose proof (ok_collector _ _ _ (inv_procs _ Hinv c)) as Hcol. rewrite Hc' in Hcol. destruct Hcol as (_ & _ & Hw).
    cbn in Hw. pose proof (inv_locks _ Hinv i c k _ Hw Hl) as ->. congruence. }
  assert (p_roots (s_procs s k) = []) as Hr by (apply (ok_no_roots _ _ _ Hp); rewrite Hpc; by right).
  eapply quiet_inv; [done|apply quiet_refl|done|..].
  - intros j Hj. destruct (not_tokening k s) with j; [by rewrite Hpc|done].
  - intros c j _ _ [Hj _]. split; [|by left]. split; [done|]. right. rewrite Hpc. cbn in Hj. split; [done|]. congruence.
  - by left.
  - intros j t Hj. split; [by left|]. destruct (owner_locks k s Hinv j t) as (? & ? & Hw); [by rewrite Hpc|done|].
    left. split_and!; [done|done|]. by rewrite Hpc in Hw.
  - destruct Hp as [H1 H2 H3 H4 H5 H6 H7 H8 H9 H10]. rewrite Hpc in *. split; cbn; try done.
    + intros j Hj _. assert (j = i) as -> by congruence. eapply own_file_ok; [apply quiet_refl|done|done|done|].
      exists []. split; [done|]. cbn. by rewrite Hr, Hc.
    + intros [?|?]; congruence.
Qed.

(** A process that has its file locks it for writing or reading. *)
Lemma owner_lock_inv k s i t pc' : Inv s → p_fd (s_procs s k) = Some i →
  creating (p_pc (s_procs s k)) = false → creating pc' = false → collects (p_pc (s_procs s k)) = false →
  collects pc' = false → pc' ≠ DUnlink → gc_lock_of (p_pc (s_procs s k)) = gc_lock_of pc' →
  (∀ path, pending pc' = Some path → pending (p_pc (s_procs s k)) = Some path) →
  t = owner_lock pc' → grants (locks_of s i) k t = true → partial pc' [] → (∀ d, partial (p_pc (s_procs s k)) d → d = []) →
  Inv (upd_proc k (set_pc pc' (s_procs s k)) (upd_file i (set_lock k t) s)).
Proof.
  intros Hinv Hfd Hc Hc' Hco Hco' HD Hg Hpe -> Hgr Hpa Hpa0. pose proof (inv_procs _ Hinv k) as Hp.
  pose proof (ok_fd _ _ _ Hp i Hfd) as Hi. assert (is_Some (rf_pid <$> s_files s !! i)) as Hex by (by rewrite Hi).
  assert (held (p_pc (s_procs s k)) = []) as Hh by (by destruct (p_pc (s_procs s k))).
  eapply quiet_inv; [done|by apply quiet_lock|done|..].
  - intros j Hj. destruct (not_tokening k s) with j; [by destruct (p_pc (s_procs s k))|done].
  - intros c j _ _ [Hj _]. split; [|by left]. split; [done|]. by left.
  - intros t. left. done.
  - intros j t. rewrite locks_set_lock by done. destruct (decide _) as [[-> _]|Hne].
    + intros [= <-]. split; [by right|]. left. split_and!; [done|done|]. unfold owner_lock. cbn. by destruct (writing pc').
    + intros Hj. destruct (owner_locks k s Hinv j t Hh Hj) as (_ & Hj' & _). destruct Hne. split; [congruence|done].
  - destruct (ok_file _ _ _ Hp i Hfd Hc) as (Hn & Hl & d & Hd & Hcon).
    apply Hpa0 in Hd as ->.
    destruct Hp as [H1 H2 H3 H4 H5 H6 H7 H8 H9 H10]. split; cbn; try done.
    + by rewrite H1, Hg.
    + intros j Hj. change (rf_pid <$> s_files (upd_file i (set_lock k (owner_lock pc')) s) !! j = Some k).
      rewrite pid_upd by done. by apply H2.
    + intros j Hj _. assert (j = i) as -> by congruence. eapply own_file_ok; [by apply quiet_lock|done| |done|].
      * cbn. by rewrite locks_set_lock, decide_True.
      * by exists [].
    + intros j Hj Hf. by destruct pc'.
    + congruence.
    + intros [?|?]; congruence.
    + intros path Hpath. by apply H8, Hpe.
    + intros [?|?]; congruence.
    + by destruct pc'.
Qed.

(** Writing to a file, with the write lock. *)
Lemma frame_write k s i g p' :
  Inv s → locks_of s i !! k = Some ltWrite → is_Some (rf_pid <$> s_files s !! i) → (∀ c, g c ≠ []) →
  (∀ j, tokening (s_procs s k) j → j = i) →
  (∀ j, p_fd p' = Some j → j = i ∧ coming s k j) →
  frame k s (upd_proc k p' (upd_file i (set_contents g) s)).
Proof.
  intros Hinv Hl Hi Hg Ht Hc. set (s1 := upd_file i (set_contents g) s).
  assert (∀ j, contents_of s1 j = if decide (j = i) then g (contents_of s i) else contents_of s j) as Hcon
    by (intros j; by apply contents_set_contents).
  split; cbn; try done.
  - intros k' Hne. by rewrite fn_lookup_insert_ne.
  - intros j n. change (rf_pid <$> s_files s !! j = Some n → rf_pid <$> s_files s1 !! j = Some n).
    unfold s1. by rewrite pid_upd.
  - intros j k' _. change (locks_of s1 j !! k' = locks_of s j !! k'). unfold s1. by rewrite locks_set_contents.
  - intros j k' t Hne Hj. change (contents_of s1 j = contents_of s j). rewrite Hcon. destruct (decide _) as [->|]; [|done].
    by rewrite (sole_holder k s i Hinv Hl k') in Hj.
  - intros j n _. change (contents_of s1 j = [] → contents_of s j = []). rewrite Hcon.
    destruct (decide _); [|done]. by intros ?%Hg.
  - by left.
  - by left.
  - intros j ->%Ht. right. change (contents_of s1 i ≠ []). rewrite Hcon, decide_True by done. apply Hg.
  - intros c j Hne _. unfold coming at 1. cbn. rewrite fn_lookup_insert. intros [[-> ?]%Hc _]. split; [done|].
    right. by apply (sole_holder k).
Qed.

Lemma TWrite_inv k s path rest i p' w : Inv s → p_pc (s_procs s k) = TWrite path rest → p_fd (s_procs s k) = Some i →
  p_fd p' = Some i → w ≠ [] →
  (p_pc p' = TDowngrade path ∧ p_roots p' = p_roots (s_procs s k) ++ [path] ∧ rest = w ∨
   ∃ rest', p_pc p' = TWrite path rest' ∧ p_roots p' = p_roots (s_procs s k) ∧ rest = w ++ rest' ∧ rest' ≠ []) →
  Inv (upd_proc k p' (upd_file i (set_contents (λ c, c ++ w)) s)).
Proof.
  intros Hinv Hpc Hfd Hfd' Hw Hcase. pose proof (inv_procs _ Hinv k) as Hp.
  destruct (ok_file _ _ _ Hp i Hfd) as (Hn & Hl & d & Hd & Hcon); [by rewrite Hpc|].
  rewrite Hpc in Hl, Hd. cbn in Hl, Hd. destruct Hd as [Hd _].
  pose proof (ok_fd _ _ _ Hp i Hfd) as Hi. assert (is_Some (rf_pid <$> s_files s !! i)) as Hex by (by rewrite Hi).
  assert (creating (p_pc p') = false ∧ gc_lock_of (p_pc p') = None ∧ unchecked (p_pc p') = false ∧
    pending (p_pc p') = Some path ∧ collects (p_pc p') = false ∧ p_pc p' ≠ DUnlink ∧ writing (p_pc p') = true ∧
    collector_ok (upd_proc k p' (upd_file i (set_contents (λ c, c ++ w)) s)) k (p_pc p'))
    as (E1 & E2 & E3 & E4 & E5 & E6 & E7 & E8) by (by destruct Hcase as [(-> & _)|(? & -> & _)]).
  eapply framed_inv; [done|apply frame_write; try done|].
  - by intros c [_ ?]%app_nil.
  - intros j Hj. destruct (not_tokening k s) with j; [by rewrite Hpc|done].
  - intros j. rewrite Hfd'. intros [= <-]. split; [done|]. split; [done|]. left. by rewrite Hpc.
  - split; cbn.
    + by left.
    + by left.
    + intros j t. change (locks_of (upd_file i (set_contents (λ c, c ++ w)) s) j !! k = Some t → locks_of s j !! k = Some t ∨ grants (locks_of s j) k t = true).
      rewrite locks_set_contents. by left.
    + intros j t. change (locks_of (upd_file i (set_contents (λ c, c ++ w)) s) j !! k = Some t → holder_ok (upd_proc k p' (upd_file i (set_contents (λ c, c ++ w)) s)) j k t).
      rewrite locks_set_contents. intros Hj. destruct (owner_locks k s Hinv j t) as (Hj1 & Hj2 & _); [by rewrite Hpc|done|].
      unfold holder_ok. rewrite procs_same. left. split_and!; [|congruence|done].
      change (rf_pid <$> s_files (upd_file i (set_contents (λ c, c ++ w)) s) !! j = Some k). by rewrite pid_upd.
    + change (proc_ok (upd_proc k p' (upd_file i (set_contents (λ c, c ++ w)) s)) k (s_procs (upd_proc k p' (upd_file i (set_contents (λ c, c ++ w)) s)) k)).
      rewrite procs_same. destruct Hp as [H1 H2 H3 H4 H5 H6 H7 H8 H9 H10]. rewrite Hpc in *. split; try done.
      * cbn. by rewrite H1.
      * intros j. rewrite Hfd'. intros [= <-]. change (rf_pid <$> s_files (upd_file i (set_contents (λ c, c ++ w)) s) !! i = Some k). by rewrite pid_upd.
      * intros j. rewrite Hfd'. intros [= <-] _. split_and!; [done| |].
        -- change (locks_of (upd_file i (set_contents (λ c, c ++ w)) s) i !! k = Some (owner_lock (p_pc p'))).
           rewrite locks_set_contents, Hl. unfold owner_lock. by rewrite E7.
        -- change (∃ d, partial (p_pc p') d ∧ contents_of (upd_file i (set_contents (λ c, c ++ w)) s) i = mjoin (temp_root_record <$> p_roots p') ++ d).
           rewrite contents_set_contents, decide_True, Hcon by done.
           destruct Hcase as [(-> & -> & ->)|(rest' & -> & -> & -> & Hne)].
           ++ exists []. split; [done|]. rewrite fmap_app, join_app. cbn. by rewrite Hd, !app_nil_r, (assoc (++)).
           ++ exists (d ++ w). cbn. split; [by rewrite <-(assoc (++))|by rewrite (assoc (++))].
      * intros j _. congruence.
      * by rewrite Hfd'.
      * intros [?|?]; congruence.
      * destruct Hcase as [(_ & -> & _)|(? & _ & -> & _)]; [|done]. apply Forall_app. split; [done|]. constructor; [by apply H8|done].
      * intros ?. rewrite E4. intros [= <-]. by apply H8.
      * intros [?|?]; congruence.
Qed.

Lemma addTempRoot_step_inv k a s s' : Inv s → addTempRoot_step k a s = Some s' → Inv s'.
Proof.
  intros Hinv. pose proof (inv_procs _ Hinv k) as Hp. unfold addTempRoot_step, openGCLock, lockFile.
  destruct (p_pc (s_procs s k)) as [|path|path|path|path|path|path|path|path rest|path| | | | | | | | |] eqn:Hpc; try done;
    destruct a as [c| | |i|n|l]; try done.
  - destruct (grants _ _ _) eqn:Hg; [|done]. intros [= <-].
    eapply creating_inv; rewrite ?Hpc; [done|apply quiet_gc_lock|done..|by left|by left|by left| |by right; right|by left|done].
    cbn. by rewrite lookup_insert_eq.
  - intros [= <-]. by apply TUnlink_inv.
  - intros [= <-]. eapply creating_inv; rewrite ?Hpc; [done|apply quiet_refl|done..|by left|by left|by left| |by right; left|by left|done].
    by rewrite (ok_gc _ _ _ Hp), Hpc.
  - destruct (s_names s !! k) as [j|] eqn:Hn.
    + intros [= <-]. apply TOpen_inv; [done|done|apply quiet_refl|done|done|by apply (inv_names _ Hinv)|done].
    + destruct (decide _) as [Hi|]; [|done]. intros [= <-]. apply TOpen_inv; [done|done|by apply quiet_create|done|..].
      * cbn. by rewrite lookup_insert_eq.
      * cbn. by rewrite lookup_insert_eq.
      * intros j. unfold locks_of. cbn. destruct (decide (i = j)) as [->|Hne]; [by rewrite lookup_insert_eq, Hi|by rewrite lookup_insert_ne].
  - intros [= <-]. eapply creating_inv; rewrite ?Hpc; [done|apply quiet_gc_unlock|done..|by left|by right|by right; right| |by left|by left|done].
    cbn. by rewrite lookup_delete_eq.
  - intros (i & Hfd & E)%bind_Some. destruct (grants _ _ _) eqn:Hg; [|done]. injection E as <-.
    assert (is_Some (rf_pid <$> s_files s !! i)) as Hex by (by rewrite (ok_fd _ _ _ Hp i Hfd)).
    eapply creating_inv; rewrite ?Hpc; [done|by apply quiet_lock|done..|by left|by right|by right; left| |by left| |].
    + cbn. by rewrite (ok_gc _ _ _ Hp), Hpc.
    + intros j t. rewrite locks_set_lock by done. destruct (decide _) as [[-> _]|]; [|by left]. intros [= <-]. by right.
    + intros ? j _ Hj. rewrite locks_set_lock, decide_True by (done || (split; congruence)). done.
  - intros (i & Hfd & E)%bind_Some. injection E as <-. destruct (decide _) as [Hc|Hc]; [by eapply TCheck_inv|].
    eapply creating_inv; rewrite ?Hpc; [done|apply quiet_refl|done..|by right|by left|by left| |by left|by left|done].
    by rewrite (ok_gc _ _ _ Hp), Hpc.
  - intros (i & Hfd & E)%bind_Some. destruct (grants _ _ _) eqn:Hg; [|done]. injection E as <-.
    apply owner_lock_inv; rewrite ?Hpc; try done. split; [done|]. by destruct path.
  - intros (i & Hfd & E)%bind_Some. destruct (decide _) as [|Hn]; [done|]. apply Decidable.not_or in Hn as [Hn1 Hn2].
    assert (take n rest ≠ []) as Hw.
    { intros E'. apply (f_equal length) in E'. rewrite length_take in E'. cbn in E'. lia. }
    destruct (decide _) as [->|Hlen]; injection E as <-.
    + eapply TWrite_inv; try done. left. cbn. by rewrite take_ge.
    + eapply TWrite_inv; try done. right. exists (drop n rest). cbn. split_and!; [done|done|by rewrite take_drop|].
      intros E'. apply (f_equal length) in E'. rewrite length_drop in E'. cbn in E'. lia.
  - intros (i & Hfd & E)%bind_Some. destruct (grants _ _ _) eqn:Hg; [|done]. injection E as <-.
    apply owner_lock_inv; rewrite ?Hpc; try done.
Qed.

(** ** [syncWithGC] *)

Lemma sync_inv k s s1 pc' : Inv s → quiet k s s1 → s_names s1 = s_names s → (∀ i, locks_of s1 i = locks_of s i) →
  p_pc (s_procs s k) = SLock ∧ pc' = SClose ∨ p_pc (s_procs s k) = SClose ∧ pc' = Idle →
  s_gc s1 !! k = gc_lock_of pc' → (gc_lock_of pc' = None ∨ grants (s_gc s) k ltRead = true) →
  Inv (upd_proc k (set_pc pc' (s_procs s k)) s1).
Proof.
  intros Hinv Hq Hn Hl Hpc Hg Hgr. pose proof (inv_procs _ Hinv k) as Hp.
  assert (p_pc (s_procs s k) = SLock ∨ p_pc (s_procs s k) = SClose) as Hpc1 by naive_solver.
  assert (pc' = SClose ∨ pc' = Idle) as Hpc2 by naive_solver.
  eapply quiet_inv; [done|done|done|..].
  - intros j Hj. destruct (not_tokening k s) with j; [by destruct Hpc1 as [-> | ->]|done].
  - intros c j _ _ [Hj _]. split; [|by left]. split; [done|]. left. by destruct Hpc1 as [-> | ->].
  - intros t. rewrite Hg. destruct Hgr as [->|Hgr]; [done|]. intros Ht. right. by destruct Hpc2 as [-> | ->]; simplify_eq/=.
  - intros i t. rewrite Hl. intros Hi. split; [by left|].
    destruct (owner_locks k s Hinv i t) as (? & ? & Hw); [by destruct Hpc1 as [-> | ->]|done|].
    left. split_and!; [done|done|]. intros Ht. specialize (Hw Ht). by destruct Hpc1 as [E|E]; rewrite E in Hw.
  - assert (creating (p_pc (s_procs s k)) = false ∧ owner_lock (p_pc (s_procs s k)) = ltRead ∧
      ∀ d, partial (p_pc (s_procs s k)) d → d = []) as (Hcr & Hol & Hpa) by (by destruct Hpc1 as [-> | ->]).
    destruct Hp as [H1 H2 H3 H4 H5 H6 H7 H8 H9 H10]. split; cbn; try done; try (by destruct Hpc2 as [-> | ->]).
    + intros i Hi. by apply (q_pid _ _ _ Hq), H2.
    + intros i Hi _. destruct (H3 i Hi Hcr) as (Hni & Hli & d & Hd & Hc). apply Hpa in Hd as ->.
      eapply own_file_ok; [done|done| |done|].
      * rewrite Hl, Hli, Hol. by destruct Hpc2 as [-> | ->].
      * exists []. split; [by destruct Hpc2 as [-> | ->]|done].
    + intros [?|?]; [apply H6; by left|by destruct Hpc2 as [-> | ->]].
    + intros [?|?]; by destruct Hpc2 as [-> | ->].
Qed.

Lemma other_step_inv k a s s' : Inv s → other_step k a s = Some s' → Inv s'.
Proof.
  intros Hinv. unfold other_step, openGCLock. destruct (p_pc (s_procs s k)) eqn:Hpc; try done; destruct a; try done.
  - destruct (grants _ _ _) eqn:Hg; [|done]. intros [= <-].
    eapply sync_inv; [done|apply quiet_gc_lock|done|done|by left| |by right]. cbn. by rewrite lookup_insert_eq.
  - intros [= <-]. eapply sync_inv; [done|apply quiet_gc_unlock|done|done|by right| |by left]. cbn. by rewrite lookup_delete_eq.
  - intros [= <-]. apply DUnlink_inv; [done|done|by right].
  - intros [= <-]. apply DUnlink_inv; [done|done|by left].
Qed.

(** ** The collector *)

(** The files that matter have their names, except one that a collector is
    removing. *)
Lemma coming_named k s m i : Inv s → s_gc s !! k = Some ltWrite → m ≠ k → coming s m i →
  s_names s !! m = Some i ∨ tokening (s_procs s k) i.
Proof.
  intros Hinv Hg Hne [Hi Hc]. pose proof (inv_procs _ Hinv m) as Hm. destruct Hc as [Hc|[Hw Hc]].
  - left. by apply (ok_file _ _ _ Hm i Hi).
  - destruct (ok_new _ _ _ Hm i Hi) as [Hn _]; [by destruct (p_pc (s_procs s m))|].
    destruct (Hn Hc) as [?|[c Ht]]; [by left|right]. destruct Ht as (? & ? & ? & ? & Hpc).
    pose proof (ok_gc _ _ _ (inv_procs _ Hinv c)) as Hgc. rewrite Hpc in Hgc. cbn in Hgc.
    pose proof (inv_gc _ Hinv c k _ Hgc Hg) as ->. by do 4 eexists.
Qed.

Lemma collector_gc k s : Inv s → gc_lock_of (p_pc (s_procs s k)) = Some ltWrite → s_gc s !! k = Some ltWrite.
Proof. intros Hinv Hk. by rewrite (ok_gc _ _ _ (inv_procs _ Hinv k)). Qed.

Lemma collect_inv k s s1 pc' : Inv s → collects (p_pc (s_procs s k)) = true → collects pc' = true ∨ pc' = Idle →
  quiet k s s1 → s_names s1 = s_names s →
  (∀ i, tokening (s_procs s k) i → tokening (set_pc pc' (s_procs s k)) i) →
  s_gc s1 !! k = gc_lock_of pc' →
  (∀ t, gc_lock_of pc' = Some t → gc_lock_of (p_pc (s_procs s k)) = Some t ∨ grants (s_gc s) k t = true) →
  (∀ i t, locks_of s1 i !! k = Some t → i ∈ held (p_pc (s_procs s k)) →
     (t = ltWrite → erasing (p_pc (s_procs s k)) = Some i) → locks_of s i !! k = Some t →
     i ∈ held pc' ∧ (t = ltWrite → erasing pc' = Some i)) →
  (∀ i t, locks_of s1 i !! k = Some t → locks_of s i !! k = Some t ∨
     (grants (locks_of s i) k t = true ∧ i ∈ held pc' ∧ (t = ltWrite → erasing pc' = Some i))) →
  collector_ok (upd_proc k (set_pc pc' (s_procs s k)) s1) k pc' →
  Inv (upd_proc k (set_pc pc' (s_procs s k)) s1).
Proof.
  intros Hinv Hco Hco' Hq Hn Ht Hg Hgr Hl1 Hl2 Hcol. pose proof (inv_procs _ Hinv k) as Hp.
  assert (p_fd (s_procs s k) = None) as Hfd by (apply (ok_collects _ _ _ Hp); by left).
  eapply quiet_inv; [done|done|done|done|..].
  - intros c i _ _ [Hi _]. cbn in Hi. congruence.
  - intros t. rewrite Hg. rewrite (ok_gc _ _ _ Hp). apply Hgr.
  - intros i t Hi. destruct (Hl2 i t Hi) as [Ho|(? & ? & ?)]; [|split; [by right|by right]].
    split; [by left|]. right. destruct (collector_locks k s Hinv i t Hfd Ho). by apply Hl1.
  - destruct Hp as [H1 H2 H3 H4 H5 H6 H7 H8 H9 H10]. split; cbn; try done; rewrite ?Hfd; try done.
    + by destruct Hco' as [?| ->]; [destruct pc'|].
    + intros _. apply H6. by left.
    + by destruct Hco' as [?| ->]; [destruct pc'|].
Qed.

Section collector.
Context (k : pid) (s : Sys) (Hinv : Inv s).
Let p := s_procs s k.
Let Hp : proc_ok s k p := inv_procs _ Hinv k.

Lemma GLock_inv : p_pc p = GLock → grants (s_gc s) k ltWrite = true →
  Inv (upd_proc k (set_pc GList p) (upd_gc <[k := ltWrite]> s)).
Proof.
  intros Hpc Hg. apply collect_inv; fold p; rewrite ?Hpc; [done|done|by left|apply quiet_gc_lock|done|..].
  - intros i (? & ? & ? & ? & E). congruence.
  - cbn. by rewrite lookup_insert_eq.
  - intros t [= <-]. by right.
  - intros i t _ Hi. by apply not_elem_of_nil in Hi.
  - by left.
  - done.
Qed.

Lemma GList_inv l : p_pc p = GList → list_to_set l = dom (s_names s) → Inv (upd_proc k (set_pc (GNext l [] []) p) s).
Proof.
  intros Hpc Hdom. assert (s_gc s !! k = Some ltWrite) as Hg by (apply collector_gc; [done|]; fold p; by rewrite Hpc).
  apply collect_inv; fold p; rewrite ?Hpc; [done|done|by left|apply quiet_refl|done|..].
  - intros i (? & ? & ? & ? & E). congruence.
  - done.
  - by left.
  - intros i t _ Hi. by apply not_elem_of_nil in Hi.
  - by left.
  - intros m i Hne [Hi Hc]. left. rewrite procs_other in Hi, Hc by done.
    destruct (coming_named k s m i Hinv Hg Hne) as [Hm|(? & ? & ? & ? & E)]; [done| |fold p in E; congruence].
    assert (m ∈ dom (s_names s)) as Hd by (by apply elem_of_dom_2 in Hm). rewrite <-Hdom in Hd. by apply elem_of_list_to_set in Hd.
Qed.

(** A move of the collector between two files, or on to the deletion. *)
Lemma GMove_inv pc' : gc_lock_of (p_pc p) = Some ltWrite → gc_lock_of pc' = Some ltWrite → collects pc' = true →
  held (p_pc p) ⊆ held pc' → erasing (p_pc p) = None ∨ erasing pc' = erasing (p_pc p) →
  (∀ i, tokening p i → tokening (set_pc pc' p) i) →
  collector_ok (upd_proc k (set_pc pc' p) s) k pc' → Inv (upd_proc k (set_pc pc' p) s).
Proof.
  intros Hg Hg' Hco Hh He Ht Hcol. apply collect_inv; fold p; [done|by destruct (p_pc p)|by left|apply quiet_refl|done|done|..].
  - rewrite Hg'. by apply collector_gc.
  - intros t Ht'. left. congruence.
  - intros i t _ Hi Hw _. split; [by apply Hh|]. intros ->. specialize (Hw eq_refl). destruct He; congruence.
  - by left.
  - done.
Qed.

Lemma covers_move pc' todo todo' r r' : covers s k todo r → r ⊆ r' →
  (∀ m i, m ≠ k → coming s m i → m ∈ todo → m ∉ todo' → locks_of s i !! k = Some ltRead ∧ p_roots (s_procs s m) ⊆ r') →
  covers (upd_proc k pc' s) k todo' r'.
Proof. intros Hc Hr Hn. eapply covers_own; [apply quiet_refl|done|done|done|by auto]. Qed.

Lemma GNext_gone_inv n todo r fds : p_pc p = GNext (n :: todo) r fds → s_names s !! n = None →
  Inv (upd_proc k (set_pc (GNext todo r fds) p) s).
Proof.
  intros Hpc Hn. assert (s_gc s !! k = Some ltWrite) as Hg by (apply collector_gc; [done|]; fold p; by rewrite Hpc).
  apply GMove_inv; rewrite ?Hpc; [done|done|done|done|by left|intros i (? & ? & ? & ? & E); congruence|].
  pose proof (ok_collector _ _ _ Hp) as Hc. rewrite Hpc in Hc. eapply covers_move; [exact Hc|done|].
  intros m i Hne Hm Hin Hni. assert (m = n) as -> by set_solver.
  destruct (coming_named k s n i Hinv Hg Hne Hm) as [?|(? & ? & ? & ? & E)]; [congruence|fold p in E; congruence].
Qed.

Lemma GNext_file_inv n todo r fds i : p_pc p = GNext (n :: todo) r fds → s_names s !! n = Some i →
  Inv (upd_proc k (set_pc (GFile FTry i n todo r fds) p) s).
Proof.
  intros Hpc Hn. apply GMove_inv; rewrite ?Hpc; [done|done|done|done|by left|intros ? (? & ? & ? & ? & E); congruence|].
  pose proof (ok_collector _ _ _ Hp) as Hc. rewrite Hpc in Hc. split_and!; [|split; [by apply (inv_names _ Hinv)|by left]|done].
  eapply covers_move; [exact Hc|done|]. set_solver.
Qed.

Lemma GNext_done_inv r fds : p_pc p = GNext [] r fds → Inv (upd_proc k (set_pc (GDelete r fds) p) s).
Proof.
  intros Hpc. apply GMove_inv; rewrite ?Hpc; [done|done|done|done|by left|intros ? (? & ? & ? & ? & E); congruence|].
  pose proof (ok_collector _ _ _ Hp) as Hc. rewrite Hpc in Hc. eapply covers_move; [exact Hc|done|]. set_solver.
Qed.

Lemma GDelete_inv r fds : p_pc p = GDelete r fds → Inv (upd_proc k (set_pc (GClose fds) p) s).
Proof.
  intros Hpc. by apply GMove_inv; rewrite ?Hpc; [done|done|done|done|by left|intros ? (? & ? & ? & ? & E); congruence|].
Qed.

Lemma GClose_file_inv i fds : p_pc p = GClose (i :: fds) →
  Inv (upd_proc k (set_pc (GClose fds) p) (close k (Some i) s)).
Proof.
  intros Hpc. assert (s_gc s !! k = Some ltWrite) as Hg by (apply collector_gc; [done|]; fold p; by rewrite Hpc).
  cbn [close]. apply collect_inv; fold p; rewrite ?Hpc; [done|done|by left|apply quiet_close|done|..].
  - intros j (? & ? & ? & ? & E). congruence.
  - done.
  - by left.
  - intros j t. rewrite locks_drop. destruct (decide _) as [|Hne]; [done|]. cbn [held]. intros _ Hj Hw _. split; [|done].
    apply elem_of_cons in Hj as [->|?]; [|done]. by destruct Hne.
  - intros j t. rewrite locks_drop. destruct (decide _); [done|by left].
  - done.
Qed.

Lemma GClose_done_inv : p_pc p = GClose [] → Inv (upd_proc k (set_pc Idle p) (upd_gc (delete k) s)).
Proof.
  intros Hpc. apply collect_inv; fold p; rewrite ?Hpc; [done|done|by right|apply quiet_gc_unlock|done|..].
  - intros j (? & ? & ? & ? & E). congruence.
  - cbn. by rewrite lookup_delete_eq.
  - done.
  - intros i t _ Hi. by apply not_elem_of_nil in Hi.
  - by left.
  - done.
Qed.

(** *** One file *)

Section file.
Context (i : nat) (n : pid) (todo : list pid) (r : strset) (fds : list nat) (st : FileStage)
  (Hpc : p_pc p = GFile st i n todo r fds).

Lemma file_parts : covers s k (n :: todo) r ∧ opened s i n ∧ stage_ok s k st i.
Proof. pose proof (ok_collector _ _ _ Hp) as Hc. by rewrite Hpc in Hc. Qed.
Let Hcov : covers s k (n :: todo) r := proj1 file_parts.
Let Hopen : opened s i n := proj1 (proj2 file_parts).
Let Hstage : stage_ok s k st i := proj2 (proj2 file_parts).

Lemma file_gc : s_gc s !! k = Some ltWrite.
Proof. apply collector_gc; [done|]. fold p. by rewrite Hpc. Qed.

Lemma file_exists : is_Some (rf_pid <$> s_files s !! i).
Proof. by rewrite (proj1 Hopen). Qed.

(** The file that matters for [n] is the one that was opened. *)
Lemma coming_opened m j : m ≠ k → coming s m j → m = n → j = i ∨ tokening p j.
Proof.
  intros Hne Hc ->. destruct (coming_named k s n j Hinv file_gc Hne Hc) as [Hj|?]; [left|by right].
  destruct (proj2 Hopen); congruence.
Qed.

(** Only [n] has the file that was opened. *)
Lemma coming_pid m j : coming s m j → j = i → m = n.
Proof.
  intros [Hj _] ->. pose proof (ok_fd _ _ _ (inv_procs _ Hinv m) i Hj) as E. rewrite (proj1 Hopen) in E. congruence.
Qed.

Lemma FTry_stale_inv : st = FTry → grants (locks_of s i) k ltWrite = true →
  Inv (upd_proc k (set_pc (GFile FUnlink i n todo r fds) p) (upd_file i (set_lock k ltWrite) s)).
Proof.
  intros E0 Hg. pose proof Hpc as Hpc'. rewrite E0 in Hpc'. pose proof file_exists as Hex. apply collect_inv; fold p; rewrite ?Hpc'; [done|done|by left|by apply quiet_lock|done|..].
  - intros j (? & ? & ? & ? & E). congruence.
  - apply file_gc.
  - by left.
  - intros j t. rewrite locks_set_lock by done. destruct (decide _) as [[-> _]|Hne]; cbn [held erasing].
    + intros _ _ _ _. split; [by left|done].
    + intros _ Hj Hw _. split; [by right|]. intros Ht. by specialize (Hw Ht).
  - intros j t. rewrite locks_set_lock by done. destruct (decide _) as [[-> _]|Hne]; [|by left].
    intros [= <-]. right. split_and!; [done|by left|done].
  - split_and!.
    + eapply covers_own; [by apply quiet_lock|exact Hcov|done|set_solver|].
      intros m j Hne Hm Hl Hni. rewrite locks_set_lock by done. destruct (decide _) as [[-> _]|]; [|done].
      pose proof (coming_pid m i Hm eq_refl). set_solver.
    + split; [|apply Hopen]. change (rf_pid <$> s_files (upd_file i (set_lock k ltWrite) s) !! i = Some n).
      rewrite pid_upd by done. apply Hopen.
    + cbn. change (locks_of (upd_file i (set_lock k ltWrite) s) i !! k = Some ltWrite). by rewrite locks_set_lock, decide_True.
Qed.

Lemma FTry_busy_inv : st = FTry → Inv (upd_proc k (set_pc (GFile FWait i n todo r fds) p) s).
Proof.
  intros E0. pose proof Hpc as Hpc'. pose proof Hstage as Hst. rewrite E0 in Hpc', Hst. apply GMove_inv; rewrite ?Hpc'; [done|done|done|done|by left|intros ? (? & ? & ? & ? & E); congruence|].
  split_and!; [|done|done]. eapply covers_move; [exact Hcov|done|set_solver].
Qed.

Lemma FUnlink_fails_inv : st = FUnlink → Inv (upd_proc k (set_pc (GFile FToken i n todo r fds) p) s).
Proof.
  intros E0. pose proof Hpc as Hpc'. pose proof Hstage as Hst. rewrite E0 in Hpc', Hst. apply GMove_inv; rewrite ?Hpc'; [done|done|done|done|by right|intros ? (? & ? & ? & ? & E); congruence|].
  split_and!; [|done|done]. eapply covers_move; [exact Hcov|done|set_solver].
Qed.

Lemma FWait_inv : st = FWait → grants (locks_of s i) k ltRead = true →
  Inv (upd_proc k (set_pc (GFile FRead i n todo r fds) p) (upd_file i (set_lock k ltRead) s)).
Proof.
  intros E0 Hg. pose proof Hpc as Hpc'. rewrite E0 in Hpc'. pose proof file_exists as Hex. apply collect_inv; fold p; rewrite ?Hpc'; [done|done|by left|by apply quiet_lock|done|..].
  - intros j (? & ? & ? & ? & E). congruence.
  - apply file_gc.
  - by left.
  - intros j t. rewrite locks_set_lock by done. destruct (decide _) as [[-> _]|Hne]; cbn [held erasing].
    + intros [= <-] _ _ _. split; [by left|done].
    + intros _ Hj Hw _. split; [by right|done].
  - intros j t. rewrite locks_set_lock by done. destruct (decide _) as [[-> _]|Hne]; [|by left].
    intros [= <-]. right. split_and!; [done|by left|done].
  - split_and!.
    + eapply covers_own; [by apply quiet_lock|exact Hcov|done|set_solver|].
      intros m j Hne Hm Hl Hni. rewrite locks_set_lock by done. by destruct (decide _).
    + split; [|apply Hopen]. change (rf_pid <$> s_files (upd_file i (set_lock k ltRead) s) !! i = Some n).
      rewrite pid_upd by done. apply Hopen.
    + cbn. change (locks_of (upd_file i (set_lock k ltRead) s) i !! k = Some ltRead). by rewrite locks_set_lock, decide_True.
Qed.

Lemma FClose_inv : st = FClose → Inv (upd_proc k (set_pc (GNext todo r fds) p) (close k (Some i) s)).
Proof.
  intros E0. pose proof Hpc as Hpc'. pose proof Hstage as Hst. rewrite E0 in Hpc', Hst. destruct Hst as [Hw Hne]. cbn [close].
  apply collect_inv; fold p; rewrite ?Hpc'; [done|done|by left|apply quiet_close|done|..].
  - intros j (? & ? & ? & ? & E). congruence.
  - apply file_gc.
  - by left.
  - intros j t. rewrite locks_drop. destruct (decide _) as [|Hd]; [done|]. cbn [held erasing]. intros _ Hj Ht _.
    assert (j ≠ i) by naive_solver. split; [set_solver|]. intros Ht'. specialize (Ht Ht'). congruence.
  - intros j t. rewrite locks_drop. destruct (decide _); [done|by left].
  - eapply covers_own; [apply quiet_close|exact Hcov|done| |].
    + intros m j Hmk Hm Hin Hni. assert (m = n) as Emn by set_solver.
      destruct (coming_opened m j Hmk Hm Emn) as [->|(? & ? & ? & ? & E)]; [|congruence].
      destruct Hm as [Hfd [Hc|[_ Hc]]]; [|by destruct Hne].
      destruct (ok_file _ _ _ (inv_procs _ Hinv m) i Hfd Hc) as (_ & Hl & _).
      by rewrite (sole_holder k s i Hinv Hw m Hmk) in Hl.
    + intros m j Hmk Hm Hl Hni. rewrite locks_drop, decide_False; [done|]. intros [-> _]. congruence.
Qed.

Lemma FUnlink_inv : st = FUnlink → Inv (upd_proc k (set_pc (GFile FToken i n todo r fds) p) (unlink n s)).
Proof.
  intros E0. pose proof Hpc as Hpc'. pose proof Hstage as Hst. rewrite E0 in Hpc', Hst. cbn in Hst.
  set (p' := set_pc (GFile FToken i n todo r fds) p).
  assert (p_fd p = None) as Hfd by (apply (ok_collects _ _ _ Hp); left; by rewrite Hpc').
  assert (∀ j, tokening p' j ↔ j = i) as Ht.
  { intros j. split; [intros (? & ? & ? & ? & E); unfold p' in E; cbn in E; congruence|]. intros ->. by do 4 eexists. }
  eapply framed_inv; [done| |].
  - split; try done.
    + intros k' Hne. by rewrite procs_other.
    + intros k' j Hne Hj. cbn. destruct (decide (k' = n)) as [->|Hn]; [|left; by rewrite lookup_delete_ne].
      right. rewrite lookup_delete_eq. assert (j = i) as -> by (destruct (proj2 Hopen); congruence).
      split_and!; [done|rewrite fn_lookup_insert; by apply Ht|done].
    + intros k' Hne Hj. cbn. by rewrite lookup_delete_None; right.
    + intros c Hne Hc. exfalso. apply Hne. exact (inv_gc _ Hinv c k _ Hc file_gc).
    + intros j (? & ? & ? & ? & E). fold p in E. congruence.
    + intros c j _ _. unfold coming at 1. rewrite procs_same. intros [Hj _]. cbn in Hj. congruence.
  - split.
    + by left.
    + intros m j. cbn. intros [_ ?]%lookup_delete_Some. by left.
    + by left.
    + intros j t Hj. unfold holder_ok. rewrite procs_same. right.
      destruct (collector_locks k s Hinv j t Hfd Hj) as [H1 H2]. fold p in H1, H2. rewrite Hpc' in H1, H2. done.
    + rewrite procs_same. split; cbn; rewrite ?Hfd; try done.
      * exact file_gc.
      * intros _. apply (ok_no_roots _ _ _ Hp). by left.
      * apply (ok_roots _ _ _ Hp).
      * split_and!; [|split; [apply Hopen|right; cbn; by rewrite lookup_delete_eq]|done].
        intros m j Hne. unfold coming. rewrite procs_other by done. apply Hcov. done.
Qed.

Lemma FToken_inv : st = FToken → Inv (upd_proc k (set_pc (GFile FClose i n todo r fds) p)
  (upd_file i (set_contents (λ c, str "d" ++ drop 1 c)) s)).
Proof.
  intros E0. pose proof Hpc as Hpc'. pose proof Hstage as Hst. rewrite E0 in Hpc', Hst. cbn in Hst.
  pose proof file_exists as Hex. assert (p_fd p = None) as Hfd by (apply (ok_collects _ _ _ Hp); left; by rewrite Hpc').
  set (g := λ c, str "d" ++ drop 1 c). assert (∀ c, g c ≠ []) as Hg by done.
  set (s1 := upd_file i (set_contents g) s). eapply framed_inv; [done|apply frame_write; try done|].
  - intros j (? & ? & ? & ? & E). fold p in E. congruence.
  - cbn. congruence.
  - split.
    + by left.
    + by left.
    + intros j t Hj. left. change (locks_of s1 j !! k = Some t) in Hj. unfold s1 in Hj. by rewrite locks_set_contents in Hj.
    + intros j t Hj. change (locks_of s1 j !! k = Some t) in Hj. unfold s1 in Hj. rewrite locks_set_contents in Hj.
      unfold holder_ok. rewrite procs_same. right.
      destruct (collector_locks k s Hinv j t Hfd Hj) as [H1 H2]. fold p in H1, H2. rewrite Hpc' in H1, H2. done.
    + rewrite procs_same. split; cbn; rewrite ?Hfd; try done.
      * exact file_gc.
      * intros _. apply (ok_no_roots _ _ _ Hp). by left.
      * apply (ok_roots _ _ _ Hp).
      * split_and!.
        -- intros m j Hne. unfold coming, coming_as. rewrite procs_other by done. fold s1.
           change (locks_of (upd_proc k (set_pc (GFile FClose i n todo r fds) p) s1) j) with (locks_of s1 j).
           change (contents_of (upd_proc k (set_pc (GFile FClose i n todo r fds) p) s1) j) with (contents_of s1 j).
           unfold s1. rewrite locks_set_contents, contents_set_contents by done. intros [Hj Hc].
           apply (Hcov m j Hne). split; [done|]. destruct Hc as [?|[? Hc]]; [by left|right].
           destruct (decide _); [by apply Hg in Hc|done].
        -- split; [|apply Hopen]. change (rf_pid <$> s_files s1 !! i = Some n). unfold s1. rewrite pid_upd by done. apply Hopen.
        -- change (locks_of s1 i !! k = Some ltWrite). unfold s1. by rewrite locks_set_contents.
        -- change (contents_of s1 i ≠ []). unfold s1. rewrite contents_set_contents, decide_True by done. apply Hg.
Qed.

(** What the collector reads from the file of a process is what the process has
    registered. *)
Lemma file_read m r' : st = FRead → m ≠ k → coming s m i →
  readTempRoots_loop (length (contents_of s i)) nixStore (contents_of s i) 0 r = Ret r' → p_roots (s_procs s m) ⊆ r'.
Proof.
  intros E0 Hne [Hfd Hc] Hread. pose proof Hstage as Hst. rewrite E0 in Hst. cbn in Hst.
  pose proof (inv_procs _ Hinv m) as Hm. destruct (creating (p_pc (s_procs s m))) eqn:Hcr.
  { rewrite (ok_no_roots _ _ _ Hm) by (by right). apply list_subseteq_nil. }
  destruct (ok_file _ _ _ Hm i Hfd Hcr) as (_ & Hl & d & Hd & Hcon).
  assert (d = []) as ->.
  { destruct (p_pc (s_procs s m)) eqn:Hpm; try done. rewrite (sole_holder m s i Hinv Hl k) in Hst; [done|congruence]. }
  assert (∀ q, q ∈ p_roots (s_procs s m) → root_ok q) as Hok by (apply Forall_forall, (ok_roots _ _ _ Hm)).
  pose proof (readTempRoots_loop_records (length (contents_of s i)) nixStore [] (p_roots (s_procs s m)) [] r Hok) as E.
  change ([] ++ ?c) with c in E. rewrite <-Hcon in E. change (length []) with 0 in E. rewrite E in Hread.
  - injection Hread as <-. intros q Hq. apply elem_of_set_insert_all. by left.
  - apply not_elem_of_nil.
  - rewrite Hcon. apply record_count.
Qed.

Lemma FRead_inv r' : st = FRead → r ⊆ r' →
  readTempRoots_loop (length (contents_of s i)) nixStore (contents_of s i) 0 r = Ret r' →
  Inv (upd_proc k (set_pc (GNext todo r' (fds ++ [i])) p) s).
Proof.
  intros E0 Hr Hread. pose proof Hpc as Hpc'. pose proof Hstage as Hst. rewrite E0 in Hpc', Hst. cbn in Hst.
  apply GMove_inv; rewrite ?Hpc'; [done|done|done|cbn; set_solver|by left|intros ? (? & ? & ? & ? & E); congruence|].
  eapply covers_move; [exact Hcov|done|]. intros m j Hne Hm Hin Hni. assert (m = n) as Emn by set_solver.
  destruct (coming_opened m j Hne Hm Emn) as [Ej|(? & ? & ? & ? & E)]; [|congruence]. rewrite Ej in *.
  split; [done|]. by eapply file_read.
Qed.

Lemma FRead_throws_inv : st = FRead → Inv (upd_proc k (set_pc (GClose (i :: fds)) p) s).
Proof.
  intros E0. pose proof Hpc as Hpc'. rewrite E0 in Hpc'.
  by apply GMove_inv; rewrite ?Hpc'; [done|done|done|done|by left|intros ? (? & ? & ? & ? & E); congruence|].
Qed.
End file.

Lemma read_mono fuel contents pos r r' : readTempRoots_loop fuel nixStore contents pos r = Ret r' → r ⊆ r'.
Proof.
  revert pos r. induction fuel as [|fuel IH]; intros pos r; cbn [readTempRoots_loop]; destruct (find_char_from _ _ _) as [e|]; try done.
  1,3: by intros [= <-].
  destruct (substr contents pos (e - pos)) as [root| |]; try done. cbn [mbind outcome_bind].
  destruct (assertStorePath nixStore root); try done. cbn [mbind outcome_bind]. intros Hr%IH.
  intros q Hq. apply Hr, elem_of_set_insert. by right.
Qed.

Lemma file_step_inv st i n todo r fds a s' : p_pc p = GFile st i n todo r fds →
  file_step nixStore k st i n todo r fds a s = Some s' → Inv s'.
Proof.
  intros Hpc. unfold file_step, lockFile. fold p. destruct st, a; try done.
  - destruct (grants _ _ _) eqn:Hg; intros [= <-]; [by eapply FTry_stale_inv|by eapply FTry_busy_inv].
  - intros [= <-]. by eapply FUnlink_inv.
  - intros [= <-]. by eapply FUnlink_fails_inv.
  - intros [= <-]. by eapply FToken_inv.
  - intros [= <-]. by eapply FClose_inv.
  - destruct (grants _ _ _) eqn:Hg; [|done]. intros [= <-]. by eapply FWait_inv.
  - destruct (readTempRoots_loop _ _ _ _ _) as [r'| |] eqn:Hr; intros [= <-].
    + eapply FRead_inv; [done|done|by eapply read_mono|done].
    + by eapply FRead_throws_inv.
    + by eapply FRead_throws_inv.
Qed.

Lemma collect_step_inv a s' : collect_step nixStore k a s = Some s' → Inv s'.
Proof.
  unfold collect_step, openGCLock. fold p. destruct (p_pc p) as [| | | | | | | | | | | | | |todo r fds|st i n todo r fds|r fds|fds|] eqn:Hpc; try done.
  - destruct a; try done. destruct (grants _ _ _) eqn:Hg; [|done]. intros [= <-]. by apply GLock_inv.
  - destruct a as [| | | | |l]; try done. destruct (decide _); [|done]. intros [= <-]. by apply GList_inv.
  - destruct todo as [|n todo], a; try done; [intros [= <-]; by apply GNext_done_inv|].
    destruct (s_names s !! n) as [i|] eqn:Hn; intros [= <-]; [by eapply GNext_file_inv|by eapply GNext_gone_inv].
  - by apply file_step_inv.
  - destruct a; try done. intros [= <-]. by eapply GDelete_inv.
  - destruct fds as [|i fds], a; try done; intros [= <-]; [by apply GClose_done_inv|by apply GClose_file_inv].
Qed.
End collector.

(** ** All steps *)

Lemma step_keeps_inv k a s s' : Inv s → allowed nixStore (s_procs s k) a → step nixStore k a s = Some s' → Inv s'.
Proof.
  intros Hinv Ha. unfold step. destruct (p_pc (s_procs s k)) eqn:Hpc;
    try (by apply addTempRoot_step_inv); try (by apply other_step_inv); try (by apply collect_step_inv).
  destruct a; try done. intros [= <-]. by apply begin_inv.
Qed.

Lemma exit_keeps_inv k s : Inv s → (∀ i, ¬ tokening (s_procs s k) i) → Inv (exit_step k s).
Proof.
  intros Hinv Ht. unfold exit_step. set (s1 := mkSys _ _ _ _).
  assert (∀ j a, locks_of s1 j !! a = if decide (a = k) then None else locks_of s j !! a) as Hl.
  { intros j a. unfold locks_of, s1. cbn. rewrite lookup_fmap. destruct (s_files s !! j) as [f|]; simpl.
    - destruct (decide (a = k)) as [->|Hne]; [by rewrite lookup_delete_eq|by rewrite lookup_delete_ne].
    - rewrite lookup_empty. by destruct (decide _). }
  eapply quiet_inv; [done| |done|..].
  - split; try done.
    + intros j n. unfold s1. cbn. rewrite lookup_fmap. by destruct (s_files s !! j).
    + intros j. unfold contents_of, s1. cbn. rewrite lookup_fmap. by destruct (s_files s !! j).
    + intros j a Ha. by rewrite Hl, decide_False.
    + intros a Ha. cbn. by rewrite lookup_delete_ne.
  - intros i Hi. by destruct (Ht i).
  - by intros c i _ _ [].
  - intros t. cbn. by rewrite lookup_delete_eq.
  - intros i t. by rewrite Hl, decide_True.
  - split; cbn; try done. by rewrite lookup_delete_eq.
Qed.

Lemma roots_reachable s : rtc (sys_step nixStore) initial s → Inv s.
Proof.
  intros Hr. eapply (rtc_ind_r (λ s, Inv s)); [apply roots_initial| |exact Hr].
  intros s1 s2 _ [k a s' Ha Hs|k Ht] Hi; [by eapply step_keeps_inv|by apply exit_keeps_inv].
Qed.

Lemma registered_coming s k path : Inv s → path ∈ p_roots (s_procs s k) → ∃ i, coming s k i.
Proof.
  intros Hinv Hin. pose proof (inv_procs _ Hinv k) as Hp.
  assert (p_roots (s_procs s k) ≠ []) as Hne by (intros E; rewrite E in Hin; by apply not_elem_of_nil in Hin).
  destruct (p_fd (s_procs s k)) as [i|] eqn:Hfd; [|destruct Hne; apply (ok_no_roots _ _ _ Hp); by left].
  exists i. split; [done|]. left. destruct (creating _) eqn:Hc; [|done].
  destruct Hne. apply (ok_no_roots _ _ _ Hp). by right.
Qed.

(** ** Progress *)

Definition enabled (s : Sys) (k : pid) : Prop :=
  p_pc (s_procs s k) ≠ Idle ∧ ∃ a s', allowed nixStore (s_procs s k) a ∧ step nixStore k a s = Some s'.

Lemma enabled_by s k a : p_pc (s_procs s k) ≠ Idle → (∀ c, a ≠ Begin c) → is_Some (step nixStore k a s) → enabled s k.
Proof. intros Hi Ha [s' Hs]. split; [done|]. exists a, s'. split; [|done]. destruct a as [c| | | | |]; try done. by destruct (Ha c). Qed.

Ltac enable Hpc := unfold step; rewrite ?Hpc; unfold addTempRoot_step, other_step, collect_step, file_step, openGCLock, lockFile; rewrite ?Hpc.

Lemma writing_enabled s k : Inv s → writing (p_pc (s_procs s k)) = true → enabled s k.
Proof.
  intros Hinv Hw. pose proof (inv_procs _ Hinv k) as Hp.
  assert (∃ i, p_fd (s_procs s k) = Some i) as [i Hfd].
  { destruct (p_fd _) as [i|] eqn:E; [by exists i|]. destruct (ok_has_fd _ _ _ Hp); [by destruct (p_pc _)|done]. }
  destruct (p_pc (s_procs s k)) as [| | | | | | | |path rest|path| | | | | | | | |] eqn:Hpc; try done.
  - destruct (ok_file _ _ _ Hp i Hfd) as (_ & _ & d & Hd & _); [by rewrite Hpc|]. rewrite Hpc in Hd. destruct Hd as [_ Hr].
    apply (enabled_by _ _ (RunBytes (length rest))); [by rewrite Hpc|done|]. enable Hpc. rewrite Hfd. cbn.
    rewrite decide_False, decide_True; [by eexists|done|]. destruct rest; cbn; [done|lia].
  - apply (enabled_by _ _ Run); [by rewrite Hpc|done|]. enable Hpc. rewrite Hfd. cbn.
    destruct (ok_file _ _ _ Hp i Hfd) as (_ & Hl & _); [by rewrite Hpc|]. rewrite Hpc in Hl. cbn in Hl.
    rewrite grants_none; [by eexists|]. intros q l Hq. left. symmetry. by apply (inv_locks _ Hinv i k q l).
Qed.

Lemma reader_enabled s k : gc_lock_of (p_pc (s_procs s k)) = Some ltRead → enabled s k.
Proof.
  intros Hg. destruct (p_pc (s_procs s k)) as [|path|path|path|path|path|path|path|path rest|path| | | | | | | | |] eqn:Hpc; try done.
  - apply (enabled_by _ _ Run); [by rewrite Hpc|done|]. enable Hpc. by eexists.
  - apply (enabled_by _ _ (RunInode (fresh (dom (s_files s))))); [by rewrite Hpc|done|]. enable Hpc.
    destruct (s_names s !! k); [by eexists|]. rewrite decide_True; [by eexists|].
    apply not_elem_of_dom, is_fresh.
  - apply (enabled_by _ _ Run); [by rewrite Hpc|done|]. enable Hpc. by eexists.
  - apply (enabled_by _ _ Run); [by rewrite Hpc|done|]. enable Hpc. by eexists.
Qed.

(** Whoever keeps process [k] from getting a lock. *)
Lemma grants_false locks k t : grants locks k t = false →
  ∃ q l, locks !! q = Some l ∧ q ≠ k ∧ (t = ltWrite ∨ l = ltWrite).
Proof.
  unfold grants. intros H%bool_decide_eq_false. apply map_not_Forall in H as (q & l & Hq & Hn); [|apply _].
  exists q, l. split_and!; [done|naive_solver|]. destruct t, l; naive_solver.
Qed.

(** The collector goes on, unless it waits for a process that writes. *)
Lemma collector_enabled s c : Inv s → s_gc s !! c = Some ltWrite → ∃ k, enabled s k.
Proof.
  intros Hinv Hg. pose proof (inv_procs _ Hinv c) as Hp. rewrite (ok_gc _ _ _ Hp) in Hg.
  destruct (p_pc (s_procs s c)) as [| | | | | | | | | | | | | |todo r fds|st i n todo r fds|r fds|fds|] eqn:Hpc; try done.
  - exists c. apply (enabled_by _ _ (RunEntries (elements (dom (s_names s))))); [by rewrite Hpc|done|]. enable Hpc.
    rewrite decide_True; [by eexists|]. apply list_to_set_elements_L.
  - exists c. apply (enabled_by _ _ Run); [by rewrite Hpc|done|]. enable Hpc. destruct todo as [|n todo]; [by eexists|].
    destruct (s_names s !! n); by eexists.
  - destruct (decide (st = FWait ∧ grants (locks_of s i) c ltRead = false)) as [[-> Hw]|Hn].
    + apply grants_false in Hw as (q & l & Hq & Hne & [?| ->]); [done|].
      destruct (inv_holder _ Hinv i q ltWrite Hq) as [(_ & _ & Hwr)|[Hh _]].
      * exists q. apply writing_enabled; [done|]. by apply Hwr.
      * assert (gc_lock_of (p_pc (s_procs s q)) = Some ltWrite) as Hgq.
        { destruct (p_pc (s_procs s q)); try done; by apply not_elem_of_nil in Hh. }
        rewrite <-(ok_gc _ _ _ (inv_procs _ Hinv q)) in Hgq. destruct Hne. eapply (inv_gc _ Hinv); [done|].
        by rewrite (ok_gc _ _ _ Hp), Hpc.
    + exists c. apply (enabled_by _ _ Run); [by rewrite Hpc|done|]. enable Hpc.
      destruct st; [destruct (grants (locks_of s i) c ltWrite); by eexists|by eexists|by eexists|by eexists| |].
      * destruct (grants _ _ _) eqn:E; [by eexists|]. naive_solver.
      * destruct (readTempRoots_loop _ _ _ _ _); by eexists.
  - exists c. apply (enabled_by _ _ Run); [by rewrite Hpc|done|]. enable Hpc. by eexists.
  - exists c. apply (enabled_by _ _ Run); [by rewrite Hpc|done|]. enable Hpc. destruct fds; by eexists.
Qed.

(** Without a collector, only the owner of a file has locks on it. *)
Lemma owner_granted s k i t : Inv s → (∀ c, s_gc s !! c ≠ Some ltWrite) → p_fd (s_procs s k) = Some i →
  grants (locks_of s i) k t = true.
Proof.
  intros Hinv Hno Hfd. apply grants_none. intros q l Hq. left.
  destruct (inv_holder _ Hinv i q l Hq) as [(Hi & _ & _)|[Hh _]].
  - rewrite (ok_fd _ _ _ (inv_procs _ Hinv k) i Hfd) in Hi. congruence.
  - destruct (Hno q). rewrite (ok_gc _ _ _ (inv_procs _ Hinv q)).
    destruct (p_pc (s_procs s q)); try done; by apply not_elem_of_nil in Hh.
Qed.

Lemma nobody_collects s k : Inv s → (∀ c, s_gc s !! c ≠ Some ltWrite) → p_pc (s_procs s k) ≠ Idle → ∃ k', enabled s k'.
Proof.
  intros Hinv Hno Hk. pose proof (inv_procs _ Hinv k) as Hp.
  assert (grants (s_gc s) k ltRead = true) as Hg.
  { apply grants_none. intros q [] Hq; [by right|by destruct (Hno q)]. }
  assert (needs_fd (p_pc (s_procs s k)) = true → ∃ i, p_fd (s_procs s k) = Some i) as Hfd.
  { intros Hn%(ok_has_fd _ _ _ Hp). destruct (p_fd _) as [i|]; [by exists i|done]. }
  destruct (p_pc (s_procs s k)) eqn:Hpc; try done;
    try (exists k; apply reader_enabled; by rewrite Hpc);
    try (exists k; apply writing_enabled; [done|by rewrite Hpc]);
    try (destruct (Hno k); by rewrite (ok_gc _ _ _ Hp), Hpc).
  - exists k. apply (enabled_by _ _ Run); [by rewrite Hpc|done|]. enable Hpc. rewrite Hg. by eexists.
  - destruct (Hfd eq_refl) as [i Hi]. exists k. apply (enabled_by _ _ Run); [by rewrite Hpc|done|]. enable Hpc.
    rewrite Hi. cbn. rewrite (owner_granted s k) by done. by eexists.
  - destruct (Hfd eq_refl) as [i Hi]. exists k. apply (enabled_by _ _ Run); [by rewrite Hpc|done|]. enable Hpc.
    rewrite Hi. cbn. by eexists.
  - destruct (Hfd eq_refl) as [i Hi]. exists k. apply (enabled_by _ _ Run); [by rewrite Hpc|done|]. enable Hpc.
    rewrite Hi. cbn. rewrite (owner_granted s k) by done. by eexists.
  - exists k. apply (enabled_by _ _ Run); [by rewrite Hpc|done|]. enable Hpc. rewrite Hg. by eexists.
  - destruct (grants (s_gc s) k ltWrite) eqn:Hgw.
    + exists k. apply (enabled_by _ _ Run); [by rewrite Hpc|done|]. enable Hpc. rewrite Hgw. by eexists.
    + apply grants_false in Hgw as (q & l & Hq & _ & _). exists q. apply reader_enabled.
      rewrite <-(ok_gc _ _ _ (inv_procs _ Hinv q)), Hq. destruct l; [done|by destruct (Hno q)].
  - exists k. apply (enabled_by _ _ Run); [by rewrite Hpc|done|]. enable Hpc. by eexists.
Qed.
End runs.

(** * Properties *)

(** C7: No temporary root is lost. Whatever the interleaving of processes that
    register temporary roots, synchronise with the collector, close their store, end
    or are killed (though not between the two system calls that remove a stale file),
    a collector that has begun to delete has among its roots every path that another
    process has registered and still holds, up to the present moment, provided that
    a process which collects garbage has no temporary roots of its own. *)
Theorem temp_roots_protected nixStore s k c path tempRoots fds :
  rtc (sys_step nixStore) initial s → c ≠ k →
  p_pc (s_procs s c) = GDelete tempRoots fds → path ∈ p_roots (s_procs s k) → path ∈ tempRoots.
Proof.
  intros Hr Hne Hpc Hin. apply roots_reachable in Hr as Hinv.
  pose proof (ok_collector _ _ _ _ (inv_procs _ _ Hinv c)) as Hcov. rewrite Hpc in Hcov.
  destruct (registered_coming _ s k path Hinv Hin) as [i Hi].
  destruct (Hcov k i (not_eq_sym Hne) Hi) as [Hn|[_ Hs]]; [by apply not_elem_of_nil in Hn|by apply Hs].
Qed.

(** C19: The locks of the collector and of temporary roots cannot deadlock: as long as
    some process is within [addTempRoot], [syncWithGC], [collectGarbage] or the
    destructor of the store, one of these processes can take its next step. *)
Theorem temp_roots_progress nixStore s k :
  rtc (sys_step nixStore) initial s → p_pc (s_procs s k) ≠ Idle → ∃ k', enabled nixStore s k'.
Proof.
  intros Hr Hk. apply roots_reachable in Hr as Hinv.
  destruct (decide (map_Forall (λ _ t, t = ltRead) (s_gc s))) as [Hall|Hex].
  - apply (nobody_collects nixStore s k); [done| |done]. intros c Hc. by apply Hall in Hc.
  - apply map_not_Forall in Hex as (c & t & Hc & Ht); [|apply _]. apply (collector_enabled nixStore s c); [done|].
    destruct t; [by destruct Ht|done].
Qed.

(** ** Runs *)

#[global] Instance allowed_dec nixStore p a : Decision (allowed nixStore p a).
Proof. destruct a as [[]| | | | |]; cbn; unfold nul_free; apply _. Defined.

(** Processes take turns; [None] is the end of a process. *)
Fixpoint run (nixStore : bytes) (trace : list (pid * option Action)) (s : Sys) : option Sys :=
  match trace with
  | [] => Some s
  | (k, Some a) :: trace => step nixStore k a s ≫= run nixStore trace
  | (k, None) :: trace => run nixStore trace (exit_step k s)
  end.

(** The same for processes that do what is asked of them, and do not end. *)
Fixpoint run_allowed (nixStore : bytes) (trace : list (pid * Action)) (s : Sys) : option Sys :=
  match trace with
  | [] => Some s
  | (k, a) :: trace =>
      if decide (allowed nixStore (s_procs s k) a) then step nixStore k a s ≫= run_allowed nixStore trace else None
  end.

Lemma roots_run_any nixStore trace s s' : run nixStore trace s = Some s' → rtc (any_step nixStore) s s'.
Proof.
  revert s. induction trace as [|[k [a|]] trace IH]; intros s; cbn [run].
  - by intros [= <-].
  - intros (s1 & E & Hr)%bind_Some. eapply rtc_l; [by eapply any_run|by apply IH].
  - intros Hr. eapply rtc_l; [apply (any_killed _ _ k)|by apply IH].
Qed.

Lemma run_allowed_sys nixStore trace s s' : run_allowed nixStore trace s = Some s' → rtc (sys_step nixStore) s s'.
Proof.
  revert s. induction trace as [|[k a] trace IH]; intros s; cbn [run_allowed]; [by intros [= <-]|].
  destruct (decide _); [|done]. intros (s1 & E & Hr)%bind_Some. eapply rtc_l; [by eapply sys_run|by apply IH].
Qed.

Definition sample_root : bytes := str "/s/x".

(** Process [k] registers the root, in a new file with inode [i]; up to the lock on
    the file, and from there. *)
Definition creates (k i : nat) : list (pid * Action) :=
  [(k, Begin (CAddTempRoot sample_root)); (k, Run); (k, Run); (k, RunInode i); (k, Run)].
Definition registers : list Action := [Run; Run; Run; RunBytes 2; RunBytes 3; Run].
(** Process [k] collects garbage, with the file of process [n] in use. *)
Definition collects_with (k n : nat) : list (pid * Action) :=
  [(k, Begin CCollectGarbage); (k, Run); (k, RunEntries [n]); (k, Run); (k, Run); (k, Run); (k, Run); (k, Run)].

Definition protected_trace : list (pid * Action) := creates 0 7 ++ ((λ a, (0, a)) <$> registers) ++ collects_with 1 0.

Definition after_allowed (trace : list (pid * Action)) : Sys := default initial (run_allowed (str "/s") trace initial).

Lemma temp_roots_protected_witness :
  p_pc (s_procs (after_allowed protected_trace) 1) = GDelete [sample_root] [7] ∧ sample_root ∈ [sample_root].
Proof.
  split; [vm_compute; reflexivity|].
  apply (temp_roots_protected (str "/s") (after_allowed protected_trace) 0 1 sample_root [sample_root] [7]).
  - apply run_allowed_sys with protected_trace. vm_compute. reflexivity.
  - discriminate.
  - vm_compute. reflexivity.
  - vm_compute. left.
Defined.

(** The collector waits for a process that is writing. *)
Definition waiting_trace : list (pid * Action) :=
  creates 0 7 ++ [(0, Run); (0, Run); (0, Run)] ++
  [(1, Begin CCollectGarbage); (1, Run); (1, RunEntries [0]); (1, Run); (1, Run)].

Lemma temp_roots_progress_witness :
  step (str "/s") 1 Run (after_allowed waiting_trace) = None ∧
  ∃ k', enabled (str "/s") (after_allowed waiting_trace) k'.
Proof.
  split; [vm_compute; reflexivity|].
  apply (temp_roots_progress (str "/s") (after_allowed waiting_trace) 1).
  - apply run_allowed_sys with waiting_trace. vm_compute. reflexivity.
  - vm_compute. discriminate.
Defined.

(** ** A process that collects garbage itself

    Locks belong to processes: to its own collection, the file of a process looks like
    that of a process that has died. The file is removed, its roots are not honoured,
    and what the process registers later is not seen by other collectors. *)
Definition own_collection : list (pid * option Action) :=
  (prod_map id Some <$> creates 0 7 ++ ((λ a, (0, a)) <$> registers)) ++
  ((λ a, (0, Some a)) <$> [Begin CCollectGarbage; Run; RunEntries [0]; Run; Run; Run; Run; Run; Run]).

Definition later_collection : list (pid * option Action) :=
  own_collection ++ ((λ a, (0, Some a)) <$> [Run; Run]) ++
  ((λ a, (0, Some a)) <$> [Begin (CAddTempRoot sample_root); Run; RunBytes 5; Run]) ++
  ((λ a, (1, Some a)) <$> [Begin CCollectGarbage; Run; RunEntries []; Run]).

Theorem own_collection_forgets_roots :
  (∃ s, rtc (any_step (str "/s")) initial s ∧ p_pc (s_procs s 0) = GDelete [] [] ∧ p_roots (s_procs s 0) = [sample_root]) ∧
  (∃ s, rtc (any_step (str "/s")) initial s ∧ p_pc (s_procs s 1) = GDelete [] [] ∧
     p_pc (s_procs s 0) = Idle ∧ p_roots (s_procs s 0) = [sample_root; sample_root]).
Proof.
  split.
  - exists (default initial (run (str "/s") own_collection initial)).
    split_and!; [|by vm_compute|by vm_compute]. apply roots_run_any with own_collection. by vm_compute.
  - exists (default initial (run (str "/s") later_collection initial)).
    split_and!; [|by vm_compute|by vm_compute|by vm_compute]. apply roots_run_any with later_collection. by vm_compute.
Qed.

(** ** A collector that is killed while it removes a file

    The owner, which waits for the lock, then takes the file for a new one although it
    has no name any more. *)
Definition killed_trace : list (pid * option Action) :=
  (prod_map id Some <$> creates 0 7) ++
  ((λ a, (1, Some a)) <$> [Begin CCollectGarbage; Run; RunEntries [0]; Run; Run; Run]) ++ [(1, None)] ++
  ((λ a, (0, Some a)) <$> registers) ++
  ((λ a, (2, Some a)) <$> [Begin CCollectGarbage; Run; RunEntries []; Run]).

Theorem killed_collector_loses_roots :
  ∃ s, rtc (any_step (str "/s")) initial s ∧ p_pc (s_procs s 2) = GDelete [] [] ∧
    p_pc (s_procs s 0) = Idle ∧ p_roots (s_procs s 0) = [sample_root].
Proof.
  exists (default initial (run (str "/s") killed_trace initial)).
  split_and!; [|by vm_compute|by vm_compute|by vm_compute]. apply roots_run_any with killed_trace. by vm_compute.
Qed.
