(* ===== verification/StoreFiles.v ===== *)
(** The files of the store as the rest of libstore sees them: the operations of
    libutil/util.cc on whole paths, and [hashPath] of libutil/hash.cc.

    The file system is the one [RestoreSink] writes to (Archive): a map from
    absolute paths to what they name. Calls fail where the contents of the file
    system make them fail; a full disk and other failures from outside are not
    represented here. [read_tree] is the object that [dumpPath] visits when it
    walks a path. *)

From S2P Require Import Prelude Containers Serialise Hash Archive.

Definition ENOTDIR : Z := 20.
Definition EINVAL : Z := 22.
Definition ENOTEMPTY : Z := 39.
Definition ELOOP : Z := 40.

(** * Operations *)

(** [pathExists] *)

Definition fs_exists (path : bytes) (fs : filesystem) : bool := bool_decide (is_Some (fs !! path)).

#[global] Instance at_or_below_dec p q : Decision (at_or_below p q) := _.

(** [deletePath]: the path and everything below it go. *)
Definition fs_delete (path : bytes) (fs : filesystem) : filesystem :=
  filter (λ e, ¬ at_or_below path e.1) fs.

(** [deletePath] starts with an [lstat] that throws when nothing is there. *)
Definition deletePath (path : bytes) (fs : filesystem) : outcome filesystem :=
  match fs !! path with
  | None => Throw (SysError ENOENT "getting status of path")
  | Some _ => Ret (fs_delete path fs)
  end.

(** The name of [q] in the directory [p], if it is an entry of it. *)
Definition child_name (p q : bytes) : option bytes :=
  let n := drop (length p + 1) q in
  if decide ((p ++ slash) `prefix_of` q ∧ n ≠ [] ∧ "/"%byte ∉ n) then Some n else None.

(** [readDirectory] *)
Definition children (p : bytes) (fs : filesystem) : list bytes :=
  omap (λ e, child_name p e.1) (map_to_list fs).

(** Where a symbolic link at [path] leads. *)
Definition link_target (path t : bytes) : bytes :=
  if starts_with slash t then t else default [] (parent_of path) ++ slash ++ t.

(** [open(path, O_WRONLY | O_TRUNC | O_CREAT)] and the write; a final symbolic
    link is followed (forty times, as Linux does). *)
Fixpoint writeFile_at (links : nat) (path s : bytes) (fs : filesystem) : outcome filesystem :=
  match fs !! path with
  | None => fs_create path (IFile false s) fs
  | Some (IFile x _) => Ret (<[path := IFile x s]> fs)
  | Some IDir => Throw (SysError 21 "writing file")
  | Some (ILink t) =>
      match links with
      | 0 => Throw (SysError ELOOP "writing file")
      | S links => writeFile_at links (link_target path t) s fs
      end
  end.

Definition writeFile (path s : bytes) (fs : filesystem) : outcome filesystem := writeFile_at 40 path s fs.

(** [readFile]: [open] follows a final symbolic link. *)
Fixpoint readFile_at (links : nat) (path : bytes) (fs : filesystem) : outcome bytes :=
  match fs !! path with
  | None => Throw (SysError ENOENT "reading file")
  | Some (IFile _ s) => Ret s
  | Some IDir => Throw (SysError 21 "reading from file")
  | Some (ILink t) =>
      match links with
      | 0 => Throw (SysError ELOOP "reading file")
      | S links => readFile_at links (link_target path t) fs
      end
  end.

Definition fs_readFile (path : bytes) (fs : filesystem) : outcome bytes := readFile_at 40 path fs.

(** [rename(2)] *)
Definition relocate (a b q : bytes) : bytes := b ++ drop (length a) q.

Definition fs_move (a b : bytes) (fs : filesystem) : filesystem :=
  list_to_map ((λ e, (relocate a b e.1, e.2)) <$> filter (λ e, at_or_below a e.1) (map_to_list fs))
  ∪ fs_delete b (fs_delete a fs).

Definition fs_rename (a b : bytes) (fs : filesystem) : outcome filesystem :=
  match fs !! a, parent_of a, parent_of b with
  | Some i, Some c, Some d =>
      if decide (fs !! c = Some IDir ∧ fs !! d = Some IDir) then
        if decide (a = b) then Ret fs
        else if decide ((a ++ slash) `prefix_of` b) then Throw (SysError EINVAL "rename")
        else
          match i, fs !! b with
          | _, None => Ret (fs_move a b fs)
          | IDir, Some IDir =>
              if decide (children b fs = []) then Ret (fs_move a b fs)
              else Throw (SysError ENOTEMPTY "rename")
          | IDir, Some _ => Throw (SysError ENOTDIR "rename")
          | _, Some IDir => Throw (SysError 21 "rename")
          | _, Some _ => Ret (fs_move a b fs)
          end
      else Throw (SysError ENOENT "rename")
  | _, _, _ => Throw (SysError ENOENT "rename")
  end.

(** The object at a path, walked as [dump] walks it. *)
Fixpoint read_tree (fuel : nat) (p : bytes) (fs : filesystem) : outcome fso :=
  match fuel with
  | 0 => OutOfFuel
  | S fuel =>
      match fs !! p with
      | None => Throw (SysError ENOENT "getting attributes of path")
      | Some (IFile x c) => Ret (Regular x c)
      | Some (ILink t) => Ret (Symlink t)
      | Some IDir =>
          es ← foldM (λ es n, t ← read_tree fuel (p ++ slash ++ n) fs; Ret (es ++ [(n, t)]))
            (children p fs) [];
          Ret (Directory es)
      end
  end.

(** Every step of the walk is to a longer path. *)
Definition fs_depth (fs : filesystem) : nat :=
  S (max_list ((λ e, length e.1) <$> map_to_list fs)).

Definition no_filter (p : bytes) : bool := true.

(** [dumpPath(path, sink)] with the default filter. *)
Definition dump_path (path : bytes) (fs : filesystem) : outcome (list bytes) :=
  t ← read_tree (fs_depth fs) path fs;
  dumpPath no_filter path t.

Definition hashPath `{Gcrypt} (ht : HashType) (path : bytes) (fs : filesystem) : outcome (Hash * Z) :=
  chunks ← dump_path path fs;
  hashsink_run ht chunks.

(** * Trees in the file system *)

(** What [fs] has at [p] and below is exactly the object [t]. *)
Definition holds_tree (fs : filesystem) (p : bytes) (t : fso) : Prop :=
  ∀ q, at_or_below p q → fs !! q = fs_add p t ∅ !! q.

Lemma fs_add_entries_union_aux (p : bytes) (es : list (bytes * fso)) (m : filesystem) :
  (∀ e, e ∈ es → ∀ q m, fs_add q e.2 m = fs_add q e.2 ∅ ∪ m) →
  fs_add_entries p es m = fs_add_entries p es ∅ ∪ m.
Proof.
  intros IH. revert m. induction es as [|e es IHes]; intros m; [unfold fs_add_entries; simpl; by rewrite (left_id_L ∅ (∪))|].
  unfold fs_add_entries in *. cbn [foldl].
  rewrite IHes by (intros; apply IH; by right).
  rewrite (IHes ltac:(intros; apply IH; by right) (fs_add (p ++ slash ++ e.1) e.2 ∅)).
  rewrite IH by (by left). by rewrite (assoc_L (∪)).
Qed.

Lemma fs_add_union t p m : fs_add p t m = fs_add p t ∅ ∪ m.
Proof.
  revert p m. induction t as [x c|es IH|tgt|] using fso_ind'; intros p m;
    try (simpl; by rewrite insert_union_singleton_l, insert_empty); [|simpl; by rewrite (left_id_L ∅ (∪))].
  rewrite !fs_add_Directory. rewrite Forall_forall in IH.
  rewrite fs_add_entries_union_aux, (fs_add_entries_union_aux _ _ (<[_ := _]> ∅)) by eauto.
  by rewrite insert_union_singleton_l, <-(assoc_L (∪)), insert_empty.
Qed.

Lemma fs_add_entries_union p es m : fs_add_entries p es m = fs_add_entries p es ∅ ∪ m.
Proof. apply fs_add_entries_union_aux. intros. apply fs_add_union. Qed.

Lemma holds_add p t fs : fresh_at p fs → holds_tree (fs_add p t fs) p t.
Proof.
  intros Hf q Hq. rewrite fs_add_union, lookup_union.
  assert (fs !! q = None) as ->; [|by rewrite (right_id_L None (∪))].
  destruct (fs !! q) eqn:E; [|done]. exfalso. apply (Hf q); [by rewrite E|done].
Qed.

(** Only what is at the path or below it matters. *)
Lemma holds_frame fs fs' p t :
  (∀ q, at_or_below p q → fs' !! q = fs !! q) → holds_tree fs p t → holds_tree fs' p t.
Proof. intros Hs Hh q Hq. by rewrite Hs, Hh. Qed.

Lemma lookup_fs_delete p fs q :
  fs_delete p fs !! q = if decide (at_or_below p q) then None else fs !! q.
Proof.
  unfold fs_delete. case_decide as Hq.
  - rewrite map_lookup_filter_None. right. intros i _ Hn. by apply Hn.
  - destruct (fs !! q) eqn:E.
    + by rewrite map_lookup_filter_Some.
    + rewrite map_lookup_filter_None. by left.
Qed.

Lemma fresh_at_delete p fs : fresh_at p (fs_delete p fs).
Proof. intros q [i Hi] Hq. rewrite lookup_fs_delete, decide_True in Hi; done. Qed.

Lemma fs_add_entries_none p es q :
  (∀ e, e ∈ es → ¬ at_or_below (p ++ slash ++ e.1) q) → fs_add_entries p es ∅ !! q = None.
Proof.
  induction es as [|e es IH] using rev_ind; intros Hn; [done|].
  unfold fs_add_entries. rewrite foldl_app. cbn [foldl]. fold (fs_add_entries p es ∅).
  rewrite fs_add_outside by (apply Hn; set_solver). apply IH. intros. apply Hn. set_solver.
Qed.

(** An entry's subtree is untouched by the other entries. *)
Lemma fs_add_entries_lookup p es n t q :
  NoDup es.*1 → (∀ e, e ∈ es → "/"%byte ∉ e.1) → (n, t) ∈ es → at_or_below (p ++ slash ++ n) q →
  fs_add_entries p es ∅ !! q = fs_add (p ++ slash ++ n) t ∅ !! q.
Proof.
  intros Hnd Hs Hin Hq. revert Hnd Hs Hin.
  induction es as [|e es IH] using rev_ind; [set_solver|]. intros Hnd Hs Hin.
  rewrite fmap_app, NoDup_app in Hnd. destruct Hnd as (Hnd & Hdis & _).
  unfold fs_add_entries. rewrite foldl_app. cbn [foldl]. fold (fs_add_entries p es ∅).
  rewrite fs_add_union, lookup_union.
  apply elem_of_app in Hin as [Hin|Hin%list_elem_of_singleton].
  - rewrite IH by (done || (intros; apply Hs; set_solver)).
    rewrite fs_add_outside, lookup_empty, (left_id_L None (∪)); [done|].
    intros Hq'. assert (n = e.1) as ->.
    { apply (at_or_below_siblings p n e.1 q); [apply (Hs (n, t))|apply Hs| |]; set_solver. }
    apply (Hdis e.1); [|csimpl; set_solver]. apply list_elem_of_fmap. by exists (e.1, t).
  - subst e. cbn [fst snd]. rewrite fs_add_entries_none, (right_id_L None (∪)); [done|].
    intros e He Hq'. assert (n = e.1) as ->.
    { apply (at_or_below_siblings p n e.1 q); [apply (Hs (n, t))|apply Hs| |]; set_solver. }
    apply (Hdis e.1); [|csimpl; set_solver]. apply list_elem_of_fmap. by exists e.
Qed.

(** ** Walking a tree *)

Lemma child_name_Some p q n :
  child_name p q = Some n ↔ q = p ++ slash ++ n ∧ n ≠ [] ∧ "/"%byte ∉ n.
Proof.
  unfold child_name. case_decide as Hd.
  - destruct Hd as ([k ->] & Hne & Hs). rewrite <-(assoc (++)), (drop_app_add p) in *. cbn [drop slash str app] in *.
    split; [by intros [= <-]|]. intros (E & _ & _). by simplify_list_eq.
  - split; [done|]. intros (-> & Hne & Hs). destruct Hd. rewrite drop_app_add. split_and!; [|done|done].
    exists n. by rewrite (assoc (++)).
Qed.

Lemma elem_of_children p n fs :
  n ∈ children p fs ↔ is_Some (fs !! (p ++ slash ++ n)) ∧ n ≠ [] ∧ "/"%byte ∉ n.
Proof.
  unfold children. rewrite list_elem_of_omap. split.
  - intros ([q i] & Hq%elem_of_map_to_list & (E & ? & ?)%child_name_Some). cbn [fst] in E. subst q.
    split_and!; [by exists i|done|done].
  - intros ([i Hi] & ? & ?). exists (p ++ slash ++ n, i). split; [by apply elem_of_map_to_list|].
    by apply child_name_Some.
Qed.

Lemma NoDup_children p fs : NoDup (children p fs).
Proof.
  unfold children. pose proof (NoDup_fst_map_to_list fs) as Hnd. induction (map_to_list fs) as [|[q i] l IH]; [constructor|].
  rewrite fmap_cons, NoDup_cons in Hnd. destruct Hnd as [Hq Hnd]. csimpl.
  destruct (child_name p q) as [n|] eqn:E; [|by apply IH]. constructor; [|by apply IH].
  rewrite list_elem_of_omap. intros ([q' i'] & Hin & E'). apply child_name_Some in E as (-> & _), E' as (E' & _).
  cbn [fst] in E'. subst q'. apply Hq. apply list_elem_of_fmap. by exists (p ++ slash ++ n, i').
Qed.

Lemma below_self p n : ¬ at_or_below (p ++ slash ++ n) p.
Proof.
  intros [E|[k E]]; apply (f_equal length) in E; rewrite ?length_app in E; simpl in E; lia.
Qed.

Lemma fs_add_present t p fs : nar_ok t → is_Some (fs_add p t fs !! p).
Proof.
  intros Hok. destruct t as [x c|es|tgt|]; simpl; try (rewrite lookup_insert_eq; by eexists); [|inversion Hok].
  change (is_Some (fs_add p (Directory es) fs !! p)). rewrite fs_add_Directory, fs_add_entries_union, lookup_union.
  rewrite fs_add_entries_none by (intros; apply below_self). rewrite lookup_insert_eq. by eexists.
Qed.

Lemma holds_directory fs p es :
  nar_ok (Directory es) → holds_tree fs p (Directory es) →
  fs !! p = Some IDir ∧ children p fs ≡ₚ es.*1 ∧ ∀ n t, (n, t) ∈ es → holds_tree fs (p ++ slash ++ n) t.
Proof.
  intros [Hwf Hes]%nar_ok_directory_inv Hh. pose proof (set_wf_nodup _ Hwf) as Hnd.
  assert (∀ e, e ∈ es → "/"%byte ∉ e.1) as Hs.
  { intros e He. destruct (Hes e He) as (Hn & _). by apply name_ok_inv in Hn as (_ & ? & _). }
  assert (∀ q, at_or_below p q → fs !! q = fs_add_entries p es ∅ !! q ∪ (<[p := IDir]> ∅ : filesystem) !! q) as Hl.
  { intros q Hq. rewrite (Hh q Hq), fs_add_Directory, fs_add_entries_union. apply lookup_union. }
  assert (∀ n q, at_or_below (p ++ slash ++ n) q → fs !! q = fs_add_entries p es ∅ !! q) as Hb.
  { intros n q Hq. rewrite Hl by (by eapply at_or_below_child). rewrite lookup_insert_ne, lookup_empty by
      (intros ->; by apply below_self in Hq). by rewrite (right_id_L None (∪)). }
  assert (∀ n t, (n, t) ∈ es → holds_tree fs (p ++ slash ++ n) t) as Hc.
  { intros n t Hin q Hq. rewrite (Hb n q Hq). by apply fs_add_entries_lookup. }
  split_and!; [| |done].
  - rewrite Hl by (by left). rewrite fs_add_entries_none, lookup_insert_eq by (intros; apply below_self). done.
  - apply NoDup_Permutation; [apply NoDup_children|done|]. intros n. rewrite elem_of_children, list_elem_of_fmap. split.
    + intros ([i Hi] & Hne & Hsl). rewrite (Hb n) in Hi by (by left).
      destruct (decide (n ∈ es.*1)) as [Hin|Hin].
      { apply list_elem_of_fmap in Hin as (e & -> & He). by exists e. }
      rewrite fs_add_entries_none in Hi; [done|]. intros e He Hq. apply Hin.
      assert (n = e.1) as -> by (apply (at_or_below_siblings p n e.1 (p ++ slash ++ n)); auto).
      apply list_elem_of_fmap. by exists e.
    + intros ([n' t] & -> & He). cbn [fst]. destruct (Hes _ He) as (Hn & _ & Hok). cbn [fst snd] in *.
      apply name_ok_inv in Hn as (? & ? & _). split_and!; [|done|done].
      rewrite (Hc n' t He _ (or_introl eq_refl)). by apply fs_add_present.
Qed.

Lemma fs_depth_lookup fs q : is_Some (fs !! q) → length q < fs_depth fs.
Proof.
  intros [i Hi]. unfold fs_depth. apply Nat.lt_succ_r, max_list_elem_of_le, list_elem_of_fmap.
  exists (q, i). split; [done|]. by apply elem_of_map_to_list.
Qed.

(** Sorting is insensitive to the order of [readdir]. *)
Lemma map_insert_perm {V} k v (m : list (bytes * V)) : k ∉ m.*1 → map_insert k v m ≡ₚ (k, v) :: m.
Proof.
  induction m as [|[a w] m IH]; [done|]. rewrite fmap_cons. cbn [fst map_insert]. intros Hk.
  destruct (str_compare_spec k a) as [->|?|?]; [set_solver|done|].
  rewrite IH by set_solver. by rewrite Permutation_swap.
Qed.

Lemma sort_entries_perm {V} (l : list (bytes * V)) : NoDup l.*1 → sort_entries l ≡ₚ l.
Proof.
  induction l as [|e l IH] using rev_ind; [done|]. rewrite fmap_app, NoDup_app. intros (Hnd & Hd & _).
  unfold sort_entries. rewrite foldl_app. cbn [foldl]. fold (sort_entries l).
  rewrite map_insert_perm, IH by (done || (rewrite IH by done; intros Hin; by apply (Hd _ Hin), list_elem_of_here)).
  rewrite <-surjective_pairing. apply Permutation_cons_append.
Qed.

Lemma map_wf_sorted {V} (m : list (bytes * V)) : map_wf m → StronglySorted (λ a b, str_lt a.1 b.1) m.
Proof.
  unfold map_wf. induction m as [|e m IH]; [constructor|]. rewrite fmap_cons. intros [Hm Hf]%StronglySorted_inv.
  constructor; [by apply IH|]. rewrite Forall_forall in Hf. apply Forall_forall. intros x Hx. apply Hf, list_elem_of_fmap. eauto.
Qed.

Lemma sort_entries_unique {V} (l es : list (bytes * V)) : map_wf es → l ≡ₚ es → sort_entries l = es.
Proof.
  intros Hes Hp. apply (StronglySorted_unique_strong (λ a b, str_lt a.1 b.1)).
  - intros a b _ _ H1 H2. by destruct (str_lt_irrefl a.1 (str_lt_trans _ _ _ H1 H2)).
  - apply map_wf_sorted, sort_entries_wf.
  - by apply map_wf_sorted.
  - rewrite sort_entries_perm; [done|]. rewrite Hp. by apply set_wf_nodup.
Qed.

Lemma filter_true {A} (l : list A) : List.filter (λ _, true) l = l.
Proof. induction l; simpl; congruence. Qed.

(** The loop over the entries of a directory. *)
Definition gather (f : bytes → outcome fso) (l : list bytes) (acc : list (bytes * fso)) :
    outcome (list (bytes * fso)) :=
  foldM (λ es n, t ← f n; Ret (es ++ [(n, t)])) l acc.

Lemma gather_Ret f (R : bytes → fso → Prop) l acc :
  (∀ n, n ∈ l → ∃ t, f n = Ret t ∧ R n t) →
  ∃ es, gather f l acc = Ret (acc ++ es) ∧ es.*1 = l ∧ ∀ n t, (n, t) ∈ es → R n t.
Proof.
  revert acc. induction l as [|n l IH]; intros acc Hl.
  { exists []. rewrite app_nil_r. split_and!; [done|done|set_solver]. }
  destruct (Hl n (list_elem_of_here _ _)) as (t & E & Ht). unfold gather. cbn [foldM]. rewrite E. cbn [mbind outcome_bind].
  destruct (IH (acc ++ [(n, t)])) as (es & Ees & <- & Hes); [set_solver|]. fold (gather f es.*1 (acc ++ [(n, t)])).
  exists ((n, t) :: es). rewrite Ees, <-(assoc (++)). split_and!; [done|done|].
  intros m s [[= -> ->]|Hm]%elem_of_cons; [done|]. by apply Hes.
Qed.

Lemma gather_inv f l acc r :
  gather f l acc = Ret r → ∃ es, r = acc ++ es ∧ es.*1 = l ∧ ∀ n t, (n, t) ∈ es → f n = Ret t.
Proof.
  revert acc. induction l as [|n l IH]; intros acc E.
  { injection E as <-. exists []. rewrite app_nil_r. split_and!; [done|done|set_solver]. }
  unfold gather in E. cbn [foldM] in E. apply bind_Ret_inv in E as (acc1 & E1 & E).
  apply bind_Ret_inv in E1 as (t & Et & [= <-]). apply IH in E as (es & -> & <- & Hes).
  exists ((n, t) :: es). rewrite <-(assoc (++)). split_and!; [done|done|].
  intros m s [[= -> ->]|Hm]%elem_of_cons; [done|]. by apply Hes.
Qed.

(** A path that holds an object is read as that object, up to the order of the
    directories. *)
Lemma read_tree_holds t p fs fuel :
  nar_ok t → holds_tree fs p t → fs_depth fs <= length p + fuel →
  ∃ t', read_tree fuel p fs = Ret t' ∧ canon no_filter p t' = t.
Proof.
  revert p fuel. induction t as [x c|es IH|tgt|] using fso_ind'; intros p fuel Hok Hh Hf.
  all: assert (is_Some (fs !! p)) as Hp by (rewrite (Hh p) by (by left); by apply fs_add_present).
  all: apply fs_depth_lookup in Hp; destruct fuel as [|fuel]; [lia|]; cbn [read_tree].
  1, 3, 4: pose proof (Hh p (or_introl eq_refl)) as E; cbn [fs_add] in E.
  1, 2: rewrite lookup_insert_eq in E; rewrite E; by eexists.
  { inversion Hok. }
  destruct (holds_directory fs p es Hok Hh) as (-> & Hch & Hc). rewrite Forall_forall in IH.
  pose proof (nar_ok_directory_inv es Hok) as [Hwf Hes].
  destruct (gather_Ret (λ n, read_tree fuel (p ++ slash ++ n) fs)
    (λ n t', (n, canon no_filter (p ++ slash ++ n) t') ∈ es) (children p fs) []) as (es' & E & Hk & Hin).
  { intros n Hn. rewrite Hch in Hn. apply list_elem_of_fmap in Hn as ([n' t] & -> & Hn). cbn [fst].
    destruct (IH (n', t) Hn (p ++ slash ++ n') fuel) as (t' & E & Et); cbn [snd] in *;
      [by apply (Hes (n', t))|by apply Hc|rewrite !length_app; simpl; lia|].
    exists t'. split; [done|]. by rewrite Et. }
  unfold gather in E. rewrite E.
  eexists; split; [done|]. rewrite canon_Directory. unfold no_filter at 1. rewrite filter_true. f_equal.
  apply sort_entries_unique; [done|]. set (l := (λ e, (e.1, canon no_filter (p ++ slash ++ e.1) e.2)) <$> es').
  assert (l.*1 = children p fs) as Hl1.
  { rewrite <-Hk. unfold l. rewrite <-list_fmap_compose. by apply list_fmap_ext. }
  assert (NoDup l) as Hnd by (apply (NoDup_fmap_1 fst); rewrite Hl1; apply NoDup_children).
  assert (NoDup es) as Hnd' by (apply (NoDup_fmap_1 fst), set_wf_nodup, Hwf).
  apply NoDup_Permutation; [done..|]. intros [n t]. split.
  - unfold l. rewrite list_elem_of_fmap. intros ([n' t'] & [= -> ->] & H'). by apply Hin.
  - intros Hn. assert (n ∈ l.*1) as ([n' t'] & -> & Hl)%list_elem_of_fmap.
    { rewrite Hl1, Hch. apply list_elem_of_fmap. by exists (n, t). }
    cbn [fst] in *. assert ((n', t') ∈ es) as Hn'.
    { unfold l in Hl. apply list_elem_of_fmap in Hl as ([n2 t2] & [= -> ->] & H2). by apply Hin. }
    assert (t = t') as -> by (apply (map_find_elem _ _ _ Hwf) in Hn, Hn'; congruence). done.
Qed.

(** A dump depends only on what is at the path or below it, not on the order in
    which the system lists the directories. *)
Lemma sort_entries_ext {V} (l k : list (bytes * V)) : NoDup k.*1 → l ≡ₚ k → sort_entries l = sort_entries k.
Proof.
  intros Hk Hp. apply sort_entries_unique; [apply sort_entries_wf|]. rewrite Hp. symmetry. by apply sort_entries_perm.
Qed.

Definition same_below (p : bytes) (fs fs' : filesystem) : Prop := ∀ q, at_or_below p q → fs' !! q = fs !! q.

Lemma children_same p fs fs' : same_below p fs fs' → children p fs' ≡ₚ children p fs.
Proof.
  intros Hs. apply NoDup_Permutation; [apply NoDup_children..|]. intros n. rewrite !elem_of_children, Hs; [done|].
  right. exists n. by rewrite (assoc (++)).
Qed.

Lemma keyed_perm {V} (l k : list (bytes * V)) :
  l.*1 ≡ₚ k.*1 → NoDup k.*1 → (∀ n v, (n, v) ∈ l → (n, v) ∈ k) → l ≡ₚ k.
Proof.
  intros Hp Hk Hin. assert (NoDup l.*1) as Hl by (by rewrite Hp).
  apply NoDup_Permutation; [by apply (NoDup_fmap_1 fst)..|]. intros [n v]. split; [apply Hin|]. intros Hn.
  assert (n ∈ l.*1) as ([n' v'] & -> & Hl')%list_elem_of_fmap.
  { rewrite Hp. apply list_elem_of_fmap. by exists (n, v). }
  cbn [fst] in *. pose proof (Hin _ _ Hl') as Hn'.
  apply list_elem_of_lookup in Hn as [i Hi], Hn' as [j Hj].
  assert (i = j) as ->.
  { apply (NoDup_lookup k.*1 i j n'); [done| |]; rewrite list_lookup_fmap; [by rewrite Hi|by rewrite Hj]. }
  by assert (v = v') as -> by congruence.
Qed.

Lemma read_tree_frame fuel p fs fs' t fuel' :
  read_tree fuel p fs = Ret t → same_below p fs fs' → fs_depth fs' <= length p + fuel' →
  ∃ t', read_tree fuel' p fs' = Ret t' ∧ dump no_filter p t' = dump no_filter p t.
Proof.
  revert p t fuel'. induction fuel as [|fuel IH]; [done|]. intros p t fuel' E Hs Hf. cbn [read_tree] in E.
  destruct (fs !! p) as [i|] eqn:Hp; [|done]. rewrite <-Hs in Hp by (by left).
  pose proof (fs_depth_lookup fs' p ltac:(by eexists)) as Hd. destruct fuel' as [|fuel']; [lia|].
  cbn [read_tree]. rewrite Hp. destruct i as [x c| |tgt]; [injection E as <-; by eexists| |injection E as <-; by eexists].
  apply bind_Ret_inv in E as (es & E & [= <-]). apply (gather_inv (λ n, read_tree fuel (p ++ slash ++ n) fs)) in E as (es1 & -> & Hk & Hes).
  cbn [app]. destruct (gather_Ret (λ n, read_tree fuel' (p ++ slash ++ n) fs')
    (λ n t', ∃ t, (n, t) ∈ es1 ∧ dump no_filter (p ++ slash ++ n) t' = dump no_filter (p ++ slash ++ n) t)
    (children p fs') []) as (es2 & E2 & Hk2 & Hes2).
  { intros n Hn. rewrite (children_same p fs fs') in Hn by done. rewrite <-Hk in Hn.
    apply list_elem_of_fmap in Hn as ([n' t] & -> & Hn). cbn [fst].
    destruct (IH (p ++ slash ++ n') t fuel' (Hes _ _ Hn)) as (t' & ? & ?); [|rewrite !length_app; simpl; lia|eauto].
    intros q Hq. apply Hs. by eapply at_or_below_child. }
  unfold gather in E2. rewrite E2. eexists; split; [done|]. cbn [app]. rewrite !dump_Directory.
  assert (∀ es : list (bytes * fso), ((λ e, (e.1, dump no_filter (p ++ slash ++ e.1) e.2)) <$> es).*1 = es.*1) as Hfst.
  { intros es. rewrite <-list_fmap_compose. by apply list_fmap_ext. }
  assert (NoDup es1.*1) as Hnd by (rewrite Hk; apply NoDup_children).
  rewrite (sort_entries_ext _ ((λ e, (e.1, dump no_filter (p ++ slash ++ e.1) e.2)) <$> es1)); [done|by rewrite Hfst|].
  apply keyed_perm; rewrite ?Hfst; [|done|].
  - rewrite Hk, Hk2. by apply children_same.
  - intros n v ([m t'] & Ev & Hin)%list_elem_of_fmap. destruct (Hes2 _ _ Hin) as (t & Ht & Ed).
    apply list_elem_of_fmap. exists (m, t). cbn [fst snd] in *. by rewrite <-Ed.
Qed.

Lemma dump_path_frame p fs fs' chunks :
  same_below p fs fs' → dump_path p fs = Ret chunks → dump_path p fs' = Ret chunks.
Proof.
  intros Hs E. unfold dump_path in *. apply bind_Ret_inv in E as (t & Et & E).
  destruct (read_tree_frame _ _ _ fs' _ (fs_depth fs') Et Hs ltac:(lia)) as (t' & -> & Hd).
  cbn [mbind outcome_bind]. unfold dumpPath in *. by rewrite Hd.
Qed.

Lemma hashPath_frame `{Gcrypt} ht p fs fs' h :
  same_below p fs fs' → hashPath ht p fs = Ret h → hashPath ht p fs' = Ret h.
Proof.
  intros Hs. unfold hashPath. intros (chunks & E & Eh)%bind_Ret_inv.
  by rewrite (dump_path_frame _ _ _ _ Hs E).
Qed.

(** So dumping and hashing such a path is dumping and hashing the object. *)
Lemma dump_path_holds t p fs :
  nar_ok t → holds_tree fs p t → dump_path p fs = Ret (writeString archiveVersion1 ++ nar t).
Proof.
  intros Hok Hh. unfold dump_path. destruct (read_tree_holds t p fs (fs_depth fs) Hok Hh ltac:(lia)) as (t' & -> & <-).
  cbn [mbind outcome_bind]. unfold dumpPath. by rewrite dump_nar.
Qed.

(** ** Moving and writing *)

(** Objects do not depend on where they are. *)
Lemma fs_add_relocate (a b : bytes) (t : fso) (x : bytes) (m m' : filesystem) :
  (∀ r, m !! (b ++ r) = m' !! (a ++ r)) → ∀ r, fs_add (b ++ x) t m !! (b ++ r) = fs_add (a ++ x) t m' !! (a ++ r).
Proof.
  assert (∀ i x (m m' : filesystem), (∀ r, m !! (b ++ r) = m' !! (a ++ r)) →
    ∀ r, <[b ++ x := i]> m !! (b ++ r) = <[a ++ x := i]> m' !! (a ++ r)) as Hins.
  { intros i y n n' Hn r. destruct (decide (r = y)) as [->|Hne]; [by rewrite !lookup_insert_eq|].
    rewrite !lookup_insert_ne by (intros ?; by simplify_list_eq). apply Hn. }
  revert x m m'. induction t as [e c|es IH|tgt|] using fso_ind'; intros x m m' Hm;
    try (cbn [fs_add]; by apply Hins); [|done].
  rewrite !fs_add_Directory. unfold fs_add_entries. rewrite Forall_forall in IH.
  pose proof (Hins IDir x m m' Hm) as H'. revert H'.
  generalize (<[b ++ x := IDir]> m) as n, (<[a ++ x := IDir]> m') as n'.
  induction es as [|e es IHes]; intros n n' Hn; [done|]. cbn [foldl].
  apply IHes; [intros; apply IH; [by right|done]|]. intros r. rewrite <-!(assoc (++)). apply IH; [by left|done].
Qed.

(** Two paths of which neither is the other or below it. *)
Definition apart (a b : bytes) : Prop := ¬ at_or_below a b ∧ ¬ at_or_below b a.

Lemma below_split p q : at_or_below p q ↔ ∃ r, q = p ++ r ∧ (r = [] ∨ slash `prefix_of` r).
Proof.
  split.
  - intros [->|[k ->]]; [exists []; rewrite app_nil_r; auto|]. exists (slash ++ k). rewrite (assoc (++)).
    split; [done|]. right. by exists k.
  - intros (r & -> & [->|[k ->]]); [left; apply app_nil_r|right]. exists k. by rewrite (assoc (++)).
Qed.

Lemma below_trans p q r : at_or_below p q → at_or_below q r → at_or_below p r.
Proof.
  intros (a & -> & Ha)%below_split (b & -> & Hb)%below_split. apply below_split. exists (a ++ b).
  rewrite (assoc (++)). split; [done|]. destruct Ha as [->|[k ->]]; [done|]. right. exists (k ++ b). by rewrite (assoc (++)).
Qed.

Lemma apart_disjoint a b q : apart a b → at_or_below a q → ¬ at_or_below b q.
Proof.
  intros [Hab Hba] (r & -> & Hr)%below_split (k & E & Hk)%below_split.
  destruct (app_eq_inv _ _ _ _ E) as [(m & -> & ->)|(m & -> & ->)].
  - apply Hba, below_split. exists m. split; [done|]. destruct m as [|x m]; [by left|]. right.
    destruct Hk as [?|[k' Ek]]; [done|]. injection Ek as -> _. by exists m.
  - apply Hab, below_split. exists m. split; [done|]. destruct m as [|x m]; [by left|]. right.
    destruct Hr as [?|[k' Ek]]; [done|]. injection Ek as -> _. by exists m.
Qed.

Lemma relocate_below a b r : relocate a b (a ++ r) = b ++ r.
Proof. unfold relocate. by rewrite drop_app_length. Qed.

Lemma lookup_fs_move a b fs q :
  apart a b →
  fs_move a b fs !! q =
    if decide (at_or_below b q) then fs !! relocate b a q
    else if decide (at_or_below a q) then None else fs !! q.
Proof.
  intros Hap. unfold fs_move. set (l := (λ e, (relocate a b e.1, e.2)) <$> _).
  assert (∀ q i, (q, i) ∈ l ↔ ∃ r, q = b ++ r ∧ at_or_below a (a ++ r) ∧ fs !! (a ++ r) = Some i) as Hl.
  { intros q' i. unfold l. rewrite list_elem_of_fmap. split.
    - intros ([p j] & [= -> ->] & [Hp Hin%elem_of_map_to_list]%list_elem_of_filter).
      pose proof Hp as (r & Er & _)%below_split. cbn [fst] in *. subst p. exists r. by rewrite relocate_below.
    - intros (r & -> & Hr & Hi). exists (a ++ r, i). cbn [fst snd]. rewrite relocate_below. split; [done|].
      apply list_elem_of_filter. split; [done|]. by apply elem_of_map_to_list. }
  assert (∀ i, (list_to_map l : filesystem) !! q = Some i ↔ (q, i) ∈ l) as Hmap.
  { intros i. symmetry. apply elem_of_list_to_map'. intros i' Hi Hi'. apply Hl in Hi as (r & -> & _ & Hi), Hi' as (r' & E & _ & Hi').
    simplify_list_eq. congruence. }
  rewrite lookup_union, !lookup_fs_delete. case_decide as Hb.
  - rewrite (right_id_L None (∪)). pose proof Hb as (r & -> & Hr)%below_split. rewrite relocate_below.
    assert (at_or_below a (a ++ r)) as Har by (apply below_split; eauto).
    apply option_eq. intros i. rewrite Hmap, Hl. split; [|intros Hi; by exists r]. intros (r' & E & _ & ?). by simplify_list_eq.
  - assert ((list_to_map l : filesystem) !! q = None) as ->; [|by rewrite (left_id_L None (∪))].
    destruct ((list_to_map l : filesystem) !! q) as [i|] eqn:E; [|done]. assert ((q, i) ∈ l) as E' by (by apply Hmap). apply Hl in E' as (r & -> & Har & _).
    exfalso. apply Hb. apply below_split. apply below_split in Har as (r' & ? & ?). simplify_list_eq. by eexists.
Qed.

Lemma holds_move a b t fs : apart a b → holds_tree fs a t → holds_tree (fs_move a b fs) b t.
Proof.
  intros Hap Hh q Hq. rewrite lookup_fs_move, decide_True by done. pose proof Hq as (r & -> & Hr)%below_split.
  rewrite relocate_below, Hh by (apply below_split; by exists r).
  pose proof (fs_add_relocate a b t [] ∅ ∅) as E. rewrite !app_nil_r in E. symmetry. by apply E.
Qed.

Lemma fs_rename_Ret a b fs fs' :
  a ≠ b → fs_rename a b fs = Ret fs' →
  is_Some (fs !! a) ∧ (∀ c, parent_of a = Some c → fs !! c = Some IDir) ∧ fs' = fs_move a b fs.
Proof.
  intros Hab. unfold fs_rename. destruct (fs !! a) as [i|]; [|done].
  destruct (parent_of a) as [c|]; [|done]. destruct (parent_of b) as [d|]; [|done]. case_decide as Hd; [|done].
  rewrite decide_False by done. case_decide; [done|]. intros E. split_and!; [by eexists|intros ? [= <-]; by destruct Hd|].
  destruct i, (fs !! b) as [[]|]; try case_decide; congruence.
Qed.

Lemma fs_rename_ok a b c d fs :
  apart a b → is_Some (fs !! a) → parent_of a = Some c → parent_of b = Some d →
  fs !! c = Some IDir → fs !! d = Some IDir → fs !! b = None → fs_rename a b fs = Ret (fs_move a b fs).
Proof.
  intros [Hab _] [i Hi] Ha Hb Hc Hd Hn. unfold fs_rename. rewrite Hi, Ha, Hb, Hn.
  rewrite decide_True by done. rewrite decide_False by (intros ->; by apply Hab; left).
  rewrite decide_False by (intros ?; by apply Hab; right). by destruct i.
Qed.

Lemma lookup_move_outside a b fs q : ¬ at_or_below a q → ¬ at_or_below b q → fs_move a b fs !! q = fs !! q.
Proof.
  intros Ha Hb. unfold fs_move. rewrite lookup_union, !lookup_fs_delete, !decide_False by done.
  set (l := _ <$> _). destruct ((list_to_map l : filesystem) !! q) as [i|] eqn:E; [|by rewrite (left_id_L None (∪))].
  exfalso. apply elem_of_list_to_map_2 in E. unfold l in E. apply list_elem_of_fmap in E as ([p j] & [= -> ->] & Hin).
  apply list_elem_of_filter in Hin as [Hp _]. apply below_split in Hp as (r & Er & Hr). cbn [fst] in *. subst p.
  apply Hb. rewrite relocate_below. apply below_split. by exists r.
Qed.

(** * Well-formed file systems *)

(** Whatever exists lies in a directory. *)
Definition fs_wf (fs : filesystem) : Prop :=
  ∀ q i, fs !! q = Some i → ∃ d, parent_of q = Some d ∧ fs !! d = Some IDir.

(** A path that names neither the root directory nor nothing. *)
Definition proper (p : bytes) : Prop := p ≠ [] ∧ p ≠ slash.

Lemma last_slash q : "/"%byte ∈ q → ∃ s t, q = s ++ "/"%byte :: t ∧ "/"%byte ∉ t.
Proof.
  induction q as [|c q IH] using rev_ind; [set_solver|].
  destruct (decide (c = "/"%byte)) as [->|Hc]; [intros _; exists q, []; split; [done|set_solver]|].
  intros [Hq|?]%elem_of_app; [|set_solver]. destruct (IH Hq) as (s & t & -> & Ht).
  exists s, (t ++ [c]). rewrite <-(assoc (++)). split; [done|set_solver].
Qed.

Lemma parent_of_Some q d :
  parent_of q = Some d → ∃ s t, q = s ++ slash ++ t ∧ "/"%byte ∉ t ∧ d = (if decide (s = []) then slash else s).
Proof.
  intros E. destruct (decide ("/"%byte ∈ q)) as [Hin|Hin].
  - destruct (last_slash q Hin) as (s & t & -> & Ht). exists s, t. split_and!; [done|done|].
    unfold parent_of in E. rewrite rfind_char_app in E by done. destruct s as [|b s]; [by injection E as <-|].
    cbn [length] in E. injection E as <-. rewrite decide_False by done.
    change (S (length s)) with (length (b :: s)). by rewrite take_app_length.
  - apply rfind_char_None in Hin. unfold parent_of in E. by rewrite Hin in E.
Qed.

Lemma parent_below p q d :
  proper p → at_or_below p q → q ≠ p → parent_of q = Some d → at_or_below p d ∧ length d < length q.
Proof.
  intros [Hp _] Hb Hne (s & t & -> & Ht & ->)%parent_of_Some. destruct Hb as [?|[r E]]; [done|].
  rewrite <-(assoc (++)) in E. assert (∃ k, s = p ++ k ∧ slash ++ r = k ++ slash ++ t) as (k & -> & Ek).
  { destruct (app_eq_inv _ _ _ _ E) as [(k & -> & Ek)|(k & -> & Ek)]; [by exists k|].
    destruct k as [|x k]; [exists []; rewrite !app_nil_r; by split; [|symmetry]|].
    exfalso. injection Ek as <- Ek. subst t. apply Ht, elem_of_app. right. by left. }
  rewrite decide_False by (intros [? _]%app_eq_nil; done). split.
  - destruct k as [|x k]; [left; apply app_nil_r|right]. injection Ek as <- _. exists k. by rewrite <-(assoc (++)).
  - rewrite (length_app _ (slash ++ t)). simpl. lia.
Qed.

Lemma below_parent p q d : proper p → parent_of q = Some d → at_or_below p d → at_or_below p q.
Proof.
  intros [Hp Hs] (s & t & -> & Ht & ->)%parent_of_Some Hb. case_decide as Hd.
  - destruct Hb as [?|[k E]]; [done|]. destruct p as [|x [|y p]]; done.
  - apply below_split in Hb as (r & -> & Hr). apply below_split. exists (r ++ slash ++ t).
    split; [by rewrite <-!(assoc (++))|]. right. destruct Hr as [->|[k ->]]; [by exists t|].
    exists (k ++ slash ++ t). by rewrite <-!(assoc (++)).
Qed.

(** Nothing lies below a path that does not exist. *)
Lemma fresh_at_absent p fs : fs_wf fs → proper p → fs !! p = None → fresh_at p fs.
Proof.
  intros Hwf Hp Hn q Hq. remember (length q) as n eqn:En. revert q Hq En.
  induction (lt_wf n) as [n _ IH]. intros q [i Hi] En Hb. destruct (Hwf q i Hi) as (d & Ed & Hd).
  assert (q ≠ p) as Hne by (intros ->; congruence).
  destruct (parent_below p q d Hp Hb Hne Ed) as [Hb' Hl]. eapply (IH (length d)); [lia| |done|done]. by eexists.
Qed.

Lemma fs_wf_delete p fs : proper p → fs_wf fs → fs_wf (fs_delete p fs).
Proof.
  intros Hp Hwf q i. rewrite lookup_fs_delete. case_decide as Hq; [done|]. intros Hi.
  destruct (Hwf q i Hi) as (d & Ed & Hd). exists d. split; [done|]. rewrite lookup_fs_delete, decide_False; [done|].
  intros Hb. by apply Hq, (below_parent p q d).
Qed.

(** Creating something, or changing a file. *)
Lemma fs_wf_insert p i fs :
  fs_wf fs → (∃ d, parent_of p = Some d ∧ fs !! d = Some IDir) →
  (fs !! p = Some IDir → i = IDir) → fs_wf (<[p := i]> fs).
Proof.
  intros Hwf Hpar Hsame q j Hq.
  assert (∀ d, fs !! d = Some IDir → (<[p := i]> fs : filesystem) !! d = Some IDir) as Hkeep.
  { intros d Hd. destruct (decide (d = p)) as [->|]; [|by rewrite lookup_insert_ne].
    rewrite lookup_insert_eq. by rewrite Hsame. }
  destruct (decide (q = p)) as [->|Hne].
  - destruct Hpar as (d & Ed & Hd). exists d. auto.
  - rewrite lookup_insert_ne in Hq by done. destruct (Hwf q j Hq) as (d & Ed & Hd). exists d. auto.
Qed.

Lemma fs_wf_create p i fs fs' : fs_wf fs → fs_create p i fs = Ret fs' → fs_wf fs'.
Proof.
  intros Hwf E. unfold fs_create in E. repeat case_match; try done. injection E as <-.
  apply fs_wf_insert; [done|eauto|]. intros Hp. exfalso. eauto.
Qed.

Lemma fs_wf_update p x s y c fs : fs_wf fs → fs !! p = Some (IFile y c) → fs_wf (<[p := IFile x s]> fs).
Proof. intros Hwf Hp. apply fs_wf_insert; [done|by eapply Hwf|congruence]. Qed.

Lemma fs_wf_event hp dst k e k' : fs_wf (rs_fs k) → restore_event hp dst k e = Ret k' → fs_wf (rs_fs k').
Proof.
  intros Hwf E. destruct e; cbn [restore_event] in E; try case_match; unfold with_file in E; repeat case_match; simplify_eq;
    outcome_inv; simplify_eq; cbn [rs_fs] in *; try done; try (by eapply fs_wf_create); by eapply fs_wf_update.
Qed.

Lemma fs_wf_write links p s fs fs' : fs_wf fs → writeFile_at links p s fs = Ret fs' → fs_wf fs'.
Proof.
  revert p. induction links as [|links IH]; intros p Hwf E; cbn [writeFile_at] in E;
    (destruct (fs !! p) as [[x c| |t]|] eqn:Hp; [|done| |by eapply fs_wf_create]); try done; try (by eapply IH);
    injection E as <-; by eapply fs_wf_update.
Qed.

Lemma fs_wf_move a b d fs :
  fs_wf fs → proper a → proper b → apart a b → parent_of b = Some d → fs !! d = Some IDir → fs_wf (fs_move a b fs).
Proof.
  intros Hwf Ha Hb Hap Ed Hd q i. rewrite lookup_fs_move by done.
  assert (¬ at_or_below b d) as Hbd.
  { intros H'. destruct (parent_of_Some b d Ed) as (s & t & -> & _ & ->). case_decide as Hs.
    - destruct H' as [?|[k E]]; [destruct Hb; subst; done|]. subst s. destruct t; simplify_eq/=.
    - destruct H' as [E|[k E]]; apply (f_equal length) in E; rewrite !length_app in E; simpl in E; lia. }
  assert (∀ r, parent_of r = Some d → at_or_below a d → at_or_below a r) as Had by (intros; by eapply below_parent).
  case_decide as Hqb.
  - pose proof Hqb as (r & -> & Hr)%below_split. rewrite relocate_below. intros Hi. destruct r as [|x r].
    { rewrite app_nil_r in *. exists d. split; [done|]. rewrite lookup_fs_move, !decide_False; [done| | |done]; [|done].
      intros Had'. destruct Hap as [Hab _]. by apply Hab, Had. }
    destruct (Hwf _ _ Hi) as (e & Ee & He). destruct (parent_of_Some _ _ Ee) as (s & t & Es & Ht & ->).
    assert (∃ k, s = a ++ k ∧ x :: r = k ++ slash ++ t) as (k & -> & Ek).
    { destruct (app_eq_inv _ _ _ _ Es) as [(k & -> & Ek)|(k & -> & Ek)].
      - destruct Hr as [?|[r' Er']]; [done|]. destruct k as [|y k]; [exists []; rewrite !app_nil_r; by split; [|symmetry]|].
        exfalso. injection Ek as <- Ek. subst t. apply Ht. injection Er' as -> _. apply elem_of_app. right. by left.
      - by exists k. }
    rewrite decide_False in He by (intros [? _]%app_eq_nil; by destruct Ha).
    exists (b ++ k). split.
    + rewrite Ek, (assoc (++)). apply parent_of_child; [|done]. intros [? _]%app_eq_nil. by destruct Hb.
    + rewrite lookup_fs_move, decide_True; [by rewrite relocate_below| |done]. apply below_split. exists k. split; [done|].
      destruct k as [|y k]; [by left|right]. destruct Hr as [?|[r' Er']]; [done|]. injection Ek as <- _.
      injection Er' as -> _. by exists k.
  - case_decide as Hqa; [done|]. intros Hi. destruct (Hwf _ _ Hi) as (e & Ee & He). exists e. split; [done|].
    rewrite lookup_fs_move, !decide_False; [done| | |done].
    + intros Hbe. by apply Hqa, (below_parent a q e).
    + intros Hbe. by apply Hqb, (below_parent b q e).
Qed.
