(* ===== verification/StoreOps.v ===== *)
(** libstore/local-store.cc: adding, exporting and importing store items.

    The operations run in a state monad whose state outlives an exception: the
    files, the database, the temporary roots this process has registered, the
    counter of [createTempDir], the bytes that the authentication agent has
    written and not yet been read, and what has been written to the sink of an
    export. What other processes do shows at the two places where this one
    waits for them: [others (WaitGC p)] is what happens before [addTempRoot(p)]
    returns, [others (WaitLock p)] what happens before the lock on [p] is
    obtained. The lock files themselves are the subject of Locks. *)

From Stdlib Require Import Decimal DecimalN.
From S2P Require Import Prelude StateMonad Containers Serialise Hash Archive StoreFiles Paths StorePaths Derivations Closure LocalDB.

(** * State and environment *)

Record StoreState := mkStoreState {
  st_fs : filesystem;
  st_ls : LocalStore;
  st_tempRoots : list bytes;
  st_tempCounter : N;
  st_agentOut : bytes;
  st_sink : list bytes
}.

Inductive wait := WaitGC (path : bytes) | WaitLock (path : bytes).

(** The settings of the process and what it sees of the system: the mode of a
    key file, the replies of the "guix authenticate" process, the other
    processes. The last two operations are those of optimise-store.cc and of
    the first part of local-store.cc, here by their effect on the contents. *)
Class StoreEnv := {
  env_nixStore : bytes;
  env_nixConfDir : bytes;
  env_now : Z;
  env_pid : N;
  env_fallocate : bool;
  env_heldLocks : bytes;
  env_cwd : outcome bytes;
  env_lstat_link : bytes → outcome (option bytes);
  env_mode : bytes → outcome Z;
  agent_reply : bytes → bytes;
  others : wait → StoreState → StoreState;
  canonicalise_pass : bytes → filesystem → outcome filesystem;
  optimise_pass : bytes → filesystem → outcome filesystem
}.

Abbreviation M := (SM StoreState).

Definition set_fs (fs : filesystem) (st : StoreState) : StoreState :=
  mkStoreState fs (st_ls st) (st_tempRoots st) (st_tempCounter st) (st_agentOut st) (st_sink st).
Definition set_ls (ls : LocalStore) (st : StoreState) : StoreState :=
  mkStoreState (st_fs st) ls (st_tempRoots st) (st_tempCounter st) (st_agentOut st) (st_sink st).
Definition set_tempRoots (r : list bytes) (st : StoreState) : StoreState :=
  mkStoreState (st_fs st) (st_ls st) r (st_tempCounter st) (st_agentOut st) (st_sink st).
Definition set_tempCounter (c : N) (st : StoreState) : StoreState :=
  mkStoreState (st_fs st) (st_ls st) (st_tempRoots st) c (st_agentOut st) (st_sink st).
Definition set_agentOut (b : bytes) (st : StoreState) : StoreState :=
  mkStoreState (st_fs st) (st_ls st) (st_tempRoots st) (st_tempCounter st) b (st_sink st).
Definition set_sink (k : list bytes) (st : StoreState) : StoreState :=
  mkStoreState (st_fs st) (st_ls st) (st_tempRoots st) (st_tempCounter st) (st_agentOut st) k.

(** A file operation; one that throws changes nothing. *)
Definition lift_fs (f : filesystem → outcome filesystem) : M () := λ st,
  match f (st_fs st) with
  | Ret fs => (Ret (), set_fs fs st)
  | Throw e => (Throw e, st)
  | OutOfFuel => (OutOfFuel, st)
  end.

(** A database transaction, likewise. *)
Definition lift_ls (f : StoreState → outcome LocalStore) : M () := λ st,
  match f st with
  | Ret ls => (Ret (), set_ls ls st)
  | Throw e => (Throw e, st)
  | OutOfFuel => (OutOfFuel, st)
  end.

(** [format("%1%") % n] of an unsigned number. *)
Fixpoint uint_bytes (d : Decimal.uint) : bytes :=
  match d with
  | Nil => []
  | D0 d => "0"%byte :: uint_bytes d
  | D1 d => "1"%byte :: uint_bytes d
  | D2 d => "2"%byte :: uint_bytes d
  | D3 d => "3"%byte :: uint_bytes d
  | D4 d => "4"%byte :: uint_bytes d
  | D5 d => "5"%byte :: uint_bytes d
  | D6 d => "6"%byte :: uint_bytes d
  | D7 d => "7"%byte :: uint_bytes d
  | D8 d => "8"%byte :: uint_bytes d
  | D9 d => "9"%byte :: uint_bytes d
  end.
Definition dec (n : N) : bytes := uint_bytes (N.to_uint n).
Definition dec_size (s : bytes) : bytes := dec (N.of_nat (length s)).

(** [HashAndReadSource]: what is read is hashed until [hashing] is cleared. *)
Record HashAndReadSource (S : Type) := mkHashAndReadSource {
  hr_source : S;
  hr_sink : BufferedSink;
  hr_hashing : bool
}.
Arguments mkHashAndReadSource {S} _ _ _.
Arguments hr_source {S} _.
Arguments hr_sink {S} _.
Arguments hr_hashing {S} _.

#[global] Instance HashAndReadSource_read {S} `{Source S} : Source (HashAndReadSource S) := λ len s,
  '(d, src) ← source_read len (hr_source s);
  if hr_hashing s then
    sink ← sink_call (hr_sink s) d;
    Ret (d, mkHashAndReadSource src sink true)
  else Ret (d, mkHashAndReadSource src (hr_sink s) false).

Section store_ops.
Context {gc : Gcrypt} {env : StoreEnv}.

(** * Helpers *)

Definition is_valid (path : bytes) : M bool := gets (λ st, Ret (isValidPath_ path (ls_db (st_ls st)))).
Definition path_exists (path : bytes) : M bool := gets (λ st, Ret (fs_exists path (st_fs st))).
Definition hash_path (ht : HashType) (path : bytes) : M (Hash * Z) := gets (λ st, hashPath ht path (st_fs st)).

(** Paths go to the system as C strings; one with a NUL byte in it, which can
    come in with an archive or from a client, is beyond this model: the calls
    would act on the part before the NUL. *)
Definition nul_check (path : bytes) : M () :=
  lift (check (bool_decide (nul_free path)) (Undefined "path with a NUL byte")).

(** The path is appended to this process's file of temporary roots. *)
Definition addTempRoot (path : bytes) : M () :=
  modify (others (WaitGC path));;
  modify (λ st, set_tempRoots (st_tempRoots st ++ [path]) st).

Definition lock_path (path : bytes) : M () := modify (others (WaitLock path)).

(** [ValidPathInfo info; info.path = ...; registerValidPath(info);] *)
Definition register_path_info (path : bytes) (hash : Hash * Z) (references : strset) (deriver : bytes) : M () :=
  lift_ls (λ st, registerValidPath env_nixStore (λ p, fs_readFile p (st_fs st)) env_now
    (mkValidPathInfo path deriver hash.1 references 0 hash.2 0) (st_ls st)).

(** [restorePath]: the calls made before an exception have taken effect. *)
Fixpoint restore_events (dst : bytes) (tr : list event) (k : RestoreSink) : outcome () * RestoreSink :=
  match tr with
  | [] => (Ret (), k)
  | e :: tr =>
      match restore_event env_fallocate dst k e with
      | Ret k => restore_events dst tr k
      | Throw x => (Throw x, k)
      | OutOfFuel => (OutOfFuel, k)
      end
  end.

Definition restore_path {S} `{Source S} (fuel : nat) (dst : bytes) (s : S) : M S := λ st,
  let '(tr, r) := parseDump fuel s in
  let '(o, k) := restore_events dst tr (mkRestoreSink None (st_fs st)) in
  ((o;; '(_, s) ← r; Ret s), set_fs (rs_fs k) st).

(** * Adding *)

(** [if (repair || !isValidPath(dstPath)) { lock; if (repair ||
    !isValidPath(dstPath)) { if (pathExists(dstPath)) deletePath(dstPath); ... } }] *)
Definition replace_invalid (repair : bool) (dstPath : bytes) (lock : M ()) (body : M ()) : M () :=
  v ← is_valid dstPath;
  when (repair || negb v)
    (lock;;
     v ← is_valid dstPath;
     when (repair || negb v)
       (e ← path_exists dstPath;
        when e (lift_fs (deletePath dstPath));;
        body)).

Definition addToStoreFromDump (dump name : bytes) (recursive : bool) (hashAlgo : HashType) (repair : bool)
    : M bytes :=
  h ← lift (hashString hashAlgo dump);
  dstPath ← lift (makeFixedOutputPath env_nixStore recursive hashAlgo h name);
  addTempRoot dstPath;;
  replace_invalid repair dstPath (lock_path dstPath)
    ((if recursive then
        restore_path (S (length dump)) dstPath (mkStringSource dump 0);; mret ()
      else lift_fs (writeFile dstPath dump));;
     lift_fs (canonicalise_pass dstPath);;
     hash ← (if recursive then
               h ← (if decide (hashAlgo = htSHA256) then mret h else lift (hashString htSHA256 dump));
               mret (h, Z.of_nat (length dump))
             else hash_path htSHA256 dstPath);
     lift_fs (optimise_pass dstPath);;
     register_path_info dstPath hash [] []);;
  mret dstPath.

Definition addToStore (name srcPath : bytes) (recursive : bool) (hashAlgo : HashType)
    (filter : bytes → bool) (repair : bool) : M bytes :=
  srcPath ← lift (absPath env_cwd srcPath []);
  nul_check srcPath;;
  s ← gets (λ st,
    if recursive then
      t ← read_tree (fs_depth (st_fs st)) srcPath (st_fs st);
      chunks ← dumpPath filter srcPath t;
      Ret (stringsink_run chunks)
    else fs_readFile srcPath (st_fs st));
  addToStoreFromDump s name recursive hashAlgo repair.

Definition addTextToStore (name s : bytes) (references : strset) (repair : bool) : M bytes :=
  dstPath ← lift (computeStorePathForText env_nixStore name s references);
  addTempRoot dstPath;;
  replace_invalid repair dstPath (lock_path dstPath)
    (lift_fs (writeFile dstPath s);;
     lift_fs (canonicalise_pass dstPath);;
     hash ← hash_path htSHA256 dstPath;
     lift_fs (optimise_pass dstPath);;
     register_path_info dstPath hash references []);;
  mret dstPath.

(** * The authentication agent *)

(** The bytes up to the first one that is not a digit, which is dropped. *)
Definition isdigit (c : byte) : bool := bool_decide (48 <= uchar c <= 57)%Z.

Fixpoint readInteger_loop (acc fd : bytes) : outcome (bytes * bytes) :=
  match fd with
  | [] => Throw (EndOfFile "unexpected EOF reading an integer")
  | ch :: fd => if isdigit ch then readInteger_loop (acc ++ [ch]) fd else Ret (acc, fd)
  end.

(** [std::stoi] on a string of digits. *)
Definition digits_value (s : bytes) : Z := foldl (λ n c, 10 * n + (uchar c - 48))%Z 0%Z s.
Definition stoi (s : bytes) : outcome Z :=
  if decide (s = []) then Throw (InvalidArgument "stoi")
  else if decide (digits_value s < 2 ^ 31)%Z then Ret (digits_value s)
  else Throw (OutOfRange "stoi").

Definition readInteger (fd : bytes) : outcome (Z * bytes) :=
  '(s, fd) ← readInteger_loop [] fd;
  n ← stoi s;
  Ret (n, fd).

(** [readFull] *)
Definition readFull (fd : bytes) (count : nat) : outcome (bytes * bytes) :=
  if decide (count <= length fd) then Ret (take count fd, drop count fd)
  else Throw (EndOfFile "unexpected end-of-file").

(** Code, the string, and what is left to read. *)
Definition readReply (fd : bytes) : outcome (Z * bytes * bytes) :=
  '(code, fd) ← readInteger fd;
  '(len, fd) ← readInteger fd;
  '(s, fd) ← readFull fd (Z.to_nat len);
  Ret (code, s, fd).

(** The message of the exception is what the agent said. *)
Definition readAuthenticateReply : M bytes :=
  '(code, s, fd) ← gets (λ st, readReply (st_agentOut st));
  modify (set_agentOut fd);;
  if decide (code = 0%Z) then mret s else lift (Throw (Error "guix authenticate")).

Definition ask_agent (request : bytes) : M bytes :=
  modify (λ st, set_agentOut (st_agentOut st ++ agent_reply request) st);;
  readAuthenticateReply.

Definition sign_request (secretKey hexHash : bytes) : bytes :=
  str "sign " ++ dec_size secretKey ++ str ":" ++ secretKey ++ str " " ++
  dec_size hexHash ++ str ":" ++ hexHash.

Definition verify_request (signature : bytes) : bytes :=
  str "verify " ++ dec_size signature ++ str ":" ++ signature.

Definition signHash (secretKey : bytes) (hash : Hash) : M bytes :=
  hexHash ← lift (printHash hash);
  ask_agent (sign_request secretKey hexHash).

Definition verifySignature (signature : bytes) : M bytes := ask_agent (verify_request signature).

Definition checkSecrecy (path : bytes) : M () :=
  mode ← lift (env_mode path);
  lift (check (bool_decide (Z.land mode 63 = 0%Z)) (Error "file should be secret")).

(** * Exporting *)

(** 0x4558494e *)
Definition EXPORT_MAGIC : Z := 1163413838.

(** [HashAndWriteSink]: each call goes to the sink and to the hash. *)
Definition hw_write (hs : BufferedSink) (chunks : list bytes) : M BufferedSink :=
  modify (λ st, set_sink (st_sink st ++ chunks) st);;
  lift (foldM sink_call chunks hs).

(** [currentHash]: the hash so far; the buffer has been flushed. *)
Definition currentHash (hs : BufferedSink) : outcome (Hash * BufferedSink) :=
  '(h, _) ← hashsink_finish htSHA256 hs;
  Ret (h, sink_flush hs).

Definition exportPath (path : bytes) (sign : bool) : M () :=
  lift (assertStorePath env_nixStore path);;
  nul_check path;;
  v ← is_valid path;
  lift (check v (Error "path is not valid"));;
  chunks ← gets (λ st, dump_path path (st_fs st));
  hs ← hw_write (sink_new defaultBufSize) chunks;
  '(hash, hs) ← lift (currentHash hs);
  storedHash ← gets (λ st, queryPathHash env_nixStore path (ls_db (st_ls st)));
  zero ← lift (Hash_new (hash_type storedHash));
  lift (check (Hash_eqb hash storedHash || Hash_eqb storedHash zero) (Error "hash of path has changed"));;
  hs ← hw_write hs (writeInt EXPORT_MAGIC);
  hs ← hw_write hs (writeString path);
  references ← gets (λ st, db_queryReferences env_nixStore path (ls_db (st_ls st)));
  hs ← hw_write hs (writeStrings references);
  deriver ← gets (λ st, db_queryDeriver env_nixStore path (ls_db (st_ls st)));
  hs ← hw_write hs (writeString deriver);
  if sign then
    '(hash, hs) ← lift (currentHash hs);
    hs ← hw_write hs (writeInt 1);
    let secretKey := env_nixConfDir ++ str "/signing-key.sec" in
    checkSecrecy secretKey;;
    signature ← signHash secretKey hash;
    hw_write hs (writeString signature);;
    mret ()
  else
    hw_write hs (writeInt 0);;
    mret ().

(** * Importing *)

(** [tempName] and [createTempDir] with their default arguments. *)
Definition tempName (tmpRoot : bytes) : M bytes :=
  tmpRoot ← lift (canonPath_resolve env_cwd env_lstat_link tmpRoot);
  counter ← gets (λ st, Ret (st_tempCounter st));
  modify (set_tempCounter (counter + 1)%N);;
  mret (tmpRoot ++ str "/nix-" ++ dec env_pid ++ str "-" ++ dec counter).

(** [mkdir]: false when the name is taken. *)
Definition make_dir (path : bytes) : M bool := λ st,
  match fs_create path IDir (st_fs st) with
  | Ret fs => (Ret true, set_fs fs st)
  | Throw (SysError e msg) => if decide (e = EEXIST) then (Ret false, st) else (Throw (SysError e msg), st)
  | Throw e => (Throw e, st)
  | OutOfFuel => (OutOfFuel, st)
  end.

Fixpoint createTempDir (fuel : nat) (tmpRoot : bytes) : M bytes :=
  match fuel with
  | 0 => lift OutOfFuel
  | S fuel =>
      tmpDir ← tempName tmpRoot;
      made ← make_dir tmpDir;
      if made : bool then mret tmpDir else createTempDir fuel tmpRoot
  end.

Fixpoint createTempDirInStore (fuel : nat) : M bytes :=
  match fuel with
  | 0 => lift OutOfFuel
  | S fuel =>
      entries ← gets (λ st, Ret (size (st_fs st)));
      tmpDir ← createTempDir (S entries) env_nixStore;
      addTempRoot tmpDir;;
      e ← path_exists tmpDir;
      if e : bool then mret tmpDir else createTempDirInStore fuel
  end.

(** [AutoDelete]: exceptions of the destructor are ignored. *)
Definition auto_delete (path : bytes) (st : StoreState) : StoreState := set_fs (fs_delete path (st_fs st)) st.

(** What precedes the signature: the path, its references and its deriver. *)
Definition read_trailer {S} `{Source S} (s : S) : outcome (bytes * strset * bytes * S) :=
  '(magic, s) ← readInt s;
  check (bool_decide (magic = EXPORT_MAGIC)) (Error "normalized archive cannot be imported; wrong format");;
  '(dstPath, s) ← readStorePath env_nixStore s;
  '(references, s) ← readStorePaths env_nixStore s;
  '(deriver, s) ← readString s;
  (if decide (deriver = []) then Ret () else assertStorePath env_nixStore deriver);;
  Ret (dstPath, references, deriver, s).

(** The signature, when there is one; [hash] is that of everything before it. *)
Definition check_signature {S} `{Source S} (requireSignature : bool) (hash : Hash) (s : S) : M S :=
  '(flag, s) ← lift (readInt s);
  let haveSignature := bool_decide (flag = 1%Z) in
  lift (check (negb (requireSignature && negb haveSignature)) (Error "imported archive lacks a signature"));;
  if haveSignature then
    '(signature, s) ← lift (readString s);
    (if requireSignature then
       hash2 ← verifySignature signature;
       hex ← lift (printHash hash);
       lift (check (bool_decide (hex = hash2)) (Error "signed hash doesn't match actual contents of imported archive"))
     else mret ());;
    mret s
  else mret s.

(** The move into place and the registration. *)
Definition install_import (unpacked dstPath : bytes) (references : strset) (deriver : bytes) : M () :=
  nul_check dstPath;;
  addTempRoot dstPath;;
  locksHeld ← lift (tokenizeString env_heldLocks (str " " ++ [Byte.x09; Byte.x0a; Byte.x0d]));
  replace_invalid false dstPath (when (negb (set_mem dstPath locksHeld)) (lock_path dstPath))
    (lift_fs (fs_rename unpacked dstPath);;
     lift_fs (canonicalise_pass dstPath);;
     hash ← hash_path htSHA256 dstPath;
     lift_fs (optimise_pass dstPath);;
     d ← is_valid deriver;
     register_path_info dstPath hash references
       (if negb (bool_decide (deriver = [])) && d then deriver else [])).

Definition importPath {S} `{Source S} (fuel : nat) (requireSignature : bool) (source : S) : M (bytes * S) :=
  let hashAndReadSource := mkHashAndReadSource source (sink_new defaultBufSize) true in
  tmpDir ← createTempDirInStore fuel;
  finally
    (let unpacked := tmpDir ++ str "/unpacked" in
     s ← restore_path fuel unpacked hashAndReadSource;
     '(dstPath, references, deriver, s) ← lift (read_trailer s);
     '(hash, _) ← lift (hashsink_finish htSHA256 (hr_sink s));
     let s := mkHashAndReadSource (hr_source s) (hr_sink s) false in
     s ← check_signature requireSignature hash s;
     install_import unpacked dstPath references deriver;;
     mret (dstPath, hr_source s))
    (auto_delete tmpDir).

Fixpoint importPaths_loop {S} `{Source S} (turns fuel : nat) (requireSignature : bool) (source : S)
    (res : list bytes) : M (list bytes * S) :=
  match turns with
  | 0 => lift OutOfFuel
  | Datatypes.S turns =>
      '(n, source) ← lift (readLongLong source);
      if decide (n = 0%Z) then mret (res, source)
      else if decide (n = 1%Z) then
        '(path, source) ← importPath fuel requireSignature source;
        importPaths_loop turns fuel requireSignature source (res ++ [path])
      else lift (Throw (Error "input doesn't look like something created by `nix-store --export'"))
  end.

Definition importPaths {S} `{Source S} (turns fuel : nat) (requireSignature : bool) (source : S)
    : M (list bytes * S) :=
  importPaths_loop turns fuel requireSignature source [].
End store_ops.
