(* ===== verification/StoreIntegrity.v ===== *)
(** The integrity of the store: what adding and importing keep.

    The database records for each valid path the SHA-256 hash of its archive.
    The invariant [integrity] says that the files still have that hash, which is
    what verifyStore checks. It is proved of the operations of StoreOps with a
    small Hoare logic for their monad, against the assumptions [StoreEnvLaws] on
    the surroundings. *)

From S2P Require Import Prelude StateMonad Containers Serialise Hash Archive StoreFiles Paths StorePaths Derivations Closure LocalDB StoreOps.

(** * Rows of the database *)

Section rows.
Context `{Gcrypt}.
Variable nixStore : bytes.
Variable readFile : bytes → outcome bytes.
Variable now : Z.

Lemma add_outputs_rows id l db db' :
  foldM (λ db (i : bytes * DerivationOutput), stmtAddDerivationOutput id (c_str i.1) (c_str (do_path i.2)) db) l db = Ret db' →
  db_ValidPaths db' = db_ValidPaths db.
Proof.
  apply (foldM_inv (λ db', db_ValidPaths db' = db_ValidPaths db)); [|done].
  intros db1 x db2 _ <-. unfold stmtAddDerivationOutput. case_decide; [|done]. by intros [= <-].
Qed.

Lemma register_references_rows i db db' :
  register_references db i = Ret db' → db_ValidPaths db' = db_ValidPaths db.
Proof.
  unfold register_references. intros (id & _ & E)%bind_Ret_inv. revert E.
  apply (foldM_inv (λ db', db_ValidPaths db' = db_ValidPaths db)); [|done].
  intros db1 x db2 _ <-. intros (j & _ & E)%bind_Ret_inv. unfold stmtAddReference in E. case_decide; [|done].
  by injection E as <-.
Qed.

(** The row that a registration leaves for its path, and the others. *)
Definition row_of (info : ValidPathInfo) (db db' : Database) : Prop :=
  ∀ id r, db_ValidPaths db' !! id = Some r →
    (∃ field, hash_field (vp_hash info) = Ret field ∧ row_path r = c_str (vp_path info) ∧ row_hash r = c_str field) ∨
    (row_path r ≠ c_str (vp_path info) ∧ db_ValidPaths db !! id = Some r).

Lemma addValidPath_rows info co st id st' :
  addValidPath nixStore readFile now info co st = Ret (id, st') → row_of info (ls_db st) (ls_db st').
Proof.
  unfold addValidPath. intros (field & Ef & E)%bind_Ret_inv. apply bind_Ret_inv in E as (db & E1 & E).
  assert (row_of info (ls_db st) db) as Hrow.
  { unfold stmtRegisterValidPath in E1. destruct (find_row _ _) eqn:Efr; [done|]. injection E1 as <-.
    intros i r. cbn [db_ValidPaths]. rewrite lookup_insert_Some. intros [[<- <-]|[Hne Hr]]; [left; by exists field|right].
    split; [|done]. intros Hp. apply find_row_None in Efr. apply Efr. by exists i, r. }
  destruct (isDerivation (vp_path info)); [|by injection E as <- <-].
  apply bind_Ret_inv in E as (drv & _ & E). apply bind_Ret_inv in E as (st1 & Ec & E).
  assert (ls_db st1 = db) as Hdb.
  { destruct co; [by apply checkDerivationOutputs_db in Ec|by injection Ec as <-]. }
  apply bind_Ret_inv in E as (db2 & E2 & E). injection E as <- <-. apply add_outputs_rows in E2.
  unfold row_of. cbn [ls_db]. by rewrite E2, Hdb.
Qed.

Lemma registerValidPath_rows info st st' :
  db_ok (ls_db st) → registerValidPath nixStore readFile now info st = Ret st' → row_of info (ls_db st) (ls_db st').
Proof.
  intros Hok. unfold registerValidPath, registerValidPaths. intros (st1 & E1 & E)%bind_Ret_inv.
  apply bind_Ret_inv in E as (db2 & E2 & E). apply bind_Ret_inv in E as (st3 & E3 & E).
  apply bind_Ret_inv in E as (sorted & _ & E). injection E as <-. apply foldM_check_registered in E3.
  cbn [foldM] in E1, E2. apply bind_Ret_inv in E1 as (st1' & E1 & [= <-]), E2 as (db2' & E2 & [= <-]).
  apply register_references_rows in E2. unfold row_of. rewrite E3. cbn [ls_db]. rewrite E2.
  unfold register_path in E1. apply bind_Ret_inv in E1 as ([] & _ & E1).
  destruct (isValidPath_ (vp_path info) (ls_db st)).
  - apply bind_Ret_inv in E1 as (db & E1 & [= <-]). apply bind_Ret_inv in E1 as (field & Ef & [= <-]).
    intros id r. cbn [ls_db]. unfold stmtUpdatePathInfo. destruct (find_row _ _) as [[i ro]|] eqn:Efr.
    + apply find_row_Some in Efr as [Hi Hp]. cbn [db_ValidPaths]. rewrite lookup_insert_Some.
      intros [[<- <-]|[Hne Hr]]; [left; by exists field|right]. split; [|done]. intros Hp'. apply Hne.
      eapply (ok_unique _ Hok); [exact Hi|exact Hr|congruence].
    + intros Hr. right. split; [|done]. apply find_row_None in Efr. intros Hp. apply Efr. by exists id, r.
  - apply bind_Ret_inv in E1 as ([id st2] & E1 & [= <-]). by apply addValidPath_rows in E1.
Qed.
End rows.

(** * Rules for the operations on files and the database *)

Lemma hoare_lift_fs P f Q E :
  (∀ st, P st → E st) → (∀ st fs, P st → f (st_fs st) = Ret fs → Q () (set_fs fs st)) → hoare P (lift_fs f) Q E.
Proof. intros HE HQ st Hst. unfold lift_fs. destruct (f (st_fs st)) eqn:Ef; auto. Qed.

Lemma hoare_lift_ls P f Q E :
  (∀ st, P st → E st) → (∀ st ls, P st → f st = Ret ls → Q () (set_ls ls st)) → hoare P (lift_ls f) Q E.
Proof. intros HE HQ st Hst. unfold lift_ls. destruct (f st) eqn:Ef; auto. Qed.

Lemma uint_bytes_slash d : "/"%byte ∉ uint_bytes d.
Proof. induction d; simpl; set_solver. Qed.

(** * Integrity *)

Section integrity.
Context {gc : Gcrypt} {env : StoreEnv}.

Abbreviation store_path p := (isStorePath env_nixStore p = true).

Definition linksDir : bytes := env_nixStore ++ str "/.links".

Definition row_good (fs : filesystem) (r : PathRow) : Prop :=
  ∃ h n field, hashPath htSHA256 (row_path r) fs = Ret (h, n) ∧ hash_field h = Ret field ∧ row_hash r = c_str field.

(** The store directory exists, everything lies in a directory, and every valid path is a store path whose
    contents have the recorded hash. The directory of hard links, if it were
    registered, is not covered. *)
Definition integrity (st : StoreState) : Prop :=
  db_ok (ls_db (st_ls st)) ∧ (fs_wf (st_fs st) ∧ st_fs st !! env_nixStore = Some IDir) ∧
  ∀ id r, db_ValidPaths (ls_db (st_ls st)) !! id = Some r →
    store_path (row_path r) ∧ (row_path r ≠ linksDir → row_good (st_fs st) r).

(** The names [createTempDir] gives in the store. *)
Definition temp_name (c : N) : bytes := env_nixStore ++ str "/nix-" ++ dec env_pid ++ str "-" ++ dec c.
End integrity.

(** What the operations rely on: the store directory is an absolute path without
    symbolic links; the other processes keep the integrity of the store and do
    not register paths named like this process's temporary directories; the two
    passes over a new path change no contents outside the links directory. *)
Class StoreEnvLaws {gc : Gcrypt} {env : StoreEnv} := {
  law_store_dir : store_dir_ok env_nixStore;
  law_store_nul : nul_free env_nixStore;
  law_resolved : canonPath_resolve env_cwd env_lstat_link env_nixStore = Ret env_nixStore;
  law_others_integrity w st : integrity st → integrity (others w st);
  law_others_temp w st c :
    ¬ valid (ls_db (st_ls st)) (temp_name c) → ¬ valid (ls_db (st_ls (others w st))) (temp_name c);
  law_canonicalise p fs fs' :
    canonicalise_pass p fs = Ret fs' →
    (fs_wf fs → fs_wf fs') ∧ ∀ q, ¬ at_or_below linksDir q → fs' !! q = fs !! q;
  law_optimise p fs fs' :
    optimise_pass p fs = Ret fs' →
    (fs_wf fs → fs_wf fs') ∧ ∀ q, ¬ at_or_below linksDir q → fs' !! q = fs !! q
}.

Section keeping.
Context {gc : Gcrypt} {env : StoreEnv} {laws : StoreEnvLaws}.

Abbreviation store_path p := (isStorePath env_nixStore p = true).
Abbreviation db_of st := (ls_db (st_ls st)).

(** ** Where store paths are *)

Lemma store_path_iff p :
  store_path p ↔ ∃ base, base ≠ [] ∧ "/"%byte ∉ base ∧ p = env_nixStore ++ slash ++ base.
Proof. apply isStorePath_iff, law_store_dir. Qed.

Lemma store_path_proper p : store_path p → proper p.
Proof.
  intros (b & Hb & _ & ->)%store_path_iff. split; intros E; apply (f_equal length) in E;
    rewrite !length_app in E; simpl in E; destruct b; simpl in *; [done|lia|done|lia].
Qed.

Lemma store_nonempty : env_nixStore ≠ [].
Proof. intros E. pose proof (proj1 law_store_dir) as E'. by rewrite E in E'. Qed.

Lemma store_paths_apart p c q : store_path p → store_path c → p ≠ c → at_or_below p q → ¬ at_or_below c q.
Proof.
  intros (b & _ & Hb & ->)%store_path_iff (b' & _ & Hb' & ->)%store_path_iff Hne Hq Hq'.
  apply Hne. by rewrite (at_or_below_siblings env_nixStore b b' q).
Qed.

Lemma store_path_parent p : store_path p → parent_of p = Some env_nixStore.
Proof. intros (b & _ & Hb & ->)%store_path_iff. apply parent_of_child; [apply store_nonempty|done]. Qed.

Lemma links_store_path : store_path linksDir.
Proof. apply store_path_iff. exists (str ".links"). split_and!; [done|concrete|done]. Qed.

Lemma temp_name_store c : store_path (temp_name c).
Proof.
  apply store_path_iff. exists (str "nix-" ++ dec env_pid ++ str "-" ++ dec c). split_and!; [done| |done].
  unfold dec. rewrite !not_elem_of_app. split_and!; try apply uint_bytes_slash; concrete.
Qed.

(** ** Changes below paths that are not valid *)

(** The file systems differ at most at or below [ds] and in the links. *)
Definition changes_only (ds : list bytes) (fs fs' : filesystem) : Prop :=
  ∀ q, (∀ d, d ∈ ds → ¬ at_or_below d q) → ¬ at_or_below linksDir q → fs' !! q = fs !! q.

(** Integrity, and none of [ds] is valid. *)
Definition intact (ds : list bytes) (st : StoreState) : Prop :=
  integrity st ∧ ∀ d, d ∈ ds → store_path d ∧ ¬ valid (db_of st) d.

Lemma changes_only_trans ds fs1 fs2 fs3 : changes_only ds fs1 fs2 → changes_only ds fs2 fs3 → changes_only ds fs1 fs3.
Proof. intros H1 H2 q Hd Hl. by rewrite H2, H1. Qed.

Lemma intact_integrity ds st : intact ds st → integrity st.
Proof. by intros [? _]. Qed.

Lemma intact_mono ds ds' st : (∀ d, d ∈ ds' → d ∈ ds) → intact ds st → intact ds' st.
Proof. intros Hsub [HI Hds]. split; [done|]. intros d Hd. by apply Hds, Hsub. Qed.

Lemma same_below_changes ds fs fs' p :
  changes_only ds fs fs' → (∀ d, d ∈ ds → store_path d) → store_path p → p ∉ ds → p ≠ linksDir → same_below p fs fs'.
Proof.
  intros Hc Hds Hp Hnin Hl q Hq. apply Hc.
  - intros d Hd. apply (store_paths_apart p); [done|by apply Hds|by intros ->|done].
  - apply (store_paths_apart p); [done|apply links_store_path|done|done].
Qed.

Lemma row_good_frame fs fs' r : same_below (row_path r) fs fs' → row_good fs r → row_good fs' r.
Proof.
  intros Hs (h & n & field & Eh & Ef & Er). exists h, n, field. split_and!; [|done|done].
  by eapply hashPath_frame.
Qed.

Lemma store_above d : store_path d → ¬ at_or_below d env_nixStore.
Proof. intros (b & _ & _ & ->)%store_path_iff. apply below_self. Qed.

Lemma intact_fs ds st fs :
  intact ds st → fs_wf fs → changes_only ds (st_fs st) fs → intact ds (set_fs fs st).
Proof.
  intros [(Hok & [_ Hst] & Hrows) Hds] Hwf Hc. split; [|done]. split; [done|]. split.
  { split; [done|]. cbn [set_fs st_fs]. rewrite Hc; [done|intros d Hd; by apply store_above, Hds|].
    apply store_above, links_store_path. } intros id r Hr. cbn [set_fs st_ls st_fs] in *.
  destruct (Hrows id r Hr) as [Hp Hg]. split; [done|]. intros Hl. apply (row_good_frame (st_fs st)); [|by apply Hg].
  eapply same_below_changes; [done|intros d Hd; by apply Hds|done| |done].
  intros Hin. apply (Hds _ Hin). by exists id, r.
Qed.

(** ** File operations on such paths *)

Lemma changes_delete ds d fs fs' : d ∈ ds → deletePath d fs = Ret fs' → changes_only ds fs fs'.
Proof.
  unfold deletePath. case_match; [|done]. intros Hd [= <-] q Hq _. rewrite lookup_fs_delete, decide_False; [done|].
  by apply Hq.
Qed.

Lemma intact_wf ds st : intact ds st → fs_wf (st_fs st).
Proof. by intros [(_ & [? _] & _) _]. Qed.

Lemma changes_pass ds p fs fs' :
  (canonicalise_pass p fs = Ret fs' ∨ optimise_pass p fs = Ret fs') →
  (fs_wf fs → fs_wf fs') ∧ changes_only ds fs fs'.
Proof. intros [[Hw Hc]%law_canonicalise|[Hw Hc]%law_optimise]; (split; [done|]); intros q _; apply Hc. Qed.

Lemma intact_pass ds p st fs :
  (canonicalise_pass p (st_fs st) = Ret fs ∨ optimise_pass p (st_fs st) = Ret fs) →
  intact ds st → intact ds (set_fs fs st).
Proof.
  intros E Hst. destruct (changes_pass ds _ _ _ E) as [Hw Hc]. apply intact_fs; [done|by eapply Hw, intact_wf|done].
Qed.

Lemma changes_write ds d s fs fs' : d ∈ ds → fs !! d = None → writeFile d s fs = Ret fs' → changes_only ds fs fs'.
Proof.
  unfold writeFile. cbn [writeFile_at]. intros Hd -> E%fs_create_Ret q Hq _. subst fs'. rewrite lookup_insert_ne; [done|].
  intros <-. by apply (Hq d Hd); left.
Qed.

Lemma changes_move ds a b fs fs' :
  (∃ d, d ∈ ds ∧ at_or_below d a) → b ∈ ds → a ≠ b → fs_rename a b fs = Ret fs' → changes_only ds fs fs'.
Proof.
  intros (d & Hd & Ha) Hb Hne (_ & _ & ->)%fs_rename_Ret q Hq _; [|done].
  apply lookup_move_outside; [|by apply Hq]. intros Haq. apply (Hq d Hd). by eapply below_trans.
Qed.

Lemma restore_events_contained dst tr k o k' fs :
  (∀ e, e ∈ tr → event_confined [] e) → contained dst fs k →
  restore_events dst tr k = (o, k') → contained dst fs k'.
Proof.
  revert k. induction tr as [|e tr IH]; intros k Htr Hk; cbn [restore_events]; [by intros [= _ <-]|].
  destruct (restore_event env_fallocate dst k e) as [k1|x|] eqn:E; [|by intros [= _ <-]|by intros [= _ <-]].
  apply IH; [intros; apply Htr; by right|]. eapply restore_event_contained; [|done|exact E]. apply Htr. by left.
Qed.

Lemma restore_events_wf dst tr k o k' :
  fs_wf (rs_fs k) → restore_events dst tr k = (o, k') → fs_wf (rs_fs k').
Proof.
  revert k. induction tr as [|e tr IH]; intros k Hk; cbn [restore_events]; [by intros [= _ <-]|].
  destruct (restore_event env_fallocate dst k e) as [k1|x|] eqn:E; [|by intros [= _ <-]..].
  apply IH. by eapply fs_wf_event.
Qed.

Lemma changes_restore {S} `{SourceLaws S} ds d dst fuel (s : S) tr r o k fs :
  d ∈ ds → at_or_below d dst → source_wf s → length (remaining s) < fuel → parseDump fuel s = (tr, r) →
  restore_events dst tr (mkRestoreSink None fs) = (o, k) → changes_only ds fs (rs_fs k).
Proof.
  intros Hd Hdst Hs Hf Ep Er q Hq _. pose proof (parseDump_confined fuel s Hs Hf) as [_ Hc]. rewrite Ep in Hc.
  rewrite Forall_forall in Hc. eapply restore_events_contained in Er as [_ Hk]; [|exact Hc|split; [by intros|done]].
  apply Hk. intros Hq'. apply (Hq d Hd). by eapply below_trans.
Qed.

(** ** The pieces of the operations *)

Abbreviation keeps ds m := (hoare (intact ds) m (λ _, intact ds) (intact ds)).

Lemma keeps_restore {S} `{SourceLaws S} ds d dst fuel (s : S) :
  d ∈ ds → at_or_below d dst → source_wf s → length (remaining s) < fuel → keeps ds (restore_path fuel dst s).
Proof.
  intros Hd Hdst Hs Hf st Hst. unfold restore_path. destruct (parseDump fuel s) as [tr r] eqn:Ep.
  destruct (restore_events _ _ _) as [o k] eqn:Er.
  assert (intact ds (set_fs (rs_fs k) st)).
  { apply intact_fs; [done| |by eapply changes_restore]. eapply restore_events_wf, Er. by eapply intact_wf. }
  by destruct (o;; _).
Qed.

(** Paths named like this process's temporary directories. *)
Definition temp_names (ds : list bytes) : Prop := ∀ d, d ∈ ds → ∃ c, d = temp_name c.

Lemma intact_others w ds st : temp_names ds → intact ds st → intact ds (others w st).
Proof.
  intros Ht [HI Hds]. split; [by apply law_others_integrity|]. intros d Hd. destruct (Hds d Hd) as [Hp Hv].
  split; [done|]. destruct (Ht d Hd) as [c ->]. by apply law_others_temp.
Qed.

Lemma keeps_lock ds p : temp_names ds → keeps ds (lock_path p).
Proof. intros Ht. apply hoare_modify. intros st. by apply intact_others. Qed.

Lemma keeps_addTempRoot ds p : temp_names ds → keeps ds (addTempRoot p).
Proof.
  intros Ht. eapply (hoare_bind _ _ (λ _, intact ds)); [apply hoare_modify; intros st; by apply intact_others|].
  intros _. apply hoare_modify. by intros st [(? & ? & ?) ?].
Qed.

Lemma keeps_lift {A} ds (r : outcome A) : keeps ds (lift r).
Proof. apply hoare_lift; auto. Qed.

Lemma keeps_gets {A} ds (f : StoreState → outcome A) : keeps ds (gets f).
Proof. apply hoare_gets; auto. Qed.

Lemma keeps_agent ds request : keeps ds (ask_agent request).
Proof.
  eapply (hoare_bind _ _ (λ _, intact ds)); [apply hoare_modify; by intros st [(? & ? & ?) ?]|]. intros _.
  eapply (hoare_bind _ _ (λ _, intact ds)); [apply keeps_gets|]. intros [[code s] fd].
  eapply (hoare_bind _ _ (λ _, intact ds)); [apply hoare_modify; by intros st [(? & ? & ?) ?]|]. intros _.
  case_decide; [by apply hoare_ret|apply keeps_lift].
Qed.

(** Registering a path whose hash was just computed. *)
Lemma register_intact ds d hash refs deriver :
  store_path d → nul_free d → d ∉ ds →
  hoare (λ st, intact (d :: ds) st ∧ (d ≠ linksDir → hashPath htSHA256 d (st_fs st) = Ret hash))
    (register_path_info d hash refs deriver) (λ _, intact ds) (intact ds).
Proof.
  intros Hp Hn Hnin. apply hoare_lift_ls.
  { intros st [Hst _]. apply (intact_mono (d :: ds)); [set_solver|done]. }
  intros st ls [[(Hok & Hwf & Hrows) Hds] Hh] E. pose proof E as Er. apply registerValidPath_rows in Er; [|done].
  apply registerValidPaths_adds in E as [(Hok' & Hv & _) _]; [|done].
  split; [split; [done|split; [done|]]|].
  - intros id r Hr. cbn [set_ls st_ls st_fs] in *. destruct (Er id r Hr) as [(field & Ef & Hrp & Hrh)|[Hne Hold]].
    + cbn [vp_path vp_hash] in *. rewrite c_str_id in Hrp by done. rewrite Hrp. split; [done|].
      intros Hl. destruct hash as [h n]. exists h, n, field. rewrite Hrp. split_and!; [by apply Hh|done|done].
    + by apply Hrows in Hold.
  - intros x Hx. destruct (Hds x ltac:(set_solver)) as [Hsx Hvx]. split; [done|]. cbn [set_ls st_ls].
    rewrite Hv. intros [?|(i & ->%list_elem_of_singleton & E)]; [done|].
    cbn [vp_path] in E. rewrite c_str_id in E by done. by subst.
Qed.

(** Canonicalising, hashing, optimising: the hash stays that of the path. *)
Lemma finish_intact ds d (k : Hash * Z → M ()) :
  (∀ hash, hoare (λ st, intact (d :: ds) st ∧ (d ≠ linksDir → hashPath htSHA256 d (st_fs st) = Ret hash))
    (k hash) (λ _, intact ds) (intact ds)) →
  hoare (intact (d :: ds))
    (lift_fs (canonicalise_pass d);; hash ← hash_path htSHA256 d; lift_fs (optimise_pass d);; k hash)
    (λ _, intact ds) (intact ds).
Proof.
  intros Hk. assert (∀ st, intact (d :: ds) st → intact ds st) as Hw by (intros st; apply intact_mono; set_solver).
  eapply (hoare_bind _ _ (λ _, intact (d :: ds))).
  { apply hoare_lift_fs; [done|]. intros st fs Hst E. eapply intact_pass; eauto. }
  intros _. eapply (hoare_bind _ _ (λ hash st, intact (d :: ds) st ∧ hashPath htSHA256 d (st_fs st) = Ret hash)).
  { apply hoare_gets; auto. }
  intros hash. eapply (hoare_bind _ _ (λ _ st, intact (d :: ds) st ∧ (d ≠ linksDir → hashPath htSHA256 d (st_fs st) = Ret hash))).
  - apply hoare_lift_fs; [intros st [? _]; auto|]. intros st fs [Hst Hh] E.
    destruct (changes_pass [] d (st_fs st) fs ltac:(eauto)) as [_ Hc]. split; [eapply intact_pass; eauto|]. intros Hl. eapply hashPath_frame; [|done].
    eapply same_below_changes; [exact Hc|set_solver| |set_solver|done]. apply Hst. by left.
  - intros _. apply Hk.
Qed.

(** The double check around the lock. *)
Lemma replace_intact ds d lock body :
  store_path d → nul_free d → keeps ds lock →
  hoare (λ st, intact (d :: ds) st ∧ st_fs st !! d = None) body (λ _, intact ds) (intact ds) →
  keeps ds (replace_invalid false d lock body).
Proof.
  intros Hp Hn Hlock Hbody. cbn [replace_invalid orb].
  assert (∀ st, intact ds st → isValidPath_ d (db_of st) = false → intact (d :: ds) st) as Hinv.
  { intros st [HI Hds] Hv. split; [done|]. intros x [->|Hx]%elem_of_cons; [|by apply Hds]. split; [done|].
    intros Hval. assert (isValidPath_ d (db_of st) = true); [|congruence]. apply isValidPath_spec. by rewrite c_str_id. }
  eapply (hoare_bind _ _ (λ _, intact ds)); [apply keeps_gets|]. intros v.
  apply hoare_when; [|done]. intros _. eapply (hoare_bind _ _ (λ _, intact ds)); [done|]. intros _.
  eapply (hoare_bind _ _ (λ v st, intact ds st ∧ isValidPath_ d (db_of st) = v)).
  { apply hoare_gets; [done|]. intros a st Hst [= <-]. done. }
  intros v'. apply hoare_when; [|by intros _ st []]. intros Hv. apply negb_true_iff in Hv. subst v'.
  eapply (hoare_bind _ _ (λ e st, intact (d :: ds) st ∧ fs_exists d (st_fs st) = e)).
  { apply hoare_gets; [by intros st []|]. intros e st [Hst Hv] [= <-]. auto. }
  intros e. eapply (hoare_bind _ _ (λ _ st, intact (d :: ds) st ∧ st_fs st !! d = None)); [|done].
  apply hoare_when.
  - intros ->. apply hoare_lift_fs; [intros st [? _]; by eapply intact_mono; [|done]; set_solver|].
    intros st fs [Hst _] E. pose proof (changes_delete (d :: ds) d _ _ ltac:(by left) E) as Hc.
    unfold deletePath in E. case_match; [|done]. injection E as <-. split.
    { apply intact_fs; [done| |done]. apply fs_wf_delete; [by apply store_path_proper|by eapply intact_wf]. }
    cbn [set_fs st_fs]. by rewrite lookup_fs_delete, decide_True by (by left).
  - intros -> st [Hst He]. split; [done|]. unfold fs_exists in He. apply bool_decide_eq_false in He.
    by apply eq_None_not_Some.
Qed.

(** ** Temporary directories *)

Lemma hashPath_exists ht p fs h : hashPath ht p fs = Ret h → is_Some (fs !! p).
Proof.
  unfold hashPath, dump_path. intros (c & E & _)%bind_Ret_inv. apply bind_Ret_inv in E as (t & E & _).
  unfold fs_depth in E. cbn [read_tree] in E. destruct (fs !! p); [by eexists|done].
Qed.

(** A path where nothing is cannot be valid. *)
Lemma absent_not_valid p st : integrity st → p ≠ linksDir → st_fs st !! p = None → ¬ valid (db_of st) p.
Proof.
  intros (Hok & _ & Hrows) Hl Hnone (id & r & Hr & <-). destruct (Hrows id r Hr) as [_ Hg].
  destruct (Hg Hl) as (h & n & field & Eh & _). apply hashPath_exists in Eh as [i Hi]. congruence.
Qed.

Lemma temp_name_links c : temp_name c ≠ linksDir.
Proof. unfold temp_name, linksDir. intros E. simplify_list_eq. Qed.

Lemma createTempDir_intact fuel :
  hoare integrity (createTempDir fuel env_nixStore)
    (λ tmp st, ∃ c, tmp = temp_name c ∧ intact [tmp] st) integrity.
Proof.
  induction fuel as [|fuel IH]; cbn [createTempDir]; [by apply hoare_lift|].
  eapply (hoare_bind _ _ (λ tmp st, (∃ c, tmp = temp_name c) ∧ integrity st)).
  { unfold tempName. eapply (hoare_bind _ _ (λ r st, r = env_nixStore ∧ integrity st)).
    - apply hoare_lift; [done|]. intros r st E Hst. rewrite law_resolved in E. by injection E as <-.
    - intros r. eapply (hoare_bind _ _ (λ c st, r = env_nixStore ∧ integrity st)); [apply hoare_gets; [by intros ? []|done]|].
      intros c. eapply (hoare_bind _ _ (λ _ st, r = env_nixStore ∧ integrity st)); [by apply hoare_modify|].
      intros _. apply hoare_ret. intros st [-> HI]. split; [by exists c|done]. }
  intros tmp. eapply (hoare_bind _ _ (λ (made : bool) st, (∃ c, tmp = temp_name c) ∧
    if made then intact [tmp] st else integrity st)).
  - intros st [(c & ->) HI]. unfold make_dir. destruct (fs_create (temp_name c) IDir (st_fs st)) as [fs|e|] eqn:E.
    + split; [by exists c|]. assert (st_fs st !! temp_name c = None) as Hn.
      { unfold fs_create in E. repeat case_match; try done. by apply eq_None_not_Some. }
      pose proof (fs_wf_create _ _ _ _ (proj1 (proj1 (proj2 HI))) E) as Hwf. apply fs_create_Ret in E as ->. apply intact_fs; [|done|].
      * split; [done|]. intros d ->%list_elem_of_singleton. split; [apply temp_name_store|].
        apply absent_not_valid; [done|apply temp_name_links|done].
      * intros q Hq _. rewrite lookup_insert_ne; [done|]. intros <-. apply (Hq (temp_name c)); [by left|by left].
    + destruct e; try done. case_decide; [|done]. split; [by exists c|done].
    + done.
  - intros made. destruct made.
    + apply hoare_ret. intros st [(c & ->) Hst]. by exists c.
    + eapply hoare_conseq; [apply IH|by intros st []|done|done].
Qed.

Lemma createTempDirInStore_intact fuel :
  hoare integrity (createTempDirInStore fuel)
    (λ tmp st, ∃ c, tmp = temp_name c ∧ intact [tmp] st) integrity.
Proof.
  induction fuel as [|fuel IH]; cbn [createTempDirInStore]; [by apply hoare_lift|].
  eapply (hoare_bind _ _ (λ _, integrity)); [by apply hoare_gets|]. intros entries.
  eapply (hoare_bind _ _ (λ tmp st, ∃ c, tmp = temp_name c ∧ intact [tmp] st)); [apply createTempDir_intact|].
  intros tmp st (c & -> & Hst).
  enough (hoare (intact [temp_name c]) (addTempRoot (temp_name c);;
    e ← path_exists (temp_name c); if e : bool then mret (temp_name c) else createTempDirInStore fuel)
    (λ tmp st, ∃ c, tmp = temp_name c ∧ intact [tmp] st) integrity) as Hh by (by apply Hh).
  eapply (hoare_bind _ _ (λ _, intact [temp_name c])).
  { eapply hoare_conseq; [apply keeps_addTempRoot|done|done|by intros ? []].
    intros d ->%list_elem_of_singleton. by eexists. }
  intros _. eapply (hoare_bind _ _ (λ _, intact [temp_name c])).
  { apply hoare_gets; [by intros ? []|done]. }
  intros [].
  - apply hoare_ret. intros st' Hst'. by exists c.
  - eapply hoare_conseq; [apply IH|by intros ? []|done|done].
Qed.

(** ** Computed paths *)

Context {glaws : GcryptLaws}.

Lemma base32_nul_free s : Forall base32_char_ok s → nul_free s.
Proof. rewrite Forall_forall. intros Hs Hc. by specialize (Hs _ Hc). Qed.

Lemma valid_name_nul_free name : Forall (λ c, valid_name_char c = true) name → nul_free name.
Proof. rewrite Forall_forall. intros Hn Hc. by apply Hn in Hc. Qed.

Lemma makeStorePath_path type hash name p :
  makeStorePath env_nixStore type hash name = Ret p → store_path p ∧ nul_free p ∧ p ≠ linksDir.
Proof.
  intros E. pose proof (makeStorePath_name _ _ _ _ _ E) as Hname. apply checkStoreName_iff in Hname as [_ Hname].
  unfold makeStorePath in E. apply bind_Ret_inv in E as (hex & _ & E). apply bind_Ret_inv in E as ([] & _ & E).
  destruct (hash_part_ok (fingerprint env_nixStore type hex name)) as (h & Eh & Hl & Hh).
  assert (p = env_nixStore ++ slash ++ h ++ str "-" ++ name) as ->.
  { unfold hash_part in Eh. apply bind_Ret_inv in E as (h1 & E1 & E). rewrite E1 in Eh. cbn [mbind outcome_bind] in Eh.
    apply bind_Ret_inv in E as (h2 & E2 & E). rewrite E2 in Eh. cbn [mbind outcome_bind] in Eh. rewrite Eh in E.
    by injection E as <-. }
  destruct (name_free _ Hname) as [Hs _]. split_and!.
  - apply store_path_iff. exists (h ++ str "-" ++ name). split_and!; [by destruct h| |done].
    rewrite !not_elem_of_app. split_and!; [by apply base32_no_slash|concrete|done].
  - unfold nul_free. rewrite !not_elem_of_app. split_and!; [apply law_store_nul|concrete|by apply base32_nul_free|concrete|].
    by apply valid_name_nul_free.
  - unfold linksDir. intros E'%(inj (app env_nixStore)). destruct h as [|c h]; [done|]. injection E' as -> _.
    apply Forall_inv in Hh. by vm_compute in Hh.
Qed.

Lemma text_path name s refs p :
  computeStorePathForText env_nixStore name s refs = Ret p → store_path p ∧ nul_free p ∧ p ≠ linksDir.
Proof. unfold computeStorePathForText. intros (h & _ & E)%bind_Ret_inv. by eapply makeStorePath_path. Qed.

Lemma fixed_path recursive ht h name p :
  makeFixedOutputPath env_nixStore recursive ht h name = Ret p → store_path p ∧ nul_free p ∧ p ≠ linksDir.
Proof.
  unfold makeFixedOutputPath. case_match; [apply makeStorePath_path|].
  intros (algo & _ & E)%bind_Ret_inv. apply bind_Ret_inv in E as (hex & _ & E).
  apply bind_Ret_inv in E as (h' & _ & E). by eapply makeStorePath_path.
Qed.

(** ** The operations *)

Lemma write_intact ds d s (k : M ()) :
  hoare (intact (d :: ds)) k (λ _, intact ds) (intact ds) →
  hoare (λ st, intact (d :: ds) st ∧ st_fs st !! d = None) (lift_fs (writeFile d s);; k) (λ _, intact ds) (intact ds).
Proof.
  intros Hk. eapply (hoare_bind _ _ (λ _, intact (d :: ds))); [|done].
  apply hoare_lift_fs; [intros st [Hst _]; by eapply intact_mono; [|done]; set_solver|].
  intros st fs [Hst Hn] E. apply intact_fs; [done| |eapply changes_write; [by left|done|done]].
  eapply fs_wf_write; [by eapply intact_wf|exact E].
Qed.

Lemma addTextToStore_keeps name s refs : keeps [] (addTextToStore name s refs false).
Proof.
  unfold addTextToStore. eapply (hoare_bind _ _ (λ p st, (store_path p ∧ nul_free p) ∧ intact [] st)).
  { apply hoare_lift; [done|]. intros p st (?&?&_)%text_path Hst. done. }
  intros p st [[Hp Hn] Hst]. revert st Hst.
  eapply (hoare_bind _ _ (λ _, intact [])); [apply keeps_addTempRoot; intros ? ?; set_solver|]. intros _.
  eapply (hoare_bind _ _ (λ _, intact [])); [|intros _; by apply hoare_ret].
  apply replace_intact; [done|done|apply keeps_lock; intros ? ?; set_solver|].
  apply write_intact, finish_intact. intros hash. apply register_intact; [done|done|set_solver].
Qed.

(** An archive of [t], as [dumpPath] writes it. *)
Definition archive (t : fso) : bytes := wire (writeString archiveVersion1 ++ nar t).

Lemma restore_events_foldM dst tr k k' :
  foldM (restore_event env_fallocate dst) tr k = Ret k' → restore_events dst tr k = (Ret (), k').
Proof.
  revert k. induction tr as [|e tr IH]; intros k; cbn [foldM restore_events]; [by intros [= <-]|].
  intros (k1 & -> & E)%bind_Ret_inv. by apply IH.
Qed.

Lemma restore_path_Ret {S} `{Source S} fuel dst (s s' : S) st fs :
  restorePath env_fallocate dst fuel (st_fs st) s = Ret (fs, s') →
  restore_path fuel dst s st = (Ret s', set_fs fs st).
Proof.
  unfold restorePath, restore_path. destruct (parseDump fuel s) as [tr r].
  intros (k & Ek & E)%bind_Ret_inv. apply bind_Ret_inv in E as ([u s1] & -> & [= <- <-]).
  by rewrite (restore_events_foldM _ _ _ _ Ek).
Qed.

(** Restoring an archive at a store path where nothing is. *)
Lemma restore_archive {S} `{SourceLaws S} ds p fuel t (s : S) rest st :
  nar_ok t → intact ds st → store_path p → st_fs st !! p = None → source_wf s →
  remaining s = archive t ++ rest → length (remaining s) <= fuel →
  ∃ s', restore_path fuel p s st = (Ret s', set_fs (fs_add p t (st_fs st)) st) ∧
    source_wf s' ∧ remaining s' = rest ∧ holds_tree (fs_add p t (st_fs st)) p t.
Proof.
  intros Hok Hst Hp Hn Hs Hr Hf.
  assert (fresh_at p (st_fs st)) as Hfresh.
  { apply fresh_at_absent; [by eapply intact_wf|by apply store_path_proper|done]. }
  pose proof Hp as (b & Hb & Hsl & ->)%store_path_iff.
  pose proof store_nonempty.
  destruct (restorePath_nar env_fallocate (env_nixStore ++ slash ++ b) env_nixStore t (st_fs st) fuel s rest)
    as (s' & E & Hs' & Hr'); try done.
  - intros [? _]%app_eq_nil. done.
  - by apply last_child.
  - by apply parent_of_child.
  - by destruct Hst as [(_ & [_ ?] & _) _].
  - exists s'. split_and!; [by apply restore_path_Ret|done|done|by apply holds_add].
Qed.

Lemma small_chunks (chunks : list bytes) n :
  (Z.of_nat (length (wire chunks)) < n)%Z → Forall (λ w, Z.of_nat (length w) < n)%Z chunks.
Proof.
  intros Hl. apply Forall_forall. intros w Hw. apply list_elem_of_split in Hw as (l & k & ->).
  rewrite join_app, mjoin_cons, !length_app in Hl. lia.
Qed.

Lemma hashPath_archive p t fs h :
  nar_ok t → holds_tree fs p t → (Z.of_nat (length (archive t)) < 2 ^ 32)%Z → hashString htSHA256 (archive t) = Ret h →
  hashPath htSHA256 p fs = Ret (h, Z.of_nat (length (archive t))).
Proof.
  intros Hok Hh Hl Eh. unfold hashPath. rewrite (dump_path_holds t) by done. cbn [mbind outcome_bind].
  destruct (hashsink_run_ok htSHA256 (writeString archiveVersion1 ++ nar t)) as (h' & -> & Hwf & Hty & Hsz & Hd);
    [done|by apply small_chunks|]. fold (archive t) in *. rewrite Z.mod_small by lia. f_equal. f_equal.
  unfold hashString in Eh. rewrite Hash_new_ok in Eh by done. cbn [mbind outcome_bind] in Eh. injection Eh as <-.
  rewrite md_update_small by done.
  destruct (md_finish_spec htSHA256 _ (archive t) ltac:(done) (Hash_new_ok htSHA256 ltac:(done))) as (Hwf' & Hty' & Hsz' & Hd').
  apply hash_ext; congruence || done.
Qed.

Lemma addToStoreFromDump_keeps dump name recursive ht :
  (recursive = true → ∃ t, nar_ok t ∧ dump = archive t ∧ (Z.of_nat (length dump) < 2 ^ 32)%Z) →
  keeps [] (addToStoreFromDump dump name recursive ht false).
Proof.
  intros Hrec. unfold addToStoreFromDump.
  eapply (hoare_bind _ _ (λ h st, hashString ht dump = Ret h ∧ intact [] st)); [by apply hoare_lift|].
  intros h st [Eh Hst]. revert st Hst.
  eapply (hoare_bind _ _ (λ p st, (store_path p ∧ nul_free p ∧ p ≠ linksDir) ∧ intact [] st)).
  { apply hoare_lift; [done|]. intros p st E%fixed_path Hst. done. }
  intros p st [(Hp & Hn & Hl) Hst]. revert st Hst.
  eapply (hoare_bind _ _ (λ _, intact [])); [apply keeps_addTempRoot; intros ? ?; set_solver|]. intros _.
  eapply (hoare_bind _ _ (λ _, intact [])); [|intros _; by apply hoare_ret].
  apply replace_intact; [done|done|apply keeps_lock; intros ? ?; set_solver|].
  destruct recursive.
  2: { apply write_intact, finish_intact. intros hash. apply register_intact; [done|done|set_solver]. }
  destruct (Hrec eq_refl) as (t & Hok & -> & Hlen).
  assert (∀ st, intact [p] st → intact [] st) as Hw by (intros st; apply intact_mono; set_solver).
  eapply (hoare_bind _ _ (λ _ st, intact [p] st ∧ holds_tree (st_fs st) p t)).
  { intros st [Hst Hnone].
    destruct (restore_archive [p] p (S (length (archive t))) t (mkStringSource (archive t) 0) [] st)
      as (s' & E & _ & _ & Hh); [done|done|done|done|simpl; lia|simpl; by rewrite app_nil_r|simpl; lia|].
    pose proof (keeps_restore [p] p p (S (length (archive t))) (mkStringSource (archive t) 0)
      ltac:(by left) ltac:(by left) ltac:(simpl; lia) ltac:(simpl; lia) st Hst) as Hk.
    unfold mbind, SM_bind. rewrite E in *. by split. }
  intros _. eapply (hoare_bind _ _ (λ _ st, intact [p] st ∧ holds_tree (st_fs st) p t)).
  { apply hoare_lift_fs; [intros st [? _]; auto|]. intros st fs [Hst Hh] E. split; [eapply intact_pass; eauto|].
    destruct (changes_pass [] p (st_fs st) fs ltac:(eauto)) as [_ Hc]. eapply holds_frame; [|done].
    eapply same_below_changes; [exact Hc|set_solver|done|set_solver|done]. }
  intros _. eapply (hoare_bind _ _ (λ hash st, intact [p] st ∧ hashPath htSHA256 p (st_fs st) = Ret hash)).
  { eapply (hoare_bind _ _ (λ h st, hashString htSHA256 (archive t) = Ret h ∧ intact [p] st ∧ holds_tree (st_fs st) p t)).
    - case_decide; [subst ht; by apply hoare_ret|]. apply hoare_lift; [intros st [? _]; auto|done].
    - intros h'. apply hoare_ret. intros st (Eh' & Hst & Hh). split; [done|]. by apply hashPath_archive. }
  intros hash. eapply (hoare_bind _ _ (λ _ st, intact [p] st ∧ (p ≠ linksDir → hashPath htSHA256 p (st_fs st) = Ret hash))).
  - apply hoare_lift_fs; [intros st [? _]; auto|]. intros st fs [Hst Hh] E. split; [eapply intact_pass; eauto|].
    destruct (changes_pass [] p (st_fs st) fs ltac:(eauto)) as [_ Hc]. intros _. eapply hashPath_frame; [|done].
    eapply same_below_changes; [exact Hc|set_solver|done|set_solver|done].
  - intros _. apply register_intact; [done|done|set_solver].
Qed.

Lemma install_import_keeps c dst refs deriver :
  store_path dst → keeps [temp_name c] (install_import (temp_name c ++ str "/unpacked") dst refs deriver).
Proof.
  intros Hp. set (tmp := temp_name c). set (a := tmp ++ str "/unpacked").
  assert (temp_names [tmp]) as Ht by (intros d ->%list_elem_of_singleton; by eexists).
  assert (at_or_below tmp a) as Ha by (right; by exists (str "unpacked"); unfold a; rewrite <-(assoc (++))).
  assert (a ≠ dst) as Hne.
  { intros E. destruct (decide (dst = tmp)) as [->|Hd].
    - apply (f_equal length) in E. unfold a in E. rewrite length_app in E. simpl in E. lia.
    - apply (store_paths_apart dst tmp a); [done|apply temp_name_store|done|by left|done]. }
  unfold install_import.
  eapply (hoare_bind _ _ (λ _ st, nul_free dst ∧ intact [tmp] st)).
  { apply hoare_lift; [done|]. intros [] st Hc%check_Ret_inv Hst. by apply bool_decide_eq_true in Hc. }
  intros _ st [Hn Hst]. revert st Hst.
  eapply (hoare_bind _ _ (λ _, intact [tmp])); [by apply keeps_addTempRoot|]. intros _.
  eapply (hoare_bind _ _ (λ _, intact [tmp])); [apply keeps_lift|]. intros held.
  apply replace_intact; [done|done| |].
  { apply hoare_when; [intros _; by apply keeps_lock|done]. }
  eapply (hoare_bind _ _ (λ _ st, dst ≠ tmp ∧ intact [dst; tmp] st)).
  - apply hoare_lift_fs; [intros st [Hst _]; by eapply intact_mono; [|done]; set_solver|].
    intros st fs [Hst Hnone] E. pose proof (fs_rename_Ret _ _ _ _ Hne E) as (_ & Hpar & Efs).
    assert (parent_of a = Some tmp) as Epar.
    { apply (parent_of_child tmp (str "unpacked")); [|concrete]. by apply store_path_proper, temp_name_store. }
    assert (dst ≠ tmp) as Hd by (intros ->; by rewrite (Hpar tmp Epar) in Hnone). split; [done|].
    apply intact_fs; [done| |eapply changes_move; [|by left|done|done]; exists tmp; split; [set_solver|done]].
    rewrite Efs. pose proof (store_path_parent dst Hp) as Ed. eapply fs_wf_move; [by eapply intact_wf| | | |exact Ed|].
    + split; intros E'; apply (f_equal length) in E'; unfold a in E'; rewrite length_app in E'; simpl in E'; lia.
    + by apply store_path_proper.
    + split.
      * intros Hb. apply (store_paths_apart dst tmp dst); [done|apply temp_name_store|done|by left|].
        destruct Hb as [->|Hb]; [done|]. right. destruct Hb as [k ->]. unfold a.
        exists (str "unpacked" ++ slash ++ k). by rewrite <-!(assoc (++)).
      * intros Hb. apply (store_paths_apart dst tmp a); [done|apply temp_name_store|done|done|done].
    + unfold fs_rename in E. rewrite Epar, Ed in E. repeat case_match; try done; by destruct_and!.
  - intros _ st [Hd Hst]. revert st Hst. apply finish_intact. intros hash.
    eapply (hoare_bind _ _ (λ _ st, intact [dst; tmp] st ∧ (dst ≠ linksDir → hashPath htSHA256 dst (st_fs st) = Ret hash))).
    + apply hoare_gets; [intros st [Hst _]; by eapply intact_mono; [|done]; set_solver|done].
    + intros d. apply register_intact; [done|done|set_solver].
Qed.
End keeping.

(** * The hashing source *)

Section hashing_source.
Context {S : Type} `{SourceLaws S}.

(** The sink has been given exactly what has been read of [total]. *)
Definition hashed_so_far (total : bytes) (s : HashAndReadSource S) : Prop :=
  ∃ chunks, foldM sink_call chunks (sink_new defaultBufSize) = Ret (hr_sink s) ∧
            wire chunks ++ remaining (hr_source s) = total.

Lemma hashed_read total d src s :
  hashed_so_far total s → remaining (hr_source s) = d ++ remaining src →
  ∃ sink, sink_call (hr_sink s) d = Ret sink ∧ hashed_so_far total (mkHashAndReadSource src sink true).
Proof.
  intros (chunks & E & Ht) Hr. destruct (sink_calls_spec _ chunks (sink_new_inv defaultBufSize)) as (k & E' & _ & _ & Hinv).
  rewrite E in E'. injection E' as <-. destruct (sink_call_spec _ d Hinv) as (k & Ek & _). exists k. split; [done|].
  exists (chunks ++ [d]). rewrite foldM_app, E. cbn [mbind outcome_bind foldM hr_sink hr_source]. rewrite Ek. split; [done|].
  rewrite mjoin_snoc, <-(assoc (++)), <-Hr. done.
Qed.

(** A source of the same bytes as the one it reads from; [total] is what is being
    hashed, none when the hash is finished. *)
Definition hashing_wf (total : option bytes) (s : HashAndReadSource S) : Prop :=
  source_wf (hr_source s) ∧
  match total with
  | Some t => hr_hashing s = true ∧ hashed_so_far t s
  | None => hr_hashing s = false
  end.

Lemma hashing_read total n s :
  hashing_wf total s → 0 < n →
  match source_read n (hr_source s) with
  | Ret (d, src) => ∃ s', source_read n s = Ret (d, s') ∧ hr_source s' = src ∧ hashing_wf total s'
  | Throw e => source_read n s = Throw e
  | OutOfFuel => True
  end.
Proof.
  intros [Hs Hh] Hn. unfold source_read at 2 3, HashAndReadSource_read.
  destruct (source_read n (hr_source s)) as [[d src]|e|] eqn:E; cbn [mbind outcome_bind]; [|done|done].
  destruct (source_read_Ret _ _ _ _ Hs Hn E) as (_ & _ & Hr & Hs'). destruct total as [t|].
  - destruct Hh as [-> Hh]. destruct (hashed_read t d src s Hh Hr) as (sink & -> & Hk). cbn [mbind outcome_bind].
    by exists (mkHashAndReadSource src sink true).
  - rewrite Hh. by exists (mkHashAndReadSource src (hr_sink s) false).
Qed.

#[refine] Instance HashAndReadSource_laws (total : option bytes) : SourceLaws (HashAndReadSource S) := {
  remaining s := remaining (hr_source s);
  source_wf s := hashing_wf total s
}.
Proof.
  - intros s n d s' Hs Hn E. pose proof (hashing_read total n s Hs Hn) as Hr. destruct Hs as [Hs _].
    destruct (source_read n (hr_source s)) as [[d' src]|e|] eqn:Er; [|congruence|by apply source_read_total in Er].
    destruct Hr as (s1 & E1 & <- & Hs1). rewrite E1 in E. injection E as <- <-.
    by destruct (source_read_Ret _ _ _ _ Hs Hn Er) as (? & ? & ? & _).
  - intros s n e Hs Hn E. pose proof (hashing_read total n s Hs Hn) as Hr. destruct Hs as [Hs _].
    destruct (source_read n (hr_source s)) as [[d' src]|e'|] eqn:Er; [| |by apply source_read_total in Er].
    + destruct Hr as (s1 & E1 & _). congruence.
    + rewrite E in Hr. injection Hr as ->. by apply (source_read_Throw (hr_source s) n).
  - intros s n Hs Hn E. pose proof (hashing_read total n s Hs Hn) as Hr. destruct Hs as [Hs _].
    destruct (source_read n (hr_source s)) as [[d' src]|e'|] eqn:Er; [|congruence|by apply source_read_total in Er].
    destruct Hr as (s1 & E1 & _). congruence.
Defined.

Lemma hashing_start (src : S) :
  source_wf src →
  @source_wf _ _ (HashAndReadSource_laws (Some (remaining src))) (mkHashAndReadSource src (sink_new defaultBufSize) true).
Proof. intros Hs. split; [done|]. split; [done|]. by exists []. Qed.
End hashing_source.

(** * Importing *)

Section importing.
Context {gc : Gcrypt} {env : StoreEnv} {laws : StoreEnvLaws} {glaws : GcryptLaws}.
Context {S : Type} {src : Source S} {slaws : SourceLaws S}.

Lemma read_trailer_path {T} `{Source T} (s : T) dst refs deriver s' :
  read_trailer s = Ret (dst, refs, deriver, s') → isStorePath env_nixStore dst = true.
Proof.
  unfold read_trailer. intros ([m s1] & _ & E)%bind_Ret_inv. apply bind_Ret_inv in E as ([] & _ & E).
  apply bind_Ret_inv in E as ([p s2] & Ep & E). apply bind_Ret_inv in E as ([r s3] & _ & E).
  apply bind_Ret_inv in E as ([d s4] & _ & E). apply bind_Ret_inv in E as ([] & _ & E). injection E as <- <- <- <-.
  unfold readStorePath in Ep. apply bind_Ret_inv in Ep as ([p' s5] & _ & Ep).
  apply bind_Ret_inv in Ep as ([] & Ea & Ep). injection Ep as <- <-. by apply check_Ret_inv in Ea.
Qed.

Lemma check_signature_keeps {T} `{Source T} ds b h (s : T) :
  hoare (intact ds) (check_signature b h s) (λ _, intact ds) (intact ds).
Proof.
  unfold check_signature. eapply (hoare_bind _ _ (λ _, intact ds)); [apply keeps_lift|]. intros [flag s1].
  eapply (hoare_bind _ _ (λ _, intact ds)); [apply keeps_lift|]. intros [].
  case_match; [|by apply hoare_ret]. eapply (hoare_bind _ _ (λ _, intact ds)); [apply keeps_lift|]. intros [sig s2].
  eapply (hoare_bind _ _ (λ _, intact ds)); [|intros; by apply hoare_ret]. destruct b; [|by apply hoare_ret].
  eapply (hoare_bind _ _ (λ _, intact ds)); [apply keeps_agent|]. intros hash2.
  eapply (hoare_bind _ _ (λ _, intact ds)); [apply keeps_lift|]. intros hex. apply keeps_lift.
Qed.

Lemma importPath_keeps fuel b (source : S) :
  source_wf source → length (remaining source) < fuel →
  hoare (intact []) (importPath fuel b source) (λ _, intact []) (intact []).
Proof.
  intros Hs Hf. unfold importPath.
  assert (∀ st, intact [] st ↔ integrity st) as Hint.
  { intros st. split; [apply intact_integrity|]. intros HI. split; [done|]. set_solver. }
  eapply (hoare_bind _ _ (λ tmp st, ∃ c, tmp = temp_name c ∧ intact [tmp] st)).
  { eapply hoare_conseq; [apply createTempDirInStore_intact|apply Hint|done|apply Hint]. }
  intros tmp. apply hoare_finally. intros st (c & -> & Hst).
  assert (∀ st, intact [temp_name c] st → intact [] (auto_delete (temp_name c) st)) as Hdel.
  { intros st' Hst'. apply Hint, (intact_integrity [temp_name c]), intact_fs; [done| |].
    { apply fs_wf_delete; [apply store_path_proper, temp_name_store|by eapply intact_wf]. }
    intros q Hq _. rewrite lookup_fs_delete, decide_False; [done|]. apply Hq. by left. }
  revert st Hst. eapply hoare_conseq; [|done|intros a; apply Hdel|apply Hdel].
  eapply (hoare_bind _ _ (λ _, intact [temp_name c])).
  { eapply (@keeps_restore _ _ _ _ _ (HashAndReadSource_laws (Some (remaining source)))); [by left| |by apply hashing_start|done].
    right. exists (str "unpacked"). by rewrite <-(assoc (++)). }
  intros s. eapply (hoare_bind _ _ (λ x st, isStorePath env_nixStore x.1.1.1 = true ∧ intact [temp_name c] st)).
  { apply hoare_lift; [done|]. intros [[[dst refs] deriver] s'] st E Hst. split; [|done]. cbn [fst]. eapply read_trailer_path in E. exact E. }
  intros [[[dst refs] deriver] s1] st [Hp Hst]. revert st Hst. cbn [fst] in Hp.
  eapply (hoare_bind _ _ (λ _, intact [temp_name c])); [apply keeps_lift|]. intros [h n].
  eapply (hoare_bind _ _ (λ _, intact [temp_name c])); [apply check_signature_keeps|]. intros s2.
  eapply (hoare_bind _ _ (λ _, intact [temp_name c])); [by apply install_import_keeps|]. intros [].
  by apply hoare_ret.
Qed.
End importing.

(** * Sequences of operations *)

Lemma stmtInvalidatePath_rows path db db' :
  db_ok db → stmtInvalidatePath path db = Ret db' →
  db_ok db' ∧ ∀ id r, db_ValidPaths db' !! id = Some r → db_ValidPaths db !! id = Some r.
Proof.
  intros Hok. unfold stmtInvalidatePath. destruct (find_row db path) as [[id r]|]; [|intros [= <-]; auto].
  case_decide as Hex; [done|]. intros [= <-]. split; [|intros id' r'; cbn [db_ValidPaths]; by intros [_ ?]%lookup_delete_Some].
  split; cbn [db_lastId db_ValidPaths db_Refs db_DerivationOutputs].
  - intros i r' [_ Hr]%lookup_delete_Some. by eapply ok_ids.
  - apply (ok_counter _ Hok).
  - intros i i' r1 r2 [_ H1]%lookup_delete_Some [_ H2]%lookup_delete_Some. by eapply ok_unique.
  - intros e He. apply elem_of_filter in He as [H1 He]. pose proof He as [H2 Hin]%elem_of_filter.
    destruct (ok_refs _ Hok e Hin) as [Hs1 Hs2]. rewrite !lookup_delete_ne; [done| |done].
    intros E. apply Hex. by exists e.
  - intros d p Hd. apply map_lookup_filter_Some in Hd as [Hd H1]. rewrite lookup_delete_ne by done. by eapply ok_drv_outputs.
Qed.

Section steps.
Context {gc : Gcrypt} {env : StoreEnv}.

(** What happens to the store: an operation of this process, whether it returns
    or throws; the work of another process; a path that is not valid is deleted.
    The dump given to a recursive [addToStoreFromDump] is an archive as
    [dumpPath] writes it. *)
Inductive store_step (st : StoreState) : StoreState → Prop :=
  | step_others w : store_step st (others w st)
  | step_text name s refs : store_step st (addTextToStore name s refs false st).2
  | step_file dump name ht : store_step st (addToStoreFromDump dump name false ht false st).2
  | step_tree t name ht :
      nar_ok t → (Z.of_nat (length (archive t)) < 2 ^ 32)%Z →
      store_step st (addToStoreFromDump (archive t) name true ht false st).2
  | step_import S (src : Source S) (slaws : SourceLaws S) fuel b (source : S) :
      source_wf source → length (remaining source) < fuel →
      store_step st (importPath fuel b source st).2
  | step_invalidate path :
      store_step st (lift_ls (λ st, invalidatePathChecked env_nixStore path (st_ls st)) st).2
  | step_delete path :
      isStorePath env_nixStore path = true → ¬ valid (ls_db (st_ls st)) path →
      store_step st (auto_delete path st).

Context {laws : StoreEnvLaws} {glaws : GcryptLaws}.

Lemma intact_nil st : intact [] st ↔ integrity st.
Proof. split; [apply intact_integrity|]. intros HI. split; [done|]. intros d Hd. by apply not_elem_of_nil in Hd. Qed.

Lemma keeps_run {A} (m : M A) st :
  hoare (intact []) m (λ _, intact []) (intact []) → integrity st → integrity (m st).2.
Proof. intros Hm HI%intact_nil. specialize (Hm st HI). apply (proj1 (intact_nil _)). by destruct (m st) as [[] ?]. Qed.

Lemma delete_keeps path st :
  isStorePath env_nixStore path = true → ¬ valid (ls_db (st_ls st)) path → integrity st → integrity (auto_delete path st).
Proof.
  intros Hp Hv HI. assert (intact [path] st) as Hst.
  { split; [done|]. by intros d ->%list_elem_of_singleton. }
  apply (intact_integrity [path]), intact_fs; [done| |].
  - apply fs_wf_delete; [by apply store_path_proper|by eapply intact_wf].
  - intros q Hq _. rewrite lookup_fs_delete, decide_False; [done|]. apply Hq. by left.
Qed.

Lemma invalidate_keeps path :
  hoare (intact []) (lift_ls (λ st, invalidatePathChecked env_nixStore path (st_ls st))) (λ _, intact []) (intact []).
Proof.
  apply hoare_lift_ls; [done|]. intros st ls Hst E. apply intact_nil in Hst as (Hok & Hfs & Hrows). apply intact_nil.
  unfold invalidatePathChecked in E. apply bind_Ret_inv in E as ([] & _ & E). destruct (isValidPath_ _ _); [|injection E as <-; exact (conj Hok (conj Hfs Hrows))].
  case_decide; [|done]. unfold invalidatePath in E. apply bind_Ret_inv in E as (db & E & [= <-]).
  apply stmtInvalidatePath_rows in E as [Hok' Hsub]; [|done]. split; [done|]. split; [done|].
  intros id r Hr. by apply (Hrows id), Hsub.
Qed.

Lemma step_keeps st st' : store_step st st' → integrity st → integrity st'.
Proof.
  intros [w|name s refs|dump name ht|t name ht Hok Hl|S src slaws fuel b source Hs Hf|path|path Hp Hv].
  - apply law_others_integrity.
  - apply keeps_run, addTextToStore_keeps.
  - apply keeps_run, addToStoreFromDump_keeps. done.
  - apply keeps_run, addToStoreFromDump_keeps. intros _. by exists t.
  - apply keeps_run. by apply importPath_keeps.
  - apply keeps_run, invalidate_keeps.
  - by apply delete_keeps.
Qed.
End steps.

(** * Properties *)


(** ** Witnesses and examples *)

(** A checksum in place of a digest, so that different archives of the examples
    have different hashes. *)
Definition checksum (s : bytes) : Z := foldl (λ n c, (257 * n + uchar c + 1) mod 2 ^ 120)%Z 0%Z s.

Definition sum_gcrypt : Gcrypt := {|
  gcry_md_hd_t := (HashType * bytes);
  gcry_md_get_algo_dlen := toy_dlen;
  gcry_md_open ht := (ht, []);
  gcry_md_write h a := (h.1, h.2 ++ a);
  gcry_md_read h := le_bytes (toy_dlen h.1) (checksum h.2)
|}.

Lemma sum_gcrypt_laws : @GcryptLaws sum_gcrypt.
Proof.
  split; simpl; try done.
  - intros []; simpl; try done; lia.
  - intros [ht s]; simpl. by rewrite app_nil_r.
  - intros [ht s] a b; simpl. by rewrite (assoc (++)).
  - intros ht s. apply length_le_bytes.
Qed.

(** A process that is alone, with automatic optimisation off. *)
Definition lone_env : StoreEnv := {|
  env_nixStore := str "/gnu/store";
  env_nixConfDir := str "/etc/guix";
  env_now := 1000;
  env_pid := 42;
  env_fallocate := true;
  env_heldLocks := [];
  env_cwd := Ret (str "/");
  env_lstat_link := λ _, Ret None;
  env_mode := λ _, Ret 256%Z;
  agent_reply := λ _, [];
  others := λ _ st, st;
  canonicalise_pass := λ _ fs, Ret fs;
  optimise_pass := λ _ fs, Ret fs
|}.

Lemma lone_laws : @StoreEnvLaws sum_gcrypt lone_env.
Proof.
  split.
  - split; [done|]. vm_compute. congruence.
  - concrete.
  - vm_compute. reflexivity.
  - done.
  - done.
  - by intros p fs fs' [= <-].
  - by intros p fs fs' [= <-].
Qed.

Definition base_fs : filesystem :=
  {[ slash := IDir; str "/gnu" := IDir; str "/gnu/store" := IDir; str "/gnu/store/.links" := IDir ]}.

Definition base_state : StoreState := mkStoreState base_fs empty_store [] 0 [] [].

Lemma base_wf : fs_wf base_fs.
Proof.
  intros q i Hq. apply elem_of_map_to_list in Hq. revert q i Hq.
  assert (∀ e, e ∈ map_to_list base_fs → default false ((λ d, bool_decide (base_fs !! d = Some IDir)) <$> parent_of e.1) = true) as Hall.
  { apply Forall_forall, (bool_decide_unpack _). vm_compute. exact I. }
  intros q i Hq. specialize (Hall _ Hq). cbn [fst] in Hall. destruct (parent_of q) as [d|]; [|done].
  simpl in Hall. apply bool_decide_eq_true in Hall. by exists d.
Qed.

Lemma base_integrity : @integrity sum_gcrypt lone_env base_state.
Proof.
  split; [apply empty_ok|]. split; [split; [apply base_wf|vm_compute; reflexivity]|].
  intros id r Hr. cbn [base_state st_ls empty_store ls_db empty_database db_ValidPaths] in Hr. by rewrite lookup_empty in Hr.
Qed.

(** The text file [hello], added to an empty store. *)
Definition hello_run : outcome bytes * StoreState :=
  @addTextToStore sum_gcrypt lone_env (str "hello") (str "hi") [] false base_state.


(** The content check for one row. *)
Definition check_row {gc : Gcrypt} (fs : filesystem) (r : PathRow) : bool :=
  match hashPath htSHA256 (row_path r) fs ≫= (λ h, hash_field h.1) with
  | Ret field => bool_decide (row_hash r = c_str field)
  | _ => false
  end.

Lemma check_row_good {gc : Gcrypt} fs r : row_good fs r → check_row fs r = true.
Proof.
  intros (h & n & field & E & Ef & Er). unfold check_row. rewrite E. cbn [mbind outcome_bind fst].
  rewrite Ef. by apply bool_decide_eq_true.
Qed.

(** A directory whose entries are not in order: the archive is accepted, and the
    hash recorded for the new path is that of the archive, not that of its
    contents. *)
Definition unsorted_archive : bytes :=
  directory_of (entry_of (str "b") (nar (Symlink (str "x"))) ++ entry_of (str "a") (nar (Symlink (str "y")))).

Definition unsorted_run : outcome bytes * StoreState :=
  @addToStoreFromDump sum_gcrypt lone_env unsorted_archive (str "dir") true htSHA256 false base_state.

Theorem unsorted_archive_breaks_integrity :
  (∃ p, unsorted_run.1 = Ret p ∧ isValidPath_ p (ls_db (st_ls unsorted_run.2)) = true) ∧
  ¬ @integrity sum_gcrypt lone_env unsorted_run.2.
Proof.
  split; [eexists; split; vm_compute; reflexivity|]. intros (_ & _ & Hrows).
  assert (∃ r, db_ValidPaths (ls_db (st_ls unsorted_run.2)) !! 1%Z = Some r ∧
    @check_row sum_gcrypt (st_fs unsorted_run.2) r = false ∧ row_path r ≠ @linksDir lone_env) as (r & Hr & Hc & Hl).
  { eexists. split; [vm_compute; reflexivity|]. split; [vm_compute; reflexivity|]. vm_compute. congruence. }
  destruct (Hrows _ _ Hr) as [_ Hg]. apply check_row_good in Hg; [|done]. congruence.
Qed.
