(* ===== verification/ImportExport.v ===== *)
(** Exporting a path and importing it elsewhere: what an import that demands a
    signature has checked, and the round trip. *)

From Stdlib Require Import DecimalN.
From S2P Require Import Prelude StateMonad Containers Serialise Hash Archive StoreFiles Paths StorePaths Derivations Closure LocalDB StoreOps StoreIntegrity.

(** * Reading strings back *)

Section reading.
Context {S : Type} `{SourceLaws S}.

Lemma readStrings_loop_inv ins count acc s v s' :
  source_wf s → readStrings_loop ins count acc s = Ret (v, s') →
  ∃ l, length l = count ∧ v = foldl (λ a x, ins x a) acc l ∧
    remaining s = mjoin ((λ x, wire (writeString x)) <$> l) ++ remaining s' ∧ source_wf s'.
Proof.
  revert acc s. induction count as [|count IH]; intros acc s Hs E; cbn [readStrings_loop] in E.
  { injection E as <- <-. by exists []. }
  apply bind_Ret_inv in E as ([x s1] & E1 & E). apply readString_inv in E1 as (_ & Hr & Hs1); [|done].
  apply IH in E as (l & Hl & -> & Hr' & Hs'); [|done]. exists (x :: l).
  rewrite fmap_cons, mjoin_cons, Hr, Hr', <-(assoc (++)). split_and!; [by f_equal/=|done|done|done].
Qed.

Lemma readStrings_set_inv s v s' :
  source_wf s → readStrings_set s = Ret (v, s') →
  ∃ l, v = set_of_list l ∧ remaining s = wire (writeStrings l) ++ remaining s' ∧ source_wf s'.
Proof.
  intros Hs E. unfold readStrings_set in E. apply bind_Ret_inv in E as ([n s1] & E1 & E).
  apply readInt_inv in E1 as (Hn & Hr & Hs1); [|done].
  apply readStrings_loop_inv in E as (l & Hl & -> & Hr' & Hs'); [|done]. exists l. split_and!; [done| |done].
  rewrite Hr, Hr', writeStrings_wire, Hl, Z2Nat.id by lia. by rewrite <-(assoc (++)).
Qed.

Lemma parseDump_wf fuel s tr u s' :
  source_wf s → length (remaining s) < fuel → parseDump fuel s = (tr, Ret (u, s')) → source_wf s'.
Proof.
  intros Hs Hf E. unfold parseDump in E. destruct (readString s) as [[v s1]|[]|] eqn:Er; try done.
  case_decide; [|done]. destruct (readString_inv _ _ _ Hs Er) as (_ & _ & Hs1). apply readString_consumes in Er; [|done].
  destruct (behaves_parse fuel) as [Hp _]. destruct (Hp [] s1 Hs1 ltac:(lia)) as (_ & _ & Hr).
  rewrite E in Hr. by destruct (Hr u s' eq_refl).
Qed.
End reading.

(** What follows the archive in an export, up to the signature. *)
Definition trailer (dst : bytes) (refs : list bytes) (deriver : bytes) : bytes :=
  wire (writeInt EXPORT_MAGIC ++ writeString dst ++ writeStrings refs ++ writeString deriver).

Section authentication.
Context {gc : Gcrypt} {env : StoreEnv}.

Lemma read_trailer_inv {S} `{SourceLaws S} (s s' : S) dst refs deriver :
  source_wf s → read_trailer s = Ret (dst, refs, deriver, s') →
  ∃ l, refs = set_of_list l ∧ remaining s = trailer dst l deriver ++ remaining s' ∧ source_wf s'.
Proof.
  intros Hs E. unfold read_trailer in E. apply bind_Ret_inv in E as ([m s1] & E1 & E).
  apply readInt_inv in E1 as (_ & Hr1 & Hs1); [|done].
  apply bind_Ret_inv in E as ([] & Em%check_Ret_inv%bool_decide_eq_true & E). subst m.
  apply bind_Ret_inv in E as ([p s2] & E2 & E). apply bind_Ret_inv in E2 as ([p' s2'] & E2 & E2').
  apply bind_Ret_inv in E2' as ([] & _ & [= <- <-]). apply readString_inv in E2 as (_ & Hr2 & Hs2); [|done].
  apply bind_Ret_inv in E as ([r s3] & E3 & E). apply bind_Ret_inv in E3 as ([r' s3'] & E3 & E3').
  apply bind_Ret_inv in E3' as ([] & _ & [= <- <-]). apply readStrings_set_inv in E3 as (l & -> & Hr3 & Hs3); [|done].
  apply bind_Ret_inv in E as ([d s4] & E4 & E). apply readString_inv in E4 as (_ & Hr4 & Hs4); [|done].
  apply bind_Ret_inv in E as ([] & _ & [= <- <- <- <-]). exists l. split_and!; [done| |done].
  unfold trailer. rewrite !join_app, Hr1, Hr2, Hr3, Hr4, <-!(assoc (++)). done.
Qed.

(** The agent is only asked about signatures. *)
Abbreviation silent b m := (hoare (λ st, st_agentOut st = b) m (λ _ st, st_agentOut st = b) (λ _, True)).

Hypothesis others_silent : ∀ w st, st_agentOut (others w st) = st_agentOut st.

Lemma silent_addTempRoot b p : silent b (addTempRoot p).
Proof.
  eapply (hoare_bind _ _ (λ _ st, st_agentOut st = b)); [|intros _]; apply hoare_modify; [|done].
  intros st <-. apply others_silent.
Qed.

Lemma silent_createTempDir b fuel root : silent b (createTempDir fuel root).
Proof.
  induction fuel as [|fuel IH]; cbn [createTempDir]; [by apply hoare_lift|].
  eapply (hoare_bind _ _ (λ _ st, st_agentOut st = b)).
  { unfold tempName. eapply (hoare_bind _ _ (λ _ st, st_agentOut st = b)); [by apply hoare_lift|]. intros r.
    eapply (hoare_bind _ _ (λ _ st, st_agentOut st = b)); [by apply hoare_gets|]. intros c.
    eapply (hoare_bind _ _ (λ _ st, st_agentOut st = b)); [by apply hoare_modify|]. intros _. by apply hoare_ret. }
  intros tmp. eapply (hoare_bind _ _ (λ _ st, st_agentOut st = b)).
  { intros st Hst. unfold make_dir. destruct (fs_create _ _ _) as [|[]|]; try done. by case_decide. }
  intros []; [by apply hoare_ret|done].
Qed.

Lemma silent_createTempDirInStore b fuel : silent b (createTempDirInStore fuel).
Proof.
  induction fuel as [|fuel IH]; cbn [createTempDirInStore]; [by apply hoare_lift|].
  eapply (hoare_bind _ _ (λ _ st, st_agentOut st = b)); [by apply hoare_gets|]. intros n.
  eapply (hoare_bind _ _ (λ _ st, st_agentOut st = b)); [apply silent_createTempDir|]. intros tmp.
  eapply (hoare_bind _ _ (λ _ st, st_agentOut st = b)); [apply silent_addTempRoot|]. intros _.
  eapply (hoare_bind _ _ (λ _ st, st_agentOut st = b)); [by apply hoare_gets|].
  intros []; [by apply hoare_ret|done].
Qed.

(** A demanded signature has been verified, over the hash given. *)
Lemma check_signature_inv {S} `{SourceLaws S} h (s s' : S) st st' :
  source_wf s → st_agentOut st = [] → check_signature true h s st = (Ret s', st') →
  ∃ signature hex left,
    remaining s = wire (writeInt 1 ++ writeString signature) ++ remaining s' ∧ source_wf s' ∧
    printHash h = Ret hex ∧ readReply (agent_reply (verify_request signature)) = Ret (0%Z, hex, left).
Proof.
  intros Hs Hempty E. unfold check_signature in E. apply SM_bind_Ret in E as ([flag s1] & st1 & E1 & E).
  apply lift_Ret in E1 as [E1 ->]. apply readInt_inv in E1 as (_ & Hr1 & Hs1); [|done].
  apply SM_bind_Ret in E as ([] & st2 & E2 & E). apply lift_Ret in E2 as [E2%check_Ret_inv ->].
  case_bool_decide as Hflag; [|done]. subst flag. cbn [negb andb] in *.
  apply SM_bind_Ret in E as ([sig s2] & st2 & E3 & E). apply lift_Ret in E3 as [E3 ->].
  apply readString_inv in E3 as (_ & Hr2 & Hs2); [|done].
  apply SM_bind_Ret in E as ([] & st3 & E4 & [= <- <-]).
  apply SM_bind_Ret in E4 as (hash2 & st4 & E5 & E4). apply SM_bind_Ret in E4 as (hex & st5 & E6 & E4).
  apply lift_Ret in E6 as [E6 ->]. apply lift_Ret in E4 as [E4%check_Ret_inv%bool_decide_eq_true ->]. subst hash2.
  unfold verifySignature, ask_agent in E5. apply SM_bind_Ret in E5 as ([] & st6 & E7 & E5). injection E7 as <-.
  unfold readAuthenticateReply in E5. apply SM_bind_Ret in E5 as ([[code str] fd] & st7 & E7 & E5).
  unfold gets in E7. injection E7 as E7 <-. cbn [set_agentOut st_agentOut] in E7. rewrite Hempty in E7. cbn [app] in E7.
  apply SM_bind_Ret in E5 as ([] & st8 & E8 & E5). injection E8 as <-. case_decide; [|done]. injection E5 as <- _.
  subst code. exists sig, str, fd. rewrite join_app, <-(assoc (++)), <-Hr2. done.
Qed.

Lemma restore_path_inv {S} `{Source S} fuel dst (s s' : S) st st' :
  restore_path fuel dst s st = (Ret s', st') →
  (∃ tr u, parseDump fuel s = (tr, Ret (u, s'))) ∧ st_agentOut st' = st_agentOut st.
Proof.
  unfold restore_path. destruct (parseDump fuel s) as [tr r]. destruct (restore_events _ _ _) as [o k].
  intros [= E <-]. split; [|done]. apply bind_Ret_inv in E as ([] & _ & E).
  apply bind_Ret_inv in E as ([u s1] & -> & [= <-]). eauto.
Qed.

(** What has been hashed when the deriver has been read. *)
Lemma import_hashed {S} {src : Source S} {slaws : SourceLaws S} fuel dir (source : S) st st1 s1 dst refs deriver s2 h n :
  source_wf source → length (remaining source) < fuel →
  restore_path fuel dir (mkHashAndReadSource source (sink_new defaultBufSize) true) st = (Ret s1, st1) →
  read_trailer s1 = Ret (dst, refs, deriver, s2) → hashsink_finish htSHA256 (hr_sink s2) = Ret (h, n) →
  ∃ chunks pre l, remaining source = wire chunks ++ remaining (hr_source s2) ∧
    wire chunks = pre ++ trailer dst l deriver ∧ refs = set_of_list l ∧
    hashsink_run htSHA256 chunks = Ret (h, n) ∧ source_wf (hr_source s2).
Proof.
  intros Hs Hf E Et Eh. apply restore_path_inv in E as [(tr & u & Ep) _].
  pose proof (hashing_start source Hs) as H0.
  pose proof (@parseDump_wf _ _ (HashAndReadSource_laws (Some (remaining source))) _ _ _ _ _ H0 Hf Ep) as H1.
  destruct (@read_trailer_inv _ _ (HashAndReadSource_laws (Some (remaining source))) _ _ _ _ _ H1 Et) as (l & Hl & Hr & H2).
  destruct H1 as (_ & _ & (chunks1 & _ & Hc1)), H2 as (Hs2 & _ & (chunks & Ek & Hc)).
  cbn [remaining HashAndReadSource_laws] in Hr. exists chunks, (wire chunks1), l. split_and!; [done| |done| |done].
  - apply (app_inv_tail (remaining (hr_source s2))). by rewrite Hc, <-Hc1, Hr, (assoc (++)).
  - unfold hashsink_run. by rewrite Ek.
Qed.
End authentication.

(** * Registering a new path *)

Section new_path.
Context {gc : Gcrypt} {glaws : GcryptLaws}.

Lemma hex_nul_free l : nul_free (mjoin (hex_pair <$> l)).
Proof.
  unfold nul_free. induction l as [|b l IH]; [set_solver|]. rewrite fmap_cons, mjoin_cons, not_elem_of_app. split; [|done].
  assert (bool_decide (Byte.x00 ∉ hex_pair b) = true) as Hb by (by destruct b). by apply bool_decide_eq_true in Hb.
Qed.

(** The text of the hash column is read back. *)
Lemma hash_field_ok h :
  hash_of_type htSHA256 h → ∃ field, hash_field h = Ret field ∧ parseHashField (c_str field) = Ret h.
Proof.
  intros Hh. pose proof Hh as (Hwf & _). unfold hash_field. rewrite printHash_spec by done. cbn [mbind outcome_bind].
  eexists; split; [done|]. set (hex := mjoin _). rewrite c_str_id.
  2: { unfold nul_free. rewrite not_elem_of_app. split; [concrete|apply hex_nul_free]. }
  change (str "sha256:" ++ hex) with (str "sha256" ++ ":"%byte :: hex).
  unfold parseHashField. rewrite find_char_app_l by concrete. cbv zeta. rewrite take_app_length.
  change (parseHashType (str "sha256")) with htSHA256. rewrite decide_False by done.
  rewrite drop_app_add. by apply parseHash_printed.
Qed.

Lemma topoSort_singleton `{StoreQueries} p es : dfs_references p = Ret es → topoSortPaths [p] = Ret [p].
Proof.
  intros E. unfold topoSortPaths. cbn [length].
  enough (dfsVisit 3 [p] (mkDfsState [] [] []) p = Ret (mkDfsState [p] [p] [])) as Hv by (cbn [foldM]; by rewrite Hv).
  cbn [dfsVisit dfs_parents dfs_visited dfs_sorted]. change (set_mem p []) with false. cbv zeta. cbv iota.
  rewrite E. cbn [mbind outcome_bind set_insert]. set (st0 := mkDfsState _ _ _).
  assert (∀ es, foldM (λ st i, if negb (bool_decide (i = p)) && set_mem i [p] then dfsVisit 2 [p] st i else Ret st) es st0 = Ret st0) as ->.
  { clear E es. induction es as [|i es IH]; [done|]. cbn [foldM]. unfold set_mem. rewrite (bool_decide_ext (i ∈ [p]) (i = p)) by set_solver.
    destruct (bool_decide (i = p)); cbn [negb andb mbind outcome_bind]; exact IH. }
  cbn [mbind outcome_bind]. unfold st0, set_erase. cbn [dfs_visited dfs_sorted dfs_parents].
  rewrite filter_cons_False by (intros []; done). done.
Qed.

Variable nixStore : bytes.
Variable readFile : bytes → outcome bytes.
Variable now : Z.

Lemma register_references_ok id i db :
  db_ok db → has_path db id (c_str (vp_path i)) → (∀ j, j ∈ vp_references i → valid db (c_str j)) →
  ∃ db', register_references db i = Ret db'.
Proof.
  intros Hok Hid Hrefs. unfold register_references, queryValidPathId.
  destruct (find_row_has db (c_str (vp_path i)) ltac:(by exists id)) as (id' & r & -> & Hid'). cbn [mbind outcome_bind].
  clear id Hid. revert db Hok Hid' Hrefs. induction (vp_references i) as [|j l IH]; intros db Hok Hid Hrefs; [by eexists|].
  cbn [foldM]. destruct (find_row_has db (c_str j) (Hrefs j ltac:(by left))) as (jd & rj & -> & Hj). cbn [mbind outcome_bind].
  destruct (stmtAddReference_spec id' jd _ _ db Hok Hid Hj) as (db1 & -> & Hok1 & Hp1 & _). cbn [mbind outcome_bind].
  apply IH; [done|by apply Hp1|]. intros k Hk. destruct (Hrefs k ltac:(by right)) as [x Hx]. exists x. by apply Hp1.
Qed.

(** Registering a path that is not valid yet, with valid references, succeeds,
    and the queries return what was registered. *)
Lemma registerValidPath_new p h n refs d st :
  db_ok (ls_db st) → hash_of_type htSHA256 h → isStorePath nixStore p = true → nul_free p → isDerivation p = false →
  ¬ valid (ls_db st) p → set_wf refs → (∀ j, j ∈ refs → nul_free j ∧ (j = p ∨ valid (ls_db st) j)) →
  ∃ st' info, registerValidPath nixStore readFile now (mkValidPathInfo p d h refs 0 n 0) st = Ret st' ∧
    queryPathInfo nixStore p (ls_db st') = Ret info ∧ vp_references info = refs ∧ vp_hash info = h ∧
    vp_deriver info = c_str d ∧ vp_narSize info = n.
Proof.
  intros Hok Hh Hp Hn Hdrv Hnv Hwf Hrefs. destruct (hash_field_ok h Hh) as (field & Ef & Ep).
  set (info := mkValidPathInfo p d h refs 0 n 0).
  set (row := mkPathRow p (c_str field) now (bind_opt (c_str d) (negb (bool_decide (d = []))))
    (bind_opt n (negb (bool_decide (n = 0%Z))))).
  assert (find_row (ls_db st) p = None) as Hfr by (by apply find_row_None).
  assert (∃ st1, register_path nixStore readFile now st info = Ret st1 ∧
    db_ValidPaths (ls_db st1) = <[(db_lastId (ls_db st) + 1)%Z := row]> (db_ValidPaths (ls_db st))) as (st1 & E1 & Hrows1).
  { unfold register_path, info. cbn [vp_hash vp_path]. rewrite bool_decide_eq_true_2 by (by destruct Hh as (_ & ? & _)).
    cbn [check mbind outcome_bind]. unfold isValidPath_. rewrite c_str_id, Hfr by done. rewrite bool_decide_eq_false_2 by (by intros []).
    unfold addValidPath. cbn [vp_hash vp_path vp_registrationTime vp_deriver vp_narSize]. rewrite Ef. cbn [mbind outcome_bind].
    rewrite c_str_id by done. unfold stmtRegisterValidPath. rewrite Hfr. cbn [mbind outcome_bind]. rewrite Hdrv. by eexists. }
  pose proof (register_path_adds _ _ _ _ _ _ Hok E1) as (Hok1 & Hv1 & Hr1). cbn [vp_path info] in Hv1. rewrite c_str_id in Hv1 by done.
  assert (valid (ls_db st1) p) as [id1 Hid1] by (apply Hv1; by right).
  destruct (register_references_ok id1 info (ls_db st1)) as (db2 & E2).
  { done. } { cbn [info vp_path]. by rewrite c_str_id. }
  { intros j Hj. destruct (Hrefs j Hj) as [Hnj Hvj]. rewrite c_str_id by done. apply Hv1. tauto. }
  pose proof (register_references_rows _ _ _ E2) as Hrows2. pose proof (register_references_adds nixStore readFile _ _ _ Hok1 E2) as [(Hok2 & Hv2 & Hr2) _].
  assert (∃ id, find_row db2 p = Some (id, row) ∧ has_path db2 id p) as (id & Hid & Hhas).
  { destruct (find_row_has db2 p) as (id & r & E & Hid); [apply Hv2; left; by exists id1|].
    exists id. split; [|done]. rewrite E. apply find_row_Some in E as [Hl Hrp]. rewrite Hrows2, Hrows1, lookup_insert_Some in Hl.
    destruct Hl as [[_ <-]|[_ Hl]]; [done|]. destruct Hnv. by exists id, r. }
  assert (∃ info', queryPathInfo nixStore p db2 = Ret info' ∧ vp_references info' = refs ∧ vp_hash info' = h ∧
    vp_deriver info' = c_str d ∧ vp_narSize info' = n) as (info' & Eq & Hq).
  { unfold queryPathInfo, assertStorePath. rewrite Hp. cbn [check mbind outcome_bind]. rewrite c_str_id, Hid by done.
    cbn [row row_hash]. rewrite Ep. cbn [mbind outcome_bind]. eexists; split; [done|].
    cbn [vp_references vp_hash vp_deriver vp_narSize row row_deriver row_narSize bind_opt]. split_and!; [|done| |].
    - apply set_ext; [apply set_of_list_wf|done|]. intros q. rewrite elem_of_set_of_list, (stmtQueryReferences_spec id p) by done.
      rewrite Hr2. cbn [info vp_path vp_references]. rewrite c_str_id by done. rewrite Hr1. split.
      + intros [[(x & y & Hx & _)|[]]|(_ & j & Hj & ->)]; [destruct Hnv; by exists x|]. destruct (Hrefs j Hj). by rewrite c_str_id.
      + intros Hq. right. split; [done|]. exists q. destruct (Hrefs q Hq). by rewrite c_str_id.
    - case_bool_decide as Hd; [by subst d|done].
    - case_bool_decide as Hd; [by subst n|done]. }
  exists (mkLocalStore db2 (ls_drvHashes st1)), info'. split; [|done]. unfold registerValidPath, registerValidPaths.
  cbn [foldM]. rewrite E1. cbn [mbind outcome_bind]. rewrite E2. cbn [mbind outcome_bind]. unfold check_registered. cbn [info vp_path].
  rewrite Hdrv. cbn [mbind outcome_bind ls_db]. change (set_of_list (vp_path <$> [info])) with [p].
  rewrite (@topoSort_singleton (local_queries nixStore db2) p refs); [done|]. unfold dfs_references. simpl.
  unfold isValidPath_. rewrite c_str_id, Hid by done. rewrite bool_decide_eq_true_2 by done. unfold db_queryReferences.
  rewrite Eq. cbn [mbind outcome_bind]. by destruct Hq as (-> & _).
Qed.
End new_path.

(** * Sizes of the pieces written *)

Definition small (w : bytes) : Prop := (Z.of_nat (length w) < 2 ^ 32)%Z.

(** The number of a collection's elements fits the count that precedes them. *)
Definition small_count (l : list bytes) : Prop := (Z.of_nat (length l) < 2 ^ 32)%Z.

Lemma small_writeInt n : Forall small (writeInt n).
Proof. repeat constructor. Qed.

Lemma small_writePadding n : Forall small (writePadding n).
Proof.
  unfold writePadding. case_decide; [constructor|]. constructor; [|constructor]. unfold small. rewrite length_replicate.
  pose proof (Nat.mod_upper_bound n 8). lia.
Qed.

Lemma small_writeString s : small s → Forall small (writeString s).
Proof.
  intros Hs. unfold writeString. rewrite !Forall_app. split_and!; [apply small_writeInt|by constructor|apply small_writePadding].
Qed.

Lemma small_writeStrings ss : Forall small ss → Forall small (writeStrings ss).
Proof.
  intros Hs. unfold writeStrings. rewrite Forall_app. split; [apply small_writeInt|].
  induction Hs as [|x l Hx Hl IH]; [constructor|]. rewrite fmap_cons, mjoin_cons, Forall_app. split; [by apply small_writeString|done].
Qed.

Lemma small_contents_loop fuel c : Forall small (dumpContents_loop fuel c).
Proof.
  revert c. induction fuel as [|fuel IH]; intros [|b c]; cbn [dumpContents_loop]; try constructor; [|apply IH].
  unfold small. rewrite length_take. assert (Z.of_nat archiveBufSize = 65536)%Z by (unfold archiveBufSize; lia).
  case_decide; lia.
Qed.

Lemma small_dumpContents c : Forall small (dumpContents c).
Proof.
  unfold dumpContents. rewrite !Forall_app. split_and!;
    [by apply small_writeString|repeat constructor|apply small_contents_loop|apply small_writePadding].
Qed.

Create HintDb small discriminated.
#[local] Hint Resolve small_writeString small_dumpContents Forall_nil_2 : small.
#[local] Hint Extern 1 (small (str _)) => done : small.

Lemma small_nar t : nar_ok t → Forall small (nar t).
Proof.
  induction t as [x c|es IH|tgt|] using fso_ind'; intros Hok.
  - cbn [nar]. rewrite !Forall_app. split_and!; auto with small. destruct x; [|constructor].
    rewrite Forall_app. split; by apply small_writeString.
  - rewrite nar_Directory, !Forall_app. split_and!; auto with small.
    apply nar_ok_directory_inv in Hok as [_ Hes]. rewrite Forall_forall in IH.
    induction es as [|e es IHes]; [constructor|]. rewrite fmap_cons, mjoin_cons, Forall_app.
    destruct (Hes e ltac:(by left)) as (_ & Hl & Hn). split.
    + unfold nar_entry. rewrite !Forall_app. split_and!; auto with small. apply IH; [by left|done].
    + apply IHes; [intros; apply IH; [by right|done]|intros; apply Hes; by right].
  - inversion Hok. cbn [nar]. rewrite !Forall_app. split_and!; auto with small.
  - inversion Hok.
Qed.

(** * Hashing while writing and reading *)

Section good_sinks.
Context {gc : Gcrypt} {glaws : GcryptLaws}.

(** Whatever the chunks, the context has been given some data. *)
Lemma hashsink_ctx_data ht ws : ∃ data, hashsink_ctx ht ws = gcry_md_write (gcry_md_open ht) data.
Proof.
  unfold hashsink_ctx. induction ws as [|w ws [data IH]] using rev_ind; [exists []; by rewrite md_write_nil|].
  rewrite foldl_app, IH. cbn [foldl]. unfold md_update. rewrite md_write_app. by eexists.
Qed.

(** A hash sink that has been given [bs], in pieces below 4 GiB. *)
Definition good_sink (bs : bytes) (hs : BufferedSink) : Prop :=
  sink_inv hs ∧ sink_small (2 ^ 32) hs ∧ bufSize hs = defaultBufSize ∧ sink_stream hs = bs.

Lemma good_new : good_sink [] (sink_new defaultBufSize).
Proof. split_and!; [apply sink_new_inv|by split|done|done]. Qed.

Lemma good_calls bs hs chunks :
  good_sink bs hs → Forall (λ w, Z.of_nat (length w) < 2 ^ 32)%Z chunks →
  ∃ hs', foldM sink_call chunks hs = Ret hs' ∧ good_sink (bs ++ wire chunks) hs'.
Proof.
  intros Hg Hch. revert bs hs Hg. induction Hch as [|c chunks Hc Hch IH]; intros bs hs (Hi & Hsm & Hb & <-).
  { exists hs. split; [done|]. split_and!; [done|done|done|by rewrite app_nil_r]. }
  destruct (sink_call_spec hs c Hi) as (hs1 & E1 & Hst1 & Hb1 & Hi1). cbn [foldM]. rewrite E1. cbn [mbind outcome_bind].
  destruct (IH (sink_stream hs ++ c) hs1) as (hs2 & -> & Hg2).
  - split_and!; [done| |congruence|done]. eapply sink_call_loop_small, E1; [done| |done].
    rewrite Hb. unfold defaultBufSize. rewrite Z2Nat.id; lia.
  - exists hs2. rewrite mjoin_cons, (assoc (++)). done.
Qed.

Lemma good_flush bs hs : good_sink bs hs → good_sink bs (sink_flush hs).
Proof.
  intros (Hi & Hsm & Hb & <-). split_and!; [|by apply sink_flush_small|by rewrite sink_flush_bufSize|apply sink_flush_stream].
  left. apply sink_flush_empty.
Qed.

Lemma good_finish bs hs :
  good_sink bs hs →
  ∃ h, hashsink_finish htSHA256 hs = Ret (h, Z.of_nat (length bs) mod 2 ^ 64)%Z ∧ hash_of_type htSHA256 h ∧
       digest h = gcry_digest htSHA256 bs.
Proof.
  intros (Hi & Hsm & Hb & <-). unfold hashsink_finish. rewrite Hash_new_ok by done. cbn [mbind outcome_bind].
  apply sink_flush_small in Hsm as [Hsm _]. rewrite hashsink_ctx_spec, hashsink_bytes_spec, sink_flush_wire by done.
  eexists; split; [done|].
  destruct (md_finish_spec htSHA256 _ (sink_stream hs) ltac:(done) (Hash_new_ok htSHA256 ltac:(done))) as (? & ? & ? & ?).
  by split_and!.
Qed.

Lemma hash_determined h1 h2 :
  hash_of_type htSHA256 h1 → hash_of_type htSHA256 h2 → digest h1 = digest h2 → h1 = h2.
Proof. intros (Hw1 & Ht1 & _ & Hs1) (Hw2 & Ht2 & _ & Hs2) Hd. apply hash_ext; congruence || done. Qed.

(** The source has hashed small pieces only when what it has read is short. *)
Lemma hashed_good {S} `{SourceLaws S} bs (s : HashAndReadSource S) :
  small bs → hashed_so_far (bs ++ remaining (hr_source s)) s → good_sink bs (hr_sink s).
Proof.
  intros Hl (chunks & E & Hw%app_inv_tail). subst bs.
  destruct (good_calls [] _ chunks good_new (small_chunks _ _ Hl)) as (hs & E' & Hg).
  rewrite E in E'. by injection E' as <-.
Qed.
End good_sinks.

(** * Exporting *)

Definition signing_key {env : StoreEnv} : bytes := env_nixConfDir ++ str "/signing-key.sec".

(** What comes after the trailer. *)
Definition signature_part (sig : option bytes) : bytes :=
  match sig with
  | Some s => wire (writeInt 1 ++ writeString s)
  | None => wire (writeInt 0)
  end.

Section exporting.
Context {gc : Gcrypt} {glaws : GcryptLaws} {env : StoreEnv}.

Lemma hw_write_ok bs hs chunks st :
  good_sink bs hs → Forall (λ w, Z.of_nat (length w) < 2 ^ 32)%Z chunks →
  ∃ hs', hw_write hs chunks st = (Ret hs', set_sink (st_sink st ++ chunks) st) ∧ good_sink (bs ++ wire chunks) hs'.
Proof.
  intros Hg Hch. destruct (good_calls bs hs chunks Hg Hch) as (hs' & E & Hg'). exists hs'. split; [|done].
  unfold hw_write. erewrite SM_bind_eq by done. unfold lift. by rewrite E.
Qed.

(** The row of a path with integrity gives the hash of its contents. *)
Lemma stored_hash p st info :
  integrity st → p ≠ linksDir → nul_free p → queryPathInfo env_nixStore p (ls_db (st_ls st)) = Ret info →
  ∃ n, hashPath htSHA256 p (st_fs st) = Ret (vp_hash info, n).
Proof.
  intros (Hok & _ & Hrows) Hl Hn E. unfold queryPathInfo in E. apply bind_Ret_inv in E as ([] & _ & E).
  rewrite c_str_id in E by done. destruct (find_row _ p) as [[id r]|] eqn:Er; [|done]. apply find_row_Some in Er as [Hr <-].
  apply bind_Ret_inv in E as (h & Ep & [= <-]). cbn [vp_hash]. destruct (Hrows id r Hr) as [_ Hg].
  destruct (Hg Hl) as (h' & n & field & Eh & Ef & Erow). exists n. rewrite Eh. f_equal. f_equal.
  assert (hash_of_type htSHA256 h') as Hty.
  { unfold hashPath in Eh. apply bind_Ret_inv in Eh as (chunks & _ & Eh). unfold hashsink_run in Eh.
    apply bind_Ret_inv in Eh as (hs & _ & Eh). unfold hashsink_finish in Eh. rewrite Hash_new_ok in Eh by done.
    injection Eh as <- _. destruct (hashsink_ctx_data htSHA256 (writes (sink_flush hs))) as (data & ->).
    destruct (md_finish_spec htSHA256 _ data ltac:(done) (Hash_new_ok htSHA256 ltac:(done))) as (? & ? & ? & _). by split_and!. }
  destruct (hash_field_ok h' Hty) as (field' & Ef' & Ep'). rewrite Ef in Ef'. injection Ef' as <-.
  rewrite Erow, Ep' in Ep. by injection Ep as <-.
Qed.

(** The hexadecimal digest of a stream. *)
Definition hex_digest (bs : bytes) : bytes := mjoin (hex_pair <$> gcry_digest htSHA256 bs).

Lemma printHash_digest h bs :
  hash_of_type htSHA256 h → digest h = gcry_digest htSHA256 bs → printHash h = Ret (hex_digest bs).
Proof. intros (Hwf & _) Hd. rewrite printHash_spec by done. by rewrite Hd. Qed.

(** The key can be used and the agent signs the hash of [bs] with it. *)
Definition can_sign (st : StoreState) (bs : bytes) (sig : option bytes) : Prop :=
  match sig with
  | None => True
  | Some s =>
      small s ∧ st_agentOut st = [] ∧ (∃ mode, env_mode signing_key = Ret mode ∧ Z.land mode 63 = 0%Z) ∧
      ∃ left, readReply (agent_reply (sign_request signing_key (hex_digest bs))) = Ret (0%Z, s, left)
  end.

Definition signing (sig : option bytes) : bool := match sig with Some _ => true | None => false end.

Lemma ask_agent_ok request s left st :
  st_agentOut st = [] → readReply (agent_reply request) = Ret (0%Z, s, left) →
  ask_agent request st = (Ret s, set_agentOut left st).
Proof.
  intros He Hr. unfold ask_agent. erewrite SM_bind_eq by done. unfold readAuthenticateReply.
  erewrite (SM_bind_eq _ _ _ (0%Z, s, left)); [|unfold gets; cbn [set_agentOut st_agentOut]; rewrite He; cbn [app]; by rewrite Hr].
  erewrite SM_bind_eq by done. by rewrite decide_True.
Qed.

Lemma exportPath_run p sig t st info :
  integrity st → isStorePath env_nixStore p = true → p ≠ linksDir → nul_free p → small p →
  queryPathInfo env_nixStore p (ls_db (st_ls st)) = Ret info → nar_ok t → holds_tree (st_fs st) p t →
  Forall small (vp_references info) → small (vp_deriver info) →
  can_sign st (archive t ++ trailer p (vp_references info) (vp_deriver info)) sig →
  ∃ chunks st', exportPath p (signing sig) st = (Ret (), st') ∧ st_sink st' = st_sink st ++ chunks ∧
    wire chunks = archive t ++ trailer p (vp_references info) (vp_deriver info) ++ signature_part sig.
Proof.
  intros HI Hp Hl Hn Hsp Hinfo Hok Hh Hsr Hsd Hsig. destruct (stored_hash p st info HI Hl Hn Hinfo) as (n & Ehash).
  assert (isValidPath_ p (ls_db (st_ls st)) = true) as Hv.
  { unfold queryPathInfo in Hinfo. apply bind_Ret_inv in Hinfo as (_ & _ & E). unfold isValidPath_.
    destruct (find_row _ _); [done|discriminate E]. }
  pose proof (dump_path_holds t p (st_fs st) Hok Hh) as Ed. set (c0 := writeString archiveVersion1 ++ nar t) in *.
  assert (Forall small c0) as Hc0 by (apply Forall_app; split; [by apply small_writeString|by apply small_nar]).
  unfold exportPath. erewrite (SM_bind_eq _ _ _ ()) by (unfold lift, assertStorePath; by rewrite Hp).
  erewrite (SM_bind_eq _ _ _ ()) by (unfold nul_check, lift; by rewrite bool_decide_eq_true_2).
  erewrite (SM_bind_eq _ _ _ true) by (unfold is_valid, gets; by rewrite Hv). erewrite (SM_bind_eq _ _ _ ()) by done.
  erewrite (SM_bind_eq _ _ _ c0) by (unfold gets; by rewrite Ed).
  destruct (hw_write_ok [] _ c0 st good_new Hc0) as (hs1 & E1 & Hg1). erewrite SM_bind_eq by exact E1. cbn [app] in Hg1.
  destruct (good_finish _ _ Hg1) as (h1 & Eh1 & Ht1 & Hd1).
  erewrite (SM_bind_eq _ _ _ (h1, sink_flush hs1)) by (unfold lift, currentHash; by rewrite Eh1).
  set (st1 := set_sink _ st). erewrite (SM_bind_eq _ _ _ (vp_hash info)) by (unfold gets, queryPathHash; cbn [st1 set_sink st_ls]; by rewrite Hinfo).
  assert (vp_hash info = h1) as Hsame.
  { unfold hashPath in Ehash. rewrite Ed in Ehash. cbn [mbind outcome_bind] in Ehash. unfold hashsink_run in Ehash.
    unfold hw_write in E1. erewrite SM_bind_eq in E1 by done. apply lift_Ret in E1 as [E1 _]. rewrite E1 in Ehash.
    cbn [mbind outcome_bind] in Ehash. rewrite Eh1 in Ehash. by injection Ehash as -> _. }
  rewrite Hsame. erewrite SM_bind_eq by (unfold lift; rewrite Hash_new_ok; [done|by destruct Ht1 as (_ & -> & ? & _)]).
  erewrite (SM_bind_eq _ _ _ ()) by (unfold lift; by rewrite (proj2 (Hash_eqb_spec h1 h1) (conj eq_refl eq_refl))).
  destruct (hw_write_ok _ _ (writeInt EXPORT_MAGIC) st1 (good_flush _ _ Hg1) (small_writeInt _)) as (hs2 & E2 & Hg2).
  erewrite SM_bind_eq by exact E2. set (st2 := set_sink _ st1).
  destruct (hw_write_ok _ _ (writeString p) st2 Hg2 (small_writeString _ Hsp)) as (hs3 & E3 & Hg3).
  erewrite SM_bind_eq by exact E3. set (st3 := set_sink _ st2).
  erewrite (SM_bind_eq _ _ _ (vp_references info)) by (unfold gets, db_queryReferences; cbn [st1 st2 st3 set_sink st_ls]; by rewrite Hinfo).
  destruct (hw_write_ok _ _ (writeStrings (vp_references info)) st3 Hg3 (small_writeStrings _ Hsr)) as (hs4 & E4 & Hg4).
  erewrite SM_bind_eq by exact E4. set (st4 := set_sink _ st3).
  erewrite (SM_bind_eq _ _ _ (vp_deriver info)) by (unfold gets, db_queryDeriver; cbn [st1 st2 st3 st4 set_sink st_ls]; by rewrite Hinfo).
  destruct (hw_write_ok _ _ (writeString (vp_deriver info)) st4 Hg4 (small_writeString _ Hsd)) as (hs5 & E5 & Hg5).
  erewrite SM_bind_eq by exact E5. set (st5 := set_sink _ st4).
  set (bs := archive t ++ trailer p (vp_references info) (vp_deriver info)) in *.
  assert (good_sink bs hs5) as Hg.
  { unfold bs, archive, trailer. fold c0. rewrite !join_app. by rewrite !(assoc (++)) in *. }
  set (base := c0 ++ writeInt EXPORT_MAGIC ++ writeString p ++ writeStrings (vp_references info) ++ writeString (vp_deriver info)).
  assert (st_sink st5 = st_sink st ++ base) as Hsink.
  { cbn [st5 st4 st3 st2 st1 set_sink st_sink]. unfold base. by rewrite !(assoc (++)). }
  assert (wire base = bs) as Hbase by (unfold base; by rewrite join_app).
  destruct sig as [s|]; cbn [signing signature_part].
  - destruct Hsig as (Hss & Hempty & (mode & Emode & Hmode) & left & Ereply).
    destruct (good_finish _ _ Hg) as (h2 & Eh2 & Ht2 & Hd2).
    erewrite (SM_bind_eq _ _ _ (h2, sink_flush hs5)) by (unfold lift, currentHash; by rewrite Eh2).
    destruct (hw_write_ok _ _ (writeInt 1) st5 (good_flush _ _ Hg) (small_writeInt _)) as (hs6 & E6 & Hg6).
    erewrite SM_bind_eq by exact E6. set (st6 := set_sink _ st5). fold signing_key.
    erewrite (SM_bind_eq _ _ _ ()); [|unfold checkSecrecy; erewrite SM_bind_eq by (unfold lift; by rewrite Emode); unfold lift; by rewrite bool_decide_eq_true_2].
    erewrite (SM_bind_eq _ _ _ s); [|unfold signHash; erewrite SM_bind_eq by (unfold lift; by rewrite (printHash_digest h2 bs Ht2 Hd2)); by apply (ask_agent_ok _ s left)].
    set (st7 := set_agentOut left st6).
    destruct (hw_write_ok _ _ (writeString s) st7 Hg6 (small_writeString _ Hss)) as (hs8 & E8 & _).
    erewrite SM_bind_eq by exact E8. exists (base ++ writeInt 1 ++ writeString s). eexists. split; [done|]. split.
    + cbn [set_sink st_sink st7 set_agentOut st6]. rewrite Hsink. by rewrite !(assoc (++)).
    + rewrite join_app, Hbase. unfold bs. by rewrite <-(assoc (++)).
  - destruct (hw_write_ok _ _ (writeInt 0) st5 Hg (small_writeInt _)) as (hs6 & E6 & Hg6).
    erewrite SM_bind_eq by exact E6. exists (base ++ writeInt 0). eexists. split; [done|]. split.
    + cbn [set_sink st_sink]. rewrite Hsink. by rewrite !(assoc (++)).
    + rewrite join_app, Hbase. unfold bs. by rewrite <-(assoc (++)).
Qed.
End exporting.

(** * Importing *)

(** One more step of a run whose result is known. *)
Ltac run_step E := erewrite SM_bind_eq by exact E; cbv beta.

Section import_run.
Context {gc : Gcrypt} {glaws : GcryptLaws} {env : StoreEnv} {laws : StoreEnvLaws}.
Hypothesis alone : ∀ w st, others w st = st.

Lemma temp_name_inj c c' : temp_name c = temp_name c' → c = c'.
Proof.
  unfold temp_name, dec. intros E. rewrite !(assoc (++)) in E. apply (inj (app _)) in E.
  assert (Inj (=) (=) uint_bytes) as Hinj by
    (intros a; induction a; intros []; simpl; intros E'; try done; injection E' as E'; f_equal; auto).
  apply Hinj in E. rewrite <-(DecimalN.Unsigned.of_to c), E. apply DecimalN.Unsigned.of_to.
Qed.

(** One of as many names as there are files, and one more, is free. *)
Lemma temp_name_free (fs : filesystem) c : ∃ k, (k <= N.of_nat (size fs))%N ∧ fs !! temp_name (c + k) = None.
Proof.
  set (names := (λ k, temp_name (c + N.of_nat k)) <$> seq 0 (S (size fs))).
  destruct (decide (Forall (λ p, is_Some (fs !! p)) names)) as [Hall|Hex].
  - exfalso. assert (NoDup names) as Hnd.
    { apply NoDup_fmap_2; [|apply NoDup_seq]. intros a b E%temp_name_inj. lia. }
    assert ((list_to_set names : gset bytes) ⊆ dom fs) as Hsub.
    { intros p Hp%elem_of_list_to_set. rewrite Forall_forall in Hall. apply elem_of_dom. by apply Hall. }
    apply subseteq_size in Hsub. rewrite size_list_to_set, size_dom in Hsub by done.
    unfold names in Hsub. rewrite length_fmap, length_seq in Hsub. lia.
  - apply not_Forall_Exists in Hex; [|apply _]. apply Exists_exists in Hex as (p & Hp & Hn).
    apply list_elem_of_fmap in Hp as (k & -> & Hk%elem_of_seq). exists (N.of_nat k). split; [lia|].
    by apply eq_None_not_Some.
Qed.

Lemma make_dir_temp c st :
  st_fs st !! env_nixStore = Some IDir →
  make_dir (temp_name c) st =
    match st_fs st !! temp_name c with
    | None => (Ret true, set_fs (<[temp_name c := IDir]> (st_fs st)) st)
    | Some _ => (Ret false, st)
    end.
Proof.
  intros Hd. unfold make_dir. pose proof (temp_name_store c) as (b & Hb & Hsl & Eb)%store_path_iff.
  unfold fs_create. rewrite Eb. rewrite decide_False by (by apply last_child).
  rewrite parent_of_child; [|apply store_nonempty|done]. rewrite decide_True by done.
  destruct (st_fs st !! (env_nixStore ++ slash ++ b)).
  - by rewrite decide_True by (by eexists).
  - by rewrite decide_False by (by intros []).
Qed.

Lemma createTempDir_run fuel st k :
  st_fs st !! env_nixStore = Some IDir → st_fs st !! temp_name (st_tempCounter st + k) = None → (N.to_nat k < fuel) →
  ∃ c n, createTempDir fuel env_nixStore st =
           (Ret (temp_name c), set_fs (<[temp_name c := IDir]> (st_fs st)) (set_tempCounter n st)) ∧
         st_fs st !! temp_name c = None.
Proof.
  intros Hd. revert st k Hd. induction fuel as [|fuel IH]; [lia|]. intros st k Hd Hk Hf. cbn [createTempDir].
  assert (tempName env_nixStore st = (Ret (temp_name (st_tempCounter st)), set_tempCounter (st_tempCounter st + 1) st)) as E.
  { unfold tempName. erewrite SM_bind_eq by (unfold lift; by rewrite law_resolved). done. }
  run_step E. unfold mbind, SM_bind. rewrite make_dir_temp by done. cbn [set_tempCounter st_fs].
  destruct (st_fs st !! temp_name (st_tempCounter st)) eqn:Ec.
  - destruct (decide (k = 0%N)) as [->|Hne]; [rewrite N.add_0_r in Hk; congruence|].
    destruct (IH (set_tempCounter (st_tempCounter st + 1) st) (k - 1)%N) as (c & n & E1 & Hc); [done| |lia|].
    + cbn [set_tempCounter st_fs st_tempCounter]. by replace (st_tempCounter st + 1 + (k - 1))%N with (st_tempCounter st + k)%N by lia.
    + exists c, n. split; [exact E1|done].
  - eexists _, _. split; [done|done].
Qed.

Lemma addTempRoot_alone p st : addTempRoot p st = (Ret (), set_tempRoots (st_tempRoots st ++ [p]) st).
Proof. unfold addTempRoot. erewrite SM_bind_eq by done. unfold modify. by rewrite alone. Qed.

(** The state in which the archive is unpacked. *)
Lemma createTempDirInStore_run fuel st :
  0 < fuel → st_fs st !! env_nixStore = Some IDir →
  ∃ c st', createTempDirInStore fuel st = (Ret (temp_name c), st') ∧ st_fs st !! temp_name c = None ∧
    st_fs st' = <[temp_name c := IDir]> (st_fs st) ∧ st_ls st' = st_ls st ∧ st_agentOut st' = st_agentOut st.
Proof.
  intros Hf Hd. destruct fuel as [|fuel]; [lia|]. cbn [createTempDirInStore]. erewrite SM_bind_eq by done.
  destruct (temp_name_free (st_fs st) (st_tempCounter st)) as (k & Hk & Hfree).
  destruct (createTempDir_run (S (size (st_fs st))) st k Hd Hfree ltac:(lia)) as (c & n & E & Hc). run_step E.
  erewrite SM_bind_eq by apply addTempRoot_alone.
  erewrite (SM_bind_eq _ _ _ true); [|unfold path_exists, gets, fs_exists; cbn [set_tempRoots set_fs st_fs];
    rewrite bool_decide_eq_true_2; [done|rewrite lookup_insert_eq; by eexists]].
  exists c. eexists. by split_and!.
Qed.

(** ** Reading what was exported *)

Abbreviation store_path p := (isStorePath env_nixStore p = true).

Lemma reads_store_paths {S} `{SourceLaws S} refs :
  set_wf refs → Forall small refs → small_count refs → (∀ r, r ∈ refs → store_path r) →
  reads_as (readStorePaths env_nixStore) refs (wire (writeStrings refs)).
Proof.
  intros Hwf Hs Hc Hp. unfold readStorePaths. rewrite <-(app_nil_r (wire _)).
  eapply (reads_as_bind readStrings_set _ refs).
  - rewrite writeStrings_wire. unfold readStrings_set.
    eapply (reads_as_bind readInt _ (Z.of_nat (length refs))); [apply reads_as_int; unfold small_count in Hc; lia|].
    rewrite Nat2Z.id. pose proof (reads_as_strings_loop (S := S) set_insert refs [] Hs) as Hloop.
    assert (foldl (λ a x, set_insert x a) [] refs = refs) as E by exact (set_of_list_sorted refs Hwf).
    rewrite E in Hloop. exact Hloop.
  - assert (foldM (λ _ path, assertStorePath env_nixStore path) refs () = Ret ()) as E.
    { clear Hwf Hs Hc. induction refs as [|r refs IH]; [done|]. cbn [foldM].
      assert (assertStorePath env_nixStore r = Ret ()) as -> by (unfold assertStorePath; by rewrite Hp by (by left)).
      apply IH. intros; apply Hp; by right. }
    intros s rest Hsrc Hr. exists s. rewrite E. done.
Qed.

Lemma reads_trailer {S} `{SourceLaws S} p refs deriver :
  store_path p → small p → set_wf refs → Forall small refs → small_count refs → (∀ r, r ∈ refs → store_path r) →
  small deriver → (deriver = [] ∨ store_path deriver) →
  ∀ s rest, source_wf s → remaining s = trailer p refs deriver ++ rest →
  ∃ s', read_trailer s = Ret (p, refs, deriver, s') ∧ source_wf s' ∧ remaining s' = rest.
Proof.
  intros Hp Hsp Hwf Hsr Hc Hr Hsd Hd s rest Hs E. unfold trailer in E. rewrite !join_app, <-!(assoc (++)) in E.
  destruct (reads_as_int EXPORT_MAGIC ltac:(unfold EXPORT_MAGIC; lia) s _ Hs E) as (s1 & E1 & Hs1 & Hr1).
  destruct (reads_as_string p Hsp s1 _ Hs1 Hr1) as (s2 & E2 & Hs2 & Hr2).
  destruct (reads_store_paths refs Hwf Hsr Hc Hr s2 _ Hs2 Hr2) as (s3 & E3 & Hs3 & Hr3).
  destruct (reads_as_string deriver Hsd s3 _ Hs3 Hr3) as (s4 & E4 & Hs4 & Hr4).
  exists s4. split; [|done]. unfold read_trailer. rewrite E1. cbn [mbind outcome_bind]. rewrite bool_decide_eq_true_2 by done.
  cbn [check mbind outcome_bind]. unfold readStorePath. rewrite E2. cbn [mbind outcome_bind]. assert (assertStorePath env_nixStore p = Ret ()) as -> by (unfold assertStorePath; by rewrite Hp).
  cbn [mbind outcome_bind]. rewrite E3. cbn [mbind outcome_bind]. rewrite E4. cbn [mbind outcome_bind].
  case_decide; [done|]. unfold assertStorePath. destruct Hd as [?|Hd]; [done|]. by rewrite Hd.
Qed.

(** The agent accepts the signature as one over the hash of [bs]. *)
Definition can_verify (st : StoreState) (bs : bytes) (sig : option bytes) : Prop :=
  match sig with
  | None => True
  | Some s =>
      small s ∧ st_agentOut st = [] ∧
      ∃ left, readReply (agent_reply (verify_request s)) = Ret (0%Z, hex_digest bs, left)
  end.

Lemma check_signature_run {S} `{SourceLaws S} sig h bs (s : S) rest st :
  source_wf s → remaining s = signature_part sig ++ rest → can_verify st bs sig →
  (signing sig = true → printHash h = Ret (hex_digest bs)) →
  ∃ s' st', check_signature (signing sig) h s st = (Ret s', st') ∧ remaining s' = rest ∧
    st_fs st' = st_fs st ∧ st_ls st' = st_ls st.
Proof.
  intros Hs Hr Hv Hh. unfold check_signature. destruct sig as [sig|]; cbn [signing signature_part can_verify] in *.
  - destruct Hv as (Hsm & Hempty & left & Ereply). rewrite join_app, <-(assoc (++)) in Hr.
    destruct (reads_as_int 1 ltac:(lia) s _ Hs Hr) as (s1 & E1 & Hs1 & Hr1).
    destruct (reads_as_string sig Hsm s1 _ Hs1 Hr1) as (s2 & E2 & Hs2 & Hr2).
    erewrite (SM_bind_eq _ _ _ (1%Z, s1)) by (unfold lift; by rewrite E1). cbv beta iota zeta.
    rewrite bool_decide_eq_true_2 by done. cbn [negb andb]. erewrite (SM_bind_eq _ _ _ ()) by done.
    erewrite (SM_bind_eq _ _ _ (sig, s2)) by (unfold lift; by rewrite E2). cbv beta iota.
    erewrite (SM_bind_eq _ _ _ () (set_agentOut left st)); [by eexists _, _|].
    erewrite (SM_bind_eq _ _ _ (hex_digest bs)) by (by apply (ask_agent_ok _ _ left)).
    erewrite (SM_bind_eq _ _ _ (hex_digest bs)) by (unfold lift; by rewrite Hh). unfold lift. by rewrite bool_decide_eq_true_2.
  - destruct (reads_as_int 0 ltac:(lia) s _ Hs Hr) as (s1 & E1 & Hs1 & Hr1).
    erewrite (SM_bind_eq _ _ _ (0%Z, s1)) by (unfold lift; by rewrite E1). cbv beta iota zeta.
    rewrite bool_decide_eq_false_2 by done. cbn [negb andb]. erewrite (SM_bind_eq _ _ _ ()) by done. by eexists _, _.
Qed.

(** ** Installing *)

Hypothesis canonicalise_total : ∀ p fs, is_Some (fs !! p) → ∃ fs', canonicalise_pass p fs = Ret fs'.
Hypothesis optimise_total : ∀ p fs, is_Some (fs !! p) → ∃ fs', optimise_pass p fs = Ret fs'.

Lemma holds_present t p fs : nar_ok t → holds_tree fs p t → is_Some (fs !! p).
Proof. intros Hok Hh. rewrite (Hh p) by (by left). by apply fs_add_present. Qed.

(** The passes leave the tree. *)
Lemma pass_holds t p fs fs' :
  store_path p → p ≠ linksDir → (canonicalise_pass p fs = Ret fs' ∨ optimise_pass p fs = Ret fs') →
  holds_tree fs p t → holds_tree fs' p t ∧ changes_only [] fs fs'.
Proof.
  intros Hp Hl E Hh. destruct (changes_pass [] p fs fs' E) as [_ Hc]. split; [|done]. eapply holds_frame; [|done].
  eapply same_below_changes; [exact Hc|set_solver|done|set_solver|done].
Qed.

(** Clearing the way for the path. *)
Lemma replace_invalid_run p lock body st :
  isValidPath_ p (ls_db (st_ls st)) = false → lock st = (Ret (), st) →
  ∃ fs, replace_invalid false p lock body st = body (set_fs fs st) ∧ fs !! p = None ∧
        ∀ q, ¬ at_or_below p q → fs !! q = st_fs st !! q.
Proof.
  intros Hv Hlock. unfold replace_invalid.
  assert (is_valid p st = (Ret false, st)) as Ev by (unfold is_valid, gets; by rewrite Hv).
  run_step Ev. cbn [orb negb when]. run_step Hlock. run_step Ev. cbn [orb negb when].
  assert (set_fs (st_fs st) st = st) as Hid by (by destruct st).
  unfold mbind at 1, SM_bind at 1, path_exists, gets, fs_exists. case_bool_decide as He; cbn [when].
  - exists (fs_delete p (st_fs st)). destruct He as [i Hi].
    assert (lift_fs (deletePath p) st = (Ret (), set_fs (fs_delete p (st_fs st)) st)) as Ed.
    { unfold lift_fs, deletePath. by rewrite Hi. }
    run_step Ed. split_and!; [done|rewrite lookup_fs_delete, decide_True; [done|by left]|].
    intros q Hq. by rewrite lookup_fs_delete, decide_False.
  - exists (st_fs st). erewrite SM_bind_eq by done. apply eq_None_not_Some in He. by rewrite Hid.
Qed.

(** The hash and size that [hashPath] finds for an object. *)
Definition hashes_to (t : fso) (h : Hash) (n : Z) : Prop :=
  hashsink_run htSHA256 (writeString archiveVersion1 ++ nar t) = Ret (h, n).

Lemma hashPath_holds t p fs h n : nar_ok t → holds_tree fs p t → hashes_to t h n → hashPath htSHA256 p fs = Ret (h, n).
Proof. intros Hok Hh E. unfold hashPath. by rewrite (dump_path_holds t). Qed.

Lemma install_import_run c p refs deriver t h n st :
  let tmp := temp_name c in let a := tmp ++ str "/unpacked" in
  integrity st → ¬ valid (ls_db (st_ls st)) tmp → st_fs st !! tmp = Some IDir → holds_tree (st_fs st) a t → nar_ok t →
  hashes_to t h n → hash_of_type htSHA256 h → store_path p → p ≠ linksDir → p ≠ tmp → nul_free p → isDerivation p = false → ¬ valid (ls_db (st_ls st)) p →
  set_wf refs → (∀ j, j ∈ refs → nul_free j ∧ (j = p ∨ valid (ls_db (st_ls st)) j)) →
  ∃ st' info, install_import a p refs deriver st = (Ret (), st') ∧
    holds_tree (st_fs st') p t ∧ changes_only [p; tmp] (st_fs st) (st_fs st') ∧
    queryPathInfo env_nixStore p (ls_db (st_ls st')) = Ret info ∧ vp_references info = refs ∧ vp_hash info = h ∧
    vp_narSize info = n ∧
    vp_deriver info = c_str (if negb (bool_decide (deriver = [])) && isValidPath_ deriver (ls_db (st_ls st)) then deriver else []).
Proof.
  intros tmp a HI Hvt Htmp Hh Hok Ehash Hht Hp Hl Hpt Hn Hdrv Hnv Hwf Hrefs.
  assert (store_path tmp) as Hst by apply temp_name_store.
  assert (at_or_below tmp a) as Ha by (right; exists (str "unpacked"); unfold a; by rewrite <-(assoc (++))).
  assert (parent_of a = Some tmp) as Epar.
  { apply (parent_of_child tmp (str "unpacked")); [|concrete]. by apply store_path_proper. }
  assert (apart a p) as Hap.
  { split; intros Hb.
    - apply (store_paths_apart p tmp p); [done|done|done|by left|]. destruct Hb as [->|Hb]; [done|]. right. destruct Hb as [k ->].
      unfold a. exists (str "unpacked" ++ slash ++ k). by rewrite <-!(assoc (++)).
    - apply (store_paths_apart p tmp a); done. }
  assert (isValidPath_ p (ls_db (st_ls st)) = false) as Hvp.
  { destruct (isValidPath_ p _) eqn:E; [|done]. apply isValidPath_spec in E. rewrite c_str_id in E by exact Hn. by destruct (Hnv E). }
  unfold install_import. erewrite (SM_bind_eq _ _ _ ()) by (unfold nul_check, lift; by rewrite bool_decide_eq_true_2).
  erewrite SM_bind_eq by apply addTempRoot_alone. set (st1 := set_tempRoots _ st).
  erewrite SM_bind_eq by (unfold lift; rewrite tokenizeString_spec; reflexivity).
  match goal with |- context [replace_invalid false p ?lock ?body st1] =>
    destruct (replace_invalid_run p lock body st1) as (fs1 & -> & Hn1 & Hs1) end; [done| |].
  { unfold when. case_match; [|done]. unfold lock_path, modify. by rewrite alone. }
  assert (∀ q, at_or_below tmp q → fs1 !! q = st_fs st !! q) as Hkeep.
  { intros q Hq. apply Hs1. apply (store_paths_apart tmp p q); [exact Hst|exact Hp|exact (not_eq_sym Hpt)|exact Hq]. }
  assert (holds_tree fs1 a t) as Hh1.
  { eapply holds_frame; [|exact Hh]. intros q Hq. apply Hkeep. by eapply below_trans. }
  pose proof (store_path_parent p Hp) as Edir.
  assert (fs1 !! env_nixStore = Some IDir) as Hdir.
  { rewrite Hs1 by (by apply store_above). apply HI. }
  assert (fs_rename a p fs1 = Ret (fs_move a p fs1)) as Er.
  { eapply (fs_rename_ok a p tmp); [done|by eapply holds_present|done|done| |done|done]. by rewrite Hkeep by (by left). }
  erewrite (SM_bind_eq _ _ _ ()); [|unfold lift_fs; cbn [set_fs st_fs]; by rewrite Er]. set (fs2 := fs_move a p fs1).
  assert (holds_tree fs2 p t) as Hh2 by (by apply holds_move).
  destruct (canonicalise_total p fs2 ltac:(by eapply holds_present)) as (fs3 & E3).
  erewrite (SM_bind_eq _ _ _ ()); [|unfold lift_fs; cbn [set_fs st_fs]; by rewrite E3].
  destruct (pass_holds t p fs2 fs3 Hp Hl ltac:(auto) Hh2) as [Hh3 Hc3].
  erewrite (SM_bind_eq _ _ _ (h, n)); [|unfold hash_path, gets; cbn [set_fs st_fs]; by rewrite (hashPath_holds t p fs3 h n)].
  destruct (optimise_total p fs3 ltac:(by eapply holds_present)) as (fs4 & E4).
  erewrite (SM_bind_eq _ _ _ ()); [|unfold lift_fs; cbn [set_fs st_fs]; by rewrite E4].
  destruct (pass_holds t p fs3 fs4 Hp Hl ltac:(auto) Hh3) as [Hh4 Hc4].
  erewrite SM_bind_eq by done. set (d := if negb _ && _ then deriver else []).
  destruct (registerValidPath_new env_nixStore (λ q, fs_readFile q fs4) env_now p h n refs d (st_ls st)
    (proj1 HI) Hht Hp Hn Hdrv Hnv Hwf Hrefs) as (ls & info & Ereg & Einfo & Hir & Hih & Hid & Hin).
  eexists _, info. split; [unfold register_path_info, lift_ls; cbn [set_fs set_tempRoots st_ls st_fs st1 fst snd]; by rewrite Ereg|].
  cbn [set_ls set_fs st_fs st_ls]. split_and!; [done| |done|done|done|done|done].
  intros q Hq Hql. assert (∀ d, d ∈ @nil bytes → ¬ at_or_below d q) as Hnil by inversion 1.
  rewrite (Hc4 q Hnil Hql), (Hc3 q Hnil Hql). unfold fs2.
  pose proof (Hq p (list_elem_of_here _ _)) as Hqp.
  pose proof (Hq tmp (list_elem_of_further _ _ _ (list_elem_of_here _ _))) as Hqt.
  rewrite lookup_move_outside; [exact (Hs1 q Hqp)| |exact Hqp]. intros Hqa. exact (Hqt (below_trans _ _ _ Ha Hqa)).
Qed.

(** ** The whole import *)

(** Of an import, the finished hash and the verified signature. *)
Lemma finish_hash {S} {src : Source S} {slaws : SourceLaws S} bs sig total (s : HashAndReadSource S) :
  (signing sig = true → small bs) → total = bs ++ remaining (hr_source s) →
  @source_wf _ _ (HashAndReadSource_laws (Some total)) s →
  ∃ h n, hashsink_finish htSHA256 (hr_sink s) = Ret (h, n) ∧ (signing sig = true → printHash h = Ret (hex_digest bs)).
Proof.
  intros Hsm -> (_ & _ & Hh). destruct (signing sig).
  - pose proof (hashed_good bs s (Hsm eq_refl) Hh) as Hg. destruct (good_finish bs _ Hg) as (h & E & Ht & Hd).
    exists h. eexists. split; [exact E|]. intros _. by apply printHash_digest.
  - unfold hashsink_finish. rewrite Hash_new_ok by done. eexists _, _. split; [reflexivity|done].
Qed.

Lemma unpack_run {S} `{SourceLaws S} fuel tmp t fs (s : S) rest st :
  nar_ok t → tmp ≠ [] → fresh_at tmp fs → st_fs st = <[tmp := IDir]> fs → source_wf s →
  remaining s = archive t ++ rest → length (remaining s) <= fuel →
  let a := tmp ++ str "/unpacked" in
  ∃ s', restore_path fuel a s st = (Ret s', set_fs (fs_add a t (st_fs st)) st) ∧
    source_wf s' ∧ remaining s' = rest ∧ holds_tree (fs_add a t (st_fs st)) a t ∧
    fs_add a t (st_fs st) !! tmp = Some IDir.
Proof.
  intros Hok Hne Hfresh Est Hs Hr Hf a. assert (a = tmp ++ slash ++ str "unpacked") as Ea by done.
  assert (fresh_at a (st_fs st)) as Hfa by (rewrite Est, Ea; by apply fresh_at_child).
  destruct (restorePath_nar env_fallocate a tmp t (st_fs st) fuel s rest) as (s' & E & Hs' & Hr'); try done.
  - rewrite Ea. by intros [? _]%app_eq_nil.
  - rewrite Ea. apply last_child; [done|concrete].
  - rewrite Ea. apply parent_of_child; [done|concrete].
  - rewrite Est. apply lookup_insert_eq.
  - exists s'. split_and!; [by apply restore_path_Ret|done|done|by apply holds_add|].
    rewrite fs_add_outside, Est; [apply lookup_insert_eq|]. rewrite Ea. apply below_self.
Qed.

Lemma importPath_run {S} {src : Source S} {slaws : SourceLaws S} fuel (source : S) rest sig p refs deriver t h n st :
  integrity st → nar_ok t → hashes_to t h n → hash_of_type htSHA256 h →
  store_path p → p ≠ linksDir → (∀ c, p ≠ temp_name c) → nul_free p → small p → isDerivation p = false →
  ¬ valid (ls_db (st_ls st)) p → set_wf refs → Forall small refs → small_count refs →
  (∀ j, j ∈ refs → store_path j ∧ nul_free j ∧ (j = p ∨ valid (ls_db (st_ls st)) j)) →
  small deriver → (deriver = [] ∨ store_path deriver) →
  (signing sig = true → small (archive t ++ trailer p refs deriver)) →
  can_verify st (archive t ++ trailer p refs deriver) sig →
  source_wf source → remaining source = archive t ++ trailer p refs deriver ++ signature_part sig ++ rest →
  length (remaining source) < fuel →
  ∃ s' st' info, importPath fuel (signing sig) source st = (Ret (p, s'), st') ∧ remaining s' = rest ∧
    holds_tree (st_fs st') p t ∧ changes_only [p] (st_fs st) (st_fs st') ∧
    queryPathInfo env_nixStore p (ls_db (st_ls st')) = Ret info ∧ vp_references info = refs ∧ vp_hash info = h ∧
    vp_narSize info = n ∧
    vp_deriver info = c_str (if negb (bool_decide (deriver = [])) && isValidPath_ deriver (ls_db (st_ls st)) then deriver else []).
Proof.
  intros HI Hok Hth Hht Hp Hl Hpt Hn Hsp Hdrv Hnv Hwf Hsr Hsc Hrefs Hsd Hd Hsm Hver Hs Hr Hf.
  pose proof HI as HI'. destruct HI as (Hdb & [Hfw Hdir] & Hrows).
  destruct (createTempDirInStore_run fuel st ltac:(lia) Hdir) as (c & st1 & E1 & Hfree & Hfs1 & Hls1 & Hag1).
  unfold importPath. erewrite SM_bind_eq by exact E1. unfold finally.
  assert (proper (temp_name c)) as Hprop by apply store_path_proper, temp_name_store.
  pose proof (fresh_at_absent (temp_name c) (st_fs st) Hfw Hprop Hfree) as Hfresh.
  set (a := temp_name c ++ str "/unpacked"). set (T := remaining source) in *.
  destruct (@unpack_run _ _ (HashAndReadSource_laws (Some T)) fuel (temp_name c) t (st_fs st)
    (mkHashAndReadSource source (sink_new defaultBufSize) true) (trailer p refs deriver ++ signature_part sig ++ rest) st1)
    as (s1 & E2 & Hs1 & Hr1 & Hh1 & Htmp1); [exact Hok|apply Hprop|exact Hfresh|exact Hfs1|exact (hashing_start source Hs)|exact Hr|
      cbn [remaining HashAndReadSource_laws hr_source]; unfold T in Hf; lia|].
  fold a in E2, Hh1, Htmp1. erewrite SM_bind_eq by exact E2. set (st2 := set_fs _ st1) in *.
  destruct (@reads_trailer _ _ (HashAndReadSource_laws (Some T)) p refs deriver Hp Hsp Hwf Hsr Hsc
    (λ r Hr, proj1 (Hrefs r Hr)) Hsd Hd s1 _ Hs1 Hr1) as (s2 & E3 & Hs2 & Hr2).
  erewrite SM_bind_eq by (unfold lift; rewrite E3; reflexivity). cbv beta iota.
  destruct (finish_hash (archive t ++ trailer p refs deriver) sig T s2 Hsm) as (h2 & n2 & E4 & Hhex).
  { rewrite Hr. cbn [remaining HashAndReadSource_laws] in Hr2. rewrite Hr2. by rewrite <-(assoc (++)). }
  { exact Hs2. }
  erewrite SM_bind_eq by (unfold lift; rewrite E4; reflexivity). cbv beta iota zeta.
  set (s3 := mkHashAndReadSource (hr_source s2) (hr_sink s2) false).
  destruct (@check_signature_run _ _ (HashAndReadSource_laws None) sig h2 (archive t ++ trailer p refs deriver) s3 rest st2)
    as (s4 & st4 & E5 & Hr4 & Hfs4 & Hls4); [split; [apply Hs2|reflexivity]|exact Hr2| |exact Hhex|].
  { unfold can_verify in *. destruct sig; [|exact I]. cbn [st2 set_fs st_agentOut]. by rewrite Hag1. }
  erewrite SM_bind_eq by exact E5.
  assert (intact [temp_name c] st4) as Hint.
  { pose proof (createTempDirInStore_intact fuel st HI') as I1. rewrite E1 in I1. destruct I1 as (c' & _ & I1).
    pose proof (@keeps_restore _ _ _ _ _ (HashAndReadSource_laws (Some T)) [temp_name c] (temp_name c) a fuel
      (mkHashAndReadSource source (sink_new defaultBufSize) true) (list_elem_of_here _ _)
      ltac:(right; exists (str "unpacked"); unfold a; by rewrite <-(assoc (++))) (hashing_start source Hs) Hf st1 I1) as I2.
    rewrite E2 in I2. pose proof (check_signature_keeps [temp_name c] (signing sig) h2 s3 st2 I2) as I3. by rewrite E5 in I3. }
  assert (st_ls st4 = st_ls st) as Hls by (rewrite Hls4; exact Hls1).
  destruct (install_import_run c p refs deriver t h n st4) as (st5 & info & E6 & Hh5 & Hc5 & Hinfo & Hir & Hih & Hin & Hid).
  all: try rewrite Hls; try rewrite Hfs4; try assumption.
  { by destruct Hint. } { rewrite <-Hls. apply Hint, list_elem_of_here. } { exact (Hpt c). } { intros j Hj. apply (Hrefs j Hj). }
  fold a in E6. erewrite SM_bind_eq by exact E6. cbv beta.
  exists (hr_source s4). eexists _, info. split; [reflexivity|]. cbn [auto_delete set_fs st_fs st_ls].
  assert (∀ q, ¬ at_or_below (temp_name c) q → fs_delete (temp_name c) (st_fs st5) !! q = st_fs st5 !! q) as Hdel.
  { intros q Hq. by rewrite lookup_fs_delete, decide_False. }
  rewrite <-Hls. split_and!; [exact Hr4| | |exact Hinfo|exact Hir|exact Hih|exact Hin|exact Hid].
  - eapply holds_frame; [|exact Hh5]. intros q Hq. apply Hdel.
    apply (store_paths_apart p (temp_name c) q); [exact Hp|apply temp_name_store|apply Hpt|exact Hq].
  - intros q Hq Hql. destruct (decide (at_or_below (temp_name c) q)) as [Hb|Hb].
    + rewrite lookup_fs_delete, decide_True by exact Hb. symmetry. apply eq_None_not_Some. intros Hq'. exact (Hfresh q Hq' Hb).
    + rewrite (Hdel q Hb), (Hc5 q), Hfs4; [|intros d [->|[->|[]%not_elem_of_nil]%elem_of_cons]%elem_of_cons; [apply Hq, list_elem_of_here|exact Hb]|exact Hql].
      cbn [st2 set_fs st_fs]. rewrite fs_add_outside, Hfs1.
      * apply lookup_insert_ne. intros E. apply Hb. left. by symmetry.
      * intros Ha. apply Hb. eapply below_trans; [|exact Ha]. right. exists (str "unpacked"). unfold a. by rewrite <-(assoc (++)).
Qed.
End import_run.

(** * The round trip *)

(** The bytes of an export before the signature. *)
Definition signed_part (p : bytes) (t : fso) (info : ValidPathInfo) : bytes :=
  archive t ++ trailer p (vp_references info) (vp_deriver info).

(** A path that can be exported from [st] with the signature [sig], if any: it is
    valid, with the contents [t] and the information [info], the strings fit the
    wire format, and the agent signs. *)
Record exportable {gc : Gcrypt} {env : StoreEnv} (st : StoreState) (p : bytes) (t : fso)
    (info : ValidPathInfo) (sig : option bytes) : Prop := {
  ex_integrity : integrity st;
  ex_store : isStorePath env_nixStore p = true;
  ex_links : p ≠ linksDir;
  ex_info : queryPathInfo env_nixStore p (ls_db (st_ls st)) = Ret info;
  ex_nar : nar_ok t;
  ex_tree : holds_tree (st_fs st) p t;
  ex_nul : Forall nul_free (p :: vp_references info);
  ex_small : Forall small (p :: vp_deriver info :: vp_references info);
  ex_count : small_count (vp_references info);
  ex_deriver : vp_deriver info = [] ∨ isStorePath env_nixStore (vp_deriver info) = true;
  ex_sign : can_sign st (signed_part p t info) sig
}.

(** A store that can take it: nobody interferes, the passes over new files
    succeed, the references are there, the path is not, and the agent accepts
    the signature. *)
Record importable {gc : Gcrypt} {env : StoreEnv} (st : StoreState) (p : bytes) (t : fso)
    (info : ValidPathInfo) (sig : option bytes) : Prop := {
  im_integrity : integrity st;
  im_alone w st : others w st = st;
  im_canonicalise p fs : is_Some (fs !! p) → ∃ fs', canonicalise_pass p fs = Ret fs';
  im_optimise p fs : is_Some (fs !! p) → ∃ fs', optimise_pass p fs = Ret fs';
  im_temp c : p ≠ temp_name c;
  im_drv : isDerivation p = false;
  im_new : ¬ valid (ls_db (st_ls st)) p;
  im_refs j : j ∈ vp_references info → j = p ∨ valid (ls_db (st_ls st)) j;
  im_short : signing sig = true → small (signed_part p t info);
  im_verify : can_verify st (signed_part p t info) sig
}.

Section round_trip.
Context {gc : Gcrypt} {glaws : GcryptLaws}.

Lemma info_references {env : StoreEnv} p st info :
  integrity st → queryPathInfo env_nixStore p (ls_db (st_ls st)) = Ret info →
  set_wf (vp_references info) ∧ ∀ j, j ∈ vp_references info → isStorePath env_nixStore j = true.
Proof.
  intros (Hok & _ & Hrows) E. unfold queryPathInfo in E. apply bind_Ret_inv in E as (_ & _ & E).
  destruct (find_row _ _) as [[id r]|] eqn:Er; [|discriminate E]. apply bind_Ret_inv in E as (h & _ & E). injection E as <-.
  cbn [vp_references]. split; [apply set_of_list_wf|]. intros j Hj. rewrite elem_of_set_of_list in Hj.
  apply find_row_Some in Er as [Hr Hp]. eapply stmtQueryReferences_spec in Hj as (x & y & _ & (r' & Hr' & <-) & _);
    [|exact Hok|by exists r]. by apply (Hrows y).
Qed.

Lemma exported_hash {env : StoreEnv} p t st info :
  integrity st → p ≠ linksDir → nul_free p → nar_ok t → holds_tree (st_fs st) p t →
  queryPathInfo env_nixStore p (ls_db (st_ls st)) = Ret info →
  hash_of_type htSHA256 (vp_hash info) ∧ ∃ n, hashes_to t (vp_hash info) n.
Proof.
  intros HI Hl Hn Hok Hh Hinfo. destruct (stored_hash p st info HI Hl Hn Hinfo) as (n & Eh).
  unfold hashPath in Eh. rewrite (dump_path_holds t) in Eh by assumption. cbn [mbind outcome_bind] in Eh.
  split; [|by exists n].
  destruct (hashsink_run_ok htSHA256 (writeString archiveVersion1 ++ nar t)) as (h & E & Hwf & Hty & Hsz & _); [done| |].
  { apply Forall_app. split; [by apply small_writeString|by apply small_nar]. }
  rewrite E in Eh. injection Eh as <- _. by split_and!.
Qed.
End round_trip.

(** * Properties *)



(** ** Witnesses *)

(** A process on its own whose agent signs every hash with [sig] and takes [sig]
    for a signature over the hash [hex]. *)
Definition agent_env (hex : bytes) : StoreEnv := {|
  env_nixStore := str "/gnu/store";
  env_nixConfDir := str "/etc/guix";
  env_now := 2000;
  env_pid := 43;
  env_fallocate := true;
  env_heldLocks := [];
  env_cwd := Ret (str "/");
  env_lstat_link := λ _, Ret None;
  env_mode := λ _, Ret 256%Z;
  agent_reply := λ request,
    if decide (take 5 request = str "sign ") then str "0 3:sig"
    else str "0 " ++ dec_size hex ++ str ":" ++ hex;
  others := λ _ st, st;
  canonicalise_pass := λ _ fs, Ret fs;
  optimise_pass := λ _ fs, Ret fs
|}.

Lemma agent_laws hex : @StoreEnvLaws sum_gcrypt (agent_env hex).
Proof.
  split.
  - split; [done|]. vm_compute. congruence.
  - concrete.
  - vm_compute. reflexivity.
  - done.
  - done.
  - by intros p fs fs' [= <-].
  - by intros p fs fs' [= <-].
Qed.

(** The text file of [hello_run], in its store. *)
Definition hello_path : bytes := Eval vm_compute in match hello_run.1 with Ret p => p | _ => [] end.
Definition hello_tree : fso := Regular false (str "hi").
Definition hello_info : ValidPathInfo := Eval vm_compute in
  match @queryPathInfo sum_gcrypt (str "/gnu/store") hello_path (ls_db (st_ls hello_run.2)) with
  | Ret info => info
  | _ => mkValidPathInfo [] [] Hash_default [] 0 0 0
  end.
Definition hello_hex : bytes := Eval vm_compute in @hex_digest sum_gcrypt (signed_part hello_path hello_tree hello_info).

Lemma hello_integrity hex : @integrity sum_gcrypt (agent_env hex) hello_run.2.
Proof.
  apply (@step_keeps sum_gcrypt lone_env lone_laws sum_gcrypt_laws base_state); [|apply base_integrity].
  exact (@step_text sum_gcrypt lone_env base_state (str "hello") (str "hi") []).
Qed.

Lemma hello_holds : holds_tree (st_fs hello_run.2) hello_path hello_tree.
Proof.
  assert (st_fs hello_run.2 = fs_add hello_path hello_tree base_fs) as -> by concrete.
  apply holds_add. intros q Hq. apply elem_of_dom in Hq. revert q Hq. apply set_Forall_elements. concrete.
Qed.

Lemma hello_exportable sig hex : @can_sign sum_gcrypt (agent_env hex) hello_run.2 (signed_part hello_path hello_tree hello_info) sig →
  @exportable sum_gcrypt (agent_env hex) hello_run.2 hello_path hello_tree hello_info sig.
Proof.
  intros Hs. split.
  - apply hello_integrity.
  - vm_compute. reflexivity.
  - vm_compute. congruence.
  - vm_compute. reflexivity.
  - constructor. vm_compute. reflexivity.
  - apply hello_holds.
  - concrete.
  - repeat constructor.
  - vm_compute. reflexivity.
  - by left.
  - exact Hs.
Qed.

Lemma hello_can_sign : @can_sign sum_gcrypt (agent_env hello_hex) hello_run.2 (signed_part hello_path hello_tree hello_info) (Some (str "sig")).
Proof.
  split; [done|]. split; [vm_compute; reflexivity|]. split; [by exists 256%Z|].
  exists []. vm_compute. reflexivity.
Qed.

Lemma hello_importable :
  @importable sum_gcrypt (agent_env hello_hex) base_state hello_path hello_tree hello_info (Some (str "sig")).
Proof.
  split.
  - exact base_integrity.
  - done.
  - by eexists.
  - by eexists.
  - intros c E. apply (f_equal (take 12)) in E. vm_compute in E. congruence.
  - vm_compute. reflexivity.
  - intros (id & r & Hr & _). cbn [base_state st_ls empty_store ls_db empty_database db_ValidPaths] in Hr. by rewrite lookup_empty in Hr.
  - intros j []%not_elem_of_nil.
  - intros _. vm_compute. reflexivity.
  - split; [done|]. split; [done|]. exists []. vm_compute. reflexivity.
Qed.


(** The bytes of that export, signed. *)
Definition hello_export : bytes := Eval vm_compute in
  wire (st_sink (@exportPath sum_gcrypt (agent_env hello_hex) hello_path true hello_run.2).2).

