(* ===== verification/Verify.v ===== *)
(** libstore/local-store.cc: verification of the store.

    [verifyStore] compares the database with the files of the store: it forgets
    valid paths that have disappeared and, if asked, hashes the others. Other
    processes are not represented, nor is the repair of a path ([repairPath] is an
    argument). *)

From S2P Require Import Prelude StateMonad Containers Serialise Hash Archive Paths StorePaths LocalDB StoreFiles ImportExport.

(** * State *)

Record VState := mkVState {
  v_ls : LocalStore;
  v_done : strset;
  v_validPaths : strset;
  v_errors : bool
}.

Definition set_done (f : strset → strset) (st : VState) : VState :=
  mkVState (v_ls st) (f (v_done st)) (v_validPaths st) (v_errors st).
Definition set_validPaths (f : strset → strset) (st : VState) : VState :=
  mkVState (v_ls st) (v_done st) (f (v_validPaths st)) (v_errors st).
Definition set_errors (st : VState) : VState := mkVState (v_ls st) (v_done st) (v_validPaths st) true.
Definition set_store (ls : LocalStore) (st : VState) : VState :=
  mkVState ls (v_done st) (v_validPaths st) (v_errors st).

Abbreviation VM := (SM VState).

(** An operation on the database that may throw. *)
Definition on_store (f : LocalStore → outcome LocalStore) : VM () := λ st,
  match f (v_ls st) with
  | Ret ls => (Ret (), set_store ls st)
  | Throw e => (Throw e, st)
  | OutOfFuel => (OutOfFuel, st)
  end.

(** * Operations *)

Section verify.
Context {gc : Gcrypt} (nixStore : bytes) (fs : filesystem) (repairPath : bytes → VM ()) (repair : bool).

(** [store] are the names in the store directory; the recursion is over paths that
    are not [done]. *)
Fixpoint verifyPath (fuel : nat) (store : strset) (path : bytes) : VM () :=
  match fuel with
  | 0 => lift OutOfFuel
  | S fuel =>
      seen ← gets (λ st, Ret (v_done st));
      if set_mem path seen then mret ()
      else
        modify (set_done (set_insert path));;
        if negb (isStorePath nixStore path) then on_store (invalidatePath path)
        else
          name ← lift (baseNameOf path);
          if set_mem name store then modify (set_validPaths (set_insert path))
          else
            referrers ← gets (λ st, db_queryReferrers nixStore path (ls_db (v_ls st)));
            canInvalidate ← iterM (λ (canInvalidate : bool) i,
              if decide (i = path) then mret canInvalidate
              else
                verifyPath fuel store i;;
                valid ← gets (λ st, Ret (v_validPaths st));
                mret (canInvalidate && negb (set_mem i valid))) referrers true;
            if canInvalidate : bool then on_store (invalidatePath path)
            else if repair then catch is_Error (repairPath path) (λ _, modify set_errors)
            else modify set_errors
  end.

(** The body of the second loop of [verifyStore]. *)
Definition check_contents (nullHash : Hash) (path : bytes) : VM () :=
  catch is_Error
    (info ← gets (λ st, queryPathInfo nixStore path (ls_db (v_ls st)));
     '(current, narSize) ← lift (hashPath (hash_type (vp_hash info)) path fs);
     if negb (Hash_eqb (vp_hash info) nullHash) && negb (Hash_eqb (vp_hash info) current) then
       if repair then repairPath path else modify set_errors
     else
       let fix_hash := Hash_eqb (vp_hash info) nullHash in
       let fix_size := bool_decide (vp_narSize info = 0%Z) in
       let info := mkValidPathInfo (vp_path info) (vp_deriver info)
         (if fix_hash then current else vp_hash info) (vp_references info) (vp_registrationTime info)
         (if fix_size then narSize else vp_narSize info) (vp_id info) in
       when (fix_hash || fix_size)
         (on_store (λ ls, db ← updatePathInfo info (ls_db ls); Ret (mkLocalStore db (ls_drvHashes ls)))))
    (λ _, modify set_errors).

(** [readDirectory(settings.nixStore)] *)
Definition store_names : outcome (list bytes) :=
  match fs !! nixStore with
  | Some IDir => Ret (children nixStore fs)
  | Some _ => Throw (SysError ENOTDIR "opening directory")
  | None => Throw (SysError ENOENT "opening directory")
  end.

Definition verify_fuel (db : Database) : nat := S (S (size (db_ValidPaths db))).

Definition verifyStore (checkContents : bool) : VM bool :=
  names ← lift store_names;
  paths ← gets (λ st, Ret (queryAllValidPaths (ls_db (v_ls st))));
  fuel ← gets (λ st, Ret (verify_fuel (ls_db (v_ls st))));
  iter (verifyPath fuel (set_of_list names)) paths;;
  when checkContents
    (nullHash ← lift (Hash_new htSHA256);
     valid ← gets (λ st, Ret (v_validPaths st));
     iter (check_contents nullHash) valid);;
  gets (λ st, Ret (v_errors st)).

(** The cache [pathContentsGoodCache] is the state. *)
Definition pathContentsGood (db : Database) (path : bytes) : SM (list (bytes * bool)) bool := λ cache,
  match map_find path cache with
  | Some res => (Ret res, cache)
  | None =>
      (info ← lift (queryPathInfo nixStore path db);
       res ← match fs !! path with
             | None => mret false
             | Some _ =>
                 '(current, _) ← lift (hashPath (hash_type (vp_hash info)) path fs);
                 nullHash ← lift (Hash_new htSHA256);
                 mret (Hash_eqb (vp_hash info) nullHash || Hash_eqb (vp_hash info) current)
             end;
       modify (map_insert path res);;
       mret res) cache
  end.

Definition markContentsGood (path : bytes) : SM (list (bytes * bool)) () := modify (map_insert path true).
End verify.

(** The variables of a call. *)
Definition verify_start (ls : LocalStore) : VState := mkVState ls [] [] false.

(** * Paths that disappear *)

(** [invalidatePath] returns only when nothing else refers to the path. *)
Lemma stmtInvalidatePath_Ret path db db' : db_ok db → stmtInvalidatePath path db = Ret db' →
  ∀ q, refers db q path → q = path.
Proof.
  intros Hok E q (i & j & Hi & Hj & Hr). unfold stmtInvalidatePath in E.
  destruct (find_row db path) as [[id r]|] eqn:Ef; [|apply find_row_None in Ef; by destruct Ef; exists j].
  apply find_row_Some in Ef as [Er Ep]. assert (has_path db id path) as Hid by (by exists r).
  pose proof (has_path_unique _ _ _ _ Hok Hid Hj) as <-. case_decide as Hd; [done|].
  destruct (decide (i = id)) as [->|Hne]; [by eapply has_path_fun|].
  destruct Hd. exists (i, id). split; [|done]. apply elem_of_filter. split; [congruence|done].
Qed.

Lemma invalidatePath_Ret path ls ls' : db_ok (ls_db ls) → nul_free path → invalidatePath path ls = Ret ls' →
  db_ok (ls_db ls') ∧ (∀ q, valid (ls_db ls') q ↔ valid (ls_db ls) q ∧ q ≠ path) ∧
  (∀ a b, refers (ls_db ls') a b → refers (ls_db ls) a b) ∧
  (∀ id r, db_ValidPaths (ls_db ls') !! id = Some r → db_ValidPaths (ls_db ls) !! id = Some r).
Proof.
  intros Hok Hn. unfold invalidatePath. rewrite c_str_id by done. intros (db & E & [= <-])%bind_Ret_inv. cbn [ls_db].
  destruct (stmtInvalidatePath_spec path (ls_db ls) Hok (stmtInvalidatePath_Ret _ _ _ Hok E)) as (db' & E' & Hok' & Hp & Hr).
  rewrite E in E'. injection E' as <-. split_and!; [done| |by intros a b [? _]%Hr|].
  - intros q. unfold valid. setoid_rewrite Hp. naive_solver.
  - intros id r. unfold stmtInvalidatePath in E. destruct (find_row (ls_db ls) path) as [[id0 r0]|]; [|by injection E as <-].
    case_decide; [done|]. injection E as <-. cbn. by intros [_ ?]%lookup_delete_Some.
Qed.

Section verification.
Context {gc : Gcrypt} (nixStore : bytes) (fs : filesystem) (repairPath : bytes → VM ()).
Local Abbreviation verify_path := (verifyPath nixStore repairPath false).

(** In the directory of the store, whose entries are [store]. *)
Definition present (store : strset) (path : bytes) : Prop :=
  isStorePath nixStore path = true ∧ ∃ name, baseNameOf path = Ret name ∧ name ∈ store.

(** What has happened to the database since it was [db]: only paths that are not
    present have become invalid. *)
Record pruned (store : strset) (db : Database) (st : VState) : Prop := {
  pr_ok : db_ok (ls_db (v_ls st));
  pr_rows id r : db_ValidPaths (ls_db (v_ls st)) !! id = Some r → db_ValidPaths db !! id = Some r;
  pr_present p : valid db p → present store p → valid (ls_db (v_ls st)) p
}.

(** Finished paths are accounted for; those of [stack] are under way. *)
Definition accounted (store : strset) (stack : list bytes) (st : VState) : Prop :=
  (∀ p, p ∈ v_done st → p ∉ stack →
     v_errors st = true ∨ ¬ valid (ls_db (v_ls st)) p ∨ p ∈ v_validPaths st) ∧
  (∀ p, p ∈ v_validPaths st → present store p ∧ nul_free p).

Section paths.
Context (store : strset) (db : Database) (Hnames : ∀ p, valid db p → nul_free p).

Lemma pruned_valid st p : pruned store db st → valid (ls_db (v_ls st)) p → valid db p.
Proof. intros Hp (id & r & Hr & <-). exists id, r. split; [|done]. by apply (pr_rows _ _ _ Hp). Qed.

Definition good (stack D : list bytes) (st : VState) : Prop :=
  pruned store db st ∧ accounted store stack st ∧ D ⊆ v_done st.

(** The path at hand is invalidated. *)
Lemma hoare_invalidate path stack D :
  nul_free path → ¬ present store path →
  hoare (λ st, good (path :: stack) D st) (on_store (invalidatePath path)) (λ _, good stack D) (pruned store db).
Proof.
  intros Hn Hnp st (Hpr & [Hacc Hvp] & HD). unfold on_store.
  destruct (invalidatePath path (v_ls st)) as [ls|e|] eqn:E; [|done..].
  destruct (invalidatePath_Ret path _ _ (pr_ok _ _ _ Hpr) Hn E) as (Hok & Hv & _ & Hrows).
  split_and!; [split|split|done]; cbn.
  - done.
  - intros id r Hr. by apply (pr_rows _ _ _ Hpr), Hrows.
  - intros p Hp Hpres. apply Hv. split; [by apply (pr_present _ _ _ Hpr)|]. by intros ->.
  - intros p Hd Hs. destruct (decide (p = path)) as [->|Hne].
    + right; left. by intros [_ ?]%Hv.
    + destruct (Hacc p Hd) as [?|[Hnv|?]]; [set_solver|by left| |by right; right].
      right; left. by intros [? _]%Hv.
  - done.
Qed.

Lemma hoare_errors path stack D : hoare (good (path :: stack) D) (modify set_errors) (λ _, good stack D) (pruned store db).
Proof.
  intros st (Hpr & [Hacc Hvp] & HD). split_and!; [by destruct Hpr|split|done]; cbn; [by left|done].
Qed.

Lemma verifyPath_spec fuel path stack D : nul_free path →
  hoare (good stack D) (verify_path fuel store path) (λ _ st, good stack D st ∧ path ∈ v_done st) (pruned store db).
Proof.
  revert path stack D. induction fuel as [|fuel IH]; intros path stack D Hn; cbn [verifyPath].
  { by intros st []. }
  assert (∀ Q : VM (), hoare (good (path :: stack) (path :: D)) Q (λ _, good stack (path :: D)) (pruned store db) →
    hoare (good (path :: stack) (path :: D)) Q (λ _ st, good stack D st ∧ path ∈ v_done st) (pruned store db)) as Hpost.
  { intros Q HQ. eapply hoare_conseq; [exact HQ|done| |done]. intros [] st (Hpr & Hacc & HD). split_and!; [|set_solver].
    split_and!; [done|done|set_solver]. }
  eapply hoare_bind; [apply hoare_asks|]. intros seen. cbn beta. destruct (set_mem path seen) eqn:Hseen.
  { apply set_mem_spec in Hseen. apply hoare_ret. intros st [-> Hg]. done. }
  apply set_mem_false in Hseen. eapply (hoare_bind _ _ (λ _, good (path :: stack) (path :: D))).
  { apply hoare_modify. intros st [-> (Hpr & [Hacc Hvp] & HD)]. split_and!; [by destruct Hpr|split|]; cbn.
    - intros p [->|Hp]%elem_of_set_insert Hs; [set_solver|]. apply Hacc; set_solver.
    - done.
    - intros p Hp. apply elem_of_set_insert. set_solver. }
  intros []. destruct (isStorePath nixStore path) eqn:Hstore; cbn [negb].
  2: { apply Hpost, hoare_invalidate; [done|]. intros [? _]. congruence. }
  eapply (hoare_bind _ _ (λ name st, baseNameOf path = Ret name ∧ good (path :: stack) (path :: D) st)).
  { apply hoare_lift; [by intros st []|]. by intros name st Hb Hg. }
  intros name. apply hoare_pre. intros Hname. destruct (set_mem name store) eqn:Hin.
  { apply set_mem_spec in Hin. apply Hpost, hoare_modify. intros st (Hpr & [Hacc Hvp] & HD).
    split_and!; [by destruct Hpr|split|done]; cbn.
    - intros p Hd Hs. rewrite elem_of_set_insert. destruct (decide (p = path)) as [->|Hne]; [by right; right; left|].
      destruct (Hacc p Hd) as [?|[?|?]]; [set_solver|by left|by right; left|by right; right; right].
    - intros p [->|?]%elem_of_set_insert; [|by apply Hvp]. split; [|done]. split; [done|]. by exists name. }
  apply set_mem_false in Hin. assert (¬ present store path) as Hnp.
  { intros [_ (name' & E & ?)]. rewrite Hname in E. injection E as <-. done. }
  eapply (hoare_bind _ _ (λ referrers st, (∀ i, i ∈ referrers → nul_free i) ∧ good (path :: stack) (path :: D) st)).
  { apply hoare_gets; [by intros st []|]. intros referrers st Hg E. split; [|done]. intros i Hi.
    unfold db_queryReferrers in E. apply bind_Ret_inv in E as ([] & _ & [= <-]). destruct Hg as (Hpr & _ & _).
    apply queryReferrers_spec in Hi as (j & ? & Hj & _); [|by apply (pr_ok _ _ _ Hpr)]. apply Hnames.
    eapply pruned_valid; [done|]. by exists j. }
  intros referrers. apply hoare_pre. intros Href.
  eapply (hoare_bind _ _ (λ _, good (path :: stack) (path :: D))).
  { apply (hoare_iterM (λ _, good (path :: stack) (path :: D))). intros i can Hi. destruct (decide _); [by apply hoare_ret|].
    eapply (hoare_bind _ _ (λ _, good (path :: stack) (path :: D))).
    { eapply hoare_conseq; [by apply IH, Href|done|by intros [] st [Hg _]|done]. }
    intros []. eapply hoare_bind; [apply hoare_asks|]. intros valid. apply hoare_ret. by intros st [_ ?]. }
  intros can. apply Hpost. destruct can; [by apply hoare_invalidate|apply hoare_errors].
Qed.
End paths.
End verification.

(** * Hashes *)

Section hashes.
Context {gc : Gcrypt} {glaws : GcryptLaws}.

Lemma parseHash_loop_keeps n s i l l' : parseHash_loop n s i l = Ret l' →
  length l' = length l ∧ drop (i + n) l' = drop (i + n) l.
Proof.
  revert i l. induction n as [|n IH]; intros i l; cbn [parseHash_loop]; [by intros [= <-]|].
  destruct (s !! (i * 2)), (s !! (i * 2 + 1)); try done. repeat case_match; try done.
  intros (l1 & E & [H1 H2]%IH)%bind_Ret_inv. unfold hash_set in E. case_decide; [|done]. injection E as <-.
  rewrite length_insert in H1. split; [done|]. replace (i + S n) with (S i + n) by lia. rewrite H2. apply drop_insert_lt. lia.
Qed.

Lemma parseHash_type ht s h : ht ≠ htUnknown → parseHash ht s = Ret h → hash_of_type ht h.
Proof.
  intros Hht. unfold parseHash. rewrite Hash_new_ok by done. cbn [mbind outcome_bind hashSize hash].
  intros ([] & _ & E)%bind_Ret_inv. apply bind_Ret_inv in E as (l & [Hl Hd]%parseHash_loop_keeps & [= <-]).
  pose proof (dlen_known ht Hht). split_and!; [|done|done|done]. unfold hash_wf. cbn [hash hashSize]. unfold zero_array in *.
  rewrite length_replicate in Hl. rewrite Nat.add_0_l in Hd.
  split_and!; [done|lia|unfold maxHashSize; lia|]. by rewrite Hd, drop_replicate.
Qed.

Lemma parseHashField_type s h : parseHashField s = Ret h → hash_of_type (hash_type h) h.
Proof.
  unfold parseHashField. destruct (find_char _ s) as [colon|]; [|done]. cbv zeta. case_decide as Hu; [done|].
  intros E%parseHash_type; [|done]. pose proof E as (_ & Ety & _). by rewrite Ety.
Qed.

Lemma hashPath_type ht p fs h n : ht ≠ htUnknown → hashPath ht p fs = Ret (h, n) → hash_of_type ht h.
Proof.
  intros Hht Eh. unfold hashPath in Eh. apply bind_Ret_inv in Eh as (chunks & _ & Eh). unfold hashsink_run in Eh.
  apply bind_Ret_inv in Eh as (hs & _ & Eh). unfold hashsink_finish in Eh. rewrite Hash_new_ok in Eh by done.
  injection Eh as <- _. destruct (hashsink_ctx_data ht (writes (sink_flush hs))) as (data & ->).
  destruct (md_finish_spec ht _ data Hht (Hash_new_ok ht Hht)) as (? & ? & ? & _). by split_and!.
Qed.

Lemma Hash_eqb_refl h : Hash_eqb h h = true.
Proof. by apply Hash_eqb_spec. Qed.
End hashes.

Section contents.
Context {gc : Gcrypt} {glaws : GcryptLaws} (nixStore : bytes) (fs : filesystem) (repairPath : bytes → VM ()).

(** The database records SHA-256 hashes, as [registerValidPaths] demands. *)
Definition sha_rows (db : Database) : Prop := ∀ id r h,
  db_ValidPaths db !! id = Some r → parseHashField (row_hash r) = Ret h → hash_type h = htSHA256.

(** The row of a path has the hash of its contents. *)
Definition row_matches (r : PathRow) : Prop := ∃ h current n,
  parseHashField (row_hash r) = Ret h ∧ hashPath (hash_type h) (row_path r) fs = Ret (current, n) ∧
  Hash_eqb h current = true.

Definition matches (db : Database) (p : bytes) : Prop :=
  ∀ id r, db_ValidPaths db !! id = Some r → row_path r = p → row_matches r.

(** What the second loop has done, the paths [k] being checked. *)
Record checked (db : Database) (errors : bool) (k : list bytes) (st : VState) : Prop := {
  ch_ok : db_ok (ls_db (v_ls st));
  ch_graph : same_graph db (ls_db (v_ls st));
  ch_sha : sha_rows (ls_db (v_ls st));
  ch_errors : errors = true → v_errors st = true;
  ch_matches : v_errors st = true ∨ ∀ p, p ∈ k → matches (ls_db (v_ls st)) p
}.

Lemma checked_errors db e k k' st : checked db e k st → checked db e k' (set_errors st).
Proof. intros []. split; cbn; [done|done|done|done|by left]. Qed.

Lemma update_rows n h p db id r : db_ok db → find_row db p = Some (id, r) →
  db_ValidPaths (stmtUpdatePathInfo n h p db) =
    <[id := mkPathRow (row_path r) h (row_registrationTime r) (row_deriver r) n]> (db_ValidPaths db).
Proof. intros Hok E. unfold stmtUpdatePathInfo. by rewrite E. Qed.

(** A row that is rewritten with the same hash, or a better one. *)
Lemma checked_update db e k path st id r h size field current n :
  checked db e k st → find_row (ls_db (v_ls st)) path = Some (id, r) →
  hash_of_type htSHA256 h → hash_field h = Ret field →
  hashPath htSHA256 path fs = Ret (current, n) → Hash_eqb h current = true →
  checked db e (k ++ [path]) (set_store
    (mkLocalStore (stmtUpdatePathInfo size (c_str field) path (ls_db (v_ls st))) (ls_drvHashes (v_ls st))) st).
Proof.
  intros [Hok Hg Hsha He Hm] Hr Hh Hfield Hcur Heq. destruct (stmtUpdatePathInfo_spec size (c_str field) path _ Hok) as [Hok' Hg'].
  destruct (hash_field_ok h Hh) as (field' & E & Hparse). rewrite Hfield in E. injection E as <-.
  pose proof (find_row_Some _ _ _ _ Hr) as [Hid Hpath].
  assert (∀ id' r', db_ValidPaths (stmtUpdatePathInfo size (c_str field) path (ls_db (v_ls st))) !! id' = Some r' →
    (row_path r' = path ∧ row_hash r' = c_str field) ∨
    (db_ValidPaths (ls_db (v_ls st)) !! id' = Some r' ∧ row_path r' ≠ path)) as Hrows.
  { intros id' r'. erewrite update_rows by done. intros [[<- <-]|[Hne Hr']]%lookup_insert_Some; [by left|right].
    split; [done|]. intros Hp. apply Hne. eapply (ok_unique _ Hok); [done|done|congruence]. }
  split; cbn.
  - done.
  - by etrans.
  - intros id' r' h' [[_ ->]|[? _]]%Hrows; [|by eapply Hsha]. rewrite Hparse. intros [= <-]. by destruct Hh as (_ & ? & _).
  - done.
  - destruct Hm as [?|Hm]; [by left|right]. intros p Hp id' r' Hr' Hp'. destruct (Hrows id' r' Hr') as [[Hpp Hhh]|[Ho Hne]].
    + exists h, current, n. rewrite Hhh, Hpp. destruct Hh as (_ & -> & _). by split_and!.
    + eapply (Hm p); [|done|done]. apply elem_of_app in Hp as [?|?%list_elem_of_singleton]; [done|congruence].
Qed.

Lemma checked_next db e k path st id r h current n :
  checked db e k st → find_row (ls_db (v_ls st)) path = Some (id, r) → parseHashField (row_hash r) = Ret h →
  hashPath (hash_type h) path fs = Ret (current, n) → Hash_eqb h current = true → checked db e (k ++ [path]) st.
Proof.
  intros [Hok Hg Hsha He Hm] Hr Hparse Hcur Heq. pose proof (find_row_Some _ _ _ _ Hr) as [Hid Hpath]. split; try done.
  destruct Hm as [?|Hm]; [by left|right]. intros p [Hp|Hp%list_elem_of_singleton]%elem_of_app; [by apply Hm|].
  intros id' r' Hr' Hp'. assert (id' = id) as -> by (eapply (ok_unique _ Hok); [done|done|congruence]).
  assert (r' = r) as -> by congruence. exists h, current, n. by rewrite Hpath.
Qed.

Definition kept (db : Database) (st : VState) : Prop := db_ok (ls_db (v_ls st)) ∧ same_graph db (ls_db (v_ls st)).

Lemma checked_kept db e k st : checked db e k st → kept db st.
Proof. by intros []. Qed.

Lemma queryPathInfo_row path db info : nul_free path → queryPathInfo nixStore path db = Ret info →
  ∃ id r, find_row db path = Some (id, r) ∧ parseHashField (row_hash r) = Ret (vp_hash info) ∧ vp_path info = path.
Proof.
  intros Hn. unfold queryPathInfo. rewrite c_str_id by done. intros ([] & _ & E)%bind_Ret_inv.
  destruct (find_row db path) as [[id r]|]; [|done]. apply bind_Ret_inv in E as (h & Eh & [= <-]). by exists id, r.
Qed.

Lemma check_contents_spec db e k nullHash path : nul_free path →
  hoare (checked db e k) (check_contents nixStore fs repairPath false nullHash path) (λ _, checked db e (k ++ [path])) (kept db).
Proof.
  intros Hn. unfold check_contents. apply (hoare_catch _ _ _ _ _ _ (checked db e k)).
  2: { intros x. apply hoare_modify. intros st. apply checked_errors. }
  2: { intros st. apply checked_kept. }
  intros st Hst. unfold mbind at 1, SM_bind at 1, gets.
  destruct (queryPathInfo nixStore path (ls_db (v_ls st))) as [info|x|] eqn:Ei; [|done..].
  destruct (queryPathInfo_row _ _ _ Hn Ei) as (id & r & Hr & Hparse & Hpath).
  pose proof (find_row_Some _ _ _ _ Hr) as [Hid _]. pose proof (ch_sha _ _ _ _ Hst id r _ Hid Hparse) as Hsha.
  pose proof (parseHashField_type _ _ Hparse) as Hty. rewrite Hsha in Hty. rewrite Hsha.
  unfold mbind at 1, SM_bind at 1, lift. destruct (hashPath htSHA256 path fs) as [[current n]|x|] eqn:Eh; [|done..].
  pose proof (hashPath_type htSHA256 path fs current n ltac:(done) Eh) as Hcty.
  destruct (Hash_eqb (vp_hash info) nullHash) eqn:Enull; cbn [negb andb orb].
  - unfold when, on_store, updatePathInfo. cbn [vp_hash vp_path vp_narSize].
    destruct (hash_field current) as [field|x|] eqn:Ef; [|done..]. cbn [mbind outcome_bind]. rewrite Hpath, (c_str_id path) by done.
    by eapply checked_update; [..|apply Hash_eqb_refl].
  - destruct (Hash_eqb (vp_hash info) current) eqn:Ecur; cbn [negb]; [|by apply (checked_errors db e k)].
    unfold when. destruct (bool_decide (vp_narSize info = 0%Z)).
    + unfold on_store, updatePathInfo. cbn [vp_hash vp_path vp_narSize].
      destruct (hash_field (vp_hash info)) as [field|x|] eqn:Ef; [|done..]. cbn [mbind outcome_bind]. rewrite Hpath, (c_str_id path) by done.
      eapply checked_update; [done|done|exact Hty|done|exact Eh|done].
    + eapply checked_next; [done|done|done|rewrite Hsha; exact Eh|done].
Qed.

Lemma check_all_spec db e nullHash l : Forall nul_free l →
  hoare (checked db e []) (iter (check_contents nixStore fs repairPath false nullHash) l) (λ _, checked db e l) (kept db).
Proof.
  intros Hl. apply (hoare_iter_prefix (checked db e)). intros k x k' ->. apply check_contents_spec.
  rewrite Forall_app, Forall_cons in Hl. naive_solver.
Qed.

(** * The whole *)

Definition names_ok (db : Database) : Prop := ∀ p, valid db p → nul_free p.

Lemma all_valid db p : p ∈ queryAllValidPaths db ↔ valid db p.
Proof.
  unfold queryAllValidPaths, stmtQueryValidPaths. rewrite elem_of_set_of_list, list_elem_of_fmap. split.
  - intros ([id r] & -> & Hr%elem_of_map_to_list). by exists id, r.
  - intros (id & r & Hr & <-). exists (id, r). split; [done|]. by apply elem_of_map_to_list.
Qed.

Lemma sha_pruned store db st : sha_rows db → pruned nixStore store db st → sha_rows (ls_db (v_ls st)).
Proof. intros Hs Hp id r h Hr. apply (Hs id). by apply (pr_rows _ _ _ _ Hp). Qed.

(** The state after the call, however it ends, and the result if it returns. *)
Definition outcome_ok (names : strset) (checkContents : bool) (db : Database) (errors : bool) (st : VState) : Prop :=
  (∀ p, valid (ls_db (v_ls st)) p → valid db p) ∧
  (errors = true ∨ ∀ id r, db_ValidPaths (ls_db (v_ls st)) !! id = Some r →
     present nixStore names (row_path r) ∧ (checkContents = true → row_matches r)).

Definition harmless (names : strset) (db : Database) (st : VState) : Prop :=
  db_ok (ls_db (v_ls st)) ∧
  (∀ p, valid (ls_db (v_ls st)) p → valid db p) ∧
  (∀ p, valid db p → present nixStore names p → valid (ls_db (v_ls st)) p).

Lemma pruned_harmless names db st : pruned nixStore names db st → harmless names db st.
Proof. intros Hp. split_and!; [apply Hp|intros p; by eapply pruned_valid|apply Hp]. Qed.

Lemma kept_harmless names db st1 st : pruned nixStore names db st1 → kept (ls_db (v_ls st1)) st → harmless names db st.
Proof.
  intros Hp [Hok Hg]. split_and!; [done| |].
  - intros p. rewrite (same_graph_valid _ _ p Hg). by eapply pruned_valid.
  - intros p Hv Hpr. rewrite (same_graph_valid _ _ p Hg). by apply (pr_present _ _ _ _ Hp).
Qed.

Lemma first_loop_spec names db fuel : names_ok db →
  hoare (good nixStore names db [] []) (iter (verifyPath nixStore repairPath false fuel names) (queryAllValidPaths db))
    (λ _, good nixStore names db [] (queryAllValidPaths db)) (pruned nixStore names db).
Proof.
  intros Hn. apply (hoare_iter_prefix (λ k, good nixStore names db [] k)). intros k x k' E.
  eapply hoare_conseq; [apply verifyPath_spec; [done|]|done| |done].
  - apply Hn, all_valid. rewrite E. set_solver.
  - intros [] st [(? & ? & ?) ?]. split_and!; [done|done|set_solver].
Qed.

(** After the first loop, without an error, the valid paths are the ones found. *)
Lemma first_loop_found names db st : good nixStore names db [] (queryAllValidPaths db) st →
  v_errors st = true ∨ ∀ p, valid (ls_db (v_ls st)) p → p ∈ v_validPaths st.
Proof.
  intros (Hpr & [Hacc _] & HD). destruct (v_errors st) eqn:He; [by left|right]. intros p Hv.
  destruct (Hacc p) as [?|[?|?]]; [|set_solver|done|done|done].
  apply HD, all_valid. by eapply pruned_valid.
Qed.

Lemma verifyStore_spec names ls checkContents :
  db_ok (ls_db ls) → names_ok (ls_db ls) → sha_rows (ls_db ls) → store_names nixStore fs = Ret names →
  hoare (λ st, st = verify_start ls) (verifyStore nixStore fs repairPath false checkContents)
    (λ errors st, harmless (set_of_list names) (ls_db ls) st ∧ outcome_ok (set_of_list names) checkContents (ls_db ls) errors st)
    (harmless (set_of_list names) (ls_db ls)).
Proof.
  intros Hok Hn Hsha Hnames. set (ns := set_of_list names). set (db := ls_db ls). unfold verifyStore. rewrite Hnames.
  assert (pruned nixStore ns db (verify_start ls)) as Hstart by (split; cbn; by auto).
  eapply (hoare_bind _ _ (λ l st, l = names ∧ st = verify_start ls)).
  { apply hoare_lift; [intros st ->; by apply pruned_harmless|]. intros l st [= <-]. done. }
  intros l. apply hoare_pre. intros ->. eapply (hoare_bind _ _ (λ l st, l = queryAllValidPaths db ∧ st = verify_start ls)).
  { by intros st ->. }
  intros l. apply hoare_pre. intros ->. eapply (hoare_bind _ _ (λ _ st, st = verify_start ls)); [by intros st ->|]. intros fuel.
  eapply (hoare_bind _ _ (λ _, good nixStore ns db [] (queryAllValidPaths db))).
  { eapply hoare_conseq; [by apply first_loop_spec|intros st ->; split_and!; [done|split; intros p Hp; by apply not_elem_of_nil in Hp|done]|done|].
    intros st. apply pruned_harmless. }
  intros []. intros st1 Hg. pose proof Hg as (Hpr & [_ Hvp] & _). pose proof (first_loop_found ns db st1 Hg) as Hfound.
  unfold mbind, SM_bind, gets. destruct checkContents; cbn [when].
  - unfold mbind, SM_bind, lift. rewrite Hash_new_ok by done.
    pose proof (check_all_spec (ls_db (v_ls st1)) (v_errors st1) (mkHash (gcry_md_get_algo_dlen htSHA256) zero_array htSHA256) (v_validPaths st1)) as Hall.
    specialize (Hall ltac:(apply Forall_forall; intros p Hp; by apply Hvp) st1). cbn [gets].
    destruct (iter _ (v_validPaths st1) st1) as [[[]|e|] st2]; [|(eapply kept_harmless; [done|])..].
    + destruct Hall as [Hok2 Hgr Hsha2 He Hm]. { split; [apply Hpr|done|by eapply sha_pruned|done|right; set_solver]. }
      split; [by eapply kept_harmless|]. split.
      * intros p. rewrite (same_graph_valid _ _ p Hgr). by eapply pruned_valid.
      * destruct (v_errors st2) eqn:E2; [by left|right]. destruct Hm as [?|Hm]; [done|].
        destruct Hfound as [?%He|Hfound]; [done|]. intros id r Hr.
        assert (valid (ls_db (v_ls st1)) (row_path r)) as Hv by (apply (same_graph_valid _ _ _ Hgr); by exists id, r).
        split; [by apply Hvp, Hfound|]. intros _. by eapply Hm; [apply Hfound|..].
    + apply Hall. split; [apply Hpr|done|by eapply sha_pruned|done|right; set_solver].
    + apply Hall. split; [apply Hpr|done|by eapply sha_pruned|done|right; set_solver].
  - split; [by apply pruned_harmless|]. split; [intros p; by eapply pruned_valid|].
    destruct Hfound as [?|Hfound]; [by left|right]. intros id r Hr. split; [|done]. apply Hvp, Hfound. by exists id, r.
Qed.

(** ** An intact store *)

(** Every valid path is there, with the contents that its hash says. *)
Definition intact (names : strset) (db : Database) : Prop := ∀ id r, db_ValidPaths db !! id = Some r →
  present nixStore names (row_path r) ∧ row_matches r.

Lemma verifyPath_present names fuel p st : present nixStore names p →
  ∃ st', verifyPath nixStore repairPath false (S fuel) names p st = (Ret (), st') ∧
    v_ls st' = v_ls st ∧ v_errors st' = v_errors st ∧
    ∀ q, q ∈ v_validPaths st' → q ∈ v_validPaths st ∨ q = p.
Proof.
  intros [Hs (name & Hname & Hin)]. cbn [verifyPath]. unfold mbind, SM_bind, gets, modify, lift.
  destruct (set_mem p (v_done st)); [exists st; by eauto|]. rewrite Hs, Hname. cbn [negb]. rewrite (proj2 (set_mem_spec _ _) Hin).
  eexists. split_and!; [done|done|done|]. cbn. intros q [->|?]%elem_of_set_insert; auto.
Qed.

Lemma first_loop_intact names fuel l st : Forall (present nixStore names) l →
  ∃ st', iter (verifyPath nixStore repairPath false (S fuel) names) l st = (Ret (), st') ∧
    v_ls st' = v_ls st ∧ v_errors st' = v_errors st ∧
    ∀ q, q ∈ v_validPaths st' → q ∈ v_validPaths st ∨ q ∈ l.
Proof.
  intros Hl. revert st. induction Hl as [|p l Hp Hl IH]; intros st; [exists st; by eauto|]. cbn [iter].
  destruct (verifyPath_present names fuel p st Hp) as (st1 & E1 & H1 & H2 & H3).
  destruct (IH st1) as (st2 & E2 & H4 & H5 & H6). exists st2. unfold mbind, SM_bind. rewrite E1. cbn beta iota.
  split_and!; [done|congruence|congruence|]. intros q [[?| ->]%H3|?]%H6; [by left|right; by left|right; by right].
Qed.

Lemma check_contents_intact db nullHash path st :
  isStorePath nixStore path = true → nul_free path → valid db path → v_errors st = false →
  checked db false (queryAllValidPaths db) st →
  ∃ st', check_contents nixStore fs repairPath false nullHash path st = (Ret (), st') ∧ v_errors st' = false ∧
    checked db false (queryAllValidPaths db) st'.
Proof.
  intros Hs Hn Hv He Hst. pose proof Hst as [Hok Hg Hsha _ Hm]. destruct Hm as [?|Hm]; [congruence|].
  destruct (find_row_has (ls_db (v_ls st)) path) as (id & r & Hr & _).
  { by apply (same_graph_valid _ _ path Hg). }
  pose proof (find_row_Some _ _ _ _ Hr) as [Hid Hpath].
  destruct (Hm path (proj2 (all_valid db path) Hv) id r Hid Hpath) as (h & current & n & Hparse & Hcur & Heq).
  pose proof (Hsha id r h Hid Hparse) as Hty. pose proof (parseHashField_type _ _ Hparse) as Hh. rewrite Hty in Hh, Hcur.
  rewrite Hpath in Hcur. pose proof (hashPath_type htSHA256 path fs current n ltac:(done) Hcur) as Hcty.
  assert (∀ h' size field, hash_of_type htSHA256 h' → hash_field h' = Ret field → Hash_eqb h' current = true →
    checked db false (queryAllValidPaths db) (set_store
      (mkLocalStore (stmtUpdatePathInfo size (c_str field) path (ls_db (v_ls st))) (ls_drvHashes (v_ls st))) st)) as Hup.
  { intros h' size field Hh' Hf Hq. destruct (checked_update db false _ path st id r h' size field current n Hst Hr Hh' Hf Hcur Hq) as [? ? ? ? Hm'].
    split; try done. destruct Hm' as [?|Hm']; [by left|right]. intros p Hp. apply Hm'. set_solver. }
  unfold check_contents, catch, mbind, SM_bind, gets, lift, queryPathInfo, assertStorePath. rewrite Hs, c_str_id, Hr by done.
  cbn [check mbind outcome_bind]. rewrite Hparse. cbn [mbind outcome_bind vp_hash vp_narSize vp_path]. rewrite Hty, Hcur, Heq, andb_false_r.
  destruct (Hash_eqb h nullHash); cbn [orb when].
  - destruct (hash_field_ok current Hcty) as (field & Ef & _). unfold on_store, updatePathInfo. cbn [vp_hash vp_narSize vp_path].
    rewrite Ef. cbn [mbind outcome_bind]. rewrite (c_str_id path) by done. eexists. split_and!; [done|done|].
    by eapply Hup; [..|apply Hash_eqb_refl].
  - destruct (bool_decide _); cbn [when]; [|by eexists].
    destruct (hash_field_ok h Hh) as (field & Ef & _). unfold on_store, updatePathInfo. cbn [vp_hash vp_narSize vp_path].
    rewrite Ef. cbn [mbind outcome_bind]. rewrite (c_str_id path) by done. eexists. split_and!; [done|done|].
    by apply (Hup h).
Qed.

Lemma check_all_intact db nullHash l st :
  (∀ p, p ∈ l → isStorePath nixStore p = true ∧ nul_free p ∧ valid db p) → v_errors st = false →
  checked db false (queryAllValidPaths db) st →
  ∃ st', iter (check_contents nixStore fs repairPath false nullHash) l st = (Ret (), st') ∧ v_errors st' = false ∧
    checked db false (queryAllValidPaths db) st'.
Proof.
  revert st. induction l as [|p l IH]; intros st Hl He Hst; [exists st; done|]. cbn [iter].
  destruct (Hl p (list_elem_of_here _ _)) as (Hs & Hn & Hv).
  destruct (check_contents_intact db nullHash p st Hs Hn Hv He Hst) as (st1 & E1 & He1 & Hst1).
  destruct (IH st1) as (st2 & E2 & ? & ?); [intros q Hq; apply Hl; by right|done|done|].
  exists st2. unfold mbind, SM_bind. by rewrite E1.
Qed.

Lemma verifyStore_intact names ls checkContents :
  db_ok (ls_db ls) → names_ok (ls_db ls) → sha_rows (ls_db ls) → store_names nixStore fs = Ret names →
  intact (set_of_list names) (ls_db ls) →
  ∃ st', verifyStore nixStore fs repairPath false checkContents (verify_start ls) = (Ret false, st') ∧
    same_graph (ls_db ls) (ls_db (v_ls st')).
Proof.
  intros Hok Hn Hsha Hnames Hin. unfold verifyStore. rewrite Hnames. set (ns := set_of_list names).
  assert (∀ p, valid (ls_db ls) p → present nixStore ns p) as Hpres by (intros p (id & r & Hr & <-); by apply (Hin id)).
  destruct (first_loop_intact ns (S (size (db_ValidPaths (ls_db ls)))) (queryAllValidPaths (ls_db ls)) (verify_start ls))
    as (st1 & E1 & Hls & He & Hvp).
  { apply Forall_forall. intros p Hp%all_valid. by apply Hpres. }
  cbn in Hls, He. unfold mbind, SM_bind, gets, lift, verify_fuel. change (v_ls (verify_start ls)) with ls.
  unfold ns in E1. rewrite E1.
  destruct checkContents; cbn [when]; [|exists st1; by rewrite Hls, <-He].
  unfold mbind, SM_bind, lift. rewrite Hash_new_ok by done. cbn [gets].
  destruct (check_all_intact (ls_db ls) (mkHash (gcry_md_get_algo_dlen htSHA256) zero_array htSHA256) (v_validPaths st1) st1)
    as (st2 & E2 & He2 & Hst2).
  - intros p Hp. destruct (Hvp p Hp) as [?%not_elem_of_nil|Hv%all_valid]; [done|]. split_and!; [|by apply Hn|done].
    by apply Hpres.
  - done.
  - rewrite <-Hls. split; rewrite ?Hls; [done|done|done|done|right].
    intros p Hp id r Hr <-. by apply (Hin id).
  - exists st2. rewrite E2, He2. split; [done|]. apply Hst2.
Qed.
End contents.
