(* ===== verification/VerifyTheorems.v ===== *)
(** libstore/local-store.cc: what a verification of the store does, whole calls of
    [verifyStore] without repairs: they end, they only forget paths that are gone,
    and their result is right. *)

From S2P Require Import Prelude StateMonad Containers Serialise Hash Archive Paths StorePaths Derivations LocalDB StoreFiles StoreIntegrity ImportExport Verify.

(** * Ending *)

Section walks.

(** The walk goes to longer paths. *)
Lemma read_tree_terminates fuel p fs : 0 < fuel → fs_depth fs <= length p + fuel → terminates (read_tree fuel p fs).
Proof.
  revert p. induction fuel as [|fuel IH]; intros p H0 Hf; [lia|]. cbn [read_tree].
  destruct (fs !! p) as [[]|]; [done| |done|done]. apply bind_terminates; [|done].
  apply (foldM_terminates (λ _, True)); [done| |done]. intros es n (Hn & _ & _)%elem_of_children _.
  pose proof (fs_depth_lookup _ _ Hn) as Hd. rewrite !length_app in Hd. cbn in Hd.
  apply bind_terminates; [|done]. apply IH; rewrite ?length_app; cbn; lia.
Qed.

Lemma dump_entries_terminates filter path l :
  (∀ e, e ∈ l → terminates e.2) → terminates (dump_entries filter path l).
Proof.
  induction l as [|[n node] l IH]; intros Hl; [done|]. cbn [dump_entries].
  destruct (filter _); [|apply IH; set_solver]. apply bind_terminates; [apply (Hl (n, node)); by left|].
  intros. apply bind_terminates; [apply IH; set_solver|done].
Qed.

Lemma dump_terminates filter path t : terminates (dump filter path t).
Proof.
  revert path. induction t as [x c|es IH|tgt|] using fso_ind'; intros path; try done.
  rewrite dump_Directory. rewrite Forall_forall in IH. apply bind_terminates; [|done]. apply dump_entries_terminates.
  intros e He%elem_of_sort_entries. apply list_elem_of_fmap in He as (e' & -> & He). by apply IH.
Qed.

Lemma hashPath_terminates {gc : Gcrypt} ht p fs : terminates (hashPath ht p fs).
Proof.
  unfold hashPath, dump_path, dumpPath. apply bind_terminates; [apply bind_terminates|].
  - apply read_tree_terminates; unfold fs_depth; lia.
  - intros t _. apply bind_terminates; [apply dump_terminates|done].
  - intros chunks _. unfold hashsink_run, hashsink_finish.
    destruct (sink_calls_spec _ chunks (sink_new_inv defaultBufSize)) as (s & -> & _). cbn [mbind outcome_bind].
    apply bind_terminates; [|done]. unfold Hash_new. case_decide; [done|]. apply bind_terminates; [apply check_terminates|done].
Qed.
End walks.

Section ending.
Context {gc : Gcrypt} (nixStore : bytes) (fs : filesystem) (repairPath : bytes → VM ()).
Local Abbreviation verify_path := (verifyPath nixStore repairPath false).

Lemma finishes_on_store P f : (∀ ls, terminates (f ls)) → finishes P (on_store f).
Proof. intros Hf st _. specialize (Hf (v_ls st)). unfold on_store. by destruct (f (v_ls st)). Qed.

Lemma invalidatePath_terminates path ls : terminates (invalidatePath path ls).
Proof. unfold invalidatePath. apply bind_terminates; [|done]. unfold stmtInvalidatePath. by repeat case_match. Qed.

Lemma updatePathInfo_terminates info db : terminates (updatePathInfo info db).
Proof.
  unfold updatePathInfo, hash_field. apply bind_terminates; [|done].
  apply bind_terminates; [apply printHash_terminates|done].
Qed.

Section paths.
Context (store : strset) (db : Database) (Hnames : names_ok db).

(** Paths that remain to be looked at. *)
Definition todo (D : list bytes) : list bytes := filter (λ p, p ∉ D) (queryAllValidPaths db).

Lemma todo_cons path D : valid db path → path ∉ D → length (todo (path :: D)) < length (todo D).
Proof.
  intros Hv%all_valid HD. unfold todo. induction (queryAllValidPaths db) as [|p l IH]; [by apply not_elem_of_nil in Hv|].
  assert (length (filter (λ p, p ∉ path :: D) l) <= length (filter (λ p, p ∉ D) l)) as Hle.
  { clear. induction l as [|q l IH]; [done|]. rewrite !filter_cons. repeat case_decide; cbn; set_solver by lia. }
  rewrite !filter_cons. apply elem_of_cons in Hv as [<-|Hv].
  - rewrite decide_False by set_solver. rewrite decide_True by done. cbn. lia.
  - specialize (IH Hv). repeat case_decide; cbn; set_solver by lia.
Qed.

Lemma all_valid_length : length (queryAllValidPaths db) <= size (db_ValidPaths db).
Proof.
  rewrite <-length_map_to_list. unfold queryAllValidPaths, stmtQueryValidPaths.
  rewrite <-(length_fmap (λ e : Z * PathRow, row_path e.2) (map_to_list _)).
  apply submseteq_length, NoDup_submseteq; [apply set_wf_nodup, set_of_list_wf|]. intros p. by rewrite elem_of_set_of_list.
Qed.

(** The paths that are done bound the depth of the recursion. *)
Lemma verifyPath_finishes fuel path stack D :
  valid db path → length (todo D) < fuel → finishes (good nixStore store db stack D) (verify_path fuel store path).
Proof.
  revert path stack D. induction fuel as [|fuel IH]; intros path stack D Hv Hf; [lia|]. cbn [verifyPath].
  eapply finishes_bind; [by apply finishes_gets|apply hoare_asks|]. intros seen. cbn beta.
  destruct (set_mem path seen) eqn:Hseen; [apply finishes_ret|]. apply set_mem_false in Hseen.
  eapply (finishes_bind _ _ (λ _ st, path ∉ D ∧ good nixStore store db (path :: stack) (path :: D) st)); [apply finishes_modify| |].
  { apply hoare_modify. intros st [-> (Hpr & [Hacc Hvp] & HD)]. split; [set_solver|].
    split_and!; [by destruct Hpr|split|]; cbn; [|done|].
    - intros p [->|Hp]%elem_of_set_insert Hs; [set_solver|]. apply Hacc; set_solver.
    - intros p Hp. apply elem_of_set_insert. set_solver. }
  intros []. intros st [HD Hg]. revert st Hg. change (finishes (good nixStore store db (path :: stack) (path :: D))
    (if negb (isStorePath nixStore path) then on_store (invalidatePath path) else
     name ← lift (baseNameOf path);
     if set_mem name store then modify (set_validPaths (set_insert path)) else
     referrers ← gets (λ st, db_queryReferrers nixStore path (ls_db (v_ls st)));
     canInvalidate ← iterM (λ (canInvalidate : bool) i,
       if decide (i = path) then mret canInvalidate else
         verify_path fuel store i;; valid ← gets (λ st, Ret (v_validPaths st));
         mret (canInvalidate && negb (set_mem i valid))) referrers true;
     if canInvalidate : bool then on_store (invalidatePath path) else modify set_errors)).
  pose proof (todo_cons path D Hv HD) as Hlt. destruct (negb _); [apply finishes_on_store, invalidatePath_terminates|].
  eapply (finishes_bind _ _ (λ _, good nixStore store db (path :: stack) (path :: D)));
    [apply finishes_lift; unfold baseNameOf, substr; by repeat case_match|by apply hoare_lift|].
  intros name. destruct (set_mem name store); [apply finishes_modify|].
  eapply (finishes_bind _ _ (λ referrers st, (∀ i, i ∈ referrers → valid db i) ∧ good nixStore store db (path :: stack) (path :: D) st)).
  { apply finishes_gets. intros st _. unfold db_queryReferrers. apply bind_terminates; [apply check_terminates|done]. }
  { apply hoare_gets; [done|]. intros referrers st Hg E. split; [|done]. intros i Hi.
    unfold db_queryReferrers in E. apply bind_Ret_inv in E as ([] & _ & [= <-]). destruct Hg as (Hpr & _ & _).
    apply queryReferrers_spec in Hi as (j & ? & Hj & _); [|by apply (pr_ok _ _ _ _ Hpr)].
    eapply pruned_valid; [done|]. by exists j. }
  intros referrers st [Href Hg]. revert st Hg.
  assert (∀ i (can : bool), i ∈ referrers → finishes (good nixStore store db (path :: stack) (path :: D))
    (if decide (i = path) then mret can else
       verify_path fuel store i;; valid ← gets (λ st, Ret (v_validPaths st)); mret (can && negb (set_mem i valid)))) as Hbody.
  { intros i can Hi. case_decide; [apply finishes_ret|].
    eapply (finishes_bind _ _ (λ _ _, True)); [apply IH; [by apply Href|lia]|apply hoare_true|].
    intros []. eapply (finishes_bind _ _ (λ _ _, True)); [by apply finishes_gets|apply hoare_true|]. intros; apply finishes_ret. }
  eapply (finishes_bind _ _ (λ _ _, True)); [|apply hoare_true|].
  - apply (finishes_iterM (λ _, good nixStore store db (path :: stack) (path :: D))); [intros i can Hi; by apply Hbody|].
    intros i can Hi. case_decide; [by apply hoare_ret|].
    eapply (hoare_bind _ _ (λ _, good nixStore store db (path :: stack) (path :: D))).
    { eapply hoare_conseq; [apply verifyPath_spec; [done|by apply Hnames, Href]|done|by intros [] st [Hg _]|done]. }
    intros []. eapply hoare_bind; [apply hoare_asks|]. intros valid. apply hoare_ret. by intros st [_ ?].
  - intros []; [apply finishes_on_store, invalidatePath_terminates|apply finishes_modify].
Qed.

Lemma first_loop_finishes : finishes (good nixStore store db [] []) (iter (verify_path (verify_fuel db) store) (queryAllValidPaths db)).
Proof.
  assert (length (todo []) < verify_fuel db) as Hf.
  { unfold todo, verify_fuel. pose proof (length_filter (λ p, p ∉ []) (queryAllValidPaths db)).
    pose proof (all_valid_length). lia. }
  apply (finishes_iter (good nixStore store db [] [])).
  - intros p Hp%all_valid. by apply verifyPath_finishes.
  - intros p Hp%all_valid. eapply hoare_conseq; [apply verifyPath_spec; [done|by apply Hnames]|done|by intros [] st [? _]|done].
Qed.
End paths.

Lemma check_contents_finishes P nullHash path : finishes P (check_contents nixStore fs repairPath false nullHash path).
Proof.
  intros st _. unfold check_contents, catch, mbind, SM_bind, gets, lift.
  pose proof (queryPathInfo_terminates nixStore path (ls_db (v_ls st))).
  destruct (queryPathInfo nixStore path (ls_db (v_ls st))) as [info|e|]; [|by destruct (is_Error e)|done].
  pose proof (hashPath_terminates (hash_type (vp_hash info)) path fs).
  destruct (hashPath _ path fs) as [[current n]|e|]; [|by destruct (is_Error e)|done].
  destruct (_ && _); [done|]. destruct (_ || _); [|done]. unfold when.
  match goal with |- context [on_store ?f st] =>
    pose proof (finishes_on_store (λ _, True) f ltac:(intros; apply bind_terminates; [apply updatePathInfo_terminates|done]) st I) as Hf;
    destruct (on_store f st) as [[[]|e|] st'] end; [done|by destruct (is_Error e)|done].
Qed.

Lemma verifyStore_finishes ls checkContents :
  db_ok (ls_db ls) → names_ok (ls_db ls) →
  finishes (λ st, st = verify_start ls) (verifyStore nixStore fs repairPath false checkContents).
Proof.
  intros Hok Hn. unfold verifyStore.
  eapply (finishes_bind _ _ (λ _ st, st = verify_start ls)); [apply finishes_lift; unfold store_names; by repeat case_match|by apply hoare_lift|].
  intros names. eapply (finishes_bind _ _ (λ l st, l = queryAllValidPaths (ls_db ls) ∧ st = verify_start ls)); [by apply finishes_gets|by intros st ->|].
  intros l st [-> ->]. unfold mbind at 1, SM_bind at 1, gets at 1. change (v_ls (verify_start ls)) with ls.
  eapply (finishes_bind (good nixStore (set_of_list names) (ls_db ls) [] []) _ (λ _ _, True));
    [by apply first_loop_finishes|apply hoare_true| |].
  - intros []. eapply (finishes_bind _ _ (λ _ _, True)); [|apply hoare_true|by intros []; apply finishes_gets].
    apply finishes_when. intros _. eapply (finishes_bind _ _ (λ _ _, True)).
    { apply finishes_lift. unfold Hash_new. case_decide; [done|]. apply bind_terminates; [apply check_terminates|done]. }
    { apply hoare_true. }
    intros h. eapply (finishes_bind _ _ (λ _ _, True)); [by apply finishes_gets|apply hoare_true|]. intros l.
    apply (finishes_iter (λ _, True)); [intros; apply check_contents_finishes|intros; apply hoare_true].
  - split_and!; [split; cbn; by auto|split; intros p Hp; by apply not_elem_of_nil in Hp|done].
Qed.
End ending.

(** * The cache of good paths *)

Section cache.
Context {gc : Gcrypt} {glaws : GcryptLaws} (nixStore : bytes) (fs : filesystem) (db : Database).

(** The path is there with the recorded hash, or without a recorded one. *)
Definition contents_good (p : bytes) : Prop := ∃ info current n,
  queryPathInfo nixStore p db = Ret info ∧ hashPath (hash_type (vp_hash info)) p fs = Ret (current, n) ∧
  (Hash_eqb (vp_hash info) (mkHash (gcry_md_get_algo_dlen htSHA256) zero_array htSHA256) = true ∨
   Hash_eqb (vp_hash info) current = true).

Definition cache_ok (cache : list (bytes * bool)) : Prop :=
  ∀ p b, map_find p cache = Some b → b = true ↔ contents_good p.

Lemma cache_ok_insert p b cache : (b = true ↔ contents_good p) → cache_ok cache → cache_ok (map_insert p b cache).
Proof. intros Hb Hc q b'. rewrite map_find_insert. case_decide as E; [subst; by intros [= <-]|apply Hc]. Qed.

(** While files and rows do not change, the answer is right, cached or not, and
    stays so for paths that are marked good. *)
Lemma pathContentsGood_spec p :
  hoare cache_ok (pathContentsGood nixStore fs db p) (λ b cache, cache_ok cache ∧ (b = true ↔ contents_good p)) cache_ok.
Proof.
  intros cache Hc. unfold pathContentsGood. destruct (map_find p cache) as [b|] eqn:Hfind; [by split; [|apply Hc]|].
  unfold mbind, SM_bind, lift, modify. destruct (queryPathInfo nixStore p db) as [info| |] eqn:Hi; [|done..].
  assert (∀ b : bool, b = true ↔ contents_good p → cache_ok (map_insert p b cache) ∧ (b = true ↔ contents_good p)) as Hins
    by (intros b Hb; split; [by apply cache_ok_insert|done]).
  destruct (fs !! p) eqn:Hp.
  - destruct (hashPath _ p fs) as [[current n]| |] eqn:Hh; [|done..]. rewrite Hash_new_ok by done. apply Hins.
    rewrite orb_true_iff. split; [intros H; exists info, current, n; by split_and!|].
    intros (info' & current' & n' & E & E' & H). rewrite Hi in E. injection E as <-. rewrite Hh in E'. by injection E' as <- <-.
  - apply Hins. split; [done|]. intros (info' & current & n & _ & Hh & _). apply hashPath_exists in Hh as [? ?]. congruence.
Qed.

Lemma markContentsGood_spec p : contents_good p → hoare cache_ok (markContentsGood p) (λ _, cache_ok) cache_ok.
Proof. intros Hp. apply hoare_modify. intros cache. by apply cache_ok_insert. Qed.
End cache.

(** * Properties *)

Section properties.
Context {gc : Gcrypt} {glaws : GcryptLaws} (nixStore : bytes) (fs : filesystem) (repairPath : bytes → VM ()).

(** C17: a verification without repairs ends; however it ends, the database is in
    order and the only paths that have become invalid are ones of which the store
    has no file. If it reports no errors, the valid paths are exactly the ones that
    were valid and have a file, and if the contents were to be checked, each has
    the hash that the database records. *)
Theorem verifyStore_sound names ls checkContents :
  db_ok (ls_db ls) → names_ok (ls_db ls) → sha_rows (ls_db ls) → store_names nixStore fs = Ret names →
  let '(r, st) := verifyStore nixStore fs repairPath false checkContents (verify_start ls) in
  terminates r ∧ db_ok (ls_db (v_ls st)) ∧
  (∀ p, valid (ls_db (v_ls st)) p → valid (ls_db ls) p) ∧
  (∀ p, valid (ls_db ls) p → present nixStore (set_of_list names) p → valid (ls_db (v_ls st)) p) ∧
  (r = Ret false →
     (∀ p, valid (ls_db (v_ls st)) p ↔ valid (ls_db ls) p ∧ present nixStore (set_of_list names) p) ∧
     (checkContents = true → ∀ id row, db_ValidPaths (ls_db (v_ls st)) !! id = Some row → row_matches fs row)).
Proof.
  intros Hok Hn Hsha Hnames.
  pose proof (verifyStore_finishes nixStore fs repairPath ls checkContents Hok Hn (verify_start ls) eq_refl) as Hend.
  pose proof (verifyStore_spec nixStore fs repairPath names ls checkContents Hok Hn Hsha Hnames (verify_start ls) eq_refl) as H.
  destruct (verifyStore _ _ _ _ _ _) as [r st]. cbn [fst] in Hend.
  assert (harmless nixStore (set_of_list names) (ls_db ls) st) as (H1 & H2 & H3) by (destruct r; [apply H|done|done]).
  split_and!; [done..|]. intros ->. destruct H as [_ [_ [?|H]]]; [done|]. split.
  - intros p. split; [|intros [? ?]; by apply H3]. intros Hv. split; [by apply H2|].
    destruct Hv as (id & row & Hr & <-). by apply (H id row Hr).
  - intros Hc id row Hr. by apply (H id row Hr).
Qed.

(** C28: on a store in which every valid path has its file with the recorded hash, a
    verification returns without errors and leaves the same paths and references. *)
Theorem verifyStore_complete names ls checkContents :
  db_ok (ls_db ls) → names_ok (ls_db ls) → sha_rows (ls_db ls) → store_names nixStore fs = Ret names →
  (∀ id row, db_ValidPaths (ls_db ls) !! id = Some row →
     present nixStore (set_of_list names) (row_path row) ∧ row_matches fs row) →
  ∃ st, verifyStore nixStore fs repairPath false checkContents (verify_start ls) = (Ret false, st) ∧
    same_graph (ls_db ls) (ls_db (v_ls st)).
Proof. intros. by eapply verifyStore_intact. Qed.
End properties.

(** * A store *)

Definition no_repair (p : bytes) : VM () := lift (Throw (Error "cannot repair")).

Definition verify_fs (names : list string) : filesystem :=
  list_to_map ((str "/gnu/store", IDir) :: ((λ n, (str "/gnu/store/" ++ str n, IFile false (str n))) <$> names)).

Definition verify_hash : Hash :=
  match @hashPath toy_gcrypt htSHA256 (str "/gnu/store/a") (verify_fs ["a"%string]) with Ret (h, _) => h | _ => toy_hash end.

Definition verify_info (name : string) (refs : list string) : ValidPathInfo :=
  mkValidPathInfo (str "/gnu/store/" ++ str name) [] verify_hash ((λ r, str "/gnu/store/" ++ str r) <$> refs) 0 0 0.

(** a refers to b, and b to c. *)
Definition verify_infos : list ValidPathInfo := [verify_info "a" ["b"%string]; verify_info "b" ["c"%string]; verify_info "c" []].

Definition verify_db : LocalStore :=
  the_store (@registerValidPaths toy_gcrypt (str "/gnu/store") no_file 1000 verify_infos empty_store).

Lemma verify_db_ok : db_ok (ls_db verify_db).
Proof.
  assert (@registerValidPaths toy_gcrypt (str "/gnu/store") no_file 1000 verify_infos empty_store = Ret verify_db) as E
    by (vm_compute; reflexivity).
  apply (registerValidPaths_adds _ _ _ _ empty_store) in E as [[Hok _] _]; [done|exact empty_ok].
Qed.

Lemma all_rows (f : PathRow → bool) (db : Database) :
  forallb f (map_to_list (db_ValidPaths db)).*2 = true → ∀ id r, db_ValidPaths db !! id = Some r → f r = true.
Proof.
  intros H id r Hr. rewrite forallb_forall in H. apply H, list_elem_of_In, list_elem_of_fmap.
  exists (id, r). split; [done|]. by apply elem_of_map_to_list.
Qed.

Lemma verify_names_ok : names_ok (ls_db verify_db).
Proof.
  intros p (id & r & Hr & <-). apply (proj1 (bool_decide_eq_true (nul_free (row_path r)))). revert id r Hr.
  apply (all_rows (λ r, bool_decide (nul_free (row_path r)))). vm_compute. reflexivity.
Qed.

Definition row_sha (r : PathRow) : bool :=
  match @parseHashField toy_gcrypt (row_hash r) with Ret h => bool_decide (hash_type h = htSHA256) | _ => true end.

Lemma verify_sha_rows : @sha_rows toy_gcrypt (ls_db verify_db).
Proof.
  assert (∀ id r, db_ValidPaths (ls_db verify_db) !! id = Some r → row_sha r = true) as H
    by (apply all_rows; vm_compute; reflexivity).
  intros id r h Hr E. specialize (H id r Hr). unfold row_sha in H. rewrite E in H. by apply bool_decide_eq_true in H.
Qed.

Local Abbreviation toy_verify names checkContents :=
  (@verifyStore toy_gcrypt (str "/gnu/store") (verify_fs names) no_repair false checkContents (verify_start verify_db)).

(** The file of a is gone: a is forgotten, and the sizes of the others are found. *)
Lemma verifyStore_sound_witness :
  let '(r, st) := toy_verify ["b"%string; "c"%string] true in
  terminates r ∧ db_ok (ls_db (v_ls st)) ∧
  (∀ p, valid (ls_db (v_ls st)) p → valid (ls_db verify_db) p) ∧
  (∀ p, valid (ls_db verify_db) p → present (str "/gnu/store") (set_of_list [str "c"; str "b"]) p → valid (ls_db (v_ls st)) p) ∧
  (r = Ret false →
     (∀ p, valid (ls_db (v_ls st)) p ↔ valid (ls_db verify_db) p ∧ present (str "/gnu/store") (set_of_list [str "c"; str "b"]) p) ∧
     (true = true → ∀ id row, db_ValidPaths (ls_db (v_ls st)) !! id = Some row →
        @row_matches toy_gcrypt (verify_fs ["b"%string; "c"%string]) row)).
Proof.
  apply (@verifyStore_sound toy_gcrypt toy_gcrypt_laws (str "/gnu/store") (verify_fs ["b"%string; "c"%string]) no_repair
    [str "c"; str "b"] verify_db true).
  - exact verify_db_ok.
  - exact verify_names_ok.
  - exact verify_sha_rows.
  - vm_compute. reflexivity.
Defined.

Example verifyStore_forgets :
  let '(r, st) := toy_verify ["b"%string; "c"%string] true in
  r = Ret false ∧ queryAllValidPaths (ls_db (v_ls st)) = [str "/gnu/store/b"; str "/gnu/store/c"].
Proof. vm_compute. done. Qed.

Definition row_good (fs : filesystem) (names : strset) (r : PathRow) : bool :=
  isStorePath (str "/gnu/store") (row_path r) &&
  match baseNameOf (row_path r) with Ret n => set_mem n names | _ => false end &&
  match @parseHashField toy_gcrypt (row_hash r) with
  | Ret h => match @hashPath toy_gcrypt (hash_type h) (row_path r) fs with Ret (c, _) => Hash_eqb h c | _ => false end
  | _ => false
  end.

Lemma row_good_sound fs names r : row_good fs names r = true →
  present (str "/gnu/store") names (row_path r) ∧ @row_matches toy_gcrypt fs r.
Proof.
  unfold row_good. rewrite !andb_true_iff. intros [[H1 H2] H3]. split; [split; [done|]|].
  - destruct (baseNameOf (row_path r)) as [n| |]; try done. exists n. split; [done|]. by apply set_mem_spec.
  - unfold row_matches. destruct (parseHashField (row_hash r)) as [h| |]; try done.
    destruct (hashPath (hash_type h) (row_path r) fs) as [[c n]| |] eqn:E; try done. by exists h, c, n.
Qed.

Lemma verifyStore_complete_witness : ∃ st,
  toy_verify ["a"%string; "b"%string; "c"%string] true = (Ret false, st) ∧ same_graph (ls_db verify_db) (ls_db (v_ls st)).
Proof.
  apply (@verifyStore_complete toy_gcrypt toy_gcrypt_laws (str "/gnu/store") (verify_fs ["a"%string; "b"%string; "c"%string])
    no_repair [str "c"; str "b"; str "a"] verify_db true).
  - exact verify_db_ok.
  - exact verify_names_ok.
  - exact verify_sha_rows.
  - vm_compute. reflexivity.
  - intros id row Hr. apply row_good_sound. revert id row Hr.
    apply (all_rows (row_good _ _)). vm_compute. reflexivity.
Defined.

(** The files of b and c are gone, but a, which refers to b, is there: b stays
    valid, as it has a valid referrer, but c is to be forgotten although b refers
    to it. The database refuses, and the verification ends there. *)
Theorem verifyStore_aborts :
  (toy_verify ["a"%string] false).1 = Throw (SQLiteError "FOREIGN KEY constraint failed").
Proof. vm_compute. reflexivity. Qed.
