(* ===== verification/PermRoots.v ===== *)
(** libstore/gc.cc: adding permanent roots of the garbage collector.

    [addPermRoot] makes a symbolic link (or an empty file) for a store path, and for
    an indirect root [addIndirectRoot] makes a link to that link in gcroots/auto. The
    files are those of StoreFiles, and [fs_os] is the view of them that [findRoots]
    (Roots) has: what is added here is found there. *)

From S2P Require Import Prelude StateMonad Containers Serialise Hash Archive Paths StorePaths Roots StoreFiles.

(** * The calls of [findRoots] on a file system *)

Definition dtype (i : inode) : DirentType :=
  match i with IFile _ _ => DT_REG | IDir => DT_DIR | ILink _ => DT_LNK end.

Definition fs_lstat (fs : filesystem) (p : bytes) : outcome inode :=
  match fs !! p with Some i => Ret i | None => Throw (SysError 2 "getting status of") end.

Definition fs_os (fs : filesystem) : RootsOS := {|
  getFileType p := i ← fs_lstat fs p; Ret (dtype i);
  readDirectory p :=
    match fs !! p with
    | Some IDir => Ret ((λ n, (n, default DT_UNKNOWN (dtype <$> fs !! (p ++ slash ++ n)))) <$> children p fs)
    | Some _ => Throw (SysError 20 "opening directory")
    | None => Throw (SysError 2 "opening directory")
    end;
  readLink p :=
    i ← fs_lstat fs p;
    match i with ILink t => Ret t | _ => Throw (Error "not a symlink") end;
  pathExists p := Ret (fs_exists p fs);
  lstat_is_link p := i ← fs_lstat fs p; Ret (match i with ILink _ => true | _ => false end)
|}.

(** * Operations *)

Abbreviation FM := (SM filesystem).

(** A call that changes the file system, or fails. *)
Definition fs_call (f : filesystem → outcome filesystem) : FM () := λ fs,
  match f fs with
  | Ret fs' => (Ret (), fs')
  | Throw e => (Throw e, fs)
  | OutOfFuel => (OutOfFuel, fs)
  end.

(** [stat] of a symbolic link. *)
Fixpoint stat_link (links : nat) (path : bytes) (fs : filesystem) : outcome inode :=
  match fs !! path with
  | Some (ILink t) =>
      match links with
      | 0 => Throw (SysError ELOOP "statting symlink")
      | S links => stat_link links (link_target path t) fs
      end
  | Some i => Ret i
  | None => Throw (SysError 2 "statting symlink")
  end.

Definition mkdir (path : bytes) : FM () :=
  catch (λ e, match e with SysError errno _ => bool_decide (errno = EEXIST) | _ => false end)
    (fs_call (fs_create path IDir)) (λ _, mret ()).

(** The recursion is over shorter paths. *)
Fixpoint createDirs (fuel : nat) (path : bytes) : FM (list bytes) :=
  match fuel with
  | 0 => lift OutOfFuel
  | S fuel =>
      if decide (path = str "/") then mret []
      else
        there ← gets (λ fs, Ret (fs_exists path fs));
        created ← (if there : bool then mret []
                   else
                     d ← lift (dirOf path);
                     created ← createDirs fuel d;
                     mkdir path;;
                     mret (created ++ [path]));
        st ← gets (λ fs, fs_lstat fs path);
        st ← (match st with ILink _ => gets (stat_link 40 path) | _ => mret st end);
        lift (check (bool_decide (st = IDir)) (Error "not a directory"));;
        mret created
  end.

(** What [format("%1%.tmp-%2%-%3%")] adds to the name of a link. *)
Definition temp_suffix (pid rand : bytes) : bytes := str ".tmp-" ++ pid ++ str "-" ++ rand.

Section perm_roots.
Context {gc : Gcrypt} (nixStore nixStateDir : bytes) (isValidPath : bytes → outcome bool) (fuel : nat).
Context (checkRootReachability : bool) (pid : bytes) (rand : bytes → bytes) (syncWithGC : outcome ()).

Definition makeSymlink (link target : bytes) : FM () :=
  d ← lift (dirOf link);
  createDirs (S (length d)) d;;
  let tempLink := link ++ temp_suffix pid (rand link) in
  fs_call (fs_create tempLink (ILink target));;
  fs_call (fs_rename tempLink link).

Definition real_root (path : bytes) : outcome bytes :=
  h ← hashString htSHA1 path;
  hash ← printHash32 h;
  canonPath (nixStateDir ++ str "/" ++ gcRootsDir ++ str "/auto/" ++ hash).

Definition addIndirectRoot (path : bytes) : FM () :=
  realRoot ← lift (real_root path);
  makeSymlink realRoot path.

(** [pathExists(gcRoot) && (!isLink(gcRoot) || !isInStore(readLink(gcRoot)))] *)
Definition clobbers (gcRoot : bytes) (fs : filesystem) : bool :=
  match fs !! gcRoot with
  | None => false
  | Some (ILink t) => negb (isInStore nixStore t)
  | Some _ => true
  end.

(** [findRoots], with the stale links that it removes (a call that throws is shown
    without those it has removed). *)
Definition search_roots : FM Roots := λ fs,
  match @findRoots (fs_os fs) isValidPath nixStore nixStateDir fuel with
  | Ret (roots, unlinked) => (Ret roots, foldl (λ fs p, fs_delete p fs) fs unlinked)
  | Throw e => (Throw e, fs)
  | OutOfFuel => (OutOfFuel, fs)
  end.

(** The result is the root, and whether there was a warning. *)
Definition addPermRoot (_storePath _gcRoot : bytes) (indirect allowOutsideRootsDir : bool) : FM (bytes * bool) :=
  storePath ← lift (canonPath _storePath);
  gcRoot ← lift (canonPath _gcRoot);
  lift (assertStorePath nixStore storePath);;
  lift (check (negb (isInStore nixStore gcRoot)) (Error "creating a garbage collector root in the store is forbidden"));;
  (if indirect then
     bad ← gets (λ fs, Ret (clobbers gcRoot fs));
     lift (check (negb bad) (Error "cannot create symlink; already exists"));;
     makeSymlink gcRoot storePath;;
     addIndirectRoot gcRoot
   else
     when (negb allowOutsideRootsDir)
       (rootsDir ← lift (canonPath (nixStateDir ++ str "/" ++ gcRootsDir));
        lift (check (bool_decide (take (length rootsDir + 1) gcRoot = rootsDir ++ str "/"))
          (Error "path is not a valid garbage collector root")));;
     b1 ← lift (baseNameOf gcRoot);
     b2 ← lift (baseNameOf storePath);
     if decide (b1 = b2) then fs_call (writeFile gcRoot [])
     else makeSymlink gcRoot storePath);;
  warn ← (if checkRootReachability then roots ← search_roots; mret (bool_decide (map_find gcRoot roots = None))
          else mret false);
  lift syncWithGC;;
  mret (gcRoot, warn).
End perm_roots.

(** * Well-formed file systems *)

(** What lies below a path lies below a directory. *)
Lemma wf_below fs p q i : fs_wf fs → proper p → at_or_below p q → q ≠ p → fs !! q = Some i → fs !! p = Some IDir.
Proof.
  intros Hwf Hp. remember (length q) as n eqn:En. revert q i En. induction (lt_wf n) as [n _ IH].
  intros q i -> Hb Hne Hq. destruct (Hwf q i Hq) as (d & Ed & Hd).
  destruct (parent_below p q d Hp Hb Hne Ed) as [Hb' Hl]. destruct (decide (d = p)) as [->|Hne']; [done|].
  by eapply (IH (length d)).
Qed.

Lemma render_proper ws : stack_ok ws → ws ≠ [] → proper (render ws).
Proof.
  intros Hws Hne. destruct ws as [|w ws]; [done|]. apply Forall_cons in Hws as [[Hw _] _].
  unfold render. rewrite fmap_cons, mjoin_cons. destruct w; [done|]. by split.
Qed.

Lemma wf_ancestor fs p w ws i : fs_wf fs → proper p → fs !! (p ++ render (w :: ws)) = Some i → fs !! p = Some IDir.
Proof.
  intros Hwf Hp Hq. unfold render in Hq. rewrite fmap_cons, mjoin_cons in Hq.
  eapply wf_below; [done|done| | |done].
  - apply below_split. eexists. split; [done|]. right. rewrite <-(assoc (++)). by eexists.
  - intros E. apply (f_equal length) in E. rewrite !length_app in E. cbn in E. lia.
Qed.

(** ** Directories are walked *)

Section walk.
Context (fs : filesystem) (Hwf : fs_wf fs).
#[local] Instance os : RootsOS := fs_os fs.

Lemma fs_kind p t i : fs !! p = Some i → t = DT_UNKNOWN ∨ t = dtype i → kind p t = Ret (dtype i).
Proof.
  intros Hp Ht. unfold kind. case_decide as E.
  - cbn. unfold fs_lstat. by rewrite Hp.
  - destruct Ht as [?| ->]; done.
Qed.

Lemma fs_descends p ws i t :
  proper p → stack_ok ws → fs !! (p ++ render ws) = Some i →
  (t = DT_UNKNOWN ∨ ∃ j, fs !! p = Some j ∧ t = dtype j) →
  ∃ t', descends (length ws) p t (p ++ render ws) t' ∧ kind (p ++ render ws) t' = Ret (dtype i).
Proof.
  intros Hp Hws. revert p t Hp. induction Hws as [|w ws [Hw Hs] Hws IH]; intros p t Hp Hq Ht.
  - cbn in *. rewrite app_nil_r in *. exists t. split; [constructor|]. apply fs_kind; [done|].
    destruct Ht as [?|(j & Hj & ->)]; [by left|right]. by simplify_eq.
  - pose proof (wf_ancestor fs p w ws i Hwf Hp Hq) as Hd.
    assert (p ++ render (w :: ws) = (p ++ slash ++ w) ++ render ws) as E.
    { unfold render. rewrite fmap_cons, mjoin_cons. by rewrite <-!(assoc (++)). }
    rewrite E in Hq |- *. assert (proper (p ++ slash ++ w)) as Hp'.
    { destruct Hp as [Hp _]. destruct p as [|c [|c' p]]; [done| |done]. split; [done|]. by destruct w. }
    assert (∃ j, fs !! (p ++ slash ++ w) = Some j) as [j Hj].
    { destruct ws as [|w' ws]; [rewrite app_nil_r in Hq; eauto|]. exists IDir. by eapply wf_ancestor. }
    destruct (IH (p ++ slash ++ w) (dtype j) Hp' Hq) as (t' & Hdesc & Hk); [right; by exists j|].
    exists t'. split; [|done]. eapply descends_dir; [| | |exact Hdesc].
    + apply (fs_kind p t IDir Hd). destruct Ht as [?|(j' & Hj' & ->)]; [by left|right]. by simplify_eq.
    + unfold readDirectory, os, fs_os. by rewrite Hd.
    + apply list_elem_of_fmap. exists w. cbn beta. rewrite Hj. split; [done|]. apply elem_of_children. rewrite Hj. split_and!; [by eexists|done|done].
Qed.

Lemma fs_os_laws : RootsOSLaws.
Proof.
  split.
  - intros p. cbn. unfold fs_lstat. split_and!; try done; destruct (fs !! p) as [[]|]; done.
  - intros p target. cbn. unfold fs_lstat. destruct (fs !! p) as [[]|]; cbn; congruence.
  - intros d es name target. cbn. unfold fs_lstat. destruct (fs !! d) as [[]|]; try done. intros [= <-] Hin.
    apply list_elem_of_fmap in Hin as (n & [= -> Ht] & Hn). destruct (fs !! _) as [[]|]; cbn in *; congruence.
Qed.
End walk.

(** * What is added *)

Lemma fs_call_Ret f fs u fs' : fs_call f fs = (Ret u, fs') → f fs = Ret fs'.
Proof. unfold fs_call. destruct (f fs); [|done..]. by intros [= _ ->]. Qed.

Lemma fs_create_new p i fs fs' : fs_create p i fs = Ret fs' → fs !! p = None ∧ fs' = <[p := i]> fs.
Proof.
  unfold fs_create. repeat case_match; try done. intros [= <-]. split; [|done]. apply eq_None_not_Some. congruence.
Qed.

(** Only new files since [fs0]. *)
Definition grown (fs0 fs : filesystem) : Prop := fs_wf fs ∧ fs0 ⊆ fs.

Lemma hoare_create fs0 p i : hoare (grown fs0) (fs_call (fs_create p i)) (λ _, grown fs0) (grown fs0).
Proof.
  intros fs [Hwf Hsub]. unfold fs_call. destruct (fs_create p i fs) as [fs'| |] eqn:E; [|done..].
  split; [by eapply fs_wf_create|]. apply fs_create_new in E as [Hn ->]. etrans; [done|]. by apply insert_subseteq.
Qed.

Lemma createDirs_grows fs0 fuel path : hoare (grown fs0) (createDirs fuel path) (λ _, grown fs0) (grown fs0).
Proof.
  revert path. induction fuel as [|fuel IH]; intros path; cbn [createDirs]; [by apply hoare_lift|].
  case_decide; [by apply hoare_ret|].
  eapply (hoare_bind _ _ (λ _, grown fs0)); [by apply hoare_gets|]. intros there.
  eapply (hoare_bind _ _ (λ _, grown fs0)).
  { destruct there; [by apply hoare_ret|].
    eapply (hoare_bind _ _ (λ _, grown fs0)); [by apply hoare_lift|]. intros d.
    eapply (hoare_bind _ _ (λ _, grown fs0)); [apply IH|]. intros created.
    eapply (hoare_bind _ _ (λ _, grown fs0)); [|intros []; by apply hoare_ret].
    eapply hoare_catch; [apply hoare_create|intros e; by apply hoare_ret|done]. }
  intros created. eapply (hoare_bind _ _ (λ _, grown fs0)); [by apply hoare_gets|]. intros st.
  eapply (hoare_bind _ _ (λ _, grown fs0)).
  { destruct st; [by apply hoare_ret|by apply hoare_ret|by apply hoare_gets]. }
  intros st'. eapply (hoare_bind _ _ (λ _, grown fs0)); [by apply hoare_lift|]. intros []. by apply hoare_ret.
Qed.

(** The new file system has [i] at [p], and everything else that [fs] has. *)
Record put_at (p : bytes) (i : inode) (fs fs' : filesystem) : Prop := {
  put_wf : fs_wf fs';
  put_here : fs' !! p = Some i;
  put_keeps q j : fs !! q = Some j → q ≠ p → fs' !! q = Some j
}.

Lemma apart_suffix link c suf : c ≠ "/"%byte → apart (link ++ c :: suf) link.
Proof.
  intros Hc. split.
  - intros (r & E & _)%below_split. apply (f_equal length) in E. rewrite !length_app in E. cbn in E. lia.
  - intros (r & E & Hr)%below_split. apply (inj (app link)) in E. subst r. destruct Hr as [?|[k E]]; [done|].
    injection E as -> _. done.
Qed.

Lemma makeSymlink_spec pid rand link target fs u fs' :
  fs_wf fs → proper link → makeSymlink pid rand link target fs = (Ret u, fs') → put_at link (ILink target) fs fs'.
Proof.
  intros Hwf Hlink E. unfold makeSymlink in E. apply SM_bind_Ret in E as (d & fs1 & [_ ->]%lift_Ret & E).
  apply SM_bind_Ret in E as (created & fs1 & E1 & E). apply SM_bind_Ret in E as ([] & fs2 & E2%fs_call_Ret & E%fs_call_Ret).
  pose proof (createDirs_grows fs (S (length d)) d fs (conj Hwf (reflexivity fs))) as Hg. rewrite E1 in Hg. destruct Hg as [Hwf1 Hsub].
  pose proof (fs_wf_create _ _ _ _ Hwf1 E2) as Hwf2. apply fs_create_new in E2 as [Hnone ->].
  set (temp := link ++ temp_suffix pid (rand link)) in *.
  assert (apart temp link) as Hap by (by apply apart_suffix). assert (proper temp) as Htemp.
  { destruct Hlink as [Hl _]. destruct link as [|c link]; [done|]. split; [done|]. by destruct link. }
  assert (temp ≠ link) as Hne by (intros H; destruct Hap as [Hap _]; apply Hap; by left).
  assert (∀ q j, fs1 !! q = Some j → ¬ at_or_below temp q) as Hnt.
  { intros q j Hq Hb. destruct (decide (q = temp)) as [->|Hqt]; [congruence|].
    pose proof (wf_below _ _ _ _ Hwf1 Htemp Hb Hqt Hq). congruence. }
  pose proof (fs_rename_Ret _ _ _ _ Hne E) as (_ & _ & ->). unfold fs_rename in E.
  rewrite lookup_insert_eq in E. destruct (parent_of temp) as [c|]; [|done]. destruct (parent_of link) as [dl|] eqn:El; [|done].
  case_decide as Hdirs; [|done]. destruct Hdirs as [_ Hdl]. rewrite decide_False in E by done. case_decide; [done|].
  assert (<[temp:=ILink target]> fs1 !! link ≠ Some IDir) as Hnd by (intros H'; by rewrite H' in E).
  split.
  - by eapply fs_wf_move.
  - rewrite lookup_fs_move, decide_True by (done || by left). pose proof (relocate_below link temp []) as Hr.
    rewrite !app_nil_r in Hr. rewrite Hr. apply lookup_insert_eq.
  - intros q j Hq Hql. assert (fs1 !! q = Some j) as Hq1 by (by eapply lookup_weaken).
    assert (q ≠ temp) as Hqt by (intros ->; by eapply Hnt; [|left]).
    rewrite lookup_fs_move by done. rewrite (decide_False (P := at_or_below link q)), decide_False.
    + by rewrite lookup_insert_ne.
    + by eapply Hnt.
    + intros Hb. apply Hnd. eapply (wf_below _ link q j); [done|done|done|done|]. by rewrite lookup_insert_ne.
Qed.

(** ** Where roots are *)

Lemma components_slash s : components ("/"%byte :: s) = components s.
Proof. by apply tokens_sep. Qed.

Lemma components_below ws rest : stack_ok ws → components (render ws ++ str "/" ++ rest) = ws ++ components rest.
Proof.
  induction 1 as [|w ws [Hw Hs] Hws IH]; [apply components_slash|].
  unfold render. rewrite fmap_cons, mjoin_cons, <-!(assoc (++)). change (str "/" ++ w ++ ?r) with ("/"%byte :: w ++ r).
  rewrite components_slash, components_word; [exact (f_equal (cons w) IH)|done|done|].
  apply at_boundary_slash. right. by destruct ws.
Qed.

Lemma canonical_below ws p rest : ws ≠ [] → Forall plain ws → path_canonical p → p = render ws ++ str "/" ++ rest →
  ∃ ws', Forall plain ws' ∧ p = render ws ++ render ws'.
Proof.
  intros Hne Hws (vs & Hvs & ->) E. pose proof (components_canonical vs Hvs) as Hc. rewrite E in Hc.
  rewrite components_below in Hc by (by apply plain_stack). subst vs. apply Forall_app in Hvs as [_ Hr].
  exists (components rest). split; [done|]. unfold canon_value in E |- *. case_decide as Hn.
  - exfalso. apply render_nil_inv in Hn.
    apply app_nil in Hn as [-> _]. done.
  - unfold render. by rewrite fmap_app, join_app.
Qed.

Section found.
Context {gc : Gcrypt} {glaws : GcryptLaws} (nixStore : bytes) (sws : list bytes) (isValidPath : bytes → outcome bool).
Context (Hsws : Forall plain sws) (Hne : sws ≠ []).
Local Abbreviation nixStateDir := (render sws).

(** gcroots *)
Definition top_names : list bytes := sws ++ [gcRootsDir].
Definition top : bytes := nixStateDir ++ str "/" ++ gcRootsDir.

Lemma top_render : top = render top_names.
Proof. unfold top, top_names. by rewrite render_snoc. Qed.

Lemma top_plain : Forall plain top_names.
Proof. apply Forall_app. split; [done|]. apply Forall_singleton. split_and!; [done|concrete|done|done]. Qed.

Lemma top_proper : proper top.
Proof. rewrite top_render. apply render_proper; [apply plain_stack, top_plain|unfold top_names; by destruct sws]. Qed.

Lemma real_root_spec path : ∃ hash, real_root nixStateDir path = Ret (top ++ render [str "auto"; hash]) ∧ plain hash.
Proof.
  unfold real_root. destruct (hashString_ok htSHA1 path ltac:(done)) as (h & -> & Hwf & _ & Hsz & _). cbn [mbind outcome_bind].
  destruct (printHash32_spec h Hwf) as (t & -> & Hl & Hok & _). cbn [mbind outcome_bind].
  assert (plain t) as Ht.
  { rewrite Forall_forall in Hok. split_and!.
    - intros ->. unfold hashLength32 in Hl. cbn [length] in Hl. destruct Hwf as (_ & ? & _).
      assert (0 <= (Z.of_nat (hashSize h) * 8 - 1) mod 2 ^ 32)%Z by (by apply Z.mod_pos_bound).
      assert (0 <= ((Z.of_nat (hashSize h) * 8 - 1) mod 2 ^ 32) / 5)%Z by (by apply Z.div_pos). lia.
    - intros Hc%Hok. by vm_compute in Hc.
    - intros ->. specialize (Hok "."%byte (list_elem_of_here _ _)). by vm_compute in Hok.
    - intros ->. specialize (Hok "."%byte (list_elem_of_here _ _)). by vm_compute in Hok. }
  exists t. split; [|done]. assert (top ++ render [str "auto"; t] = render (top_names ++ [str "auto"; t])) as E.
  { rewrite top_render. unfold render. by rewrite fmap_app, join_app. }
  rewrite E, <-(canonPath_canonical (render (top_names ++ [str "auto"; t]))).
  - f_equal. rewrite <-E. unfold top, render. cbn. by rewrite app_nil_r, <-!(assoc (++)).
  - exists (top_names ++ [str "auto"; t]). split.
    + apply Forall_app. split; [apply top_plain|]. repeat constructor; [done|concrete|done|done|apply Ht..].
    + unfold canon_value. rewrite decide_False; [done|]. intros [? ?]%render_nil_inv%app_nil. done.
Qed.

(** A root of the collector: a link or a file below gcroots, or a link that a link
    below gcroots leads to. *)
Inductive rooted (fs : filesystem) (gcRoot sp : bytes) : Prop :=
  | rooted_link ws : stack_ok ws → gcRoot = top ++ render ws → fs !! gcRoot = Some (ILink sp) → rooted fs gcRoot sp
  | rooted_file ws x c b : stack_ok ws → gcRoot = top ++ render ws → fs !! gcRoot = Some (IFile x c) →
      baseNameOf gcRoot = Ret b → sp = nixStore ++ str "/" ++ b → rooted fs gcRoot sp
  | rooted_indirect ws : stack_ok ws → fs !! (top ++ render ws) = Some (ILink gcRoot) →
      isInStore nixStore gcRoot = false → path_canonical gcRoot → fs !! gcRoot = Some (ILink sp) → rooted fs gcRoot sp.

Lemma toStorePath_self sp : isStorePath nixStore sp = true → isInStore nixStore sp = true ∧ toStorePath nixStore sp = Ret sp.
Proof.
  unfold isStorePath, toStorePath. rewrite andb_true_iff, bool_decide_eq_true. intros [H E]. by rewrite H, E.
Qed.

Lemma dirOf_top ws : ∃ d, dirOf (top ++ render ws) = Ret d.
Proof.
  unfold dirOf. destruct (rfind_char "/"%byte (top ++ render ws)) as [pos|] eqn:E; [by eexists|].
  apply rfind_char_None in E. destruct E. apply elem_of_app. left. unfold top. set_solver.
Qed.

Lemma fs_points_to fs p sp : isStorePath nixStore sp = true → isValidPath sp = Ret true →
  fs !! p = Some (ILink sp) → @points_to (fs_os fs) isValidPath nixStore p sp.
Proof.
  intros Hs Hv Hp. destruct (toStorePath_self sp Hs). exists sp. split_and!; [|done..]. cbn. unfold fs_lstat. by rewrite Hp.
Qed.

Lemma rooted_below fs gcRoot sp :
  fs_wf fs → isStorePath nixStore sp = true → isValidPath sp = Ret true → rooted fs gcRoot sp →
  @root_below (fs_os fs) isValidPath nixStore top DT_UNKNOWN gcRoot sp.
Proof.
  intros Hwf Hs Hv [ws Hws -> Hl|ws x c b Hws -> Hl Hb ->|ws Hws Hl Hout Hcan Hg].
  - destruct (fs_descends fs Hwf top ws _ DT_UNKNOWN top_proper Hws Hl (or_introl eq_refl)) as (t & Hd & Hk).
    exists (length ws), (top ++ render ws), t, DT_LNK. split_and!; [done|done|]. apply yields_direct. by apply fs_points_to.
  - destruct (fs_descends fs Hwf top ws _ DT_UNKNOWN top_proper Hws Hl (or_introl eq_refl)) as (t & Hd & Hk).
    exists (length ws), (top ++ render ws), t, DT_REG. split_and!; [done|done|]. by apply yields_regular.
  - destruct (fs_descends fs Hwf top ws _ DT_UNKNOWN top_proper Hws Hl (or_introl eq_refl)) as (t & Hd & Hk).
    exists (length ws), (top ++ render ws), t, DT_LNK. split_and!; [done|done|]. apply yields_indirect; [| | |by apply fs_points_to].
    + destruct (dirOf_top ws) as [d Ed]. exists gcRoot, d. split_and!; [|done|done|].
      * cbn. unfold fs_lstat. by rewrite Hl.
      * unfold absPath. rewrite decide_True by (by apply canonical_absolute). by apply canonPath_canonical.
    + cbn. unfold fs_exists. rewrite Hg. by rewrite bool_decide_true.
    + cbn. unfold fs_lstat. by rewrite Hg.
Qed.

(** ** Removing stale links *)

Lemma link_proper fs p t : fs_wf fs → fs !! p = Some (ILink t) → proper p.
Proof.
  intros Hwf Hp. destruct (Hwf p _ Hp) as (d & Ed & Hd). split; intros ->; [done|]. cbn in Ed. injection Ed as <-. congruence.
Qed.

Definition unlinked_all (fs : filesystem) (l : list bytes) : filesystem := foldl (λ fs p, fs_delete p fs) fs l.

Lemma unlinked_all_keeps fs l : fs_wf fs → (∀ p, p ∈ l → ∃ t, fs !! p = Some (ILink t)) →
  fs_wf (unlinked_all fs l) ∧ ∀ q i, fs !! q = Some i → q ∉ l → unlinked_all fs l !! q = Some i.
Proof.
  intros Hwf Hl. unfold unlinked_all. induction l as [|p l IH] using rev_ind; [done|]. rewrite foldl_app; cbn [foldl].
  destruct IH as [Hwf' IH]; [intros q Hq; apply Hl, elem_of_app; by left|].
  destruct (Hl p) as [t Ht]; [set_solver|]. pose proof (link_proper fs p t Hwf Ht) as Hp. split; [by apply fs_wf_delete|].
  intros q i Hq Hn. apply not_elem_of_app in Hn as [Hn Hqp]. rewrite lookup_fs_delete, decide_False; [by apply IH|].
  intros Hb. assert (q ≠ p) by set_solver. pose proof (wf_below _ _ _ _ Hwf Hp Hb ltac:(done) Hq). congruence.
Qed.

Lemma stale_link fs p : @stale (fs_os fs) nixStore nixStateDir p →
  ∃ t d target, fs !! p = Some (ILink t) ∧ isInStore nixStore t = false ∧ absPath (Ret []) t d = Ret target ∧ fs !! target = None.
Proof.
  intros (_ & target & (t & d & El & Hs & _ & Ha) & Hno). cbn in El, Hno. unfold fs_lstat in El.
  destruct (fs !! p) as [[x c| |t']|]; try done. injection El as <-. exists t', d, target. split_and!; [done..|].
  injection Hno as Hno. unfold fs_exists in Hno. apply bool_decide_eq_false in Hno. by apply eq_None_not_Some.
Qed.

Lemma rooted_unlinked fs l gcRoot sp : fs_wf fs → isStorePath nixStore sp = true →
  (∀ p, p ∈ l → @stale (fs_os fs) nixStore nixStateDir p) → rooted fs gcRoot sp →
  fs_wf (unlinked_all fs l) ∧ rooted (unlinked_all fs l) gcRoot sp.
Proof.
  intros Hwf Hsp Hl Hr. destruct (unlinked_all_keeps fs l Hwf) as [Hwf' Hkeep].
  { intros p Hp. destruct (stale_link fs p (Hl p Hp)) as (t & _ & _ & ? & _). by exists t. }
  destruct (toStorePath_self sp Hsp) as [Hin _].
  assert (∀ q, fs !! q = Some (ILink sp) → unlinked_all fs l !! q = Some (ILink sp)) as Hdirect.
  { intros q Hq. apply Hkeep; [done|]. intros (t & d & target & Ht & Hs & _)%Hl%stale_link. simplify_eq. congruence. }
  split; [done|]. destruct Hr as [ws Hws Hg Hlink|ws x c b Hws Hg Hf Hb Hbs|ws Hws Hlink Hout Hcan Hg].
  - eapply rooted_link; [done|done|by apply Hdirect].
  - eapply rooted_file; [done|done| |done|done]. apply Hkeep; [done|]. intros (t & d & target & Ht & _)%Hl%stale_link. congruence.
  - eapply rooted_indirect; [done| |done|done|by apply Hdirect]. apply Hkeep; [done|].
    intros (t & d & target & Ht & Hs & Ha & Hno)%Hl%stale_link. assert (t = gcRoot) as -> by congruence. unfold absPath in Ha.
    rewrite decide_True, canonPath_canonical in Ha by (done || by apply canonical_absolute). injection Ha as <-. congruence.
Qed.
End found.

(** * Properties *)

Section properties.
Context {gc : Gcrypt} {glaws : GcryptLaws} (nixStore : bytes) (sws : list bytes) (isValidPath : bytes → outcome bool).
Context (Hstore : nixStore !! 0 = Some "/"%byte) (Hsws : Forall plain sws) (Hne : sws ≠ []).
Local Abbreviation nixStateDir := (render sws).

Lemma rooted_found fs fuel gcRoot sp roots unlinked :
  fs_wf fs → isStorePath nixStore sp = true → isValidPath sp = Ret true → rooted nixStore sws fs gcRoot sp →
  @findRoots (fs_os fs) isValidPath nixStore nixStateDir fuel = Ret (roots, unlinked) →
  (gcRoot, sp) ∈ roots ∧ (∀ p, p ∈ unlinked → @stale (fs_os fs) nixStore nixStateDir p).
Proof.
  intros Hwf Hs Hv Hr E.
  destruct (@findRoots_roots (fs_os fs) isValidPath nixStore nixStateDir (fs_os_laws fs) fuel roots unlinked E) as [Hroots Hstale].
  split; [|done]. apply Hroots. exists (top sws). split; [by left|]. by apply rooted_below.
Qed.

Lemma map_find_in {V} k (v : V) (m : list (bytes * V)) : (k, v) ∈ m → map_find k m ≠ None.
Proof.
  induction m as [|[a w] m IH]; [by intros ?%not_elem_of_nil|]. cbn. intros [[= <- <-]|Hin]%elem_of_cons.
  - by rewrite decide_True.
  - case_decide; [done|by apply IH].
Qed.

(** The part of [addPermRoot] that makes the files. *)
Lemma added_indirect pid rand storePath gcRoot fs u fs' :
  fs_wf fs → path_canonical gcRoot → isInStore nixStore gcRoot = false → proper gcRoot →
  real_root nixStateDir gcRoot ≠ Ret gcRoot →
  (makeSymlink pid rand gcRoot storePath;; addIndirectRoot nixStateDir pid rand gcRoot) fs = (Ret u, fs') →
  fs_wf fs' ∧ rooted nixStore sws fs' gcRoot storePath.
Proof.
  intros Hwf Hcan Hout Hp Hreal E. apply SM_bind_Ret in E as ([] & fs1 & E1 & E).
  destruct (makeSymlink_spec _ _ _ _ _ _ _ Hwf Hp E1) as [Hwf1 Hhere _]. unfold addIndirectRoot in E.
  destruct (real_root_spec sws Hsws gcRoot) as (hash & Er & Hh). rewrite Er in E, Hreal.
  apply SM_bind_Ret in E as (? & ? & [[= <-] ->]%lift_Ret & E).
  assert (stack_ok [str "auto"; hash]) as Hstack.
  { repeat constructor; [done|concrete|apply Hh..]. }
  assert (proper (top sws ++ render [str "auto"; hash])) as Hpr.
  { rewrite top_render. unfold render. rewrite <-join_app, <-fmap_app. apply (render_proper (_ ++ _)); [|by destruct sws].
    apply Forall_app. split; [by apply plain_stack, top_plain|done]. }
  destruct (makeSymlink_spec _ _ _ _ _ _ _ Hwf1 Hpr E) as [Hwf2 Hreal2 Hkeep]. split; [done|].
  eapply rooted_indirect; [exact Hstack|done|done|done|]. apply Hkeep; [done|]. congruence.
Qed.

Lemma added_direct pid rand storePath gcRoot fs u fs' b1 b2 :
  fs_wf fs → path_canonical gcRoot → isStorePath nixStore storePath = true →
  take (length (top sws) + 1) gcRoot = top sws ++ str "/" →
  baseNameOf gcRoot = Ret b1 → baseNameOf storePath = Ret b2 → (b1 = b2 → ∀ t, fs !! gcRoot ≠ Some (ILink t)) →
  (if decide (b1 = b2) then fs_call (writeFile gcRoot []) else makeSymlink pid rand gcRoot storePath) fs = (Ret u, fs') →
  fs_wf fs' ∧ rooted nixStore sws fs' gcRoot storePath.
Proof.
  intros Hwf Hcan Hsp Htake Hb1 Hb2 Hnl E.
  destruct (canonical_below (top_names sws) gcRoot (drop (length (top sws) + 1) gcRoot)) as (ws & Hws & Eg); [by destruct sws|by apply top_plain|done| |].
  { rewrite <-top_render, (assoc (++)), <-Htake. symmetry. apply take_drop. }
  rewrite <-top_render in Eg. apply plain_stack in Hws. assert (proper gcRoot) as Hp.
  { destruct (top_proper sws Hsws Hne) as [Ht _]. rewrite Eg. destruct (top sws) as [|c [|c' t]] eqn:Et; [done| |done].
    exfalso. apply (f_equal length) in Et. unfold top in Et. rewrite !length_app in Et. cbn in Et. lia. }
  case_decide as Hb.
  - apply fs_call_Ret in E. pose proof (fs_wf_write _ _ _ _ _ Hwf E) as Hwf'. split; [done|].
    apply (isStorePath_iff nixStore Hstore) in Hsp as (base & Hbase & Hns & ->). assert (b2 = base) as ->.
    { unfold baseNameOf in Hb2. change (str "/" ++ base) with ("/"%byte :: base) in Hb2.
      rewrite rfind_char_app in Hb2 by done. unfold substr in Hb2. case_match; [|done]. injection Hb2 as <-.
      rewrite take_ge; [|rewrite length_drop; lia]. rewrite drop_app, drop_ge by lia. cbn [app].
      by replace (length nixStore + 1 - length nixStore) with 1 by lia. }
    specialize (Hnl Hb). subst b1. unfold writeFile in E. cbn [writeFile_at] in E.
    destruct (fs !! gcRoot) as [[x c| |t]|] eqn:Eo; [|done|by destruct (Hnl t)|].
    + injection E as <-. eapply rooted_file; [exact Hws|done|apply lookup_insert_eq|done|done].
    + apply fs_create_new in E as [_ ->]. eapply rooted_file; [exact Hws|done|apply lookup_insert_eq|done|done].
  - destruct (makeSymlink_spec _ _ _ _ _ _ _ Hwf Hp E) as [Hwf' Hhere _]. split; [done|]. by eapply rooted_link.
Qed.

Lemma makeSymlink_not_root pid rand target fs u fs' : makeSymlink pid rand slash target fs = (Ret u, fs') → False.
Proof.
  intros E. unfold makeSymlink in E. apply SM_bind_Ret in E as (d & fs1 & _ & E). apply SM_bind_Ret in E as (created & fs2 & _ & E).
  apply SM_bind_Ret in E as ([] & fs3 & [_ ->]%fs_call_Ret%fs_create_new & E%fs_call_Ret). unfold fs_rename in E.
  rewrite lookup_insert_eq in E. destruct (parent_of (slash ++ _)); [|done]. change (parent_of slash) with (Some slash) in E.
  cbn iota in E. case_decide as Hd; [|done]. destruct Hd as [_ Hd]. rewrite Hd in E. by repeat case_decide.
Qed.

End properties.

(** * Examples *)

Definition wf_test (fs : filesystem) : bool :=
  forallb (λ e, match parent_of e.1 with Some d => bool_decide (fs !! d = Some IDir) | None => false end) (map_to_list fs).

Lemma wf_test_sound fs : wf_test fs = true → fs_wf fs.
Proof.
  unfold wf_test. rewrite forallb_forall. intros H q i Hq%elem_of_map_to_list%list_elem_of_In. specialize (H _ Hq). cbn [fst] in H.
  destruct (parent_of q) as [d|]; [|done]. exists d. by apply bool_decide_eq_true in H.
Qed.

Definition home_fs : filesystem := list_to_map
  [(str "/", IDir); (str "/home", IDir); (str "/home/data", IFile false (str "data")); (str "/var", IDir); (str "/var/guix", IDir);
   (str "/var/guix/gcroots", IDir); (str "/var/guix/gcroots/a", ILink (str "/home/data")); (str "/var/guix/profiles", IDir)].

Definition home_state : list bytes := [str "var"; str "guix"].
Definition home_valid (p : bytes) : outcome bool := Ret (bool_decide (p = str "/gnu/store/a")).

Local Abbreviation home_add gcRoot indirect :=
  (@addPermRoot toy_gcrypt (str "/gnu/store") (render home_state) home_valid 9 true (str "17") (λ _, str "5") (Ret ())
    (str "/gnu/store/a") gcRoot indirect false home_fs).


(** The search for roots does find it. *)
Example added_root_found :
  (match @findRoots (fs_os (home_add (str "/home/result") true).2) home_valid (str "/gnu/store") (render home_state) 9 with
   | Ret (roots, _) => roots | _ => [] end) = [(str "/home/result", str "/gnu/store/a")].
Proof. vm_compute. reflexivity. Qed.

(** A root whose name is that of the store path is written as an empty file. If it is
    a link, the file it leads to is emptied instead, and there is no root. *)
Theorem root_written_through_link :
  let '(r, fs') := home_add (str "/var/guix/gcroots/a") false in
  r = Ret (str "/var/guix/gcroots/a", true) ∧ fs' !! str "/home/data" = Some (IFile false []) ∧
  @findRoots (fs_os fs') home_valid (str "/gnu/store") (render home_state) 9 = Ret ([], []).
Proof. vm_compute. done. Qed.
