(* ===== verification/Inodes.v ===== *)
(** Files as the kernel keeps them: names that lead to inodes, and inodes with
    an owner, permissions and a modification time, for the code that is about
    these (Metadata, Optimise). [view] forgets them and gives the file system of
    Archive. There is one device. Each system call may also fail for a reason of
    its own: [k_fault] says with which error, by the number of the call. *)

From S2P Require Import Prelude StateMonad Containers Serialise Hash Archive StoreFiles.

Definition EPERM : Z := 1.
Definition EISDIR : Z := 21.
Definition EMLINK : Z := 31.
Definition ENOSPC : Z := 28.
Definition ENOSYS : Z := 38.

Inductive payload :=
  | PFile (contents : bytes)
  | PDir
  | PLink (target : bytes)
  | PSpecial.

#[global] Instance payload_eq_dec : EqDecision payload.
Proof. solve_decision. Defined.

(** [n_perm] is the twelve low bits of the mode. *)
Record node := mkNode {
  n_payload : payload;
  n_perm : Z;
  n_uid : Z;
  n_mtime : Z
}.

Record Disk := mkDisk {
  d_names : gmap bytes N;
  d_nodes : gmap N node;
  d_clock : N                                (* system calls made *)
}.

(** The kernel's other answers: the user, the process, the time, [rand()], sizes
    of what is not a file. *)
Class Kernel := {
  k_fault : N → option Z;
  k_euid : Z;
  k_pid : N;
  k_now : N → Z;
  k_rand : N → N;
  k_othersize : payload → Z;
  k_blocks : payload → Z
}.

(** * Modes *)

Definition S_IFMT : Z := 61440.              (* 0170000 *)
Definition S_IFREG : Z := 32768.             (* 0100000 *)
Definition S_IFDIR : Z := 16384.             (* 0040000 *)
Definition S_IFLNK : Z := 40960.             (* 0120000 *)
Definition S_IXUSR : Z := 64.                (* 0100 *)
Definition S_IWUSR : Z := 128.               (* 0200 *)

Definition type_bits (p : payload) : Z :=
  match p with
  | PFile _ => S_IFREG
  | PDir => S_IFDIR
  | PLink _ => S_IFLNK
  | PSpecial => 4096                         (* a FIFO *)
  end.

Definition node_mode (n : node) : Z := Z.lor (type_bits (n_payload n)) (n_perm n).

(** The owner may execute it. *)
Definition xbit (n : node) : bool := negb (bool_decide (Z.land (node_mode n) S_IXUSR = 0%Z)).

(** * The contents *)

Definition node_inode (n : node) : option inode :=
  match n_payload n with
  | PFile c => Some (IFile (xbit n) c)
  | PDir => Some IDir
  | PLink t => Some (ILink t)
  | PSpecial => None
  end.

Definition view (d : Disk) : filesystem :=
  omap (λ i, d_nodes d !! i ≫= node_inode) (d_names d).

(** * System calls *)

(** The result of a system call, or its [errno]. *)
Abbreviation sys A := (SM Disk (Z + A)).

Record stat := mkStat {
  st_ino : N;
  st_mode : Z;
  st_nlink : nat;
  st_uid : Z;
  st_size : Z;
  st_blocks : Z;
  st_mtime : Z
}.

Definition S_ISREG (st : stat) : bool := bool_decide (Z.land (st_mode st) S_IFMT = S_IFREG).
Definition S_ISDIR (st : stat) : bool := bool_decide (Z.land (st_mode st) S_IFMT = S_IFDIR).
Definition S_ISLNK (st : stat) : bool := bool_decide (Z.land (st_mode st) S_IFMT = S_IFLNK).

(** The name with its inode. *)
Definition find_node (p : bytes) (d : Disk) : option (N * node) :=
  i ← d_names d !! p; n ← d_nodes d !! i; Some (i, n).

Definition nlink (i : N) (d : Disk) : nat := size (filter (λ e, e.2 = i) (d_names d)).

Definition set_node (i : N) (n : node) (d : Disk) : Disk := mkDisk (d_names d) (<[i := n]> (d_nodes d)) (d_clock d).
Definition set_names (m : gmap bytes N) (d : Disk) : Disk := mkDisk m (d_nodes d) (d_clock d).

Section syscalls.
Context {kernel : Kernel}.

Definition tick (d : Disk) : Disk := mkDisk (d_names d) (d_nodes d) (d_clock d + 1).

Definition call {A} (f : Disk → (Z + A) * Disk) : sys A := λ d,
  match k_fault (d_clock d) with
  | Some e => (Ret (inl e), tick d)
  | None => let '(r, d) := f (tick d) in (Ret r, d)
  end.

(** [if (f(...) == -1) throw SysError(msg)] *)
Definition orThrow {A} (msg : string) (m : sys A) : SM Disk A :=
  r ← m;
  match r with
  | inl e => lift (Throw (SysError e msg))
  | inr a => mret a
  end.

Definition node_size (n : node) : Z :=
  match n_payload n with
  | PFile c => Z.of_nat (length c)
  | PLink t => Z.of_nat (length t)
  | p => k_othersize p
  end.

Definition stat_of (i : N) (n : node) (d : Disk) : stat :=
  mkStat i (node_mode n) (nlink i d) (n_uid n) (node_size n) (k_blocks (n_payload n)) (n_mtime n).

Definition lstat (p : bytes) : sys stat := call (λ d,
  match find_node p d with
  | None => (inl ENOENT, d)
  | Some (i, n) => (inr (stat_of i n d), d)
  end).

(** A change of the inode that [p] names; [chmod] and [utimes] follow symbolic
    links at the end of the path. *)
Definition change_node (p : bytes) (f : node → node) (d : Disk) : (Z + ()) * Disk :=
  match find_node p d with
  | None => (inl ENOENT, d)
  | Some (i, n) => (inr (), set_node i (f n) d)
  end.

Fixpoint follow (links : nat) (p : bytes) (d : Disk) : option bytes :=
  match find_node p d with
  | Some (_, n) =>
      match n_payload n with
      | PLink t => match links with 0 => None | S links => follow links (link_target p t) d end
      | _ => Some p
      end
  | None => Some p
  end.

Definition change_followed (p : bytes) (f : node → node) (d : Disk) : (Z + ()) * Disk :=
  match follow 40 p d with
  | None => (inl ELOOP, d)
  | Some p => change_node p f d
  end.

Definition chmod (p : bytes) (mode : Z) : sys () :=
  call (change_followed p (λ n, mkNode (n_payload n) (Z.land mode 4095) (n_uid n) (n_mtime n))).

Definition with_mtime (mtime : Z) (n : node) : node := mkNode (n_payload n) (n_perm n) (n_uid n) mtime.

Definition lutimes (p : bytes) (mtime : Z) : sys () := call (change_node p (with_mtime mtime)).
Definition utimes (p : bytes) (mtime : Z) : sys () := call (change_followed p (with_mtime mtime)).

Definition lchown (p : bytes) (uid : Z) : sys () :=
  call (change_node p (λ n, mkNode (n_payload n) (n_perm n) uid (n_mtime n))).

(** [opendir] and [readdir] *)
Definition entries (p : bytes) (d : Disk) : list (bytes * N) :=
  omap (λ e, (λ n, (n, e.2)) <$> child_name p e.1) (map_to_list (d_names d)).

Definition readdir (p : bytes) : sys (list (bytes * N)) := call (λ d,
  match find_node p d with
  | None => (inl ENOENT, d)
  | Some (_, n) => if decide (n_payload n = PDir) then (inr (entries p d), d) else (inl ENOTDIR, d)
  end).

(** A directory whose entries change has the time of that as its own. *)
Definition touch_dir (dir : bytes) (d : Disk) : Disk :=
  match find_node dir d with
  | Some (i, n) => set_node i (with_mtime (k_now (d_clock d)) n) d
  | None => d
  end.

Definition is_dir (p : bytes) (d : Disk) : bool :=
  match find_node p d with
  | Some (_, n) => bool_decide (n_payload n = PDir)
  | None => false
  end.

Definition link (a b : bytes) : sys () := call (λ d,
  match find_node a d, parent_of b with
  | Some (i, n), Some dir =>
      if decide (n_payload n = PDir) then (inl EPERM, d)
      else if negb (is_dir dir d) then (inl ENOENT, d)
      else if decide (is_Some (d_names d !! b)) then (inl EEXIST, d)
      else (inr (), touch_dir dir (set_names (<[b := i]> (d_names d)) d))
  | _, _ => (inl ENOENT, d)
  end).

(** An inode that has lost its last name stays in the table, out of reach. *)
Definition unlink (p : bytes) : sys () := call (λ d,
  match find_node p d, parent_of p with
  | Some (i, n), Some dir =>
      if decide (n_payload n = PDir) then (inl EISDIR, d)
      else (inr (), touch_dir dir (set_names (delete p (d_names d)) d))
  | _, _ => (inl ENOENT, d)
  end).

(** [rename], when [a] is not a directory. Two names of the same inode are both
    kept. *)
Definition rename_file (a b : bytes) : sys () := call (λ d,
  match find_node a d, parent_of a, parent_of b with
  | Some (i, n), Some dirA, Some dirB =>
      if decide (n_payload n = PDir) then (inl EINVAL, d)
      else if negb (is_dir dirB d) then (inl ENOENT, d)
      else if is_dir b d then (inl EISDIR, d)
      else if decide (d_names d !! b = Some i) then (inr (), d)
      else (inr (), touch_dir dirA (touch_dir dirB (set_names (<[b := i]> (delete a (d_names d))) d)))
  | _, _, _ => (inl ENOENT, d)
  end).

(** [pathExists] *)
Definition pathExists_disk (p : bytes) : SM Disk bool :=
  r ← lstat p;
  match r with
  | inr _ => mret true
  | inl e =>
      if decide (e = ENOENT ∨ e = ENOTDIR) then mret false
      else lift (Throw (SysError e "getting status"))
  end.

(** [hashPath]; a read may fail. *)
Definition hashPath_disk {gc : Gcrypt} (ht : HashType) (p : bytes) : SM Disk (Hash * Z) :=
  orThrow "reading" (call (λ d, (inr (), d)));;
  gets (λ d, hashPath ht p (view d)).
End syscalls.

(** * Rules *)

(** Some call fails for a reason of its own. *)
Definition faulty {kernel : Kernel} : Prop := ∃ c e, k_fault c = Some e.

Section rules.
Context {kernel : Kernel} {A : Type}.
Implicit Types (P E : Disk → Prop).

Lemma hoare_call P (f : Disk → (Z + A) * Disk) Q E :
  (∀ d e, faulty → P d → Q (inl e) (tick d)) → (∀ d r d', P d → f (tick d) = (r, d') → Q r d') → hoare P (call f) Q E.
Proof.
  intros Hf Hr d Hd. unfold call. destruct (k_fault (d_clock d)) eqn:Ek; [apply Hf; [by eexists _, _|done]|].
  destruct (f (tick d)) as [r d'] eqn:E'. by apply (Hr d).
Qed.

Lemma hoare_orThrow P msg (m : sys A) Q E :
  hoare P m (λ r d, match r with inl _ => E d | inr a => Q a d end) E → hoare P (orThrow msg m) Q E.
Proof.
  intros Hm. eapply hoare_bind; [exact Hm|]. intros [e|a]; [by apply hoare_lift|by apply hoare_ret].
Qed.

Lemma finishes_call P (f : Disk → (Z + A) * Disk) : finishes P (call f).
Proof. intros d _. unfold call. destruct (k_fault _); [done|]. by destruct (f (tick d)). Qed.

Lemma finishes_orThrow P msg (m : sys A) : finishes P m → finishes P (orThrow msg m).
Proof.
  intros Hm. apply (finishes_bind _ _ (λ _ _, True)); [done|by intros d _; destruct (m d) as [[]]|]. by intros [].
Qed.
End rules.

(** * Well-formed disks *)

Record disk_wf (d : Disk) : Prop := {
  wf_named p i : d_names d !! p = Some i → is_Some (d_nodes d !! i);
  wf_perm i n : d_nodes d !! i = Some n → (0 <= n_perm n < 4096)%Z;
  wf_parents p i : d_names d !! p = Some i → ∃ dir, parent_of p = Some dir ∧ is_dir dir d = true;
  wf_names p i : d_names d !! p = Some i → p ≠ slash → last p ≠ Some "/"%byte
}.

Lemma wf_nodes d : disk_wf d → ∀ p i, d_names d !! p = Some i → ∃ n, d_nodes d !! i = Some n ∧ (0 <= n_perm n < 4096)%Z.
Proof.
  intros Hwf p i Hp. destruct (wf_named _ Hwf p i Hp) as [n Hn]. exists n. split; [done|by apply (wf_perm _ Hwf i)].
Qed.

Lemma find_node_Some p d i n : find_node p d = Some (i, n) ↔ d_names d !! p = Some i ∧ d_nodes d !! i = Some n.
Proof.
  unfold find_node. destruct (d_names d !! p) as [j|]; simpl; [|naive_solver].
  destruct (d_nodes d !! j) eqn:E; simpl; naive_solver.
Qed.

Lemma find_node_None p d : disk_wf d → find_node p d = None ↔ d_names d !! p = None.
Proof.
  intros Hwf. unfold find_node. destruct (d_names d !! p) as [j|] eqn:E; [|done].
  destruct (wf_nodes _ Hwf _ _ E) as (n & Hn & _). simpl. by rewrite Hn.
Qed.

Lemma lookup_view d p : view d !! p = find_node p d ≫= λ e, node_inode e.2.
Proof.
  unfold view, find_node. rewrite lookup_omap. destruct (d_names d !! p) as [i|]; [|done]. simpl.
  by destruct (d_nodes d !! i).
Qed.

(** ** Type and permissions in one number *)

(** The permissions are below the type bits, so that a mask for one does not see
    the other. *)
Lemma land_type p m : (0 <= m < 4096)%Z → Z.land (Z.lor (type_bits p) m) S_IFMT = type_bits p.
Proof.
  intros Hm. rewrite Z.land_lor_distr_l.
  assert (Z.land m S_IFMT = 0)%Z as ->.
  { apply Z.bits_inj'. intros k Hk. rewrite Z.land_spec, Z.bits_0.
    destruct (decide (k < 12)%Z) as [Hlt|Hge].
    - assert (Z.testbit S_IFMT k = false) as ->; [|apply andb_false_r].
      change S_IFMT with (Z.shiftl 15 12). by apply Z.shiftl_spec_low.
    - rewrite (Z.bits_above_log2 m k); [done|lia|].
      destruct (decide (m = 0)%Z) as [->|]; [simpl; lia|]. apply Z.lt_le_trans with 12%Z; [|lia].
      apply Z.log2_lt_pow2; [lia|]. change (2 ^ 12)%Z with 4096%Z. lia. }
  rewrite Z.lor_0_r. by destruct p.
Qed.

Lemma land_perm p m : (0 <= m < 4096)%Z → Z.land (Z.lor (type_bits p) m) (Z.lnot S_IFMT) = m.
Proof.
  intros Hm. assert (Z.land (type_bits p) (Z.lnot S_IFMT) = 0)%Z as Hp by (by destruct p).
  rewrite Z.land_lor_distr_l, Hp, Z.lor_0_l. apply Z.bits_inj'. intros k Hk.
  rewrite Z.land_spec, Z.lnot_spec by done. destruct (decide (k < 12)%Z) as [Hlt|Hge].
  - assert (Z.testbit S_IFMT k = false) as ->; [|apply andb_true_r].
    change S_IFMT with (Z.shiftl 15 12). by apply Z.shiftl_spec_low.
  - rewrite (Z.bits_above_log2 m k); [done|lia|].
    destruct (decide (m = 0)%Z) as [->|]; [simpl; lia|]. apply Z.lt_le_trans with 12%Z; [|lia].
    apply Z.log2_lt_pow2; [lia|]. change (2 ^ 12)%Z with 4096%Z. lia.
Qed.

Lemma land_4095_range m : (0 <= Z.land m 4095 < 4096)%Z.
Proof.
  change 4095%Z with (Z.ones 12). rewrite Z.land_ones by lia. apply Z.mod_pos_bound. lia.
Qed.

Lemma land_bit_4095 m k : (0 <= k < 12)%Z → Z.testbit (Z.land m 4095) k = Z.testbit m k.
Proof.
  intros Hk. rewrite Z.land_spec. change 4095%Z with (Z.ones 12). rewrite Z.ones_spec_low by lia. apply andb_true_r.
Qed.

Lemma land_pow2 m k : (0 <= k)%Z → bool_decide (Z.land m (2 ^ k) = 0)%Z = negb (Z.testbit m k).
Proof.
  intros Hk. destruct (Z.testbit m k) eqn:E; simpl.
  - apply bool_decide_eq_false. intros E'. apply (f_equal (λ z, Z.testbit z k)) in E'.
    by rewrite Z.land_spec, Z.pow2_bits_true, E, Z.bits_0 in E'.
  - apply bool_decide_eq_true. apply Z.bits_inj'. intros j Hj. rewrite Z.land_spec, Z.bits_0, Z.pow2_bits_eqb by done.
    destruct (Z.eqb_spec k j) as [->|]; [by rewrite E|apply andb_false_r].
Qed.

Lemma type_bit p k : (0 <= k < 12)%Z → Z.testbit (type_bits p) k = false.
Proof.
  intros Hk. destruct p; simpl.
  - change S_IFREG with (2 ^ 15)%Z. apply Z.pow2_bits_false. lia.
  - change S_IFDIR with (2 ^ 14)%Z. apply Z.pow2_bits_false. lia.
  - change S_IFLNK with (Z.shiftl 10 12). apply Z.shiftl_spec_low. lia.
  - change 4096%Z with (2 ^ 12)%Z. apply Z.pow2_bits_false. lia.
Qed.

Lemma xbit_spec n : xbit n = Z.testbit (n_perm n) 6.
Proof.
  unfold xbit, node_mode. change S_IXUSR with (2 ^ 6)%Z. rewrite land_pow2, negb_involutive, Z.lor_spec by lia.
  by rewrite type_bit.
Qed.

Section stats.
Context {kernel : Kernel} (i : N) (n : node) (d : Disk).
Hypothesis Hperm : (0 <= n_perm n < 4096)%Z.

Lemma stat_type : Z.land (st_mode (stat_of i n d)) S_IFMT = type_bits (n_payload n).
Proof. unfold stat_of, node_mode. cbn [st_mode]. by apply land_type. Qed.

Lemma stat_S_ISREG : S_ISREG (stat_of i n d) = match n_payload n with PFile _ => true | _ => false end.
Proof. unfold S_ISREG. rewrite stat_type. by destruct (n_payload n). Qed.

Lemma stat_S_ISDIR : S_ISDIR (stat_of i n d) = match n_payload n with PDir => true | _ => false end.
Proof. unfold S_ISDIR. rewrite stat_type. by destruct (n_payload n). Qed.

Lemma stat_S_ISLNK : S_ISLNK (stat_of i n d) = match n_payload n with PLink _ => true | _ => false end.
Proof. unfold S_ISLNK. rewrite stat_type. by destruct (n_payload n). Qed.
End stats.

(** What stays true when a call only counts as made. *)
Definition stable {kernel : Kernel} (P : Disk → Prop) : Prop := ∀ d, P d → P (tick d).

Lemma hoare_lstat {kernel : Kernel} P p msg (E : Disk → Prop) :
  stable P → (∀ d, P d → faulty ∨ find_node p d = None → E d) →
  hoare P (orThrow msg (lstat p))
    (λ st d, ∃ x : N * node * Disk, P d ∧ find_node p d = Some x.1 ∧ st = stat_of x.1.1 x.1.2 x.2) E.
Proof.
  intros HP HE. apply hoare_orThrow, hoare_call; [by auto|]. intros d r d' Hd Ef.
  change (find_node p (tick d)) with (find_node p d) in Ef.
  destruct (find_node p d) as [[i n]|] eqn:En; injection Ef as <- <-; [|by auto].
  exists (i, n, tick d). split_and!; [by apply HP|exact En|done].
Qed.

Lemma hoare_readdir {kernel : Kernel} P p msg (E : Disk → Prop) :
  stable P → (∀ d, P d → faulty ∨ is_dir p d = false → E d) →
  hoare P (orThrow msg (readdir p)) (λ es d, P d ∧ es = entries p d) E.
Proof.
  intros HP HE. apply hoare_orThrow, hoare_call; [by auto|]. intros d r d' Hd Ef.
  assert (is_dir p (tick d) = is_dir p d) as Hdir by done. unfold is_dir at 1 in Hdir.
  destruct (find_node p (tick d)) as [[i n]|]; [|injection Ef as <- <-; by auto].
  case_decide as Hp; injection Ef as <- <-; [split; [by apply HP|done]|].
  apply HE; [by apply HP|]. right. change (is_dir p (tick d)) with (is_dir p d). by rewrite <-Hdir, bool_decide_eq_false_2.
Qed.

Lemma elem_of_entries p d n i :
  (n, i) ∈ entries p d ↔ d_names d !! (p ++ slash ++ n) = Some i ∧ n ≠ [] ∧ "/"%byte ∉ n.
Proof.
  unfold entries. rewrite list_elem_of_omap. split.
  - intros ([q j] & Hq%elem_of_map_to_list & E). cbn [fst snd] in E.
    destruct (child_name p q) as [n'|] eqn:En; [|done]. injection E as <- <-.
    apply child_name_Some in En as (-> & ? & ?). done.
  - intros (Hi & Hn & Hs). exists (p ++ slash ++ n, i). split; [by apply elem_of_map_to_list|]. cbn [fst snd].
    assert (child_name p (p ++ slash ++ n) = Some n) as -> by (by apply child_name_Some). done.
Qed.

Lemma proper_child p n : proper p → proper (p ++ slash ++ n).
Proof. intros [Hp Hs]. split; [by destruct p|]. by destruct p as [|x [|y p]]. Qed.

(** What lies below a path lies in an entry of it, and the path is a directory. *)
Lemma named_below d p q i :
  disk_wf d → proper p → at_or_below p q → q ≠ p → d_names d !! q = Some i →
  is_dir p d = true ∧
  ∃ n j, n ≠ [] ∧ "/"%byte ∉ n ∧ d_names d !! (p ++ slash ++ n) = Some j ∧ at_or_below (p ++ slash ++ n) q.
Proof.
  intros Hwf Hp. remember (length q) as l eqn:El. revert q i El.
  induction (lt_wf l) as [l _ IH]. intros q i El Hb Hne Hi. destruct (wf_parents _ Hwf q i Hi) as (dir & Ed & Hd).
  destruct (parent_below p q dir Hp Hb Hne Ed) as [Hb' Hl]. destruct (decide (dir = p)) as [->|Hdir].
  - split; [done|]. apply parent_of_Some in Ed as (s & t & -> & Ht & Es). case_decide as Hs; [by destruct Hp|]. subst s.
    exists t, i. split_and!; [|done|done|by left]. intros ->. eapply (wf_names _ Hwf); [exact Hi| |].
    + intros E. destruct p as [|x p]; [done|]. injection E as -> E. by destruct p.
    + rewrite (assoc (++)), app_nil_r. apply last_snoc.
  - assert (∃ j, d_names d !! dir = Some j) as [j Hj].
    { unfold is_dir in Hd. destruct (find_node dir d) as [[j m]|] eqn:En; [|done]. apply find_node_Some in En as [? _]. by exists j. }
    destruct (IH (length dir) ltac:(lia) dir j eq_refl Hb' Hdir Hj) as (Hpd & n & k & Hn & Hs & Hk & Hbn). split; [done|].
    exists n, k. split_and!; try done. by eapply below_parent; [apply proper_child| |].
Qed.

(** ** Changes that keep a disk well-formed *)

Lemma is_dir_set_node i n n' d p :
  d_nodes d !! i = Some n → n_payload n' = n_payload n → is_dir p (set_node i n' d) = is_dir p d.
Proof.
  intros Hn Hp. unfold is_dir, find_node. cbn [set_node d_names d_nodes]. destruct (d_names d !! p) as [j|]; [|done]. simpl.
  destruct (decide (j = i)) as [->|]; [|by rewrite lookup_insert_ne]. rewrite lookup_insert_eq, Hn. simpl. by rewrite Hp.
Qed.

Lemma wf_set_node i n n' d :
  disk_wf d → d_nodes d !! i = Some n → n_payload n' = n_payload n → (0 <= n_perm n' < 4096)%Z → disk_wf (set_node i n' d).
Proof.
  intros Hwf Hn Hp Hr. split; cbn [set_node d_names d_nodes].
  - intros p j Hj. destruct (decide (j = i)) as [->|]; [by rewrite lookup_insert_eq|]. rewrite lookup_insert_ne by done.
    by apply (wf_named _ Hwf p).
  - intros j m. rewrite lookup_insert_Some. intros [[_ <-]|[_ Hm]]; [done|]. by apply (wf_perm _ Hwf j).
  - intros p j Hj. destruct (wf_parents _ Hwf p j Hj) as (dir & Ed & Hd). exists dir. split; [done|].
    by rewrite (is_dir_set_node i n).
  - apply (wf_names _ Hwf).
Qed.

(** The names change, those of directories apart. *)
Lemma wf_set_names m d :
  disk_wf d →
  (∀ q i, m !! q = Some i → d_names d !! q = Some i ∨
    (is_Some (d_nodes d !! i) ∧ (∃ dir, parent_of q = Some dir ∧ is_dir dir d = true) ∧ last q ≠ Some "/"%byte)) →
  (∀ q, is_dir q d = true → m !! q = d_names d !! q) →
  disk_wf (set_names m d) ∧ ∀ q, is_dir q d = true → is_dir q (set_names m d) = true.
Proof.
  intros Hwf Hm Hd.
  assert (∀ q, is_dir q d = true → is_dir q (set_names m d) = true) as Hdir.
  { intros q Hq. pose proof (Hd q Hq) as E. unfold is_dir, find_node in *. cbn [set_names d_names d_nodes]. by rewrite E. }
  split; [|done]. split; cbn [set_names d_names d_nodes].
  - intros p i [Hp|(? & _)]%Hm; [by apply (wf_named _ Hwf p)|done].
  - apply (wf_perm _ Hwf).
  - intros p i [Hp|(_ & (dir & ? & ?) & _)]%Hm; [|eauto]. destruct (wf_parents _ Hwf p i Hp) as (dir & ? & ?). eauto.
  - intros p i [Hp|(_ & _ & ?)]%Hm ?; [by apply (wf_names _ Hwf p i)|done].
Qed.

Lemma hoare_pathExists {kernel : Kernel} P p (E : Disk → Prop) :
  stable P → (∀ d, P d → faulty → E d) →
  hoare P (pathExists_disk p)
    (λ b d, P d ∧ if (b : bool) then is_Some (find_node p d) else faulty ∨ find_node p d = None) E.
Proof.
  intros HP HE. unfold pathExists_disk.
  apply (hoare_bind _ _ (λ r d, P d ∧ match r with
    | inr _ => is_Some (find_node p d)
    | inl e => faulty ∨ (e = ENOENT ∧ find_node p d = None)
    end)).
  - apply hoare_call; [by auto|]. intros d r d' Hd Ef. apply HP in Hd.
    destruct (find_node p (tick d)) as [[i n]|] eqn:En; injection Ef as <- <-; (split; [done|]); [by eexists|by right].
  - intros [e|st]; [|by apply hoare_ret]. case_decide as He.
    + apply hoare_ret. intros d [Hd [?|[_ ?]]]; auto.
    + apply hoare_lift; [|done]. intros d [Hd [?|[-> _]]]; [by apply HE|]. destruct He. by left.
Qed.

(** ** Changes of names *)

Section name_calls.
Context {kernel : Kernel} (P E : Disk → Prop) (HP : stable P).

Lemma hoare_link a b :
  (∀ d, P d → ∃ i n dir, find_node a d = Some (i, n) ∧ n_payload n ≠ PDir ∧ parent_of b = Some dir ∧ is_dir dir d = true) →
  hoare P (link a b) (λ r d', match r with
    | inl e => P d' ∧ (faulty ∨ (e = EEXIST ∧ is_Some (d_names d' !! b)))
    | inr _ => ∃ d i dir, P d ∧ d_names d !! a = Some i ∧ d_names d !! b = None ∧ parent_of b = Some dir ∧ is_dir dir d = true ∧
        d' = touch_dir dir (set_names (<[b := i]> (d_names d)) d)
    end) E.
Proof.
  intros Hpre. apply hoare_call; [by auto|]. intros d r d' Hd Ef. apply HP in Hd.
  destruct (Hpre _ Hd) as (i & n & dir & Ha & Hn & Hb & Hdir). rewrite Ha, Hb, Hdir in Ef. rewrite decide_False in Ef by done.
  cbn [negb] in Ef. case_decide as Hex; injection Ef as <- <-; [by auto|].
  exists (tick d), i, dir. apply find_node_Some in Ha as [Ha _]. split_and!; try done.
  by apply eq_None_not_Some.
Qed.

Lemma hoare_unlink p :
  (∀ d, P d → ∃ dir, parent_of p = Some dir) →
  hoare P (unlink p) (λ r d', match r with
    | inl e => P d' ∧ (faulty ∨ find_node p d' = None ∨ is_dir p d' = true)
    | inr _ => ∃ d i dir, P d ∧ d_names d !! p = Some i ∧ parent_of p = Some dir ∧
        d' = touch_dir dir (set_names (delete p (d_names d)) d)
    end) E.
Proof.
  intros Hpre. apply hoare_call; [by auto|]. intros d r d' Hd Ef. apply HP in Hd. destruct (Hpre _ Hd) as [dir Hdir].
  rewrite Hdir in Ef. destruct (find_node p (tick d)) as [[i n]|] eqn:En; [|injection Ef as <- <-; by auto].
  case_decide as Hn; injection Ef as <- <-.
  - split; [done|]. right; right. unfold is_dir. rewrite En. by apply bool_decide_eq_true.
  - exists (tick d), i, dir. by apply find_node_Some in En as [? _].
Qed.

Lemma hoare_rename_file a b :
  (∀ d, P d → ∃ i n dirA dirB, find_node a d = Some (i, n) ∧ n_payload n ≠ PDir ∧ parent_of a = Some dirA ∧
    parent_of b = Some dirB ∧ is_dir dirB d = true ∧ is_dir b d = false ∧ d_names d !! b ≠ Some i) →
  hoare P (rename_file a b) (λ r d', match r with
    | inl e => P d' ∧ faulty
    | inr _ => ∃ d i dirA dirB, P d ∧ d_names d !! a = Some i ∧ parent_of a = Some dirA ∧ parent_of b = Some dirB ∧ is_dir dirB d = true ∧
        d' = touch_dir dirA (touch_dir dirB (set_names (<[b := i]> (delete a (d_names d))) d))
    end) E.
Proof.
  intros Hpre. apply hoare_call; [by auto|]. intros d r d' Hd Ef. apply HP in Hd.
  destruct (Hpre _ Hd) as (i & n & dirA & dirB & Ha & Hn & HA & HB & HdB & Hb & Hne). rewrite Ha, HA, HB, HdB, Hb in Ef.
  rewrite decide_False in Ef by done. cbn [negb] in Ef. rewrite decide_False in Ef by done. injection Ef as <- <-.
  exists (tick d), i, dirA, dirB. by apply find_node_Some in Ha as [? _].
Qed.
End name_calls.
