(* ===== verification/Metadata.v ===== *)
(** libstore/local-store.cc: the metadata of files in the store. Permissions,
    owner and modification time are set to canonical values, and a file that the
    build user does not own is left alone. *)

From S2P Require Import Prelude StateMonad Containers Serialise Hash Archive StoreFiles Inodes.

(** * The code *)

Definition mtimeStore : Z := 1.

(** [(uid_t) -1] *)
Definition no_uid : Z := 4294967295.

Definition ro_mode : Z := 292.               (* 0444 *)
Definition rx_mode : Z := 365.               (* 0555 *)

Section metadata.
Context {kernel : Kernel}.

Definition canonicaliseTimestampAndPermissions_ (path : bytes) (st : stat) : SM Disk () :=
  (if S_ISLNK st then mret ()
   else
     let mode := Z.land (st_mode st) (Z.lnot S_IFMT) in
     if decide (mode ≠ ro_mode ∧ mode ≠ rx_mode) then
       let mode := Z.lor (Z.lor (Z.land (st_mode st) S_IFMT) ro_mode)
                         (if decide (Z.land (st_mode st) S_IXUSR = 0%Z) then 0%Z else 73%Z) in   (* 0111 *)
       orThrow "changing mode" (chmod path mode)
     else mret ());;
  if decide (st_mtime st = mtimeStore) then mret ()
  else
    r ← lutimes path mtimeStore;
    match r with
    | inr _ => mret ()
    | inl e =>
        if decide (e ≠ ENOSYS) then lift (Throw (SysError e "changing modification time"))
        else if S_ISLNK st then mret ()
        else orThrow "changing modification time" (utimes path mtimeStore)
    end.

Definition canonicaliseTimestampAndPermissions (path : bytes) : SM Disk () :=
  st ← orThrow "getting attributes of path" (lstat path);
  canonicaliseTimestampAndPermissions_ path st.

(** The call of [lchown] with the test in front of it. *)
Definition take_ownership (path : bytes) (st : stat) : SM Disk () :=
  when (negb (bool_decide (st_uid st = k_euid))) (orThrow "changing owner" (lchown path k_euid)).

Fixpoint canonicalisePathMetaData_ (fuel : nat) (path : bytes) (fromUid : Z) (inodesSeen : gset N)
    : SM Disk (gset N) :=
  match fuel with
  | 0 => lift OutOfFuel
  | S fuel =>
      st ← orThrow "getting attributes of path" (lstat path);
      lift (check (S_ISREG st || S_ISDIR st || S_ISLNK st) (Error "file has an unsupported type"));;
      if decide (fromUid ≠ no_uid ∧ st_uid st ≠ fromUid) then
        lift (check (negb (S_ISDIR st)) (AssertionFailed "!S_ISDIR"));;
        lift (check (bool_decide (st_ino st ∈ inodesSeen)) (BuildError "invalid ownership on file"));;
        let mode := Z.land (st_mode st) (Z.lnot S_IFMT) in
        lift (check (S_ISLNK st || (bool_decide (st_uid st = k_euid) &&
                                    bool_decide (mode = ro_mode ∨ mode = rx_mode) &&
                                    bool_decide (st_mtime st = mtimeStore)))
               (AssertionFailed "S_ISLNK || canonical"));;
        mret inodesSeen
      else
        let inodesSeen := {[st_ino st]} ∪ inodesSeen in
        canonicaliseTimestampAndPermissions_ path st;;
        take_ownership path st;;
        if S_ISDIR st then
          es ← orThrow "opening directory" (readdir path);
          iterM (λ inodesSeen i, canonicalisePathMetaData_ fuel (path ++ slash ++ i.1) fromUid inodesSeen) es inodesSeen
        else mret inodesSeen
  end.

Definition canonicalisePathMetaData (fuel : nat) (path : bytes) (fromUid : Z) (inodesSeen : gset N)
    : SM Disk (gset N) :=
  inodesSeen ← canonicalisePathMetaData_ fuel path fromUid inodesSeen;
  st ← orThrow "getting attributes of path" (lstat path);
  if decide (st_uid st ≠ k_euid) then
    lift (check (S_ISLNK st) (AssertionFailed "S_ISLNK"));;
    lift (Throw (Error "wrong ownership of top-level store path"))
  else mret inodesSeen.
End metadata.

(** * Canonical files *)

Section canonical.
Context {kernel : Kernel}.

(** What a file in the store looks like. The time of a symbolic link need not be
    settable. *)
Definition canonical (n : node) : Prop :=
  n_uid n = k_euid ∧
  match n_payload n with
  | PLink _ => True
  | PSpecial => False
  | _ => (n_perm n = ro_mode ∨ n_perm n = rx_mode) ∧ n_mtime n = mtimeStore
  end.

Definition canonical_ino (i : N) (d : Disk) : Prop := ∃ n, d_nodes d !! i = Some n ∧ canonical n.

(** The same contents, and executable or not as before. *)
Definition same_contents (n n' : node) : Prop :=
  n_payload n' = n_payload n ∧ xbit n' = xbit n ∧ ((0 <= n_perm n < 4096)%Z → (0 <= n_perm n' < 4096)%Z).

Lemma same_contents_refl n : same_contents n n.
Proof. done. Qed.

Lemma same_contents_trans n1 n2 n3 : same_contents n1 n2 → same_contents n2 n3 → same_contents n1 n3.
Proof. intros (E1 & E2 & H1) (E3 & E4 & H2). split_and!; [congruence|congruence|auto]. Qed.

(** [d] has come from [d0]: the names are the same, and so are the inodes but for
    the metadata of those in [scope] that the code may change. *)
Definition evolved (fromUid : Z) (scope : N → Prop) (d0 d : Disk) : Prop :=
  d_names d = d_names d0 ∧
  ∀ i, match d_nodes d0 !! i, d_nodes d !! i with
       | Some n, Some n' => n' = n ∨ (same_contents n n' ∧ (fromUid = no_uid ∨ n_uid n = fromUid) ∧ scope i)
       | None, None => True
       | _, _ => False
       end.

Lemma evolved_refl fromUid scope d : evolved fromUid scope d d.
Proof. split; [done|]. intros i. destruct (d_nodes d !! i); auto. Qed.

Lemma evolved_set fromUid scope d0 d i n n' :
  evolved fromUid scope d0 d → d_nodes d !! i = Some n → fromUid = no_uid ∨ n_uid n = fromUid → scope i →
  same_contents n n' → evolved fromUid scope d0 (set_node i n' d).
Proof.
  intros [Hnames Hnodes] Hn Hu Hi Hs. split; [done|]. intros j. cbn [set_node d_nodes]. specialize (Hnodes j).
  destruct (decide (j = i)) as [->|]; [|by rewrite lookup_insert_ne].
  rewrite lookup_insert_eq. rewrite Hn in Hnodes. destruct (d_nodes d0 !! i) as [n0|]; [|done].
  right. destruct Hnodes as [->|(Hs0 & Hu0 & _)]; [done|]. split; [by eapply same_contents_trans|done].
Qed.

Lemma evolved_view fromUid scope d0 d : evolved fromUid scope d0 d → view d = view d0.
Proof.
  intros [Hnames Hnodes]. apply map_eq. intros p. rewrite !lookup_view. unfold find_node. rewrite Hnames.
  destruct (d_names d0 !! p) as [i|]; [|done]. cbn [mbind option_bind]. specialize (Hnodes i).
  destruct (d_nodes d0 !! i) as [n|], (d_nodes d !! i) as [n'|]; try done. simpl.
  destruct Hnodes as [->|((E1 & E2 & _) & _)]; [done|]. unfold node_inode. by rewrite E1, E2.
Qed.

Lemma evolved_wf fromUid scope d0 d : evolved fromUid scope d0 d → disk_wf d0 → disk_wf d.
Proof.
  intros [Hnames Hnodes] [Hw Hr Hp Hl]. split.
  - intros p i. rewrite Hnames. intros [n Hn]%Hw. specialize (Hnodes i). rewrite Hn in Hnodes.
    by destruct (d_nodes d !! i).
  - intros i n' Hn'. specialize (Hnodes i). rewrite Hn' in Hnodes. destruct (d_nodes d0 !! i) as [n|] eqn:En; [|done].
    destruct Hnodes as [->|((_ & _ & Hr') & _)]; eauto.
  - intros p i. rewrite Hnames. intros Hi.
    destruct (Hp p i Hi) as (dir & Ed & Hdir). exists dir. split; [done|]. revert Hdir. unfold is_dir, find_node.
    rewrite Hnames. destruct (d_names d0 !! dir) as [j|]; [|done]. simpl. specialize (Hnodes j).
    destruct (d_nodes d0 !! j) as [n|], (d_nodes d !! j) as [n'|]; try done. simpl.
    by destruct Hnodes as [->|((-> & _) & _)].
  - intros p i. rewrite Hnames. apply Hl.
Qed.
End canonical.

(** * One file *)

Section one_file.
Context {kernel : Kernel} (path : bytes) (i : N).

Lemma hoare_change_node P f n E :
  stable P →
  hoare (λ d, P d ∧ find_node path d = Some (i, n)) (call (change_node path f))
    (λ r d, match r with
            | inl _ => faulty ∧ P d ∧ find_node path d = Some (i, n)
            | inr _ => ∃ d1, P d1 ∧ find_node path d1 = Some (i, n) ∧ d = set_node i (f n) d1
            end) E.
Proof.
  intros HP. apply hoare_call; [intros d e Hfl [Hd Hn]; split_and!; [done|by apply HP|exact Hn]|].
  intros d r d' [Hd Hn] Ef. unfold change_node in Ef. change (find_node path (tick d)) with (find_node path d) in Ef.
  rewrite Hn in Ef. injection Ef as <- <-. exists (tick d). split_and!; [by apply HP|exact Hn|done].
Qed.

Lemma hoare_change_followed P f n E :
  stable P → (∀ t, n_payload n ≠ PLink t) →
  hoare (λ d, P d ∧ find_node path d = Some (i, n)) (call (change_followed path f))
    (λ r d, match r with
            | inl _ => faulty ∧ P d ∧ find_node path d = Some (i, n)
            | inr _ => ∃ d1, P d1 ∧ find_node path d1 = Some (i, n) ∧ d = set_node i (f n) d1
            end) E.
Proof.
  intros HP Hl. apply hoare_call; [intros d e Hfl [Hd Hn]; split_and!; [done|by apply HP|exact Hn]|].
  intros d r d' [Hd Hn] Ef. unfold change_followed, change_node in Ef.
  assert (follow 40 path (tick d) = Some path) as Hfo.
  { cbn [follow]. change (find_node path (tick d)) with (find_node path d). rewrite Hn.
    destruct (n_payload n); try done. by edestruct Hl. }
  rewrite Hfo in Ef. change (find_node path (tick d)) with (find_node path d) in Ef.
  rewrite Hn in Ef. injection Ef as <- <-. exists (tick d). split_and!; [by apply HP|exact Hn|done].
Qed.

Context (fromUid : Z) (scope : N → Prop) (d0 : Disk).

(** The inodes of [D] other than the one at hand are canonical. *)
Definition others_inv (D : N → Prop) (d : Disk) : Prop :=
  evolved fromUid scope d0 d ∧ ∀ j, D j → j ≠ i → canonical_ino j d.

Lemma others_inv_stable D : stable (others_inv D).
Proof. by intros d Hd. Qed.

Lemma find_set_node n n' d : find_node path d = Some (i, n) → find_node path (set_node i n' d) = Some (i, n').
Proof.
  intros [Hp Hn]%find_node_Some. apply find_node_Some. cbn [set_node d_names d_nodes]. by rewrite lookup_insert_eq.
Qed.

Context (n0 : node) (Hperm : (0 <= n_perm n0 < 4096)%Z) (Hscope : scope i) (Hown : fromUid = no_uid ∨ n_uid n0 = fromUid).

Lemma others_inv_set D n n' d :
  others_inv D d → find_node path d = Some (i, n) → n_uid n = n_uid n0 → same_contents n n' → others_inv D (set_node i n' d).
Proof.
  intros [He HD] [_ Hn]%find_node_Some Hu Hs. split.
  - eapply evolved_set; [done|done| |done|done]. by rewrite Hu.
  - intros j Hj Hne. destruct (HD j Hj Hne) as (m & Hm & Hc). exists m. split; [|done].
    cbn [set_node d_nodes]. by rewrite lookup_insert_ne.
Qed.

(** A state of the file at hand. *)
Definition working (D : N → Prop) (φ : node → Prop) (d : Disk) : Prop :=
  others_inv D d ∧ ∃ n, find_node path d = Some (i, n) ∧ same_contents n0 n ∧ n_uid n = n_uid n0 ∧ φ n.

Lemma hoare_change_working D (φ ψ : node → Prop) f (m : sys ()) E :
  (∀ n, same_contents n0 n → hoare (λ d, others_inv D d ∧ find_node path d = Some (i, n)) m
    (λ r d, match r with
            | inl _ => faulty ∧ others_inv D d ∧ find_node path d = Some (i, n)
            | inr _ => ∃ d1, others_inv D d1 ∧ find_node path d1 = Some (i, n) ∧ d = set_node i (f n) d1
            end) E) →
  (∀ n, same_contents n0 n → φ n → same_contents n (f n) ∧ n_uid (f n) = n_uid n ∧ ψ (f n)) →
  hoare (working D φ) m (λ r, match r with inl _ => λ d, faulty ∧ working D φ d | inr _ => working D ψ end) E.
Proof.
  intros Hm Hf d (Hd & n & Hn & Hs & Hu & Hφ). specialize (Hm n Hs d (conj Hd Hn)).
  destruct (m d) as [[[e|[]]| |] d'] eqn:Ed; [| |done|done].
  - destruct Hm as (Hfl & Hd' & Hn'). split; [done|]. split; [done|]. by exists n.
  - destruct Hm as (d1 & Hd1 & Hn1 & ->). destruct (Hf n Hs Hφ) as (Hs' & Hu' & Hψ). split.
    + by eapply others_inv_set.
    + exists (f n). split; [by eapply find_set_node|]. split; [by eapply same_contents_trans|]. split; [congruence|done].
Qed.

Definition is_symlink (p : payload) : bool := match p with PLink _ => true | _ => false end.

(** The permissions are canonical, if the file has any. *)
Definition perm_ok (n : node) : Prop := is_symlink (n_payload n) = false → n_perm n = ro_mode ∨ n_perm n = rx_mode.
Definition mtime_ok (n : node) : Prop := is_symlink (n_payload n) = false → n_mtime n = mtimeStore.

Lemma stat_symlink d : S_ISLNK (stat_of i n0 d) = is_symlink (n_payload n0).
Proof. by apply stat_S_ISLNK. Qed.

Lemma not_symlink n : same_contents n0 n → is_symlink (n_payload n0) = false → ∀ t, n_payload n ≠ PLink t.
Proof. intros (Hp & _) Hl t E. by rewrite <-Hp, E in Hl. Qed.

(** The new mode. *)
Lemma new_mode_ok n d :
  same_contents n0 n →
  let mode := Z.lor (Z.lor (Z.land (st_mode (stat_of i n0 d)) S_IFMT) ro_mode)
                    (if decide (Z.land (st_mode (stat_of i n0 d)) S_IXUSR = 0%Z) then 0%Z else 73%Z) in
  let n' := mkNode (n_payload n) (Z.land mode 4095) (n_uid n) (n_mtime n) in
  same_contents n n' ∧ (n_perm n' = ro_mode ∨ n_perm n' = rx_mode).
Proof.
  intros (Hp & Hx & _) mode n'.
  assert (n_perm n' = if xbit n0 then rx_mode else ro_mode) as Hn'.
  { unfold n', mode. cbn [n_perm]. rewrite stat_type by done. unfold xbit. case_decide as E; cbn [stat_of st_mode] in E.
    - rewrite bool_decide_eq_true_2 by done. by destruct (n_payload n0).
    - rewrite bool_decide_eq_false_2 by done. by destruct (n_payload n0). }
  split; [|rewrite Hn'; destruct (xbit n0); auto]. split_and!; [done| |intros _; rewrite Hn'; by destruct (xbit n0)].
  rewrite (xbit_spec n'), Hn', Hx. by destruct (xbit n0).
Qed.

Lemma canonicaliseTimestamp_ok D d1 :
  hoare (working D (λ n, n_perm n = n_perm n0 ∧ n_mtime n = n_mtime n0))
    (canonicaliseTimestampAndPermissions_ path (stat_of i n0 d1))
    (λ _, working D (λ n, perm_ok n ∧ mtime_ok n)) (λ d, evolved fromUid scope d0 d ∧ faulty).
Proof.
  assert (∀ φ d, faulty ∧ working D φ d → evolved fromUid scope d0 d ∧ faulty) as Hev by (by intros φ d (? & (? & _) & _)).
  unfold canonicaliseTimestampAndPermissions_. rewrite stat_symlink.
  apply (hoare_bind _ _ (λ _, working D (λ n, perm_ok n ∧ n_mtime n = n_mtime n0))); [|intros []].
  - destruct (is_symlink (n_payload n0)) eqn:Hl.
    { apply hoare_ret. intros d (Hd & n & Hn & Hs & Hu & _ & Hm). split; [done|]. exists n. split_and!; try done.
      intros Hl'. destruct Hs as (Hp & _). congruence. }
    case_decide as Hmode.
    + apply hoare_orThrow. eapply hoare_conseq; [|intros d Hd; exact Hd| |intros d Hd; exact Hd].
      { eapply (hoare_change_working _ _ (λ n, perm_ok n ∧ n_mtime n = n_mtime n0)).
        - intros n Hs. apply hoare_change_followed; [apply others_inv_stable|by apply not_symlink].
        - intros n Hs [_ Hm]. destruct (new_mode_ok n d1 Hs) as [Hs' Hp']. split_and!; [exact Hs'|done|by intros _|exact Hm]. }
      intros [e|[]] d; [apply Hev|done].
    + apply hoare_ret. intros d (Hd & n & Hn & Hs & Hu & Hp & Hm). split; [done|]. exists n. split_and!; try done.
      intros _. rewrite Hp. unfold stat_of, node_mode in Hmode. cbn [st_mode] in Hmode. rewrite land_perm in Hmode by done.
      destruct (decide (n_perm n0 = ro_mode)); [by left|right]. destruct (decide (n_perm n0 = rx_mode)); [done|tauto].
  - case_decide as Hm1.
    { apply hoare_ret. intros d (Hd & n & Hn & Hs & Hu & Hp & Hm). split; [done|]. exists n. split_and!; try done.
      intros _. by rewrite Hm. }
    assert (∀ n, perm_ok n ∧ n_mtime n = n_mtime n0 → perm_ok (with_mtime mtimeStore n) ∧ mtime_ok (with_mtime mtimeStore n)) as Hok.
    { intros n [Hp _]. split; [exact Hp|by intros _]. }
    assert (∀ n, same_contents n (with_mtime mtimeStore n)) as Hsame by done.
    eapply hoare_bind.
    { apply (hoare_change_working _ _ (λ n, perm_ok n ∧ mtime_ok n) (with_mtime mtimeStore)); [|by auto].
      intros n _. apply hoare_change_node, others_inv_stable. }
    intros [e|[]]; [|by apply hoare_ret].
    case_decide; [apply hoare_lift; [by apply Hev|done]|].
    eapply (hoare_conseq _ (working D (λ n, perm_ok n ∧ n_mtime n = n_mtime n0)));
      [|by intros d [_ Hd]|intros a d Hd; exact Hd|intros d Hd; exact Hd]. destruct (is_symlink (n_payload n0)) eqn:Hl.
    { apply hoare_ret. intros d (Hd & n & Hn & Hs & Hu & Hp & Hm). split; [done|]. exists n. split_and!; try done.
      intros Hl'. destruct Hs as (Hp' & _). congruence. }
    apply hoare_orThrow. eapply hoare_conseq; [|intros d Hd; exact Hd| |intros d Hd; exact Hd].
    { apply (hoare_change_working _ _ (λ n, perm_ok n ∧ mtime_ok n) (with_mtime mtimeStore)); [|by auto].
      intros n Hs. apply hoare_change_followed; [apply others_inv_stable|by apply not_symlink]. }
    intros [e'|[]] d; [apply Hev|done].
Qed.

Definition canon_inv (D : N → Prop) (d : Disk) : Prop :=
  evolved fromUid scope d0 d ∧ ∀ j, D j → canonical_ino j d.

Lemma take_ownership_ok D d1 :
  n_payload n0 ≠ PSpecial →
  hoare (working D (λ n, perm_ok n ∧ mtime_ok n)) (take_ownership path (stat_of i n0 d1))
    (λ _, canon_inv (λ j, D j ∨ j = i)) (λ d, evolved fromUid scope d0 d ∧ faulty).
Proof.
  intros Hsp.
  assert (∀ d n, others_inv D d → find_node path d = Some (i, n) → same_contents n0 n → perm_ok n → mtime_ok n →
    n_uid n = k_euid → canon_inv (λ j, D j ∨ j = i) d) as Hdone.
  { intros d n [He HD] Hn (Hpl & _) Hp Hm Hu. split; [done|]. apply find_node_Some in Hn as [_ Hn].
    assert (canonical_ino i d) as Hi.
    { exists n. split; [done|]. split; [done|]. unfold perm_ok, mtime_ok in *. destruct (n_payload n); [auto|auto|done|congruence]. }
    intros j [Hj| ->]; [|done]. destruct (decide (j = i)) as [->|]; [done|by apply HD]. }
  unfold take_ownership. apply hoare_when.
  - intros _. apply hoare_orThrow. intros d (Hd & n & Hn & Hs & Hu & Hp & Hm).
    pose proof (hoare_change_node (others_inv D) (λ n, mkNode (n_payload n) (n_perm n) k_euid (n_mtime n)) n
      (λ d, evolved fromUid scope d0 d ∧ faulty) (others_inv_stable D) d (conj Hd Hn)) as Hc. unfold lchown.
    destruct (call _ d) as [[[e|[]]| |] d']; [by destruct Hc as (? & [? _] & _)| |done|done].
    destruct Hc as (d2 & Hd2 & Hn2 & ->). eapply Hdone; [by eapply others_inv_set|by eapply find_set_node| |done|done|done].
    eapply same_contents_trans; [exact Hs|done].
  - intros Hu d (Hd & n & Hn & Hs & Hu' & Hp & Hm). eapply Hdone; try done.
    apply negb_false_iff, bool_decide_eq_true in Hu. cbn [stat_of st_uid] in Hu. congruence.
Qed.
End one_file.

(** [canonicaliseTimestampAndPermissions(path)] changes the inode that the path
    names, and no contents. *)
Lemma canonicaliseTimestamp_evolves {kernel : Kernel} path d i n :
  disk_wf d → find_node path d = Some (i, n) →
  evolved no_uid (λ j, j = i) d (canonicaliseTimestampAndPermissions path d).2.
Proof.
  intros Hwf Hn. assert ((0 <= n_perm n < 4096)%Z) as Hperm by (apply find_node_Some in Hn as [_ Hn]; by apply (wf_perm _ Hwf i)).
  apply (hoare_run (λ d', evolved no_uid (λ j, j = i) d d' ∧ find_node path d' = Some (i, n))
    (canonicaliseTimestampAndPermissions path)); [|split; [apply evolved_refl|exact Hn]].
  eapply hoare_bind; [apply hoare_lstat; [by intros d' Hd|by intros d' [? _] _]|]. intros st. apply hoare_exists. intros [[j m] d1]. cbn [fst snd].
  apply (hoare_pure (j = i ∧ m = n ∧ st = stat_of i n d1)); [intros d' ((_ & Hn') & Hm & ->); rewrite Hn' in Hm; by injection Hm as <- <-|].
  intros (-> & -> & ->).
  eapply hoare_conseq; [apply (canonicaliseTimestamp_ok path i no_uid (λ j, j = i) d n Hperm eq_refl (or_introl eq_refl) (λ _, False))| | |].
  - intros d' ((He & Hn') & _). split; [split; [exact He|by intros j []]|]. exists n. split; [exact Hn'|]. by split; [apply same_contents_refl|].
  - by intros [] d' ((? & _) & _).
  - by intros d' [? _].
Qed.

(** * A whole path *)

Section walk.
Context {kernel : Kernel} (top : bytes) (fromUid : Z) (d0 : Disk) (Hwf : disk_wf d0).

(** The inodes that have a name at or below [p]. *)
Definition named (p : bytes) (i : N) : Prop := ∃ q, at_or_below p q ∧ d_names d0 !! q = Some i.

Abbreviation scope := (named top).
Abbreviation inv D := (canon_inv fromUid scope d0 D).

(** Nothing stands in the way: no call fails on its own, the path is there, all
    files are taken, whoever owns them, and are of a supported type. *)
Definition smooth : Prop :=
  ¬ faulty ∧ fromUid = no_uid ∧ is_Some (d_names d0 !! top) ∧
  ∀ i n, named top i → d_nodes d0 !! i = Some n → n_payload n ≠ PSpecial.

(** No name is that long. *)
Definition names_bound (d : Disk) : nat := S (max_list ((λ e, length e.1) <$> map_to_list (d_names d))).

Lemma names_bound_lookup d p i : d_names d !! p = Some i → length p < names_bound d.
Proof.
  intros Hi. apply Nat.lt_succ_r, max_list_elem_of_le, list_elem_of_fmap. exists (p, i). split; [done|]. by apply elem_of_map_to_list.
Qed.

Lemma named_top p i : at_or_below top p → d_names d0 !! p = Some i → scope i.
Proof. intros Hp Hi. by exists p. Qed.

(** A file is all there is at its name. *)
Lemma named_file p i j : proper p → d_names d0 !! p = Some i → is_dir p d0 = false → named p j → j = i.
Proof.
  intros Hp Hi Hd (q & Hq & Hj). destruct (decide (q = p)) as [->|Hne]; [congruence|].
  destruct (named_below d0 p q j Hwf Hp Hq Hne Hj) as [Hdir _]. congruence.
Qed.

(** What is below a directory is the directory and what is below its entries. *)
Lemma named_dir p i d j :
  proper p → evolved fromUid scope d0 d → d_names d0 !! p = Some i → named p j →
  j = i ∨ ∃ e, e ∈ entries p d ∧ named (p ++ slash ++ e.1) j.
Proof.
  intros Hp He Hi (q & Hq & Hj). destruct (decide (q = p)) as [->|Hne]; [left; congruence|right].
  destruct (named_below d0 p q j Hwf Hp Hq Hne Hj) as (_ & m & k & Hm & Hs & Hk & Hb).
  exists (m, k). split; [apply elem_of_entries; by rewrite (proj1 He)|by exists q].
Qed.

Lemma evolved_payload d p i n :
  evolved fromUid scope d0 d → find_node p d = Some (i, n) → ∃ m, find_node p d0 = Some (i, m) ∧ n_payload m = n_payload n.
Proof.
  intros [Hnames Hnodes] [Hi Hn]%find_node_Some. rewrite Hnames in Hi. unfold find_node. rewrite Hi. simpl.
  specialize (Hnodes i). rewrite Hn in Hnodes. destruct (d_nodes d0 !! i) as [m|]; [|done]. exists m. split; [done|].
  by destruct Hnodes as [->|((-> & _) & _)].
Qed.

Lemma evolved_is_dir d p : evolved fromUid scope d0 d → is_dir p d = is_dir p d0.
Proof.
  intros He. unfold is_dir. destruct (find_node p d) as [[i n]|] eqn:En.
  - by destruct (evolved_payload _ _ _ _ He En) as (m & -> & ->).
  - destruct (find_node p d0) as [[i n]|] eqn:En0; [|done]. apply find_node_Some in En0 as [Hi Hn]. destruct He as [Hnames Hnodes].
    specialize (Hnodes i). unfold find_node in En. rewrite Hnames, Hi in En. simpl in En. rewrite Hn in Hnodes.
    by destruct (d_nodes d !! i).
Qed.

Lemma canon_inv_mono D D' d : inv D d → (∀ j, D' j → D j ∨ canonical_ino j d) → inv D' d.
Proof. intros [He HD] Hs. split; [done|]. intros j Hj. destruct (Hs j Hj); auto. Qed.

(** How the walk ends when it does not return. *)
Definition stopped (d : Disk) : Prop := evolved fromUid scope d0 d ∧ ¬ smooth.

Lemma stopped_faulty d : evolved fromUid scope d0 d ∧ faulty → stopped d.
Proof. intros [He Hf]. split; [done|]. by intros [? _]. Qed.

Lemma lstat_stops D p d :
  (smooth → is_Some (d_names d0 !! p)) → inv D d → faulty ∨ find_node p d = None → stopped d.
Proof.
  intros Hex Hd [Hf|Hn]; [apply stopped_faulty; by split; [apply Hd|]|]. split; [apply Hd|]. intros Hs.
  destruct (Hex Hs) as [i Hi]. pose proof (evolved_wf _ _ _ _ (proj1 Hd) Hwf) as Hwf'.
  apply (find_node_None p d Hwf') in Hn. rewrite (proj1 (proj1 Hd)) in Hn. congruence.
Qed.

Lemma canonicalise_ok fuel path D seen :
  at_or_below top path → proper path → (∀ i, i ∈ seen → D i) →
  0 < fuel → names_bound d0 <= length path + fuel → (smooth → is_Some (d_names d0 !! path)) →
  hoare (inv D) (canonicalisePathMetaData_ fuel path fromUid seen)
    (λ seen', inv (λ i, D i ∨ i ∈ seen' ∨ named path i)) stopped.
Proof.
  revert path D seen. induction fuel as [|fuel IH]; intros path D seen Hpath Hproper Hseen Hpos Hfuel Hex; [lia|].
  cbn [canonicalisePathMetaData_].
  assert (∀ D d, inv D d → evolved fromUid scope d0 d) as Hev by (by intros ? d [? _]).
  eapply hoare_bind; [apply hoare_lstat; [by intros d Hd|by intros d; apply lstat_stops]|]. intros st.
  apply hoare_exists. intros [[i n] d1]. cbn [fst snd].
  apply (hoare_pure ((0 <= n_perm n < 4096)%Z ∧ scope i ∧ st = stat_of i n d1 ∧ d_names d0 !! path = Some i ∧
    is_dir path d0 = bool_decide (n_payload n = PDir) ∧ (smooth → n_payload n ≠ PSpecial))).
  { intros d (Hd & Hf & ->). pose proof (evolved_wf _ _ _ _ (Hev _ _ Hd) Hwf) as Hwf'.
    destruct (evolved_payload _ _ _ _ (Hev _ _ Hd) Hf) as (m & Hm & Hpl).
    assert (is_dir path d0 = bool_decide (n_payload n = PDir)) as Hdir by (unfold is_dir; by rewrite Hm, Hpl).
    apply find_node_Some in Hf as [Hi Hn], Hm as [Him Hm].
    destruct (wf_nodes _ Hwf' _ _ Hi) as (n' & Hn' & ?). simplify_eq. rewrite (proj1 (proj1 Hd)) in Hi.
    assert (scope i) as Hi' by (by apply (named_top path)).
    split; [done|]. split; [done|]. split; [done|]. split; [done|]. split; [done|].
    intros (_ & _ & _ & Hs). rewrite <-Hpl. by apply (Hs i). }
  intros (Hperm & Hscope & -> & Hi & Hisdir & Hspecial).
  eapply hoare_bind.
  { apply hoare_check. intros Hc d (Hd & Hn & _). split; [by eapply Hev|]. intros Hs%Hspecial. revert Hc.
    rewrite stat_S_ISREG, stat_S_ISDIR, stat_S_ISLNK by done. by destruct (n_payload n). }
  intros []. rewrite stat_S_ISREG, stat_S_ISDIR, stat_S_ISLNK by done. apply hoare_pre. intros Hty.
  assert (n_payload n ≠ PSpecial) as Hsp by (by intros E; rewrite E in Hty).
  destruct (decide (fromUid ≠ no_uid ∧ st_uid (stat_of i n d1) ≠ fromUid)) as [Hforeign|Hforeign].
  { (* a file of somebody else's that was seen before *)
    assert (∀ d, inv D d → stopped d) as Hstop by (intros d Hd; split; [by eapply Hev|by intros (_ & ? & _); destruct Hforeign]).
    eapply hoare_bind; [apply hoare_check; intros _ d [Hd _]; by apply Hstop|].
    intros []. apply hoare_pre. intros Hdir. eapply hoare_bind; [apply hoare_check; intros _ d [Hd _]; by apply Hstop|].
    intros []. apply hoare_pre. intros HD%bool_decide_eq_true. eapply hoare_bind; [apply hoare_check; intros _ d [Hd _]; by apply Hstop|].
    intros []. apply hoare_ret. intros d (_ & Hd & Hn & _). apply (canon_inv_mono D); [done|].
    intros j [Hj|[Hj|Hj]]; left; auto. assert (j = i) as ->; [|by apply Hseen].
    eapply named_file; [done|done| |done]. rewrite Hisdir. by destruct (n_payload n). }
  assert (fromUid = no_uid ∨ n_uid n = fromUid) as Hown.
  { cbn [stat_of st_uid] in Hforeign. destruct (decide (fromUid = no_uid)), (decide (n_uid n = fromUid)); tauto. }
  eapply (hoare_bind _ _ (λ _, working path i fromUid scope d0 n D (λ n, perm_ok n ∧ mtime_ok n))).
  { eapply hoare_conseq; [exact (canonicaliseTimestamp_ok path i fromUid scope d0 n Hperm Hscope Hown D d1)| |done|by apply stopped_faulty].
    intros d (Hd & Hn & _). split; [split; [by apply (Hev D)|intros j Hj _; by apply Hd]|].
    exists n. split; [done|]. by split; [apply same_contents_refl|]. }
  intros []. eapply hoare_bind.
  { eapply hoare_conseq; [exact (take_ownership_ok path i fromUid scope d0 n Hscope Hown D d1 Hsp)|done| |by apply stopped_faulty].
    intros a d Hd. exact Hd. }
  intros [].
  destruct (n_payload n) eqn:Epl; try (apply hoare_ret; intros d Hd; eapply canon_inv_mono; [exact Hd|];
    intros j [Hj|[Hj|Hj]]; left; [by left|rewrite elem_of_union, elem_of_singleton in Hj; naive_solver|
      right; by eapply named_file]).
  set (D1 := λ j, D j ∨ j = i).
  eapply hoare_bind; [apply (hoare_readdir (inv D1)); [by intros d Hd|]|].
  { intros d Hd [Hf|Hn]; [apply stopped_faulty; by split; [eapply Hev|]|]. rewrite (evolved_is_dir d) in Hn by (by eapply Hev).
    rewrite Hisdir, bool_decide_eq_true_2 in Hn; done. }
  intros es.
  apply (hoare_pure (∃ d, evolved fromUid scope d0 d ∧ es = entries path d)); [intros d [Hd ->]; exists d; split; [by eapply Hev|done]|].
  intros (d2 & He2 & ->).
  eapply hoare_conseq; [apply (hoare_iterM_prefix (λ k seen' d,
    inv (λ j, D1 j ∨ j ∈ seen' ∨ ∃ e, e ∈ k ∧ named (path ++ slash ++ e.1) j) d))| | |done].
  - intros k [m h] k' seen' Ek. cbn [fst].
    assert ((m, h) ∈ entries path d2) as (Hm & Hne & _)%elem_of_entries by (rewrite Ek; set_solver).
    rewrite (proj1 He2) in Hm.
    eapply hoare_conseq; [eapply (IH (path ++ slash ++ m) (λ j, D1 j ∨ j ∈ seen' ∨ ∃ e, e ∈ k ∧ named (path ++ slash ++ e.1) j))| | |done].
    + eapply below_trans; [exact Hpath|]. right. exists m. by rewrite (assoc (++)).
    + by apply proper_child.
    + auto.
    + pose proof (names_bound_lookup d0 (path ++ slash ++ m) h Hm) as Hb. rewrite !length_app in Hb. simpl in Hb. destruct m; [done|]. simpl in Hb. lia.
    + rewrite !length_app. simpl. lia.
    + by eexists.
    + done.
    + intros seen'' d Hd. eapply canon_inv_mono; [exact Hd|]. intros j [Hj|[Hj|(e & [He| ->%list_elem_of_singleton]%elem_of_app & Hj)]]; left; naive_solver.
  - intros d [Hd _]. eapply canon_inv_mono; [exact Hd|]. intros j [Hj|[Hj|(e & []%not_elem_of_nil & _)]]; left; [done|].
    rewrite elem_of_union, elem_of_singleton in Hj. unfold D1. naive_solver.
  - intros seen' d Hd. eapply canon_inv_mono; [exact Hd|]. intros j [Hj|[Hj|Hj]]; left; [by left; left|by right; left|].
    destruct (named_dir path i d2 j Hproper He2 Hi Hj) as [->|?]; [by left; right|by right; right].
Qed.

(** ** The walk ends *)

Lemma canonicaliseTimestamp_finishes P path st : finishes P (canonicaliseTimestampAndPermissions_ path st).
Proof.
  apply (finishes_bind _ _ (λ _ _, True)); [|apply hoare_true|intros []].
  - destruct (S_ISLNK st); [by intros d _|]. cbv zeta.
    destruct (decide (Z.land (st_mode st) (Z.lnot S_IFMT) ≠ ro_mode ∧ Z.land (st_mode st) (Z.lnot S_IFMT) ≠ rx_mode)); [|by intros d _]. apply finishes_orThrow, finishes_call.
  - case_decide; [by intros d _|]. apply (finishes_bind _ _ (λ _ _, True)); [apply finishes_call|apply hoare_true|].
    intros [e|[]]; [|by intros d _]. case_decide; [by intros d _|]. destruct (S_ISLNK st); [by intros d _|]. apply finishes_orThrow, finishes_call.
Qed.

(** The names do not change. *)
Definition keeps_names {A} (m : SM Disk A) : Prop := ∀ d, d_names (m d).2 = d_names d.

Lemma keeps_names_ret {A} (a : A) : keeps_names (mret a).
Proof. by intros d. Qed.

Lemma keeps_names_lift {A} (r : outcome A) : keeps_names (lift r).
Proof. by intros d. Qed.

Lemma keeps_names_bind {A B} (m : SM Disk A) (f : A → SM Disk B) :
  keeps_names m → (∀ a, keeps_names (f a)) → keeps_names (m ≫= f).
Proof.
  intros Hm Hf d. unfold mbind, SM_bind. pose proof (Hm d) as Hd. destruct (m d) as [[a|e|] d']; [|done|done].
  rewrite Hf. exact Hd.
Qed.

Lemma keeps_names_call {A} (f : Disk → (Z + A) * Disk) : (∀ d, d_names (f d).2 = d_names d) → keeps_names (call f).
Proof.
  intros Hf d. unfold call. destruct (k_fault _); [done|]. pose proof (Hf (tick d)) as Hd. by destruct (f (tick d)).
Qed.

Lemma keeps_names_orThrow {A} msg (m : sys A) : keeps_names m → keeps_names (orThrow msg m).
Proof. intros Hm. apply keeps_names_bind; [done|]. intros []; [apply keeps_names_lift|apply keeps_names_ret]. Qed.

Lemma change_node_names p f d : d_names (change_node p f d).2 = d_names d.
Proof. unfold change_node. by destruct (find_node p d) as [[]|]. Qed.

Lemma change_followed_names p f d : d_names (change_followed p f d).2 = d_names d.
Proof. unfold change_followed. destruct (follow 40 p d); [apply change_node_names|done]. Qed.

Lemma lstat_names p : keeps_names (lstat p).
Proof. apply keeps_names_call. intros d. by destruct (find_node p d) as [[]|]. Qed.

Lemma readdir_names p : keeps_names (readdir p).
Proof. apply keeps_names_call. intros d. destruct (find_node p d) as [[]|]; [by case_decide|done]. Qed.

Create HintDb names discriminated.
Hint Resolve keeps_names_ret keeps_names_lift keeps_names_orThrow keeps_names_call change_node_names change_followed_names lstat_names readdir_names : names.

Lemma canonicaliseTimestamp_names path st : keeps_names (canonicaliseTimestampAndPermissions_ path st).
Proof.
  apply keeps_names_bind.
  - destruct (S_ISLNK st); [auto with names|]. cbv zeta.
    destruct (decide (Z.land (st_mode st) (Z.lnot S_IFMT) ≠ ro_mode ∧ Z.land (st_mode st) (Z.lnot S_IFMT) ≠ rx_mode)); unfold chmod; auto with names.
  - intros []. case_decide; [auto with names|]. apply keeps_names_bind; [unfold lutimes; auto with names|].
    intros [e|[]]; [|auto with names]. case_decide; [auto with names|]. destruct (S_ISLNK st); unfold utimes; auto with names.
Qed.

Lemma take_ownership_names path st : keeps_names (take_ownership path st).
Proof. unfold take_ownership, when. destruct (negb _); unfold lchown; auto with names. Qed.

Lemma canonicalise_names fuel path seen : keeps_names (canonicalisePathMetaData_ fuel path fromUid seen).
Proof.
  revert path seen. induction fuel as [|fuel IH]; intros path seen; cbn [canonicalisePathMetaData_]; [auto with names|].
  apply keeps_names_bind; [auto with names|]. intros st. apply keeps_names_bind; [auto with names|]. intros []. case_decide.
  { repeat (apply keeps_names_bind; [auto with names|intros []]). auto with names. }
  apply keeps_names_bind; [apply canonicaliseTimestamp_names|]. intros [].
  apply keeps_names_bind; [apply take_ownership_names|]. intros []. destruct (S_ISDIR st); [|auto with names].
  apply keeps_names_bind; [auto with names|]. intros es. generalize ({[st_ino st]} ∪ seen).
  induction es as [|e es IHes]; intros s; cbn [iterM]; [auto with names|]. apply keeps_names_bind; [apply IH|apply IHes].
Qed.

Abbreviation same_names := (λ d : Disk, d_names d = d_names d0).

Lemma keeps_names_hoare {A} (m : SM Disk A) : keeps_names m → hoare same_names m (λ _, same_names) (λ _, True).
Proof. intros Hm d Hd. pose proof (Hm d) as Hd'. destruct (m d) as [[]]; [cbn [snd] in Hd'; congruence|done|done]. Qed.

Lemma canonicalise_finishes fuel path seen :
  0 < fuel → names_bound d0 <= length path + fuel →
  finishes same_names (canonicalisePathMetaData_ fuel path fromUid seen).
Proof.
  revert path seen. induction fuel as [|fuel IH]; intros path seen Hpos Hfuel; [lia|]. cbn [canonicalisePathMetaData_].
  apply (finishes_bind _ _ (λ _, same_names));
    [apply finishes_orThrow, finishes_call|apply keeps_names_hoare; auto with names|]. intros st.
  apply (finishes_bind _ _ (λ _, same_names)); [apply finishes_lift, check_terminates|apply keeps_names_hoare; auto with names|]. intros [].
  case_decide.
  { repeat (apply (finishes_bind _ _ (λ _, same_names)); [apply finishes_lift, check_terminates|apply keeps_names_hoare; auto with names|intros []]).
    done. }
  apply (finishes_bind _ _ (λ _, same_names));
    [apply canonicaliseTimestamp_finishes|apply keeps_names_hoare, canonicaliseTimestamp_names|]. intros [].
  apply (finishes_bind _ _ (λ _, same_names)); [|apply keeps_names_hoare, take_ownership_names|intros []].
  { apply finishes_when. intros _. apply finishes_orThrow, finishes_call. }
  destruct (S_ISDIR st); [|done].
  apply (finishes_bind _ _ (λ es d, (∀ e, e ∈ es → e ∈ entries path d) ∧ same_names d));
    [apply finishes_orThrow, finishes_call| |].
  { eapply hoare_conseq; [apply (hoare_readdir same_names _ _ (λ _, True)); [by intros d Hd|done]|done| |done].
    by intros es d [Hd ->]. }
  intros es. eapply (finishes_weaken _ (λ d, (∀ e, e ∈ es → e ∈ entries path d0) ∧ same_names d)).
  2: { intros d [Hes Hd]. split; [|done]. intros e He%Hes. unfold entries in *. by rewrite Hd in He. }
  intros d [Hes Hd]. revert d Hd. apply (finishes_iterM (λ _, same_names)); intros [m h] s He.
  - apply Hes, elem_of_entries in He as (Hm & Hne & _). apply names_bound_lookup in Hm. rewrite !length_app in Hm.
    apply IH; rewrite ?length_app; simpl in *; destruct m; [done|simpl in *; lia|done|simpl in *; lia].
  - apply keeps_names_hoare, canonicalise_names.
Qed.
End walk.

Lemma canonicalise_top {kernel : Kernel} fuel path fromUid seen d :
  disk_wf d → proper path → names_bound d <= fuel → (∀ i, i ∈ seen → canonical_ino i d) →
  finishes (λ d', d_names d' = d_names d) (canonicalisePathMetaData fuel path fromUid seen) ∧
  hoare (canon_inv fromUid (named d path) d (λ i, i ∈ seen)) (canonicalisePathMetaData fuel path fromUid seen)
    (λ seen', canon_inv fromUid (named d path) d (λ i, i ∈ seen ∨ i ∈ seen' ∨ named d path i))
    (stopped path fromUid d).
Proof.
  intros Hwf Hp Hfuel Hseen. assert (0 < fuel) as Hpos by (unfold names_bound in Hfuel; lia).
  unfold canonicalisePathMetaData. split.
  - apply (finishes_bind _ _ (λ _ d', d_names d' = d_names d)).
    + apply canonicalise_finishes; [done|lia].
    + apply keeps_names_hoare, canonicalise_names.
    + intros seen'. apply (finishes_bind _ _ (λ _ _, True)); [apply finishes_orThrow, finishes_call|apply hoare_true|].
      intros st. case_decide; [|by intros d' _]. apply (finishes_bind _ _ (λ _ _, True)); [apply finishes_lift, check_terminates|apply hoare_true|].
      by intros [] d' _.
  - eapply hoare_bind; [apply (canonicalise_ok path fromUid d Hwf fuel path (λ i, i ∈ seen)); try done; [by left|lia|by intros (_ & _ & ? & _)]|].
    intros seen'. eapply hoare_bind; [apply hoare_lstat; [by intros d' Hd|]|].
    { intros d' Hd. eapply (lstat_stops path fromUid d Hwf); [by intros (_ & _ & ? & _)|exact Hd]. }
    intros st. apply hoare_exists. intros [[i n] d1]. cbn [fst snd]. case_decide as Hu; [|apply hoare_ret; by intros d' [Hd _]].
    intros d' (Hd & [Hi Hn]%find_node_Some & ->). exfalso. apply Hu. cbn [stat_of st_uid].
    rewrite (proj1 (proj1 Hd)) in Hi. destruct (proj2 Hd i) as (n' & Hn' & Hc & _); [|by simplify_eq].
    right; right. exists path. split; [by left|done].
Qed.

(** * Properties *)

(** C13: Canonicalising the metadata of a path ends; and whether it succeeds or
    fails on the way, it changes no contents, no name, and no inode other than
    those at or below the path that the given user owns (all of them, when no
    user is given): a file of somebody else's that is linked into the path is
    left alone. When it returns, everything at or below the path is owned by this
    process and read-only with the time of the store; and it does return when no
    user is given, the path exists and has files of the supported types only, and
    no system call fails on its own. *)
Theorem canonicalisePathMetaData_correct {kernel : Kernel} fuel path fromUid seen d :
  disk_wf d → proper path → names_bound d <= fuel → (∀ i, i ∈ seen → canonical_ino i d) →
  let '(r, d') := canonicalisePathMetaData fuel path fromUid seen d in
  terminates r ∧ disk_wf d' ∧ view d' = view d ∧ d_names d' = d_names d ∧
  (∀ i n, d_nodes d !! i = Some n →
     d_nodes d' !! i = Some n ∨ (named d path i ∧ (fromUid = no_uid ∨ n_uid n = fromUid))) ∧
  (∀ seen', r = Ret seen' → ∀ i, i ∈ seen' ∨ named d path i → canonical_ino i d') ∧
  (smooth path fromUid d → ∃ seen', r = Ret seen').
Proof.
  intros Hwf Hp Hfuel Hseen. destruct (canonicalisePathMetaData fuel path fromUid seen d) as [r d'] eqn:E.
  pose proof (canonicalise_top fuel path fromUid seen d Hwf Hp Hfuel Hseen) as [Hfin Hok].
  specialize (Hfin d eq_refl). rewrite E in Hfin.
  specialize (Hok d (conj (evolved_refl _ _ _) Hseen)). rewrite E in Hok.
  assert (evolved fromUid (named d path) d d') as He by (destruct r; apply Hok).
  split_and!; [done|by eapply evolved_wf|by eapply evolved_view|apply He| | |].
  - intros i n Hn. destruct He as [_ He]. specialize (He i). rewrite Hn in He.
    destruct (d_nodes d' !! i) as [n'|]; [|done]. destruct He as [->|(_ & ? & ?)]; auto.
  - intros seen' -> i Hi. apply (proj2 Hok). tauto.
  - intros Hs. destruct r as [seen'| |]; [by eexists| |]; by destruct Hok.
Qed.

(** ** Witness *)

Definition calm_kernel : Kernel := {|
  k_fault := λ _, None;
  k_euid := 0;
  k_pid := 42;
  k_now := λ _, 1000%Z;
  k_rand := λ c, c;
  k_othersize := λ _, 4096%Z;
  k_blocks := λ _, 8%Z
|}.

(** The output of a build by user 30001: a program, twice, and in the second
    version also a link to somebody else's file. *)
Definition sample_names : gmap bytes N :=
  {[ slash := 1%N; str "/out" := 2%N; str "/out/prog" := 3%N; str "/out/same" := 3%N; str "/shadow" := 4%N ]}.
Definition sample_nodes : gmap N node :=
  {[ 1%N := mkNode PDir 493 0 5; 2%N := mkNode PDir 448 30001 77; 3%N := mkNode (PFile (str "text")) 2541 30001 78;
     4%N := mkNode (PFile (str "secret")) 384 0 79 ]}.
Definition sample_disk : Disk := mkDisk sample_names sample_nodes 0.
Definition tricky_disk : Disk := mkDisk (<[str "/out/shadow" := 4%N]> sample_names) sample_nodes 0.

Lemma wf_from (d : Disk) :
  (∀ e, e ∈ map_to_list (d_names d) →
    bool_decide (is_Some (d_nodes d !! e.2)) && default false ((λ dir, is_dir dir d) <$> parent_of e.1) &&
    bool_decide (e.1 ≠ slash → last e.1 ≠ Some "/"%byte) = true) →
  (∀ e, e ∈ map_to_list (d_nodes d) → (0 <= n_perm e.2 < 4096)%Z) → disk_wf d.
Proof.
  intros Hn Hr.
  assert (∀ p i, d_names d !! p = Some i → is_Some (d_nodes d !! i) ∧ default false ((λ dir, is_dir dir d) <$> parent_of p) = true ∧
    (p ≠ slash → last p ≠ Some "/"%byte)) as H.
  { intros p i Hp%elem_of_map_to_list%Hn. cbn [fst snd] in Hp.
    by apply andb_true_iff in Hp as [[?%bool_decide_eq_true ?]%andb_true_iff ?%bool_decide_eq_true]. }
  split.
  - intros p i Hp. by apply (H p).
  - intros i n Hi%elem_of_map_to_list. apply (Hr (i, n) Hi).
  - intros p i (_ & Hd & _)%H. destruct (parent_of p) as [dir|]; [|done]. by exists dir.
  - intros p i (_ & _ & Hl)%H. done.
Qed.

Lemma sample_disk_wf : disk_wf sample_disk.
Proof. apply wf_from; apply Forall_forall; concrete. Qed.

Lemma tricky_disk_wf : disk_wf tricky_disk.
Proof. apply wf_from; apply Forall_forall; concrete. Qed.

Lemma canonicalisePathMetaData_correct_witness :
  (∃ seen d', @canonicalisePathMetaData calm_kernel 20 (str "/out") 30001 ∅ sample_disk = (Ret seen, d') ∧
     @canonical_ino calm_kernel 3%N d' ∧ view d' = view sample_disk) ∧
  (∃ d', @canonicalisePathMetaData calm_kernel 20 (str "/out") 30001 ∅ tricky_disk =
     (Throw (BuildError "invalid ownership on file"), d') ∧ d_nodes d' !! 4%N = Some (mkNode (PFile (str "secret")) 384 0 79)).
Proof.
  split.
  - pose proof (@canonicalisePathMetaData_correct calm_kernel 20 (str "/out") 30001 ∅ sample_disk sample_disk_wf
      ltac:(split; concrete) ltac:(concrete) ltac:(set_solver)) as H.
    destruct (@canonicalisePathMetaData calm_kernel 20 (str "/out") 30001 ∅ sample_disk) as [r d'] eqn:E.
    assert (∃ seen, r = Ret seen) as [seen ->].
    { apply (f_equal fst) in E. cbn [fst] in E. rewrite <-E. eexists. vm_compute. reflexivity. }
    exists seen, d'. destruct H as (_ & _ & Hv & _ & _ & Hc & _). split; [reflexivity|]. split; [|exact Hv].
    apply (Hc seen eq_refl). right. exists (str "/out/prog"). split; [right; exists (str "prog")|]; vm_compute; reflexivity.
  - pose proof (@canonicalisePathMetaData_correct calm_kernel 20 (str "/out") 30001 ∅ tricky_disk tricky_disk_wf
      ltac:(split; concrete) ltac:(concrete) ltac:(set_solver)) as H.
    destruct (@canonicalisePathMetaData calm_kernel 20 (str "/out") 30001 ∅ tricky_disk) as [r d'] eqn:E.
    assert (r = Throw (BuildError "invalid ownership on file")) as ->.
    { apply (f_equal fst) in E. cbn [fst] in E. rewrite <-E. vm_compute. reflexivity. }
    exists d'. split; [reflexivity|]. destruct H as (_ & _ & _ & _ & Hn & _).
    destruct (Hn 4%N (mkNode (PFile (str "secret")) 384 0 79) ltac:(vm_compute; reflexivity)) as [?|[_ [?|?]]]; done.
Defined.
