(* ===== verification/Optimise.v ===== *)
(** libstore/optimise-store.cc: files with the same contents become hard links to
    one file, which the directory of links names by its hash. *)

From S2P Require Import Prelude StateMonad Containers Serialise Hash Archive StoreFiles Paths StorePaths LocalDB GC StoreOps StoreIntegrity ImportExport Inodes Metadata.

(** * The code *)

Record OptimiseStats := mkOptimiseStats {
  filesLinked : Z;                           (* unsigned long *)
  bytesFreed : Z;                            (* unsigned long long *)
  blocksFreed : Z
}.

Definition OptimiseStats0 : OptimiseStats := mkOptimiseStats 0 0 0.

Definition u64 (z : Z) : Z := z mod 2 ^ 64.

Section optimise.
Context {gc : Gcrypt} {kernel : Kernel} (nixStore : bytes).

Definition linksOf : bytes := nixStore ++ str "/.links".

Definition makeWritable (path : bytes) : SM Disk () :=
  st ← orThrow "getting attributes of path" (lstat path);
  orThrow "changing writability" (chmod path (Z.lor (st_mode st) S_IWUSR)).

(** [~MakeReadOnly]: exceptions are ignored. *)
Definition makeReadOnly (path : bytes) (d : Disk) : Disk :=
  if decide (path = []) then d else (canonicaliseTimestampAndPermissions path d).2.

(** All that [readdir] gives, "." and ".." included. *)
Definition dirents (p : bytes) (d : Disk) : list (bytes * N) :=
  match d_names d !! p, parent_of p ≫= (d_names d !!.) with
  | Some i, Some j => (str ".", i) :: (str "..", j) :: entries p d
  | _, _ => entries p d
  end.

Definition readdir_all (path : bytes) : SM Disk (list (bytes * N)) :=
  orThrow "opening directory" (readdir path);;
  gets (λ d, Ret (dirents path d)).

Definition loadInodeHash : SM Disk (gset N) :=
  es ← readdir_all linksOf;
  mret (list_to_set (es.*2) : gset N).

Definition readDirectoryIgnoringInodes (path : bytes) (inodeHash : gset N) : SM Disk (list bytes) :=
  es ← readdir_all path;
  mret ((λ e, e.1) <$> filter (λ e : bytes * N, e.2 ∉ inodeHash ∧ e.1 ≠ str "." ∧ e.1 ≠ str "..") es).

(** From the label [retry] on: [inl] when the function is done, [inr] when the
    file is to be replaced by the link. *)
Fixpoint find_link (tries : nat) (path linkPath : bytes) (st : stat) (inodeHash : gset N) : SM Disk (gset N + ()) :=
  match tries with
  | 0 => lift OutOfFuel
  | S tries =>
      e ← pathExists_disk linkPath;
      r ← (if (e : bool) then mret None
           else
             r ← link path linkPath;
             match r with
             | inr _ => mret (Some ({[st_ino st]} ∪ inodeHash))
             | inl e =>
                 if decide (e = EEXIST) then mret None
                 else if decide (e = ENOSPC) then mret (Some inodeHash)
                 else lift (Throw (SysError e "cannot link"))
             end);
      match r with
      | Some inodeHash => mret (inl inodeHash)
      | None =>
          stLink ← orThrow "getting attributes of path" (lstat linkPath);
          if decide (st_ino st = st_ino stLink) then mret (inl inodeHash)
          else if decide (st_size st ≠ st_size stLink) then
            unlink linkPath;; find_link tries path linkPath st inodeHash
          else mret (inr ())
      end
  end.

Definition tempLink (r : N) : bytes := nixStore ++ str "/.tmp-link-" ++ dec k_pid ++ str "-" ++ dec r.

Definition relink (path linkPath : bytes) (st : stat) (stats : OptimiseStats) : SM Disk OptimiseStats :=
  r ← gets (λ d, Ret (k_rand (d_clock d)));
  l ← link linkPath (tempLink r);
  match l with
  | inl e =>
      if decide (e = EMLINK) then mret stats else lift (Throw (SysError e "cannot link"))
  | inr _ =>
      n ← rename_file (tempLink r) path;
      match n with
      | inl e =>
          unlink (tempLink r);;
          if decide (e = EMLINK) then mret stats else lift (Throw (SysError e "cannot rename"))
      | inr _ =>
          mret (mkOptimiseStats (u64 (filesLinked stats + 1)) (u64 (bytesFreed stats + st_size st))
                                (u64 (blocksFreed stats + st_blocks st)))
      end
  end.

Definition replace_by_link (path linkPath : bytes) (st : stat) (stats : OptimiseStats) : SM Disk OptimiseStats :=
  let mustToggle := negb (isStorePath nixStore path) in
  dir ← lift (if mustToggle then dirOf path else Ret []);
  when mustToggle (makeWritable dir);;
  finally (relink path linkPath st stats) (makeReadOnly dir).

(** A file that is neither small, writable nor linked already. *)
Definition optimise_file (tries : nat) (stats : OptimiseStats) (path : bytes) (st : stat) (inodeHash : gset N)
    : SM Disk (OptimiseStats * gset N) :=
  hash ← hashPath_disk htSHA256 path;
  name ← lift (printHash32 hash.1);
  let linkPath := linksOf ++ slash ++ name in
  r ← find_link tries path linkPath st inodeHash;
  match r with
  | inl inodeHash => mret (stats, inodeHash)
  | inr _ => stats ← replace_by_link path linkPath st stats; mret (stats, inodeHash)
  end.

Fixpoint optimisePath_ (fuel tries : nat) (stats : OptimiseStats) (path : bytes) (inodeHash : gset N)
    : SM Disk (OptimiseStats * gset N) :=
  match fuel with
  | 0 => lift OutOfFuel
  | S fuel =>
      st ← orThrow "getting attributes of path" (lstat path);
      if S_ISDIR st then
        names ← readDirectoryIgnoringInodes path inodeHash;
        iterM (λ s i, optimisePath_ fuel tries s.1 (path ++ slash ++ i) s.2) names (stats, inodeHash)
      else if negb (S_ISREG st) || bool_decide (st_size st < deduplicationMinSize)%Z then mret (stats, inodeHash)
      else if S_ISREG st && negb (bool_decide (Z.land (st_mode st) S_IWUSR = 0%Z)) then mret (stats, inodeHash)
      else if bool_decide (1 < st_nlink st) && bool_decide (st_ino st ∈ inodeHash) then mret (stats, inodeHash)
      else optimise_file tries stats path st inodeHash
  end.

(** [optimisePath], when [settings.autoOptimiseStore] is set. *)
Definition optimisePath (autoOptimiseStore : bool) (fuel tries : nat) (path : bytes) : SM Disk () :=
  when autoOptimiseStore (optimisePath_ fuel tries OptimiseStats0 path ∅;; mret ()).

(** [optimiseStore]: [paths] are the valid paths; one that is no longer valid when
    its turn comes is skipped. *)
Definition optimiseStore (fuel tries : nat) (paths : list bytes) (isValidPath : N → bytes → bool)
    (stats : OptimiseStats) : SM Disk OptimiseStats :=
  inodeHash ← loadInodeHash;
  '(stats, _) ← iterM (λ s i,
    v ← gets (λ d, Ret (isValidPath (d_clock d) i));
    if (v : bool) then optimisePath_ fuel tries s.1 i s.2 else mret s) paths (stats, inodeHash);
  mret stats.
End optimise.

(** * Contents and their hashes *)

(** The name of a file with these contents in the directory of links. *)
Definition file_hash32 {gc : Gcrypt} (x : bool) (c : bytes) : outcome bytes :=
  chunks ← dumpPath no_filter [] (Regular x c);
  h ← hashsink_run htSHA256 chunks;
  printHash32 h.1.

Lemma hashPath_file {gc : Gcrypt} p fs x c :
  fs !! p = Some (IFile x c) → (h ← hashPath htSHA256 p fs; printHash32 h.1) = file_hash32 x c.
Proof.
  intros Hp. unfold hashPath, dump_path, fs_depth. cbn [read_tree]. rewrite Hp. cbn [mbind outcome_bind].
  unfold file_hash32. by rewrite bind_assoc.
Qed.

Lemma file_hash32_total {gc : Gcrypt} {glaws : GcryptLaws} x c :
  (Z.of_nat (length c) < 2 ^ 64)%Z → ∃ n, file_hash32 x c = Ret n ∧ n ≠ [] ∧ "/"%byte ∉ n.
Proof.
  intros Hc. unfold file_hash32.
  assert (dumpPath no_filter [] (Regular x c) = Ret (writeString archiveVersion1 ++ nar (Regular x c))) as -> by done.
  cbn [mbind outcome_bind]. destruct (hashsink_run_ok htSHA256 (writeString archiveVersion1 ++ nar (Regular x c)))
    as (h & -> & Hwf & Hty & Hsz & _); [done| |].
  { apply Forall_app. split; [by apply small_writeString|apply small_nar; by constructor]. }
  cbn [mbind outcome_bind fst]. destruct (printHash32_spec h Hwf) as (s & -> & Hl & Hs & _). exists s. split; [done|].
  split.
  - intros ->. by rewrite Hsz, dlen_sha256 in Hl.
  - intros Hin. rewrite Forall_forall in Hs. apply Hs in Hin. by vm_compute in Hin.
Qed.

(** The same as a proposition. *)
Inductive hash_name {gc : Gcrypt} (x : bool) (c n : bytes) : Prop :=
  | HashName : file_hash32 x c = Ret n → hash_name x c n.

Lemma hash_name_total {gc : Gcrypt} {glaws : GcryptLaws} x c :
  (Z.of_nat (length c) < 2 ^ 64)%Z → ∃ n, hash_name x c n.
Proof. intros Hc. destruct (file_hash32_total x c Hc) as (n & Hh & _). exists n. exact (HashName x c n Hh). Qed.

Lemma hash_name_ok {gc : Gcrypt} {glaws : GcryptLaws} x c n :
  (Z.of_nat (length c) < 2 ^ 64)%Z → hash_name x c n → n ≠ [] ∧ "/"%byte ∉ n.
Proof. intros Hc [Hh]. destruct (file_hash32_total x c Hc) as (n' & Hh' & Hn). rewrite Hh in Hh'. injection Hh' as <-. exact Hn. Qed.

(** * What stays the same *)

Section invariant.
Context {gc : Gcrypt} {glaws : GcryptLaws} {kernel : Kernel} (nixStore : bytes) (d0 : Disk).

Abbreviation links := (linksOf nixStore).
Abbreviation link_name n := (links ++ slash ++ n).

(** The contents of an inode; they never change. *)
Definition cont (i : N) : option inode := d_nodes d0 !! i ≫= node_inode.

Definition in_links (q : bytes) : Prop := (links ++ slash) `prefix_of` q.
Definition is_temp (q : bytes) : Prop := ∃ r, q = tempLink nixStore r.

Definition size_of (i : N) : option Z := node_size <$> d_nodes d0 !! i.

(** The disk to start with: nothing strange about the store directory and the
    links in it; files of the same hash are the same; a link that has the size of
    a file with the hash it is named after has its contents, too, so that a
    corrupted link shows by its size. *)
Record optimisable : Prop := {
  op_store : store_dir_ok nixStore;
  op_wf : disk_wf d0;
  op_store_dir : is_dir nixStore d0 = true;
  op_links_dir : is_dir links d0 = true;
  op_files i x c : cont i = Some (IFile x c) → (Z.of_nat (length c) < 2 ^ 64)%Z;
  op_no_collision i j x c x' c' n :
    cont i = Some (IFile x c) → cont j = Some (IFile x' c') → hash_name x c n → hash_name x' c' n →
    cont i = cont j;
  op_links n k i x c :
    d_names d0 !! link_name n = Some k → cont i = Some (IFile x c) → hash_name x c n →
    size_of k = Some (Z.of_nat (length c)) → cont k = cont i;
  op_link_files n k : d_names d0 !! link_name n = Some k → cont k ≠ Some IDir;
  op_no_dots p n : n = str "." ∨ n = str ".." → d_names d0 !! (p ++ slash ++ n) = None
}.

(** What holds all along: outside the directory of links every name still leads
    to the same contents, and the only new names are those of temporary links;
    inodes of files have not changed at all. *)
Record relinked (d : Disk) : Prop := {
  re_names q :
    ¬ in_links q →
    match d_names d0 !! q, d_names d !! q with
    | Some i, Some j => cont i = cont j ∧ (cont i = Some IDir → i = j)
    | None, Some j => is_temp q ∧ cont j ≠ Some IDir
    | Some _, None => False
    | None, None => True
    end;
  re_nodes i :
    match d_nodes d0 !! i, d_nodes d !! i with
    | Some n, Some n' => n' = n ∨ (n_payload n = PDir ∧ n_payload n' = PDir)
    | None, None => True
    | _, _ => False
    end;
  re_wf : disk_wf d;
  re_links n k i x c :
    d_names d !! link_name n = Some k → cont i = Some (IFile x c) → hash_name x c n →
    size_of k = Some (Z.of_nat (length c)) → cont k = cont i;
  re_link_files n k : d_names d !! link_name n = Some k → cont k ≠ Some IDir
}.

Context (Hop : optimisable).

Lemma relinked_refl : relinked d0.
Proof.
  split.
  - intros q _. by destruct (d_names d0 !! q).
  - intros i. destruct (d_nodes d0 !! i); auto.
  - apply op_wf, Hop.
  - apply (op_links Hop).
  - apply (op_link_files Hop).
Qed.

Lemma cont_now d i n : relinked d → d_nodes d !! i = Some n → node_inode n = cont i.
Proof.
  intros Hr Hn. pose proof (re_nodes _ Hr i) as Hi. rewrite Hn in Hi. unfold cont. destruct (d_nodes d0 !! i) as [n0|]; [|done].
  simpl. destruct Hi as [->|[H1 H2]]; [done|]. unfold node_inode. by rewrite H1, H2.
Qed.

Lemma is_dir_cont d p i : relinked d → d_names d !! p = Some i → is_dir p d = bool_decide (cont i = Some IDir).
Proof.
  intros Hr Hp. destruct (wf_named _ (re_wf _ Hr) p i Hp) as [n Hn]. unfold is_dir, find_node. rewrite Hp. simpl. rewrite Hn. simpl.
  rewrite <-(cont_now d i n) by done. unfold node_inode. apply bool_decide_ext. destruct (n_payload n); naive_solver.
Qed.

(** A directory's own metadata changes. *)
Lemma relinked_dir_node d i n n' :
  relinked d → d_nodes d !! i = Some n → n_payload n = PDir → n_payload n' = PDir → (0 <= n_perm n' < 4096)%Z →
  relinked (set_node i n' d).
Proof.
  intros Hr Hn Hp Hp' Hr'. split; cbn [set_node d_names d_nodes]; [apply (re_names _ Hr)| | |apply (re_links _ Hr)|apply (re_link_files _ Hr)].
  - intros j. pose proof (re_nodes _ Hr j) as Hj. destruct (decide (j = i)) as [->|]; [|by rewrite lookup_insert_ne].
    rewrite lookup_insert_eq. rewrite Hn in Hj. destruct (d_nodes d0 !! i); [|done].
    destruct Hj as [->|[? _]]; auto.
  - eapply wf_set_node; [apply (re_wf _ Hr)|done|congruence|done].
Qed.

Lemma relinked_touch d dir : relinked d → is_dir dir d = true → relinked (touch_dir dir d).
Proof.
  intros Hr Hd. unfold touch_dir, is_dir in *. destruct (find_node dir d) as [[i n]|] eqn:En; [|done].
  apply find_node_Some in En as [_ Hn]. apply bool_decide_eq_true in Hd. eapply relinked_dir_node; try done.
  apply (wf_perm _ (re_wf _ Hr) i n Hn).
Qed.

Lemma touch_names dir d : d_names (touch_dir dir d) = d_names d.
Proof. unfold touch_dir. by destruct (find_node dir d) as [[]|]. Qed.

(** The names change in a way that the invariant allows; then the directories
    concerned are touched. *)
Definition good_names (d : Disk) (m : gmap bytes N) : Prop :=
  relinked (set_names m d) ∧ ∀ q, is_dir q d = true → is_dir q (set_names m d) = true.

Lemma dir_now d p : relinked d → ¬ in_links p → is_dir p d0 = true → is_dir p d = true.
Proof.
  intros Hr Hp Hd. assert (∃ i, d_names d0 !! p = Some i) as [i Hi].
  { unfold is_dir in Hd. destruct (find_node p d0) as [[i n]|] eqn:E; [|done]. apply find_node_Some in E as [? _]. by exists i. }
  rewrite (is_dir_cont d0 p i) in Hd by (apply relinked_refl || done). apply bool_decide_eq_true in Hd.
  pose proof (re_names _ Hr p Hp) as Hn. rewrite Hi in Hn. destruct (d_names d !! p) as [j|] eqn:Ej; [|done].
  destruct Hn as [Hn _]. rewrite (is_dir_cont d p j) by done. apply bool_decide_eq_true. congruence.
Qed.

Lemma links_not_in_links : ¬ in_links links.
Proof. intros [k E]. apply (f_equal length) in E. rewrite !length_app in E. simpl in E. lia. Qed.

Lemma store_not_in_links : ¬ in_links nixStore.
Proof. intros [k E]. apply (f_equal length) in E. unfold linksOf in E. rewrite !length_app in E. simpl in E. lia. Qed.

Lemma links_nonempty : links ≠ [].
Proof. unfold linksOf. by destruct nixStore. Qed.

Lemma store_dir_nonempty : nixStore ≠ [].
Proof. intros E. pose proof (proj1 (op_store Hop)) as H. by rewrite E in H. Qed.

Lemma cont_node d i a : relinked d → cont i = Some a → is_Some (d_nodes d !! i).
Proof.
  intros Hr. unfold cont. pose proof (re_nodes _ Hr i) as Hi. destruct (d_nodes d0 !! i); [|done].
  by destruct (d_nodes d !! i).
Qed.

Lemma add_link_good d n i x c :
  relinked d → d_names d !! link_name n = None → cont i = Some (IFile x c) → hash_name x c n →
  good_names d (<[link_name n := i]> (d_names d)).
Proof.
  intros Hr Hfree Hi Hh. destruct (hash_name_ok x c n (op_files Hop _ _ _ Hi) Hh) as [Hne Hs].
  assert (disk_wf (set_names (<[link_name n := i]> (d_names d)) d) ∧
    ∀ q, is_dir q d = true → is_dir q (set_names (<[link_name n := i]> (d_names d)) d) = true) as [Hwf Hdir].
  { apply wf_set_names; [apply (re_wf _ Hr)| |].
    - intros q j. rewrite lookup_insert_Some. intros [[<- <-]|[_ ?]]; [right|by left]. split; [by eapply cont_node|].
      split; [exists links|by apply last_child]. split; [apply parent_of_child; [apply links_nonempty|done]|].
      apply dir_now; [done|apply links_not_in_links|apply (op_links_dir Hop)].
    - intros q Hq. rewrite lookup_insert_ne; [done|]. intros <-. unfold is_dir, find_node in Hq. by rewrite Hfree in Hq. }
  split; [|done]. split; [| |done| |]; cbn [set_names d_names d_nodes].
  - intros q Hq. rewrite lookup_insert_ne; [by apply (re_names _ Hr)|]. intros <-. apply Hq. exists n. by rewrite (assoc (++)).
  - apply (re_nodes _ Hr).
  - intros m k j x' c'. rewrite lookup_insert_Some. intros [[E <-]|[_ Hm]] Hj Hh2 Hsz.
    + apply app_inv_head, app_inv_head in E. subst m. by apply (op_no_collision Hop i j x c x' c' n).
    + by eapply (re_links _ Hr).
  - intros m k. rewrite lookup_insert_Some. intros [[_ <-]|[_ Hm]]; [by rewrite Hi|by eapply (re_link_files _ Hr)].
Qed.

Lemma del_link_good d n : relinked d → good_names d (delete (link_name n) (d_names d)).
Proof.
  intros Hr.
  assert (disk_wf (set_names (delete (link_name n) (d_names d)) d) ∧
    ∀ q, is_dir q d = true → is_dir q (set_names (delete (link_name n) (d_names d)) d) = true) as [Hwf Hdir].
  { apply wf_set_names; [apply (re_wf _ Hr)| |].
    - intros q j [_ ?]%lookup_delete_Some. by left.
    - intros q Hq. rewrite lookup_delete_ne; [done|]. intros <-. destruct (d_names d !! link_name n) as [k|] eqn:Ek.
      + rewrite (is_dir_cont d _ k Hr Ek) in Hq. apply bool_decide_eq_true in Hq. by apply (re_link_files _ Hr n k).
      + unfold is_dir, find_node in Hq. by rewrite Ek in Hq. }
  split; [|done]. split; [| |done| |]; cbn [set_names d_names d_nodes].
  - intros q Hq. rewrite lookup_delete_ne; [by apply (re_names _ Hr)|]. intros <-. apply Hq. exists n. by rewrite (assoc (++)).
  - apply (re_nodes _ Hr).
  - intros m k j x' c' [_ Hm]%lookup_delete_Some. by eapply (re_links _ Hr).
  - intros m k [_ Hm]%lookup_delete_Some. by eapply (re_link_files _ Hr).
Qed.

Lemma temp_name_ok r : last (tempLink nixStore r) ≠ Some "/"%byte ∧ parent_of (tempLink nixStore r) = Some nixStore ∧
  ¬ in_links (tempLink nixStore r) ∧ tempLink nixStore r ≠ links.
Proof.
  assert (tempLink nixStore r = nixStore ++ slash ++ (str ".tmp-link-" ++ dec k_pid ++ str "-" ++ dec r)) as E by done.
  assert ("/"%byte ∉ str ".tmp-link-" ++ dec k_pid ++ str "-" ++ dec r) as Hs.
  { unfold dec. rewrite !not_elem_of_app. split_and!; try apply uint_bytes_slash; concrete. }
  rewrite E. split_and!.
  - by apply last_child.
  - apply parent_of_child; [apply store_dir_nonempty|done].
  - intros Hin. assert (at_or_below links (nixStore ++ slash ++ (str ".tmp-link-" ++ dec k_pid ++ str "-" ++ dec r))) as Hb by (by right).
    change links with (nixStore ++ slash ++ str ".links") in Hb.
    apply (at_or_below_siblings nixStore (str ".links") (str ".tmp-link-" ++ dec k_pid ++ str "-" ++ dec r)) in Hb; [done|concrete|done|by left].
  - intros E'. unfold linksOf in E'. apply app_inv_head in E'. done.
Qed.

Lemma add_temp_good d r k q :
  relinked d → d_names d !! tempLink nixStore r = None → d_names d !! q = Some k → cont k ≠ Some IDir →
  good_names d (<[tempLink nixStore r := k]> (d_names d)).
Proof.
  intros Hr Hfree Hq Hk. destruct (temp_name_ok r) as (Hl & Hp & Hin & _).
  assert (disk_wf (set_names (<[tempLink nixStore r := k]> (d_names d)) d) ∧
    ∀ q, is_dir q d = true → is_dir q (set_names (<[tempLink nixStore r := k]> (d_names d)) d) = true) as [Hwf Hdir].
  { apply wf_set_names; [apply (re_wf _ Hr)| |].
    - intros q' j. rewrite lookup_insert_Some. intros [[<- <-]|[_ ?]]; [right|by left].
      split; [by apply (wf_named _ (re_wf _ Hr) q)|]. split; [exists nixStore|done]. split; [done|].
      apply dir_now; [done|apply store_not_in_links|apply (op_store_dir Hop)].
    - intros q' Hq'. rewrite lookup_insert_ne; [done|]. intros <-. unfold is_dir, find_node in Hq'. by rewrite Hfree in Hq'. }
  split; [|done]. split; [| |done| |]; cbn [set_names d_names d_nodes].
  - intros q' Hq'. pose proof (re_names _ Hr q' Hq') as Hn. destruct (decide (q' = tempLink nixStore r)) as [->|]; [|by rewrite lookup_insert_ne].
    rewrite lookup_insert_eq. rewrite Hfree in Hn. destruct (d_names d0 !! _); [done|]. split; [by exists r|done].
  - apply (re_nodes _ Hr).
  - intros m k' j x' c'. rewrite lookup_insert_ne; [apply (re_links _ Hr)|]. intros E. apply Hin. rewrite E. exists m. by rewrite (assoc (++)).
  - intros m k'. rewrite lookup_insert_ne; [apply (re_link_files _ Hr)|]. intros E. apply Hin. rewrite E. exists m. by rewrite (assoc (++)).
Qed.

(** A temporary link goes away. *)
Lemma del_temp_good d r :
  relinked d → d_names d0 !! tempLink nixStore r = None → good_names d (delete (tempLink nixStore r) (d_names d)).
Proof.
  intros Hr Hfree. destruct (temp_name_ok r) as (Hl & Hp & Hin & _).
  assert (disk_wf (set_names (delete (tempLink nixStore r) (d_names d)) d) ∧
    ∀ q, is_dir q d = true → is_dir q (set_names (delete (tempLink nixStore r) (d_names d)) d) = true) as [Hwf Hdir].
  { apply wf_set_names; [apply (re_wf _ Hr)| |].
    - intros q j [_ ?]%lookup_delete_Some. by left.
    - intros q Hq. rewrite lookup_delete_ne; [done|]. intros <-. pose proof (re_names _ Hr _ Hin) as Hn. rewrite Hfree in Hn.
      destruct (d_names d !! tempLink nixStore r) as [k|] eqn:Ek; [|unfold is_dir, find_node in Hq; by rewrite Ek in Hq].
      rewrite (is_dir_cont d _ k Hr Ek) in Hq. apply bool_decide_eq_true in Hq. by destruct Hn. }
  split; [|done]. split; [| |done| |]; cbn [set_names d_names d_nodes].
  - intros q Hq. pose proof (re_names _ Hr q Hq) as Hn. destruct (decide (q = tempLink nixStore r)) as [->|]; [|by rewrite lookup_delete_ne].
    by rewrite lookup_delete_eq, Hfree.
  - apply (re_nodes _ Hr).
  - intros m k j x' c' [_ Hm]%lookup_delete_Some. by eapply (re_links _ Hr).
  - intros m k [_ Hm]%lookup_delete_Some. by eapply (re_link_files _ Hr).
Qed.

(** A file becomes a link to another one with the same contents. *)
Lemma relink_good d path i k :
  relinked d → d_names d !! path = Some i → cont i = cont k → cont k ≠ Some IDir → is_Some (d_nodes d !! k) → ¬ in_links path →
  good_names d (<[path := k]> (d_names d)).
Proof.
  intros Hr Hi Hc Hk Hnode Hin.
  assert (disk_wf (set_names (<[path := k]> (d_names d)) d) ∧
    ∀ q, is_dir q d = true → is_dir q (set_names (<[path := k]> (d_names d)) d) = true) as [Hwf Hdir].
  { assert (is_dir path d = false) as Hpd by (rewrite (is_dir_cont d path i) by done; apply bool_decide_eq_false; congruence).
    apply wf_set_names; [apply (re_wf _ Hr)| |].
    - intros q j. rewrite lookup_insert_Some. intros [[<- <-]|[_ ?]]; [right|by left]. split; [done|].
      split; [by apply (wf_parents _ (re_wf _ Hr) path i)|]. apply (wf_names _ (re_wf _ Hr) path i Hi).
      intros ->. destruct (wf_parents _ (re_wf _ Hr) slash i Hi) as (dir & [= <-] & ?). congruence.
    - intros q Hq. rewrite lookup_insert_ne; [done|]. intros <-. congruence. }
  split; [|done]. split; [| |done| |]; cbn [set_names d_names d_nodes].
  - intros q Hq. pose proof (re_names _ Hr q Hq) as Hn. destruct (decide (q = path)) as [->|]; [|by rewrite lookup_insert_ne].
    rewrite lookup_insert_eq. rewrite Hi in Hn. destruct (d_names d0 !! path); [|split; [apply Hn|done]]. destruct Hn as [Hn _]. split; [congruence|]. intros E. congruence.
  - apply (re_nodes _ Hr).
  - intros m k' j x' c'. rewrite lookup_insert_ne; [apply (re_links _ Hr)|]. intros ->. apply Hin. exists m. by rewrite (assoc (++)).
  - intros m k'. rewrite lookup_insert_ne; [apply (re_link_files _ Hr)|]. intros ->. apply Hin. exists m. by rewrite (assoc (++)).
Qed.

Lemma good_touch d m dir : good_names d m → is_dir dir d = true → relinked (touch_dir dir (set_names m d)).
Proof. intros [Hr Hd] Hdir. by apply relinked_touch; [|apply Hd]. Qed.

Lemma is_dir_touch dir d p : is_dir p (touch_dir dir d) = is_dir p d.
Proof.
  unfold touch_dir. destruct (find_node dir d) as [[i n]|] eqn:En; [|done]. apply find_node_Some in En as [_ Hn].
  by apply (is_dir_set_node i n).
Qed.

(** ** What is achieved *)

(** The file is in the directory of links, under its hash. *)
Definition linked (i : N) (d : Disk) : Prop :=
  ∀ x c, cont i = Some (IFile x c) → ∃ n, hash_name x c n ∧ d_names d !! link_name n = Some i.

(** A file that the code means to link: not small, not writable. *)
Definition eligible (i : N) : Prop :=
  ∃ n c, d_nodes d0 !! i = Some n ∧ n_payload n = PFile c ∧ (deduplicationMinSize <= Z.of_nat (length c))%Z ∧
    Z.land (node_mode n) S_IWUSR = 0%Z.

Definition deduped (q : bytes) (d : Disk) : Prop := ∀ i, d_names d !! q = Some i → eligible i → linked i d.

Context (top : bytes).

(** Nothing fails on its own, and no old temporary link is in the way. *)
Definition calm : Prop := ¬ faulty ∧ (∀ r, d_names d0 !! tempLink nixStore r = None) ∧ is_Some (d_names d0 !! top).

(** The inodes of the table are linked; none of them is a directory to visit. *)
Definition hashed (h : gset N) (d : Disk) : Prop :=
  ∀ i, i ∈ h → (cont i = Some IDir → ∀ q, at_or_below top q → d_names d0 !! q ≠ Some i) ∧ linked i d.

Definition achieved (D : bytes → Prop) (h : gset N) (d : Disk) : Prop :=
  hashed h d ∧ (∀ q, D q → deduped q d) ∧ ∀ r, d_names d !! tempLink nixStore r = None.

Definition opt_inv (D : bytes → Prop) (h : gset N) (d : Disk) : Prop := relinked d ∧ (calm → achieved D h d).

Definition opt_stop (d : Disk) : Prop := relinked d ∧ ¬ calm.

Lemma relinked_tick d : relinked d → relinked (tick d).
Proof. intros [Hn Hd [] Hl Hf]. by split; [..|split|apply Hl|apply Hf]. Qed.

Lemma opt_inv_stable D h : stable (opt_inv D h).
Proof. intros d [Hr Ha]. split; [by apply relinked_tick|exact Ha]. Qed.

Lemma opt_inv_relinked D h d : opt_inv D h d → relinked d.
Proof. by intros [? _]. Qed.

Lemma achieved_names D h d d' : d_names d' = d_names d → achieved D h d → achieved D h d'.
Proof. unfold achieved, hashed, deduped, linked. intros E. by rewrite E. Qed.

Lemma opt_stop_faulty d : relinked d → faulty → opt_stop d.
Proof. intros Hr Hf. split; [done|]. by intros [? _]. Qed.

(** More links in the directory of links do no harm, nor does losing one that is
    not the file's it is named after. *)
Lemma linked_mono i d d' :
  (∀ n x c, cont i = Some (IFile x c) → hash_name x c n → d_names d !! link_name n = Some i → d_names d' !! link_name n = Some i) →
  linked i d → linked i d'.
Proof. intros Hn Hl x c Hi. destruct (Hl x c Hi) as (n & Hh & Hin). exists n. split; [done|by eapply Hn]. Qed.

Lemma hashed_mono h d d' : (∀ i, linked i d → linked i d') → hashed h d → hashed h d'.
Proof. intros Hl Hh i Hi. destruct (Hh i Hi). auto. Qed.

Lemma size_now d k n : relinked d → d_nodes d !! k = Some n → size_of k = Some (node_size n).
Proof.
  intros Hr Hn. pose proof (re_nodes _ Hr k) as Hk. rewrite Hn in Hk. unfold size_of. destruct (d_nodes d0 !! k) as [n0|]; [|done].
  simpl. destruct Hk as [->|[H1 H2]]; [done|]. unfold node_size. by rewrite H1, H2.
Qed.

Lemma linked_by n i d x c :
  cont i = Some (IFile x c) → hash_name x c n → d_names d !! link_name n = Some i → linked i d.
Proof. intros Hi Hh Hn x' c' Hi'. rewrite Hi in Hi'. injection Hi' as <- <-. exists n. exact (conj Hh Hn). Qed.

Lemma temp_not_link r n : tempLink nixStore r ≠ link_name n.
Proof. intros E. destruct (temp_name_ok r) as (_ & _ & Hin & _). apply Hin. rewrite E. exists n. by rewrite (assoc (++)). Qed.

Lemma relinked_evolved d d' i n :
  relinked d → d_nodes d !! i = Some n → n_payload n = PDir → evolved no_uid (λ j, j = i) d d' → relinked d'.
Proof.
  intros Hr Hn Hp He. pose proof (evolved_wf _ _ _ _ He (re_wf _ Hr)) as Hwf. destruct He as [Hnames Hnodes].
  split; [| |exact Hwf| |].
  - intros q Hq. rewrite Hnames. by apply (re_names _ Hr).
  - intros j. pose proof (re_nodes _ Hr j) as Hj. specialize (Hnodes j).
    destruct (d_nodes d0 !! j), (d_nodes d !! j) as [m|] eqn:Em, (d_nodes d' !! j); try done.
    destruct Hnodes as [->|((Hpl & _) & _ & ->)]; [done|]. rewrite Hn in Em. injection Em as <-. right.
    destruct Hj as [->|[? _]]; split; congruence.
  - intros m k j x c. rewrite Hnames. apply (re_links _ Hr).
  - intros m k. rewrite Hnames. apply (re_link_files _ Hr).
Qed.

Lemma makeReadOnly_ok dir d :
  relinked d → is_dir dir d = true → relinked (makeReadOnly dir d) ∧ d_names (makeReadOnly dir d) = d_names d.
Proof.
  intros Hr Hd. unfold makeReadOnly. case_decide; [done|]. unfold is_dir in Hd.
  destruct (find_node dir d) as [[i n]|] eqn:En; [|discriminate Hd]. apply bool_decide_eq_true in Hd.
  pose proof (canonicaliseTimestamp_evolves dir d i n (re_wf _ Hr) En) as He. split; [|apply He].
  apply find_node_Some in En as [_ Hn]. by eapply relinked_evolved.
Qed.

Lemma makeWritable_ok dir m :
  (∀ d, relinked d → d_names d = m → is_dir dir d = true) →
  hoare (λ d, relinked d ∧ d_names d = m) (makeWritable dir) (λ _ d, relinked d ∧ d_names d = m)
    (λ d, relinked d ∧ faulty).
Proof.
  intros Hdir. assert (stable (λ d, relinked d ∧ d_names d = m)) as Hst by (intros d [Hr Hm]; split; [by apply relinked_tick|exact Hm]).
  eapply hoare_bind.
  { apply hoare_lstat; [exact Hst|]. intros d [Hr Hm] [Hf|Hn]; [done|]. specialize (Hdir d Hr Hm). unfold is_dir in Hdir. by rewrite Hn in Hdir. }
  intros s. apply hoare_exists. intros [[i n] d1]. cbn [fst snd].
  apply (hoare_pure (n_payload n = PDir)).
  { intros d ([Hr Hm] & Hn & _). specialize (Hdir d Hr Hm). unfold is_dir in Hdir. rewrite Hn in Hdir. by apply bool_decide_eq_true in Hdir. }
  intros Hp. apply hoare_orThrow. eapply hoare_conseq; [apply (hoare_change_followed dir i (λ d, relinked d ∧ d_names d = m) _ n (λ d, relinked d ∧ faulty)); [exact Hst|by rewrite Hp]| | |intros d Hd; exact Hd].
  - intros d (Hd & Hn & _). exact (conj Hd Hn).
  - intros [e|[]] d; [by intros (Hf & [Hr _] & _)|]. intros (d2 & [Hr Hm] & [_ Hn]%find_node_Some & ->). split; [|exact Hm].
    eapply relinked_dir_node; [exact Hr|exact Hn|exact Hp|exact Hp|apply land_4095_range].
Qed.

Lemma dirOf_parent p : dirOf p = match parent_of p with Some d => Ret d | None => Throw (Error "invalid file name") end.
Proof. unfold dirOf, parent_of. destruct (rfind_char "/"%byte p) as [[|k]|]; done. Qed.

Section one_file.
Context (path : bytes) (Hin : ¬ in_links path) (Hnt : ¬ is_temp path) (Hpath : is_Some (d_names d0 !! path)).
Context (i : N) (x : bool) (c n : bytes) (Hc : cont i = Some (IFile x c)) (Hh : hash_name x c n).
Context (st : stat) (Hino : st_ino st = i) (Hsz : st_size st = Z.of_nat (length c)).
Context (D : bytes → Prop) (h : gset N).

Abbreviation linkPath := (link_name n).
Abbreviation at_file d := (opt_inv D h d ∧ d_names d !! path = Some i).
Abbreviation D' := (λ q, D q ∨ q = path).

Lemma path_not_link m : path ≠ link_name m.
Proof. intros ->. apply Hin. exists m. by rewrite (assoc (++)). Qed.

Lemma links_parent : parent_of linkPath = Some links.
Proof.
  destruct (hash_name_ok x c n (op_files Hop _ _ _ Hc) Hh) as [Hne Hs].
  apply parent_of_child; [apply links_nonempty|done].
Qed.

(** The file is linked under its hash now. *)
Lemma linked_now d : opt_inv D h d → d_names d !! path = Some i → d_names d !! linkPath = Some i → opt_inv D' h d.
Proof.
  intros [Hr Ha] Hp Hl. split; [done|]. intros (Hhash & HD & Ht)%Ha. split; [done|]. split; [|done].
  intros q [Hq| ->]; [by apply HD|]. intros j Hj _. assert (j = i) as -> by congruence. by eapply linked_by.
Qed.

Lemma add_link_done d :
  opt_inv D h d → d_names d !! path = Some i → d_names d !! linkPath = None → is_dir links d = true →
  opt_inv D' ({[i]} ∪ h) (touch_dir links (set_names (<[linkPath := i]> (d_names d)) d)).
Proof.
  intros [Hr Ha] Hp Hfree Hdir. split; [apply good_touch; [by eapply add_link_good|done]|]. intros (Hhash & HD & Ht)%Ha.
  eapply achieved_names; [apply touch_names|].
  assert (∀ j, linked j d → linked j (set_names (<[linkPath := i]> (d_names d)) d)) as Hmono.
  { intros j. apply linked_mono. intros m x' c' _ _ Hm. cbn [set_names d_names]. rewrite lookup_insert_ne; [done|]. intros E. congruence. }
  assert (linked i (set_names (<[linkPath := i]> (d_names d)) d)) as Hi.
  { eapply linked_by; [done|done|]. cbn [set_names d_names]. apply lookup_insert_eq. }
  split_and!.
  - intros j [->%elem_of_singleton|Hj]%elem_of_union; [split; [by rewrite Hc|done]|]. destruct (Hhash j Hj). auto.
  - intros q [Hq| ->] j; cbn [set_names d_names].
    + destruct (decide (q = linkPath)) as [->|]; [rewrite lookup_insert_eq; by intros [= <-]|]. rewrite lookup_insert_ne by done.
      intros Hj He. by apply Hmono, (HD q).
    + rewrite lookup_insert_ne by (apply not_eq_sym, path_not_link). intros Hj _. assert (j = i) as -> by congruence. exact Hi.
  - intros r. cbn [set_names d_names]. rewrite lookup_insert_ne by (apply not_eq_sym, temp_not_link). apply Ht.
Qed.

(** A link of another size is not what it is named after, and nobody's. *)
Lemma del_link_done d k :
  opt_inv D h d → d_names d !! linkPath = Some k → size_of k ≠ Some (Z.of_nat (length c)) → is_dir links d = true →
  opt_inv D h (touch_dir links (set_names (delete linkPath (d_names d)) d)).
Proof.
  intros [Hr Ha] Hk Hsize Hdir. split; [apply good_touch; [by eapply del_link_good|done]|]. intros (Hhash & HD & Ht)%Ha.
  eapply achieved_names; [apply touch_names|].
  assert (∀ j, linked j d → linked j (set_names (delete linkPath (d_names d)) d)) as Hmono.
  { intros j. apply linked_mono. intros m x' c' Hj Hm Hlk. cbn [set_names d_names]. rewrite lookup_delete_ne; [done|].
    intros E. apply app_inv_head, app_inv_head in E. subst m. assert (j = k) as -> by congruence. apply Hsize.
    pose proof (op_no_collision Hop k i x' c' x c n Hj Hc Hm Hh) as E. rewrite Hc in E. unfold cont in E.
    unfold size_of. destruct (d_nodes d0 !! k) as [nk|]; [|done]. simpl in *. unfold node_inode, node_size in *.
    destruct (n_payload nk); [by injection E as _ ->|discriminate E..]. }
  split_and!.
  - by eapply hashed_mono.
  - intros q Hq j; cbn [set_names d_names]. intros [_ Hj]%lookup_delete_Some He. by apply Hmono, (HD q).
  - intros r. cbn [set_names d_names]. by rewrite lookup_delete_ne by (apply not_eq_sym, temp_not_link).
Qed.

Lemma links_dir_now d : relinked d → is_dir links d = true.
Proof. intros Hr. apply dir_now; [done|apply links_not_in_links|apply (op_links_dir Hop)]. Qed.

Lemma file_node d : relinked d → d_names d !! path = Some i → ∃ nd, find_node path d = Some (i, nd) ∧ n_payload nd ≠ PDir.
Proof.
  intros Hr Hp. destruct (wf_named _ (re_wf _ Hr) path i Hp) as [nd Hnd]. exists nd. split; [apply find_node_Some; exact (conj Hp Hnd)|].
  intros E. pose proof (cont_now d i nd Hr Hnd) as Hcn. unfold node_inode in Hcn. rewrite E, Hc in Hcn. discriminate Hcn.
Qed.

(** The call of [link] that enters the file into the directory of links. *)
Lemma enter_link_ok tries :
  hoare (λ d, at_file d ∧ (calm → 0 < tries) ∧ (faulty ∨ d_names d !! linkPath = None))
    (r ← link path linkPath;
     match r with
     | inr _ => mret (Some ({[st_ino st]} ∪ h))
     | inl e =>
         if decide (e = EEXIST) then mret None
         else if decide (e = ENOSPC) then mret (Some h)
         else lift (Throw (SysError e "cannot link"))
     end)
    (λ r d, match r with
            | Some h' => opt_inv D' h' d
            | None => at_file d ∧ faulty
            end) opt_stop.
Proof.
  eapply hoare_bind.
  { apply hoare_link.
    - intros d ([Hd Hp] & ?). split; [split; [by apply opt_inv_stable|exact Hp]|done].
    - intros d ([Hd Hp] & _). destruct (file_node d (opt_inv_relinked _ _ _ Hd) Hp) as (nd & Hn & Hnd).
      exists i, nd, links. split_and!; [done|done|apply links_parent|exact (links_dir_now d (opt_inv_relinked _ _ _ Hd))]. }
  intros [e|[]].
  - assert (∀ d, (at_file d ∧ (calm → 0 < tries) ∧ (faulty ∨ d_names d !! linkPath = None)) ∧
      (faulty ∨ (e = EEXIST ∧ is_Some (d_names d !! linkPath))) → at_file d ∧ faulty) as Hf.
    { intros d ((Hd & _ & Hfree) & [?|[_ [k Hk]]]); [done|]. split; [done|]. destruct Hfree; [done|congruence]. }
    case_decide; [apply hoare_ret; exact Hf|]. case_decide.
    + apply hoare_ret. intros d [[Hd _] Hfl]%Hf. split; [by destruct Hd|]. by intros [? _].
    + apply hoare_lift; [|discriminate]. intros d [[Hd _] Hfl]%Hf. apply opt_stop_faulty; [by destruct Hd|done].
  - apply hoare_ret. intros d' (d & j & dir & ([Hd Hp] & _) & Hj & Hfree & Hpar & Hdir & ->).
    rewrite links_parent in Hpar. injection Hpar as <-. assert (j = i) as -> by congruence. rewrite Hino.
    by apply add_link_done.
Qed.

Lemma find_link_ok tries :
  hoare (λ d, at_file d ∧ (calm → 0 < tries ∧ (d_names d !! linkPath = None ∨ 1 < tries)))
    (find_link tries path linkPath st h)
    (λ r d, match r with
            | inl h' => opt_inv D' h' d
            | inr _ => at_file d ∧ ∃ k, k ≠ i ∧ d_names d !! linkPath = Some k ∧ cont k = cont i
            end) opt_stop.
Proof.
  induction tries as [|tries IH]; cbn [find_link].
  { apply hoare_lift; [|discriminate]. intros d ([[Hr _] _] & Hz). split; [done|]. intros Hcalm. destruct (Hz Hcalm). lia. }
  eapply hoare_bind.
  { apply hoare_pathExists.
    - intros d ([Hd Hp] & Hz). split; [split; [by apply opt_inv_stable|exact Hp]|exact Hz].
    - intros d ([[Hr _] _] & _) Hf. by apply opt_stop_faulty. }
  intros b. eapply (hoare_bind _ _ (λ r d, match r with
    | Some h' => opt_inv D' h' d
    | None => at_file d ∧ (faulty ∨ (is_Some (d_names d !! linkPath) ∧ (calm → 1 < S tries)))
    end)).
  { destruct b.
    - apply hoare_ret. intros d ((Hd & Hz) & [[k nk] [Hk _]%find_node_Some]). split; [done|]. right. split; [by exists k|].
      intros [_ [E|?]]%Hz; [congruence|done].
    - eapply hoare_conseq; [apply (enter_link_ok (S tries))| | |done].
      + intros d ((Hd & Hz) & Hf). split; [done|]. split; [intros; lia|]. destruct Hf as [?|Hf]; [by left|right].
        by apply find_node_None in Hf; [|apply (re_wf _ (opt_inv_relinked _ _ _ (proj1 Hd)))].
      + intros [h'|] d; [done|]. intros [Hd Hf]. auto. }
  intros [h'|]; [by apply hoare_ret|].
  eapply hoare_bind.
  { apply hoare_lstat.
    - intros d ([Hd Hp] & Hz). split; [split; [by apply opt_inv_stable|exact Hp]|exact Hz].
    - intros d ([[Hr _] Hp] & Hz) Hf. apply opt_stop_faulty; [done|]. destruct Hf as [?|Hf]; [done|]. destruct Hz as [?|[[k Hk] _]]; [done|].
      apply find_node_None in Hf; [|apply (re_wf _ Hr)]. congruence. }
  intros stL. apply hoare_exists. intros [[k nk] d1]. cbn [fst snd].
  apply (hoare_pure (stL = stat_of k nk d1 ∧ size_of k = Some (node_size nk))).
  { intros d ([([Hr _] & _) _] & [_ Hn]%find_node_Some & ->). split; [done|]. by eapply size_now. }
  intros [-> Hsize]. rewrite Hino, Hsz. cbn [stat_of st_ino st_size].
  destruct (decide (i = k)) as [<-|Hik].
  { apply hoare_ret. intros d ([(Hd & Hp) _] & [Hk _]%find_node_Some & _). by apply linked_now. }
  destruct (decide (Z.of_nat (length c) ≠ node_size nk)) as [Hdiff|Hsame].
  - eapply (hoare_conseq _ (λ d, (at_file d ∧ d_names d !! linkPath = Some k) ∧ (faulty ∨ (calm → 1 < S tries))));
      [|intros d ([Hd Hz] & [Hk _]%find_node_Some & _); split; [split; [exact Hd|exact Hk]|destruct Hz as [?|[_ ?]]; auto]|
       intros a d Hd; exact Hd|intros d Hd; exact Hd].
    eapply hoare_bind.
    { apply (hoare_unlink (λ d, (at_file d ∧ d_names d !! linkPath = Some k) ∧ (faulty ∨ (calm → 1 < S tries)))).
      - intros d (([Hd Hp] & Hk) & Hz). split; [split; [split; [by apply opt_inv_stable|exact Hp]|exact Hk]|exact Hz].
      - intros d _. exists links. apply links_parent. }
    intros r. eapply hoare_conseq; [exact IH| |intros a d Hd; exact Hd|intros d Hd; exact Hd]. destruct r as [e|[]].
    + intros d ((((Hd & Hp) & Hk) & Hz) & Hf). split; [split; [exact Hd|exact Hp]|]. intros Hcalm. exfalso.
      pose proof (opt_inv_relinked _ _ _ Hd) as Hr. destruct Hf as [Hf|[Hf|Hf]].
      * by destruct Hcalm.
      * apply find_node_None in Hf; [congruence|apply (re_wf _ Hr)].
      * rewrite (is_dir_cont d _ k Hr Hk) in Hf. apply bool_decide_eq_true in Hf. by apply (re_link_files _ Hr n k).
    + intros d' (d & j & dir & (((Hd & Hp) & Hk) & Hz) & Hj & Hpar & ->). rewrite links_parent in Hpar. injection Hpar as <-.
      assert (d_names (touch_dir links (set_names (delete linkPath (d_names d)) d)) = delete linkPath (d_names d)) as En by apply touch_names.
      split; [split|].
      * eapply del_link_done; [exact Hd|exact Hk| |by apply links_dir_now, (opt_inv_relinked D h)]. rewrite Hsize. congruence.
      * rewrite En, lookup_delete_ne by (apply not_eq_sym, path_not_link). exact Hp.
      * intros Hcalm. rewrite En, lookup_delete_eq. destruct Hz as [?|Hz]; [by destruct Hcalm|]. specialize (Hz Hcalm). split; [lia|by left].
  - apply hoare_ret. intros d ([(Hd & Hp) _] & [Hk _]%find_node_Some & _). split; [done|]. exists k. split_and!; [done|done|].
    eapply (re_links _ (opt_inv_relinked _ _ _ Hd)); [exact Hk|exact Hc|exact Hh|]. rewrite Hsize. f_equal. lia.
Qed.

(** With the temporary link [r] to [k] in place. *)
Definition temp_linked (r k : N) (d : Disk) : Prop :=
  relinked d ∧ d_names d !! path = Some i ∧ d_names d !! tempLink nixStore r = Some k ∧ d_names d !! linkPath = Some k ∧
  d_names d0 !! tempLink nixStore r = None ∧
  (calm → achieved D h (set_names (delete (tempLink nixStore r) (d_names d)) d)).

Lemma path_not_temp r : path ≠ tempLink nixStore r.
Proof. intros E. apply Hnt. by exists r. Qed.

Lemma store_dir_now d : relinked d → is_dir nixStore d = true.
Proof. intros Hr. apply dir_now; [done|apply store_not_in_links|apply (op_store_dir Hop)]. Qed.

Lemma add_temp_done d r k :
  opt_inv D h d → d_names d !! path = Some i → d_names d !! linkPath = Some k → cont k = cont i →
  d_names d !! tempLink nixStore r = None →
  temp_linked r k (touch_dir nixStore (set_names (<[tempLink nixStore r := k]> (d_names d)) d)).
Proof.
  intros [Hr Ha] Hp Hk Hck Hfree. destruct (temp_name_ok r) as (_ & _ & Hin' & _).
  pose proof (re_names _ Hr _ Hin') as Hn. rewrite Hfree in Hn.
  split; [apply good_touch; [eapply add_temp_good; [exact Hr|exact Hfree|exact Hk|by rewrite Hck, Hc]|by apply store_dir_now]|].
  rewrite touch_names. cbn [set_names d_names]. rewrite lookup_insert_eq, !lookup_insert_ne by
    (apply not_eq_sym, path_not_temp || apply temp_not_link).
  split; [exact Hp|]. split; [reflexivity|]. split; [exact Hk|]. split; [by destruct (d_names d0 !! tempLink nixStore r)|].
  intros Hcalm. eapply achieved_names; [|exact (Ha Hcalm)]. cbn [set_names d_names]. by rewrite delete_insert_id.
Qed.

Lemma rename_done d r k dirB :
  temp_linked r k d → cont k = cont i → is_dir dirB d = true →
  opt_inv D' h (touch_dir nixStore (touch_dir dirB (set_names (<[path := k]> (delete (tempLink nixStore r) (d_names d))) d))).
Proof.
  intros (Hr & Hp & Ht & Hk & Hfree & Ha) Hck HdB.
  destruct (del_temp_good d r Hr Hfree) as [Hr1 Hd1]. set (d1 := set_names (delete (tempLink nixStore r) (d_names d)) d) in *.
  assert (good_names d1 (<[path := k]> (d_names d1))) as [Hr2 Hd2].
  { apply (relink_good d1 path i k); [exact Hr1| |by symmetry|by rewrite Hck, Hc| |exact Hin].
    - cbn [d1 set_names d_names]. rewrite lookup_delete_ne by (apply not_eq_sym, path_not_temp). exact Hp.
    - apply (wf_named _ (re_wf _ Hr) linkPath k Hk). }
  change (set_names (<[path := k]> (delete (tempLink nixStore r) (d_names d))) d) with (set_names (<[path := k]> (d_names d1)) d1).
  split.
  - apply relinked_touch; [apply relinked_touch; [exact Hr2|by apply Hd2, Hd1]|]. rewrite is_dir_touch. by apply store_dir_now.
  - intros Hcalm. destruct (Ha Hcalm) as (Hhash & HD & Htmp). do 2 (eapply achieved_names; [apply touch_names|]).
    assert (∀ j, linked j d1 → linked j (set_names (<[path := k]> (d_names d1)) d1)) as Hmono.
    { intros j. apply linked_mono. intros m x' c' _ _ Hm. cbn [set_names d_names] in *. rewrite lookup_insert_ne; [exact Hm|apply path_not_link]. }
    assert (linked k (set_names (<[path := k]> (d_names d1)) d1)) as Hlk.
    { eapply linked_by; [by rewrite Hck|exact Hh|]. cbn [d1 set_names d_names]. rewrite lookup_insert_ne by apply path_not_link.
      rewrite lookup_delete_ne by apply temp_not_link. exact Hk. }
    split; [by eapply hashed_mono|]. split.
    + intros q [Hq| ->] j; cbn [set_names d_names].
      * destruct (decide (q = path)) as [->|]; [rewrite lookup_insert_eq; by intros [= <-]|]. rewrite lookup_insert_ne by congruence.
        intros Hj He. by apply Hmono, (HD q).
      * rewrite lookup_insert_eq. by intros [= <-].
    + intros r'. cbn [set_names d_names]. rewrite lookup_insert_ne by apply path_not_temp. apply Htmp.
Qed.

Lemma opt_inv_faulty D1 h1 d : relinked d → faulty → opt_inv D1 h1 d.
Proof. intros Hr Hf. split; [exact Hr|]. intros [Hn _]. by destruct Hn. Qed.

Lemma relink_ok stats k :
  k ≠ i → cont k = cont i →
  hoare (λ d, at_file d ∧ d_names d !! linkPath = Some k) (relink nixStore path linkPath st stats) (λ _, opt_inv D' h) opt_stop.
Proof.
  intros Hki Hck. eapply hoare_bind; [apply hoare_asks|]. intros r.
  eapply (hoare_conseq _ (λ d, at_file d ∧ d_names d !! linkPath = Some k));
    [|intros d [_ Hd]; exact Hd|intros a d Hd; exact Hd|intros d Hd; exact Hd].
  eapply hoare_bind.
  { apply hoare_link.
    - intros d ([Hd Hp] & Hk). split; [split; [by apply opt_inv_stable|exact Hp]|exact Hk].
    - intros d ([[Hr _] Hp] & Hk). destruct (wf_named _ (re_wf _ Hr) linkPath k Hk) as [nk Hnk].
      exists k, nk, nixStore. split; [apply find_node_Some; exact (conj Hk Hnk)|]. split.
      + intros E. pose proof (cont_now d k nk Hr Hnk) as Hcn. unfold node_inode in Hcn. rewrite E, Hck, Hc in Hcn. discriminate Hcn.
      + split; [apply (temp_name_ok r)|by apply store_dir_now]. }
  intros [e|[]].
  { case_decide as He.
    - apply hoare_ret. intros d ((([Hr _] & _) & _) & [Hf|[-> _]]); [by apply opt_inv_faulty|discriminate He].
    - apply hoare_lift; [|discriminate]. intros d ((([Hr Ha] & _) & _) & Hf). split; [exact Hr|]. intros Hcalm.
      destruct Hf as [Hf|[_ [j Hj]]]; [by destruct Hcalm|]. destruct (Ha Hcalm) as (_ & _ & Ht). by rewrite Ht in Hj. }
  eapply (hoare_conseq _ (temp_linked r k)); [| |intros a d Hd; exact Hd|intros d Hd; exact Hd].
  2: { intros d' (d & j & dir & ((Hd & Hp) & Hk) & Hj & Hfree & Hpar & _ & ->). assert (j = k) as -> by congruence.
       rewrite (proj1 (proj2 (temp_name_ok r))) in Hpar. injection Hpar as <-. by apply add_temp_done. }
  assert (stable (temp_linked r k)) as Hst.
  { intros d (Hr & Hrest). split; [by apply relinked_tick|exact Hrest]. }
  eapply hoare_bind.
  { apply hoare_rename_file; [exact Hst|]. intros d (Hr & Hp & Ht & Hk & _). destruct (wf_named _ (re_wf _ Hr) linkPath k Hk) as [nk Hnk].
    destruct (wf_parents _ (re_wf _ Hr) path i Hp) as (dirB & HB & HdB). exists k, nk, nixStore, dirB.
    split; [apply find_node_Some; exact (conj Ht Hnk)|]. split.
    { intros E. pose proof (cont_now d k nk Hr Hnk) as Hcn. unfold node_inode in Hcn. rewrite E, Hck, Hc in Hcn. discriminate Hcn. }
    split; [apply (temp_name_ok r)|]. split; [exact HB|]. split; [exact HdB|]. split; [|congruence].
    rewrite (is_dir_cont d path i Hr Hp), Hc. by apply bool_decide_eq_false. }
  intros [e|[]].
  - apply (hoare_bind _ _ (λ _ d, relinked d ∧ faulty)).
    { eapply hoare_conseq; [apply (hoare_unlink (λ d, temp_linked r k d ∧ faulty))| | |intros d Hd; exact Hd].
      - intros d [Hd Hf]. split; [by apply Hst|exact Hf].
      - intros d _. exists nixStore. apply (temp_name_ok r).
      - intros d Hd. exact Hd.
      - intros [e'|[]] d'; [by intros [[[? _] ?] _]|]. intros (d & j & dir & ((Hr & _ & _ & _ & Hfree & _) & Hf) & Hj & Hpar & ->).
        rewrite (proj1 (proj2 (temp_name_ok r))) in Hpar. injection Hpar as <-. split; [|exact Hf].
        apply good_touch; [by apply del_temp_good|by apply store_dir_now]. }
    intros _. case_decide.
    + apply hoare_ret. intros d [Hr Hf]. by apply opt_inv_faulty.
    + apply hoare_lift; [|discriminate]. intros d [Hr Hf]. by apply opt_stop_faulty.
  - apply hoare_ret. intros d' (d & j & dirA & dirB & Hd & Hj & HA & HB & HdB & ->).
    rewrite (proj1 (proj2 (temp_name_ok r))) in HA. injection HA as <-. assert (j = k) as -> by (destruct Hd as (_ & _ & ? & _); congruence).
    by apply rename_done.
Qed.

Lemma parent_dir_now : ∃ dir, parent_of path = Some dir ∧ ∀ d, relinked d → is_dir dir d = true.
Proof.
  destruct Hpath as [j Hj]. destruct (wf_parents _ (op_wf Hop) path j Hj) as (dir & Hd & _). exists dir. split; [exact Hd|].
  intros d Hr. pose proof (re_names _ Hr path Hin) as Hn. rewrite Hj in Hn. destruct (d_names d !! path) as [k|] eqn:Ek; [|destruct Hn].
  destruct (wf_parents _ (re_wf _ Hr) path k Ek) as (dir' & Hd' & Hdir). congruence.
Qed.

Lemma replace_by_link_ok stats k :
  k ≠ i → cont k = cont i →
  hoare (λ d, at_file d ∧ d_names d !! linkPath = Some k) (replace_by_link nixStore path linkPath st stats) (λ _, opt_inv D' h) opt_stop.
Proof.
  intros Hki Hck. destruct parent_dir_now as (dir & Hpar & Hdir). unfold replace_by_link. rewrite dirOf_parent, Hpar.
  set (toggle := negb (isStorePath nixStore path)). set (tdir := if toggle then dir else []).
  assert ((if toggle then Ret dir else Ret []) = Ret tdir) as -> by (unfold tdir; by destruct toggle).
  apply (hoare_bind _ _ (λ t d, t = tdir ∧ at_file d ∧ d_names d !! linkPath = Some k)).
  { intros d Hd. cbn [lift]. exact (conj eq_refl Hd). }
  intros t. apply hoare_pre. intros ->.
  apply (hoare_bind _ _ (λ _ d, at_file d ∧ d_names d !! linkPath = Some k)).
  - apply hoare_when; [|intros _ d Hd; exact Hd]. intros Ht. unfold tdir. rewrite Ht.
    intros d ((Hd & Hp) & Hk). pose proof (makeWritable_ok dir (d_names d) (λ d Hr _, Hdir d Hr) d (conj (proj1 Hd) eq_refl)) as Hw.
    destruct (makeWritable dir d) as [[[]|e|] d'].
    + destruct Hw as [Hr Hm]. rewrite Hm. split; [split; [|exact Hp]|exact Hk]. split; [exact Hr|].
      intros Hcalm. eapply achieved_names; [exact Hm|]. by apply Hd.
    + destruct Hw. by apply opt_stop_faulty.
    + destruct Hw. by apply opt_stop_faulty.
  - intros []. apply hoare_finally.
    assert (∀ d, relinked d → relinked (makeReadOnly tdir d) ∧ d_names (makeReadOnly tdir d) = d_names d) as Hro.
    { intros d Hr. unfold tdir. destruct toggle; [apply makeReadOnly_ok; [exact Hr|by apply Hdir]|]. unfold makeReadOnly. by rewrite decide_True. }
    eapply hoare_conseq; [by apply (relink_ok stats k)|intros d Hd; exact Hd| |].
    + intros s d [Hr Ha]. destruct (Hro d Hr) as [Hr' Hm]. split; [exact Hr'|]. intros Hcalm. eapply achieved_names; [exact Hm|]. by apply Ha.
    + intros d [Hr Hn]. split; [by apply Hro|exact Hn].
Qed.

Lemma view_file d : relinked d → d_names d !! path = Some i → view d !! path = Some (IFile x c).
Proof.
  intros Hr Hp. destruct (wf_named _ (re_wf _ Hr) path i Hp) as [nd Hnd]. rewrite lookup_view. unfold find_node. rewrite Hp.
  cbn [mbind option_bind]. rewrite Hnd. cbn [mbind option_bind snd]. by rewrite (cont_now d i nd Hr Hnd).
Qed.
End one_file.

Lemma optimise_file_ok tries stats path st i x c D h :
  ¬ in_links path → ¬ is_temp path → is_Some (d_names d0 !! path) → cont i = Some (IFile x c) →
  st_ino st = i → st_size st = Z.of_nat (length c) → (calm → 1 < tries) →
  hoare (λ d, opt_inv D h d ∧ d_names d !! path = Some i) (optimise_file nixStore tries stats path st h)
    (λ r, opt_inv (λ q, D q ∨ q = path) r.2) opt_stop.
Proof.
  intros Hin Hnt Hpath Hc Hino Hsz Htries. destruct (hash_name_total x c (op_files Hop _ _ _ Hc)) as [n Hh].
  unfold optimise_file. apply (hoare_bind _ _ (λ hr d, printHash32 hr.1 = Ret n ∧ opt_inv D h d ∧ d_names d !! path = Some i)).
  { apply (hoare_bind _ _ (λ _ d, opt_inv D h d ∧ d_names d !! path = Some i)).
    - apply hoare_orThrow, hoare_call.
      + intros d e Hf [[Hr _] _]. apply opt_stop_faulty; [by apply relinked_tick|exact Hf].
      + intros d r d' [Hd Hp] [= <- <-]. split; [by apply opt_inv_stable|exact Hp].
    - intros [] d [Hd Hp]. pose proof (hashPath_file path (view d) x c (view_file path i x c Hc d (opt_inv_relinked _ _ _ Hd) Hp)) as Ef.
      destruct Hh as [Hh]. rewrite Hh in Ef. apply bind_Ret_inv in Ef as (hr & E1 & E2). unfold gets. rewrite E1. exact (conj E2 (conj Hd Hp)). }
  intros hr. apply hoare_pre. intros En. rewrite En.
  apply (hoare_bind _ _ (λ m d, m = n ∧ opt_inv D h d ∧ d_names d !! path = Some i)).
  { intros d Hd. cbn [lift]. exact (conj eq_refl Hd). }
  intros m. apply hoare_pre. intros ->. cbv zeta. eapply hoare_bind.
  { eapply hoare_conseq; [apply (find_link_ok path Hin Hnt Hpath i x c n Hc Hh st Hino Hsz D h tries)| |intros a d Hd; exact Hd|intros d Hd; exact Hd].
    intros d Hd. split; [exact Hd|]. intros Hcalm. specialize (Htries Hcalm). split; [lia|by right]. }
  intros [h'|[]]; [by apply hoare_ret|].
  eapply hoare_bind; [|intros stats'; apply hoare_ret; intros d Hd; exact Hd].
  intros d (Hd & k & Hki & Hk & Hck). by apply (replace_by_link_ok path Hin Hnt Hpath i x c n Hc Hh st D h stats k Hki Hck d).
Qed.

(** ** The walk *)

Context (Htop : isStorePath nixStore top = true) (Htop_links : top ≠ links) (Htop_temp : ¬ is_temp top).

Lemma below_top q : at_or_below top q → ¬ in_links q ∧ ¬ is_temp q.
Proof.
  apply isStorePath_iff in Htop as (b & Hb & Hs & Et); [|apply (op_store Hop)]. intros Hq. split.
  - intros Hl. assert (at_or_below links q) as Hl' by (by right). change links with (nixStore ++ slash ++ str ".links") in Hl'.
    rewrite Et in Hq. apply (at_or_below_siblings nixStore b (str ".links") q) in Hl'; [|exact Hs|concrete|exact Hq].
    apply Htop_links. rewrite Et, Hl'. reflexivity.
  - intros [r ->]. apply Htop_temp. exists r.
    assert ("/"%byte ∉ str ".tmp-link-" ++ dec k_pid ++ str "-" ++ dec r) as Hr.
    { unfold dec. rewrite !not_elem_of_app. split_and!; try apply uint_bytes_slash; concrete. }
    rewrite Et in Hq. assert (b = str ".tmp-link-" ++ dec k_pid ++ str "-" ++ dec r) as E.
    { apply (at_or_below_siblings nixStore b _ (tempLink nixStore r)); [exact Hs|exact Hr|exact Hq|by left]. }
    rewrite Et, E. reflexivity.
Qed.

(** Below [top] the names are those of the beginning. *)
Lemma below_named q d i : relinked d → at_or_below top q → d_names d !! q = Some i →
  ∃ j, d_names d0 !! q = Some j ∧ cont j = cont i ∧ (cont j = Some IDir → j = i).
Proof.
  intros Hr Hq Hi. destruct (below_top q Hq) as [Hin Hnt]. pose proof (re_names _ Hr q Hin) as Hn. rewrite Hi in Hn.
  destruct (d_names d0 !! q) as [j|]; [by exists j|]. by destruct Hn.
Qed.

(** What is not a directory covers nothing but itself. *)
Lemma file_covers path D h d :
  proper path → is_dir path d = false → opt_inv (λ q, D q ∨ q = path) h d → opt_inv (λ q, D q ∨ at_or_below path q) h d.
Proof.
  intros Hp Hd [Hr Ha]. split; [exact Hr|]. intros (Hh & HD & Ht)%Ha. split; [exact Hh|]. split; [|exact Ht].
  intros q [Hq|Hq]; [apply HD; by left|]. destruct (decide (q = path)) as [->|Hne]; [apply HD; by right|].
  intros i Hi. destruct (named_below d path q i (re_wf _ Hr) Hp Hq Hne Hi) as [Hdir _]. congruence.
Qed.

(** The entries that are left out are linked already. *)
Definition left_out (path : bytes) (ns : list bytes) (q : bytes) : Prop :=
  at_or_below path q ∧ ∀ m, m ∈ ns → ¬ at_or_below (path ++ slash ++ m) q.

Lemma readDirectory_ok path D h i :
  at_or_below top path → proper path → cont i = Some IDir →
  hoare (λ d, opt_inv D h d ∧ d_names d !! path = Some i) (readDirectoryIgnoringInodes path h)
    (λ ns d, opt_inv (λ q, D q ∨ left_out path ns q) h d ∧ ∀ m, m ∈ ns → m ≠ [] ∧ is_Some (d_names d0 !! (path ++ slash ++ m))) opt_stop.
Proof.
  intros Hpath Hp Hi. unfold readDirectoryIgnoringInodes, readdir_all.
  apply (hoare_bind _ _ (λ es d, es = dirents path d ∧ opt_inv D h d ∧ d_names d !! path = Some i)).
  { eapply hoare_bind.
    - apply (hoare_readdir (λ d, opt_inv D h d ∧ d_names d !! path = Some i)).
      + intros d [Hd Hn]. split; [by apply opt_inv_stable|exact Hn].
      + intros d [[Hr _] Hn] [Hf|Hf]; [by apply opt_stop_faulty|]. rewrite (is_dir_cont d path i Hr Hn), Hi in Hf.
        by apply bool_decide_eq_false in Hf.
    - intros es0. eapply hoare_conseq; [apply (hoare_asks _ (dirents path) opt_stop)|intros d Hd; exact Hd| |intros d Hd; exact Hd].
      intros es d [-> [Hd _]]. exact (conj eq_refl Hd). }
  intros es. apply hoare_ret. intros d (-> & Hd & Hn). pose proof (opt_inv_relinked _ _ _ Hd) as Hr.
  set (ns := (λ e, e.1) <$> filter (λ e : bytes * N, e.2 ∉ h ∧ e.1 ≠ str "." ∧ e.1 ≠ str "..") (dirents path d)).
  assert (∀ m j, (m, j) ∈ entries path d → (m, j) ∈ dirents path d) as Hsub.
  { intros m j Hm. unfold dirents. rewrite Hn. destruct (parent_of path ≫= (d_names d !!.)); [by do 2 right|done]. }
  assert (∀ m, m ∈ ns → ∃ j, (m, j) ∈ entries path d) as Hns.
  { intros m ([m' j] & -> & [(_ & H1 & H2) Hin]%list_elem_of_filter)%list_elem_of_fmap. exists j. cbn [fst snd] in *. unfold dirents in Hin.
    rewrite Hn in Hin. destruct (parent_of path ≫= (d_names d !!.)); [|done].
    apply elem_of_cons in Hin as [[= -> _]|[[= -> _]|Hin]%elem_of_cons]; [done|done|exact Hin]. }
  split.
  - split; [exact Hr|]. intros Hcalm. destruct (proj2 Hd Hcalm) as (Hh & HD & Ht). split; [exact Hh|]. split; [|exact Ht].
    intros q [Hq|[Hq Hout]]; [by apply HD|]. intros j Hj Hel. destruct (decide (q = path)) as [->|Hne].
    { exfalso. assert (j = i) as -> by congruence. destruct Hel as (n & c & Hn' & Hpl & _). unfold cont in Hi. rewrite Hn' in Hi.
      simpl in Hi. unfold node_inode in Hi. by rewrite Hpl in Hi. }
    destruct (named_below d path q j (re_wf _ Hr) Hp Hq Hne Hj) as (_ & m & jm & Hm0 & Hms & Hjm & Hb).
    assert (at_or_below top (path ++ slash ++ m)) as Hbt.
    { eapply below_trans; [exact Hpath|]. right. exists m. by rewrite (assoc (++)). }
    destruct (below_named _ d jm Hr Hbt Hjm) as (j0 & Hj0 & Hcj & Hsame).
    destruct (decide (jm ∈ h)) as [Hjh|Hjh].
    + destruct (Hh jm Hjh) as [Hnd Hl]. assert (q = path ++ slash ++ m) as ->; [|by assert (j = jm) as -> by congruence].
      destruct (decide (q = path ++ slash ++ m)) as [|Hne']; [done|exfalso].
      destruct (named_below d (path ++ slash ++ m) q j (re_wf _ Hr)) as [Hdir _]; [by apply proper_child|exact Hb|exact Hne'|exact Hj|].
      rewrite (is_dir_cont d _ jm Hr Hjm) in Hdir. apply bool_decide_eq_true in Hdir.
      apply (Hnd Hdir _ Hbt). rewrite Hj0. f_equal. apply Hsame. congruence.
    + exfalso. apply (Hout m); [|exact Hb]. apply list_elem_of_fmap. exists (m, jm). split; [done|]. apply list_elem_of_filter.
      split; [|apply Hsub, elem_of_entries; by split_and!]. cbn [fst snd]. split; [exact Hjh|].
      split; intros ->; by rewrite (op_no_dots Hop) in Hj0 by auto.
  - intros m Hm. destruct (Hns m Hm) as [j (Hj & Hm0 & _)%elem_of_entries]. split; [exact Hm0|].
    destruct (below_named (path ++ slash ++ m) d j Hr) as (j0 & Hj0 & _); [|exact Hj|by exists j0].
    eapply below_trans; [exact Hpath|]. right. exists m. by rewrite (assoc (++)).
Qed.

Lemma opt_inv_mono (D D1 : bytes → Prop) h d : opt_inv D1 h d → (∀ q, D q → D1 q) → opt_inv D h d.
Proof.
  intros [Hr Ha] HD. split; [exact Hr|]. intros (Hh & HD1 & Ht)%Ha. split; [exact Hh|]. split; [|exact Ht]. auto.
Qed.

Lemma eligible_now d i n :
  relinked d → d_nodes d !! i = Some n → eligible i →
  ∃ c, n_payload n = PFile c ∧ (deduplicationMinSize <= Z.of_nat (length c))%Z ∧ Z.land (node_mode n) S_IWUSR = 0%Z.
Proof.
  intros Hr Hn (n0 & c & Hn0 & Hp & Hl & Hw). pose proof (re_nodes _ Hr i) as Hi. rewrite Hn, Hn0 in Hi.
  destruct Hi as [->|[E _]]; [by exists c|congruence].
Qed.

(** There is nothing to do for the file at [path]. *)
Lemma opt_inv_skip path D h d i :
  opt_inv D h d → d_names d !! path = Some i → (calm → eligible i → linked i d) → opt_inv (λ q, D q ∨ q = path) h d.
Proof.
  intros [Hr Ha] Hp Hl. split; [exact Hr|]. intros Hcalm. destruct (Ha Hcalm) as (Hh & HD & Ht). split; [exact Hh|]. split; [|exact Ht].
  intros q [Hq| ->]; [by apply HD|]. intros j Hj He. assert (j = i) as -> by congruence. by apply Hl.
Qed.

Lemma optimisePath_ok fuel tries stats path D h :
  at_or_below top path → proper path → 0 < fuel → names_bound d0 <= length path + fuel → (calm → 1 < tries) →
  (calm → is_Some (d_names d0 !! path)) →
  hoare (opt_inv D h) (optimisePath_ nixStore fuel tries stats path h)
    (λ r, opt_inv (λ q, D q ∨ at_or_below path q) r.2) opt_stop.
Proof.
  revert path stats D h. induction fuel as [|fuel IH]; intros path stats D h Hpath Hp Hpos Hfuel Htries Hex; [lia|].
  cbn [optimisePath_]. destruct (below_top path Hpath) as [Hin Hnt].
  eapply hoare_bind.
  { apply hoare_lstat; [apply opt_inv_stable|]. intros d Hd [Hf|Hn]; [apply opt_stop_faulty; [by eapply opt_inv_relinked|done]|].
    pose proof (opt_inv_relinked _ _ _ Hd) as Hr. split; [exact Hr|]. intros Hcalm. destruct (Hex Hcalm) as [i Hi].
    apply find_node_None in Hn; [|apply (re_wf _ Hr)]. pose proof (re_names _ Hr path Hin) as Hre. by rewrite Hi, Hn in Hre. }
  intros st. apply hoare_exists. intros [[i n] d1]. cbn [fst snd].
  apply (hoare_pure ((0 <= n_perm n < 4096)%Z ∧ st = stat_of i n d1 ∧ node_inode n = cont i ∧
    ∃ j, d_names d0 !! path = Some j ∧ cont j = cont i)).
  { intros d (Hd & [Hi Hn]%find_node_Some & ->). pose proof (opt_inv_relinked _ _ _ Hd) as Hr.
    split; [by apply (wf_perm _ (re_wf _ Hr) i)|]. split; [done|]. split; [by eapply cont_now|].
    destruct (below_named path d i Hr Hpath Hi) as (j & Hj & Hcj & _). by exists j. }
  intros (Hperm & -> & Hcont & j0 & Hj0 & Hcj0). assert (is_Some (d_names d0 !! path)) as Hpath0 by (by exists j0).
  rewrite stat_S_ISDIR, stat_S_ISREG by exact Hperm.
  assert (∀ d, find_node path d = Some (i, n) → opt_inv D h d → n_payload n ≠ PDir →
    (calm → eligible i → linked i d) → opt_inv (λ q, D q ∨ at_or_below path q) h d) as Hskip.
  { intros d Hn Hd Hnd Hl. apply file_covers; [exact Hp|unfold is_dir; rewrite Hn; by apply bool_decide_eq_false|].
    apply find_node_Some in Hn as [Hi _]. by eapply opt_inv_skip. }
  assert (∀ d, find_node path d = Some (i, n) → opt_inv D h d → eligible i →
    ∃ c, n_payload n = PFile c ∧ (deduplicationMinSize <= Z.of_nat (length c))%Z ∧ Z.land (node_mode n) S_IWUSR = 0%Z) as Hel.
  { intros d [_ Hn]%find_node_Some Hd. by apply (eligible_now d i n (opt_inv_relinked _ _ _ Hd)). }
  destruct (n_payload n) as [c| |t|] eqn:Epl; cbn [negb orb andb].
  2: { assert (cont i = Some IDir) as Hi by (rewrite <-Hcont; unfold node_inode; by rewrite Epl).
       eapply hoare_bind.
       { eapply hoare_conseq; [apply (readDirectory_ok path D h i Hpath Hp Hi)| |intros a d Hd; exact Hd|intros d Hd; exact Hd].
         intros d (Hd & [Hn _]%find_node_Some & _). exact (conj Hd Hn). }
       intros ns. apply (hoare_pure (∀ m, m ∈ ns → m ≠ [] ∧ is_Some (d_names d0 !! (path ++ slash ++ m)))); [by intros d [_ ?]|]. intros Hns.
       eapply hoare_conseq; [apply (hoare_iterM_prefix (λ k s d, opt_inv (λ q, (D q ∨ left_out path ns q) ∨
         ∃ m, m ∈ k ∧ at_or_below (path ++ slash ++ m) q) s.2 d))| | |intros d Hd; exact Hd].
       - intros k m k' [s h'] ->. cbn [fst snd].
         destruct (Hns m) as [Hm [jm Hjm]]; [set_solver|]. pose proof (names_bound_lookup d0 _ jm Hjm) as Hb. rewrite !length_app in Hb. simpl in Hb.
         destruct m as [|b m]; [done|]. simpl in Hb.
         eapply hoare_conseq; [apply (IH (path ++ slash ++ b :: m))| | |intros d Hd; exact Hd].
         + eapply below_trans; [exact Hpath|]. right. exists (b :: m). by rewrite (assoc (++)).
         + by apply proper_child.
         + lia.
         + rewrite !length_app. simpl. lia.
         + exact Htries.
         + intros _. by exists jm.
         + intros d Hd. exact Hd.
         + intros r d Hd. eapply opt_inv_mono; [exact Hd|]. intros q [Hq|(m' & [Hm'| ->%list_elem_of_singleton]%elem_of_app & Hq)]; [tauto| |tauto].
           left. right. by exists m'.
       - intros d [Hd _]. eapply opt_inv_mono; [exact Hd|]. intros q [Hq|(m & []%not_elem_of_nil & _)]. exact Hq.
       - intros r d Hd. eapply opt_inv_mono; [exact Hd|]. intros q [Hq|Hq]; [tauto|].
         destruct (decide (Exists (λ m, at_or_below (path ++ slash ++ m) q) ns)) as [(m & Hm & Hq')%Exists_exists|Hno]; [right; by exists m|].
         left. right. split; [exact Hq|]. intros m Hm Hq'. apply Hno, Exists_exists. by exists m. }
  2, 3: apply hoare_ret; intros d (Hd & Hn & _); apply Hskip; try done; intros _ He; by destruct (Hel d Hn Hd He) as (? & ? & _).
  case_bool_decide as Hsmall.
  { apply hoare_ret. intros d (Hd & Hn & _). apply Hskip; try done. intros _ He. exfalso.
    destruct (Hel d Hn Hd He) as (c' & [= <-] & Hl & _). cbn [stat_of st_size] in Hsmall. unfold node_size in Hsmall. rewrite Epl in Hsmall. lia. }
  cbn [stat_of st_mode]. destruct (bool_decide (Z.land (node_mode n) S_IWUSR = 0%Z)) eqn:Hw; cbn [negb].
  2: { apply hoare_ret. intros d (Hd & Hn & _). apply Hskip; try done. intros _ He. exfalso.
       apply bool_decide_eq_false in Hw. by destruct (Hel d Hn Hd He) as (c' & _ & _ & ?). }
  destruct (bool_decide (1 < st_nlink _) && bool_decide (st_ino _ ∈ h)) eqn:Hh.
  { apply andb_true_iff in Hh as [_ Hh%bool_decide_eq_true]. apply hoare_ret. intros d (Hd & Hn & _). apply Hskip; try done.
    intros Hcalm _. by apply (proj1 (proj2 Hd Hcalm)). }
  assert (cont i = Some (IFile (xbit n) c)) as Hc by (rewrite <-Hcont; unfold node_inode; by rewrite Epl).
  assert (st_size (stat_of i n d1) = Z.of_nat (length c)) as Hsz by (cbn [stat_of st_size]; unfold node_size; by rewrite Epl).
  eapply hoare_conseq; [apply (optimise_file_ok tries stats path (stat_of i n d1) i (xbit n) c D h); try assumption; reflexivity| | |intros d Hd; exact Hd].
  - intros d (Hd & [Hi _]%find_node_Some & _). split; [exact Hd|exact Hi].
  - intros [s h'] d Hd. cbn [snd] in *. apply file_covers; [exact Hp| |exact Hd]. pose proof (opt_inv_relinked _ _ _ Hd) as Hr.
    pose proof (re_names _ Hr path Hin) as Hre. rewrite Hj0 in Hre. destruct (d_names d !! path) as [k|] eqn:Ek; [|destruct Hre].
    rewrite (is_dir_cont d path k Hr Ek). apply bool_decide_eq_false. destruct Hre as [<- _]. by rewrite Hcj0, Hc.
Qed.
End invariant.

(** * Properties *)

(** C12: Replacing files by hard links changes no contents. From a disk on which
    files with the same hash are the same, and on which a link of the right size
    has the contents it is named after, [optimisePath_] leaves every name outside
    the directory of links with the contents it had, whatever system calls fail on
    the way; the only new names are those of temporary links. When no call fails
    on its own and no temporary link was left behind earlier, it returns, and each
    file at or below the path that is not small and not writable is then the very
    inode that the directory of links has under the hash of its contents. *)
Theorem optimisePath_correct {gc : Gcrypt} {glaws : GcryptLaws} {kernel : Kernel} nixStore fuel tries stats path h d :
  optimisable nixStore d → isStorePath nixStore path = true → path ≠ linksOf nixStore → ¬ is_temp nixStore path →
  names_bound d <= fuel → 1 < tries → hashed nixStore d path h d →
  let '(r, d') := optimisePath_ nixStore fuel tries stats path h d in
  disk_wf d' ∧
  (∀ q, ¬ in_links nixStore q → view d' !! q = view d !! q ∨ (is_temp nixStore q ∧ d_names d !! q = None)) ∧
  (calm nixStore d path → (∃ s, r = Ret s) ∧ ∀ q, at_or_below path q → deduped nixStore d q d').
Proof.
  intros Hop Hp Hl Ht Hf Htr Hh.
  assert (proper path) as Hpr.
  { apply isStorePath_iff in Hp as (b & Hb & _ & ->); [|apply (op_store _ _ Hop)]. pose proof (store_dir_nonempty nixStore d Hop) as Hs.
    split; destruct nixStore as [|x [|]]; by destruct b. }
  pose proof (optimisePath_ok nixStore d Hop path Hp Hl Ht fuel tries stats path (λ _, False) h (or_introl eq_refl) Hpr
    ltac:(unfold names_bound in Hf; lia) ltac:(lia) (λ _, Htr) (λ Hc, proj2 (proj2 Hc)) d) as Hok.
  destruct (optimisePath_ nixStore fuel tries stats path h d) as [r d'].
  assert (match r with Ret _ => relinked nixStore d d' ∧ (calm nixStore d path → ∀ q, at_or_below path q → deduped nixStore d q d')
          | _ => opt_stop nixStore d path d' end) as Hend.
  { assert (opt_inv nixStore d path (λ _, False) h d) as Hi.
    { split; [by apply relinked_refl|]. intros Hcalm. split; [exact Hh|]. split; [by intros q []|]. apply Hcalm. }
    specialize (Hok Hi). destruct r as [s| |]; [|exact Hok..]. destruct Hok as [Hr Ha]. split; [exact Hr|].
    intros Hcalm q Hq. apply (Ha Hcalm). by right. }
  assert (relinked nixStore d d') as Hr by (destruct r; apply Hend).
  split; [apply (re_wf _ _ _ Hr)|]. split.
  - intros q Hq. pose proof (re_names _ _ _ Hr q Hq) as Hn. rewrite !lookup_view. unfold find_node.
    destruct (d_names d' !! q) as [j|] eqn:Ej, (d_names d !! q) as [i|]; [|right; by destruct Hn|destruct Hn|by left].
    left. cbn [mbind option_bind]. destruct Hn as [Hc _]. destruct (wf_named _ (re_wf _ _ _ Hr) q j Ej) as [nj Hnj]. rewrite Hnj.
    cbn [mbind option_bind snd]. rewrite (cont_now nixStore d d' j nj Hr Hnj), <-Hc. unfold cont. by destruct (d_nodes d !! i).
  - intros Hcalm. destruct r as [s| |]; [|by destruct Hend..]. split; [by exists s|]. by apply Hend.
Qed.

(** ** Witness *)

(** Two copies of a large file, in one item of the store. *)
Definition big_file : bytes := replicate (Z.to_nat 8192) "a"%byte.
Definition twin_names : gmap bytes N :=
  {[ slash := 1%N; str "/gnu" := 2%N; str "/gnu/store" := 3%N; str "/gnu/store/.links" := 4%N; str "/gnu/store/twins" := 5%N;
     str "/gnu/store/twins/one" := 6%N; str "/gnu/store/twins/two" := 7%N ]}.
Definition twin_nodes : gmap N node :=
  {[ 1%N := mkNode PDir 493 0 5; 2%N := mkNode PDir 493 0 5; 3%N := mkNode PDir 493 0 5; 4%N := mkNode PDir 493 0 5;
     5%N := mkNode PDir 365 0 1; 6%N := mkNode (PFile big_file) 292 0 1; 7%N := mkNode (PFile big_file) 292 0 1 ]}.
Definition twin_disk : Disk := mkDisk twin_names twin_nodes 0.

Definition twin_run := @optimisePath_ sum_gcrypt calm_kernel (str "/gnu/store") 40 2 OptimiseStats0 (str "/gnu/store/twins") ∅ twin_disk.

Lemma twin_files i x c : cont twin_disk i = Some (IFile x c) → x = false ∧ c = big_file.
Proof.
  unfold cont. cbn [twin_disk d_nodes]. destruct (twin_nodes !! i) as [n|] eqn:E; [|done]. apply elem_of_map_to_list in E. simpl.
  assert (∀ e, e ∈ map_to_list twin_nodes → node_inode e.2 = Some IDir ∨ node_inode e.2 = Some (IFile false big_file)) as H.
  { apply Forall_forall. concrete. }
  apply H in E. cbn [snd] in E. destruct E as [->| ->]; [done|]. by intros [= <- <-].
Qed.

Lemma twin_no_links n : d_names twin_disk !! (linksOf (str "/gnu/store") ++ slash ++ n) = None.
Proof.
  apply eq_None_not_Some. intros [k Hk]. apply elem_of_map_to_list in Hk.
  assert (∀ e, e ∈ map_to_list twin_names → ¬ str "/gnu/store/.links/" `prefix_of` e.1) as H by (apply Forall_forall; concrete).
  apply (H _ Hk). exists n. reflexivity.
Qed.

Lemma twin_optimisable : @optimisable sum_gcrypt calm_kernel (str "/gnu/store") twin_disk.
Proof.
  split.
  - split; [done|]. vm_compute. congruence.
  - apply wf_from; apply Forall_forall; concrete.
  - vm_compute. reflexivity.
  - vm_compute. reflexivity.
  - intros i x c [_ ->]%twin_files. vm_compute. reflexivity.
  - intros i j x c x' c' n Hi Hj _ _. rewrite Hi, Hj. apply twin_files in Hi as [-> ->], Hj as [-> ->]. reflexivity.
  - intros n k i x c Hk. by rewrite twin_no_links in Hk.
  - intros n k Hk. by rewrite twin_no_links in Hk.
  - intros p n Hn. apply eq_None_not_Some. intros [k Hk]. apply elem_of_map_to_list in Hk.
    assert (∀ e, e ∈ map_to_list twin_names → ¬ str "/." `suffix_of` e.1 ∧ ¬ str "/.." `suffix_of` e.1) as H by (apply Forall_forall; concrete).
    destruct (H _ Hk) as [H1 H2]. cbn [fst] in *. destruct Hn as [->| ->]; [apply H1|apply H2]; by exists p.
Qed.

Lemma optimisePath_correct_witness :
  (∃ s, twin_run.1 = Ret s) ∧ view twin_run.2 !! str "/gnu/store/twins/two" = view twin_disk !! str "/gnu/store/twins/two" ∧
  d_names twin_run.2 !! str "/gnu/store/twins/two" = d_names twin_run.2 !! str "/gnu/store/twins/one".
Proof.
  pose proof (@optimisePath_correct sum_gcrypt sum_gcrypt_laws calm_kernel (str "/gnu/store") 40 2 OptimiseStats0
    (str "/gnu/store/twins") ∅ twin_disk twin_optimisable ltac:(vm_compute; reflexivity) ltac:(vm_compute; congruence)
    ltac:(intros [r E]; apply (f_equal (take 13)) in E; vm_compute in E; congruence) ltac:(concrete) ltac:(lia) ltac:(intros i Hi; set_solver)) as H.
  unfold twin_run. destruct (@optimisePath_ sum_gcrypt calm_kernel (str "/gnu/store") 40 2 OptimiseStats0 (str "/gnu/store/twins") ∅ twin_disk)
    as [r d'] eqn:E. destruct H as (_ & Hv & Hc).
  assert (@calm calm_kernel (str "/gnu/store") twin_disk (str "/gnu/store/twins")) as Hcalm.
  { split; [by intros (c & e & ?)|]. split; [|vm_compute; by eexists]. intros r'. apply eq_None_not_Some. intros [k Hk].
    apply elem_of_map_to_list in Hk.
    assert (∀ e, e ∈ map_to_list twin_names → ¬ str "/gnu/store/.t" `prefix_of` e.1) as H by (apply Forall_forall; concrete).
    apply (H _ Hk). eexists. cbn [fst]. reflexivity. }
  destruct (Hc Hcalm) as [[s ->] _]. split; [by exists s|]. split.
  - destruct (Hv (str "/gnu/store/twins/two")) as [Hq|[_ Hq]]; [by intros [k Hk]|exact Hq|vm_compute in Hq; discriminate Hq].
  - apply (f_equal snd) in E. cbn [snd] in E. cbn [snd]. rewrite <-E. vm_compute. reflexivity.
Defined.

(** A link that has been corrupted without a change of its size is not noticed:
    the good file is replaced by it. *)
Definition file_name_of (x : bool) (c : bytes) : bytes :=
  match @file_hash32 sum_gcrypt x c with Ret n => n | _ => [] end.
Definition big_name := Eval vm_compute in file_name_of false big_file.
Definition corrupted_disk : Disk :=
  mkDisk (<[linksOf (str "/gnu/store") ++ slash ++ big_name := 8%N]> twin_names)
         (<[8%N := mkNode (PFile (replicate (Z.to_nat 8192) "b"%byte)) 292 0 1]> twin_nodes) 0.
Definition corrupted_run : outcome (OptimiseStats * gset N) * Disk :=
  @optimisePath_ sum_gcrypt calm_kernel (str "/gnu/store") 40 2 OptimiseStats0 (str "/gnu/store/twins") ∅ corrupted_disk.

Definition is_file_of (b : byte) (i : option inode) : bool :=
  match i with Some (IFile _ (c :: _)) => bool_decide (c = b) | _ => false end.

Theorem corrupted_link_spreads :
  match corrupted_run.1 with Ret _ => true | _ => false end = true ∧
  is_file_of "a" (view corrupted_disk !! str "/gnu/store/twins/one") = true ∧
  is_file_of "b" (view corrupted_run.2 !! str "/gnu/store/twins/one") = true.
Proof. vm_compute. done. Qed.
