(* ===== verification/GoalState.v ===== *)
(** libstore/build.cc: the state of goals and of the worker, and what they ask of
    the rest of the system.

    Goals are shared objects. The heap of the model holds the objects that are
    alive; a strong pointer ([GoalPtr], [std::shared_ptr]) keeps its object in the
    heap, a weak one ([WeakGoalPtr]) locks when its object is still there. Strong
    pointers are in [topGoals], in the [waitees] of a goal that is alive, and in
    the local variables of the calls under way, which the model keeps in
    [w_held]. What the goals ask of the store, the system and the helper
    processes is a [call] that a handler answers; the worker and its goals are
    the same whatever the answers are. *)

From S2P Require Import Prelude StateMonad Containers Hash Paths StorePaths Derivations LocalDB.

(** * Types *)

Inductive ExitCode := ecBusy | ecSuccess | ecFailed | ecNoSubstituters | ecIncompleteClosure.
Inductive BuildMode := bmNormal | bmRepair | bmCheck.
Inductive GoalClass := ClassDerivationGoal | ClassSubstitutionGoal.

#[global] Instance ExitCode_eq_dec : EqDecision ExitCode.
Proof. solve_decision. Defined.
#[global] Instance BuildMode_eq_dec : EqDecision BuildMode.
Proof. solve_decision. Defined.
#[global] Instance GoalClass_eq_dec : EqDecision GoalClass.
Proof. solve_decision. Defined.

(** [BuildResult::Status] *)
Inductive BuildStatus :=
  | Built | Substituted | AlreadyValid | PermanentFailure | InputRejected | OutputRejected
  | TransientFailure | CachedFailure | TimedOut | MiscFailure | DependencyFailed
  | LogLimitExceeded | NotDeterministic.

#[global] Instance BuildStatus_eq_dec : EqDecision BuildStatus.
Proof. solve_decision. Defined.

(** [BuildResult::success] *)
Definition build_success (s : BuildStatus) : bool :=
  match s with Built | Substituted | AlreadyValid => true | _ => false end.

(** A pointer to a goal. The class and the path of an object do not change, so
    the pointer is written with them; the serial number tells objects apart. *)
Record GoalPtr := mkGoalPtr { gp_serial : nat; gp_class : GoalClass; gp_path : bytes }.

#[global] Instance GoalPtr_eq_dec : EqDecision GoalPtr.
Proof. solve_decision. Defined.

#[global] Instance GoalPtr_countable : Countable GoalPtr.
Proof.
  refine (inj_countable'
    (λ g, (gp_serial g, bool_decide (gp_class g = ClassDerivationGoal), gp_path g))
    (λ '(n, c, p), mkGoalPtr n (if c : bool then ClassDerivationGoal else ClassSubstitutionGoal) p) _).
  by intros [n [] p].
Defined.

(** An [Agent]: its process and the two pipes it is read from. *)
Record Agent := mkAgent {
  ag_pid : Z;
  ag_running : bool;                       (* [pid != -1] *)
  ag_fromAgent : Z;
  ag_builderOut : Z
}.

(** The member functions that [state] points to. *)
Inductive DerivationState :=
  | dsInit | dsHaveDerivation | dsOutputsSubstituted | dsClosureRepaired | dsInputsRealised
  | dsTryToBuild | dsBuildDone.
Inductive SubstitutionState := ssInit | ssReferencesValid | ssTryToRun | ssFinished.

Record SubstitutablePathInfo := mkSubstitutablePathInfo {
  si_deriver : bytes;
  si_references : strset;
  si_downloadSize : Z;
  si_narSize : Z
}.

(** The data members of [DerivationGoal] that the life of the goal depends on.
    [dg_pid] is [pid] (none for -1); [dg_locks] are the paths locked by
    [outputLocks]. *)
Record DerivationGoal := mkDerivationGoal {
  dg_wantedOutputs : strset;
  dg_needRestart : bool;
  dg_retrySubstitution : bool;
  dg_drv : Derivation;
  dg_locks : list bytes;
  dg_inputPaths : strset;
  dg_allPaths : strset;
  dg_validPaths : strset;
  dg_missingPaths : strset;
  dg_pid : option Z;
  dg_builderOut : Z;
  dg_logSize : Z;
  dg_hook : option Agent;
  dg_fixedOutput : bool;
  dg_state : DerivationState;
  dg_buildMode : BuildMode;
  dg_curRound : nat;
  dg_nrRounds : nat;
  dg_result : BuildStatus
}.

Record SubstitutionGoal := mkSubstitutionGoal {
  sg_info : SubstitutablePathInfo;
  sg_locks : list bytes;
  sg_repair : bool;
  sg_destPath : bytes;
  sg_state : SubstitutionState;
  sg_substituter : option Agent;
  sg_status : bytes
}.

Inductive GoalSelf := SelfDerivation (d : DerivationGoal) | SelfSubstitution (s : SubstitutionGoal).

(** A goal: the members of the base class, and those of its own class. *)
Record Goal := mkGoal {
  g_waitees : list GoalPtr;
  g_waiters : list GoalPtr;
  g_nrFailed : nat;
  g_nrNoSubstituters : nat;
  g_nrIncompleteClosure : nat;
  g_exitCode : ExitCode;
  g_self : GoalSelf
}.

Record Child := mkChild {
  c_goal : GoalPtr;
  c_fds : list Z;
  c_respectTimeouts : bool;
  c_inBuildSlot : bool;
  c_lastOutput : Z;
  c_timeStarted : Z
}.

(** The worker, the heap, the static set [lockedPaths] of pathlocks.cc, and the
    world around the process. *)
Record Worker (W : Type) := mkWorker {
  w_heap : gmap GoalPtr Goal;
  w_serial : nat;
  w_held : list GoalPtr;
  w_topGoals : list GoalPtr;
  w_awake : list GoalPtr;
  w_wantingToBuild : list GoalPtr;
  w_children : gmap Z Child;
  w_nrLocalBuilds : Z;
  w_derivationGoals : gmap bytes GoalPtr;
  w_substitutionGoals : gmap bytes GoalPtr;
  w_waitingForAnyGoal : list GoalPtr;
  w_waitingForAWhile : list GoalPtr;
  w_lastWokenUp : Z;
  w_permanentFailure : bool;
  w_timedOut : bool;
  w_hook : option Agent;
  w_substituter : option Agent;
  w_lockedPaths : strset;
  w_world : W
}.
Arguments mkWorker {W}.
Arguments w_heap {W}.
Arguments w_serial {W}.
Arguments w_held {W}.
Arguments w_topGoals {W}.
Arguments w_awake {W}.
Arguments w_wantingToBuild {W}.
Arguments w_children {W}.
Arguments w_nrLocalBuilds {W}.
Arguments w_derivationGoals {W}.
Arguments w_substitutionGoals {W}.
Arguments w_waitingForAnyGoal {W}.
Arguments w_waitingForAWhile {W}.
Arguments w_lastWokenUp {W}.
Arguments w_permanentFailure {W}.
Arguments w_timedOut {W}.
Arguments w_hook {W}.
Arguments w_substituter {W}.
Arguments w_lockedPaths {W}.
Arguments w_world {W}.

(** The settings (libstore/globals.hh) that the worker and the goals read. *)
Class Settings := {
  set_nixStore : bytes;
  set_thisSystem : bytes;
  set_readOnlyMode : bool;
  set_useSubstitutes : bool;
  set_tryFallback : bool;
  set_keepGoing : bool;
  set_cacheFailure : bool;
  set_useBuildHook : bool;
  set_printBuildTrace : bool;
  set_maxBuildJobs : Z;
  set_buildRepeat : nat;
  set_maxSilentTime : Z;
  set_buildTimeout : Z;
  set_pollInterval : Z;
  set_maxLogSize : Z
}.

(** * The environment *)

Inductive ReadResult := ReadInterrupted | ReadEOF | ReadData (data : bytes).

(** What the goals ask for, by the type of the answer: the store (valid paths,
    derivations, failed paths, substitutes), files, the locks of other
    processes, builders, the build hook and the substituter, and the clock. The
    last group stands for the code around a build that only changes files
    ([startBuilder] up to the fork, [registerOutputs], the build directory, the
    build user). The calls that start a process are given the processes that
    have not been waited for. *)
Inductive call : Type → Type :=
  | CheckInterrupt : call ()
  | Time : call Z
  | AddTempRoot (path : bytes) : call ()
  | IsValidPath (path : bytes) : call bool
  | PathContentsGood (path : bytes) : call bool
  | MarkContentsGood (path : bytes) : call ()
  | DerivationFromPath (drvPath : bytes) : call Derivation
  | HasPathFailed (path : bytes) : call bool
  | RegisterFailedPath (path : bytes) : call ()
  | ComputeFSClosure (path : bytes) (paths : strset) : call strset
  | QueryDeriver (path : bytes) : call bytes
  | QuerySubstitutablePathInfo (path : bytes) : call (option SubstitutablePathInfo)
  | RegisterValidPath (info : ValidPathInfo) : call ()
  | PathExists (path : bytes) : call bool
  | DeletePath (path : bytes) : call ()
  | ReplaceValidPath (storePath tmpPath : bytes) : call ()
  | HashPath (ht : HashType) (path : bytes) : call (Hash * Z)
  | LockFiles (paths : strset) : call bool
  | UnlockFiles (deletePaths : bool) (paths : list bytes) : call ()
  | StartAgent (command : bytes) (live : list Z) : call Agent
  | StopAgent (agent : Agent) : call ()
  | WriteLine (agent : Agent) (line : bytes) : call ()
  | ReadLine (agent : Agent) : call bytes
  | OpenLogFile (drvPath : bytes) : call ()
  | CloseLogFile (drvPath : bytes) : call ()
  | WriteLog (drvPath data : bytes) : call ()
  | SelectFds (fds : list Z) (timeout : option Z) : call (option (list Z))
  | ReadFd (fd : Z) : call ReadResult
  | WaitPid (pid : Z) : call Z
  | KillPid (pid : Z) : call ()
  | PrepareBuild (drvPath : bytes) (validPaths missingPaths : strset) (buildMode : BuildMode) : call ()
  | ForkBuilder (drvPath : bytes) (live : list Z) : call (Z * Z)
  | SetupNamespace (pid : Z) : call ()
  | BuilderReady (fd : Z) : call bytes
  | KillBuildUser (drvPath : bytes) : call ()
  | ReleaseBuildUser (drvPath : bytes) : call ()
  | DiskFull (drvPath : bytes) : call bool
  | DeleteTmpDir (drvPath : bytes) (force : bool) : call ()
  | SalvageOutputs (drvPath : bytes) (missingPaths : strset) (buildMode : BuildMode) : call ()
  | CopyFixedOutputs (drvPath : bytes) (drv : Derivation) : call ()
  | RegisterOutputs (drvPath : bytes) (drv : Derivation) (withHook : bool)
      (missingPaths allPaths : strset) (buildMode : BuildMode) (curRound nrRounds : nat) : call ()
  | DiscardBuildDirs (drvPath : bytes) : call ().

Class Handler (W : Type) := handle : ∀ {A}, call A → SM W A.

(** * Assignments to data members *)

Section updates.
Context {W : Type}.

Definition on_heap (f : gmap GoalPtr Goal → gmap GoalPtr Goal) (w : Worker W) : Worker W :=
  mkWorker (f (w_heap w)) (w_serial w) (w_held w) (w_topGoals w) (w_awake w) (w_wantingToBuild w)
    (w_children w) (w_nrLocalBuilds w) (w_derivationGoals w) (w_substitutionGoals w) (w_waitingForAnyGoal w)
    (w_waitingForAWhile w) (w_lastWokenUp w) (w_permanentFailure w) (w_timedOut w) (w_hook w)
    (w_substituter w) (w_lockedPaths w) (w_world w).
Definition on_serial (f : nat → nat) (w : Worker W) : Worker W :=
  mkWorker (w_heap w) (f (w_serial w)) (w_held w) (w_topGoals w) (w_awake w) (w_wantingToBuild w)
    (w_children w) (w_nrLocalBuilds w) (w_derivationGoals w) (w_substitutionGoals w) (w_waitingForAnyGoal w)
    (w_waitingForAWhile w) (w_lastWokenUp w) (w_permanentFailure w) (w_timedOut w) (w_hook w)
    (w_substituter w) (w_lockedPaths w) (w_world w).
Definition on_held (f : list GoalPtr → list GoalPtr) (w : Worker W) : Worker W :=
  mkWorker (w_heap w) (w_serial w) (f (w_held w)) (w_topGoals w) (w_awake w) (w_wantingToBuild w)
    (w_children w) (w_nrLocalBuilds w) (w_derivationGoals w) (w_substitutionGoals w) (w_waitingForAnyGoal w)
    (w_waitingForAWhile w) (w_lastWokenUp w) (w_permanentFailure w) (w_timedOut w) (w_hook w)
    (w_substituter w) (w_lockedPaths w) (w_world w).
Definition on_topGoals (f : list GoalPtr → list GoalPtr) (w : Worker W) : Worker W :=
  mkWorker (w_heap w) (w_serial w) (w_held w) (f (w_topGoals w)) (w_awake w) (w_wantingToBuild w)
    (w_children w) (w_nrLocalBuilds w) (w_derivationGoals w) (w_substitutionGoals w) (w_waitingForAnyGoal w)
    (w_waitingForAWhile w) (w_lastWokenUp w) (w_permanentFailure w) (w_timedOut w) (w_hook w)
    (w_substituter w) (w_lockedPaths w) (w_world w).
Definition on_awake (f : list GoalPtr → list GoalPtr) (w : Worker W) : Worker W :=
  mkWorker (w_heap w) (w_serial w) (w_held w) (w_topGoals w) (f (w_awake w)) (w_wantingToBuild w)
    (w_children w) (w_nrLocalBuilds w) (w_derivationGoals w) (w_substitutionGoals w) (w_waitingForAnyGoal w)
    (w_waitingForAWhile w) (w_lastWokenUp w) (w_permanentFailure w) (w_timedOut w) (w_hook w)
    (w_substituter w) (w_lockedPaths w) (w_world w).
Definition on_wantingToBuild (f : list GoalPtr → list GoalPtr) (w : Worker W) : Worker W :=
  mkWorker (w_heap w) (w_serial w) (w_held w) (w_topGoals w) (w_awake w) (f (w_wantingToBuild w))
    (w_children w) (w_nrLocalBuilds w) (w_derivationGoals w) (w_substitutionGoals w) (w_waitingForAnyGoal w)
    (w_waitingForAWhile w) (w_lastWokenUp w) (w_permanentFailure w) (w_timedOut w) (w_hook w)
    (w_substituter w) (w_lockedPaths w) (w_world w).
Definition on_children (f : gmap Z Child → gmap Z Child) (w : Worker W) : Worker W :=
  mkWorker (w_heap w) (w_serial w) (w_held w) (w_topGoals w) (w_awake w) (w_wantingToBuild w) (f
    (w_children w)) (w_nrLocalBuilds w) (w_derivationGoals w) (w_substitutionGoals w)
    (w_waitingForAnyGoal w) (w_waitingForAWhile w) (w_lastWokenUp w) (w_permanentFailure w) (w_timedOut w)
    (w_hook w) (w_substituter w) (w_lockedPaths w) (w_world w).
Definition on_nrLocalBuilds (f : Z → Z) (w : Worker W) : Worker W :=
  mkWorker (w_heap w) (w_serial w) (w_held w) (w_topGoals w) (w_awake w) (w_wantingToBuild w) (w_children w)
    (f (w_nrLocalBuilds w)) (w_derivationGoals w) (w_substitutionGoals w) (w_waitingForAnyGoal w)
    (w_waitingForAWhile w) (w_lastWokenUp w) (w_permanentFailure w) (w_timedOut w) (w_hook w)
    (w_substituter w) (w_lockedPaths w) (w_world w).
Definition on_derivationGoals (f : gmap bytes GoalPtr → gmap bytes GoalPtr) (w : Worker W) : Worker W :=
  mkWorker (w_heap w) (w_serial w) (w_held w) (w_topGoals w) (w_awake w) (w_wantingToBuild w) (w_children w)
    (w_nrLocalBuilds w) (f (w_derivationGoals w)) (w_substitutionGoals w) (w_waitingForAnyGoal w)
    (w_waitingForAWhile w) (w_lastWokenUp w) (w_permanentFailure w) (w_timedOut w) (w_hook w)
    (w_substituter w) (w_lockedPaths w) (w_world w).
Definition on_substitutionGoals (f : gmap bytes GoalPtr → gmap bytes GoalPtr) (w : Worker W) : Worker W :=
  mkWorker (w_heap w) (w_serial w) (w_held w) (w_topGoals w) (w_awake w) (w_wantingToBuild w) (w_children w)
    (w_nrLocalBuilds w) (w_derivationGoals w) (f (w_substitutionGoals w)) (w_waitingForAnyGoal w)
    (w_waitingForAWhile w) (w_lastWokenUp w) (w_permanentFailure w) (w_timedOut w) (w_hook w)
    (w_substituter w) (w_lockedPaths w) (w_world w).
Definition on_waitingForAnyGoal (f : list GoalPtr → list GoalPtr) (w : Worker W) : Worker W :=
  mkWorker (w_heap w) (w_serial w) (w_held w) (w_topGoals w) (w_awake w) (w_wantingToBuild w) (w_children w)
    (w_nrLocalBuilds w) (w_derivationGoals w) (w_substitutionGoals w) (f (w_waitingForAnyGoal w))
    (w_waitingForAWhile w) (w_lastWokenUp w) (w_permanentFailure w) (w_timedOut w) (w_hook w)
    (w_substituter w) (w_lockedPaths w) (w_world w).
Definition on_waitingForAWhile (f : list GoalPtr → list GoalPtr) (w : Worker W) : Worker W :=
  mkWorker (w_heap w) (w_serial w) (w_held w) (w_topGoals w) (w_awake w) (w_wantingToBuild w) (w_children w)
    (w_nrLocalBuilds w) (w_derivationGoals w) (w_substitutionGoals w) (w_waitingForAnyGoal w) (f
    (w_waitingForAWhile w)) (w_lastWokenUp w) (w_permanentFailure w) (w_timedOut w) (w_hook w)
    (w_substituter w) (w_lockedPaths w) (w_world w).
Definition on_lastWokenUp (f : Z → Z) (w : Worker W) : Worker W :=
  mkWorker (w_heap w) (w_serial w) (w_held w) (w_topGoals w) (w_awake w) (w_wantingToBuild w) (w_children w)
    (w_nrLocalBuilds w) (w_derivationGoals w) (w_substitutionGoals w) (w_waitingForAnyGoal w)
    (w_waitingForAWhile w) (f (w_lastWokenUp w)) (w_permanentFailure w) (w_timedOut w) (w_hook w)
    (w_substituter w) (w_lockedPaths w) (w_world w).
Definition on_permanentFailure (f : bool → bool) (w : Worker W) : Worker W :=
  mkWorker (w_heap w) (w_serial w) (w_held w) (w_topGoals w) (w_awake w) (w_wantingToBuild w) (w_children w)
    (w_nrLocalBuilds w) (w_derivationGoals w) (w_substitutionGoals w) (w_waitingForAnyGoal w)
    (w_waitingForAWhile w) (w_lastWokenUp w) (f (w_permanentFailure w)) (w_timedOut w) (w_hook w)
    (w_substituter w) (w_lockedPaths w) (w_world w).
Definition on_timedOut (f : bool → bool) (w : Worker W) : Worker W :=
  mkWorker (w_heap w) (w_serial w) (w_held w) (w_topGoals w) (w_awake w) (w_wantingToBuild w) (w_children w)
    (w_nrLocalBuilds w) (w_derivationGoals w) (w_substitutionGoals w) (w_waitingForAnyGoal w)
    (w_waitingForAWhile w) (w_lastWokenUp w) (w_permanentFailure w) (f (w_timedOut w)) (w_hook w)
    (w_substituter w) (w_lockedPaths w) (w_world w).
Definition on_hook (f : option Agent → option Agent) (w : Worker W) : Worker W :=
  mkWorker (w_heap w) (w_serial w) (w_held w) (w_topGoals w) (w_awake w) (w_wantingToBuild w) (w_children w)
    (w_nrLocalBuilds w) (w_derivationGoals w) (w_substitutionGoals w) (w_waitingForAnyGoal w)
    (w_waitingForAWhile w) (w_lastWokenUp w) (w_permanentFailure w) (w_timedOut w) (f (w_hook w))
    (w_substituter w) (w_lockedPaths w) (w_world w).
Definition on_substituter (f : option Agent → option Agent) (w : Worker W) : Worker W :=
  mkWorker (w_heap w) (w_serial w) (w_held w) (w_topGoals w) (w_awake w) (w_wantingToBuild w) (w_children w)
    (w_nrLocalBuilds w) (w_derivationGoals w) (w_substitutionGoals w) (w_waitingForAnyGoal w)
    (w_waitingForAWhile w) (w_lastWokenUp w) (w_permanentFailure w) (w_timedOut w) (w_hook w) (f
    (w_substituter w)) (w_lockedPaths w) (w_world w).
Definition on_lockedPaths (f : strset → strset) (w : Worker W) : Worker W :=
  mkWorker (w_heap w) (w_serial w) (w_held w) (w_topGoals w) (w_awake w) (w_wantingToBuild w) (w_children w)
    (w_nrLocalBuilds w) (w_derivationGoals w) (w_substitutionGoals w) (w_waitingForAnyGoal w)
    (w_waitingForAWhile w) (w_lastWokenUp w) (w_permanentFailure w) (w_timedOut w) (w_hook w)
    (w_substituter w) (f (w_lockedPaths w)) (w_world w).
Definition on_world (f : W → W) (w : Worker W) : Worker W :=
  mkWorker (w_heap w) (w_serial w) (w_held w) (w_topGoals w) (w_awake w) (w_wantingToBuild w) (w_children w)
    (w_nrLocalBuilds w) (w_derivationGoals w) (w_substitutionGoals w) (w_waitingForAnyGoal w)
    (w_waitingForAWhile w) (w_lastWokenUp w) (w_permanentFailure w) (w_timedOut w) (w_hook w)
    (w_substituter w) (w_lockedPaths w) (f (w_world w)).
End updates.

Definition goal_waitees (f : list GoalPtr → list GoalPtr) (g : Goal) : Goal :=
  mkGoal (f (g_waitees g)) (g_waiters g) (g_nrFailed g) (g_nrNoSubstituters g) (g_nrIncompleteClosure g)
    (g_exitCode g) (g_self g).
Definition goal_waiters (f : list GoalPtr → list GoalPtr) (g : Goal) : Goal :=
  mkGoal (g_waitees g) (f (g_waiters g)) (g_nrFailed g) (g_nrNoSubstituters g) (g_nrIncompleteClosure g)
    (g_exitCode g) (g_self g).
Definition goal_nrFailed (f : nat → nat) (g : Goal) : Goal :=
  mkGoal (g_waitees g) (g_waiters g) (f (g_nrFailed g)) (g_nrNoSubstituters g) (g_nrIncompleteClosure g)
    (g_exitCode g) (g_self g).
Definition goal_nrNoSubstituters (f : nat → nat) (g : Goal) : Goal :=
  mkGoal (g_waitees g) (g_waiters g) (g_nrFailed g) (f (g_nrNoSubstituters g)) (g_nrIncompleteClosure g)
    (g_exitCode g) (g_self g).
Definition goal_nrIncompleteClosure (f : nat → nat) (g : Goal) : Goal :=
  mkGoal (g_waitees g) (g_waiters g) (g_nrFailed g) (g_nrNoSubstituters g) (f (g_nrIncompleteClosure g))
    (g_exitCode g) (g_self g).
Definition goal_exitCode (f : ExitCode → ExitCode) (g : Goal) : Goal :=
  mkGoal (g_waitees g) (g_waiters g) (g_nrFailed g) (g_nrNoSubstituters g) (g_nrIncompleteClosure g) (f
    (g_exitCode g)) (g_self g).
Definition goal_self (f : GoalSelf → GoalSelf) (g : Goal) : Goal :=
  mkGoal (g_waitees g) (g_waiters g) (g_nrFailed g) (g_nrNoSubstituters g) (g_nrIncompleteClosure g)
    (g_exitCode g) (f (g_self g)).

Definition dgoal_wantedOutputs (f : strset → strset) (d : DerivationGoal) : DerivationGoal :=
  mkDerivationGoal (f (dg_wantedOutputs d)) (dg_needRestart d) (dg_retrySubstitution d) (dg_drv d)
    (dg_locks d) (dg_inputPaths d) (dg_allPaths d) (dg_validPaths d) (dg_missingPaths d) (dg_pid d)
    (dg_builderOut d) (dg_logSize d) (dg_hook d) (dg_fixedOutput d) (dg_state d) (dg_buildMode d)
    (dg_curRound d) (dg_nrRounds d) (dg_result d).
Definition dgoal_needRestart (f : bool → bool) (d : DerivationGoal) : DerivationGoal :=
  mkDerivationGoal (dg_wantedOutputs d) (f (dg_needRestart d)) (dg_retrySubstitution d) (dg_drv d)
    (dg_locks d) (dg_inputPaths d) (dg_allPaths d) (dg_validPaths d) (dg_missingPaths d) (dg_pid d)
    (dg_builderOut d) (dg_logSize d) (dg_hook d) (dg_fixedOutput d) (dg_state d) (dg_buildMode d)
    (dg_curRound d) (dg_nrRounds d) (dg_result d).
Definition dgoal_retrySubstitution (f : bool → bool) (d : DerivationGoal) : DerivationGoal :=
  mkDerivationGoal (dg_wantedOutputs d) (dg_needRestart d) (f (dg_retrySubstitution d)) (dg_drv d)
    (dg_locks d) (dg_inputPaths d) (dg_allPaths d) (dg_validPaths d) (dg_missingPaths d) (dg_pid d)
    (dg_builderOut d) (dg_logSize d) (dg_hook d) (dg_fixedOutput d) (dg_state d) (dg_buildMode d)
    (dg_curRound d) (dg_nrRounds d) (dg_result d).
Definition dgoal_drv (f : Derivation → Derivation) (d : DerivationGoal) : DerivationGoal :=
  mkDerivationGoal (dg_wantedOutputs d) (dg_needRestart d) (dg_retrySubstitution d) (f (dg_drv d))
    (dg_locks d) (dg_inputPaths d) (dg_allPaths d) (dg_validPaths d) (dg_missingPaths d) (dg_pid d)
    (dg_builderOut d) (dg_logSize d) (dg_hook d) (dg_fixedOutput d) (dg_state d) (dg_buildMode d)
    (dg_curRound d) (dg_nrRounds d) (dg_result d).
Definition dgoal_locks (f : list bytes → list bytes) (d : DerivationGoal) : DerivationGoal :=
  mkDerivationGoal (dg_wantedOutputs d) (dg_needRestart d) (dg_retrySubstitution d) (dg_drv d) (f
    (dg_locks d)) (dg_inputPaths d) (dg_allPaths d) (dg_validPaths d) (dg_missingPaths d) (dg_pid d)
    (dg_builderOut d) (dg_logSize d) (dg_hook d) (dg_fixedOutput d) (dg_state d) (dg_buildMode d)
    (dg_curRound d) (dg_nrRounds d) (dg_result d).
Definition dgoal_inputPaths (f : strset → strset) (d : DerivationGoal) : DerivationGoal :=
  mkDerivationGoal (dg_wantedOutputs d) (dg_needRestart d) (dg_retrySubstitution d) (dg_drv d) (dg_locks d)
    (f (dg_inputPaths d)) (dg_allPaths d) (dg_validPaths d) (dg_missingPaths d) (dg_pid d) (dg_builderOut d)
    (dg_logSize d) (dg_hook d) (dg_fixedOutput d) (dg_state d) (dg_buildMode d) (dg_curRound d)
    (dg_nrRounds d) (dg_result d).
Definition dgoal_allPaths (f : strset → strset) (d : DerivationGoal) : DerivationGoal :=
  mkDerivationGoal (dg_wantedOutputs d) (dg_needRestart d) (dg_retrySubstitution d) (dg_drv d) (dg_locks d)
    (dg_inputPaths d) (f (dg_allPaths d)) (dg_validPaths d) (dg_missingPaths d) (dg_pid d) (dg_builderOut d)
    (dg_logSize d) (dg_hook d) (dg_fixedOutput d) (dg_state d) (dg_buildMode d) (dg_curRound d)
    (dg_nrRounds d) (dg_result d).
Definition dgoal_validPaths (f : strset → strset) (d : DerivationGoal) : DerivationGoal :=
  mkDerivationGoal (dg_wantedOutputs d) (dg_needRestart d) (dg_retrySubstitution d) (dg_drv d) (dg_locks d)
    (dg_inputPaths d) (dg_allPaths d) (f (dg_validPaths d)) (dg_missingPaths d) (dg_pid d) (dg_builderOut d)
    (dg_logSize d) (dg_hook d) (dg_fixedOutput d) (dg_state d) (dg_buildMode d) (dg_curRound d)
    (dg_nrRounds d) (dg_result d).
Definition dgoal_missingPaths (f : strset → strset) (d : DerivationGoal) : DerivationGoal :=
  mkDerivationGoal (dg_wantedOutputs d) (dg_needRestart d) (dg_retrySubstitution d) (dg_drv d) (dg_locks d)
    (dg_inputPaths d) (dg_allPaths d) (dg_validPaths d) (f (dg_missingPaths d)) (dg_pid d) (dg_builderOut d)
    (dg_logSize d) (dg_hook d) (dg_fixedOutput d) (dg_state d) (dg_buildMode d) (dg_curRound d)
    (dg_nrRounds d) (dg_result d).
Definition dgoal_pid (f : option Z → option Z) (d : DerivationGoal) : DerivationGoal :=
  mkDerivationGoal (dg_wantedOutputs d) (dg_needRestart d) (dg_retrySubstitution d) (dg_drv d) (dg_locks d)
    (dg_inputPaths d) (dg_allPaths d) (dg_validPaths d) (dg_missingPaths d) (f (dg_pid d)) (dg_builderOut d)
    (dg_logSize d) (dg_hook d) (dg_fixedOutput d) (dg_state d) (dg_buildMode d) (dg_curRound d)
    (dg_nrRounds d) (dg_result d).
Definition dgoal_builderOut (f : Z → Z) (d : DerivationGoal) : DerivationGoal :=
  mkDerivationGoal (dg_wantedOutputs d) (dg_needRestart d) (dg_retrySubstitution d) (dg_drv d) (dg_locks d)
    (dg_inputPaths d) (dg_allPaths d) (dg_validPaths d) (dg_missingPaths d) (dg_pid d) (f (dg_builderOut d))
    (dg_logSize d) (dg_hook d) (dg_fixedOutput d) (dg_state d) (dg_buildMode d) (dg_curRound d)
    (dg_nrRounds d) (dg_result d).
Definition dgoal_logSize (f : Z → Z) (d : DerivationGoal) : DerivationGoal :=
  mkDerivationGoal (dg_wantedOutputs d) (dg_needRestart d) (dg_retrySubstitution d) (dg_drv d) (dg_locks d)
    (dg_inputPaths d) (dg_allPaths d) (dg_validPaths d) (dg_missingPaths d) (dg_pid d) (dg_builderOut d) (f
    (dg_logSize d)) (dg_hook d) (dg_fixedOutput d) (dg_state d) (dg_buildMode d) (dg_curRound d)
    (dg_nrRounds d) (dg_result d).
Definition dgoal_hook (f : option Agent → option Agent) (d : DerivationGoal) : DerivationGoal :=
  mkDerivationGoal (dg_wantedOutputs d) (dg_needRestart d) (dg_retrySubstitution d) (dg_drv d) (dg_locks d)
    (dg_inputPaths d) (dg_allPaths d) (dg_validPaths d) (dg_missingPaths d) (dg_pid d) (dg_builderOut d)
    (dg_logSize d) (f (dg_hook d)) (dg_fixedOutput d) (dg_state d) (dg_buildMode d) (dg_curRound d)
    (dg_nrRounds d) (dg_result d).
Definition dgoal_fixedOutput (f : bool → bool) (d : DerivationGoal) : DerivationGoal :=
  mkDerivationGoal (dg_wantedOutputs d) (dg_needRestart d) (dg_retrySubstitution d) (dg_drv d) (dg_locks d)
    (dg_inputPaths d) (dg_allPaths d) (dg_validPaths d) (dg_missingPaths d) (dg_pid d) (dg_builderOut d)
    (dg_logSize d) (dg_hook d) (f (dg_fixedOutput d)) (dg_state d) (dg_buildMode d) (dg_curRound d)
    (dg_nrRounds d) (dg_result d).
Definition dgoal_state (f : DerivationState → DerivationState) (d : DerivationGoal) : DerivationGoal :=
  mkDerivationGoal (dg_wantedOutputs d) (dg_needRestart d) (dg_retrySubstitution d) (dg_drv d) (dg_locks d)
    (dg_inputPaths d) (dg_allPaths d) (dg_validPaths d) (dg_missingPaths d) (dg_pid d) (dg_builderOut d)
    (dg_logSize d) (dg_hook d) (dg_fixedOutput d) (f (dg_state d)) (dg_buildMode d) (dg_curRound d)
    (dg_nrRounds d) (dg_result d).
Definition dgoal_buildMode (f : BuildMode → BuildMode) (d : DerivationGoal) : DerivationGoal :=
  mkDerivationGoal (dg_wantedOutputs d) (dg_needRestart d) (dg_retrySubstitution d) (dg_drv d) (dg_locks d)
    (dg_inputPaths d) (dg_allPaths d) (dg_validPaths d) (dg_missingPaths d) (dg_pid d) (dg_builderOut d)
    (dg_logSize d) (dg_hook d) (dg_fixedOutput d) (dg_state d) (f (dg_buildMode d)) (dg_curRound d)
    (dg_nrRounds d) (dg_result d).
Definition dgoal_curRound (f : nat → nat) (d : DerivationGoal) : DerivationGoal :=
  mkDerivationGoal (dg_wantedOutputs d) (dg_needRestart d) (dg_retrySubstitution d) (dg_drv d) (dg_locks d)
    (dg_inputPaths d) (dg_allPaths d) (dg_validPaths d) (dg_missingPaths d) (dg_pid d) (dg_builderOut d)
    (dg_logSize d) (dg_hook d) (dg_fixedOutput d) (dg_state d) (dg_buildMode d) (f (dg_curRound d))
    (dg_nrRounds d) (dg_result d).
Definition dgoal_nrRounds (f : nat → nat) (d : DerivationGoal) : DerivationGoal :=
  mkDerivationGoal (dg_wantedOutputs d) (dg_needRestart d) (dg_retrySubstitution d) (dg_drv d) (dg_locks d)
    (dg_inputPaths d) (dg_allPaths d) (dg_validPaths d) (dg_missingPaths d) (dg_pid d) (dg_builderOut d)
    (dg_logSize d) (dg_hook d) (dg_fixedOutput d) (dg_state d) (dg_buildMode d) (dg_curRound d) (f
    (dg_nrRounds d)) (dg_result d).
Definition dgoal_result (f : BuildStatus → BuildStatus) (d : DerivationGoal) : DerivationGoal :=
  mkDerivationGoal (dg_wantedOutputs d) (dg_needRestart d) (dg_retrySubstitution d) (dg_drv d) (dg_locks d)
    (dg_inputPaths d) (dg_allPaths d) (dg_validPaths d) (dg_missingPaths d) (dg_pid d) (dg_builderOut d)
    (dg_logSize d) (dg_hook d) (dg_fixedOutput d) (dg_state d) (dg_buildMode d) (dg_curRound d)
    (dg_nrRounds d) (f (dg_result d)).

Definition sgoal_info (f : SubstitutablePathInfo → SubstitutablePathInfo) (s : SubstitutionGoal) : SubstitutionGoal :=
  mkSubstitutionGoal (f (sg_info s)) (sg_locks s) (sg_repair s) (sg_destPath s) (sg_state s)
    (sg_substituter s) (sg_status s).
Definition sgoal_locks (f : list bytes → list bytes) (s : SubstitutionGoal) : SubstitutionGoal :=
  mkSubstitutionGoal (sg_info s) (f (sg_locks s)) (sg_repair s) (sg_destPath s) (sg_state s)
    (sg_substituter s) (sg_status s).
Definition sgoal_repair (f : bool → bool) (s : SubstitutionGoal) : SubstitutionGoal :=
  mkSubstitutionGoal (sg_info s) (sg_locks s) (f (sg_repair s)) (sg_destPath s) (sg_state s)
    (sg_substituter s) (sg_status s).
Definition sgoal_destPath (f : bytes → bytes) (s : SubstitutionGoal) : SubstitutionGoal :=
  mkSubstitutionGoal (sg_info s) (sg_locks s) (sg_repair s) (f (sg_destPath s)) (sg_state s)
    (sg_substituter s) (sg_status s).
Definition sgoal_state (f : SubstitutionState → SubstitutionState) (s : SubstitutionGoal) : SubstitutionGoal :=
  mkSubstitutionGoal (sg_info s) (sg_locks s) (sg_repair s) (sg_destPath s) (f (sg_state s))
    (sg_substituter s) (sg_status s).
Definition sgoal_substituter (f : option Agent → option Agent) (s : SubstitutionGoal) : SubstitutionGoal :=
  mkSubstitutionGoal (sg_info s) (sg_locks s) (sg_repair s) (sg_destPath s) (sg_state s) (f
    (sg_substituter s)) (sg_status s).
Definition sgoal_status (f : bytes → bytes) (s : SubstitutionGoal) : SubstitutionGoal :=
  mkSubstitutionGoal (sg_info s) (sg_locks s) (sg_repair s) (sg_destPath s) (sg_state s) (sg_substituter s)
    (f (sg_status s)).
