(* ===== verification/Goals.v ===== *)
(** libstore/build.cc: waiting and waking, the queues of the worker, and the
    lifetime of goals.

    Objects are reference counted: [reclaim] runs the destructor of every object
    no strong pointer is left to, at the places where the code drops one. *)

From S2P Require Import Prelude StateMonad Containers Hash Paths StorePaths Derivations LocalDB GoalState.

Abbreviation WM W := (SM (Worker W)).

Section goals.
Context {W : Type} {settings : Settings} {handler : Handler W}.

(** * Access to objects *)

Definition do_call {A} (c : call A) : WM W A := λ w,
  let '(r, st) := handle c (w_world w) in (r, on_world (λ _, st) w).

(** [p->...]; the objects that member functions run on are alive. *)
Definition get_goal (p : GoalPtr) : WM W Goal := λ w,
  match w_heap w !! p with
  | Some g => (Ret g, w)
  | None => (Throw (Undefined "dangling pointer to a goal"), w)
  end.
Definition upd_goal (p : GoalPtr) (f : Goal → Goal) : WM W () := modify (on_heap (alter f p)).

Definition on_derivation (f : DerivationGoal → DerivationGoal) (g : Goal) : Goal :=
  goal_self (λ s, match s with SelfDerivation d => SelfDerivation (f d) | s => s end) g.
Definition on_substitution (f : SubstitutionGoal → SubstitutionGoal) (g : Goal) : Goal :=
  goal_self (λ s, match s with SelfSubstitution d => SelfSubstitution (f d) | s => s end) g.

Definition get_derivation (p : GoalPtr) : WM W DerivationGoal :=
  g ← get_goal p;
  match g_self g with
  | SelfDerivation d => mret d
  | SelfSubstitution _ => lift (Throw (Undefined "not a derivation goal"))
  end.
Definition get_substitution (p : GoalPtr) : WM W SubstitutionGoal :=
  g ← get_goal p;
  match g_self g with
  | SelfSubstitution s => mret s
  | SelfDerivation _ => lift (Throw (Undefined "not a substitution goal"))
  end.
Definition upd_derivation (p : GoalPtr) (f : DerivationGoal → DerivationGoal) : WM W () :=
  upd_goal p (on_derivation f).
Definition upd_substitution (p : GoalPtr) (f : SubstitutionGoal → SubstitutionGoal) : WM W () :=
  upd_goal p (on_substitution f).

(** [i.lock()] of a weak pointer succeeds. *)
Definition alive (w : Worker W) (p : GoalPtr) : bool := bool_decide (is_Some (w_heap w !! p)).

(** * Sets of goals, ordered by key *)

Definition goal_key (p : GoalPtr) : outcome bytes :=
  name ← storePathToName set_nixStore (gp_path p);
  Ret (match gp_class p with ClassSubstitutionGoal => str "a$" | ClassDerivationGoal => str "b$" end
       ++ name ++ str "$" ++ gp_path p).

(** [CompareGoalPtrs]: the key of a path outside the store throws. *)
Definition compare_goals (a b : GoalPtr) : outcome comparison :=
  s1 ← goal_key a;
  s2 ← goal_key b;
  Ret (str_compare s1 s2).

Fixpoint goals_insert (p : GoalPtr) (s : list GoalPtr) : outcome (list GoalPtr) :=
  match s with
  | [] => Ret [p]
  | x :: s =>
      c ← compare_goals p x;
      match c with
      | Lt => Ret (p :: x :: s)
      | Eq => Ret (x :: s)
      | Gt => s ← goals_insert p s; Ret (x :: s)
      end
  end.

Fixpoint goals_find (p : GoalPtr) (s : list GoalPtr) : outcome bool :=
  match s with
  | [] => Ret false
  | x :: s =>
      c ← compare_goals p x;
      match c with Eq => Ret true | _ => goals_find p s end
  end.

Fixpoint goals_erase (p : GoalPtr) (s : list GoalPtr) : outcome (list GoalPtr) :=
  match s with
  | [] => Ret []
  | x :: s =>
      c ← compare_goals p x;
      match c with Eq => Ret s | _ => s ← goals_erase p s; Ret (x :: s) end
  end.

Definition addToWeakGoals (p : GoalPtr) (goals : list GoalPtr) : list GoalPtr :=
  if decide (p ∈ goals) then goals else goals ++ [p].

(** * The queues of the worker *)

Definition wakeUp (p : GoalPtr) : WM W () := modify (on_awake (addToWeakGoals p)).

(** [foreach (i, queue) { goal = i->lock(); if (goal) wakeUp(goal); } queue.clear();] *)
Definition wake_alive (queue : list GoalPtr) (w : Worker W) : Worker W :=
  on_awake (λ l, foldl (λ l p, if alive w p then addToWeakGoals p l else l) l queue) w.

Definition wake_wantingToBuild (w : Worker W) : Worker W :=
  on_wantingToBuild (λ _, []) (wake_alive (w_wantingToBuild w) w).
Definition wake_waitingForAnyGoal (w : Worker W) : Worker W :=
  on_waitingForAnyGoal (λ _, []) (wake_alive (w_waitingForAnyGoal w) w).
Definition wake_waitingForAWhile (w : Worker W) : Worker W :=
  on_waitingForAWhile (λ _, []) (wake_alive (w_waitingForAWhile w) w).

Definition childStarted (p : GoalPtr) (pid : Z) (fds : list Z) (inBuildSlot respectTimeouts : bool) : WM W () :=
  now ← do_call Time;
  modify (on_children (<[pid := mkChild p (merge_sort Z.le fds) respectTimeouts inBuildSlot now now]>));;
  when inBuildSlot (modify (on_nrLocalBuilds (λ n, (n + 1)%Z))).

Definition childTerminated (pid : Z) (wakeSleepers : bool) : WM W () :=
  lift (check (bool_decide (pid ≠ -1)%Z) (AssertionFailed "pid != -1"));;
  child ← gets (λ w, match w_children w !! pid with
                     | Some c => Ret c
                     | None => Throw (AssertionFailed "i != children.end()")
                     end);
  when (c_inBuildSlot child)
    (n ← gets (λ w, Ret (w_nrLocalBuilds w));
     lift (check (bool_decide (0 < n)%Z) (AssertionFailed "nrLocalBuilds > 0"));;
     modify (on_nrLocalBuilds (λ n, (n - 1)%Z)));;
  modify (on_children (delete pid));;
  when wakeSleepers (modify wake_wantingToBuild).

Definition waitForBuildSlot (p : GoalPtr) : WM W () :=
  n ← gets (λ w, Ret (w_nrLocalBuilds w));
  if decide (n < set_maxBuildJobs)%Z then wakeUp p
  else modify (on_wantingToBuild (addToWeakGoals p)).

Definition waitForAnyGoal (p : GoalPtr) : WM W () := modify (on_waitingForAnyGoal (addToWeakGoals p)).
Definition waitForAWhile (p : GoalPtr) : WM W () := modify (on_waitingForAWhile (addToWeakGoals p)).

(** * Locks of this process *)

Definition pathLockedByMe (path : bytes) : WM W bool := gets (λ w, Ret (set_mem path (w_lockedPaths w))).

(** [PathLocks::lockPaths(paths, "", false)] of an object that holds [held]; the
    answer of [LockFiles] says whether no other process has one of the locks. *)
Definition lockPaths (held : list bytes) (paths : strset) : WM W bool :=
  lift (check (bool_decide (held = [])) (AssertionFailed "fds.empty()"));;
  own ← gets (λ w, Ret (existsb (λ path, set_mem path (w_lockedPaths w)) paths));
  lift (check (negb own) (Error "deadlock: trying to re-acquire self-held lock"));;
  locked ← do_call (LockFiles paths);
  when locked (modify (on_lockedPaths (set_insert_all paths)));;
  mret locked.

(** [PathLocks::unlock] *)
Definition unlock (deletePaths : bool) (held : list bytes) : WM W () :=
  modify (on_lockedPaths (λ l, foldr set_erase l held));;
  do_call (UnlockFiles deletePaths held).

(** * Lifetime *)

(** [try { m } catch (...) { ignoreException(); }] *)
Definition ignoring (m : WM W ()) : WM W () := catch is_exception m (λ _, mret ()).

(** [DerivationGoal::killChild] on an object; returns it without its processes. *)
Definition killChild (d : DerivationGoal) : WM W DerivationGoal :=
  match dg_pid d with
  | Some pid => childTerminated pid true;; do_call (KillPid pid)
  | None => mret ()
  end;;
  match dg_hook d with
  | Some hook =>
      when (ag_running hook) (childTerminated (ag_pid hook) true);;
      do_call (StopAgent hook)
  | None => mret ()
  end;;
  mret (dgoal_pid (λ _, None) (dgoal_hook (λ _, None) d)).

(** The destructors of the two classes, and of the members that matter. *)
Definition destructor (p : GoalPtr) (g : Goal) : WM W () :=
  match g_self g with
  | SelfDerivation d =>
      ignoring (killChild d;; mret ());;
      ignoring (do_call (DeleteTmpDir (gp_path p) false));;
      ignoring (do_call (CloseLogFile (gp_path p)));;
      ignoring (unlock false (dg_locks d))
  | SelfSubstitution s =>
      match sg_substituter s with
      | Some agent => childTerminated (ag_pid agent) true;; ignoring (do_call (StopAgent agent))
      | None => mret ()
      end;;
      ignoring (unlock false (sg_locks s))
  end.

(** A strong pointer to [p] is left. *)
Definition referenced (w : Worker W) (p : GoalPtr) : bool :=
  bool_decide (p ∈ w_topGoals w) || bool_decide (p ∈ w_held w) ||
  existsb (λ '(_, g), bool_decide (p ∈ g_waitees g)) (map_to_list (w_heap w)).

Definition garbage (w : Worker W) : list GoalPtr :=
  filter (λ p, referenced w p = false) (map_to_list (w_heap w)).*1.

Fixpoint reclaim_loop (fuel : nat) : WM W () := λ w,
  match garbage w with
  | [] => (Ret (), w)
  | p :: _ =>
      match fuel, w_heap w !! p with
      | S fuel, Some g => (modify (on_heap (delete p));; destructor p g;; reclaim_loop fuel) w
      | _, _ => (OutOfFuel, w)
      end
  end.

(** Each turn removes an object from the heap. *)
Definition reclaim : WM W () := λ w, reclaim_loop (size (w_heap w)) w.

(** [m] with local variables that point to [ps]. An exception goes on to the
    caller of [Worker::run], which destroys the worker and with it every goal. *)
Definition holding {A} (ps : list GoalPtr) (m : WM W A) : WM W A := λ w,
  let old := w_held w in
  match m (on_held (app ps) w) with
  | (Ret a, w) => (reclaim;; mret a) (on_held (λ _, old) w)
  | (r, w) => (r, on_held (λ _, old) w)
  end.

(** * Waiting for other goals *)

Definition addWaitee (this waitee : GoalPtr) : WM W () :=
  g ← get_goal this;
  waitees ← lift (goals_insert waitee (g_waitees g));
  upd_goal this (goal_waitees (λ _, waitees));;
  upd_goal waitee (goal_waiters (addToWeakGoals this)).

Definition waitee_counts (result : ExitCode) (g : Goal) : Goal :=
  let g := match result with
           | ecFailed | ecNoSubstituters | ecIncompleteClosure => goal_nrFailed S g
           | _ => g
           end in
  let g := match result with ecNoSubstituters => goal_nrNoSubstituters S g | _ => g end in
  match result with ecIncompleteClosure => goal_nrIncompleteClosure S g | _ => g end.

Definition waiteeDone (this waitee : GoalPtr) (result : ExitCode) : WM W () :=
  g ← get_goal this;
  found ← lift (goals_find waitee (g_waitees g));
  lift (check found (AssertionFailed "waitees.find(waitee) != waitees.end()"));;
  waitees ← lift (goals_erase waitee (g_waitees g));
  upd_goal this (λ g, waitee_counts result (goal_waitees (λ _, waitees) g));;
  when (bool_decide (waitees = []) || (bool_decide (result = ecFailed) && negb set_keepGoing))
    (iter (λ i, upd_goal i (goal_waiters (filter (.≠ this)))) waitees;;
     upd_goal this (goal_waitees (λ _, []));;
     reclaim;;
     wakeUp this).

(** The static function [removeGoal]: drops the entries whose pointer locks to [p]. *)
Definition removeGoal_from (p : GoalPtr) (goalMap : gmap bytes GoalPtr) : gmap bytes GoalPtr :=
  filter (λ '(_, q), q ≠ p) goalMap.

Definition removeGoal (p : GoalPtr) : WM W () :=
  modify (on_derivationGoals (removeGoal_from p));;
  modify (on_substitutionGoals (removeGoal_from p));;
  top ← gets (λ w, Ret (w_topGoals w));
  found ← lift (goals_find p top);
  (if found : bool then
     top ← lift (goals_erase p top);
     g ← get_goal p;
     modify (on_topGoals (λ _,
       if bool_decide (g_exitCode g = ecFailed) && negb set_keepGoing then [] else top));;
     reclaim
   else mret ());;
  modify wake_waitingForAnyGoal.

Definition amDone (this : GoalPtr) (result : ExitCode) : WM W () :=
  g ← get_goal this;
  lift (check (bool_decide (g_exitCode g = ecBusy)) (AssertionFailed "exitCode == ecBusy"));;
  lift (check (bool_decide (result ≠ ecBusy)) (AssertionFailed "result == ecSuccess || ..."));;
  upd_goal this (goal_exitCode (λ _, result));;
  iter (λ i, locks ← gets (λ w, Ret (alive w i));
             when locks (holding [i] (waiteeDone i this result))) (g_waiters g);;
  upd_goal this (goal_waiters (λ _, []));;
  removeGoal this.

(** * Making goals *)

Definition dummy_info : SubstitutablePathInfo := mkSubstitutablePathInfo [] [] 0 0.
Definition no_drv : Derivation := mkDerivation [] [] [] [] [] [] [].

Definition newGoal (self : GoalSelf) : Goal := mkGoal [] [] 0 0 0 ecBusy self.

Definition newDerivationGoal (wantedOutputs : strset) (buildMode : BuildMode) : DerivationGoal :=
  mkDerivationGoal wantedOutputs false false no_drv [] [] [] [] [] None 0 0 None false dsInit buildMode 1 0
    MiscFailure.
Definition newSubstitutionGoal (repair : bool) : SubstitutionGoal :=
  mkSubstitutionGoal dummy_info [] repair [] ssInit None [].

Definition addWantedOutputs (outputs : strset) (d : DerivationGoal) : DerivationGoal :=
  if decide (dg_wantedOutputs d = []) then d
  else if decide (outputs = []) then dgoal_needRestart (λ _, true) (dgoal_wantedOutputs (λ _, []) d)
  else foldl (λ d i, if set_mem i (dg_wantedOutputs d) then d
                     else dgoal_needRestart (λ _, true) (dgoal_wantedOutputs (set_insert i) d)) d outputs.

(** [m[path].lock()] *)
Definition lock_entry (m : Worker W → gmap bytes GoalPtr) (path : bytes) : WM W (option GoalPtr) :=
  gets (λ w, Ret (match m w !! path with
                  | Some p => if alive w p then Some p else None
                  | None => None
                  end)).

(** A new object. *)
Definition allocate (cls : GoalClass) (path : bytes) (self : GoalSelf) : WM W GoalPtr :=
  n ← gets (λ w, Ret (w_serial w));
  let p := mkGoalPtr n cls path in
  modify (on_serial S);;
  modify (on_heap (<[p := newGoal self]>));;
  mret p.

Definition makeDerivationGoal (path : bytes) (wantedOutputs : strset) (buildMode : BuildMode) : WM W GoalPtr :=
  goal ← lock_entry w_derivationGoals path;
  match goal with
  | Some p => upd_derivation p (addWantedOutputs wantedOutputs);; mret p
  | None =>
      do_call (AddTempRoot path);;
      p ← allocate ClassDerivationGoal path (SelfDerivation (newDerivationGoal wantedOutputs buildMode));
      modify (on_derivationGoals (<[path := p]>));;
      wakeUp p;;
      mret p
  end.

Definition makeSubstitutionGoal (path : bytes) (repair : bool) : WM W GoalPtr :=
  goal ← lock_entry w_substitutionGoals path;
  match goal with
  | Some p => mret p
  | None =>
      p ← allocate ClassSubstitutionGoal path (SelfSubstitution (newSubstitutionGoal repair));
      modify (on_substitutionGoals (<[path := p]>));;
      wakeUp p;;
      mret p
  end.
End goals.
