(* ===== verification/BuildGoals.v ===== *)
(** libstore/build.cc: the states of derivation goals and substitution goals.

    A state function is given [go], the state functions it calls directly; [work]
    ties the knot. Log and trace output is left out. *)

From S2P Require Import Prelude StateMonad Containers Hash Paths StorePaths Derivations LocalDB GoalState Goals.

(** * Derivations *)

(** [get(map, key, def)] *)
Definition env_get (map : StringPairs) (key def : bytes) : bytes := default def (map_find key map).

Section platform.
Context {settings : Settings}.

Definition canBuildLocally (platform : bytes) : bool :=
  bool_decide (platform = set_thisSystem) ||
  (bool_decide (platform = str "i686-linux") && bool_decide (set_thisSystem = str "x86_64-linux")) ||
  (bool_decide (platform = str "armhf-linux") && bool_decide (set_thisSystem = str "aarch64-linux")).

Definition willBuildLocally (drv : Derivation) : bool :=
  bool_decide (env_get (env drv) (str "preferLocalBuild") [] = str "1") && canBuildLocally (platform drv).

Definition substitutesAllowed (drv : Derivation) : bool :=
  bool_decide (env_get (env drv) (str "allowSubstitutes") (str "1") = str "1").
End platform.

Inductive HookReply := rpAccept | rpDecline | rpPostpone.

(** [WIFEXITED], [WEXITSTATUS] and [statusOk]. *)
Definition exited (status : Z) : bool := bool_decide (Z.land status 127 = 0)%Z.
Definition exit_status (status : Z) : Z := Z.land (Z.shiftr status 8) 255.
Definition statusOk (status : Z) : bool := exited status && bool_decide (exit_status status = 0)%Z.

Section build_goals.
Context {W : Type} {gc : Gcrypt} {settings : Settings} {handler : Handler W}.

(** The processes that have not been waited for. *)
Definition live_pids (w : Worker W) : list Z :=
  (map_to_list (w_children w)).*1 ++
  match w_hook w with Some a => [ag_pid a] | None => [] end ++
  match w_substituter w with Some a => [ag_pid a] | None => [] end.

(** [foreach (i, l) if (test(i)) return;] *)
Fixpoint any {A} (test : A → WM W bool) (l : list A) : WM W bool :=
  match l with
  | [] => mret false
  | x :: l => b ← test x; if b : bool then mret true else any test l
  end.

Definition is_valid_path (path : bytes) : WM W bool := do_call (IsValidPath path).

(** * Derivation goals *)

Section derivation_goal.
Context (this : GoalPtr).
Let drvPath := gp_path this.

(** [DerivationGoal::done] *)
Definition done_with (status : BuildStatus) : WM W () :=
  upd_derivation this (dgoal_result (λ _, status));;
  amDone this (if build_success status then ecSuccess else ecFailed);;
  when (bool_decide (status = TimedOut)) (modify (on_timedOut (λ _, true)));;
  when (bool_decide (status = PermanentFailure) || bool_decide (status = CachedFailure))
    (modify (on_permanentFailure (λ _, true))).

Definition derivation_timedOut : WM W () :=
  d ← get_derivation this;
  d ← killChild d;
  upd_derivation this (λ _, d);;
  done_with TimedOut.

Definition checkPathValidity (returnValid checkHash : bool) : WM W strset :=
  d ← get_derivation this;
  iterM (λ result i,
    if negb (wantOutput i.1 (dg_wantedOutputs d)) then mret result
    else
      valid ← is_valid_path (do_path i.2);
      good ← (if valid && checkHash then do_call (PathContentsGood (do_path i.2)) else mret valid);
      mret (if eqb good returnValid then set_insert (do_path i.2) result else result))
    (outputs (dg_drv d)) [].

Definition pathFailed (path : bytes) : WM W bool :=
  if negb set_cacheFailure then mret false
  else
    failed ← do_call (HasPathFailed path);
    if negb failed then mret false
    else done_with CachedFailure;; mret true.

Definition set_state (st : DerivationState) : WM W () := upd_derivation this (dgoal_state (λ _, st)).

(** [if (waitees.empty()) next(); else state = next;] *)
Definition wait_or_go (go : DerivationState → WM W ()) (next : DerivationState) : WM W () :=
  g ← get_goal this;
  if decide (g_waitees g = []) then go next else set_state next.

Definition is_repair (m : BuildMode) : bool := bool_decide (m = bmRepair).

Definition derivation_init (go : DerivationState → WM W ()) : WM W () :=
  if set_readOnlyMode then lift (Throw (Error "cannot build derivation - no write access to the store"))
  else
    d ← get_derivation this;
    valid ← (if decide (dg_buildMode d = bmNormal) then is_valid_path drvPath else mret false);
    if valid : bool then go dsHaveDerivation
    else
      waitee ← makeSubstitutionGoal drvPath false;
      addWaitee this waitee;;
      set_state dsHaveDerivation.

Definition haveDerivation (go : DerivationState → WM W ()) : WM W () :=
  g ← get_goal this;
  if decide (g_nrFailed g ≠ 0) then done_with MiscFailure
  else
    do_call (AddTempRoot drvPath);;
    valid ← is_valid_path drvPath;
    lift (check valid (AssertionFailed "worker.store.isValidPath(drvPath)"));;
    drv ← do_call (DerivationFromPath drvPath);
    upd_derivation this (dgoal_drv (λ _, drv));;
    iter (λ i, do_call (AddTempRoot (do_path i.2))) (outputs drv);;
    d ← get_derivation this;
    invalidOutputs ← checkPathValidity false (is_repair (dg_buildMode d));
    if bool_decide (invalidOutputs = []) && bool_decide (dg_buildMode d = bmNormal) then done_with AlreadyValid
    else
      failed ← any pathFailed invalidOutputs;
      if failed : bool then mret ()
      else
        when (set_useSubstitutes && substitutesAllowed drv)
          (iter (λ i, waitee ← makeSubstitutionGoal i (is_repair (dg_buildMode d)); addWaitee this waitee)
             invalidOutputs);;
        wait_or_go go dsOutputsSubstituted.

Definition reset_counts (g : Goal) : Goal :=
  goal_nrFailed (λ _, 0) (goal_nrNoSubstituters (λ _, 0) (goal_nrIncompleteClosure (λ _, 0) g)).

Definition repairClosure : WM W () :=
  d ← get_derivation this;
  outputClosure ← iterM (λ paths i,
    if negb (wantOutput i.1 (dg_wantedOutputs d)) then mret paths
    else do_call (ComputeFSClosure (do_path i.2) paths)) (outputs (dg_drv d)) [];
  let outputClosure := foldl (λ s i, set_erase (do_path i.2) s) outputClosure (outputs (dg_drv d)) in
  inputClosure ← do_call (ComputeFSClosure drvPath []);
  outputsToDrv ← iterM (λ m i,
    if isDerivation i then
      drv ← do_call (DerivationFromPath i);
      mret (foldl (λ m j, map_insert (do_path j.2) i m) m (outputs drv))
    else mret m) inputClosure [];
  iter (λ i,
    good ← do_call (PathContentsGood i);
    when (negb good)
      (let drvPath2 := default [] (map_find i outputsToDrv) in
       waitee ← (if decide (drvPath2 = []) then makeSubstitutionGoal i true
                 else makeDerivationGoal drvPath2 [] bmRepair);
       addWaitee this waitee)) outputClosure;;
  g ← get_goal this;
  if decide (g_waitees g = []) then done_with AlreadyValid else set_state dsClosureRepaired.

Definition outputsSubstituted (go : DerivationState → WM W ()) : WM W () :=
  g ← get_goal this;
  lift (check (negb (bool_decide (0 < g_nrFailed g)
                     && bool_decide (g_nrNoSubstituters g + g_nrIncompleteClosure g < g_nrFailed g)
                     && negb set_tryFallback))
          (Error "some substitutes for the outputs of derivation failed"));;
  when (bool_decide (0 < g_nrIncompleteClosure g)) (upd_derivation this (dgoal_retrySubstitution (λ _, true)));;
  upd_goal this reset_counts;;
  d ← get_derivation this;
  if dg_needRestart d then
    upd_derivation this (dgoal_needRestart (λ _, false));;
    go dsHaveDerivation
  else
    invalid ← checkPathValidity false (is_repair (dg_buildMode d));
    let nrInvalid := length invalid in
    if bool_decide (dg_buildMode d = bmNormal) && bool_decide (nrInvalid = 0) then done_with Substituted
    else if bool_decide (dg_buildMode d = bmRepair) && bool_decide (nrInvalid = 0) then repairClosure
    else if bool_decide (dg_buildMode d = bmCheck) && bool_decide (0 < nrInvalid) then
      lift (Throw (Error "missing outputs; build it normally before using `--check'"))
    else
      upd_derivation this (dgoal_wantedOutputs (λ _, []));;
      iter (λ i, waitee ← makeDerivationGoal i.1 i.2 (if is_repair (dg_buildMode d) then bmRepair else bmNormal);
                 addWaitee this waitee) (inputDrvs (dg_drv d));;
      iter (λ i, waitee ← makeSubstitutionGoal i false; addWaitee this waitee) (inputSrcs (dg_drv d));;
      wait_or_go go dsInputsRealised.

Definition closureRepaired : WM W () :=
  g ← get_goal this;
  lift (check (bool_decide (g_nrFailed g = 0))
          (Error "some paths in the output closure of derivation could not be repaired"));;
  done_with AlreadyValid.

Definition inputsRealised (go : DerivationState → WM W ()) : WM W () :=
  g ← get_goal this;
  if decide (g_nrFailed g ≠ 0) then done_with DependencyFailed
  else
    d ← get_derivation this;
    if dg_retrySubstitution d then go dsHaveDerivation
    else
      let drv := dg_drv d in
      inputPaths ← iterM (λ paths i,
        valid ← is_valid_path i.1;
        lift (check valid (AssertionFailed "worker.store.isValidPath(i->first)"));;
        inDrv ← do_call (DerivationFromPath i.1);
        iterM (λ paths j,
          match map_find j (outputs inDrv) with
          | Some out => do_call (ComputeFSClosure (do_path out) paths)
          | None => lift (Throw (Error "derivation requires non-existent output from input derivation"))
          end) i.2 paths) (inputDrvs drv) (dg_inputPaths d);
      inputPaths ← iterM (λ paths i, do_call (ComputeFSClosure i paths)) (inputSrcs drv) inputPaths;
      let allPaths := set_insert_all inputPaths
                        (foldl (λ s i, set_insert (do_path i.2) s) (dg_allPaths d) (outputs drv)) in
      let fixedOutput := forallb (λ i, negb (bool_decide (do_hash i.2 = []))) (outputs drv) in
      upd_derivation this (λ d,
        dgoal_inputPaths (λ _, inputPaths) (dgoal_allPaths (λ _, allPaths)
          (dgoal_fixedOutput (λ _, fixedOutput)
            (dgoal_nrRounds (λ _, if fixedOutput then 1 else set_buildRepeat + 1)
              (dgoal_state (λ _, dsTryToBuild) d)))));;
      wakeUp this.

(** The reply of the build hook: the first line that starts with "# ". *)
Fixpoint hook_reply (fuel : nat) (hook : Agent) : WM W bytes :=
  match fuel with
  | 0 => lift OutOfFuel
  | S fuel =>
      s ← do_call (ReadLine hook);
      if decide (take 2 s = str "# ") then mret (drop 2 s) else hook_reply fuel hook
  end.

Definition hook_request (nrLocalBuilds : Z) (drv : Derivation) (features : list bytes) : bytes :=
  (if decide (nrLocalBuilds < set_maxBuildJobs)%Z then str "1" else str "0") ++ str " " ++
  platform drv ++ str " " ++ drvPath ++ str " " ++ concatStringsSep (str ",") features.

Definition path_line (paths : strset) : bytes := mjoin ((λ i, i ++ str " ") <$> paths).

Definition tryBuildHook (fuel : nat) : WM W HookReply :=
  if negb set_useBuildHook then mret rpDecline
  else
    w ← gets (λ w, Ret w);
    hook ← match w_hook w with
           | Some hook => mret hook
           | None =>
               hook ← do_call (StartAgent (str "offload") (live_pids w));
               modify (on_hook (λ _, Some hook));;
               mret hook
           end;
    d ← get_derivation this;
    features ← lift (tokenizeString (env_get (env (dg_drv d)) (str "requiredSystemFeatures") [])
                       (str " " ++ [Byte.x09; Byte.x0a; Byte.x0d]));
    iter (λ i, lift (checkStoreName i)) features;;
    do_call (WriteLine hook (hook_request (w_nrLocalBuilds w) (dg_drv d) features));;
    reply ← hook_reply fuel hook;
    if decide (reply = str "decline") then mret rpDecline
    else if decide (reply = str "postpone") then mret rpPostpone
    else if decide (reply ≠ str "accept") then lift (Throw (Error "bad hook reply"))
    else
      upd_derivation this (dgoal_hook (λ _, Some hook));;
      modify (on_hook (λ _, None));;
      allInputs ← do_call (ComputeFSClosure drvPath (dg_inputPaths d));
      do_call (WriteLine hook (path_line allInputs));;
      do_call (WriteLine hook (path_line (dg_missingPaths d)));;
      upd_derivation this (dgoal_logSize (λ _, 0%Z));;
      do_call (OpenLogFile drvPath);;
      childStarted this (ag_pid hook) [ag_fromAgent hook; ag_builderOut hook] false true;;
      mret rpAccept.

(** [startBuilder]: the preparation of the build, the fork, and the handshake. *)
Definition startBuilder : WM W () :=
  d ← get_derivation this;
  do_call (PrepareBuild drvPath (dg_validPaths d) (dg_missingPaths d) (dg_buildMode d));;
  upd_derivation this (dgoal_logSize (λ _, 0%Z));;
  do_call (OpenLogFile drvPath);;
  w ← gets (λ w, Ret w);
  '(pid, fd) ← do_call (ForkBuilder drvPath (live_pids w));
  upd_derivation this (λ d, dgoal_pid (λ _, Some pid) (dgoal_builderOut (λ _, fd) d));;
  do_call (SetupNamespace pid);;
  childStarted this pid [fd] true true;;
  msg ← do_call (BuilderReady fd);
  lift (check (bool_decide (msg = [])) (Error "setting up the build environment")).

(** [outputLocks.setDeletion(deletion); outputLocks.unlock();] *)
Definition unlock_outputs (deletion : bool) : WM W () :=
  d ← get_derivation this;
  unlock deletion (dg_locks d);;
  upd_derivation this (dgoal_locks (λ _, [])).

Definition is_build_error (e : exn) : bool := match e with BuildError _ => true | _ => false end.

(** From the build slot on. *)
Definition tryToBuild_locally (buildLocally : bool) : WM W () :=
  curBuilds ← gets (λ w, Ret (w_nrLocalBuilds w));
  if bool_decide (set_maxBuildJobs <= curBuilds)%Z && negb (buildLocally && bool_decide (curBuilds = 0)%Z) then
    waitForBuildSlot this;;
    unlock_outputs false
  else
    started ← catch is_build_error (startBuilder;; mret true) (λ _, mret false);
    if started : bool then set_state dsBuildDone
    else
      unlock_outputs false;;
      do_call (ReleaseBuildUser drvPath);;
      modify (on_permanentFailure (λ _, true));;
      done_with InputRejected.

Definition tryToBuild (fuel : nat) : WM W () :=
  d ← get_derivation this;
  let drv := dg_drv d in
  mine ← any (λ i, pathLockedByMe (do_path i.2)) (outputs drv);
  if mine : bool then waitForAnyGoal this
  else
    locked ← lockPaths (dg_locks d) (outputPaths drv);
    if negb locked then waitForAWhile this
    else
      upd_derivation this (dgoal_locks (λ _, outputPaths drv));;
      validPaths ← checkPathValidity true (is_repair (dg_buildMode d));
      upd_derivation this (dgoal_validPaths (λ _, validPaths));;
      if bool_decide (dg_buildMode d ≠ bmCheck) && bool_decide (length validPaths = length (outputs drv)) then
        unlock_outputs true;;
        done_with AlreadyValid
      else
        let missingPaths := if decide (dg_buildMode d = bmCheck) then outputPaths drv
                            else foldl (λ s i, set_erase i s) (outputPaths drv) validPaths in
        upd_derivation this (dgoal_missingPaths (λ _, missingPaths));;
        iter (λ i,
          valid ← is_valid_path (do_path i.2);
          when (negb valid)
            (e ← do_call (PathExists (do_path i.2));
             when e (do_call (DeletePath (do_path i.2))))) (outputs drv);;
        failed ← any (λ i, pathFailed (do_path i.2)) (outputs drv);
        if failed : bool then mret ()
        else
          let buildLocally := bool_decide (dg_buildMode d ≠ bmNormal) || willBuildLocally drv in
          reply ← (if buildLocally then mret rpDecline else tryBuildHook fuel);
          match reply with
          | rpAccept => set_state dsBuildDone
          | rpPostpone => waitForAWhile this;; unlock_outputs false
          | rpDecline => tryToBuild_locally buildLocally
          end.

(** The body of the [try] of [buildDone]; true when the build is to be repeated. *)
Definition finish_build (status : Z) : WM W bool :=
  d ← get_derivation this;
  let drv := dg_drv d in
  when (dg_fixedOutput d) (do_call (CopyFixedOutputs drvPath drv));;
  do_call (RegisterOutputs drvPath drv (bool_decide (is_Some (dg_hook d))) (dg_missingPaths d) (dg_allPaths d)
             (dg_buildMode d) (dg_curRound d) (dg_nrRounds d));;
  do_call (DiscardBuildDirs drvPath);;
  do_call (DeleteTmpDir drvPath true);;
  upd_derivation this (dgoal_curRound S);;
  if decide (dg_curRound d < dg_nrRounds d) then
    unlock_outputs false;;
    do_call (ReleaseBuildUser drvPath);;
    set_state dsTryToBuild;;
    wakeUp this;;
    mret true
  else
    unlock_outputs true;;
    mret false.

(** The handler of [BuildError] in [buildDone]. *)
Definition build_failed (withHook : bool) (status : Z) (diskFull : bool) : WM W () :=
  unlock_outputs false;;
  do_call (ReleaseBuildUser drvPath);;
  d ← get_derivation this;
  if withHook && exited status && bool_decide (exit_status status = 101)%Z then done_with TimedOut
  else if withHook && (negb (exited status) || bool_decide (exit_status status ≠ 100)%Z) then done_with MiscFailure
  else
    let st := if statusOk status then OutputRejected
              else if dg_fixedOutput d || diskFull then TransientFailure
              else PermanentFailure in
    when (set_cacheFailure && negb (dg_fixedOutput d) && negb diskFull)
      (iter (λ i, do_call (RegisterFailedPath (do_path i.2))) (outputs (dg_drv d)));;
    done_with st.

Definition buildDone : WM W () :=
  d ← get_derivation this;
  savedPid ← match dg_hook d, dg_pid d with
             | Some hook, _ =>
                 lift (check (ag_running hook) (AssertionFailed "Pid::wait: pid != -1"));;
                 upd_derivation this (dgoal_hook (λ _,
                   Some (mkAgent (ag_pid hook) false (ag_fromAgent hook) (ag_builderOut hook))));;
                 mret (ag_pid hook)
             | None, Some pid => upd_derivation this (dgoal_pid (λ _, None));; mret pid
             | None, None => lift (Throw (AssertionFailed "Pid::wait: pid != -1"))
             end;
  status ← do_call (WaitPid savedPid);
  childTerminated savedPid true;;
  do_call (CloseLogFile drvPath);;
  do_call (KillBuildUser drvPath);;
  let withHook := bool_decide (is_Some (dg_hook d)) in
  if statusOk status then
    r ← catch is_build_error (repeat ← finish_build status; mret (Some repeat)) (λ _, mret None);
    match r with
    | Some true => mret ()
    | Some false => do_call (ReleaseBuildUser drvPath);; done_with Built
    | None => build_failed withHook status false
    end
  else
    diskFull ← do_call (DiskFull drvPath);
    do_call (DeleteTmpDir drvPath false);;
    do_call (SalvageOutputs drvPath (dg_missingPaths d) (dg_buildMode d));;
    build_failed withHook status diskFull.

Fixpoint derivation_run (fuel : nat) (st : DerivationState) : WM W () :=
  match fuel with
  | 0 => lift OutOfFuel
  | S fuel =>
      match st with
      | dsInit => derivation_init (derivation_run fuel)
      | dsHaveDerivation => haveDerivation (derivation_run fuel)
      | dsOutputsSubstituted => outputsSubstituted (derivation_run fuel)
      | dsClosureRepaired => closureRepaired
      | dsInputsRealised => inputsRealised (derivation_run fuel)
      | dsTryToBuild => tryToBuild fuel
      | dsBuildDone => buildDone
      end
  end.

(** Output on the log of the builder counts; on other descriptors it is passed on. *)
Definition derivation_handleChildOutput (fd : Z) (data : bytes) : WM W () :=
  d ← get_derivation this;
  let logFd := match dg_hook d with Some hook => ag_builderOut hook | None => dg_builderOut d end in
  if decide (fd = logFd) then
    let logSize := (dg_logSize d + Z.of_nat (length data))%Z in
    upd_derivation this (dgoal_logSize (λ _, logSize));;
    if bool_decide (set_maxLogSize ≠ 0)%Z && bool_decide (set_maxLogSize < logSize)%Z then derivation_timedOut
    else do_call (WriteLog drvPath data)
  else mret ().
End derivation_goal.

(** * Substitution goals *)

Definition isdigit_ (c : byte) : bool := bool_decide (48 <= uchar c <= 57)%Z.

(** [string2Int<unsigned long long>]: digits with an optional sign; a negative
    number is reduced modulo 2^64. *)
Definition string2Int_u64 (s : bytes) : option Z :=
  let '(neg, digits) := match s with
                        | c :: r => if decide (c = "-"%byte) then (true, r)
                                    else if decide (c = "+"%byte) then (false, r) else (false, s)
                        | [] => (false, [])
                        end in
  let v := foldl (λ n c, 10 * n + (uchar c - 48))%Z 0%Z digits in
  if bool_decide (digits ≠ []) && forallb isdigit_ digits && bool_decide (v < 2 ^ 64)%Z
  then Some (if neg : bool then ((- v) mod 2 ^ 64)%Z else v) else None.

Section substitution_goal.
Context (this : GoalPtr).
Let storePath := gp_path this.

Definition set_sstate (st : SubstitutionState) : WM W () := upd_substitution this (sgoal_state (λ _, st)).

Definition substitution_timedOut : WM W () :=
  s ← get_substitution this;
  match sg_substituter s with
  | Some agent =>
      upd_substitution this (sgoal_substituter (λ _, None));;
      do_call (StopAgent agent);;
      childTerminated (ag_pid agent) true
  | None => mret ()
  end;;
  amDone this ecFailed.

Definition referencesValid : WM W () :=
  g ← get_goal this;
  if decide (0 < g_nrFailed g) then
    amDone this (if bool_decide (0 < g_nrNoSubstituters g) || bool_decide (0 < g_nrIncompleteClosure g)
                 then ecIncompleteClosure else ecFailed)
  else
    s ← get_substitution this;
    iter (λ i, when (bool_decide (i ≠ storePath))
      (valid ← is_valid_path i;
       lift (check valid (AssertionFailed "worker.store.isValidPath(*i)")))) (si_references (sg_info s));;
    set_sstate ssTryToRun;;
    wakeUp this.

Definition tryNext : WM W () :=
  k ← do_call (QuerySubstitutablePathInfo storePath);
  match k with
  | None => amDone this ecNoSubstituters
  | Some info =>
      upd_substitution this (sgoal_info (λ _, info));;
      iter (λ i, when (bool_decide (i ≠ storePath))
        (waitee ← makeSubstitutionGoal i false; addWaitee this waitee)) (si_references info);;
      g ← get_goal this;
      if decide (g_waitees g = []) then referencesValid else set_sstate ssReferencesValid
  end.

Definition substitution_init : WM W () :=
  do_call (AddTempRoot storePath);;
  s ← get_substitution this;
  valid ← (if sg_repair s then mret false else is_valid_path storePath);
  if valid : bool then amDone this ecSuccess
  else if set_readOnlyMode then lift (Throw (Error "cannot substitute path - no write access to the store"))
  else tryNext.

(** [outputLock->setDeletion(deletion); outputLock.reset();] *)
Definition unlock_output (deletion : bool) : WM W () :=
  s ← get_substitution this;
  unlock deletion (sg_locks s);;
  upd_substitution this (sgoal_locks (λ _, [])).

(** From the lock on: the substituter is borrowed and asked. *)
Definition run_substituter (s : SubstitutionGoal) : WM W () :=
  let destPath := if sg_repair s then storePath ++ str ".tmp" else storePath in
  upd_substitution this (sgoal_destPath (λ _, destPath));;
  e ← do_call (PathExists destPath);
  when e (do_call (DeletePath destPath));;
  w ← gets (λ w, Ret w);
  agent ← match w_substituter w with
          | Some agent => mret agent
          | None => do_call (StartAgent (str "substitute") (live_pids w))
          end;
  modify (on_substituter (λ _, None));;
  upd_substitution this (sgoal_substituter (λ _, Some agent));;
  do_call (WriteLine agent (str "substitute " ++ storePath ++ str " " ++ destPath));;
  childStarted this (ag_pid agent) [ag_fromAgent agent; ag_builderOut agent] true true;;
  set_sstate ssFinished.

Definition tryToRun : WM W () :=
  n ← gets (λ w, Ret (w_nrLocalBuilds w));
  if decide ((if decide (set_maxBuildJobs = 0) then 1 else set_maxBuildJobs) <= n)%Z then waitForBuildSlot this
  else
    unlock_output false;;
    mine ← pathLockedByMe storePath;
    if mine : bool then waitForAnyGoal this
    else
      locked ← lockPaths [] [storePath];
      if negb locked then waitForAWhile this
      else
        upd_substitution this (sgoal_locks (λ _, [storePath]));;
        s ← get_substitution this;
        valid ← (if sg_repair s then mret false else is_valid_path storePath);
        if valid : bool then unlock_output true;; amDone this ecSuccess
        else run_substituter s.

(** [statusList[i]] *)
Definition status_at (l : list bytes) (i : nat) : outcome bytes :=
  match l !! i with Some s => Ret s | None => Throw (Undefined "statusList: index out of range") end.

(** The [try] block of [finished]; none when it throws a [SubstError]. *)
Definition check_status (s : SubstitutionGoal) : WM W (option (Hash * Z)) :=
  statusList ← lift (tokenizeString (sg_status s) (str " " ++ [Byte.x09; Byte.x0a; Byte.x0d]));
  match statusList with
  | [] => mret None
  | verdict :: _ =>
      if decide (verdict = str "hash-mismatch") then
        when set_printBuildTrace
          (lift (status_at statusList 1);; lift (status_at statusList 2);; lift (status_at statusList 3);; mret ());;
        mret None
      else if decide (verdict = str "success") then
        e ← do_call (PathExists (sg_destPath s));
        if negb e then mret None
        else
          hashStr ← lift (status_at statusList 1);
          n ← lift (match find_char ":"%byte hashStr with
                    | Some n => Ret n
                    | None => Throw (Error "bad hash from substituter")
                    end);
          let hashType := parseHashType (take n hashStr) in
          match hashType with
          | htUnknown => lift (Throw (Error "unknown hash algorithm"))
          | htSHA256 =>
              h ← lift (parseHash16or32 hashType (drop (n + 1) hashStr));
              size ← lift (status_at statusList 2);
              match string2Int_u64 size with
              | Some size => mret (Some (h, size))
              | None => lift (Throw (Error "invalid nar size for substitute"))
              end
          | _ => r ← do_call (HashPath htSHA256 (sg_destPath s)); mret (Some r)
          end
      else mret None
  end.

Definition substitution_finished : WM W () :=
  s ← get_substitution this;
  agent ← lift (match sg_substituter s with
                | Some agent => Ret agent
                | None => Throw (Undefined "substituter->pid")
                end);
  childTerminated (ag_pid agent) true;;
  upd_substitution this (sgoal_substituter (λ _, None));;
  w ← gets (λ w, Ret w);
  match w_substituter w with
  | Some _ => do_call (StopAgent agent)
  | None => modify (on_substituter (λ _, Some agent))
  end;;
  hash ← check_status s;
  match hash with
  | None => amDone this ecFailed
  | Some hash =>
      when (sg_repair s) (do_call (ReplaceValidPath storePath (sg_destPath s)));;
      do_call (RegisterValidPath (mkValidPathInfo storePath (si_deriver (sg_info s)) hash.1
        (si_references (sg_info s)) 0 hash.2 0));;
      unlock_output true;;
      do_call (MarkContentsGood storePath);;
      amDone this ecSuccess
  end.

Definition substitution_run (st : SubstitutionState) : WM W () :=
  match st with
  | ssInit => substitution_init
  | ssReferencesValid => referencesValid
  | ssTryToRun => tryToRun
  | ssFinished => substitution_finished
  end.

(** The loop over the lines of [data]. *)
Fixpoint status_lines (fuel : nat) (input : bytes) : WM W () :=
  match fuel with
  | 0 => lift OutOfFuel
  | S fuel =>
      if decide (input = []) then mret ()
      else
        let nl := find_char Byte.x0a input in
        let trimmed := match nl with Some n => take n input | None => input end in
        s ← get_substitution this;
        when (bool_decide (sg_status s = []))
          (upd_substitution this (sgoal_status (λ _, trimmed));;
           wakeUp this);;
        status_lines fuel (match nl with Some n => drop (n + 1) input | None => [] end)
  end.

Definition substitution_handleChildOutput (fd : Z) (data : bytes) : WM W () :=
  s ← get_substitution this;
  agent ← lift (match sg_substituter s with
                | Some agent => Ret agent
                | None => Throw (Undefined "substituter->builderOut")
                end);
  when (bool_decide (fd = ag_builderOut agent)) (status_lines (S (length data)) data).
End substitution_goal.

(** * The virtual functions *)

Definition work (fuel : nat) (p : GoalPtr) : WM W () :=
  g ← get_goal p;
  match g_self g with
  | SelfDerivation d => derivation_run p fuel (dg_state d)
  | SelfSubstitution s => substitution_run p (sg_state s)
  end.

Definition goal_timedOut (p : GoalPtr) : WM W () :=
  match gp_class p with
  | ClassDerivationGoal => derivation_timedOut p
  | ClassSubstitutionGoal => substitution_timedOut p
  end.

Definition handleChildOutput (p : GoalPtr) (fd : Z) (data : bytes) : WM W () :=
  match gp_class p with
  | ClassDerivationGoal => derivation_handleChildOutput p fd data
  | ClassSubstitutionGoal => substitution_handleChildOutput p fd data
  end.

Definition handleEOF (p : GoalPtr) (fd : Z) : WM W () := wakeUp p.
End build_goals.
