(* ===== verification/BuildWorker.v ===== *)
(** libstore/build.cc: the loop of the worker, and the operations of the local
    store that run it. *)

From S2P Require Import Prelude StateMonad Containers Hash Paths StorePaths Derivations LocalDB GoalState Goals BuildGoals.

Section worker.
Context {W : Type} {gc : Gcrypt} {settings : Settings} {handler : Handler W}.

(** * Waiting for input *)

(** The nearest deadline of a child; none is [LONG_MAX]. *)
Definition min_deadline (nearest : option Z) (t : Z) : option Z :=
  Some (match nearest with Some n => Z.min n t | None => t end).

Definition nearest_deadline (children : list Child) : option Z :=
  foldl (λ nearest c,
    if c_respectTimeouts c then
      let nearest := if decide (set_maxSilentTime ≠ 0)%Z
                     then min_deadline nearest (c_lastOutput c + set_maxSilentTime)%Z else nearest in
      if decide (set_buildTimeout ≠ 0)%Z
      then min_deadline nearest (c_timeStarted c + set_buildTimeout)%Z else nearest
    else nearest) None children.

(** The timeout of [select], and the new value of [lastWokenUp]. *)
Definition select_timeout (before : Z) (w : Worker W) : option Z * Z :=
  let timeout := (λ n, Z.max 1 (n - before)) <$> nearest_deadline (map_to_list (w_children w)).*2 in
  if decide (w_waitingForAWhile w = []) then (timeout, 0%Z)
  else
    let lastWokenUp := if bool_decide (w_lastWokenUp w = 0)%Z || bool_decide (before < w_lastWokenUp w)%Z
                       then before else w_lastWokenUp w in
    (Some (Z.max 1 (lastWokenUp + set_pollInterval - before)), lastWokenUp).

(** [j->second], [j] an iterator obtained before. *)
Definition get_child (pid : Z) : WM W Child :=
  gets (λ w, match w_children w !! pid with
             | Some c => Ret c
             | None => Throw (Undefined "iterator to an erased child")
             end).
Definition upd_child (pid : Z) (f : Child → Child) : WM W () :=
  c ← get_child pid;
  modify (on_children (<[pid := f c]>)).

Definition child_erase_fd (fd : Z) (c : Child) : Child :=
  mkChild (c_goal c) (filter (.≠ fd) (c_fds c)) (c_respectTimeouts c) (c_inBuildSlot c) (c_lastOutput c)
    (c_timeStarted c).
Definition child_output_at (t : Z) (c : Child) : Child :=
  mkChild (c_goal c) (c_fds c) (c_respectTimeouts c) (c_inBuildSlot c) t (c_timeStarted c).

Definition read_child (pid : Z) (p : GoalPtr) (after : Z) (fd : Z) : WM W () :=
  r ← do_call (ReadFd fd);
  match r with
  | ReadInterrupted => mret ()
  | ReadEOF =>
      handleEOF p fd;;
      upd_child pid (child_erase_fd fd)
  | ReadData data =>
      upd_child pid (child_output_at after);;
      handleChildOutput p fd data
  end.

Definition poll_child (ready : list Z) (after : Z) (pid : Z) : WM W () :=
  do_call CheckInterrupt;;
  j ← gets (λ w, Ret (w_children w !! pid));
  match j with
  | None => mret ()
  | Some c =>
      let p := c_goal c in
      locks ← gets (λ w, Ret (alive w p));
      lift (check locks (AssertionFailed "goal"));;
      holding [p]
        (iter (λ k, when (bool_decide (k ∈ ready)) (read_child pid p after k)) (c_fds c);;
         g ← get_goal p;
         when (bool_decide (g_exitCode g = ecBusy)
               && (bool_decide (set_maxSilentTime ≠ 0)%Z || bool_decide (set_buildTimeout ≠ 0)%Z))
           (c ← get_child pid;
            if bool_decide (set_maxSilentTime ≠ 0)%Z && c_respectTimeouts c
               && bool_decide (set_maxSilentTime <= after - c_lastOutput c)%Z then goal_timedOut p
            else if bool_decide (set_buildTimeout ≠ 0)%Z && c_respectTimeouts c
               && bool_decide (set_buildTimeout <= after - c_timeStarted c)%Z then goal_timedOut p
            else mret ()))
  end.

Definition waitForInput : WM W () :=
  before ← do_call Time;
  w ← gets (λ w, Ret w);
  let '(timeout, lastWokenUp) := select_timeout before w in
  modify (on_lastWokenUp (λ _, lastWokenUp));;
  selected ← do_call (SelectFds (mjoin (c_fds <$> (map_to_list (w_children w)).*2)) timeout);
  match selected with
  | None => mret ()
  | Some ready =>
      after ← do_call Time;
      iter (poll_child ready after) (merge_sort Z.le (map_to_list (w_children w)).*1);;
      w ← gets (λ w, Ret w);
      when (bool_decide (w_waitingForAWhile w ≠ [])
            && bool_decide (w_lastWokenUp w + set_pollInterval <= after)%Z)
        (modify (on_lastWokenUp (λ _, after));;
         modify wake_waitingForAWhile)
  end.

(** * The loop *)

(** [for (auto & goal : awake2) { ...; if (topGoals.empty()) break; }] *)
Fixpoint work_all (fuel : nat) (awake2 : list GoalPtr) : WM W () :=
  match awake2 with
  | [] => mret ()
  | p :: awake2 =>
      do_call CheckInterrupt;;
      work fuel p;;
      top ← gets (λ w, Ret (w_topGoals w));
      if decide (top = []) then mret () else work_all fuel awake2
  end.

Definition awake_round (fuel : nat) : WM W () :=
  w ← gets (λ w, Ret w);
  awake2 ← lift (foldM (λ s p, if alive w p then goals_insert p s else Ret s) (w_awake w) []);
  modify (on_awake (λ _, []));;
  holding awake2 (work_all fuel awake2).

Fixpoint awake_loop (fuel : nat) : WM W () :=
  match fuel with
  | 0 => lift OutOfFuel
  | S fuel =>
      w ← gets (λ w, Ret w);
      if bool_decide (w_awake w ≠ []) && bool_decide (w_topGoals w ≠ [])
      then awake_round fuel;; awake_loop fuel
      else mret ()
  end.

(** Nothing to wait for means nothing to do. *)
Definition nothing_to_wait_for : WM W () :=
  w ← gets (λ w, Ret w);
  lift (check (negb (bool_decide (w_awake w = []) && bool_decide (set_maxBuildJobs = 0)%Z))
          (Error "unable to start any build"));;
  lift (check (bool_decide (w_awake w ≠ [])) (AssertionFailed "!awake.empty()")).

Fixpoint run_loop (fuel : nat) : WM W () :=
  match fuel with
  | 0 => lift OutOfFuel
  | S fuel =>
      do_call CheckInterrupt;;
      awake_loop fuel;;
      w ← gets (λ w, Ret w);
      if decide (w_topGoals w = []) then mret ()
      else
        (if bool_decide (w_children w ≠ ∅) || bool_decide (w_waitingForAWhile w ≠ [])
         then waitForInput else nothing_to_wait_for);;
        run_loop fuel
  end.

Definition Worker_run (fuel : nat) (topGoals : list GoalPtr) : WM W () :=
  top ← gets (λ w, Ret (w_topGoals w));
  top ← lift (foldM (λ s p, goals_insert p s) topGoals top);
  modify (on_topGoals (λ _, top));;
  run_loop fuel;;
  w ← gets (λ w, Ret w);
  lift (check (negb set_keepGoing || bool_decide (w_awake w = [])) (AssertionFailed "keepGoing: awake.empty()"));;
  lift (check (negb set_keepGoing || bool_decide (w_wantingToBuild w = []))
          (AssertionFailed "keepGoing: wantingToBuild.empty()"));;
  lift (check (negb set_keepGoing || bool_decide (w_children w = ∅)) (AssertionFailed "keepGoing: children.empty()")).

Definition exitStatus (w : Worker W) : Z :=
  if w_timedOut w then 101 else if w_permanentFailure w then 100 else 1.

(** * The operations of the store *)

Definition new_worker (st : W) : Worker W :=
  mkWorker ∅ 0 [] [] [] [] ∅ 0 ∅ ∅ [] [] 0 false false None None [] st.

(** [Worker worker( *this); ...]: at the end, or when an exception leaves, the
    goals are destroyed, then the worker. *)
Definition with_worker {A} (m : WM W A) : SM W A := λ st,
  let '(r, w) := m (new_worker st) in
  match reclaim (on_held (λ _, []) (on_topGoals (λ _, []) w)) with
  | (Ret _, w) => (r, w_world w)
  | (Throw e, w) => (Throw e, w_world w)
  | (OutOfFuel, w) => (OutOfFuel, w_world w)
  end.

Definition make_goal (buildMode : BuildMode) (goals : list GoalPtr) (i : bytes) : WM W (list GoalPtr) :=
  '(drvPath, outs) ← lift (parseDrvPathWithOutputs i);
  p ← (if isDerivation drvPath then makeDerivationGoal drvPath outs buildMode
       else makeSubstitutionGoal i (negb (bool_decide (buildMode = bmNormal))));
  lift (goals_insert p goals).

Definition exit_code (p : GoalPtr) : WM W ExitCode := g ← get_goal p; mret (g_exitCode g).

(** The bodies of the operations, with the worker. *)
Definition buildPaths_body (fuel : nat) (drvPaths : strset) (buildMode : BuildMode) : WM W () :=
  goals ← iterM (make_goal buildMode) drvPaths [];
  holding goals
    (Worker_run fuel goals;;
     failed ← iterM (λ failed i,
       c ← exit_code i;
       mret (if decide (c = ecFailed) then set_insert (gp_path i) failed else failed)) goals [];
     lift (check (bool_decide (failed = [])) (Error "build of paths failed"))).

Definition buildPaths (fuel : nat) (drvPaths : strset) (buildMode : BuildMode) : SM W () :=
  with_worker (buildPaths_body fuel drvPaths buildMode).

Definition ensurePath_body (fuel : nat) (path : bytes) : WM W () :=
  p ← makeSubstitutionGoal path false;
  holding [p]
    (Worker_run fuel [p];;
     c ← exit_code p;
     lift (check (bool_decide (c = ecSuccess)) (Error "path does not exist and cannot be created"))).

Definition ensurePath (fuel : nat) (path : bytes) : SM W () :=
  valid ← handle (IsValidPath path);
  if valid : bool then mret ()
  else with_worker (ensurePath_body fuel path).

Definition repairPath (fuel : nat) (path : bytes) : SM W () :=
  with_worker
    (p ← makeSubstitutionGoal path true;
     holding [p]
       (Worker_run fuel [p];;
        c ← exit_code p;
        if decide (c = ecSuccess) then mret ()
        else
          deriver ← do_call (QueryDeriver path);
          valid ← (if decide (deriver = []) then mret false else is_valid_path deriver);
          if valid : bool then
            p ← makeDerivationGoal deriver [] bmRepair;
            holding [p] (Worker_run fuel [p])
          else lift (Throw (Error "cannot repair path")))).
End worker.
