(* ===== verification/GoalInvariants.v ===== *)
(** The invariant of the worker: how goals, queues and child processes fit
    together, and that the calls by which goals wait and wake keep it. *)

From S2P Require Import Prelude StateMonad Containers Hash Paths StorePaths Derivations LocalDB GoalState Goals BuildGoals.

(** * What the invariant sees of a goal *)

Definition busy (g : Goal) : Prop := g_exitCode g = ecBusy.

(** The child processes an object knows of. *)
Definition goal_procs (g : Goal) : list Z :=
  match g_self g with
  | SelfDerivation d =>
      match dg_pid d with Some pid => [pid] | None => [] end ++
      match dg_hook d with Some a => if ag_running a then [ag_pid a] else [] | None => [] end
  | SelfSubstitution s => match sg_substituter s with Some a => [ag_pid a] | None => [] end
  end.

Definition goal_locks (g : Goal) : list bytes :=
  match g_self g with SelfDerivation d => dg_locks d | SelfSubstitution s => sg_locks s end.

(** The next thing the goal does is to look at what its child has done. *)
Definition goal_building (g : Goal) : bool :=
  match g_self g with
  | SelfDerivation d => match dg_state d with dsBuildDone => true | _ => false end
  | SelfSubstitution s => match sg_state s with ssFinished => true | _ => false end
  end.

Definition goal_class (g : Goal) : GoalClass :=
  match g_self g with
  | SelfDerivation _ => ClassDerivationGoal
  | SelfSubstitution _ => ClassSubstitutionGoal
  end.

(** A derivation goal that has found an incomplete closure is not building. *)
Definition retry_ok (g : Goal) : Prop :=
  match g_self g with
  | SelfDerivation d => dg_retrySubstitution d = true → dg_state d ≠ dsTryToBuild ∧ dg_state d ≠ dsBuildDone
  | SelfSubstitution _ => True
  end.

(** A goal that is not running: a child process exactly while it waits for one,
    and locks only then; none once it has ended; and not waiting for goals then. *)
Record coherent (g : Goal) : Prop := {
  co_one : length (goal_procs g) <= 1;
  co_building : busy g → goal_building g = true ↔ goal_procs g ≠ [];
  co_locks : busy g → goal_building g = false → goal_locks g = [];
  co_done : ¬ busy g → goal_procs g = [];
  co_retry : busy g → retry_ok g;
  co_free : goal_procs g ≠ [] → g_waitees g = []
}.

(** * The parts of the invariant *)

(** The goal whose end is being announced, with the waiters still to be told. *)
Abbreviation finishing := (option (GoalPtr * list GoalPtr)).

Definition is_fin (fin : finishing) (q : GoalPtr) : Prop :=
  match fin with Some (f, _) => q = f | None => False end.
Definition waiting_on (fin : finishing) (q : GoalPtr) (h : Goal) : list GoalPtr :=
  match fin with
  | Some (f, l) => if decide (q = f) then l else g_waiters h
  | None => g_waiters h
  end.
Definition unfinished (fin : finishing) (q : GoalPtr) (h : Goal) : Prop := busy h ∨ is_fin fin q.

Section invariant.
Context {W : Type} {settings : Settings}.

Definition key_lt (a b : GoalPtr) : Prop := compare_goals a b = Ret Lt.

(** Waiters and waitees mirror each other; what is waited for has not ended. *)
Record links (fin : finishing) (H : gmap GoalPtr Goal) : Prop := {
  li_waitee p g q : H !! p = Some g → q ∈ g_waitees g →
    ∃ h, H !! q = Some h ∧ p ∈ waiting_on fin q h ∧ unfinished fin q h;
  li_waiter q h p g : H !! q = Some h → p ∈ waiting_on fin q h → H !! p = Some g → q ∈ g_waitees g;
  li_sorted p g : H !! p = Some g → StronglySorted key_lt (g_waitees g);
  li_nodup q h : H !! q = Some h → NoDup (waiting_on fin q h);
  li_done p g : H !! p = Some g → ¬ busy g → g_waitees g = []
}.

Definition queues (w : Worker W) : list GoalPtr :=
  w_awake w ++ w_wantingToBuild w ++ w_waitingForAnyGoal w ++ w_waitingForAWhile w.
Definition sleepers (w : Worker W) : list GoalPtr :=
  w_wantingToBuild w ++ w_waitingForAnyGoal w ++ w_waitingForAWhile w.

Definition goal_map (w : Worker W) (cls : GoalClass) : gmap bytes GoalPtr :=
  match cls with
  | ClassDerivationGoal => w_derivationGoals w
  | ClassSubstitutionGoal => w_substitutionGoals w
  end.

(** There is one goal for a path that has not ended, and the maps know it. *)
Record objects (fin : finishing) (w : Worker W) : Prop := {
  ob_class p g : w_heap w !! p = Some g → goal_class g = gp_class p;
  ob_fresh p : is_Some (w_heap w !! p) → gp_serial p < w_serial w;
  ob_fresh_waiters q h p : w_heap w !! q = Some h → p ∈ g_waiters h → gp_serial p < w_serial w;
  ob_fresh_queues p : p ∈ queues w → gp_serial p < w_serial w;
  ob_registered p g : w_heap w !! p = Some g → unfinished fin p g →
    goal_map w (gp_class p) !! gp_path p = Some p;
  ob_map cls path p g : goal_map w cls !! path = Some p → w_heap w !! p = Some g →
    unfinished fin p g ∧ gp_class p = cls ∧ gp_path p = path;
  ob_top p : p ∈ w_topGoals w → ∃ g, w_heap w !! p = Some g ∧ unfinished fin p g;
  ob_top_sorted : StronglySorted key_lt (w_topGoals w);
  ob_fresh_map cls path p : goal_map w cls !! path = Some p → gp_serial p < w_serial w
}.

(** No wake-up is lost while there are top goals: a goal that has not ended is in
    one of the queues, or waits for other goals, or has a child process; [U] are
    the exceptions. *)
Record scheduled (U : list GoalPtr) (w : Worker W) : Prop := {
  sc_nodup : NoDup (queues w);
  sc_rest p g : p ∈ queues w → w_heap w !! p = Some g → p ∉ U ∧ busy g ∧ g_waitees g = [];
  sc_sleep p g : p ∈ sleepers w → w_heap w !! p = Some g → goal_procs g = [];
  sc_sched p g : w_heap w !! p = Some g → busy g → p ∉ U → w_topGoals w ≠ [] →
    p ∈ queues w ∨ g_waitees g ≠ [] ∨ goal_procs g ≠ [];
  sc_slots : w_wantingToBuild w ≠ [] → (set_maxBuildJobs <= w_nrLocalBuilds w)%Z
}.

Definition idle_agents (w : Worker W) : list Z :=
  match w_hook w with Some a => [ag_pid a] | None => [] end ++
  match w_substituter w with Some a => [ag_pid a] | None => [] end.

Definition slots (m : gmap Z Child) : Z := Z.of_nat (size (filter (λ '(_, c), c_inBuildSlot c = true) m)).

(** The number of build slots; one is always there for local builds and
    substitutes. *)
Definition slot_limit : Z := Z.max 1 set_maxBuildJobs.

(** The children of the worker are the processes of the goals, up to those that
    are ending ([D]) and starting ([X]). *)
Record children_ok (D X : list Z) (w : Worker W) : Prop := {
  ch_alive pid c : w_children w !! pid = Some c → pid ∉ D →
    ∃ g, w_heap w !! c_goal c = Some g ∧ pid ∈ goal_procs g;
  ch_procs p g pid : w_heap w !! p = Some g → pid ∈ goal_procs g → pid ∉ X →
    pid ≠ (-1)%Z ∧ pid ∉ D ∧ ∃ c, w_children w !! pid = Some c ∧ c_goal c = p;
  ch_ending pid : pid ∈ D → pid ≠ (-1)%Z ∧ is_Some (w_children w !! pid);
  ch_starting pid : pid ∈ X → pid ≠ (-1)%Z ∧ w_children w !! pid = None;
  ch_slots : w_nrLocalBuilds w = slots (w_children w);
  ch_idle pid : pid ∈ idle_agents w → pid ≠ (-1)%Z ∧ w_children w !! pid = None ∧ pid ∉ X;
  ch_idle_nodup : NoDup (idle_agents w);
  ch_hook_running a : w_hook w = Some a → ag_running a = true;
  ch_owner pid p g q h : pid ∈ X → w_heap w !! p = Some g → w_heap w !! q = Some h →
    pid ∈ goal_procs g → pid ∈ goal_procs h → p = q;
  ch_bound : (w_nrLocalBuilds w <= slot_limit)%Z
}.

(** [U] are the goals that are running or about to run, [B] those whose state
    function is under way. *)
Record Inv (U B : list GoalPtr) (fin : finishing) (D X : list Z) (w : Worker W) : Prop := {
  inv_links : links fin (w_heap w);
  inv_objects : objects fin w;
  inv_scheduled : scheduled U w;
  inv_children : children_ok D X w;
  inv_coherent p g : w_heap w !! p = Some g → p ∉ B → coherent g;
  inv_held p : p ∈ U ∨ p ∈ B → p ∈ w_held w;
  inv_pending p : p ∈ U → p ∉ B → ∃ g, w_heap w !! p = Some g ∧ busy g ∧ g_waitees g = [];
  inv_alive p : p ∈ w_held w → is_Some (w_heap w !! p)
}.
End invariant.

(** * Sets of goals *)

Section goal_sets.
Context {settings : Settings}.

Definition same_goal (p q : GoalPtr) : Prop := gp_class p = gp_class q ∧ gp_path p = gp_path q.

Lemma storePathToName_length path name :
  storePathToName set_nixStore path = Ret name → length path = length set_nixStore + 34 + length name.
Proof.
  unfold storePathToName. intros Hn. outcome_inv. unfold substr in Hn. case_decide; [|done].
  injection Hn as <-. rewrite length_take, length_drop. lia.
Qed.

Lemma goal_key_inj p q k : goal_key p = Ret k → goal_key q = Ret k → same_goal p q.
Proof.
  unfold goal_key. intros (n & Hn%storePathToName_length & [= <-])%bind_Ret_inv.
  intros (m & Hm%storePathToName_length & [= Hq])%bind_Ret_inv. symmetry in Hq.
  assert (length (gp_path p) = length (gp_path q)) as Hl.
  { apply (f_equal length) in Hq. rewrite !length_app in Hq.
    destruct (gp_class p), (gp_class q); simpl in Hq; lia. }
  apply app_inj_1 in Hq as [Hc Hq]; [|by destruct (gp_class p), (gp_class q)].
  split; [by destruct (gp_class p), (gp_class q)|].
  apply app_inj_1 in Hq as [_ Hq]; [|lia]. by injection Hq.
Qed.

Lemma compare_goals_Eq p q : compare_goals p q = Ret Eq → same_goal p q.
Proof.
  unfold compare_goals. intros (k & Hk & (l & Hl & [= E%str_compare_eq])%bind_Ret_inv)%bind_Ret_inv.
  subst l. by eapply goal_key_inj.
Qed.

Lemma compare_goals_refl p c : compare_goals p p = Ret c → c = Eq.
Proof.
  unfold compare_goals. intros (k & Hk & (l & Hl & [= <-])%bind_Ret_inv)%bind_Ret_inv.
  rewrite Hk in Hl. injection Hl as <-. apply str_compare_refl.
Qed.

Lemma compare_goals_Gt p q : compare_goals p q = Ret Gt → key_lt q p.
Proof.
  unfold key_lt, compare_goals. intros (k & Hk & (l & Hl & [= E])%bind_Ret_inv)%bind_Ret_inv.
  rewrite Hk, Hl. simpl. apply str_compare_gt in E. by rewrite E.
Qed.

#[export] Instance key_lt_trans : Transitive key_lt.
Proof.
  intros p q r. unfold key_lt, compare_goals.
  intros (k & Hk & (l & Hl & [= E])%bind_Ret_inv)%bind_Ret_inv.
  intros (l' & Hl' & (m & Hm & [= E'])%bind_Ret_inv)%bind_Ret_inv.
  rewrite Hl in Hl'. injection Hl' as <-. rewrite Hk, Hm. simpl. f_equal. exact (str_lt_trans k l m E E').
Qed.

Lemma key_lt_irrefl p : ¬ key_lt p p.
Proof. intros E%compare_goals_refl. done. Qed.

Lemma goals_sorted_nodup s : StronglySorted key_lt s → NoDup s.
Proof.
  induction 1 as [|p s _ IH Hp]; constructor; [|done].
  intros Hin. rewrite Forall_forall in Hp. by apply (key_lt_irrefl p), Hp.
Qed.

Lemma goals_insert_spec p s s' :
  goals_insert p s = Ret s' → StronglySorted key_lt s → (∀ x, x ∈ s → same_goal p x → x = p) →
  StronglySorted key_lt s' ∧ ∀ x, x ∈ s' ↔ x = p ∨ x ∈ s.
Proof.
  revert s'. induction s as [|y s IH]; intros s'; cbn [goals_insert].
  { intros [= <-] _ _. split; [repeat constructor|set_solver]. }
  intros (c & Hc & Hs')%bind_Ret_inv [Hs Hy]%StronglySorted_inv Hsame. destruct c.
  - injection Hs' as <-. apply compare_goals_Eq in Hc. pose proof (Hsame y ltac:(by left) Hc) as ->.
    split; [by constructor|set_solver].
  - injection Hs' as <-. split; [|set_solver]. constructor; [by constructor|].
    constructor; [done|]. eapply Forall_impl; [exact Hy|]. intros z Hz. by transitivity y.
  - apply bind_Ret_inv in Hs' as (s1 & H1 & [= <-]). destruct (IH s1 H1 Hs) as [Hs1 Hin]; [set_solver|].
    split; [|set_solver]. constructor; [done|]. apply compare_goals_Gt in Hc.
    rewrite Forall_forall in Hy |- *. set_solver.
Qed.

Lemma goals_find_in p s b : goals_find p s = Ret b → p ∈ s → b = true.
Proof.
  induction s as [|y s IH]; cbn [goals_find]; [set_solver|].
  intros (c & Hc & Hs)%bind_Ret_inv [->|Hp]%elem_of_cons.
  - rewrite (compare_goals_refl _ _ Hc) in Hs. by injection Hs.
  - destruct c; [by injection Hs|by apply IH|by apply IH].
Qed.

Lemma goals_find_same p s : goals_find p s = Ret true → ∃ x, x ∈ s ∧ same_goal p x.
Proof.
  induction s as [|y s IH]; cbn [goals_find]; [done|].
  intros (c & Hc & Hs)%bind_Ret_inv. destruct c.
  - exists y. split; [by left|by apply compare_goals_Eq].
  - destruct (IH Hs) as (x & ? & ?). exists x. split; [by right|done].
  - destruct (IH Hs) as (x & ? & ?). exists x. split; [by right|done].
Qed.

Lemma goals_erase_spec p s s' :
  goals_erase p s = Ret s' → StronglySorted key_lt s → (∀ x, x ∈ s → same_goal p x → x = p) → p ∈ s →
  StronglySorted key_lt s' ∧ ∀ x, x ∈ s' ↔ x ∈ s ∧ x ≠ p.
Proof.
  intros He Hs Hsame _. pose proof (goals_sorted_nodup s Hs) as Hnd. revert s' He.
  induction s as [|y s IH]; intros s'; cbn [goals_erase]; [intros [= <-]; set_solver|].
  apply StronglySorted_inv in Hs as [Hs Hy]. apply NoDup_cons in Hnd as [Hny Hnd].
  intros (c & Hc & Hs')%bind_Ret_inv.
  assert (c = Eq → y = p) as Hyp by (intros ->; apply Hsame; [by left|by apply compare_goals_Eq]).
  assert (c ≠ Eq → y ≠ p) as Hyp' by (intros Hne ->; by apply Hne, (compare_goals_refl p)).
  assert (∀ s1, goals_erase p s = Ret s1 → StronglySorted key_lt (y :: s1) ∧
    ∀ x, x ∈ y :: s1 ↔ x = y ∨ x ∈ s ∧ x ≠ p) as Hrec.
  { intros s1 H1. destruct (IH Hs ltac:(set_solver) Hnd s1 H1) as [Hs1 Hin]. split; [|set_solver].
    constructor; [done|]. rewrite Forall_forall in Hy |- *. set_solver. }
  destruct c.
  - injection Hs' as <-. specialize (Hyp eq_refl) as ->. split; [done|]. set_solver.
  - apply bind_Ret_inv in Hs' as (s1 & H1 & [= <-]). destruct (Hrec s1 H1). specialize (Hyp' ltac:(done)).
    split; [done|set_solver].
  - apply bind_Ret_inv in Hs' as (s1 & H1 & [= <-]). destruct (Hrec s1 H1). specialize (Hyp' ltac:(done)).
    split; [done|set_solver].
Qed.
End goal_sets.

(** * Queues *)

Section queues.
Context {W : Type} {settings : Settings} {handler : Handler W}.
Implicit Types w : Worker W.

Lemma wake_alive_awake w q :
  NoDup (w_awake w ++ q) → w_awake (wake_alive q w) = w_awake w ++ filter (λ p, alive w p = true) q.
Proof.
  unfold wake_alive. cbn [w_awake on_awake]. generalize (w_awake w). induction q as [|p q IH]; intros l Hnd; simpl.
  { by rewrite app_nil_r. }
  rewrite filter_cons. destruct (alive w p) eqn:Ep; simpl.
  - assert (addToWeakGoals p l = l ++ [p]) as ->.
    { unfold addToWeakGoals. apply NoDup_app in Hnd as (_ & Hd & _). rewrite decide_False; [done|].
      intros Hp. apply (Hd p Hp). by left. }
    rewrite IH by (by rewrite <-(assoc (++))). by rewrite <-(assoc (++)).
  - apply IH. eapply sublist_NoDup; [exact Hnd|]. apply sublist_app; [done|]. by constructor.
Qed.

(** Moving goals between queues. *)
Lemma scheduled_requeue U w w' :
  scheduled U w → w_heap w' = w_heap w → w_topGoals w' = w_topGoals w → NoDup (queues w') →
  (∀ p, is_Some (w_heap w !! p) → p ∈ queues w' ↔ p ∈ queues w) →
  (∀ p, is_Some (w_heap w !! p) → p ∈ sleepers w' → p ∈ sleepers w) →
  (w_wantingToBuild w' ≠ [] → (set_maxBuildJobs <= w_nrLocalBuilds w')%Z) → scheduled U w'.
Proof.
  intros Hs Hh Ht Hnd Hq Hsl Hslots. constructor; [done|intros p g Hp Hg|intros p g Hp Hg|intros p g Hg Hb HU|done];
    rewrite Hh in Hg; rewrite ?Ht.
  - apply (sc_rest U w Hs p g); [|done]. by apply Hq.
  - apply (sc_sleep U w Hs p g); [|done]. by apply Hsl.
  - rewrite Hq by done. by apply (sc_sched U w Hs).
Qed.

Lemma NoDup_queues w :
  NoDup (queues w) ↔
  NoDup (w_awake w) ∧ NoDup (w_wantingToBuild w) ∧ NoDup (w_waitingForAnyGoal w) ∧
  NoDup (w_waitingForAWhile w) ∧
  (∀ x, x ∈ w_awake w → x ∉ sleepers w) ∧
  (∀ x, x ∈ w_wantingToBuild w → x ∉ w_waitingForAnyGoal w ∧ x ∉ w_waitingForAWhile w) ∧
  (∀ x, x ∈ w_waitingForAnyGoal w → x ∉ w_waitingForAWhile w).
Proof. unfold queues, sleepers. rewrite !NoDup_app. set_solver. Qed.

(** Two workers that differ in queues, children and world only. *)
Record same_goals (w w' : Worker W) : Prop := {
  sg_heap_eq : w_heap w' = w_heap w;
  sg_serial_eq : w_serial w' = w_serial w;
  sg_held_eq : w_held w' = w_held w;
  sg_top_eq : w_topGoals w' = w_topGoals w;
  sg_map_eq cls : goal_map w' cls = goal_map w cls
}.

Lemma Inv_same_goals U U' B fin D D' X X' w w' :
  Inv U B fin D X w → same_goals w w' → (∀ p, p ∈ U' → p ∈ U) →
  (∀ p, p ∈ queues w' → gp_serial p < w_serial w) →
  scheduled U' w' → children_ok D' X' w' → Inv U' B fin D' X' w'.
Proof.
  intros [Hl Ho Hs Hc Hco Hh Hp Hal] [Eh En Ed Et Em] HU Hq Hs' Hc'.
  constructor; [by rewrite Eh| |done|done|by rewrite Eh|rewrite Ed; naive_solver|rewrite Eh; eauto|by rewrite Eh, Ed].
  destruct Ho. constructor; rewrite ?Eh, ?En, ?Et; try done; setoid_rewrite Em; done.
Qed.

(** [p] goes to a queue. *)
Lemma scheduled_push U w w' p g :
  scheduled (p :: U) w → p ∉ U → w_heap w !! p = Some g → busy g → g_waitees g = [] →
  w_heap w' = w_heap w → w_topGoals w' = w_topGoals w → queues w' ≡ₚ p :: queues w →
  (∀ q, q ∈ sleepers w' → q ∈ sleepers w ∨ q = p ∧ goal_procs g = []) →
  (w_wantingToBuild w' ≠ [] → (set_maxBuildJobs <= w_nrLocalBuilds w')%Z) → scheduled U w'.
Proof.
  intros Hs HU Hp Hb Hw Eh Et Hq Hsl Hslots. constructor; [|intros q h Hq' Hh|intros q h Hq' Hh|intros q h Hh Hbh HqU Htop|done].
  - rewrite Hq. constructor; [|apply (sc_nodup _ _ Hs)].
    intros Hin. destruct (sc_rest _ _ Hs p g Hin Hp) as [Hn _]. apply Hn. by left.
  - rewrite Eh in Hh. rewrite Hq in Hq'. apply elem_of_cons in Hq' as [->|Hin]; [naive_solver|].
    destruct (sc_rest _ _ Hs q h Hin Hh) as (Hn & ? & ?). split_and!; [set_solver|done|done].
  - rewrite Eh in Hh. destruct (Hsl q Hq') as [Hin|[-> ?]]; [by apply (sc_sleep _ _ Hs q)|naive_solver].
  - rewrite Eh in Hh. rewrite Hq, elem_of_cons. destruct (decide (q = p)) as [->|Hne]; [by left; left|].
    rewrite Et in Htop. destruct (sc_sched _ _ Hs q h Hh Hbh) as [?|?]; [set_solver|done|auto|auto].
Qed.

Lemma Inv_children_eq U B fin D X w w' :
  Inv U B fin D X w → w_heap w' = w_heap w → w_children w' = w_children w →
  w_nrLocalBuilds w' = w_nrLocalBuilds w → w_hook w' = w_hook w → w_substituter w' = w_substituter w →
  children_ok D X w'.
Proof.
  intros HI Eh Ec En E1 E2. assert (idle_agents w' = idle_agents w) as Ei by (unfold idle_agents; by rewrite E1, E2).
  destruct (inv_children _ _ _ _ _ _ HI). constructor; rewrite ?Eh, ?Ec, ?En, ?Ei, ?E1, ?E2; done.
Qed.

Lemma addToWeakGoals_new p l : p ∉ l → addToWeakGoals p l = l ++ [p].
Proof. intros Hp. unfold addToWeakGoals. by rewrite decide_False. Qed.

Lemma unqueued U B fin D X w p g : Inv (p :: U) B fin D X w → w_heap w !! p = Some g → p ∉ queues w.
Proof. intros HI Hp Hq. destruct (sc_rest _ _ (inv_scheduled _ _ _ _ _ _ HI) p g Hq Hp) as [Hn _]. apply Hn. by left. Qed.

Lemma fresh_pushed U B fin D X w w' p g :
  Inv U B fin D X w → w_heap w !! p = Some g → queues w' ≡ₚ p :: queues w →
  ∀ q, q ∈ queues w' → gp_serial q < w_serial w.
Proof.
  intros HI Hp Hq q Hin. rewrite Hq in Hin. apply elem_of_cons in Hin as [->|Hin];
    [apply (ob_fresh _ _ (inv_objects _ _ _ _ _ _ HI)); eauto|by apply (ob_fresh_queues _ _ (inv_objects _ _ _ _ _ _ HI))].
Qed.

Lemma push_perm {A} (a b c : list A) x : a ++ (b ++ [x]) ++ c ≡ₚ x :: a ++ b ++ c.
Proof. rewrite <-(Permutation_cons_append b). simpl. symmetry. apply Permutation_middle. Qed.

(** The four queues a goal can be put in. *)
Inductive pushed (p : GoalPtr) (g : Goal) (w : Worker W) : Worker W → Prop :=
  | push_awake : pushed p g w (on_awake (addToWeakGoals p) w)
  | push_slot : goal_procs g = [] → (set_maxBuildJobs <= w_nrLocalBuilds w)%Z →
      pushed p g w (on_wantingToBuild (addToWeakGoals p) w)
  | push_any : goal_procs g = [] → pushed p g w (on_waitingForAnyGoal (addToWeakGoals p) w)
  | push_while : goal_procs g = [] → pushed p g w (on_waitingForAWhile (addToWeakGoals p) w).

Lemma pushed_queues p g w w' : pushed p g w w' → p ∉ queues w →
  queues w' ≡ₚ p :: queues w ∧ (∀ q, q ∈ sleepers w' → q ∈ sleepers w ∨ q = p ∧ goal_procs g = []).
Proof.
  unfold queues, sleepers. intros Hw Hn. rewrite !not_elem_of_app in Hn. destruct Hn as (? & ? & ? & ?).
  destruct Hw; cbn; rewrite addToWeakGoals_new by done; (split; [|intros q; rewrite !elem_of_app, ?list_elem_of_singleton; tauto]).
  - apply (push_perm []).
  - apply push_perm.
  - rewrite !(assoc (++) (w_awake w)). apply push_perm.
  - pose proof (push_perm (w_awake w ++ w_wantingToBuild w ++ w_waitingForAnyGoal w) (w_waitingForAWhile w) [] p) as Hp.
    rewrite !app_nil_r, <-!(assoc (++)) in Hp. exact Hp.
Qed.

Lemma pushed_same p g w w' : pushed p g w w' →
  same_goals w w' ∧ w_children w' = w_children w ∧ w_nrLocalBuilds w' = w_nrLocalBuilds w ∧
  w_hook w' = w_hook w ∧ w_substituter w' = w_substituter w.
Proof. by destruct 1. Qed.

Lemma Inv_push U B fin D X w w' p g :
  Inv (p :: U) B fin D X w → p ∉ U → w_heap w !! p = Some g → busy g → g_waitees g = [] →
  pushed p g w w' → Inv U B fin D X w'.
Proof.
  intros HI HU Hp Hb Hwt Hw'. pose proof (unqueued _ _ _ _ _ _ _ _ HI Hp) as Hnq.
  destruct (pushed_queues _ _ _ _ Hw' Hnq) as [Hq Hsl]. destruct (pushed_same _ _ _ _ Hw') as (Hsg & Hc & Hn & Hi1 & Hi2).
  eapply Inv_same_goals; [exact HI|done|by right|by eapply fresh_pushed| |].
  - eapply scheduled_push; [apply HI|done|done|done|done|apply Hsg|apply Hsg|done|done|].
    pose proof (sc_slots _ _ (inv_scheduled _ _ _ _ _ _ HI)) as Hslots. by destruct Hw'.
  - by eapply Inv_children_eq; [exact HI|apply Hsg|..].
Qed.

(** ** Waking a queue *)

Inductive woken (w : Worker W) : Worker W → Prop :=
  | woken_slot : woken w (wake_wantingToBuild w)
  | woken_any : woken w (wake_waitingForAnyGoal w)
  | woken_while : woken w (wake_waitingForAWhile w).

Lemma alive_spec w p : alive w p = true ↔ is_Some (w_heap w !! p).
Proof. unfold alive. by rewrite bool_decide_eq_true. Qed.

Lemma woken_queues w w' : woken w w' → NoDup (queues w) →
  NoDup (queues w') ∧ (∀ p, p ∈ queues w' → p ∈ queues w) ∧
  (∀ p, is_Some (w_heap w !! p) → p ∈ queues w → p ∈ queues w') ∧ (∀ p, p ∈ sleepers w' → p ∈ sleepers w).
Proof.
  intros Hw Hnd. pose proof (proj1 (NoDup_queues w) Hnd) as (Ha & Hb & Hc & Hd & Hab & Hbc & Hcd).
  assert (∀ x, x ∈ w_awake w → x ∉ w_wantingToBuild w ∧ x ∉ w_waitingForAnyGoal w ∧ x ∉ w_waitingForAWhile w) as Hab'.
  { intros x Hx. specialize (Hab x Hx). unfold sleepers in Hab. rewrite !not_elem_of_app in Hab. tauto. }
  assert (∀ q, NoDup q → (∀ x, x ∈ w_awake w → x ∉ q) →
    w_awake (wake_alive q w) = w_awake w ++ filter (λ p, alive w p = true) q) as Hwk.
  { intros q Hq Hd'. apply wake_alive_awake, NoDup_app. by split_and!. }
  destruct Hw; rewrite NoDup_queues; unfold queues, sleepers;
    [change (w_awake (wake_wantingToBuild w)) with (w_awake (wake_alive (w_wantingToBuild w) w))
    |change (w_awake (wake_waitingForAnyGoal w)) with (w_awake (wake_alive (w_waitingForAnyGoal w) w))
    |change (w_awake (wake_waitingForAWhile w)) with (w_awake (wake_alive (w_waitingForAWhile w) w))];
    rewrite Hwk by naive_solver; cbn.
  all: split_and!; try done; try (constructor; fail).
  all: try (apply NoDup_app; split_and!; [done|intros x Hx; rewrite list_elem_of_filter; naive_solver|by apply NoDup_filter]).
  all: intros x; rewrite ?elem_of_app, ?list_elem_of_filter, ?elem_of_nil, ?alive_spec; naive_solver.
Qed.

Lemma scheduled_woken U w w' :
  scheduled U w → woken w w' → scheduled U w'.
Proof.
  intros Hs Hw. destruct (woken_queues w w' Hw (sc_nodup _ _ Hs)) as (Hnd & Hsub & Hsup & Hsl).
  apply (scheduled_requeue U w); [done|by destruct Hw|by destruct Hw|done|naive_solver|naive_solver|].
  pose proof (sc_slots _ _ Hs). by destruct Hw.
Qed.

Lemma woken_same w w' : woken w w' →
  same_goals w w' ∧ w_children w' = w_children w ∧ w_nrLocalBuilds w' = w_nrLocalBuilds w ∧
  w_hook w' = w_hook w ∧ w_substituter w' = w_substituter w.
Proof. by destruct 1. Qed.

Lemma Inv_woken U B fin D X w w' : Inv U B fin D X w → woken w w' → Inv U B fin D X w'.
Proof.
  intros HI Hw. destruct (woken_same w w' Hw) as (Hsg & ? & ? & ? & ?).
  eapply Inv_same_goals; [exact HI|done|done| |by eapply scheduled_woken; [apply HI|]|].
  - intros p Hp. apply (ob_fresh_queues _ _ (inv_objects _ _ _ _ _ _ HI)).
    by apply (woken_queues w w' Hw (sc_nodup _ _ (inv_scheduled _ _ _ _ _ _ HI))).
  - by eapply Inv_children_eq; [exact HI|apply Hsg|..].
Qed.

(** ** Children *)

Lemma slots_delete m pid c :
  m !! pid = Some c → slots (delete pid m) = (slots m - (if c_inBuildSlot c then 1 else 0))%Z.
Proof.
  intros Hc. unfold slots. rewrite map_filter_delete. destruct (c_inBuildSlot c) eqn:Es.
  - assert (filter (λ '(_, c), c_inBuildSlot c = true) m !! pid = Some c) as Hf by by apply map_lookup_filter_Some.
    rewrite map_size_delete, Hf. assert (size (filter (λ '(_, c), c_inBuildSlot c = true) m) ≠ 0); [|lia].
    intros E%map_size_empty_iff. rewrite E in Hf. done.
  - rewrite delete_id; [lia|]. apply map_lookup_filter_None. right. intros c' Hc'. rewrite Hc in Hc'. injection Hc' as <-. by rewrite Es.
Qed.

Lemma slots_insert m pid c :
  m !! pid = None → slots (<[pid := c]> m) = (slots m + (if c_inBuildSlot c then 1 else 0))%Z.
Proof.
  intros Hc. unfold slots. destruct (c_inBuildSlot c) eqn:Es.
  - rewrite map_filter_insert_True by done. rewrite map_size_insert_None; [lia|].
    apply map_lookup_filter_None. by left.
  - rewrite map_filter_insert_False by (by rewrite Es). rewrite delete_id by done. lia.
Qed.

Lemma slots_pos m pid c : m !! pid = Some c → c_inBuildSlot c = true → (0 < slots m)%Z.
Proof.
  intros Hc Es. pose proof (slots_delete m pid c Hc) as E. rewrite Es in E.
  unfold slots in *. lia.
Qed.

Definition scheduler_faults : list string :=
  ["!awake.empty()"; "pid != -1"; "i != children.end()"; "nrLocalBuilds > 0"; "fds.empty()";
   "waitees.find(waitee) != waitees.end()"; "exitCode == ecBusy"; "result == ecSuccess || ..."; "goal";
   "dangling pointer to a goal"; "not a derivation goal"; "not a substitution goal";
   "substituter->pid"; "substituter->builderOut"; "iterator to an erased child"]%string.

(** What may be thrown: not a failed assertion of the scheduler. *)
Definition no_fault (e : exn) (w : Worker W) : Prop :=
  match e with AssertionFailed s | Undefined s => s ∉ scheduler_faults | _ => True end.

Lemma children_ended U B fin D w w' pid c :
  Inv U B fin (pid :: D) [] w → pid ∉ D → w_children w !! pid = Some c →
  w_heap w' = w_heap w → w_children w' = delete pid (w_children w) →
  w_hook w' = w_hook w → w_substituter w' = w_substituter w →
  w_nrLocalBuilds w' = (w_nrLocalBuilds w - (if c_inBuildSlot c then 1 else 0))%Z →
  children_ok D [] w'.
Proof.
  intros HI HD Hc Eh Ec E1 E2 En. assert (idle_agents w' = idle_agents w) as Ei by (unfold idle_agents; by rewrite E1, E2).
  destruct (inv_children _ _ _ _ _ _ HI) as [Ha Hp He Hs Hsl Hi Hin Hru How Hbd].
  constructor; rewrite ?Eh, ?Ec, ?Ei, ?En, ?E1, ?E2; try done.
  - intros p c' [Hne Hc']%lookup_delete_Some HpD. apply (Ha p c' Hc'). set_solver.
  - intros p g q Hg Hq _. destruct (Hp p g q Hg Hq) as (Hq1 & Hq2 & c' & Hc' & Hg'); [set_solver|].
    split_and!; [done|set_solver|]. exists c'. split; [|done]. rewrite lookup_delete_ne; [done|set_solver].
  - intros q Hq. destruct (He q) as [? ?]; [by right|]. split; [done|].
    rewrite lookup_delete_ne; [done|]. by intros ->.
  - intros q Hq. by apply elem_of_nil in Hq.
  - rewrite Hsl. by rewrite (slots_delete _ _ c).
  - intros q Hq. destruct (Hi q Hq) as (? & Hq' & ?). split_and!; [done| |done].
    rewrite lookup_delete_None. by right.
  - destruct (c_inBuildSlot c); lia.
Qed.
End queues.

(** * Ending of goals *)

(** What is assumed of the environment: calls throw exceptions and do not fail
    assertions, and a new process is none of those not yet waited for. *)
Class HandlerLaws {W} (handler : Handler W) : Prop := {
  handle_exception A (c : call A) st e st' : handle c st = (Throw e, st') → is_exception e = true;
  handle_agent command live st a st' : handle (StartAgent command live) st = (Ret a, st') →
    ag_pid a ≠ (-1)%Z ∧ ag_pid a ∉ live ∧ ag_running a = true;
  handle_fork drvPath live st pid fd st' : handle (ForkBuilder drvPath live) st = (Ret (pid, fd), st') →
    pid ≠ (-1)%Z ∧ pid ∉ live
}.

Section ending.
Context {W : Type} {gc : Gcrypt} {settings : Settings} {handler : Handler W} {laws : HandlerLaws handler}.
Implicit Types w : Worker W.

Lemma exception_no_fault e w : is_exception e = true → no_fault e w.
Proof. by destruct e. Qed.

Lemma wp_call_full {A} (c : call A) (Q : A → Worker W → Prop) (E : exn → Worker W → Prop) w :
  (∀ a st, handle c (w_world w) = (Ret a, st) → Q a (on_world (λ _, st) w)) →
  (∀ e st, handle c (w_world w) = (Throw e, st) → E e (on_world (λ _, st) w)) → wp (do_call c) Q E w.
Proof. intros HQ HE. unfold wp, do_call. destruct (handle c (w_world w)) as [[a|e|] st] eqn:Ec; auto. Qed.

Lemma wp_call {A} (c : call A) (Q : A → Worker W → Prop) w :
  (∀ a st, Q a (on_world (λ _, st) w)) → wp (do_call c) Q no_fault w.
Proof. intros HQ. apply wp_call_full; [done|]. intros e st He. by eapply exception_no_fault, handle_exception. Qed.

Lemma wp_childTerminated U B fin D w pid Q E :
  Inv U B fin (pid :: D) [] w → pid ∉ D →
  (∀ w', Inv U B fin D [] w' → same_goals w w' → w_children w' !! pid = None ∧ idle_agents w' = idle_agents w → Q () w') →
  wp (childTerminated pid true) Q E w.
Proof.
  intros HI HD HQ. destruct (ch_ending _ _ _ (inv_children _ _ _ _ _ _ HI) pid) as (Hpid & c & Hc); [by left|].
  unfold childTerminated. apply wp_bind, wp_check; [|by rewrite bool_decide_eq_false]. intros _.
  apply wp_bind, wp_gets; rewrite Hc; [|done]. intros ? [= <-].
  set (w1 := on_children (delete pid) (if c_inBuildSlot c then on_nrLocalBuilds (λ n, (n - 1)%Z) w else w)).
  assert (wp (modify (on_children (delete pid));; when true (modify wake_wantingToBuild)) Q E
            (if c_inBuildSlot c then on_nrLocalBuilds (λ n, (n - 1)%Z) w else w)) as Hend.
  { apply wp_bind, wp_modify. fold w1. cbn [when]. apply wp_modify.
    assert (same_goals w w1 ∧ queues w1 = queues w ∧ w_heap w1 = w_heap w) as (Hsg1 & Hq1 & Hh1)
      by (unfold w1; by destruct (c_inBuildSlot c)).
    destruct (woken_same w1 _ (woken_slot w1)) as (Hsg2 & Hc2 & Hn2 & Hi1 & Hi2).
    assert (same_goals w (wake_wantingToBuild w1)) as Hsg by (unfold w1; by destruct (c_inBuildSlot c)).
    pose proof (sc_nodup _ _ (inv_scheduled _ _ _ _ _ _ HI)) as Hnd.
    destruct (woken_queues w1 _ (woken_slot w1)) as (Hq & Hsub & Hsup & Hsl); [by rewrite Hq1|].
    rewrite Hq1, Hh1 in *.
    apply HQ; [|done|].
    2: { unfold idle_agents, w1. destruct (c_inBuildSlot c); split; try done; apply lookup_delete_eq. }
    eapply Inv_same_goals; [exact HI|done|done| | |].
    - intros p Hp%Hsub. by apply (ob_fresh_queues _ _ (inv_objects _ _ _ _ _ _ HI)).
    - eapply (scheduled_requeue U w); [apply HI|apply Hsg|apply Hsg|done|naive_solver| |done].
      intros p _ Hp. apply Hsl in Hp. unfold w1 in Hp. by destruct (c_inBuildSlot c).
    - eapply children_ended; [exact HI|done|exact Hc|apply Hsg| | | |]; unfold w1; destruct (c_inBuildSlot c); try done.
      cbn. lia. }
  apply wp_bind, wp_when; intros Es; rewrite Es in Hend; [|exact Hend].
  apply wp_bind, wp_gets; [|done]. intros n [= <-].
  pose proof (slots_pos _ _ _ Hc Es) as Hpos. rewrite <-(ch_slots _ _ _ (inv_children _ _ _ _ _ _ HI)) in Hpos.
  apply wp_bind, wp_check; [|rewrite bool_decide_eq_false; lia]. intros _. by apply wp_modify.
Qed.

(** Two workers that differ only in what the invariant does not look at. *)
Record same_sched (w w' : Worker W) : Prop := {
  ss_goals : same_goals w w';
  ss_awake : w_awake w' = w_awake w;
  ss_wantingToBuild : w_wantingToBuild w' = w_wantingToBuild w;
  ss_waitingForAnyGoal : w_waitingForAnyGoal w' = w_waitingForAnyGoal w;
  ss_waitingForAWhile : w_waitingForAWhile w' = w_waitingForAWhile w;
  ss_children : w_children w' = w_children w;
  ss_nrLocalBuilds : w_nrLocalBuilds w' = w_nrLocalBuilds w;
  ss_hook : w_hook w' = w_hook w;
  ss_substituter : w_substituter w' = w_substituter w
}.

Lemma same_goals_trans w w1 w2 : same_goals w w1 → same_goals w1 w2 → same_goals w w2.
Proof. intros [] []. constructor; congruence. Qed.

#[export] Instance same_sched_refl : Reflexive same_sched.
Proof. done. Qed.
#[export] Instance same_sched_trans : Transitive same_sched.
Proof. intros w w1 w2 [] []. constructor; [by eapply same_goals_trans|congruence..]. Qed.

Lemma Inv_same_sched U B fin D X w w' : Inv U B fin D X w → same_sched w w' → Inv U B fin D X w'.
Proof.
  intros HI Hss. pose proof Hss as [Hsg Ea Eb Ec Ed Eh En Ei Ej].
  assert (queues w' = queues w) as Eq by (unfold queues; congruence).
  eapply Inv_same_goals; [exact HI|done|done| | |].
  - rewrite Eq. apply (ob_fresh_queues _ _ (inv_objects _ _ _ _ _ _ HI)).
  - eapply (scheduled_requeue U w); [apply HI|apply Hsg|apply Hsg|rewrite Eq; apply HI|by rewrite Eq| |].
    + unfold sleepers. by rewrite Eb, Ec, Ed.
    + rewrite Eb, En. apply HI.
  - by eapply Inv_children_eq; [exact HI|apply Hsg|..].
Qed.

Lemma wp_call_same {A} (c : call A) (Q : A → Worker W → Prop) w :
  (∀ a w', same_sched w w' → Q a w') → wp (do_call c) Q no_fault w.
Proof. intros HQ. apply wp_call. intros a st. by apply HQ. Qed.

Lemma wp_unlock deletion held (Q : () → Worker W → Prop) w :
  (∀ w', same_sched w w' → Q () w') → wp (unlock deletion held) Q no_fault w.
Proof. intros HQ. apply wp_bind, wp_modify, wp_call_same. intros [] w' Hw'. apply HQ. by etrans; [|exact Hw']. Qed.

Lemma wp_ignoring m (Q : () → Worker W → Prop) w :
  wp m Q (λ e w, no_fault e w ∧ Q () w) w → wp (ignoring m) Q no_fault w.
Proof.
  intros Hm. apply wp_catch. eapply wp_mono; [exact Hm|done|]. intros e w' [He HQ].
  destruct (is_exception e); [by apply wp_ret|done].
Qed.

(** A call whose exceptions are ignored. *)
Lemma wp_ignoring_call (c : call ()) (Q : () → Worker W → Prop) w :
  (∀ w', same_sched w w' → Q () w') → wp (ignoring (do_call c)) Q no_fault w.
Proof.
  intros HQ. apply wp_ignoring, wp_call_full; [intros [] st _; by apply HQ|].
  intros e st He. split; [by eapply exception_no_fault, handle_exception|by apply HQ].
Qed.

Lemma wp_ignoring_unlock deletion held (Q : () → Worker W → Prop) w :
  (∀ w', same_sched w w' → Q () w') → wp (ignoring (unlock deletion held)) Q no_fault w.
Proof.
  intros HQ. apply wp_ignoring. apply wp_bind, wp_modify, wp_call_full; [intros [] st _; by apply HQ|].
  intros e st He. split; [by eapply exception_no_fault, handle_exception|by apply HQ].
Qed.

(** What a destructor leaves behind: the same worker without the processes. *)
Definition ended U B fin (w w' : Worker W) : Prop := Inv U B fin [] [] w' ∧ same_goals w w'.

Lemma ended_same U B fin w w1 w2 : ended U B fin w w1 → same_sched w1 w2 → ended U B fin w w2.
Proof.
  intros [HI Hsg] Hss. split; [by eapply Inv_same_sched|]. eapply same_goals_trans; [exact Hsg|apply Hss].
Qed.

Lemma wp_killChild U B fin w g d :
  Inv U B fin (goal_procs g) [] w → g_self g = SelfDerivation d → length (goal_procs g) <= 1 →
  wp (killChild d) (λ _, ended U B fin w) (λ e w', no_fault e w' ∧ ended U B fin w w') w.
Proof.
  unfold goal_procs, killChild. intros HI Es Hone. rewrite Es in HI, Hone.
  assert (∀ hook w1, ended U B fin w w1 → (∀ a, hook = Some a → ag_running a = false) →
    wp (match hook with
        | Some hook => when (ag_running hook) (childTerminated (ag_pid hook) true);; do_call (StopAgent hook)
        | None => mret ()
        end;; mret (dgoal_pid (λ _, None) (dgoal_hook (λ _, None) d)))
      (λ _, ended U B fin w) (λ e w', no_fault e w' ∧ ended U B fin w w') w1) as Hrest.
  { intros [a|] w1 He Ha; apply wp_bind; [|by apply wp_ret]. rewrite (Ha a eq_refl). cbn [when].
    apply wp_bind, wp_ret, wp_call_full; [intros [] st _; apply wp_ret; by eapply ended_same|].
    intros e st He'. split; [by eapply exception_no_fault, handle_exception|by eapply ended_same]. }
  destruct (dg_pid d) as [pid|]; simpl in HI, Hone.
  - assert (∀ a, dg_hook d = Some a → ag_running a = false) as Hh.
    { intros a Ea. rewrite Ea in Hone. destruct (ag_running a); simpl in Hone; [lia|done]. }
    assert (Inv U B fin [pid] [] w) as HI'.
    { revert HI. destruct (dg_hook d) as [a|]; [rewrite (Hh a eq_refl)|]; exact id. }
    apply wp_bind, wp_bind. eapply wp_childTerminated; [exact HI'|apply not_elem_of_nil|]. intros w1 HI1 Hsg1 _.
    assert (ended U B fin w w1) as He1 by done.
    apply wp_call_full; [intros [] st _; apply Hrest; [by eapply ended_same|done]|].
    intros e st He; split; [by eapply exception_no_fault, handle_exception|by eapply ended_same].
  - apply wp_bind, wp_ret. destruct (dg_hook d) as [a|] eqn:Eh; [destruct (ag_running a) eqn:Ea|]; simpl in HI.
    + apply wp_bind, wp_bind. cbn [when].
      eapply wp_childTerminated; [exact HI|apply not_elem_of_nil|]. intros w1 HI1 Hsg1 _.
      assert (ended U B fin w w1) as He1 by done.
      apply wp_call_full; [intros [] st _; apply wp_ret; by eapply ended_same|].
      intros e st He. split; [by eapply exception_no_fault, handle_exception|by eapply ended_same].
    + assert (wp _ _ _ w) as Hr by (apply (Hrest (Some a) w); [done|by intros ? [= <-]]).
      rewrite Ea in Hr. exact Hr.
    + by apply (Hrest None w).
Qed.

Lemma wp_destructor U B fin w p g Q :
  Inv U B fin (goal_procs g) [] w → length (goal_procs g) <= 1 →
  (∀ w', ended U B fin w w' → Q () w') → wp (destructor p g) Q no_fault w.
Proof.
  intros HI Hone HQ. unfold destructor. destruct (g_self g) as [d|s] eqn:Es.
  - apply wp_bind, wp_ignoring, wp_bind.
    eapply wp_mono; [by eapply wp_killChild| |].
    + intros ? w1 He1. apply wp_ret.
      apply wp_bind, wp_ignoring_call. intros w2 H2. apply wp_bind, wp_ignoring_call. intros w3 H3.
      apply wp_ignoring_unlock. intros w4 H4. apply HQ. eapply ended_same; [|exact H4].
      eapply ended_same; [|exact H3]. eapply ended_same; [exact He1|exact H2].
    + intros e w1 [He He1]. split; [done|].
      apply wp_bind, wp_ignoring_call. intros w2 H2. apply wp_bind, wp_ignoring_call. intros w3 H3.
      apply wp_ignoring_unlock. intros w4 H4. apply HQ. eapply ended_same; [|exact H4].
      eapply ended_same; [|exact H3]. eapply ended_same; [exact He1|exact H2].
  - unfold goal_procs in HI. rewrite Es in HI. destruct (sg_substituter s) as [a|].
    + apply wp_bind, wp_bind. eapply wp_childTerminated; [exact HI|apply not_elem_of_nil|].
      intros w1 HI1 Hsg1 _. apply wp_ignoring_call. intros w2 H2. apply wp_ignoring_unlock. intros w3 H3.
      apply HQ. eapply ended_same; [|exact H3]. eapply ended_same; [by split; [exact HI1|exact Hsg1]|exact H2].
    + apply wp_bind, wp_ret, wp_ignoring_unlock. intros w3 H3. apply HQ. eapply ended_same; [|exact H3]. by split; [exact HI|].
Qed.

Lemma referenced_false w p :
  referenced w p = false ↔
  p ∉ w_topGoals w ∧ p ∉ w_held w ∧ ∀ q g, w_heap w !! q = Some g → p ∉ g_waitees g.
Proof.
  unfold referenced. rewrite !orb_false_iff, !bool_decide_eq_false.
  assert (existsb (λ '(_, g), bool_decide (p ∈ g_waitees g)) (map_to_list (w_heap w)) = false ↔
    ∀ q g, w_heap w !! q = Some g → p ∉ g_waitees g) as ->; [|tauto].
  rewrite <-not_true_iff_false, existsb_exists. split.
  - intros Hn q g Hq Hp. apply Hn. exists (q, g). split; [by apply list_elem_of_In, elem_of_map_to_list|].
    by apply bool_decide_eq_true.
  - intros Hn ([q g] & Hq%list_elem_of_In%elem_of_map_to_list & Hp%bool_decide_eq_true). by apply (Hn q g Hq).
Qed.

Lemma Inv_remove U B fin w p g :
  Inv U B fin [] [] w → w_heap w !! p = Some g → referenced w p = false →
  Inv U B fin (goal_procs g) [] (on_heap (delete p) w).
Proof.
  intros [Hl Ho Hs Hc Hco Hh Hpe Hal] Hp (Ht & Hheld & Hw)%referenced_false.
  assert (∀ q h, delete p (w_heap w) !! q = Some h → q ≠ p ∧ w_heap w !! q = Some h) as Hd.
  { intros q h [? ?]%lookup_delete_Some. done. }
  assert (∀ q h, w_heap w !! q = Some h → q ≠ p → delete p (w_heap w) !! q = Some h) as Hd'.
  { intros q h Hq Hne. by rewrite lookup_delete_ne. }
  constructor; cbn.
  - destruct Hl as [H1 H2 H3 H4 H5]. constructor.
    + intros q h x [Hne Hq]%Hd Hx. destruct (H1 q h x Hq Hx) as (y & Hy & ? & ?). exists y.
      split_and!; [|done|done]. apply Hd'; [done|]. intros ->. by apply (Hw q h Hq).
    + intros q h x y [_ Hq]%Hd Hx [_ Hy]%Hd. by apply (H2 q h x y).
    + intros q h [_ Hq]%Hd. by apply (H3 q).
    + intros q h [_ Hq]%Hd. by apply H4.
    + intros q h [_ Hq]%Hd. by apply (H5 q).
  - destruct Ho as [H1 H2 H3 H4 H5 H6 H7 H8 H9]. constructor; cbn; try done.
    + intros q h [_ Hq]%Hd. by apply H1.
    + intros q [h [_ Hq]%Hd]. apply H2. eauto.
    + intros q h x [_ Hq]%Hd. by apply (H3 q).
    + intros q h [_ Hq]%Hd. by apply H5.
    + intros cls path q h Hm [_ Hq]%Hd. by apply H6.
    + intros q Hq. destruct (H7 q Hq) as (h & ? & ?). exists h. split; [|done]. apply Hd'; [done|]. by intros ->.
  - destruct Hs as [H1 H2 H3 H4 H5]. constructor; cbn; try done.
    + intros q h Hq [_ Hh']%Hd. by apply H2.
    + intros q h Hq [_ Hh']%Hd. by apply (H3 q).
    + intros q h [_ Hq]%Hd. by apply (H4 q).
  - destruct Hc as [H1 H2 H3 H4 H5 H6 H7 H8 H9 H10]. constructor; cbn; try done.
    + intros pid c Hpid Hn. destruct (H1 pid c Hpid) as (h & Hq & Hin); [apply not_elem_of_nil|].
      exists h. split; [|done]. apply Hd'; [done|]. intros E. rewrite E, Hp in Hq. by injection Hq as <-.
    + intros q h pid [Hne Hq]%Hd Hin _. destruct (H2 q h pid Hq Hin) as (Hp1 & _ & c & Hcc & Hcg);
        [apply not_elem_of_nil|]. split_and!; [done| |eauto]. intros Hin'.
      destruct (H2 p g pid Hp Hin') as (_ & _ & c' & Hcc' & Hcg'); [apply not_elem_of_nil|]. naive_solver.
    + intros pid Hin. destruct (H2 p g pid Hp Hin) as (Hp1 & _ & c' & Hcc' & Hcg'); [apply not_elem_of_nil|].
      split; [done|eauto].
    + intros pid q h x y Hn. by apply elem_of_nil in Hn.
  - intros q h [_ Hq]%Hd. by apply Hco.
  - done.
  - intros q HU HB. destruct (Hpe q HU HB) as (h & ? & ?). exists h. split; [|done]. apply Hd'; [done|].
    intros ->. apply Hheld, Hh. by left.
  - intros q Hq. destruct (Hal q Hq) as [h Hq']. exists h. apply Hd'; [done|]. by intros ->.
Qed.

(** The worker after objects have been destroyed. *)
Record shrunk (w w' : Worker W) : Prop := {
  sh_serial : w_serial w' = w_serial w;
  sh_held : w_held w' = w_held w;
  sh_top : w_topGoals w' = w_topGoals w;
  sh_map cls : goal_map w' cls = goal_map w cls;
  sh_heap : w_heap w' ⊆ w_heap w;
  sh_kept q : q ∈ w_held w → w_heap w' !! q = w_heap w !! q
}.

#[export] Instance shrunk_refl : Reflexive shrunk.
Proof. done. Qed.

Lemma wp_reclaim_loop U B fin n w Q :
  Inv U B fin [] [] w → (∀ w', Inv U B fin [] [] w' → shrunk w w' → Q () w') →
  wp (reclaim_loop n) Q no_fault w.
Proof.
  revert w Q. induction n as [|n IH]; intros w Q HI HQ; unfold wp; cbn [reclaim_loop];
    destruct (garbage w) as [|p l] eqn:Eg; [by apply HQ|done|by apply HQ|].
  destruct (w_heap w !! p) as [g|] eqn:Hp; [|done].
  assert (p ∈ garbage w) as Hg by (rewrite Eg; by left).
  unfold garbage in Hg. apply list_elem_of_filter in Hg as [Hr _].
  change (wp (modify (on_heap (delete p));; destructor p g;; reclaim_loop n) Q no_fault w).
  apply wp_bind, wp_modify, wp_bind.
  pose proof (Inv_remove U B fin w p g HI Hp Hr) as HI1. apply referenced_false in Hr as (_ & Hheld & _).
  eapply wp_destructor; [exact HI1| |].
  { apply (co_one g), (inv_coherent _ _ _ _ _ _ HI p); [done|].
    intros HB. apply Hheld, (inv_held _ _ _ _ _ _ HI). by right. }
  intros w2 [HI2 Hsg]. apply IH; [done|]. intros w3 HI3 Hsh. apply HQ; [done|].
  destruct Hsg as [E1 E2 E3 E4 E5], Hsh as [S1 S2 S3 S4 S5 S6]. cbn in *.
  constructor; [congruence..|intros cls; rewrite S4; apply E5| |].
  - etrans; [exact S5|]. rewrite E1. apply delete_subseteq.
  - intros q Hq. rewrite S6 by (by rewrite E3). rewrite E1. apply lookup_delete_ne. by intros ->.
Qed.

Lemma wp_reclaim U B fin w Q :
  Inv U B fin [] [] w → (∀ w', Inv U B fin [] [] w' → shrunk w w' → Q () w') → wp reclaim Q no_fault w.
Proof. apply wp_reclaim_loop. Qed.
End ending.
