(* ===== verification/GoalLinks.v ===== *)
(** Waiting for goals, ending and making them: the invariant of the worker is
    kept, and the assertions on the way hold. *)

From S2P Require Import Prelude StateMonad Containers Hash Paths StorePaths Derivations LocalDB GoalState Goals BuildGoals GoalInvariants.

Section waiting.
Context {W : Type} {gc : Gcrypt} {settings : Settings} {handler : Handler W} {laws : HandlerLaws handler}.
Implicit Types w : Worker W.

(** * Changes of objects *)

(** The worker with other objects. *)
Definition with_heap (H : gmap GoalPtr Goal) w : Worker W := on_heap (λ _, H) w.

Lemma on_heap_with f w : on_heap f w = with_heap (f (w_heap w)) w.
Proof. done. Qed.

(** A change of [waitees] and [waiters] only. *)
Lemma Inv_relink U U' B fin fin' D X w H' (F : GoalPtr → Goal → Goal) :
  Inv U B fin D X w → (∀ x, H' !! x = F x <$> w_heap w !! x) →
  (∀ x g, g_self (F x g) = g_self g ∧ g_exitCode (F x g) = g_exitCode g) →
  links fin' H' → (∀ x, is_fin fin x ↔ is_fin fin' x) →
  (∀ x g, w_heap w !! x = Some g → x ∉ B → g_waitees g = [] → g_waitees (F x g) = []) →
  (∀ x g p, w_heap w !! x = Some g → p ∈ g_waiters (F x g) → p ∈ g_waiters g ∨ gp_serial p < w_serial w) →
  (∀ p g, w_heap w !! p = Some g → p ∈ queues w → p ∉ U' ∧ g_waitees (F p g) = []) →
  (∀ p g, w_heap w !! p = Some g → busy g → p ∉ U' → w_topGoals w ≠ [] →
     p ∈ queues w ∨ g_waitees (F p g) ≠ [] ∨ goal_procs g ≠ []) →
  (∀ p, p ∈ U' → p ∈ w_held w) →
  (∀ p, p ∈ U' → p ∉ B → ∃ g, w_heap w !! p = Some g ∧ busy g ∧ g_waitees (F p g) = []) →
  Inv U' B fin' D X (with_heap H' w).
Proof.
  intros [Hl Ho Hs Hc Hco Hh Hpe Hal] HF Hsame Hl' Hfin Hfree Hwt Hrest Hsched Hheld Hpend.
  assert (∀ x y, H' !! x = Some y → ∃ g, w_heap w !! x = Some g ∧ y = F x g) as Hinv.
  { intros x y. rewrite HF, fmap_Some. naive_solver. }
  assert (∀ x g, busy (F x g) ↔ busy g) as Hb by (intros x g; unfold busy; by rewrite (proj2 (Hsame x g))).
  assert (∀ x g, goal_procs (F x g) = goal_procs g ∧ goal_class (F x g) = goal_class g) as Hp.
  { intros x g. unfold goal_procs, goal_class. by rewrite (proj1 (Hsame x g)). }
  assert (∀ x g, w_heap w !! x = Some g → x ∉ B → coherent g → coherent (F x g)) as Hcoh.
  { intros x g Hx HB []. constructor; [..|rewrite (proj1 (Hp x g)); intros ?; apply Hfree; by auto]; rewrite ?Hb, ?(proj1 (Hp x g)); unfold goal_building, goal_locks, retry_ok;
      rewrite ?(proj1 (Hsame x g)); done. }
  assert (∀ x g, unfinished fin' x (F x g) ↔ unfinished fin x g) as Hu.
  { intros x g. unfold unfinished. by rewrite Hb, Hfin. }
  constructor; cbn; [done| | | |intros p y (g & Hg & ->)%Hinv HB; by apply Hcoh; [| |apply (Hco p)]| | |intros p Hp'; rewrite HF; by apply fmap_is_Some, Hal].
  - destruct Ho as [H1 H2 H3 H4 H5 H6 H7 H8 H9]. constructor; cbn; try done.
    + intros p y (g & Hg & ->)%Hinv. rewrite (proj2 (Hp p g)). by apply H1.
    + intros p [y (g & Hg & ->)%Hinv]. apply H2. eauto.
    + intros q y p (h & Hq & ->)%Hinv Hp'. destruct (Hwt q h p Hq Hp') as [?|?]; [by eapply H3|done].
    + intros p y (g & Hg & ->)%Hinv Hun%Hu. by apply (H5 p g).
    + intros cls path p y Hm (g & Hg & ->)%Hinv. rewrite Hu. by apply H6.
    + intros p Hp'. destruct (H7 p Hp') as (g & Hg & Hun). exists (F p g). by rewrite HF, Hg, Hu.
  - destruct Hs as [H1 H2 H3 H4 H5]. constructor; cbn; try done.
    + intros p y Hq (g & Hg & ->)%Hinv. rewrite Hb. destruct (Hrest p g Hg Hq). destruct (H2 p g Hq Hg). tauto.
    + intros p y Hq (g & Hg & ->)%Hinv. rewrite (proj1 (Hp p g)). by apply (H3 p).
    + intros p y (g & Hg & ->)%Hinv. rewrite Hb, (proj1 (Hp p g)). by apply Hsched.
  - destruct Hc as [H1 H2 H3 H4 H5 H6 H7 H8 H9 H10]. constructor; cbn; try done.
    + intros pid c Hpid Hn. destruct (H1 pid c Hpid Hn) as (g & Hg & Hin). exists (F (c_goal c) g).
      by rewrite HF, Hg, (proj1 (Hp _ g)).
    + intros p y pid (g & Hg & ->)%Hinv. rewrite (proj1 (Hp p g)). by apply H2.
    + intros pid p y q z HX (g & Hg & ->)%Hinv (h & Hh' & ->)%Hinv. rewrite (proj1 (Hp p g)), (proj1 (Hp q h)). by apply H9.
  - intros p [HU|HB]; [by apply Hheld|apply Hh; by right].
  - intros p HU HB. destruct (Hpend p HU HB) as (g & Hg & ? & ?). exists (F p g). by rewrite HF, Hg, Hb.
Qed.

(** A change of the members of the goal's own class. *)
Definition own_change (f : Goal → Goal) (g : Goal) : Prop :=
  g_waitees (f g) = g_waitees g ∧ g_waiters (f g) = g_waiters g ∧ g_exitCode (f g) = g_exitCode g ∧
  goal_class (f g) = goal_class g.

Lemma links_ext fin H H' :
  links fin H →
  (∀ x, (λ g, (g_waitees g, g_waiters g, g_exitCode g)) <$> H' !! x
      = (λ g, (g_waitees g, g_waiters g, g_exitCode g)) <$> H !! x) → links fin H'.
Proof.
  intros [H1 H2 H3 H4 H5] HE.
  assert (∀ x y, H' !! x = Some y → ∃ g, H !! x = Some g ∧ g_waitees y = g_waitees g ∧
    g_waiters y = g_waiters g ∧ g_exitCode y = g_exitCode g) as Hinv.
  { intros x y Hy. specialize (HE x). rewrite Hy in HE. symmetry in HE. apply fmap_Some in HE as (g & Hg & [= -> -> ->]). eauto. }
  assert (∀ x g, H !! x = Some g → ∃ y, H' !! x = Some y ∧ g_waitees y = g_waitees g ∧
    g_waiters y = g_waiters g ∧ g_exitCode y = g_exitCode g) as Hinv'.
  { intros x g Hg. specialize (HE x). rewrite Hg in HE. apply fmap_Some in HE as (y & Hy & [= -> -> ->]). eauto. }
  assert (∀ x y g, g_waiters y = g_waiters g → waiting_on fin x y = waiting_on fin x g) as Hon.
  { intros x y g E. unfold waiting_on. by rewrite E. }
  constructor.
  - intros p y q (g & Hg & Ew & Ewt & Ex)%Hinv. rewrite Ew. intros Hq.
    destruct (H1 p g q Hg Hq) as (h & Hh & Hin & Hun). destruct (Hinv' q h Hh) as (z & Hz & Ez1 & Ez2 & Ez3).
    exists z. split; [done|]. rewrite (Hon q z h Ez2). split; [done|]. unfold unfinished, busy in *. by rewrite Ez3.
  - intros q y p z (h & Hh & Ew & Ewt & Ex)%Hinv. rewrite (Hon q y h Ewt). intros Hin (g & Hg & Ew' & _)%Hinv.
    rewrite Ew'. by eapply H2.
  - intros p y (g & Hg & -> & _)%Hinv. by apply (H3 p).
  - intros q y (h & Hh & _ & Ewt & _)%Hinv. rewrite (Hon q y h Ewt). by apply H4.
  - intros p y (g & Hg & -> & _ & Ex)%Hinv. unfold busy. rewrite Ex. by apply (H5 p).
Qed.

Lemma Inv_own_gen U B fin D D' X X' w p f :
  Inv U B fin D X w → (∀ g, w_heap w !! p = Some g → own_change f g ∧ (p ∈ B ∨ coherent (f g)) ∧
    (goal_procs (f g) = goal_procs g ∨ p ∈ U)) →
  children_ok D' X' (on_heap (alter f p) w) → Inv U B fin D' X' (on_heap (alter f p) w).
Proof.
  intros [Hl Ho Hs Hc Hco Hh Hpe Hal] Hf Hc'.
  assert (∀ x y, alter f p (w_heap w) !! x = Some y → ∃ g, w_heap w !! x = Some g ∧ own_change (λ _, y) g ∧
    (x = p ∧ y = f g ∨ x ≠ p ∧ y = g)) as Hinv.
  { intros x y [(-> & g & Hg & ->)|[Hne Hy]]%lookup_alter_Some.
    - exists g. destruct (Hf g Hg) as [Hoc _]. split; [done|]. split; [exact Hoc|]. by left.
    - exists y. split; [done|]. split; [done|]. by right. }
  assert (∀ x g, w_heap w !! x = Some g → ∃ y, alter f p (w_heap w) !! x = Some y ∧ own_change (λ _, y) g) as Hinv'.
  { intros x g Hg. destruct (decide (x = p)) as [->|Hne].
    - exists (f g). rewrite lookup_alter_eq, Hg. split; [done|]. by destruct (Hf g Hg) as [? _].
    - exists g. by rewrite lookup_alter_ne. }
  constructor; cbn; [| | |done| |done| |].
  - eapply links_ext; [exact Hl|]. intros x. destruct (w_heap w !! x) as [g|] eqn:Hg.
    + destruct (Hinv' x g Hg) as (y & -> & E1 & E2 & E3 & _). simpl. by rewrite E1, E2, E3.
    + destruct (alter f p (w_heap w) !! x) as [y|] eqn:Hy; [|done]. destruct (Hinv x y Hy) as (g & Hg' & _). congruence.
  - destruct Ho as [H1 H2 H3 H4 H5 H6 H7 H8 H9].
    assert (∀ x y g, own_change (λ _, y) g → unfinished fin x y ↔ unfinished fin x g) as Hu.
    { intros x y g (_ & _ & E & _). unfold unfinished, busy. by rewrite E. }
    constructor; cbn; try done.
    + intros x y (g & Hg & (_ & _ & _ & ->) & _)%Hinv. by apply H1.
    + intros x [y (g & Hg & _)%Hinv]. apply H2. eauto.
    + intros x y q (g & Hg & (_ & -> & _) & _)%Hinv. by eapply H3.
    + intros x y (g & Hg & Hoc & _)%Hinv. rewrite (Hu x y g Hoc). by apply H5.
    + intros cls path x y Hm (g & Hg & Hoc & _)%Hinv. rewrite (Hu x y g Hoc). by apply H6.
    + intros x Hx. destruct (H7 x Hx) as (g & Hg & Hun). destruct (Hinv' x g Hg) as (y & Hy & Hoc).
      exists y. by rewrite (Hu x y g Hoc).
  - destruct Hs as [H1 H2 H3 H4 H5]. constructor; cbn; try done.
    + intros x y Hq (g & Hg & (E1 & _ & E3 & _) & _)%Hinv. unfold busy. rewrite E1, E3. by apply H2.
    + intros x y Hq (g & Hg & _ & Hxy)%Hinv. destruct Hxy as [[-> ->]|[Hne ->]]; [|by apply (H3 x)].
      destruct (Hf g Hg) as (_ & _ & [->|HU]); [by apply (H3 p)|].
      assert (p ∈ queues w) as Hq' by (unfold queues, sleepers in *; set_solver).
      by destruct (H2 p g Hq' Hg).
    + intros x y (g & Hg & (E1 & _ & E3 & _) & Hxy)%Hinv. unfold busy. rewrite E1, E3. intros Hb HU.
      destruct Hxy as [[-> ->]|[Hne ->]]; [|by apply (H4 x)]. destruct (Hf g Hg) as (_ & _ & [->|HU']); [by apply (H4 p)|done].
  - intros x y (g & Hg & _ & Hxy)%Hinv HB. destruct Hxy as [[-> ->]|[Hne ->]]; [|by apply (Hco x)].
    by destruct (Hf g Hg) as (_ & [?|?] & _).
  - intros x HU HB. destruct (Hpe x HU HB) as (g & Hg & Hb & Hw). destruct (Hinv' x g Hg) as (y & Hy & E1 & _ & E3 & _).
    exists y. unfold busy. by rewrite E1, E3.
  - intros x [g Hg]%Hal. destruct (Hinv' x g Hg) as (y & Hy & _). eauto.
Qed.

Lemma Inv_own U B fin D X w p f :
  Inv U B fin D X w → (∀ g, w_heap w !! p = Some g → own_change f g ∧ (p ∈ B ∨ coherent (f g)) ∧
    goal_procs (f g) = goal_procs g) → Inv U B fin D X (on_heap (alter f p) w).
Proof.
  intros HI Hf. eapply Inv_own_gen; [exact HI| |].
  { intros g Hg. destruct (Hf g Hg) as (? & ? & ?). split_and!; [done|done|by left]. }
  destruct (inv_children _ _ _ _ _ _ HI) as [H1 H2 H3 H4 H5 H6 H7 H8 H9]. constructor; cbn; try done.
  - intros pid c Hc Hn. destruct (H1 pid c Hc Hn) as (g & Hg & Hin). destruct (decide (c_goal c = p)) as [E|E].
    + exists (f g). rewrite E in *. rewrite lookup_alter_eq, Hg. split; [done|]. by rewrite (proj2 (proj2 (Hf g Hg))).
    + exists g. by rewrite lookup_alter_ne.
  - intros x y pid [(-> & g & Hg & ->)|[Hne Hy]]%lookup_alter_Some; [|by apply H2].
    rewrite (proj2 (proj2 (Hf g Hg))). by apply H2.
  - assert (∀ x y, alter f p (w_heap w) !! x = Some y → ∃ g, w_heap w !! x = Some g ∧ goal_procs y = goal_procs g) as Hinv.
    { intros x y [(-> & g & Hg & ->)|[Hne Hy]]%lookup_alter_Some; [|eauto]. exists g. split; [done|apply (Hf g Hg)]. }
    intros pid x y x' y' HX (g & Hg & ->)%Hinv (h & Hh & ->)%Hinv. by apply H9.
Qed.

(** * Adding a waitee *)

Lemma goal_key_throw p e w : goal_key p = Throw e → no_fault e w.
Proof.
  unfold goal_key, storePathToName, assertStorePath, check, substr.
  destruct (isStorePath _ _); simpl; [|by intros [= <-]]. case_decide; simpl; [done|by intros [= <-]].
Qed.

Lemma compare_goals_throw p q e w : compare_goals p q = Throw e → no_fault e w.
Proof.
  unfold compare_goals. destruct (goal_key p) as [k|e'|] eqn:Ep; simpl; [|intros [= <-]; by eapply goal_key_throw|done].
  destruct (goal_key q) as [l|e'|] eqn:Eq; simpl; [done|intros [= <-]; by eapply goal_key_throw|done].
Qed.

Lemma goals_insert_throw p s e w : goals_insert p s = Throw e → no_fault e w.
Proof.
  revert e. induction s as [|x s IH]; intros e; cbn [goals_insert]; [done|].
  destruct (compare_goals p x) as [[]|e'|] eqn:Ec; simpl; try done; [|intros [= <-]; by eapply compare_goals_throw].
  destruct (goals_insert p s) as [s'|e'|]; simpl; try done. intros [= <-]. by apply IH.
Qed.

Lemma goals_find_throw p s e w : goals_find p s = Throw e → no_fault e w.
Proof.
  induction s as [|x s IH]; cbn [goals_find]; [done|].
  destruct (compare_goals p x) as [[]|e'|] eqn:Ec; simpl; try done. intros [= <-]. by eapply compare_goals_throw.
Qed.

Lemma goals_erase_throw p s e w : goals_erase p s = Throw e → no_fault e w.
Proof.
  revert e. induction s as [|x s IH]; intros e; cbn [goals_erase]; [done|].
  destruct (compare_goals p x) as [[]|e'|] eqn:Ec; simpl; try done; [..|intros [= <-]; by eapply compare_goals_throw].
  all: destruct (goals_erase p s) as [s'|e'|]; simpl; try done; intros [= <-]; by apply IH.
Qed.

Lemma Inv_unique U B fin D X w p q g h :
  Inv U B fin D X w → w_heap w !! p = Some g → unfinished fin p g → w_heap w !! q = Some h → unfinished fin q h →
  same_goal p q → p = q.
Proof.
  intros HI Hp Hpu Hq Hqu [Ec Ep]. pose proof (inv_objects _ _ _ _ _ _ HI) as Ho.
  pose proof (ob_registered _ _ Ho p g Hp Hpu) as E1. pose proof (ob_registered _ _ Ho q h Hq Hqu) as E2.
  rewrite Ec, Ep, E2 in E1. by injection E1.
Qed.

Lemma wp_get_goal p g w (Q : Goal → Worker W → Prop) E : w_heap w !! p = Some g → Q g w → wp (get_goal p) Q E w.
Proof. intros Hp HQ. unfold wp, get_goal. by rewrite Hp. Qed.

Lemma alter_fmap {A} (f : A → A) i (m : gmap GoalPtr A) x :
  alter f i m !! x = (if decide (x = i) then f else id) <$> m !! x.
Proof.
  destruct (decide (x = i)) as [->|Hne]; [by rewrite lookup_alter_eq|].
  rewrite lookup_alter_ne by done. by destruct (m !! x).
Qed.

Lemma elem_addToWeakGoals p q l : q ∈ addToWeakGoals p l ↔ q = p ∨ q ∈ l.
Proof. unfold addToWeakGoals. case_decide; [naive_solver|]. rewrite elem_of_app, list_elem_of_singleton. tauto. Qed.

Lemma NoDup_addToWeakGoals p l : NoDup l → NoDup (addToWeakGoals p l).
Proof.
  intros Hl. unfold addToWeakGoals. case_decide; [done|]. apply NoDup_app. split_and!; [done| |].
  - intros x Hx. rewrite list_elem_of_singleton. by intros ->.
  - apply NoDup_singleton.
Qed.

(** The change of the heap. *)
Definition link (this q : GoalPtr) (ws : list GoalPtr) (x : GoalPtr) (g : Goal) : Goal :=
  (if decide (x = q) then goal_waiters (addToWeakGoals this) else id)
    ((if decide (x = this) then goal_waitees (λ _, ws) else id) g).

Lemma links_added U B D X w this q g h ws H' :
  Inv U B None D X w → w_heap w !! this = Some g → busy g → w_heap w !! q = Some h → busy h →
  goals_insert q (g_waitees g) = Ret ws → (∀ x, H' !! x = link this q ws x <$> w_heap w !! x) →
  links None H' ∧ ∀ x, x ∈ ws ↔ x = q ∨ x ∈ g_waitees g.
Proof.
  intros HI Hg Hbg Hh Hbh Hins HF. destruct (inv_links _ _ _ _ _ _ HI) as [H1 H2 H3 H4 H5].
  destruct (goals_insert_spec _ _ _ Hins) as [Hws Hin]; [by eapply H3| |].
  { intros x Hx Hs. destruct (H1 this g x Hg Hx) as (y & Hy & _ & Hun). symmetry.
    eapply Inv_unique; [exact HI|exact Hh|by left|exact Hy|exact Hun|done]. }
  split; [|done].
  assert (∀ x y, H' !! x = Some y → ∃ g0, w_heap w !! x = Some g0 ∧ y = link this q ws x g0) as Hinv.
  { intros x y. rewrite HF, fmap_Some. naive_solver. }
  assert (∀ x g0, g_waitees (link this q ws x g0) = if decide (x = this) then ws else g_waitees g0) as Hwt.
  { intros x g0. unfold link. by repeat case_decide. }
  assert (∀ x g0, g_waiters (link this q ws x g0) =
    if decide (x = q) then addToWeakGoals this (g_waiters g0) else g_waiters g0) as Hwr.
  { intros x g0. unfold link. by repeat case_decide. }
  assert (∀ x g0, busy (link this q ws x g0) ↔ busy g0) as Hb.
  { intros x g0. unfold link. by repeat case_decide. }
  assert (∀ x y, w_heap w !! x = Some y → busy y → x ∈ ws → this ∈ g_waiters (link this q ws x y)) as Hws'.
  { intros x y Hy _ [->|Hx]%Hin; rewrite Hwr.
    - rewrite decide_True by done. apply elem_addToWeakGoals. by left.
    - destruct (H1 this g x Hg Hx) as (y' & Hy' & Hw & _). simplify_eq. case_decide; [apply elem_addToWeakGoals; by right|done]. }
  constructor.
  - intros p y x (g0 & Hp & ->)%Hinv. rewrite Hwt. case_decide as Epth.
    + subst p. simplify_eq. intros Hx. assert (∃ z, w_heap w !! x = Some z ∧ busy z) as (z & Hz & Hbz).
      { apply Hin in Hx as [->|Hx]; [eauto|]. destruct (H1 this g x Hg Hx) as (z & ? & _ & [?|[]]). eauto. }
      exists (link this q ws x z). rewrite HF, Hz. split_and!; [done|by apply Hws'|left; by apply Hb].
    + intros Hx. destruct (H1 p g0 x Hp Hx) as (z & Hz & Hpw & Hun). exists (link this q ws x z).
      rewrite HF, Hz. split_and!; [done| |destruct Hun as [?|[]]; left; by apply Hb].
      change (p ∈ g_waiters (link this q ws x z)). rewrite Hwr. case_decide; [apply elem_addToWeakGoals; by right|done].
  - intros x y p z (g0 & Hx & ->)%Hinv Hpw (z0 & Hz & ->)%Hinv. rewrite Hwt.
    change (p ∈ g_waiters (link this q ws x g0)) in Hpw. rewrite Hwr in Hpw.
    assert (p = this ∧ x = q ∨ p ∈ g_waiters g0) as [[-> ->]|Hpw'].
    { case_decide; [apply elem_addToWeakGoals in Hpw; naive_solver|by right]. }
    + rewrite decide_True by done. apply Hin. by left.
    + pose proof (H2 x g0 p z0 Hx Hpw' Hz). clear Hpw. case_decide; [|done]. subst p. simplify_eq. apply Hin. by right.
  - intros p y (g0 & Hp & ->)%Hinv. rewrite Hwt. case_decide; [done|by eapply H3].
  - intros x y (g0 & Hx & ->)%Hinv. change (NoDup (g_waiters (link this q ws x g0))). rewrite Hwr.
    pose proof (H4 x g0 Hx). case_decide; [by apply NoDup_addToWeakGoals|done].
  - intros p y (g0 & Hp & ->)%Hinv. rewrite Hwt, Hb. intros Hnb. case_decide; [subst p; by simplify_eq|by eapply H5].
Qed.

(** The state function of [this] is under way; [hs] are the local variables, [V]
    the goals that are not at rest, [X] a process that is being started. *)
Definition running (hs V : list GoalPtr) (X : list Z) (this : GoalPtr) (we : list GoalPtr → Prop)
    (ψ : GoalSelf → Prop) (w : Worker W) : Prop :=
  Inv V [this] None [] X w ∧ w_held w = hs ∧
  ∃ g, w_heap w !! this = Some g ∧ busy g ∧ we (g_waitees g) ∧ ψ (g_self g).

(** [p] is a goal that has not ended. *)
Definition busy_goal (w : Worker W) (p : GoalPtr) : Prop := ∃ g, w_heap w !! p = Some g ∧ busy g.

Lemma wp_addWaitee hs U this we ψ q w (Q : () → Worker W → Prop) :
  running hs (this :: U) [] this we ψ w → busy_goal w q →
  (∀ w', running hs (this :: U) [] this (.≠ []) ψ w' → Q () w') → wp (addWaitee this q) Q no_fault w.
Proof.
  intros (HI & Hhs & g & Hg & Hb & Hwe & Hψ) (h & Hh & Hbh) HQ. unfold addWaitee.
  apply wp_bind. eapply wp_get_goal; [exact Hg|]. apply wp_bind, wp_lift; [|intros e He; by eapply goals_insert_throw].
  intros ws Hws. apply wp_bind, wp_modify, wp_modify. apply HQ.
  set (H' := alter (goal_waiters (addToWeakGoals this)) q (alter (goal_waitees (λ _, ws)) this (w_heap w))).
  change (running hs (this :: U) [] this (.≠ []) ψ (with_heap H' w)).
  assert (∀ x, H' !! x = link this q ws x <$> w_heap w !! x) as HF.
  { intros x. unfold H'. rewrite !alter_fmap, <-option_fmap_compose. done. }
  destruct (links_added _ _ _ _ _ _ _ _ _ _ H' HI Hg Hb Hh Hbh Hws HF) as [Hl Hin].
  assert (∀ x g0, x ≠ this → g_waitees (link this q ws x g0) = g_waitees g0) as Hother.
  { intros x g0 Hne. unfold link. rewrite (decide_False (P := x = this)) by done. by case_decide. }
  split_and!; [|done|].
  - eapply Inv_relink; [exact HI|exact HF| |exact Hl|done| | | | | |].
    + intros x g0. unfold link. by repeat case_decide.
    + intros x g0 Hx HB Hw0. rewrite Hother; [done|]. intros ->. apply HB. by left.
    + intros x g0 p Hx Hp. unfold link in Hp. destruct (decide (x = q)), (decide (x = this)); cbn in Hp; try (by left).
      all: apply elem_addToWeakGoals in Hp as [->|?]; [|by left].
      all: right; apply (ob_fresh _ _ (inv_objects _ _ _ _ _ _ HI)); eauto.
    + intros p g0 Hp Hq. destruct (sc_rest _ _ (inv_scheduled _ _ _ _ _ _ HI) p g0 Hq Hp) as (Hn & _ & Hw0).
      split; [done|]. rewrite Hother; [done|]. intros ->. apply Hn. by left.
    + intros p g0 Hp Hbp Hn Htop. rewrite Hother; [by apply (sc_sched _ _ (inv_scheduled _ _ _ _ _ _ HI))|].
      intros ->. apply Hn. by left.
    + intros p Hp. apply (inv_held _ _ _ _ _ _ HI). by left.
    + intros p Hp HnB. destruct (inv_pending _ _ _ _ _ _ HI p Hp HnB) as (g0 & Hp0 & ? & Hw0). exists g0.
      rewrite Hother; [done|]. intros ->. apply HnB. by left.
  - exists (link this q ws this g). cbn. rewrite HF, Hg. split_and!; [done|..].
    + unfold link. by repeat case_decide.
    + assert (g_waitees (link this q ws this g) = ws) as ->.
      { unfold link. rewrite (decide_True (P := this = this)) by done. by case_decide. }
      intros ->. assert (q ∈ []) as Hq by (apply Hin; by left). by apply elem_of_nil in Hq.
    + unfold link. by repeat case_decide.
Qed.

(** * Telling a waiter *)

(** [i] keeps the waitees [ws]; the goals in [dropped] forget it. *)
Definition told (i : GoalPtr) (ws dropped : list GoalPtr) (f : Goal → Goal) (x : GoalPtr) (g : Goal) : Goal :=
  (if decide (x ∈ dropped) then goal_waiters (filter (.≠ i)) else id)
    ((if decide (x = i) then λ g, goal_waitees (λ _, ws) (f g) else id) g).

Definition counts_only (f : Goal → Goal) : Prop := ∀ g,
  g_waiters (f g) = g_waiters g ∧ g_exitCode (f g) = g_exitCode g ∧ g_self (f g) = g_self g.

Lemma links_told U B D X w this i l gi ws dropped f H' :
  Inv U B (Some (this, i :: l)) D X w → w_heap w !! i = Some gi → counts_only f →
  (∀ x, x ∈ g_waitees gi ↔ x = this ∨ x ∈ ws ∨ x ∈ dropped) → this ∉ ws → this ∉ dropped →
  (∀ x, x ∈ ws → x ∉ dropped) → StronglySorted key_lt ws →
  (∀ x, H' !! x = told i ws dropped f x <$> w_heap w !! x) → links (Some (this, l)) H'.
Proof.
  intros HI Hi Hf Hws Hn1 Hn2 Hdisj Hsort HF. destruct (inv_links _ _ _ _ _ _ HI) as [H1 H2 H3 H4 H5].
  assert (∀ x y, H' !! x = Some y → ∃ g0, w_heap w !! x = Some g0 ∧ y = told i ws dropped f x g0) as Hinv.
  { intros x y. rewrite HF, fmap_Some. naive_solver. }
  assert (∀ x g0, g_waitees (told i ws dropped f x g0) = if decide (x = i) then ws else g_waitees g0) as Hwt.
  { intros x g0. unfold told. by repeat case_decide. }
  assert (∀ x g0, g_waiters (told i ws dropped f x g0) =
    if decide (x ∈ dropped) then filter (.≠ i) (g_waiters g0) else g_waiters g0) as Hwr.
  { intros x g0. unfold told. repeat case_decide; cbn; by rewrite ?(proj1 (Hf g0)). }
  assert (∀ x g0, busy (told i ws dropped f x g0) ↔ busy g0) as Hb.
  { intros x g0. unfold told, busy. repeat case_decide; cbn; by rewrite ?(proj1 (proj2 (Hf g0))). }
  assert (this ∈ g_waitees gi) as Hthis by (apply Hws; by left).
  assert (∀ h, w_heap w !! this = Some h → NoDup (i :: l)) as Hnd.
  { intros h Hh. pose proof (H4 this h Hh) as Hnd. unfold waiting_on in Hnd. by rewrite decide_True in Hnd. }
  assert (∀ x z, waiting_on (Some (this, i :: l)) x z = if decide (x = this) then i :: l else g_waiters z) as Hon by done.
  assert (∀ x z, waiting_on (Some (this, l)) x z = if decide (x = this) then l else g_waiters z) as Hon' by done.
  constructor.
  - intros p y q (g0 & Hp & ->)%Hinv. rewrite Hwt. case_decide as Epi.
    + subst p. simplify_eq. intros Hq. assert (q ≠ this) as Hqt by (by intros ->).
      destruct (H1 i gi q Hi) as (z & Hz & Hpw & Hun); [apply Hws; tauto|].
      exists (told i ws dropped f q z). rewrite HF, Hz, Hon', decide_False, Hwr, decide_False by naive_solver.
      rewrite Hon, decide_False in Hpw by done. destruct Hun as [Hbz|?]; [|done].
      split_and!; [done|done|left; by apply Hb].
    + intros Hq. destruct (H1 p g0 q Hp Hq) as (z & Hz & Hpw & Hun). exists (told i ws dropped f q z).
      rewrite HF, Hz, Hon'. rewrite Hon in Hpw. split; [done|]. destruct (decide (q = this)) as [->|Hqt].
      * apply elem_of_cons in Hpw as [->|Hpw]; [done|]. split; [done|by right].
      * rewrite Hwr. split; [|destruct Hun as [Hbz|?]; [left; by apply Hb|done]].
        case_decide; [by apply list_elem_of_filter|done].
  - intros q y p z (h & Hq & ->)%Hinv Hpw (z0 & Hz & ->)%Hinv. rewrite Hwt. rewrite Hon' in Hpw.
    destruct (decide (q = this)) as [->|Hqt].
    + assert (p ≠ i) as Hpi by (intros ->; by destruct (proj1 (NoDup_cons _ _) (Hnd h Hq))).
      rewrite decide_False by done. apply (H2 this h p z0 Hq); [|done]. rewrite Hon, decide_True by done. by right.
    + rewrite Hwr in Hpw. assert (p ∈ g_waiters h ∧ (q ∈ dropped → p ≠ i)) as [Hph Hpd].
      { case_decide; [apply list_elem_of_filter in Hpw; naive_solver|naive_solver]. }
      assert (q ∈ g_waitees z0) as Hqz by (apply (H2 q h p z0 Hq); [by rewrite Hon, decide_False|done]).
      clear Hpw. case_decide as Epi; [|done]. subst p. simplify_eq. apply Hws in Hqz. naive_solver.
  - intros p y (g0 & Hp & ->)%Hinv. rewrite Hwt. case_decide; [done|by eapply H3].
  - intros q y (h & Hq & ->)%Hinv. rewrite Hon'. pose proof (H4 q h Hq) as Hndq. rewrite Hon in Hndq.
    destruct (decide (q = this)) as [->|Hqt]; [by apply NoDup_cons in Hndq as [_ ?]|].
    rewrite Hwr. case_decide; [by apply NoDup_filter|done].
  - intros p y (g0 & Hp & ->)%Hinv. rewrite Hwt, Hb. intros Hnb. pose proof (H5 p g0 Hp Hnb) as Hw0.
    case_decide as Epi; [|done]. subst p. simplify_eq. rewrite Hw0 in Hthis. by apply elem_of_nil in Hthis.
Qed.

Lemma Inv_told U U' B D X w this i l gi ws dropped f H' :
  Inv U B (Some (this, i :: l)) D X w → (∀ p, p ∈ B → p = this) → w_heap w !! i = Some gi → counts_only f →
  (∀ x, x ∈ g_waitees gi ↔ x = this ∨ x ∈ ws ∨ x ∈ dropped) → this ∉ ws → this ∉ dropped →
  (∀ x, x ∈ ws → x ∉ dropped) → StronglySorted key_lt ws →
  (∀ x, H' !! x = told i ws dropped f x <$> w_heap w !! x) →
  (ws ≠ [] ∧ U' = U ∨ ws = [] ∧ U' = i :: U ∧ i ∈ w_held w) → i ≠ this →
  Inv U' B (Some (this, l)) D X (with_heap H' w) ∧ i ∉ U.
Proof.
  intros HI HB Hi Hf Hws Hn1 Hn2 Hdisj Hsort HF HU' Hit.
  assert (g_waitees gi ≠ []) as Hne.
  { intros E. assert (this ∈ []) as Hin by (rewrite <-E; apply Hws; by left). by apply elem_of_nil in Hin. }
  assert (i ∉ U) as HiU.
  { intros Hin. destruct (inv_pending _ _ _ _ _ _ HI i Hin) as (g0 & ? & _ & ?); [naive_solver|]. naive_solver. }
  assert (∀ x g0, x ≠ i → g_waitees (told i ws dropped f x g0) = g_waitees g0) as Hother.
  { intros x g0 Hx. unfold told. rewrite (decide_False (P := x = i)) by done. by case_decide. }
  assert (∀ g0, g_waitees (told i ws dropped f i g0) = ws) as Hself.
  { intros g0. unfold told. rewrite (decide_True (P := i = i)) by done. by case_decide. }
  assert (busy gi) as Hbi.
  { destruct (decide (g_exitCode gi = ecBusy)) as [|Hnb]; [done|]. destruct Hne. by apply (li_done _ _ (inv_links _ _ _ _ _ _ HI) i). }
  split; [|done].
  eapply Inv_relink; [exact HI|exact HF| |by eapply links_told|done| | | | | |].
  - intros x g0. unfold told. repeat case_decide; cbn; by destruct (Hf g0) as (? & ? & ?).
  - intros x g0 Hx _ Hw0. rewrite Hother; [done|]. intros ->. naive_solver.
  - intros x g0 p Hx Hp. left. unfold told in Hp.
    repeat case_decide; cbn in Hp; try apply list_elem_of_filter in Hp as [_ Hp]; rewrite ?(proj1 (Hf g0)) in Hp; done.
  - intros p g0 Hp Hq. destruct (sc_rest _ _ (inv_scheduled _ _ _ _ _ _ HI) p g0 Hq Hp) as (HnU & _ & Hw0).
    assert (p ≠ i) as Hpi by (intros ->; naive_solver). rewrite Hother by done. split; [|done].
    destruct HU' as [[_ ->]|(_ & -> & _)]; [done|]. set_solver.
  - intros p g0 Hp Hbp HnU Htop. destruct (decide (p = i)) as [->|Hpi].
    + rewrite Hself. destruct HU' as [[? _]|(_ & -> & _)]; [auto|]. destruct HnU. by left.
    + rewrite Hother by done. apply (sc_sched _ _ (inv_scheduled _ _ _ _ _ _ HI)); [done|done| |done].
      destruct HU' as [[_ ->]|(_ & -> & _)]; [done|]. intros ?. apply HnU. by right.
  - intros p Hp. destruct HU' as [[_ ->]|(_ & -> & Hih)]; [apply (inv_held _ _ _ _ _ _ HI); by left|].
    apply elem_of_cons in Hp as [->|Hp]; [done|]. apply (inv_held _ _ _ _ _ _ HI). by left.
  - intros p Hp HnB. assert (p = i ∨ p ∈ U ∧ p ≠ i) as [->|[HpU Hpi]].
    { destruct HU' as [[_ ->]|(_ & -> & Hih)]; [right; split; [done|by intros ->]|].
      apply elem_of_cons in Hp as [->|Hp]; [by left|]. destruct (decide (p = i)); [by left|by right]. }
    + exists gi. rewrite Hself. destruct HU' as [[_ ->]|(-> & _ & _)]; [done|done].
    + destruct (inv_pending _ _ _ _ _ _ HI p HpU HnB) as (g0 & ? & ? & ?). exists g0. by rewrite Hother.
Qed.

Lemma waitee_counts_only result : counts_only (waitee_counts result).
Proof. intros g. by destruct result. Qed.

Lemma wp_upd_all f l w (Q : () → Worker W → Prop) E :
  Q () (with_heap (foldl (λ H x, alter f x H) (w_heap w) l) w) → wp (iter (λ x, upd_goal x f) l) Q E w.
Proof.
  revert w. induction l as [|x l IH]; intros w HQ; cbn [iter]; [by destruct w|].
  apply wp_bind, wp_modify, IH. exact HQ.
Qed.

Lemma lookup_upd_all f l (H : gmap GoalPtr Goal) x :
  NoDup l → foldl (λ H x, alter f x H) H l !! x = (if decide (x ∈ l) then f else id) <$> H !! x.
Proof.
  revert H. induction l as [|y l IH]; intros H Hnd; cbn [foldl].
  { rewrite decide_False by apply not_elem_of_nil. by destruct (H !! x). }
  apply NoDup_cons in Hnd as [Hy Hnd]. rewrite IH, alter_fmap by done.
  destruct (decide (x = y)) as [->|Hne].
  - rewrite decide_False, decide_True by (done || by left). by destruct (H !! y).
  - destruct (decide (x ∈ l)); [rewrite decide_True by (by right)|rewrite decide_False by set_solver]; by destruct (H !! x).
Qed.

Lemma fin_not_waiter U B D X w this i l gt :
  Inv U B (Some (this, i :: l)) D X w → w_heap w !! this = Some gt → ¬ busy gt → i ≠ this.
Proof.
  intros HI Ht Hb ->. pose proof (inv_links _ _ _ _ _ _ HI) as Hl.
  assert (this ∈ g_waitees gt) as Hin.
  { eapply (li_waiter _ _ Hl this gt this gt); [done| |done]. unfold waiting_on. rewrite decide_True by done. by left. }
  rewrite (li_done _ _ Hl this gt Ht Hb) in Hin. by apply elem_of_nil in Hin.
Qed.

Lemma wp_waiteeDone U B w this i l result gi gt (Q : () → Worker W → Prop) :
  Inv U B (Some (this, i :: l)) [] [] w → (∀ p, p ∈ B → p = this) → w_heap w !! i = Some gi →
  w_heap w !! this = Some gt → ¬ busy gt → i ∈ w_held w → this ∈ w_held w →
  (∀ w', Inv U B (Some (this, l)) [] [] w' → w_held w' = w_held w → w_heap w' !! this = Some gt → Q () w') →
  wp (waiteeDone i this result) Q no_fault w.
Proof.
  intros HI HB Hi Ht Hnb Hih Hth HQ. pose proof (fin_not_waiter _ _ _ _ _ _ _ _ _ HI Ht Hnb) as Hit.
  pose proof (inv_links _ _ _ _ _ _ HI) as Hl.
  assert (this ∈ g_waitees gi) as Hin.
  { eapply (li_waiter _ _ Hl this gt i gi); [done| |done]. unfold waiting_on. rewrite decide_True by done. by left. }
  unfold waiteeDone. apply wp_bind. eapply wp_get_goal; [exact Hi|].
  apply wp_bind, wp_lift; [|intros e He; by eapply goals_find_throw]. intros found Hfound.
  apply wp_bind, wp_check; [|intros ->; by pose proof (goals_find_in _ _ _ Hfound Hin)]. intros _.
  apply wp_bind, wp_lift; [|intros e He; by eapply goals_erase_throw]. intros ws Hws.
  destruct (goals_erase_spec _ _ _ Hws) as [Hsort Hmem]; [by eapply (li_sorted _ _ Hl)| |done|].
  { intros x Hx Hs. destruct (li_waitee _ _ Hl i gi x Hi Hx) as (z & Hz & _ & Hun). symmetry.
    eapply Inv_unique; [exact HI|exact Ht|by right|exact Hz|exact Hun|done]. }
  apply wp_bind, wp_modify, wp_when.
  - intros _. apply wp_bind, wp_upd_all, wp_bind, wp_modify.
    match goal with |- wp _ _ _ ?s => change s with (with_heap (w_heap s) w); set (H' := w_heap s) end.
    assert (∀ x, H' !! x = told i [] ws (waitee_counts result) x <$> w_heap w !! x) as HF.
    { intros x. unfold H'. cbn. rewrite alter_fmap, lookup_upd_all by (by apply goals_sorted_nodup).
      rewrite alter_fmap, <-!option_fmap_compose. destruct (w_heap w !! x) as [g0|]; [|done]. simpl. f_equal.
      unfold told. destruct result; by repeat case_decide. }
    assert (this ∉ ws) as Hnws by (intros Hx%Hmem; by destruct Hx).
    destruct (Inv_told U (i :: U) B [] [] w this i l gi [] ws (waitee_counts result) H') as [HI1 HiU];
      [exact HI|exact HB|exact Hi|apply waitee_counts_only| |apply not_elem_of_nil|exact Hnws
      |intros x Hx; by apply elem_of_nil in Hx|constructor|exact HF|right; by split_and!|exact Hit|].
    { intros x. rewrite elem_of_nil, Hmem. destruct (decide (x = this)) as [->|?]; [naive_solver|naive_solver]. }
    apply wp_bind. eapply wp_reclaim; [exact HI1|]. intros w2 HI2 Hsh.
    destruct (inv_pending _ _ _ _ _ _ HI2 i) as (g2 & Hg2 & Hb2 & Hw2); [by left|naive_solver|].
    apply wp_modify, HQ; [|exact (sh_held _ _ Hsh)|].
    + eapply Inv_push; [exact HI2|done|exact Hg2|done|done|constructor].
    + cbn. rewrite (sh_kept _ _ Hsh) by done. cbn. rewrite HF, Ht. simpl. f_equal. unfold told.
      by rewrite !decide_False by done.
  - intros Hc%orb_false_iff. destruct Hc as [Hc%bool_decide_eq_false _].
    match goal with |- Q _ ?s => change s with (with_heap (w_heap s) w); set (H' := w_heap s) end.
    assert (∀ x, H' !! x = told i ws [] (waitee_counts result) x <$> w_heap w !! x) as HF.
    { intros x. unfold H'. cbn. rewrite alter_fmap. destruct (w_heap w !! x) as [g0|]; [|done]. simpl. f_equal.
      unfold told. rewrite (decide_False (P := x ∈ [])) by apply not_elem_of_nil. case_decide; [|done].
      by destruct result. }
    assert (this ∉ ws) as Hnws by (intros Hx%Hmem; by destruct Hx).
    destruct (Inv_told U U B [] [] w this i l gi ws [] (waitee_counts result) H') as [HI1 HiU];
      [exact HI|exact HB|exact Hi|apply waitee_counts_only| |exact Hnws|apply not_elem_of_nil
      |intros x _; apply not_elem_of_nil|exact Hsort|exact HF|by left|exact Hit|].
    { intros x. rewrite elem_of_nil, Hmem. destruct (decide (x = this)) as [->|?]; [naive_solver|naive_solver]. }
    apply HQ; [done|done|]. cbn. rewrite HF, Ht. simpl. f_equal. unfold told.
    rewrite decide_False by apply not_elem_of_nil. by rewrite decide_False by done.
Qed.

(** * The end of a goal *)

Lemma Inv_on_held U B fin D X w hs :
  Inv U B fin D X w → (∀ p, p ∈ U ∨ p ∈ B → p ∈ hs) → (∀ p, p ∈ hs → is_Some (w_heap w !! p)) →
  Inv U B fin D X (on_held (λ _, hs) w).
Proof. intros [Hl Ho Hs Hc Hco Hh Hpe Hal] Hhs Hal'. constructor; [exact Hl| | | |exact Hco|exact Hhs|exact Hpe|exact Hal']; [by destruct Ho|by destruct Hs|by destruct Hc]. Qed.

Lemma wp_holding {A} ps (m : WM W A) w (Q : A → Worker W → Prop) :
  wp m (λ a w', wp reclaim (λ _, Q a) no_fault (on_held (λ _, w_held w) w')) no_fault (on_held (app ps) w) →
  wp (holding ps m) Q no_fault w.
Proof.
  unfold wp at 1 3. unfold holding. destruct (m (on_held (app ps) w)) as [[a|e|] w']; [|done|done].
  intros Hc. apply (wp_bind reclaim (λ _, mret a)). eapply wp_mono; [exact Hc| |done]. intros [] w2 HQ. by apply wp_ret.
Qed.

Lemma Inv_fin_start U w this g result :
  Inv (this :: U) [this] None [] [] w → w_heap w !! this = Some g → busy g → g_waitees g = [] →
  Inv (this :: U) [this] (Some (this, g_waiters g)) [] [] (on_heap (alter (goal_exitCode (λ _, result)) this) w).
Proof.
  intros HI Hg Hbg Hwg. pose proof (unqueued _ _ _ _ _ _ _ _ HI Hg) as Hnq.
  destruct HI as [[H1 H2 H3 H4 H5] [O1 O2 O3 O4 O5 O6 O7 O8 O9] [S1 S2 S3 S4 S5] [C1 C2 C3 C4 C5 C6 C7 C8 C9 C10] Hco Hh Hpe Hal].
  set (fin := Some (this, g_waiters g)). set (f := goal_exitCode (λ _, result)).
  assert (∀ x y, alter f this (w_heap w) !! x = Some y → ∃ g0, w_heap w !! x = Some g0 ∧
    g_waitees y = g_waitees g0 ∧ g_waiters y = g_waiters g0 ∧ g_self y = g_self g0 ∧
    (x = this ∧ g0 = g ∨ x ≠ this ∧ y = g0)) as Hinv.
  { intros x y [(-> & g0 & Hg0 & ->)|[Hne Hy]]%lookup_alter_Some; [exists g0|exists y]; split_and!; try done.
    - left. split; [done|]. congruence.
    - by right. }
  assert (∀ x g0, w_heap w !! x = Some g0 → ∃ y, alter f this (w_heap w) !! x = Some y ∧
    g_waitees y = g_waitees g0 ∧ g_waiters y = g_waiters g0 ∧ g_self y = g_self g0 ∧ (busy g0 → unfinished fin x y)) as Hinv'.
  { intros x g0 Hx. destruct (decide (x = this)) as [->|Hne].
    - exists (f g0). rewrite lookup_alter_eq, Hx. split_and!; try done. intros _. by right.
    - exists g0. rewrite lookup_alter_ne by done. split_and!; try done. intros ?. by left. }
  assert (∀ x y, w_heap w !! x = Some y → waiting_on fin x y = g_waiters y) as Hon.
  { intros x y Hx. unfold waiting_on, fin. case_decide; [subst; congruence|done]. }
  assert (∀ x y g0, g_waiters y = g_waiters g0 → w_heap w !! x = Some g0 → waiting_on fin x y = g_waiters g0) as Hon'.
  { intros x y g0 E Hx. rewrite <-(Hon x g0 Hx). unfold waiting_on, fin. by rewrite E. }
  assert (∀ y g0 : Goal, g_self y = g_self g0 → goal_procs y = goal_procs g0 ∧ goal_class y = goal_class g0) as Hself.
  { intros y g0 E. unfold goal_procs, goal_class. by rewrite E. }
  constructor; cbn.
  - constructor.
    + intros p y q (g0 & Hp & E1 & _)%Hinv Hq. rewrite E1 in Hq.
      destruct (H1 p g0 q Hp Hq) as (h & Hh' & Hw & [Hb|[]]). destruct (Hinv' q h Hh') as (z & Hz & _ & E2 & _ & Hu).
      exists z. split_and!; [done| |by apply Hu]. by rewrite (Hon' q z h).
    + intros q y p z (h & Hq & _ & E2 & _)%Hinv. rewrite (Hon' q y h) by done.
      intros Hw (g0 & Hp & E1 & _)%Hinv. rewrite E1. by apply (H2 q h p g0).
    + intros p y (g0 & Hp & -> & _)%Hinv. by apply (H3 p).
    + intros q y (h & Hq & _ & E2 & _)%Hinv. rewrite (Hon' q y h) by done. by apply (H4 q h).
    + intros p y (g0 & Hp & E1 & _ & _ & [[-> ->]|[Hne ->]])%Hinv; [by rewrite E1|by apply (H5 p)].
  - constructor; cbn; try done.
    + intros p y (g0 & Hp & _ & _ & E & _)%Hinv. rewrite (proj2 (Hself y g0 E)). by apply O1.
    + intros p [y (g0 & Hp & _)%Hinv]. apply O2. eauto.
    + intros q y p (h & Hq & _ & -> & _)%Hinv. by apply (O3 q h).
    + intros p y (g0 & Hp & _ & _ & _ & [[-> ->]|[Hne ->]])%Hinv Hu; apply (O5 _ _ Hp); [by left|].
      left. by destruct Hu as [?|Hf].
    + intros cls path p y Hm (g0 & Hp & _ & _ & _ & Hc)%Hinv. destruct (O6 cls path p g0 Hm Hp) as ([Hb|[]] & ? & ?).
      split_and!; [|done|done]. destruct Hc as [[-> _]|[_ ->]]; [by right|by left].
    + intros p Hp. destruct (O7 p Hp) as (g0 & Hg0 & [Hb|[]]). destruct (Hinv' p g0 Hg0) as (y & Hy & _ & _ & _ & Hu).
      exists y. split; [done|by apply Hu].
  - constructor; cbn; try done.
    + intros p y Hq (g0 & Hp & E1 & _ & _ & Hc)%Hinv. destruct (S2 p g0 Hq Hp) as (? & ? & ?).
      destruct Hc as [[-> _]|[_ ->]]; [done|done].
    + intros p y Hq (g0 & Hp & _ & _ & E & _)%Hinv. rewrite (proj1 (Hself y g0 E)). by apply (S3 p).
    + intros p y (g0 & Hp & _ & _ & _ & [[-> _]|[_ ->]])%Hinv Hb HU; [destruct HU; by left|by apply (S4 p)].
  - constructor; cbn; try done.
    + intros pid c Hc Hn. destruct (C1 pid c Hc Hn) as (g0 & Hg0 & Hin).
      destruct (Hinv' _ g0 Hg0) as (y & Hy & _ & _ & E & _). exists y. by rewrite (proj1 (Hself y g0 E)).
    + intros p y pid (g0 & Hp & _ & _ & E & _)%Hinv. rewrite (proj1 (Hself y g0 E)). by apply C2.
    + intros pid p y q z HX. by apply elem_of_nil in HX.
  - intros p y (g0 & Hp & _ & _ & _ & [[-> _]|[_ ->]])%Hinv HB; [destruct HB; by left|by apply (Hco p)].
  - done.
  - intros p HU HB. destruct (Hpe p HU HB) as (g0 & Hg0 & ? & ?). exists g0.
    rewrite lookup_alter_ne; [done|]. intros <-. apply HB. by left.
  - intros p Hp. rewrite alter_fmap. by apply fmap_is_Some, Hal.
Qed.

(** A waiter that is no more needs not be told. *)
Lemma Inv_dead_waiter U B D X w this i l :
  Inv U B (Some (this, i :: l)) D X w → w_heap w !! i = None → Inv U B (Some (this, l)) D X w.
Proof.
  intros [Hl Ho Hs Hc Hco Hh Hpe Hal] Hi. constructor; try done; [|by destruct Ho].
  destruct Hl as [H1 H2 H3 H4 H5]. constructor; try done.
  - intros p g q Hp Hq. destruct (H1 p g q Hp Hq) as (h & Hh' & Hw & Hu). exists h. split_and!; [done| |done].
    unfold waiting_on in *. case_decide; [|done]. apply elem_of_cons in Hw as [->|?]; [congruence|done].
  - intros q h p g Hq Hw. apply (H2 q h p g Hq). unfold waiting_on in *. case_decide; [by right|done].
  - intros q h Hq. specialize (H4 q h Hq). unfold waiting_on in *. case_decide; [by apply NoDup_cons in H4 as [_ ?]|done].
Qed.

(** All waiters have been told: their list is cleared. *)
Lemma Inv_cleared U B D X w this :
  Inv U B (Some (this, [])) D X w →
  Inv U B (Some (this, [])) D X (on_heap (alter (goal_waiters (λ _, [])) this) w).
Proof.
  intros HI. rewrite on_heap_with.
  set (F := λ x, if decide (x = this) then goal_waiters (λ _, []) else id).
  pose proof (λ x, alter_fmap (goal_waiters (λ _, [])) this (w_heap w) x) as HF.
  assert (∀ x g, g_waitees (F x g) = g_waitees g) as Hwt by (intros x g; unfold F; by case_decide).
  assert (∀ x g, busy (F x g) ↔ busy g) as Hb by (intros x g; unfold F; by case_decide).
  assert (∀ x g, waiting_on (Some (this, [])) x (F x g) = waiting_on (Some (this, [])) x g) as Hon.
  { intros x g. unfold waiting_on, F. by case_decide. }
  assert (∀ x y, alter (goal_waiters (λ _, [])) this (w_heap w) !! x = Some y → ∃ g, w_heap w !! x = Some g ∧ y = F x g) as Hinv.
  { intros x y. rewrite HF, fmap_Some. intros (g & ? & ->). by exists g. }
  eapply (Inv_relink U U B _ _ D X w _ F); [exact HI|exact HF| | |done|intros x g _ _ Hw0; by rewrite Hwt| | | | |].
  - intros x g. unfold F. by case_decide.
  - destruct (inv_links _ _ _ _ _ _ HI) as [H1 H2 H3 H4 H5]. constructor.
    + intros p y q (g & Hp & ->)%Hinv. rewrite Hwt. intros Hq. destruct (H1 p g q Hp Hq) as (h & Hh & Hw & Hu).
      exists (F q h). rewrite HF, Hh, Hon. unfold unfinished in *. rewrite Hb. done.
    + intros q y p z (h & Hq & ->)%Hinv. rewrite Hon. intros Hw (g & Hp & ->)%Hinv. rewrite Hwt. by apply (H2 q h p g).
    + intros p y (g & Hp & ->)%Hinv. rewrite Hwt. by apply (H3 p).
    + intros q y (h & Hq & ->)%Hinv. rewrite Hon. by apply H4.
    + intros p y (g & Hp & ->)%Hinv. rewrite Hwt, Hb. by apply (H5 p).
  - intros x g p Hx Hp. left. unfold F in Hp. case_decide; [by apply elem_of_nil in Hp|done].
  - intros p g Hp Hq. rewrite Hwt. destruct (sc_rest _ _ (inv_scheduled _ _ _ _ _ _ HI) p g Hq Hp) as (? & _ & ?). done.
  - intros p g. rewrite Hwt. apply (sc_sched _ _ (inv_scheduled _ _ _ _ _ _ HI)).
  - intros p Hp. apply (inv_held _ _ _ _ _ _ HI). by left.
  - intros p Hp HB. destruct (inv_pending _ _ _ _ _ _ HI p Hp HB) as (g & ? & ? & ?). exists g. by rewrite Hwt.
Qed.

(** The worker forgets the goal. *)
Definition forget (this : GoalPtr) (top : list GoalPtr) w : Worker W :=
  on_topGoals (λ _, top) (on_substitutionGoals (removeGoal_from this) (on_derivationGoals (removeGoal_from this) w)).

Lemma Inv_forget U w this g top :
  Inv (this :: U) [this] (Some (this, [])) [] [] w → this ∉ U → w_heap w !! this = Some g →
  ¬ busy g → g_waiters g = [] → goal_procs g = [] →
  (∀ p, p ∈ top → p ∈ w_topGoals w ∧ p ≠ this) → StronglySorted key_lt top → Inv U [] None [] [] (forget this top w).
Proof.
  intros [[H1 H2 H3 H4 H5] [O1 O2 O3 O4 O5 O6 O7 O8 O9] [S1 S2 S3 S4 S5] Hc Hco Hh Hpe Hal] HU Hg Hnb Hwr Hpr Htop Hsort.
  assert (∀ x h, w_heap w !! x = Some h → waiting_on (Some (this, [])) x h = g_waiters h) as Hon.
  { intros x h Hx. unfold waiting_on. case_decide; [subst; by simplify_eq|done]. }
  assert (∀ cls path p, goal_map (forget this top w) cls !! path = Some p ↔
    goal_map w cls !! path = Some p ∧ p ≠ this) as Hmap.
  { intros cls path p. destruct cls; cbn; unfold removeGoal_from; rewrite map_lookup_filter_Some; done. }
  assert (∀ p h, w_heap w !! p = Some h → unfinished (Some (this, [])) p h → p ≠ this → busy h) as Hub.
  { intros p h _ [?|Hf] Hne; [done|by destruct Hne]. }
  constructor.
  - constructor; try done.
    + intros p h q Hp Hq. destruct (H1 p h q Hp Hq) as (z & Hz & Hw & Hu). exists z.
      pose proof Hw as Hw'. rewrite (Hon q z Hz) in Hw'. split_and!; [done|done|]. left. apply (Hub q z Hz Hu).
      intros ->. unfold waiting_on in Hw. rewrite decide_True in Hw by done. by apply elem_of_nil in Hw.
    + intros q h p z Hq Hw Hz. apply (H2 q h p z Hq); [by rewrite (Hon q h Hq)|done].
    + intros q h Hq. pose proof (H4 q h Hq) as Hnd. by rewrite (Hon q h Hq) in Hnd.
  - constructor; try done.
    + intros p h Hp [Hb|[]]. apply Hmap. split; [|intros ->; naive_solver]. apply (O5 p h Hp). by left.
    + intros cls path p h [Hm Hne]%Hmap Hp. destruct (O6 cls path p h Hm Hp) as (Hu & ? & ?).
      split_and!; [|done|done]. left. by apply (Hub p h).
    + intros p Hp. destruct (Htop p Hp) as [Hin Hne]. destruct (O7 p Hin) as (h & Hp' & Hu). exists h.
      split; [done|]. left. by apply (Hub p h).
    + intros cls path p [Hm _]%Hmap. by apply (O9 cls path).
  - constructor; try done.
    + intros p h Hq Hp. destruct (S2 p h Hq Hp) as (HnU & ? & ?). split_and!; [|done|done]. intros ?. apply HnU. by right.
    + intros p h Hp Hb HnU Hne. apply (S4 p h Hp Hb); [intros [->|?]%elem_of_cons; [naive_solver|done]|].
      cbn in Hne. destruct top as [|x top]; [done|]. destruct (Htop x) as [Hx _]; [by left|].
      intros E. rewrite E in Hx. by apply elem_of_nil in Hx.
  - by destruct Hc.
  - intros p h Hp _. destruct (decide (p = this)) as [->|Hne].
    + assert (h = g) as -> by (change (w_heap w !! this = Some h) in Hp; congruence).
      constructor; [by rewrite Hpr; simpl; lia|done|done|done|done|by rewrite Hpr].
    + apply (Hco p h Hp). intros Hin%list_elem_of_singleton. done.
  - intros p [Hp|Hp]; [apply Hh; left; by right|by apply elem_of_nil in Hp].
  - intros p Hp _. apply (Hpe p); [by right|]. intros ->%list_elem_of_singleton. done.
  - exact Hal.
Qed.

Lemma wp_removeGoal U w this g (Q : () → Worker W → Prop) :
  Inv (this :: U) [this] (Some (this, [])) [] [] w → this ∉ U → w_heap w !! this = Some g →
  ¬ busy g → g_waiters g = [] → goal_procs g = [] →
  (∀ w', Inv U [] None [] [] w' → w_held w' = w_held w → Q () w') → wp (removeGoal this) Q no_fault w.
Proof.
  intros HI HU Hg Hnb Hwr Hpr HQ. pose proof (inv_objects _ _ _ _ _ _ HI) as Ho.
  assert (∀ x, x ∈ w_topGoals w → same_goal this x → x = this) as Huniq.
  { intros x Hx Hs. destruct (ob_top _ _ Ho x Hx) as (z & Hz & Hu). symmetry.
    eapply Inv_unique; [exact HI|exact Hg|by right|exact Hz|exact Hu|done]. }
  unfold removeGoal. apply wp_bind, wp_modify, wp_bind, wp_modify, wp_bind, wp_gets; [|done]. intros top [= <-].
  apply wp_bind, wp_lift; [|intros e He; by eapply goals_find_throw]. intros found Hfound. cbn in Hfound.
  destruct found.
  - destruct (goals_find_same _ _ Hfound) as (x & Hx & Hs). rewrite (Huniq x Hx Hs) in Hx.
    apply wp_bind, wp_bind, wp_lift; [|intros e He; by eapply goals_erase_throw]. intros top Htop.
    destruct (goals_erase_spec _ _ _ Htop (ob_top_sorted _ _ Ho) Huniq Hx) as [Hsort Hmem].
    apply wp_bind. eapply wp_get_goal; [exact Hg|]. apply wp_bind, wp_modify.
    match goal with |- wp _ _ _ (on_topGoals (λ _, ?t) _) => change (wp reclaim (λ _, wp (modify wake_waitingForAnyGoal) Q no_fault) no_fault (forget this t w)); set (top' := t) end.
    eapply wp_reclaim; [eapply (Inv_forget U w this g top'); try done|].
    + intros p Hp. unfold top' in Hp. destruct (_ && _); [by apply elem_of_nil in Hp|by apply Hmem].
    + unfold top'. destruct (_ && _); [constructor|done].
    + intros w2 HI2 Hsh. apply wp_modify, HQ; [eapply Inv_woken; [exact HI2|constructor]|exact (sh_held _ _ Hsh)].
  - apply wp_bind, wp_ret, wp_modify. assert (this ∉ w_topGoals w) as Hnt.
    { intros Hx. by pose proof (goals_find_in _ _ _ Hfound Hx). }
    change (Q () (wake_waitingForAnyGoal (forget this (w_topGoals w) w))).
    apply HQ; [eapply Inv_woken; [|constructor]|done]. eapply (Inv_forget U w this g); try done.
    + intros p Hp. split; [done|by intros ->].
    + apply (ob_top_sorted _ _ Ho).
Qed.

(** The end of a goal that has no process left keeps the invariant, and fails no
    assertion: every waiter is told, and none waits in vain. *)
Lemma wp_amDone U w this result g (Q : () → Worker W → Prop) :
  Inv (this :: U) [this] None [] [] w → this ∉ U → w_heap w !! this = Some g → busy g → g_waitees g = [] →
  goal_procs g = [] → result ≠ ecBusy →
  (∀ w', Inv U [] None [] [] w' → w_held w' = w_held w → Q () w') → wp (amDone this result) Q no_fault w.
Proof.
  intros HI HU Hg Hb Hwt Hpr Hres HQ. unfold amDone. apply wp_bind. eapply wp_get_goal; [exact Hg|].
  apply wp_bind, wp_check; [|rewrite bool_decide_eq_false; by intros []]. intros _.
  apply wp_bind, wp_check; [|rewrite bool_decide_eq_false; by intros []]. intros _.
  apply wp_bind, wp_modify, wp_bind.
  pose proof (Inv_fin_start U w this g result HI Hg Hb Hwt) as HI1.
  set (g1 := goal_exitCode (λ _, result) g). assert (¬ busy g1) as Hnb1 by done.
  assert (this ∈ w_held w) as Hth by (apply (inv_held _ _ _ _ _ _ HI); left; by left).
  apply (wp_iter (λ l w', Inv (this :: U) [this] (Some (this, l)) [] [] w' ∧ w_held w' = w_held w ∧
    w_heap w' !! this = Some g1)).
  - split_and!; [done|done|]. cbn. by rewrite lookup_alter_eq, Hg.
  - intros i l w1 (HI2 & Hh2 & Ht2). apply wp_bind, wp_gets; [|done]. intros locks [= <-].
    apply wp_when; intros Hal.
    + apply alive_spec in Hal as [gi Hi]. apply wp_holding.
      assert (Inv (this :: U) [this] (Some (this, i :: l)) [] [] (on_held (app [i]) w1)) as HI3.
      { apply (Inv_on_held _ _ _ _ _ _ (i :: w_held w1) HI2).
        - intros p Hp. right. by apply (inv_held _ _ _ _ _ _ HI2).
        - intros p [->|Hp]%elem_of_cons; [eauto|by apply (inv_alive _ _ _ _ _ _ HI2)]. }
      eapply wp_waiteeDone; [exact HI3|by intros p Hp%list_elem_of_singleton|exact Hi|exact Ht2|done|by left|right; by rewrite Hh2|].
      intros w2 HI4 Hh4 Ht4.
      assert (Inv (this :: U) [this] (Some (this, l)) [] [] (on_held (λ _, w_held w1) w2)) as HI5.
      { apply Inv_on_held; [done|apply (inv_held _ _ _ _ _ _ HI2)|]. intros p Hp.
        apply (inv_alive _ _ _ _ _ _ HI4). rewrite Hh4. by right. }
      eapply wp_reclaim; [exact HI5|]. intros w3 HI6 Hsh. split_and!; [done|by rewrite (sh_held _ _ Hsh)|].
      rewrite (sh_kept _ _ Hsh); [done|]. cbn. by rewrite Hh2.
    + split_and!; [|done|done]. eapply Inv_dead_waiter; [exact HI2|].
      destruct (w_heap w1 !! i) eqn:Ei; [|done]. assert (alive w1 i = true) by (apply alive_spec; eauto). congruence.
  - intros w1 (HI2 & Hh2 & Ht2). apply wp_bind, wp_modify.
    eapply (wp_removeGoal U _ this (goal_waiters (λ _, []) g1)); [by apply Inv_cleared|done|by cbn; rewrite lookup_alter_eq, Ht2|done|done|done|].
    intros w2 HI3 Hh3. apply HQ; [done|]. by rewrite Hh3.
Qed.
End waiting.
