(* ===== verification/GoalRules.v ===== *)
(** Rules for the state functions of goals: what each call does to the invariant
    while a goal is running. *)

From S2P Require Import Prelude StateMonad Containers Hash Paths StorePaths Derivations LocalDB GoalState Goals BuildGoals GoalInvariants GoalLinks.

(** Only these calls end in a [BuildError]. *)
Definition may_build_error {A} (c : call A) : bool :=
  match c with PrepareBuild _ _ _ _ | RegisterOutputs _ _ _ _ _ _ _ _ => true | _ => false end.

Class BuildErrorLaw {W} (handler : Handler W) : Prop :=
  handle_build_error : ∀ A (c : call A) st e st',
    handle c st = (Throw e, st') → is_build_error e = true → may_build_error c = true.

Section rules.
Context {W : Type} {gc : Gcrypt} {settings : Settings} {handler : Handler W} {laws : HandlerLaws handler}
  {blaw : BuildErrorLaw handler}.
Implicit Types w : Worker W.

(** Conditions on exceptions that hold for those of ordinary calls. *)
Definition tolerant (E : exn → Worker W → Prop) : Prop :=
  ∀ e w, no_fault e w → is_build_error e = false → E e w.

Lemma no_fault_tolerant : tolerant no_fault.
Proof. by intros e w He _. Qed.

(** * Steps that leave the build slots alone *)

Definition keeps_slots {A} (m : WM W A) : Prop := ∀ w, w_nrLocalBuilds (m w).2 = w_nrLocalBuilds w.

Lemma wp_keeps {A} (m : WM W A) (Q : A → Worker W → Prop) E w :
  keeps_slots m → wp m (λ a w', w_nrLocalBuilds w' = w_nrLocalBuilds w → Q a w') E w → wp m Q E w.
Proof. intros Hm. specialize (Hm w). unfold wp. destruct (m w) as [[a|e|] w']; auto. Qed.

Lemma slots_bind {A B} (m : WM W A) (f : A → WM W B) : keeps_slots m → (∀ a, keeps_slots (f a)) → keeps_slots (m ≫= f).
Proof.
  intros Hm Hf w. unfold mbind, SM_bind. specialize (Hm w). destruct (m w) as [[a|e|] w']; [|done|done].
  by rewrite (Hf a).
Qed.
Lemma slots_ret {A} (a : A) : keeps_slots (mret a).
Proof. done. Qed.
Lemma slots_call {A} (c : call A) : keeps_slots (do_call c).
Proof. intros w. unfold do_call. by destruct (handle c (w_world w)). Qed.
Lemma slots_modify f : (∀ w, w_nrLocalBuilds (f w) = w_nrLocalBuilds w) → keeps_slots (modify f).
Proof. done. Qed.
Lemma slots_gets {A} (f : Worker W → outcome A) : keeps_slots (gets f).
Proof. done. Qed.
Lemma slots_lift {A} (r : outcome A) : keeps_slots (lift r).
Proof. done. Qed.
Lemma slots_when b m : keeps_slots m → keeps_slots (when b m).
Proof. by destruct b. Qed.
Lemma slots_get p : keeps_slots (get_goal p).
Proof. intros w. unfold get_goal. by destruct (w_heap w !! p). Qed.
Lemma slots_get_substitution p : keeps_slots (get_substitution p).
Proof. apply slots_bind; [apply slots_get|]. intros g. by destruct (g_self g). Qed.

Lemma slots_unlock deletion held : keeps_slots (unlock deletion held).
Proof. apply slots_bind; [by apply slots_modify|intros _; apply slots_call]. Qed.
Lemma slots_unlock_output p deletion : keeps_slots (unlock_output p deletion).
Proof.
  apply slots_bind; [apply slots_get_substitution|]. intros s. apply slots_bind; [apply slots_unlock|intros _; by apply slots_modify].
Qed.
Lemma slots_lockPaths held paths : keeps_slots (lockPaths held paths).
Proof.
  apply slots_bind; [apply slots_lift|intros _]. apply slots_bind; [apply slots_gets|intros own].
  apply slots_bind; [apply slots_lift|intros _]. apply slots_bind; [apply slots_call|intros locked].
  apply slots_bind; [by apply slots_when, slots_modify|intros _; apply slots_ret].
Qed.

(** * At rest again *)

Definition rested (hs U : list GoalPtr) (w : Worker W) : Prop := Inv U [] None [] [] w ∧ w_held w = hs.

Lemma rested_same hs U w w' : rested hs U w → same_sched w w' → rested hs U w'.
Proof.
  intros [HI Hh] Hss. split; [by eapply Inv_same_sched|]. rewrite <-Hh. apply (sg_held_eq _ _ (ss_goals _ _ Hss)).
Qed.

(** [this] is in a queue, its state function is over. *)
Lemma queued_rested hs U this we ψ w :
  running hs U [] this we ψ w → this ∉ U →
  (∀ g, w_heap w !! this = Some g → busy g → we (g_waitees g) → ψ (g_self g) → coherent g) → rested hs U w.
Proof.
  intros ([Hl Ho Hs Hc Hco Hh Hpe Hal] & Hhs & g & Hg & Hb & Hwe & Hψ) HU Hcoh. split; [|done].
  constructor; try done.
  - intros p h Hp _. destruct (decide (p = this)) as [->|Hne]; [simplify_eq; by apply Hcoh|].
    apply (Hco p h Hp). by intros ?%list_elem_of_singleton.
  - intros p [?|Hp]; [apply Hh; by left|by apply elem_of_nil in Hp].
  - intros p Hp _. apply Hpe; [done|]. by intros ->%list_elem_of_singleton.
Qed.

(** [this] waits for other goals or for its child. *)
Lemma waiting_rested hs U this we ψ w :
  running hs (this :: U) [] this we ψ w → this ∉ U →
  (∀ g, w_heap w !! this = Some g → busy g → we (g_waitees g) → ψ (g_self g) →
     coherent g ∧ (g_waitees g ≠ [] ∨ goal_procs g ≠ [])) → rested hs U w.
Proof.
  intros Hr HU Hcoh. eapply (queued_rested hs U this we ψ); [|done|intros; by apply Hcoh].
  destruct Hr as ([Hl Ho Hs Hc Hco Hh Hpe Hal] & Hhs & g & Hg & Hb & Hwe & Hψ). split_and!; [|done|by exists g].
  constructor; try done.
  - destruct Hs as [S1 S2 S3 S4 S5]. constructor; try done.
    + intros p h Hq Hp. destruct (S2 p h Hq Hp) as (Hn & ? & ?). split_and!; [|done|done]. intros ?. apply Hn. by right.
    + intros p h Hp Hbp Hn Htop. destruct (decide (p = this)) as [->|Hne].
      * simplify_eq. right. by apply Hcoh.
      * apply (S4 p h Hp Hbp); [|done]. intros [?|?]%elem_of_cons; done.
  - intros p [?|?]; [apply Hh; left; by right|apply Hh; by right].
  - intros p Hp HB. apply Hpe; [by right|done].
Qed.

(** * Steps of a running goal *)

Section steps.
Context (hs V : list GoalPtr) (X : list Z) (this : GoalPtr).
Implicit Types (we : list GoalPtr → Prop) (ψ : GoalSelf → Prop).

Lemma running_same we ψ w w' : running hs V X this we ψ w → same_sched w w' → running hs V X this we ψ w'.
Proof.
  intros (HI & Hh & g & Hg & ?) Hss. destruct (ss_goals _ _ Hss) as [E1 _ E3 _ _].
  split_and!; [by eapply Inv_same_sched|by rewrite E3|exists g; by rewrite E1].
Qed.

Lemma running_weaken we we' ψ ψ' w :
  running hs V X this we ψ w → (∀ l, we l → we' l) → (∀ s, ψ s → ψ' s) → running hs V X this we' ψ' w.
Proof. intros (HI & Hh & g & Hg & Hb & Hwe & Hψ) H1 H2. split_and!; [done|done|]. exists g. naive_solver. Qed.

Lemma wp_run_call_same {A} (c : call A) (Q : A → Worker W → Prop) E w :
  tolerant E → may_build_error c = false → (∀ a w', same_sched w w' → Q a w') → wp (do_call c) Q E w.
Proof.
  intros HE Hc HQ. apply wp_call_full; [intros a st _; by apply HQ|]. intros e st He. apply HE.
  - by eapply exception_no_fault, handle_exception.
  - destruct (is_build_error e) eqn:Eb; [|done]. by rewrite (handle_build_error _ c _ _ _ He Eb) in Hc.
Qed.

Lemma wp_run_call {A} (c : call A) we ψ (Q : A → Worker W → Prop) E w :
  running hs V X this we ψ w → tolerant E → may_build_error c = false →
  (∀ a w', running hs V X this we ψ w' → Q a w') → wp (do_call c) Q E w.
Proof. intros Hr HE Hc HQ. apply wp_run_call_same; [done|done|]. intros a w' Hss. apply HQ. by eapply running_same. Qed.

Lemma wp_run_modify f we ψ (Q : () → Worker W → Prop) E w :
  running hs V X this we ψ w → same_sched w (f w) → (running hs V X this we ψ (f w) → Q () (f w)) → wp (modify f) Q E w.
Proof. intros Hr Hf HQ. apply wp_modify, HQ. by eapply running_same. Qed.

Lemma wp_run_get we ψ (Q : Goal → Worker W → Prop) E w :
  running hs V X this we ψ w →
  (∀ g, w_heap w !! this = Some g → busy g → we (g_waitees g) → ψ (g_self g) → Q g w) → wp (get_goal this) Q E w.
Proof. intros (HI & Hh & g & Hg & ? & ? & ?) HQ. eapply wp_get_goal; [exact Hg|]. by apply HQ. Qed.

Lemma wp_run_unlock deletion held we ψ (Q : () → Worker W → Prop) E w :
  running hs V X this we ψ w → tolerant E → (∀ w', running hs V X this we ψ w' → Q () w') →
  wp (unlock deletion held) Q E w.
Proof.
  intros Hr HE HQ. apply wp_bind, wp_modify, wp_run_call_same; [done|done|]. intros [] w' Hss.
  apply HQ. eapply running_same; [exact Hr|]. by etrans; [|exact Hss].
Qed.

(** ** Derivation goals *)

Lemma wp_run_get_derivation we ψ (Q : DerivationGoal → Worker W → Prop) E w :
  gp_class this = ClassDerivationGoal → running hs V X this we ψ w →
  (∀ d, ψ (SelfDerivation d) → running hs V X this we (λ s, s = SelfDerivation d ∧ ψ s) w → Q d w) →
  wp (get_derivation this) Q E w.
Proof.
  intros Hcls Hr HQ. unfold get_derivation. apply wp_bind. eapply wp_run_get; [exact Hr|].
  intros g Hg Hb Hwe Hψ. destruct Hr as (HI & Hh & _).
  pose proof (ob_class _ _ (inv_objects _ _ _ _ _ _ HI) this g Hg) as Hc. rewrite Hcls in Hc.
  unfold goal_class in Hc. destruct (g_self g) as [d|s] eqn:Es; [|done]. apply wp_ret, HQ; [done|].
  split_and!; [done|done|]. exists g. by rewrite Es.
Qed.

(** The members of a goal, by its own class only. *)
Definition self_procs (s : GoalSelf) : list Z := goal_procs (newGoal s).
Definition self_locks (s : GoalSelf) : list bytes := goal_locks (newGoal s).
Definition self_building (s : GoalSelf) : bool := goal_building (newGoal s).

Lemma goal_procs_self g : goal_procs g = self_procs (g_self g).
Proof. done. Qed.

Lemma running_own we ψ ψ' f w :
  running hs V X this we ψ w →
  (∀ g, own_change f g) → (∀ g, ψ (g_self g) → ψ' (g_self (f g)) ∧ goal_procs (f g) = goal_procs g) →
  running hs V X this we ψ' (on_heap (alter f this) w).
Proof.
  intros (HI & Hh & g & Hg & Hb & Hwe & Hψ) Hf Hψ'. split_and!; [|done|].
  - apply Inv_own; [done|]. intros g0 Hg0. simplify_eq. split_and!; [done|left; by left|by apply Hψ'].
  - exists (f g). cbn. rewrite lookup_alter_eq, Hg. destruct (Hf g) as (E1 & _ & E3 & _).
    split_and!; [done|unfold busy; by rewrite E3|by rewrite E1|by apply Hψ'].
Qed.

Lemma own_change_self f : (∀ s, goal_class (newGoal (f s)) = goal_class (newGoal s)) → ∀ g, own_change (goal_self f) g.
Proof. intros Hf g. by split_and!; [..|apply (Hf (g_self g))]. Qed.

Lemma wp_run_upd_derivation f we ψ ψ' (Q : () → Worker W → Prop) E w :
  running hs V X this we ψ w →
  (∀ s, ψ s → ∃ d, s = SelfDerivation d) →
  (∀ d, ψ (SelfDerivation d) → ψ' (SelfDerivation (f d)) ∧
     self_procs (SelfDerivation (f d)) = self_procs (SelfDerivation d)) →
  (∀ w', running hs V X this we ψ' w' → Q () w') → wp (upd_derivation this f) Q E w.
Proof.
  intros Hr Hd Hf HQ. apply wp_modify, HQ. eapply running_own; [exact Hr| |].
  - intros g. apply own_change_self. by intros [].
  - intros g Hg. destruct (Hd _ Hg) as [d Ed]. rewrite !goal_procs_self. cbn. rewrite Ed in *. apply (Hf d Hg).
Qed.
End steps.

(** * Queues, ends and beginnings *)

Lemma wp_run_push hs U this ψ w w' g :
  running hs (this :: U) [] this (.= []) ψ w → this ∉ U → w_heap w !! this = Some g → pushed this g w w' →
  running hs U [] this (.= []) ψ w'.
Proof.
  intros (HI & Hh & g' & Hg' & Hb & Hwe & Hψ) HU Hg Hp. assert (g' = g) as -> by congruence.
  destruct (pushed_same _ _ _ _ Hp) as ([E1 _ E3 _ _] & _).
  split_and!; [by eapply Inv_push|by rewrite E3|exists g; by rewrite E1].
Qed.

Lemma wp_run_wakeUp hs U this ψ w (Q : () → Worker W → Prop) E :
  running hs (this :: U) [] this (.= []) ψ w → this ∉ U →
  (∀ w', running hs U [] this (.= []) ψ w' → Q () w') → wp (wakeUp this) Q E w.
Proof.
  intros Hr HU HQ. pose proof Hr as (_ & _ & g & Hg & _). apply wp_modify, HQ.
  eapply wp_run_push; [exact Hr|done|exact Hg|constructor].
Qed.

Lemma wp_run_waitForAnyGoal hs U this ψ w (Q : () → Worker W → Prop) E :
  running hs (this :: U) [] this (.= []) ψ w → this ∉ U → (∀ s, ψ s → self_procs s = []) →
  (∀ w', running hs U [] this (.= []) ψ w' → Q () w') → wp (waitForAnyGoal this) Q E w.
Proof.
  intros Hr HU Hψ HQ. pose proof Hr as (_ & _ & g & Hg & _ & _ & Hs). apply wp_modify, HQ.
  eapply wp_run_push; [exact Hr|done|exact Hg|apply push_any; by apply Hψ].
Qed.

Lemma wp_run_waitForAWhile hs U this ψ w (Q : () → Worker W → Prop) E :
  running hs (this :: U) [] this (.= []) ψ w → this ∉ U → (∀ s, ψ s → self_procs s = []) →
  (∀ w', running hs U [] this (.= []) ψ w' → Q () w') → wp (waitForAWhile this) Q E w.
Proof.
  intros Hr HU Hψ HQ. pose proof Hr as (_ & _ & g & Hg & _ & _ & Hs). apply wp_modify, HQ.
  eapply wp_run_push; [exact Hr|done|exact Hg|apply push_while; by apply Hψ].
Qed.

Lemma wp_run_waitForBuildSlot hs U this ψ w (Q : () → Worker W → Prop) E :
  running hs (this :: U) [] this (.= []) ψ w → this ∉ U → (∀ s, ψ s → self_procs s = []) →
  (∀ w', running hs U [] this (.= []) ψ w' → Q () w') → wp (waitForBuildSlot this) Q E w.
Proof.
  intros Hr HU Hψ HQ. unfold waitForBuildSlot. apply wp_bind, wp_gets; [|done]. intros n [= <-].
  destruct (decide (w_nrLocalBuilds w < set_maxBuildJobs)%Z); [by eapply wp_run_wakeUp|].
  pose proof Hr as (_ & _ & g & Hg & _ & _ & Hs). apply wp_modify, HQ.
  eapply wp_run_push; [exact Hr|done|exact Hg|apply push_slot; [by apply Hψ|lia]].
Qed.

Lemma wp_run_amDone hs U this ψ w result (Q : () → Worker W → Prop) :
  running hs (this :: U) [] this (.= []) ψ w → this ∉ U → (∀ s, ψ s → self_procs s = []) → result ≠ ecBusy →
  (∀ w', rested hs U w' → Q () w') → wp (amDone this result) Q no_fault w.
Proof.
  intros (HI & Hh & g & Hg & Hb & Hwe & Hs) HU Hψ Hres HQ.
  eapply wp_amDone; [exact HI|done|exact Hg|done|done|by apply Hψ|done|].
  intros w' HI' Hh'. apply HQ. split; [done|by rewrite Hh'].
Qed.

(** ** New goals *)

Definition new_goal_state (p : GoalPtr) (self : GoalSelf) w : Worker W :=
  on_awake (addToWeakGoals p)
    (match gp_class p with
     | ClassDerivationGoal => on_derivationGoals (<[gp_path p := p]>)
     | ClassSubstitutionGoal => on_substitutionGoals (<[gp_path p := p]>)
     end (on_heap (<[p := newGoal self]>) (on_serial S w))).

Lemma new_goal_map p self w cls :
  goal_map (new_goal_state p self w) cls =
  if decide (cls = gp_class p) then <[gp_path p := p]> (goal_map w cls) else goal_map w cls.
Proof. unfold new_goal_state. by destruct (gp_class p), cls. Qed.

Lemma new_goal_fields p self w :
  let w' := new_goal_state p self w in
  w_heap w' = <[p := newGoal self]> (w_heap w) ∧ w_serial w' = S (w_serial w) ∧ w_held w' = w_held w ∧
  w_topGoals w' = w_topGoals w ∧ w_awake w' = addToWeakGoals p (w_awake w) ∧ sleepers w' = sleepers w ∧
  w_wantingToBuild w' = w_wantingToBuild w ∧ w_children w' = w_children w ∧
  w_nrLocalBuilds w' = w_nrLocalBuilds w ∧ w_hook w' = w_hook w ∧ w_substituter w' = w_substituter w.
Proof. unfold new_goal_state. by destruct (gp_class p). Qed.

Definition fresh_self (cls : GoalClass) (self : GoalSelf) : Prop :=
  goal_class (newGoal self) = cls ∧ coherent (newGoal self) ∧ goal_procs (newGoal self) = [].

Lemma Inv_new_goal V B X w p self :
  Inv V B None [] X w → gp_serial p = w_serial w → fresh_self (gp_class p) self →
  (∀ q, goal_map w (gp_class p) !! gp_path p = Some q → w_heap w !! q = None) →
  (∀ q, q ∈ B → is_Some (w_heap w !! q)) → Inv V B None [] X (new_goal_state p self w).
Proof.
  intros [Hl [O1 O2 O3 O4 O5 O6 O7 O8 O9] Hs Hc Hco Hh Hpe Hal] Hn (Hcls & Hcoh & Hpr) Hm HB.
  destruct (new_goal_fields p self w) as (Eh & Es & Ed & Et & Ea & Esl & Ew & Ec & En & Ei & Ej).
  set (w' := new_goal_state p self w) in *.
  assert (w_heap w !! p = None) as Hp.
  { destruct (w_heap w !! p) eqn:E; [|done]. pose proof (O2 p ltac:(eauto)). lia. }
  assert (∀ x, is_Some (w_heap w !! x) → x ≠ p) as Hne by (intros x [y Hy] ->; congruence).
  assert (∀ x y, w_heap w' !! x = Some y → x = p ∧ y = newGoal self ∨ x ≠ p ∧ w_heap w !! x = Some y) as Hinv.
  { intros x y. rewrite Eh, lookup_insert_Some. naive_solver. }
  assert (∀ x y, w_heap w !! x = Some y → w_heap w' !! x = Some y) as Hinv'.
  { intros x y Hx. rewrite Eh, lookup_insert_ne; [done|]. intros <-. congruence. }
  assert (p ∉ queues w) as Hpq by (intros Hq; pose proof (O4 p Hq); lia).
  assert (queues w' ≡ₚ p :: queues w) as Hq.
  { unfold queues at 1. fold (sleepers w'). rewrite Ea, Esl, addToWeakGoals_new; [apply (push_perm [])|].
    intros ?. apply Hpq. unfold queues. by apply elem_of_app; left. }
  assert (∀ x, x ∈ V → x ≠ p) as HpV.
  { intros x Hx. apply Hne. destruct (decide (x ∈ B)) as [Hb|Hb]; [by apply HB|].
    destruct (Hpe x Hx Hb) as (g & ? & _). eauto. }
  constructor.
  - destruct Hl as [L1 L2 L3 L4 L5]. constructor.
    + intros x y q [[-> ->]|[_ Hx]]%Hinv Hq'; [by apply elem_of_nil in Hq'|].
      destruct (L1 x y q Hx Hq') as (h & ? & ?). exists h. split; [by apply Hinv'|done].
    + intros q h x y [[-> ->]|[_ Hq']]%Hinv Hw; [by apply elem_of_nil in Hw|].
      intros [[-> ->]|[_ Hx]]%Hinv; [|by apply (L2 q h x y)]. pose proof (O3 q h p Hq' Hw). lia.
    + intros x y [[-> ->]|[_ Hx]]%Hinv; [constructor|by apply (L3 x)].
    + intros x y [[-> ->]|[_ Hx]]%Hinv; [constructor|by apply (L4 x y)].
    + intros x y [[-> ->]|[_ Hx]]%Hinv; [done|by apply (L5 x)].
  - constructor; rewrite ?Es, ?Et; try done.
    + intros x y [[-> ->]|[_ Hx]]%Hinv; [done|by apply O1].
    + intros x [y [[-> ->]|[_ Hx]]%Hinv]; [lia|]. pose proof (O2 x ltac:(eauto)). lia.
    + intros q h x [[-> ->]|[_ Hx]]%Hinv Hw; [by apply elem_of_nil in Hw|]. pose proof (O3 q h x Hx Hw). lia.
    + intros x Hx. rewrite Hq in Hx. apply elem_of_cons in Hx as [->|Hx]; [lia|]. pose proof (O4 x Hx). lia.
    + intros x y [[-> ->]|[Hne' Hx]]%Hinv Hu; unfold w'; rewrite new_goal_map.
      * rewrite decide_True by done. by rewrite lookup_insert_eq.
      * pose proof (O5 x y Hx Hu) as Hr. case_decide as Ecl; [|done]. rewrite lookup_insert_ne; [done|].
        intros Ep. rewrite Ecl, <-Ep in Hr. rewrite (Hm x Hr) in Hx. done.
    + intros cls path x y Hm' Hx. unfold w' in Hm'. rewrite new_goal_map in Hm'.
      apply Hinv in Hx as [[-> ->]|[Hne' Hx]].
      * assert (goal_map w cls !! path ≠ Some p) as Hns by (intros Hs'; pose proof (O9 cls path p Hs'); lia).
        split; [by left|]. case_decide as Ecl; [|done]. by apply lookup_insert_Some in Hm' as [[<- _]|[_ Hm']].
      * assert (goal_map w cls !! path = Some x) as Hm2; [|by apply (O6 cls path x y)].
        case_decide; [|done]. by apply lookup_insert_Some in Hm' as [[_ ?]|[_ ?]].
    + intros x Hx. destruct (O7 x Hx) as (g & Hg & ?). exists g. split; [by apply Hinv'|done].
    + intros cls path x. unfold w'. rewrite new_goal_map. case_decide; [|intros Hx; pose proof (O9 _ _ _ Hx); lia].
      intros [[_ <-]|[_ Hx]]%lookup_insert_Some; [lia|]. pose proof (O9 _ _ _ Hx). lia.
  - destruct Hs as [S1 S2 S3 S4 S5]. constructor; rewrite ?Ew, ?En; try done.
    + rewrite Hq. by constructor.
    + intros x y Hx [[-> ->]|[Hne' Hy]]%Hinv; [split_and!; [|done|done]; intros Hx'; by apply (HpV p)|].
      rewrite Hq in Hx. apply elem_of_cons in Hx as [->|Hx]; [done|by apply S2].
    + intros x y Hx [[-> ->]|[Hne' Hy]]%Hinv; [done|]. rewrite Esl in Hx. by apply (S3 x).
    + intros x y [[-> ->]|[Hne' Hy]]%Hinv Hb Hn' Htop; rewrite Hq; [left; by left|]. rewrite Et in Htop.
      destruct (S4 x y Hy Hb Hn' Htop) as [?|?]; [left; by right|by right].
  - destruct Hc as [C1 C2 C3 C4 C5 C6 C7 C8 C9 C10].
    assert (idle_agents w' = idle_agents w) as Eid by (unfold idle_agents; by rewrite Ei, Ej).
    constructor; rewrite ?Ec, ?En, ?Eid, ?Ei, ?Ej; try done.
    + intros pid c Hpid Hn'. destruct (C1 pid c Hpid Hn') as (g & Hg & ?). exists g. split; [by apply Hinv'|done].
    + intros x y pid [[-> ->]|[Hne' Hy]]%Hinv Hin; [rewrite Hpr in Hin; by apply elem_of_nil in Hin|by apply (C2 x y)].
    + intros pid x y x' y' HX Hx Hx' Hy Hy'.
      apply Hinv in Hx as [[-> ->]|[_ Hx]]; [rewrite Hpr in Hy; by apply elem_of_nil in Hy|].
      apply Hinv in Hx' as [[-> ->]|[_ Hx']]; [rewrite Hpr in Hy'; by apply elem_of_nil in Hy'|]. by apply (C9 pid x y x' y').
  - intros x y [[-> ->]|[_ Hx]]%Hinv; [done|by apply Hco].
  - rewrite Ed. done.
  - intros x Hx Hb. destruct (Hpe x Hx Hb) as (g & ? & ?). exists g. split; [by apply Hinv'|done].
  - intros x Hx. rewrite Ed in Hx. destruct (Hal x Hx) as [y Hy]. exists y. by apply Hinv'.
Qed.

(** Only the wanted outputs change. *)
Lemma addWantedOutputs_shape o d :
  ∃ wanted restart, addWantedOutputs o d = dgoal_needRestart (λ _, restart) (dgoal_wantedOutputs (λ _, wanted) d).
Proof.
  unfold addWantedOutputs. case_decide; [exists (dg_wantedOutputs d), (dg_needRestart d); by destruct d|].
  case_decide; [by exists [], true|]. clear.
  induction o as [|i o IH] using rev_ind; [exists (dg_wantedOutputs d), (dg_needRestart d); by destruct d|].
  rewrite foldl_app. simpl. destruct IH as (wanted & restart & ->). destruct (set_mem _ _); [by exists wanted, restart|].
  by exists (set_insert i wanted), true.
Qed.

(** Every goal that has not ended is in a queue. *)
Definition all_queued (w : Worker W) : Prop := ∀ p, busy_goal w p → p ∈ queues w.

(** What making a goal leaves of the others. *)
Definition kept (w w' : Worker W) : Prop :=
  w_held w' = w_held w ∧ w_topGoals w' = w_topGoals w ∧
  (∀ x g, w_heap w !! x = Some g → ∃ g', w_heap w' !! x = Some g' ∧
    (g' = g ∨ ∃ o, g' = on_derivation (addWantedOutputs o) g)) ∧
  (all_queued w → all_queued w').

Lemma lock_entry_None (w : Worker W) (m : Worker W → gmap bytes GoalPtr) path :
  (match m w !! path with Some p => if alive w p then Some p else None | None => None end) = None →
  ∀ q, m w !! path = Some q → w_heap w !! q = None.
Proof.
  intros Hn q Hq. rewrite Hq in Hn. destruct (alive w q) eqn:Ea; [done|].
  destruct (w_heap w !! q) eqn:E; [|done]. assert (alive w q = true) by (apply alive_spec; eauto). congruence.
Qed.

Lemma lock_entry_Some (w : Worker W) (m : Worker W → gmap bytes GoalPtr) path p :
  (match m w !! path with Some p => if alive w p then Some p else None | None => None end) = Some p →
  m w !! path = Some p ∧ ∃ g, w_heap w !! p = Some g.
Proof.
  destruct (m w !! path) as [q|]; [|done]. destruct (alive w q) eqn:Ea; [|done]. intros [= <-].
  apply alive_spec in Ea as [g ?]. eauto.
Qed.

Lemma new_goal_kept V B X w p self :
  Inv V B None [] X w → gp_serial p = w_serial w →
  kept w (new_goal_state p self w) ∧ busy_goal (new_goal_state p self w) p.
Proof.
  intros HI Hn. destruct (new_goal_fields p self w) as (Eh & _ & Ed & Et & Ea & Esl & _). split; [split_and!; [done|done| |]|].
  - intros x g Hx. exists g. rewrite Eh, lookup_insert_ne; [by split; [|left]|].
    intros <-. pose proof (ob_fresh _ _ (inv_objects _ _ _ _ _ _ HI) p ltac:(eauto)). lia.
  - intros Hall x (g & Hx & Hb). unfold queues. fold (sleepers (new_goal_state p self w)). rewrite Ea, Esl, elem_of_app.
    rewrite Eh in Hx. apply lookup_insert_Some in Hx as [[-> _]|[_ Hx]]; [left; apply elem_addToWeakGoals; by left|].
    destruct (proj1 (elem_of_app _ _ _) (Hall x ltac:(by exists g))) as [?|?]; [left; apply elem_addToWeakGoals|]; by right.
  - exists (newGoal self). by rewrite Eh, lookup_insert_eq.
Qed.

Lemma newSubstitutionGoal_fresh repair : fresh_self ClassSubstitutionGoal (SelfSubstitution (newSubstitutionGoal repair)).
Proof. split_and!; [done|constructor; try done; by cbn; lia|done]. Qed.

Lemma newDerivationGoal_fresh wanted mode :
  fresh_self ClassDerivationGoal (SelfDerivation (newDerivationGoal wanted mode)).
Proof. split_and!; [done|constructor; try done; by cbn; lia|done]. Qed.

Lemma wp_makeSubstitutionGoal V B X w path repair (Q : GoalPtr → Worker W → Prop) E :
  Inv V B None [] X w → (∀ q, q ∈ B → is_Some (w_heap w !! q)) →
  (∀ p w', Inv V B None [] X w' → busy_goal w' p → kept w w' → Q p w') →
  wp (makeSubstitutionGoal path repair) Q E w.
Proof.
  intros HI HB HQ. unfold makeSubstitutionGoal. apply wp_bind, wp_gets; [|done]. intros o [= Ho].
  destruct o as [p|].
  - apply lock_entry_Some in Ho as [Hm [g Hg]]. apply wp_ret, HQ; [done| |].
    + exists g. split; [done|]. by destruct (ob_map _ _ (inv_objects _ _ _ _ _ _ HI) ClassSubstitutionGoal path p g Hm Hg) as ([?|[]] & _).
    + split_and!; [done|done| |done]. intros x h Hx. exists h. by split; [|left].
  - pose proof (lock_entry_None w w_substitutionGoals path Ho) as Hm. set (p := mkGoalPtr (w_serial w) ClassSubstitutionGoal path).
    set (self := SelfSubstitution (newSubstitutionGoal repair)).
    assert (Inv V B None [] X (new_goal_state p self w)) as HI'.
    { apply Inv_new_goal; [done|done|apply newSubstitutionGoal_fresh|exact Hm|done]. }
    destruct (new_goal_kept V B X w p self HI eq_refl) as [Hk Hbp]. exact (HQ p _ HI' Hbp Hk).
Qed.

Lemma coherent_wanted o g : coherent g → coherent (on_derivation (addWantedOutputs o) g).
Proof.
  intros Hc. destruct g as [ws wr n1 n2 n3 ec [d|s]]; [|exact Hc]. cbn. unfold on_derivation, goal_self. cbn.
  destruct (addWantedOutputs_shape o d) as (wanted & restart & ->).
  destruct Hc as [C1 C2 C3 C4 C5]. by constructor.
Qed.

Lemma procs_wanted o g : goal_procs (on_derivation (addWantedOutputs o) g) = goal_procs g.
Proof.
  destruct g as [ws wr n1 n2 n3 ec [d|s]]; [|done]. cbn. unfold on_derivation, goal_self. cbn.
  by destruct (addWantedOutputs_shape o d) as (wanted & restart & ->).
Qed.

Lemma wp_makeDerivationGoal V B X w path wanted mode (Q : GoalPtr → Worker W → Prop) E :
  Inv V B None [] X w → (∀ q, q ∈ B → is_Some (w_heap w !! q)) → tolerant E →
  (∀ p w', Inv V B None [] X w' → busy_goal w' p → kept w w' → Q p w') →
  wp (makeDerivationGoal path wanted mode) Q E w.
Proof.
  intros HI HB HE HQ. unfold makeDerivationGoal. apply wp_bind, wp_gets; [|done]. intros o [= Ho].
  destruct o as [p|].
  - apply lock_entry_Some in Ho as [Hm [g Hg]]. apply wp_bind, wp_modify, wp_ret, HQ.
    + apply Inv_own; [done|]. intros g' Hg'. split_and!; [apply own_change_self; by intros []| |apply procs_wanted].
      destruct (decide (p ∈ B)) as [?|Hn]; [by left|right]. by apply coherent_wanted, (inv_coherent _ _ _ _ _ _ HI p g').
    + exists (on_derivation (addWantedOutputs wanted) g). cbn. rewrite lookup_alter_eq, Hg. split; [done|].
      by destruct (ob_map _ _ (inv_objects _ _ _ _ _ _ HI) ClassDerivationGoal path p g Hm Hg) as ([?|[]] & _).
    + split_and!; [done|done| |].
      * intros x h Hx. cbn. rewrite alter_fmap, Hx. simpl.
        destruct (decide (x = p)); eexists; (split; [done|]); [right; eauto|by left].
      * intros Hall x (h & Hx & Hb). apply (Hall x). cbn in Hx.
        apply lookup_alter_Some in Hx as [(-> & h' & Hx & ->)|[_ Hx]]; [by exists h'|by exists h].
  - apply wp_bind, wp_run_call_same; [done|done|]. intros [] w1 Hss.
    pose proof (Inv_same_sched _ _ _ _ _ _ _ HI Hss) as HI1. pose proof (ss_goals _ _ Hss) as [E1 E2 E3 E4 E5].
    pose proof (lock_entry_None w w_derivationGoals path Ho) as Hm. rewrite <-E1 in Hm.
    rewrite <-(E5 ClassDerivationGoal : w_derivationGoals w1 = w_derivationGoals w) in Hm.
    set (p := mkGoalPtr (w_serial w1) ClassDerivationGoal path).
    set (self := SelfDerivation (newDerivationGoal wanted mode)).
    assert (Inv V B None [] X (new_goal_state p self w1)) as HI'.
    { apply Inv_new_goal; [done|done|apply newDerivationGoal_fresh|exact Hm|by rewrite E1]. }
    destruct (new_goal_kept V B X w1 p self HI1 eq_refl) as [(K1 & K2 & K3 & K4) Hbp]. apply (HQ p _ HI' Hbp).
    split_and!; [by rewrite K1|by rewrite K2|by rewrite <-E1|]. intros Hall. apply K4. intros x (h & Hx & Hb).
    unfold queues. rewrite (ss_awake _ _ Hss), (ss_wantingToBuild _ _ Hss), (ss_waitingForAnyGoal _ _ Hss), (ss_waitingForAWhile _ _ Hss).
    apply (Hall x). exists h. by rewrite <-E1.
Qed.

(** The same for a running goal. *)
Definition stable_wanted (ψ : GoalSelf → Prop) : Prop :=
  ∀ d o, ψ (SelfDerivation d) → ψ (SelfDerivation (addWantedOutputs o d)).

Lemma running_kept hs V X this we ψ w w' :
  running hs V X this we ψ w → stable_wanted ψ → Inv V [this] None [] X w' → kept w w' → running hs V X this we ψ w'.
Proof.
  intros (HI & Hh & g & Hg & Hb & Hwe & Hψ) Hst HI' (K1 & _ & K3 & _). split_and!; [done|by rewrite K1|].
  destruct (K3 this g Hg) as (g' & Hg' & [->|[o ->]]); [by exists g|]. eexists. split; [exact Hg'|].
  split_and!; [done|done|]. cbn. destruct (g_self g) as [d|s]; [by apply Hst|done].
Qed.

Lemma running_alive hs V X this we ψ w :
  running hs V X this we ψ w → ∀ q, q ∈ [this] → is_Some (w_heap w !! q).
Proof. intros (_ & _ & g & Hg & _) q ->%list_elem_of_singleton. eauto. Qed.

Lemma wp_run_add_substitution hs U this we ψ w path repair (Q : () → Worker W → Prop) :
  running hs (this :: U) [] this we ψ w → stable_wanted ψ →
  (∀ w', running hs (this :: U) [] this (.≠ []) ψ w' → Q () w') →
  wp (waitee ← makeSubstitutionGoal path repair; addWaitee this waitee) Q no_fault w.
Proof.
  intros Hr Hst HQ. apply wp_bind. eapply wp_makeSubstitutionGoal; [apply Hr|by eapply running_alive|].
  intros p w' HI' Hb Hk. eapply wp_addWaitee; [by eapply running_kept|done|done].
Qed.

Lemma wp_run_add_derivation hs U this we ψ w path wanted mode (Q : () → Worker W → Prop) :
  running hs (this :: U) [] this we ψ w → stable_wanted ψ →
  (∀ w', running hs (this :: U) [] this (.≠ []) ψ w' → Q () w') →
  wp (waitee ← makeDerivationGoal path wanted mode; addWaitee this waitee) Q no_fault w.
Proof.
  intros Hr Hst HQ. apply wp_bind. eapply wp_makeDerivationGoal; [apply Hr|by eapply running_alive|apply no_fault_tolerant|].
  intros p w' HI' Hb Hk. eapply wp_addWaitee; [by eapply running_kept|done|done].
Qed.

(** * Processes *)

(** The child [pid] of [this] is ending. *)
Definition ending (hs V : list GoalPtr) (pid : Z) (this : GoalPtr) (we : list GoalPtr → Prop)
    (ψ : GoalSelf → Prop) (w : Worker W) : Prop :=
  Inv V [this] None [pid] [] w ∧ w_held w = hs ∧
  ∃ g, w_heap w !! this = Some g ∧ busy g ∧ we (g_waitees g) ∧ ψ (g_self g).

Lemma ending_start hs V this we ψ ψ' f pid w :
  running hs V [] this we ψ w → this ∈ V → (∀ g, own_change f g) →
  (∀ g, ψ (g_self g) → ψ' (g_self (f g)) ∧ goal_procs g = [pid] ∧ goal_procs (f g) = []) →
  ending hs V pid this we ψ' (on_heap (alter f this) w).
Proof.
  intros (HI & Hh & g & Hg & Hb & Hwe & Hψ) HV Hf Hψ'. destruct (Hψ' g Hψ) as (H1 & H2 & H3). split_and!; [|done|].
  - eapply Inv_own_gen; [exact HI| |].
    + intros g0 Hg0. split_and!; [done|left; by left|by right].
    + destruct (inv_children _ _ _ _ _ _ HI) as [C1 C2 C3 C4 C5 C6 C7 C8 C9 C10]. constructor; cbn; try done.
      * intros q c Hc Hn. destruct (C1 q c Hc) as (g0 & Hg0 & Hin); [apply not_elem_of_nil|].
        exists g0. split; [|done]. rewrite lookup_alter_ne; [done|]. intros E. rewrite <-E, Hg in Hg0. injection Hg0 as <-. rewrite H2 in Hin. done.
      * intros x y q [(-> & g0 & Hg0 & ->)|[Hne Hy]]%lookup_alter_Some Hin _.
        { simplify_eq. rewrite H3 in Hin. by apply elem_of_nil in Hin. }
        destruct (C2 x y q Hy Hin) as (? & _ & c & Hc & Ec); [apply not_elem_of_nil|]. split_and!; [done| |eauto].
        intros ->%list_elem_of_singleton. destruct (C2 this g pid Hg) as (_ & _ & c' & Hc' & Ec'); [rewrite H2; by left|apply not_elem_of_nil|].
        naive_solver.
      * intros q ->%list_elem_of_singleton. destruct (C2 this g pid Hg) as (? & _ & c' & Hc' & Ec'); [rewrite H2; by left|apply not_elem_of_nil|].
        split; [done|eauto].
      * intros q x y x' y' Hq. by apply elem_of_nil in Hq.
  - exists (f g). cbn. rewrite lookup_alter_eq, Hg. destruct (Hf g) as (E1 & _ & E3 & _).
    split_and!; [done|unfold busy; by rewrite E3|by rewrite E1|done].
Qed.

Lemma ending_same hs V pid this we ψ w w' : ending hs V pid this we ψ w → same_sched w w' → ending hs V pid this we ψ w'.
Proof.
  intros (HI & Hh & g & Hg & ?) Hss. destruct (ss_goals _ _ Hss) as [E1 _ E3 _ _].
  split_and!; [by eapply Inv_same_sched|by rewrite E3|exists g; by rewrite E1].
Qed.

Lemma wp_end_terminated hs V pid this we ψ w (Q : () → Worker W → Prop) E :
  ending hs V pid this we ψ w →
  (∀ w', running hs V [] this we ψ w' → pid ≠ (-1)%Z ∧ w_children w' !! pid = None ∧ pid ∉ idle_agents w' → Q () w') →
  wp (childTerminated pid true) Q E w.
Proof.
  intros (HI & Hh & g & Hg & ?) HQ. eapply wp_childTerminated; [exact HI|apply not_elem_of_nil|].
  intros w' HI' [E1 _ E3 _ _] [Ec Ei]. apply HQ; [split_and!; [done|by rewrite E3|exists g; by rewrite E1]|].
  destruct (inv_children _ _ _ _ _ _ HI) as [_ _ C3 _ _ C6 _ _ _ _].
  destruct (C3 pid) as [Hp [c Hc]]; [by left|]. split_and!; [done|done|]. rewrite Ei. intros Hi.
  destruct (C6 pid Hi) as (_ & Hn & _). congruence.
Qed.

(** A process of [this] has been started and is not yet a child. *)
Lemma running_start hs V this we ψ ψ' f pid w :
  running hs V [] this we ψ w → this ∈ V → (∀ g, own_change f g) →
  (∀ g, ψ (g_self g) → ψ' (g_self (f g)) ∧ goal_procs g = [] ∧ goal_procs (f g) = [pid]) →
  pid ≠ (-1)%Z → w_children w !! pid = None → pid ∉ idle_agents w →
  running hs V [pid] this we ψ' (on_heap (alter f this) w).
Proof.
  intros (HI & Hh & g & Hg & Hb & Hwe & Hψ) HV Hf Hψ' Hp1 Hpc Hpi. destruct (Hψ' g Hψ) as (H1 & H2 & H3). split_and!; [|done|].
  - eapply Inv_own_gen; [exact HI| |].
    + intros g0 Hg0. split_and!; [done|left; by left|by right].
    + destruct (inv_children _ _ _ _ _ _ HI) as [C1 C2 C3 C4 C5 C6 C7 C8 C9 C10]. constructor; cbn; try done.
      * intros q c Hc Hn. destruct (C1 q c Hc Hn) as (g0 & Hg0 & Hin).
        exists g0. split; [|done]. rewrite lookup_alter_ne; [done|]. intros E. rewrite <-E, Hg in Hg0. injection Hg0 as <-. rewrite H2 in Hin. by apply elem_of_nil in Hin.
      * intros x y q [(-> & g0 & Hg0 & ->)|[Hne Hy]]%lookup_alter_Some Hin HnX.
        { simplify_eq. rewrite H3 in Hin. done. }
        apply (C2 x y q Hy Hin). apply not_elem_of_nil.
      * by intros q ->%list_elem_of_singleton.
      * intros q Hq. destruct (C6 q Hq) as (? & ? & _). split_and!; [done|done|]. intros ->%list_elem_of_singleton. done.
      * assert (∀ x y, alter f this (w_heap w) !! x = Some y → pid ∈ goal_procs y → x = this) as Hown.
        { intros x y [(-> & _)|[Hne Hy]]%lookup_alter_Some Hin; [done|].
          destruct (C2 x y pid Hy Hin) as (_ & _ & c & Hc & _); [apply not_elem_of_nil|congruence]. }
        intros q x y x' y' ->%list_elem_of_singleton Hx Hx' Hy Hy'. by rewrite (Hown x y), (Hown x' y').
  - exists (f g). cbn. rewrite lookup_alter_eq, Hg. destruct (Hf g) as (E1 & _ & E3 & _).
    split_and!; [done|unfold busy; by rewrite E3|by rewrite E1|done].
Qed.

Lemma wp_run_childStarted hs V this we ψ pid fds slot timeouts w (Q : () → Worker W → Prop) E :
  running hs V [pid] this we ψ w → (∀ s, ψ s → self_procs s = [pid]) → tolerant E →
  (slot = true → (w_nrLocalBuilds w < slot_limit)%Z) →
  (∀ w', running hs V [] this we ψ w' → Q () w') → wp (childStarted this pid fds slot timeouts) Q E w.
Proof.
  intros Hr Hψ HE Hslot HQ. unfold childStarted. apply wp_bind, wp_run_call_same; [done|done|].
  intros now w1 Hss. rewrite <-(ss_nrLocalBuilds _ _ Hss) in Hslot.
  apply (running_same _ _ _ _ _ _ _ _ Hr) in Hss as (HI & Hh & g & Hg & Hb & Hwe & Hs).
  set (c := mkChild this (merge_sort Z.le fds) timeouts slot now now).
  assert (∀ w2, w2 = on_children (<[pid := c]>) (if slot then on_nrLocalBuilds (λ n, (n + 1)%Z) w1 else w1) → Q () w2) as Hend.
  { intros w2 ->. apply HQ. set (w2 := on_children _ _).
    assert (same_goals w1 w2 ∧ queues w2 = queues w1 ∧ sleepers w2 = sleepers w1 ∧ w_wantingToBuild w2 = w_wantingToBuild w1 ∧
      w_children w2 = <[pid := c]> (w_children w1) ∧ w_hook w2 = w_hook w1 ∧ w_substituter w2 = w_substituter w1 ∧
      w_nrLocalBuilds w2 = (w_nrLocalBuilds w1 + (if slot then 1 else 0))%Z) as (Hsg & Eq & Esl & Ew & Ec & Ei & Ej & En).
    { unfold w2. destruct slot; split_and!; try done. cbn. lia. }
    pose proof Hsg as [E1 _ E3 _ _]. split_and!; [|by rewrite E3|exists g; by rewrite E1].
    eapply Inv_same_goals; [exact HI|done|done|rewrite Eq; apply (ob_fresh_queues _ _ (inv_objects _ _ _ _ _ _ HI))| |].
    - eapply (scheduled_requeue V w1); [apply HI|done|apply Hsg|rewrite Eq; apply HI|by rewrite Eq|by rewrite Esl|].
      rewrite Ew, En. intros Hne. pose proof (sc_slots _ _ (inv_scheduled _ _ _ _ _ _ HI) Hne). destruct slot; lia.
    - destruct (inv_children _ _ _ _ _ _ HI) as [C1 C2 C3 C4 C5 C6 C7 C8 C9 C10].
      destruct (C4 pid) as [Hp1 Hp2]; [by left|].
      assert (idle_agents w2 = idle_agents w1) as Eid by (unfold idle_agents; by rewrite Ei, Ej).
      constructor; rewrite ?E1, ?Ec, ?Eid, ?Ei, ?Ej; try done.
      + intros q c' [[<- <-]|[Hne Hc']]%lookup_insert_Some Hn; [|by apply C1].
        exists g. split; [done|]. rewrite goal_procs_self, (Hψ _ Hs). by left.
      + intros x y q Hx Hin _. destruct (decide (q = pid)) as [->|Hne].
        * split_and!; [done|apply not_elem_of_nil|]. exists c. rewrite lookup_insert_eq. split; [done|].
          symmetry. apply (C9 pid x y this g); [by left|done|done|done|]. rewrite goal_procs_self, (Hψ _ Hs). by left.
        * destruct (C2 x y q Hx Hin) as (? & ? & c' & Hc' & ?); [by intros ?%list_elem_of_singleton|].
          split_and!; [done|done|]. exists c'. by rewrite lookup_insert_ne.
      + intros q Hq. by apply elem_of_nil in Hq.
      + intros q Hq. by apply elem_of_nil in Hq.
      + rewrite En, C5. by rewrite (slots_insert _ _ c).
      + intros q Hq. destruct (C6 q Hq) as (? & ? & Hn). split_and!; [done| |apply not_elem_of_nil].
        rewrite lookup_insert_ne; [done|]. intros <-. apply Hn. by left.
      + intros q x y x' y' Hq. by apply elem_of_nil in Hq.
      + rewrite En. destruct slot; [specialize (Hslot eq_refl)|]; lia. }
  apply wp_bind, wp_modify, wp_when; intros ->; [apply wp_modify|]; by apply Hend.
Qed.

(** ** The agents the worker keeps *)

(** A process the worker may keep. *)
Definition agent_ok (X : list Z) w (a : Agent) : Prop :=
  ag_pid a ≠ (-1)%Z ∧ w_children w !! ag_pid a = None ∧ ag_pid a ∉ X.

Lemma idle_agent_ok U B fin D X w a :
  Inv U B fin D X w → w_hook w = Some a ∨ w_substituter w = Some a → agent_ok X w a.
Proof.
  intros HI Ha. destruct (inv_children _ _ _ _ _ _ HI) as [_ _ _ _ _ C6 _ _ _ _]. apply C6.
  unfold idle_agents. apply elem_of_app. destruct Ha as [-> | ->]; [left|right]; by left.
Qed.

Lemma idle_agents_distinct U B fin D X w a b :
  Inv U B fin D X w → w_hook w = Some a → w_substituter w = Some b → ag_pid a ≠ ag_pid b.
Proof.
  intros HI Ha Hb E. pose proof (ch_idle_nodup _ _ _ (inv_children _ _ _ _ _ _ HI)) as Hnd.
  unfold idle_agents in Hnd. rewrite Ha, Hb, E in Hnd. simpl in Hnd. apply NoDup_cons in Hnd as [Hn _]. apply Hn. by left.
Qed.

Lemma running_agents hs V X this we ψ w h s :
  running hs V X this we ψ w → (∀ a, h = Some a ∨ s = Some a → agent_ok X w a) →
  (∀ a b, h = Some a → s = Some b → ag_pid a ≠ ag_pid b) → (∀ a, h = Some a → ag_running a = true) →
  running hs V X this we ψ (on_hook (λ _, h) (on_substituter (λ _, s) w)).
Proof.
  intros (HI & Hh & g & Hg) Hok Hne Hrun. split_and!; [|done|by exists g].
  eapply Inv_same_goals; [exact HI|done|done|apply (ob_fresh_queues _ _ (inv_objects _ _ _ _ _ _ HI))| |].
  - by eapply (scheduled_requeue V w); [apply HI|done|done|apply HI|done|done|apply HI].
  - destruct (inv_children _ _ _ _ _ _ HI) as [C1 C2 C3 C4 C5 C6 C7 C8 C9 C10]. constructor; cbn; try done.
    + intros pid. unfold idle_agents. cbn. intros [Hp|Hp]%elem_of_app.
      * destruct h as [a|]; [|by apply elem_of_nil in Hp]. apply list_elem_of_singleton in Hp as ->.
        apply Hok. by left.
      * destruct s as [a|]; [|by apply elem_of_nil in Hp]. apply list_elem_of_singleton in Hp as ->.
        apply Hok. by right.
    + unfold idle_agents. cbn. destruct h as [a|], s as [b|]; simpl; try apply NoDup_singleton; [|constructor].
      apply NoDup_cons. split; [|apply NoDup_singleton]. intros E%list_elem_of_singleton. by apply (Hne a b).
Qed.

Lemma on_hook_eq h w : on_hook (λ _, h) w = on_hook (λ _, h) (on_substituter (λ _, w_substituter w) w).
Proof. by destruct w. Qed.
Lemma on_substituter_eq s w : on_substituter (λ _, s) w = on_hook (λ _, w_hook w) (on_substituter (λ _, s) w).
Proof. by destruct w. Qed.

Lemma running_keep_hook hs V X this we ψ w a :
  running hs V X this we ψ w → agent_ok X w a → ag_running a = true → ag_pid a ∉ live_pids w →
  running hs V X this we ψ (on_hook (λ _, Some a) w).
Proof.
  intros Hr Ha Hrun Hl. rewrite on_hook_eq. apply running_agents; [done| | |by intros ? [= <-]].
  - intros b [[= <-]|Hb]; [done|]. eapply idle_agent_ok; [apply Hr|by right].
  - intros ? b [= <-] Hb E. apply Hl. unfold live_pids. rewrite Hb, E. apply elem_of_app. right. apply elem_of_app. right. by left.
Qed.

Lemma running_take_hook hs V X this we ψ w :
  running hs V X this we ψ w → running hs V X this we ψ (on_hook (λ _, None) w).
Proof.
  intros Hr. rewrite on_hook_eq. apply running_agents; [done| |done|done].
  intros b [?|Hb]; [done|]. eapply idle_agent_ok; [apply Hr|by right].
Qed.

Lemma running_take_substituter hs V X this we ψ w :
  running hs V X this we ψ w → running hs V X this we ψ (on_substituter (λ _, None) w).
Proof.
  intros Hr. rewrite on_substituter_eq. apply running_agents; [done| |done|apply (ch_hook_running _ _ _ (inv_children _ _ _ _ _ _ (proj1 Hr)))].
  intros b [Hb|?]; [|done]. eapply idle_agent_ok; [apply Hr|by left].
Qed.

Lemma running_keep_substituter hs V X this we ψ w a :
  running hs V X this we ψ w → agent_ok X w a → ag_pid a ∉ idle_agents w →
  running hs V X this we ψ (on_substituter (λ _, Some a) w).
Proof.
  intros Hr Ha Hl. rewrite on_substituter_eq.
  apply running_agents; [done| | |apply (ch_hook_running _ _ _ (inv_children _ _ _ _ _ _ (proj1 Hr)))].
  - intros b [Hb|[= <-]]; [|done]. eapply idle_agent_ok; [apply Hr|by left].
  - intros b ? Hb [= <-] E. apply Hl. unfold idle_agents. rewrite Hb, E. by left.
Qed.

(** A new process is none of those the worker knows. *)
Lemma fresh_pid pid w : pid ∉ live_pids w → w_children w !! pid = None ∧ pid ∉ idle_agents w.
Proof.
  unfold live_pids. rewrite elem_of_app. intros Hn. split; [|intros ?; by apply Hn; right].
  destruct (w_children w !! pid) as [c|] eqn:E; [|done]. destruct Hn. left.
  apply list_elem_of_fmap. exists (pid, c). split; [done|]. by apply elem_of_map_to_list.
Qed.
End rules.
