(* ===== verification/BuildSafety.v ===== *)
(** The state functions of goals keep the invariant of the worker and fail none
    of its assertions. *)

From S2P Require Import Prelude StateMonad Containers Hash Paths StorePaths Derivations LocalDB GoalState Goals BuildGoals BuildWorker GoalInvariants GoalLinks GoalRules.

Section derivation.
Context {W : Type} {gc : Gcrypt} {settings : Settings} {handler : Handler W} {laws : HandlerLaws handler}
  {blaw : BuildErrorLaw handler}.
Context (hs U : list GoalPtr) (this : GoalPtr) (HU : this ∉ U) (Hcls : gp_class this = ClassDerivationGoal).
Implicit Types w : Worker W.

Abbreviation run_with := (running (W := W) hs (this :: U) [] this).

(** * Phases of a derivation goal *)

(** Before the build: no process, no lock. *)
Inductive early : GoalSelf → Prop :=
  early_intro d : self_procs (SelfDerivation d) = [] → dg_locks d = [] →
    dg_state d ≠ dsTryToBuild → dg_state d ≠ dsBuildDone → early (SelfDerivation d).

(** Trying to build: no process; [l] the locks. *)
Inductive trying (l : list bytes) : GoalSelf → Prop :=
  trying_intro d : self_procs (SelfDerivation d) = [] → dg_locks d = l →
    dg_state d = dsTryToBuild → dg_retrySubstitution d = false → trying l (SelfDerivation d).

(** The builder has been started. *)
Inductive building (pid : Z) : GoalSelf → Prop :=
  building_intro d : self_procs (SelfDerivation d) = [pid] → dg_retrySubstitution d = false →
    building pid (SelfDerivation d).

(** The builder has ended. *)
Inductive built : GoalSelf → Prop :=
  built_intro d : self_procs (SelfDerivation d) = [] → dg_retrySubstitution d = false → built (SelfDerivation d).

Definition is_derivation (s : GoalSelf) : Prop := ∃ d, s = SelfDerivation d.

Lemma early_derivation s : early s → is_derivation s.
Proof. intros [d]. by exists d. Qed.
Lemma trying_derivation l s : trying l s → is_derivation s.
Proof. intros [d]. by exists d. Qed.
Lemma building_derivation pid s : building pid s → is_derivation s.
Proof. intros [d]. by exists d. Qed.
Lemma built_derivation s : built s → is_derivation s.
Proof. intros [d]. by exists d. Qed.

Lemma early_stable : stable_wanted early.
Proof.
  intros d o Hd. destruct (addWantedOutputs_shape o d) as (wanted & restart & ->). inversion_clear Hd. by constructor.
Qed.

Lemma coherent_early g : early (g_self g) → busy g → coherent g.
Proof.
  destruct g as [ws wr n1 n2 n3 ec s]. simpl. intros [d Hp Hl Hs1 Hs2] Hb. unfold self_procs in Hp.
  change (goal_procs (mkGoal ws wr n1 n2 n3 ec (SelfDerivation d)) = []) in Hp. constructor.
  - rewrite Hp. simpl. lia.
  - intros _. rewrite Hp. unfold goal_building. simpl. by destruct (dg_state d).
  - done.
  - done.
  - by intros _ _.
  - by rewrite Hp.
Qed.

Lemma coherent_trying g : trying [] (g_self g) → busy g → coherent g.
Proof.
  destruct g as [ws wr n1 n2 n3 ec s]. simpl. intros [d Hp Hl Hs Hr] Hb. unfold self_procs in Hp.
  change (goal_procs (mkGoal ws wr n1 n2 n3 ec (SelfDerivation d)) = []) in Hp. constructor.
  - rewrite Hp. simpl. lia.
  - intros _. rewrite Hp. unfold goal_building. simpl. by rewrite Hs.
  - done.
  - done.
  - intros _. unfold retry_ok. simpl. by rewrite Hr.
  - by rewrite Hp.
Qed.

(** * Ends *)

Lemma wp_done_with ψ status w :
  run_with (.= []) ψ w → (∀ s, ψ s → is_derivation s ∧ self_procs s = []) →
  wp (done_with this status) (λ _, rested hs U) no_fault w.
Proof.
  intros Hr Hψ. unfold done_with. apply wp_bind.
  eapply (wp_run_upd_derivation hs (this :: U) [] this _ _ ψ (λ s, self_procs s = [])); [exact Hr|apply Hψ| |].
  { intros d Hd. by destruct (Hψ _ Hd) as [_ ?]. }
  intros w1 Hr1. apply wp_bind. eapply wp_run_amDone; [exact Hr1|done|done|by destruct (build_success status)|].
  intros w2 Hw2. apply wp_bind, wp_when; [intros _; apply wp_modify|intros _].
  all: apply wp_when; [intros _; apply wp_modify|intros _]; by eapply rested_same.
Qed.

Lemma wp_checkPathValidity we ψ returnValid checkHash w E :
  run_with we ψ w → tolerant E →
  wp (checkPathValidity this returnValid checkHash) (λ _, run_with we ψ) E w.
Proof.
  intros Hr HE. unfold checkPathValidity. apply wp_bind.
  eapply wp_run_get_derivation; [done|exact Hr|]. intros d _ _.
  apply (wp_iterM (λ _ _, run_with we ψ)); [done| |done]. intros i l result w1 Hr1.
  destruct (negb _); [by apply wp_ret|].
  apply wp_bind. eapply wp_run_call; [exact Hr1|done|done|]. intros valid w2 Hr2.
  apply wp_bind. destruct (valid && checkHash).
  - eapply wp_run_call; [exact Hr2|done|done|]. intros good w3 Hr3. by apply wp_ret.
  - apply wp_ret. by apply wp_ret.
Qed.

Lemma wp_any {A} (test : A → WM W bool) l (I R : Worker W → Prop) E w :
  (∀ x w, I w → wp (test x) (λ b w', if b then R w' else I w') E w) → I w →
  wp (any test l) (λ b w', if b then R w' else I w') E w.
Proof.
  intros Ht. revert w. induction l as [|x l IH]; intros w HI; [done|]. cbn [any].
  apply wp_bind. eapply wp_mono; [by apply Ht| |done]. intros [] w' Hw'; [done|by apply IH].
Qed.

Lemma wp_pathFailed ψ path w :
  run_with (.= []) ψ w → (∀ s, ψ s → is_derivation s ∧ self_procs s = []) →
  wp (pathFailed this path) (λ b w', if b then rested hs U w' else run_with (.= []) ψ w') no_fault w.
Proof.
  intros Hr Hψ. unfold pathFailed. destruct (negb _); [done|]. apply wp_bind.
  eapply wp_run_call; [exact Hr|apply no_fault_tolerant|done|]. intros failed w1 Hr1.
  destruct failed; [|done]. apply wp_bind. eapply wp_mono; [by eapply wp_done_with| |done]. done.
Qed.

Lemma early_facts s : early s → is_derivation s ∧ self_procs s = [].
Proof. intros []. split; [by eexists|done]. Qed.
Lemma trying_facts l s : trying l s → is_derivation s ∧ self_procs s = [].
Proof. intros []. split; [by eexists|done]. Qed.
Lemma built_facts s : built s → is_derivation s ∧ self_procs s = [].
Proof. intros []. split; [by eexists|done]. Qed.

(** * Before the build *)

Lemma wp_set_early st we w (Q : () → Worker W → Prop) :
  run_with we early w → st ≠ dsTryToBuild → st ≠ dsBuildDone →
  (∀ w', run_with we early w' → Q () w') → wp (set_state this st) Q no_fault w.
Proof.
  intros Hr H1 H2 HQ. eapply wp_run_upd_derivation; [exact Hr|by apply early_derivation| |exact HQ].
  intros d Hd. inversion_clear Hd. split; [by constructor|done].
Qed.

(** The state function [go] is called, or left for later. *)
Definition continues (go : DerivationState → WM W ()) : Prop := ∀ st w,
  st ≠ dsTryToBuild → st ≠ dsBuildDone → run_with (.= []) early w → wp (go st) (λ _, rested hs U) no_fault w.

Lemma wait_rested st w :
  run_with (.≠ []) early w → st ≠ dsTryToBuild → st ≠ dsBuildDone →
  wp (set_state this st) (λ _, rested hs U) no_fault w.
Proof.
  intros Hr H1 H2. eapply wp_set_early; [exact Hr|done|done|]. intros w' Hr'.
  eapply waiting_rested; [exact Hr'|done|]. intros g _ Hb Hw He. split; [by apply coherent_early|by left].
Qed.

Lemma wp_wait_or_go go next w :
  continues go → next ≠ dsTryToBuild → next ≠ dsBuildDone → run_with (λ _, True) early w →
  wp (wait_or_go this go next) (λ _, rested hs U) no_fault w.
Proof.
  intros Hgo H1 H2 Hr. unfold wait_or_go. apply wp_bind. eapply wp_run_get; [exact Hr|].
  intros g Hg Hb _ He. destruct Hr as (HI & Hh & _).
  case_decide as Hw; [apply Hgo|apply wait_rested]; try assumption.
  all: split; [exact HI|split; [exact Hh|exists g; split; [exact Hg|split; [exact Hb|by split]]]].
Qed.

Lemma wp_derivation_init go w :
  continues go → run_with (.= []) early w → wp (derivation_init this go) (λ _, rested hs U) no_fault w.
Proof.
  intros Hgo Hr. unfold derivation_init. destruct set_readOnlyMode; [by apply wp_throw|].
  apply wp_bind. eapply wp_run_get_derivation; [done|exact Hr|]. intros d _ _.
  assert (∀ (valid : bool) w1, run_with (.= []) early w1 →
    wp (if valid then go dsHaveDerivation
        else waitee ← makeSubstitutionGoal (gp_path this) false; addWaitee this waitee;; set_state this dsHaveDerivation)
      (λ _, rested hs U) no_fault w1) as Hend.
  { intros [] w1 Hr1; [by apply Hgo|]. apply wp_bind2.
    eapply wp_run_add_substitution; [exact Hr1|apply early_stable|]. intros w2 Hr2. by apply wait_rested. }
  apply wp_bind. case_decide; [|by apply wp_ret, (Hend false)].
  eapply wp_run_call; [exact Hr|apply no_fault_tolerant|done|]. intros valid w1 Hr1. by apply Hend.
Qed.

Lemma any_waitees we ψ w : run_with we ψ w → run_with (λ _, True) ψ w.
Proof. intros Hr. by eapply running_weaken. Qed.

(** Waitees added in a loop. *)
Lemma wp_add_all {A} (body : A → WM W ()) l w (Q : () → Worker W → Prop) :
  run_with (λ _, True) early w →
  (∀ x w1, run_with (λ _, True) early w1 → wp (body x) (λ _, run_with (λ _, True) early) no_fault w1) →
  (∀ w', run_with (λ _, True) early w' → Q () w') → wp (iter body l) Q no_fault w.
Proof. intros Hr Hb HQ. by apply (wp_iter (λ _, run_with (λ _, True) early)); [|intros x _ w1 Hr1; apply Hb|]. Qed.

Lemma wp_add_substitution path repair w :
  run_with (λ _, True) early w →
  wp (waitee ← makeSubstitutionGoal path repair; addWaitee this waitee) (λ _, run_with (λ _, True) early) no_fault w.
Proof. intros Hr. eapply wp_run_add_substitution; [exact Hr|apply early_stable|]. intros w' Hr'. by eapply any_waitees. Qed.

Lemma wp_add_derivation path wanted mode w :
  run_with (λ _, True) early w →
  wp (waitee ← makeDerivationGoal path wanted mode; addWaitee this waitee) (λ _, run_with (λ _, True) early) no_fault w.
Proof. intros Hr. eapply wp_run_add_derivation; [exact Hr|apply early_stable|]. intros w' Hr'. by eapply any_waitees. Qed.

Lemma wp_upd_early f we w (Q : () → Worker W → Prop) E :
  run_with we early w → (∀ d, early (SelfDerivation d) → early (SelfDerivation (f d)) ∧
    self_procs (SelfDerivation (f d)) = self_procs (SelfDerivation d)) →
  (∀ w', run_with we early w' → Q () w') → wp (upd_derivation this f) Q E w.
Proof. intros Hr Hf HQ. eapply wp_run_upd_derivation; [exact Hr|by apply early_derivation|exact Hf|exact HQ]. Qed.

Lemma harmless s w : bool_decide (s ∈ scheduler_faults) = false → no_fault (AssertionFailed s) w.
Proof. by rewrite bool_decide_eq_false. Qed.

(** Members that do not matter for the phase. *)
Ltac still := let d := fresh in intros d; inversion_clear 1; (split; [by constructor|done]).

Lemma wp_haveDerivation go w :
  continues go → run_with (.= []) early w → wp (haveDerivation this go) (λ _, rested hs U) no_fault w.
Proof.
  intros Hgo Hr. unfold haveDerivation. apply wp_bind. eapply wp_run_get; [exact Hr|]. intros g _ _ _ _.
  case_decide; [by eapply wp_done_with, early_facts|].
  apply wp_bind. eapply wp_run_call; [exact Hr|apply no_fault_tolerant|done|]. intros [] w1 H1.
  apply wp_bind. eapply wp_run_call; [exact H1|apply no_fault_tolerant|done|]. intros valid w2 H2.
  apply wp_bind, wp_check; [intros _|intros _; by apply harmless].
  apply wp_bind. eapply wp_run_call; [exact H2|apply no_fault_tolerant|done|]. intros drv w3 H3.
  apply wp_bind. eapply wp_upd_early; [exact H3|still|]. intros w4 H4.
  apply wp_bind, (wp_iter (λ _, run_with (.= []) early)); [exact H4| |].
  { intros i _ w5 H5. eapply wp_run_call; [exact H5|apply no_fault_tolerant|done|]. by intros []. }
  intros w5 H5. apply wp_bind. eapply wp_run_get_derivation; [done|exact H5|]. intros d _ _.
  apply wp_bind. eapply wp_mono; [by eapply wp_checkPathValidity, no_fault_tolerant| |done]. intros invalid w6 H6. cbn beta.
  destruct (_ && _); [by eapply wp_done_with, early_facts|].
  apply wp_bind. eapply wp_mono; [apply (wp_any _ _ (run_with (.= []) early) (rested hs U)); [|exact H6]| |done].
  { intros i w7 H7. by eapply wp_pathFailed, early_facts. }
  intros [] w7 H7; [by apply wp_ret|]. apply wp_bind, wp_when; [intros _|intros _; by eapply wp_wait_or_go, any_waitees].
  apply wp_add_all; [by eapply any_waitees|intros i w8 H8; by apply wp_add_substitution|]. intros w8 H8. by apply wp_wait_or_go.
Qed.

Lemma wp_calls_iterM {A S} (body : S → A → WM W S) l s we ψ w (Q : S → Worker W → Prop) :
  run_with we ψ w → (∀ x s w1, run_with we ψ w1 → wp (body s x) (λ _, run_with we ψ) no_fault w1) →
  (∀ s' w', run_with we ψ w' → Q s' w') → wp (iterM body l s) Q no_fault w.
Proof. intros Hr Hb HQ. apply (wp_iterM (λ _ _, run_with we ψ)); [exact Hr| |exact HQ]. intros x _ s1 w1. apply Hb. Qed.

(** The end of [outputsSubstituted] and of [repairClosure]. *)
Lemma wp_wait_or_done status next w :
  next ≠ dsTryToBuild → next ≠ dsBuildDone → run_with (λ _, True) early w →
  wp (g ← get_goal this; if decide (g_waitees g = []) then done_with this status else set_state this next)
    (λ _, rested hs U) no_fault w.
Proof.
  intros H1 H2 Hr. change (wp (wait_or_go this (λ _, done_with this status) next) (λ _, rested hs U) no_fault w).
  apply wp_wait_or_go; [|done|done|done]. intros st w1 _ _ Hr1. by eapply wp_done_with, early_facts.
Qed.

Lemma wp_repairClosure w :
  run_with (.= []) early w → wp (repairClosure this) (λ _, rested hs U) no_fault w.
Proof.
  intros Hr. unfold repairClosure. apply wp_bind. eapply wp_run_get_derivation; [done|exact Hr|]. intros d _ _.
  apply wp_bind. eapply wp_calls_iterM; [exact Hr| |].
  { intros i s w1 H1. destruct (negb _); [by apply wp_ret|]. eapply wp_run_call; [exact H1|apply no_fault_tolerant|done|]. done. }
  intros outputClosure w1 H1. apply wp_bind. eapply wp_run_call; [exact H1|apply no_fault_tolerant|done|].
  intros inputClosure w2 H2. apply wp_bind. eapply wp_calls_iterM; [exact H2| |].
  { intros i s w3 H3. destruct (isDerivation i); [|by apply wp_ret]. apply wp_bind.
    eapply wp_run_call; [exact H3|apply no_fault_tolerant|done|]. intros drv w4 H4. by apply wp_ret. }
  intros outputsToDrv w3 H3. apply wp_bind, wp_add_all; [by eapply any_waitees| |intros w4; by apply wp_wait_or_done].
  intros i w4 H4. apply wp_bind. eapply wp_run_call; [exact H4|apply no_fault_tolerant|done|]. intros good w5 H5.
  apply wp_when; [intros _|done]. case_decide; [by apply wp_add_substitution|by apply wp_add_derivation].
Qed.

Lemma wp_outputsSubstituted go w :
  continues go → run_with (.= []) early w → wp (outputsSubstituted this go) (λ _, rested hs U) no_fault w.
Proof.
  intros Hgo Hr. unfold outputsSubstituted. apply wp_bind. eapply wp_run_get; [exact Hr|]. intros g _ _ _ _.
  apply wp_bind, wp_check; [intros _|done].
  apply wp_bind, (wp_mono _ (λ _, run_with (.= []) early) _ no_fault); [|intros []|done].
  { apply wp_when; [intros _; eapply wp_upd_early; [exact Hr|still|done]|done]. }
  intros w1 H1. apply wp_bind, wp_modify.
  assert (run_with (.= []) early (on_heap (alter reset_counts this) w1)) as H2.
  { by eapply running_own; [exact H1|..]. }
  apply wp_bind. eapply wp_run_get_derivation; [done|exact H2|]. intros d _ _. destruct (dg_needRestart d).
  { apply wp_bind. eapply wp_upd_early; [exact H2|still|]. intros w3 H3. by apply Hgo. }
  apply wp_bind. eapply wp_mono; [by eapply wp_checkPathValidity, no_fault_tolerant| |done]. intros invalid w3 H3. cbn beta.
  destruct (_ && _); [by eapply wp_done_with, early_facts|]. destruct (_ && _); [by apply wp_repairClosure|].
  destruct (_ && _); [by apply wp_throw|].
  apply wp_bind. eapply wp_upd_early; [exact H3|still|]. intros w4 H4.
  apply wp_bind, wp_add_all; [by eapply any_waitees|intros i w5 H5; by apply wp_add_derivation|]. intros w5 H5.
  apply wp_bind, wp_add_all; [done|intros i w6 H6; by apply wp_add_substitution|]. intros w6 H6. by apply wp_wait_or_go.
Qed.

Lemma wp_closureRepaired w :
  run_with (.= []) early w → wp (closureRepaired this) (λ _, rested hs U) no_fault w.
Proof.
  intros Hr. unfold closureRepaired. apply wp_bind. eapply wp_run_get; [exact Hr|]. intros g _ _ _ _.
  apply wp_bind, wp_check; [intros _|done]. by eapply wp_done_with, early_facts.
Qed.

Lemma wp_inputsRealised go w :
  continues go → run_with (.= []) early w → wp (inputsRealised this go) (λ _, rested hs U) no_fault w.
Proof.
  intros Hgo Hr. unfold inputsRealised. apply wp_bind. eapply wp_run_get; [exact Hr|]. intros g _ _ _ _.
  case_decide; [by eapply wp_done_with, early_facts|].
  apply wp_bind. eapply wp_run_get_derivation; [done|exact Hr|]. intros d _ H0.
  destruct (dg_retrySubstitution d) eqn:Ed; [by apply Hgo|].
  set (ψ := λ s, s = SelfDerivation d ∧ early s) in H0.
  apply wp_bind. eapply wp_calls_iterM; [exact H0| |].
  { intros i paths w1 H1. apply wp_bind. eapply wp_run_call; [exact H1|apply no_fault_tolerant|done|]. intros valid w2 H2.
    apply wp_bind, wp_check; [intros _|intros _; by apply harmless].
    apply wp_bind. eapply wp_run_call; [exact H2|apply no_fault_tolerant|done|]. intros inDrv w3 H3.
    eapply wp_calls_iterM; [exact H3| |done]. intros j paths' w4 H4. destruct (map_find _ _); [|by apply wp_throw].
    by eapply wp_run_call; [exact H4|apply no_fault_tolerant|..]. }
  intros inputPaths w1 H1. apply wp_bind. eapply wp_calls_iterM; [exact H1| |].
  { intros i paths w2 H2. by eapply wp_run_call; [exact H2|apply no_fault_tolerant|..]. }
  intros inputPaths' w2 H2. apply wp_bind.
  eapply (wp_run_upd_derivation _ _ _ _ _ _ ψ (trying [])); [exact H2|intros s [-> _]; by eexists| |].
  { intros d0 [[= ->] He]. inversion_clear He. by split; [constructor|]. }
  intros w3 H3. eapply wp_run_wakeUp; [exact H3|done|]. intros w4 H4.
  eapply queued_rested; [exact H4|done|]. intros g' _ Hb _ Ht. by apply coherent_trying.
Qed.

(** * Trying to build *)

Lemma wp_unlock_outputs V ψ ψ' deletion w (Q : () → Worker W → Prop) E :
  running hs V [] this (.= []) ψ w → tolerant E →
  (∀ s, ψ s → is_derivation s) →
  (∀ d, ψ (SelfDerivation d) → ψ' (SelfDerivation (dgoal_locks (λ _, []) d))) →
  (∀ w', running hs V [] this (.= []) ψ' w' → Q () w') → wp (unlock_outputs this deletion) Q E w.
Proof.
  intros Hr HE Hd Hψ HQ. unfold unlock_outputs. apply wp_bind. eapply wp_run_get_derivation; [done|exact Hr|]. intros d _ _.
  apply wp_bind. eapply wp_run_unlock; [exact Hr|done|]. intros w1 H1.
  eapply wp_run_upd_derivation; [exact H1|exact Hd| |exact HQ]. intros d' Hd'. by split; [apply Hψ|].
Qed.

Lemma trying_unlocked l d : trying l (SelfDerivation d) → trying [] (SelfDerivation (dgoal_locks (λ _, []) d)).
Proof. inversion_clear 1. by constructor. Qed.

Lemma wp_upd_trying f l we w (Q : () → Worker W → Prop) E :
  run_with we (trying l) w → (∀ d, trying l (SelfDerivation d) → trying l (SelfDerivation (f d)) ∧
    self_procs (SelfDerivation (f d)) = self_procs (SelfDerivation d)) →
  (∀ w', run_with we (trying l) w' → Q () w') → wp (upd_derivation this f) Q E w.
Proof. intros Hr Hf HQ. eapply wp_run_upd_derivation; [exact Hr|by apply trying_derivation|exact Hf|exact HQ]. Qed.

(** The goal sleeps without its locks. *)
Lemma wp_sleep_unlocked l w :
  running hs U [] this (.= []) (trying l) w → wp (unlock_outputs this false) (λ _, rested hs U) no_fault w.
Proof.
  intros Hr. eapply wp_unlock_outputs; [exact Hr|apply no_fault_tolerant|apply trying_derivation|apply trying_unlocked|].
  intros w1 H1. eapply queued_rested; [exact H1|done|]. intros g' _ Hb _ Ht. by apply coherent_trying.
Qed.

Lemma wp_hook_reply (I : Worker W → Prop) fuel hook w :
  (∀ (Q : bytes → Worker W → Prop) w, I w → (∀ x w', I w' → Q x w') → wp (do_call (ReadLine hook)) Q no_fault w) →
  I w → wp (hook_reply fuel hook) (λ _, I) no_fault w.
Proof.
  intros Hc. revert w. induction fuel as [|fuel IH]; intros w Hw; [done|]. cbn [hook_reply].
  apply wp_bind, Hc; [exact Hw|]. intros line w1 H1. case_decide; [by apply wp_ret|by apply IH].
Qed.

Lemma checkStoreName_throw name e w : checkStoreName name = Throw e → no_fault (W := W) e w.
Proof.
  unfold checkStoreName, check. destruct (negb _); simpl; [|by intros [= <-]].
  destruct (forallb _ _); [done|]. by intros [= <-].
Qed.

Lemma wp_start_agent command l w (Q : Agent → Worker W → Prop) :
  run_with (.= []) l w →
  (∀ a w', run_with (.= []) l w' → agent_ok [] w' a → ag_running a = true → ag_pid a ∉ live_pids w' → Q a w') →
  wp (do_call (StartAgent command (live_pids w))) Q no_fault w.
Proof.
  intros Hr HQ. apply wp_call_full; [|intros e st He; by eapply exception_no_fault, handle_exception].
  intros a st Ha. destruct (handle_agent _ _ _ _ _ Ha) as (H1 & H2 & H3).
  apply HQ; [by eapply running_same|split_and!; [done| |apply not_elem_of_nil]|done|done]. by apply fresh_pid.
Qed.

Definition hook_outcome (l : list bytes) (r : HookReply) (w : Worker W) : Prop :=
  match r with
  | rpAccept => ∃ pid, run_with (.= []) (building pid) w
  | _ => run_with (.= []) (trying l) w
  end.

(** The hook takes the build. *)
Lemma running_hook l w a :
  run_with (.= []) (trying l) w → w_hook w = Some a →
  running hs (this :: U) [ag_pid a] this (.= []) (building (ag_pid a))
    (on_hook (λ _, None) (on_heap (alter (on_derivation (dgoal_hook (λ _, Some a))) this) w)).
Proof.
  intros Hr Ha. destruct (idle_agent_ok _ _ _ _ _ _ a (proj1 Hr) (or_introl Ha)) as (H1 & H2 & _).
  pose proof (ch_hook_running _ _ _ (inv_children _ _ _ _ _ _ (proj1 Hr)) a Ha) as H4.
  change (running hs (this :: U) [ag_pid a] this (.= []) (building (ag_pid a))
    (on_heap (alter (on_derivation (dgoal_hook (λ _, Some a))) this) (on_hook (λ _, None) w))).
  eapply running_start; [by apply running_take_hook|by left|intros g; apply own_change_self; by intros []| |done|done|].
  - intros [ws wr n1 n2 n3 ec s]. simpl. intros [d Hp _ _ Hret]. unfold self_procs in Hp.
    assert (dg_pid d = None) as Ep.
    { unfold goal_procs in Hp. simpl in Hp. by destruct (dg_pid d). }
    split_and!; [constructor; [|done]|exact Hp|]; unfold self_procs, goal_procs; simpl; by rewrite Ep, H4.
  - unfold idle_agents. cbn. destruct (w_substituter w) as [b|] eqn:Eb; [|apply not_elem_of_nil].
    intros E%list_elem_of_singleton. by eapply (idle_agents_distinct _ _ _ _ _ w a b (proj1 Hr)).
Qed.

Lemma wp_tryBuildHook fuel l w :
  run_with (.= []) (trying l) w → wp (tryBuildHook this fuel) (hook_outcome l) no_fault w.
Proof.
  intros Hr. unfold tryBuildHook. destruct (negb _); [by apply wp_ret|].
  apply wp_bind, wp_gets; [|done]. intros w0 [= <-]. apply wp_bind.
  eapply (wp_mono _ (λ a w', run_with (.= []) (trying l) w' ∧ w_hook w' = Some a) _ no_fault); [| |done].
  { destruct (w_hook w) as [a|] eqn:Ea; [by apply wp_ret|].
    apply wp_bind. eapply wp_start_agent; [exact Hr|]. intros a w1 H1 Ha Hrun Hl.
    apply wp_bind, wp_modify, wp_ret. split; [by apply running_keep_hook|done]. }
  intros a w1 [H1 Ha]. apply wp_bind. eapply wp_run_get_derivation; [done|exact H1|]. intros d _ _.
  apply wp_bind, wp_lift; [intros features _|intros e; by rewrite tokenizeString_spec].
  set (I := λ w', run_with (.= []) (trying l) w' ∧ w_hook w' = Some a).
  apply wp_bind, (wp_iter (λ _, I)); [by split| |].
  { intros i _ w2 H2. apply wp_lift; [done|]. intros e. apply checkStoreName_throw. }
  assert (∀ {A} (c : call A) (Q : A → Worker W → Prop) w2, I w2 → may_build_error c = false →
    (∀ x w3, I w3 → Q x w3) → wp (do_call c) Q no_fault w2) as Hcall.
  { intros A c Q w2 [H2 H2'] Hc HQ. apply wp_run_call_same; [apply no_fault_tolerant|done|]. intros x w3 Hss.
    apply HQ. split; [by eapply running_same|]. by rewrite (ss_hook _ _ Hss). }
  intros w2 H2. apply wp_bind, Hcall; [exact H2|done|]. intros [] w3 H3.
  apply wp_bind, (wp_mono _ (λ _, I) _ no_fault); [| |done].
  { apply wp_hook_reply; [|exact H3]. intros Q w5 H5 HQ. by apply Hcall. }
  intros reply w4 [H4 H4']. case_decide as Hd; [by apply wp_ret|]. case_decide as Hp; [by apply wp_ret|].
  case_decide as Hac; [by apply wp_throw|].
  apply wp_bind, wp_modify, wp_bind, wp_modify. pose proof (running_hook l w4 a H4 H4') as H5.
  apply wp_bind. eapply wp_run_call; [exact H5|apply no_fault_tolerant|done|]. intros inputs w6 H6.
  apply wp_bind. eapply wp_run_call; [exact H6|apply no_fault_tolerant|done|]. intros [] w7 H7.
  apply wp_bind. eapply wp_run_call; [exact H7|apply no_fault_tolerant|done|]. intros [] w8 H8.
  apply wp_bind. eapply wp_run_upd_derivation; [exact H8|apply building_derivation| |].
  { intros d' Hd'. inversion_clear Hd'. by split; [apply (building_intro (ag_pid a))|]. }
  intros w9 H9. apply wp_bind. eapply wp_run_call; [exact H9|apply no_fault_tolerant|done|]. intros [] w10 H10.
  apply wp_bind. eapply wp_run_childStarted; [exact H10|by intros s []|apply no_fault_tolerant|done|].
  intros w11 H11. apply wp_ret. by exists (ag_pid a).
Qed.

(** The exceptions of a block that is tried: a [BuildError] leaves the goal as
    [R] says. *)
Definition tried (R : Worker W → Prop) (e : exn) (w : Worker W) : Prop :=
  if is_build_error e then R w else no_fault e w.

Lemma tried_tolerant R : tolerant (tried R).
Proof. intros e w He Hb. unfold tried. by rewrite Hb. Qed.

Lemma wp_may_call {A} (c : call A) we ψ (Q : A → Worker W → Prop) w :
  run_with we ψ w → (∀ a w', run_with we ψ w' → Q a w') →
  wp (do_call c) Q (tried (run_with we ψ)) w.
Proof.
  intros Hr HQ. apply wp_call_full; [intros a st _; apply HQ; by eapply running_same|].
  intros e st He. unfold tried. destruct (is_build_error e); [by eapply running_same|].
  by eapply exception_no_fault, handle_exception.
Qed.

(** The builder has been forked. *)
Lemma running_fork l w pid fd :
  run_with (.= []) (trying l) w → pid ≠ (-1)%Z → pid ∉ live_pids w →
  running hs (this :: U) [pid] this (.= []) (building pid)
    (on_heap (alter (on_derivation (λ d, dgoal_pid (λ _, Some pid) (dgoal_builderOut (λ _, fd) d))) this) w).
Proof.
  intros Hr Hp Hl. destruct (fresh_pid pid w Hl) as [H1 H2].
  eapply running_start; [exact Hr|by left|intros g; apply own_change_self; by intros []| |done|done|done].
  intros [ws wr n1 n2 n3 ec s]. simpl. intros [d Hpr _ _ Hret]. unfold self_procs in Hpr.
  assert (match dg_hook d with Some a => if ag_running a then [ag_pid a] else [] | None => [] end = []) as Eh.
  { unfold goal_procs in Hpr. simpl in Hpr. destruct (dg_pid d); [done|exact Hpr]. }
  split_and!; [constructor; [|done]|exact Hpr|]; unfold self_procs, goal_procs; simpl; by rewrite Eh.
Qed.

Lemma wp_startBuilder l w :
  run_with (.= []) (trying l) w → (w_nrLocalBuilds w < slot_limit)%Z →
  wp (startBuilder this) (λ _ w', ∃ pid, run_with (.= []) (building pid) w') (tried (run_with (.= []) (trying l))) w.
Proof.
  intros Hr Hn. unfold startBuilder. pose proof (tried_tolerant (run_with (.= []) (trying l))) as HT.
  apply wp_bind. eapply wp_run_get_derivation; [done|exact Hr|]. intros d _ _.
  apply wp_bind, wp_keeps, wp_may_call; [apply slots_call|exact Hr|]. intros [] w1 H1 Hn1.
  apply wp_bind, wp_keeps; [by apply slots_modify|]. eapply wp_upd_trying; [exact H1|still|]. intros w2 H2 Hn2.
  apply wp_bind, wp_keeps; [apply slots_call|]. eapply wp_run_call; [exact H2|done|done|]. intros [] w3 H3 Hn3.
  apply wp_bind, wp_gets; [|done]. intros w4 [= <-]. apply wp_bind, wp_call_full.
  2: { intros e st He. apply HT; [by eapply exception_no_fault, handle_exception|].
       destruct (is_build_error e) eqn:Eb; [|done]. by pose proof (handle_build_error _ _ _ _ _ He Eb). }
  intros [pid fd] st Hf. destruct (handle_fork _ _ _ _ _ _ Hf) as [Hp Hl]. apply wp_bind, wp_modify.
  set (w4 := on_world (λ _, st) w3).
  assert (run_with (.= []) (trying l) w4) as H4 by by eapply running_same.
  pose proof (running_fork l w4 pid fd H4 Hp Hl) as H5.
  apply wp_bind, wp_keeps; [apply slots_call|]. eapply wp_run_call; [exact H5|done|done|]. intros [] w6 H6 Hn6.
  assert (w_nrLocalBuilds w6 = w_nrLocalBuilds w) as En by (rewrite Hn6; cbn; congruence).
  apply wp_bind. eapply wp_run_childStarted; [exact H6|by intros s []|done|by rewrite En|]. intros w7 H7.
  apply wp_bind. eapply wp_run_call; [exact H7|done|done|]. intros msg w8 H8.
  apply wp_check; [intros _; by exists pid|done].
Qed.

(** The goal waits for its child. *)
Lemma wp_building_rested pid w :
  run_with (.= []) (building pid) w → wp (set_state this dsBuildDone) (λ _, rested hs U) no_fault w.
Proof.
  intros Hr.
  eapply (wp_run_upd_derivation _ _ _ _ _ _ _ (λ s, building pid s ∧ self_building s = true)); [exact Hr|apply building_derivation| |].
  { intros d Hd. inversion_clear Hd. split; [|done]. by split; [apply (building_intro pid)|]. }
  intros w1 H1. eapply waiting_rested; [exact H1|done|].
  intros [ws wr n1 n2 n3 ec s] _ Hb Hwe [Hs Hbd]. cbn [g_self] in Hs, Hbd. destruct Hs as [d Hp Hret]. unfold self_procs in Hp.
  change (goal_procs (mkGoal ws wr n1 n2 n3 ec (SelfDerivation d)) = [pid]) in Hp.
  change (goal_building (mkGoal ws wr n1 n2 n3 ec (SelfDerivation d)) = true) in Hbd.
  split; [|right; by rewrite Hp]. constructor; rewrite ?Hp, ?Hbd; try done.
  intros _. unfold retry_ok. simpl in *. by rewrite Hret.
Qed.

Lemma wp_tryToBuild_locally l buildLocally w :
  run_with (.= []) (trying l) w → wp (tryToBuild_locally this buildLocally) (λ _, rested hs U) no_fault w.
Proof.
  intros Hr. unfold tryToBuild_locally. apply wp_bind, wp_gets; [|done]. intros n [= <-]. destruct (_ && _) eqn:Efull.
  { apply wp_bind. eapply wp_run_waitForBuildSlot; [exact Hr|done|intros s Hs; by eapply trying_facts|]. intros w1 H1. by eapply wp_sleep_unlocked. }
  assert (w_nrLocalBuilds w < slot_limit)%Z as Hfree.
  { unfold slot_limit. apply andb_false_iff in Efull as [E|E]; [apply bool_decide_eq_false in E; lia|].
    apply negb_false_iff, andb_true_iff in E as [_ E%bool_decide_eq_true]. lia. }
  apply wp_bind, wp_catch.
  eapply (wp_mono _ (λ b w', b = true ∧ ∃ pid, run_with (.= []) (building pid) w') _ (tried (run_with (.= []) (trying l)))).
  - apply wp_bind. eapply wp_mono; [by apply wp_startBuilder| |done]. intros [] w1 H1. by apply wp_ret.
  - intros b w1 (-> & pid & H1). by eapply wp_building_rested.
  - intros e w1. unfold tried. destruct (is_build_error e); [|done]. intros H1. apply wp_ret.
    apply wp_bind. eapply wp_unlock_outputs; [exact H1|apply no_fault_tolerant|apply trying_derivation|apply trying_unlocked|].
    intros w2 H2. apply wp_bind. eapply wp_run_call; [exact H2|apply no_fault_tolerant|done|]. intros [] w3 H3.
    apply wp_bind. eapply wp_run_modify; [exact H3|done|]. intros H4. by eapply wp_done_with, trying_facts.
Qed.

Lemma wp_lockPaths paths ψ w (Q : bool → Worker W → Prop) :
  run_with (.= []) ψ w → (∀ b w', run_with (.= []) ψ w' → Q b w') → wp (lockPaths [] paths) Q no_fault w.
Proof.
  intros Hr HQ. unfold lockPaths. apply wp_bind, wp_check; [intros _|done].
  apply wp_bind, wp_gets; [|done]. intros own [= <-]. apply wp_bind, wp_check; [intros _|done].
  apply wp_bind. eapply wp_run_call; [exact Hr|apply no_fault_tolerant|done|]. intros locked w1 H1.
  apply wp_bind, wp_when; intros _; [apply wp_modify|]; apply wp_ret, HQ; [by eapply running_same|exact H1].
Qed.

Lemma wp_clear_outputs (outs : list (bytes * DerivationOutput)) ψ w (Q : () → Worker W → Prop) :
  run_with (.= []) ψ w → (∀ w', run_with (.= []) ψ w' → Q () w') →
  wp (iter (λ i,
        valid ← is_valid_path (do_path i.2);
        when (negb valid)
          (e ← do_call (PathExists (do_path i.2)); when e (do_call (DeletePath (do_path i.2))))) outs) Q no_fault w.
Proof.
  intros Hr HQ. apply (wp_iter (λ _, run_with (.= []) ψ)); [exact Hr| |exact HQ].
  intros i _ w1 H1. apply wp_bind. eapply wp_run_call; [exact H1|apply no_fault_tolerant|done|]. intros valid w2 H2.
  apply wp_when; [intros _|done]. apply wp_bind. eapply wp_run_call; [exact H2|apply no_fault_tolerant|done|].
  intros e w3 H3. apply wp_when; [intros _|done]. by eapply wp_run_call; [exact H3|apply no_fault_tolerant|..].
Qed.

Lemma wp_tryToBuild fuel w :
  run_with (.= []) (trying []) w → wp (tryToBuild this fuel) (λ _, rested hs U) no_fault w.
Proof.
  intros Hr. unfold tryToBuild. apply wp_bind. eapply wp_run_get_derivation; [done|exact Hr|]. intros d Hd _.
  assert (∀ m : GoalPtr → WM W (), (∀ (Q : () → Worker W → Prop) w1, run_with (.= []) (trying []) w1 →
      (∀ w', running hs U [] this (.= []) (trying []) w' → Q () w') → wp (m this) Q no_fault w1) →
      ∀ w1, run_with (.= []) (trying []) w1 → wp (m this) (λ _, rested hs U) no_fault w1) as Hsleep.
  { intros m Hm w1 H1. apply Hm; [exact H1|]. intros w2 H2. eapply queued_rested; [exact H2|done|].
    intros g' _ Hb _ Ht. by apply coherent_trying. }
  apply wp_bind. eapply (wp_mono _ (λ _, run_with (.= []) (trying [])) _ no_fault); [| |done].
  { generalize (outputs (dg_drv d)). intros l. clear -Hr. induction l as [|i l IH]; [by apply wp_ret|]. cbn [any].
    apply wp_bind, wp_gets; [|done]. intros b [= <-]. by destruct (set_mem _ _); [apply wp_ret|]. }
  intros mine w1 H1. destruct mine.
  { apply Hsleep; [|exact H1]. intros Q w2 H2 HQ. eapply wp_run_waitForAnyGoal; [exact H2|done|intros s Hs; by eapply trying_facts|done]. }
  apply wp_bind. inversion Hd as [d' _ Hl _ _]. rewrite Hl. eapply wp_lockPaths; [exact H1|]. intros locked w2 H2. destruct locked; cbn [negb].
  2: { apply Hsleep; [|exact H2]. intros Q w3 H3 HQ. eapply wp_run_waitForAWhile; [exact H3|done|intros s Hs; by eapply trying_facts|done]. }
  set (l := outputPaths (dg_drv d)). apply wp_bind.
  eapply (wp_run_upd_derivation _ _ _ _ _ _ _ (trying l)); [exact H2|apply trying_derivation| |].
  { intros d0 Hd0. inversion_clear Hd0. by split; [constructor|]. }
  intros w3 H3. apply wp_bind. eapply wp_mono; [by eapply wp_checkPathValidity, no_fault_tolerant| |done].
  intros validPaths w4 H4. cbn beta. apply wp_bind. eapply wp_upd_trying; [exact H4|still|]. intros w5 H5. destruct (_ && _).
  { apply wp_bind. eapply wp_unlock_outputs; [exact H5|apply no_fault_tolerant|apply trying_derivation|apply trying_unlocked|].
    intros w6 H6. by eapply wp_done_with, trying_facts. }
  apply wp_bind. eapply wp_upd_trying; [exact H5|still|]. intros w6 H6.
  apply wp_bind, (wp_clear_outputs _ (trying l)); [exact H6|]. intros w7 H7.
  apply wp_bind. eapply wp_mono; [apply (wp_any _ _ (run_with (.= []) (trying l)) (rested hs U)); [|exact H7]| |done].
  { intros i w8 H8. by eapply wp_pathFailed, trying_facts. }
  intros [] w8 H8; [by apply wp_ret|]. apply wp_bind.
  eapply (wp_mono _ (hook_outcome l) _ no_fault); [destruct (_ || _); [by apply wp_ret|by apply wp_tryBuildHook]| |done].
  intros [] w9 H9; cbn in H9.
  - destruct H9 as [pid H9]. by eapply wp_building_rested.
  - by eapply wp_tryToBuild_locally.
  - apply wp_bind. eapply wp_run_waitForAWhile; [exact H9|done|intros s Hs; by eapply trying_facts|]. intros w10 H10. by eapply wp_sleep_unlocked.
Qed.

(** * The end of a build *)

Lemma built_unlocked d : built (SelfDerivation d) → built (SelfDerivation (dgoal_locks (λ _, []) d)).
Proof. inversion_clear 1. by constructor. Qed.

Lemma wp_upd_built f we w (Q : () → Worker W → Prop) E :
  run_with we built w → (∀ d, built (SelfDerivation d) → built (SelfDerivation (f d)) ∧
    self_procs (SelfDerivation (f d)) = self_procs (SelfDerivation d)) →
  (∀ w', run_with we built w' → Q () w') → wp (upd_derivation this f) Q E w.
Proof. intros Hr Hf HQ. eapply wp_run_upd_derivation; [exact Hr|by apply built_derivation|exact Hf|exact HQ]. Qed.

Lemma wp_finish_build status w :
  run_with (.= []) built w →
  wp (finish_build this status) (λ b w', if b then rested hs U w' else run_with (.= []) built w')
    (tried (run_with (.= []) built)) w.
Proof.
  intros Hr. unfold finish_build. pose proof (tried_tolerant (run_with (.= []) built)) as HT.
  apply wp_bind. eapply wp_run_get_derivation; [done|exact Hr|]. intros d _ _.
  apply wp_bind, (wp_mono _ (λ _, run_with (.= []) built) _ (tried (run_with (.= []) built))); [|intros [] w1 H1|done].
  { apply wp_when; [intros _|done]. by eapply wp_run_call; [exact Hr|..]. }
  apply wp_bind, wp_may_call; [exact H1|]. intros [] w2 H2.
  apply wp_bind. eapply wp_run_call; [exact H2|done|done|]. intros [] w3 H3.
  apply wp_bind. eapply wp_run_call; [exact H3|done|done|]. intros [] w4 H4.
  apply wp_bind. eapply wp_upd_built; [exact H4|still|]. intros w5 H5. case_decide as Hround.
  - apply wp_bind. eapply (wp_unlock_outputs (this :: U) built (λ s, built s ∧ self_locks s = []));
      [exact H5|done|apply built_derivation|intros d' Hd'; by split; [apply built_unlocked|]|].
    intros w6 H6. apply wp_bind. eapply wp_run_call; [exact H6|done|done|]. intros [] w7 H7.
    apply wp_bind. eapply (wp_run_upd_derivation _ _ _ _ _ _ _ (trying [])); [exact H7|intros s [Hs _]; by apply built_derivation| |].
    { intros d' [Hd' Hl]. inversion_clear Hd'. by split; [constructor|]. }
    intros w8 H8. apply wp_bind. eapply wp_run_wakeUp; [exact H8|done|]. intros w9 H9.
    apply wp_ret. eapply queued_rested; [exact H9|done|]. intros g' _ Hb _ Ht. by apply coherent_trying.
  - apply wp_bind. eapply wp_unlock_outputs; [exact H5|done|apply built_derivation|apply built_unlocked|].
    intros w6 H6. by apply wp_ret.
Qed.

Lemma wp_build_failed withHook status diskFull w :
  run_with (.= []) built w → wp (build_failed this withHook status diskFull) (λ _, rested hs U) no_fault w.
Proof.
  intros Hr. unfold build_failed.
  apply wp_bind. eapply wp_unlock_outputs; [exact Hr|apply no_fault_tolerant|apply built_derivation|apply built_unlocked|].
  intros w1 H1. apply wp_bind. eapply wp_run_call; [exact H1|apply no_fault_tolerant|done|]. intros [] w2 H2.
  apply wp_bind. eapply wp_run_get_derivation; [done|exact H2|]. intros d _ _.
  destruct (_ && _); [by eapply wp_done_with, built_facts|]. destruct (_ && _); [by eapply wp_done_with, built_facts|].
  apply wp_bind, (wp_mono _ (λ _, run_with (.= []) built) _ no_fault);
    [|intros [] w3 H3; by eapply wp_done_with, built_facts|done].
  apply wp_when; [intros _|done]. apply (wp_iter (λ _, run_with (.= []) built)); [exact H2| |done].
  intros i _ w3 H3. by eapply wp_run_call; [exact H3|apply no_fault_tolerant|..].
Qed.

(** The builder of the goal, waited for. *)
Lemma wp_reap pid d w (Q : Z → Worker W → Prop) :
  run_with (.= []) (λ s, s = SelfDerivation d ∧ building pid s) w →
  (∀ w', ending hs (this :: U) pid this (.= []) built w' → Q pid w') →
  wp (match dg_hook d, dg_pid d with
      | Some hook, _ =>
          lift (check (ag_running hook) (AssertionFailed "Pid::wait: pid != -1"));;
          upd_derivation this (dgoal_hook (λ _,
            Some (mkAgent (ag_pid hook) false (ag_fromAgent hook) (ag_builderOut hook))));;
          mret (ag_pid hook)
      | None, Some pid => upd_derivation this (dgoal_pid (λ _, None));; mret pid
      | None, None => lift (Throw (AssertionFailed "Pid::wait: pid != -1"))
      end) Q no_fault w.
Proof.
  intros Hr' HQ. pose proof Hr' as (_ & _ & g0 & _ & _ & _ & -> & Hd). inversion Hd as [d' Hp Hret]. subst d'.
  unfold self_procs, goal_procs in Hp. simpl in Hp.
  assert (∀ f, built (SelfDerivation (f d)) →
    ending hs (this :: U) pid this (.= []) built (on_heap (alter (on_derivation f) this) w)) as Hend.
  { intros f Hf. eapply (ending_start _ _ _ _ (λ s, s = SelfDerivation d ∧ building pid s));
      [exact Hr'|by left|intros g; apply own_change_self; by intros []|].
    intros [ws wr n1 n2 n3 ec s]. simpl. intros [-> _]. split_and!; [done|exact Hp|]. by inversion Hf. }
  destruct (dg_hook d) as [hook|] eqn:Eh; [|destruct (dg_pid d) as [pid'|] eqn:Ep].
  - apply wp_bind, wp_check; [intros Ha|intros _; by apply harmless]. rewrite Ha in Hp.
    destruct (dg_pid d) as [pid'|] eqn:Ep; [done|]. simpl in Hp. injection Hp as Hp.
    apply wp_bind, wp_modify, wp_ret. rewrite Hp. apply HQ, Hend. constructor; [|done].
    unfold self_procs, goal_procs. simpl. by rewrite Ep.
  - simpl in Hp. injection Hp as ->. apply wp_bind, wp_modify, wp_ret. apply HQ, Hend. constructor; [|done].
    unfold self_procs, goal_procs. simpl. by rewrite Eh.
  - done.
Qed.

Lemma wp_buildDone pid w :
  run_with (.= []) (building pid) w → wp (buildDone this) (λ _, rested hs U) no_fault w.
Proof.
  intros Hr. unfold buildDone. apply wp_bind. eapply wp_run_get_derivation; [done|exact Hr|]. intros d _ H0.
  apply wp_bind. eapply wp_reap; [exact H0|]. intros w1 H1.
  apply wp_bind, wp_run_call_same; [apply no_fault_tolerant|done|]. intros status w2 Hss.
  apply wp_bind. eapply wp_end_terminated; [by eapply ending_same|]. intros w3 H3 _.
  apply wp_bind. eapply wp_run_call; [exact H3|apply no_fault_tolerant|done|]. intros [] w4 H4.
  apply wp_bind. eapply wp_run_call; [exact H4|apply no_fault_tolerant|done|]. intros [] w5 H5.
  destruct (statusOk status).
  - apply wp_bind, wp_catch.
    eapply (wp_mono _ (λ r w', ∃ b : bool, r = Some b ∧ if b then rested hs U w' else run_with (.= []) built w') _
              (tried (run_with (.= []) built))).
    + apply wp_bind. eapply wp_mono; [by apply wp_finish_build| |done]. intros b w6 H6. apply wp_ret. by exists b.
    + intros r w6 ([] & -> & H6); [by apply wp_ret|]. apply wp_bind.
      eapply wp_run_call; [exact H6|apply no_fault_tolerant|done|]. intros [] w7 H7. by eapply wp_done_with, built_facts.
    + intros e w6. unfold tried. destruct (is_build_error e); [|done]. intros H6. by apply wp_ret, wp_build_failed.
  - apply wp_bind. eapply wp_run_call; [exact H5|apply no_fault_tolerant|done|]. intros diskFull w6 H6.
    apply wp_bind. eapply wp_run_call; [exact H6|apply no_fault_tolerant|done|]. intros [] w7 H7.
    apply wp_bind. eapply wp_run_call; [exact H7|apply no_fault_tolerant|done|]. intros [] w8 H8. by apply wp_build_failed.
Qed.

(** * All states *)

(** What a derivation goal is like when the function [st] points to is called. *)
Definition enters (st : DerivationState) (s : GoalSelf) : Prop :=
  match st with
  | dsTryToBuild => trying [] s
  | dsBuildDone => ∃ pid, building pid s
  | _ => early s
  end.

Lemma wp_derivation_run fuel st w :
  run_with (.= []) (enters st) w → wp (derivation_run this fuel st) (λ _, rested hs U) no_fault w.
Proof.
  revert st w. induction fuel as [|fuel IH]; intros st w Hr; [done|].
  assert (continues (derivation_run this fuel)) as Hgo.
  { intros st' w' H1 H2 Hr'. apply IH. eapply running_weaken; [exact Hr'|done|]. intros s Hs. by destruct st'. }
  destruct st; cbn [derivation_run].
  - by apply wp_derivation_init.
  - by apply wp_haveDerivation.
  - by apply wp_outputsSubstituted.
  - by apply wp_closureRepaired.
  - by apply wp_inputsRealised.
  - by apply wp_tryToBuild.
  - pose proof Hr as (_ & _ & g & Hg & Hb & Hw & pid & Hp). eapply (wp_buildDone pid).
    destruct Hr as (HI & Hh & _). split_and!; [done|done|by exists g].
Qed.

(** A goal at rest can be run. *)
Lemma coherent_enters g d : coherent g → busy g → g_self g = SelfDerivation d → enters (dg_state d) (g_self g).
Proof.
  destruct g as [ws wr n1 n2 n3 ec s]. intros Hco Hb Es. cbn in Es |- *. subst s.
  destruct Hco as [C1 C2 C3 C4 C5 _]. unfold retry_ok in C5. cbn in C5.
  assert (dg_state d ≠ dsBuildDone → self_procs (SelfDerivation d) = [] ∧ dg_locks d = []) as Hrest.
  { intros Hne. specialize (C2 Hb). specialize (C3 Hb). unfold goal_building, goal_locks in C2, C3. cbn in C2, C3.
    split; [|apply C3; by destruct (dg_state d)].
    destruct (decide (self_procs (SelfDerivation d) = [])) as [?|Hn]; [done|]. apply C2 in Hn. by destruct (dg_state d). }
  destruct (dg_state d) eqn:Est; cbn [enters];
    try (destruct Hrest as [Hp Hl]; [done|]; constructor; [done|done|by rewrite Est..]).
  - destruct Hrest as [Hp Hl]; [done|]. constructor; [done|done|done|].
    destruct (dg_retrySubstitution d); [|done]. by destruct (C5 Hb eq_refl).
  - specialize (C2 Hb). unfold goal_building in C2. cbn in C2. rewrite Est in C2.
    destruct (self_procs (SelfDerivation d)) as [|pid [|? l]] eqn:Ep.
    + by destruct C2 as [C2 _]; destruct (C2 eq_refl).
    + exists pid. constructor; [done|]. destruct (dg_retrySubstitution d); [|done]. by destruct (C5 Hb eq_refl).
    + change (length (self_procs (SelfDerivation d)) <= 1) in C1. rewrite Ep in C1. simpl in C1. lia.
Qed.
End derivation.
