(* ===== verification/SubstitutionSafety.v ===== *)
(** The state functions of substitution goals keep the invariant of the worker and
    fail none of its assertions. *)

From S2P Require Import Prelude StateMonad Containers Hash Paths StorePaths Derivations LocalDB GoalState Goals BuildGoals BuildWorker GoalInvariants GoalLinks GoalRules BuildSafety.

(** * Parsing the answer of the substituter *)

(** A computation that fails no assertion of the scheduler. *)
Definition quiet {A} (r : outcome A) : Prop :=
  match r with Throw (AssertionFailed s) | Throw (Undefined s) => bool_decide (s ∈ scheduler_faults) = false | _ => True end.

Lemma quiet_bind {A B} (r : outcome A) (f : A → outcome B) : quiet r → (∀ a, quiet (f a)) → quiet (r ≫= f).
Proof. destruct r; [intros _ Hf; apply Hf|done|done]. Qed.

Lemma quiet_no_fault {W A} (r : outcome A) e (w : Worker W) : quiet r → r = Throw e → no_fault e w.
Proof. intros Hq ->. destruct e; try done; by apply bool_decide_eq_false in Hq. Qed.

Lemma quiet_hash_get l i : quiet (hash_get l i).
Proof. unfold hash_get. by destruct (l !! i). Qed.
Lemma quiet_hash_set l i v : quiet (hash_set l i v).
Proof. unfold hash_set. by destruct (decide _). Qed.

Ltac quiet_step :=
  match goal with
  | |- quiet (Ret _) => exact I
  | |- quiet (Throw _) => reflexivity || exact I
  | |- quiet (hash_get _ _) => apply quiet_hash_get
  | |- quiet (hash_set _ _ _) => apply quiet_hash_set
  | |- quiet (_ ≫= _) => apply quiet_bind; [|intros ?]
  | |- quiet (match ?x with _ => _ end) => destruct x
  | |- quiet (let _ := _ in _) => cbv zeta
  | |- quiet (check ?c _) => destruct c; cbn [check]
  | IH : context [quiet _] |- _ => apply IH
  end.

Lemma quiet_parseHash_loop n s i l : quiet (parseHash_loop n s i l).
Proof. revert i l. induction n as [|n IH]; intros i l; cbn [parseHash_loop]; repeat quiet_step. Qed.

Lemma quiet_parseHash32_loop todo n size s l : quiet (parseHash32_loop todo n size s l).
Proof. revert n l. induction todo as [|todo IH]; intros n l; cbn [parseHash32_loop]; repeat quiet_step. Qed.

Lemma quiet_parseHash16or32 {gc : Gcrypt} ht s : quiet (parseHash16or32 ht s).
Proof.
  pose proof quiet_parseHash_loop as H1. pose proof quiet_parseHash32_loop as H2.
  unfold parseHash16or32, parseHash, parseHash32, Hash_new. repeat quiet_step.
Qed.

Section substitution.
Context {W : Type} {gc : Gcrypt} {settings : Settings} {handler : Handler W} {laws : HandlerLaws handler}
  {blaw : BuildErrorLaw handler}.
Context (hs U : list GoalPtr) (this : GoalPtr) (HU : this ∉ U) (Hcls : gp_class this = ClassSubstitutionGoal).
Implicit Types w : Worker W.

Abbreviation run_with := (running (W := W) hs (this :: U) [] this).

(** * Phases of a substitution goal *)

(** No substituter; [l] the locks. *)
Inductive idle (l : list bytes) : GoalSelf → Prop :=
  idle_intro s : sg_substituter s = None → sg_locks s = l → sg_state s ≠ ssFinished → idle l (SelfSubstitution s).

(** The substituter [a] is at work. *)
Inductive fetching (a : Agent) : GoalSelf → Prop :=
  fetching_intro s : sg_substituter s = Some a → fetching a (SelfSubstitution s).

(** The substituter has been given back. *)
Inductive fetched : GoalSelf → Prop :=
  fetched_intro s : sg_substituter s = None → fetched (SelfSubstitution s).

Definition is_substitution (s : GoalSelf) : Prop := ∃ d, s = SelfSubstitution d.

Lemma idle_facts l s : idle l s → is_substitution s ∧ self_procs s = [].
Proof. intros [d Hd _ _]. split; [by eexists|]. unfold self_procs, goal_procs. simpl. by rewrite Hd. Qed.
Lemma fetched_facts s : fetched s → is_substitution s ∧ self_procs s = [].
Proof. intros [d Hd]. split; [by eexists|]. unfold self_procs, goal_procs. simpl. by rewrite Hd. Qed.
Lemma fetching_facts a s : fetching a s → is_substitution s ∧ self_procs s = [ag_pid a].
Proof. intros [d Hd]. split; [by eexists|]. unfold self_procs, goal_procs. simpl. by rewrite Hd. Qed.

Lemma no_wanted ψ : (∀ s, ψ s → is_substitution s) → stable_wanted ψ.
Proof. intros Hψ d o Hd. by destruct (Hψ _ Hd). Qed.

Lemma coherent_idle g : idle [] (g_self g) → busy g → coherent g.
Proof.
  destruct g as [ws wr n1 n2 n3 ec s]. simpl. intros Hi Hb. pose proof (idle_facts _ _ Hi) as [_ Hp].
  destruct Hi as [d Hd Hl Hs]. unfold self_procs in Hp.
  change (goal_procs (mkGoal ws wr n1 n2 n3 ec (SelfSubstitution d)) = []) in Hp. constructor.
  - rewrite Hp. simpl. lia.
  - intros _. rewrite Hp. unfold goal_building. simpl. by destruct (sg_state d).
  - done.
  - done.
  - done.
  - by rewrite Hp.
Qed.

(** * Steps *)

Lemma wp_run_get_substitution V X we ψ w (Q : SubstitutionGoal → Worker W → Prop) E :
  running hs V X this we ψ w →
  (∀ s, ψ (SelfSubstitution s) → running hs V X this we (λ x, x = SelfSubstitution s ∧ ψ x) w → Q s w) →
  wp (get_substitution this) Q E w.
Proof.
  intros Hr HQ. unfold get_substitution. apply wp_bind. eapply wp_run_get; [exact Hr|].
  intros g Hg Hb Hwe Hψ. destruct Hr as (HI & Hh & _).
  pose proof (ob_class _ _ (inv_objects _ _ _ _ _ _ HI) this g Hg) as Hc. rewrite Hcls in Hc.
  unfold goal_class in Hc. destruct (g_self g) as [d|s] eqn:Es; [done|]. apply wp_ret, HQ; [done|].
  split_and!; [done|done|]. exists g. by rewrite Es.
Qed.

Lemma wp_run_upd_substitution V X f we ψ ψ' (Q : () → Worker W → Prop) E w :
  running hs V X this we ψ w → (∀ s, ψ s → is_substitution s) →
  (∀ d, ψ (SelfSubstitution d) → ψ' (SelfSubstitution (f d)) ∧
     self_procs (SelfSubstitution (f d)) = self_procs (SelfSubstitution d)) →
  (∀ w', running hs V X this we ψ' w' → Q () w') → wp (upd_substitution this f) Q E w.
Proof.
  intros Hr Hd Hf HQ. apply wp_modify, HQ. eapply running_own; [exact Hr| |].
  - intros g. apply own_change_self. by intros [].
  - intros g Hg. destruct (Hd _ Hg) as [d Ed]. rewrite !goal_procs_self. cbn. rewrite Ed in *. apply (Hf d Hg).
Qed.

Lemma wp_upd_idle V X f l we w (Q : () → Worker W → Prop) E :
  running hs V X this we (idle l) w →
  (∀ d, idle l (SelfSubstitution d) → idle l (SelfSubstitution (f d)) ∧
     self_procs (SelfSubstitution (f d)) = self_procs (SelfSubstitution d)) →
  (∀ w', running hs V X this we (idle l) w' → Q () w') → wp (upd_substitution this f) Q E w.
Proof. intros Hr Hf HQ. eapply wp_run_upd_substitution; [exact Hr|intros s Hs; by eapply idle_facts|exact Hf|exact HQ]. Qed.

(** Members that do not matter for the phase. *)
Ltac still := let d := fresh in intros d; inversion_clear 1; (split; [by constructor|done]).

Lemma wp_done ψ result w :
  run_with (.= []) ψ w → (∀ s, ψ s → self_procs s = []) → result ≠ ecBusy →
  wp (amDone this result) (λ _, rested hs U) no_fault w.
Proof. intros Hr Hψ Hres. by eapply wp_run_amDone. Qed.

Lemma idle_procs l s : idle l s → self_procs s = [].
Proof. intros Hs. by eapply idle_facts. Qed.
Lemma idle_substitution l s : idle l s → is_substitution s.
Proof. intros Hs. by eapply idle_facts. Qed.
Lemma fetched_procs s : fetched s → self_procs s = [].
Proof. intros Hs. by eapply fetched_facts. Qed.

Lemma queued_idle w : running hs U [] this (.= []) (idle []) w → rested hs U w.
Proof. intros Hr. eapply queued_rested; [exact Hr|done|]. intros g _ Hb _ Hi. by apply coherent_idle. Qed.

Lemma wp_referencesValid w :
  run_with (.= []) (idle []) w → wp (referencesValid this) (λ _, rested hs U) no_fault w.
Proof.
  intros Hr. unfold referencesValid. apply wp_bind. eapply wp_run_get; [exact Hr|]. intros g _ _ _ _.
  case_decide as Hf; [eapply wp_done; [exact Hr|apply idle_procs|by destruct (_ || _)]|].
  apply wp_bind. eapply wp_run_get_substitution; [exact Hr|]. intros s _ _.
  apply wp_bind, (wp_iter (λ _, run_with (.= []) (idle []))); [exact Hr| |].
  { intros i _ w1 H1. apply wp_when; [intros _|done]. apply wp_bind.
    eapply wp_run_call; [exact H1|apply no_fault_tolerant|done|]. intros valid w2 H2.
    apply wp_check; [done|intros _; by apply harmless]. }
  intros w1 H1. apply wp_bind. eapply wp_upd_idle; [exact H1|still|]. intros w2 H2.
  eapply wp_run_wakeUp; [exact H2|done|]. intros w3. apply queued_idle.
Qed.

Lemma wp_tryNext w :
  run_with (.= []) (idle []) w → wp (tryNext this) (λ _, rested hs U) no_fault w.
Proof.
  intros Hr. unfold tryNext. apply wp_bind. eapply wp_run_call; [exact Hr|apply no_fault_tolerant|done|].
  intros [info|] w1 H1; [|by eapply wp_done; [exact H1|apply idle_procs|]].
  apply wp_bind. eapply wp_upd_idle; [exact H1|still|]. intros w2 H2.
  apply wp_bind, (wp_iter (λ _, run_with (λ _, True) (idle []))); [by eapply running_weaken| |].
  { intros i _ w3 H3. apply wp_when; [intros _|done].
    eapply wp_run_add_substitution; [exact H3|apply no_wanted, idle_substitution|]. intros w4 H4. by eapply running_weaken. }
  intros w3 H3. apply wp_bind. eapply wp_run_get; [exact H3|]. intros g Hg Hb _ Hi. destruct H3 as (HI & Hh & _).
  case_decide as Hw.
  - apply wp_referencesValid. split; [exact HI|split; [exact Hh|exists g; by split_and!]].
  - assert (run_with (.≠ []) (idle []) w3) as H3 by (split; [exact HI|split; [exact Hh|exists g; by split_and!]]).
    eapply wp_upd_idle; [exact H3|still|]. intros w4 H4. eapply waiting_rested; [exact H4|done|].
    intros g' _ Hb' Hw' Hi'. split; [by apply coherent_idle|by left].
Qed.

Lemma wp_substitution_init w :
  run_with (.= []) (idle []) w → wp (substitution_init this) (λ _, rested hs U) no_fault w.
Proof.
  intros Hr. unfold substitution_init. apply wp_bind. eapply wp_run_call; [exact Hr|apply no_fault_tolerant|done|].
  intros [] w1 H1. apply wp_bind. eapply wp_run_get_substitution; [exact H1|]. intros s _ _.
  apply wp_bind, (wp_mono _ (λ _, run_with (.= []) (idle [])) _ no_fault); [| |done].
  { destruct (sg_repair s); [by apply wp_ret|]. by eapply wp_run_call; [exact H1|apply no_fault_tolerant|..]. }
  intros [] w2 H2; [by eapply wp_done; [exact H2|apply idle_procs|]|].
  destruct set_readOnlyMode; [by apply wp_throw|by apply wp_tryNext].
Qed.

(** * Running the substituter *)

Lemma wp_unlock_output ψ ψ' deletion w (Q : () → Worker W → Prop) :
  run_with (.= []) ψ w → (∀ s, ψ s → is_substitution s) →
  (∀ d, ψ (SelfSubstitution d) → ψ' (SelfSubstitution (sgoal_locks (λ _, []) d))) →
  (∀ w', run_with (.= []) ψ' w' → Q () w') → wp (unlock_output this deletion) Q no_fault w.
Proof.
  intros Hr Hd Hψ HQ. unfold unlock_output. apply wp_bind. eapply wp_run_get_substitution; [exact Hr|]. intros d _ _.
  apply wp_bind. eapply wp_run_unlock; [exact Hr|apply no_fault_tolerant|]. intros w1 H1.
  eapply wp_run_upd_substitution; [exact H1|exact Hd| |exact HQ]. intros d' Hd'. by split; [apply Hψ|].
Qed.

Lemma idle_unlocked l d : idle l (SelfSubstitution d) → idle [] (SelfSubstitution (sgoal_locks (λ _, []) d)).
Proof. inversion_clear 1. by constructor. Qed.

Lemma running_fetch l w a :
  run_with (.= []) (idle l) w → agent_ok [] w a → ag_pid a ∉ idle_agents w →
  running hs (this :: U) [ag_pid a] this (.= []) (fetching a)
    (on_heap (alter (on_substitution (sgoal_substituter (λ _, Some a))) this) w).
Proof.
  intros Hr (H1 & H2 & _) Hi.
  eapply running_start; [exact Hr|by left|intros g; apply own_change_self; by intros []| |done|done|done].
  intros [ws wr n1 n2 n3 ec s]. simpl. intros Hs. pose proof (idle_procs _ _ Hs) as Hp. destruct Hs as [d Hd _ _].
  by split_and!; [constructor|exact Hp|].
Qed.

(** The substituter is taken from the worker, or started. *)
Lemma wp_borrow l w (Q : Agent → Worker W → Prop) :
  run_with (.= []) (idle l) w →
  (∀ a w', run_with (.= []) (idle l) (on_substituter (λ _, None) w') → agent_ok [] w' a →
     w_nrLocalBuilds w' = w_nrLocalBuilds w → ag_pid a ∉ idle_agents (on_substituter (λ _, None) w') → Q a w') →
  wp (match w_substituter w with
      | Some agent => mret agent
      | None => do_call (StartAgent (str "substitute") (live_pids w))
      end) Q no_fault w.
Proof.
  intros Hr HQ. destruct (w_substituter w) as [a|] eqn:Ea.
  - apply wp_ret, HQ; [by apply running_take_substituter|eapply idle_agent_ok; [apply Hr|by right]|done|].
    unfold idle_agents. cbn. destruct (w_hook w) as [b|] eqn:Eb; [|apply not_elem_of_nil].
    intros E%list_elem_of_singleton. by apply (idle_agents_distinct _ _ _ _ _ w b a (proj1 Hr) Eb Ea).
  - apply wp_keeps; [apply slots_call|]. eapply wp_start_agent; [exact Hr|]. intros a w1 H1 Ha _ Hl Hn. apply HQ; [by apply running_take_substituter|done|done|].
    destruct (fresh_pid _ _ Hl) as [_ Hi]. intros E. apply Hi. unfold idle_agents in E |- *. cbn in E.
    apply elem_of_app. left. by rewrite app_nil_r in E.
Qed.

Lemma wp_run_substituter l s w :
  run_with (.= []) (idle l) w → (w_nrLocalBuilds w < slot_limit)%Z →
  wp (run_substituter this s) (λ _, rested hs U) no_fault w.
Proof.
  intros Hr Hn. unfold run_substituter.
  apply wp_bind, wp_keeps; [by apply slots_modify|]. eapply wp_upd_idle; [exact Hr|still|]. intros w1 H1 Hn1.
  apply wp_bind, wp_keeps; [apply slots_call|]. eapply wp_run_call; [exact H1|apply no_fault_tolerant|done|]. intros e w2 H2 Hn2.
  apply wp_bind, wp_keeps; [apply slots_when, slots_call|].
  apply (wp_mono _ (λ _, run_with (.= []) (idle l)) _ no_fault); [|intros [] w3 H3 Hn3|done].
  { apply wp_when; [intros _|done]. by eapply wp_run_call; [exact H2|apply no_fault_tolerant|..]. }
  apply wp_bind, wp_gets; [|done]. intros w4 [= <-]. apply wp_bind. eapply wp_borrow; [exact H3|].
  intros a w4 H4 Ha Hn4 Hi. apply wp_bind, wp_modify, wp_bind, wp_modify.
  pose proof (running_fetch l _ a H4 Ha Hi) as H5.
  apply wp_bind, wp_keeps; [apply slots_call|]. eapply wp_run_call; [exact H5|apply no_fault_tolerant|done|]. intros [] w6 H6 Hn6.
  assert (w_nrLocalBuilds w6 = w_nrLocalBuilds w) as En by (rewrite Hn6; cbn; congruence).
  apply wp_bind. eapply wp_run_childStarted; [exact H6|intros x Hx; by eapply fetching_facts|apply no_fault_tolerant|by rewrite En|].
  intros w7 H7. eapply (wp_run_upd_substitution _ _ _ _ _ (λ x, fetching a x ∧ self_building x = true));
    [exact H7|intros x Hx; by eapply fetching_facts| |].
  { intros d Hd. inversion_clear Hd. split; [|done]. by split; [constructor|]. }
  intros w8 H8. eapply waiting_rested; [exact H8|done|].
  intros [ws wr n1 n2 n3 ec x] _ Hb Hwe [Hx Hbd]. cbn [g_self] in Hx, Hbd. pose proof (fetching_facts _ _ Hx) as [_ Hp].
  destruct Hx as [d Hd]. unfold self_procs in Hp.
  change (goal_procs (mkGoal ws wr n1 n2 n3 ec (SelfSubstitution d)) = [ag_pid a]) in Hp.
  change (goal_building (mkGoal ws wr n1 n2 n3 ec (SelfSubstitution d)) = true) in Hbd.
  split; [|right; by rewrite Hp]. by constructor; rewrite ?Hp, ?Hbd.
Qed.

Lemma wp_tryToRun w :
  run_with (.= []) (idle []) w → wp (tryToRun this) (λ _, rested hs U) no_fault w.
Proof.
  intros Hr. unfold tryToRun. apply wp_bind, wp_gets; [|done]. intros n [= <-].
  case_decide as Hn; [eapply wp_run_waitForBuildSlot; [exact Hr|done|apply idle_procs|intros w1; apply queued_idle]|].
  apply wp_bind, wp_keeps; [apply slots_unlock_output|].
  eapply wp_unlock_output; [exact Hr|apply idle_substitution|apply idle_unlocked|]. intros w1 H1 Hn1.
  apply wp_bind, wp_gets; [|done]. intros mine [= <-].
  destruct (set_mem _ _); [eapply wp_run_waitForAnyGoal; [exact H1|done|apply idle_procs|intros w2; apply queued_idle]|].
  apply wp_bind, wp_keeps; [apply slots_lockPaths|]. eapply wp_lockPaths; [exact H1|]. intros [] w2 H2 Hn2; cbn [negb];
    [|eapply wp_run_waitForAWhile; [exact H2|done|apply idle_procs|intros w3; apply queued_idle]].
  apply wp_bind, wp_keeps; [by apply slots_modify|].
  eapply (wp_run_upd_substitution _ _ _ _ _ (idle [gp_path this])); [exact H2|apply idle_substitution| |].
  { intros d Hd. inversion_clear Hd. by split; [constructor|]. }
  intros w3 H3 Hn3. apply wp_bind. eapply wp_run_get_substitution; [exact H3|]. intros s _ _.
  apply wp_bind, wp_keeps; [destruct (sg_repair s); [apply slots_ret|apply slots_call]|].
  apply (wp_mono _ (λ _, run_with (.= []) (idle [gp_path this])) _ no_fault); [| |done].
  { destruct (sg_repair s); [by apply wp_ret|]. by eapply wp_run_call; [exact H3|apply no_fault_tolerant|..]. }
  intros [] w4 H4 Hn4; [|eapply wp_run_substituter; [exact H4|]; unfold slot_limit; case_decide; lia].
  apply wp_bind. eapply wp_unlock_output; [exact H4|apply idle_substitution|apply idle_unlocked|]. intros w5 H5.
  by eapply wp_done; [exact H5|apply idle_procs|].
Qed.

(** * The end of a substitution *)

Lemma foldl_pointwise {A B} (f g : A → B → A) l a : (∀ a b, f a b = g a b) → foldl f a l = foldl g a l.
Proof. intros Hfg. revert a. induction l as [|b l IH]; intros a; simpl; [done|]. by rewrite Hfg, IH. Qed.

(** [childTerminated] looks at which objects are alive, not at what they hold. *)
Lemma wake_alter p f w : wake_wantingToBuild (on_heap (alter f p) w) = on_heap (alter f p) (wake_wantingToBuild w).
Proof.
  unfold wake_wantingToBuild, wake_alive, on_awake, on_wantingToBuild, on_heap. cbn -[alive]. f_equal.
  apply foldl_pointwise. intros l x. unfold alive. cbn. rewrite alter_fmap. by destruct (w_heap w !! x).
Qed.

Lemma wp_swap_terminated pid p f (Q : () → Worker W → Prop) w :
  wp (upd_goal p f;; childTerminated pid true) Q no_fault w →
  wp (childTerminated pid true;; upd_goal p f) Q no_fault w.
Proof.
  unfold wp, childTerminated, upd_goal, gets, modify, lift, when, mbind, SM_bind, mret, SM_ret.
  destruct (check _ _) as [[]|e|]; cbn -[wake_wantingToBuild]; [|done|done].
  destruct (w_children w !! pid) as [c|]; cbn -[wake_wantingToBuild]; [|done].
  destruct (c_inBuildSlot c); cbn -[wake_wantingToBuild]; [destruct (check _ _) as [[]|e|]; cbn -[wake_wantingToBuild]; [|done|done]|].
  all: intros HQ; rewrite <-wake_alter; exact HQ.
Qed.

Lemma ending_fetch a w :
  run_with (.= []) (fetching a) w →
  ending hs (this :: U) (ag_pid a) this (.= []) fetched
    (on_heap (alter (on_substitution (sgoal_substituter (λ _, None))) this) w).
Proof.
  intros Hr. eapply ending_start; [exact Hr|by left|intros g; apply own_change_self; by intros []|].
  intros [ws wr n1 n2 n3 ec x]. simpl. intros Hx. pose proof (fetching_facts _ _ Hx) as [_ Hp]. destruct Hx as [d Hd].
  by split_and!; [constructor|exact Hp|].
Qed.

Lemma wp_status_at l i ψ w (Q : bytes → Worker W → Prop) :
  run_with (.= []) ψ w → (∀ s, Q s w) → wp (lift (status_at l i)) Q no_fault w.
Proof.
  intros Hr HQ. apply wp_lift; [intros s _; apply HQ|]. intros e He. eapply quiet_no_fault; [|exact He].
  unfold status_at. by destruct (l !! i).
Qed.

Lemma wp_check_status s w :
  run_with (.= []) fetched w → wp (check_status s) (λ _, run_with (.= []) fetched) no_fault w.
Proof.
  intros Hr. unfold check_status. apply wp_bind, wp_lift; [intros statusList _|intros e; by rewrite tokenizeString_spec].
  destruct statusList as [|verdict l]; [by apply wp_ret|]. case_decide as H1; [|case_decide as H2; [|by apply wp_ret]].
  - apply wp_bind, wp_when; intros _; [|by apply wp_ret].
    do 3 (apply wp_bind; eapply wp_status_at; [exact Hr|intros _]). by apply wp_ret.
  - apply wp_bind. eapply wp_run_call; [exact Hr|apply no_fault_tolerant|done|]. intros [] w1 H3; cbn [negb]; [|by apply wp_ret].
    apply wp_bind. eapply wp_status_at; [exact H3|intros hashStr].
    apply wp_bind, wp_lift; [intros n _|intros e; destruct (find_char _ _); [done|by intros [= <-]]].
    assert (wp (r ← do_call (HashPath htSHA256 (sg_destPath s)); mret (Some r)) (λ _, run_with (.= []) fetched) no_fault w1) as Hother.
    { apply wp_bind. by eapply wp_run_call; [exact H3|apply no_fault_tolerant|..]. }
    destruct (parseHashType _) eqn:Et; try exact Hother; [by apply wp_throw|].
    apply wp_bind, wp_lift; [intros h _|intros e He; eapply quiet_no_fault, He; apply quiet_parseHash16or32].
    apply wp_bind. eapply wp_status_at; [exact H3|intros size]. by destruct (string2Int_u64 size); [apply wp_ret|apply wp_throw].
Qed.

Lemma wp_substitution_finished a w :
  run_with (.= []) (fetching a) w → wp (substitution_finished this) (λ _, rested hs U) no_fault w.
Proof.
  intros Hr. unfold substitution_finished. apply wp_bind. eapply wp_run_get_substitution; [exact Hr|]. intros s Hs _.
  inversion Hs as [s' Ea]. subst s'. apply wp_bind, wp_lift; rewrite Ea; [|done]. intros ? [= <-].
  apply wp_bind2, wp_swap_terminated, wp_bind, wp_modify. eapply wp_end_terminated; [by apply ending_fetch|].
  intros w1 H1 (Hp & Hc & Hi). apply wp_bind, wp_gets; [|done]. intros w2 [= <-].
  apply wp_bind, (wp_mono _ (λ _, run_with (.= []) fetched) _ no_fault); [|intros [] w2 H2|done].
  { destruct (w_substituter w1) as [b|].
    - by eapply wp_run_call; [exact H1|apply no_fault_tolerant|..].
    - apply wp_modify, running_keep_substituter; [done|split_and!; [done|done|apply not_elem_of_nil]|done]. }
  apply wp_bind. eapply wp_mono; [by apply wp_check_status| |done].
  intros [[h size]|] w3 H3; cbn beta; [|by eapply wp_done; [exact H3|apply fetched_procs|]].
  apply wp_bind, (wp_mono _ (λ _, run_with (.= []) fetched) _ no_fault); [|intros [] w4 H4|done].
  { apply wp_when; [intros _|done]. by eapply wp_run_call; [exact H3|apply no_fault_tolerant|..]. }
  apply wp_bind. eapply wp_run_call; [exact H4|apply no_fault_tolerant|done|]. intros [] w5 H5.
  apply wp_bind. eapply (wp_unlock_output fetched fetched); [exact H5|intros x Hx; by eapply fetched_facts| |].
  { intros d Hd. inversion_clear Hd. by constructor. }
  intros w6 H6. apply wp_bind. eapply wp_run_call; [exact H6|apply no_fault_tolerant|done|]. intros [] w7 H7.
  by eapply wp_done; [exact H7|apply fetched_procs|].
Qed.

(** * All states *)

Definition enters_substitution (st : SubstitutionState) (s : GoalSelf) : Prop :=
  match st with ssFinished => ∃ a, fetching a s | _ => idle [] s end.

Lemma wp_substitution_run st w :
  run_with (.= []) (enters_substitution st) w → wp (substitution_run this st) (λ _, rested hs U) no_fault w.
Proof.
  intros Hr. destruct st; cbn [substitution_run].
  - by apply wp_substitution_init.
  - by apply wp_referencesValid.
  - by apply wp_tryToRun.
  - destruct Hr as (HI & Hh & g & Hg & Hb & Hw & a & Ha). apply (wp_substitution_finished a).
    split; [exact HI|split; [exact Hh|exists g; by split_and!]].
Qed.

Lemma coherent_enters_substitution g s :
  coherent g → busy g → g_self g = SelfSubstitution s → enters_substitution (sg_state s) (g_self g).
Proof.
  destruct g as [ws wr n1 n2 n3 ec x]. intros [C1 C2 C3 C4 C5 _] Hb Es. cbn in Es |- *. subst x.
  specialize (C2 Hb). specialize (C3 Hb). unfold goal_building, goal_locks, goal_procs in C2, C3. cbn in C2, C3.
  destruct (sg_substituter s) as [a|] eqn:Ea, (sg_state s) eqn:Est; cbn [enters_substitution].
  all: try (exists a; by constructor).
  all: try (constructor; [done|by apply C3|by rewrite Est]).
  all: destruct C2 as [C2 C2']; first [by destruct (C2 eq_refl)|by specialize (C2' ltac:(done))].
Qed.
End substitution.
