(* ===== verification/WorkerSafety.v ===== *)
(** The loop of the worker keeps its invariant and fails none of its assertions. *)

From S2P Require Import Prelude StateMonad Containers Hash Paths StorePaths Derivations LocalDB GoalState Goals BuildGoals BuildWorker GoalInvariants GoalLinks GoalRules BuildSafety SubstitutionSafety.

(** In a finite set, where everything has a successor, there is a cycle. *)
Lemma finite_cycle {A} `{EqDecision A} (R : relation A) (l : list A) x :
  x ∈ l → (∀ y, y ∈ l → ∃ z, z ∈ l ∧ R y z) → ∃ y, tc R y y.
Proof.
  intros Hx Hnext.
  assert (∀ n visited x, length l <= n + length visited → x ∈ l → x ∉ visited → NoDup visited →
    (∀ v, v ∈ visited → v ∈ l ∧ tc R v x) → ∃ y, tc R y y) as Hgo; cycle 1.
  { apply (Hgo (length l) [] x); [simpl; lia|done|apply not_elem_of_nil|constructor|]. intros v Hv. by apply elem_of_nil in Hv. }
  clear x Hx. induction n as [|n IH]; intros visited x Hlen Hx Hn Hnd Hv.
  - assert (length (x :: visited) <= length l) as Hle; [|simpl in *; lia].
    apply submseteq_length, NoDup_submseteq; [by constructor|]. intros v [->|Hin]%elem_of_cons; [done|by apply Hv].
  - destruct (Hnext x Hx) as (z & Hz & HR).
    assert (∀ v, v ∈ x :: visited → v ∈ l ∧ tc R v z) as Hv'.
    { intros v [->|Hin]%elem_of_cons; [split; [done|by constructor]|]. destruct (Hv v Hin) as [? ?]. split; [done|].
      eapply tc_r; eauto. }
    destruct (decide (z ∈ x :: visited)) as [Hin|Hin]; [exists z; by apply Hv'|].
    apply (IH (x :: visited) z); [simpl; lia|done|done|by constructor|done].
Qed.

Lemma tc_flip {A} (R : relation A) x y : tc (flip R) x y → tc R y x.
Proof. induction 1 as [a b Hab|a b c Hab _ IH]; [by apply tc_once|]. eapply tc_r; [exact IH|exact Hab]. Qed.

Section worker.
Context {W : Type} {gc : Gcrypt} {settings : Settings} {handler : Handler W} {laws : HandlerLaws handler}
  {blaw : BuildErrorLaw handler}.
Implicit Types (w : Worker W) (hs : list GoalPtr).

(** * Running goals *)

Lemma wp_work fuel hs U p w :
  rested hs (p :: U) w → p ∉ U → wp (work fuel p) (λ _, rested hs U) no_fault w.
Proof.
  intros [HI Hh] HU. destruct (inv_pending _ _ _ _ _ _ HI p) as (g & Hg & Hb & Hw); [by left|apply not_elem_of_nil|].
  pose proof (inv_coherent _ _ _ _ _ _ HI p g Hg ltac:(apply not_elem_of_nil)) as Hco.
  pose proof (ob_class _ _ (inv_objects _ _ _ _ _ _ HI) p g Hg) as Hcls.
  assert (Inv (p :: U) [p] None [] [] w) as HI'.
  { destruct HI as [Hl Ho Hs Hc Hco' Hhe Hpe Hal]. constructor; try done.
    - intros q h Hq _. apply (Hco' q h Hq), not_elem_of_nil.
    - intros q [Hq|Hq]; apply Hhe; left; [done|]. apply list_elem_of_singleton in Hq as ->. by left.
    - intros q Hq _. apply Hpe; [done|apply not_elem_of_nil]. }
  unfold work. apply wp_bind. eapply wp_get_goal; [exact Hg|]. unfold goal_class in Hcls.
  destruct (g_self g) as [d|s] eqn:Es.
  - apply wp_derivation_run; [done|done|]. split; [exact HI'|split; [exact Hh|exists g; split_and!; [done|done|done|]]].
    by apply coherent_enters.
  - apply wp_substitution_run; [done|done|]. split; [exact HI'|split; [exact Hh|exists g; split_and!; [done|done|done|]]].
    by apply coherent_enters_substitution.
Qed.

(** Without top goals it does not matter which goals are scheduled. *)
Lemma Inv_abandon U w : Inv U [] None [] [] w → w_topGoals w = [] → Inv [] [] None [] [] w.
Proof.
  intros [Hl Ho [S1 S2 S3 S4 S5] Hc Hco Hh Hpe Hal] Ht. constructor; try done.
  - constructor; try done. intros p g Hq Hp. destruct (S2 p g Hq Hp) as (_ & ? & ?). by split_and!; [apply not_elem_of_nil|..].
  - intros p [Hp|Hp]; by apply elem_of_nil in Hp.
Qed.

Lemma wp_work_all fuel hs l w :
  rested hs l w → NoDup l → wp (work_all fuel l) (λ _, rested hs []) no_fault w.
Proof.
  revert w. induction l as [|p l IH]; intros w Hr Hnd; cbn [work_all]; [by apply wp_ret|]. apply NoDup_cons in Hnd as [Hn Hnd].
  apply wp_bind, wp_call_same. intros [] w1 Hss. apply wp_bind.
  eapply wp_mono; [eapply wp_work; [by eapply rested_same|done]| |done]. intros [] w2 H2.
  apply wp_bind, wp_gets; [|done]. intros top [= <-]. case_decide as Ht; [|by apply IH].
  apply wp_ret. destruct H2 as [HI2 Hh2]. split; [by eapply Inv_abandon|done].
Qed.

(** * One round of the goals that are awake *)

Lemma gather_spec (ok : GoalPtr → bool) (l s s' : list GoalPtr) :
  (∀ p q, ok p = true → ok q = true → p ∈ l ++ s → q ∈ l ++ s → same_goal p q → q = p) →
  (∀ p, p ∈ s → ok p = true) → StronglySorted key_lt s →
  foldM (λ s p, if ok p then goals_insert p s else Ret s) l s = Ret s' →
  StronglySorted key_lt s' ∧ ∀ x, x ∈ s' ↔ x ∈ s ∨ x ∈ l ∧ ok x = true.
Proof.
  revert s. induction l as [|p l IH]; intros s Hu Hal Hs; cbn [foldM].
  { intros [= <-]. split; [done|]. intros x. rewrite elem_of_nil. tauto. }
  intros (s1 & H1 & H2)%bind_Ret_inv. destruct (ok p) eqn:Ea.
  - destruct (goals_insert_spec p s s1 H1 Hs) as [Hs1 Hin].
    { intros x Hx Hsame. apply Hu; [done|by apply Hal|by left|right; apply elem_of_app; by right|done]. }
    assert (∀ x, x ∈ l ++ s1 → x ∈ (p :: l) ++ s) as Hsub.
    { intros x [?|[->|?]%Hin]%elem_of_app; [right; apply elem_of_app; by left|by left|right; apply elem_of_app; by right]. }
    destruct (IH s1) as [Hs' Hin']; [| |done|exact H2|].
    + intros x y Hx Hy Hxl Hyl. apply Hu; [done|done|by apply Hsub|by apply Hsub].
    + intros x [->|?]%Hin; [done|by apply Hal].
    + split; [done|]. intros x. rewrite Hin', Hin, elem_of_cons. naive_solver.
  - injection H1 as <-. destruct (IH s) as [Hs' Hin']; [|done|done|exact H2|].
    + intros x y Hx Hy Hxl Hyl. apply Hu; [done|done|by right|by right].
    + split; [done|]. intros x. rewrite Hin', elem_of_cons. assert (ok p ≠ true) by congruence. naive_solver.
Qed.

Lemma gather_throw (ok : GoalPtr → bool) (l s : list GoalPtr) e w :
  foldM (λ s p, if ok p then goals_insert p s else Ret s) l s = Throw e → no_fault e w.
Proof.
  revert s. induction l as [|p l IH]; intros s; cbn [foldM]; [done|]. destruct (ok p); [|apply IH].
  destruct (goals_insert p s) as [s1|e1|] eqn:E; simpl; [apply IH|intros [= <-]; by eapply goals_insert_throw|done].
Qed.

(** The goals that are awake are taken out of their queue. *)
Lemma Inv_taken w (l : list GoalPtr) :
  Inv [] [] None [] [] w → (∀ x, x ∈ l ↔ x ∈ w_awake w ∧ is_Some (w_heap w !! x)) →
  Inv l [] None [] [] (on_held (app l) (on_awake (λ _, []) w)).
Proof.
  intros HI Hl. pose proof HI as [Hli Ho [S1 S2 S3 S4 S5] Hc Hco Hh Hpe Hal].
  assert (∀ p, p ∈ queues w ↔ p ∈ w_awake w ∨ p ∈ sleepers w) as Hq by (intros p; apply elem_of_app).
  apply NoDup_app in S1 as (N1 & N2 & N3). change (NoDup (sleepers w)) in N3.
  constructor; cbn; try done.
  - destruct Ho as [O1 O2 O3 O4 O5 O6 O7 O8 O9]. constructor; try done. intros p Hp. apply O4, Hq. by right.
  - constructor; cbn; try done.
    + intros p g Hp Hg. change (p ∈ sleepers w) in Hp. destruct (S2 p g) as (_ & ? & ?); [apply Hq; by right|done|].
      split_and!; [|done|done]. intros [Ha _]%Hl. by apply (N2 p).
    + intros p g Hg Hb Hn Ht. destruct (S4 p g Hg Hb) as [Hin|?]; [apply not_elem_of_nil|done| |by right].
      left. change (p ∈ sleepers w). apply Hq in Hin as [Ha|?]; [|done]. destruct Hn. apply Hl. eauto.
  - by destruct Hc.
  - intros p [Hp|Hp]; [apply elem_of_app; by left|by apply elem_of_nil in Hp].
  - intros p [Ha [g Hg]]%Hl _. exists g. destruct (S2 p g) as (_ & ? & ?); [apply Hq; by left|done|done].
  - intros p [[_ ?]%Hl|Hp]%elem_of_app; [done|by apply Hal].
Qed.

Lemma wp_awake_round fuel hs w :
  rested hs [] w → wp (awake_round fuel) (λ _, rested hs []) no_fault w.
Proof.
  intros [HI Hh]. unfold awake_round. apply wp_bind, wp_gets; [|done]. intros w0 [= <-].
  apply wp_bind, wp_lift; [|intros e He; by eapply gather_throw]. intros l Hgather.
  destruct (gather_spec (alive w) (w_awake w) [] l) as [Hs Hl];
    [|intros p Hp; by apply elem_of_nil in Hp|constructor|exact Hgather|].
  { intros p q [g Hp]%alive_spec [h Hq]%alive_spec Hpa Hqa [E1 E2]. rewrite app_nil_r in Hpa, Hqa.
    assert (∀ x y, w_heap w !! x = Some y → x ∈ w_awake w → unfinished None x y) as Hu.
    { intros x y Hx Hin. left. apply (sc_rest _ _ (inv_scheduled _ _ _ _ _ _ HI) x y); [|done]. apply elem_of_app. by left. }
    symmetry. apply (Inv_unique [] [] None [] [] w p q g h HI); [done|by apply Hu|done|by apply Hu|done]. }
  apply wp_bind, wp_modify, wp_holding. eapply wp_mono; [eapply (wp_work_all _ (l ++ hs))| |done].
  - split; [|cbn; by rewrite Hh]. apply Inv_taken; [done|]. intros x. rewrite Hl, elem_of_nil, alive_spec. tauto.
  - by apply goals_sorted_nodup.
  - intros [] w1 [HI1 Hh1]. eapply wp_reclaim; [apply Inv_on_held; [exact HI1| |]|].
    + intros p [Hp|Hp]; by apply elem_of_nil in Hp.
    + intros p Hp. apply (inv_alive _ _ _ _ _ _ HI1). rewrite Hh1, <-Hh. apply elem_of_app. by right.
    + intros w2 HI2 Hsh. split; [done|]. rewrite (sh_held _ _ Hsh). exact Hh.
Qed.

Lemma wp_awake_loop fuel hs w :
  rested hs [] w → wp (awake_loop fuel) (λ _ w', rested hs [] w' ∧ (w_awake w' = [] ∨ w_topGoals w' = [])) no_fault w.
Proof.
  revert w. induction fuel as [|fuel IH]; intros w Hr; cbn [awake_loop]; [done|].
  apply wp_bind, wp_gets; [|done]. intros w0 [= <-]. destruct (_ && _) eqn:E.
  - apply wp_bind. eapply wp_mono; [by apply wp_awake_round| |done]. intros [] w1 H1. by apply IH.
  - apply wp_ret. split; [done|]. apply andb_false_iff in E as [E|E]; apply bool_decide_eq_false, dec_stable in E; auto.
Qed.

(** * Input from children *)

(** A goal with a child is woken; it may be awake already. *)
Lemma Inv_wake w p g :
  Inv [] [] None [] [] w → w_heap w !! p = Some g → goal_procs g ≠ [] →
  Inv [] [] None [] [] (on_awake (addToWeakGoals p) w).
Proof.
  intros HI Hg Hp. pose proof (inv_coherent _ _ _ _ _ _ HI p g Hg ltac:(apply not_elem_of_nil)) as Hco.
  assert (busy g) as Hb.
  { destruct (decide (g_exitCode g = ecBusy)) as [|Hnb]; [done|]. by destruct Hp; apply (co_done _ Hco). }
  pose proof (inv_scheduled _ _ _ _ _ _ HI) as Hs.
  assert (p ∉ sleepers w) as Hns by (intros Hin; destruct Hp; by apply (sc_sleep _ _ Hs p)).
  destruct (decide (p ∈ w_awake w)) as [Ha|Ha].
  { eapply Inv_same_sched; [exact HI|]. constructor; try done. cbn. unfold addToWeakGoals. by rewrite decide_True. }
  assert (p ∉ queues w) as Hnq by (intros [?|?]%elem_of_app; done).
  eapply (Inv_same_goals [] []); [exact HI|done|done| | |by eapply Inv_children_eq; [exact HI|..]].
  - intros q Hq. unfold queues in Hq. cbn in Hq. apply elem_of_app in Hq as [[->|Hq]%elem_addToWeakGoals|Hq].
    + apply (ob_fresh _ _ (inv_objects _ _ _ _ _ _ HI)). eauto.
    + apply (ob_fresh_queues _ _ (inv_objects _ _ _ _ _ _ HI)), elem_of_app. by left.
    + apply (ob_fresh_queues _ _ (inv_objects _ _ _ _ _ _ HI)), elem_of_app. by right.
  - assert (queues (on_awake (addToWeakGoals p) w) ≡ₚ p :: queues w) as Hq.
    { unfold queues. cbn. rewrite addToWeakGoals_new by done. apply (push_perm []). }
    destruct Hs as [S1 S2 S3 S4 S5]. constructor; try done.
    + rewrite Hq. by constructor.
    + intros q h Hin Hh. rewrite Hq in Hin. apply elem_of_cons in Hin as [->|Hin]; [|by apply S2].
      assert (h = g) as -> by (cbn in Hh; congruence).
      split_and!; [apply not_elem_of_nil|done|by apply (co_free _ Hco)].
    + intros q h Hh Hbh Hn Ht. rewrite Hq. destruct (S4 q h Hh Hbh Hn Ht) as [?|?]; [left; by right|by right].
Qed.

(** What is recorded of a child, apart from its goal and slot. *)
Lemma Inv_child w pid c f :
  Inv [] [] None [] [] w → w_children w !! pid = Some c → c_goal (f c) = c_goal c → c_inBuildSlot (f c) = c_inBuildSlot c →
  Inv [] [] None [] [] (on_children (<[pid := f c]>) w).
Proof.
  intros HI Hc Eg Es. destruct (inv_children _ _ _ _ _ _ HI) as [C1 C2 C3 C4 C5 C6 C7 C8 C9 C10].
  eapply (Inv_same_goals [] []); [exact HI|done|done|apply (ob_fresh_queues _ _ (inv_objects _ _ _ _ _ _ HI))| |].
  - by eapply (scheduled_requeue [] w); [apply HI|done|done|apply HI|done|done|apply HI].
  - constructor; cbn; try done.
    + intros q c' [[<- <-]|[Hne Hc']]%lookup_insert_Some Hn; [rewrite Eg; by apply (C1 pid)|by apply C1].
    + intros p g q Hp Hin Hn. destruct (C2 p g q Hp Hin Hn) as (? & ? & c' & Hc' & Ec). split_and!; [done|done|].
      destruct (decide (pid = q)) as [->|Hne]; [exists (f c); rewrite lookup_insert_eq; split; [done|congruence]|].
      exists c'. by rewrite lookup_insert_ne.
    + intros q Hq. by apply elem_of_nil in Hq.
    + intros q Hq. by apply elem_of_nil in Hq.
    + rewrite C5, <-(insert_delete_eq _ pid (f c)), (slots_insert _ _ (f c)) by apply lookup_delete_eq.
      rewrite (slots_delete _ _ c) by done. rewrite Es. lia.
    + intros q Hq. destruct (C6 q Hq) as (? & Hn & ?). split_and!; [done| |done]. rewrite lookup_insert_ne; [done|].
      intros <-. congruence.
Qed.

(** The child [pid] of [p] is being read from. *)
Definition reading hs (pid : Z) (p : GoalPtr) w : Prop :=
  rested hs [] w ∧ ∃ c g, w_children w !! pid = Some c ∧ c_goal c = p ∧ w_heap w !! p = Some g ∧ goal_procs g ≠ [].

Lemma reading_same hs pid p w w' : reading hs pid p w → same_sched w w' → reading hs pid p w'.
Proof.
  intros [Hr (c & g & H1 & H2 & H3 & H4)] Hss. split; [by eapply rested_same|]. exists c, g.
  by rewrite (ss_children _ _ Hss), (sg_heap_eq _ _ (ss_goals _ _ Hss)).
Qed.

Lemma wp_reading_wake hs pid p w (Q : () → Worker W → Prop) :
  reading hs pid p w → (∀ w', reading hs pid p w' → Q () w') → wp (wakeUp p) Q no_fault w.
Proof.
  intros [[HI Hh] (c & g & H1 & H2 & H3 & H4)] HQ. apply wp_modify, HQ. split; [split; [by eapply Inv_wake|done]|].
  by exists c, g.
Qed.

Lemma wp_reading_child hs pid p w f (Q : () → Worker W → Prop) :
  reading hs pid p w → (∀ c, c_goal (f c) = c_goal c ∧ c_inBuildSlot (f c) = c_inBuildSlot c) →
  (∀ w', reading hs pid p w' → Q () w') → wp (upd_child pid f) Q no_fault w.
Proof.
  intros [[HI Hh] (c & g & H1 & H2 & H3 & H4)] Hf HQ. unfold upd_child, get_child. apply wp_bind, wp_gets; rewrite H1; [|done].
  intros ? [= <-]. apply wp_modify, HQ. destruct (Hf c) as [F1 F2]. split; [split; [by apply Inv_child|done]|].
  exists (f c), g. cbn. rewrite lookup_insert_eq. by split_and!; [|congruence|..].
Qed.

(** Members of the goal that the scheduler does not look at. *)
Lemma wp_reading_own hs pid p w f (Q : () → Worker W → Prop) :
  reading hs pid p w → (∀ g, own_change f g) → (∀ g, coherent g → coherent (f g)) →
  (∀ g, goal_procs (f g) = goal_procs g) → (∀ w', reading hs pid p w' → Q () w') → wp (upd_goal p f) Q no_fault w.
Proof.
  intros [[HI Hh] (c & g & H1 & H2 & H3 & H4)] Hf Hco Hp HQ. apply wp_modify, HQ. split; [split; [|done]|].
  - apply Inv_own; [done|]. intros g0 Hg0. split_and!; [done|right|done].
    apply Hco, (inv_coherent _ _ _ _ _ _ HI p g0 Hg0), not_elem_of_nil.
  - exists c, (f g). cbn. by rewrite lookup_alter_eq, H3, Hp.
Qed.

Lemma coherent_log (size : Z) g : coherent g → coherent (on_derivation (dgoal_logSize (λ _, size)) g).
Proof. destruct g as [ws wr n1 n2 n3 ec [d|x]]; [|done]. intros []. by constructor. Qed.
Lemma coherent_status line g : coherent g → coherent (on_substitution (sgoal_status (λ _, line)) g).
Proof. destruct g as [ws wr n1 n2 n3 ec [d|x]]; [done|]. intros []. by constructor. Qed.

Lemma wp_reading_derivation hs pid p w (Q : DerivationGoal → Worker W → Prop) :
  reading hs pid p w → gp_class p = ClassDerivationGoal → (∀ d, Q d w) → wp (get_derivation p) Q no_fault w.
Proof.
  intros [[HI Hh] (c & g & H1 & H2 & H3 & H4)] Hcls HQ. unfold get_derivation. apply wp_bind.
  eapply wp_get_goal; [exact H3|]. pose proof (ob_class _ _ (inv_objects _ _ _ _ _ _ HI) p g H3) as Hc.
  rewrite Hcls in Hc. unfold goal_class in Hc. destruct (g_self g); [by apply wp_ret|done].
Qed.

Lemma wp_reading_substitution hs pid p w (Q : SubstitutionGoal → Worker W → Prop) :
  reading hs pid p w → gp_class p = ClassSubstitutionGoal →
  (∀ s, is_Some (sg_substituter s) → Q s w) → wp (get_substitution p) Q no_fault w.
Proof.
  intros [[HI Hh] (c & g & H1 & H2 & H3 & H4)] Hcls HQ. unfold get_substitution. apply wp_bind.
  eapply wp_get_goal; [exact H3|]. pose proof (ob_class _ _ (inv_objects _ _ _ _ _ _ HI) p g H3) as Hc.
  rewrite Hcls in Hc. unfold goal_class in Hc. unfold goal_procs in H4. destruct (g_self g) as [d|s]; [done|].
  apply wp_ret, HQ. by destruct (sg_substituter s).
Qed.

Lemma wp_status_lines fuel hs pid p input w :
  reading hs pid p w → gp_class p = ClassSubstitutionGoal →
  wp (status_lines p fuel input) (λ _, reading hs pid p) no_fault w.
Proof.
  revert input w. induction fuel as [|fuel IH]; intros input w Hr Hcls; cbn [status_lines]; [done|].
  case_decide; [by apply wp_ret|]. apply wp_bind. eapply wp_reading_substitution; [exact Hr|done|]. intros s _.
  apply wp_bind, wp_when; intros _; [|by apply IH]. apply wp_bind.
  eapply wp_reading_own; [exact Hr|intros g; apply own_change_self; by intros []|apply coherent_status| |].
  - by intros [ws wr n1 n2 n3 ec []].
  - intros w1 H1. eapply wp_reading_wake; [exact H1|]. intros w2 H2. by apply IH.
Qed.

(** ** No time limits *)

Section unlimited.
Context (Hlog : set_maxLogSize = 0%Z) (Hsilent : set_maxSilentTime = 0%Z) (Htimeout : set_buildTimeout = 0%Z).

Lemma wp_handleChildOutput hs pid p fd data w :
  reading hs pid p w → wp (handleChildOutput p fd data) (λ _, reading hs pid p) no_fault w.
Proof.
  intros Hr. unfold handleChildOutput. destruct (gp_class p) eqn:Hcls.
  - unfold derivation_handleChildOutput. apply wp_bind. eapply wp_reading_derivation; [exact Hr|done|]. intros d.
    set (logFd := match dg_hook d with Some hook => ag_builderOut hook | None => dg_builderOut d end).
    case_decide; [|by apply wp_ret]. apply wp_bind.
    eapply wp_reading_own; [exact Hr|intros g; apply own_change_self; by intros []|apply coherent_log| |].
    + by intros [ws wr n1 n2 n3 ec []].
    + intros w1 H1. rewrite Hlog. cbn [bool_decide andb]. apply wp_call_same. intros [] w2 Hss. by eapply reading_same.
  - unfold substitution_handleChildOutput. apply wp_bind. eapply wp_reading_substitution; [exact Hr|done|]. intros s [a Ea].
    rewrite Ea. apply wp_bind, wp_lift; [|done]. intros ? [= <-]. apply wp_when; intros _; [by apply wp_status_lines|done].
Qed.

Lemma wp_read_child hs pid p after fd w :
  reading hs pid p w → wp (read_child pid p after fd) (λ _, reading hs pid p) no_fault w.
Proof.
  intros Hr. unfold read_child. apply wp_bind, wp_call_same. intros r w1 Hss.
  pose proof (reading_same _ _ _ _ _ Hr Hss) as H1. destruct r as [| |data].
  - by apply wp_ret.
  - apply wp_bind. eapply wp_reading_wake; [exact H1|]. intros w2 H2. by eapply wp_reading_child; [exact H2|..].
  - apply wp_bind. eapply wp_reading_child; [exact H1|done|]. intros w2 H2. by apply wp_handleChildOutput.
Qed.

Lemma wp_poll_child hs ready after pid w :
  rested hs [] w → wp (poll_child ready after pid) (λ _, rested hs []) no_fault w.
Proof.
  intros Hr. unfold poll_child. apply wp_bind, wp_call_same. intros [] w1 Hss.
  pose proof (rested_same _ _ _ _ Hr Hss) as [HI1 Hh1]. apply wp_bind, wp_gets; [|done]. intros j [= <-].
  destruct (w_children w1 !! pid) as [c|] eqn:Hc; [|by apply wp_ret].
  destruct (ch_alive _ _ _ (inv_children _ _ _ _ _ _ HI1) pid c Hc) as (g & Hg & Hp); [apply not_elem_of_nil|].
  apply wp_bind, wp_gets; [|done]. intros b [= <-]. apply wp_bind, wp_check; [intros _|].
  2: { intros Hn. assert (alive w1 (c_goal c) = true) by (apply alive_spec; eauto). congruence. }
  apply wp_holding, wp_bind, (wp_iter (λ _, reading (c_goal c :: hs) pid (c_goal c))).
  - split; [split; [apply (Inv_on_held _ _ _ _ _ w1 (c_goal c :: w_held w1)); [done| |]|cbn; by rewrite Hh1]|].
    + intros p [Hin|Hin]; by apply elem_of_nil in Hin.
    + intros p [->|Hin]%elem_of_cons; [eauto|by apply (inv_alive _ _ _ _ _ _ HI1)].
    + exists c, g. split_and!; [done|done|done|]. intros E. rewrite E in Hp. by apply elem_of_nil in Hp.
  - intros k _ w2 H2. apply wp_when; [intros _; by apply wp_read_child|done].
  - intros w2 [[HI2 Hh2] (c2 & g2 & _ & _ & Hg2 & _)]. apply wp_bind. eapply wp_get_goal; [exact Hg2|].
    apply wp_when; [rewrite Hsilent, Htimeout; by destruct (bool_decide _)|intros _].
    eapply wp_reclaim; [apply Inv_on_held; [exact HI2| |]|].
    + intros p [Hin|Hin]; by apply elem_of_nil in Hin.
    + intros p Hin. apply (inv_alive _ _ _ _ _ _ HI2). rewrite Hh2, <-Hh1. by right.
    + intros w3 HI3 Hsh. split; [done|]. rewrite (sh_held _ _ Hsh). exact Hh1.
Qed.

Lemma wp_waitForInput hs w : rested hs [] w → wp waitForInput (λ _, rested hs []) no_fault w.
Proof.
  intros Hr. unfold waitForInput. apply wp_bind, wp_call_same. intros before w1 Hss.
  pose proof (rested_same _ _ _ _ Hr Hss) as H1. apply wp_bind, wp_gets; [|done]. intros w0 [= <-].
  destruct (select_timeout before w1) as [timeout lastWokenUp]. apply wp_bind, wp_modify.
  apply wp_bind, wp_call_same. intros selected w2 Hss2. destruct selected as [ready|].
  2: { apply wp_ret. eapply rested_same; [exact H1|]. by etrans; [|exact Hss2]. }
  apply wp_bind, wp_call_same. intros after w3 Hss3.
  apply wp_bind, (wp_iter (λ _, rested hs [])); [| |].
  - eapply rested_same; [exact H1|]. etrans; [|exact Hss3]. by etrans; [|exact Hss2].
  - intros pid _ w4 H4. by apply wp_poll_child.
  - intros w4 H4. apply wp_bind, wp_gets; [|done]. intros w0 [= <-]. apply wp_when; [intros _|done].
    apply wp_bind, wp_modify, wp_modify.
    assert (rested hs [] (on_lastWokenUp (λ _, after) w4)) as [HI5 Hh5] by by eapply rested_same.
    split; [|done]. eapply Inv_woken; [exact HI5|apply woken_while].
Qed.

(** ** Nothing to wait for *)

Definition waits_for w (p q : GoalPtr) : Prop := ∃ g, w_heap w !! p = Some g ∧ q ∈ g_waitees g.

(** Goals that wait for each other, or for a lock that this process holds. *)
Definition deadlocked w : Prop := w_waitingForAnyGoal w ≠ [] ∨ ∃ p, tc (waits_for w) p p.

Definition is_busy w (p : GoalPtr) : bool :=
  match w_heap w !! p with Some g => bool_decide (g_exitCode g = ecBusy) | None => false end.

Lemma stuck_deadlocked w :
  Inv [] [] None [] [] w → w_topGoals w ≠ [] → w_awake w = [] → w_children w = ∅ → w_waitingForAWhile w = [] →
  (0 < set_maxBuildJobs)%Z → deadlocked w.
Proof.
  intros HI Htop Ha Hc Hw Hj. unfold deadlocked. destruct (w_waitingForAnyGoal w) as [|x l] eqn:Eany; [right|by left].
  pose proof (inv_scheduled _ _ _ _ _ _ HI) as Hs. pose proof (inv_children _ _ _ _ _ _ HI) as Hch.
  assert (w_wantingToBuild w = []) as Ewant.
  { destruct (decide (w_wantingToBuild w = [])) as [|Hne]; [done|]. pose proof (sc_slots _ _ Hs Hne) as Hsl.
    rewrite (ch_slots _ _ _ Hch), Hc in Hsl. unfold slots in Hsl. rewrite map_filter_empty, map_size_empty in Hsl. lia. }
  assert (queues w = []) as Eq by (unfold queues; by rewrite Ha, Ewant, Eany, Hw).
  set (busy_dom := filter (λ p, is_busy w p = true) (map_to_list (w_heap w)).*1).
  assert (∀ p, p ∈ busy_dom ↔ busy_goal w p) as Hdom.
  { intros p. unfold busy_dom. rewrite list_elem_of_filter, list_elem_of_fmap. unfold is_busy, busy_goal, busy. split.
    - intros [Hb ([q g] & -> & Hin)]. apply elem_of_map_to_list in Hin. cbn in *. rewrite Hin in Hb. exists g.
      by apply bool_decide_eq_true in Hb.
    - intros (g & Hg & Hb). rewrite Hg. split; [by apply bool_decide_eq_true|]. exists (p, g). split; [done|].
      by apply elem_of_map_to_list. }
  destruct (w_topGoals w) as [|t tops] eqn:Et; [done|].
  destruct (ob_top _ _ (inv_objects _ _ _ _ _ _ HI) t) as (g & Hg & [Hb|[]]); [rewrite Et; by left|].
  apply (finite_cycle _ busy_dom t); [apply Hdom; by exists g|]. intros p (h & Hp & Hbp)%Hdom.
  destruct (sc_sched _ _ Hs p h Hp Hbp) as [Hin|[Hin|Hin]]; [apply not_elem_of_nil|by rewrite Et|..].
  - rewrite Eq in Hin. by apply elem_of_nil in Hin.
  - destruct (g_waitees h) as [|q qs] eqn:Eqs; [done|].
    destruct (li_waitee _ _ (inv_links _ _ _ _ _ _ HI) p h q Hp) as (k & Hk & _ & [Hbk|[]]); [rewrite Eqs; by left|].
    exists q. split; [apply Hdom; by exists k|]. exists h. rewrite Eqs. split; [done|by left].
  - destruct (goal_procs h) as [|pid pids] eqn:Epp; [done|].
    destruct (ch_procs _ _ _ Hch p h pid Hp) as (_ & _ & c & Hcc & _); [rewrite Epp; by left|apply not_elem_of_nil|].
    rewrite Hc in Hcc. by apply lookup_empty_Some in Hcc.
Qed.

(** ** The loop *)

Context (Hjobs : (0 <= set_maxBuildJobs)%Z).

(** What the loop may throw. *)
Definition worker_fault (e : exn) w : Prop :=
  no_fault e w ∨ e = AssertionFailed "!awake.empty()" ∧ deadlocked w.

Lemma wp_weaken {A} (m : WM W A) (Q : A → Worker W → Prop) w : wp m Q no_fault w → wp m Q worker_fault w.
Proof. intros Hm. eapply wp_mono; [exact Hm|done|]. intros e w' He. by left. Qed.

Lemma wp_nothing_to_wait_for hs w :
  rested hs [] w → w_topGoals w ≠ [] → w_awake w = [] → w_children w = ∅ → w_waitingForAWhile w = [] →
  wp nothing_to_wait_for (λ _, rested hs []) worker_fault w.
Proof.
  intros Hr Htop Ha Hc Hw. unfold nothing_to_wait_for. apply wp_bind, wp_gets; [|done]. intros w0 [= <-].
  apply wp_bind, wp_check; [rewrite Ha; intros Hj|by left].
  apply wp_check; [done|]. intros _. right. split; [done|]. apply stuck_deadlocked; [apply Hr|done..|].
  simpl in Hj. apply negb_true_iff, bool_decide_eq_false in Hj. lia.
Qed.

Lemma wp_run_loop fuel hs w :
  rested hs [] w → wp (run_loop fuel) (λ _ w', rested hs [] w' ∧ w_topGoals w' = []) worker_fault w.
Proof.
  revert w. induction fuel as [|fuel IH]; intros w Hr; cbn [run_loop]; [done|].
  apply wp_bind, wp_weaken, wp_call_same. intros [] w1 Hss. pose proof (rested_same _ _ _ _ Hr Hss) as H1.
  apply wp_bind. eapply wp_mono; [apply wp_weaken, wp_awake_loop; exact H1| |done]. intros [] w2 [H2 Hend].
  apply wp_bind, wp_gets; [|done]. intros w0 [= <-]. case_decide as Ht; [by apply wp_ret|].
  apply wp_bind, (wp_mono _ (λ _, rested hs []) _ worker_fault); [|intros [] w3 H3; by apply IH|done].
  destruct (_ || _) eqn:Ew; [by apply wp_weaken, wp_waitForInput|].
  apply orb_false_iff in Ew as [E1 E2]. apply bool_decide_eq_false, dec_stable in E1, E2.
  destruct Hend as [?|?]; [|done]. by apply wp_nothing_to_wait_for.
Qed.

(** The top goals are set. *)
Lemma Inv_top w (top : list GoalPtr) :
  Inv [] [] None [] [] w → all_queued w → StronglySorted key_lt top → (∀ p, p ∈ top → busy_goal w p) →
  Inv [] [] None [] [] (on_topGoals (λ _, top) w).
Proof.
  intros [Hl Ho Hs Hc Hco Hh Hpe Hal] Hall Hsort Hb. constructor; try done.
  - destruct Ho. constructor; try done. intros p Hp. destruct (Hb p Hp) as (g & ? & ?). exists g. split; [done|by left].
  - destruct Hs. constructor; try done. intros p g Hp Hbp _ _. left. apply (Hall p). by exists g.
  - by destruct Hc.
Qed.

Lemma wp_run fuel hs goals w :
  rested hs [] w → w_topGoals w = [] → all_queued w → (∀ p, p ∈ goals → busy_goal w p) →
  wp (Worker_run fuel goals) (λ _ w', rested hs [] w' ∧ w_topGoals w' = []) worker_fault w.
Proof.
  intros [HI Hh] Htop Hall Hb. unfold Worker_run. apply wp_bind, wp_gets; [|done]. intros ? [= <-]. rewrite Htop.
  apply wp_bind, wp_lift; [|intros e He; left; by eapply (gather_throw (λ _, true))]. intros top Hg.
  destruct (gather_spec (λ _, true) goals [] top) as [Hs Hin]; [|done|constructor|exact Hg|].
  { intros p q _ _ Hp Hq [E1 E2]. rewrite app_nil_r in Hp, Hq.
    destruct (Hb p Hp) as (g & Hgp & Hbp), (Hb q Hq) as (h & Hgq & Hbq). symmetry.
    apply (Inv_unique [] [] None [] [] w p q g h HI); [done|by left|done|by left|done]. }
  apply wp_bind, wp_modify. apply wp_bind. eapply wp_mono; [apply (wp_run_loop fuel hs)| |done].
  - split; [|done]. apply Inv_top; [done|done|done|]. intros p Hp. apply Hb. apply Hin in Hp as [Hp|[? _]]; [|done].
    by apply elem_of_nil in Hp.
  - intros [] w1 H1. apply wp_bind, wp_gets; [|done]. intros w0 [= <-].
    apply wp_bind, wp_check; [intros _|intros _; left; by apply harmless].
    apply wp_bind, wp_check; [intros _|intros _; left; by apply harmless].
    apply wp_check; [done|intros _; left; by apply harmless].
Qed.

Lemma wp_holding_run {A} ps (m : WM W A) w (Q : A → Worker W → Prop) :
  wp m (λ a w', wp reclaim (λ _, Q a) no_fault (on_held (λ _, w_held w) w')) worker_fault (on_held (app ps) w) →
  wp (holding ps m) Q worker_fault w.
Proof.
  unfold wp at 1 3. unfold holding. destruct (m (on_held (app ps) w)) as [[a|e|] w']; [|done|done].
  intros Hc. apply (wp_bind reclaim (λ _, mret a)). eapply wp_mono; [exact Hc| |].
  - intros [] w2 HQ. by apply wp_ret.
  - intros e w2 He. by left.
Qed.

(** Nothing is left to be destroyed. *)
Lemma reclaim_garbage w w' : reclaim w = (Ret (), w') → garbage w' = [].
Proof.
  unfold reclaim. generalize (size (w_heap w)). intros n. revert w. induction n as [|n IH]; intros w; cbn [reclaim_loop];
    destruct (garbage w) as [|p l] eqn:Eg; [by intros [= <-]|done|by intros [= <-]|].
  destruct (w_heap w !! p) as [g|]; [|done]. unfold mbind, SM_bind at 1. cbn.
  unfold mbind, SM_bind. destruct (destructor p g _) as [[]]; [apply IH|done|done].
Qed.

Lemma wp_reclaim_all U B fin w (Q : () → Worker W → Prop) :
  Inv U B fin [] [] w → (∀ w', Inv U B fin [] [] w' → shrunk w w' → garbage w' = [] → Q () w') →
  wp reclaim Q no_fault w.
Proof.
  intros HI HQ. assert (wp reclaim (λ _ w', Inv U B fin [] [] w' ∧ shrunk w w') no_fault w) as Hc.
  { by apply (wp_reclaim _ _ _ _ _ HI). }
  pose proof (reclaim_garbage w) as Hg. unfold wp in *. destruct (reclaim w) as [[[]|e|] w']; [|done|done].
  destruct Hc. by apply HQ, Hg.
Qed.

(** A worker that has done its work: no top goals, no local pointers. *)
Definition finished (hs : list GoalPtr) w : Prop := rested hs [] w ∧ w_topGoals w = [].

(** A worker with new goals, run, and looked at. *)
Lemma wp_run_goals {A} fuel goals (k : WM W A) w :
  rested [] [] w → w_topGoals w = [] → all_queued w → (∀ p, p ∈ goals → busy_goal w p) →
  (∀ w', finished goals w' → wp k (λ _, finished goals) no_fault w') →
  wp (holding goals (Worker_run fuel goals;; k)) (λ _ w', finished [] w' ∧ garbage w' = []) worker_fault w.
Proof.
  intros [HI Hh] Htop Hall Hb Hk. apply wp_holding_run, wp_bind.
  eapply wp_mono; [apply (wp_run fuel goals)| |done].
  - split; [|cbn; by rewrite Hh, app_nil_r]. apply (Inv_on_held _ _ _ _ _ w (goals ++ w_held w)); [done| |].
    + intros p [Hp|Hp]; by apply elem_of_nil in Hp.
    + rewrite Hh, app_nil_r. intros p Hp. destruct (Hb p Hp) as (g & ? & _). eauto.
  - exact Htop.
  - exact Hall.
  - exact Hb.
  - intros [] w1 H1. apply wp_weaken. eapply wp_mono; [by apply Hk| |done]. intros a w2 [[HI2 Hh2] Ht2].
    eapply wp_reclaim_all; [apply Inv_on_held; [exact HI2| |]|].
    + intros p [Hp|Hp]; by apply elem_of_nil in Hp.
    + rewrite Hh. intros p Hp. by apply elem_of_nil in Hp.
    + intros w3 HI3 Hsh Hg. split; [|done]. split; [split; [done|by rewrite (sh_held _ _ Hsh)]|].
      rewrite (sh_top _ _ Hsh). exact Ht2.
Qed.

Lemma wp_exit_code hs p w (Q : ExitCode → Worker W → Prop) :
  rested hs [] w → p ∈ hs → (∀ c, Q c w) → wp (exit_code p) Q no_fault w.
Proof.
  intros [HI Hh] Hp HQ. destruct (inv_alive _ _ _ _ _ _ HI p) as [g Hg]; [by rewrite Hh|].
  unfold exit_code. apply wp_bind. eapply wp_get_goal; [exact Hg|]. by apply wp_ret.
Qed.

(** * The operations of the store *)

Lemma Inv_new_worker (st : W) : Inv [] [] None [] [] (new_worker st).
Proof.
  assert (∀ p g, ¬ ((∅ : gmap GoalPtr Goal) !! p = Some g)) as Hheap by (intros p g; by rewrite lookup_empty).
  assert (∀ p, ¬ (p ∈ @nil GoalPtr)) as Hnil by (intros p; apply not_elem_of_nil).
  assert (∀ (pid : Z), ¬ (pid ∈ @nil Z)) as Hnil' by (intros p; apply not_elem_of_nil).
  assert (∀ cls path p, ¬ goal_map (new_worker st) cls !! path = Some p) as Hmap.
  { intros cls path p. destruct cls; cbn; by rewrite lookup_empty. }
  constructor; cbn; [| | | |naive_solver..].
  - constructor; naive_solver.
  - constructor; try (constructor; fail); try done; cbn; intros; exfalso; try (by eapply Hheap); try by eapply Hnil.
    + by destruct H as [? ?%Hheap].
    + by eapply Hmap.
  - constructor; cbn; [constructor|naive_solver..].
  - constructor; cbn; try naive_solver; [apply NoDup_nil_2|unfold slot_limit; lia].
Qed.

(** The goals made so far. *)
Definition made (goals : list GoalPtr) w : Prop :=
  rested [] [] w ∧ w_topGoals w = [] ∧ all_queued w ∧ (∀ p, p ∈ goals → busy_goal w p) ∧ StronglySorted key_lt goals.

Lemma busy_kept w w' p : kept w w' → busy_goal w p → busy_goal w' p.
Proof.
  intros (_ & _ & Hk & _) (g & Hg & Hb). destruct (Hk p g Hg) as (g' & Hg' & [->|[o ->]]); [by exists g|].
  eexists. split; [exact Hg'|]. by destruct g as [ws wr n1 n2 n3 ec []].
Qed.

Lemma made_kept goals w w' : made goals w → Inv [] [] None [] [] w' → kept w w' → made goals w'.
Proof.
  intros ([_ Hh] & Ht & Hq & Hb & Hs) HI Hk. pose proof Hk as (K1 & K2 & _ & K4).
  split_and!; [split; [done|by rewrite K1]|by rewrite K2|by apply K4| |done]. intros p Hp. by eapply busy_kept, Hb.
Qed.

Lemma made_insert goals p w (Q : list GoalPtr → Worker W → Prop) :
  made goals w → busy_goal w p → (∀ goals' w', made goals' w' → Q goals' w') →
  wp (lift (goals_insert p goals)) Q no_fault w.
Proof.
  intros (Hr & Ht & Hq & Hb & Hs) Hp HQ. apply wp_lift; [|intros e He; by eapply goals_insert_throw].
  intros goals' Hg. apply HQ. destruct (goals_insert_spec p goals goals' Hg Hs) as [Hs' Hin].
  { intros x Hx Hsame. destruct (Hb x Hx) as (h & Hh & Hbh), Hp as (g & Hgp & Hbp). symmetry.
    apply (Inv_unique [] [] None [] [] w p x g h (proj1 Hr)); [done|by left|done|by left|done]. }
  split_and!; [done|done|done| |done]. intros x [->|?]%Hin; [done|by apply Hb].
Qed.

Lemma wp_make_goal mode goals i w : made goals w → wp (make_goal mode goals i) made no_fault w.
Proof.
  intros Hm. unfold make_goal. apply wp_bind, wp_lift.
  2: { intros e. unfold parseDrvPathWithOutputs. destruct (find_char _ i); [|done]. by rewrite tokenizeString_spec. }
  intros [drvPath outs] _. apply wp_bind.
  apply (wp_mono _ (λ p w', made goals w' ∧ busy_goal w' p) _ no_fault);
    [|intros p w' [Hm' Hp]; by eapply made_insert|done].
  assert (∀ q : GoalPtr, q ∈ [] → is_Some (w_heap w !! q)) as Hnil by (intros q Hq; by apply elem_of_nil in Hq).
  destruct (isDerivation drvPath).
  - eapply wp_makeDerivationGoal; [apply Hm|done|apply no_fault_tolerant|]. intros p w' HI Hb Hk. split; [by eapply made_kept|done].
  - eapply wp_makeSubstitutionGoal; [apply Hm|done|]. intros p w' HI Hb Hk. split; [by eapply made_kept|done].
Qed.

Lemma made_new_worker st : made [] (new_worker st).
Proof.
  split_and!; [split; [apply Inv_new_worker|done]|done| |intros p Hp; by apply elem_of_nil in Hp|constructor].
  intros p (g & Hg & _). cbn in Hg. by rewrite lookup_empty in Hg.
Qed.

Lemma wp_buildPaths_body fuel drvPaths mode st :
  wp (buildPaths_body fuel drvPaths mode) (λ _ w', finished [] w' ∧ garbage w' = []) worker_fault (new_worker st).
Proof.
  unfold buildPaths_body. apply wp_bind, wp_weaken.
  apply (wp_iterM (λ _ goals w, made goals w)); [apply made_new_worker|intros i _ goals w; by apply wp_make_goal|].
  intros goals w (Hr & Ht & Hq & Hb & Hs). apply wp_run_goals; [done..|]. intros w1 H1.
  apply wp_bind, (wp_iterM (λ l _ w', finished goals w' ∧ ∀ x, x ∈ l → x ∈ goals)); [done| |].
  - intros i l failed w2 [H2 Hsub]. apply wp_bind. eapply wp_exit_code; [apply H2|apply Hsub; by left|].
    intros c. apply wp_ret. split; [done|]. intros x Hx. apply Hsub. by right.
  - intros failed w2 [H2 _]. by apply wp_check.
Qed.

Lemma wp_ensurePath_body fuel path st :
  wp (ensurePath_body fuel path) (λ _ w', finished [] w' ∧ garbage w' = []) worker_fault (new_worker st).
Proof.
  destruct (made_new_worker st) as ([HI Hh] & Ht & Hq & _). unfold ensurePath_body. apply wp_bind, wp_weaken.
  eapply wp_makeSubstitutionGoal; [exact HI|intros q Hq'; by apply elem_of_nil in Hq'|]. intros p w HI1 Hb (K1 & K2 & _ & K4).
  apply wp_run_goals; [split; [done|by rewrite K1]|by rewrite K2|by apply K4| |].
  - by intros q ->%list_elem_of_singleton.
  - intros w1 H1. apply wp_bind. eapply wp_exit_code; [apply H1|by left|]. intros c. by apply wp_check.
Qed.

(** What is not garbage then is waited for, and no process is left unless goals
    wait for each other. *)
Lemma finished_children w :
  finished [] w → garbage w = [] → w_children w = ∅ ∨ ∃ p, tc (waits_for w) p p.
Proof.
  intros [[HI Hh] Ht] Hg. destruct (decide (w_heap w = ∅)) as [He|He].
  - left. apply map_empty. intros pid. destruct (w_children w !! pid) as [c|] eqn:Hc; [|done].
    destruct (ch_alive _ _ _ (inv_children _ _ _ _ _ _ HI) pid c Hc) as (g & Hg' & _); [apply not_elem_of_nil|].
    by rewrite He, lookup_empty in Hg'.
  - right. set (dom := (map_to_list (w_heap w)).*1).
    assert (∀ p, p ∈ dom ↔ is_Some (w_heap w !! p)) as Hdom.
    { intros p. unfold dom. rewrite list_elem_of_fmap. split.
      - intros ([q g] & -> & Hin%elem_of_map_to_list). eauto.
      - intros [g Hp]. exists (p, g). split; [done|]. by apply elem_of_map_to_list. }
    apply map_choose in He as (p & g & Hp).
    destruct (finite_cycle (flip (waits_for w)) dom p) as [y Hy]; [apply Hdom; eauto| |].
    + intros q Hq. destruct (referenced w q) eqn:Er.
      * unfold referenced in Er. rewrite Ht, Hh in Er. apply orb_true_iff in Er as [Er|Er]; [done|].
        apply existsb_exists in Er as ([x h] & Hx%list_elem_of_In%elem_of_map_to_list & Hin%bool_decide_eq_true).
        exists x. split; [apply Hdom; eauto|]. exists h. done.
      * assert (q ∈ garbage w) as Hin; [|rewrite Hg in Hin; by apply elem_of_nil in Hin].
        unfold garbage. by apply list_elem_of_filter.
    + exists y. by apply tc_flip.
Qed.
End unlimited.
End worker.
