(* ===== verification/BuildExamples.v ===== *)
(** Runs of the worker in small worlds: builds and substitutions that succeed,
    and the ways in which they go wrong. *)

From S2P Require Import Prelude StateMonad Containers Hash Paths StorePaths Derivations LocalDB GoalState Goals BuildGoals BuildWorker GoalInvariants GoalRules.

(** * A small world *)

(** Builders and substituters answer at once: every descriptor is at its end
    when it is read, or has the line [sc_reply]. *)
Record Scenario := mkScenario {
  sc_drvs : list (bytes * Derivation);
  sc_substs : list (bytes * strset);
  sc_status : Z;
  sc_reply : bytes → ReadResult;           (* by the last request to an agent *)
  sc_failed : bytes → bool;
  sc_write_fails : nat → bool;             (* the n-th request *)
  sc_namespace_fails : bool
}.

Record Toy := mkToy {
  toy_valid : strset;
  toy_clock : Z;
  toy_pid : Z;
  toy_line : bytes;
  toy_writes : nat;
  toy_builds : list bytes                  (* derivations whose builder was started *)
}.

Definition toy_step (f : Toy → Toy) {A} (a : A) : SM Toy A := modify f;; mret a.
Definition toy_add (p : bytes) (t : Toy) : Toy :=
  mkToy (set_insert p (toy_valid t)) (toy_clock t) (toy_pid t) (toy_line t) (toy_writes t) (toy_builds t).
Definition toy_tick (t : Toy) : Toy :=
  mkToy (toy_valid t) (toy_clock t + 1) (toy_pid t) (toy_line t) (toy_writes t) (toy_builds t).
Definition toy_fork (t : Toy) : Toy :=
  mkToy (toy_valid t) (toy_clock t) (toy_pid t + 1) (toy_line t) (toy_writes t) (toy_builds t).
Definition toy_wrote (line : bytes) (t : Toy) : Toy :=
  mkToy (toy_valid t) (toy_clock t) (toy_pid t) line (S (toy_writes t)) (toy_builds t).
(** A process number that is not in use. *)
Definition toy_fresh (live : list Z) (t : Toy) : Z := foldr Z.max (Z.max 1 (toy_pid t)) ((λ p, p + 1)%Z <$> live).
Definition toy_built (drv : bytes) (t : Toy) : Toy :=
  mkToy (toy_valid t) (toy_clock t) (toy_pid t) (toy_line t) (toy_writes t) (toy_builds t ++ [drv]).

#[local] Instance toy_handler (sc : Scenario) : Handler Toy := λ A c,
  match c in call A return SM Toy A with
  | Time => t ← gets (λ t, Ret (toy_clock t)); mret t
  | IsValidPath p => gets (λ t, Ret (set_mem p (toy_valid t)))
  | PathContentsGood p => mret true
  | DerivationFromPath p =>
      lift (match map_find p (sc_drvs sc) with Some d => Ret d | None => Throw (Error "no such derivation") end)
  | HasPathFailed p => mret (sc_failed sc p)
  | ComputeFSClosure p ps => mret (set_insert p ps)
  | QueryDeriver p => mret []
  | QuerySubstitutablePathInfo p =>
      mret ((λ refs, mkSubstitutablePathInfo [] refs 0 0) <$> map_find p (sc_substs sc))
  | RegisterValidPath info => toy_step (toy_add (vp_path info)) ()
  | PathExists p => mret true
  | HashPath ht p => mret (Hash_default, 0%Z)
  | LockFiles ps => mret true
  | StartAgent cmd live =>
      p ← gets (λ t, Ret (toy_fresh live t));
      toy_step toy_fork (mkAgent p true (2 * p) (2 * p + 1))
  | WriteLine a l =>
      n ← gets (λ t, Ret (toy_writes t));
      modify (toy_wrote l);;
      lift (check (negb (sc_write_fails sc n)) (SysError 32 "writing to file"))
  | ReadLine a => mret (str "# decline")
  | SelectFds fds timeout => toy_step toy_tick (Some fds)
  | ReadFd fd => l ← gets (λ t, Ret (toy_line t)); mret (sc_reply sc l)
  | WaitPid p => mret (sc_status sc)
  | ForkBuilder drv live =>
      p ← gets (λ t, Ret (toy_fresh live t));
      modify (toy_built drv);;
      toy_step toy_fork (p, 2 * p + 1)%Z
  | SetupNamespace p => lift (check (negb (sc_namespace_fails sc)) (SysError 1 "writing file"))
  | BuilderReady fd => mret []
  | DiskFull d => mret false
  | RegisterOutputs drvPath drv hook missing all mode cur nr =>
      iter (λ p, modify (toy_add p)) missing
  | _ => mret ()
  end.

Lemma toy_fresh_spec live t : toy_fresh live t ≠ (-1)%Z ∧ toy_fresh live t ∉ live.
Proof.
  unfold toy_fresh.
  assert (∀ l m, (1 <= m)%Z → (1 <= foldr Z.max m l)%Z ∧ ∀ x : Z, x ∈ l → (x <= foldr Z.max m l)%Z) as Hf.
  { intros l m Hm. induction l as [|y l [IH1 IH2]]; simpl; [split; [done|]; intros x Hx; by apply elem_of_nil in Hx|].
    split; [lia|]. intros x [->|Hx]%elem_of_cons; [lia|]. specialize (IH2 x Hx). lia. }
  destruct (Hf ((λ p, p + 1)%Z <$> live) (Z.max 1 (toy_pid t)) ltac:(lia)) as [H1 H2]. split; [lia|]. intros Hin.
  assert (∃ x, x ∈ live ∧ x = foldr Z.max (Z.max 1 (toy_pid t)) ((λ p, p + 1)%Z <$> live)) as (x & Hx & Ex) by eauto.
  specialize (H2 (x + 1)%Z ltac:(apply list_elem_of_fmap; eauto)). lia.
Qed.

#[local] Instance toy_laws sc : HandlerLaws (toy_handler sc).
Proof.
  constructor.
  - intros A c st e st'. destruct c; cbn; try done.
    all: unfold lift, mbind, SM_bind, gets, modify, toy_step, mret, SM_ret; cbn.
    + by destruct (map_find _ _); cbn; intros [= <- <-].
    + by destruct (check _ _) as [[]|?|] eqn:E; cbn; intros [= <- <-]; unfold check in E; destruct (negb _); simplify_eq.
    + by destruct (check _ _) as [[]|?|] eqn:E; cbn; intros [= <- <-]; unfold check in E; destruct (negb _); simplify_eq.
    + revert st. induction missingPaths as [|p l IH]; intros st; [done|]. cbn. apply IH.
  - intros command live st a st' [= <- _]. cbn. destruct (toy_fresh_spec live st). by split_and!.
  - intros drvPath live st pid fd st' [= <- _ _]. apply toy_fresh_spec.
Qed.

#[local] Instance toy_build_error sc : BuildErrorLaw (toy_handler sc).
Proof.
  intros A c st e st'. destruct c; cbn; try done.
  all: unfold lift, mbind, SM_bind, gets, modify, toy_step, mret, SM_ret; cbn.
  - by destruct (map_find _ _); cbn; intros [= <- <-].
  - by destruct (check _ _) as [[]|?|] eqn:E; cbn; intros [= <- <-]; unfold check in E; destruct (negb _); simplify_eq.
  - by destruct (check _ _) as [[]|?|] eqn:E; cbn; intros [= <- <-]; unfold check in E; destruct (negb _); simplify_eq.
Qed.

Definition sp (name : string) : bytes := str "/gnu/store/" ++ replicate 32 "a"%byte ++ str "-" ++ str name.

Definition toy_settings_ (keepGoing : bool) (jobs silent : Z) : Settings := {|
  set_nixStore := str "/gnu/store";
  set_thisSystem := str "x86_64-linux";
  set_readOnlyMode := false;
  set_useSubstitutes := true;
  set_tryFallback := true;
  set_keepGoing := keepGoing;
  set_cacheFailure := false;
  set_useBuildHook := false;
  set_printBuildTrace := true;
  set_maxBuildJobs := jobs;
  set_buildRepeat := 0;
  set_maxSilentTime := silent;
  set_buildTimeout := 0;
  set_pollInterval := 5;
  set_maxLogSize := 0
|}.

(** One job, no time limits. *)
Definition toy_settings (keepGoing : bool) : Settings := toy_settings_ keepGoing 1 0.

(** A derivation by the names of its outputs, their paths and its inputs. *)
Definition toy_drv (outs : list (string * string)) (ins : list string) : Derivation :=
  mkDerivation ((λ o, (str o.1, mkDerivationOutput (sp o.2) [] [])) <$> outs)
    ((λ i, (sp i, [str "out"])) <$> ins) [] (str "x86_64-linux") (str "/bin/sh") [] [].

Definition toy0 (valid : list string) : Toy := mkToy (set_of_list (sp <$> valid)) 100 1000 [] 0 [].

Definition toy_scenario (drvs : list (string * Derivation)) (substs : list (string * list string))
    (reply : ReadResult) : Scenario :=
  mkScenario (prod_map sp id <$> drvs) (prod_map sp (fmap (M := list) sp) <$> substs) 0 (λ _, reply)
    (λ _, false) (λ _, false) false.

(** [buildPaths], the derivations whose builder was started and the valid paths. *)
Definition toy_build (sc : Scenario) (st : Settings) (fuel : nat) (paths valid : list string) : outcome () * list bytes * strset :=
  let '(r, t) := @buildPaths Toy toy_gcrypt st (toy_handler sc) fuel (sp <$> paths) bmNormal (toy0 valid) in
  (r, toy_builds t, toy_valid t).

(** * Builds that succeed *)

Definition sc0 : Scenario :=
  toy_scenario [("a.drv", toy_drv [("out", "a")] ["b.drv"]); ("b.drv", toy_drv [("out", "b")] [])] [] ReadEOF.

Example builds_inputs_first :
  toy_build sc0 (toy_settings false) 30 ["a.drv"] ["a.drv"; "b.drv"] =
  (Ret (), [sp "b.drv"; sp "a.drv"], sp <$> ["a"; "a.drv"; "b"; "b.drv"]).
Proof. vm_compute. reflexivity. Qed.

Definition fetched_line : ReadResult := ReadData (str "success sha1:abc 12" ++ [Byte.x0a]).

Example substitutes_references :
  toy_build (toy_scenario [] [("x", ["y"]); ("y", ["y"])] fetched_line) (toy_settings false) 30 ["x"] [] =
  (Ret (), [], sp <$> ["x"; "y"]).
Proof. vm_compute. reflexivity. Qed.

(** Two derivations with the same output: it is built once. *)
Example builds_shared_output_once :
  toy_build (toy_scenario [("a.drv", toy_drv [("out", "o")] []); ("b.drv", toy_drv [("out", "o")] [])] [] ReadEOF)
    (toy_settings true) 60 ["a.drv"; "b.drv"] ["a.drv"; "b.drv"] =
  (Ret (), [sp "a.drv"], sp <$> ["a.drv"; "b.drv"; "o"]).
Proof. vm_compute. reflexivity. Qed.

(** * Builds that go wrong *)

(** A path that nobody can provide is not reported: only goals that end with
    [ecFailed] count, and this one ends with [ecNoSubstituters]. *)
Example unavailable_path_not_reported :
  toy_build (toy_scenario [] [] ReadEOF) (toy_settings false) 30 ["x"] [] = (Ret (), [], []).
Proof. vm_compute. reflexivity. Qed.

(** An output whose substitute refers to another output that cannot be
    substituted: the derivation is never built. *)
Example retry_substitution_starves_build :
  toy_build (toy_scenario [("d.drv", toy_drv [("lib", "lib"); ("out", "out")] [])] [("out", ["lib"])] fetched_line)
    (toy_settings false) 60 ["d.drv!out"] ["d.drv"] = (OutOfFuel, [], [sp "d.drv"]).
Proof. vm_compute. reflexivity. Qed.

Definition sc_cycle : Scenario := toy_scenario [] [("x", ["y"]); ("y", ["x"])] fetched_line.

(** Substitutes that refer to each other. *)
Example cyclic_references_abort :
  toy_build sc_cycle (toy_settings false) 30 ["x"] [] = (Throw (AssertionFailed "!awake.empty()"), [], []).
Proof. vm_compute. reflexivity. Qed.

(** The substituter has gone away: the write fails before [childStarted], and the
    destructor of the goal calls [childTerminated]. *)
Example lost_substituter_aborts :
  toy_build (mkScenario [] [(sp "x", [])] 0 (λ _, ReadEOF) (λ _, false) (λ n, bool_decide (n = 0)) false)
    (toy_settings true) 30 ["x"] [] = (Throw (AssertionFailed "i != children.end()"), [], []).
Proof. vm_compute. reflexivity. Qed.

(** The same for a builder whose namespace cannot be set up. *)
Example failed_namespace_aborts :
  toy_build (mkScenario [(sp "d.drv", toy_drv [("out", "o")] [])] [] 0 (λ _, ReadEOF) (λ _, false) (λ _, false) true)
    (toy_settings true) 60 ["d.drv"] ["d.drv"] =
  (Throw (AssertionFailed "i != children.end()"), [sp "d.drv"], [sp "d.drv"]).
Proof. vm_compute. reflexivity. Qed.

(** A builder that ends just when its silence has lasted too long: the goal has
    been woken and is ended by the time limit as well. *)
Example timeout_and_end_abort :
  toy_build (toy_scenario [("a.drv", toy_drv [("out", "o")] []); ("b.drv", toy_drv [("out", "p")] [])] [] ReadEOF)
    (toy_settings_ true 2 1) 60 ["a.drv"; "b.drv"] ["a.drv"; "b.drv"] =
  (Throw (AssertionFailed "keepGoing: awake.empty()"), sp <$> ["a.drv"; "b.drv"], sp <$> ["a.drv"; "b.drv"]).
Proof. vm_compute. reflexivity. Qed.

(** A goal that runs into a time limit keeps its locks while it is referred to; a
    goal with the same output waits for it for ever. *)
Example timed_out_goal_keeps_locks :
  toy_build (toy_scenario [("a.drv", toy_drv [("out", "o")] []); ("b.drv", toy_drv [("out", "o")] [])] [] ReadInterrupted)
    (toy_settings_ true 2 1) 60 ["a.drv"; "b.drv"] ["a.drv"; "b.drv"] =
  (Throw (AssertionFailed "!awake.empty()"), [sp "a.drv"], sp <$> ["a.drv"; "b.drv"]).
Proof. vm_compute. reflexivity. Qed.

(** The substituter's line arrives in two parts: the first is taken for its status. *)
Example partial_status_line_fails :
  toy_build (toy_scenario [] [("x", [])] (ReadData (str "succ"))) (toy_settings false) 30 ["x"] [] =
  (Throw (Error "build of paths failed"), [], []).
Proof. vm_compute. reflexivity. Qed.
