(* ===== verification/Settings.v ===== *)
(** libstore/globals.{hh,cc}: the settings of the daemon.

    A setting is a data member of [Settings]; most of them can also be given by
    name, as strings in the map [settings], from which [update] reads them. The
    data members are grouped by type: a group is a function of the member. *)

From S2P Require Import Prelude StateMonad Containers Paths.

(** * Reading numbers *)

(** The integer types of the members, by their values. *)
Inductive int_type := int32 | uint32 | int64 | uint64.

Definition int_max (t : int_type) : Z :=
  match t with int32 => 2 ^ 31 - 1 | uint32 => 2 ^ 32 - 1 | int64 => 2 ^ 63 - 1 | uint64 => 2 ^ 64 - 1 end.
Definition is_unsigned (t : int_type) : bool := match t with uint32 | uint64 => true | _ => false end.

Definition isspace (c : byte) : bool := bool_decide (uchar c = 32 ∨ 9 <= uchar c <= 13)%Z.
Definition isdigit (c : byte) : bool := bool_decide (48 <= uchar c <= 57)%Z.

(** The longest prefix of [s] whose characters satisfy [P], and the rest. *)
Fixpoint span (P : byte → bool) (s : bytes) : bytes * bytes :=
  match s with
  | [] => ([], [])
  | c :: r => if P c then let '(a, b) := span P r in (c :: a, b) else ([], s)
  end.

Definition decimal (digits : bytes) : Z := foldl (λ n c, 10 * n + (uchar c - 48))%Z 0%Z digits.

(** [str >> n] in the C locale: white space, a sign, digits. The result is whether
    it succeeded, what it stored in [n] (nothing when there is no character to
    read), and what is left. A number that does not fit is stored as the nearest
    one; a negative number that fits is stored in an unsigned type modulo its
    size. *)
Definition extract (t : int_type) (s : bytes) : bool * option Z * bytes :=
  let s := (span isspace s).2 in
  if decide (s = []) then (false, None, [])
  else
    let '(neg, s) := match s with
                     | c :: r => if decide (c = "-"%byte) then (true, r)
                                 else if decide (c = "+"%byte) then (false, r) else (false, s)
                     | [] => (false, [])
                     end in
    let '(digits, rest) := span isdigit s in
    let v := decimal digits in
    let bound := if neg && negb (is_unsigned t) then (int_max t + 1)%Z else int_max t in
    let value (v : Z) := if neg : bool
                         then (if is_unsigned t then ((- v) mod (int_max t + 1))%Z else (- v)%Z) else v in
    if decide (digits = []) then (false, Some 0%Z, rest)
    else if decide (bound < v)%Z
    then (false, Some (if neg && negb (is_unsigned t) then (- bound)%Z else bound), rest)
    else (true, Some (value v), rest).

(** [string2Int(s, n)]: the result, and the value assigned to [n] if any. *)
Definition string2Int (t : int_type) (s : bytes) : bool * option Z :=
  let '(ok, n, rest) := extract t s in (ok && bool_decide (rest = []), n).

(** * The settings *)

Module Globals.

Inductive bool_member :=
  | keepFailed | keepGoing | tryFallback | readOnlyMode | useBuildHook | printBuildTrace
  | multiplexedBuildOutput | fsyncMetadata | useSQLiteWAL | syncBeforeRegistering | useSubstitutes
  | useChroot | impersonateLinux26 | keepLog | cacheFailure | checkRootReachability | gcKeepOutputs
  | gcKeepDerivations | autoOptimiseStore | envKeepDerivations | lockCPU | showTrace.

Inductive int_member :=
  | clientUid | clientGid | buildVerbosity | maxBuildJobs | buildCores | maxSilentTime | buildTimeout
  | reservedSize | logCompression | maxLogSize | pollInterval.

Inductive string_member :=
  | nixStore | nixLogDir | nixStateDir | nixDBPath | nixConfDir | nixBinDir | nixDaemonSocketFile
  | guixProgram | thisSystem | buildUsersGroup.

#[global] Instance bool_member_eq_dec : EqDecision bool_member.
Proof. solve_decision. Defined.
#[global] Instance int_member_eq_dec : EqDecision int_member.
Proof. solve_decision. Defined.
#[global] Instance string_member_eq_dec : EqDecision string_member.
Proof. solve_decision. Defined.

(** The maps [settings] and [overrides] are sorted lists (see Containers). *)
Record Settings := mkSettings {
  b : bool_member → bool;
  z : int_member → Z;
  s : string_member → bytes;
  settings : list (bytes * bytes);
  overrides : list (bytes * bytes)
}.

Definition set_b (m : bool_member) (v : bool) (st : Settings) : Settings :=
  mkSettings (λ m', if decide (m' = m) then v else b st m') (z st) (s st) (settings st) (overrides st).
Definition set_z (m : int_member) (v : Z) (st : Settings) : Settings :=
  mkSettings (b st) (λ m', if decide (m' = m) then v else z st m') (s st) (settings st) (overrides st).
Definition set_s (m : string_member) (v : bytes) (st : Settings) : Settings :=
  mkSettings (b st) (z st) (λ m', if decide (m' = m) then v else s st m') (settings st) (overrides st).

(** The types of the members that [update] reads as numbers. *)
Definition member_type (m : int_member) : int_type :=
  match m with
  | maxSilentTime | buildTimeout | reservedSize => int64
  | maxLogSize => uint64
  | _ => uint32
  end.

(** ** Construction *)

(** Environment variables, and the configuration the sources are compiled with. *)
Class Configuration := {
  getenv : bytes → option bytes;
  SYSTEM : bytes;
  NIX_STORE_DIR : bytes;
  NIX_LOG_DIR : bytes;
  NIX_STATE_DIR : bytes;
  GUIX_CONFIGURATION_DIRECTORY : bytes;
  NIX_BIN_DIR : bytes
}.

Definition lvlError : Z := 0.
Definition COMPRESSION_GZIP : Z := 1.

Section configuration.
Context {conf : Configuration}.

Definition getEnv (key def : bytes) : bytes := default def (getenv key).

(** [Settings::Settings()]. The members that the constructor leaves uninitialised
    (the user, and the strings other than [thisSystem], which are empty) are
    given by [uid]. *)
Definition new_settings (uid : Z) : Settings := {|
  b m := match m with
         | useBuildHook | fsyncMetadata | useSQLiteWAL | useSubstitutes | keepLog | gcKeepDerivations => true
         | lockCPU => bool_decide (getEnv (str "NIX_AFFINITY_HACK") (str "1") = str "1")
         | _ => false
         end;
  z m := match m with
         | clientUid | clientGid => uid
         | buildVerbosity => lvlError
         | maxBuildJobs | buildCores => 1
         | maxSilentTime => 3600
         | buildTimeout => 3600 * 24
         | reservedSize => 8 * 1024 * 1024
         | logCompression => COMPRESSION_GZIP
         | maxLogSize => 0
         | pollInterval => 5
         end%Z;
  s m := match m with thisSystem => SYSTEM | _ => [] end;
  settings := [];
  overrides := []
|}.

Definition DEFAULT_SOCKET_PATH : bytes := str "/daemon-socket/socket".

Definition assign_path (m : string_member) (path : outcome bytes) : SM Settings () :=
  p ← lift path; modify (set_s m p).

Definition processEnvironment : SM Settings () :=
  assign_path nixStore
    (canonPath (getEnv (str "NIX_STORE_DIR") (getEnv (str "NIX_STORE") NIX_STORE_DIR)));;
  assign_path nixLogDir (canonPath (getEnv (str "GUIX_LOG_DIRECTORY") NIX_LOG_DIR));;
  assign_path nixStateDir (canonPath (getEnv (str "GUIX_STATE_DIRECTORY") NIX_STATE_DIR));;
  stateDir ← gets (λ st, Ret (s st nixStateDir));
  assign_path nixDBPath (Ret (getEnv (str "GUIX_DATABASE_DIRECTORY") (stateDir ++ str "/db")));;
  assign_path nixConfDir
    (canonPath (getEnv (str "GUIX_CONFIGURATION_DIRECTORY") GUIX_CONFIGURATION_DIRECTORY));;
  assign_path nixBinDir (canonPath (getEnv (str "NIX_BIN_DIR") NIX_BIN_DIR));;
  assign_path nixDaemonSocketFile (canonPath (stateDir ++ DEFAULT_SOCKET_PATH));;
  binDir ← gets (λ st, Ret (s st nixBinDir));
  assign_path guixProgram (canonPath (getEnv (str "GUIX") (binDir ++ str "/guix"))).
End configuration.

(** ** Settings by name *)

Definition set (name value : bytes) (st : Settings) : Settings :=
  mkSettings (b st) (z st) (s st) (map_insert name value (settings st)) (map_insert name value (overrides st)).

Definition get (st : Settings) (name def : bytes) : bytes := default def (map_find name (settings st)).

Definition whitespace : bytes := str " " ++ [Byte.x09; Byte.x0a; Byte.x0d].

Definition get_Strings (st : Settings) (name : bytes) (def : list bytes) : outcome (list bytes) :=
  match map_find name (settings st) with
  | None => Ret def
  | Some v => tokenizeString v whitespace
  end.

(** The overloads of [_get], on the value that the map has for the name. *)
Definition read_bool (v : bytes) : outcome bool :=
  if decide (v = str "true") then Ret true
  else if decide (v = str "false") then Ret false
  else Throw (Error "configuration option should be either `true' or `false'").

Definition no_number : exn := Error "configuration setting should have an integer value".

Definition get_bool (st : Settings) (name : bytes) (def : bool) : outcome bool :=
  match map_find name (settings st) with None => Ret def | Some v => read_bool v end.

Definition get_int (st : Settings) (name : bytes) (def : Z) : outcome Z :=
  match map_find name (settings st) with
  | None => Ret def
  | Some v => let '(ok, n) := string2Int int32 v in check ok no_number;; Ret (default def n)
  end.

(** The same on a member. A value that is no number is stored as far as it was
    read before the exception. *)
Definition _get_string (m : string_member) (name : bytes) : SM Settings () := λ st,
  match map_find name (settings st) with
  | None => (Ret (), st)
  | Some v => (Ret (), set_s m v st)
  end.

Definition _get_bool (m : bool_member) (name : bytes) : SM Settings () := λ st,
  match map_find name (settings st) with
  | None => (Ret (), st)
  | Some v => (res ← lift (read_bool v); modify (set_b m res)) st
  end.

Definition _get_int (m : int_member) (name : bytes) : SM Settings () := λ st,
  match map_find name (settings st) with
  | None => (Ret (), st)
  | Some v =>
      let '(ok, n) := string2Int (member_type m) v in
      let st := match n with Some n => set_z m n st | None => st end in
      (check ok no_number, st)
  end.

Inductive member := B (m : bool_member) | N (m : int_member) | S (m : string_member).

#[global] Instance member_eq_dec : EqDecision member.
Proof. solve_decision. Defined.

Definition _get (m : member) (name : bytes) : SM Settings () :=
  match m with B m => _get_bool m name | N m => _get_int m name | S m => _get_string m name end.

(** The calls of [update], in their order. *)
Definition updates : list (member * bytes) := [
  (B tryFallback, str "build-fallback");
  (N maxBuildJobs, str "build-max-jobs");
  (N buildCores, str "build-cores");
  (S thisSystem, str "system");
  (B multiplexedBuildOutput, str "multiplexed-build-output");
  (N maxSilentTime, str "build-max-silent-time");
  (N buildTimeout, str "build-timeout");
  (N reservedSize, str "gc-reserved-space");
  (B fsyncMetadata, str "fsync-metadata");
  (B useSQLiteWAL, str "use-sqlite-wal");
  (B syncBeforeRegistering, str "sync-before-registering");
  (B useSubstitutes, str "build-use-substitutes");
  (S buildUsersGroup, str "build-users-group");
  (B useChroot, str "build-use-chroot");
  (B impersonateLinux26, str "build-impersonate-linux-26");
  (B keepLog, str "build-keep-log");
  (N maxLogSize, str "build-max-log-size");
  (B cacheFailure, str "build-cache-failure");
  (N pollInterval, str "build-poll-interval");
  (B checkRootReachability, str "gc-check-reachability");
  (B gcKeepOutputs, str "gc-keep-outputs");
  (B gcKeepDerivations, str "gc-keep-derivations");
  (B autoOptimiseStore, str "auto-optimise-store");
  (B envKeepDerivations, str "env-keep-derivations")].

Definition update : SM Settings () := iter (λ u, _get u.1 u.2) updates.

Definition pack (st : Settings) : outcome bytes :=
  foldM (λ acc i,
    check (negb (bool_decide (Byte.x0a ∈ i.1) || bool_decide ("="%byte ∈ i.1) || bool_decide (Byte.x0a ∈ i.2)))
      (Error "invalid option name/value");;
    Ret (acc ++ i.1 ++ str "=" ++ i.2 ++ [Byte.x0a])) (settings st) [].

Definition getOverrides (st : Settings) : list (bytes * bytes) := overrides st.
End Globals.
