(* ===== verification/Substituters.v ===== *)
(** libstore/local-store.cc: the queries that are answered by "guix substitute".

    The program is asked one line at a time and answers in lines; what it prints on
    its standard error arrives in between and is passed on. The state is what the
    program has written and not been read, and the order in which the operating
    system makes it available. *)

From S2P Require Import Prelude StateMonad Containers Paths StorePaths GoalState Settings.

(** * State *)

Abbreviation SubstitutablePathInfos := (list (bytes * SubstitutablePathInfo)).

(** What a turn of the loop in [getLineFromSubstituter] finds. *)
Inductive turn :=
  | SignalPending                 (** [checkInterrupt] throws *)
  | SelectFails (errno : Z)
  | ErrFails (errno : Z)          (** the standard error is ready, [read] fails *)
  | ErrData (chunk : bytes)       (** what [read] returns, nothing at the end *)
  | OutFails (errno : Z)
  | OutReady.

Record Substituter := mkSubstituter {
  sb_running : bool;              (** [runningSubstituter] *)
  sb_turns : list turn;
  sb_out : bytes;                 (** the standard output, from what is unread on *)
  sb_sent : list bytes;           (** the requests *)
  sb_log : list bytes             (** messages passed on *)
}.

Definition sb_next (turns : list turn) (out : bytes) (log : list bytes) (st : Substituter) : Substituter :=
  mkSubstituter (sb_running st) turns out (sb_sent st) log.

(** The program: what becomes of starting it and of writing a line to it, and what
    it writes in answer to the last of the lines it was sent. *)
Class SubstituterProgram := {
  agent_start : outcome ();
  agent_write : list bytes → outcome ();
  agent_answer : list bytes → bytes
}.

Definition EINTR : Z := 4.

(** * Lines *)

Definition newline : byte := Byte.x0a.
Definition carriage_return : byte := Byte.x0d.
Definition prefix : bytes := str "substitute: ".

(** [while (((p = err.find('\n')) != npos) || ((p = err.find('\r')) != npos))]; every
    turn takes something away from [err]. *)
Fixpoint pass_on (fuel : nat) (err : bytes) (log : list bytes) : bytes * list bytes :=
  match fuel with
  | 0 => (err, log)
  | S fuel =>
      match (match find_char newline err with Some p => Some p | None => find_char carriage_return err end) with
      | None => (err, log)
      | Some p => pass_on fuel (drop (p + 1) err) (log ++ [prefix ++ take (p + 1) err])
      end
  end.

(** When there are no turns left the call is waiting for the program. *)
Fixpoint line_loop (turns : list turn) (res err out : bytes) (log : list bytes) (st : Substituter)
    : outcome bytes * Substituter :=
  match turns with
  | [] => (OutOfFuel, sb_next [] out log st)
  | SignalPending :: turns => (Throw Interrupted, sb_next turns out log st)
  | SelectFails errno :: turns =>
      if decide (errno = EINTR) then line_loop turns res err out log st
      else (Throw (SysError errno "waiting for input from the substituter"), sb_next turns out log st)
  | ErrFails errno :: turns =>
      if decide (errno = EINTR) then line_loop turns res err out log st
      else (Throw (SysError errno "reading from substituter's stderr"), sb_next turns out log st)
  | ErrData chunk :: turns =>
      if decide (chunk = []) then (Throw (EndOfFile "substitute died unexpectedly"), sb_next turns out log st)
      else
        let err := err ++ chunk in
        let '(err, log) := pass_on (length err) err log in
        line_loop turns res err out log st
  | OutFails errno :: turns => (Throw (SysError errno "reading from file"), sb_next turns out log st)
  | OutReady :: turns =>
      match out with
      | [] => (Throw (EndOfFile "unexpected end-of-file"), sb_next turns [] log st)
      | c :: out =>
          if decide (c = newline)
          then (Ret res, sb_next turns out (if decide (err = []) then log else log ++ [prefix ++ err]) st)
          else line_loop turns (res ++ [c]) err out log st
      end
  end.

Definition getLineFromSubstituter : SM Substituter bytes := λ st,
  line_loop (sb_turns st) [] [] (sb_out st) (sb_log st) st.

Definition getIntLineFromSubstituter (t : int_type) : SM Substituter Z :=
  s ← getLineFromSubstituter;
  match string2Int t s with
  | (true, Some n) => mret n
  | _ => lift (Throw (Error "integer expected from stream"))
  end.

(** * Queries *)

Section queries.
Context {prog : SubstituterProgram} (nixStore : bytes) (useSubstitutes : bool).

Definition substituter : SM Substituter () := λ st,
  if sb_running st then (Ret (), st)
  else match agent_start with
       | Ret _ => (Ret (), mkSubstituter true (sb_turns st) (sb_out st) (sb_sent st) (sb_log st))
       | Throw e => (Throw e, st)
       | OutOfFuel => (OutOfFuel, st)
       end.

Definition writeLine (line : bytes) : SM Substituter () := λ st,
  let sent := sb_sent st ++ [line] in
  match agent_write sent with
  | Ret _ => (Ret (), mkSubstituter (sb_running st) (sb_turns st) (sb_out st ++ agent_answer sent) sent (sb_log st))
  | Throw e => (Throw e, st)
  | OutOfFuel => (OutOfFuel, st)
  end.

(** Every line takes a byte of the output, so that its length bounds the loops. *)
Definition reads_left (st : Substituter) : nat := S (length (sb_out st)).

Fixpoint have_loop (fuel : nat) (res : strset) : SM Substituter strset :=
  match fuel with
  | 0 => lift OutOfFuel
  | S fuel =>
      path ← getLineFromSubstituter;
      if decide (path = []) then mret res else have_loop fuel (set_insert path res)
  end.

Definition request (command : string) (paths : list bytes) : bytes :=
  str command ++ concat ((λ p, p ++ str " ") <$> paths).

Definition querySubstitutablePaths (paths : strset) : SM Substituter strset :=
  if negb useSubstitutes || bool_decide (paths = []) then mret []
  else
    substituter;;
    writeLine (request "have " paths);;
    fuel ← gets (λ st, Ret (reads_left st));
    have_loop fuel [].

(** [while (nrRefs--)]; the counter may be negative. *)
Fixpoint refs_loop (fuel : nat) (nrRefs : Z) (references : strset) : SM Substituter strset :=
  match fuel with
  | 0 => lift OutOfFuel
  | S fuel =>
      if decide (nrRefs = 0%Z) then mret references
      else if decide (nrRefs = - 2 ^ 31)%Z then lift (Throw (Undefined "nrRefs--"))
      else
        p ← getLineFromSubstituter;
        lift (assertStorePath nixStore p);;
        refs_loop fuel (nrRefs - 1) (set_insert p references)
  end.

Definition empty_info : SubstitutablePathInfo := mkSubstitutablePathInfo [] [] 0 0.

(** The part of the loop that reads the description of a path. *)
Definition read_info (info : SubstitutablePathInfo) : SM Substituter SubstitutablePathInfo :=
  deriver ← getLineFromSubstituter;
  when (bool_decide (deriver ≠ [])) (lift (assertStorePath nixStore deriver));;
  nrRefs ← getIntLineFromSubstituter int32;
  fuel ← gets (λ st, Ret (reads_left st));
  references ← refs_loop fuel nrRefs (si_references info);
  downloadSize ← getIntLineFromSubstituter uint64;
  narSize ← getIntLineFromSubstituter uint64;
  mret (mkSubstitutablePathInfo deriver references downloadSize narSize).

Fixpoint info_loop (fuel : nat) (paths : strset) (infos : SubstitutablePathInfos)
    : SM Substituter (strset * SubstitutablePathInfos) :=
  match fuel with
  | 0 => lift OutOfFuel
  | S fuel =>
      path ← getLineFromSubstituter;
      if decide (path = []) then mret (paths, infos)
      else
        lift (check (set_mem path paths) (Error "got unexpected path from substituter"));;
        info ← read_info (default empty_info (map_find path infos));
        info_loop fuel (set_erase path paths) (map_insert path info infos)
  end.

(** The variables that the code updates are results; no caller looks at them after
    an exception. *)
Definition querySubstitutablePathInfos_ (paths : strset) (infos : SubstitutablePathInfos)
    : SM Substituter (strset * SubstitutablePathInfos) :=
  if negb useSubstitutes then mret (paths, infos)
  else
    substituter;;
    writeLine (request "info " (filter (λ i, map_find i infos = None) paths));;
    fuel ← gets (λ st, Ret (reads_left st));
    info_loop fuel paths infos.

Definition querySubstitutablePathInfos (paths : strset) (infos : SubstitutablePathInfos)
    : SM Substituter SubstitutablePathInfos :=
  if decide (paths = []) then mret infos
  else r ← querySubstitutablePathInfos_ paths infos; mret r.2.
End queries.

(** * What arrives *)

(** The turns in which [n] bytes of the output become available, and nothing fails:
    the text that arrives on the standard error meanwhile, and the turns after. *)
Fixpoint arrives (n : nat) (turns : list turn) : option (bytes * list turn) :=
  match n with
  | 0 => Some ([], turns)
  | S n' =>
      match turns with
      | SelectFails errno :: turns | ErrFails errno :: turns => if decide (errno = EINTR) then arrives n turns else None
      | ErrData chunk :: turns =>
          if decide (chunk = []) then None
          else match arrives n turns with Some (text, rest) => Some (chunk ++ text, rest) | None => None end
      | OutReady :: turns => arrives n' turns
      | _ => None
      end
  end.

Lemma arrives_0 turns : arrives 0 turns = Some ([], turns).
Proof. by destruct turns. Qed.

(** The text has been passed on, in pieces. *)
Definition passed (log log' : list bytes) (text : bytes) : Prop :=
  ∃ pieces, log' = log ++ (app prefix <$> pieces) ∧ concat pieces = text.

Lemma passed_refl log : passed log log [].
Proof. exists []. by rewrite app_nil_r. Qed.

Lemma passed_trans log1 log2 log3 t1 t2 : passed log1 log2 t1 → passed log2 log3 t2 → passed log1 log3 (t1 ++ t2).
Proof.
  intros (p1 & -> & <-) (p2 & -> & <-). exists (p1 ++ p2). by rewrite fmap_app, concat_app, (assoc (++)).
Qed.

Lemma pass_on_spec fuel err log :
  ∃ text, passed log (pass_on fuel err log).2 text ∧ text ++ (pass_on fuel err log).1 = err.
Proof.
  revert err log. induction fuel as [|fuel IH]; intros err log; cbn [pass_on]; [exists []; split; [apply passed_refl|done]|].
  destruct (match find_char newline err with Some p => Some p | None => find_char carriage_return err end) as [p|].
  2: { exists []. split; [apply passed_refl|done]. }
  destruct (IH (drop (p + 1) err) (log ++ [prefix ++ take (p + 1) err])) as (text & Hp & E).
  exists (take (p + 1) err ++ text). split.
  - eapply passed_trans; [|done]. exists [take (p + 1) err]. cbn. by rewrite app_nil_r.
  - rewrite <-(assoc (++)), E. apply take_drop.
Qed.

Lemma line_loop_spec turns res err line out log st text rest :
  newline ∉ line → arrives (S (length line)) turns = Some (text, rest) →
  ∃ log', line_loop turns res err (line ++ newline :: out) log st = (Ret (res ++ line), sb_next rest out log' st) ∧
    passed log log' (err ++ text).
Proof.
  revert res err line log text. induction turns as [|[]  turns IH]; intros res err line log text Hl Ha; cbn [line_loop] in *; try done.
  - cbn in Ha. destruct (decide (errno = EINTR)); [|done]. by apply IH.
  - cbn in Ha. destruct (decide (errno = EINTR)); [|done]. by apply IH.
  - cbn in Ha. destruct (decide (chunk = [])); [done|]. change (length line) with (pred (S (length line))) in Ha.
    destruct (arrives _ turns) as [[text2 rest2]|] eqn:E; [|done]. injection Ha as <- <-.
    destruct (pass_on_spec (length (err ++ chunk)) (err ++ chunk) log) as (t1 & Hp & Et).
    destruct (pass_on _ _ log) as [err' log1]. cbn in Hp, Et. destruct (IH res err' line log1 text2 Hl E) as (log' & -> & Hp').
    exists log'. split; [done|]. rewrite (assoc (++)), <-Et, <-(assoc (++)). by eapply passed_trans.
  - destruct line as [|c line]; cbn [app].
    + rewrite decide_True by done. cbn in Ha. rewrite arrives_0 in Ha. injection Ha as <- <-. eexists. rewrite !app_nil_r. split; [done|].
      case_decide as E; [subst; apply passed_refl|]. exists [err]. split; [done|]. cbn. by rewrite !app_nil_r.
    + apply not_elem_of_cons in Hl as [Hc Hl]. rewrite decide_False by congruence. cbn in Ha.
      destruct (IH (res ++ [c]) err line log text Hl Ha) as (log' & -> & Hp). exists log'. by rewrite <-(assoc (++)).
Qed.

Lemma arrives_plus n m turns text rest : arrives (n + m) turns = Some (text, rest) →
  ∃ t1 turns1 t2, arrives n turns = Some (t1, turns1) ∧ arrives m turns1 = Some (t2, rest) ∧ text = t1 ++ t2.
Proof.
  revert n text. induction turns as [|t turns IH]; intros [|n] text Ha; try done; [by exists [], [], text|by exists [], (t :: turns), text|].
  destruct t; cbn [arrives plus] in *; try done.
  - destruct (decide _); [|done]. by apply (IH (S n)).
  - destruct (decide _); [|done]. by apply (IH (S n)).
  - destruct (decide _); [done|]. change (S (n + m)) with (S n + m) in Ha. destruct (arrives (S n + m) turns) as [[text2 r]|] eqn:E; [|done].
    injection Ha as <- <-. destruct (IH (S n) text2 E) as (t1 & turns1 & t2 & -> & ? & ->).
    exists (chunk ++ t1), turns1, t2. split_and!; [done|done|]. by rewrite (assoc (++)).
  - by apply IH.
Qed.

(** * Reading an answer *)

Definition line (l : bytes) : bytes := l ++ [newline].

Section reading.
Context (st0 : Substituter) (text0 : bytes) (rest : list turn).

(** [s] is what is left to read of an answer; when it has been read, [text0] has been
    passed on and the turns [rest] are left. *)
Record reading (s : bytes) (st : Substituter) : Prop := {
  rd_out : sb_out st = s;
  rd_text : ∃ t1 t2, text0 = t1 ++ t2 ∧ arrives (length s) (sb_turns st) = Some (t2, rest) ∧
    passed (sb_log st0) (sb_log st) t1;
  rd_running : sb_running st = sb_running st0;
  rd_sent : sb_sent st = sb_sent st0
}.

(** [m] reads [enc] and returns [v]. *)
Definition yields {A} (m : SM Substituter A) (enc : bytes) (v : A) : Prop :=
  ∀ s st, reading (enc ++ s) st → ∃ st', m st = (Ret v, st') ∧ reading s st'.

Lemma yields_ret {A} (v : A) : yields (mret v) [] v.
Proof. intros s st Hst. by exists st. Qed.

Lemma yields_bind {A B} (m : SM Substituter A) (f : A → SM Substituter B) e1 e2 a b :
  yields m e1 a → yields (f a) e2 b → yields (m ≫= f) (e1 ++ e2) b.
Proof.
  intros Hm Hf s st Hst. rewrite <-(assoc (++)) in Hst. destruct (Hm _ _ Hst) as (st1 & E1 & H1).
  destruct (Hf _ _ H1) as (st2 & E2 & H2). exists st2. split; [|done]. unfold mbind, SM_bind. by rewrite E1.
Qed.

Lemma yields_check {A} (r : outcome ()) (m : SM Substituter A) enc v :
  r = Ret () → yields m enc v → yields (lift r;; m) enc v.
Proof. intros -> Hm. exact Hm. Qed.

Lemma yields_fuel {A} (f : nat → SM Substituter A) enc v :
  (∀ fuel, length enc < fuel → yields (f fuel) enc v) → yields (fuel ← gets (λ st, Ret (reads_left st)); f fuel) enc v.
Proof.
  intros Hf s st Hst. apply (Hf (reads_left st)); [|done]. unfold reads_left. rewrite (rd_out _ _ Hst), length_app. lia.
Qed.

Lemma yields_line l : newline ∉ l → yields getLineFromSubstituter (line l) l.
Proof.
  intros Hl s st [Hout (t1 & t2 & Ht & Ha & Hp) Hr Hs]. unfold line in *. rewrite <-(assoc (++)) in Hout. cbn [app] in Hout.
  rewrite length_app in Ha. apply arrives_plus in Ha as (t3 & turns1 & t4 & Ha1 & Ha2 & ->).
  unfold getLineFromSubstituter. rewrite Hout. rewrite length_app, Nat.add_comm in Ha1. cbn [length plus] in Ha1.
  destruct (line_loop_spec (sb_turns st) [] [] l s (sb_log st) st t3 turns1 Hl Ha1) as (log' & -> & Hp').
  eexists. split; [done|]. split; cbn; [done| |done|done].
  exists (t1 ++ t3), t4. split_and!; [by rewrite Ht, (assoc (++))|done|]. by eapply passed_trans.
Qed.

Lemma yields_int t l n : newline ∉ l → string2Int t l = (true, Some n) → yields (getIntLineFromSubstituter t) (line l) n.
Proof.
  intros Hl Hn. rewrite <-(app_nil_r (line l)). eapply yields_bind; [by apply yields_line|]. rewrite Hn. apply yields_ret.
Qed.
End reading.

(** * Answers *)

Section answers.
Context {prog : SubstituterProgram} (nixStore : bytes).

(** A description of a path, after the line with the path. *)
Record describes (i : SubstitutablePathInfo) (enc : bytes) : Prop := {
  de_deriver : newline ∉ si_deriver i ∧ (si_deriver i ≠ [] → isStorePath nixStore (si_deriver i) = true);
  de_enc : ∃ n refs d m, enc = line (si_deriver i) ++ line n ++ concat (line <$> refs) ++ line d ++ line m ∧
    newline ∉ n ∧ string2Int int32 n = (true, Some (Z.of_nat (length refs))) ∧
    (∀ p, p ∈ refs → newline ∉ p ∧ isStorePath nixStore p = true) ∧ si_references i = set_of_list refs ∧
    newline ∉ d ∧ string2Int uint64 d = (true, Some (si_downloadSize i)) ∧
    newline ∉ m ∧ string2Int uint64 m = (true, Some (si_narSize i))
}.

(** Descriptions of some paths, and an empty line. *)
Inductive answers : SubstitutablePathInfos → bytes → Prop :=
  | answers_nil : answers [] (line [])
  | answers_cons p i l enc s :
      p ≠ [] → newline ∉ p → describes i enc → answers l s → answers ((p, i) :: l) (line p ++ enc ++ s).

Section loops.
Context (st0 : Substituter) (text0 : bytes) (rest : list turn).
Local Abbreviation yields := (yields st0 text0 rest).

Lemma length_lines refs : length refs <= length (concat (line <$> refs)).
Proof.
  induction refs as [|p refs IH]; [done|]. rewrite fmap_cons. cbn [concat length]. unfold line at 1. rewrite !length_app. cbn. lia.
Qed.

Lemma yields_refs fuel refs acc : length refs < fuel → (∀ p, p ∈ refs → newline ∉ p ∧ isStorePath nixStore p = true) →
  yields (refs_loop nixStore fuel (Z.of_nat (length refs)) acc) (concat (line <$> refs)) (set_insert_all refs acc).
Proof.
  revert refs acc. induction fuel as [|fuel IH]; intros refs acc Hf Hr; [lia|]. cbn [refs_loop].
  destruct refs as [|p refs]; cbn [length fmap list_fmap concat]; [rewrite decide_True by done; apply yields_ret|].
  change (set_insert_all (p :: refs) acc) with (set_insert_all refs (set_insert p acc)).
  destruct (Hr p (list_elem_of_here _ _)) as [Hp Hs]. rewrite !decide_False by lia.
  eapply yields_bind; [by apply yields_line|]. apply yields_check; [unfold assertStorePath; by rewrite Hs|].
  replace (Z.of_nat (S (length refs)) - 1)%Z with (Z.of_nat (length refs)) by lia.
  apply IH; [cbn in Hf; lia|]. intros q Hq. apply Hr. by right.
Qed.

Lemma yields_info i enc : describes i enc → yields (read_info nixStore empty_info) enc i.
Proof.
  intros [[Hd Hds] (n & refs & d & m & -> & Hn & En & Hrefs & Eref & Hdl & Ed & Hm & Em)].
  eapply yields_bind; [by apply yields_line|]. unfold when.
  assert ((if bool_decide (si_deriver i ≠ []) then lift (assertStorePath nixStore (si_deriver i)) else mret ()) =
    lift (St := Substituter) (Ret ())) as ->.
  { case_bool_decide as H; [|done]. unfold assertStorePath. by rewrite (Hds H). }
  apply yields_check; [done|]. eapply yields_bind; [by apply yields_int|]. apply yields_fuel. intros fuel Hf.
  eapply yields_bind; [apply yields_refs; [|done]|].
  { rewrite !length_app in Hf. pose proof (length_lines refs). lia. }
  eapply yields_bind; [by apply yields_int|]. rewrite <-(app_nil_r (line m)). eapply yields_bind; [by apply yields_int|].
  unfold set_of_list in Eref. cbn [si_references empty_info]. rewrite <-Eref. destruct i. apply yields_ret.
Qed.

Lemma length_answers l s : answers l s → length l < length s.
Proof.
  induction 1 as [|p i l enc s Hp Hn [_ (n & refs & d & m & -> & _)] Hl IH]; [cbn; lia|].
  rewrite !length_app. unfold line. rewrite !length_app. cbn. lia.
Qed.

Lemma yields_infos fuel l s paths infos : answers l s → length l < fuel → NoDup l.*1 →
  (∀ p, p ∈ l.*1 → p ∈ paths ∧ map_find p infos = None) →
  yields (info_loop nixStore fuel paths infos) s
    (foldl (λ ps p, set_erase p ps) paths l.*1, foldl (λ m e, map_insert e.1 e.2 m) infos l).
Proof.
  intros Hl. revert fuel paths infos. induction Hl as [|p i l enc s Hp Hn Hd Hl IH]; intros [|fuel] paths infos Hf Hdup Hin; try lia;
    cbn [info_loop].
  { rewrite <-(app_nil_r (line [])). eapply yields_bind; [apply yields_line; set_solver|]. apply yields_ret. }
  cbn [fmap list_fmap fst snd foldl length] in *. apply NoDup_cons in Hdup as [Hni Hdup].
  destruct (Hin p (list_elem_of_here _ _)) as [Hps Hno].
  eapply yields_bind; [by apply yields_line|]. rewrite decide_False by done.
  apply yields_check; [by rewrite (proj2 (set_mem_spec _ _) Hps)|]. rewrite Hno. cbn [default].
  eapply yields_bind; [by apply yields_info|]. apply IH; [lia|done|].
  intros q Hq. destruct (Hin q) as [Hqs Hqn]; [by right|]. assert (q ≠ p) by congruence.
  rewrite elem_of_set_erase, map_find_insert, decide_False by done. done.
Qed.

Lemma yields_have fuel (l : list bytes) res : length l < fuel → (∀ p, p ∈ l → p ≠ [] ∧ newline ∉ p) →
  yields (have_loop fuel res) (concat (line <$> l) ++ line []) (set_insert_all l res).
Proof.
  revert l res. induction fuel as [|fuel IH]; intros l res Hf Hl; [lia|]. cbn [have_loop].
  destruct l as [|p l]; cbn [fmap list_fmap concat app].
  { rewrite <-(app_nil_r (line [])). eapply yields_bind; [apply yields_line; set_solver|]. apply yields_ret. }
  change (set_insert_all (p :: l) res) with (set_insert_all l (set_insert p res)).
  destruct (Hl p (list_elem_of_here _ _)) as [Hp Hn]. rewrite <-(assoc (++)).
  eapply yields_bind; [by apply yields_line|]. rewrite decide_False by done. apply IH; [cbn in Hf; lia|].
  intros q Hq. apply Hl. by right.
Qed.
End loops.

(** The program is asked when there is nothing unread. *)
Lemma ask req st text rest reply :
  sb_out st = [] → agent_start = Ret () → agent_write (sb_sent st ++ [req]) = Ret () →
  agent_answer (sb_sent st ++ [req]) = reply → arrives (length reply) (sb_turns st) = Some (text, rest) →
  let st1 := mkSubstituter true (sb_turns st) reply (sb_sent st ++ [req]) (sb_log st) in
  (substituter;; writeLine req) st = (Ret (), st1) ∧ reading st1 text rest (reply ++ []) st1.
Proof.
  intros Ho Hs Hw <- Ha st1. split.
  - unfold mbind, SM_bind, substituter, writeLine. rewrite Hs. destruct (sb_running st) eqn:Hr; cbn; rewrite Hw, Ho, ?Hr; done.
  - split; cbn; rewrite ?app_nil_r; [done| |done|done]. exists [], text. split_and!; [done|done|apply passed_refl].
Qed.

Lemma reading_done st1 text rest st : reading st1 text rest [] st →
  st = mkSubstituter (sb_running st1) rest [] (sb_sent st1) (sb_log st) ∧ passed (sb_log st1) (sb_log st) text.
Proof.
  intros [Ho (t1 & t2 & -> & Ha & Hp) Hr Hs]. cbn [length] in Ha. rewrite arrives_0 in Ha. injection Ha as <- Ht.
  rewrite app_nil_r. split; [|done]. rewrite <-Hr, <-Hs, <-Ho, <-Ht. by destruct st.
Qed.

(** A query that reads all of the answer. *)
Lemma query_yields {A} (m : SM Substituter A) req v st text rest reply :
  sb_out st = [] → agent_start = Ret () → agent_write (sb_sent st ++ [req]) = Ret () →
  agent_answer (sb_sent st ++ [req]) = reply → arrives (length reply) (sb_turns st) = Some (text, rest) →
  (∀ st1, yields st1 text rest m reply v) →
  ∃ log, (substituter;; writeLine req;; m) st = (Ret v, mkSubstituter true rest [] (sb_sent st ++ [req]) log) ∧
    passed (sb_log st) log text.
Proof.
  intros Ho Hs Hw Hr Ha Hm. destruct (ask req st text rest reply Ho Hs Hw Hr Ha) as [E Hst].
  destruct (Hm _ _ _ Hst) as (st' & E' & Hst'). apply reading_done in Hst' as [Est' Hp].
  cbn [sb_running sb_sent sb_log] in Est', Hp. exists (sb_log st'). split; [|done].
  rewrite <-Est'. revert E. unfold mbind, SM_bind. destruct (substituter st) as [[[]| |] st2]; [|done..]. by intros ->.
Qed.

(** ** Properties *)

(** C25: a query for substitutes is understood, however the answer and the messages of
    the program are interleaved: when the program describes some of the paths it was
    asked for, in the form of its protocol, the result has exactly these descriptions,
    all that the program printed on its standard error is passed on, and nothing of
    the answer is left unread for the next query. *)
Theorem querySubstitutablePathInfos_correct paths infos l reply st text rest :
  let req := request "info " (filter (λ i, map_find i infos = None) paths) in
  paths ≠ [] → sb_out st = [] → agent_start = Ret () → agent_write (sb_sent st ++ [req]) = Ret () →
  agent_answer (sb_sent st ++ [req]) = reply → answers l reply → NoDup l.*1 →
  (∀ p, p ∈ l.*1 → p ∈ paths ∧ map_find p infos = None) →
  arrives (length reply) (sb_turns st) = Some (text, rest) →
  ∃ log, querySubstitutablePathInfos nixStore true paths infos st =
      (Ret (foldl (λ m e, map_insert e.1 e.2 m) infos l), mkSubstituter true rest [] (sb_sent st ++ [req]) log) ∧
    passed (sb_log st) log text.
Proof.
  intros req Hne Ho Hs Hw Hr Hans Hdup Hin Ha. unfold querySubstitutablePathInfos. rewrite decide_False by done.
  destruct (query_yields (fuel ← gets (λ st, Ret (reads_left st)); info_loop nixStore fuel paths infos) req
    (foldl (λ ps p, set_erase p ps) paths l.*1, foldl (λ m e, map_insert e.1 e.2 m) infos l) st text rest reply Ho Hs Hw Hr Ha)
    as (log & E & Hp).
  - intros st1. apply yields_fuel. intros fuel Hf. apply yields_infos; [done| |done|done].
    pose proof (length_answers l reply Hans). lia.
  - exists log. split; [|done]. unfold querySubstitutablePathInfos_. cbn [negb].
    etrans; [exact (SM_bind_eq _ _ _ _ _ E)|done].
Qed.

(** The same for the query that asks which paths have substitutes. *)
Theorem querySubstitutablePaths_correct paths l st text rest :
  let req := request "have " paths in let reply := concat (line <$> l) ++ line [] in
  paths ≠ [] → sb_out st = [] → agent_start = Ret () → agent_write (sb_sent st ++ [req]) = Ret () →
  agent_answer (sb_sent st ++ [req]) = reply → (∀ p, p ∈ l → p ≠ [] ∧ newline ∉ p) →
  arrives (length reply) (sb_turns st) = Some (text, rest) →
  ∃ log, querySubstitutablePaths true paths st =
      (Ret (set_of_list l), mkSubstituter true rest [] (sb_sent st ++ [req]) log) ∧ passed (sb_log st) log text.
Proof.
  intros req reply Hne Ho Hs Hw Hr Hl Ha. unfold querySubstitutablePaths. rewrite bool_decide_false by done. cbn [negb orb].
  apply (query_yields _ req _ st text rest reply Ho Hs Hw Hr Ha). intros st1. apply yields_fuel. intros fuel Hf.
  apply yields_have; [|done]. unfold reply in Hf. rewrite length_app in Hf. pose proof (length_lines l). lia.
Qed.
End answers.

(** * A program *)

Definition lines (l : list string) : bytes := concat ((λ s, line (str s)) <$> l).

Definition toy_infos : SubstitutablePathInfos :=
  [(str "/gnu/store/a", mkSubstitutablePathInfo [] [str "/gnu/store/b"; str "/gnu/store/c"] 100 4096)].

(** It has a substitute for a, and always the same answer to a command. *)
Definition toy_program (deriver : string) : SubstituterProgram := {|
  agent_start := Ret ();
  agent_write _ := Ret ();
  agent_answer sent :=
    match last sent with
    | Some (c :: _) => if decide (c = "i"%byte)
        then lines ["/gnu/store/a"; deriver; "2"; "/gnu/store/c"; "/gnu/store/b"; "100"; "4096"; ""]%string
        else lines ["/gnu/store/a"; ""]%string
    | _ => []
    end
|}.

(** It prints a warning, and the call is interrupted once. *)
Definition toy_substituter : Substituter :=
  mkSubstituter false ([SelectFails EINTR; OutReady; ErrData (str "slow "); OutReady; ErrData (str "server" ++ [newline])] ++ replicate 100 OutReady)
    [] [] [].

Definition toy_request : bytes := str "info /gnu/store/a /gnu/store/d ".
Definition toy_reply : bytes := @agent_answer (toy_program "") [toy_request].

Lemma toy_answers : @answers (str "/gnu/store") toy_infos toy_reply.
Proof.
  replace toy_reply with (line (str "/gnu/store/a") ++
    lines [""; "2"; "/gnu/store/c"; "/gnu/store/b"; "100"; "4096"]%string ++ line []) by (vm_compute; reflexivity).
  apply answers_cons; [done|concrete| |apply answers_nil]. split; [by split; [concrete|]|].
  exists (str "2"), [str "/gnu/store/c"; str "/gnu/store/b"], (str "100"), (str "4096").
  split_and!; try (vm_compute; reflexivity); try concrete.
  intros p Hp. rewrite !elem_of_cons in Hp. destruct Hp as [->|[->|Hp]]; [by split; [concrete|]..|]. by apply not_elem_of_nil in Hp.
Qed.

Lemma querySubstitutablePathInfos_correct_witness : ∃ log,
  @querySubstitutablePathInfos (toy_program "") (str "/gnu/store") true [str "/gnu/store/a"; str "/gnu/store/d"] [] toy_substituter =
    (Ret toy_infos, mkSubstituter true (replicate 50 OutReady) [] [toy_request] log) ∧
  passed [] log (str "slow server" ++ [newline]).
Proof.
  apply (@querySubstitutablePathInfos_correct (toy_program "") (str "/gnu/store") [str "/gnu/store/a"; str "/gnu/store/d"] []
    toy_infos toy_reply toy_substituter).
  - done.
  - done.
  - done.
  - done.
  - vm_compute. reflexivity.
  - exact toy_answers.
  - concrete.
  - intros p Hp. apply list_elem_of_singleton in Hp as ->. split; [concrete|done].
  - vm_compute. reflexivity.
Defined.

(** After a description that is refused, here because the deriver is not a store path,
    the rest of it is taken for the answer to the next query. *)
Theorem refused_answer_stays :
  let '(r, st) := @querySubstitutablePathInfos (toy_program "unknown") (str "/gnu/store") true [str "/gnu/store/a"] [] toy_substituter in
  (∃ e, r = Throw e ∧ is_Error e = true) ∧
  (@querySubstitutablePaths (toy_program "unknown") true [str "/gnu/store/x"] st).1 =
    Ret [str "/gnu/store/b"; str "/gnu/store/c"; str "100"; str "2"; str "4096"].
Proof. vm_compute. split; [|done]. by eexists. Qed.
