(* ===== verification/DaemonState.v ===== *)
(** nix-daemon/nix-daemon.cc: the connection to a client.

    The daemon serves a client in a process of its own. It reads requests from the
    socket through [from] and writes to it through [to]. While it works on a
    request the client is expected to be silent: the daemon may send messages,
    chunks of exported data and requests for data of its own accord, and takes
    input on the socket (reported by SIGPOLL) for the end of the connection.

    What the rest of the daemon does for a request is a [session]: the messages it
    prints, the data it exchanges with the client, the points at which a signal
    arrives, and how it ends. *)

From S2P Require Import Prelude StateMonad Containers Serialise Hash Archive StorePaths LocalDB Roots GC GoalState Settings.

(** * Constants of worker-protocol.hh *)

Definition WORKER_MAGIC_1 : Z := 0x6e697863.
Definition WORKER_MAGIC_2 : Z := 0x6478696f.
Definition PROTOCOL_VERSION : Z := 0x164.
Definition GET_PROTOCOL_MINOR (x : Z) : Z := Z.land x 0xff.

Definition STDERR_NEXT : Z := 0x6f6c6d67.
Definition STDERR_READ : Z := 0x64617461.
Definition STDERR_WRITE : Z := 0x64617416.
Definition STDERR_LAST : Z := 0x616c7473.
Definition STDERR_ERROR : Z := 0x63787470.

(** * The environment *)

(** The client's end of the socket, as system calls report it: whether the [k]-th
    call of [select] finds something to read, the error of the [read] after it, and
    the error of writing the [k]-th block. *)
Class Network := {
  net_readable : nat → bool;
  net_read_error : nat → option Z;
  net_write_error : nat → option Z
}.

(** [msg()] and [status] of an exception. *)
Class Messages := {
  exn_msg : exn → bytes;
  exn_status : exn → Z
}.

(** What an operation of the store does while it runs: it prints a message, is
    interrupted by SIGPOLL, looks whether it was interrupted, or reads and writes
    ([io]); and it ends. A call that throws lets the operation go on from the
    exception. *)
Inductive session (io : Type → Type) (W A : Type) : Type :=
  | Done (r : outcome A) (w : W)
  | Log (msg : bytes) (k : outcome () → session io W A)
  | Signal (k : session io W A)
  | CheckInterrupt (k : outcome () → session io W A)
  | Io (X : Type) (i : io X) (k : outcome X → session io W A).
Arguments Done {io W A}.
Arguments Log {io W A}.
Arguments Signal {io W A}.
Arguments CheckInterrupt {io W A}.
Arguments Io {io W A}.

(** Most operations have no stream, [exportPath] writes to a sink, [importPaths]
    reads from a source. *)
Inductive no_io : Type → Type :=.
Inductive sink_io : Type → Type := SinkCall (data : bytes) : sink_io ().
Inductive source_io : Type → Type := SourceRead (len : nat) : source_io bytes.

(** The operations of the store ([StoreAPI]) that the daemon calls, and the calls
    of the rest of the system. *)
Inductive store_op : (Type → Type) → Type → Type :=
  | opOpenStore (reserveSpace : bool) : store_op no_io ()
  | opCreateUser (userName : bytes) (userId : Z) : store_op no_io ()
  | opSetAffinity (cpu : Z) : store_op no_io ()
  | opIsValidPath (path : bytes) : store_op no_io bool
  | opQueryValidPaths (paths : strset) : store_op no_io strset
  | opQuerySubstitutablePaths (paths : strset) : store_op no_io strset
  | opQueryPathHash (path : bytes) : store_op no_io Hash
  | opQueryReferences (path : bytes) : store_op no_io strset
  | opQueryReferrers (path : bytes) : store_op no_io strset
  | opQueryValidDerivers (path : bytes) : store_op no_io strset
  | opQueryDerivationOutputs (path : bytes) : store_op no_io strset
  | opQueryDerivationOutputNames (path : bytes) : store_op no_io strset
  | opQueryDeriver (path : bytes) : store_op no_io bytes
  | opQueryPathFromHashPart (hashPart : bytes) : store_op no_io bytes
  | opAddToStoreFromDump (dump name : bytes) (recursive : bool) (hashAlgo : HashType) : store_op no_io bytes
  | opAddTextToStore (suffix s : bytes) (references : strset) : store_op no_io bytes
  | opExportPath (path : bytes) (sign : bool) : store_op sink_io ()
  | opImportPaths (requireSignature : bool) : store_op source_io (list bytes)
  | opBuildPaths (drvs : strset) (mode : BuildMode) : store_op no_io ()
  | opEnsurePath (path : bytes) : store_op no_io ()
  | opAddTempRoot (path : bytes) : store_op no_io ()
  | opAddIndirectRoot (path : bytes) : store_op no_io ()
  | opSyncWithGC : store_op no_io ()
  | opFindRoots : store_op no_io Roots
  | opCollectGarbage (options : GCOptions) : store_op no_io GCResults
  | opQuerySubstitutablePathInfos (paths : strset) : store_op no_io (list (bytes * SubstitutablePathInfo))
  | opQueryAllValidPaths : store_op no_io strset
  | opQueryFailedPaths : store_op no_io strset
  | opClearFailedPaths (paths : strset) : store_op no_io ()
  | opQueryPathInfo (path : bytes) : store_op no_io ValidPathInfo
  | opOptimiseStore : store_op no_io ()
  | opVerifyStore (checkContents repair : bool) : store_op no_io bool.

Class StoreHandler (W : Type) := serve_op : ∀ {io A}, store_op io A → W → session io W A.

(** * State *)

Record Conn (W : Type) := mkConn {
  c_from : FdSource;                 (* the static [from] *)
  c_to : BufferedSink;               (* the static [to]; its [writes] are passed on, and stay empty *)
  c_sent : list bytes;               (* the blocks written to the socket *)
  c_canSendStderr : bool;
  c_sigPoll : bool;                  (* whether [sigPollHandler] handles SIGPOLL *)
  c_isInterrupted : bool;            (* [_isInterrupted] *)
  c_blockInt : bool;
  c_isRemote : bool;                 (* [isRemoteConnection] *)
  c_polls : nat;                     (* how often [isFarSideClosed] was called *)
  c_stderr : list bytes;             (* what the daemon wrote to its own standard error *)
  c_settings : Globals.Settings;
  c_verbosity : Z;
  c_logType : Z;
  c_world : W
}.
Arguments mkConn {W}.
Arguments c_from {W}.
Arguments c_to {W}.
Arguments c_sent {W}.
Arguments c_canSendStderr {W}.
Arguments c_sigPoll {W}.
Arguments c_isInterrupted {W}.
Arguments c_blockInt {W}.
Arguments c_isRemote {W}.
Arguments c_polls {W}.
Arguments c_stderr {W}.
Arguments c_settings {W}.
Arguments c_verbosity {W}.
Arguments c_logType {W}.
Arguments c_world {W}.

Section updates.
Context {W : Type}.

Definition on_from (f : FdSource → FdSource) (c : Conn W) : Conn W :=
  mkConn (f (c_from c)) (c_to c) (c_sent c) (c_canSendStderr c) (c_sigPoll c) (c_isInterrupted c)
    (c_blockInt c) (c_isRemote c) (c_polls c) (c_stderr c) (c_settings c) (c_verbosity c) (c_logType c)
    (c_world c).
Definition on_to (f : BufferedSink → BufferedSink) (c : Conn W) : Conn W :=
  mkConn (c_from c) (f (c_to c)) (c_sent c) (c_canSendStderr c) (c_sigPoll c) (c_isInterrupted c)
    (c_blockInt c) (c_isRemote c) (c_polls c) (c_stderr c) (c_settings c) (c_verbosity c) (c_logType c)
    (c_world c).
Definition on_sent (f : list bytes → list bytes) (c : Conn W) : Conn W :=
  mkConn (c_from c) (c_to c) (f (c_sent c)) (c_canSendStderr c) (c_sigPoll c) (c_isInterrupted c)
    (c_blockInt c) (c_isRemote c) (c_polls c) (c_stderr c) (c_settings c) (c_verbosity c) (c_logType c)
    (c_world c).
Definition on_canSendStderr (f : bool → bool) (c : Conn W) : Conn W :=
  mkConn (c_from c) (c_to c) (c_sent c) (f (c_canSendStderr c)) (c_sigPoll c) (c_isInterrupted c)
    (c_blockInt c) (c_isRemote c) (c_polls c) (c_stderr c) (c_settings c) (c_verbosity c) (c_logType c)
    (c_world c).
Definition on_sigPoll (f : bool → bool) (c : Conn W) : Conn W :=
  mkConn (c_from c) (c_to c) (c_sent c) (c_canSendStderr c) (f (c_sigPoll c)) (c_isInterrupted c)
    (c_blockInt c) (c_isRemote c) (c_polls c) (c_stderr c) (c_settings c) (c_verbosity c) (c_logType c)
    (c_world c).
Definition on_isInterrupted (f : bool → bool) (c : Conn W) : Conn W :=
  mkConn (c_from c) (c_to c) (c_sent c) (c_canSendStderr c) (c_sigPoll c) (f (c_isInterrupted c))
    (c_blockInt c) (c_isRemote c) (c_polls c) (c_stderr c) (c_settings c) (c_verbosity c) (c_logType c)
    (c_world c).
Definition on_blockInt (f : bool → bool) (c : Conn W) : Conn W :=
  mkConn (c_from c) (c_to c) (c_sent c) (c_canSendStderr c) (c_sigPoll c) (c_isInterrupted c)
    (f (c_blockInt c)) (c_isRemote c) (c_polls c) (c_stderr c) (c_settings c) (c_verbosity c) (c_logType c)
    (c_world c).
Definition on_isRemote (f : bool → bool) (c : Conn W) : Conn W :=
  mkConn (c_from c) (c_to c) (c_sent c) (c_canSendStderr c) (c_sigPoll c) (c_isInterrupted c) (c_blockInt c)
    (f (c_isRemote c)) (c_polls c) (c_stderr c) (c_settings c) (c_verbosity c) (c_logType c) (c_world c).
Definition on_polls (f : nat → nat) (c : Conn W) : Conn W :=
  mkConn (c_from c) (c_to c) (c_sent c) (c_canSendStderr c) (c_sigPoll c) (c_isInterrupted c) (c_blockInt c)
    (c_isRemote c) (f (c_polls c)) (c_stderr c) (c_settings c) (c_verbosity c) (c_logType c) (c_world c).
Definition on_stderr (f : list bytes → list bytes) (c : Conn W) : Conn W :=
  mkConn (c_from c) (c_to c) (c_sent c) (c_canSendStderr c) (c_sigPoll c) (c_isInterrupted c) (c_blockInt c)
    (c_isRemote c) (c_polls c) (f (c_stderr c)) (c_settings c) (c_verbosity c) (c_logType c) (c_world c).
Definition on_settings (f : Globals.Settings → Globals.Settings) (c : Conn W) : Conn W :=
  mkConn (c_from c) (c_to c) (c_sent c) (c_canSendStderr c) (c_sigPoll c) (c_isInterrupted c) (c_blockInt c)
    (c_isRemote c) (c_polls c) (c_stderr c) (f (c_settings c)) (c_verbosity c) (c_logType c) (c_world c).
Definition on_verbosity (f : Z → Z) (c : Conn W) : Conn W :=
  mkConn (c_from c) (c_to c) (c_sent c) (c_canSendStderr c) (c_sigPoll c) (c_isInterrupted c) (c_blockInt c)
    (c_isRemote c) (c_polls c) (c_stderr c) (c_settings c) (f (c_verbosity c)) (c_logType c) (c_world c).
Definition on_logType (f : Z → Z) (c : Conn W) : Conn W :=
  mkConn (c_from c) (c_to c) (c_sent c) (c_canSendStderr c) (c_sigPoll c) (c_isInterrupted c) (c_blockInt c)
    (c_isRemote c) (c_polls c) (c_stderr c) (c_settings c) (c_verbosity c) (f (c_logType c)) (c_world c).
Definition on_world (f : W → W) (c : Conn W) : Conn W :=
  mkConn (c_from c) (c_to c) (c_sent c) (c_canSendStderr c) (c_sigPoll c) (c_isInterrupted c) (c_blockInt c)
    (c_isRemote c) (c_polls c) (c_stderr c) (c_settings c) (c_verbosity c) (c_logType c) (f (c_world c)).
End updates.


(** A call whose exception the caller sees as a value; a failed assertion ends the
    process. *)
Definition reify {St A} (m : SM St A) : SM St (outcome A) := λ st,
  match m st with
  | (Ret a, st) => (Ret (Ret a), st)
  | (Throw e, st) => if is_exception e then (Ret (Throw e), st) else (Throw e, st)
  | (OutOfFuel, st) => (OutOfFuel, st)
  end.

Section connection.
Context {W : Type} {net : Network}.
Local Abbreviation DM := (SM (Conn W)).

(** * Output *)

(** [checkInterrupt], outside of the unwinding of an exception *)
Definition checkInterrupt : DM () := λ c,
  if c_isInterrupted c then (Throw Interrupted, on_isInterrupted (λ _, false) c) else (Ret (), c).

(** [FdSink::write] on the socket; the block is not empty. *)
Definition socket_write (data : bytes) : DM () :=
  checkInterrupt;;
  k ← gets (λ c, Ret (length (c_sent c)));
  match net_write_error k with
  | Some errno => lift (Throw (SysError errno "writing to file"))
  | None => modify (on_sent (λ l, l ++ [data]))
  end.

(** What a [BufferedSink] hands to its [write]: when it writes at all in a call, its
    buffer is empty before the first block, so an exception leaves it empty. *)
Definition taken (s : BufferedSink) : BufferedSink := mkBufferedSink (bufSize s) (buffer s) [].

(** [to(data, len)] *)
Definition to_call (data : bytes) : DM () :=
  s ← gets (λ c, sink_call (c_to c) data);
  modify (on_to (λ _, taken s));;
  iter socket_write (writes s).

(** [to.flush()] *)
Definition to_flush : DM () :=
  s ← gets (λ c, Ret (sink_flush (c_to c)));
  modify (on_to (λ _, taken s));;
  iter socket_write (writes s).

(** A writer of serialise.cc, with [to] as its sink. *)
Definition put (chunks : list bytes) : DM () := iter to_call chunks.

Definition tunnelStderr (msg : bytes) : DM () :=
  can ← gets (λ c, Ret (c_canSendStderr c));
  if can : bool then
    catch is_exception
      (put (writeInt STDERR_NEXT);; put (writeString msg);; to_flush)
      (λ e, modify (on_canSendStderr (λ _, false));; lift (Throw e))
  else checkInterrupt;; modify (on_stderr (λ l, l ++ [msg])).

(** [printMsg(lvlInfo, s)], outside of any [Nest] *)
Definition lvlInfo : Z := 1.
Definition printInfo (s : bytes) : DM () :=
  verbosity ← gets (λ c, Ret (c_verbosity c));
  when (bool_decide (lvlInfo <= verbosity)%Z) (checkInterrupt;; tunnelStderr (s ++ [Byte.x0a])).

(** * The end of the connection *)

Definition ECONNRESET : Z := 104.

(** A byte that is read here is lost. *)
Definition isFarSideClosed : DM bool :=
  k ← gets (λ c, Ret (c_polls c));
  modify (on_polls S);;
  if net_readable k then
    match net_read_error k with
    | Some errno =>
        if decide (errno = ECONNRESET) then mret true
        else lift (Throw (SysError errno "expected connection reset or EOF"))
    | None =>
        fd ← gets (λ c, Ret (src_fd (c_from c)));
        let '(data, fd) := fd_read 1 fd in
        if decide (data = []) then mret true
        else
          modify (on_from (λ s, mkFdSource (src_bufSize s) (bufPosIn s) (bufPosOut s) (src_buffer s) fd));;
          lift (Throw (Error "EOF expected (protocol error?)"))
    end
  else mret false.

(** An exception that leaves a signal handler is undefined behaviour. *)
Definition sigPollHandler : DM () :=
  r ← reify isFarSideClosed;
  match r with
  | Ret true =>
      blocked ← gets (λ c, Ret (c_blockInt c));
      when (negb blocked)
        (modify (on_isInterrupted (λ _, true));;
         modify (on_blockInt (λ _, true));;
         modify (on_canSendStderr (λ _, false));;
         modify (on_stderr (λ l, l ++ [str "SIGPOLL" ++ [Byte.x0a]])))
  | Ret false => modify (on_stderr (λ l, l ++ [str "spurious SIGPOLL" ++ [Byte.x0a]]))
  | Throw e => lift (Throw (Undefined "exception from a signal handler"))
  | OutOfFuel => lift OutOfFuel
  end.

(** The signal arrives. *)
Definition deliver_signal : DM () :=
  on ← gets (λ c, Ret (c_sigPoll c));
  when on sigPollHandler.

Definition setSigPollAction (enable : bool) : DM () := modify (on_sigPoll (λ _, enable)).

Definition startWork : DM () :=
  modify (on_canSendStderr (λ _, true));;
  setSigPollAction true;;
  closed ← isFarSideClosed;
  when closed (modify (on_isInterrupted (λ _, true));; checkInterrupt).

(** [stopWork()] and [stopWork(false, msg, status)] *)
Definition stopWork : DM () :=
  setSigPollAction false;;
  modify (on_canSendStderr (λ _, false));;
  put (writeInt STDERR_LAST).

Definition stopWork_error (msg : bytes) (status : Z) : DM () :=
  setSigPollAction false;;
  modify (on_canSendStderr (λ _, false));;
  put (writeInt STDERR_ERROR);;
  put (writeString msg);;
  when (bool_decide (status ≠ 0)%Z) (put (writeInt status)).

(** * Input *)

(** A reader on [from]. [FdSource::readUnbuffered] looks for an interrupt before it
    reads from the socket, so that after an interrupt only what is buffered can be
    read. What [from] has left when a reader throws is not kept: the daemon reads
    from it only while it may not send errors, and such an exception ends the
    connection. *)
Definition recv {A} (m : FdSource → outcome (A * FdSource)) : DM A := λ c,
  let src := c_from c in
  if c_isInterrupted c then
    match m (mkFdSource (src_bufSize src) (bufPosIn src) (bufPosOut src) (src_buffer src) []) with
    | Ret (a, s) =>
        (Ret a, on_from (λ _, mkFdSource (src_bufSize s) (bufPosIn s) (bufPosOut s) (src_buffer s) (src_fd src)) c)
    | Throw (EndOfFile _) => (Throw Interrupted, on_isInterrupted (λ _, false) c)
    | Throw e => (Throw e, c)
    | OutOfFuel => (OutOfFuel, c)
    end
  else
    match m src with
    | Ret (a, s) => (Ret a, on_from (λ _, s) c)
    | Throw e => (Throw e, c)
    | OutOfFuel => (OutOfFuel, c)
    end.

(** * Operations of the store *)

Section sessions.
Context {handler : StoreHandler W}.

(** [T] is the state of the stream that the operation was given. *)
Fixpoint run_session {io : Type → Type} {A T : Type}
    (io_step : ∀ X, io X → T → DM (outcome X * T)) (s : session io W A) (t : T) : DM (outcome A * T) :=
  match s with
  | Done r w => modify (on_world (λ _, w));; mret (r, t)
  | Log msg k => r ← reify (tunnelStderr msg); run_session io_step (k r) t
  | Signal k => deliver_signal;; run_session io_step k t
  | CheckInterrupt k => r ← reify checkInterrupt; run_session io_step (k r) t
  | Io X i k => '(r, t) ← io_step X i t; run_session io_step (k r) t
  end.

Definition no_step (X : Type) (i : no_io X) (t : ()) : DM (outcome X * ()) := match i with end.

(** [store->op(...)] *)
Definition store_call {A} (op : store_op no_io A) : DM A :=
  w ← gets (λ c, Ret (c_world c));
  '(r, _) ← run_session no_step (serve_op op w) ();
  lift r.

(** ** [TunnelSink] *)

Definition tunnelBufSize : nat := Z.to_nat (64 * 1024).

Definition tunnel_write (data : bytes) : DM () := put (writeInt STDERR_WRITE);; put (writeString data).

Definition sink_step (X : Type) (i : sink_io X) (sink : BufferedSink) : DM (outcome X * BufferedSink) :=
  match i with
  | SinkCall data =>
      s ← lift (sink_call sink data);
      r ← reify (iter tunnel_write (writes s));
      mret (r, taken s)
  end.

Definition tunnel_flush (sink : BufferedSink) : DM () := iter tunnel_write (writes (sink_flush sink)).

(** The copy that [throw e] makes is an [Error] with the same message and status,
    which is all that is seen of it. *)
Definition tunnel_export (path : bytes) (sign : bool) : DM () :=
  w ← gets (λ c, Ret (c_world c));
  '(r, sink) ← run_session sink_step (serve_op (opExportPath path sign) w) (sink_new tunnelBufSize);
  match r with
  | Ret _ => tunnel_flush sink
  | Throw e =>
      if is_Error e then tunnel_flush sink;; lift (Throw e)
      else lift (sink_destroy sink);; lift (Throw e)
  | OutOfFuel => lift OutOfFuel
  end.

(** ** [TunnelSource] *)

(** [readUnbuffered]; [len] is the size of the buffer. *)
Definition tunnel_readUnbuffered (len : nat) : DM bytes :=
  setSigPollAction false;;
  modify (on_canSendStderr (λ _, false));;
  put (writeInt STDERR_READ);;
  put (writeInt (Z.of_nat len));;
  to_flush;;
  data ← recv (readString_max len);
  startWork;;
  if decide (length data = 0) then lift (Throw (EndOfFile "unexpected end-of-file")) else mret data.

(** [BufferedSource::read]; the buffer is that of an [FdSource] without a
    descriptor. *)
Definition tunnel_read (len : nat) (t : FdSource) : DM (bytes * FdSource) :=
  t ← (if decide (bufPosIn t = 0) then
         data ← tunnel_readUnbuffered (src_bufSize t);
         mret (mkFdSource (src_bufSize t) (length data) (bufPosOut t) data [])
       else mret t);
  lift (source_read len t).

Definition source_step (X : Type) (i : source_io X) (t : FdSource) : DM (outcome X * FdSource) :=
  match i with
  | SourceRead len =>
      r ← reify (tunnel_read len t);
      match r with
      | Ret (data, t) => mret (Ret data, t)
      | Throw e => mret (Throw e, t)
      | OutOfFuel => mret (OutOfFuel, t)
      end
  end.

Definition tunnel_import (requireSignature : bool) : DM (list bytes) :=
  w ← gets (λ c, Ret (c_world c));
  '(r, _) ← run_session source_step (serve_op (opImportPaths requireSignature) w)
    (fdsource_new defaultBufSize []);
  lift r.
End sessions.
End connection.
