(* ===== verification/Daemon.v ===== *)
(** nix-daemon/nix-daemon.cc: the requests of a client, and the life of a
    connection.

    [trusted] and [clientVersion] are the arguments of [performOp]; [readStorePath]
    and the other readers of store paths are those of StorePaths, for the store
    directory of the settings. *)

From S2P Require Import Prelude StateMonad Containers Serialise Hash Archive Paths StorePaths LocalDB Roots GC GoalState Settings DaemonState.

(** * Operations of worker-protocol.hh *)

Definition wopIsValidPath : Z := 1.
Definition wopHasSubstitutes : Z := 3.
Definition wopQueryPathHash : Z := 4.
Definition wopQueryReferences : Z := 5.
Definition wopQueryReferrers : Z := 6.
Definition wopAddToStore : Z := 7.
Definition wopAddTextToStore : Z := 8.
Definition wopBuildPaths : Z := 9.
Definition wopEnsurePath : Z := 10.
Definition wopAddTempRoot : Z := 11.
Definition wopAddIndirectRoot : Z := 12.
Definition wopSyncWithGC : Z := 13.
Definition wopFindRoots : Z := 14.
Definition wopExportPath : Z := 16.
Definition wopQueryDeriver : Z := 18.
Definition wopSetOptions : Z := 19.
Definition wopCollectGarbage : Z := 20.
Definition wopQuerySubstitutablePathInfo : Z := 21.
Definition wopQueryDerivationOutputs : Z := 22.
Definition wopQueryAllValidPaths : Z := 23.
Definition wopQueryFailedPaths : Z := 24.
Definition wopClearFailedPaths : Z := 25.
Definition wopQueryPathInfo : Z := 26.
Definition wopImportPaths : Z := 27.
Definition wopQueryDerivationOutputNames : Z := 28.
Definition wopQueryPathFromHashPart : Z := 29.
Definition wopQuerySubstitutablePathInfos : Z := 30.
Definition wopQueryValidPaths : Z := 31.
Definition wopQuerySubstitutablePaths : Z := 32.
Definition wopQueryValidDerivers : Z := 33.
Definition wopOptimiseStore : Z := 34.
Definition wopVerifyStore : Z := 35.
Definition wopBuiltinBuilders : Z := 80.
Definition wopSubstituteURLs : Z := 81.

(** * Helpers *)

(** ** [SavingSourceAdapter] *)

Record SavingSource (S : Type) := mkSavingSource { sv_orig : S; sv_s : bytes }.
Arguments mkSavingSource {S}.
Arguments sv_orig {S}.
Arguments sv_s {S}.

#[global] Instance SavingSource_read {S} `{Source S} : Source (SavingSource S) := λ len src,
  '(data, orig) ← source_read len (sv_orig src);
  Ret (data, mkSavingSource orig (sv_s src ++ data)).

(** ** [RetrieveRegularNARSink] *)

Record RetrieveRegularNARSink := mkRetrieve { rr_regular : bool; rr_s : bytes }.

Definition retrieve_event (r : RetrieveRegularNARSink) (e : event) : RetrieveRegularNARSink :=
  match e with
  | createDirectory _ | createSymlink _ _ => mkRetrieve false (rr_s r)
  | receiveContents data => mkRetrieve (rr_regular r) (rr_s r ++ data)
  | _ => r
  end.

(** [parseDump(sink, savedNAR)] with a [ParseSink] that does nothing, and
    [parseDump(savedRegular, from)]; there are fewer steps than bytes. *)
Definition dump_fuel (s : FdSource) : nat := S (length (fdsource_remaining s)).

Definition read_nar (s : FdSource) : outcome (bytes * FdSource) :=
  '(_, src) ← (parseDump (dump_fuel s) (mkSavingSource s [])).2;
  Ret (sv_s src, sv_orig src).

Definition read_regular (s : FdSource) : outcome (RetrieveRegularNARSink * FdSource) :=
  let '(events, r) := parseDump (dump_fuel s) s in
  '(_, s) ← r;
  Ret (foldl retrieve_event (mkRetrieve true []) events, s).

(** ** Enumerations

    A number that is none of the enumerators is taken for undefined behaviour. *)

Definition to_BuildMode (n : Z) : outcome BuildMode :=
  match n with
  | 0%Z => Ret bmNormal
  | 1%Z => Ret bmRepair
  | 2%Z => Ret bmCheck
  | _ => Throw (Undefined "BuildMode")
  end.

Definition to_GCAction (n : Z) : outcome GCAction :=
  match n with
  | 0%Z => Ret gcReturnLive
  | 1%Z => Ret gcReturnDead
  | 2%Z => Ret gcDeleteDead
  | 3%Z => Ret gcDeleteSpecific
  | _ => Throw (Undefined "GCAction")
  end.

(** [std::to_string] of an [unsigned int]: ten digits are enough. *)
Fixpoint to_string_loop (fuel : nat) (n : Z) (acc : bytes) : bytes :=
  match fuel with
  | 0 => acc
  | S fuel =>
      let acc := to_uchar (48 + n mod 10) :: acc in
      if decide (n < 10)%Z then acc else to_string_loop fuel (n / 10) acc
  end.
Definition to_string (n : Z) : bytes := to_string_loop 10 n [].

(** [(uid_t) -1]: no user *)
Definition minus_one : Z := 2 ^ 32 - 1.

Definition nonzero (n : Z) : bool := bool_decide (n ≠ 0)%Z.
Definition true_or_false (b : bool) : bytes := if b then str "true" else str "false".

(** The user database, the current directory, and whether the daemon was compiled
    with support for offloading. *)
Class DaemonSystem := {
  getpwnam : bytes → option Z;
  getpwuid : Z → option bytes;
  getcwd : outcome bytes;
  builtinBuilderNames : list bytes;
  HAVE_DAEMON_OFFLOAD_HOOK : bool
}.

(** * Requests *)

Section daemon.
Context {W : Type} {net : Network} {msgs : Messages} {handler : StoreHandler W} {sys : DaemonSystem}.
Local Abbreviation DM := (SM (Conn W)).

Definition setting {A} (f : Globals.Settings → A) : DM A := gets (λ c, Ret (f (c_settings c))).
Definition set_setting (f : Globals.Settings → Globals.Settings) : DM () := modify (on_settings f).

(** A computation on the settings. *)
Definition with_settings {A} (m : SM Globals.Settings A) : DM A := λ c,
  let '(r, st) := m (c_settings c) in (r, on_settings (λ _, st) c).

Definition nixStore : DM bytes := setting (λ st, Globals.s st Globals.nixStore).

Definition recv_StorePath : DM bytes := d ← nixStore; recv (readStorePath d).
Definition recv_StorePaths : DM strset := d ← nixStore; recv (readStorePaths d).

(** [startWork(); a = m; stopWork();] *)
Definition work {A} (m : DM A) : DM A := startWork;; a ← m; stopWork;; mret a.

Section performOp.
Context (trusted : bool) (clientVersion : Z).
Let minor := GET_PROTOCOL_MINOR clientVersion.

Definition do_IsValidPath : DM () :=
  path ← recv readString;
  result ← work (d ← nixStore; lift (assertStorePath d path);; store_call (opIsValidPath path));
  put (writeInt (Z.b2z result)).

Definition do_QueryValidPaths : DM () :=
  paths ← recv_StorePaths;
  res ← work (store_call (opQueryValidPaths paths));
  put (writeStrings res).

Definition do_HasSubstitutes : DM () :=
  path ← recv_StorePath;
  res ← work (store_call (opQuerySubstitutablePaths [path]));
  put (writeInt (Z.b2z (set_mem path res))).

Definition do_QuerySubstitutablePaths : DM () :=
  paths ← recv_StorePaths;
  res ← work (store_call (opQuerySubstitutablePaths paths));
  put (writeStrings res).

Definition do_QueryPathHash : DM () :=
  path ← recv_StorePath;
  hash ← work (store_call (opQueryPathHash path));
  s ← lift (printHash hash);
  put (writeString s).

(** The four requests that share their code. *)
Definition do_QueryPathSet (op : Z) : DM () :=
  path ← recv_StorePath;
  paths ← work (
    if decide (op = wopQueryReferences) then store_call (opQueryReferences path)
    else if decide (op = wopQueryReferrers) then store_call (opQueryReferrers path)
    else if decide (op = wopQueryValidDerivers) then store_call (opQueryValidDerivers path)
    else store_call (opQueryDerivationOutputs path));
  put (writeStrings paths).

Definition do_QueryDerivationOutputNames : DM () :=
  path ← recv_StorePath;
  names ← work (store_call (opQueryDerivationOutputNames path));
  put (writeStrings names).

Definition do_QueryDeriver : DM () :=
  path ← recv_StorePath;
  deriver ← work (store_call (opQueryDeriver path));
  put (writeString deriver).

Definition do_QueryPathFromHashPart : DM () :=
  hashPart ← recv readString;
  path ← work (store_call (opQueryPathFromHashPart hashPart));
  put (writeString path).

Definition do_AddToStore : DM () :=
  baseName ← recv readString;
  fixed ← recv readInt;
  recursive ← recv readInt;
  s ← recv readString;
  let fixed := bool_decide (fixed = 1%Z) in
  let s := if fixed then s else str "sha256" in
  let recursive := if fixed then bool_decide (recursive = 1%Z) else true in
  let hashAlgo := parseHashType s in
  '(dump, regular) ← (if recursive then nar ← recv read_nar; mret (nar, true)
                      else r ← recv read_regular; mret (rr_s r, rr_regular r));
  path ← work (
    lift (check regular (Error "regular file expected"));;
    store_call (opAddToStoreFromDump dump baseName recursive hashAlgo));
  put (writeString path).

Definition do_AddTextToStore : DM () :=
  suffix ← recv readString;
  s ← recv readString;
  refs ← recv_StorePaths;
  path ← work (store_call (opAddTextToStore suffix s refs));
  put (writeString path).

Definition do_ExportPath : DM () :=
  path ← recv_StorePath;
  sign ← recv readInt;
  work (tunnel_export path (bool_decide (sign = 1%Z)));;
  put (writeInt 1).

Definition do_ImportPaths : DM () :=
  paths ← work (tunnel_import true);
  put (writeStrings paths).

Definition do_BuildPaths : DM () :=
  drvs ← recv_StorePaths;
  mode ← (if bool_decide (15 <= minor)%Z then
            n ← recv readInt;
            mode ← lift (to_BuildMode n);
            lift (check (negb (bool_decide (mode = bmRepair) && negb trusted))
              (Error "repairing is a privileged operation"));;
            mret mode
          else mret bmNormal);
  work (store_call (opBuildPaths drvs mode));;
  put (writeInt 1).

Definition do_EnsurePath : DM () :=
  path ← recv_StorePath;
  work (store_call (opEnsurePath path));;
  put (writeInt 1).

Definition do_AddTempRoot : DM () :=
  path ← recv_StorePath;
  work (store_call (opAddTempRoot path));;
  put (writeInt 1).

Definition do_AddIndirectRoot : DM () :=
  s ← recv readString;
  path ← lift (absPath getcwd s []);
  work (store_call (opAddIndirectRoot path));;
  put (writeInt 1).

Definition do_SyncWithGC : DM () :=
  work (store_call opSyncWithGC);;
  put (writeInt 1).

Definition do_FindRoots : DM () :=
  roots ← work (store_call opFindRoots);
  put (writeInt (Z.of_nat (length roots)));;
  iter (λ i, put (writeString i.1);; put (writeString i.2)) roots.

Definition do_CollectGarbage : DM () :=
  remote ← gets (λ c, Ret (c_isRemote c));
  if remote : bool then lift (Throw (Error "Garbage collection is disabled for remote hosts."))
  else
    n ← recv readInt;
    action ← lift (to_GCAction n);
    pathsToDelete ← recv_StorePaths;
    ignoreLiveness ← recv readInt;
    maxFreed ← recv readLongLong;
    recv readInt;;
    when (bool_decide (5 <= minor)%Z) (recv readInt;; recv readInt;; mret ());;
    results ← work (
      lift (check (negb (nonzero ignoreLiveness)) (Error "you are not allowed to ignore liveness"));;
      store_call (opCollectGarbage (mkGCOptions action (nonzero ignoreLiveness) pathsToDelete maxFreed)));
    put (writeStrings (res_paths results));;
    put (writeLongLong (bytesFreed results));;
    put (writeLongLong 0).

(** ** [wopSetOptions] *)

(** The settings that every client may change by name. *)
Definition public_settings : list bytes := [
  str "build-timeout"; str "build-max-silent-time"; str "build-max-jobs"; str "build-cores";
  str "build-repeat"; str "multiplexed-build-output"].

Definition set_option (name value : bytes) : DM () :=
  uid ← setting (λ st, Globals.z st Globals.clientUid);
  if decide (name ∈ public_settings) then set_setting (Globals.set name value)
  else if bool_decide (name = str "user-name") && bool_decide (uid = minus_one) then
    match getpwnam (c_str value) with
    | Some pw_uid => store_call (opCreateUser value pw_uid)
    | None => printInfo (str "user name " ++ value ++ str " not found")
    end
  else set_setting (Globals.set (if trusted then name else str "untrusted-" ++ name) value).

Fixpoint set_options (n : nat) : DM () :=
  match n with
  | 0 => mret ()
  | S n =>
      name ← recv readString;
      value ← recv readString;
      set_option name value;;
      set_options n
  end.

Definition set_number (name : bytes) : DM () :=
  n ← recv readInt; set_setting (Globals.set name (to_string n)).

Definition set_flag (m : Globals.bool_member) : DM () :=
  n ← recv readInt; set_setting (Globals.set_b m (nonzero n)).

Definition do_SetOptions : DM () :=
  set_flag Globals.keepFailed;;
  remote ← gets (λ c, Ret (c_isRemote c));
  when remote (set_setting (Globals.set_b Globals.keepFailed false));;
  set_flag Globals.keepGoing;;
  fallback ← recv readInt;
  set_setting (Globals.set (str "build-fallback") (true_or_false (nonzero fallback)));;
  verbosity ← recv readInt;
  modify (on_verbosity (λ _, verbosity));;
  when (bool_decide (minor < 0x61)%Z)
    (set_number (str "build-max-jobs");; set_number (str "build-max-silent-time"));;
  when (bool_decide (2 <= minor)%Z)
    (if HAVE_DAEMON_OFFLOAD_HOOK then set_flag Globals.useBuildHook else recv readInt;; mret ());;
  when (bool_decide (4 <= minor)%Z)
    (n ← recv readInt;
     set_setting (Globals.set_z Globals.buildVerbosity n);;
     logType ← recv readInt;
     modify (on_logType (λ _, logType));;
     set_flag Globals.printBuildTrace);;
  when (bool_decide (6 <= minor < 0x61)%Z) (set_number (str "build-cores"));;
  when (bool_decide (10 <= minor)%Z)
    (use ← setting (λ st, Globals.b st Globals.useSubstitutes);
     n ← recv readInt;
     when use (set_setting (Globals.set (str "build-use-substitutes") (true_or_false (nonzero n)))));;
  when (bool_decide (12 <= minor)%Z) (n ← recv readInt; set_options (Z.to_nat n));;
  with_settings Globals.update;;
  work (mret ()).

(** ** The rest *)

Definition put_info (i : SubstitutablePathInfo) (narSize : bool) : DM () :=
  put (writeString (si_deriver i));;
  put (writeStrings (si_references i));;
  put (writeLongLong (si_downloadSize i));;
  when narSize (put (writeLongLong (si_narSize i))).

Definition do_QuerySubstitutablePathInfo : DM () :=
  s ← recv readString;
  path ← lift (absPath getcwd s []);
  infos ← work (store_call (opQuerySubstitutablePathInfos [path]));
  match map_find path infos with
  | None => put (writeInt 0)
  | Some i => put (writeInt 1);; put_info i (bool_decide (7 <= minor)%Z)
  end.

Definition do_QuerySubstitutablePathInfos : DM () :=
  paths ← recv_StorePaths;
  infos ← work (store_call (opQuerySubstitutablePathInfos paths));
  put (writeInt (Z.of_nat (length infos)));;
  iter (λ i, put (writeString i.1);; put_info i.2 true) infos.

Definition do_QueryAllValidPaths : DM () :=
  paths ← work (store_call opQueryAllValidPaths);
  put (writeStrings paths).

Definition do_QueryFailedPaths : DM () :=
  paths ← work (store_call opQueryFailedPaths);
  put (writeStrings paths).

Definition do_ClearFailedPaths : DM () :=
  paths ← recv readStrings_set;
  work (store_call (opClearFailedPaths paths));;
  put (writeInt 1).

Definition do_QueryPathInfo : DM () :=
  path ← recv_StorePath;
  info ← work (store_call (opQueryPathInfo path));
  hash ← lift (printHash (vp_hash info));
  put (writeString (vp_deriver info));;
  put (writeString hash);;
  put (writeStrings (vp_references info));;
  put (writeInt (vp_registrationTime info));;
  put (writeLongLong (vp_narSize info)).

Definition do_OptimiseStore : DM () :=
  work (store_call opOptimiseStore);;
  put (writeInt 1).

Definition do_VerifyStore : DM () :=
  checkContents ← recv readInt;
  repair ← recv readInt;
  errors ← work (
    lift (check (negb (nonzero repair && negb trusted)) (Error "you are not privileged to repair paths"));;
    store_call (opVerifyStore (nonzero checkContents) (nonzero repair)));
  put (writeInt (Z.b2z errors)).

Definition do_BuiltinBuilders : DM () :=
  names ← work (mret builtinBuilderNames);
  put (writeStrings names).

Definition do_SubstituteURLs : DM () :=
  urls ← work (
    st ← setting id;
    if decide (Globals.get st (str "build-use-substitutes") (str "false") = str "true") then
      let s := Globals.get st (str "untrusted-substitute-urls") [] in
      let s := if decide (s = []) then Globals.get st (str "substitute-urls") [] else s in
      lift (tokenizeString s Globals.whitespace)
    else mret []);
  put (writeStrings urls).

Definition performOp (op : Z) : DM () :=
  if decide (op = wopIsValidPath) then do_IsValidPath
  else if decide (op = wopQueryValidPaths) then do_QueryValidPaths
  else if decide (op = wopHasSubstitutes) then do_HasSubstitutes
  else if decide (op = wopQuerySubstitutablePaths) then do_QuerySubstitutablePaths
  else if decide (op = wopQueryPathHash) then do_QueryPathHash
  else if decide (op = wopQueryReferences ∨ op = wopQueryReferrers ∨ op = wopQueryValidDerivers ∨
                  op = wopQueryDerivationOutputs) then do_QueryPathSet op
  else if decide (op = wopQueryDerivationOutputNames) then do_QueryDerivationOutputNames
  else if decide (op = wopQueryDeriver) then do_QueryDeriver
  else if decide (op = wopQueryPathFromHashPart) then do_QueryPathFromHashPart
  else if decide (op = wopAddToStore) then do_AddToStore
  else if decide (op = wopAddTextToStore) then do_AddTextToStore
  else if decide (op = wopExportPath) then do_ExportPath
  else if decide (op = wopImportPaths) then do_ImportPaths
  else if decide (op = wopBuildPaths) then do_BuildPaths
  else if decide (op = wopEnsurePath) then do_EnsurePath
  else if decide (op = wopAddTempRoot) then do_AddTempRoot
  else if decide (op = wopAddIndirectRoot) then do_AddIndirectRoot
  else if decide (op = wopSyncWithGC) then do_SyncWithGC
  else if decide (op = wopFindRoots) then do_FindRoots
  else if decide (op = wopCollectGarbage) then do_CollectGarbage
  else if decide (op = wopSetOptions) then do_SetOptions
  else if decide (op = wopQuerySubstitutablePathInfo) then do_QuerySubstitutablePathInfo
  else if decide (op = wopQuerySubstitutablePathInfos) then do_QuerySubstitutablePathInfos
  else if decide (op = wopQueryAllValidPaths) then do_QueryAllValidPaths
  else if decide (op = wopQueryFailedPaths) then do_QueryFailedPaths
  else if decide (op = wopClearFailedPaths) then do_ClearFailedPaths
  else if decide (op = wopQueryPathInfo) then do_QueryPathInfo
  else if decide (op = wopOptimiseStore) then do_OptimiseStore
  else if decide (op = wopVerifyStore) then do_VerifyStore
  else if decide (op = wopBuiltinBuilders) then do_BuiltinBuilders
  else if decide (op = wopSubstituteURLs) then do_SubstituteURLs
  else lift (Throw (Error "invalid operation")).

(** * The life of a connection *)

(** The handlers around [performOp]. *)
Definition operation_failed (e : exn) : DM () :=
  if is_Error e then
    errorAllowed ← gets (λ c, Ret (c_canSendStderr c));
    stopWork_error (exn_msg e) (if bool_decide (8 <= minor)%Z then exn_status e else 0);;
    when (negb errorAllowed) (lift (Throw e))
  else
    stopWork_error (str "build daemon out of memory") (if bool_decide (8 <= minor)%Z then 1 else 0);;
    lift (Throw e).

Definition operation (op : Z) : DM () :=
  catch (λ e, is_Error e || bool_decide (e = BadAlloc)) (performOp op) operation_failed;;
  to_flush;;
  can ← gets (λ c, Ret (c_canSendStderr c));
  lift (check (negb can) (AssertionFailed "!canSendStderr")).

Definition next_op : DM (option Z) :=
  catch (λ e, match e with EndOfFile _ => true | _ => false end)
    (op ← recv readInt; mret (Some op)) (λ _, mret None).

(** [while (true) ...]; a turn reads eight bytes, or is the last. *)
Fixpoint process_requests (fuel : nat) : DM () :=
  match fuel with
  | 0 => lift OutOfFuel
  | S fuel =>
      op ← next_op;
      match op with
      | None => mret ()
      | Some op => operation op;; process_requests fuel
      end
  end.
End performOp.

(** From the greeting to the store; false when the store could not be opened. *)
Definition open_store (clientVersion userId : Z) (reserveSpace : bool) : DM bool :=
  catch is_Error
    (store_call (opOpenStore reserveSpace);;
     when (bool_decide (userId ≠ minus_one))
       match getpwuid userId with
       | Some pw_name => store_call (opCreateUser pw_name userId)
       | None => printInfo (str "user with UID " ++ to_string userId ++ str " not found")
       end;;
     stopWork;;
     to_flush;;
     mret true)
    (λ e, stopWork_error (exn_msg e) (if bool_decide (8 <= GET_PROTOCOL_MINOR clientVersion)%Z then 1 else 0);;
          to_flush;;
          mret false).

Definition greet (userId : Z) : DM (Z * bool) :=
  magic ← recv readInt;
  lift (check (bool_decide (magic = WORKER_MAGIC_1)) (Error "protocol mismatch"));;
  put (writeInt WORKER_MAGIC_2);;
  put (writeInt PROTOCOL_VERSION);;
  to_flush;;
  clientVersion ← recv readInt;
  let minor := GET_PROTOCOL_MINOR clientVersion in
  when (bool_decide (14 <= minor)%Z)
    (b ← recv readInt;
     when (nonzero b) (cpu ← recv readInt; store_call (opSetAffinity cpu)));;
  reserveSpace ← (if bool_decide (11 <= minor)%Z then n ← recv readInt; mret (nonzero n) else mret true);
  startWork;;
  opened ← open_store clientVersion userId reserveSpace;
  mret (clientVersion, opened).

Definition processConnection (fuel : nat) (trusted : bool) (userId : Z) : DM () :=
  modify (on_canSendStderr (λ _, false));;
  setSigPollAction false;;
  '(clientVersion, opened) ← greet userId;
  if opened : bool then
    process_requests trusted clientVersion fuel;;
    modify (on_canSendStderr (λ _, false));;
    modify (on_isInterrupted (λ _, false))
  else mret ().

(** The client: a process on this machine with the user the socket reports, or
    somebody elsewhere. *)
Inductive peer := LocalPeer (uid gid : Z) | RemotePeer.

Definition peer_uid (p : peer) : Z := match p with LocalPeer uid _ => uid | RemotePeer => minus_one end.
Definition peer_gid (p : peer) : Z := match p with LocalPeer _ gid => gid | RemotePeer => minus_one end.
Definition is_remote (p : peer) : bool := match p with LocalPeer _ _ => false | RemotePeer => true end.
Definition is_trusted (p : peer) : bool := match p with LocalPeer uid _ => bool_decide (uid = 0%Z) | RemotePeer => false end.

(** [acceptConnection]: what the process forked for the connection does. *)
Definition serve_peer (fuel : nat) (p : peer) : DM () :=
  set_setting (Globals.set_z Globals.clientUid (peer_uid p));;
  set_setting (Globals.set_z Globals.clientGid (peer_gid p));;
  modify (on_isRemote (λ _, is_remote p));;
  processConnection fuel (is_trusted p) (peer_uid p).
End daemon.
