(* ===== verification/DaemonSpec.v ===== *)
(** What a connection to the daemon is meant to do: requests as values, their
    encoding on the wire, and what the daemon does for each of them.

    This is the protocol of worker-protocol.hh as a client sees it; Daemon is the
    code that reads requests from the socket. *)

From S2P Require Import Prelude StateMonad Containers Serialise Hash Archive Paths StorePaths LocalDB Roots GC GoalState Settings DaemonState Daemon.

(** * Requests *)

(** The fields of a [wopSetOptions] request; those that the version of the client
    does not have are not sent. *)
Record options := mkOptions {
  o_keepFailed : Z;
  o_keepGoing : Z;
  o_tryFallback : Z;
  o_verbosity : Z;
  o_maxBuildJobs : Z;
  o_maxSilentTime : Z;
  o_useBuildHook : Z;
  o_buildVerbosity : Z;
  o_logType : Z;
  o_printBuildTrace : Z;
  o_buildCores : Z;
  o_useSubstitutes : Z;
  o_named : list (bytes * bytes)
}.

Inductive request :=
  | rqIsValidPath (path : bytes)
  | rqQueryValidPaths (paths : strset)
  | rqHasSubstitutes (path : bytes)
  | rqQuerySubstitutablePaths (paths : strset)
  | rqQueryPathHash (path : bytes)
  | rqQueryReferences (path : bytes)
  | rqQueryReferrers (path : bytes)
  | rqQueryValidDerivers (path : bytes)
  | rqQueryDerivationOutputs (path : bytes)
  | rqQueryDerivationOutputNames (path : bytes)
  | rqQueryDeriver (path : bytes)
  | rqQueryPathFromHashPart (hashPart : bytes)
  | rqAddToStore (baseName : bytes) (fixed recursive : bool) (hashAlgo : bytes) (t : fso)
  | rqAddTextToStore (suffix s : bytes) (references : strset)
  | rqExportPath (path : bytes) (sign : bool)
  | rqImportPaths
  | rqBuildPaths (drvs : strset) (mode : BuildMode)
  | rqEnsurePath (path : bytes)
  | rqAddTempRoot (path : bytes)
  | rqAddIndirectRoot (path : bytes)
  | rqSyncWithGC
  | rqFindRoots
  | rqCollectGarbage (action : GCAction) (pathsToDelete : strset) (ignoreLiveness : bool) (maxFreed : Z)
  | rqSetOptions (o : options)
  | rqQuerySubstitutablePathInfo (path : bytes)
  | rqQuerySubstitutablePathInfos (paths : strset)
  | rqQueryAllValidPaths
  | rqQueryFailedPaths
  | rqClearFailedPaths (paths : strset)
  | rqQueryPathInfo (path : bytes)
  | rqOptimiseStore
  | rqVerifyStore (checkContents repair : bool)
  | rqBuiltinBuilders
  | rqSubstituteURLs.

Definition opcode (r : request) : Z :=
  match r with
  | rqIsValidPath _ => wopIsValidPath
  | rqQueryValidPaths _ => wopQueryValidPaths
  | rqHasSubstitutes _ => wopHasSubstitutes
  | rqQuerySubstitutablePaths _ => wopQuerySubstitutablePaths
  | rqQueryPathHash _ => wopQueryPathHash
  | rqQueryReferences _ => wopQueryReferences
  | rqQueryReferrers _ => wopQueryReferrers
  | rqQueryValidDerivers _ => wopQueryValidDerivers
  | rqQueryDerivationOutputs _ => wopQueryDerivationOutputs
  | rqQueryDerivationOutputNames _ => wopQueryDerivationOutputNames
  | rqQueryDeriver _ => wopQueryDeriver
  | rqQueryPathFromHashPart _ => wopQueryPathFromHashPart
  | rqAddToStore _ _ _ _ _ => wopAddToStore
  | rqAddTextToStore _ _ _ => wopAddTextToStore
  | rqExportPath _ _ => wopExportPath
  | rqImportPaths => wopImportPaths
  | rqBuildPaths _ _ => wopBuildPaths
  | rqEnsurePath _ => wopEnsurePath
  | rqAddTempRoot _ => wopAddTempRoot
  | rqAddIndirectRoot _ => wopAddIndirectRoot
  | rqSyncWithGC => wopSyncWithGC
  | rqFindRoots => wopFindRoots
  | rqCollectGarbage _ _ _ _ => wopCollectGarbage
  | rqSetOptions _ => wopSetOptions
  | rqQuerySubstitutablePathInfo _ => wopQuerySubstitutablePathInfo
  | rqQuerySubstitutablePathInfos _ => wopQuerySubstitutablePathInfos
  | rqQueryAllValidPaths => wopQueryAllValidPaths
  | rqQueryFailedPaths => wopQueryFailedPaths
  | rqClearFailedPaths _ => wopClearFailedPaths
  | rqQueryPathInfo _ => wopQueryPathInfo
  | rqOptimiseStore => wopOptimiseStore
  | rqVerifyStore _ _ => wopVerifyStore
  | rqBuiltinBuilders => wopBuiltinBuilders
  | rqSubstituteURLs => wopSubstituteURLs
  end.

Definition mode_number (m : BuildMode) : Z := match m with bmNormal => 0 | bmRepair => 1 | bmCheck => 2 end.
Definition action_number (a : GCAction) : Z :=
  match a with gcReturnLive => 0 | gcReturnDead => 1 | gcDeleteDead => 2 | gcDeleteSpecific => 3 end.

Definition write_if (b : bool) (chunks : list bytes) : list bytes := if b then chunks else [].
Definition writeBool (b : bool) : list bytes := writeInt (Z.b2z b).

Section encoding.
Context (minor : Z).

Definition encode_options (o : options) : list bytes :=
  writeInt (o_keepFailed o) ++ writeInt (o_keepGoing o) ++ writeInt (o_tryFallback o) ++
  writeInt (o_verbosity o) ++
  write_if (bool_decide (minor < 0x61)%Z) (writeInt (o_maxBuildJobs o) ++ writeInt (o_maxSilentTime o)) ++
  write_if (bool_decide (2 <= minor)%Z) (writeInt (o_useBuildHook o)) ++
  write_if (bool_decide (4 <= minor)%Z)
    (writeInt (o_buildVerbosity o) ++ writeInt (o_logType o) ++ writeInt (o_printBuildTrace o)) ++
  write_if (bool_decide (6 <= minor < 0x61)%Z) (writeInt (o_buildCores o)) ++
  write_if (bool_decide (10 <= minor)%Z) (writeInt (o_useSubstitutes o)) ++
  write_if (bool_decide (12 <= minor)%Z)
    (writeInt (Z.of_nat (length (o_named o))) ++
     mjoin ((λ o, writeString o.1 ++ writeString o.2) <$> o_named o)).

(** The arguments of a request, after its number. *)
Definition encode_args (r : request) : list bytes :=
  match r with
  | rqIsValidPath s | rqHasSubstitutes s | rqQueryPathHash s | rqQueryReferences s | rqQueryReferrers s
  | rqQueryValidDerivers s | rqQueryDerivationOutputs s | rqQueryDerivationOutputNames s | rqQueryDeriver s
  | rqQueryPathFromHashPart s | rqEnsurePath s | rqAddTempRoot s | rqAddIndirectRoot s
  | rqQuerySubstitutablePathInfo s | rqQueryPathInfo s => writeString s
  | rqQueryValidPaths ss | rqQuerySubstitutablePaths ss | rqQuerySubstitutablePathInfos ss
  | rqClearFailedPaths ss => writeStrings ss
  | rqAddToStore baseName fixed recursive hashAlgo t =>
      writeString baseName ++ writeBool fixed ++ writeBool recursive ++ writeString hashAlgo ++
      writeString archiveVersion1 ++ nar t
  | rqAddTextToStore suffix s refs => writeString suffix ++ writeString s ++ writeStrings refs
  | rqExportPath path sign => writeString path ++ writeBool sign
  | rqBuildPaths drvs mode =>
      writeStrings drvs ++ write_if (bool_decide (15 <= minor)%Z) (writeInt (mode_number mode))
  | rqCollectGarbage action paths ignoreLiveness maxFreed =>
      writeInt (action_number action) ++ writeStrings paths ++ writeBool ignoreLiveness ++
      writeLongLong maxFreed ++ writeInt 0 ++
      write_if (bool_decide (5 <= minor)%Z) (writeInt 0 ++ writeInt 0)
  | rqSetOptions o => encode_options o
  | rqVerifyStore checkContents repair => writeBool checkContents ++ writeBool repair
  | rqImportPaths | rqSyncWithGC | rqFindRoots | rqQueryAllValidPaths | rqQueryFailedPaths | rqOptimiseStore
  | rqBuiltinBuilders | rqSubstituteURLs => []
  end.

Definition encode (r : request) : list bytes := writeInt (opcode r) ++ encode_args r.
End encoding.

(** ** The requests that can be sent *)

Definition short (s : bytes) : Prop := (Z.of_nat (length s) < 2 ^ 32)%Z.
Definition word (n : Z) : Prop := (0 <= n < 2 ^ 32)%Z.

Definition strings_ok (ss : strset) : Prop :=
  set_wf ss ∧ (Z.of_nat (length ss) < 2 ^ 32)%Z ∧ Forall short ss.

Record options_ok (o : options) : Prop := {
  ok_keepFailed : word (o_keepFailed o);
  ok_keepGoing : word (o_keepGoing o);
  ok_tryFallback : word (o_tryFallback o);
  ok_verbosity : word (o_verbosity o);
  ok_maxBuildJobs : word (o_maxBuildJobs o);
  ok_maxSilentTime : word (o_maxSilentTime o);
  ok_useBuildHook : word (o_useBuildHook o);
  ok_buildVerbosity : word (o_buildVerbosity o);
  ok_logType : word (o_logType o);
  ok_printBuildTrace : word (o_printBuildTrace o);
  ok_buildCores : word (o_buildCores o);
  ok_useSubstitutes : word (o_useSubstitutes o);
  ok_named_length : (Z.of_nat (length (o_named o)) < 2 ^ 32)%Z;
  ok_named : Forall (λ o, short o.1 ∧ short o.2 ∧ o.1 ≠ str "user-name") (o_named o)
}.

Section requests.
Context (nixStore : bytes).

Definition store_path_ok (path : bytes) : Prop := short path ∧ isStorePath nixStore path = true.
Definition store_paths_ok (paths : strset) : Prop :=
  strings_ok paths ∧ Forall (λ p, isStorePath nixStore p = true) paths.

(** A request that the daemon can read: its paths are store paths (where
    [readStorePath] is used), and lengths and numbers fit. Remote clients do not
    collect garbage. The option "user-name" is left out: for a client without a user
    it is acted upon while the options are read. *)
Definition request_ok (remote : bool) (r : request) : Prop :=
  match r with
  | rqIsValidPath s | rqQueryPathFromHashPart s | rqAddIndirectRoot s | rqQuerySubstitutablePathInfo s => short s
  | rqHasSubstitutes s | rqQueryPathHash s | rqQueryReferences s | rqQueryReferrers s | rqQueryValidDerivers s
  | rqQueryDerivationOutputs s | rqQueryDerivationOutputNames s | rqQueryDeriver s | rqEnsurePath s
  | rqAddTempRoot s | rqQueryPathInfo s | rqExportPath s _ => store_path_ok s
  | rqQueryValidPaths ss | rqQuerySubstitutablePaths ss | rqQuerySubstitutablePathInfos ss
  | rqBuildPaths ss _ => store_paths_ok ss
  | rqClearFailedPaths ss => strings_ok ss
  | rqAddToStore baseName _ _ hashAlgo t => short baseName ∧ short hashAlgo ∧ nar_ok t
  | rqAddTextToStore suffix s refs => short suffix ∧ short s ∧ store_paths_ok refs
  | rqCollectGarbage _ paths _ maxFreed =>
      remote = false ∧ store_paths_ok paths ∧ (0 <= maxFreed < 2 ^ 64)%Z
  | rqSetOptions o => options_ok o
  | _ => True
  end.
End requests.

(** * What the daemon does for a request *)

Section spec.
Context {W : Type} {net : Network} {msgs : Messages} {handler : StoreHandler W} {sys : DaemonSystem}.
Local Abbreviation DM := (SM (Conn W)).

(** What comes before the work (an exception there ends the connection), the work,
    and the reply. *)
Record plan := mkPlan {
  pl_pre : DM ();
  pl_answer : Type;
  pl_work : DM pl_answer;
  pl_reply : pl_answer → outcome (list bytes)
}.

Definition serve (p : plan) : DM () :=
  pl_pre p;;
  a ← work (pl_work p);
  reply ← lift (pl_reply p a);
  put reply.

Definition no_pre : DM () := mret ().
Definition ask {A} (m : DM A) (reply : A → list bytes) : plan := mkPlan no_pre A m (λ a, Ret (reply a)).
Definition ask_one (m : DM ()) : plan := ask m (λ _, writeInt 1).

Definition write_info (i : SubstitutablePathInfo) (narSize : bool) : list bytes :=
  writeString (si_deriver i) ++ writeStrings (si_references i) ++ writeLongLong (si_downloadSize i) ++
  write_if narSize (writeLongLong (si_narSize i)).

Definition write_PathInfo (info : ValidPathInfo) : outcome (list bytes) :=
  hash ← printHash (vp_hash info);
  Ret (writeString (vp_deriver info) ++ writeString hash ++ writeStrings (vp_references info) ++
       writeInt (vp_registrationTime info) ++ writeLongLong (vp_narSize info)).

(** The contents of a regular file, and whether the tree is one. *)
Definition contents_of (t : fso) : bytes := match t with Regular _ c => c | _ => [] end.
Definition is_regular (t : fso) : bool := match t with Regular _ _ => true | _ => false end.

Section plans.
Context (trusted : bool) (minor : Z).

Definition apply_options (o : options) : DM () :=
  let number name n := set_setting (Globals.set name (to_string n)) in
  let flag m n := set_setting (Globals.set_b m (nonzero n)) in
  flag Globals.keepFailed (o_keepFailed o);;
  remote ← gets (λ c, Ret (c_isRemote c));
  when remote (set_setting (Globals.set_b Globals.keepFailed false));;
  flag Globals.keepGoing (o_keepGoing o);;
  set_setting (Globals.set (str "build-fallback") (true_or_false (nonzero (o_tryFallback o))));;
  modify (on_verbosity (λ _, o_verbosity o));;
  when (bool_decide (minor < 0x61)%Z)
    (number (str "build-max-jobs") (o_maxBuildJobs o);;
     number (str "build-max-silent-time") (o_maxSilentTime o));;
  when (bool_decide (2 <= minor)%Z)
    (when HAVE_DAEMON_OFFLOAD_HOOK (flag Globals.useBuildHook (o_useBuildHook o)));;
  when (bool_decide (4 <= minor)%Z)
    (set_setting (Globals.set_z Globals.buildVerbosity (o_buildVerbosity o));;
     modify (on_logType (λ _, o_logType o));;
     flag Globals.printBuildTrace (o_printBuildTrace o));;
  when (bool_decide (6 <= minor < 0x61)%Z) (number (str "build-cores") (o_buildCores o));;
  when (bool_decide (10 <= minor)%Z)
    (use ← setting (λ st, Globals.b st Globals.useSubstitutes);
     when use (set_setting
       (Globals.set (str "build-use-substitutes") (true_or_false (nonzero (o_useSubstitutes o))))));;
  when (bool_decide (12 <= minor)%Z) (iter (λ o, set_option trusted o.1 o.2) (o_named o));;
  with_settings Globals.update.

Definition plan_of (r : request) : plan :=
  match r with
  | rqIsValidPath path =>
      ask (d ← nixStore; lift (assertStorePath d path);; store_call (opIsValidPath path)) writeBool
  | rqQueryValidPaths paths => ask (store_call (opQueryValidPaths paths)) writeStrings
  | rqHasSubstitutes path =>
      ask (store_call (opQuerySubstitutablePaths [path])) (λ res, writeBool (set_mem path res))
  | rqQuerySubstitutablePaths paths => ask (store_call (opQuerySubstitutablePaths paths)) writeStrings
  | rqQueryPathHash path =>
      mkPlan no_pre _ (store_call (opQueryPathHash path)) (λ hash, s ← printHash hash; Ret (writeString s))
  | rqQueryReferences path => ask (store_call (opQueryReferences path)) writeStrings
  | rqQueryReferrers path => ask (store_call (opQueryReferrers path)) writeStrings
  | rqQueryValidDerivers path => ask (store_call (opQueryValidDerivers path)) writeStrings
  | rqQueryDerivationOutputs path => ask (store_call (opQueryDerivationOutputs path)) writeStrings
  | rqQueryDerivationOutputNames path => ask (store_call (opQueryDerivationOutputNames path)) writeStrings
  | rqQueryDeriver path => ask (store_call (opQueryDeriver path)) writeString
  | rqQueryPathFromHashPart hashPart => ask (store_call (opQueryPathFromHashPart hashPart)) writeString
  | rqAddToStore baseName fixed recursive hashAlgo t =>
      let recursive := negb fixed || recursive in
      let hashAlgo := parseHashType (if fixed then hashAlgo else str "sha256") in
      ask
        (if recursive
         then store_call (opAddToStoreFromDump (wire (writeString archiveVersion1 ++ nar t)) baseName true hashAlgo)
         else
           lift (check (is_regular t) (Error "regular file expected"));;
           store_call (opAddToStoreFromDump (contents_of t) baseName false hashAlgo))
        writeString
  | rqAddTextToStore suffix s refs => ask (store_call (opAddTextToStore suffix s refs)) writeString
  | rqExportPath path sign => ask_one (tunnel_export path sign)
  | rqImportPaths => ask (tunnel_import true) writeStrings
  | rqBuildPaths drvs mode =>
      let mode := if bool_decide (15 <= minor)%Z then mode else bmNormal in
      mkPlan
        (lift (check (negb (bool_decide (mode = bmRepair) && negb trusted))
           (Error "repairing is a privileged operation"))) _
        (store_call (opBuildPaths drvs mode)) (λ _, Ret (writeInt 1))
  | rqEnsurePath path => ask_one (store_call (opEnsurePath path))
  | rqAddTempRoot path => ask_one (store_call (opAddTempRoot path))
  | rqAddIndirectRoot s =>
      mkPlan (lift (absPath getcwd s []);; mret ()) _
        (path ← lift (absPath getcwd s []); store_call (opAddIndirectRoot path)) (λ _, Ret (writeInt 1))
  | rqSyncWithGC => ask_one (store_call opSyncWithGC)
  | rqFindRoots =>
      ask (store_call opFindRoots)
        (λ roots, writeInt (Z.of_nat (length roots)) ++
                  mjoin ((λ i, writeString i.1 ++ writeString i.2) <$> roots))
  | rqCollectGarbage action paths ignoreLiveness maxFreed =>
      ask
        (lift (check (negb ignoreLiveness) (Error "you are not allowed to ignore liveness"));;
         store_call (opCollectGarbage (mkGCOptions action ignoreLiveness paths maxFreed)))
        (λ results, writeStrings (res_paths results) ++ writeLongLong (bytesFreed results) ++ writeLongLong 0)
  | rqSetOptions o => mkPlan (apply_options o) _ (mret ()) (λ _, Ret [])
  | rqQuerySubstitutablePathInfo s =>
      mkPlan (lift (absPath getcwd s []);; mret ()) _
        (path ← lift (absPath getcwd s []);
         infos ← store_call (opQuerySubstitutablePathInfos [path]);
         mret (map_find path infos))
        (λ info, Ret match info with
                     | None => writeInt 0
                     | Some i => writeInt 1 ++ write_info i (bool_decide (7 <= minor)%Z)
                     end)
  | rqQuerySubstitutablePathInfos paths =>
      ask (store_call (opQuerySubstitutablePathInfos paths))
        (λ infos, writeInt (Z.of_nat (length infos)) ++
                  mjoin ((λ i, writeString i.1 ++ write_info i.2 true) <$> infos))
  | rqQueryAllValidPaths => ask (store_call opQueryAllValidPaths) writeStrings
  | rqQueryFailedPaths => ask (store_call opQueryFailedPaths) writeStrings
  | rqClearFailedPaths paths => ask_one (store_call (opClearFailedPaths paths))
  | rqQueryPathInfo path => mkPlan no_pre _ (store_call (opQueryPathInfo path)) write_PathInfo
  | rqOptimiseStore => ask_one (store_call opOptimiseStore)
  | rqVerifyStore checkContents repair =>
      ask
        (lift (check (negb (repair && negb trusted)) (Error "you are not privileged to repair paths"));;
         store_call (opVerifyStore checkContents repair)) writeBool
  | rqBuiltinBuilders => ask (mret builtinBuilderNames) writeStrings
  | rqSubstituteURLs =>
      ask
        (st ← setting id;
         if decide (Globals.get st (str "build-use-substitutes") (str "false") = str "true") then
           let s := Globals.get st (str "untrusted-substitute-urls") [] in
           let s := if decide (s = []) then Globals.get st (str "substitute-urls") [] else s in
           lift (tokenizeString s Globals.whitespace)
         else mret [])
        writeStrings
  end.
End plans.

(** * What the daemon does for a list of requests *)

(** A request, its errors reported to the client. *)
Definition complete (clientVersion : Z) (m : DM ()) : DM () :=
  catch (λ e, is_Error e || bool_decide (e = BadAlloc)) m (operation_failed clientVersion);;
  to_flush;;
  can ← gets (λ c, Ret (c_canSendStderr c));
  lift (check (negb can) (AssertionFailed "!canSendStderr")).

Definition serve_all (trusted : bool) (clientVersion : Z) (rs : list request) : DM () :=
  iter (λ r, complete clientVersion (serve (plan_of trusted (GET_PROTOCOL_MINOR clientVersion) r))) rs.
End spec.
