(* ===== verification/DaemonSync.v ===== *)
(** The daemon understands what a client sends: reading a request from the socket
    and serving it is the same as serving the request, and the daemon never gets out
    of step with the client. *)

From S2P Require Import Prelude StateMonad Containers Serialise Hash Archive Paths StorePaths LocalDB Roots GC GoalState Settings DaemonState Daemon DaemonSpec.

(** * Computations that leave the input alone *)

Section steady.
Context {W : Type} {net : Network} {msgs : Messages} {handler : StoreHandler W} {sys : DaemonSystem}.
Local Abbreviation DM := (SM (Conn W)).
Implicit Types (c : Conn W) (f : FdSource).

Definition set_from f c : Conn W := on_from (λ _, f) c.

(** What does not change during a connection, as long as there is no interrupt. *)
Definition fixed_part c : bool * bool * bytes :=
  (c_isInterrupted c, c_isRemote c, Globals.s (c_settings c) Globals.nixStore).

(** [m] neither reads [from] nor depends on what is left in it. *)
Definition steady {A} (m : DM A) : Prop := ∀ c f, c_isInterrupted c = false →
  ∃ r c', m c = (r, c') ∧ m (set_from f c) = (r, set_from f c') ∧ fixed_part c' = fixed_part c.

Lemma set_from_id c : set_from (c_from c) c = c.
Proof. by destruct c. Qed.
Lemma set_from_twice f f' c : set_from f (set_from f' c) = set_from f c.
Proof. done. Qed.

Lemma steady_from {A} (m : DM A) c : steady m → c_isInterrupted c = false → c_from (m c).2 = c_from c.
Proof.
  intros Hm Hc. destruct (Hm c (c_from c) Hc) as (r & c' & E1 & E2 & _).
  rewrite set_from_id, E1 in E2. injection E2 as E2. rewrite E1. simpl. by rewrite E2.
Qed.

Lemma steady_ret {A} (a : A) : steady (mret a).
Proof. intros c f Hc. by exists (Ret a), c. Qed.
Lemma steady_lift {A} (r : outcome A) : steady (lift r).
Proof. intros c f Hc. by exists r, c. Qed.
Lemma steady_gets {A} (g : Conn W → outcome A) : (∀ c f, g (set_from f c) = g c) → steady (gets g).
Proof. intros Hg c f Hc. exists (g c), c. unfold gets. by rewrite Hg. Qed.
Lemma steady_modify (g : Conn W → Conn W) :
  (∀ c f, g (set_from f c) = set_from f (g c)) → (∀ c, c_isInterrupted c = false → fixed_part (g c) = fixed_part c) →
  steady (modify g).
Proof. intros Hg Hf c f Hc. exists (Ret ()), (g c). unfold modify. by rewrite Hg, Hf. Qed.

Lemma steady_bind {A B} (m : DM A) (k : A → DM B) : steady m → (∀ a, steady (k a)) → steady (m ≫= k).
Proof.
  intros Hm Hk c f Hc. destruct (Hm c f Hc) as (r & c1 & E1 & E2 & Hf). unfold mbind, SM_bind. rewrite E1, E2.
  destruct r as [a|e|]; [|by eauto..].
  assert (c_isInterrupted c1 = false) as Hc1 by (unfold fixed_part in Hf; congruence).
  destruct (Hk a c1 f Hc1) as (r & c2 & E3 & E4 & Hf2). exists r, c2. by rewrite Hf2.
Qed.

Lemma steady_catch {A} C (m : DM A) h : steady m → (∀ e, steady (h e)) → steady (catch C m h).
Proof.
  intros Hm Hh c f Hc. destruct (Hm c f Hc) as (r & c1 & E1 & E2 & Hf). unfold catch. rewrite E1, E2.
  destruct r as [a|e|]; [by eauto| |by eauto]. destruct (C e); [|by eauto].
  assert (c_isInterrupted c1 = false) as Hc1 by (unfold fixed_part in Hf; congruence).
  destruct (Hh e c1 f Hc1) as (r & c2 & E3 & E4 & Hf2). exists r, c2. by rewrite Hf2.
Qed.

Lemma steady_reify {A} (m : DM A) : steady m → steady (reify m).
Proof.
  intros Hm c f Hc. destruct (Hm c f Hc) as (r & c1 & E1 & E2 & Hf). unfold reify. rewrite E1, E2.
  destruct r as [a|e|]; [by eauto| |by eauto]. destruct (is_exception e); eauto.
Qed.

Lemma steady_when b (m : DM ()) : steady m → steady (when b m).
Proof. destruct b; [done|]. intros _. apply steady_ret. Qed.

Lemma steady_iter {A} (body : A → DM ()) l : (∀ a, steady (body a)) → steady (iter body l).
Proof. intros Hb. induction l as [|a l IH]; [apply steady_ret|]. apply steady_bind; [done|]. by intros []. Qed.

Create HintDb steady discriminated.
Hint Resolve steady_ret steady_lift : steady.

(** Assignments to the members other than [from]. *)
Ltac steady_assign := apply steady_modify; [by intros []|by intros []].

Lemma steady_set (g : Globals.Settings → Globals.Settings) :
  (∀ st, Globals.s (g st) Globals.nixStore = Globals.s st Globals.nixStore) → steady (set_setting g).
Proof. intros Hg. apply steady_modify; [by intros []|]. intros [] _. unfold fixed_part. simpl. by rewrite Hg. Qed.

Lemma steady_setting {A} (g : Globals.Settings → A) : steady (setting g).
Proof. apply steady_gets. by intros []. Qed.

(** [steady] by the shape of the code. *)
Ltac steady := repeat (first
  [ solve [auto with steady] | apply steady_ret | apply steady_lift | apply steady_when | apply steady_reify
  | apply steady_setting
  | (apply steady_bind; [|intros ?])
  | (apply steady_catch; [|intros ?])
  | (apply steady_iter; intros ?)
  | (apply steady_gets; by intros [])
  | steady_assign
  | (apply steady_set; done)
  | (match goal with |- steady (if ?b then _ else _) => destruct b end)
  | (match goal with |- steady (match ?b with _ => _ end) => destruct b end) ]).

(** ** The connection *)

Lemma steady_checkInterrupt : steady checkInterrupt.
Proof. intros c f Hc. exists (Ret ()), c. unfold checkInterrupt. simpl. by rewrite Hc. Qed.
Hint Resolve steady_checkInterrupt : steady.

Lemma steady_socket_write data : steady (socket_write data).
Proof. unfold socket_write. steady. Qed.
Hint Resolve steady_socket_write : steady.

Lemma steady_put chunks : steady (put chunks).
Proof. unfold put, to_call. steady. Qed.
Lemma steady_flush : steady to_flush.
Proof. unfold to_flush. steady. Qed.
Hint Resolve steady_put steady_flush : steady.

Lemma steady_tunnelStderr msg : steady (tunnelStderr msg).
Proof. unfold tunnelStderr. steady. Qed.
Hint Resolve steady_tunnelStderr : steady.

Lemma steady_printInfo s : steady (printInfo s).
Proof. unfold printInfo. steady. Qed.
Hint Resolve steady_printInfo : steady.

(** ** A client that is silent while the daemon works *)

Definition silent : Prop := ∀ k, net_readable k = false.

Context (Hsilent : silent).

Lemma steady_isFarSideClosed : steady isFarSideClosed.
Proof.
  unfold isFarSideClosed. apply steady_bind; [by apply steady_gets; intros []|intros k].
  apply steady_bind; [steady_assign|intros _]. rewrite Hsilent. apply steady_ret.
Qed.

Lemma isFarSideClosed_false c : isFarSideClosed c = (Ret false, on_polls S c).
Proof. unfold isFarSideClosed, mbind, SM_bind. simpl. by rewrite Hsilent. Qed.

Lemma steady_startWork : steady startWork.
Proof.
  unfold startWork, setSigPollAction. do 2 (apply steady_bind; [steady_assign|intros _]).
  intros c f Hc. unfold mbind, SM_bind. rewrite !isFarSideClosed_false.
  eexists _, _. split_and!; [done|done|]. by destruct c.
Qed.

Lemma steady_signal : steady deliver_signal.
Proof.
  unfold deliver_signal. apply steady_bind; [by apply steady_gets; intros []|intros on].
  apply steady_when. unfold sigPollHandler. intros c f Hc. unfold mbind, SM_bind, reify. rewrite !isFarSideClosed_false.
  eexists _, _. split_and!; [done|done|]. by destruct c.
Qed.
Hint Resolve steady_isFarSideClosed steady_startWork steady_signal : steady.

Lemma steady_stopWork : steady stopWork.
Proof. unfold stopWork, setSigPollAction. steady. Qed.
Lemma steady_stopWork_error msg status : steady (stopWork_error msg status).
Proof. unfold stopWork_error, setSigPollAction. steady. Qed.
Hint Resolve steady_stopWork steady_stopWork_error : steady.

Lemma steady_work {A} (m : DM A) : steady m → steady (work m).
Proof. intros Hm. unfold work. steady. Qed.
Hint Resolve steady_work : steady.

Lemma steady_run_session {io A T} (step : ∀ X, io X → T → DM (outcome X * T)) (s : session io W A) t :
  (∀ X i t, steady (step X i t)) → steady (run_session step s t).
Proof.
  intros Hstep. revert t. induction s as [r w|msg k IH|k IH|k IH|X i k IH]; intros t; cbn [run_session].
  - steady.
  - apply steady_bind; [|intros r; apply IH]. steady.
  - apply steady_bind; [steady|intros _; apply IH].
  - apply steady_bind; [|intros r; apply IH]. steady.
  - apply steady_bind; [apply Hstep|intros [r t']; apply IH].
Qed.

Lemma steady_store_call {A} (op : store_op no_io A) : steady (store_call op).
Proof.
  unfold store_call. apply steady_bind; [by apply steady_gets; intros []|intros w].
  apply steady_bind; [apply steady_run_session; by intros X []|intros [r []]; apply steady_lift].
Qed.
Hint Resolve steady_store_call : steady.

Lemma steady_export path sign : steady (tunnel_export path sign).
Proof.
  unfold tunnel_export, tunnel_flush, tunnel_write. apply steady_bind; [by apply steady_gets; intros []|intros w].
  apply steady_bind; [apply steady_run_session|intros [r sink]; steady].
  intros X [] t. cbn [sink_step]. unfold tunnel_write. steady.
Qed.
Hint Resolve steady_export : steady.

(** ** Requests *)

Lemma get_keeps_s m name st x :
  m ≠ Globals.S x → Globals.s (Globals._get m name st).2 x = Globals.s st x.
Proof.
  intros Hm. destruct m as [m|m|m]; cbn [Globals._get].
  - unfold Globals._get_bool. destruct (map_find name _) as [v|]; [|done]. unfold Globals.read_bool.
    by repeat case_decide.
  - unfold Globals._get_int. destruct (map_find name _) as [v|]; [|done]. destruct (string2Int _ v) as [ok [n|]]; done.
  - unfold Globals._get_string. destruct (map_find name _) as [v|]; [|done]. cbn. rewrite decide_False; [done|]. congruence.
Qed.

Lemma update_keeps_s st x :
  x ≠ Globals.thisSystem → x ≠ Globals.buildUsersGroup → Globals.s (Globals.update st).2 x = Globals.s st x.
Proof.
  intros H1 H2. unfold Globals.update. assert (Forall (λ u, u.1 ≠ Globals.S x) Globals.updates) as Hu.
  { repeat (apply Forall_cons; split; [cbn; congruence|]). by apply Forall_nil. }
  revert st Hu. generalize Globals.updates. intros l. induction l as [|u l IH]; intros st Hu; [done|].
  apply Forall_cons in Hu as [Hu Hl]. cbn [iter]. unfold mbind, SM_bind.
  pose proof (get_keeps_s u.1 u.2 st x Hu) as Hg. destruct (Globals._get u.1 u.2 st) as [[[]| |] st']; [|done..].
  rewrite <-Hg. by apply IH.
Qed.

Lemma steady_update : steady (with_settings Globals.update).
Proof.
  intros c f Hc. unfold with_settings. pose proof (update_keeps_s (c_settings c) Globals.nixStore) as Hu.
  destruct (Globals.update (c_settings c)) as [r st] eqn:E.
  exists r, (on_settings (λ _, st) c). split_and!; [done|change (c_settings (set_from f c)) with (c_settings c); by rewrite E|].
  unfold fixed_part. cbn [c_isInterrupted c_isRemote c_settings on_settings]. by rewrite <-Hu.
Qed.
Hint Resolve steady_update : steady.

Lemma steady_set_option' trusted name value : steady (set_option trusted name value).
Proof. unfold set_option. steady. Qed.
Hint Resolve steady_set_option' : steady.

Lemma steady_apply_options trusted minor o : steady (apply_options trusted minor o).
Proof. unfold apply_options. steady. Qed.
Hint Resolve steady_apply_options : steady.

Lemma steady_nixStore : steady nixStore.
Proof. apply steady_setting. Qed.
Hint Resolve steady_nixStore : steady.

Lemma steady_serve trusted minor r : r ≠ rqImportPaths → steady (serve (plan_of trusted minor r)).
Proof.
  intros Hr. unfold serve. destruct r; try done; cbn [plan_of]; unfold ask_one, ask, no_pre; cbn [pl_pre pl_work pl_reply];
    (apply steady_bind; [solve [steady]|intros []]); (apply steady_bind; [|intros a; solve [steady]]);
    apply steady_work; solve [steady].
Qed.

Lemma steady_operation_failed v e : steady (operation_failed v e).
Proof. unfold operation_failed. steady. Qed.
Hint Resolve steady_operation_failed : steady.

Lemma steady_complete v m : steady m → steady (complete v m).
Proof. intros Hm. unfold complete. steady. Qed.

(** * Reading a request *)

Section decoding.
Context (remote : bool) (d : bytes).

Definition ready c : Prop := source_wf (c_from c) ∧ fixed_part c = (false, remote, d).

(** On an input that starts with [bs], [m] does what [m'] does once these bytes are
    read. *)
Definition decodes {A} (m : DM A) (bs : bytes) (m' : DM A) : Prop := ∀ c rest,
  ready c → remaining (c_from c) = bs ++ rest →
  ∃ f, source_wf f ∧ remaining f = rest ∧ m c = m' (set_from f c).

Lemma decodes_same {A} (m m' : DM A) : (∀ c, ready c → m c = m' c) → decodes m [] m'.
Proof. intros Hm c rest Hc Hr. exists (c_from c). rewrite set_from_id. split_and!; [apply Hc|done|by apply Hm]. Qed.

Lemma ready_set_from f c : ready c → source_wf f → ready (set_from f c).
Proof. intros [_ Hc] Hf. done. Qed.

Lemma ready_interrupted c : ready c → c_isInterrupted c = false.
Proof. intros [_ Hc]. unfold fixed_part in Hc. congruence. Qed.

Lemma recv_Ret {A} (m : FdSource → outcome (A * FdSource)) v f c :
  c_isInterrupted c = false → m (c_from c) = Ret (v, f) → recv m c = (Ret v, set_from f c).
Proof. intros Hc E. unfold recv. by rewrite Hc, E. Qed.

Lemma decodes_recv {A B} (m : FdSource → outcome (A * FdSource)) v bs bs' (k : A → DM B) m' :
  reads_as m v bs → decodes (k v) bs' m' → decodes (recv m ≫= k) (bs ++ bs') m'.
Proof.
  intros Hm Hk c rest Hc Hr. rewrite <-(assoc (++)) in Hr. destruct (Hm _ _ (proj1 Hc) Hr) as (f & E & Hf & Hr').
  destruct (Hk (set_from f c) rest) as (f' & Hf' & Hr'' & E'); [by apply ready_set_from|done|].
  exists f'. split_and!; [done|done|]. unfold mbind, SM_bind.
  by rewrite (recv_Ret m v f c (ready_interrupted c Hc) E), E', set_from_twice.
Qed.

Lemma decodes_last {A B} (m : FdSource → outcome (A * FdSource)) v bs (k : A → DM B) m' :
  reads_as m v bs → decodes (k v) [] m' → decodes (recv m ≫= k) bs m'.
Proof. intros Hm Hk. rewrite <-(app_nil_r bs). by eapply decodes_recv. Qed.

Lemma decodes_bind {A B} (m m' : DM A) bs (k : A → DM B) : decodes m bs m' → decodes (m ≫= k) bs (m' ≫= k).
Proof.
  intros Hm c rest Hc Hr. destruct (Hm c rest Hc Hr) as (f & Hf & Hr' & E). exists f. split_and!; [done|done|].
  unfold mbind, SM_bind. by rewrite E.
Qed.

Lemma decodes_catch {A} C (m m' : DM A) bs h : decodes m bs m' → decodes (catch C m h) bs (catch C m' h).
Proof.
  intros Hm c rest Hc Hr. destruct (Hm c rest Hc Hr) as (f & Hf & Hr' & E). exists f. split_and!; [done|done|].
  unfold catch. by rewrite E.
Qed.

Lemma decodes_assoc {A B C} (m : DM A) (k : A → DM B) (k' : B → DM C) bs m' :
  decodes (m ≫= λ a, k a ≫= k') bs m' → decodes ((m ≫= k) ≫= k') bs m'.
Proof.
  intros Hm c rest Hc Hr. destruct (Hm c rest Hc Hr) as (f & Hf & Hr' & E). exists f. split_and!; [done|done|].
  rewrite <-E. unfold mbind, SM_bind. by destruct (m c) as [[]].
Qed.

(** A step between two reads, one that does not fail. *)
Lemma decodes_step {A B} (s : DM A) (k k' : A → DM B) bs :
  steady s → (∀ c, ∃ x, (s c).1 = Ret x) → (∀ x, decodes (k x) bs (k' x)) → decodes (s ≫= k) bs (s ≫= k').
Proof.
  intros Hs Hret Hk c rest Hc Hr. destruct (Hret c) as [x Ex].
  pose proof (steady_from s c Hs (ready_interrupted c Hc)) as Hfrom.
  destruct (Hs c (c_from c) (ready_interrupted c Hc)) as (r & c1 & E1 & _ & Hf1).
  rewrite E1 in Ex, Hfrom. simpl in Ex, Hfrom. subst r.
  destruct (Hk x c1 rest) as (f & Hf & Hr' & E); [|by rewrite Hfrom|].
  { split; [rewrite Hfrom; apply Hc|]. rewrite Hf1. apply Hc. }
  exists f. split_and!; [done|done|]. destruct (Hs c f (ready_interrupted c Hc)) as (r & c2 & E2 & E3 & _).
  rewrite E1 in E2. injection E2 as <- <-. unfold mbind, SM_bind. by rewrite E1, E3.
Qed.

Lemma decodes_nixStore {A} (k : bytes → DM A) bs m' : decodes (k d) bs m' → decodes (nixStore ≫= k) bs m'.
Proof.
  intros Hk c rest Hc Hr. destruct (Hk c rest Hc Hr) as (f & Hf & Hr' & E). exists f. split_and!; [done|done|].
  rewrite <-E. unfold nixStore, setting, mbind, SM_bind, gets. destruct Hc as [_ Hc]. unfold fixed_part in Hc.
  by replace (Globals.s (c_settings c) Globals.nixStore) with d by congruence.
Qed.

(** ** Readers *)

Lemma reads_as_bool b : reads_as readInt (Z.b2z b) (wire (writeBool b)).
Proof. apply reads_as_int. destruct b; simpl; lia. Qed.

Lemma reads_as_strings ss : strings_ok ss → reads_as readStrings_set ss (wire (writeStrings ss)).
Proof.
  intros (Hwf & Hn & Hss). unfold readStrings_set. rewrite writeStrings_wire.
  eapply reads_as_bind; [apply reads_as_int; lia|]. rewrite Nat2Z.id.
  pose proof (reads_as_strings_loop set_insert ss [] Hss) as Hl.
  change (foldl _ [] ss) with (set_of_list ss) in Hl. by rewrite set_of_list_sorted in Hl.
Qed.

Lemma reads_as_store_path p : store_path_ok d p → reads_as (readStorePath d) p (wire (writeString p)).
Proof.
  intros [Hs Hp] s rest Hwf Hr. destruct (reads_as_string p Hs s rest Hwf Hr) as (s' & E & H').
  exists s'. unfold readStorePath, assertStorePath. rewrite E. cbn [mbind outcome_bind]. by rewrite Hp.
Qed.

Lemma reads_as_store_paths ss : store_paths_ok d ss → reads_as (readStorePaths d) ss (wire (writeStrings ss)).
Proof.
  intros [Hs Hp] s rest Hwf Hr. destruct (reads_as_strings ss Hs s rest Hwf Hr) as (s' & E & H').
  exists s'. split; [|done]. unfold readStorePaths. rewrite E. cbn [mbind outcome_bind].
  replace (foldM (λ _ path, assertStorePath d path) ss ()) with (Ret () : outcome ()); [done|].
  clear -Hp. induction Hp as [|p ss Hp Hss IH]; [done|]. cbn [foldM]. unfold assertStorePath in *. rewrite Hp. apply IH.
Qed.

Lemma decodes_store_path {A} p bs (k : bytes → DM A) m' :
  store_path_ok d p → decodes (k p) bs m' → decodes (recv_StorePath ≫= k) (wire (writeString p) ++ bs) m'.
Proof.
  intros Hp Hk. unfold recv_StorePath. apply decodes_assoc, decodes_nixStore.
  by eapply decodes_recv; [apply reads_as_store_path|].
Qed.

Lemma decodes_store_paths {A} ss bs (k : strset → DM A) m' :
  store_paths_ok d ss → decodes (k ss) bs m' → decodes (recv_StorePaths ≫= k) (wire (writeStrings ss) ++ bs) m'.
Proof.
  intros Hp Hk. unfold recv_StorePaths. apply decodes_assoc, decodes_nixStore.
  by eapply decodes_recv; [apply reads_as_store_paths|].
Qed.
End decoding.
End steady.
