(* ===== verification/DaemonRequests.v ===== *)
(** Each request is read back from its encoding and served; a list of requests
    is served in turn. *)

From S2P Require Import Prelude StateMonad Containers Serialise Hash Archive Paths StorePaths LocalDB Roots GC GoalState Settings DaemonState Daemon DaemonSpec DaemonSync.

(** * Archives that are read as they are saved *)

Section saving.
Context {S : Type} `{SourceLaws S} (total : bytes).

(** What was saved and what is left make up the stream. *)
#[local, refine] Instance SavingSource_laws : SourceLaws (SavingSource S) := {
  remaining s := remaining (sv_orig s);
  source_wf s := source_wf (sv_orig s) ∧ sv_s s ++ remaining (sv_orig s) = total
}.
Proof.
  - intros s n data s' [Hwf Hs] Hn E. unfold source_read, SavingSource_read in E.
    destruct (source_read n (sv_orig s)) as [[data' orig]| |] eqn:E'; simplify_eq/=.
    destruct (source_read_Ret _ _ _ _ Hwf Hn E') as (? & ? & Hr & ?). split_and!; [done..|].
    by rewrite <-(assoc (++)), <-Hr.
  - intros s n e [Hwf Hs] Hn E. unfold source_read, SavingSource_read in E.
    destruct (source_read n (sv_orig s)) as [[]| |] eqn:E'; simplify_eq/=. by eapply source_read_Throw.
  - intros s n [Hwf Hs] Hn. pose proof (source_read_total _ _ Hwf Hn).
    unfold source_read at 1, SavingSource_read. by destruct (source_read n (sv_orig s)) as [[]| |].
Defined.

Lemma parseDump_nar {S'} `{SourceLaws S'} t fuel (s : S') rest :
  nar_ok t → source_wf s → remaining s = wire (writeString archiveVersion1 ++ nar t) ++ rest →
  length (remaining s) <= fuel →
  ∃ s', parseDump fuel s = (events [] t, Ret ((), s')) ∧ source_wf s' ∧ remaining s' = rest.
Proof.
  intros Hok Hs Hr Hf. rewrite Hr in Hf. rewrite join_app, <-(assoc (++)) in Hr. rewrite join_app, !length_app in Hf.
  unfold parseDump. destruct (reads_as_string archiveVersion1 ltac:(done) s _ Hs Hr) as (s1 & -> & Hs1 & Hr1).
  rewrite decide_True by done. apply (parses_nar t fuel [] Hok ltac:(lia) s1 _ Hs1 Hr1).
Qed.
End saving.

Lemma reads_as_nar t : nar_ok t →
  reads_as read_nar (wire (writeString archiveVersion1 ++ nar t)) (wire (writeString archiveVersion1 ++ nar t)).
Proof.
  intros Hok s rest Hs Hr. unfold read_nar.
  destruct (parseDump_nar (H2 := SavingSource_laws (remaining s)) t (dump_fuel s) (mkSavingSource s []) rest Hok)
    as (s' & -> & [Hs' Hsv] & Hr'); [done|done|cbn; unfold dump_fuel; lia|].
  exists (sv_orig s'). cbn in *. rewrite Hr', Hr in Hsv. apply app_inv_tail in Hsv. by rewrite Hsv.
Qed.

(** ** The contents of regular files *)

Lemma retrieve_chunks chunks r :
  foldl retrieve_event r (receiveContents <$> chunks) = mkRetrieve (rr_regular r) (rr_s r ++ wire chunks).
Proof.
  revert r. induction chunks as [|data chunks IH]; intros r; cbn [foldl fmap list_fmap].
  - destruct r. by rewrite app_nil_r.
  - rewrite IH. cbn. by rewrite <-(assoc (++)).
Qed.

Lemma retrieve_not_regular tr r : rr_regular r = false → rr_regular (foldl retrieve_event r tr) = false.
Proof. revert r. induction tr as [|[] tr IH]; intros r Hr; cbn; auto. Qed.

Lemma retrieve_events t : nar_ok t →
  rr_regular (foldl retrieve_event (mkRetrieve true []) (events [] t)) = is_regular t ∧
  (is_regular t = true → rr_s (foldl retrieve_event (mkRetrieve true []) (events [] t)) = contents_of t).
Proof.
  destruct t as [x c|es|tgt|]; intros Hok.
  - cbn [events]. cbn [foldl]. rewrite foldl_app. unfold contents_events. cbn [foldl].
    rewrite retrieve_chunks, dumpContents_loop_wire by done. by destruct x.
  - rewrite events_Directory. cbn [foldl]. split; [by apply retrieve_not_regular|done].
  - done.
  - inversion Hok.
Qed.

Lemma reads_as_regular t : nar_ok t →
  reads_as read_regular (foldl retrieve_event (mkRetrieve true []) (events [] t))
    (wire (writeString archiveVersion1 ++ nar t)).
Proof.
  intros Hok s rest Hs Hr. unfold read_regular.
  destruct (parseDump_nar t (dump_fuel s) s rest Hok Hs Hr) as (s' & -> & Hs'); [unfold dump_fuel; cbn; lia|].
  by exists s'.
Qed.

(** * Requests *)

Section requests.
Context {W : Type} {net : Network} {msgs : Messages} {handler : StoreHandler W} {sys : DaemonSystem}.
Local Abbreviation DM := (SM (Conn W)).
Implicit Types (c : Conn W).
Context (remote : bool) (d : bytes).
Local Abbreviation decodes := (decodes remote d).

Lemma put_nil c : put [] c = (Ret (), c).
Proof. done. Qed.

Lemma put_app l l' c : put (l ++ l') c = (put l;; put l') c.
Proof. apply iter_app. Qed.

Lemma bind_ext {A B} (m : DM A) (k k' : A → DM B) c : (∀ a c, k a c = k' a c) → (m ≫= k) c = (m ≫= k') c.
Proof. intros Hk. unfold mbind, SM_bind. destruct (m c) as [[]]; [apply Hk|done..]. Qed.

Lemma SM_bind_assoc {A B C} (m : DM A) (k : A → DM B) (k' : B → DM C) c :
  ((m ≫= k) ≫= k') c = (m ≫= λ a, k a ≫= k') c.
Proof. unfold mbind, SM_bind. by destruct (m c) as [[]]. Qed.

Lemma put_all {A} (f : A → list bytes) l c : put (mjoin (f <$> l)) c = iter (λ a, put (f a)) l c.
Proof.
  revert c. induction l as [|a l IH]; intros c; [done|]. rewrite fmap_cons, mjoin_cons, put_app. cbn [iter].
  apply bind_ext. intros _. apply IH.
Qed.

Lemma iter_ext {A} (f g : A → DM ()) l c : (∀ a c, f a c = g a c) → iter f l c = iter g l c.
Proof.
  intros Hf. revert c. induction l as [|a l IH]; intros c; [done|]. cbn [iter]. unfold mbind, SM_bind. rewrite Hf.
  destruct (g a c) as [[[]| |] c']; [apply IH|done..].
Qed.

Lemma serve_ask {A} (m : DM A) (reply : A → list bytes) c :
  serve (ask m reply) c = (work m ≫= λ a, put (reply a)) c.
Proof. done. Qed.

Lemma serve_plain {A} (m : DM A) (reply : A → outcome (list bytes)) c :
  serve (mkPlan no_pre A m reply) c = (work m ≫= λ a, lift (reply a) ≫= put) c.
Proof. done. Qed.

(** The input is read as far as the code reads it one argument after the other. *)
Ltac reads :=
  match goal with
  | |- reads_as readString _ _ => by apply reads_as_string
  | |- reads_as readStrings_set _ _ => by apply reads_as_strings
  | |- reads_as readLongLong _ _ => by apply reads_as_longlong
  | |- reads_as readInt _ (mjoin (writeBool _)) => apply reads_as_bool
  | |- reads_as readInt _ _ => apply reads_as_int; cbn; lia
  end.
Ltac arguments := cbn [encode_args]; rewrite ?join_app, <-?(assoc (++)).
Ltac read_all := repeat (
  match goal with
  | |- decodes (recv_StorePath ≫= _) _ _ => apply decodes_store_path; [done|]
  | |- decodes (recv_StorePaths ≫= _) _ _ => apply decodes_store_paths; [done|]
  | |- decodes (recv _ ≫= _) (_ ++ _) _ => eapply decodes_recv; [reads|]
  | |- decodes (recv _ ≫= _) _ _ => eapply decodes_last; [reads|]
  end).
Ltac answered := apply decodes_same; intros c Hc; cbn [plan_of]; unfold ask_one; rewrite ?serve_ask; reflexivity.

#[local] Opaque work store_call put tunnel_export tunnel_import startWork stopWork recv recv_StorePath recv_StorePaths.

(** [mret () ≫= k] *)
Ltac after_ret := match goal with |- (_ ≫= ?k) ?c = ?rhs => change (k () c = rhs) end.

Section performOp.
Context (trusted : bool) (clientVersion : Z).
Let minor := GET_PROTOCOL_MINOR clientVersion.

Definition reads_request (m : DM ()) (r : request) : Prop :=
  decodes m (wire (encode_args minor r)) (serve (plan_of trusted minor r)).

Lemma reads_request_intro m r :
  decodes m (wire (encode_args minor r) ++ []) (serve (plan_of trusted minor r)) → reads_request m r.
Proof. by rewrite app_nil_r. Qed.

(** ** One path or one set of paths *)

Lemma decodes_QueryPathSet r path :
  request_ok d remote r →
  (r = rqQueryReferences path ∨ r = rqQueryReferrers path ∨ r = rqQueryValidDerivers path ∨
   r = rqQueryDerivationOutputs path) →
  reads_request (do_QueryPathSet (opcode r)) r.
Proof. intros Hok [-> |[-> |[-> | ->]]]; apply reads_request_intro; arguments; unfold do_QueryPathSet; read_all; answered. Qed.

Lemma decodes_simple r m :
  request_ok d remote r →
  match r with
  | rqIsValidPath _ => m = do_IsValidPath
  | rqQueryValidPaths _ => m = do_QueryValidPaths
  | rqHasSubstitutes _ => m = do_HasSubstitutes
  | rqQuerySubstitutablePaths _ => m = do_QuerySubstitutablePaths
  | rqQueryDerivationOutputNames _ => m = do_QueryDerivationOutputNames
  | rqQueryDeriver _ => m = do_QueryDeriver
  | rqQueryPathFromHashPart _ => m = do_QueryPathFromHashPart
  | rqAddTextToStore _ _ _ => m = do_AddTextToStore
  | rqImportPaths => m = do_ImportPaths
  | rqEnsurePath _ => m = do_EnsurePath
  | rqAddTempRoot _ => m = do_AddTempRoot
  | rqSyncWithGC => m = do_SyncWithGC
  | rqQueryAllValidPaths => m = do_QueryAllValidPaths
  | rqQueryFailedPaths => m = do_QueryFailedPaths
  | rqClearFailedPaths _ => m = do_ClearFailedPaths
  | rqOptimiseStore => m = do_OptimiseStore
  | rqBuiltinBuilders => m = do_BuiltinBuilders
  | rqSubstituteURLs => m = do_SubstituteURLs
  | _ => False
  end → reads_request m r.
Proof.
  destruct r; intros Hok Hm; try done; subst m; cbn [request_ok] in Hok; destruct_and?; apply reads_request_intro; arguments;
    unfold do_IsValidPath, do_QueryValidPaths, do_HasSubstitutes, do_QuerySubstitutablePaths,
      do_QueryDerivationOutputNames, do_QueryDeriver, do_QueryPathFromHashPart, do_AddTextToStore, do_ImportPaths,
      do_EnsurePath, do_AddTempRoot, do_SyncWithGC, do_QueryAllValidPaths, do_QueryFailedPaths, do_ClearFailedPaths,
      do_OptimiseStore, do_BuiltinBuilders, do_SubstituteURLs; read_all; answered.
Qed.

Lemma decodes_QueryPathHash path :
  store_path_ok d path → reads_request do_QueryPathHash (rqQueryPathHash path).
Proof.
  intros Hok. apply reads_request_intro. arguments. unfold do_QueryPathHash. read_all.
  apply decodes_same. intros c Hc. cbn [plan_of]. rewrite serve_plain. apply bind_ext. intros hash c'.
  unfold mbind, SM_bind, lift. by destruct (printHash hash).
Qed.

Lemma decodes_QueryPathInfo path :
  store_path_ok d path → reads_request do_QueryPathInfo (rqQueryPathInfo path).
Proof.
  intros Hok. apply reads_request_intro. arguments. unfold do_QueryPathInfo. read_all.
  apply decodes_same. intros c Hc. cbn [plan_of]. rewrite serve_plain. apply bind_ext. intros info c'.
  unfold write_PathInfo. unfold lift, mbind at 1 6, SM_bind at 1 6. destruct (printHash (vp_hash info)) as [hash| |]; [|done..].
  cbn [mbind outcome_bind]. rewrite put_app. apply bind_ext. intros _ c1. rewrite put_app. apply bind_ext. intros _ c2.
  rewrite put_app. apply bind_ext. intros _ c3. by rewrite put_app.
Qed.

Lemma b2z_one b : bool_decide (Z.b2z b = 1%Z) = b.
Proof. by destruct b. Qed.
Lemma b2z_nonzero b : nonzero (Z.b2z b) = b.
Proof. by destruct b. Qed.

Lemma decodes_ExportPath path sign :
  store_path_ok d path → reads_request do_ExportPath (rqExportPath path sign).
Proof.
  intros Hok. apply reads_request_intro. arguments. unfold do_ExportPath. read_all. rewrite b2z_one. answered.
Qed.

Lemma decodes_VerifyStore checkContents repair :
  reads_request (do_VerifyStore trusted) (rqVerifyStore checkContents repair).
Proof. apply reads_request_intro. arguments. unfold do_VerifyStore. read_all. rewrite !b2z_nonzero. answered. Qed.

Lemma decodes_AddToStore baseName fixed recursive hashAlgo t :
  short baseName → short hashAlgo → nar_ok t →
  reads_request do_AddToStore (rqAddToStore baseName fixed recursive hashAlgo t).
Proof.
  intros Hn Ha Hok. apply reads_request_intro. cbn [encode_args].
  rewrite (join_app (writeString baseName)), (join_app (writeBool fixed)), (join_app (writeBool recursive)),
    (join_app (writeString hashAlgo)), <-!(assoc (++)).
  unfold do_AddToStore. read_all. rewrite !b2z_one, app_nil_r.
  replace (if fixed then recursive else true) with (negb fixed || recursive) by (by destruct fixed).
  destruct (negb fixed || recursive) eqn:Er.
  - apply decodes_assoc. eapply decodes_last; [by apply reads_as_nar|]. apply decodes_same. intros c Hc.
    cbn [plan_of]. rewrite Er, serve_ask. by destruct fixed.
  - apply decodes_assoc. eapply decodes_last; [by apply reads_as_regular|]. apply decodes_same. intros c Hc.
    cbn [plan_of]. rewrite Er, serve_ask. destruct (retrieve_events t Hok) as [-> Hc'].
    destruct fixed; [|done]. destruct (is_regular t); [|reflexivity]. rewrite Hc' by done. reflexivity.
Qed.

Lemma decodes_BuildPaths drvs mode :
  store_paths_ok d drvs → reads_request (do_BuildPaths trusted clientVersion) (rqBuildPaths drvs mode).
Proof.
  intros Hok. apply reads_request_intro. arguments. unfold do_BuildPaths. fold minor. read_all.
  destruct (bool_decide (15 <= minor)%Z) eqn:Em; cbn [write_if].
  - rewrite app_nil_r. apply decodes_assoc. eapply decodes_last; [apply reads_as_int; destruct mode; cbn; lia|].
    replace (to_BuildMode (mode_number mode)) with (Ret mode) by (by destruct mode).
    apply decodes_same. intros c Hc. cbn [plan_of]. rewrite Em. unfold serve. cbn [pl_pre pl_work pl_reply].
    unfold mbind, SM_bind, lift. by destruct (check _ _).
  - apply decodes_same. intros c Hc. cbn [plan_of]. rewrite Em. reflexivity.
Qed.

Lemma decodes_AddIndirectRoot s : short s → reads_request do_AddIndirectRoot (rqAddIndirectRoot s).
Proof.
  intros Hok. apply reads_request_intro. arguments. unfold do_AddIndirectRoot. read_all. apply decodes_same. intros c Hc.
  unfold serve. cbn [plan_of pl_pre pl_work pl_reply]. unfold lift. unfold mbind at 1 3 4, SM_bind at 1 3 4.
  by destruct (absPath getcwd s []).
Qed.

Lemma decodes_FindRoots : reads_request do_FindRoots rqFindRoots.
Proof.
  apply reads_request_intro. arguments. unfold do_FindRoots. apply decodes_same. intros c Hc. cbn [plan_of].
  rewrite serve_ask. apply bind_ext. intros roots c1. rewrite put_app. apply bind_ext. intros _ c2. rewrite put_all.
  apply iter_ext. intros i c3. by rewrite put_app.
Qed.

Lemma put_info_eq i narSize c : put_info i narSize c = put (write_info i narSize) c.
Proof.
  unfold put_info, write_info. rewrite put_app. apply bind_ext. intros _ c1. rewrite put_app. apply bind_ext. intros _ c2.
  rewrite put_app. apply bind_ext. intros _ c3. by destruct narSize.
Qed.

Lemma decodes_QuerySubstitutablePathInfos paths :
  store_paths_ok d paths → reads_request do_QuerySubstitutablePathInfos (rqQuerySubstitutablePathInfos paths).
Proof.
  intros Hok. apply reads_request_intro. arguments. unfold do_QuerySubstitutablePathInfos. read_all. apply decodes_same.
  intros c Hc. cbn [plan_of]. rewrite serve_ask. apply bind_ext. intros infos c1. rewrite put_app. apply bind_ext.
  intros _ c2. rewrite put_all. apply iter_ext. intros i c3. rewrite put_app. apply bind_ext. intros _. apply put_info_eq.
Qed.

Lemma decodes_QuerySubstitutablePathInfo s :
  short s → reads_request (do_QuerySubstitutablePathInfo clientVersion) (rqQuerySubstitutablePathInfo s).
Proof.
  intros Hok. apply reads_request_intro. arguments. unfold do_QuerySubstitutablePathInfo. read_all. apply decodes_same.
  intros c Hc. unfold serve. cbn [plan_of pl_pre pl_work pl_reply].
  destruct (absPath getcwd s []) as [path| |]; [|done..].
  Transparent work. unfold work. Opaque work.
  unfold mbind, SM_bind, lift, mret, SM_ret. destruct (startWork c) as [[[]| |] c1]; [|done..].
  destruct (store_call _ c1) as [[infos| |] c2]; [|done..]. destruct (stopWork c2) as [[[]| |] c3]; [|done..].
  destruct (map_find path infos) as [i|]; [|done]. rewrite put_app. apply bind_ext. intros _. apply put_info_eq.
Qed.

(** ** Garbage collection and options *)

Lemma decodes_isRemote {A} (k : bool → DM A) bs m' :
  decodes (k remote) bs m' → decodes (gets (λ c, Ret (c_isRemote c)) ≫= k) bs m'.
Proof.
  intros Hk c rest Hc Hr. destruct (Hk c rest Hc Hr) as (f & Hf & Hr' & E). exists f. split_and!; [done|done|].
  rewrite <-E. unfold mbind, SM_bind, gets. destruct Hc as [_ Hc]. unfold fixed_part in Hc.
  by replace (c_isRemote c) with remote by congruence.
Qed.

Lemma decodes_CollectGarbage action paths ignoreLiveness maxFreed :
  remote = false → store_paths_ok d paths → (0 <= maxFreed < 2 ^ 64)%Z →
  reads_request (do_CollectGarbage clientVersion) (rqCollectGarbage action paths ignoreLiveness maxFreed).
Proof.
  intros Hrem Hok Hmax. apply reads_request_intro. cbn [encode_args].
  rewrite (join_app (writeInt (action_number action))), !join_app, <-!(assoc (++)).
  unfold do_CollectGarbage. fold minor. apply decodes_isRemote. rewrite Hrem at 2.
  eapply decodes_recv; [apply reads_as_int; destruct action; cbn; lia|].
  replace (to_GCAction (action_number action)) with (Ret action) by (by destruct action).
  change (lift (Ret action) ≫= ?k) with (k action). cbv beta. read_all.
  destruct (bool_decide (5 <= minor)%Z); cbn [write_if when].
  - rewrite join_app, <-(assoc (++)). apply decodes_assoc. read_all. apply decodes_assoc. read_all.
    rewrite !b2z_nonzero. apply decodes_same. intros c Hc. cbn [plan_of]. rewrite serve_ask. after_ret.
    apply bind_ext. intros results c1. rewrite put_app. apply bind_ext. intros _ c2. by rewrite put_app.
  - rewrite !b2z_nonzero. apply decodes_same. intros c Hc. cbn [plan_of]. rewrite serve_ask. after_ret.
    apply bind_ext. intros results c1. rewrite put_app. apply bind_ext. intros _ c2. by rewrite put_app.
Qed.

Lemma decodes_assoc_r {A B C} (m : DM C) bs (m1 : DM A) (k : A → DM B) (k' : B → DM C) :
  decodes m bs (m1 ≫= λ a, k a ≫= k') → decodes m bs ((m1 ≫= k) ≫= k').
Proof.
  intros Hm c rest Hc Hr. destruct (Hm c rest Hc Hr) as (f & Hf & Hr' & E). exists f. split_and!; [done|done|].
  by rewrite SM_bind_assoc.
Qed.

(** A part of a request: [m] reads the chunks [G] and does what [m'] does. *)
Definition reads_part (m : DM ()) (G : list bytes) (m' : DM ()) : Prop := ∀ (k k' : () → DM ()) bs,
  decodes (k ()) bs (k' ()) → decodes (m ≫= k) (wire G ++ bs) (m' ≫= k').

Lemma decodes_assign (s : DM ()) (k k' : () → DM ()) bs :
  steady s → (∀ c, (s c).1 = Ret ()) → decodes (k ()) bs (k' ()) → decodes (s ≫= k) bs (s ≫= k').
Proof. intros Hs Hret Hk. apply decodes_step; [done|intros c; by exists ()|by intros []]. Qed.

Lemma part_step (s : DM ()) : steady s → (∀ c, (s c).1 = Ret ()) → reads_part s [] s.
Proof. intros Hs Hret k k' bs Hk. by apply decodes_assign. Qed.

Lemma part_seq m1 m2 G1 G2 m1' m2' :
  reads_part m1 G1 m1' → reads_part m2 G2 m2' → reads_part (m1;; m2) (G1 ++ G2) (m1';; m2').
Proof.
  intros H1 H2 k k' bs Hk. rewrite join_app, <-(assoc (++)). apply decodes_assoc, decodes_assoc_r. by apply H1, H2.
Qed.

Lemma part_read (g : Z → DM ()) n G m' :
  word n → reads_part (g n) G m' → reads_part (recv readInt ≫= g) (writeInt n ++ G) m'.
Proof.
  intros Hn Hg k k' bs Hk. rewrite join_app, <-(assoc (++)). apply decodes_assoc.
  eapply decodes_recv; [by apply reads_as_int|]. by apply Hg.
Qed.

Lemma part_when b m G m' : reads_part m G m' → reads_part (when b m) (write_if b G) (when b m').
Proof. intros Hm. destruct b; [done|]. by intros k k' bs Hk. Qed.

(** A number that is assigned to a setting. *)
Lemma part_assign (g : Z → DM ()) n :
  word n → steady (g n) → (∀ c, (g n c).1 = Ret ()) → reads_part (recv readInt ≫= g) (writeInt n) (g n).
Proof. intros Hn Hs Hret. rewrite <-(app_nil_r (writeInt n)). apply part_read; [done|by apply part_step]. Qed.

Lemma part_flag m n : word n →
  reads_part (set_flag m) (writeInt n) (set_setting (Globals.set_b m (nonzero n))).
Proof. intros Hn. apply (part_assign (λ n, set_setting (Globals.set_b m (nonzero n)))); [done|by apply steady_set|done]. Qed.

Lemma part_number name n : word n →
  reads_part (set_number name) (writeInt n) (set_setting (Globals.set name (to_string n))).
Proof. intros Hn. apply (part_assign (λ n, set_setting (Globals.set name (to_string n)))); [done|by apply steady_set|done]. Qed.

Lemma steady_set_option o : o.1 ≠ str "user-name" → steady (set_option trusted o.1 o.2) ∧
  ∀ c, (set_option trusted o.1 o.2 c).1 = Ret ().
Proof.
  intros Ho. unfold set_option. rewrite (bool_decide_eq_false_2 _ Ho). cbn [andb]. split.
  - apply steady_bind; [apply steady_setting|intros uid]. case_decide; by apply steady_set.
  - intros c. unfold mbind, SM_bind, setting, gets. by case_decide.
Qed.

Lemma part_named l : Forall (λ o, short o.1 ∧ short o.2 ∧ o.1 ≠ str "user-name") l →
  reads_part (set_options trusted (length l)) (mjoin ((λ o, writeString o.1 ++ writeString o.2) <$> l))
    (iter (λ o, set_option trusted o.1 o.2) l).
Proof.
  induction 1 as [|o l (H1 & H2 & H3) _ IH]; [by intros k k' bs Hk|]. intros k k' bs Hk.
  rewrite fmap_cons, mjoin_cons, !join_app, <-!(assoc (++)). cbn [length set_options iter].
  apply decodes_assoc. eapply decodes_recv; [by apply reads_as_string|].
  apply decodes_assoc. eapply decodes_recv; [by apply reads_as_string|].
  destruct (steady_set_option o H3) as [Hs Hret].
  apply (part_seq _ _ [] _ _ _ (part_step _ Hs Hret) IH); [done].
Qed.

Lemma decodes_SetOptions o :
  options_ok o → reads_request (do_SetOptions trusted clientVersion) (rqSetOptions o).
Proof.
  intros []. apply reads_request_intro. cbn [encode_args]. unfold encode_options, serve.
  cbn [plan_of pl_pre pl_work pl_reply].
  rewrite !join_app, <-!(assoc (++)). unfold do_SetOptions, apply_options. fold minor.
  apply decodes_assoc_r, part_flag; [done|].
  apply decodes_assoc_r, decodes_step; [apply steady_gets; by intros []|intros c; by eexists|intros rem].
  apply decodes_assoc_r, decodes_assign; [apply steady_when; by apply steady_set|by destruct rem|].
  apply decodes_assoc_r, part_flag; [done|].
  eapply decodes_recv; [by apply reads_as_int|]. apply decodes_assoc_r, decodes_assign; [by apply steady_set|done|].
  eapply decodes_recv; [by apply reads_as_int|]. apply decodes_assoc_r, decodes_assign; [apply steady_modify; by intros []|done|].
  apply decodes_assoc_r, part_when; [apply part_seq; by apply part_number|].
  apply decodes_assoc_r, part_when.
  { destruct HAVE_DAEMON_OFFLOAD_HOOK; [by apply part_flag|].
    apply (part_assign (λ _, mret ())); [done|apply steady_ret|done]. }
  apply decodes_assoc_r, part_when.
  { apply part_read; [done|]. apply (part_seq _ _ []); [apply part_step; [by apply steady_set|done]|].
    apply part_read; [done|]. apply (part_seq _ _ []); [apply part_step; [apply steady_modify; by intros []|done]|].
    by apply part_flag. }
  apply decodes_assoc_r, part_when; [by apply part_number|].
  apply decodes_assoc_r, part_when.
  { intros k k' bs Hk. apply decodes_assoc, decodes_assoc_r.
    apply decodes_step; [apply steady_setting|intros c; by eexists|intros use].
    apply decodes_assoc. eapply decodes_recv; [by apply reads_as_int|].
    apply decodes_assign; [apply steady_when; by apply steady_set|by destruct use|done]. }
  apply decodes_assoc_r, part_when.
  { apply part_read; [split; [lia|done]|]. rewrite Nat2Z.id. by apply part_named. }
  apply decodes_same. intros c Hc. apply bind_ext. intros [] c1. symmetry.
  etransitivity; [apply (bind_ext _ _ (λ _, mret ())); intros [] c2; apply put_nil|].
  unfold mbind, SM_bind. by destruct (work _ c1) as [[[]| |]].
Qed.

(** ** All requests *)

Lemma performOp_reads r : request_ok d remote r → reads_request (performOp trusted clientVersion (opcode r)) r.
Proof.
  intros Hok. destruct r.
  all: try (by eapply (decodes_simple _ _ Hok); reflexivity).
  - by apply decodes_QueryPathHash.
  - by eapply (decodes_QueryPathSet (rqQueryReferences path) path Hok); tauto.
  - by eapply (decodes_QueryPathSet (rqQueryReferrers path) path Hok); tauto.
  - by eapply (decodes_QueryPathSet (rqQueryValidDerivers path) path Hok); tauto.
  - by eapply (decodes_QueryPathSet (rqQueryDerivationOutputs path) path Hok); tauto.
  - destruct Hok as (? & ? & ?). by apply decodes_AddToStore.
  - by apply decodes_ExportPath.
  - by apply decodes_BuildPaths.
  - by apply decodes_AddIndirectRoot.
  - apply decodes_FindRoots.
  - destruct Hok as (? & ? & ?). by apply decodes_CollectGarbage.
  - by apply decodes_SetOptions.
  - by apply decodes_QuerySubstitutablePathInfo.
  - by apply decodes_QuerySubstitutablePathInfos.
  - by apply decodes_QueryPathInfo.
  - apply decodes_VerifyStore.
Qed.

Lemma opcode_word r : word (opcode r).
Proof. destruct r; cbv; split; (discriminate || done). Qed.
End performOp.
End requests.
