(* ===== verification/DaemonExamples.v ===== *)
(** Connections to a daemon with a small store: a world is the set of valid
    paths. *)

From S2P Require Import Prelude StateMonad Containers Serialise Hash Archive Paths StorePaths LocalDB Roots GC GoalState Settings DaemonState Daemon DaemonSpec.

Definition toy_dir : bytes := str "/s".
Definition sp (name : String.string) : bytes := toy_dir ++ str "/" ++ str name.

Definition toy_serve : StoreHandler strset := λ io A op w,
  match op in store_op io A return session io strset A with
  | opOpenStore _ | opCreateUser _ _ | opSetAffinity _ | opEnsurePath _ => Done (Ret ()) w
  | opIsValidPath path => Log (str "looking") (λ _, Done (Ret (set_mem path w)) w)
  | opQueryAllValidPaths => Done (Ret w) w
  | opAddTextToStore suffix _ _ => let p := toy_dir ++ str "/" ++ suffix in Done (Ret p) (set_insert p w)
  | opBuildPaths drvs mode =>
      if decide (mode = bmRepair) then Done (Ret ()) [] else Done (Ret ()) (foldr set_insert w drvs)
  | opVerifyStore _ repair => if repair then Done (Ret false) [] else Done (Ret true) w
  | opCollectGarbage options => Done (Ret (mkGCResults w 0)) []
  | opExportPath path _ => Io _ (SinkCall path) (λ _, Signal (CheckInterrupt (λ r, Done r w)))
  | opImportPaths _ => Io _ (SourceRead 8) (λ r, Done (data ← r; Ret [data]) w)
  | opQueryPathInfo path => Done (Ret (mkValidPathInfo path [] Hash_default [] 1 8 1)) w
  | _ => Done (Throw (Error "not in this store")) w
  end.
#[global] Existing Instance toy_serve.

(** A client that is silent and takes what it is sent. *)
Definition toy_network : Network := {|
  net_readable _ := false;
  net_read_error _ := None;
  net_write_error _ := None
|}.

#[global] Instance toy_messages : Messages := {| exn_msg _ := str "failed"; exn_status _ := 1%Z |}.

#[global] Instance toy_system : DaemonSystem := {|
  getpwnam name := if decide (name = str "alice") then Some 1000%Z else None;
  getpwuid uid := if decide (uid = 1000%Z) then Some (str "alice") else None;
  getcwd := Ret (str "/");
  builtinBuilderNames := [str "download"];
  HAVE_DAEMON_OFFLOAD_HOOK := true
|}.

#[global] Instance toy_configuration : Globals.Configuration := {|
  Globals.getenv _ := None;
  Globals.SYSTEM := str "x86_64-linux";
  Globals.NIX_STORE_DIR := toy_dir;
  Globals.NIX_LOG_DIR := str "/log";
  Globals.NIX_STATE_DIR := str "/state";
  Globals.GUIX_CONFIGURATION_DIRECTORY := str "/etc/guix";
  Globals.NIX_BIN_DIR := str "/bin"
|}.

Definition toy_settings_of : Globals.Settings :=
  (Globals.processEnvironment (Globals.set (str "build-users-group") (str "builders") (Globals.new_settings 0))).2.

Definition toy_conn (input : bytes) (w : strset) : Conn strset :=
  mkConn (fdsource_new defaultBufSize [input]) (sink_new defaultBufSize) [] false false false false false 0 []
    toy_settings_of 0 0 w.

Definition toy_version : Z := 0x164.
Definition toy_minor : Z := GET_PROTOCOL_MINOR toy_version.

Definition hello : bytes := wire (writeInt WORKER_MAGIC_1 ++ writeInt toy_version ++ writeInt 0 ++ writeInt 0).

Definition toy_run (net : Network) (p : peer) (rs : list request) (w : strset) : outcome () * Conn strset :=
  serve_peer (net := net) 100 p (toy_conn (hello ++ wire (mjoin (encode toy_minor <$> rs))) w).

(** What the client got, in words of eight bytes. *)
Definition received (c : Conn strset) : bytes := wire (c_sent c).

(** A local client asks whether a path is valid. *)
Example asks_for_a_path :
  let '(r, c) := toy_run toy_network (LocalPeer 1000 100) [rqIsValidPath (sp "x"); rqIsValidPath (sp "y")] [sp "x"] in
  r = Ret () ∧
  received c = wire (
    writeInt WORKER_MAGIC_2 ++ writeInt PROTOCOL_VERSION ++ writeInt STDERR_LAST ++
    writeInt STDERR_NEXT ++ writeString (str "looking") ++ writeInt STDERR_LAST ++ writeInt 1 ++
    writeInt STDERR_NEXT ++ writeString (str "looking") ++ writeInt STDERR_LAST ++ writeInt 0).
Proof. by vm_compute. Qed.

(** Errors of the store do not end the connection. *)
Example goes_on_after_errors :
  let '(r, c) := toy_run toy_network (LocalPeer 1000 100) [rqQueryReferences (sp "x"); rqQueryAllValidPaths] [sp "x"] in
  r = Ret () ∧
  received c = wire (
    writeInt WORKER_MAGIC_2 ++ writeInt PROTOCOL_VERSION ++ writeInt STDERR_LAST ++
    writeInt STDERR_ERROR ++ writeString (str "failed") ++ writeInt 1 ++
    writeInt STDERR_LAST ++ writeStrings [sp "x"]).
Proof. by vm_compute. Qed.

(** Repairing is refused, and the connection ends. *)
Example repairing_refused :
  let '(r, c) := toy_run toy_network (LocalPeer 1000 100) [rqBuildPaths [sp "x"] bmRepair; rqQueryAllValidPaths] [sp "x"] in
  r = Throw (Error "repairing is a privileged operation") ∧ c_world c = [sp "x"].
Proof. by vm_compute. Qed.

(** A client that hangs up: the third time the daemon looks, the end of the input
    is there. *)
Definition hangs_up : Network := {|
  net_readable k := bool_decide (k = 2);
  net_read_error _ := None;
  net_write_error _ := None
|}.

(** A client that hangs up while a path is exported: [Interrupted] is no [Error], the
    handler in [wopExportPath] does not flush the sink, and the assertion in the
    destructor of the sink ends the daemon's process. *)
Example export_interrupted_asserts :
  (toy_run hangs_up (LocalPeer 1000 100) [rqExportPath (sp "x") false] [sp "x"]).1 = Throw (AssertionFailed "!bufPos").
Proof. by vm_compute. Qed.
