(* ===== verification/DaemonTheorems.v ===== *)
(** What a client can rely on: its requests are understood one after the other. *)

From S2P Require Import Prelude StateMonad Containers Serialise Hash Archive Paths StorePaths LocalDB Roots GC GoalState Settings DaemonState Daemon DaemonSpec DaemonSync DaemonRequests DaemonExamples.

(** * The loop *)

Section loop.
Context {W : Type} {net : Network} {msgs : Messages} {handler : StoreHandler W} {sys : DaemonSystem}.
Implicit Types (c : Conn W).
Context (remote : bool) (d : bytes) (trusted : bool) (clientVersion : Z).
Let minor := GET_PROTOCOL_MINOR clientVersion.

(** A connection, what is left of its input forgotten. *)
Definition forget c : Conn W := set_from (fdsource_new 0 []) c.

Lemma next_op_end c : ready remote d c → remaining (c_from c) = [] → next_op c = (Ret None, c).
Proof.
  intros Hc Hr. unfold next_op, catch, mbind, SM_bind, recv. rewrite (ready_interrupted _ _ c Hc).
  unfold readInt. destruct (source_call_eof 8 (c_from c)) as [m ->]; [apply Hc|rewrite Hr; cbn; lia|]. done.
Qed.

Lemma decodes_operation r : request_ok d remote r →
  decodes remote d (operation trusted clientVersion (opcode r)) (wire (encode_args minor r))
    (complete clientVersion (serve (plan_of trusted minor r))).
Proof. intros Hok. apply decodes_bind, decodes_catch. by apply performOp_reads. Qed.

Lemma decodes_turn r fuel c rest : request_ok d remote r →
  ready remote d c → remaining (c_from c) = wire (encode minor r) ++ rest →
  ∃ f, source_wf f ∧ remaining f = rest ∧
    process_requests trusted clientVersion (S fuel) c =
      (complete clientVersion (serve (plan_of trusted minor r));; process_requests trusted clientVersion fuel) (set_from f c).
Proof.
  intros Hok Hc Hr. unfold encode in Hr. rewrite join_app, <-(assoc (++)) in Hr.
  assert (decodes remote d (next_op ≫= λ op, match op with
      | None => mret ()
      | Some op => operation trusted clientVersion op;; process_requests trusted clientVersion fuel end)
    (wire (writeInt (opcode r)) ++ wire (encode_args minor r))
    (complete clientVersion (serve (plan_of trusted minor r));; process_requests trusted clientVersion fuel)) as Hdec.
  { intros c0 rest0 Hc0 Hr0. rewrite <-(assoc (++)) in Hr0.
    destruct (reads_as_int _ (opcode_word r) (c_from c0) _ (proj1 Hc0) Hr0) as (f & E & Hf & Hrf).
    destruct (decodes_bind _ _ _ _ _ (λ _, process_requests trusted clientVersion fuel) (decodes_operation r Hok)
      (set_from f c0) rest0) as (f' & Hf' & Hr' & E'); [by apply ready_set_from|done|].
    exists f'. split_and!; [done|done|]. rewrite set_from_twice in E'. rewrite <-E'.
    unfold next_op, mbind at 1, SM_bind at 1, catch, mbind at 1, SM_bind at 1.
    by rewrite (recv_Ret readInt (opcode r) f c0 (ready_interrupted _ _ c0 Hc0) E). }
  apply (Hdec c rest Hc). by rewrite <-(assoc (++)).
Qed.

(** Equal results, and equal connections up to the input. *)
Definition same_run {A} (x y : outcome A * Conn W) : Prop := x.1 = y.1 ∧ forget x.2 = forget y.2.

Lemma steady_forget {A} (m : SM (Conn W) A) f c :
  steady m → c_isInterrupted c = false → same_run (m (set_from f c)) (m c).
Proof. intros Hm Hc. destruct (Hm c f Hc) as (r & c' & E1 & E2 & _). by rewrite E1, E2. Qed.

Lemma requests_served (Hsilent : silent) rs fuel c :
  Forall (request_ok d remote) rs → rqImportPaths ∉ rs → length rs < fuel →
  ready remote d c → remaining (c_from c) = wire (mjoin (encode minor <$> rs)) →
  same_run (process_requests trusted clientVersion fuel c) (serve_all trusted clientVersion rs c).
Proof.
  intros Hok. revert fuel c. induction Hok as [|r rs Hr Hrs IH]; intros [|fuel] c Hni Hf Hc Hrem; [cbn in Hf; lia|..|cbn in Hf; lia|].
  - cbn [process_requests]. unfold mbind, SM_bind. by rewrite next_op_end.
  - rewrite fmap_cons, mjoin_cons, join_app in Hrem. apply not_elem_of_cons in Hni as [Hni Hnis].
    destruct (decodes_turn r fuel c _ Hr Hc Hrem) as (f & Hf1 & Hf2 & ->).
    pose proof (steady_complete clientVersion _ (steady_serve Hsilent trusted minor r (not_eq_sym Hni))) as Hst.
    destruct (Hst c f (ready_interrupted _ _ c Hc)) as (res & c1 & E1 & E2 & Hfix).
    unfold serve_all. cbn [iter]. fold minor. unfold mbind at 1 2, SM_bind at 1 2. rewrite E1, E2.
    destruct res as [[]|e|]; [|done..]. assert (ready remote d (set_from f c1)) as Hc1.
    { split; [done|]. change (fixed_part c1 = (false, remote, d)). rewrite Hfix. apply Hc. }
    destruct (IH fuel (set_from f c1) Hnis ltac:(cbn in Hf; lia) Hc1 Hf2) as [H1 H2].
    assert (steady (serve_all trusted clientVersion rs)) as Hall.
    { clear -Hsilent Hnis. unfold serve_all. induction rs as [|r rs IH]; [apply steady_ret|].
      apply not_elem_of_cons in Hnis as [Hn Hns]. apply steady_bind; [|intros _; by apply IH].
      apply steady_complete, steady_serve; [done|congruence]. }
    destruct (steady_forget _ f c1 Hall) as [H3 H4]; [apply (ready_interrupted _ _ _ Hc1)|].
    split; etransitivity; [exact H1|exact H3|exact H2|exact H4].
Qed.
End loop.


Definition sample_options : options := mkOptions 0 1 0 3 4 600 1 0 2 0 2 1 [(str "build-timeout", str "60"); (str "discover", str "true")].

Definition sample_requests : list request :=
  [rqSetOptions sample_options; rqIsValidPath (sp "x"); rqQueryReferences (sp "x");
   rqAddTextToStore (str "y") (str "text") [sp "x"]; rqBuildPaths [sp "x"; sp "y"] bmCheck;
   rqAddToStore (str "z") true false (str "sha256") (Regular false (str "contents"))].

Lemma sample_requests_ok : Forall (request_ok toy_dir false) sample_requests.
Proof.
  assert (Forall (λ p, isStorePath toy_dir p = true) [sp "x"; sp "y"]) by (by repeat constructor).
  repeat (apply Forall_cons; split); [| | | | | |by apply Forall_nil].
  - assert (∀ n, bool_decide (0 <= n < 2 ^ 32)%Z = true → word n) as Hword by (intros n; apply bool_decide_eq_true).
    constructor; try (apply Hword; reflexivity).
    repeat (apply Forall_cons; split); [..|by apply Forall_nil]; (split_and!; [reflexivity|reflexivity|discriminate]).
  - by vm_compute.
  - split; by vm_compute.
  - split_and!; [by vm_compute|by vm_compute|]. split; [|by repeat constructor]. split_and!; [repeat constructor|by vm_compute|by repeat constructor].
  - split; [|done]. split_and!; [repeat constructor|by vm_compute|by repeat constructor].
  - split_and!; [by vm_compute|by vm_compute|constructor; by vm_compute].
Qed.

Lemma toy_remaining input w : remaining (c_from (toy_conn input w)) = input.
Proof. unfold remaining, FdSource_laws, fdsource_remaining, toy_conn, fdsource_new. simpl. apply app_nil_r. Qed.

Lemma toy_wf input w : input ≠ [] → source_wf (c_from (toy_conn input w)).
Proof. intros Hi. split_and!; [apply Nat.ltb_lt; by vm_compute|by repeat constructor|by left]. Qed.

