(* ===== verification/DaemonPrivileges.v ===== *)
(** What a client cannot do: reach operations that need privileges, change the
    settings of the daemon, or pass arguments that were not checked.

    Two daemons are compared that differ in how they carry out the operations that
    the client is not permitted; nothing the client does can tell them apart. *)

From S2P Require Import Prelude StateMonad Containers Serialise Hash Archive Paths StorePaths LocalDB Roots GC GoalState Settings DaemonState Daemon DaemonSpec DaemonSync DaemonExamples.

(** * The operations a client is permitted *)

Definition permitted {sys : DaemonSystem} (d : bytes) (trusted remote : bool) {io A} (op : store_op io A) : bool :=
  match op with
  | opIsValidPath path | opQueryPathHash path | opQueryReferences path | opQueryReferrers path
  | opQueryValidDerivers path | opQueryDerivationOutputs path | opQueryDerivationOutputNames path
  | opQueryDeriver path | opExportPath path _ | opEnsurePath path | opAddTempRoot path | opQueryPathInfo path =>
      isStorePath d path
  | opQueryValidPaths paths | opQuerySubstitutablePaths paths | opAddTextToStore _ _ paths =>
      forallb (isStorePath d) paths
  | opBuildPaths drvs mode => forallb (isStorePath d) drvs && (trusted || negb (bool_decide (mode = bmRepair)))
  | opVerifyStore _ repair => trusted || negb repair
  | opCollectGarbage options =>
      negb remote && negb (ignoreLiveness options) && forallb (isStorePath d) (pathsToDelete options)
  | opImportPaths requireSignature => requireSignature
  | opCreateUser userName userId =>
      bool_decide (getpwnam (c_str userName) = Some userId) || bool_decide (getpwuid userId = Some userName)
  | _ => true
  end.

(** The names of settings that an untrusted client may assign. *)
Definition client_keys : list bytes :=
  public_settings ++ [str "build-fallback"; str "build-use-substitutes"].
Definition untrusted_prefix : bytes := str "untrusted-".
Definition assignable (trusted : bool) (name : bytes) : Prop :=
  trusted = true ∨ name ∈ client_keys ∨ ∃ rest, name = untrusted_prefix ++ rest.

Definition client_flags : list Globals.bool_member :=
  [Globals.keepFailed; Globals.keepGoing; Globals.useBuildHook; Globals.printBuildTrace].

(** * Comparing two daemons *)

Section privileges.
Context {W : Type} {net : Network} {msgs : Messages} {sys : DaemonSystem} (h1 h2 : StoreHandler W).
Context (d : bytes) (trusted remote : bool) (R : bool → Globals.Settings → Prop).
Local Abbreviation DM := (SM (Conn W)).
Implicit Types (c : Conn W).

(** What holds of the settings throughout the connection, and that it survives the
    assignments of [wopSetOptions]. *)
Record settings_invariant : Prop := {
  si_fixed r st : R r st → r = remote ∧ Globals.s st Globals.nixStore = d;
  si_flag r st m v : m ∈ client_flags → R r st → R r (Globals.set_b m v st);
  si_verbosity r st v : R r st → R r (Globals.set_z Globals.buildVerbosity v st);
  si_substitutes r st v :
    R r st → Globals.b st Globals.useSubstitutes = true → R r (Globals.set (str "build-use-substitutes") v st);
  si_set r st name v :
    R r st → assignable trusted name → name ≠ str "build-use-substitutes" ∨ trusted = true → R r (Globals.set name v st);
  si_update r st : R r st → R r (Globals.update st).2
}.
Context (HR : settings_invariant).
Context (Hagree : ∀ io A (op : store_op io A) w, permitted d trusted remote op = true →
  @serve_op W h1 io A op w = @serve_op W h2 io A op w).

Definition holds c : Prop := R (c_isRemote c) (c_settings c).

Definition keeps {A} (m : DM A) : Prop := ∀ c, holds c → holds (m c).2.

(** The two computations are the same, keep the invariant, and return a value with
    the property [Q]. *)
Definition agrees {A} (m1 m2 : DM A) (Q : A → Prop) : Prop := ∀ c, holds c →
  m1 c = m2 c ∧ holds (m1 c).2 ∧ ∀ a, (m1 c).1 = Ret a → Q a.

Definition any {A} : A → Prop := λ _, True.

(** ** Rules *)

Lemma keeps_same {A} (m : DM A) : (∀ c, c_isRemote (m c).2 = c_isRemote c ∧ c_settings (m c).2 = c_settings c) → keeps m.
Proof. intros Hm c Hc. destruct (Hm c) as [E1 E2]. unfold holds. by rewrite E1, E2. Qed.

Lemma keeps_bind {A B} (m : DM A) (k : A → DM B) : keeps m → (∀ a, keeps (k a)) → keeps (m ≫= k).
Proof.
  intros Hm Hk c Hc. specialize (Hm c Hc). unfold mbind, SM_bind.
  destruct (m c) as [[a|e|] c']; [by apply Hk|done..].
Qed.
Lemma keeps_catch {A} C (m : DM A) h : keeps m → (∀ e, keeps (h e)) → keeps (catch C m h).
Proof.
  intros Hm Hh c Hc. specialize (Hm c Hc). unfold catch. destruct (m c) as [[a|e|] c']; [done| |done].
  destruct (C e); [by apply Hh|done].
Qed.
Lemma keeps_reify {A} (m : DM A) : keeps m → keeps (reify m).
Proof.
  intros Hm c Hc. specialize (Hm c Hc). unfold reify. destruct (m c) as [[a|e|] c']; [done| |done].
  by destruct (is_exception e).
Qed.
Lemma keeps_ret {A} (a : A) : keeps (mret a).
Proof. by intros c Hc. Qed.
Lemma keeps_when b (m : DM ()) : keeps m → keeps (when b m).
Proof. destruct b; [done|]. intros _. apply keeps_ret. Qed.
Lemma keeps_iter {A} (body : A → DM ()) l : (∀ a, keeps (body a)) → keeps (iter body l).
Proof. intros Hb. induction l; [apply keeps_ret|]. by apply keeps_bind. Qed.
Lemma keeps_recv {A} (m : FdSource → outcome (A * FdSource)) : keeps (recv m).
Proof.
  apply keeps_same. intros c. unfold recv. destruct (c_isInterrupted c).
  - by destruct (m _) as [[]|[]|].
  - by destruct (m _) as [[]| |].
Qed.

Lemma agrees_refl {A} (m : DM A) : keeps m → agrees m m any.
Proof. intros Hm c Hc. split_and!; [done|by apply Hm|done]. Qed.

Lemma agrees_weaken {A} (m1 m2 : DM A) (Q Q' : A → Prop) : agrees m1 m2 Q → (∀ a, Q a → Q' a) → agrees m1 m2 Q'.
Proof. intros Hm HQ c Hc. destruct (Hm c Hc) as (? & ? & ?). split_and!; eauto. Qed.

Lemma agrees_any {A} (m1 m2 : DM A) Q : agrees m1 m2 Q → agrees m1 m2 any.
Proof. intros Hm. by eapply agrees_weaken. Qed.

Lemma agrees_bind {A B} (m1 m2 : DM A) (k1 k2 : A → DM B) Q Q' :
  agrees m1 m2 Q → (∀ a, Q a → agrees (k1 a) (k2 a) Q') → agrees (m1 ≫= k1) (m2 ≫= k2) Q'.
Proof.
  intros Hm Hk c Hc. destruct (Hm c Hc) as (E & H1 & H2). unfold mbind, SM_bind. rewrite <-E.
  destruct (m1 c) as [[a|e|] c']; [|done..]. cbn in *. by apply Hk, H1; apply H2.
Qed.

Lemma agrees_catch {A} C (m1 m2 : DM A) g1 g2 Q :
  agrees m1 m2 Q → (∀ e, agrees (g1 e) (g2 e) Q) → agrees (catch C m1 g1) (catch C m2 g2) Q.
Proof.
  intros Hm Hg c Hc. destruct (Hm c Hc) as (E & H1 & H2). unfold catch. rewrite <-E.
  destruct (m1 c) as [[a|e|] c']; [done| |done]. destruct (C e); [by apply Hg|done].
Qed.

Lemma agrees_when b (m1 m2 : DM ()) : agrees m1 m2 any → agrees (when b m1) (when b m2) any.
Proof. destruct b; [done|]. intros _. apply agrees_refl, keeps_ret. Qed.

Lemma agrees_check b e : agrees (lift (check b e)) (lift (check b e)) (λ _, b = true).
Proof. intros c Hc. by destruct b. Qed.

(** ** The connection *)

Ltac keeping := repeat (first
  [ solve [auto with nocore keeping]
  | (apply keeps_same; by intros [])
  | apply keeps_recv
  | (apply keeps_bind; [|intros ?])
  | (apply keeps_catch; [|intros ?])
  | apply keeps_reify | apply keeps_when | (apply keeps_iter; intros ?)
  | (match goal with |- keeps (if ?b then _ else _) => destruct b end)
  | (match goal with |- keeps (match ?b with _ => _ end) => destruct b end) ]).
Create HintDb keeping discriminated.

Lemma keeps_checkInterrupt : keeps checkInterrupt.
Proof. apply keeps_same. intros c. unfold checkInterrupt. by destruct (c_isInterrupted c). Qed.
Hint Resolve keeps_checkInterrupt : keeping.
Lemma keeps_put chunks : keeps (put chunks).
Proof. unfold put, to_call, socket_write. keeping. Qed.
Lemma keeps_flush : keeps to_flush.
Proof. unfold to_flush, socket_write. keeping. Qed.
Hint Resolve keeps_put keeps_flush : keeping.
Lemma keeps_tunnelStderr msg : keeps (tunnelStderr msg).
Proof. unfold tunnelStderr. keeping. Qed.
Hint Resolve keeps_tunnelStderr : keeping.
Lemma keeps_printInfo s : keeps (printInfo s).
Proof. unfold printInfo. keeping. Qed.
Lemma keeps_isFarSideClosed : keeps isFarSideClosed.
Proof. unfold isFarSideClosed. keeping. Qed.
Hint Resolve keeps_printInfo keeps_isFarSideClosed : keeping.
Lemma keeps_signal : keeps deliver_signal.
Proof. unfold deliver_signal, sigPollHandler. keeping. Qed.
Lemma keeps_startWork : keeps startWork.
Proof. unfold startWork, setSigPollAction. keeping. Qed.
Lemma keeps_stopWork : keeps stopWork.
Proof. unfold stopWork, setSigPollAction. keeping. Qed.
Lemma keeps_stopWork_error msg status : keeps (stopWork_error msg status).
Proof. unfold stopWork_error, setSigPollAction. keeping. Qed.
Hint Resolve keeps_signal keeps_startWork keeps_stopWork keeps_stopWork_error : keeping.

(** ** Operations of the store *)

Lemma keeps_run_session {io A T} (step : ∀ X, io X → T → DM (outcome X * T)) (s : session io W A) t :
  (∀ X i t, keeps (step X i t)) → keeps (run_session step s t).
Proof.
  intros Hstep. revert t. induction s as [r w|msg k IH|k IH|k IH|X i k IH]; intros t; cbn [run_session].
  - keeping.
  - apply keeps_bind; [|intros r; apply IH]. keeping.
  - apply keeps_bind; [keeping|intros _; apply IH].
  - apply keeps_bind; [|intros r; apply IH]. keeping.
  - apply keeps_bind; [apply Hstep|intros [r t']; apply IH].
Qed.

Lemma agrees_session {io A T B} (op : store_op io A) step (t : T) (k : outcome A * T → DM B) :
  permitted d trusted remote op = true → (∀ X i t, keeps (step X i t)) → (∀ x, keeps (k x)) →
  agrees (w ← gets (λ c, Ret (c_world c)); run_session step (@serve_op W h1 io A op w) t ≫= k)
    (w ← gets (λ c, Ret (c_world c)); run_session step (@serve_op W h2 io A op w) t ≫= k) any.
Proof.
  intros Hop Hstep Hk. eapply agrees_bind; [apply agrees_refl, keeps_same; by intros []|]. intros w _.
  rewrite (Hagree io A op w Hop). apply agrees_refl, keeps_bind; [by apply keeps_run_session|done].
Qed.

Lemma agrees_store_call {A} (op : store_op no_io A) :
  permitted d trusted remote op = true → agrees (@store_call W net h1 A op) (@store_call W net h2 A op) any.
Proof. intros Hop. apply agrees_session; [done|by intros X []|intros [r []]; keeping]. Qed.

Lemma agrees_export path sign : isStorePath d path = true →
  agrees (@tunnel_export W net h1 path sign) (@tunnel_export W net h2 path sign) any.
Proof.
  intros Hop. apply (agrees_session (opExportPath path sign)); [done| |].
  - intros X [] t. cbn [sink_step]. unfold tunnel_write. keeping.
  - intros [r sink]. unfold tunnel_flush, tunnel_write. keeping.
Qed.

Lemma agrees_import : agrees (@tunnel_import W net h1 true) (@tunnel_import W net h2 true) any.
Proof.
  apply (agrees_session (opImportPaths true)); [done| |intros [r t]; keeping].
  intros X [] t. cbn [source_step]. unfold tunnel_read, tunnel_readUnbuffered, setSigPollAction. keeping.
Qed.

Lemma agrees_work {A} (m1 m2 : DM A) Q : agrees m1 m2 Q → agrees (work m1) (work m2) any.
Proof.
  intros Hm. unfold work. eapply agrees_bind; [apply agrees_refl; keeping|]. intros [] _.
  eapply agrees_bind; [exact Hm|]. intros a _. apply agrees_refl. keeping.
Qed.

(** A request that works for an answer and sends it. *)
Lemma agrees_answer {A} (m1 m2 : DM A) (reply : A → DM ()) Q :
  agrees m1 m2 Q → (∀ a, keeps (reply a)) → agrees (work m1 ≫= reply) (work m2 ≫= reply) any.
Proof. intros Hm Hr. eapply agrees_bind; [by eapply agrees_work|]. intros a _. by apply agrees_refl. Qed.

(** ** Arguments *)

Lemma agrees_recv {A} (m : FdSource → outcome (A * FdSource)) (Q : A → Prop) :
  (∀ s a s', m s = Ret (a, s') → Q a) → agrees (recv m) (recv m) Q.
Proof.
  intros Hm c Hc. split_and!; [done|by apply keeps_recv|]. intros a. unfold recv.
  destruct (c_isInterrupted c); destruct (m _) as [[a' s']|[]|] eqn:E; cbn; intros [= <-]; by eapply Hm.
Qed.

Lemma agrees_nixStore : agrees nixStore nixStore (λ x, x = d).
Proof.
  intros c Hc. split_and!; [done|done|]. intros a. cbn. intros [= <-]. by apply (si_fixed HR) in Hc as [_ ->].
Qed.

Lemma agrees_isRemote : agrees (gets (λ c, Ret (c_isRemote c))) (gets (λ c, Ret (c_isRemote c))) (λ x, x = remote).
Proof. intros c Hc. split_and!; [done|done|]. intros a. cbn. intros [= <-]. by apply (si_fixed HR) in Hc as [-> _]. Qed.

Lemma agrees_StorePath : agrees recv_StorePath recv_StorePath (λ p, isStorePath d p = true).
Proof.
  eapply agrees_bind; [apply agrees_nixStore|]. intros x ->. apply agrees_recv. intros s p s' E.
  unfold readStorePath in E. destruct (readString s) as [[path from]| |]; [|done..]. cbn in E.
  unfold assertStorePath in E. destruct (isStorePath d path) eqn:Ep; [|done]. by simplify_eq/=.
Qed.

Lemma agrees_StorePaths : agrees recv_StorePaths recv_StorePaths (λ ps, forallb (isStorePath d) ps = true).
Proof.
  eapply agrees_bind; [apply agrees_nixStore|]. intros x ->. apply agrees_recv. intros s ps s' E.
  unfold readStorePaths in E. destruct (readStrings_set s) as [[paths from]| |]; [|done..]. cbn in E.
  destruct (foldM _ paths ()) as [[]| |] eqn:Ef; simplify_eq/=. clear -Ef. induction ps as [|p ps IH]; [done|].
  cbn in *. unfold assertStorePath in *. by destruct (isStorePath d p); cbn in *; [apply IH|].
Qed.

(** ** Requests *)

Lemma keeps_set_setting g : (∀ r st, R r st → R r (g st)) → keeps (set_setting g).
Proof. intros Hg c Hc. by apply Hg. Qed.

Lemma keeps_update : keeps (with_settings Globals.update).
Proof.
  intros c Hc. unfold with_settings, holds in *. pose proof (si_update HR _ _ Hc) as Hu.
  by destruct (Globals.update (c_settings c)) as [r st].
Qed.

Lemma assignable_client name : name ∈ client_keys → assignable trusted name.
Proof. intros Hn. by right; left. Qed.

Lemma keeps_set name value : name ∈ client_keys → name ≠ str "build-use-substitutes" → keeps (set_setting (Globals.set name value)).
Proof. intros H1 H2. apply keeps_set_setting. intros r st Hst. apply (si_set HR); [done|by apply assignable_client|by left]. Qed.

Lemma keeps_flag m : m ∈ client_flags → keeps (set_flag m).
Proof. intros Hm. apply keeps_bind; [apply keeps_recv|intros n]. apply keeps_set_setting. intros r st. by apply (si_flag HR). Qed.

Lemma keeps_number name : name ∈ client_keys → name ≠ str "build-use-substitutes" → keeps (set_number name).
Proof. intros H1 H2. apply keeps_bind; [apply keeps_recv|intros n]. by apply keeps_set. Qed.

Lemma public_client name : name ∈ public_settings → name ∈ client_keys ∧ name ≠ str "build-use-substitutes".
Proof.
  intros Hn. split; [by apply elem_of_app; left|]. intros ->. revert Hn. apply (bool_decide_unpack (_ ∉ _)). by vm_compute.
Qed.

Lemma agrees_set_option name value :
  agrees (set_option (handler := h1) trusted name value) (set_option (handler := h2) trusted name value) any.
Proof.
  unfold set_option. eapply agrees_bind; [apply agrees_refl, keeps_same; by intros []|]. intros uid _.
  case_decide as Hp; [apply agrees_refl; apply public_client in Hp as [??]; by apply keeps_set|].
  destruct (_ && _); [destruct (getpwnam (c_str value)) as [uid'|] eqn:Epw|].
  - apply agrees_store_call. cbn [permitted]. by rewrite Epw, bool_decide_eq_true_2.
  - apply agrees_refl. apply keeps_printInfo.
  - apply agrees_refl, keeps_set_setting. intros r st Hst. destruct trusted eqn:Et; apply (si_set HR); try done.
    + left. done.
    + by right.
    + right; right. by exists name.
    + left. discriminate.
Qed.

Lemma agrees_set_options n :
  agrees (set_options (handler := h1) trusted n) (set_options (handler := h2) trusted n) any.
Proof.
  induction n as [|n IH]; [apply agrees_refl, keeps_ret|]. cbn [set_options].
  do 2 (eapply agrees_bind; [apply agrees_refl, keeps_recv|intros ? _]).
  eapply agrees_bind; [apply agrees_set_option|intros _ _]. exact IH.
Qed.

Section performOp.
Context (clientVersion : Z).

Lemma recv_same {A} (m : FdSource → outcome (A * FdSource)) c :
  c_isRemote (recv m c).2 = c_isRemote c ∧ c_settings (recv m c).2 = c_settings c.
Proof.
  unfold recv. destruct (c_isInterrupted c); [by destruct (m _) as [[]|[]|]|by destruct (m _) as [[]| |]].
Qed.

(** Substitutes cannot be turned on again. *)
Lemma keeps_substitutes :
  keeps (use ← setting (λ st, Globals.b st Globals.useSubstitutes);
         n ← recv readInt;
         when use (set_setting (Globals.set (str "build-use-substitutes") (true_or_false (nonzero n))))).
Proof.
  intros c Hc. unfold mbind, SM_bind, setting, gets. destruct (recv_same readInt c) as [E1 E2].
  destruct (recv readInt c) as [[n| |] c'] eqn:E; cbn in E1, E2; try (unfold holds; cbn; by rewrite E1, E2).
  destruct (Globals.b (c_settings c) Globals.useSubstitutes) eqn:Eu; unfold holds; cbn; rewrite E1, E2; [|done].
  by apply (si_substitutes HR).
Qed.

Ltac client_key := first [set_solver | discriminate].

Lemma agrees_SetOptions :
  agrees (do_SetOptions (handler := h1) trusted clientVersion) (do_SetOptions (handler := h2) trusted clientVersion) any.
Proof.
  unfold do_SetOptions.
  eapply agrees_bind; [apply agrees_refl, keeps_flag; client_key|intros _ _].
  eapply agrees_bind; [apply agrees_refl, keeps_same; by intros []|intros rem _].
  eapply agrees_bind; [apply agrees_refl, keeps_when, keeps_set_setting; intros r st; apply (si_flag HR); client_key|intros _ _].
  eapply agrees_bind; [apply agrees_refl, keeps_flag; client_key|intros _ _].
  eapply agrees_bind; [apply agrees_refl, keeps_recv|intros fallback _].
  eapply agrees_bind; [apply agrees_refl, keeps_set; client_key|intros _ _].
  eapply agrees_bind; [apply agrees_refl, keeps_recv|intros verbosity _].
  eapply agrees_bind; [apply agrees_refl, keeps_same; by intros []|intros _ _].
  eapply agrees_bind; [apply agrees_refl, keeps_when, keeps_bind; [|intros _]; apply keeps_number; client_key|intros _ _].
  eapply agrees_bind; [apply agrees_refl, keeps_when|intros _ _].
  { destruct HAVE_DAEMON_OFFLOAD_HOOK; [apply keeps_flag; client_key|]. apply keeps_bind; [apply keeps_recv|intros _; apply keeps_ret]. }
  eapply agrees_bind; [apply agrees_refl, keeps_when|intros _ _].
  { apply keeps_bind; [apply keeps_recv|intros n]. apply keeps_bind; [apply keeps_set_setting; intros r st; apply (si_verbosity HR)|intros _].
    apply keeps_bind; [apply keeps_recv|intros t]. apply keeps_bind; [apply keeps_same; by intros []|intros _].
    apply keeps_flag; client_key. }
  eapply agrees_bind; [apply agrees_refl, keeps_when, keeps_number; client_key|intros _ _].
  eapply agrees_bind; [apply agrees_refl, keeps_when, keeps_substitutes|intros _ _].
  eapply agrees_bind; [apply agrees_when; eapply agrees_bind; [apply agrees_refl, keeps_recv|intros n _; apply agrees_set_options]|intros _ _].
  eapply agrees_bind; [apply agrees_refl, keeps_update|intros _ _]. by eapply agrees_work, agrees_refl, keeps_ret.
Qed.

Ltac agree := repeat (
  match goal with
  | |- agrees (recv_StorePath ≫= _) _ _ => eapply agrees_bind; [apply agrees_StorePath|intros ? ?]
  | |- agrees (recv_StorePaths ≫= _) _ _ => eapply agrees_bind; [apply agrees_StorePaths|intros ? ?]
  | |- agrees (recv _ ≫= _) _ _ => eapply agrees_bind; [apply agrees_refl, keeps_recv|intros ? _]
  | |- agrees (nixStore ≫= _) _ _ => eapply agrees_bind; [apply agrees_nixStore|intros ? ->]
  | |- agrees (lift (check _ _) ≫= _) _ _ => eapply agrees_bind; [apply agrees_check|intros [] ?]
  | |- agrees (lift _ ≫= _) _ _ => eapply agrees_bind; [apply agrees_refl, keeps_same; by intros []|intros ? _]
  | |- agrees (work _ ≫= _) _ _ => eapply agrees_answer; [|intros ?; solve [unfold put_info; keeping]]
  | |- agrees (store_call _) _ _ => apply agrees_store_call; cbn [permitted andb]
  end).

Lemma agrees_queries op :
  agrees (do_QueryPathSet (handler := h1) op) (do_QueryPathSet (handler := h2) op) any.
Proof.
  unfold do_QueryPathSet. agree. repeat case_decide; by apply agrees_store_call.
Qed.

Lemma agrees_AddToStore : agrees (do_AddToStore (handler := h1)) (do_AddToStore (handler := h2)) any.
Proof.
  unfold do_AddToStore. agree. eapply agrees_bind; [apply agrees_refl; keeping|intros [dump regular] _]. agree. done.
Qed.

Lemma agrees_BuildPaths :
  agrees (do_BuildPaths (handler := h1) trusted clientVersion) (do_BuildPaths (handler := h2) trusted clientVersion) any.
Proof.
  unfold do_BuildPaths. agree.
  apply (agrees_bind _ _ _ _ (λ mode, trusted || negb (bool_decide (mode = bmRepair)) = true)).
  - destruct (bool_decide _); [|intros c Hc; split_and!; [done|done|]; intros a' [= <-]; by destruct trusted].
    agree. intros c Hc. split_and!; [done|done|]. intros mode [= <-]. by destruct trusted, (bool_decide (a1 = bmRepair)).
  - intros mode Hmode. agree. by rewrite H, Hmode.
Qed.

Lemma agrees_CollectGarbage :
  agrees (do_CollectGarbage (handler := h1) clientVersion) (do_CollectGarbage (handler := h2) clientVersion) any.
Proof.
  unfold do_CollectGarbage. eapply agrees_bind; [apply agrees_isRemote|intros rem ->].
  destruct (bool_decide (remote = true)) eqn:Er; [apply bool_decide_eq_true in Er; rewrite Er|].
  { apply agrees_refl, keeps_same. by intros []. }
  apply bool_decide_eq_false, not_true_is_false in Er. rewrite Er. agree.
  eapply agrees_bind; [apply agrees_refl; keeping|intros _ _]. agree. rewrite Er. cbn [ignoreLiveness pathsToDelete].
  by rewrite H0, H.
Qed.

Lemma performOp_agrees op :
  agrees (performOp (handler := h1) trusted clientVersion op) (performOp (handler := h2) trusted clientVersion op) any.
Proof.
  unfold performOp. repeat case_decide.
  all: try (apply agrees_SetOptions); try (apply agrees_queries).
  all: unfold do_IsValidPath, do_QueryValidPaths, do_HasSubstitutes, do_QuerySubstitutablePaths, do_QueryPathHash,
      do_QueryDerivationOutputNames, do_QueryDeriver, do_QueryPathFromHashPart, do_AddTextToStore, do_ImportPaths,
      do_EnsurePath, do_AddTempRoot, do_SyncWithGC, do_QueryAllValidPaths, do_QueryFailedPaths, do_ClearFailedPaths,
      do_OptimiseStore, do_BuiltinBuilders, do_SubstituteURLs, do_FindRoots, do_QuerySubstitutablePathInfo,
      do_QuerySubstitutablePathInfos, do_QueryPathInfo, do_VerifyStore, do_ExportPath, do_AddIndirectRoot, assertStorePath.
  all: agree.
  all: try done.
  - cbv beta in *. cbn [forallb]. match goal with Hp : isStorePath d _ = true |- _ => by rewrite Hp end.
  - apply agrees_AddToStore.
  - by apply agrees_export.
  - apply agrees_import.
  - apply agrees_BuildPaths.
  - apply agrees_CollectGarbage.
  - by destruct trusted, (nonzero a0).
  - apply agrees_refl, keeps_ret.
  - apply agrees_refl. keeping.
Qed.

(** ** The connection *)

Lemma agrees_operation op :
  agrees (operation (handler := h1) trusted clientVersion op) (operation (handler := h2) trusted clientVersion op) any.
Proof.
  unfold operation. eapply agrees_bind; [|intros _ _; apply agrees_refl; keeping].
  apply agrees_catch; [apply performOp_agrees|intros e; apply agrees_refl]. unfold operation_failed. keeping.
Qed.

Lemma agrees_requests fuel :
  agrees (process_requests (handler := h1) trusted clientVersion fuel)
    (process_requests (handler := h2) trusted clientVersion fuel) any.
Proof.
  induction fuel as [|fuel IH]; [apply agrees_refl, keeps_same; by intros []|]. cbn [process_requests].
  eapply agrees_bind; [apply agrees_refl; unfold next_op; keeping|intros [op|] _; [|apply agrees_refl, keeps_ret]].
  eapply agrees_bind; [apply agrees_operation|intros _ _; apply IH].
Qed.
End performOp.

Lemma agrees_open_store clientVersion userId reserveSpace :
  agrees (open_store (handler := h1) clientVersion userId reserveSpace)
    (open_store (handler := h2) clientVersion userId reserveSpace) any.
Proof.
  unfold open_store. apply agrees_catch; [|intros e; apply agrees_refl; keeping].
  eapply agrees_bind; [by apply agrees_store_call|intros _ _].
  eapply agrees_bind; [apply agrees_when|intros _ _; apply agrees_refl; keeping].
  destruct (getpwuid userId) as [name|] eqn:E; [|apply agrees_refl; keeping].
  apply agrees_store_call. cbn [permitted]. by rewrite E, (bool_decide_eq_true_2 (Some name = Some name)), orb_true_r.
Qed.

Lemma agrees_greet userId :
  agrees (greet (handler := h1) userId) (greet (handler := h2) userId) any.
Proof.
  unfold greet. do 5 (eapply agrees_bind; [apply agrees_refl; keeping|intros ? _]).
  eapply agrees_bind; [apply agrees_refl; keeping|intros v _].
  eapply agrees_bind; [apply agrees_when|intros _ _].
  { eapply agrees_bind; [apply agrees_refl; keeping|intros b _]. apply agrees_when.
    eapply agrees_bind; [apply agrees_refl; keeping|intros cpu _]. by apply agrees_store_call. }
  do 2 (eapply agrees_bind; [apply agrees_refl; keeping|intros ? _]).
  eapply agrees_bind; [apply agrees_open_store|intros opened _]. apply agrees_refl, keeps_ret.
Qed.

Lemma agrees_connection fuel userId :
  agrees (processConnection (handler := h1) fuel trusted userId) (processConnection (handler := h2) fuel trusted userId) any.
Proof.
  unfold processConnection, setSigPollAction. do 2 (eapply agrees_bind; [apply agrees_refl; keeping|intros _ _]).
  eapply agrees_bind; [apply agrees_greet|intros [v []] _]; [|apply agrees_refl, keeps_ret].
  eapply agrees_bind; [apply agrees_requests|intros _ _]. apply agrees_refl. keeping.
Qed.
End privileges.

(** * Operations *)

Lemma fixed_settings_invariant d trusted remote :
  settings_invariant d trusted remote (λ r st, r = remote ∧ Globals.s st Globals.nixStore = d).
Proof.
  constructor; try done.
  intros r st [-> Hs]. split; [done|]. by rewrite update_keeps_s.
Qed.


(** The store of the examples, behind a guard that lets through what is permitted. *)
Definition guarded_serve (p : peer) : StoreHandler strset := λ io A op w,
  if permitted toy_dir (is_trusted p) (is_remote p) op then toy_serve io A op w
  else Done (Throw (Undefined "forbidden")) w.

Definition forbidden_requests : list request :=
  [rqVerifyStore true true; rqQueryAllValidPaths; rqBuildPaths [sp "x"] bmRepair].


(** * Settings *)

Definition protected (name : bytes) : Prop := ¬ assignable false name.

(** The members that an untrusted client may change. *)
Definition client_bools : list Globals.bool_member :=
  client_flags ++ [Globals.tryFallback; Globals.multiplexedBuildOutput; Globals.useSubstitutes].
Definition client_ints : list Globals.int_member :=
  [Globals.buildVerbosity; Globals.maxBuildJobs; Globals.buildCores; Globals.maxSilentTime; Globals.buildTimeout].

(** Reading a setting again would not change it. *)
Definition reads_back (st : Globals.Settings) (m : Globals.member) (v : bytes) : Prop :=
  match m with
  | Globals.B m => Globals.read_bool v = Ret (Globals.b st m)
  | Globals.N m => string2Int (Globals.member_type m) v = (true, Some (Globals.z st m))
  | Globals.S m => v = Globals.s st m
  end.
Definition synced (st : Globals.Settings) : Prop := ∀ m name v,
  (m, name) ∈ Globals.updates → map_find name (Globals.settings st) = Some v → reads_back st m v.

(** Nothing but what a client may change differs, and substitutes that were turned
    off still are. *)
Record limited (st0 st : Globals.Settings) : Prop := {
  lim_names name : protected name → map_find name (Globals.settings st) = map_find name (Globals.settings st0);
  lim_bools m : m ∉ client_bools → Globals.b st m = Globals.b st0 m;
  lim_ints m : m ∉ client_ints → Globals.z st m = Globals.z st0 m;
  lim_strings m : Globals.s st m = Globals.s st0 m;
  lim_substitutes : Globals.b st0 Globals.useSubstitutes = false →
    Globals.b st Globals.useSubstitutes = false ∧
    map_find (str "build-use-substitutes") (Globals.settings st) =
      map_find (str "build-use-substitutes") (Globals.settings st0)
}.

(** ** Which settings [update] reads are protected *)

(** The members that a client may change are read from names that it may assign,
    and no others. *)
Definition client_member (m : Globals.member) : bool :=
  match m with
  | Globals.B m => bool_decide (m ∈ client_bools)
  | Globals.N m => bool_decide (m ∈ client_ints)
  | Globals.S m => false
  end.

Lemma assignable_dec name : assignable false name ↔
  name ∈ client_keys ∨ take (length untrusted_prefix) name = untrusted_prefix.
Proof.
  unfold assignable. split.
  - intros [?|[?|[rest ->]]]; [done|by left|right; by rewrite take_app_length].
  - intros [?|Ht]; [by right; left|right; right]. exists (drop (length untrusted_prefix) name).
    by rewrite <-Ht at 1; rewrite take_drop.
Qed.

#[global] Instance assignable_decision name : Decision (assignable false name).
Proof. refine (cast_if (decide (name ∈ client_keys ∨ take (length untrusted_prefix) name = untrusted_prefix))); by rewrite assignable_dec. Defined.

Lemma updates_protected m name :
  (m, name) ∈ Globals.updates → client_member m = false → protected name.
Proof.
  assert (Forall (λ u, client_member u.1 = false → protected u.2) Globals.updates) as Hu.
  { apply (bool_decide_unpack _). by vm_compute. }
  rewrite Forall_forall in Hu. intros Hin. apply (Hu (m, name) Hin).
Qed.

(** ** [limited] is kept *)

Lemma limited_set_b st0 st m v :
  limited st0 st → (m ∉ client_bools → v = Globals.b st0 m) →
  (m = Globals.useSubstitutes → Globals.b st0 Globals.useSubstitutes = false → v = false) →
  limited st0 (Globals.set_b m v st).
Proof.
  intros [] Hv Hs. constructor; cbn; [done| |done|done|].
  - intros m' Hm'. case_decide as E; [subst; by apply Hv|auto].
  - intros Hf. destruct (lim_substitutes0 Hf). split; [|done]. case_decide as E; [by apply Hs|done].
Qed.

Lemma limited_set_z st0 st m v :
  limited st0 st → (m ∉ client_ints → v = Globals.z st0 m) → limited st0 (Globals.set_z m v st).
Proof. intros [] Hv. constructor; cbn; try done. intros m' Hm'. case_decide; [subst; by apply Hv|auto]. Qed.

Lemma limited_set st0 st name v :
  limited st0 st → assignable false name →
  (name = str "build-use-substitutes" → Globals.b st0 Globals.useSubstitutes = true) →
  limited st0 (Globals.set name v st).
Proof.
  intros [] Ha Hs. constructor; cbn; try done.
  - intros name' Hn. rewrite map_find_insert, decide_False; [auto|]. by intros ->.
  - intros Hf. destruct (lim_substitutes0 Hf) as [? Hm]. split; [done|]. rewrite map_find_insert, decide_False; [done|].
    intros E. apply Hs in E. congruence.
Qed.

Lemma updates_substitutes name :
  (Globals.B Globals.useSubstitutes, name) ∈ Globals.updates → name = str "build-use-substitutes".
Proof.
  assert (Forall (λ u, u.1 = Globals.B Globals.useSubstitutes → u.2 = str "build-use-substitutes") Globals.updates) as Hu.
  { unfold Globals.updates. repeat (apply Forall_cons; split; [by intros [=]|]). by apply Forall_nil. }
  rewrite Forall_forall in Hu. intros Hin. by apply (Hu _ Hin).
Qed.

Lemma limited_get st0 st m name :
  synced st0 → (m, name) ∈ Globals.updates → limited st0 st → limited st0 (Globals._get m name st).2.
Proof.
  intros Hsync Hin Hlim. assert (client_member m = false → map_find name (Globals.settings st) = map_find name (Globals.settings st0)) as Hp.
  { intros Hc. apply (lim_names _ _ Hlim). by eapply updates_protected. }
  pose proof (Hsync m name) as Hread. unfold reads_back in Hread. destruct m as [m|m|m]; cbn [Globals._get].
  - unfold Globals._get_bool. destruct (map_find name (Globals.settings st)) as [v|] eqn:Ev; [|done].
    unfold mbind, SM_bind, lift. destruct (Globals.read_bool v) as [r| |] eqn:Er; [|done..].
    apply limited_set_b; [done| |].
    + intros Hm. specialize (Hread v Hin). rewrite <-Hp, Er in Hread; [by injection (Hread eq_refl)|].
      by apply bool_decide_eq_false_2.
    + intros -> Hf. apply updates_substitutes in Hin as Hn. subst name. destruct (lim_substitutes _ _ Hlim Hf) as [_ E].
      rewrite Ev in E. specialize (Hread v Hin (eq_sym E)). congruence.
  - unfold Globals._get_int. destruct (map_find name (Globals.settings st)) as [v|] eqn:Ev; [|done].
    destruct (string2Int (Globals.member_type m) v) as [ok [n|]] eqn:Er; [|done]. cbn. apply limited_set_z; [done|].
    intros Hm. specialize (Hread v Hin). rewrite <-Hp, Er in Hread; [|by apply bool_decide_eq_false_2].
    specialize (Hread eq_refl). congruence.
  - unfold Globals._get_string. destruct (map_find name (Globals.settings st)) as [v|] eqn:Ev; [|done].
    specialize (Hread v Hin). rewrite <-Hp in Hread by done. specialize (Hread eq_refl). destruct Hlim.
    constructor; cbn; try done. intros m'. case_decide; [by subst|done].
Qed.

Lemma limited_update st0 st : synced st0 → limited st0 st → limited st0 (Globals.update st).2.
Proof.
  intros Hsync. unfold Globals.update. assert (∀ u, u ∈ Globals.updates → u ∈ Globals.updates) as Hu by done.
  revert st Hu. generalize Globals.updates at 1 3. intros l. induction l as [|u l IH]; intros st Hu Hlim; [done|].
  cbn [iter]. unfold mbind, SM_bind. assert (limited st0 (Globals._get u.1 u.2 st).2) as Hg.
  { apply limited_get; [done| |done]. destruct u. apply Hu. by left. }
  destruct (Globals._get u.1 u.2 st) as [[[]| |] st']; [|done..]. apply IH; [|done]. intros u' Hu'. apply Hu. by right.
Qed.

Lemma limited_refl st : limited st st.
Proof. by constructor. Qed.

Lemma limited_settings_invariant d remote st0 :
  synced st0 → Globals.s st0 Globals.nixStore = d →
  settings_invariant d false remote (λ r st, r = remote ∧ limited st0 st).
Proof.
  intros Hsync Hd. constructor.
  - intros r st [-> Hl]. split; [done|]. by rewrite (lim_strings _ _ Hl).
  - intros r st m v Hm [-> Hl]. split; [done|]. apply limited_set_b; [done| |].
    + intros Hn. exfalso. apply Hn, elem_of_app. by left.
    + intros ->. exfalso. revert Hm. change (Globals.useSubstitutes ∉ client_flags). apply (bool_decide_unpack _). by vm_compute.
  - intros r st v [-> Hl]. split; [done|]. apply limited_set_z; [done|]. intros Hn. exfalso. apply Hn. by left.
  - intros r st v [-> Hl] Hu. split; [done|]. apply limited_set; [done| |].
    + right; left. by apply (bool_decide_unpack _); vm_compute.
    + intros _. destruct (Globals.b st0 Globals.useSubstitutes) eqn:E; [done|]. apply (lim_substitutes _ _ Hl) in E as [E _].
      congruence.
  - intros r st name v [-> Hl] Ha Hn. split; [done|]. apply limited_set; [done|done|]. by destruct Hn.
  - intros r st [-> Hl]. split; [done|]. by apply limited_update.
Qed.

(** ** [update] makes members and names agree *)

Lemma get_settings m name st : Globals.settings (Globals._get m name st).2 = Globals.settings st.
Proof.
  destruct m as [m|m|m]; cbn [Globals._get]; unfold Globals._get_bool, Globals._get_int, Globals._get_string;
    destruct (map_find name _) as [v|]; try done.
  - unfold mbind, SM_bind, lift. by destruct (Globals.read_bool v).
  - by destruct (string2Int _ v) as [ok [n|]].
Qed.

Lemma get_other m m' name v st : m ≠ m' → reads_back st m v → reads_back (Globals._get m' name st).2 m v.
Proof.
  intros Hm Hr. destruct m' as [m'|m'|m']; cbn [Globals._get];
    unfold Globals._get_bool, Globals._get_int, Globals._get_string; destruct (map_find name _) as [w|]; try done.
  - unfold mbind, SM_bind, lift. destruct (Globals.read_bool w); [|done..]. destruct m as [m|m|m]; [|done..].
    unfold reads_back in *. cbn [snd Globals.set_b Globals.b modify]. rewrite decide_False by congruence. done.
  - destruct (string2Int _ w) as [ok [n|]]; [|done]. destruct m as [m|m|m]; [done| |done].
    unfold reads_back in *. cbn [snd Globals.set_z Globals.z]. rewrite decide_False by congruence. done.
  - destruct m as [m|m|m]; [done..|].
    unfold reads_back in *. cbn [snd Globals.set_s Globals.s]. rewrite decide_False by congruence. done.
Qed.

Lemma get_reads_back m name v st st' :
  Globals._get m name st = (Ret (), st') → map_find name (Globals.settings st) = Some v → reads_back st' m v.
Proof.
  intros E Ev. destruct m as [m|m|m]; cbn [Globals._get] in E;
    unfold Globals._get_bool, Globals._get_int, Globals._get_string in E; rewrite Ev in E.
  - unfold mbind, SM_bind, lift, modify in E. unfold reads_back. destruct (Globals.read_bool v) eqn:Er; [|discriminate..].
    injection E as <-. cbn [Globals.b Globals.set_b]. by rewrite decide_True.
  - unfold reads_back. destruct (string2Int (Globals.member_type m) v) as [ok n] eqn:Er. destruct ok; [|discriminate].
    destruct n as [n|]; [injection E as <-; cbn [Globals.z Globals.set_z]; by rewrite decide_True|].
    exfalso. revert Er. unfold string2Int, extract.
    repeat (case_decide || case_match); intros; simplify_eq/=.
  - injection E as <-. unfold reads_back. cbn [Globals.s Globals.set_s]. by rewrite decide_True.
Qed.

Lemma iter_get_keeps l m name v st :
  m ∉ l.*1 → map_find name (Globals.settings st) = Some v → reads_back st m v →
  let st' := (iter (λ u, Globals._get u.1 u.2) l st).2 in
  map_find name (Globals.settings st') = Some v ∧ reads_back st' m v.
Proof.
  revert st. induction l as [|u l IH]; intros st Hm Ev Hr; [done|]. cbn [iter]. unfold mbind, SM_bind.
  apply not_elem_of_cons in Hm as [Hu Hl]. pose proof (get_settings u.1 u.2 st) as Es.
  pose proof (get_other m u.1 u.2 v st Hu Hr) as Ho. destruct (Globals._get u.1 u.2 st) as [[[]| |] st1]; cbn in *.
  - apply IH; [done|by rewrite Es|done].
  - by rewrite Es.
  - by rewrite Es.
Qed.

(** After [settings.update()], which guix-daemon calls before it accepts
    connections. *)
Lemma update_synced st st' : Globals.update st = (Ret (), st') → synced st'.
Proof.
  assert (NoDup Globals.updates.*1) as Hnd by (apply (bool_decide_unpack _); by vm_compute).
  unfold Globals.update. intros E m name v Hin. revert st Hnd E Hin. generalize Globals.updates. intros l.
  induction l as [|u l IH]; intros st Hnd E Hin Ev; [by apply elem_of_nil in Hin|].
  cbn [iter] in E. unfold mbind, SM_bind in E. apply NoDup_cons in Hnd as [Hu Hnd].
  destruct (Globals._get u.1 u.2 st) as [[[]| |] st1] eqn:Eg; [|done..].
  apply elem_of_cons in Hin as [<-|Hin]; [|by eapply IH]. cbn [fst snd] in *.
  pose proof (get_settings m name st) as Es. rewrite Eg in Es. cbn in Es.
  destruct (map_find name (Globals.settings st)) as [w|] eqn:Ew.
  - pose proof (get_reads_back m name w st st1 Eg Ew) as Hr.
    destruct (iter_get_keeps l m name w st1 Hu ltac:(by rewrite Es) Hr) as [H1 H2]. rewrite E in H1, H2. cbn in *. congruence.
  - exfalso. clear -E Ev Es Ew. assert (Globals.settings st' = Globals.settings st1) as Est.
    { revert st1 E Es. induction l as [|u l IH]; intros st1 E Es; [by injection E as <-|].
      cbn [iter] in E. unfold mbind, SM_bind in E. pose proof (get_settings u.1 u.2 st1) as E1.
      destruct (Globals._get u.1 u.2 st1) as [[[]| |] st2]; [|done..]. cbn in E1. rewrite <-E1. apply IH; [done|congruence]. }
    congruence.
Qed.

Lemma synced_set_z st m n :
  Globals.N m ∉ Globals.updates.*1 → synced st → synced (Globals.set_z m n st).
Proof.
  intros Hm Hs m' name v Hin Ev. specialize (Hs m' name v Hin Ev). destruct m' as [m'|m'|m']; [done| |done].
  cbn. rewrite decide_False; [done|]. intros ->. apply Hm, list_elem_of_fmap. by exists (Globals.N m, name).
Qed.

(** C16: A client that is not trusted cannot change the settings of the daemon beyond
    what is meant for clients. If members and names agree at first, as they do after
    [update], then whatever the client sends and however the connection ends, every
    setting by name is as it was, except those named in [client_keys] and those that
    start with "untrusted-"; every member is as it was, except the user of the
    connection and those in [client_bools] and [client_ints]; and substitutes that
    were turned off stay off. *)
Theorem settings_protected {W : Type} {net : Network} {msgs : Messages} {sys : DaemonSystem} {handler : StoreHandler W}
    fuel p (c : Conn W) :
  is_trusted p = false → synced (c_settings c) →
  limited (Globals.set_z Globals.clientGid (peer_gid p) (Globals.set_z Globals.clientUid (peer_uid p) (c_settings c)))
    (c_settings (serve_peer fuel p c).2).
Proof.
  intros Hp Hsync. set (st0 := Globals.set_z Globals.clientGid _ _).
  assert (synced st0) as Hs0.
  { apply synced_set_z; [|apply synced_set_z; [|done]]; apply (bool_decide_unpack _); by vm_compute. }
  pose proof (limited_settings_invariant _ (is_remote p) st0 Hs0 eq_refl) as HR.
  unfold serve_peer, mbind, SM_bind. cbn [set_setting modify on_settings on_isRemote]. rewrite Hp.
  edestruct (agrees_connection handler handler _ _ _ _ HR) as (_ & Hend & _); [done| |apply Hend].
  split; [done|]. apply limited_refl.
Qed.

Definition greedy_options : options := mkOptions 1 1 1 9 100 0 1 9 2 1 100 1
  [(str "build-users-group", str "root"); (str "gc-keep-outputs", str "true"); (str "build-cores", str "x")].

(** A client that wants to run builders as root, and then sends a value that is no
    number. *)
Lemma settings_protected_witness :
  let p := LocalPeer 1000 100 in
  let c := toy_conn (hello ++ wire (mjoin (encode toy_minor <$> [rqSetOptions greedy_options]))) [sp "x"] in
  limited (Globals.set_z Globals.clientGid 100 (Globals.set_z Globals.clientUid 1000 (Globals.update toy_settings_of).2))
    (c_settings (@serve_peer strset toy_network toy_messages toy_serve toy_system 100 p
      (on_settings (λ _, (Globals.update toy_settings_of).2) c)).2).
Proof.
  intros p c.
  apply (@settings_protected strset toy_network toy_messages toy_system toy_serve 100 p
    (on_settings (λ _, (Globals.update toy_settings_of).2) c)); [reflexivity|].
  apply (update_synced toy_settings_of). reflexivity.
Defined.
