(* ===== verification/DaemonReplies.v ===== *)
(** What a client receives: for each request a sequence of notices (messages,
    exported data, requests for data), and then a reply or an error. *)

From S2P Require Import Prelude StateMonad Containers Serialise Hash Archive Paths StorePaths LocalDB Roots GC GoalState Settings DaemonState Daemon DaemonSpec DaemonSync DaemonRequests DaemonExamples DaemonTheorems.

(** * Notices *)

Inductive notice := Message (msg : bytes) | Data (data : bytes) | Wanted (len : nat).

Definition notice_chunks (n : notice) : list bytes :=
  match n with
  | Message msg => writeInt STDERR_NEXT ++ writeString msg
  | Data data => writeInt STDERR_WRITE ++ writeString data
  | Wanted len => writeInt STDERR_READ ++ writeInt (Z.of_nat len)
  end.

Definition notices (ns : list notice) : bytes := mjoin ((λ n, wire (notice_chunks n)) <$> ns).

Lemma notices_app ns ns' : notices (ns ++ ns') = notices ns ++ notices ns'.
Proof. unfold notices. by rewrite fmap_app, join_app. Qed.

Lemma notices_one n : notices [n] = wire (notice_chunks n).
Proof. unfold notices. simpl. by rewrite app_nil_r. Qed.

(** * Output *)

Section output.
Context {W : Type} {net : Network} {msgs : Messages} {handler : StoreHandler W} {sys : DaemonSystem}.
Local Abbreviation DM := (SM (Conn W)).
Implicit Types (c : Conn W).

(** A socket on which writing does not fail. *)
Definition reliable : Prop := ∀ k, net_write_error k = None.

Context (Hsilent : silent) (Hreliable : reliable).

(** All that has been written, to the socket or to the buffer. *)
Definition stream c : bytes := wire (c_sent c) ++ buffer (c_to c).

Definition good c : Prop := c_isInterrupted c = false ∧ sink_inv (c_to c) ∧ writes (c_to c) = [].

(** The members that writing does not change. *)
Definition mode c : bool * bool := (c_canSendStderr c, c_sigPoll c).

Lemma socket_write_one data c : c_isInterrupted c = false →
  socket_write data c = (Ret (), on_sent (λ l, l ++ [data]) c).
Proof. intros Hc. unfold socket_write, mbind, SM_bind, checkInterrupt. rewrite Hc. unfold gets. by rewrite Hreliable. Qed.

Lemma socket_writes l c : c_isInterrupted c = false →
  iter socket_write l c = (Ret (), on_sent (λ s, s ++ l) c).
Proof.
  revert c. induction l as [|data l IH]; intros c Hc; [destruct c; unfold on_sent; cbn; rewrite app_nil_r; done|].
  cbn [iter]. unfold mbind, SM_bind. rewrite socket_write_one by done.
  rewrite IH by done. destruct c. unfold on_sent. cbn. by rewrite <-(assoc (++)).
Qed.

(** What a buffered sink passes on, and what it keeps. *)
Lemma taken_spec (s : BufferedSink) c : c_isInterrupted c = false → sink_inv s →
  (modify (on_to (λ _, taken s));; iter socket_write (writes s)) c =
    (Ret (), on_sent (λ l, l ++ writes s) (on_to (λ _, taken s) c)).
Proof. intros Hc Hs. unfold mbind, SM_bind, modify. by rewrite socket_writes. Qed.

Lemma to_call_spec data c : good c →
  ∃ c', to_call data c = (Ret (), c') ∧ good c' ∧ stream c' = stream c ++ data ∧ mode c' = mode c.
Proof.
  intros (Hc & Hs & Hw). destruct (sink_call_spec (c_to c) data Hs) as (s & E & Hst & Hb & Hs').
  unfold to_call. unfold mbind at 1, SM_bind at 1, gets. rewrite E, taken_spec by done.
  eexists. split_and!; [done| | |by destruct c].
  - split_and!; [by destruct c|done|done].
  - unfold sink_stream in Hst. rewrite Hw in Hst. simpl in Hst.
    unfold stream. cbn. rewrite join_app, <-!(assoc (++)). by rewrite Hst.
Qed.

Lemma put_spec chunks c : good c →
  ∃ c', put chunks c = (Ret (), c') ∧ good c' ∧ stream c' = stream c ++ wire chunks ∧ mode c' = mode c.
Proof.
  revert c. induction chunks as [|data chunks IH]; intros c Hc.
  { exists c. split_and!; [done|done| |done]. by rewrite app_nil_r. }
  destruct (to_call_spec data c Hc) as (c1 & E1 & Hc1 & Hs1 & Hm1).
  destruct (IH c1 Hc1) as (c2 & E2 & Hc2 & Hs2 & Hm2). exists c2. unfold put in *. cbn [iter].
  unfold mbind, SM_bind. rewrite E1. split_and!; [done|done| |congruence].
  rewrite Hs2, Hs1, mjoin_cons. by rewrite <-(assoc (++)).
Qed.

Lemma to_flush_spec c : good c →
  ∃ c', to_flush c = (Ret (), c') ∧ good c' ∧ stream c' = stream c ∧ mode c' = mode c ∧ buffer (c_to c') = [].
Proof.
  intros (Hc & Hs & Hw). pose proof (sink_flush_stream (c_to c)) as Hst. pose proof (sink_flush_empty (c_to c)) as He.
  apply nil_length_inv in He. assert (sink_inv (sink_flush (c_to c))) as Hs' by (left; unfold bufPos; by rewrite He).
  unfold to_flush. unfold mbind at 1, SM_bind at 1, gets. rewrite taken_spec by done.
  eexists. split_and!; [done| | |by destruct c|done].
  - split_and!; [by destruct c|done|done].
  - unfold sink_stream in Hst. rewrite Hw in Hst. simpl in Hst. unfold stream. cbn.
    rewrite join_app, <-!(assoc (++)). by rewrite Hst.
Qed.

(** * Steps *)

(** While it works the daemon sends notices; while it may not, it sends nothing. *)
Definition notice_step c c' : Prop := good c → good c' ∧ ∃ ns, stream c' = stream c ++ notices ns.
Definition mute_step c c' : Prop := good c → c_canSendStderr c = false →
  good c' ∧ c_canSendStderr c' = false ∧ stream c' = stream c.

#[local] Instance notice_preorder : PreOrder notice_step.
Proof.
  split.
  - intros c Hc. split; [done|]. exists []. by rewrite app_nil_r.
  - intros c1 c2 c3 H1 H2 Hc. destruct (H1 Hc) as (Hc2 & ns1 & E1). destruct (H2 Hc2) as (Hc3 & ns2 & E2).
    split; [done|]. exists (ns1 ++ ns2). by rewrite E2, E1, notices_app, (assoc (++)).
Qed.

#[local] Instance mute_preorder : PreOrder mute_step.
Proof.
  split; [done|]. intros c1 c2 c3 H1 H2 Hc Hcan. destruct (H1 Hc Hcan) as (Hc2 & Hcan2 & E1).
  destruct (H2 Hc2 Hcan2) as (? & ? & ?). split_and!; [done|done|congruence].
Qed.

Section evolution.
Context (P : Conn W → Conn W → Prop) `{!PreOrder P}.

Definition evolves {A} (m : DM A) : Prop := ∀ c, P c (m c).2.

Lemma evolves_still {A} (m : DM A) : (∀ c, (m c).2 = c) → evolves m.
Proof. intros Hm c. by rewrite Hm. Qed.
Lemma evolves_bind {A B} (m : DM A) (k : A → DM B) : evolves m → (∀ a, evolves (k a)) → evolves (m ≫= k).
Proof.
  intros Hm Hk c. specialize (Hm c). unfold mbind, SM_bind. destruct (m c) as [[a|e|] c']; [|done..].
  etransitivity; [exact Hm|apply Hk].
Qed.
Lemma evolves_catch {A} C (m : DM A) h : evolves m → (∀ e, evolves (h e)) → evolves (catch C m h).
Proof.
  intros Hm Hh c. specialize (Hm c). unfold catch. destruct (m c) as [[a|e|] c']; [done| |done].
  destruct (C e); [|done]. etransitivity; [exact Hm|apply Hh].
Qed.
Lemma evolves_reify {A} (m : DM A) : evolves m → evolves (reify m).
Proof.
  intros Hm c. specialize (Hm c). unfold reify. destruct (m c) as [[a|e|] c']; [done| |done]. by destruct (is_exception e).
Qed.
Lemma evolves_when b (m : DM ()) : evolves m → evolves (when b m).
Proof. destruct b; [done|]. intros _. by apply evolves_still. Qed.
Lemma evolves_iter {A} (body : A → DM ()) l : (∀ a, evolves (body a)) → evolves (iter body l).
Proof. intros Hb. induction l; [by apply evolves_still|]. by apply evolves_bind. Qed.

(** The parts that both kinds of steps have. *)
Record harmless_steps : Prop := {
  hs_modify g : (∀ c, good c → good (g c) ∧ stream (g c) = stream c ∧ (c_canSendStderr c = false → c_canSendStderr (g c) = false)) →
    evolves (modify g);
  hs_good {A} (m : DM A) : (∀ c, good c → P c (m c).2) → evolves m;
  hs_log msg : evolves (tunnelStderr msg)
}.
Context (Hh : harmless_steps).

Lemma evolves_assign g :
  (∀ c, c_to (g c) = c_to c ∧ c_sent (g c) = c_sent c ∧ c_isInterrupted (g c) = c_isInterrupted c ∧
    (c_canSendStderr c = false → c_canSendStderr (g c) = false)) → evolves (modify g).
Proof.
  intros Hg. apply (hs_modify Hh). intros c Hc. destruct (Hg c) as (E1 & E2 & E3 & E4). unfold good, stream in *.
  by rewrite E1, E2, E3.
Qed.

Lemma evolves_checkInterrupt : evolves checkInterrupt.
Proof. apply (hs_good Hh). intros c (Hc & _ & _). unfold checkInterrupt. by rewrite Hc. Qed.

Lemma evolves_signal : evolves deliver_signal.
Proof.
  apply evolves_bind; [by apply evolves_still|intros on]. apply evolves_when. unfold sigPollHandler. intros c.
  unfold mbind, SM_bind, reify. rewrite (isFarSideClosed_false Hsilent). cbn [is_exception].
  etransitivity; [|apply evolves_assign; by intros []]. change (on_polls S c) with (modify (on_polls S) c).2.
  apply evolves_assign. by intros [].
Qed.

Lemma evolves_session {io A T} (step : ∀ X, io X → T → DM (outcome X * T)) (s : session io W A) t :
  (∀ X i t, evolves (step X i t)) → evolves (run_session step s t).
Proof.
  intros Hstep. revert t. induction s as [r w|msg k IH|k IH|k IH|X i k IH]; intros t; cbn [run_session].
  - apply evolves_bind; [apply evolves_assign; by intros []|intros _; by apply evolves_still].
  - apply evolves_bind; [apply evolves_reify, (hs_log Hh)|intros r; apply IH].
  - apply evolves_bind; [apply evolves_signal|intros _; apply IH].
  - apply evolves_bind; [apply evolves_reify, evolves_checkInterrupt|intros r; apply IH].
  - apply evolves_bind; [apply Hstep|intros [r t']; apply IH].
Qed.

Lemma evolves_store_call {A} (op : store_op no_io A) : evolves (store_call op).
Proof.
  apply evolves_bind; [by apply evolves_still|intros w]. apply evolves_bind; [apply evolves_session; by intros X []|].
  intros [r []]. by apply evolves_still.
Qed.

Lemma evolves_printInfo s : evolves (printInfo s).
Proof.
  apply evolves_bind; [by apply evolves_still|intros v]. apply evolves_when, evolves_bind; [apply evolves_checkInterrupt|].
  intros _. apply (hs_log Hh).
Qed.

Lemma evolves_recv {A} (m : FdSource → outcome (A * FdSource)) : evolves (recv m).
Proof.
  apply (hs_good Hh). intros c Hc. destruct Hc as (Hi & Hs & Hw). unfold recv. rewrite Hi.
  destruct (m (c_from c)) as [[a s]| |]; [|done..]. change (on_from (λ _, s) c) with (modify (on_from (λ _, s)) c).2.
  apply evolves_assign. by intros [].
Qed.
End evolution.

Lemma tunnelStderr_spec msg c : good c →
  ∃ c', tunnelStderr msg c = (Ret (), c') ∧ good c' ∧ mode c' = mode c ∧
    stream c' = stream c ++ (if c_canSendStderr c then notices [Message msg] else []).
Proof.
  intros Hc. destruct (c_canSendStderr c) eqn:Ecan.
  - destruct (put_spec (writeInt STDERR_NEXT) c Hc) as (c1 & E1 & Hc1 & S1 & M1).
    destruct (put_spec (writeString msg) c1 Hc1) as (c2 & E2 & Hc2 & S2 & M2).
    destruct (to_flush_spec c2 Hc2) as (c3 & E3 & Hc3 & S3 & M3 & _). exists c3. split_and!; [|done|congruence|].
    + unfold tunnelStderr, mbind, SM_bind, gets. rewrite Ecan. unfold catch. by rewrite E1, E2, E3.
    + rewrite notices_one, S3, S2, S1. cbn [notice_chunks]. by rewrite join_app, <-(assoc (++)).
  - exists (on_stderr (λ l, l ++ [msg]) c). split_and!; [|by destruct c|by destruct c|rewrite app_nil_r; by destruct c].
    unfold tunnelStderr, mbind, SM_bind, gets. rewrite Ecan. unfold checkInterrupt. by rewrite (proj1 Hc).
Qed.

Lemma harmless_notice : harmless_steps notice_step.
Proof.
  split.
  - intros g Hg c Hc. destruct (Hg c Hc) as (? & E & _). change ((modify g c).2) with (g c). split; [done|].
    exists []. by rewrite E, app_nil_r.
  - intros A m Hm c Hc. by apply Hm.
  - intros msg c Hc. destruct (tunnelStderr_spec msg c Hc) as (c' & -> & Hc' & _ & S'). split; [done|].
    simpl. rewrite S'. destruct (c_canSendStderr c); [by exists [Message msg]|by exists []].
Qed.

Lemma harmless_mute : harmless_steps mute_step.
Proof.
  split.
  - intros g Hg c Hc Hcan. destruct (Hg c Hc) as (? & E & H). by split_and!; [|apply H|].
  - intros A m Hm c Hc. by apply Hm.
  - intros msg c Hc Hcan. destruct (tunnelStderr_spec msg c Hc) as (c' & -> & Hc' & M' & S').
    rewrite Hcan, app_nil_r in S'. unfold mode in M'. simplify_eq. split_and!; [done|simpl; congruence|done].
Qed.

(** ** Working *)

Local Abbreviation noticing := (evolves notice_step).
Local Abbreviation mute := (evolves mute_step).

Lemma startWork_spec c : good c →
  ∃ c', startWork c = (Ret (), c') ∧ good c' ∧ stream c' = stream c ∧ mode c' = (true, true).
Proof.
  intros (Hi & Hs & Hw). unfold startWork, setSigPollAction, mbind, SM_bind, modify. rewrite (isFarSideClosed_false Hsilent).
  eexists. split_and!; [done|by destruct c|by destruct c|by destruct c].
Qed.

Lemma stopWork_spec c : good c →
  ∃ c', stopWork c = (Ret (), c') ∧ good c' ∧ stream c' = stream c ++ wire (writeInt STDERR_LAST) ∧ mode c' = (false, false).
Proof.
  intros (Hi & Hs & Hw). unfold stopWork, setSigPollAction, mbind, SM_bind, modify.
  destruct (put_spec (writeInt STDERR_LAST) (on_canSendStderr (λ _, false) (on_sigPoll (λ _, false) c))) as (c' & E & Hc' & S' & M').
  { by destruct c. }
  exists c'. split_and!; [done|done|by destruct c|done].
Qed.

Definition error_chunks (msg : bytes) (status : Z) : list bytes :=
  writeInt STDERR_ERROR ++ writeString msg ++ write_if (bool_decide (status ≠ 0)%Z) (writeInt status).

Lemma stopWork_error_spec msg status c : good c →
  ∃ c', stopWork_error msg status c = (Ret (), c') ∧ good c' ∧ stream c' = stream c ++ wire (error_chunks msg status) ∧
    mode c' = (false, false).
Proof.
  intros (Hi & Hs & Hw). unfold stopWork_error, setSigPollAction, mbind, SM_bind, modify.
  destruct (put_spec (writeInt STDERR_ERROR) (on_canSendStderr (λ _, false) (on_sigPoll (λ _, false) c))) as (c1 & -> & Hc1 & S1 & M1).
  { by destruct c. }
  destruct (put_spec (writeString msg) c1 Hc1) as (c2 & -> & Hc2 & S2 & M2).
  destruct (put_spec (write_if (bool_decide (status ≠ 0)%Z) (writeInt status)) c2 Hc2) as (c3 & E3 & Hc3 & S3 & M3).
  exists c3. split_and!; [by destruct (bool_decide _)|done| |by rewrite M3, M2, M1].
  unfold error_chunks. rewrite S3, S2, S1, !join_app. by rewrite <-!(assoc (++)).
Qed.

Lemma noticing_put n : noticing (put (notice_chunks n)).
Proof.
  intros c Hc. destruct (put_spec (notice_chunks n) c Hc) as (c' & -> & Hc' & S' & _). split; [done|].
  exists [n]. by rewrite notices_one.
Qed.

Lemma noticing_flush : noticing to_flush.
Proof.
  intros c Hc. destruct (to_flush_spec c Hc) as (c' & -> & Hc' & S' & _). split; [done|].
  exists []. by rewrite app_nil_r.
Qed.

Lemma noticing_startWork : noticing startWork.
Proof.
  intros c Hc. destruct (startWork_spec c Hc) as (c' & -> & Hc' & S' & _). split; [done|].
  exists []. by rewrite app_nil_r.
Qed.

(** A write in two parts. *)
Lemma noticing_puts n l l' {A} (k : () → DM A) : notice_chunks n = l ++ l' → (∀ u, noticing (k u)) →
  noticing (put l;; put l' ≫= k).
Proof.
  intros En Hk c. pose proof (evolves_bind notice_step _ _ (noticing_put n) Hk c) as H. rewrite En in H.
  unfold mbind, SM_bind in *. rewrite put_app in H. unfold mbind, SM_bind in H.
  by destruct (put l c) as [[[]| |] ?].
Qed.

Lemma noticing_tunnel_write data : noticing (tunnel_write data).
Proof.
  intros c. unfold tunnel_write. rewrite <-put_app. apply (noticing_put (Data data)).
Qed.

Lemma noticing_export path sign : noticing (tunnel_export path sign).
Proof.
  assert (∀ l, noticing (iter tunnel_write l)) as Hw by (intros l; apply evolves_iter; [apply _|apply noticing_tunnel_write]).
  apply evolves_bind; [apply _|by apply evolves_still; [apply _|]|intros w].
  apply evolves_bind; [apply _| |].
  - apply evolves_session; [apply _|apply harmless_notice|]. intros X [data] t.
    apply evolves_bind; [apply _|by apply evolves_still; [apply _|]|intros s].
    apply evolves_bind; [apply _|by apply evolves_reify|intros r]. by apply evolves_still; [apply _|].
  - intros [[u|e|] sink]; [apply Hw| |by apply evolves_still; [apply _|]].
    destruct (is_Error e); (apply evolves_bind; [apply _| |intros _; by apply evolves_still; [apply _|]]).
    + apply Hw.
    + by apply evolves_still; [apply _|].
Qed.

Lemma noticing_readUnbuffered len : noticing (tunnel_readUnbuffered len).
Proof.
  unfold tunnel_readUnbuffered, setSigPollAction.
  apply evolves_bind; [apply _|apply evolves_assign; [apply harmless_notice|by intros []]|intros _].
  apply evolves_bind; [apply _|apply evolves_assign; [apply harmless_notice|by intros []]|intros _].
  apply (noticing_puts (Wanted len)); [done|intros _].
  apply evolves_bind; [apply _|apply noticing_flush|intros _].
  apply evolves_bind; [apply _|apply evolves_recv, harmless_notice; apply _|intros data].
  apply evolves_bind; [apply _|apply noticing_startWork|intros _].
  destruct (decide _); by apply evolves_still; [apply _|].
Qed.

Lemma noticing_import b : noticing (tunnel_import b).
Proof.
  apply evolves_bind; [apply _|by apply evolves_still; [apply _|]|intros w].
  apply evolves_bind; [apply _| |intros [r ?]; by apply evolves_still; [apply _|]].
  apply evolves_session; [apply _|apply harmless_notice|]. intros X [len] t.
  apply evolves_bind; [apply _|apply evolves_reify|intros [[]| |]; by apply evolves_still; [apply _|]].
  apply evolves_bind; [apply _| |intros t'; by apply evolves_still; [apply _|]].
  destruct (decide _); [|by apply evolves_still; [apply _|]].
  apply evolves_bind; [apply _|apply noticing_readUnbuffered|intros data; by apply evolves_still; [apply _|]].
Qed.

(** ** What comes before the work *)

Lemma mute_still {A} (m : DM A) : (∀ c, (m c).2 = c) → mute m.
Proof. apply evolves_still, _. Qed.
Lemma mute_bind {A B} (m : DM A) (k : A → DM B) : mute m → (∀ a, mute (k a)) → mute (m ≫= k).
Proof. apply evolves_bind, _. Qed.
Lemma mute_when b (m : DM ()) : mute m → mute (when b m).
Proof. apply evolves_when, _. Qed.
Lemma mute_settings {A} (m : SM Globals.Settings A) : mute (with_settings m).
Proof.
  intros c. unfold with_settings. destruct (m (c_settings c)) as [r st].
  change (on_settings (λ _, st) c) with (modify (on_settings (λ _, st)) c).2.
  apply (evolves_assign _ harmless_mute). by intros [].
Qed.

Ltac mute :=
  repeat match goal with
  | |- evolves mute_step (_ ≫= _) => apply mute_bind; [|intros ?]
  | |- evolves mute_step (when _ _) => apply mute_when
  | |- evolves mute_step (set_setting _) => apply (evolves_assign _ harmless_mute); by intros []
  | |- evolves mute_step (modify _) => apply (evolves_assign _ harmless_mute); by intros []
  | |- evolves mute_step (with_settings _) => apply mute_settings
  | |- evolves mute_step (setting _) => by apply mute_still
  | |- evolves mute_step (gets _) => by apply mute_still
  | |- evolves mute_step (lift _) => by apply mute_still
  | |- evolves mute_step (mret _) => by apply mute_still
  end.

Lemma mute_set_option trusted name value : mute (set_option trusted name value).
Proof.
  unfold set_option. mute. destruct (decide _); [mute|]. destruct (_ && _); [|mute].
  destruct (getpwnam _); [apply evolves_store_call, harmless_mute|apply evolves_printInfo, harmless_mute]; apply _.
Qed.

Lemma mute_options trusted minor o : mute (apply_options trusted minor o).
Proof. unfold apply_options. mute. apply evolves_iter; [apply _|]. intros []. apply mute_set_option. Qed.

Lemma mute_pre trusted minor r : mute (pl_pre (plan_of trusted minor r)).
Proof.
  destruct r; cbn [plan_of pl_pre ask ask_one]; try (by apply mute_still); [mute|apply mute_options|mute].
Qed.

(** ** The work *)

Lemma noticing_bind {A B} (m : DM A) (k : A → DM B) : noticing m → (∀ a, noticing (k a)) → noticing (m ≫= k).
Proof. apply evolves_bind, _. Qed.
Lemma noticing_still {A} (m : DM A) : (∀ c, (m c).2 = c) → noticing m.
Proof. apply evolves_still, _. Qed.
Lemma noticing_call {A} (op : store_op no_io A) : noticing (store_call op).
Proof. apply evolves_store_call, harmless_notice; apply _. Qed.

Ltac noticing :=
  repeat match goal with
  | |- evolves notice_step (_ ≫= _) => apply noticing_bind; [|intros ?]
  | |- evolves notice_step (store_call _) => apply noticing_call
  | |- evolves notice_step (tunnel_export _ _) => apply noticing_export
  | |- evolves notice_step (tunnel_import _) => apply noticing_import
  | |- evolves notice_step (if ?b then _ else _) => destruct b
  | |- evolves notice_step nixStore => by apply noticing_still
  | |- evolves notice_step (setting _) => by apply noticing_still
  | |- evolves notice_step (lift _) => by apply noticing_still
  | |- evolves notice_step (mret _) => by apply noticing_still
  end.

Lemma noticing_work trusted minor r : noticing (pl_work (plan_of trusted minor r)).
Proof. destruct r; cbn [plan_of pl_work ask ask_one]; noticing. Qed.

(** * Replies *)

Definition reported_status (v : Z) (e : exn) : Z := if bool_decide (8 <= GET_PROTOCOL_MINOR v)%Z then exn_status e else 0.

(** Between two requests. *)
Definition idle c : Prop := good c ∧ mode c = (false, false).

(** The whole of what the client receives for a request. *)
Definition answered (v : Z) (p : plan) c c' : Prop :=
  ∃ c0 c1 c2 ns, pl_pre p c = (Ret (), c0) ∧ startWork c0 = (Ret (), c1) ∧
    ((∃ a reply, pl_work p c1 = (Ret a, c2) ∧ pl_reply p a = Ret reply ∧
        stream c' = stream c ++ notices ns ++ wire (writeInt STDERR_LAST) ++ wire reply) ∨
     (∃ e, pl_work p c1 = (Throw e, c2) ∧ is_Error e = true ∧
        stream c' = stream c ++ notices ns ++ wire (error_chunks (exn_msg e) (reported_status v e)))).

(** A request that is answered: its work ends with a result, or with an error while
    the client expects messages. *)
Definition answerable (p : plan) c : Prop :=
  ∃ c0 c1, pl_pre p c = (Ret (), c0) ∧ startWork c0 = (Ret (), c1) ∧
    ((∃ a reply c2, pl_work p c1 = (Ret a, c2) ∧ pl_reply p a = Ret reply) ∨
     (∃ e c2, pl_work p c1 = (Throw e, c2) ∧ is_Error e = true ∧ c_canSendStderr c2 = true)).

(** The handlers return only for an error that they may report. *)
Lemma operation_failed_spec v e c c' : good c → operation_failed v e c = (Ret (), c') →
  is_Error e = true ∧ c_canSendStderr c = true ∧ idle c' ∧
  stream c' = stream c ++ wire (error_chunks (exn_msg e) (reported_status v e)).
Proof.
  intros Hc. unfold operation_failed. destruct (is_Error e).
  - destruct (stopWork_error_spec (exn_msg e) (reported_status v e) c Hc) as (c1 & E & Hc1 & S1 & M1).
    unfold mbind, SM_bind, gets. fold (reported_status v e). rewrite E.
    destruct (c_canSendStderr c); simpl; intros [= <-]. done.
  - destruct (stopWork_error_spec (str "build daemon out of memory")
      (if bool_decide (8 <= GET_PROTOCOL_MINOR v)%Z then 1 else 0)%Z c Hc) as (c1 & E & _).
    unfold mbind, SM_bind. by rewrite E.
Qed.

Lemma operation_failed_reports v e c : good c → c_canSendStderr c = true → is_Error e = true →
  ∃ c', operation_failed v e c = (Ret (), c').
Proof.
  intros Hc Hcan He. destruct (stopWork_error_spec (exn_msg e) (reported_status v e) c Hc) as (c1 & E & _).
  exists c1. unfold operation_failed, mbind, SM_bind, gets. fold (reported_status v e). by rewrite He, E, Hcan.
Qed.

(** Errors before the work, and in the reply, are not answered. *)
Lemma operation_failed_shut v e c : good c → c_canSendStderr c = false → (operation_failed v e c).1 ≠ Ret ().
Proof.
  intros Hc Hcan E. destruct (operation_failed v e c) as [[[]| |] c'] eqn:Ec; try done.
  apply operation_failed_spec in Ec as (_ & H & _); [congruence|done].
Qed.

Lemma catch_shut v C (m : DM ()) c e c0 c' : good c0 → c_canSendStderr c0 = false → m c = (Throw e, c0) →
  catch C m (operation_failed v) c ≠ (Ret (), c').
Proof.
  intros Hc Hcan Em. unfold catch. rewrite Em. destruct (C e); [|done].
  intros E. eapply (operation_failed_shut v e); [done..|]. by rewrite E.
Qed.

#[local] Opaque put stopWork startWork to_flush operation_failed.

Lemma serve_answered C v p c c' : mute (pl_pre p) → noticing (pl_work p) → good c → c_canSendStderr c = false →
  catch C (serve p) (operation_failed v) c = (Ret (), c') → idle c' ∧ answered v p c c'.
Proof.
  intros Hpre Hwork Hc Hcan E. specialize (Hpre c Hc Hcan).
  destruct (pl_pre p c) as [r0 c0] eqn:E0. destruct Hpre as (Hc0 & Hcan0 & S0). cbn [snd] in *.
  destruct r0 as [[]|e|];
    [|by eapply catch_shut in E; [..|unfold serve, mbind, SM_bind; by rewrite E0]
     |by unfold catch, serve, mbind, SM_bind in E; rewrite E0 in E].
  destruct (startWork_spec c0 Hc0) as (c1 & E1 & Hc1 & S1 & M1).
  destruct (Hwork c1 Hc1) as [Hc2 (ns & S2)]. destruct (pl_work p c1) as [r2 c2] eqn:E2. cbn [snd] in *.
  assert (serve p c = match r2 with
    | Ret a => (stopWork;; reply ← lift (pl_reply p a); put reply) c2
    | Throw e => (Throw e, c2) | OutOfFuel => (OutOfFuel, c2) end) as Es.
  { unfold serve, work, mbind, SM_bind. rewrite E0, E1, E2. destruct r2; [|done..]. by destruct (stopWork c2) as [[]]. }
  destruct r2 as [a|e|].
  - destruct (stopWork_spec c2 Hc2) as (c3 & E3 & Hc3 & S3 & M3). unfold mbind, SM_bind in Es. rewrite E3 in Es.
    unfold lift in Es. destruct (pl_reply p a) as [reply|e|] eqn:Er;
      [|by eapply catch_shut in E; [..|exact Es]; [| |unfold mode in M3; congruence]
       |by unfold catch in E; rewrite Es in E].
    destruct (put_spec reply c3 Hc3) as (c4 & E4 & Hc4 & S4 & M4). rewrite E4 in Es.
    unfold catch in E. rewrite Es in E. injection E as <-. split; [split; [done|congruence]|].
    exists c0, c1, c2, ns. split_and!; [done|done|]. left. exists a, reply. split_and!; [done|done|].
    rewrite S4, S3, S2, S1, S0. by rewrite <-!(assoc (++)).
  - unfold catch in E. rewrite Es in E. destruct (C e); [|done].
    apply operation_failed_spec in E as (He & _ & Hi & S'); [|done]. split; [done|].
    exists c0, c1, c2, ns. split_and!; [done|done|]. right. exists e. split_and!; [done|done|].
    rewrite S', S2, S1, S0. by rewrite <-!(assoc (++)).
  - unfold catch in E. by rewrite Es in E.
Qed.

Lemma complete_answered v trusted minor r c c' : good c → c_canSendStderr c = false →
  complete v (serve (plan_of trusted minor r)) c = (Ret (), c') →
  idle c' ∧ buffer (c_to c') = [] ∧ answered v (plan_of trusted minor r) c c'.
Proof.
  intros Hc Hcan. unfold complete. unfold mbind at 1, SM_bind at 1.
  destruct (catch _ _ _ c) as [[[]| |] c1] eqn:E; [|done..].
  apply serve_answered in E as [(Hc1 & M1) Ha]; [|apply mute_pre|apply noticing_work|done|done].
  destruct (to_flush_spec c1 Hc1) as (c2 & E2 & Hc2 & S2 & M2 & B2). unfold mbind, SM_bind, gets. rewrite E2.
  assert (c_canSendStderr c2 = false) as -> by (unfold mode in *; congruence). intros [= <-].
  split_and!; [split; [done|congruence]|done|]. unfold answered in *. by rewrite S2.
Qed.

Lemma complete_returns v trusted minor r c : good c → c_canSendStderr c = false →
  answerable (plan_of trusted minor r) c → ∃ c', complete v (serve (plan_of trusted minor r)) c = (Ret (), c').
Proof.
  intros Hc Hcan (c0 & c1 & E0 & E1 & Hcase). set (C := λ e, is_Error e || bool_decide (e = BadAlloc)).
  assert (∃ c', catch C (serve (plan_of trusted minor r)) (operation_failed v) c = (Ret (), c')) as [c3 E3].
  { pose proof (mute_pre trusted minor r c Hc Hcan) as (Hc0 & _ & _). rewrite E0 in Hc0. cbn [snd] in Hc0.
    destruct (startWork_spec c0 Hc0) as (c1' & E1' & Hc1 & _). rewrite E1 in E1'. injection E1' as <-.
    destruct (noticing_work trusted minor r c1 Hc1) as [Hc2 _].
    destruct Hcase as [(a & reply & c2 & E2 & Er)|(e & c2 & E2 & He & Hcan2)]; rewrite E2 in Hc2; cbn [snd] in Hc2.
    - destruct (stopWork_spec c2 Hc2) as (c3 & E3 & Hc3 & _). destruct (put_spec reply c3 Hc3) as (c4 & E4 & _).
      exists c4. unfold catch, serve, work, lift, mbind, SM_bind, mret, SM_ret. rewrite E0, E1, E2, E3. cbn beta iota. by rewrite Er, E4.
    - destruct (operation_failed_reports v e c2 Hc2 Hcan2 He) as [c3 E3]. exists c3.
      unfold catch, serve, work, mbind, SM_bind. rewrite E0, E1, E2. unfold C. by rewrite He. }
  destruct (serve_answered C v _ _ _ (mute_pre trusted minor r) (noticing_work trusted minor r) Hc Hcan E3) as [[Hc3 M3] _].
  destruct (to_flush_spec c3 Hc3) as (c4 & E4 & _ & _ & M4 & _). exists c4.
  unfold complete. unfold mbind, SM_bind, gets. fold C. rewrite E3, E4.
  by assert (c_canSendStderr c4 = false) as -> by (unfold mode in *; congruence).
Qed.

Lemma complete_answerable v trusted minor r c c' : good c → c_canSendStderr c = false →
  complete v (serve (plan_of trusted minor r)) c = (Ret (), c') → answerable (plan_of trusted minor r) c.
Proof.
  intros Hc Hcan E. set (p := plan_of trusted minor r) in *. unfold complete in E. unfold mbind at 1, SM_bind at 1 in E.
  destruct (catch _ _ _ c) as [[[]| |] c1] eqn:Ec; [|done..].
  destruct (serve_answered _ v p c c1 (mute_pre trusted minor r) (noticing_work trusted minor r) Hc Hcan Ec)
    as [_ (c0 & c1' & c2 & ns & E0 & E1 & Hcase)].
  exists c0, c1'. split_and!; [done|done|]. destruct Hcase as [(a & reply & E2 & Er & _)|(e & E2 & He & _)]; [left; by exists a, reply, c2|].
  right. exists e, c2. split_and!; [done|done|]. unfold catch, serve, work, mbind, SM_bind in Ec.
  rewrite E0, E1, E2, He in Ec. cbn [orb] in Ec.
  pose proof (mute_pre trusted minor r c Hc Hcan) as (Hc0 & _ & _). fold p in Hc0. rewrite E0 in Hc0. cbn [snd] in Hc0.
  destruct (startWork_spec c0 Hc0) as (c1'' & E1' & Hc1 & _). rewrite E1 in E1'. injection E1' as <-.
  destruct (noticing_work trusted minor r c1' Hc1) as [Hc2 _]. fold p in Hc2. rewrite E2 in Hc2. cbn [snd] in Hc2.
  by apply operation_failed_spec in Ec as (_ & ? & _).
Qed.
End output.



(** An export, as the client sees it. *)
Example exports_a_path :
  let '(r, c) := toy_run toy_network (LocalPeer 1000 100) [rqExportPath (sp "x") false] [sp "x"] in
  r = Ret () ∧
  received c = wire (
    writeInt WORKER_MAGIC_2 ++ writeInt PROTOCOL_VERSION ++ writeInt STDERR_LAST ++
    notice_chunks (Data (sp "x")) ++ writeInt STDERR_LAST ++ writeInt 1).
Proof. by vm_compute. Qed.
